(* ===== verification/_CoqProject ===== *)
-Q . S2P
Prelude.v
Coding.v
Comparator.v
Filename.v
MemEnv.v
DBFormat.v
Bloom.v
FilterBlock.v
Crc32c.v
Log.v
Block.v
Format.v
TableBuilder.v
Table.v
Cache.v
Dependency.v
ValueLog.v
SkipList.v
MemTable.v
WriteBatch.v
DBWrite.v
DBLive.v
Containers.v
VersionEdit.v
Version.v
TableCache.v
DBRead.v
DBFiles.v
VersionSet.v
Manifest.v
Compaction.v
CompactionPick.v
Iterator.v
Merger.v
TwoLevel.v
TableIter.v
DBIter.v
VCompaction.v
BuildTable.v
ZOrder.v
Snapshot.v
Arena.v
