(* ===== verification/Prelude.v ===== *)
(** * Doux: a verified model of the storage engine

    Doux is a key-value store derived from LevelDB. Updates are collected in
    write batches, appended to a write-ahead log and inserted into a memtable;
    a full memtable becomes a sorted table on disk. Doux keeps large values
    apart from the keys: a key table holds addresses (file, block number, block
    offset) of entries of value tables, which are ordered by a sort key taken
    from the value; compaction moves blocks of value tables and a dependency
    graph redirects the old addresses. Value logs are an older form of the
    separation.

    ** Files

    - [Prelude] (this file): bytes, machine integers with their wrap-around,
      slices, shared tactics, hints and lemmas.
    - [Coding] (util/coding): fixed-width and variable-length integers.
    - [Comparator] (include/leveldb/slice.h, comparator.h, util/comparator.cc):
      slices, the [Comparator] interface with the class [ComparatorLaws], the
      bytewise and the value-key comparators.
    - [Filename] (db/filename.cc, util/logging.cc): the names of files and
      their parser. [MemEnv] (include/leveldb/env.h, util/env.cc,
      helpers/memenv): the class [Env] of file systems with [EnvLaws], what the
      library builds on it ([SetCurrentFile]), and the in-memory environment,
      which discharges the laws.
    - [DBFormat] (db/dbformat, db/builder.h): internal keys and their order,
      lookup keys, the filter-policy interface with the class [FilterLaws].
    - [Bloom] (util/hash.cc, util/bloom.cc) and [FilterBlock]
      (table/filter_block): the Bloom filter discharges [FilterLaws]; the
      filter block is proved over any lawful policy.
    - [Crc32c] (util/crc32c): checksums against a bit-by-bit definition.
    - [Log] (db/log_writer.cc, db/log_reader.cc): the write-ahead log.
    - [Block] (table/block_builder.cc, table/block.h), [Format]
      (table/format.cc), [TableBuilder] (table/table_builder.cc), [Table]
      (table/table.cc): sorted tables, from entries to bytes and back. The
      block cache is the class [BlockCache] with [BlockCacheLaws], which the
      LRU cache of [Cache] (util/cache.cc) discharges.
    - [Dependency] (impl/dependency.h): redirections of moved blocks, their
      file, and the union-find of files.
    - [ValueLog] (mod/Vlog.cpp, mod/GroupedValueLog.cpp): value logs.
    - [SkipList] (db/skiplist.h, util/random.h), [MemTable] (db/memtable.cc),
      [WriteBatch] (db/write_batch.cc): the path of an update into memory.
    - [Containers]: std::set as a sorted list. [VersionEdit]
      (db/version_edit.cc): records of the manifest. [Version] and [VersionSet]
      (db/version_set.cc): the search for files and keys in a version, and how
      versions are built, logged and recovered. A version reads its tables
      through a parameter that threads a state, so that [TableCache]
      (db/table_cache.cc) can stand there: open tables in the sharded cache.
      [Manifest]: what a manifest recovers to.
    - [DBRead] (db/db_impl.cc): lookups of the database over memtables and a
      version, and the separation of values. [DBFiles] (db/db_impl.cc,
      db/version_set.cc): which files a database deletes, and which it requires.
      [BuildTable] (db/builder.cc): the flush of a memtable into a table, or
      into a value table and a key table.
    - [Compaction] (db/db_impl.cc, [DoCompactionWork]): the loop that merges
      tables and drops entries. [CompactionPick] (db/version_set.cc): the choice
      of its inputs. [VCompaction] (db/db_impl.cc, [DoVCompactionWork]): the
      compaction of value tables and the redirections it records.
    - [Iterator] (include/leveldb/iterator.h, table/iterator_wrapper.h): the
      iterator interface, the class [IteratorLaws] that ties an iterator to a
      cursor over a sorted list, and the instance for blocks. [Merger]
      (table/merger.cc), [TwoLevel] (table/two_level_iterator.cc), [TableIter]
      (table/table.cc) and [DBIter] (db/db_iter.cc): iterators over lawful
      iterators, each proved lawful in turn.
    - [DBWrite] (db/db_impl.cc): the queue of writers, group commit and the
      recovery of a log, as a transition system over the components above, with
      the scheduling of background work and the signal that wakes a leader.
      [DBLive]: that its writers return, and where they do not.
    - [Arena] (util/arena), over the class [Allocator] of [new char[]];
      [Snapshot] (db/snapshot.h): the linked list of snapshots.
    - [ZOrder] (impl/zorder): Morton codes, boxes and intervals of codes.

    ** How the code is modelled

    A C++ integer is a [Z] and every operation that may wrap is followed by
    [u32], [u64], [i32] and so on. A string or slice is a list of bytes. A
    class is a record with a function per method, named as in the source.
    Status results are sums or options of an error type. Files are parameters
    ([Append], [Flush], [Read]) where the code runs over any file, and a byte
    list where the theorem is about what is written. Code that is not in the
    repository (Snappy, the accelerated checksum, the operating system) is a
    parameter, with its documented behaviour as a class of laws.

    An assertion that the code may fail, and an abort, is a [None] of the model:
    the empty keys of [InternalKey::Encode], the ranges of [AddMapping], the
    files of a level that overlap and the log number of an edit, those of the
    LRU cache and of the Morton codes. Those that the switch NDEBUG_SWITCH of
    the build leaves out are under a parameter [NDEBUG], and the theorems say
    for which of its values they hold. Assertions that only restrict the
    arguments of a function, such as a file number above 0, are preconditions of
    the theorems.

    Loops that are not structural take fuel, and [None] is out of fuel; the
    theorems prove results, so that the fuel given is enough: the bytes left to
    read for the log reader, two turns more than the length for the log writer,
    nodes and levels for the searches of the skip list, the bytes of a block
    for its iterator, the bytes of a batch for [Iterate], the bytes of an edit
    for its decoder, the halvings of a range of files for [FindFile], the
    restarts of [GetOverlappingInputs] (at most two per file), the files of a
    level for [AddBoundaryInputs], the entries of the index for the loops of the
    two-level iterator and the internal entries for those of the database
    iterator (both iterators carry a bound), the entries of a table for the scan
    of a value compaction, the links of a dependency forest for its root, and
    two turns per code for the splitting of a box of points. Threads appear in
    [DBWrite] as interleaved steps, one per section between two releases of
    the mutex; elsewhere the code under a lock, and the skip list's single
    writer, are sequential functions.

    ** What is proved

    - Round trips: integers, internal keys, block handles, footers, stored
      blocks, log files, write batches, version edits, the dependency graph's
      file, file names, Morton codes, separated values.
    - Refinement: the block iterator follows an abstract cursor over the
      entries, the two-level iterator one over a table, the merging iterator one
      over the merge of its sources, and the database iterator one over the
      newest visible values; a table answers lookups as the sorted list of its entries does,
      with any block cache; the skip list is a sorted list, the memtable the
      sequence of its writes read at a snapshot; the union-find a partition; a
      version answers a lookup with the newest visible entry of its tables, the
      database with the newest of memtables and version; a flush with separated
      values writes the newest value of every key, and addresses that lead to
      them; the intervals of a box of points are the codes of its points.
    - Invariants: under any interleaving of writers, leader and background
      thread, the acknowledged writes are those of the tables and memtables,
      in order; recovery of a log cut anywhere yields whole groups, in order;
      recovery of a manifest cut anywhere yields a set of files that the store
      had, or that its last, failed call was to give. The files of the log and
      the manifest append reliably in these theorems, and the mode is one that
      writes a log.
    - Liveness: from every state that a new database can reach there is a way
      on in which every writer returns, and a leader that sleeps has a
      background call scheduled that wakes it. That threads are run is assumed.
    - Equivalence: the strided checksum and the bitwise one; lookups through the
      table cache and lookups in the files.
    - The theorems on tables hold for any filter policy whose filter block is
      shorter than 4 GiB; a filter can suppress an answer for a key that was not
      added.
    - Safety: filters never hide a key, checksums detect bursts, a torn log
      reads as a prefix, CURRENT names a whole manifest after a failure at any
      point, no file in use is deleted, the pieces of an arena share no byte, an
      address of a value log or of a value table leads to its value, if it fits
      the buffer for reads, a moved block is found, a compaction (in the modes
      other than 9) keeps what readers of the snapshots in use can see, a
      compaction of value tables the newest value of every key.
    - Termination of the log, the batch iterator and the searches on any
      input; bounds of the decoders on corrupt input.
    - Defects: theorems that exhibit where the code does not do what it means
      to ([SeekToNth], the overflow in [DecodeEntry], the endless loop of
      [DecrementRangeRef], the cut of long redirection chains, the cyclic
      fallback of the internal comparator, the forgotten failure of a sync, the
      database that hangs when it is opened with many files in level 0, the
      errors for empty memtables in a flush and in a recovery, the dependencies
      missing from a manifest's snapshot, the deleted key that a compaction
      brings back, the old value that a value compaction pairs with a new key,
      the block whose entries it parts, the key table that is installed although
      its value table failed, the missing key that is not reported, the large
      value that overflows the buffer of a value log, the last interval that an
      iterator over a box misses).

    ** Not modelled

    The POSIX and Windows environments, the C bindings, benchmarks, repair and
    dump tools (operating system calls and glue); the learned index and the
    histogram (floating point); opening and closing a database, and manual
    compactions; the second phase of a compaction in mode 9, which rewrites
    values; the garbage collection of value logs; VMergingIterator and DBVIter, the scans in the order of sort
    keys; the operators of [Region] in impl/zorder, which do not compile when
    instantiated. Of the modelled files, statistics, timers, the text of statuses
    and debug strings are left out. *)

From stdpp Require Export base numbers option list gmap.
#[export] Set Default Goal Selector "1".
Open Scope Z_scope.

(** ** Bytes and machine-width integers *)

(** A byte is an integer in [0, 256); a [std::string], a [Slice] or a region of
    memory is the list of its bytes. *)
Abbreviation byte := Z (only parsing).
Abbreviation bytes := (list Z).

Definition byte_ok (b : Z) : Prop := 0 ≤ b < 256.
Definition bytes_ok (s : bytes) : Prop := Forall byte_ok s.

#[export] Instance byte_ok_dec b : Decision (byte_ok b).
Proof. unfold byte_ok. apply _. Defined.

#[export] Instance bytes_ok_dec s : Decision (bytes_ok s).
Proof. unfold bytes_ok. apply _. Defined.

(** Conversion to the unsigned C++ integer types. *)
Definition u8 (x : Z) : Z := x `mod` 2 ^ 8.
Definition u32 (x : Z) : Z := x `mod` 2 ^ 32.
Definition u64 (x : Z) : Z := x `mod` 2 ^ 64.

(** Conversion to the signed types: two's complement. *)
Definition i8 (x : Z) : Z := (x + 2 ^ 7) `mod` 2 ^ 8 - 2 ^ 7.
Definition i32 (x : Z) : Z := (x + 2 ^ 31) `mod` 2 ^ 32 - 2 ^ 31.

Definition u32_ok (x : Z) : Prop := 0 ≤ x < 2 ^ 32.
Definition u64_ok (x : Z) : Prop := 0 ≤ x < 2 ^ 64.

(** [size()] of a string or vector, as an integer. *)
Definition len {A} (l : list A) : Z := Z.of_nat (length l).

(** [s[i]] and the sub-slice [Slice(s + off, n)]. *)
Definition at_ (s : bytes) (i : Z) : Z := nth (Z.to_nat i) s 0.
Definition slice (s : bytes) (off n : Z) : bytes :=
  take (Z.to_nat n) (drop (Z.to_nat off) s).
Definition skip {A} (n : Z) (s : list A) : list A := drop (Z.to_nat n) s.
Definition first {A} (n : Z) (s : list A) : list A := take (Z.to_nat n) s.

#[global] Arguments len : simpl never.
#[global] Arguments first : simpl never.
#[global] Arguments skip : simpl never.
#[global] Arguments slice : simpl never.
#[global] Arguments at_ : simpl never.
#[global] Arguments u8 : simpl never.
#[global] Arguments u32 : simpl never.
#[global] Arguments u64 : simpl never.

Create HintDb doux discriminated.
Create Rewrite HintDb doux.

(** ** Tactics *)

(** [bdestruct] on the boolean integer tests of the code. *)
Ltac zify_bool :=
  repeat match goal with
  | H : (_ =? _)%Z = true |- _ => apply Z.eqb_eq in H
  | H : (_ =? _)%Z = false |- _ => apply Z.eqb_neq in H
  | H : (_ <? _)%Z = true |- _ => apply Z.ltb_lt in H
  | H : (_ <? _)%Z = false |- _ => apply Z.ltb_ge in H
  | H : (_ <=? _)%Z = true |- _ => apply Z.leb_le in H
  | H : (_ <=? _)%Z = false |- _ => apply Z.leb_gt in H
  | H : (_ && _) = true |- _ => apply andb_prop in H as [? ?]
  | H : (_ || _) = false |- _ => apply orb_false_elim in H as [? ?]
  | H : negb _ = true |- _ => apply negb_true_iff in H
  | H : negb _ = false |- _ => apply negb_false_iff in H
  end.

(** Case analysis on the first boolean test of the goal. *)
Ltac case_if :=
  match goal with
  | |- context [if ?b then _ else _] =>
      match type of b with bool => destruct b eqn:? end
  end; zify_bool.

(** Solves range and length side conditions after unfolding [len] and the
    integer types. *)
Ltac ulia :=
  unfold u32_ok, u64_ok, byte_ok, len in *; simpl in *; lia.

(** Discharges a decidable closed goal by evaluating its decision procedure. *)
Ltac by_decide := apply (bool_decide_unpack _); vm_compute; exact I.

(** ** Lemmas on lists *)

Lemma len_nil {A} : len (@nil A) = 0.
Proof. done. Qed.

Lemma len_cons {A} (x : A) l : len (x :: l) = len l + 1.
Proof. unfold len. simpl. lia. Qed.

Lemma len_app {A} (l k : list A) : len (l ++ k) = len l + len k.
Proof. unfold len. rewrite length_app. lia. Qed.

Lemma len_nonneg {A} (l : list A) : 0 ≤ len l.
Proof. unfold len. lia. Qed.

#[export] Hint Resolve len_nonneg : doux.
#[export] Hint Rewrite @len_nil @len_cons @len_app : doux.

Lemma first_app {A} (l k : list A) n : n = len l → first n (l ++ k) = l.
Proof. intros ->. unfold first, len. rewrite Nat2Z.id. apply take_app_length. Qed.

Lemma skip_app {A} (l k : list A) n : n = len l → skip n (l ++ k) = k.
Proof. intros ->. unfold skip, len. rewrite Nat2Z.id. apply drop_app_length. Qed.

Lemma first_all {A} (l : list A) n : n = len l → first n l = l.
Proof. intros ->. unfold first, len. rewrite Nat2Z.id. apply take_ge. lia. Qed.

Lemma first_skip {A} n (l : list A) : first n l ++ skip n l = l.
Proof. apply take_drop. Qed.

Lemma len_skip {A} n (l : list A) : 0 ≤ n ≤ len l → len (skip n l) = len l - n.
Proof. unfold len, skip. rewrite length_drop. lia. Qed.

Lemma len_first {A} n (l : list A) : 0 ≤ n ≤ len l → len (first n l) = n.
Proof. unfold len, first. rewrite length_take. lia. Qed.

Lemma skip_0 {A} (l : list A) : skip 0 l = l.
Proof. done. Qed.

Lemma skip_skip {A} n m (l : list A) : 0 ≤ n → 0 ≤ m → skip n (skip m l) = skip (m + n) l.
Proof. intros. unfold skip. rewrite drop_drop. f_equal. lia. Qed.

Lemma slice_app (l k m : bytes) off n :
  off = len l → n = len k → slice (l ++ k ++ m) off n = k.
Proof.
  intros -> ->. unfold slice, len. rewrite !Nat2Z.id, drop_app_length.
  apply take_app_length.
Qed.

(** A prefix of [A ++ B] stops strictly inside [A], or holds all of it. *)
Lemma app_cut {A} (S U X Y : list A) :
  S ++ U = X ++ Y → (∃ V, V ≠ [] ∧ S ++ V = X) ∨ (∃ S2, S = X ++ S2 ∧ S2 ++ U = Y).
Proof.
  intros [(k & -> & ->)|([|x k] & -> & ->)]%app_eq_inv.
  - right. eauto.
  - right. exists []. by rewrite !app_nil_r.
  - left. by exists (x :: k).
Qed.

Lemma at_default s i : at_ s i = default 0 (s !! Z.to_nat i).
Proof. apply nth_lookup. Qed.

Lemma at_app_l s t i : 0 ≤ i < len s → at_ (s ++ t) i = at_ s i.
Proof. intros. rewrite !at_default, lookup_app_l; [done|]. unfold len in *. lia. Qed.

Lemma at_app_r s t i : len s ≤ i → at_ (s ++ t) i = at_ t (i - len s).
Proof.
  intros. rewrite !at_default, lookup_app_r by (unfold len in *; lia).
  do 2 f_equal. unfold len. lia.
Qed.

Lemma bytes_ok_app s t : bytes_ok (s ++ t) ↔ bytes_ok s ∧ bytes_ok t.
Proof. apply Forall_app. Qed.

Lemma bytes_ok_first n s : bytes_ok s → bytes_ok (first n s).
Proof. apply Forall_take. Qed.

Lemma bytes_ok_skip n s : bytes_ok s → bytes_ok (skip n s).
Proof. apply Forall_drop. Qed.

#[export] Hint Resolve bytes_ok_first bytes_ok_skip : doux.

(** ** Lemmas on integers *)

Lemma u8_range x : byte_ok (u8 x).
Proof. unfold byte_ok, u8. pose proof (Z.mod_pos_bound x (2^8)). lia. Qed.

Lemma u32_range x : u32_ok (u32 x).
Proof. unfold u32_ok, u32. apply Z.mod_pos_bound. lia. Qed.

Lemma u64_range x : u64_ok (u64 x).
Proof. unfold u64_ok, u64. apply Z.mod_pos_bound. lia. Qed.

Lemma u8_id x : byte_ok x → u8 x = x.
Proof. unfold byte_ok, u8. intros. apply Z.mod_small. lia. Qed.

Lemma u32_id x : u32_ok x → u32 x = x.
Proof. unfold u32_ok, u32. apply Z.mod_small. Qed.

Lemma u64_id x : u64_ok x → u64 x = x.
Proof. unfold u64_ok, u64. apply Z.mod_small. Qed.

#[export] Hint Resolve u8_range u32_range u64_range : doux.

(** A value below [2^k] or'ed with a value shifted by [k] is their sum. *)
Lemma lor_shiftl_add a b k :
  0 ≤ k → 0 ≤ a < 2 ^ k → Z.lor a (Z.shiftl b k) = a + b * 2 ^ k.
Proof.
  intros Hk Ha. rewrite <- Z.shiftl_mul_pow2 by lia.
  assert (Z.land a (Z.shiftl b k) = 0) as Hd.
  { apply Z.bits_inj'. intros i Hi.
    rewrite Z.land_spec, Z.bits_0, Z.shiftl_spec by lia.
    destruct (Z.ltb_spec i k).
    - rewrite (Z.testbit_neg_r b) by lia. apply andb_false_r.
    - rewrite <- (Z.mod_small a (2 ^ k)) by lia.
      by rewrite Z.mod_pow2_bits_high by lia. }
  rewrite Z.add_nocarry_lxor by done. symmetry. by apply Z.lxor_lor.
Qed.

Lemma land_low a k : 0 ≤ k → Z.land a (2 ^ k - 1) = a `mod` 2 ^ k.
Proof.
  intros. rewrite <- Z.land_ones by lia. by rewrite Z.ones_equiv.
Qed.

(** Decides a boolean property of every byte by running it on all 256. *)
Lemma byte_forall (P : Z → bool) :
  forallb P (seqZ 0 256) = true → ∀ b, byte_ok b → P b = true.
Proof.
  intros H b Hb. rewrite forallb_forall in H. apply H.
  apply list_elem_of_In, elem_of_seqZ. unfold byte_ok in Hb. lia.
Qed.
