(* ===== verification/Coding.v ===== *)
(** * util/coding.h, util/coding.cc: fixed-width and varint encodings

    Everything the program writes to disk is made of these encodings: fixed
    32- and 64-bit integers in little-endian order, the big-endian variants
    added for value-table keys, base-128 varints and length-prefixed slices.
    A writer takes the string it appends to and returns the extended string;
    a reader takes the bytes between [p] and [limit] and returns the value
    with the bytes it has not consumed, or [None] where the code returns
    [nullptr] or [false]. *)

From S2P Require Import Prelude.

(** ** Fixed-width integers *)

(** The object representation of an [n]-byte unsigned integer, least
    significant byte first. *)
Fixpoint le_bytes (n : nat) (v : Z) : bytes :=
  match n with
  | O => []
  | S n' => v `mod` 256 :: le_bytes n' (v / 256)
  end.

Fixpoint le_combine (s : bytes) : Z :=
  match s with
  | [] => 0
  | b :: s' => b + 256 * le_combine s'
  end.

(** What [memcpy] of an integer object copies, on either kind of machine. *)
Definition object_bytes (little : bool) (n : nat) (v : Z) : bytes :=
  if little then le_bytes n v else rev (le_bytes n v).

Definition object_value (little : bool) (s : bytes) : Z :=
  if little then le_combine s else le_combine (rev s).

(** [port::kLittleEndian] is fixed by the build; the two branches of each
    function are kept. *)
Module Port.

Definition EncodeFixed32 (kLittleEndian : bool) (value : Z) : bytes :=
  if kLittleEndian then object_bytes kLittleEndian 4 value
  else [Z.land value 255;
        Z.land (Z.shiftr value 8) 255;
        Z.land (Z.shiftr value 16) 255;
        Z.land (Z.shiftr value 24) 255].

Definition EncodeFixed64 (kLittleEndian : bool) (value : Z) : bytes :=
  if kLittleEndian then object_bytes kLittleEndian 8 value
  else [Z.land value 255;
        Z.land (Z.shiftr value 8) 255;
        Z.land (Z.shiftr value 16) 255;
        Z.land (Z.shiftr value 24) 255;
        Z.land (Z.shiftr value 32) 255;
        Z.land (Z.shiftr value 40) 255;
        Z.land (Z.shiftr value 48) 255;
        Z.land (Z.shiftr value 56) 255].

Definition DecodeFixed32 (kLittleEndian : bool) (ptr : bytes) : Z :=
  if kLittleEndian then object_value kLittleEndian (first 4 ptr)
  else Z.lor (Z.lor (Z.lor (at_ ptr 0)
         (u32 (Z.shiftl (at_ ptr 1) 8)))
         (u32 (Z.shiftl (at_ ptr 2) 16)))
         (u32 (Z.shiftl (at_ ptr 3) 24)).

Definition DecodeFixed64 (kLittleEndian : bool) (ptr : bytes) : Z :=
  if kLittleEndian then object_value kLittleEndian (first 8 ptr)
  else
    let lo := DecodeFixed32 kLittleEndian ptr in
    let hi := DecodeFixed32 kLittleEndian (skip 4 ptr) in
    Z.lor (u64 (Z.shiftl hi 32)) lo.

End Port.

(** The other components use the little-endian build: the repository includes
    [x86intrin.h] and builds only there. *)
Definition EncodeFixed32 (value : Z) : bytes := Port.EncodeFixed32 true value.
Definition EncodeFixed64 (value : Z) : bytes := Port.EncodeFixed64 true value.
Definition DecodeFixed32 (ptr : bytes) : Z := Port.DecodeFixed32 true ptr.
Definition DecodeFixed64 (ptr : bytes) : Z := Port.DecodeFixed64 true ptr.

Definition EncodeBigEndianFixed32 (value : Z) : bytes :=
  [Z.land (Z.shiftr value 24) 255;
   Z.land (Z.shiftr value 16) 255;
   Z.land (Z.shiftr value 8) 255;
   Z.land value 255].

Definition EncodeBigEndianFixed64 (value : Z) : bytes :=
  [Z.land (Z.shiftr value 56) 255;
   Z.land (Z.shiftr value 48) 255;
   Z.land (Z.shiftr value 40) 255;
   Z.land (Z.shiftr value 32) 255;
   Z.land (Z.shiftr value 24) 255;
   Z.land (Z.shiftr value 16) 255;
   Z.land (Z.shiftr value 8) 255;
   Z.land value 255].

Definition DecodeBigEndianFixed32 (ptr : bytes) : Z :=
  Z.lor (Z.lor (Z.lor (u32 (Z.shiftl (at_ ptr 0) 24))
    (u32 (Z.shiftl (at_ ptr 1) 16)))
    (u32 (Z.shiftl (at_ ptr 2) 8)))
    (at_ ptr 3).

Definition DecodeBigEndianFixed64 (ptr : bytes) : Z :=
  Z.lor (Z.lor (Z.lor (Z.lor (Z.lor (Z.lor (Z.lor (u64 (Z.shiftl (at_ ptr 0) 56))
    (u64 (Z.shiftl (at_ ptr 1) 48)))
    (u64 (Z.shiftl (at_ ptr 2) 40)))
    (u64 (Z.shiftl (at_ ptr 3) 32)))
    (u64 (Z.shiftl (at_ ptr 4) 24)))
    (u64 (Z.shiftl (at_ ptr 5) 16)))
    (u64 (Z.shiftl (at_ ptr 6) 8)))
    (at_ ptr 7).

Definition PutFixed32 (dst : bytes) (value : Z) : bytes := dst ++ EncodeFixed32 value.
Definition PutFixed64 (dst : bytes) (value : Z) : bytes := dst ++ EncodeFixed64 value.
Definition PutBigEndianFixed32 (dst : bytes) (value : Z) : bytes :=
  dst ++ EncodeBigEndianFixed32 value.

(** ** Varints *)

(** The bytes stored through an [unsigned char*] are truncated to 8 bits. *)
Definition EncodeVarint32 (v : Z) : bytes :=
  let B := 128 in
  if v <? Z.shiftl 1 7 then [u8 v]
  else if v <? Z.shiftl 1 14 then
    [u8 (Z.lor v B); u8 (Z.shiftr v 7)]
  else if v <? Z.shiftl 1 21 then
    [u8 (Z.lor v B); u8 (Z.lor (Z.shiftr v 7) B); u8 (Z.shiftr v 14)]
  else if v <? Z.shiftl 1 28 then
    [u8 (Z.lor v B); u8 (Z.lor (Z.shiftr v 7) B);
     u8 (Z.lor (Z.shiftr v 14) B); u8 (Z.shiftr v 21)]
  else
    [u8 (Z.lor v B); u8 (Z.lor (Z.shiftr v 7) B);
     u8 (Z.lor (Z.shiftr v 14) B); u8 (Z.lor (Z.shiftr v 21) B);
     u8 (Z.shiftr v 28)].

Definition PutVarint32 (dst : bytes) (v : Z) : bytes := dst ++ EncodeVarint32 v.

(** [while (v >= B)]: the fuel bounds the iterations; ten are enough for any
    64-bit value ([EncodeVarint64_canonical]). *)
Fixpoint EncodeVarint64_loop (fuel : nat) (v : Z) : bytes :=
  match fuel with
  | O => []
  | S fuel' =>
      if 128 <=? v then u8 (Z.lor v 128) :: EncodeVarint64_loop fuel' (Z.shiftr v 7)
      else [u8 v]
  end.
Definition EncodeVarint64 (v : Z) : bytes := EncodeVarint64_loop 10 v.

Definition PutVarint64 (dst : bytes) (v : Z) : bytes := dst ++ EncodeVarint64 v.

Definition PutLengthPrefixedSlice (dst value : bytes) : bytes :=
  PutVarint32 dst (u32 (len value)) ++ value.

Fixpoint VarintLength_loop (fuel : nat) (v len : Z) : Z :=
  match fuel with
  | O => len
  | S fuel' =>
      if 128 <=? v then VarintLength_loop fuel' (Z.shiftr v 7) (len + 1) else len
  end.
Definition VarintLength (v : Z) : Z := VarintLength_loop 10 v 1.

(** The loop of [GetVarint32PtrFallback] and of [GetVarint64Ptr]: [wrap] is the
    width of [result], [last] the largest shift the loop condition allows. *)
Fixpoint GetVarint_loop (fuel : nat) (wrap : Z → Z) (last shift result : Z)
    (p : bytes) : option (Z * bytes) :=
  match fuel with
  | O => None
  | S fuel' =>
      if shift <=? last then
        match p with
        | [] => None
        | byte :: p' =>
            if negb (Z.land byte 128 =? 0) then
              GetVarint_loop fuel' wrap last (shift + 7)
                (Z.lor result (wrap (Z.shiftl (Z.land byte 127) shift))) p'
            else Some (Z.lor result (wrap (Z.shiftl byte shift)), p')
        end
      else None
  end.

Definition GetVarint32PtrFallback (p : bytes) : option (Z * bytes) :=
  GetVarint_loop 6 u32 28 0 0 p.

Definition GetVarint32Ptr (p : bytes) : option (Z * bytes) :=
  match p with
  | result :: p' =>
      if Z.land result 128 =? 0 then Some (result, p')
      else GetVarint32PtrFallback p
  | [] => GetVarint32PtrFallback p
  end.

Definition GetVarint64Ptr (p : bytes) : option (Z * bytes) :=
  GetVarint_loop 11 u64 63 0 0 p.

Definition GetVarint32 (input : bytes) : option (Z * bytes) :=
  match GetVarint32Ptr input with
  | None => None
  | Some (value, q) => Some (value, q)
  end.

Definition GetVarint64 (input : bytes) : option (Z * bytes) :=
  match GetVarint64Ptr input with
  | None => None
  | Some (value, q) => Some (value, q)
  end.

(** The pointer variant checks [p + len > limit]; the slice variant checks
    [input->size() >= len]. *)
Definition GetLengthPrefixedSlicePtr (p : bytes) : option (bytes * bytes) :=
  match GetVarint32Ptr p with
  | None => None
  | Some (n, q) =>
      if n >? len q then None else Some (first n q, skip n q)
  end.

Definition GetLengthPrefixedSlice (input : bytes) : option (bytes * bytes) :=
  match GetVarint32 input with
  | None => None
  | Some (n, q) =>
      if len q >=? n then Some (first n q, skip n q) else None
  end.

#[global] Arguments EncodeFixed32 : simpl never.
#[global] Arguments EncodeFixed64 : simpl never.
#[global] Arguments DecodeFixed32 : simpl never.
#[global] Arguments DecodeFixed64 : simpl never.
#[global] Arguments EncodeVarint32 : simpl never.
#[global] Arguments EncodeVarint64 : simpl never.
#[global] Arguments GetVarint32 : simpl never.
#[global] Arguments GetVarint64 : simpl never.

(** ** Lemmas: fixed-width integers *)

Lemma length_le_bytes n v : length (le_bytes n v) = n.
Proof. revert v. induction n; intros; simpl; auto. Qed.

Lemma le_bytes_ok n v : bytes_ok (le_bytes n v).
Proof.
  revert v. induction n; intros; simpl; constructor; [|apply IHn].
  unfold byte_ok. pose proof (Z.mod_pos_bound v 256). lia.
Qed.

Lemma le_combine_bytes n v : le_combine (le_bytes n v) = v `mod` 256 ^ Z.of_nat n.
Proof.
  revert v. induction n as [|n IH]; intros v; simpl le_bytes; simpl le_combine.
  - by rewrite Z.mod_1_r.
  - rewrite IH, Nat2Z.inj_succ, Z.pow_succ_r by lia.
    rewrite Z.rem_mul_r; lia.
Qed.

Lemma le_bytes_combine s : bytes_ok s → le_bytes (length s) (le_combine s) = s.
Proof.
  induction 1 as [|b s Hb _ IH]; [done|]. unfold byte_ok in Hb. simpl.
  rewrite (Z.mul_comm 256), Z_mod_plus, Z.div_add, Z.div_small, Z.mod_small by lia.
  rewrite Z.add_0_l. by f_equal.
Qed.

Lemma le_combine_range s :
  bytes_ok s → 0 ≤ le_combine s < 256 ^ len s.
Proof.
  induction 1 as [|b s Hb _ IH]; [done|]. unfold byte_ok in Hb.
  rewrite len_cons, Z.pow_add_r by (pose proof (len_nonneg s); lia).
  simpl. lia.
Qed.

(** Byte [k/8] of a value, as the code extracts it. *)
Lemma byte_of_shiftr v k : 0 ≤ k → Z.land (Z.shiftr v k) 255 = (v / 2 ^ k) `mod` 256.
Proof. intros. rewrite Z.shiftr_div_pow2 by lia. apply (land_low _ 8). lia. Qed.

Lemma byte_of v : Z.land v 255 = v `mod` 256.
Proof. apply (land_low _ 8). lia. Qed.

(** [a / 2^k / 2^8] is [a / 2^(k+8)] for the constants of the code. *)
Lemma le_bytes_S n v : le_bytes (S n) v = v `mod` 256 :: le_bytes n (v / 256).
Proof. done. Qed.

#[local] Ltac shifts := rewrite ?byte_of_shiftr, ?byte_of by lia.
#[local] Ltac divs := cbn [le_bytes rev app]; rewrite ?Z.div_div by lia.

Lemma EncodeFixed32_be v : Port.EncodeFixed32 false v = le_bytes 4 v.
Proof. unfold Port.EncodeFixed32. shifts. by divs. Qed.

Lemma EncodeFixed64_be v : Port.EncodeFixed64 false v = le_bytes 8 v.
Proof. unfold Port.EncodeFixed64. shifts. by divs. Qed.

Lemma EncodeBigEndianFixed32_rev v : EncodeBigEndianFixed32 v = rev (le_bytes 4 v).
Proof. unfold EncodeBigEndianFixed32. shifts. by divs. Qed.

Lemma EncodeBigEndianFixed64_rev v : EncodeBigEndianFixed64 v = rev (le_bytes 8 v).
Proof. unfold EncodeBigEndianFixed64. shifts. by divs. Qed.

(** Or-ing shifted bytes together is [le_combine]. *)
Lemma lor_u_shiftl (w a b k : Z) :
  0 ≤ k → 0 ≤ a < 2 ^ k → 0 ≤ b → b * 2 ^ k < 2 ^ w →
  Z.lor a ((Z.shiftl b k) `mod` 2 ^ w) = a + b * 2 ^ k.
Proof.
  intros. rewrite (Z.mod_small (Z.shiftl b k)).
  - by apply lor_shiftl_add.
  - rewrite Z.shiftl_mul_pow2 by lia. nia.
Qed.

#[local] Ltac ats := cbv [at_ nth Z.to_nat Pos.to_nat Pos.iter_op Nat.add].

#[local] Ltac bytes4 := unfold bytes_ok in *;
  repeat match goal with
  | H : Forall byte_ok (_ :: _) |- _ => apply Forall_cons_1 in H as [? H]
  end; unfold byte_ok in *.

#[local] Ltac lors :=
  unfold u32, u64;
  repeat match goal with
  | |- context [Z.lor ?a ((Z.shiftl ?b ?k) `mod` 2 ^ ?w)] =>
      lazymatch a with
      | context [Z.lor] => fail
      | _ => rewrite (lor_u_shiftl w a b k) by lia
      end
  end.

Lemma DecodeFixed32_be b0 b1 b2 b3 rest :
  bytes_ok [b0; b1; b2; b3] →
  Port.DecodeFixed32 false (b0 :: b1 :: b2 :: b3 :: rest) = le_combine [b0; b1; b2; b3].
Proof. intros. bytes4. unfold Port.DecodeFixed32. ats. lors. simpl. lia. Qed.

(** Big-endian reads or the bytes in the opposite order. *)
Lemma DecodeBigEndianFixed32_combine b0 b1 b2 b3 rest :
  bytes_ok [b3; b2; b1; b0] →
  DecodeBigEndianFixed32 (b3 :: b2 :: b1 :: b0 :: rest) = le_combine [b0; b1; b2; b3].
Proof.
  intros. bytes4. unfold DecodeBigEndianFixed32. ats.
  rewrite <- !Z.lor_assoc.
  rewrite (Z.lor_comm _ b0), (Z.lor_comm _ (Z.lor b0 _)), (Z.lor_comm _ (Z.lor (Z.lor b0 _) _)).
  lors. simpl. lia.
Qed.

Lemma DecodeBigEndianFixed64_combine b0 b1 b2 b3 b4 b5 b6 b7 rest :
  bytes_ok [b7; b6; b5; b4; b3; b2; b1; b0] →
  DecodeBigEndianFixed64 (b7 :: b6 :: b5 :: b4 :: b3 :: b2 :: b1 :: b0 :: rest) =
  le_combine [b0; b1; b2; b3; b4; b5; b6; b7].
Proof.
  intros. bytes4. unfold DecodeBigEndianFixed64. ats.
  rewrite <- !Z.lor_assoc.
  rewrite (Z.lor_comm _ b0).
  do 6 rewrite (Z.lor_comm _ (Z.lor _ _)).
  lors. simpl. lia.
Qed.

Lemma len_le_bytes n v : len (le_bytes n v) = Z.of_nat n.
Proof. unfold len. by rewrite length_le_bytes. Qed.

Lemma len_EncodeFixed32 v : len (EncodeFixed32 v) = 4.
Proof. apply len_le_bytes. Qed.

Lemma len_EncodeFixed64 v : len (EncodeFixed64 v) = 8.
Proof. apply len_le_bytes. Qed.

#[export] Hint Rewrite len_EncodeFixed32 len_EncodeFixed64 : doux.

Lemma EncodeFixed32_ok v : bytes_ok (EncodeFixed32 v).
Proof. apply le_bytes_ok. Qed.

Lemma EncodeFixed64_ok v : bytes_ok (EncodeFixed64 v).
Proof. apply le_bytes_ok. Qed.

#[export] Hint Resolve EncodeFixed32_ok EncodeFixed64_ok : doux.

Lemma DecodeFixed32_app v rest : u32_ok v → DecodeFixed32 (EncodeFixed32 v ++ rest) = v.
Proof.
  intros Hv. unfold DecodeFixed32, Port.DecodeFixed32.
  rewrite first_app by (symmetry; apply len_EncodeFixed32).
  change (le_combine (le_bytes 4 v) = v). rewrite le_combine_bytes. by apply Z.mod_small.
Qed.

Lemma DecodeFixed64_app v rest : u64_ok v → DecodeFixed64 (EncodeFixed64 v ++ rest) = v.
Proof.
  intros Hv. unfold DecodeFixed64, Port.DecodeFixed64.
  rewrite first_app by (symmetry; apply len_EncodeFixed64).
  change (le_combine (le_bytes 8 v) = v). rewrite le_combine_bytes. by apply Z.mod_small.
Qed.

Lemma DecodeFixed32_enc v : u32_ok v → DecodeFixed32 (EncodeFixed32 v) = v.
Proof. intros. rewrite <- (app_nil_r (EncodeFixed32 v)). by apply DecodeFixed32_app. Qed.

Lemma DecodeFixed64_enc v : u64_ok v → DecodeFixed64 (EncodeFixed64 v) = v.
Proof. intros. rewrite <- (app_nil_r (EncodeFixed64 v)). by apply DecodeFixed64_app. Qed.

Lemma DecodeFixed32_range s : bytes_ok s → u32_ok (DecodeFixed32 s).
Proof.
  intros Hs. change (u32_ok (le_combine (first 4 s))).
  pose proof (le_combine_range (first 4 s) (bytes_ok_first 4 s Hs)) as H.
  assert (256 ^ len (first 4 s) ≤ 256 ^ 4).
  { apply Z.pow_le_mono_r; [lia|]. unfold len, first. rewrite length_take. lia. }
  unfold u32_ok. lia.
Qed.

Lemma DecodeFixed64_range s : bytes_ok s → u64_ok (DecodeFixed64 s).
Proof.
  intros Hs. change (u64_ok (le_combine (first 8 s))).
  pose proof (le_combine_range (first 8 s) (bytes_ok_first 8 s Hs)) as H.
  assert (256 ^ len (first 8 s) ≤ 256 ^ 8).
  { apply Z.pow_le_mono_r; [lia|]. unfold len, first. rewrite length_take. lia. }
  unfold u64_ok. lia.
Qed.

(** Eight bytes read and written back are the same eight bytes. *)
Lemma EncodeFixed64_dec s : bytes_ok s → len s = 8 → EncodeFixed64 (DecodeFixed64 s) = s.
Proof.
  intros Hs Hl. change (le_bytes 8 (le_combine (first 8 s)) = s).
  rewrite first_all by done.
  assert (length s = 8%nat) as Hn by (unfold len in Hl; lia).
  rewrite <- Hn at 1. by apply le_bytes_combine.
Qed.

(** ** Lemmas: varints *)

(** The canonical base-128 encoding that both writers produce. *)
Fixpoint varint (fuel : nat) (v : Z) : bytes :=
  match fuel with
  | O => [v]
  | S fuel' => if v <? 128 then [v] else v `mod` 128 + 128 :: varint fuel' (v / 128)
  end.

Lemma u8_low v : u8 (Z.lor v 128) = v `mod` 128 + 128.
Proof.
  change 128 with (Z.shiftl 1 7) at 1. unfold u8.
  rewrite <- Z.land_ones by lia. rewrite Z.land_lor_distr_l.
  change (Z.land (Z.shiftl 1 7) (Z.ones 8)) with (Z.shiftl 1 7).
  rewrite Z.land_ones by lia. change (2 ^ 8) with 256.
  assert (v `mod` 256 = v `mod` 128 ∨ v `mod` 256 = v `mod` 128 + 128) as [->|E]
    by (Z.div_mod_to_equations; lia).
  - rewrite lor_shiftl_add; [lia|lia|]. apply Z.mod_pos_bound. lia.
  - rewrite E. rewrite <- (Z.mul_1_l 128) at 2.
    change (1 * 128) with (1 * 2 ^ 7).
    rewrite <- (lor_shiftl_add (v `mod` 128) 1 7)
      by (pose proof (Z.mod_pos_bound v 128); lia).
    rewrite <- Z.lor_assoc, Z.lor_diag.
    rewrite lor_shiftl_add by (pose proof (Z.mod_pos_bound v 128); lia). lia.
Qed.

Lemma EncodeVarint32_canonical v : u32_ok v → EncodeVarint32 v = varint 10 v.
Proof.
  intros Hv. unfold u32_ok in Hv. unfold EncodeVarint32.
  rewrite !u8_low, !Z.shiftr_div_pow2 by lia.
  change (Z.shiftl 1 7) with 128. change (Z.shiftl 1 14) with 16384.
  change (Z.shiftl 1 21) with 2097152. change (Z.shiftl 1 28) with 268435456.
  change (2 ^ 7) with 128. change (2 ^ 14) with (128 * 128).
  change (2 ^ 21) with (128 * 128 * 128). change (2 ^ 28) with (128 * 128 * 128 * 128).
  rewrite <- !Z.div_div by lia.
  repeat (case_if; [|]); cbn [varint];
    repeat (match goal with |- context [if ?b then _ else _] =>
      first [replace b with true by (symmetry; apply Z.ltb_lt; Z.div_mod_to_equations; lia)
            |replace b with false by (symmetry; apply Z.ltb_ge; Z.div_mod_to_equations; lia)]
      end);
    repeat f_equal; apply u8_id; unfold byte_ok; Z.div_mod_to_equations; lia.
Qed.

Lemma EncodeVarint64_loop_canonical n v :
  0 ≤ v < 128 ^ Z.of_nat (S n) → EncodeVarint64_loop (S n) v = varint n v.
Proof.
  revert v. induction n as [|n IH]; intros v Hv.
  - simpl. rewrite (proj2 (Z.leb_gt 128 v)) by lia. rewrite u8_id by ulia. done.
  - rewrite Nat2Z.inj_succ, Z.pow_succ_r in Hv by lia.
    cbn [varint]. change (EncodeVarint64_loop (S (S n)) v) with
      (if 128 <=? v then u8 (Z.lor v 128) :: EncodeVarint64_loop (S n) (Z.shiftr v 7)
       else [u8 v]).
    destruct (Z.leb_spec 128 v); destruct (Z.ltb_spec v 128); try lia.
    + rewrite u8_low, Z.shiftr_div_pow2 by lia. f_equal. apply IH.
      change (2 ^ 7) with 128. split; [apply Z.div_pos; lia|].
      apply Z.div_lt_upper_bound; lia.
    + rewrite u8_id by ulia. done.
Qed.

Lemma varint_mono n m v :
  0 ≤ v < 128 ^ Z.of_nat (S n) → (n ≤ m)%nat → varint m v = varint n v.
Proof.
  revert m v. induction n as [|n IH]; intros m v Hv Hm.
  - destruct m as [|m]; [done|]. cbn [varint]. by rewrite (proj2 (Z.ltb_lt v 128)) by lia.
  - destruct m as [|m]; [lia|]. rewrite Nat2Z.inj_succ, Z.pow_succ_r in Hv by lia.
    cbn [varint]. case_if; [done|]. f_equal. apply IH; [|lia].
    split; [apply Z.div_pos; lia|]. apply Z.div_lt_upper_bound; lia.
Qed.

(** Ten iterations of [EncodeVarint64]'s loop are enough: it writes the
    canonical encoding, and more fuel changes nothing. *)
Lemma EncodeVarint64_canonical v :
  u64_ok v → EncodeVarint64 v = varint 10 v ∧
  ∀ n, (9 ≤ n)%nat → EncodeVarint64_loop (S n) v = EncodeVarint64 v.
Proof.
  intros Hv. unfold u64_ok in Hv.
  assert (∀ n, (9 ≤ n)%nat → EncodeVarint64_loop (S n) v = varint 9 v) as H.
  { intros n Hn. rewrite EncodeVarint64_loop_canonical.
    - apply varint_mono; [simpl; lia|lia].
    - assert (128 ^ 10 ≤ 128 ^ Z.of_nat (S n)) by (apply Z.pow_le_mono_r; lia). lia. }
  split.
  - unfold EncodeVarint64. rewrite (H 9%nat) by lia.
    symmetry. apply varint_mono; [simpl; lia|lia].
  - intros. rewrite H by lia. unfold EncodeVarint64. by rewrite (H 9%nat) by lia.
Qed.

Lemma varint_ok n v : 0 ≤ v < 128 ^ Z.of_nat (S n) → bytes_ok (varint n v).
Proof.
  revert v. induction n as [|n IH]; intros v Hv; cbn [varint].
  - repeat constructor; ulia.
  - rewrite Nat2Z.inj_succ, Z.pow_succ_r in Hv by lia.
    case_if; [repeat constructor; ulia|]. constructor.
    + unfold byte_ok. Z.div_mod_to_equations; lia.
    + apply IH. split; [apply Z.div_pos; lia|]. apply Z.div_lt_upper_bound; lia.
Qed.

Lemma land128 b : byte_ok b → (Z.land b 128 =? 0) = (b <? 128).
Proof.
  intros Hb. apply eqb_true_iff.
  apply (byte_forall (λ b, eqb (Z.land b 128 =? 0) (b <? 128))); [by vm_compute|done].
Qed.

Lemma land127 b : Z.land b 127 = b `mod` 128.
Proof. apply (land_low _ 7). lia. Qed.

(** One run of the reader's loop over a canonical encoding. *)
Lemma GetVarint_loop_varint n : ∀ fuel w last shift result v rest,
  0 ≤ shift → 0 ≤ result < 2 ^ shift →
  0 ≤ v < 128 ^ Z.of_nat (S n) → shift + 7 * Z.of_nat n ≤ last →
  (n < fuel)%nat → result + v * 2 ^ shift < 2 ^ w →
  GetVarint_loop fuel (λ x, x `mod` 2 ^ w) last shift result (varint n v ++ rest)
  = Some (result + v * 2 ^ shift, rest).
Proof.
  induction n as [|n IH]; intros fuel w last shift result v rest Hs Hr Hv Hlast Hf Hw.
  all: destruct fuel as [|fuel]; [lia|].
  - cbn [varint app GetVarint_loop]. rewrite (proj2 (Z.leb_le _ _)) by lia.
    rewrite land128, (proj2 (Z.ltb_lt _ _)) by ulia. cbn [negb].
    rewrite lor_u_shiftl by nia. done.
  - rewrite Nat2Z.inj_succ, Z.pow_succ_r in Hv by lia.
    cbn [varint]. destruct (Z.ltb_spec v 128) as [Hlt|Hge].
    + cbn [app GetVarint_loop]. rewrite (proj2 (Z.leb_le _ _)) by lia.
      rewrite land128, (proj2 (Z.ltb_lt _ _)) by ulia. cbn [negb].
      rewrite lor_u_shiftl by nia. done.
    + pose proof (Z.mod_pos_bound v 128 ltac:(lia)) as Hm.
      pose proof (Z.div_mod v 128 ltac:(lia)) as Hd.
      assert (0 ≤ v / 128) by (apply Z.div_pos; lia).
      assert (v / 128 < 128 * 128 ^ Z.of_nat n)
        by (apply Z.div_lt_upper_bound; [lia|rewrite Nat2Z.inj_succ, Z.pow_succ_r in Hv; lia]).
      assert (0 < 2 ^ shift) by (apply Z.pow_pos_nonneg; lia).
      cbn [app GetVarint_loop]. rewrite (proj2 (Z.leb_le _ _)) by lia.
      rewrite land128, (proj2 (Z.ltb_ge _ _)) by ulia. cbn [negb].
      rewrite land127. replace ((v `mod` 128 + 128) `mod` 128) with (v `mod` 128)
        by (Z.div_mod_to_equations; lia).
      rewrite lor_u_shiftl by nia.
      rewrite IH.
      * f_equal. f_equal. rewrite Z.pow_add_r by lia. change (2 ^ 7) with 128. nia.
      * lia.
      * rewrite Z.pow_add_r by lia. change (2 ^ 7) with 128. nia.
      * rewrite Nat2Z.inj_succ, Z.pow_succ_r; lia.
      * lia.
      * lia.
      * rewrite Z.pow_add_r by lia. change (2 ^ 7) with 128. nia.
Qed.

(** Whatever bytes it reads, the loop consumes a non-empty prefix and its
    result fits the width. *)
Lemma GetVarint_loop_bounds fuel w last : ∀ shift result p v q,
  0 ≤ w → 0 ≤ result < 2 ^ w →
  GetVarint_loop fuel (λ x, x `mod` 2 ^ w) last shift result p = Some (v, q) →
  0 ≤ v < 2 ^ w ∧ ∃ used, p = used ++ q ∧ (1 ≤ length used ≤ fuel)%nat.
Proof.
  assert (∀ a b, 0 ≤ w → 0 ≤ a < 2 ^ w → 0 ≤ Z.lor a (b `mod` 2 ^ w) < 2 ^ w) as Hlor.
  { intros a b Hw Ha. pose proof (Z.mod_pos_bound b (2 ^ w) ltac:(lia)) as Hb.
    rewrite <- (Z.mod_small a (2 ^ w)) by lia.
    rewrite <- !Z.land_ones, <- Z.land_lor_distr_l, Z.land_ones by lia.
    apply Z.mod_pos_bound. lia. }
  induction fuel as [|fuel IH]; intros shift result p v q Hw Hr H; [done|].
  cbn [GetVarint_loop] in H. destruct (shift <=? last); [|done].
  destruct p as [|b p]; [done|]. destruct (negb _).
  - apply IH in H as [Hv (used & -> & Hu)]; [|lia|by apply Hlor].
    split; [done|]. exists (b :: used). split; [done|]. simpl. lia.
  - injection H as <- <-. split; [by apply Hlor|]. exists [b]. simpl. split; [done|lia].
Qed.

Lemma GetVarint32_put v rest : u32_ok v → GetVarint32 (EncodeVarint32 v ++ rest) = Some (v, rest).
Proof.
  intros Hv. assert (GetVarint32PtrFallback (EncodeVarint32 v ++ rest) = Some (v, rest)) as Hf.
  { rewrite EncodeVarint32_canonical by done. unfold u32_ok in Hv.
    rewrite (varint_mono 4) by (simpl; lia).
    unfold GetVarint32PtrFallback. change u32 with (λ x, x `mod` 2 ^ 32).
    rewrite GetVarint_loop_varint by (simpl; lia). do 2 f_equal. lia. }
  unfold GetVarint32, GetVarint32Ptr. rewrite EncodeVarint32_canonical in * by done.
  destruct (varint 10 v ++ rest) as [|b p] eqn:E; [by rewrite Hf|].
  destruct (Z.land b 128 =? 0) eqn:Eb; [|by rewrite Hf].
  cbn [varint] in E. unfold u32_ok in Hv. destruct (Z.ltb_spec v 128).
  - by injection E as <- <-.
  - injection E as <- _. pose proof (Z.mod_pos_bound v 128 ltac:(lia)).
    rewrite land128 in Eb by ulia. zify_bool. lia.
Qed.

Lemma GetVarint64_put v rest : u64_ok v → GetVarint64 (EncodeVarint64 v ++ rest) = Some (v, rest).
Proof.
  intros Hv. unfold GetVarint64, GetVarint64Ptr.
  rewrite (proj1 (EncodeVarint64_canonical v Hv)). unfold u64_ok in Hv.
  rewrite (varint_mono 9) by (simpl; lia). change u64 with (λ x, x `mod` 2 ^ 64).
  rewrite GetVarint_loop_varint by (simpl; lia). do 2 f_equal. lia.
Qed.

Lemma GetLengthPrefixedSlice_put v rest :
  len v < 2 ^ 32 → GetLengthPrefixedSlice (PutLengthPrefixedSlice [] v ++ rest) = Some (v, rest).
Proof.
  intros Hv. pose proof (len_nonneg v). pose proof (len_nonneg rest).
  unfold GetLengthPrefixedSlice, PutLengthPrefixedSlice, PutVarint32.
  rewrite app_nil_l, <- app_assoc, u32_id by (unfold u32_ok; lia).
  rewrite GetVarint32_put by (unfold u32_ok; lia).
  rewrite len_app, Z.geb_leb, (proj2 (Z.leb_le _ _)) by lia.
  by rewrite first_app, skip_app.
Qed.

(** The writers append. *)
Lemma PutLengthPrefixedSlice_app dst v :
  PutLengthPrefixedSlice dst v = dst ++ PutLengthPrefixedSlice [] v.
Proof. unfold PutLengthPrefixedSlice, PutVarint32. by rewrite app_nil_l, <- app_assoc. Qed.

Lemma EncodeVarint32_ok v : u32_ok v → bytes_ok (EncodeVarint32 v).
Proof.
  intros Hv. rewrite EncodeVarint32_canonical by done. apply varint_ok.
  unfold u32_ok in Hv. simpl. lia.
Qed.

Lemma EncodeVarint64_ok v : u64_ok v → bytes_ok (EncodeVarint64 v).
Proof.
  intros Hv. rewrite (proj1 (EncodeVarint64_canonical v Hv)). apply varint_ok.
  unfold u64_ok in Hv. simpl. lia.
Qed.

#[export] Hint Resolve EncodeVarint32_ok EncodeVarint64_ok : doux.

Lemma length_varint n v : (1 ≤ length (varint n v) ≤ S n)%nat.
Proof.
  revert v. induction n as [|n IH]; intros v; cbn [varint]; [simpl; lia|].
  case_if; simpl; [lia|]. specialize (IH (v / 128)). lia.
Qed.

Lemma len_EncodeVarint32 v : u32_ok v → 1 ≤ len (EncodeVarint32 v) ≤ 5.
Proof.
  intros Hv. rewrite EncodeVarint32_canonical by done. unfold u32_ok in Hv.
  rewrite (varint_mono 4) by (simpl; lia).
  pose proof (length_varint 4 v). unfold len. lia.
Qed.

Lemma len_EncodeVarint64 v : u64_ok v → 1 ≤ len (EncodeVarint64 v) ≤ 10.
Proof.
  intros Hv. rewrite (proj1 (EncodeVarint64_canonical v Hv)). unfold u64_ok in Hv.
  rewrite (varint_mono 9) by (simpl; lia).
  pose proof (length_varint 9 v). unfold len. lia.
Qed.

Lemma le_bytes_app n m v : le_bytes (n + m) v = le_bytes n v ++ le_bytes m (v / 256 ^ Z.of_nat n).
Proof.
  revert v. induction n as [|n IH]; intros v; [by rewrite Z.div_1_r|].
  rewrite Nat2Z.inj_succ, Z.pow_succ_r by lia. cbn [Nat.add le_bytes app].
  by rewrite IH, Z.div_div by lia.
Qed.

Lemma DecodeFixed32_be_app v rest :
  Port.DecodeFixed32 false (le_bytes 4 v ++ rest) = v `mod` 2 ^ 32.
Proof.
  pose proof (le_bytes_ok 4 v) as Hok. pose proof (le_combine_bytes 4 v) as Hc.
  cbn [le_bytes app] in *. by rewrite DecodeFixed32_be.
Qed.

Lemma DecodeFixed64_be_app v rest :
  u64_ok v → Port.DecodeFixed64 false (le_bytes 8 v ++ rest) = v.
Proof.
  unfold u64_ok. intros Hv. rewrite (le_bytes_app 4 4), <- app_assoc.
  unfold Port.DecodeFixed64. rewrite skip_app by (by rewrite len_le_bytes).
  rewrite !DecodeFixed32_be_app. change (256 ^ Z.of_nat 4) with (2 ^ 32).
  rewrite (Z.mod_small (v / 2 ^ 32)) by (Z.div_mod_to_equations; lia).
  rewrite Z.lor_comm. unfold u64.
  rewrite lor_u_shiftl; Z.div_mod_to_equations; lia.
Qed.

Lemma DecodeBigEndianFixed32_enc v rest :
  u32_ok v → DecodeBigEndianFixed32 (EncodeBigEndianFixed32 v ++ rest) = v.
Proof.
  intros Hv. rewrite EncodeBigEndianFixed32_rev.
  pose proof (Forall_rev (le_bytes_ok 4 v)) as Hok.
  pose proof (le_combine_bytes 4 v) as Hc. rewrite Z.mod_small in Hc by done.
  cbn [le_bytes rev app] in *. by rewrite DecodeBigEndianFixed32_combine.
Qed.

Lemma DecodeBigEndianFixed64_enc v rest :
  u64_ok v → DecodeBigEndianFixed64 (EncodeBigEndianFixed64 v ++ rest) = v.
Proof.
  intros Hv. rewrite EncodeBigEndianFixed64_rev.
  pose proof (Forall_rev (le_bytes_ok 8 v)) as Hok.
  pose proof (le_combine_bytes 8 v) as Hc. rewrite Z.mod_small in Hc by done.
  cbn [le_bytes rev app] in *. by rewrite DecodeBigEndianFixed64_combine.
Qed.

(** ** The properties of the encodings *)

(** The fixed-width encodings are endian-neutral: on either kind of machine
    the bytes written are the same, least significant first, and reading them
    back there gives the value; so do the big-endian variants. *)
Theorem fixed_roundtrip little v rest :
  (u32_ok v →
     Port.EncodeFixed32 little v = le_bytes 4 v ∧
     Port.DecodeFixed32 little (Port.EncodeFixed32 little v ++ rest) = v ∧
     DecodeBigEndianFixed32 (EncodeBigEndianFixed32 v ++ rest) = v) ∧
  (u64_ok v →
     Port.EncodeFixed64 little v = le_bytes 8 v ∧
     Port.DecodeFixed64 little (Port.EncodeFixed64 little v ++ rest) = v ∧
     DecodeBigEndianFixed64 (EncodeBigEndianFixed64 v ++ rest) = v).
Proof.
  split; intros Hv; (split; [|split]).
  - destruct little; [done|]. apply EncodeFixed32_be.
  - destruct little; [by apply DecodeFixed32_app|].
    rewrite EncodeFixed32_be, DecodeFixed32_be_app. by apply Z.mod_small.
  - by apply DecodeBigEndianFixed32_enc.
  - destruct little; [done|]. apply EncodeFixed64_be.
  - destruct little; [by apply DecodeFixed64_app|].
    rewrite EncodeFixed64_be. by apply DecodeFixed64_be_app.
  - by apply DecodeBigEndianFixed64_enc.
Qed.

(** Reading back a varint gives the value written and stops exactly at its
    end, for every 32-bit value through [PutVarint32]/[GetVarint32] and every
    64-bit value through [PutVarint64]/[GetVarint64]. *)
Theorem varint_roundtrip v rest :
  (u32_ok v → GetVarint32 (PutVarint32 [] v ++ rest) = Some (v, rest)) ∧
  (u64_ok v → GetVarint64 (PutVarint64 [] v ++ rest) = Some (v, rest)).
Proof. split; intros; [by apply GetVarint32_put|by apply GetVarint64_put]. Qed.

Lemma VarintLength_eq v : u64_ok v → VarintLength v = len (EncodeVarint64 v).
Proof.
  intros Hv.
  assert (∀ n v k, 0 ≤ v < 128 ^ Z.of_nat (S n) →
    VarintLength_loop (S n) v k = k - 1 + len (EncodeVarint64_loop (S n) v)) as H.
  { clear. induction n as [|n IH]; intros v k Hv.
    - simpl. rewrite (proj2 (Z.leb_gt 128 v)) by lia. unfold len. simpl. lia.
    - rewrite Nat2Z.inj_succ, Z.pow_succ_r in Hv by lia.
      cbn [VarintLength_loop EncodeVarint64_loop].
      destruct (128 <=? v) eqn:E; [|unfold len; simpl; lia].
      specialize (IH (Z.shiftr v 7) (k + 1)).
      cbn [VarintLength_loop EncodeVarint64_loop] in IH.
      rewrite IH; [rewrite len_cons; lia|].
      rewrite Z.shiftr_div_pow2 by lia. change (2 ^ 7) with 128.
      split; [apply Z.div_pos; lia|]. apply Z.div_lt_upper_bound; lia. }
  unfold VarintLength, EncodeVarint64. rewrite H; [lia|]. unfold u64_ok in Hv. simpl. lia.
Qed.

Lemma VarintLength_32 v : u32_ok v → VarintLength v = len (EncodeVarint32 v).
Proof.
  intros Hv. assert (u64_ok v) as Hv' by (unfold u32_ok, u64_ok in *; lia).
  by rewrite VarintLength_eq, EncodeVarint32_canonical, (proj1 (EncodeVarint64_canonical v Hv')).
Qed.

(** A varint never overflows the stack buffer its writer uses (5 bytes for
    [PutVarint32], 10 for [PutVarint64]), and [VarintLength] is the number of
    bytes [PutVarint64] writes. *)
Theorem varint_buffer_bounds v :
  u64_ok v →
  (u32_ok v → 1 ≤ len (EncodeVarint32 v) ≤ 5) ∧
  1 ≤ len (EncodeVarint64 v) ≤ 10 ∧ VarintLength v = len (EncodeVarint64 v).
Proof. intros Hv. split; [apply len_EncodeVarint32|]. split; [by apply len_EncodeVarint64|by apply VarintLength_eq]. Qed.

Lemma varint_buffer_bounds_witness :
  len (EncodeVarint64 300) = 2 ∧ VarintLength 300 = len (EncodeVarint64 300).
Proof. split; [done|]. apply (varint_buffer_bounds 300). unfold u64_ok. lia. Defined.

Lemma GetVarint32_bounds input v q :
  bytes_ok input → GetVarint32 input = Some (v, q) →
  u32_ok v ∧ ∃ used, input = used ++ q ∧ used ≠ [].
Proof.
  intros Hin H. unfold GetVarint32, GetVarint32Ptr in H.
  assert (GetVarint32PtrFallback input = Some (v, q) →
    u32_ok v ∧ ∃ used, input = used ++ q ∧ used ≠ []) as Hf.
  { intros Hf. apply (GetVarint_loop_bounds _ 32) in Hf; [|lia..].
    destruct Hf as [? (u & ? & ?)]. split; [done|]. exists u. split; [done|].
    by destruct u; simpl in *; [lia|]. }
  destruct input as [|b p]; [by simplify_eq|]. destruct (Z.land b 128 =? 0).
  - simplify_eq. apply Forall_cons_1 in Hin as [Hb _]. split; [ulia|]. by exists [v].
  - destruct (GetVarint32PtrFallback (b :: p)) as [[v' q']|]; [|done].
    simplify_eq. by apply Hf.
Qed.

(** On arbitrary input the readers stay inside the buffer: a value they
    return fits its type, and what they leave is a suffix after a prefix of at
    least one byte and at most the iterations the shift bound allows; a
    length-prefixed slice is returned whole. *)
Theorem varint_reader_bounds input :
  bytes_ok input →
  (∀ v q, GetVarint32 input = Some (v, q) →
     u32_ok v ∧ ∃ used, input = used ++ q ∧ used ≠ []) ∧
  (∀ v q, GetVarint64 input = Some (v, q) →
     u64_ok v ∧ ∃ used, input = used ++ q ∧ used ≠ []) ∧
  (∀ s q, GetLengthPrefixedSlice input = Some (s, q) →
     ∃ hdr, input = hdr ++ s ++ q ∧ GetVarint32 input = Some (len s, s ++ q)).
Proof.
  intros Hin.
  assert (∀ v q, GetVarint32 input = Some (v, q) →
     u32_ok v ∧ ∃ used, input = used ++ q ∧ used ≠ []) as H32.
  { intros v q. by apply GetVarint32_bounds. }
  split; [done|]. split.
  - intros v q H. unfold GetVarint64, GetVarint64Ptr in H.
    destruct (GetVarint_loop _ _ _ _ _ _) as [[v' q']|] eqn:E; [|done]. simplify_eq.
    apply (GetVarint_loop_bounds _ 64) in E; [|lia..].
    destruct E as [? (u & ? & ?)]. split; [done|]. exists u. split; [done|].
    by destruct u; simpl in *; [lia|].
  - intros s q H. unfold GetLengthPrefixedSlice in H.
    destruct (GetVarint32 input) as [[n r]|] eqn:E; [|done].
    destruct (H32 _ _ eq_refl) as [Hn (u & Hu & _)]. unfold u32_ok in Hn.
    destruct (len r >=? n) eqn:Eg; [|done]. rewrite Z.geb_leb in Eg. zify_bool.
    simplify_eq. exists u. rewrite !first_skip. split; [done|].
    by rewrite len_first by lia.
Qed.

Lemma varint_reader_bounds_witness :
  ∃ hdr, [3; 97; 98; 99; 7] = hdr ++ [97; 98; 99] ++ [7] ∧
    GetVarint32 [3; 97; 98; 99; 7] = Some (len [97; 98; 99], [97; 98; 99] ++ [7]).
Proof.
  apply (varint_reader_bounds [3; 97; 98; 99; 7]);
    [repeat constructor; unfold byte_ok; lia|reflexivity].
Defined.
