(* ===== verification/Comparator.v ===== *)
(** * include/leveldb/slice.h, util/comparator.cc: slices and their orders

    [Slice::compare], the [Comparator] interface of
    include/leveldb/comparator.h as a record of operations with the laws its
    documentation states as a class, and the two implementations of
    util/comparator.cc: the bytewise order and the order of value-table keys. *)

From S2P Require Import Prelude Coding.

(** ** Slice *)

(** [memcmp(a, b, n)], up to the sign of its result. *)
Fixpoint memcmp (n : nat) (a b : bytes) : Z :=
  match n, a, b with
  | S n', x :: a', y :: b' =>
      if x <? y then -1 else if y <? x then 1 else memcmp n' a' b'
  | _, _, _ => 0
  end.

(** The methods of class [Slice]. *)
Module Slice.

Definition starts_with (self x : bytes) : bool :=
  (len self >=? len x) && (memcmp (length x) self x =? 0).

Definition operator_eq (x y : bytes) : bool :=
  (len x =? len y) && (memcmp (length x) x y =? 0).

Definition compare (self b : bytes) : Z :=
  let min_len := if len self <? len b then length self else length b in
  let r := memcmp min_len self b in
  if r =? 0 then
    if len self <? len b then -1
    else if len self >? len b then 1
    else r
  else r.

(** [remove_prefix(n)]; the code asserts [n <= size()]. *)
Definition remove_prefix (self : bytes) (n : Z) : bytes := skip n self.

End Slice.

(** ** The interface *)

Record Comparator := {
  Compare : bytes → bytes → Z;
  FindShortestSeparator : bytes → bytes → bytes;
  FindShortSuccessor : bytes → bytes
}.

(** What a comparator promises on the keys [dom] it is meant for: a three-way
    comparison that is a total order, and shortening functions that stay
    between their arguments. [cmp_sep_same] is the one point the documentation
    leaves open and both implementations settle by doing nothing. *)
Class ComparatorLaws (dom : bytes → Prop) (c : Comparator) : Prop := {
  cmp_eq a b : dom a → dom b → Compare c a b = 0 ↔ a = b;
  cmp_anti a b : dom a → dom b → Compare c a b < 0 ↔ 0 < Compare c b a;
  cmp_trans a b d : dom a → dom b → dom d →
    Compare c a b < 0 → Compare c b d < 0 → Compare c a d < 0;
  cmp_sep a l : dom a → dom l → Compare c a l < 0 →
    let s := FindShortestSeparator c a l in
    dom s ∧ Compare c a s ≤ 0 ∧ Compare c s l < 0;
  cmp_sep_same a : dom a → FindShortestSeparator c a a = a;
  cmp_succ a : dom a →
    let s := FindShortSuccessor c a in dom s ∧ Compare c a s ≤ 0
}.

(** ** BytewiseComparatorImpl *)

Module Bytewise.

(** [while (diff_index < min_length && start[i] == limit[i])], then the branch
    on the first differing byte; [prefix] is what has been skipped. *)
Fixpoint separator_loop (prefix start limit : bytes) : bytes :=
  match start, limit with
  | x :: start', y :: limit' =>
      if x =? y then separator_loop (prefix ++ [x]) start' limit'
      else if (x <? 255) && (x + 1 <? y) then prefix ++ [x + 1]
      else prefix ++ x :: start'
  | _, _ => prefix ++ start
  end.

Fixpoint successor_loop (prefix key : bytes) : bytes :=
  match key with
  | [] => prefix
  | byte :: key' =>
      if negb (byte =? 255) then prefix ++ [byte + 1]
      else successor_loop (prefix ++ [byte]) key'
  end.

Definition comparator : Comparator := {|
  Compare := Slice.compare;
  FindShortestSeparator := λ start limit, separator_loop [] start limit;
  FindShortSuccessor := λ key, successor_loop [] key
|}.

End Bytewise.

(** ** VKeyComparatorImpl *)

(** A value-table key is [user_key ++ fixed64(sequence,type) ++ fixed64(sort key)]. *)
Module VKey.

Definition Compare (vkey1 vkey2 : bytes) : Z :=
  let size_1 := len vkey1 in
  let size_2 := len vkey2 in
  let sort_key_1 := DecodeFixed64 (skip (size_1 - 8) vkey1) in
  let sort_key_2 := DecodeFixed64 (skip (size_2 - 8) vkey2) in
  let r := if sort_key_1 >? sort_key_2 then 1
           else if sort_key_1 <? sort_key_2 then -1 else 0 in
  if r =? 0 then
    let ukey1 := first (size_1 - 16) vkey1 in
    let ukey2 := first (size_2 - 16) vkey2 in
    let r := Slice.compare ukey1 ukey2 in
    if r =? 0 then
      let seq1 := DecodeFixed64 (skip (size_1 - 16) vkey1) in
      let seq2 := DecodeFixed64 (skip (size_2 - 16) vkey2) in
      if seq1 >? seq2 then 1 else if seq1 <? seq2 then -1 else 0
    else r
  else r.

Definition comparator : Comparator :=
  Build_Comparator Compare (λ start _, start) (λ key, key).

End VKey.

(** ** Lemmas: the lexicographic order *)

(** The order [Slice::compare] decides, by recursion on both slices. *)
Fixpoint lex (a b : bytes) : Z :=
  match a, b with
  | [], [] => 0
  | [], _ :: _ => -1
  | _ :: _, [] => 1
  | x :: a', y :: b' => if x <? y then -1 else if y <? x then 1 else lex a' b'
  end.

(** Equality of slices. *)
Lemma operator_eq_refl x : Slice.operator_eq x x = true.
Proof.
  unfold Slice.operator_eq. rewrite Z.eqb_refl. cbn [andb]. apply Z.eqb_eq.
  induction x as [|b x IH]; [done|]. cbn [length memcmp]. by rewrite Z.ltb_irrefl.
Qed.

Lemma operator_eq_spec x y : Slice.operator_eq x y = true ↔ x = y.
Proof.
  split; [|intros ->; apply operator_eq_refl]. unfold Slice.operator_eq. rewrite andb_true_iff, !Z.eqb_eq. unfold len. intros [Hl Hm].
  apply Nat2Z.inj in Hl. revert y Hl Hm. induction x as [|a x IH]; intros [|b y]; try done. cbn. intros [= Hl].
  destruct (Z.ltb_spec a b); [done|]. destruct (Z.ltb_spec b a); [done|]. intros Hm. f_equal; [lia|by apply IH].
Qed.

Lemma compare_lex a b : Slice.compare a b = lex a b.
Proof.
  revert b. induction a as [|x a IH]; intros [|y b]; try done.
  specialize (IH b). unfold Slice.compare in *. cbn [lex]. rewrite <- IH. clear IH.
  rewrite !len_cons, !Z.gtb_ltb.
  assert ((len a + 1 <? len b + 1) = (len a <? len b)) as ->
    by (destruct (Z.ltb_spec (len a) (len b)); [apply Z.ltb_lt|apply Z.ltb_ge]; lia).
  assert ((len b + 1 <? len a + 1) = (len b <? len a)) as ->
    by (destruct (Z.ltb_spec (len b) (len a)); [apply Z.ltb_lt|apply Z.ltb_ge]; lia).
  destruct (len a <? len b); cbn [length memcmp];
    destruct (x <? y); try done; destruct (y <? x); done.
Qed.

Lemma lex_refl a : lex a a = 0.
Proof. induction a as [|x a IH]; [done|]. simpl. by rewrite Z.ltb_irrefl. Qed.

Lemma lex_eq a b : lex a b = 0 ↔ a = b.
Proof.
  split; [|intros ->; apply lex_refl].
  revert b. induction a as [|x a IH]; intros [|y b]; simpl; try done.
  repeat case_if; try done. intros H. f_equal; [lia|auto].
Qed.

Lemma lex_opp a b : lex b a = - lex a b.
Proof.
  revert b. induction a as [|x a IH]; intros [|y b]; simpl; try done.
  destruct (Z.ltb_spec x y), (Z.ltb_spec y x); try lia; auto.
Qed.

Lemma lex_trans a b c : lex a b ≤ 0 → lex b c ≤ 0 → lex a c ≤ 0 ∧ (lex a c = 0 → lex a b = 0 ∧ lex b c = 0).
Proof.
  revert b c. induction a as [|x a IH]; intros [|y b] [|z c]; simpl; try lia.
  destruct (Z.ltb_spec x y), (Z.ltb_spec y x), (Z.ltb_spec y z), (Z.ltb_spec z y),
    (Z.ltb_spec x z), (Z.ltb_spec z x); try lia; apply IH.
Qed.

Lemma lex_app p a b : lex (p ++ a) (p ++ b) = lex a b.
Proof. induction p as [|x p IH]; [done|]. simpl. by rewrite Z.ltb_irrefl. Qed.

Lemma lex_le_app a b : lex a (a ++ b) ≤ 0.
Proof.
  rewrite <- (app_nil_r a) at 1. rewrite lex_app. destruct b; simpl; lia.
Qed.

Lemma lex_range a b : -1 ≤ lex a b ≤ 1.
Proof.
  revert b. induction a as [|x a IH]; intros [|y b]; simpl; try lia. by repeat case_if.
Qed.

Lemma compare_range a b : -1 ≤ Slice.compare a b ≤ 1.
Proof. rewrite compare_lex. apply lex_range. Qed.

(** ** Lemmas: BytewiseComparatorImpl *)

Lemma separator_loop_app p s l :
  Bytewise.separator_loop p s l = p ++ Bytewise.separator_loop [] s l.
Proof.
  revert p l. induction s as [|x s IH]; intros p [|y l]; try done.
  cbn [Bytewise.separator_loop app]. case_if; [|by case_if].
  rewrite (IH (p ++ [x])), (IH [x]). by rewrite <- app_assoc.
Qed.

Lemma successor_loop_app p k :
  Bytewise.successor_loop p k = p ++ Bytewise.successor_loop [] k.
Proof.
  revert p. induction k as [|x k IH]; intros p; cbn [Bytewise.successor_loop app].
  - by rewrite app_nil_r.
  - case_if; [done|]. rewrite (IH (p ++ [x])), (IH [x]). by rewrite <- app_assoc.
Qed.

Lemma separator_spec a l :
  bytes_ok a → lex a l < 0 →
  let s := Bytewise.separator_loop [] a l in
  bytes_ok s ∧ lex a s ≤ 0 ∧ lex s l < 0 ∧ len s ≤ len a.
Proof.
  intros Ha. revert l. induction Ha as [|x a Hx Ha IH]; intros [|y l] Hlt; try done.
  { simpl. split; [constructor|lia]. }
  cbn [Bytewise.separator_loop app]. simpl in Hlt. unfold byte_ok in Hx.
  destruct (Z.eqb_spec x y) as [->|Hne].
  - rewrite Z.ltb_irrefl in Hlt. rewrite separator_loop_app. simpl.
    rewrite Z.ltb_irrefl, !len_cons. destruct (IH l Hlt) as (? & ? & ? & ?).
    split; [by constructor|]. lia.
  - destruct (Z.ltb_spec x y); [|destruct (Z.ltb_spec y x); lia]. clear Hlt.
    destruct ((x <? 255) && (x + 1 <? y)) eqn:E; zify_bool.
    + split; [repeat constructor; ulia|]. simpl.
      rewrite (proj2 (Z.ltb_lt x (x + 1))), (proj2 (Z.ltb_lt (x + 1) y)) by lia.
      clear - H. ulia.
    + split; [constructor; [ulia|done]|]. simpl.
      rewrite Z.ltb_irrefl, lex_refl, (proj2 (Z.ltb_lt x y)) by lia. lia.
Qed.

Lemma separator_same a : Bytewise.separator_loop [] a a = a.
Proof.
  induction a as [|x a IH]; [done|]. cbn [Bytewise.separator_loop app].
  rewrite Z.eqb_refl, separator_loop_app. simpl. by rewrite IH.
Qed.

Lemma successor_spec a :
  bytes_ok a →
  let s := Bytewise.successor_loop [] a in bytes_ok s ∧ lex a s ≤ 0 ∧ len s ≤ len a.
Proof.
  induction 1 as [|x a Hx Ha IH]; [simpl; split; [constructor|lia]|].
  cbn [Bytewise.successor_loop app].
  unfold byte_ok in Hx. rewrite len_cons. pose proof (len_nonneg a).
  destruct (Z.eqb_spec x 255) as [->|Hne]; cbn [negb].
  - rewrite successor_loop_app. simpl. rewrite len_cons.
    destruct IH as (? & ? & ?). split; [by constructor|]. lia.
  - split; [repeat constructor; ulia|]. simpl.
    rewrite (proj2 (Z.ltb_lt x (x + 1))) by lia. ulia.
Qed.

(** [BytewiseComparator()] keeps the promises of the interface on every slice. *)
#[export] Instance bytewise_laws : ComparatorLaws bytes_ok Bytewise.comparator.
Proof.
  split; cbn [Compare FindShortestSeparator FindShortSuccessor Bytewise.comparator];
    intros *; rewrite ?compare_lex.
  - intros _ _. apply lex_eq.
  - intros _ _. rewrite (lex_opp a b). lia.
  - intros _ _ _. intros. destruct (lex_trans a b d) as [? Hz]; [lia..|].
    destruct (Z.eq_dec (lex a d) 0) as [E|]; [|lia]. apply Hz in E. lia.
  - intros Ha _ Hlt. destruct (separator_spec a l Ha Hlt) as (? & ? & ? & ?).
    tauto.
  - intros _. apply separator_same.
  - intros Ha. destruct (successor_spec a Ha) as (? & ? & ?). tauto.
Qed.

(** ** Lemmas: lexicographic composition of comparisons *)

(** Three-way comparison of integers, and "if equal then compare next". *)
Definition zcmp (a b : Z) : Z := if a >? b then 1 else if a <? b then -1 else 0.
Definition andThen (r s : Z) : Z := if r =? 0 then s else r.

Lemma zcmp_spec a b :
  (a < b ∧ zcmp a b = -1) ∨ (a = b ∧ zcmp a b = 0) ∨ (b < a ∧ zcmp a b = 1).
Proof.
  unfold zcmp. rewrite Z.gtb_ltb.
  destruct (Z.ltb_spec b a), (Z.ltb_spec a b); lia.
Qed.

Lemma andThen_spec r s : (r = 0 ∧ andThen r s = s) ∨ (r ≠ 0 ∧ andThen r s = r).
Proof. unfold andThen. destruct (Z.eqb_spec r 0); auto. Qed.

(** The last eight bytes of a key, as the code reads them, determine them. *)
Lemma split_tail8 s :
  bytes_ok s → 8 ≤ len s →
  s = first (len s - 8) s ++ EncodeFixed64 (DecodeFixed64 (skip (len s - 8) s)).
Proof.
  intros Hs Hl. rewrite EncodeFixed64_dec; [by rewrite first_skip|by auto with doux|].
  rewrite len_skip; lia.
Qed.

Lemma VKey_Compare_unfold a b :
  VKey.Compare a b =
  andThen (zcmp (DecodeFixed64 (skip (len a - 8) a)) (DecodeFixed64 (skip (len b - 8) b)))
  (andThen (lex (first (len a - 16) a) (first (len b - 16) b))
     (zcmp (DecodeFixed64 (skip (len a - 16) a)) (DecodeFixed64 (skip (len b - 16) b)))).
Proof. unfold VKey.Compare. by rewrite compare_lex. Qed.

Definition vkey_ok (s : bytes) : Prop := bytes_ok s ∧ 16 ≤ len s.

(** [DecodeFixed64] reads eight bytes only. *)
Lemma DecodeFixed64_first s : DecodeFixed64 (first 8 s) = DecodeFixed64 s.
Proof.
  unfold DecodeFixed64, Port.DecodeFixed64, first. by rewrite take_take.
Qed.

Lemma vkey_split s : vkey_ok s →
  s = first (len s - 16) s ++ EncodeFixed64 (DecodeFixed64 (skip (len s - 16) s))
        ++ EncodeFixed64 (DecodeFixed64 (skip (len s - 8) s)).
Proof.
  intros [Hs Hl].
  rewrite <- (DecodeFixed64_first (skip (len s - 16) s)).
  rewrite !EncodeFixed64_dec; [|by auto with doux|rewrite len_skip; lia
    |by auto with doux|rewrite len_first, ?len_skip; rewrite ?len_skip; lia].
  replace (skip (len s - 8) s) with (skip 8 (skip (len s - 16) s))
    by (rewrite skip_skip by lia; f_equal; lia).
  by rewrite !first_skip.
Qed.

(** Case analysis on every three-way comparison of the goal. *)
Ltac three_way :=
  repeat match goal with
  | |- context [andThen ?r ?s] => destruct (andThen_spec r s) as [[? ->]|[? ->]]
  end;
  repeat match goal with
  | |- context [zcmp ?a ?b] =>
      destruct (zcmp_spec a b) as [[? ->]|[[? ->]|[? ->]]]
  | H : context [zcmp ?a ?b] |- _ =>
      destruct (zcmp_spec a b) as [[? E]|[[? E]|[? E]]]; rewrite E in H; clear E
  end.

#[export] Instance vkey_laws : ComparatorLaws vkey_ok VKey.comparator.
Proof.
  split; cbn [Compare FindShortestSeparator FindShortSuccessor VKey.comparator];
    intros *; rewrite ?VKey_Compare_unfold.
  - intros Ha Hb. split; [|intros ->; three_way; rewrite ?lex_refl in *; lia].
    intros H. rewrite (vkey_split a Ha), (vkey_split b Hb).
    revert H. three_way; intros; try lia. rewrite lex_eq in *. congruence.
  - intros _ _. rewrite (lex_opp (first _ a)). three_way; lia.
  - intros _ _ _.
    pose proof (lex_trans (first (len a - 16) a) (first (len b - 16) b) (first (len d - 16) d)).
    three_way; lia.
  - intros Ha Hl H. split; [done|]. split; [|done]. three_way; rewrite ?lex_refl in *; lia.
  - done.
  - intros Ha. split; [done|]. three_way; rewrite ?lex_refl in *; lia.
Qed.

Lemma lex_app_same a1 b1 a2 b2 :
  length a1 = length a2 → lex (a1 ++ b1) (a2 ++ b2) = andThen (lex a1 a2) (lex b1 b2).
Proof.
  revert a2. induction a1 as [|x a1 IH]; intros [|y a2] H; try done. simpl.
  repeat case_if; try done. apply IH. simpl in H. lia.
Qed.

Lemma lex_rev_le_bytes n a b :
  0 ≤ a < 256 ^ Z.of_nat n → 0 ≤ b < 256 ^ Z.of_nat n →
  lex (rev (le_bytes n a)) (rev (le_bytes n b)) = zcmp a b.
Proof.
  revert a b. induction n as [|n IH]; intros a b Ha Hb.
  - simpl in *. replace b with a by lia. unfold zcmp. by rewrite Z.gtb_ltb, Z.ltb_irrefl.
  - rewrite Nat2Z.inj_succ, Z.pow_succ_r in Ha, Hb by lia. cbn [le_bytes rev].
    rewrite lex_app_same by (by rewrite !length_rev, !length_le_bytes).
    rewrite IH by (split; [apply Z.div_pos|apply Z.div_lt_upper_bound]; lia).
    simpl lex. fold (zcmp (b `mod` 256) (a `mod` 256)).
    pose proof (Z.div_mod a 256). pose proof (Z.div_mod b 256).
    pose proof (Z.mod_pos_bound a 256). pose proof (Z.mod_pos_bound b 256).
    destruct (Z.ltb_spec (a `mod` 256) (b `mod` 256)),
      (Z.ltb_spec (b `mod` 256) (a `mod` 256)); three_way; lia.
Qed.

(** ** The properties of the orders *)

(** A value-table key made of its three parts. *)
Definition MakeVKey (user_key : bytes) (tag sort_key : Z) : bytes :=
  user_key ++ EncodeFixed64 tag ++ EncodeFixed64 sort_key.

Lemma MakeVKey_parts u t k :
  u64_ok t → u64_ok k →
  DecodeFixed64 (skip (len (MakeVKey u t k) - 8) (MakeVKey u t k)) = k ∧
  first (len (MakeVKey u t k) - 16) (MakeVKey u t k) = u ∧
  DecodeFixed64 (skip (len (MakeVKey u t k) - 16) (MakeVKey u t k)) = t.
Proof.
  intros Ht Hk. unfold MakeVKey. rewrite !len_app, len_EncodeFixed64.
  replace (skip (len u + (8 + len (EncodeFixed64 k)) - 8) _) with (EncodeFixed64 k).
  - rewrite DecodeFixed64_enc, first_app, skip_app by (rewrite ?len_EncodeFixed64; lia || done).
    by rewrite DecodeFixed64_app.
  - rewrite app_assoc, skip_app; [done|]. rewrite len_app, !len_EncodeFixed64. lia.
Qed.

(** The value table is ordered by sort key first, then user key, then tag:
    [VKeyComparator] on keys built from parts is the lexicographic composition
    of the three comparisons, whatever the sizes of the user keys. *)
Theorem vkey_order u1 t1 k1 u2 t2 k2 :
  u64_ok t1 → u64_ok k1 → u64_ok t2 → u64_ok k2 →
  VKey.Compare (MakeVKey u1 t1 k1) (MakeVKey u2 t2 k2) =
  andThen (zcmp k1 k2) (andThen (Slice.compare u1 u2) (zcmp t1 t2)).
Proof.
  intros. rewrite VKey_Compare_unfold, compare_lex.
  destruct (MakeVKey_parts u1 t1 k1) as (-> & -> & ->); [done..|].
  by destruct (MakeVKey_parts u2 t2 k2) as (-> & -> & ->).
Qed.

Lemma vkey_order_witness :
  VKey.Compare (MakeVKey [9] 7 1) (MakeVKey [1] 7 2) =
  andThen (zcmp 1 2) (andThen (Slice.compare [9] [1]) (zcmp 7 7)).
Proof. apply vkey_order; unfold u64_ok; lia. Defined.

(** When [start < limit], the key [FindShortestSeparator] leaves in
    [*start] lies in [start, limit) and is no longer than [start]; on other
    arguments that agree nothing changes, and [FindShortSuccessor] never gives
    a smaller or a longer key. *)
Theorem bytewise_shortening start limit :
  bytes_ok start →
  Compare Bytewise.comparator start limit < 0 →
  let s := FindShortestSeparator Bytewise.comparator start limit in
  let n := FindShortSuccessor Bytewise.comparator start in
  Compare Bytewise.comparator start s ≤ 0 ∧ Compare Bytewise.comparator s limit < 0 ∧
  len s ≤ len start ∧ FindShortestSeparator Bytewise.comparator start start = start ∧
  Compare Bytewise.comparator start n ≤ 0 ∧ len n ≤ len start.
Proof.
  intros Hs Hlt. cbn. cbn in Hlt. rewrite !compare_lex in *.
  destruct (separator_spec start limit Hs Hlt) as (_ & ? & ? & ?).
  destruct (successor_spec start Hs) as (_ & ? & ?).
  pose proof (separator_same start). tauto.
Qed.

Lemma bytewise_shortening_witness :
  FindShortestSeparator Bytewise.comparator [1; 2; 3] [1; 9] = [1; 3] ∧
  Compare Bytewise.comparator [1; 2; 3] [1; 3] ≤ 0.
Proof.
  split; [reflexivity|].
  apply (bytewise_shortening [1; 2; 3] [1; 9]); [|reflexivity].
  repeat constructor; unfold byte_ok; lia.
Defined.

(** The big-endian encodings are order-preserving: comparing two of them
    bytewise is comparing the integers, which is what a key encoded with
    [PutBigEndianFixed32] or [EncodeBigEndianFixed64] relies on. *)
Theorem big_endian_order a b :
  (u32_ok a → u32_ok b →
     Slice.compare (EncodeBigEndianFixed32 a) (EncodeBigEndianFixed32 b) = zcmp a b) ∧
  (u64_ok a → u64_ok b →
     Slice.compare (EncodeBigEndianFixed64 a) (EncodeBigEndianFixed64 b) = zcmp a b).
Proof.
  split; intros; rewrite compare_lex.
  - rewrite !EncodeBigEndianFixed32_rev. by apply lex_rev_le_bytes.
  - rewrite !EncodeBigEndianFixed64_rev. by apply lex_rev_le_bytes.
Qed.
