(* ===== verification/Filename.v ===== *)
(** * db/filename.cc, util/logging.cc: the names of files

    Decimal numbers as [snprintf] prints them and as [ConsumeDecimalNumber]
    reads them with its check for overflow; the names of the files of a
    database, and [ParseFileName], which recognises them. *)

From Stdlib Require Import Ascii String.
From S2P Require Import Prelude Coding Comparator.

#[local] Open Scope Z_scope.
#[local] Open Scope list_scope.

(** The bytes of a literal. *)
Definition str (s : string) : bytes := (λ c, Z.of_N (N_of_ascii c)) <$> list_ascii_of_string s.
#[global] Arguments str s%_string.

(** ** util/logging.cc *)

(** ["%llu"]: at most 20 digits. *)
Fixpoint print_digits (fuel : nat) (n : Z) : bytes :=
  match fuel with
  | O => []
  | S fuel' => (if n <? 10 then [] else print_digits fuel' (n / 10)) ++ [48 + n `mod` 10]
  end.

Definition print_llu (n : Z) : bytes := print_digits 20 n.

(** ["%06llu"]. *)
Definition print_06llu (n : Z) : bytes := replicate (6 - length (print_llu n)) 48 ++ print_llu n.

(** [snprintf(buf, size, ...)] keeps [size - 1] characters. *)
Definition snprintf (size : Z) (s : bytes) : bytes := first (size - 1) s.

Definition AppendNumberTo (s : bytes) (num : Z) : bytes := s ++ snprintf 30 (print_llu num).

Definition NumberToString (num : Z) : bytes := AppendNumberTo [] num.

Definition hex_digit (d : Z) : Z := if d <? 10 then 48 + d else 87 + d.

(** ["\\x%02x"]. *)
Definition print_hex (c : Z) : bytes := [92; 120; hex_digit (c / 16); hex_digit (c `mod` 16)].

(** [char] is signed: a byte from 128 on is below [' ']. *)
Definition EscapeChar (c : Z) : bytes :=
  if (32 <=? i8 c) && (i8 c <=? 126) then [c] else snprintf 10 (print_hex c).

Definition AppendEscapedStringTo (s value : bytes) : bytes := foldl (λ s c, s ++ EscapeChar c) s value.

Definition EscapeString (value : bytes) : bytes := AppendEscapedStringTo [] value.

Definition kMaxUint64 : Z := 2 ^ 64 - 1.

(** The loop: [None] for an overflow, or the value and what is left. *)
Fixpoint Consume_loop (current : bytes) (value : Z) : option (Z * bytes) :=
  match current with
  | [] => Some (value, [])
  | ch :: rest =>
      if (ch <? 48) || (ch >? 57) then Some (value, current)
      else if (value >? kMaxUint64 / 10) || ((value =? kMaxUint64 / 10) && (ch >? 48 + kMaxUint64 `mod` 10)) then None
      else Consume_loop rest (u64 (value * 10 + (ch - 48)))
  end.

(** The result, what was stored in [*val] if anything, and [*in]. *)
Definition ConsumeDecimalNumber (in_ : bytes) : bool * option Z * bytes :=
  match Consume_loop in_ 0 with
  | None => (false, None, in_)
  | Some (value, rest) => (negb (len in_ - len rest =? 0), Some value, rest)
  end.

(** ** db/filename.cc *)

Inductive FileType := kLogFile | kDBLockFile | kTableFile | kDescriptorFile | kCurrentFile | kTempFile | kInfoLogFile | kVTableFile.

#[export] Instance FileType_eq_dec : EqDecision FileType.
Proof. solve_decision. Defined.

Definition MakeFileName (dbname : bytes) (number : Z) (suffix : bytes) : bytes :=
  dbname ++ snprintf 100 (str "/" ++ print_06llu number ++ str "." ++ suffix).

(** The names with a number assert that it is not 0: callers meet this
    precondition, and the theorem on names assumes it ([asserted] below). *)
Definition LogFileName (dbname : bytes) (number : Z) : bytes := MakeFileName dbname number (str "log").
Definition TableFileName (dbname : bytes) (number : Z) : bytes := MakeFileName dbname number (str "ldb").
Definition VTableFileName (dbname : bytes) (number : Z) : bytes := MakeFileName dbname number (str "vldb").
Definition SSTTableFileName (dbname : bytes) (number : Z) : bytes := MakeFileName dbname number (str "sst").
Definition DescriptorFileName (dbname : bytes) (number : Z) : bytes :=
  dbname ++ snprintf 100 (str "/MANIFEST-" ++ print_06llu number).
Definition CurrentFileName (dbname : bytes) : bytes := dbname ++ str "/CURRENT".
Definition LockFileName (dbname : bytes) : bytes := dbname ++ str "/LOCK".
Definition TempFileName (dbname : bytes) (number : Z) : bytes := MakeFileName dbname number (str "dbtmp").
Definition InfoLogFileName (dbname : bytes) : bytes := dbname ++ str "/LOG".
Definition OldInfoLogFileName (dbname : bytes) : bytes := dbname ++ str "/LOG.old".
Definition DependencyGraphFileName (dbname : bytes) : bytes := dbname ++ str "/DEPENDENCY".

Definition ParseFileName (filename : bytes) : option (Z * FileType) :=
  let rest := filename in
  if Slice.operator_eq rest (str "CURRENT") then Some (0, kCurrentFile)
  else if Slice.operator_eq rest (str "LOCK") then Some (0, kDBLockFile)
  else if Slice.operator_eq rest (str "LOG") || Slice.operator_eq rest (str "LOG.old") then Some (0, kInfoLogFile)
  else if Slice.starts_with rest (str "MANIFEST-") then
    let rest := Slice.remove_prefix rest (len (str "MANIFEST-")) in
    match ConsumeDecimalNumber rest with
    | (true, Some num, rest) => if len rest =? 0 then Some (num, kDescriptorFile) else None
    | _ => None
    end
  else
    match ConsumeDecimalNumber rest with
    | (true, Some num, suffix) =>
        if Slice.operator_eq suffix (str ".log") then Some (num, kLogFile)
        else if Slice.operator_eq suffix (str ".sst") || Slice.operator_eq suffix (str ".ldb") then Some (num, kTableFile)
        else if Slice.operator_eq suffix (str ".vldb") then Some (num, kVTableFile)
        else if Slice.operator_eq suffix (str ".dbtmp") then Some (num, kTempFile)
        else None
    | _ => None
    end.

(** ** Lemmas: decimal numbers *)

Definition is_digit (c : Z) : Prop := 48 ≤ c ≤ 57.

(** The number that digits denote, read after [v]. *)
Definition number_from (v : Z) (ds : bytes) : Z := foldl (λ v c, v * 10 + (c - 48)) v ds.
Definition number (ds : bytes) : Z := number_from 0 ds.

Lemma number_from_ge v ds : 0 ≤ v → Forall is_digit ds → v ≤ number_from v ds.
Proof.
  intros Hv H. revert v Hv. induction H as [|c ds Hc H IH]; intros v Hv; cbn [number_from foldl]; [lia|].
  unfold is_digit in Hc. etrans; [|apply IH; lia]. lia.
Qed.

Lemma Consume_loop_ok ds rest v :
  Forall is_digit ds → (∀ c, head rest = Some c → ¬ is_digit c) → u64_ok v →
  Consume_loop (ds ++ rest) v = if number_from v ds <? 2 ^ 64 then Some (number_from v ds, rest) else None.
Proof.
  intros H Hr. revert v. induction H as [|c ds Hc H IH]; intros v Hv; cbn [app].
  - cbn [number_from foldl]. rewrite (proj2 (Z.ltb_lt _ _)) by apply Hv. destruct rest as [|c rest]; [done|]. cbn [Consume_loop].
    specialize (Hr c eq_refl). unfold is_digit in Hr. destruct (Z.ltb_spec c 48); [done|]. cbn [orb].
    by rewrite (proj2 (Z.gtb_lt _ _)) by lia.
  - cbn [Consume_loop number_from foldl]. unfold is_digit in Hc. rewrite (proj2 (Z.ltb_ge _ _)) by lia. cbn [orb].
    assert ((c >? 57) = false) as -> by (rewrite Z.gtb_ltb; apply Z.ltb_ge; lia).
    change (kMaxUint64 / 10) with 1844674407370955161. change (48 + kMaxUint64 `mod` 10) with 53.
    destruct ((v >? 1844674407370955161) || (v =? 1844674407370955161) && (c >? 53)) eqn:E.
    + assert (2 ^ 64 ≤ v * 10 + (c - 48)) as Hbig.
      { apply orb_true_iff in E as [E%Z.gtb_lt|[E%Z.eqb_eq E2%Z.gtb_lt]%andb_true_iff]; lia. }
      pose proof (number_from_ge (v * 10 + (c - 48)) ds ltac:(lia) H) as Hge. unfold number_from in Hge. by rewrite (proj2 (Z.ltb_ge _ _)) by lia.
    + assert (u64_ok (v * 10 + (c - 48))) as Hok.
      { apply orb_false_iff in E as [E1 E2]. rewrite Z.gtb_ltb in E1. apply Z.ltb_ge in E1. unfold u64_ok in *.
        apply andb_false_iff in E2 as [E2%Z.eqb_neq|E2]; [lia|]. rewrite Z.gtb_ltb in E2. apply Z.ltb_ge in E2. lia. }
      rewrite u64_id by done. by apply IH.
Qed.

(** Any string as its leading digits and the rest. *)
Lemma leading_digits s : ∃ ds rest, s = ds ++ rest ∧ Forall is_digit ds ∧ ∀ c, head rest = Some c → ¬ is_digit c.
Proof.
  induction s as [|c s (ds & rest & -> & Hd & Hr)]; [by exists [], []|].
  destruct (decide (48 ≤ c ≤ 57)).
  - exists (c :: ds), rest. split; [done|]. split; [by constructor|done].
  - exists [], (c :: ds ++ rest). split; [done|]. split; [constructor|]. by intros ? [= <-].
Qed.

Lemma Consume_ok ds rest :
  Forall is_digit ds → (∀ c, head rest = Some c → ¬ is_digit c) →
  ConsumeDecimalNumber (ds ++ rest) =
    if number ds <? 2 ^ 64 then (negb (len ds =? 0), Some (number ds), rest) else (false, None, ds ++ rest).
Proof.
  intros Hd Hr. unfold ConsumeDecimalNumber. rewrite (Consume_loop_ok ds rest 0 Hd Hr) by (unfold u64_ok; lia). fold (number ds).
  case_if; [|done]. rewrite len_app. do 2 f_equal. f_equal. f_equal. lia.
Qed.

(** ** Printing *)

Lemma number_from_snoc v ds c : number_from v (ds ++ [c]) = number_from v ds * 10 + (c - 48).
Proof. unfold number_from. by rewrite foldl_app. Qed.

Lemma print_digits_ok fuel n :
  0 ≤ n < 10 ^ Z.of_nat fuel → Forall is_digit (print_digits fuel n) ∧ number (print_digits fuel n) = n ∧
    (0 < fuel → 0 < length (print_digits fuel n))%nat ∧ (length (print_digits fuel n) ≤ fuel)%nat.
Proof.
  revert n. induction fuel as [|fuel IH]; intros n Hn.
  { cbn in Hn. split; [constructor|]. split; [cbn; lia|]. cbn. lia. }
  cbn [print_digits]. rewrite Nat2Z.inj_succ, Z.pow_succ_r in Hn by lia. pose proof (Z.mod_pos_bound n 10 ltac:(lia)).
  pose proof (Z.div_mod n 10 ltac:(lia)). unfold number in *.
  destruct (Z.ltb_spec n 10) as [Hlt|Hge].
  - rewrite Z.mod_small by lia. cbn [app length]. split; [apply Forall_singleton; unfold is_digit; lia|]. split; [cbn; lia|]. lia.
  - assert (0 ≤ n / 10 < 10 ^ Z.of_nat fuel) as Hq by (split; [apply Z.div_pos; lia|apply Z.div_lt_upper_bound; lia]).
    destruct (IH _ Hq) as (Hd & Hv & _ & Hl). rewrite number_from_snoc, Hv, length_app. cbn [length].
    split; [apply Forall_app_2; [done|apply Forall_singleton; unfold is_digit; lia]|]. split; lia.
Qed.

Lemma print_llu_ok n :
  u64_ok n → Forall is_digit (print_llu n) ∧ number (print_llu n) = n ∧ (0 < length (print_llu n) ≤ 20)%nat.
Proof.
  intros Hn. destruct (print_digits_ok 20 n) as (Hd & Hv & Hp & Hl); [unfold u64_ok in Hn; cbn; lia|]. split_and!; [done|done|by apply Hp; lia|done].
Qed.

Lemma number_zeros k ds : number (replicate k 48 ++ ds) = number ds.
Proof. unfold number. induction k as [|k IH]; [done|]. exact IH. Qed.

Lemma print_06llu_ok n :
  u64_ok n → Forall is_digit (print_06llu n) ∧ number (print_06llu n) = n ∧ (6 ≤ length (print_06llu n) ≤ 20)%nat.
Proof.
  intros Hn. destruct (print_llu_ok n Hn) as (Hd & Hv & Hl). unfold print_06llu. rewrite number_zeros, length_app, length_replicate.
  split_and!; [|done|lia..]. apply Forall_app_2; [apply Forall_replicate; unfold is_digit; lia|done].
Qed.

Lemma snprintf_fits size s : len s < size → snprintf size s = s.
Proof. intros H. unfold snprintf, first, len in *. apply take_ge. lia. Qed.

Lemma MakeFileName_eq dbname n suffix :
  u64_ok n → (length suffix < 70)%nat → MakeFileName dbname n suffix = dbname ++ str "/" ++ print_06llu n ++ str "." ++ suffix.
Proof.
  intros Hn Hs. unfold MakeFileName. destruct (print_06llu_ok n Hn) as (_ & _ & Hl). rewrite snprintf_fits; [done|].
  unfold len. rewrite !length_app. cbn [length str fmap list_fmap list_ascii_of_string]. lia.
Qed.

Lemma DescriptorFileName_eq dbname n : u64_ok n → DescriptorFileName dbname n = dbname ++ str "/MANIFEST-" ++ print_06llu n.
Proof.
  intros Hn. unfold DescriptorFileName. destruct (print_06llu_ok n Hn) as (_ & _ & Hl). rewrite snprintf_fits; [done|].
  unfold len. rewrite length_app. cbn [length str fmap list_fmap list_ascii_of_string]. lia.
Qed.

(** ** Parsing *)

Lemma eq_bool x y : Slice.operator_eq x y = bool_decide (x = y).
Proof. apply eq_true_iff_eq. by rewrite operator_eq_spec, bool_decide_eq_true. Qed.

Lemma memcmp_prefix p s : memcmp (length p) (p ++ s) p = 0.
Proof. induction p as [|c p IH]; [done|]. cbn [length app memcmp]. by rewrite Z.ltb_irrefl. Qed.

Lemma starts_with_app p s : Slice.starts_with (p ++ s) p = true.
Proof. unfold Slice.starts_with. rewrite memcmp_prefix, len_app. pose proof (len_nonneg s). rewrite andb_true_iff, Z.geb_le. by split; [lia|]. Qed.

(** A name that starts with a digit is none of the fixed ones. *)
Lemma Parse_digits c ds rest :
  Forall is_digit (c :: ds) → (∀ c, head rest = Some c → ¬ is_digit c) → number (c :: ds) < 2 ^ 64 →
  ParseFileName (c :: ds ++ rest) =
    (if Slice.operator_eq rest (str ".log") then Some (number (c :: ds), kLogFile)
     else if Slice.operator_eq rest (str ".sst") || Slice.operator_eq rest (str ".ldb") then Some (number (c :: ds), kTableFile)
     else if Slice.operator_eq rest (str ".vldb") then Some (number (c :: ds), kVTableFile)
     else if Slice.operator_eq rest (str ".dbtmp") then Some (number (c :: ds), kTempFile)
     else None).
Proof.
  intros Hd Hr Hn. unfold ParseFileName. inversion Hd as [|? ? Hc _]; subst. unfold is_digit in Hc.
  rewrite (eq_bool (c :: _) (str "CURRENT")), (eq_bool (c :: _) (str "LOCK")), (eq_bool (c :: _) (str "LOG")), (eq_bool (c :: _) (str "LOG.old")).
  do 4 (rewrite bool_decide_false by (intros E; apply (f_equal head) in E; cbn in E; injection E; lia)). cbn [orb].
  assert (Slice.starts_with (c :: ds ++ rest) (str "MANIFEST-") = false) as ->.
  { unfold Slice.starts_with. apply andb_false_iff. right. cbn [str fmap list_fmap list_ascii_of_string length memcmp].
    rewrite (proj2 (Z.ltb_lt _ _)) by (cbn; lia). done. }
  change (c :: ds ++ rest) with ((c :: ds) ++ rest). rewrite Consume_ok by done. rewrite (proj2 (Z.ltb_lt _ _)) by done.
  rewrite (proj2 (Z.eqb_neq _ _)) by (rewrite len_cons; pose proof (len_nonneg ds); lia). done.
Qed.

Lemma Parse_manifest ds :
  ds ≠ [] → Forall is_digit ds → number ds < 2 ^ 64 → ParseFileName (str "MANIFEST-" ++ ds) = Some (number ds, kDescriptorFile).
Proof.
  intros Hne Hd Hn. unfold ParseFileName.
  rewrite (eq_bool _ (str "CURRENT")), (eq_bool _ (str "LOCK")), (eq_bool _ (str "LOG")), (eq_bool _ (str "LOG.old")).
  do 4 (rewrite bool_decide_false by (intros E; apply (f_equal head) in E; cbn in E; done)). cbn [orb].
  rewrite starts_with_app. unfold Slice.remove_prefix. rewrite skip_app by done. rewrite <- (app_nil_r ds) at 1.
  rewrite Consume_ok by done. rewrite (proj2 (Z.ltb_lt _ _)) by done.
  rewrite (proj2 (Z.eqb_neq _ _)); [done|]. destruct ds; [done|]. rewrite len_cons. pose proof (len_nonneg ds). lia.
Qed.

(** ** The files of a database *)

Inductive OwnedFile :=
  | LogFile (n : Z) | TableFile (n : Z) | SSTTableFile (n : Z) | VTableFile (n : Z) | DescriptorFile (n : Z) | TempFile (n : Z)
  | CurrentFile | LockFile | InfoLogFile | OldInfoLogFile | DependencyGraphFile.

Definition name_of (dbname : bytes) (o : OwnedFile) : bytes :=
  match o with
  | LogFile n => LogFileName dbname n
  | TableFile n => TableFileName dbname n
  | SSTTableFile n => SSTTableFileName dbname n
  | VTableFile n => VTableFileName dbname n
  | DescriptorFile n => DescriptorFileName dbname n
  | TempFile n => TempFileName dbname n
  | CurrentFile => CurrentFileName dbname
  | LockFile => LockFileName dbname
  | InfoLogFile => InfoLogFileName dbname
  | OldInfoLogFile => OldInfoLogFileName dbname
  | DependencyGraphFile => DependencyGraphFileName dbname
  end.

Definition number_ok (o : OwnedFile) : Prop :=
  match o with
  | LogFile n | TableFile n | SSTTableFile n | VTableFile n | DescriptorFile n | TempFile n => u64_ok n
  | _ => True
  end.

(** The assertions of the name functions. *)
Definition asserted (o : OwnedFile) : Prop :=
  match o with
  | LogFile n | TableFile n | SSTTableFile n | VTableFile n | DescriptorFile n | TempFile n => 0 < n
  | _ => True
  end.

(** What [ParseFileName] makes of each: the dependency graph is not one of the
    names it knows. *)
Definition parsed_as (o : OwnedFile) : option (Z * FileType) :=
  match o with
  | LogFile n => Some (n, kLogFile)
  | TableFile n | SSTTableFile n => Some (n, kTableFile)
  | VTableFile n => Some (n, kVTableFile)
  | DescriptorFile n => Some (n, kDescriptorFile)
  | TempFile n => Some (n, kTempFile)
  | CurrentFile => Some (0, kCurrentFile)
  | LockFile => Some (0, kDBLockFile)
  | InfoLogFile | OldInfoLogFile => Some (0, kInfoLogFile)
  | DependencyGraphFile => None
  end.

(** The name below the directory. *)
Definition base_name (o : OwnedFile) : bytes := skip 1 (name_of [] o).

Lemma name_of_base dbname o : number_ok o → name_of dbname o = dbname ++ str "/" ++ base_name o.
Proof.
  intros Ho. unfold base_name. destruct o; cbn [name_of number_ok] in *; try done;
    unfold LogFileName, TableFileName, SSTTableFileName, VTableFileName, TempFileName;
    rewrite ?MakeFileName_eq, ?DescriptorFileName_eq by (done || (cbn; lia)); done.
Qed.

Lemma Parse_numbered n suffix t :
  u64_ok n → (length suffix < 70)%nat →
  (∀ c ds, Forall is_digit (c :: ds) → number (c :: ds) = n → ParseFileName (c :: ds ++ str "." ++ suffix) = Some (n, t)) →
  ParseFileName (skip 1 (MakeFileName [] n suffix)) = Some (n, t).
Proof.
  intros Hn Hs H. rewrite MakeFileName_eq by done. destruct (print_06llu_ok n Hn) as (Hd & Hv & Hl).
  destruct (print_06llu n) as [|c ds]; [cbn in Hl; lia|]. by apply H.
Qed.

Lemma Parse_base o : number_ok o → ParseFileName (base_name o) = parsed_as o.
Proof.
  intros Ho. unfold base_name. destruct o; cbn [name_of number_ok parsed_as] in *; try reflexivity.
  all: try (apply Parse_numbered; [done|cbn; lia|]; intros c ds Hd Hv; unfold u64_ok in Ho;
    rewrite Parse_digits by (done || lia || (cbn; intros ? [= <-]; unfold is_digit; lia)); rewrite Hv; reflexivity).
  rewrite DescriptorFileName_eq by done. destruct (print_06llu_ok n Ho) as (Hd & Hv & Hl).
  change (skip 1 ([] ++ str "/MANIFEST-" ++ print_06llu n)) with (str "MANIFEST-" ++ print_06llu n). unfold u64_ok in Ho.
  rewrite Parse_manifest; [by rewrite Hv| |done|lia]. destruct (print_06llu n); [cbn in Hl; lia|done].
Qed.

Lemma base_name_inj o o' : number_ok o → number_ok o' → base_name o = base_name o' → o = o'.
Proof.
  intros Ho Ho' E. assert (parsed_as o = parsed_as o') as Ep by (rewrite <- !Parse_base by done; by rewrite E).
  destruct o, o'; cbn [parsed_as] in Ep; try discriminate Ep; try congruence; try (exfalso; discriminate E).
  all: injection Ep as ->; exfalso; revert E; unfold base_name, name_of, TableFileName, SSTTableFileName; rewrite !MakeFileName_eq by (done || (cbn; lia)).
  all: cbn; unfold skip; cbn; intros E; apply app_inv_head in E; discriminate E.
Qed.

(** Every byte is escaped to printable characters. *)
Lemma EscapeChar_printable c : byte_ok c → Forall (λ x, 32 ≤ x ≤ 126) (EscapeChar c) ∧ (length (EscapeChar c) ≤ 4)%nat.
Proof.
  intros Hc. unfold EscapeChar. destruct ((32 <=? i8 c) && (i8 c <=? 126)) eqn:E; zify_bool.
  - split; [|cbn; lia]. apply Forall_singleton. unfold i8, byte_ok in *. destruct (Z.lt_ge_cases c 128).
    + rewrite Z.mod_small in * by lia. lia.
    + rewrite (Z.mod_eq (c + 2 ^ 7) (2 ^ 8)) in * by lia. assert ((c + 2 ^ 7) / 2 ^ 8 = 1) as Hq by (symmetry; apply Z.div_unique with (c - 128); lia). lia.
  - rewrite snprintf_fits by done. unfold print_hex, byte_ok in *.
    assert (∀ d, 0 ≤ d < 16 → 32 ≤ hex_digit d ≤ 126) as Hx by (intros d Hd; unfold hex_digit; case_if; lia).
    pose proof (Z.mod_pos_bound c 16 ltac:(lia)). assert (0 ≤ c / 16 < 16) by (split; [apply Z.div_pos; lia|apply Z.div_lt_upper_bound; lia]).
    split; [|cbn [length]; lia]. repeat (apply Forall_cons; split; [lia || auto|]). constructor.
Qed.

Lemma AppendEscapedStringTo_app s value : AppendEscapedStringTo s value = s ++ mjoin (EscapeChar <$> value).
Proof.
  unfold AppendEscapedStringTo. revert s. induction value as [|c value IH]; intros s; cbn [foldl fmap list_fmap mjoin list_join]; [by rewrite app_nil_r|].
  by rewrite IH, <- app_assoc.
Qed.

(** ** Properties *)

(** Reading a decimal number. [ConsumeDecimalNumber] takes all leading
    digits of a string and gives the number they denote exactly when there is
    one and it fits 64 bits; otherwise it fails, and on an overflow it leaves
    the string as it was. *)
Theorem consume_decimal_correct s :
  ∃ ds rest, s = ds ++ rest ∧ Forall is_digit ds ∧ (∀ c, head rest = Some c → ¬ is_digit c) ∧
    ConsumeDecimalNumber s =
      if number ds <? 2 ^ 64 then (negb (len ds =? 0), Some (number ds), rest) else (false, None, s).
Proof. destruct (leading_digits s) as (ds & rest & -> & Hd & Hr). exists ds, rest. split_and!; try done. by apply Consume_ok. Qed.

(** Escaped strings are printable, and at most four times as long. *)
Theorem escape_printable value :
  bytes_ok value → Forall (λ x, 32 ≤ x ≤ 126) (EscapeString value) ∧ len (EscapeString value) ≤ 4 * len value.
Proof.
  unfold EscapeString. rewrite AppendEscapedStringTo_app, app_nil_l. induction 1 as [|c value Hc H [IH1 IH2]]; [done|].
  destruct (EscapeChar_printable c Hc). change (mjoin (EscapeChar <$> c :: value)) with (EscapeChar c ++ mjoin (EscapeChar <$> value)).
  rewrite len_app, len_cons.
  split; [by apply Forall_app_2|]. unfold len in *. lia.
Qed.

(** C31: the names of files. For every file of a database and any 64-bit number
    above 0, which the name functions assert, the name below the directory is
    recognised with the number and the type it was made from; different files
    have different names, whatever the directory; and the only file that is not
    recognised is the dependency graph's. *)
Theorem filename_roundtrip dbname o o' :
  number_ok o → asserted o → number_ok o' → asserted o' →
  ParseFileName (Slice.remove_prefix (name_of dbname o) (len dbname + 1)) = parsed_as o ∧
  (name_of dbname o = name_of dbname o' → o = o') ∧ (parsed_as o = None ↔ o = DependencyGraphFile).
Proof.
  intros Ho _ Ho' _. split_and!.
  - rewrite name_of_base by done. unfold Slice.remove_prefix. rewrite app_assoc, skip_app; [by apply Parse_base|]. by rewrite len_app.
  - rewrite !name_of_base by done. intros E%app_inv_head%app_inv_head. by apply base_name_inj.
  - destruct o; cbn; split; congruence.
Qed.

(** ** Witnesses *)

Lemma filename_roundtrip_witness :
  ParseFileName (Slice.remove_prefix (VTableFileName (str "/db") 1234567) 4) = Some (1234567, kVTableFile) ∧
  VTableFileName (str "/db") 12 = str "/db/000012.vldb" ∧
  VTableFileName (str "/db") 1234567 ≠ TableFileName (str "/db") 1234567.
Proof.
  destruct (filename_roundtrip (str "/db") (VTableFile 1234567) (TableFile 1234567)) as (H1 & H2 & _).
  - split; vm_compute; [discriminate|reflexivity].
  - reflexivity.
  - split; vm_compute; [discriminate|reflexivity].
  - reflexivity.
  - split; [exact H1|]. split; [vm_compute; reflexivity|]. intros E. discriminate (H2 E).
Defined.
