(* ===== verification/MemEnv.v ===== *)
(** * include/leveldb/env.h, util/env.cc, helpers/memenv: files by name

    The part of the [Env] interface that the database uses to create, read,
    rename and delete whole files, as a class with the behaviour env.h
    documents; the functions of util/env.cc and db/filename.cc over any such
    environment; and the in-memory environment of helpers/memenv, which keeps a
    file in blocks of 8192 bytes and counts references to it. *)

From Stdlib Require Import Sorted String.
From stdpp Require Import gmap sorting.
From S2P Require Import Prelude Coding Comparator Filename.

#[local] Open Scope Z_scope.
#[local] Open Scope list_scope.

(** ** The interface *)

(** [W] and [R] are writable and sequential files. Each call takes and returns
    the state of the environment; [None] or [false] is an error status. A
    destructor has no result. *)
Class Env (E W R : Type) := {
  NewWritableFile : bytes → E → option W * E;
  WAppend : W → bytes → E → bool * E;
  WFlush : W → E → bool * E;
  WSync : W → E → bool * E;
  WClose : W → E → bool * E;
  DeleteW : W → E → E;
  NewSequentialFile : bytes → E → option R * E;
  SRead : R → Z → E → option bytes * R * E;
  DeleteS : R → E → E;
  DeleteFile : bytes → E → bool * E;
  RenameFile : bytes → bytes → E → bool * E;
  GetChildren : bytes → E → bool * list bytes
}.

(** What an environment promises. [file_of] is the contents of a file by name;
    [writes e w f] and [reads e s f r]: the handle is open on the file that has
    the name [f]; [r] is what a reader has not read yet. *)
Class EnvLaws (E W R : Type) (EN : Env E W R) := {
  env_ok : E → Prop;
  file_of : E → bytes → option bytes;
  writes : E → W → bytes → Prop;
  reads : E → R → bytes → bytes → Prop;
  NewWritableFile_law f e r e' : env_ok e → NewWritableFile f e = (r, e') →
    env_ok e' ∧ (∀ g, g ≠ f → file_of e' g = file_of e g) ∧
    (∀ w, r = Some w → writes e' w f ∧ file_of e' f = Some []);
  WAppend_law w f data e b e' : env_ok e → writes e w f → WAppend w data e = (b, e') →
    env_ok e' ∧ writes e' w f ∧ (∀ g, g ≠ f → file_of e' g = file_of e g) ∧
    (b = true → ∀ c, file_of e f = Some c → file_of e' f = Some (c ++ data));
  WFlush_law w f e b e' : env_ok e → writes e w f → WFlush w e = (b, e') →
    env_ok e' ∧ writes e' w f ∧ ∀ g, file_of e' g = file_of e g;
  WSync_law w f e b e' : env_ok e → writes e w f → WSync w e = (b, e') →
    env_ok e' ∧ writes e' w f ∧ ∀ g, file_of e' g = file_of e g;
  WClose_law w f e b e' : env_ok e → writes e w f → WClose w e = (b, e') →
    env_ok e' ∧ writes e' w f ∧ ∀ g, file_of e' g = file_of e g;
  DeleteW_law w f e : env_ok e → writes e w f → env_ok (DeleteW w e) ∧ ∀ g, file_of (DeleteW w e) g = file_of e g;
  NewSequentialFile_law f e r e' : env_ok e → NewSequentialFile f e = (r, e') →
    env_ok e' ∧ (∀ g, file_of e' g = file_of e g) ∧ (∀ s, r = Some s → ∃ c, file_of e f = Some c ∧ reads e' s f c);
  SRead_law s f rest n e r s' e' : env_ok e → reads e s f rest → 0 < n < 2 ^ 32 → SRead s n e = (r, s', e') →
    env_ok e' ∧ (∀ g, file_of e' g = file_of e g) ∧
    (∃ rest', reads e' s' f rest') ∧
    (∀ x, r = Some x → ∃ rest', rest = x ++ rest' ∧ reads e' s' f rest' ∧ (x = [] → rest = []));
  DeleteS_law s f rest e : env_ok e → reads e s f rest → env_ok (DeleteS s e) ∧ ∀ g, file_of (DeleteS s e) g = file_of e g;
  DeleteFile_law f e b e' : env_ok e → DeleteFile f e = (b, e') →
    env_ok e' ∧ (∀ g, g ≠ f → file_of e' g = file_of e g) ∧ file_of e' f = (if b then None else file_of e f);
  RenameFile_law s t e b e' : env_ok e → s ≠ t → RenameFile s t e = (b, e') →
    env_ok e' ∧ (∀ g, g ≠ s → g ≠ t → file_of e' g = file_of e g) ∧
    (b = true → file_of e' t = file_of e s ∧ is_Some (file_of e s) ∧ file_of e' s = None) ∧
    (b = false → file_of e' t = file_of e t);
  GetChildren_law d e l base : env_ok e → GetChildren d e = (true, l) →
    47 ∉ base → is_Some (file_of e (d ++ [47] ++ base)) → base ∈ l
}.

(** ** util/env.cc and SetCurrentFile *)

Section env.

Context {E W R : Type} {EN : Env E W R}.

Definition DoWriteStringToFile (data fname : bytes) (should_sync : bool) (e : E) : bool * E :=
  match NewWritableFile fname e with
  | (None, e) => (false, e)
  | (Some file, e) =>
      let '(s, e) := WAppend file data e in
      let '(s, e) := if s && should_sync then WSync file e else (s, e) in
      let '(s, e) := if s then WClose file e else (s, e) in
      let e := DeleteW file e in
      if negb s then (s, (DeleteFile fname e).2) else (s, e)
  end.

Definition WriteStringToFile (data fname : bytes) (e : E) : bool * E := DoWriteStringToFile data fname false e.
Definition WriteStringToFileSync (data fname : bytes) (e : E) : bool * E := DoWriteStringToFile data fname true e.

(** [while (true)]; the outer [None] is out of fuel. *)
Fixpoint Read_turns (fuel : nat) (file : R) (data : bytes) (e : E) : option (bool * bytes * R * E) :=
  match fuel with
  | O => None
  | S fuel' =>
      match SRead file 8192 e with
      | (None, file, e) => Some (false, data, file, e)
      | (Some fragment, file, e) =>
          let data := data ++ fragment in
          if len fragment =? 0 then Some (true, data, file, e) else Read_turns fuel' file data e
      end
  end.

Definition ReadFileToString (fuel : nat) (fname : bytes) (e : E) : option (bool * bytes * E) :=
  match NewSequentialFile fname e with
  | (None, e) => Some (false, [], e)
  | (Some file, e) =>
      '(s, data, file, e) ← Read_turns fuel file [] e;
      Some (s, data, DeleteS file e)
  end.

Definition SetCurrentFile (dbname : bytes) (descriptor_number : Z) (e : E) : bool * E :=
  let manifest := DescriptorFileName dbname descriptor_number in
  let contents := Slice.remove_prefix manifest (len dbname + 1) in
  let tmp := TempFileName dbname descriptor_number in
  let '(s, e) := WriteStringToFileSync (contents ++ [10]) tmp e in
  let '(s, e) := if s then RenameFile tmp (CurrentFileName dbname) e else (s, e) in
  if negb s then (s, (DeleteFile tmp e).2) else (s, e).

End env.

(** ** helpers/memenv/memenv.cc: FileState *)

Module FileState.

Definition kBlockSize : Z := 8192.

(** [size_] counts bytes that are in memory: 64 bits are enough. *)
Record t := { refs_ : Z; blocks_ : list bytes; size_ : Z }.

Definition New : t := {| refs_ := 0; blocks_ := []; size_ := 0 |}.

Definition Ref (f : t) : t := {| refs_ := refs_ f + 1; blocks_ := blocks_ f; size_ := size_ f |}.

(** The outer [None] is the assertion, the inner one that the file deletes
    itself. *)
Definition Unref (f : t) : option (option t) :=
  let refs := refs_ f - 1 in
  if refs <? 0 then None
  else Some (if refs <=? 0 then None else Some {| refs_ := refs; blocks_ := blocks_ f; size_ := size_ f |}).

Definition Truncate (f : t) : t := {| refs_ := refs_ f; blocks_ := []; size_ := 0 |}.

(** [None]: out of fuel, or a block that does not exist. *)
Fixpoint Read_loop (fuel : nat) (blocks : list bytes) (block block_offset bytes_to_copy : Z) (dst : bytes) : option bytes :=
  if 0 <? bytes_to_copy then
    match fuel with
    | O => None
    | S fuel' =>
        let avail := Z.min (kBlockSize - block_offset) bytes_to_copy in
        b ← blocks !! Z.to_nat block;
        Read_loop fuel' blocks (block + 1) 0 (bytes_to_copy - avail) (dst ++ slice b block_offset avail)
    end
  else Some dst.

Definition Read (offset n : Z) (f : t) : option (option bytes) :=
  if offset >? size_ f then Some None
  else
    let n := Z.min n (size_ f - offset) in
    if n =? 0 then Some (Some [])
    else
      data ← Read_loop (Z.to_nat n) (blocks_ f) (offset / kBlockSize) (offset `mod` kBlockSize) n [];
      Some (Some data).

(** [memcpy] into the last block. [fresh] is what [new char[kBlockSize]] gives:
    its contents are not initialised. *)
Definition write_last (offset : Z) (data : bytes) (blocks : list bytes) : option (list bytes) :=
  b ← last blocks;
  Some (removelast blocks ++ [first offset b ++ data ++ skip (offset + len data) b]).

Fixpoint Append_loop (fuel : nat) (fresh : bytes) (src : bytes) (f : t) : option t :=
  match src, fuel with
  | [], _ => Some f
  | _, O => None
  | _, S fuel' =>
      let offset := size_ f `mod` kBlockSize in
      let '(avail, blocks) := if negb (offset =? 0) then (kBlockSize - offset, blocks_ f) else (kBlockSize, blocks_ f ++ [fresh]) in
      let avail := Z.min avail (len src) in
      blocks ← write_last offset (first avail src) blocks;
      Append_loop fuel' fresh (skip avail src) {| refs_ := refs_ f; blocks_ := blocks; size_ := size_ f + avail |}
  end.

Definition Append (fresh : bytes) (data : bytes) (f : t) : option t := Append_loop (length data) fresh data f.

End FileState.

(** ** helpers/memenv/memenv.cc: InMemoryEnv *)

Module InMemoryEnv.

(** A [FileState*]; [None] is [nullptr]. *)
Abbreviation ptr := (option nat).

(** The file objects that are allocated, by address. *)
Record t := { file_map_ : gmap bytes ptr; heap : gmap nat FileState.t; next : nat }.

Definition New : t := {| file_map_ := ∅; heap := ∅; next := 0 |}.

Definition set_map (m : gmap bytes ptr) (e : t) : t := {| file_map_ := m; heap := heap e; next := next e |}.
Definition set_heap (h : gmap nat FileState.t) (e : t) : t := {| file_map_ := file_map_ e; heap := h; next := next e |}.

(** A method of the object behind a pointer; [None] is the use of a null or
    freed one. *)
Definition deref (p : ptr) (e : t) : option (nat * FileState.t) := id ← p; f ← heap e !! id; Some (id, f).

Definition Ref (p : ptr) (e : t) : option t :=
  '(id, f) ← deref p e; Some (set_heap (<[id := FileState.Ref f]> (heap e)) e).

Definition Unref (p : ptr) (e : t) : option t :=
  '(id, f) ← deref p e;
  r ← FileState.Unref f;
  Some (set_heap (match r with Some f => <[id := f]> (heap e) | None => delete id (heap e) end) e).

(** [new FileState()]. *)
Definition NewFileState (e : t) : nat * t :=
  (next e, {| file_map_ := file_map_ e; heap := <[next e := FileState.New]> (heap e); next := S (next e) |}).

(** [file_map_[fname]]: a new element is [nullptr]. *)
Definition index (fname : bytes) (e : t) : ptr * t :=
  match file_map_ e !! fname with
  | Some p => (p, e)
  | None => (None, set_map (<[fname := None]> (file_map_ e)) e)
  end.

Record SequentialFileImpl := { sf_file : ptr; sf_pos : Z }.

Definition NewSequentialFile (fname : bytes) (e : t) : option (option SequentialFileImpl * t) :=
  match file_map_ e !! fname with
  | None => Some (None, e)
  | Some p => e ← Ref p e; Some (Some {| sf_file := p; sf_pos := 0 |}, e)
  end.

Definition SequentialRead (s : SequentialFileImpl) (n : Z) (e : t) : option (option bytes * SequentialFileImpl) :=
  '(_, f) ← deref (sf_file s) e;
  r ← FileState.Read (sf_pos s) n f;
  Some (match r with
        | Some x => (Some x, {| sf_file := sf_file s; sf_pos := sf_pos s + len x |})
        | None => (None, s)
        end).

Definition SequentialSkip (s : SequentialFileImpl) (n : Z) (e : t) : option (bool * SequentialFileImpl) :=
  '(_, f) ← deref (sf_file s) e;
  if sf_pos s >? FileState.size_ f then Some (false, s)
  else
    let available := FileState.size_ f - sf_pos s in
    Some (true, {| sf_file := sf_file s; sf_pos := sf_pos s + Z.min n available |}).

(** A random access or writable file holds the pointer. *)
Definition NewRandomAccessFile (fname : bytes) (e : t) : option (option ptr * t) :=
  match file_map_ e !! fname with
  | None => Some (None, e)
  | Some p => e ← Ref p e; Some (Some p, e)
  end.

Definition RandomRead (p : ptr) (offset n : Z) (e : t) : option (option bytes) :=
  '(_, f) ← deref p e; FileState.Read offset n f.

Definition NewWritableFile (fname : bytes) (e : t) : option (ptr * t) :=
  match file_map_ e !! fname with
  | None =>
      let '(id, e) := NewFileState e in
      e ← Ref (Some id) e;
      let e := set_map (<[fname := Some id]> (file_map_ e)) e in
      e ← Ref (Some id) e;
      Some (Some id, e)
  | Some p =>
      '(id, f) ← deref p e;
      let e := set_heap (<[id := FileState.Truncate f]> (heap e)) e in
      e ← Ref p e;
      Some (p, e)
  end.

Definition NewAppendableFile (fname : bytes) (e : t) : option (ptr * t) :=
  let '(file, e) := index fname e in
  '(file, e) ← match file with
               | None => let '(id, e) := NewFileState e in e ← Ref (Some id) e; Some (Some id, e)
               | Some _ => Some (file, e)
               end;
  e ← Ref file e;
  Some (file, e).

Definition WritableAppend (fresh : bytes) (p : ptr) (data : bytes) (e : t) : option t :=
  '(id, f) ← deref p e;
  f ← FileState.Append fresh data f;
  Some (set_heap (<[id := f]> (heap e)) e).

Definition FileExists (fname : bytes) (e : t) : bool :=
  match file_map_ e !! fname with Some _ => true | None => false end.

(** The names in the order of [std::map]. *)
Definition name_le (a b : bytes) : Prop := Slice.compare a b ≤ 0.
#[export] Instance name_le_dec : RelDecision name_le.
Proof. unfold name_le. intros a b. apply _. Defined.

Definition names (e : t) : list bytes := merge_sort name_le (map_to_list (file_map_ e)).*1.

Definition child_of (dir filename : bytes) : option bytes :=
  if (len filename >=? len dir + 1) && (at_ filename (len dir) =? 47) && Slice.starts_with filename dir
  then Some (skip (len dir + 1) filename) else None.

Definition GetChildren (dir : bytes) (e : t) : list bytes := omap (child_of dir) (names e).

Definition DeleteFileInternal (fname : bytes) (e : t) : option t :=
  match file_map_ e !! fname with
  | None => Some e
  | Some p => e ← Unref p e; Some (set_map (delete fname (file_map_ e)) e)
  end.

Definition DeleteFile (fname : bytes) (e : t) : option (bool * t) :=
  match file_map_ e !! fname with
  | None => Some (false, e)
  | Some _ => e ← DeleteFileInternal fname e; Some (true, e)
  end.

Definition GetFileSize (fname : bytes) (e : t) : option (option Z) :=
  match file_map_ e !! fname with
  | None => Some None
  | Some p => '(_, f) ← deref p e; Some (Some (FileState.size_ f))
  end.

Definition RenameFile (src target : bytes) (e : t) : option (bool * t) :=
  match file_map_ e !! src with
  | None => Some (false, e)
  | Some _ =>
      e ← DeleteFileInternal target e;
      let '(p, e) := index src e in
      let e := set_map (<[target := p]> (file_map_ e)) e in
      Some (true, set_map (delete src (file_map_ e)) e)
  end.

End InMemoryEnv.

(** The in-memory environment as an environment: [fresh] is the contents of
    newly allocated blocks. Where the code has undefined behaviour the call
    fails; the laws below show that a database never gets there. *)
Definition mem_env (fresh : bytes) : Env InMemoryEnv.t InMemoryEnv.ptr InMemoryEnv.SequentialFileImpl := {|
  NewWritableFile f e := match InMemoryEnv.NewWritableFile f e with Some (w, e) => (Some w, e) | None => (None, e) end;
  WAppend w data e := match InMemoryEnv.WritableAppend fresh w data e with Some e => (true, e) | None => (false, e) end;
  WFlush _ e := (true, e);
  WSync _ e := (true, e);
  WClose _ e := (true, e);
  DeleteW w e := default e (InMemoryEnv.Unref w e);
  NewSequentialFile f e := default (None, e) (InMemoryEnv.NewSequentialFile f e);
  SRead s n e := match InMemoryEnv.SequentialRead s n e with Some (r, s) => (r, s, e) | None => (None, s, e) end;
  DeleteS s e := default e (InMemoryEnv.Unref (InMemoryEnv.sf_file s) e);
  DeleteFile f e := default (false, e) (InMemoryEnv.DeleteFile f e);
  RenameFile s t e := default (false, e) (InMemoryEnv.RenameFile s t e);
  GetChildren d e := (true, InMemoryEnv.GetChildren d e) |}.

(** ** Lemmas: a file in blocks *)

Section file_state.
Import FileState.

(** The file holds [c]. *)
Definition file_ok (f : t) (c : bytes) : Prop :=
  size_ f = len c ∧ Forall (λ b, len b = kBlockSize) (blocks_ f) ∧
  ∃ slack, mjoin (blocks_ f) = c ++ slack ∧ len slack < kBlockSize.

Lemma len_join (bs : list bytes) : Forall (λ b, len b = kBlockSize) bs → len (mjoin bs) = kBlockSize * len bs.
Proof.
  induction 1 as [|b bs Hb H IH]; [done|]. change (mjoin (b :: bs)) with (b ++ mjoin bs). rewrite len_app, len_cons. unfold kBlockSize in *. lia.
Qed.

Lemma drop_join (bs : list bytes) k :
  Forall (λ b, len b = kBlockSize) bs → drop (Z.to_nat (kBlockSize * Z.of_nat k)) (mjoin bs) = mjoin (drop k bs).
Proof.
  intros H. revert k. induction H as [|b bs Hb H IH]; intros [|k]; try done; [by destruct (Z.to_nat _)|].
  change (mjoin (b :: bs)) with (b ++ mjoin bs). cbn [drop]. rewrite <- IH. unfold kBlockSize, len in *. rewrite drop_app_ge by lia. f_equal. lia.
Qed.

(** A piece that goes over the end of a block. *)
Lemma slice_split (b rest : bytes) off n :
  0 ≤ off ≤ len b → 0 ≤ n → slice (b ++ rest) off n = slice b off (Z.min (len b - off) n) ++ slice rest 0 (n - Z.min (len b - off) n).
Proof.
  intros Ho Hn. unfold slice, len in *. rewrite drop_app_le, take_app by lia. cbn [Z.to_nat drop]. rewrite length_drop. f_equal; [|f_equal; lia].
  destruct (Z.min_spec (Z.of_nat (length b) - off) n) as [[? ->]|[? ->]]; [|done].
  rewrite !take_ge by (rewrite length_drop; lia). done.
Qed.

Lemma Read_loop_ok fuel bs (block : nat) off n dst :
  Forall (λ b, len b = kBlockSize) bs → 0 ≤ off < kBlockSize → 0 ≤ n ≤ Z.of_nat fuel → off + n ≤ len (mjoin (drop block bs)) →
  Read_loop fuel bs (Z.of_nat block) off n dst = Some (dst ++ slice (mjoin (drop block bs)) off n).
Proof.
  intros Hbs. assert (∀ s o, dst ++ slice s o 0 = dst) as Hz by (intros; unfold slice; apply app_nil_r).
  revert block off n dst Hz. induction fuel as [|fuel IH]; intros block off n dst Hz Ho Hn Hle; cbn [Read_loop].
  { rewrite (proj2 (Z.ltb_ge _ _)) by lia. assert (n = 0) as -> by lia. by rewrite Hz. }
  case_if; [|assert (n = 0) as -> by lia; by rewrite Hz]. rewrite Nat2Z.id.
  destruct (bs !! block) as [b|] eqn:Hb; cbn [mbind option_bind].
  2:{ apply lookup_ge_None in Hb. rewrite drop_ge in Hle by done. change (len (mjoin [])) with 0 in Hle. lia. }
  pose proof Hb as Hlb%(Forall_lookup_1 _ _ _ _ Hbs). rewrite (drop_S _ _ _ Hb) in Hle |- *.
  change (mjoin (b :: drop (S block) bs)) with (b ++ mjoin (drop (S block) bs)) in *. rewrite len_app, Hlb in Hle. rewrite <- Hlb in Ho, Hle |- *.
  rewrite (slice_split b) by lia. replace (Z.of_nat block + 1) with (Z.of_nat (S block)) by lia. rewrite IH.
  - by rewrite app_assoc.
  - intros. unfold slice. apply app_nil_r.
  - done.
  - lia.
  - pose proof (len_nonneg (mjoin (drop (S block) bs))). lia.
Qed.

Lemma Read_ok f c off n :
  file_ok f c → 0 ≤ off → 0 ≤ n → Read off n f = Some (if off >? len c then None else Some (slice c off n)).
Proof.
  intros (Hs & Hbs & slack & Hj & Hsl) Ho Hn. unfold Read. rewrite Hs. destruct (off >? len c) eqn:E; [done|].
  rewrite Z.gtb_ltb in E. apply Z.ltb_ge in E. pose proof (len_nonneg slack). pose proof (len_nonneg c).
  destruct (Z.eqb_spec (Z.min n (len c - off)) 0) as [Hz|Hnz].
  { do 2 f_equal. unfold slice, len in *. destruct (Z.min_spec n (Z.of_nat (length c) - off)) as [[? ?]|[? ?]].
    - assert (n = 0) as -> by lia. done.
    - rewrite drop_ge by lia. by destruct (Z.to_nat n). }
  pose proof (Z.div_mod off kBlockSize ltac:(done)) as Hdm. pose proof (Z.mod_pos_bound off kBlockSize ltac:(done)) as Hm.
  assert (0 ≤ off / kBlockSize) as Hd by (apply Z.div_pos; [lia|done]).
  rewrite <- (Z2Nat.id (off / kBlockSize)) by done.
  assert (mjoin (drop (Z.to_nat (off / kBlockSize)) (blocks_ f)) = skip (kBlockSize * (off / kBlockSize)) (c ++ slack)) as Hsk.
  { rewrite <- drop_join, Hj by done. by rewrite Z2Nat.id. }
  rewrite Read_loop_ok; [|done|done|lia|].
  - cbn [mbind option_bind app]. do 2 f_equal. rewrite Hsk. unfold slice, skip. rewrite drop_drop, <- Z2Nat.inj_add by (unfold kBlockSize in *; lia).
    rewrite <- Hdm. unfold len in *. rewrite drop_app_le, take_app_le by (rewrite ?length_drop; lia).
    destruct (Z.min_spec n (Z.of_nat (length c) - off)) as [[? ->]|[? ->]]; [done|]. rewrite !take_ge by (rewrite length_drop; lia). done.
  - rewrite Hsk, len_skip, len_app; [|unfold kBlockSize in *; rewrite len_app; lia]. lia.
Qed.

(** [memcpy] behind the contents. *)
Lemma write_last_ok (bs : list bytes) (c slack data : bytes) off :
  Forall (λ b, len b = kBlockSize) bs → mjoin bs = c ++ slack → 0 ≤ off → len slack = kBlockSize - off → 0 < len data ≤ len slack →
  ∃ bs', write_last off data bs = Some bs' ∧ Forall (λ b, len b = kBlockSize) bs' ∧ mjoin bs' = (c ++ data) ++ skip (len data) slack.
Proof.
  intros Hbs Hj Ho Hs Hd. destruct bs as [|b bs _] using rev_ind.
  { apply (f_equal len) in Hj. rewrite len_app in Hj. pose proof (len_nonneg c). change (len (mjoin [])) with 0 in Hj. lia. }
  apply Forall_app in Hbs as [Hbs Hb]. rewrite Forall_singleton in Hb. rewrite join_app in Hj. change (mjoin [b]) with (b ++ []) in Hj. rewrite app_nil_r in Hj.
  unfold write_last. rewrite last_snoc, removelast_last. cbn [mbind option_bind]. eexists. split; [done|].
  assert (∃ x, b = x ++ slack ∧ c = mjoin bs ++ x ∧ len x = off) as (x & -> & -> & Hx).
  { apply (f_equal (λ l, (take (length c) l, drop (length c) l))) in Hj. rewrite take_app_length, drop_app_length in Hj. injection Hj as Hj1 Hj2.
    assert (length (mjoin bs) ≤ length c)%nat as Hle.
    { apply (f_equal length) in Hj2. rewrite length_drop, length_app in Hj2. unfold len, kBlockSize in *. lia. }
    rewrite take_app_ge in Hj1 by done. rewrite drop_app_ge in Hj2 by done. exists (take (length c - length (mjoin bs)) b).
    split_and!; [by rewrite <- Hj2, take_drop|done|]. rewrite <- (take_drop (length c - length (mjoin bs)) b), len_app, Hj2 in Hb. lia. }
  rewrite first_app by done. assert (skip (off + len data) (x ++ slack) = skip (len data) slack) as ->.
  { unfold skip, len in *. rewrite drop_app_ge by lia. f_equal. lia. }
  split.
  - apply Forall_app_2; [done|]. apply Forall_singleton. rewrite !len_app, len_skip by lia. lia.
  - rewrite join_app. change (mjoin [?y]) with (y ++ []). rewrite app_nil_r, <- !app_assoc. done.
Qed.

Lemma Append_loop_ok fuel fresh src f c :
  len fresh = kBlockSize → file_ok f c → (length src ≤ fuel)%nat →
  ∃ f', Append_loop fuel fresh src f = Some f' ∧ file_ok f' (c ++ src) ∧ refs_ f' = refs_ f.
Proof.
  intros Hfr. revert src f c. induction fuel as [|fuel IH]; intros src f c Hf Hl.
  { destruct src; [|cbn in Hl; lia]. exists f. by rewrite app_nil_r. }
  destruct src as [|ch src]; [exists f; by rewrite app_nil_r|]. cbn [Append_loop]. destruct Hf as (Hs & Hbs & slack & Hj & Hsl).
  set (s := ch :: src) in *. set (off := size_ f `mod` kBlockSize). pose proof (Z.mod_pos_bound (size_ f) kBlockSize ltac:(done)) as Hm. fold off in Hm.
  pose proof (len_join _ Hbs) as Hlen. rewrite Hj, len_app, <- Hs in Hlen. pose proof (len_nonneg slack) as Hs0.
  assert (∃ avail blocks slack', (if negb (off =? 0) then (kBlockSize - off, blocks_ f) else (kBlockSize, blocks_ f ++ [fresh])) = (avail, blocks) ∧
    Forall (λ b, len b = kBlockSize) blocks ∧ mjoin blocks = c ++ slack' ∧ len slack' = kBlockSize - off ∧ avail = kBlockSize - off) as (avail & blocks & slack' & -> & Hb' & Hj' & Hsl' & ->).
  { assert (len slack = (- size_ f) `mod` kBlockSize) as Hsm.
    { symmetry. replace (- size_ f) with (len slack + (- len (blocks_ f)) * kBlockSize) by lia. rewrite Z.mod_add by done. apply Z.mod_small. lia. }
    destruct (Z.eqb_spec off 0) as [E|E]; cbn [negb].
    - rewrite Z.mod_opp_l_z in Hsm by done. destruct slack; [|rewrite len_cons in Hsm; pose proof (len_nonneg slack); lia].
      exists kBlockSize, (blocks_ f ++ [fresh]), fresh. split_and!; [done|by apply Forall_app_2; [|apply Forall_singleton]| |lia|lia].
      rewrite join_app, Hj. change (mjoin [fresh]) with (fresh ++ []). by rewrite !app_nil_r.
    - rewrite Z.mod_opp_l_nz in Hsm by done. by exists (kBlockSize - off), (blocks_ f), slack. }
  assert (0 < len s) as Hpos by (unfold s; rewrite len_cons; pose proof (len_nonneg src); lia).
  set (avail := Z.min (kBlockSize - off) (len s)). assert (0 < avail ≤ len s) as Hav by (unfold avail; lia).
  assert (len (first avail s) = avail) as Hfl by (apply len_first; lia).
  destruct (write_last_ok blocks c slack' (first avail s) off Hb' Hj' ltac:(lia) Hsl') as (bs' & -> & Hb2 & Hj2); [unfold avail in *; lia|].
  cbn [mbind option_bind]. destruct (IH (skip avail s) {| refs_ := refs_ f; blocks_ := bs'; size_ := size_ f + avail |} (c ++ first avail s)) as (f' & -> & Hok & Hr).
  - split; [cbn; rewrite len_app; lia|]. split; [done|]. exists (skip (len (first avail s)) slack'). split; [done|]. rewrite len_skip by (unfold avail in *; lia). lia.
  - unfold skip, len, s in *. rewrite length_drop. cbn [length] in *. lia.
  - exists f'. split; [done|]. rewrite <- app_assoc, first_skip in Hok. done.
Qed.

End file_state.

(** ** Lemmas: the in-memory environment *)

Module MemProofs.
Import InMemoryEnv.

(** The contents of a file by its name. *)
Definition contents (f : FileState.t) : bytes := first (FileState.size_ f) (mjoin (FileState.blocks_ f)).
Definition mem_file (e : t) (fname : bytes) : option bytes := p ← file_map_ e !! fname; '(_, f) ← deref p e; Some (contents f).

(** Every name has a file object of its own, which is alive. *)
Record mem_ok (e : t) : Prop := {
  mo_files fname p : file_map_ e !! fname = Some p →
    ∃ id f c, p = Some id ∧ heap e !! id = Some f ∧ file_ok f c ∧ 1 ≤ FileState.refs_ f;
  mo_inj f g id : file_map_ e !! f = Some (Some id) → file_map_ e !! g = Some (Some id) → f = g;
  mo_next id : is_Some (heap e !! id) → (id < next e)%nat
}.

Lemma contents_ok f c : file_ok f c → contents f = c.
Proof. intros (Hs & _ & slack & Hj & _). unfold contents. rewrite Hj. by apply first_app. Qed.

Lemma mem_file_eq e fname id f c : file_map_ e !! fname = Some (Some id) → heap e !! id = Some f → file_ok f c → mem_file e fname = Some c.
Proof. intros Hm Hh Hf. unfold mem_file, deref. rewrite Hm. cbn. rewrite Hh. cbn. by rewrite (contents_ok f c). Qed.

Lemma mem_file_ext e e' fname :
  file_map_ e' !! fname = file_map_ e !! fname → (∀ id, file_map_ e !! fname = Some (Some id) → heap e' !! id = heap e !! id) →
  mem_file e' fname = mem_file e fname.
Proof.
  intros Hm Hh. unfold mem_file, deref. rewrite Hm. destruct (file_map_ e !! fname) as [[id|]|]; [|done..]. cbn. by rewrite Hh.
Qed.

(** The object of one name is changed. *)
Lemma file_update_ok e fname id f' c' :
  mem_ok e → file_map_ e !! fname = Some (Some id) → file_ok f' c' → 1 ≤ FileState.refs_ f' →
  let e' := set_heap (<[id := f']> (heap e)) e in
  mem_ok e' ∧ mem_file e' fname = Some c' ∧ ∀ g, g ≠ fname → mem_file e' g = mem_file e g.
Proof.
  intros He Hm Hf Hr e'. assert (∀ g, g ≠ fname → file_map_ e !! g ≠ Some (Some id)) as Hother by (intros g Hg Hm'; apply Hg; by apply (mo_inj e He g fname id)).
  split; [split|split].
  - intros g p Hg. destruct (decide (p = Some id)) as [->|Hne].
    + exists id, f', c'. cbn. by rewrite lookup_insert_eq.
    + destruct (mo_files e He g p Hg) as (id2 & f2 & c2 & -> & ? & ? & ?). exists id2, f2, c2. cbn. rewrite lookup_insert_ne by congruence. done.
  - apply (mo_inj e He).
  - cbn. intros id2. destruct (decide (id2 = id)) as [->|]; [|rewrite lookup_insert_ne by done; apply (mo_next e He)].
    intros _. destruct (mo_files e He fname _ Hm) as (id2 & f2 & c2 & [= <-] & Hh & _). by apply (mo_next e He).
  - apply (mem_file_eq _ _ id f'); [done| |done]. cbn. by rewrite lookup_insert_eq.
  - intros g Hg. apply mem_file_ext; [done|]. intros id2 Hg2. cbn. rewrite lookup_insert_ne; [done|]. intros ->. by apply (Hother g).
Qed.

Lemma file_ok_refs f c r : file_ok f c → file_ok {| FileState.refs_ := r; FileState.blocks_ := FileState.blocks_ f; FileState.size_ := FileState.size_ f |} c.
Proof. done. Qed.

Lemma mem_lookup e fname p :
  mem_ok e → file_map_ e !! fname = Some p → ∃ id f c, p = Some id ∧ heap e !! id = Some f ∧ file_ok f c ∧ 1 ≤ FileState.refs_ f ∧ mem_file e fname = Some c.
Proof.
  intros He Hm. destruct (mo_files e He fname p Hm) as (id & f & c & -> & Hh & Hf & Hr). exists id, f, c. split_and!; try done. by apply (mem_file_eq e fname id f).
Qed.

(** An open handle: one more reference than the name's. *)
Definition opened (e : t) (p : ptr) (fname : bytes) : Prop :=
  ∃ id f, p = Some id ∧ file_map_ e !! fname = Some (Some id) ∧ heap e !! id = Some f ∧ 2 ≤ FileState.refs_ f.

Lemma Ref_named e fname p :
  mem_ok e → file_map_ e !! fname = Some p → ∃ e', Ref p e = Some e' ∧ mem_ok e' ∧ opened e' p fname ∧ (∀ g, mem_file e' g = mem_file e g) ∧ file_map_ e' = file_map_ e.
Proof.
  intros He Hm. destruct (mem_lookup e fname p He Hm) as (id & f & c & -> & Hh & Hf & Hr & Hc). unfold Ref, deref. cbn [mbind option_bind]. rewrite Hh. cbn [mbind option_bind].
  eexists. split; [done|]. destruct (file_update_ok e fname id (FileState.Ref f) c He Hm) as (Ho & Hn & Hg); [by apply file_ok_refs|cbn; lia|].
  split; [done|]. split; [|split; [|done]].
  - exists id, (FileState.Ref f). split_and!; [done|done|by apply lookup_insert_eq|cbn; lia].
  - intros g. destruct (decide (g = fname)) as [->|]; [by rewrite Hn|by apply Hg].
Qed.

Lemma Unref_opened e fname p : mem_ok e → opened e p fname → ∃ e', Unref p e = Some e' ∧ mem_ok e' ∧ ∀ g, mem_file e' g = mem_file e g.
Proof.
  intros He (id & f & -> & Hm & Hh & Hr). destruct (mem_lookup e fname _ He Hm) as (id2 & f2 & c & [= <-] & Hh2 & Hf & _ & Hc). simplify_eq.
  unfold Unref, deref. cbn [mbind option_bind]. rewrite Hh. cbn [mbind option_bind]. unfold FileState.Unref.
  rewrite (proj2 (Z.ltb_ge _ _)), (proj2 (Z.leb_gt _ _)) by lia. cbn [mbind option_bind]. eexists. split; [done|].
  destruct (file_update_ok e fname id _ c He Hm (file_ok_refs f c (FileState.refs_ f - 1) Hf)) as (Ho & Hn & Hg); [cbn; lia|]. split; [done|].
  intros g. destruct (decide (g = fname)) as [->|]; [by rewrite Hn|by apply Hg].
Qed.

(** Dropping a name, and the object with it when nobody else holds it. *)
Lemma DeleteFileInternal_ok e fname :
  mem_ok e → ∃ e', DeleteFileInternal fname e = Some e' ∧ mem_ok e' ∧ file_map_ e' = delete fname (file_map_ e) ∧
    mem_file e' fname = None ∧ ∀ g, g ≠ fname → mem_file e' g = mem_file e g.
Proof.
  intros He. unfold DeleteFileInternal. destruct (file_map_ e !! fname) as [p|] eqn:Hm.
  2:{ exists e. split_and!; try done; [by rewrite delete_id|]. unfold mem_file. by rewrite Hm. }
  destruct (mem_lookup e fname p He Hm) as (id & f & c & -> & Hh & Hf & Hr & _). unfold Unref, deref. cbn [mbind option_bind]. rewrite Hh. cbn [mbind option_bind].
  unfold FileState.Unref. rewrite (proj2 (Z.ltb_ge _ _)) by lia. cbn [mbind option_bind]. eexists. split; [done|].
  match goal with |- context [set_heap ?x e] => set (h := x) end.
  assert (∀ id2, id2 ≠ id → h !! id2 = heap e !! id2) as Hother.
  { intros id2 Hne. unfold h. case_if; [by rewrite lookup_delete_ne|by rewrite lookup_insert_ne]. }
  assert (∀ id2, is_Some (h !! id2) → is_Some (heap e !! id2)) as Hsub.
  { intros id2. destruct (decide (id2 = id)) as [->|]; [by rewrite Hh|by rewrite Hother]. }
  split; [split|split; [done|split]].
  - cbn. intros g p [Hne Hg]%lookup_delete_Some. destruct (mo_files e He g p Hg) as (id2 & f2 & c2 & -> & ? & ? & ?). exists id2, f2, c2.
    rewrite Hother; [done|]. intros ->. apply Hne. by apply (mo_inj e He fname g id).
  - cbn. intros g1 g2 id2 [_ H1]%lookup_delete_Some [_ H2]%lookup_delete_Some. by apply (mo_inj e He g1 g2 id2).
  - cbn. intros id2 Hi%Hsub. by apply (mo_next e He).
  - unfold mem_file. cbn. by rewrite lookup_delete_eq.
  - intros g Hg. apply mem_file_ext; cbn; [by rewrite lookup_delete_ne|]. intros id2 Hg2. apply Hother. intros ->. apply Hg. by apply (mo_inj e He g fname id).
Qed.

Lemma New_file_ok r : file_ok {| FileState.refs_ := r; FileState.blocks_ := []; FileState.size_ := 0 |} [].
Proof. split; [done|]. split; [constructor|]. by exists []. Qed.

Lemma NewWritableFile_ok e fname :
  mem_ok e → ∃ p e', NewWritableFile fname e = Some (p, e') ∧ mem_ok e' ∧ opened e' p fname ∧ mem_file e' fname = Some [] ∧
    ∀ g, g ≠ fname → mem_file e' g = mem_file e g.
Proof.
  intros He. unfold NewWritableFile. destruct (file_map_ e !! fname) as [p|] eqn:Hm.
  - destruct (mem_lookup e fname p He Hm) as (id & f & c & -> & Hh & Hf & Hr & _). unfold deref at 1. cbn [mbind option_bind]. rewrite Hh. cbn [mbind option_bind].
    destruct (file_update_ok e fname id (FileState.Truncate f) [] He Hm (New_file_ok _)) as (Ho & Hn & Hg); [done|].
    destruct (Ref_named _ fname (Some id) Ho Hm) as (e' & -> & Ho' & Hop & Hg' & _). cbn [mbind option_bind]. exists (Some id), e'. split_and!; try done; [by rewrite Hg'|].
    intros g Hne. rewrite Hg'. by apply Hg.
  - unfold NewFileState. set (id := next e). assert (heap e !! id = None) as Hid.
    { apply eq_None_not_Some. intros Hs%(mo_next e He). unfold id in Hs. lia. }
    assert (Ref (Some id) {| file_map_ := file_map_ e; heap := <[id := FileState.New]> (heap e); next := S id |} =
      Some {| file_map_ := file_map_ e; heap := <[id := FileState.Ref FileState.New]> (heap e); next := S id |}) as ->.
    { unfold Ref, deref. cbn [mbind option_bind heap]. rewrite lookup_insert_eq. cbn [mbind option_bind set_heap file_map_ heap next]. by rewrite insert_insert_eq. }
    cbn [mbind option_bind]. set (e1 := set_map _ _). assert (mem_ok e1 ∧ mem_file e1 fname = Some [] ∧ ∀ g, g ≠ fname → mem_file e1 g = mem_file e g) as (Ho & Hn & Hg).
    { split; [split|split].
      - cbn. intros g p. destruct (decide (g = fname)) as [->|Hne].
        + rewrite lookup_insert_eq. intros [= <-]. exists id, (FileState.Ref FileState.New), []. rewrite lookup_insert_eq. split_and!; [done|done|apply New_file_ok|cbn; lia].
        + rewrite lookup_insert_ne by done. intros Hg. destruct (mo_files e He g p Hg) as (id2 & f2 & c2 & -> & Hh2 & ? & ?). exists id2, f2, c2.
          rewrite lookup_insert_ne; [done|]. intros ->. congruence.
      - cbn. intros g1 g2 id2. rewrite !lookup_insert_Some. intros [[<- [= <-]]|[Hne1 H1]] [[<- E]|[Hne2 H2]]; try done.
        + destruct (mo_files e He _ _ H2) as (? & ? & ? & [= <-] & Hh2 & _). congruence.
        + injection E as <-. destruct (mo_files e He _ _ H1) as (? & ? & ? & [= <-] & Hh2 & _). congruence.
        + by apply (mo_inj e He g1 g2 id2).
      - cbn. intros id2. rewrite lookup_insert_is_Some. intros [<-|[_ Hs%(mo_next e He)]]; unfold id; lia.
      - apply (mem_file_eq _ _ id (FileState.Ref FileState.New)); [cbn; apply lookup_insert_eq..|apply New_file_ok].
      - intros g Hne. apply mem_file_ext; cbn; [by rewrite lookup_insert_ne|]. intros id2 Hg2. rewrite lookup_insert_ne; [done|]. intros <-.
        destruct (mo_files e He _ _ Hg2) as (? & ? & ? & [= <-] & Hh2 & _). congruence. }
    destruct (Ref_named e1 fname (Some id) Ho) as (e' & -> & Ho' & Hop & Hg' & _); [cbn; apply lookup_insert_eq|]. cbn [mbind option_bind].
    exists (Some id), e'. split_and!; try done; [by rewrite Hg'|]. intros g Hne. rewrite Hg'. by apply Hg.
Qed.

Lemma WritableAppend_ok fresh e fname p data :
  len fresh = FileState.kBlockSize → mem_ok e → opened e p fname →
  ∃ e' c, WritableAppend fresh p data e = Some e' ∧ mem_ok e' ∧ opened e' p fname ∧ mem_file e fname = Some c ∧ mem_file e' fname = Some (c ++ data) ∧
    ∀ g, g ≠ fname → mem_file e' g = mem_file e g.
Proof.
  intros Hfr He (id & f & -> & Hm & Hh & Hr). destruct (mem_lookup e fname _ He Hm) as (id2 & f2 & c & [= <-] & Hh2 & Hf & _ & Hc). simplify_eq.
  unfold WritableAppend, deref. cbn [mbind option_bind]. rewrite Hh. cbn [mbind option_bind].
  destruct (Append_loop_ok (length data) fresh data f c Hfr Hf ltac:(done)) as (f' & E & Hf' & Hr'). unfold FileState.Append. rewrite E. cbn [mbind option_bind].
  destruct (file_update_ok e fname id f' (c ++ data) He Hm Hf') as (Ho & Hn & Hg); [lia|]. eexists _, c. split; [done|]. split_and!; try done.
  exists id, f'. split_and!; [done|done|apply lookup_insert_eq|lia].
Qed.

Lemma RenameFile_ok e src target :
  mem_ok e → src ≠ target → is_Some (file_map_ e !! src) →
  ∃ e', RenameFile src target e = Some (true, e') ∧ mem_ok e' ∧ mem_file e' target = mem_file e src ∧ mem_file e' src = None ∧
    ∀ g, g ≠ src → g ≠ target → mem_file e' g = mem_file e g.
Proof.
  intros He Hne [p Hp]. unfold RenameFile. rewrite Hp. destruct (DeleteFileInternal_ok e target He) as (e1 & -> & He1 & Hm1 & Ht & Hg). cbn [mbind option_bind].
  assert (file_map_ e1 !! src = Some p) as Hp1 by (by rewrite Hm1, lookup_delete_ne). unfold index. rewrite Hp1. eexists. split; [done|]. rewrite <- (Hg src Hne).
  assert (∀ g q, delete src (<[target := p]> (file_map_ e1)) !! g = Some q → ∃ h, file_map_ e1 !! h = Some q ∧ ((g = target ∧ h = src) ∨ (g ≠ target ∧ h = g ∧ g ≠ src))) as Hnew.
  { intros g q [Hs [[<- <-]|[Ht' Hq]]%lookup_insert_Some]%lookup_delete_Some; [exists src; auto|exists g; auto]. }
  split; [split|split; [|split]].
  - cbn. intros g q (h & Hh & _)%Hnew. by apply (mo_files e1 He1 h).
  - cbn. intros g1 g2 id (h1 & H1 & C1)%Hnew (h2 & H2 & C2)%Hnew. pose proof (mo_inj e1 He1 h1 h2 id H1 H2) as ->. destruct C1 as [[-> ->]|(? & -> & ?)], C2 as [[-> ?]|(? & ? & ?)]; congruence.
  - apply (mo_next e1 He1).
  - unfold mem_file. cbn. rewrite lookup_delete_ne, lookup_insert_eq by done. by rewrite Hp1.
  - unfold mem_file. cbn. by rewrite lookup_delete_eq.
  - intros g Hgs Hgt. rewrite <- Hg by done. apply mem_file_ext; [|done]. cbn. by rewrite lookup_delete_ne, lookup_insert_ne.
Qed.

Lemma child_of_ok dir base : child_of dir (dir ++ [47] ++ base) = Some base.
Proof.
  unfold child_of. rewrite starts_with_app, app_assoc, skip_app by (by rewrite len_app). rewrite len_app, len_app. pose proof (len_nonneg base).
  rewrite (proj2 (Z.geb_le _ _)) by (change (len [47]) with 1; lia). rewrite <- app_assoc, at_app_r by lia. by rewrite Z.sub_diag.
Qed.

End MemProofs.

Section instance.
Import MemProofs.
Context (fresh : bytes) (Hfresh : len fresh = FileState.kBlockSize).

Definition mem_writes (e : InMemoryEnv.t) (w : option nat) (f : bytes) : Prop := opened e w f.
Definition mem_reads (e : InMemoryEnv.t) (s : InMemoryEnv.SequentialFileImpl) (f rest : bytes) : Prop :=
  opened e (InMemoryEnv.sf_file s) f ∧ 0 ≤ InMemoryEnv.sf_pos s ∧
  ∃ c, mem_file e f = Some c ∧ InMemoryEnv.sf_pos s ≤ len c ∧ rest = skip (InMemoryEnv.sf_pos s) c.

Lemma SequentialRead_ok e s f rest n :
  mem_ok e → mem_reads e s f rest → 0 < n →
  ∃ x s' rest', InMemoryEnv.SequentialRead s n e = Some (Some x, s') ∧ rest = x ++ rest' ∧ mem_reads e s' f rest' ∧ (x = [] → rest = []).
Proof.
  intros He (Hop & Hp0 & c & Hc & Hp & ->) Hn. pose proof Hop as (id & st & Hs & Hm & Hh & Hr).
  destruct (mem_lookup e f _ He Hm) as (id2 & f2 & c2 & [= <-] & Hh2 & Hf & _ & Hc2). assert (c2 = c) as -> by congruence. assert (f2 = st) as -> by congruence.
  unfold InMemoryEnv.SequentialRead, InMemoryEnv.deref. rewrite Hs. cbn [mbind option_bind]. rewrite Hh. cbn [mbind option_bind].
  rewrite (Read_ok st c) by (done || lia). assert ((InMemoryEnv.sf_pos s >? len c) = false) as -> by (rewrite Z.gtb_ltb; apply Z.ltb_ge; lia).
  cbn [mbind option_bind]. change (slice c (InMemoryEnv.sf_pos s) n) with (first n (skip (InMemoryEnv.sf_pos s) c)).
  set (rest := skip (InMemoryEnv.sf_pos s) c). exists (first n rest), {| InMemoryEnv.sf_file := Some id; InMemoryEnv.sf_pos := InMemoryEnv.sf_pos s + len (first n rest) |}, (skip n rest).
  split; [done|]. split; [by rewrite first_skip|]. assert (len rest = len c - InMemoryEnv.sf_pos s) as Hl by (apply len_skip; lia).
  split; [split; [by rewrite <- Hs|]|].
  - cbn. pose proof (len_nonneg (first n rest)). split; [lia|]. exists c. split; [done|]. destruct (Z.le_gt_cases n (len rest)) as [Hle|Hgt].
    + rewrite (len_first n rest) by lia. split; [lia|]. unfold rest. by rewrite skip_skip by lia.
    + assert (first n rest = rest) as -> by (unfold first, len in *; apply take_ge; lia). split; [lia|]. unfold skip, len in *. rewrite !drop_ge by lia. done.
  - intros E. destruct rest as [|b rest]; [done|]. unfold first in E. assert (∃ k, Z.to_nat n = S k) as [k Hk] by (exists (Nat.pred (Z.to_nat n)); lia). by rewrite Hk in E.
Qed.

Lemma opened_same e e' p f : InMemoryEnv.file_map_ e' = InMemoryEnv.file_map_ e → InMemoryEnv.heap e' = InMemoryEnv.heap e → opened e p f → opened e' p f.
Proof. intros Hm Hh. unfold opened. by rewrite Hm, Hh. Qed.

Definition mem_env_laws : EnvLaws InMemoryEnv.t (option nat) InMemoryEnv.SequentialFileImpl (mem_env fresh).
Proof.
  apply (Build_EnvLaws _ _ _ (mem_env fresh) mem_ok mem_file mem_writes mem_reads); cbn.
  - intros f e r e' He. destruct (NewWritableFile_ok e f He) as (p & e1 & -> & Ho & Hop & Hf & Hg). intros [= <- <-]. split_and!; [done..|]. by intros w [= <-].
  - intros w f data e b e' He Hw. destruct (WritableAppend_ok fresh e f w data Hfresh He Hw) as (e1 & c & -> & Ho & Hop & Hc & Hc' & Hg).
    intros [= <- <-]. split_and!; [done..|]. intros _ c0 Hc0. rewrite Hc'. congruence.
  - by intros w f e b e' He Hw [= _ <-].
  - by intros w f e b e' He Hw [= _ <-].
  - by intros w f e b e' He Hw [= _ <-].
  - intros w f e He Hw. destruct (Unref_opened e f w He Hw) as (e1 & -> & Ho & Hg). by split.
  - intros f e r e' He. unfold InMemoryEnv.NewSequentialFile. destruct (InMemoryEnv.file_map_ e !! f) as [p|] eqn:Hm; cbn.
    + destruct (Ref_named e f p He Hm) as (e1 & -> & Ho & Hop & Hg & _). cbn. intros [= <- <-]. split_and!; [done..|]. intros s [= <-].
      destruct (mem_lookup e f p He Hm) as (id & st & c & -> & _ & _ & _ & Hc). exists c. split; [done|]. split; [done|]. split; [cbn; lia|].
      exists c. rewrite Hg. cbn. split_and!; [done|apply len_nonneg|done].
    + by intros [= <- <-].
  - intros s f rest n e r s' e' He Hr Hn. destruct (SequentialRead_ok e s f rest n He Hr ltac:(lia)) as (x & s1 & rest' & -> & Hx & Hr' & Hnil).
    intros [= <- <- <-]. split; [done|]. split; [done|]. split; [by exists rest'|]. intros x0 [= <-]. by exists rest'.
  - intros s f rest e He (Hop & _). destruct (Unref_opened e f _ He Hop) as (e1 & -> & Ho & Hg). by split.
  - intros f e b e' He. unfold InMemoryEnv.DeleteFile. destruct (InMemoryEnv.file_map_ e !! f) as [p|] eqn:Hm; cbn.
    + destruct (DeleteFileInternal_ok e f He) as (e1 & -> & Ho & _ & Hn & Hg). cbn. by intros [= <- <-].
    + by intros [= <- <-].
  - intros s t e b e' He Hne. destruct (InMemoryEnv.file_map_ e !! s) as [p|] eqn:Hm; cbn.
    + destruct (RenameFile_ok e s t He Hne ltac:(by eexists)) as (e1 & -> & Ho & Ht & Hs & Hg). cbn. intros [= <- <-]. split; [done|]. split; [done|]. split; [|done].
      intros _. split; [done|]. split; [|done]. destruct (mem_lookup e s p He Hm) as (? & ? & c & ? & ? & ? & ? & ->). by eexists.
    + unfold InMemoryEnv.RenameFile. rewrite Hm. cbn. by intros [= <- <-].
  - intros d e l base He [= <-] Hb [c Hc]. unfold InMemoryEnv.GetChildren. apply list_elem_of_omap. exists (d ++ 47 :: base). split; [|apply child_of_ok].
    unfold InMemoryEnv.names. rewrite merge_sort_Permutation. apply list_elem_of_fmap. unfold mem_file in Hc.
    destruct (InMemoryEnv.file_map_ e !! (d ++ 47 :: base)) as [p|] eqn:Hm; [|discriminate Hc]. exists (d ++ 47 :: base, p). split; [done|].
    by apply elem_of_map_to_list.
Defined.

End instance.

(** ** Lemmas: files over any environment *)

Section env_lemmas.

Context {E W R : Type} {EN : Env E W R} {EL : EnvLaws E W R EN}.

(** Whether the write succeeds or fails, no other file changes. *)
Lemma DoWriteStringToFile_ok data fname sync e s e' :
  env_ok e → DoWriteStringToFile data fname sync e = (s, e') →
  env_ok e' ∧ (∀ g, g ≠ fname → file_of e' g = file_of e g) ∧ (s = true → file_of e' fname = Some data).
Proof.
  intros He. unfold DoWriteStringToFile. destruct (NewWritableFile fname e) as [[file|] e1] eqn:E1;
    pose proof (NewWritableFile_law _ _ _ _ He E1) as (He1 & Hg1 & Hn); [|by intros [= <- <-]]. destruct (Hn file eq_refl) as [Hw1 Hc1].
  destruct (WAppend file data e1) as [s2 e2] eqn:E2. destruct (WAppend_law _ _ _ _ _ _ He1 Hw1 E2) as (He2 & Hw2 & Hg2 & Hc2).
  destruct (if s2 && sync then WSync file e2 else (s2, e2)) as [s3 e3] eqn:E3.
  assert (env_ok e3 ∧ writes e3 file fname ∧ (∀ g, file_of e3 g = file_of e2 g) ∧ (s3 = true → s2 = true)) as (He3 & Hw3 & Hg3 & Hs3).
  { destruct s2, sync; cbn in E3; try (by injection E3 as <- <-). destruct (WSync_law _ _ _ _ _ He2 Hw2 E3) as (? & ? & ?). by split_and!. }
  destruct (if s3 then WClose file e3 else (s3, e3)) as [s4 e4] eqn:E4.
  assert (env_ok e4 ∧ writes e4 file fname ∧ (∀ g, file_of e4 g = file_of e3 g) ∧ (s4 = true → s3 = true)) as (He4 & Hw4 & Hg4 & Hs4).
  { destruct s3; [|by injection E4 as <- <-]. destruct (WClose_law _ _ _ _ _ He3 Hw3 E4) as (? & ? & ?). by split_and!. }
  destruct (DeleteW_law file fname e4 He4 Hw4) as [He5 Hg5].
  assert (∀ g, g ≠ fname → file_of (DeleteW file e4) g = file_of e g) as Hsame by (intros g Hg; rewrite Hg5, Hg4, Hg3, Hg2, Hg1; done).
  destruct s4; cbn [negb].
  - intros [= <- <-]. split_and!; [done..|]. intros _. rewrite Hg5, Hg4, Hg3. by apply (Hc2 (Hs3 (Hs4 eq_refl)) []).
  - destruct (DeleteFile fname (DeleteW file e4)) as [b e6] eqn:E6. destruct (DeleteFile_law _ _ _ _ He5 E6) as (He6 & Hg6 & _).
    intros [= <- <-]. split_and!; [done| |done]. intros g Hg. cbn. rewrite Hg6 by done. by apply Hsame.
Qed.

Lemma Read_turns_ok fuel file f rest data e :
  env_ok e → reads e file f rest → (length rest < fuel)%nat →
  ∃ s d file' e', Read_turns fuel file data e = Some (s, d, file', e') ∧ env_ok e' ∧ (∃ rest', reads e' file' f rest') ∧
    (∀ g, file_of e' g = file_of e g) ∧ (s = true → d = data ++ rest).
Proof.
  revert file rest data e. induction fuel as [|fuel IH]; intros file rest data e He Hr Hl; [lia|]. cbn [Read_turns].
  destruct (SRead file 8192 e) as [[r file1] e1] eqn:Er. destruct (SRead_law file f rest 8192 e r file1 e1 He Hr ltac:(lia) Er) as (He1 & Hg1 & Hany & Hx).
  destruct r as [x|]; [|by exists false, data, file1, e1]. destruct (Hx x eq_refl) as (rest' & -> & Hr' & Hnil).
  destruct (Z.eqb_spec (len x) 0) as [Ez|Hne].
  - destruct x; [|rewrite len_cons in Ez; pose proof (len_nonneg x); lia]. specialize (Hnil eq_refl). cbn in Hnil. subst rest'.
    exists true, (data ++ []), file1, e1. by split_and!.
  - destruct (IH file1 rest' (data ++ x) e1 He1 Hr') as (s & d & file2 & e2 & -> & He2 & Hany2 & Hg2 & Hd).
    { rewrite length_app in Hl. unfold len in Hne. lia. }
    exists s, d, file2, e2. split_and!; [done..| |]; [intros g; by rewrite Hg2, Hg1|]. intros Hs. by rewrite (Hd Hs), app_assoc.
Qed.

Lemma ReadFileToString_ok fuel f c e :
  env_ok e → file_of e f = Some c → (length c < fuel)%nat →
  ∃ s d e', ReadFileToString fuel f e = Some (s, d, e') ∧ env_ok e' ∧ (∀ g, file_of e' g = file_of e g) ∧ (s = true → d = c).
Proof.
  intros He Hc Hl. unfold ReadFileToString. destruct (NewSequentialFile f e) as [[file|] e1] eqn:E1;
    destruct (NewSequentialFile_law _ _ _ _ He E1) as (He1 & Hg1 & Hs); [|by exists false, [], e1]. destruct (Hs file eq_refl) as (c' & Hc' & Hr). assert (c' = c) as -> by congruence.
  destruct (Read_turns_ok fuel file f c [] e1 He1 Hr Hl) as (s & d & file' & e2 & -> & He2 & [rest' Hr2] & Hg2 & Hd). cbn [mbind option_bind].
  destruct (DeleteS_law file' f rest' e2 He2 Hr2) as [He3 Hg3]. exists s, d, (DeleteS file' e2). split_and!; [done..| |done]. intros g. by rewrite Hg3, Hg2, Hg1.
Qed.

End env_lemmas.

(** ** Properties *)

(** C11: CURRENT is replaced in one step. Over any environment that behaves as
    env.h documents, and whichever of its calls fail, [SetCurrentFile] leaves
    in CURRENT either what was there, when it reports an error, or, when it
    reports success, the name of the new manifest and a newline, which
    [ParseFileName] reads as the manifest of that number; reading CURRENT ends
    and, if it succeeds, gives just that. No file changes but CURRENT and the
    temporary file, which is gone after a success. *)
Theorem set_current_atomic {E W R} (EN : Env E W R) (EL : EnvLaws E W R EN) dbname n (e : E) s e' :
  env_ok e → u64_ok n → SetCurrentFile dbname n e = (s, e') →
  let name := base_name (DescriptorFile n) in
  env_ok e' ∧
  file_of e' (CurrentFileName dbname) = (if s then Some (name ++ [10]) else file_of e (CurrentFileName dbname)) ∧
  (s = true → file_of e' (TempFileName dbname n) = None ∧
    ∃ r d e'', ReadFileToString (length name + 2) (CurrentFileName dbname) e' = Some (r, d, e'') ∧ (r = true → d = name ++ [10])) ∧
  (∀ g, g ≠ CurrentFileName dbname → g ≠ TempFileName dbname n → file_of e' g = file_of e g) ∧
  ParseFileName name = Some (n, kDescriptorFile).
Proof.
  intros He Hn Hset name. revert Hset. unfold SetCurrentFile.
  assert (Slice.remove_prefix (DescriptorFileName dbname n) (len dbname + 1) = name) as ->.
  { pose proof (name_of_base dbname (DescriptorFile n) Hn) as E1. cbn [name_of] in E1. rewrite E1, app_assoc. unfold Slice.remove_prefix.
    apply skip_app. by rewrite len_app. }
  assert (TempFileName dbname n ≠ CurrentFileName dbname) as Hne.
  { intros E1. pose proof (name_of_base dbname (TempFile n) Hn) as E2. pose proof (name_of_base dbname CurrentFile I) as E3. cbn [name_of] in E2, E3.
    rewrite E2, E3 in E1. apply app_inv_head, app_inv_head in E1. by apply base_name_inj in E1. }
  set (tmp := TempFileName dbname n) in *. set (cur := CurrentFileName dbname) in *.
  destruct (WriteStringToFileSync (name ++ [10]) tmp e) as [s1 e1] eqn:E1. destruct (DoWriteStringToFile_ok _ _ _ _ _ _ He E1) as (He1 & Hg1 & Hc1).
  destruct (if s1 then RenameFile tmp cur e1 else (s1, e1)) as [s2 e2] eqn:E2.
  assert (env_ok e2 ∧ (∀ g, g ≠ tmp → g ≠ cur → file_of e2 g = file_of e g) ∧
    (s2 = true → file_of e2 cur = Some (name ++ [10]) ∧ file_of e2 tmp = None) ∧ (s2 = false → file_of e2 cur = file_of e cur)) as (He2 & Hg2 & Hok2 & Hno2).
  { destruct s1.
    - destruct (RenameFile_law _ _ _ _ _ He1 Hne E2) as (? & Hg & Hok & Hno). split_and!; [done| | |].
      + intros g ? ?. rewrite Hg by done. by apply Hg1.
      + intros Hs. destruct (Hok Hs) as (-> & _ & ->). by rewrite Hc1.
      + intros Hs. rewrite Hno by done. by apply Hg1.
    - injection E2 as <- <-. split_and!; [done|by intros; apply Hg1|done|]. intros _. by apply Hg1. }
  assert (ParseFileName name = Some (n, kDescriptorFile)) as Hp by (by apply (Parse_base (DescriptorFile n))).
  destruct s2; cbn [negb].
  - intros [= <- <-]. destruct (Hok2 eq_refl) as [Hc2 Ht2]. split_and!; [done|done| |by intros; apply Hg2|done]. intros _. split; [done|].
    destruct (ReadFileToString_ok (length name + 2) cur (name ++ [10]) e2 He2 Hc2) as (r & d & e3 & Hrd & _ & _ & Hd); [rewrite length_app; cbn; lia|]. by exists r, d, e3.
  - destruct (DeleteFile tmp e2) as [b e3] eqn:E3. destruct (DeleteFile_law _ _ _ _ He2 E3) as (He3 & Hg3 & _). intros [= <- <-]. cbn.
    split_and!; [done| |done| |done]; [rewrite Hg3 by done; by apply Hno2|]. intros g Hc Ht. rewrite Hg3 by done. by apply Hg2.
Qed.

Section memenv_claims.
Import InMemoryEnv MemProofs.

(** Renaming a file of the in-memory environment to its own name loses it. *)
Theorem mem_rename_self e f :
  mem_ok e → is_Some (mem_file e f) → ∃ e', RenameFile f f e = Some (true, e') ∧ mem_file e' f = None.
Proof.
  intros He [c Hc]. unfold RenameFile. destruct (file_map_ e !! f) as [p|] eqn:Hm; [|unfold mem_file in Hc; by rewrite Hm in Hc].
  destruct (DeleteFileInternal_ok e f He) as (e1 & -> & _ & Hm1 & _). cbn [mbind option_bind]. destruct (index f e1) as [q e2]. eexists. split; [done|].
  unfold mem_file. cbn. by rewrite lookup_delete_eq.
Qed.

(** A file that [NewAppendableFile] of the in-memory environment creates
    is not in the map: what is appended to it is not seen under its name, and
    opening the name for reading uses a null pointer. *)
Theorem mem_appendable_lost fresh e f data :
  mem_ok e → len fresh = FileState.kBlockSize → file_map_ e !! f = None →
  ∃ w e' e'', NewAppendableFile f e = Some (w, e') ∧ WritableAppend fresh w data e' = Some e'' ∧
    mem_file e'' f = None ∧ NewSequentialFile f e'' = None.
Proof.
  intros He Hfr Hm. unfold NewAppendableFile, index, NewFileState, WritableAppend, Ref, deref. rewrite Hm. cbn.
  rewrite lookup_insert_eq. cbn. rewrite lookup_insert_eq. cbn.
  destruct (Append_loop_ok (length data) fresh data (FileState.Ref (FileState.Ref FileState.New)) [] Hfr (New_file_ok _) ltac:(done)) as (f' & Ef & _).
  eexists _, _, _. split; [done|]. cbn. rewrite lookup_insert_eq. cbn. unfold FileState.Append. rewrite Ef. cbn. split; [done|].
  unfold mem_file, NewSequentialFile, Ref, deref. cbn. by rewrite lookup_insert_eq.
Qed.

End memenv_claims.

(** ** Witnesses *)

Definition zero_block : bytes := replicate 8192 0.

Lemma New_mem_ok : MemProofs.mem_ok InMemoryEnv.New.
Proof. split; cbn; intros *; rewrite ?lookup_empty; (done || by intros []). Qed.

(** A new environment, with an old CURRENT. *)
Definition env_example : InMemoryEnv.t := (WriteStringToFile (EN := mem_env zero_block) (str "old") (str "/db/CURRENT") InMemoryEnv.New).2.

Lemma env_example_ok : MemProofs.mem_ok env_example.
Proof.
  pose proof (DoWriteStringToFile_ok (EL := mem_env_laws zero_block eq_refl) (str "old") (str "/db/CURRENT") false InMemoryEnv.New _ _ New_mem_ok (surjective_pairing _)) as (H & _).
  exact H.
Qed.

Lemma set_current_atomic_witness :
  ∃ e', SetCurrentFile (EN := mem_env zero_block) (str "/db") 5 env_example = (true, e') ∧
    MemProofs.mem_file e' (str "/db/CURRENT") = Some (str "MANIFEST-000005" ++ [10]) ∧ MemProofs.mem_file e' (str "/db/000005.dbtmp") = None.
Proof.
  assert ((SetCurrentFile (EN := mem_env zero_block) (str "/db") 5 env_example).1 = true) as Hs by (vm_compute; reflexivity).
  destruct (SetCurrentFile (EN := mem_env zero_block) (str "/db") 5 env_example) as [s e'] eqn:E. cbn [fst] in Hs. subst s. exists e'.
  destruct (set_current_atomic (mem_env zero_block) (mem_env_laws zero_block eq_refl) (str "/db") 5 env_example true e') as (_ & Hc & Ht & _).
  - exact env_example_ok.
  - split; vm_compute; [discriminate|reflexivity].
  - exact E.
  - split; [reflexivity|]. split; [exact Hc|]. destruct (Ht eq_refl) as [H _]. exact H.
Defined.

Lemma mem_rename_self_witness : ∃ e', InMemoryEnv.RenameFile (str "/db/CURRENT") (str "/db/CURRENT") env_example = Some (true, e') ∧ MemProofs.mem_file e' (str "/db/CURRENT") = None.
Proof. apply (mem_rename_self env_example (str "/db/CURRENT")); [exact env_example_ok|]. exists (str "old"). vm_compute. reflexivity. Defined.

Lemma mem_appendable_lost_witness :
  ∃ w e' e'', InMemoryEnv.NewAppendableFile (str "/db/LOG") env_example = Some (w, e') ∧
    InMemoryEnv.WritableAppend zero_block w [1; 2] e' = Some e'' ∧
    MemProofs.mem_file e'' (str "/db/LOG") = None ∧ InMemoryEnv.NewSequentialFile (str "/db/LOG") e'' = None.
Proof. apply (mem_appendable_lost zero_block env_example (str "/db/LOG") [1; 2]); [exact env_example_ok|reflexivity|vm_compute; reflexivity]. Defined.
