(* ===== verification/DBFormat.v ===== *)
(** * db/dbformat.{h,cc}, include/leveldb/comparator.h: internal keys

    An internal key is [user_key ++ fixed64((sequence << 8) | type)].  This file
    models its construction and parsing, [InternalKeyComparator] over any user
    comparator, [LookupKey], the filter-policy wrapper, and the key functions
    db/builder.{h,cc} adds for the value table. *)

From S2P Require Import Prelude Coding Comparator.

(** ** Internal keys *)

Inductive ValueType := kTypeDeletion | kTypeValue.

#[export] Instance ValueType_eq_dec : EqDecision ValueType.
Proof. solve_decision. Defined.

Definition ValueType_code (t : ValueType) : Z :=
  match t with kTypeDeletion => 0 | kTypeValue => 1 end.

Definition kValueTypeForSeek : ValueType := kTypeValue.
Definition kMaxSequenceNumber : Z := Z.shiftl 1 56 - 1.

(** [sort_key] is left uninitialised by [ParseInternalKey]. *)
Record ParsedInternalKey := {
  user_key : bytes;
  sequence : Z;
  type : ValueType;
  sort_key : option Z
}.

Definition InternalKeyEncodingLength (key : ParsedInternalKey) : Z := len (user_key key) + 8.

Definition PackSequenceAndType (seq : Z) (t : ValueType) : Z :=
  Z.lor (u64 (Z.shiftl seq 8)) (ValueType_code t).

Definition AppendInternalKey (result : bytes) (key : ParsedInternalKey) : bytes :=
  PutFixed64 (result ++ user_key key) (PackSequenceAndType (sequence key) (type key)).

(** [InternalKey(user_key, s, t)]. *)
Definition InternalKey (user_key : bytes) (s : Z) (t : ValueType) : bytes :=
  AppendInternalKey [] {| user_key := user_key; sequence := s; type := t; sort_key := None |}.

Definition ExtractUserKey (internal_key : bytes) : bytes :=
  if len internal_key <? 8 then [] else first (len internal_key - 8) internal_key.

Definition ValueType_of (c : Z) : option ValueType :=
  if c =? 0 then Some kTypeDeletion else if c =? 1 then Some kTypeValue else None.

Definition ParseInternalKey (internal_key : bytes) : option ParsedInternalKey :=
  let n := len internal_key in
  if n <? 8 then None else
  let num := DecodeFixed64 (skip (n - 8) internal_key) in
  let c := Z.land num 255 in
  match ValueType_of c with
  | Some t => Some {| user_key := first (n - 8) internal_key;
                      sequence := Z.shiftr num 8; type := t; sort_key := None |}
  | None => None
  end.

Definition ParseInternalVKey (internal_key : bytes) : option ParsedInternalKey :=
  let n := len internal_key in
  if n <? 16 then None else
  let sort_key := DecodeFixed64 (skip (n - 8) internal_key) in
  let num := DecodeFixed64 (skip (n - 16) internal_key) in
  let c := Z.land num 255 in
  match ValueType_of c with
  | Some t => Some {| user_key := first (n - 16) internal_key;
                      sequence := Z.shiftr num 8; type := t; sort_key := Some sort_key |}
  | None => None
  end.

(** ** InternalKeyComparator *)

Module InternalKeyComparator.

Definition Compare (user : Comparator) (akey bkey : bytes) : Z :=
  if (len akey <? 8) || (len bkey <? 8) then Slice.compare akey bkey
  else
    let r := Comparator.Compare user (ExtractUserKey akey) (ExtractUserKey bkey) in
    if r =? 0 then
      let anum := DecodeFixed64 (skip (len akey - 8) akey) in
      let bnum := DecodeFixed64 (skip (len bkey - 8) bkey) in
      if anum >? bnum then -1 else if anum <? bnum then 1 else r
    else r.

Definition FindShortestSeparator (user : Comparator) (start limit : bytes) : bytes :=
  let user_start := ExtractUserKey start in
  let user_limit := ExtractUserKey limit in
  let tmp := Comparator.FindShortestSeparator user user_start user_limit in
  if (len tmp <? len user_start) && (Comparator.Compare user user_start tmp <? 0) then
    PutFixed64 tmp (PackSequenceAndType kMaxSequenceNumber kValueTypeForSeek)
  else start.

Definition FindShortSuccessor (user : Comparator) (key : bytes) : bytes :=
  let user_key := ExtractUserKey key in
  let tmp := Comparator.FindShortSuccessor user user_key in
  if (len tmp <? len user_key) && (Comparator.Compare user user_key tmp <? 0) then
    PutFixed64 tmp (PackSequenceAndType kMaxSequenceNumber kValueTypeForSeek)
  else key.

Definition comparator (user : Comparator) : Comparator :=
  Build_Comparator (Compare user) (FindShortestSeparator user) (FindShortSuccessor user).

End InternalKeyComparator.

(** ** LookupKey *)

(** The buffer from [start_] to [end_], the capacity reserved for it, and the
    offset of [kstart_]. *)
Record LookupKey := {
  lk_buf : bytes;
  lk_capacity : Z;
  lk_kstart : Z
}.

Definition MakeLookupKey (user_key : bytes) (s : Z) : LookupKey :=
  let usize := len user_key in
  let needed := usize + 13 in
  let hdr := EncodeVarint32 (u32 (usize + 8)) in
  {| lk_buf := hdr ++ user_key ++ EncodeFixed64 (PackSequenceAndType s kValueTypeForSeek);
     lk_capacity := if needed <=? 32 then 32 else needed;
     lk_kstart := len hdr |}.

Definition memtable_key (k : LookupKey) : bytes := lk_buf k.
Definition internal_key (k : LookupKey) : bytes := skip (lk_kstart k) (lk_buf k).
Definition lookup_user_key (k : LookupKey) : bytes :=
  slice (lk_buf k) (lk_kstart k) (len (lk_buf k) - lk_kstart k - 8).

(** ** Filter policies *)

(** [CreateFilter] may overwrite the array of keys it is given, and appends the
    filter to [dst]. *)
Record FilterPolicy := {
  CreateFilter : list bytes → bytes → list bytes * bytes;
  KeyMayMatch : bytes → bytes → bool
}.

(** What include/leveldb/filter_policy.h asks of a policy: what is appended is a
    filter that matches every key of the list. The list's size is an [int]. *)
Class FilterLaws (p : FilterPolicy) : Prop := {
  filter_appends keys dst : ∃ f, snd (CreateFilter p keys dst) = dst ++ f;
  filter_match keys dst f key : snd (CreateFilter p keys dst) = dst ++ f →
    key ∈ keys → len keys < 2 ^ 31 → Forall bytes_ok keys → KeyMayMatch p key f = true
}.

Definition InternalFilterPolicy (user : FilterPolicy) : FilterPolicy := {|
  CreateFilter := λ keys dst,
    let mkey := map ExtractUserKey keys in
    (mkey, snd (CreateFilter user mkey dst));
  KeyMayMatch := λ key f, KeyMayMatch user (ExtractUserKey key) f
|}.

(** ** The value-table keys of db/builder *)

(** The sort key is the first eight bytes of the value. *)
Definition ConstructVKey (key value : bytes) : bytes := key ++ first 8 value.

Definition KCompare (s1 s2 : bytes) : bool :=
  let sz1 := len s1 in
  let sz2 := len s2 in
  let r := Slice.compare (first (sz1 - 16) s1) (first (sz2 - 16) s2) in
  let r :=
    if r =? 0 then
      let num1 := DecodeFixed64 (skip (sz1 - 16) s1) in
      let num2 := DecodeFixed64 (skip (sz2 - 16) s2) in
      if num1 >? num2 then -1 else if num1 <? num2 then 1 else r
    else r in
  r <? 0.

Definition VKSliceCompare (s1 s2 : bytes) : bool :=
  let size_1 := len s1 in
  let size_2 := len s2 in
  let sort_key_1 := DecodeFixed64 (skip (size_1 - 8) s1) in
  let sort_key_2 := DecodeFixed64 (skip (size_2 - 8) s2) in
  let r := if sort_key_1 >? sort_key_2 then -1
           else if sort_key_1 <? sort_key_2 then 1 else 0 in
  let r :=
    if r =? 0 then
      let r := Slice.compare (first (size_1 - 16) s1) (first (size_2 - 16) s2) in
      if r =? 0 then
        let num1 := DecodeFixed64 (skip (size_1 - 16) s1) in
        let num2 := DecodeFixed64 (skip (size_2 - 16) s2) in
        if num1 >? num2 then 1 else if num1 <? num2 then -1 else r
      else r
    else r in
  r >? 0.

(** ** Lemmas: internal keys *)

Lemma Pack_value seq t :
  0 ≤ seq ≤ kMaxSequenceNumber →
  PackSequenceAndType seq t = ValueType_code t + seq * 256.
Proof.
  unfold kMaxSequenceNumber. change (Z.shiftl 1 56 - 1) with (2 ^ 56 - 1). intros Hs.
  unfold PackSequenceAndType. rewrite Z.lor_comm. unfold u64.
  rewrite lor_u_shiftl; destruct t; simpl; lia.
Qed.

Lemma Pack_ok seq t : 0 ≤ seq ≤ kMaxSequenceNumber → u64_ok (PackSequenceAndType seq t).
Proof.
  intros Hs. rewrite Pack_value by done. unfold kMaxSequenceNumber in Hs.
  change (Z.shiftl 1 56 - 1) with (2 ^ 56 - 1) in Hs.
  unfold u64_ok. destruct t; simpl; lia.
Qed.

Lemma Pack_type seq t :
  0 ≤ seq ≤ kMaxSequenceNumber →
  ValueType_of (Z.land (PackSequenceAndType seq t) 255) = Some t ∧
  Z.shiftr (PackSequenceAndType seq t) 8 = seq.
Proof.
  intros Hs. rewrite Pack_value, byte_of, Z.shiftr_div_pow2 by (done || lia).
  change (2 ^ 8) with 256. rewrite Z_mod_plus, Z.div_add by lia.
  destruct t; simpl; split; done || lia.
Qed.

Lemma InternalKey_app u s t :
  InternalKey u s t = u ++ EncodeFixed64 (PackSequenceAndType s t).
Proof. done. Qed.

(** A key made of a user part and a tag: its length and its parts. *)
Lemma tagged_parts u tag :
  u64_ok tag →
  let k := u ++ EncodeFixed64 tag in
  len k = len u + 8 ∧ first (len k - 8) k = u ∧ DecodeFixed64 (skip (len k - 8) k) = tag.
Proof.
  intros Ht. simpl. rewrite len_app, len_EncodeFixed64. split; [lia|].
  replace (len u + 8 - 8) with (len u) by lia.
  by rewrite first_app, skip_app, DecodeFixed64_enc.
Qed.

Lemma ExtractUserKey_tagged u tag : u64_ok tag → ExtractUserKey (u ++ EncodeFixed64 tag) = u.
Proof.
  intros Ht. destruct (tagged_parts u tag Ht) as (Hl & Hf & _).
  unfold ExtractUserKey. rewrite Hf, Hl. pose proof (len_nonneg u).
  by rewrite (proj2 (Z.ltb_ge _ _)) by lia.
Qed.

Lemma ParseInternalKey_make u s t :
  0 ≤ s ≤ kMaxSequenceNumber →
  ParseInternalKey (InternalKey u s t) =
  Some {| user_key := u; sequence := s; type := t; sort_key := None |}.
Proof.
  intros Hs. rewrite InternalKey_app. pose proof (len_nonneg u).
  destruct (tagged_parts u _ (Pack_ok s t Hs)) as (Hl & Hf & Hd).
  unfold ParseInternalKey. rewrite Hd, Hf, Hl.
  rewrite (proj2 (Z.ltb_ge _ _)) by lia.
  by destruct (Pack_type s t Hs) as [-> ->].
Qed.

Lemma ParseInternalVKey_make u s t v :
  0 ≤ s ≤ kMaxSequenceNumber → bytes_ok v → 8 ≤ len v →
  ParseInternalVKey (ConstructVKey (InternalKey u s t) v) =
  Some {| user_key := u; sequence := s; type := t; sort_key := Some (DecodeFixed64 v) |}.
Proof.
  intros Hs Hv Hl. pose proof (len_nonneg u).
  assert (ConstructVKey (InternalKey u s t) v =
    MakeVKey u (PackSequenceAndType s t) (DecodeFixed64 v)) as ->.
  { unfold ConstructVKey, MakeVKey. rewrite InternalKey_app, <- app_assoc.
    rewrite <- (DecodeFixed64_first v), EncodeFixed64_dec; [done|auto with doux|].
    apply len_first. lia. }
  destruct (MakeVKey_parts u (PackSequenceAndType s t) (DecodeFixed64 v))
    as (Hk & Hu & Ht); [by apply Pack_ok|by apply DecodeFixed64_range|].
  unfold ParseInternalVKey. rewrite Hk, Hu, Ht.
  assert (len (MakeVKey u (PackSequenceAndType s t) (DecodeFixed64 v)) = len u + 16) as ->
    by (unfold MakeVKey; rewrite !len_app, !len_EncodeFixed64; lia).
  rewrite (proj2 (Z.ltb_ge _ _)) by lia.
  by destruct (Pack_type s t Hs) as [-> ->].
Qed.

(** ** Lemmas: InternalKeyComparator *)

Definition ikey_ok (udom : bytes → Prop) (k : bytes) : Prop :=
  bytes_ok k ∧ 8 ≤ len k ∧ udom (ExtractUserKey k).

Definition tag_of (k : bytes) : Z := DecodeFixed64 (skip (len k - 8) k).

Lemma ikey_split udom k :
  ikey_ok udom k → k = ExtractUserKey k ++ EncodeFixed64 (tag_of k).
Proof.
  intros (Hb & Hl & _). unfold ExtractUserKey, tag_of.
  rewrite (proj2 (Z.ltb_ge _ _)) by lia. by apply split_tail8.
Qed.

Lemma ikey_ok_tagged udom u tag :
  bytes_ok u → udom u → u64_ok tag → ikey_ok udom (u ++ EncodeFixed64 tag).
Proof.
  intros Hb Hu Ht. pose proof (len_nonneg u). split; [|split].
  - apply bytes_ok_app. auto with doux.
  - rewrite len_app, len_EncodeFixed64. lia.
  - by rewrite ExtractUserKey_tagged.
Qed.

Lemma tag_of_tagged u tag : u64_ok tag → tag_of (u ++ EncodeFixed64 tag) = tag.
Proof. intros Ht. by destruct (tagged_parts u tag Ht) as (_ & _ & ?). Qed.

Section internal_key_order.

Context (udom : bytes → Prop) (user : Comparator) {Hlaws : ComparatorLaws udom user}.
Context (Hudom : ∀ u, udom u → bytes_ok u).

Lemma ICompare_unfold a b :
  ikey_ok udom a → ikey_ok udom b →
  InternalKeyComparator.Compare user a b =
  andThen (Compare user (ExtractUserKey a) (ExtractUserKey b)) (zcmp (tag_of b) (tag_of a)).
Proof using.
  intros (_ & Ha & _) (_ & Hb & _). unfold InternalKeyComparator.Compare.
  rewrite (proj2 (Z.ltb_ge (len a) 8)), (proj2 (Z.ltb_ge (len b) 8)) by lia. simpl.
  unfold andThen. fold (tag_of a) (tag_of b).
  destruct (Z.eqb_spec (Compare user (ExtractUserKey a) (ExtractUserKey b)) 0) as [->|]; [|done].
  unfold zcmp. rewrite !Z.gtb_ltb.
  destruct (Z.ltb_spec (tag_of b) (tag_of a)), (Z.ltb_spec (tag_of a) (tag_of b)); lia || done.
Qed.

Lemma seek_tag_ok : u64_ok (PackSequenceAndType kMaxSequenceNumber kValueTypeForSeek).
Proof using. apply Pack_ok. unfold kMaxSequenceNumber. vm_compute. split; discriminate. Qed.

Lemma user_le_refl u : udom u → Compare user u u = 0.
Proof using Hlaws. intros. by apply cmp_eq. Qed.

Lemma icmp_eq a b :
  ikey_ok udom a → ikey_ok udom b → InternalKeyComparator.Compare user a b = 0 ↔ a = b.
Proof using Hlaws.
  intros Ha Hb. rewrite ICompare_unfold by done.
  assert (udom (ExtractUserKey a)) as Hua by apply Ha.
  assert (udom (ExtractUserKey b)) as Hub by apply Hb.
  split.
  - rewrite (ikey_split udom a Ha) at 3. rewrite (ikey_split udom b Hb) at 3.
    destruct (andThen_spec (Compare user (ExtractUserKey a) (ExtractUserKey b))
      (zcmp (tag_of b) (tag_of a))) as [[Hc ->]|[Hc ->]]; [|done].
    apply cmp_eq in Hc; [|done..].
    destruct (zcmp_spec (tag_of b) (tag_of a)) as [[? ->]|[[Ht _]|[? ->]]]; [lia| |lia].
    intros _. congruence.
  - intros ->. rewrite user_le_refl by done. three_way; lia.
Qed.

Lemma icmp_anti a b :
  ikey_ok udom a → ikey_ok udom b →
  InternalKeyComparator.Compare user a b < 0 ↔ 0 < InternalKeyComparator.Compare user b a.
Proof using Hlaws.
  intros Ha Hb. rewrite !ICompare_unfold by done.
  destruct Ha as (_ & _ & Ha), Hb as (_ & _ & Hb).
  pose proof (cmp_anti _ _ Ha Hb). pose proof (cmp_anti _ _ Hb Ha). three_way; lia.
Qed.

Lemma icmp_trans a b d :
  ikey_ok udom a → ikey_ok udom b → ikey_ok udom d →
  InternalKeyComparator.Compare user a b < 0 → InternalKeyComparator.Compare user b d < 0 →
  InternalKeyComparator.Compare user a d < 0.
Proof using Hlaws.
  intros Ha Hb Hd. rewrite !ICompare_unfold by done.
  destruct Ha as (_ & _ & Ha), Hb as (_ & _ & Hb), Hd as (_ & _ & Hd).
  pose proof (cmp_trans _ _ _ Ha Hb Hd) as Ht.
  pose proof (cmp_eq _ _ Ha Hb) as Eab. pose proof (cmp_eq _ _ Hb Hd) as Ebd.
  destruct (decide (ExtractUserKey a = ExtractUserKey b)) as [->|Nab];
  [|destruct (decide (ExtractUserKey b = ExtractUserKey d)) as [<-|Nbd]].
  - rewrite (user_le_refl (ExtractUserKey b)) by done. three_way; lia.
  - rewrite (user_le_refl (ExtractUserKey b)) by done. three_way; lia.
  - rewrite <- Eab in Nab. rewrite <- Ebd in Nbd. three_way; lia.
Qed.

(** A key shortened to [tmp] with the largest tag for it. *)
Lemma icmp_shortened a tmp :
  ikey_ok udom a → udom tmp → Compare user (ExtractUserKey a) tmp < 0 →
  let s := PutFixed64 tmp (PackSequenceAndType kMaxSequenceNumber kValueTypeForSeek) in
  ikey_ok udom s ∧ ExtractUserKey s = tmp ∧ InternalKeyComparator.Compare user a s < 0.
Proof using Hlaws Hudom.
  intros Ha Ht Hlt s. assert (ikey_ok udom s) as Hs
    by (apply ikey_ok_tagged; [by apply Hudom|done|apply seek_tag_ok]).
  assert (ExtractUserKey s = tmp) as Hu by (apply ExtractUserKey_tagged, seek_tag_ok).
  split; [done|]. split; [done|]. rewrite ICompare_unfold, Hu by done. three_way; lia.
Qed.

Lemma icmp_sep a l :
  ikey_ok udom a → ikey_ok udom l → InternalKeyComparator.Compare user a l < 0 →
  let s := InternalKeyComparator.FindShortestSeparator user a l in
  ikey_ok udom s ∧ InternalKeyComparator.Compare user a s ≤ 0 ∧
  InternalKeyComparator.Compare user s l < 0.
Proof using Hlaws Hudom.
  intros Ha Hl Hlt. unfold InternalKeyComparator.FindShortestSeparator.
  assert (udom (ExtractUserKey a)) as Hua by apply Ha.
  assert (udom (ExtractUserKey l)) as Hul by apply Hl.
  assert (InternalKeyComparator.Compare user a a = 0) by (by apply icmp_eq).
  destruct (_ && _) eqn:E; zify_bool; [|simpl; split; [done|lia]].
  rewrite (ICompare_unfold a l) in Hlt by done.
  destruct (decide (ExtractUserKey a = ExtractUserKey l)) as [Heq|Hne].
  - rewrite <- Heq, cmp_sep_same in H0 by done. lia.
  - rewrite <- cmp_eq in Hne by done.
    assert (Compare user (ExtractUserKey a) (ExtractUserKey l) < 0) as Hu
      by (revert Hlt; three_way; lia).
    destruct (cmp_sep _ _ Hua Hul Hu) as (Hd & _ & Hsl).
    destruct (icmp_shortened a _ Ha Hd H1) as (Hs & Hus & Hlt').
    split; [done|]. split; [simpl in *; lia|]. cbv zeta.
    rewrite ICompare_unfold, Hus by done. three_way; lia.
Qed.

Lemma icmp_sep_same a :
  ikey_ok udom a → InternalKeyComparator.FindShortestSeparator user a a = a.
Proof using Hlaws.
  intros Ha. unfold InternalKeyComparator.FindShortestSeparator.
  rewrite cmp_sep_same by apply Ha. by rewrite Z.ltb_irrefl.
Qed.

Lemma icmp_succ a :
  ikey_ok udom a →
  let s := InternalKeyComparator.FindShortSuccessor user a in
  ikey_ok udom s ∧ InternalKeyComparator.Compare user a s ≤ 0.
Proof using Hlaws Hudom.
  intros Ha. unfold InternalKeyComparator.FindShortSuccessor.
  assert (udom (ExtractUserKey a)) as Hua by apply Ha.
  assert (InternalKeyComparator.Compare user a a = 0) by (by apply icmp_eq).
  destruct (_ && _) eqn:E; zify_bool; [|simpl; split; [done|lia]].
  destruct (cmp_succ _ Hua) as (Hd & _).
  destruct (icmp_shortened a _ Ha Hd H1) as (Hs & _ & Hlt). simpl in *. split; [done|lia].
Qed.

(** [InternalKeyComparator] keeps the interface's promises on internal keys, by
    the laws of the user comparator alone. *)
Lemma internal_laws : ComparatorLaws (ikey_ok udom) (InternalKeyComparator.comparator user).
Proof using Hlaws Hudom.
  split; [apply icmp_eq|apply icmp_anti|apply icmp_trans|apply icmp_sep
    |apply icmp_sep_same|apply icmp_succ].
Qed.

End internal_key_order.

#[export] Instance bytewise_internal_laws :
  ComparatorLaws (ikey_ok bytes_ok) (InternalKeyComparator.comparator Bytewise.comparator).
Proof. by apply internal_laws; [apply _|]. Qed.

(** ** The properties of internal keys *)

(** Parsing an internal key gives back the user key, sequence number and
    type it was built from, for every sequence number that fits 56 bits; so does
    parsing the value-table key built from it and a value, whose sort key is the
    first eight bytes of the value. *)
Theorem internal_key_roundtrip u s t v :
  0 ≤ s ≤ kMaxSequenceNumber → bytes_ok v → 8 ≤ len v →
  ParseInternalKey (InternalKey u s t) =
    Some {| user_key := u; sequence := s; type := t; sort_key := None |} ∧
  ParseInternalVKey (ConstructVKey (InternalKey u s t) v) =
    Some {| user_key := u; sequence := s; type := t; sort_key := Some (DecodeFixed64 v) |} ∧
  ExtractUserKey (InternalKey u s t) = u.
Proof.
  intros Hs Hv Hl. split; [by apply ParseInternalKey_make|].
  split; [by apply ParseInternalVKey_make|]. by apply ExtractUserKey_tagged, Pack_ok.
Qed.

Lemma internal_key_roundtrip_witness :
  ParseInternalKey (InternalKey [107] 5 kTypeValue) =
    Some {| user_key := [107]; sequence := 5; type := kTypeValue; sort_key := None |}.
Proof.
  apply (internal_key_roundtrip [107] 5 kTypeValue [1; 2; 3; 4; 5; 6; 7; 8]).
  - split; [lia|]. vm_compute. discriminate.
  - repeat constructor; unfold byte_ok; lia.
  - vm_compute. discriminate.
Defined.

(** Over any lawful user comparator, [InternalKeyComparator] is a total
    order on internal keys that sorts by user key and, within one user key, by
    decreasing tag; its shortening functions satisfy the asserts in their
    bodies: the separator of [start < limit] stays in [start, limit), the
    successor does not decrease. *)
Theorem internal_comparator_correct udom user :
  ComparatorLaws udom user → (∀ u, udom u → bytes_ok u) →
  ComparatorLaws (ikey_ok udom) (InternalKeyComparator.comparator user) ∧
  ∀ u1 s1 t1 u2 s2 t2,
    udom u1 → udom u2 → 0 ≤ s1 ≤ kMaxSequenceNumber → 0 ≤ s2 ≤ kMaxSequenceNumber →
    InternalKeyComparator.Compare user (InternalKey u1 s1 t1) (InternalKey u2 s2 t2) =
    andThen (Compare user u1 u2)
      (zcmp (PackSequenceAndType s2 t2) (PackSequenceAndType s1 t1)).
Proof.
  intros Hlaws Hu. split; [exact (internal_laws udom user Hu)|].
  intros u1 s1 t1 u2 s2 t2 H1 H2 Hs1 Hs2.
  pose proof (Pack_ok s1 t1 Hs1). pose proof (Pack_ok s2 t2 Hs2).
  rewrite !InternalKey_app.
  rewrite (ICompare_unfold udom) by (apply ikey_ok_tagged; auto).
  by rewrite !ExtractUserKey_tagged, !tag_of_tagged.
Qed.

Lemma internal_comparator_correct_witness :
  ComparatorLaws (ikey_ok bytes_ok) (InternalKeyComparator.comparator Bytewise.comparator).
Proof.
  exact (proj1 (internal_comparator_correct bytes_ok Bytewise.comparator
    bytewise_laws (λ u Hu, Hu))).
Defined.

(** The fallback for keys shorter than eight bytes makes [Compare] cyclic:
    two internal keys of one user key and a short slice with [a < b], [b < s]
    and [s < a], so on arbitrary slices it is not the total order the
    [Comparator] interface documents. *)
Theorem internal_comparator_short_cycle :
  ∃ a b s,
    bytes_ok a ∧ bytes_ok b ∧ bytes_ok s ∧ 8 ≤ len a ∧ 8 ≤ len b ∧
    InternalKeyComparator.Compare Bytewise.comparator a b < 0 ∧
    InternalKeyComparator.Compare Bytewise.comparator b s < 0 ∧
    InternalKeyComparator.Compare Bytewise.comparator s a < 0.
Proof.
  exists [120; 5; 0; 0; 0; 0; 0; 0; 0], [120; 0; 0; 0; 0; 0; 0; 0; 0], [120; 3].
  split_and!; try (by vm_compute); repeat constructor; by vm_compute.
Qed.

(** A [LookupKey] for a user key and a snapshot [s] fits the space it
    reserves, its three views are what their comments say, and it sorts exactly
    before the entries of that user key visible at [s]: [<=] an entry iff the
    entry's sequence number is at most [s]. *)
Theorem lookup_key_correct u s :
  bytes_ok u → len u + 8 < 2 ^ 32 → 0 ≤ s ≤ kMaxSequenceNumber →
  let k := MakeLookupKey u s in
  len (lk_buf k) ≤ lk_capacity k ∧
  lookup_user_key k = u ∧
  internal_key k = InternalKey u s kValueTypeForSeek ∧
  GetLengthPrefixedSlice (memtable_key k) = Some (internal_key k, []) ∧
  ∀ s' t, 0 ≤ s' ≤ kMaxSequenceNumber →
    InternalKeyComparator.Compare Bytewise.comparator (internal_key k) (InternalKey u s' t) ≤ 0
    ↔ s' ≤ s.
Proof.
  intros Hu Hl Hs k. pose proof (len_nonneg u).
  pose proof (Pack_ok s kValueTypeForSeek Hs) as Hp.
  assert (u32 (len u + 8) = len u + 8) as H32 by (apply u32_id; unfold u32_ok; lia).
  assert (u32_ok (len u + 8)) as Hok by (unfold u32_ok; lia).
  pose proof (len_EncodeVarint32 _ Hok) as Hhdr.
  assert (internal_key k = InternalKey u s kValueTypeForSeek) as Hik
    by (unfold internal_key; simpl; by rewrite skip_app).
  split; [|split; [|split; [done|split]]].
  - unfold k. cbn [MakeLookupKey lk_buf lk_capacity].
    rewrite H32, !len_app, len_EncodeFixed64.
    destruct (Z.leb_spec (len u + 13) 32); lia.
  - unfold lookup_user_key, k. cbn [MakeLookupKey lk_buf lk_kstart].
    apply slice_app; [done|]. rewrite !len_app, len_EncodeFixed64. lia.
  - rewrite Hik. unfold memtable_key, k. cbn [MakeLookupKey lk_buf].
    rewrite <- InternalKey_app. unfold GetLengthPrefixedSlice.
    rewrite H32, GetVarint32_put by done.
    assert (len (InternalKey u s kValueTypeForSeek) = len u + 8) as Hlen
      by (rewrite InternalKey_app, len_app, len_EncodeFixed64; lia).
    rewrite Hlen, Z.geb_leb, Z.leb_refl, <- Hlen.
    by rewrite first_all, <- (app_nil_r (InternalKey u s kValueTypeForSeek)), skip_app
      by (by rewrite ?app_nil_r).
  - intros s' t Hs'. pose proof (Pack_ok s' t Hs') as Hp'.
    rewrite Hik, !InternalKey_app.
    rewrite (ICompare_unfold bytes_ok) by (apply ikey_ok_tagged; auto).
    rewrite !ExtractUserKey_tagged, !tag_of_tagged by done. simpl Compare.
    rewrite compare_lex, lex_refl. change (andThen 0 ?x) with x.
    rewrite !Pack_value by done. unfold kValueTypeForSeek.
    destruct (zcmp_spec (ValueType_code t + s' * 256) (ValueType_code kTypeValue + s * 256))
      as [[? ->]|[[? ->]|[? ->]]]; destruct t; simpl in *; lia.
Qed.

Lemma lookup_key_correct_witness :
  internal_key (MakeLookupKey [1; 2] 7) = InternalKey [1; 2] 7 kValueTypeForSeek.
Proof.
  apply (lookup_key_correct [1; 2] 7).
  - repeat constructor; unfold byte_ok; lia.
  - vm_compute. reflexivity.
  - split; [lia|]. vm_compute. discriminate.
Defined.

(** The filter wrapper passes user keys to a lawful policy and stays lawful. *)
#[export] Instance internal_filter_laws p : FilterLaws p → FilterLaws (InternalFilterPolicy p).
Proof.
  intros Hp. split; simpl.
  - intros keys dst. apply filter_appends.
  - intros keys dst f key Hf Hin Hn Hok.
    apply (filter_match (map ExtractUserKey keys) dst); [done| | |].
    + apply list_elem_of_In, in_map, list_elem_of_In, Hin.
    + unfold len in *. by rewrite length_map.
    + apply Forall_map. eapply Forall_impl; [exact Hok|]. intros k Hk.
      unfold ExtractUserKey. case_if; [constructor|by apply bytes_ok_first].
Qed.

(** [KCompare], the order the key table is sorted by after the value table
    has been written, is the strict internal-key order of the keys with their
    sort key cut off: the two tables' orders agree with their comparators. *)
Theorem KCompare_is_internal_order v1 v2 :
  vkey_ok v1 → vkey_ok v2 →
  KCompare v1 v2 =
  (InternalKeyComparator.Compare Bytewise.comparator
     (first (len v1 - 8) v1) (first (len v2 - 8) v2) <? 0).
Proof.
  intros H1 H2. rewrite (vkey_split v1 H1), (vkey_split v2 H2).
  set (u1 := first (len v1 - 16) v1). set (u2 := first (len v2 - 16) v2).
  assert (u64_ok (DecodeFixed64 (skip (len v1 - 16) v1))) as Ht1
    by (apply DecodeFixed64_range, bytes_ok_skip, H1).
  assert (u64_ok (DecodeFixed64 (skip (len v2 - 16) v2))) as Ht2
    by (apply DecodeFixed64_range, bytes_ok_skip, H2).
  assert (u64_ok (DecodeFixed64 (skip (len v1 - 8) v1))) as Hk1
    by (apply DecodeFixed64_range, bytes_ok_skip, H1).
  assert (u64_ok (DecodeFixed64 (skip (len v2 - 8) v2))) as Hk2
    by (apply DecodeFixed64_range, bytes_ok_skip, H2).
  assert (bytes_ok u1) as Hu1 by (apply bytes_ok_first, H1).
  assert (bytes_ok u2) as Hu2 by (apply bytes_ok_first, H2).
  revert Ht1 Ht2 Hk1 Hk2.
  generalize (DecodeFixed64 (skip (len v1 - 16) v1)) as t1, (DecodeFixed64 (skip (len v1 - 8) v1)) as k1,
    (DecodeFixed64 (skip (len v2 - 16) v2)) as t2, (DecodeFixed64 (skip (len v2 - 8) v2)) as k2.
  intros t1 k1 t2 k2 Ht1 Ht2 Hk1 Hk2.
  assert (∀ u t k, first (len (u ++ EncodeFixed64 t ++ EncodeFixed64 k) - 8)
    (u ++ EncodeFixed64 t ++ EncodeFixed64 k) = u ++ EncodeFixed64 t) as Hcut.
  { intros u t k. rewrite !app_assoc, first_app; [done|].
    rewrite !len_app, !len_EncodeFixed64. lia. }
  rewrite !Hcut, (ICompare_unfold bytes_ok) by (apply ikey_ok_tagged; auto).
  rewrite !ExtractUserKey_tagged, !tag_of_tagged by done.
  unfold KCompare. fold (MakeVKey u1 t1 k1) (MakeVKey u2 t2 k2).
  destruct (MakeVKey_parts u1 t1 k1) as (_ & -> & ->); [done..|].
  destruct (MakeVKey_parts u2 t2 k2) as (_ & -> & ->); [done..|].
  simpl Compare. unfold andThen, zcmp. rewrite !Z.gtb_ltb.
  destruct (Z.eqb_spec (Slice.compare u1 u2) 0) as [->|]; [|done].
  destruct (Z.ltb_spec t2 t1), (Z.ltb_spec t1 t2); lia || done.
Qed.

Lemma KCompare_is_internal_order_witness :
  KCompare (MakeVKey [1] 5 9) (MakeVKey [1] 3 1) =
  (InternalKeyComparator.Compare Bytewise.comparator
     (first 9 (MakeVKey [1] 5 9)) (first 9 (MakeVKey [1] 3 1)) <? 0).
Proof.
  apply (KCompare_is_internal_order (MakeVKey [1] 5 9) (MakeVKey [1] 3 1));
    (split; [by_decide|vm_compute; congruence]).
Defined.

(** [VKSliceCompare] answers [true] when the first sort key is the smaller
    one, against the comment above it, and on equal sort keys it orders user
    keys the other way round from [VKeyComparator]. *)
Theorem VKSliceCompare_inverts u1 t1 k1 u2 t2 k2 :
  u64_ok t1 → u64_ok k1 → u64_ok t2 → u64_ok k2 →
  VKSliceCompare (MakeVKey u1 t1 k1) (MakeVKey u2 t2 k2) =
  (0 <? andThen (zcmp k2 k1) (andThen (Slice.compare u1 u2) (zcmp t1 t2))).
Proof.
  intros. unfold VKSliceCompare.
  destruct (MakeVKey_parts u1 t1 k1) as (-> & -> & ->); [done..|].
  destruct (MakeVKey_parts u2 t2 k2) as (-> & -> & ->); [done..|].
  unfold andThen, zcmp. rewrite !Z.gtb_ltb.
  destruct (Z.ltb_spec k2 k1), (Z.ltb_spec k1 k2); try lia; try done.
  simpl. destruct (Z.eqb_spec (Slice.compare u1 u2) 0) as [->|]; [|done].
  destruct (Z.ltb_spec t2 t1), (Z.ltb_spec t1 t2); lia || done.
Qed.

Lemma VKSliceCompare_inverts_witness :
  VKSliceCompare (MakeVKey [1] 5 9) (MakeVKey [1] 3 12) = true.
Proof.
  refine (eq_trans (VKSliceCompare_inverts [1] 5 9 [1] 3 12 _ _ _ _) _);
    [unfold u64_ok; lia..|reflexivity].
Defined.
