(* ===== verification/Bloom.v ===== *)
(** * util/hash.cc, util/bloom.cc: the murmur-style hash and the Bloom filter

    [Hash] is also the partition function of the grouped value log
    (mod/GroupedValueLog.cpp). *)

From S2P Require Import Prelude Coding DBFormat.

(** ** Hash *)

Definition hash_m : Z := 0xc6a4a793.
Definition hash_r : Z := 24.

(** [while (data + 4 <= limit)]: returns [h] and the bytes left. *)
Fixpoint Hash_loop (h : Z) (data : bytes) : Z * bytes :=
  match data with
  | b0 :: b1 :: b2 :: b3 :: data' =>
      let w := DecodeFixed32 data in
      let h := u32 (h + w) in
      let h := u32 (h * hash_m) in
      let h := Z.lxor h (Z.shiftr h 16) in
      Hash_loop h data'
  | _ => (h, data)
  end.

Definition Hash (data : bytes) (seed : Z) : Z :=
  let h := u32 (Z.lxor seed (u64 (len data * hash_m))) in
  let '(h, data) := Hash_loop h data in
  let rest := len data in
  let h := if rest =? 3 then u32 (h + Z.shiftl (at_ data 2) 16) else h in
  let h := if (rest =? 3) || (rest =? 2) then u32 (h + Z.shiftl (at_ data 1) 8) else h in
  if (rest =? 3) || (rest =? 2) || (rest =? 1) then
    let h := u32 (h + at_ data 0) in
    let h := u32 (h * hash_m) in
    Z.lxor h (Z.shiftr h hash_r)
  else h.

(** ** BloomFilterPolicy *)

Definition BloomHash (key : bytes) : Z := Hash key 0xbc9f1d34.

(** [static_cast<size_t>(bits_per_key * 0.69)], clamped to [1, 30]. *)
Definition Bloom_k (bits_per_key : Z) : Z :=
  let k := bits_per_key * 69 / 100 in
  let k := if k <? 1 then 1 else k in
  if k >? 30 then 30 else k.

Definition Bloom_delta (h : Z) : Z := Z.lor (Z.shiftr h 17) (u32 (Z.shiftl h 15)).

(** [array[bitpos / 8] |= (1 << (bitpos % 8))] *)
Definition set_bit (array : bytes) (bitpos : Z) : bytes :=
  alter (λ b, Z.lor b (Z.shiftl 1 (bitpos `mod` 8))) (Z.to_nat (bitpos / 8)) array.

Definition test_bit (array : bytes) (bitpos : Z) : bool :=
  negb (Z.land (at_ array (bitpos / 8)) (Z.shiftl 1 (bitpos `mod` 8)) =? 0).

(** [for (size_t j = 0; j < k_; j++)] of [CreateFilter]. *)
Fixpoint set_probes (k : nat) (bits delta h : Z) (array : bytes) : bytes :=
  match k with
  | O => array
  | S k' =>
      let bitpos := u32 (h `mod` bits) in
      set_probes k' bits delta (u32 (h + delta)) (set_bit array bitpos)
  end.

Fixpoint test_probes (k : nat) (bits delta h : Z) (array : bytes) : bool :=
  match k with
  | O => true
  | S k' =>
      let bitpos := u32 (h `mod` bits) in
      if negb (test_bit array bitpos) then false
      else test_probes k' bits delta (u32 (h + delta)) array
  end.

Definition Bloom_bytes (n bits_per_key : Z) : Z :=
  let bits := u64 (n * bits_per_key) in
  let bits := if bits <? 64 then 64 else bits in
  u64 (bits + 7) / 8.

Definition Bloom_CreateFilter (bits_per_key : Z) (keys : list bytes) (dst : bytes)
    : list bytes * bytes :=
  let k := Bloom_k bits_per_key in
  let nbytes := Bloom_bytes (len keys) bits_per_key in
  let bits := u64 (nbytes * 8) in
  let array := foldl (λ array key,
      let h := BloomHash key in
      set_probes (Z.to_nat k) bits (Bloom_delta h) h array)
    (replicate (Z.to_nat nbytes) 0) keys in
  (keys, dst ++ array ++ [u8 k]).

Definition Bloom_KeyMayMatch (key bloom_filter : bytes) : bool :=
  let n := len bloom_filter in
  if n <? 2 then false else
  let bits := (n - 1) * 8 in
  let k := u64 (i8 (at_ bloom_filter (n - 1))) in
  if k >? 30 then true else
  let h := BloomHash key in
  test_probes (Z.to_nat k) bits (Bloom_delta h) h bloom_filter.

Definition BloomFilterPolicy (bits_per_key : Z) : FilterPolicy := {|
  CreateFilter := Bloom_CreateFilter bits_per_key;
  KeyMayMatch := Bloom_KeyMayMatch
|}.

(** ** Lemmas *)

Lemma shiftr_le h k : 0 ≤ h → 0 ≤ k → 0 ≤ Z.shiftr h k ≤ h.
Proof.
  intros. rewrite Z.shiftr_div_pow2 by lia. split; [apply Z.div_pos; lia|].
  apply Z.div_le_upper_bound; nia.
Qed.

Lemma lxor_range w a b : 0 ≤ w → 0 ≤ a < 2 ^ w → 0 ≤ b < 2 ^ w → 0 ≤ Z.lxor a b < 2 ^ w.
Proof.
  intros Hw Ha Hb. assert (Z.lxor a b = Z.lxor a b `mod` 2 ^ w) as ->.
  { symmetry. rewrite <- Z.land_ones by lia. apply Z.bits_inj'. intros i Hi.
    rewrite Z.land_spec, Z.lxor_spec. destruct (Z.ltb_spec i w).
    - rewrite Z.ones_spec_low by lia. apply andb_true_r.
    - rewrite Z.ones_spec_high, andb_false_r by lia.
      rewrite <- (Z.mod_small a (2 ^ w)), <- (Z.mod_small b (2 ^ w)) by lia.
      by rewrite !Z.mod_pow2_bits_high by lia. }
  apply Z.mod_pos_bound. lia.
Qed.

Lemma xorshift_ok h k : u32_ok h → 0 ≤ k → u32_ok (Z.lxor h (Z.shiftr h k)).
Proof.
  unfold u32_ok. intros Hh Hk. pose proof (shiftr_le h k). apply lxor_range; lia.
Qed.

Lemma Hash_loop_range h data : u32_ok h → u32_ok (fst (Hash_loop h data)).
Proof.
  remember (length data) as n eqn:Hn. revert h data Hn.
  induction (lt_wf n) as [n _ IH]. intros h data -> Hh.
  destruct data as [|b0 [|b1 [|b2 [|b3 data]]]]; try done. cbn [Hash_loop].
  eapply IH; [|reflexivity|]; [simpl; lia|]. apply xorshift_ok; [auto with doux|lia].
Qed.

(** [Hash] returns a 32-bit value whatever it is given. *)
Lemma Hash_range data seed : u32_ok (Hash data seed).
Proof.
  unfold Hash. pose proof (Hash_loop_range (u32 (Z.lxor seed (u64 (len data * hash_m)))) data
    ltac:(auto with doux)) as H.
  destruct (Hash_loop _ data) as [h rest]. simpl in H.
  destruct ((len rest =? 3) || (len rest =? 2) || (len rest =? 1)) eqn:E.
  - apply xorshift_ok; [auto with doux|unfold hash_r; lia].
  - zify_bool. rewrite (proj2 (Z.eqb_neq (len rest) 3)), (proj2 (Z.eqb_neq (len rest) 2)) by lia.
    done.
Qed.

Lemma Bloom_k_range b : 1 ≤ Bloom_k b ≤ 30.
Proof. unfold Bloom_k. rewrite Z.gtb_ltb. repeat case_if; lia. Qed.

Lemma length_set_bit a p : length (set_bit a p) = length a.
Proof. apply length_alter. Qed.

Lemma length_set_probes k bits delta h a : length (set_probes k bits delta h a) = length a.
Proof. revert h a. induction k; intros; simpl; [done|]. by rewrite IHk, length_set_bit. Qed.


Lemma test_bit_spec a p :
  0 ≤ p → test_bit a p = Z.testbit (at_ a (p / 8)) (p `mod` 8).
Proof.
  intros Hp. unfold test_bit. set (m := p `mod` 8).
  assert (0 ≤ m) by (apply Z.mod_pos_bound; lia).
  rewrite Z.shiftl_1_l.
  destruct (Z.testbit (at_ a (p / 8)) m) eqn:E.
  - apply negb_true_iff, Z.eqb_neq. intros H0.
    assert (Z.testbit (Z.land (at_ a (p / 8)) (2 ^ m)) m = true) as H1.
    { rewrite Z.land_spec, E, Z.pow2_bits_true by lia. done. }
    by rewrite H0, Z.bits_0 in H1.
  - apply negb_false_iff, Z.eqb_eq. apply Z.bits_inj'. intros i Hi.
    rewrite Z.land_spec, Z.bits_0, Z.pow2_bits_eqb by lia.
    destruct (Z.eqb_spec m i) as [<-|]; [by rewrite E|apply andb_false_r].
Qed.

(** Setting a bit sets it and clears none. *)
Lemma set_bit_mono a p q : 0 ≤ q → test_bit a q = true → test_bit (set_bit a p) q = true.
Proof.
  intros Hq. rewrite !test_bit_spec by done. unfold set_bit.
  destruct (decide (Z.to_nat (p / 8) = Z.to_nat (q / 8))) as [E|E].
  - rewrite !at_default, E, list_lookup_alter_eq.
    destruct (a !! Z.to_nat (q / 8)) as [b|]; simpl; [|by rewrite Z.bits_0].
    intros H. by rewrite Z.lor_spec, H.
  - by rewrite !at_default, list_lookup_alter_ne by done.
Qed.

Lemma set_bit_same a p : 0 ≤ p < 8 * len a → test_bit (set_bit a p) p = true.
Proof.
  intros Hp. rewrite test_bit_spec by lia. unfold set_bit.
  rewrite at_default, list_lookup_alter_eq.
  destruct (lookup_lt_is_Some_2 a (Z.to_nat (p / 8))) as [b ->].
  { unfold len in Hp. apply Nat2Z.inj_lt.
    rewrite Z2Nat.id by (apply Z.div_pos; lia). apply Z.div_lt_upper_bound; lia. }
  simpl. rewrite Z.lor_spec, Z.shiftl_1_l, Z.pow2_bits_true by (apply Z.mod_pos_bound; lia).
  apply orb_true_r.
Qed.

Lemma bitpos_range h bits : 0 < bits → 0 ≤ h → 0 ≤ u32 (h `mod` bits) < bits.
Proof.
  intros. pose proof (Z.mod_pos_bound h bits). pose proof (u32_range (h `mod` bits)) as Hu.
  unfold u32_ok in Hu. split; [lia|]. unfold u32.
  pose proof (Z.mod_le (h `mod` bits) (2 ^ 32)). lia.
Qed.

Lemma set_probes_mono k bits delta h a q :
  0 ≤ q → test_bit a q = true → test_bit (set_probes k bits delta h a) q = true.
Proof.
  revert h a. induction k; intros h a Hq H; simpl; [done|].
  apply IHk; [done|]. by apply set_bit_mono.
Qed.

Lemma test_probes_mono k bits delta h a a' :
  0 < bits → 0 ≤ h → (∀ q, 0 ≤ q → test_bit a q = true → test_bit a' q = true) →
  test_probes k bits delta h a = true → test_probes k bits delta h a' = true.
Proof.
  intros Hb Hh Hm. revert h Hh. induction k as [|k IH]; intros h Hh; simpl; [done|].
  pose proof (bitpos_range h bits Hb Hh). destruct (test_bit a _) eqn:E; [|done]. simpl.
  rewrite Hm by (done || lia). simpl. apply IH. apply u32_range.
Qed.

(** A key's own probes are set after it has been added. *)
Lemma test_set_probes k bits delta h a :
  0 < bits → bits ≤ 8 * len a → 0 ≤ h →
  test_probes k bits delta h (set_probes k bits delta h a) = true.
Proof.
  intros Hb Hl. revert h a Hl. induction k as [|k IH]; intros h a Hl Hh; simpl; [done|].
  pose proof (bitpos_range h bits Hb Hh).
  rewrite set_probes_mono by (lia || (apply set_bit_same; lia)). simpl.
  apply IH; [unfold len in *; by rewrite length_set_bit|apply u32_range].
Qed.

Lemma Bloom_bytes_range n b :
  0 ≤ n < 2 ^ 31 → 0 ≤ b < 2 ^ 31 → 8 ≤ Bloom_bytes n b < 2 ^ 60.
Proof.
  intros Hn Hb. unfold Bloom_bytes. assert (0 ≤ n * b < 2 ^ 62) by nia.
  rewrite (u64_id (n * b)) by (unfold u64_ok; lia).
  destruct (Z.ltb_spec (n * b) 64); [done|].
  rewrite u64_id by (unfold u64_ok; lia). Z.div_mod_to_equations; lia.
Qed.

(** The bit array [CreateFilter] builds. *)
Definition Bloom_array (b : Z) (keys : list bytes) : bytes :=
  foldl (λ array key,
      let h := BloomHash key in
      set_probes (Z.to_nat (Bloom_k b)) (Bloom_bytes (len keys) b * 8) (Bloom_delta h) h array)
    (replicate (Z.to_nat (Bloom_bytes (len keys) b)) 0) keys.

(** Adding keys one after the other keeps every earlier key's probes set. *)
Lemma fold_probes k bits keys : ∀ a,
  0 < bits → bits ≤ 8 * len a →
  let f := λ array key, set_probes k bits (Bloom_delta (BloomHash key)) (BloomHash key) array in
  length (foldl f a keys) = length a ∧
  (∀ q, 0 ≤ q → test_bit a q = true → test_bit (foldl f a keys) q = true) ∧
  (∀ key, key ∈ keys →
     test_probes k bits (Bloom_delta (BloomHash key)) (BloomHash key) (foldl f a keys) = true).
Proof.
  induction keys as [|x keys IH]; intros a Hb Hl f; simpl.
  - split; [done|]. split; [done|]. by intros key ?%not_elem_of_nil.
  - destruct (IH (f a x)) as (Hlen & Hmono & Hin); [done| |].
    { unfold f, len in *. by rewrite length_set_probes. }
    split; [etransitivity; [exact Hlen|apply length_set_probes]|]. split.
    + intros q Hq H. apply Hmono; [done|]. by apply set_probes_mono.
    + intros key [->|Hk]%elem_of_cons; [|by apply Hin].
      pose proof (Hash_range x 0xbc9f1d34) as Hr. unfold u32_ok in Hr.
      eapply test_probes_mono; [done|apply Hr|apply Hmono|].
      apply test_set_probes; [done|done|apply Hr].
Qed.

(** [test_probes] looks only at the array, not at the byte after it. *)
Lemma test_probes_app k bits delta h a t :
  0 < bits → bits ≤ 8 * len a → 0 ≤ h →
  test_probes k bits delta h (a ++ t) = test_probes k bits delta h a.
Proof.
  intros Hb Hl. revert h. induction k as [|k IH]; intros h Hh; simpl; [done|].
  pose proof (bitpos_range h bits Hb Hh) as Hp.
  rewrite !test_bit_spec by lia. rewrite at_app_l.
  - destruct (negb _); [done|]. apply IH, u32_range.
  - split; [apply Z.div_pos; lia|]. apply Z.div_lt_upper_bound; lia.
Qed.

Lemma Bloom_filter_shape b keys dst :
  0 ≤ b < 2 ^ 31 → len keys < 2 ^ 31 →
  snd (Bloom_CreateFilter b keys dst) = dst ++ Bloom_array b keys ++ [Bloom_k b] ∧
  len (Bloom_array b keys) = Bloom_bytes (len keys) b.
Proof.
  intros Hb Hn. pose proof (len_nonneg keys).
  pose proof (Bloom_bytes_range (len keys) b ltac:(lia) Hb) as Hr.
  pose proof (Bloom_k_range b) as Hk. split.
  - unfold Bloom_CreateFilter. cbn [snd]. rewrite u64_id by (unfold u64_ok; lia).
    rewrite u8_id by (unfold byte_ok; lia). done.
  - set (n := Bloom_bytes (len keys) b) in *.
    assert (len (replicate (Z.to_nat n) 0) = n) as Hlen
      by (unfold len; rewrite length_replicate; lia).
    destruct (fold_probes (Z.to_nat (Bloom_k b)) (n * 8) keys (replicate (Z.to_nat n) 0))
      as (H1 & _); [lia..|].
    rewrite <- Hlen. unfold len. f_equal. exact H1.
Qed.

Lemma bloom_match b keys key :
  0 ≤ b < 2 ^ 31 → len keys < 2 ^ 31 → key ∈ keys →
  Bloom_KeyMayMatch key (Bloom_array b keys ++ [Bloom_k b]) = true.
Proof.
  intros Hb Hn Hin. pose proof (len_nonneg keys).
  pose proof (Bloom_bytes_range (len keys) b ltac:(lia) Hb) as Hr.
  destruct (Bloom_filter_shape b keys [] Hb Hn) as [_ Hl].
  pose proof (Bloom_k_range b) as Hk. unfold Bloom_KeyMayMatch.
  rewrite len_app, Hl. change (len [Bloom_k b]) with 1.
  rewrite (proj2 (Z.ltb_ge _ 2)) by lia.
  rewrite at_app_r by lia. replace (Bloom_bytes (len keys) b + 1 - 1 - len (Bloom_array b keys)) with 0 by lia.
  change (at_ [Bloom_k b] 0) with (Bloom_k b).
  assert (i8 (Bloom_k b) = Bloom_k b) as -> by (unfold i8; rewrite Z.mod_small; lia).
  rewrite u64_id, Z.gtb_ltb, (proj2 (Z.ltb_ge 30 _)) by (unfold u64_ok; lia).
  replace (Bloom_bytes (len keys) b + 1 - 1) with (Bloom_bytes (len keys) b) by lia.
  pose proof (Hash_range key 0xbc9f1d34) as Hh. unfold u32_ok in Hh.
  rewrite test_probes_app; [|lia|lia|apply Hh].
  eapply (fold_probes _ _ keys); [lia| |done]. unfold len. rewrite length_replicate. lia.
Qed.

(** The policy keeps the interface's promise. *)
Lemma bloom_laws b : 0 ≤ b < 2 ^ 31 → FilterLaws (BloomFilterPolicy b).
Proof.
  intros Hb. split; cbn [CreateFilter KeyMayMatch BloomFilterPolicy].
  - intros keys dst. by eexists.
  - intros keys dst f key Hf Hin Hn _.
    rewrite (proj1 (Bloom_filter_shape b keys dst Hb Hn)) in Hf.
    apply app_inv_head in Hf. subst f. by apply bloom_match.
Qed.

(** The Bloom filter has no false negatives: whatever list of keys (at most
    [INT_MAX]) a filter is built from and whatever string it is appended to,
    the policy answers "may match" for every key of the list. *)
Theorem bloom_no_false_negative b keys dst key :
  0 ≤ b < 2 ^ 31 → len keys < 2 ^ 31 → key ∈ keys →
  ∃ f, snd (CreateFilter (BloomFilterPolicy b) keys dst) = dst ++ f ∧
       KeyMayMatch (BloomFilterPolicy b) key f = true.
Proof.
  intros Hb Hn Hin. exists (Bloom_array b keys ++ [Bloom_k b]).
  split; [by apply Bloom_filter_shape|by apply bloom_match].
Qed.

Lemma bloom_no_false_negative_witness :
  ∃ f, snd (CreateFilter (BloomFilterPolicy 10) [[97]; [98]] [7]) = [7] ++ f ∧
       KeyMayMatch (BloomFilterPolicy 10) [98] f = true.
Proof.
  apply (bloom_no_false_negative 10 [[97]; [98]] [7] [98]).
  - lia.
  - vm_compute. reflexivity.
  - apply (bool_decide_unpack _). vm_compute. exact I.
Defined.

