(* ===== verification/FilterBlock.v ===== *)
(** * table/filter_block.cc: one filter per 2KB of table data

    [FilterBlockBuilder] is a state machine driven by the table builder:
    [StartBlock(offset) AddKey* ... Finish].  [FilterBlockReader] decodes what
    [Finish] returns.  The policy is any implementation of the [FilterPolicy]
    interface. *)

From S2P Require Import Prelude Coding DBFormat Bloom.

Definition kFilterBaseLg : Z := 11.
Definition kFilterBase : Z := Z.shiftl 1 kFilterBaseLg.

(** ** FilterBlockBuilder *)

(** [tmp_keys_] is only live inside [GenerateFilter]. *)
Record FilterBlockBuilder := {
  keys_ : bytes;
  start_ : list Z;
  result_ : bytes;
  filter_offsets_ : list Z
}.

Definition FilterBlockBuilder_init : FilterBlockBuilder :=
  {| keys_ := []; start_ := []; result_ := []; filter_offsets_ := [] |}.

(** [for i < num_keys: tmp_keys_[i] = Slice(base + start_[i], start_[i+1] - start_[i])] *)
Fixpoint slices_from (keys : bytes) (starts : list Z) : list bytes :=
  match starts with
  | s :: ((s' :: _) as starts') => slice keys s (s' - s) :: slices_from keys starts'
  | _ => []
  end.

Section with_policy.

Context (policy : FilterPolicy).

Definition GenerateFilter (b : FilterBlockBuilder) : FilterBlockBuilder :=
  let num_keys := len (start_ b) in
  if num_keys =? 0 then
    {| keys_ := keys_ b; start_ := start_ b; result_ := result_ b;
       filter_offsets_ := filter_offsets_ b ++ [u32 (len (result_ b))] |}
  else
    let start := start_ b ++ [len (keys_ b)] in
    let tmp_keys := slices_from (keys_ b) start in
    {| keys_ := []; start_ := [];
       result_ := snd (CreateFilter policy tmp_keys (result_ b));
       filter_offsets_ := filter_offsets_ b ++ [u32 (len (result_ b))] |}.

(** [while (filter_index > filter_offsets_.size()) GenerateFilter();] each turn
    adds one offset, so the difference bounds the turns. *)
Fixpoint StartBlock_loop (fuel : nat) (filter_index : Z) (b : FilterBlockBuilder) : FilterBlockBuilder :=
  match fuel with
  | O => b
  | S fuel' =>
      if filter_index >? len (filter_offsets_ b)
      then StartBlock_loop fuel' filter_index (GenerateFilter b)
      else b
  end.

Definition StartBlock (block_offset : Z) (b : FilterBlockBuilder) : FilterBlockBuilder :=
  let filter_index := block_offset / kFilterBase in
  StartBlock_loop (Z.to_nat (filter_index - len (filter_offsets_ b))) filter_index b.

Definition AddKey (key : bytes) (b : FilterBlockBuilder) : FilterBlockBuilder :=
  {| keys_ := keys_ b ++ key; start_ := start_ b ++ [len (keys_ b)];
     result_ := result_ b; filter_offsets_ := filter_offsets_ b |}.

Definition Finish (b : FilterBlockBuilder) : bytes :=
  let b := if len (start_ b) =? 0 then b else GenerateFilter b in
  let array_offset := u32 (len (result_ b)) in
  let result := foldl PutFixed32 (result_ b) (filter_offsets_ b) in
  let result := PutFixed32 result array_offset in
  result ++ [kFilterBaseLg].

(** ** FilterBlockReader *)

(** [data_] with [offset_] as an index into it; [num_ = 0] when the contents are
    malformed. *)
Record FilterBlockReader := {
  data_ : bytes;
  offset_ : Z;
  num_ : Z;
  base_lg_ : Z
}.

Definition NewFilterBlockReader (contents : bytes) : FilterBlockReader :=
  let n := len contents in
  if n <? 5 then {| data_ := []; offset_ := 0; num_ := 0; base_lg_ := 0 |}
  else
    let base_lg := u64 (i8 (at_ contents (n - 1))) in
    let last_word := DecodeFixed32 (skip (n - 5) contents) in
    if last_word >? n - 5 then
      {| data_ := []; offset_ := 0; num_ := 0; base_lg_ := base_lg |}
    else
      {| data_ := contents; offset_ := last_word;
         num_ := (n - 5 - last_word) / 4; base_lg_ := base_lg |}.

Definition KeyMayMatch (r : FilterBlockReader) (block_offset : Z) (key : bytes) : bool :=
  let index := Z.shiftr block_offset (base_lg_ r) in
  if index <? num_ r then
    let start := DecodeFixed32 (skip (offset_ r + index * 4) (data_ r)) in
    let limit := DecodeFixed32 (skip (offset_ r + index * 4 + 4) (data_ r)) in
    if (start <=? limit) && (limit <=? offset_ r) then
      DBFormat.KeyMayMatch policy key (slice (data_ r) start (limit - start))
    else if start =? limit then false
    else true
  else true.

(** ** The use the table builder makes of it *)

(** A table is a sequence of blocks: [StartBlock(offset)] and the keys of the
    block. *)
Definition AddBlock (b : FilterBlockBuilder) (blk : Z * list bytes) : FilterBlockBuilder :=
  foldl (λ b key, AddKey key b) (StartBlock (fst blk) b) (snd blk).

Definition BuildFilterBlock (blocks : list (Z * list bytes)) : bytes :=
  Finish (foldl AddBlock FilterBlockBuilder_init blocks).

(** ** Lemmas *)

(** Running offsets of consecutive strings, from [o]. *)
Fixpoint offsets (o : Z) (l : list bytes) : list Z :=
  match l with
  | [] => []
  | s :: l' => o :: offsets (o + len s) l'
  end.

Lemma offsets_app o l s : offsets o (l ++ [s]) = offsets o l ++ [o + len (concat l)].
Proof.
  revert o. induction l as [|x l IH]; intros o; simpl; [by rewrite len_nil, Z.add_0_r|].
  rewrite IH, len_app, Z.add_assoc. done.
Qed.

Lemma length_offsets o l : length (offsets o l) = length l.
Proof. revert o. induction l; intros; simpl; auto. Qed.

(** The flattened keys and their start positions determine the keys. *)
Lemma slices_from_flat pre l :
  slices_from (pre ++ concat l) (offsets (len pre) l ++ [len (pre ++ concat l)]) = l.
Proof.
  revert pre. induction l as [|x l IH]; intros pre; [done|].
  specialize (IH (pre ++ x)). rewrite <- app_assoc in IH.
  simpl. rewrite len_app in IH. destruct l as [|y l].
  - simpl in *. rewrite !app_nil_r in *. rewrite !len_app. f_equal.
    rewrite <- (app_nil_r x) at 1. apply slice_app; lia.
  - simpl in *. rewrite IH. f_equal. apply slice_app; lia.
Qed.

(** [filters] are the filters generated so far, for the key lists [gen];
    [pending] are the keys added since. *)
Record builder_inv (b : FilterBlockBuilder) (gen : list (list bytes))
    (filters : list bytes) (pending : list bytes) : Prop := {
  inv_keys : keys_ b = concat pending;
  inv_start : start_ b = offsets 0 pending;
  inv_result : result_ b = concat filters;
  inv_offsets : filter_offsets_ b = map u32 (offsets 0 filters);
  inv_gen : Forall2 (λ ks f, (ks = [] ∧ f = []) ∨
    (∃ dst, snd (CreateFilter policy ks dst) = dst ++ f)) gen filters
}.

Lemma GenerateFilter_inv `{!FilterLaws policy} b gen filters pending :
  builder_inv b gen filters pending →
  ∃ f, builder_inv (GenerateFilter b) (gen ++ [pending]) (filters ++ [f]) [].
Proof.
  intros [Hk Hs Hr Ho Hg]. unfold GenerateFilter. rewrite Hs.
  destruct pending as [|k pending].
  - exists []. simpl. split; simpl; rewrite ?Hk, ?Hs, ?Hr, ?Ho; try done.
    + by rewrite concat_app, app_nil_r.
    + by rewrite offsets_app, map_app.
    + apply Forall2_app; [done|]. by repeat constructor.
  - assert ((len (offsets 0 (k :: pending)) =? 0) = false) as ->.
    { apply Z.eqb_neq. unfold len. rewrite length_offsets. simpl. lia. }
    rewrite Hk. pose proof (slices_from_flat [] (k :: pending)) as Hsl.
    rewrite !app_nil_l, len_nil in Hsl. rewrite Hsl.
    destruct (filter_appends (k :: pending) (result_ b)) as [f Hf].
    exists f. split; simpl; try done.
    + rewrite Hf, Hr, concat_app. simpl. by rewrite app_nil_r.
    + by rewrite Ho, offsets_app, map_app, Hr.
    + apply Forall2_app; [done|]. constructor; [right; by eexists|constructor].
Qed.

Lemma len_filter_offsets b gen filters pending :
  builder_inv b gen filters pending → len (filter_offsets_ b) = len gen.
Proof.
  intros [_ _ _ Ho Hg]. rewrite Ho. unfold len. rewrite length_map, length_offsets.
  by rewrite (Forall2_length _ _ _ Hg).
Qed.

Lemma StartBlock_loop_inv `{!FilterLaws policy} n idx : ∀ b gen filters pending,
  builder_inv b gen filters pending →
  (Z.to_nat (idx - len gen) ≤ n)%nat →
  ∃ gen' filters' pending',
    builder_inv (StartBlock_loop n idx b) gen' filters' pending' ∧
    len gen' = Z.max idx (len gen) ∧
    (len gen' = len gen → gen' = gen ∧ pending' = pending) ∧
    (len gen < len gen' → pending' = [] ∧ ∃ more, gen' = gen ++ pending :: more) ∧
    concat gen' ++ pending' = concat gen ++ pending.
Proof.
  induction n as [|n IH]; intros b gen filters pending Hi Hn; cbn [StartBlock_loop].
  - exists gen, filters, pending. split; [done|]. split; [lia|]. split; [done|]. split; [lia|done].
  - rewrite (len_filter_offsets _ _ _ _ Hi), Z.gtb_ltb.
    destruct (Z.ltb_spec (len gen) idx).
    + destruct (GenerateFilter_inv _ _ _ _ Hi) as [f Hf].
      destruct (IH _ _ _ _ Hf) as (gen' & filters' & pending' & Hi' & Hl & Hsame & Hmore & Hcat).
      { rewrite len_app. change (len [pending]) with 1. lia. }
      rewrite len_app in *. change (len [pending]) with 1 in *.
      rewrite concat_app in Hcat. simpl in Hcat. rewrite !app_nil_r in Hcat.
      exists gen', filters', pending'. split; [done|]. split; [lia|]. split; [lia|].
      split; [|done]. intros _. destruct (decide (len gen' = len gen + 1)) as [E|E].
      * destruct (Hsame E) as [-> ->]. split; [done|]. exists []. done.
      * destruct Hmore as [-> (more & ->)]; [lia|]. split; [done|].
        exists ([] :: more). by rewrite <- app_assoc.
    + exists gen, filters, pending. split; [done|]. split; [lia|]. split; [done|]. split; [lia|done].
Qed.

Lemma AddKeys_inv b gen filters pending ks :
  builder_inv b gen filters pending →
  builder_inv (foldl (λ b key, AddKey key b) b ks) gen filters (pending ++ ks).
Proof.
  revert b pending. induction ks as [|k ks IH]; intros b pending Hi; simpl.
  - by rewrite app_nil_r.
  - rewrite (cons_middle k pending ks), app_assoc. apply IH.
    destruct Hi as [Hk Hs Hr Ho Hg]. split; simpl; try done.
    + rewrite Hk, concat_app. simpl. by rewrite app_nil_r.
    + by rewrite Hs, Hk, offsets_app.
Qed.

(** Where the keys of the blocks seen so far are: in the filter of their
    block's 2KB, or still pending for it. *)
Definition located (gen : list (list bytes)) (pending : list bytes) (blk : Z * list bytes) : Prop :=
  let idx := fst blk / kFilterBase in
  ∀ key, key ∈ snd blk →
    (∃ ks, gen !! Z.to_nat idx = Some ks ∧ key ∈ ks) ∨ (len gen = idx ∧ key ∈ pending).

(** Block offsets come in increasing order, as the table builder writes them. *)
Definition increasing (blocks : list (Z * list bytes)) : Prop :=
  Forall (λ b, 0 ≤ fst b) blocks ∧
  ∀ i j b1 b2, (i ≤ j)%nat → blocks !! i = Some b1 → blocks !! j = Some b2 → fst b1 ≤ fst b2.

Lemma div_base_mono a b : 0 ≤ a ≤ b → 0 ≤ a / kFilterBase ≤ b / kFilterBase.
Proof.
  intros. assert (0 < kFilterBase) by (unfold kFilterBase; done).
  split; [apply Z.div_pos|apply Z.div_le_mono]; lia.
Qed.

Lemma blocks_inv `{!FilterLaws policy} blocks :
  increasing blocks →
  ∃ gen filters pending,
    builder_inv (foldl AddBlock FilterBlockBuilder_init blocks) gen filters pending ∧
    Forall (located gen pending) blocks ∧
    (∀ o ks, last blocks = Some (o, ks) → len gen = o / kFilterBase) ∧
    (blocks = [] → gen = []) ∧
    concat gen ++ pending = concat (map snd blocks).
Proof.
  induction blocks as [|[o ks] blocks IH] using rev_ind; intros [Hpos Hinc].
  - exists [], [], []. split; [split; simpl; constructor|]. split; [constructor|]. done.
  - apply Forall_app in Hpos as [Hpos Ho]. apply Forall_cons_1 in Ho as [Ho _]. simpl in Ho.
    destruct IH as (gen & filters & pending & Hi & Hloc & Hlast & Hnil & Hcat).
    { split; [done|]. intros i j b1 b2 Hij H1 H2.
      eapply (Hinc i j); [done|by apply lookup_app_l_Some..]. }
    set (idx := o / kFilterBase).
    assert (0 ≤ idx) by (apply (div_base_mono 0 o); lia).
    assert (len gen ≤ idx) as Hle.
    { destruct (last blocks) as [[o' ks']|] eqn:El.
      - rewrite (Hlast _ _ eq_refl). rewrite last_lookup in El.
        apply div_base_mono. split.
        + exact (Forall_lookup_1 _ _ _ _ Hpos El).
        + apply (Hinc (Nat.pred (length blocks)) (length blocks) (o', ks') (o, ks));
            [lia|by apply lookup_app_l_Some|by rewrite lookup_app_r, Nat.sub_diag by lia].
      - apply last_None in El. rewrite (Hnil El), len_nil. done. }
    rewrite foldl_snoc. unfold AddBlock at 1. cbn [fst snd]. unfold StartBlock. fold idx.
    rewrite (len_filter_offsets _ _ _ _ Hi).
    destruct (StartBlock_loop_inv (Z.to_nat (idx - len gen)) idx _ _ _ _ Hi (Nat.le_refl _))
      as (gen' & filters' & pending' & Hi' & Hl & Hsame & Hmore & Hcat').
    rewrite Z.max_l in Hl by lia.
    exists gen', filters', (pending' ++ ks). split; [by apply AddKeys_inv|]. split; [|split; [|split]].
    + apply Forall_app. split.
      * eapply Forall_impl; [exact Hloc|]. intros [o1 k1] Hb key Hkey.
        destruct (Hb key Hkey) as [(ks1 & Hg & Hin)|[Hg Hin]].
        -- left. exists ks1. split; [|done]. destruct (decide (len gen' = len gen)) as [E|E].
           ++ by destruct (Hsame E) as [-> _].
           ++ destruct Hmore as [_ (more & ->)]; [lia|]. by apply lookup_app_l_Some.
        -- destruct (decide (len gen' = len gen)) as [E|E].
           ++ destruct (Hsame E) as [-> ->]. right. split; [done|]. set_solver.
           ++ destruct Hmore as [_ (more & ->)]; [lia|]. left. exists pending.
              split; [|done]. rewrite <- Hg. unfold len. by rewrite Nat2Z.id, list_lookup_middle.
      * constructor; [|constructor]. intros key Hkey. right. split; [done|]. set_solver.
    + intros o' ks' Hl'. rewrite last_snoc in Hl'. by simplify_eq.
    + by destruct blocks.
    + rewrite app_assoc, Hcat', Hcat, map_app, concat_app. simpl. by rewrite app_nil_r.
Qed.

(** [PutFixed32] of a list of offsets. *)
Definition fixed32s (l : list Z) : bytes := concat (map EncodeFixed32 l).

Lemma foldl_PutFixed32 dst l : foldl PutFixed32 dst l = dst ++ fixed32s l.
Proof.
  revert dst. induction l as [|x l IH]; intros dst; simpl; [by rewrite app_nil_r|].
  rewrite IH. unfold PutFixed32. by rewrite <- app_assoc.
Qed.

Lemma len_fixed32s l : len (fixed32s l) = 4 * len l.
Proof.
  induction l as [|x l IH]; [done|].
  change (fixed32s (x :: l)) with (EncodeFixed32 x ++ fixed32s l).
  rewrite len_app, IH, len_EncodeFixed32, len_cons. lia.
Qed.

Lemma fixed32s_snoc l x : fixed32s (l ++ [x]) = fixed32s l ++ EncodeFixed32 x.
Proof.
  unfold fixed32s. rewrite map_app, concat_app. cbn [map concat]. by rewrite app_nil_r.
Qed.

(** Reading word [i] of the offset array. *)
Lemma DecodeFixed32_at pre l rest i x :
  l !! Z.to_nat i = Some x → 0 ≤ i → u32_ok x →
  DecodeFixed32 (skip (len pre + i * 4) (pre ++ fixed32s l ++ rest)) = x.
Proof.
  intros Hx Hi Hok. pose proof (len_nonneg pre).
  rewrite <- (skip_skip (i * 4) (len pre)), skip_app by lia.
  apply list_elem_of_split_length in Hx as (l1 & l2 & -> & Hl).
  unfold fixed32s. rewrite map_app, concat_app. simpl. rewrite <- !app_assoc.
  rewrite skip_app; [by apply DecodeFixed32_app|].
  fold (fixed32s l1). rewrite len_fixed32s. unfold len. lia.
Qed.

Lemma lookup_offsets l : ∀ o (i : nat) f,
  l !! i = Some f →
  ∃ pre post, l = pre ++ f :: post ∧ length pre = i ∧
    offsets o l !! i = Some (o + len (concat pre)) ∧
    (offsets o l ++ [o + len (concat l)]) !! S i = Some (o + len (concat pre) + len f).
Proof.
  induction l as [|x l IH]; intros o i f Hf; [done|]. destruct i as [|i].
  - injection Hf as ->. exists [], l. simpl. split; [done|]. split; [done|].
    rewrite len_nil, Z.add_0_r. split; [done|].
    destruct l; simpl; [by rewrite app_nil_r|done].
  - destruct (IH (o + len x) i f Hf) as (pre & post & -> & Hl & H1 & H2).
    exists (x :: pre), post. simpl. rewrite !len_app. split; [done|]. split; [lia|].
    rewrite H1. split; [f_equal; lia|].
    replace (o + (len x + len (concat (pre ++ f :: post)))) with
      (o + len x + len (concat (pre ++ f :: post))) by lia.
    simpl in H2. rewrite H2. f_equal. lia.
Qed.

Lemma offsets_bound l : ∀ o x, x ∈ offsets o l → o ≤ x ≤ o + len (concat l).
Proof.
  induction l as [|s l IH]; intros o x; simpl; [by intros ?%not_elem_of_nil|].
  rewrite len_app. pose proof (len_nonneg s). pose proof (len_nonneg (concat l)).
  intros [->|Hx]%elem_of_cons; [lia|]. apply IH in Hx. lia.
Qed.

(** What [Finish] returns for a builder whose filters are [filters]. *)
Lemma Finish_shape b gen filters :
  builder_inv b gen filters [] → len (concat filters) < 2 ^ 32 →
  Finish b = concat filters ++ fixed32s (offsets 0 filters ++ [len (concat filters)]) ++ [kFilterBaseLg].
Proof.
  intros [_ Hs Hr Ho _] Hlt. pose proof (len_nonneg (concat filters)).
  unfold Finish. rewrite Hs. simpl. rewrite foldl_PutFixed32, Hr, Ho.
  assert (map u32 (offsets 0 filters) = offsets 0 filters) as ->.
  { rewrite <- (map_id (offsets 0 filters)) at 2. apply map_ext_in. intros x Hx.
    apply list_elem_of_In, offsets_bound in Hx. apply u32_id. unfold u32_ok. lia. }
  rewrite u32_id by (unfold u32_ok; lia). unfold PutFixed32.
  by rewrite fixed32s_snoc, <- !app_assoc.
Qed.

(** Reading filter [i] back out of a finished block. *)
Lemma reader_filter b gen filters i f key o :
  builder_inv b gen filters [] → len (concat filters) < 2 ^ 32 →
  filters !! Z.to_nat i = Some f → 0 ≤ i → o / kFilterBase = i →
  KeyMayMatch (NewFilterBlockReader (Finish b)) o key = DBFormat.KeyMayMatch policy key f.
Proof.
  intros Hb Hlt Hf Hi Ho. pose proof (len_nonneg (concat filters)).
  rewrite (Finish_shape _ _ _ Hb Hlt).
  set (offs := offsets 0 filters ++ [len (concat filters)]).
  assert (len offs = len filters + 1) as Hoffs
    by (unfold offs, len; rewrite length_app, length_offsets; simpl; lia).
  pose proof (len_nonneg filters).
  assert (i < len filters) by (apply lookup_lt_Some in Hf; unfold len; lia).
  destruct (lookup_offsets filters 0 _ f Hf) as (pre & post & Hsplit & _ & Hstart & Hlimit).
  rewrite !Z.add_0_l in Hstart, Hlimit. fold offs in Hlimit.
  assert (len (concat filters) = len (concat pre) + len f + len (concat post)) as Hsum.
  { rewrite Hsplit at 1. rewrite concat_app. simpl. rewrite !len_app. lia. }
  pose proof (len_nonneg (concat pre)). pose proof (len_nonneg f).
  pose proof (len_nonneg (concat post)).
  assert (NewFilterBlockReader (concat filters ++ fixed32s offs ++ [kFilterBaseLg]) =
    {| data_ := concat filters ++ fixed32s offs ++ [kFilterBaseLg];
       offset_ := len (concat filters); num_ := len filters; base_lg_ := 11 |}) as ->.
  { unfold NewFilterBlockReader. rewrite !len_app, len_fixed32s.
    change (len [kFilterBaseLg]) with 1. rewrite Hoffs.
    rewrite (proj2 (Z.ltb_ge _ 5)) by lia.
    rewrite app_assoc, at_app_r by (rewrite !len_app, len_fixed32s; lia).
    rewrite len_app, len_fixed32s, Hoffs.
    replace (len (concat filters) + (4 * (len filters + 1) + 1) - 1 -
      (len (concat filters) + 4 * (len filters + 1))) with 0 by lia.
    change (u64 (i8 (at_ [kFilterBaseLg] 0))) with 11.
    rewrite <- app_assoc.
    replace (len (concat filters) + (4 * (len filters + 1) + 1) - 5)
      with (len (concat filters) + len filters * 4) by lia.
    rewrite (DecodeFixed32_at _ _ _ _ (len (concat filters))); [|..].
    - rewrite Z.gtb_ltb, (proj2 (Z.ltb_ge _ _)) by lia. f_equal.
      replace (len (concat filters) + len filters * 4 - len (concat filters))
        with (len filters * 4) by lia.
      by rewrite Z.div_mul by lia.
    - unfold offs, len. rewrite Nat2Z.id, lookup_app_r by (rewrite length_offsets; lia).
      by rewrite length_offsets, Nat.sub_diag.
    - done.
    - unfold u32_ok. lia. }
  unfold KeyMayMatch. cbn [data_ offset_ num_ base_lg_].
  rewrite Z.shiftr_div_pow2 by lia. change (2 ^ 11) with kFilterBase. rewrite Ho.
  rewrite (proj2 (Z.ltb_lt _ _)) by lia.
  replace (len (concat filters) + i * 4 + 4) with (len (concat filters) + (i + 1) * 4) by lia.
  rewrite (DecodeFixed32_at _ _ _ i (len (concat pre))); [|..].
  - rewrite (DecodeFixed32_at _ _ _ (i + 1) (len (concat pre) + len f)); [|..].
    + rewrite (proj2 (Z.leb_le _ _)), (proj2 (Z.leb_le _ (len (concat filters)))) by lia. simpl.
      f_equal. rewrite Hsplit at 1. rewrite concat_app. simpl. rewrite <- !app_assoc.
      apply slice_app; lia.
    + by replace (Z.to_nat (i + 1)) with (S (Z.to_nat i)) by lia.
    + lia.
    + unfold u32_ok. lia.
  - unfold offs. by apply lookup_app_l_Some.
  - done.
  - unfold u32_ok. lia.
Qed.

(** [Finish] first generates the filter of the pending keys. *)
Lemma Finish_generate `{!FilterLaws policy} b gen filters pending :
  builder_inv b gen filters pending → pending ≠ [] → Finish b = Finish (GenerateFilter b).
Proof.
  intros Hi Hp. destruct (GenerateFilter_inv _ _ _ _ Hi) as [f [_ Hs _ _ _]].
  unfold Finish at 2. rewrite Hs. unfold Finish.
  rewrite (inv_start _ _ _ _ Hi). destruct pending; [done|].
  assert ((len (offsets 0 (l :: pending)) =? 0) = false) as ->; [|done].
  apply Z.eqb_neq. unfold len. rewrite length_offsets. simpl. lia.
Qed.

(** Every key list is part of what was added. *)
Lemma gen_keys_ok gen (pending all : list bytes) ks i :
  concat gen ++ pending = all → gen !! i = Some ks →
  len all < 2 ^ 31 → Forall bytes_ok all → len ks < 2 ^ 31 ∧ Forall bytes_ok ks.
Proof.
  intros <- Hg Hn Hok. apply list_elem_of_lookup_2, list_elem_of_split in Hg as (g1 & g2 & ->).
  rewrite concat_app in *. simpl in *. rewrite !len_app in Hn. rewrite !Forall_app in Hok.
  pose proof (len_nonneg (concat g1)). pose proof (len_nonneg (concat g2)).
  pose proof (len_nonneg pending). split; [lia|tauto].
Qed.

Lemma filter_block_match `{!FilterLaws policy} blocks o ks key :
  increasing blocks → len (BuildFilterBlock blocks) < 2 ^ 32 →
  len (concat (map snd blocks)) < 2 ^ 31 → Forall bytes_ok (concat (map snd blocks)) →
  (o, ks) ∈ blocks → key ∈ ks →
  KeyMayMatch (NewFilterBlockReader (BuildFilterBlock blocks)) o key = true.
Proof.
  intros Hinc Hsz Hn Hok Hblk Hkey.
  destruct (blocks_inv _ Hinc) as (gen & filters & pending & Hi & Hloc & _ & _ & Hcat).
  assert (0 ≤ o / kFilterBase) as Ho.
  { destruct Hinc as [Hpos _]. rewrite Forall_forall in Hpos. apply Hpos in Hblk.
    apply (div_base_mono 0 o). simpl in Hblk. lia. }
  rewrite Forall_forall in Hloc. specialize (Hloc _ Hblk key Hkey). simpl in Hloc.
  (* the builder with nothing pending that [Finish] serialises *)
  assert (∃ b gen' filters' ks', builder_inv b gen' filters' [] ∧
    BuildFilterBlock blocks = Finish b ∧
    gen' !! Z.to_nat (o / kFilterBase) = Some ks' ∧ key ∈ ks' ∧
    concat gen' = concat (map snd blocks)) as (b & gen' & filters' & ks' & Hb & HF & Hg & Hk & Hc).
  { unfold BuildFilterBlock. destruct pending as [|k pending].
    - destruct Hloc as [(ks' & ? & ?)|[_ ?%not_elem_of_nil]]; [|done].
      rewrite app_nil_r in Hcat. by eexists _, gen, filters, ks'.
    - destruct (GenerateFilter_inv _ _ _ _ Hi) as [f Hf].
      assert (concat (gen ++ [k :: pending]) = concat (map snd blocks)) as Hc'
        by (rewrite <- Hcat, concat_app; simpl; by rewrite app_nil_r).
      rewrite (Finish_generate _ _ _ _ Hi) by done.
      destruct Hloc as [(ks' & Hl & ?)|[Hl ?]].
      + eexists _, _, _, ks'. split_and!; [exact Hf|done|by apply lookup_app_l_Some|done|done].
      + eexists _, _, _, (k :: pending). split_and!; [exact Hf|done| |done|done].
        rewrite <- Hl. unfold len. by rewrite Nat2Z.id, list_lookup_middle. }
  destruct (Forall2_lookup_l _ _ _ _ _ (inv_gen _ _ _ _ Hb) Hg) as (f & Hf & Hgen).
  rewrite HF in *.
  assert (len (concat filters') < 2 ^ 32) as Hlt.
  { clear - Hsz Hb. destruct Hb as [_ Hs Hr _ _]. unfold Finish in Hsz. rewrite Hs in Hsz.
    simpl in Hsz. rewrite foldl_PutFixed32, Hr in Hsz. unfold PutFixed32 in Hsz.
    rewrite !len_app, len_fixed32s in Hsz. pose proof (len_nonneg (filter_offsets_ b)).
    change (len [kFilterBaseLg]) with 1 in Hsz. rewrite len_EncodeFixed32 in Hsz. lia. }
  rewrite (reader_filter _ _ _ _ _ _ _ Hb Hlt Hf Ho eq_refl).
  destruct Hgen as [[-> _]|[dst Hgen]]; [by apply not_elem_of_nil in Hk|].
  destruct (gen_keys_ok gen' [] _ ks' _ (app_nil_r _) Hg) as [Hn' Hok']; [by rewrite Hc..|].
  by apply (filter_match ks' dst).
Qed.

End with_policy.

(** A filter block never hides a key: for any lawful filter policy and any
    table (blocks at increasing offsets, each with its keys), the reader of the
    block [Finish] returns answers "may match" for every key at its block's
    offset, across the 2KB boundaries, shared filters and empty filters between. *)
Theorem filter_block_no_false_negative policy blocks o ks key :
  FilterLaws policy →
  increasing blocks → len (BuildFilterBlock policy blocks) < 2 ^ 32 →
  len (concat (map snd blocks)) < 2 ^ 31 → Forall bytes_ok (concat (map snd blocks)) →
  (o, ks) ∈ blocks → key ∈ ks →
  KeyMayMatch policy (NewFilterBlockReader (BuildFilterBlock policy blocks)) o key = true.
Proof. intros Hp. by apply filter_block_match. Qed.

Lemma filter_block_no_false_negative_witness :
  let blocks := [(0, [[97]; [98]]); (1000, [[99]]); (9000, [[100]])] in
  KeyMayMatch (BloomFilterPolicy 10)
    (NewFilterBlockReader (BuildFilterBlock (BloomFilterPolicy 10) blocks)) 1000 [99] = true.
Proof.
  intros blocks.
  apply (filter_block_no_false_negative (BloomFilterPolicy 10) blocks 1000 [[99]] [99]).
  - apply bloom_laws. lia.
  - split; [repeat constructor; simpl; lia|].
    intros [|[|[|i]]] [|[|[|j]]] b1 b2 Hij H1 H2; simpl in *; simplify_eq; simpl; lia.
  - vm_compute. reflexivity.
  - vm_compute. reflexivity.
  - repeat constructor; unfold byte_ok; lia.
  - by_decide.
  - by_decide.
Defined.
