(* ===== verification/Log.v ===== *)
(** * db/log_format.h, db/log_writer.cc, db/log_reader.cc: the write-ahead log

    A log is a sequence of 32KB blocks of physical records; a logical record is
    split into fragments at block boundaries.  [Writer] appends to a
    [WritableFile] given by its operations; [Reader] reads a [SequentialFile]
    and reports what it drops. *)

From S2P Require Import Prelude Coding Crc32c.

(** ** log_format.h *)

Definition kZeroType : Z := 0.
Definition kFullType : Z := 1.
Definition kFirstType : Z := 2.
Definition kMiddleType : Z := 3.
Definition kLastType : Z := 4.
Definition kMaxRecordType : Z := kLastType.
Definition kBlockSize : Z := 32768.
Definition kHeaderSize : Z := 4 + 2 + 1.

(** ** Writer *)

Section writer.

(** The file: [Append] and [Flush] return the new file and [ok()]. *)
Context {F : Type} (Append : F → bytes → F * bool) (Flush : F → F * bool).

Record Writer := { dest_ : F; block_offset_ : Z }.

Definition NewWriter (dest : F) (dest_length : Z) : Writer :=
  {| dest_ := dest; block_offset_ := dest_length `mod` kBlockSize |}.

(** [type_crc_[t]], filled by [InitTypeCrc]. *)
Definition type_crc (t : Z) : Z := Value [u8 t].

Definition header (t : Z) (payload : bytes) : bytes :=
  let length := len payload in
  let crc := Mask (Extend (type_crc t) payload) in
  EncodeFixed32 crc ++ [u8 (Z.land length 255); u8 (Z.shiftr length 8); u8 t].

Definition EmitPhysicalRecord (w : Writer) (t : Z) (payload : bytes) : Writer * bool :=
  let '(f, ok) := Append (dest_ w) (header t payload) in
  let '(f, ok) :=
    if ok then
      let '(f, ok) := Append f payload in
      if ok then Flush f else (f, ok)
    else (f, ok) in
  ({| dest_ := f; block_offset_ := block_offset_ w + kHeaderSize + len payload |}, ok).

(** "Switch to a new block": the status of the trailer write is ignored. *)
Definition SwitchBlock (w : Writer) : Writer :=
  let leftover := kBlockSize - block_offset_ w in
  if leftover <? kHeaderSize then
    {| dest_ := if leftover >? 0
                then fst (Append (dest_ w) (first leftover [0; 0; 0; 0; 0; 0]))
                else dest_ w;
       block_offset_ := 0 |}
  else w.

(** The [do ... while (s.ok() && left > 0)] loop; [None] is out of fuel. *)
Fixpoint AddRecord_loop (fuel : nat) (w : Writer) (ptr : bytes) (begin : bool)
    : option (Writer * bool) :=
  match fuel with
  | O => None
  | S fuel' =>
      let w := SwitchBlock w in
      let left := len ptr in
      let avail := kBlockSize - block_offset_ w - kHeaderSize in
      let fragment_length := if left <? avail then left else avail in
      let end_ := left =? fragment_length in
      let type :=
        if begin && end_ then kFullType
        else if begin then kFirstType
        else if end_ then kLastType
        else kMiddleType in
      let '(w, ok) := EmitPhysicalRecord w type (first fragment_length ptr) in
      let ptr := skip fragment_length ptr in
      if ok && (len ptr >? 0) then AddRecord_loop fuel' w ptr false
      else Some (w, ok)
  end.

Definition AddRecord (w : Writer) (slice : bytes) : option (Writer * bool) :=
  AddRecord_loop (length slice + 2) w slice true.

Fixpoint AddRecords (w : Writer) (l : list bytes) : option (Writer * bool) :=
  match l with
  | [] => Some (w, true)
  | s :: l' =>
      match AddRecord w s with
      | Some (w, true) => AddRecords w l'
      | r => r
      end
  end.

End writer.

Arguments Writer : clear implicits.

(** ** Reader *)

Definition kEof : Z := kMaxRecordType + 1.
Definition kBadRecord : Z := kMaxRecordType + 2.

(** What the reporter is told. *)
Inductive Reason :=
  | ReadError | SkipError
  | BadRecordLength | ChecksumMismatch
  | PartialRecordWithoutEnd (n : Z) | MissingStart (n : Z)
  | ErrorInMiddle | UnknownRecordType (t : Z).

(** A sequential file: what is left, and whether the next [Read] fails. *)
Record SequentialFile := { sf_rest : bytes; sf_read_error : bool; sf_skip_error : bool }.

Definition File_Read (f : SequentialFile) (n : Z) : SequentialFile * bytes * bool :=
  if sf_read_error f then (f, [], false)
  else ({| sf_rest := skip n (sf_rest f); sf_read_error := sf_read_error f;
           sf_skip_error := sf_skip_error f |}, first n (sf_rest f), true).

Definition File_Skip (f : SequentialFile) (n : Z) : SequentialFile * bool :=
  if sf_skip_error f then (f, false)
  else ({| sf_rest := skip n (sf_rest f); sf_read_error := sf_read_error f;
           sf_skip_error := sf_skip_error f |}, true).

Record Reader := {
  file_ : SequentialFile;
  reporter_ : bool;            (** a reporter was given *)
  checksum_ : bool;
  buffer_ : bytes;
  eof_ : bool;
  last_record_offset_ : Z;
  end_of_buffer_offset_ : Z;
  initial_offset_ : Z;
  resyncing_ : bool;
  reports_ : list (Z * Reason)   (** the calls of [reporter_->Corruption] *)
}.

Definition NewReader (file : SequentialFile) (reporter checksum : bool) (initial_offset : Z) : Reader :=
  {| file_ := file; reporter_ := reporter; checksum_ := checksum; buffer_ := [];
     eof_ := false; last_record_offset_ := 0; end_of_buffer_offset_ := 0;
     initial_offset_ := initial_offset; resyncing_ := initial_offset >? 0; reports_ := [] |}.

Definition set_buffer (b : bytes) (r : Reader) : Reader :=
  {| file_ := file_ r; reporter_ := reporter_ r; checksum_ := checksum_ r; buffer_ := b;
     eof_ := eof_ r; last_record_offset_ := last_record_offset_ r;
     end_of_buffer_offset_ := end_of_buffer_offset_ r; initial_offset_ := initial_offset_ r;
     resyncing_ := resyncing_ r; reports_ := reports_ r |}.

Definition set_resyncing (b : bool) (r : Reader) : Reader :=
  {| file_ := file_ r; reporter_ := reporter_ r; checksum_ := checksum_ r; buffer_ := buffer_ r;
     eof_ := eof_ r; last_record_offset_ := last_record_offset_ r;
     end_of_buffer_offset_ := end_of_buffer_offset_ r; initial_offset_ := initial_offset_ r;
     resyncing_ := b; reports_ := reports_ r |}.

Definition set_last_record_offset (o : Z) (r : Reader) : Reader :=
  {| file_ := file_ r; reporter_ := reporter_ r; checksum_ := checksum_ r; buffer_ := buffer_ r;
     eof_ := eof_ r; last_record_offset_ := o;
     end_of_buffer_offset_ := end_of_buffer_offset_ r; initial_offset_ := initial_offset_ r;
     resyncing_ := resyncing_ r; reports_ := reports_ r |}.

(** [file_], [buffer_], [eof_] and [end_of_buffer_offset_] after an access to
    the file. *)
Definition set_file (f : SequentialFile) (b : bytes) (e : bool) (o : Z) (r : Reader) : Reader :=
  {| file_ := f; reporter_ := reporter_ r; checksum_ := checksum_ r; buffer_ := b;
     eof_ := e; last_record_offset_ := last_record_offset_ r;
     end_of_buffer_offset_ := o; initial_offset_ := initial_offset_ r;
     resyncing_ := resyncing_ r; reports_ := reports_ r |}.

Definition ReportDrop (nbytes : Z) (reason : Reason) (r : Reader) : Reader :=
  if reporter_ r &&
     (u64 (end_of_buffer_offset_ r - len (buffer_ r) - nbytes) >=? initial_offset_ r)
  then
    {| file_ := file_ r; reporter_ := reporter_ r; checksum_ := checksum_ r; buffer_ := buffer_ r;
       eof_ := eof_ r; last_record_offset_ := last_record_offset_ r;
       end_of_buffer_offset_ := end_of_buffer_offset_ r; initial_offset_ := initial_offset_ r;
       resyncing_ := resyncing_ r; reports_ := reports_ r ++ [(nbytes, reason)] |}
  else r.

Definition ReportCorruption := ReportDrop.

(** Returns whether the skip succeeded. *)
Definition SkipToInitialBlock (r : Reader) : Reader * bool :=
  let offset_in_block := initial_offset_ r `mod` kBlockSize in
  let block_start_location := initial_offset_ r - offset_in_block in
  let block_start_location :=
    if offset_in_block >? kBlockSize - 6 then u64 (block_start_location + kBlockSize)
    else block_start_location in
  let r := set_file (file_ r) (buffer_ r) (eof_ r) block_start_location r in
  if block_start_location >? 0 then
    let '(f, ok) := File_Skip (file_ r) block_start_location in
    let r := set_file f (buffer_ r) (eof_ r) (end_of_buffer_offset_ r) r in
    if ok then (r, true) else (ReportDrop block_start_location SkipError r, false)
  else (r, true).

(** The part of the [while (true)] of [ReadPhysicalRecord] after the buffer is
    known to hold a header: the record type and the new [*result]. *)
Definition ParsePhysicalRecord (result : bytes) (r : Reader) : Z * bytes * Reader :=
  let header := buffer_ r in
  let a := Z.land (at_ header 4) 255 in
  let b := Z.land (at_ header 5) 255 in
  let type := u32 (i8 (at_ header 6)) in
  let length := Z.lor a (Z.shiftl b 8) in
  if kHeaderSize + length >? len (buffer_ r) then
    let drop_size := len (buffer_ r) in
    let r := set_buffer [] r in
    if negb (eof_ r) then (kBadRecord, result, ReportCorruption drop_size BadRecordLength r)
    else (kEof, result, r)
  else if (type =? kZeroType) && (length =? 0) then
    (kBadRecord, result, set_buffer [] r)
  else
    let bad_crc :=
      if checksum_ r then
        let expected_crc := Unmask (DecodeFixed32 header) in
        let actual_crc := Value (slice header 6 (1 + length)) in
        negb (actual_crc =? expected_crc)
      else false in
    if bad_crc then
      let drop_size := len (buffer_ r) in
      (kBadRecord, result, ReportCorruption drop_size ChecksumMismatch (set_buffer [] r))
    else
      let r := set_buffer (skip (kHeaderSize + length) (buffer_ r)) r in
      if u64 (end_of_buffer_offset_ r - len (buffer_ r) - kHeaderSize - length) <? initial_offset_ r
      then (kBadRecord, [], r)
      else (type, slice header kHeaderSize length, r).

(** [ReadPhysicalRecord]: a refill makes the next turn return or parse, so two
    turns suffice; [None] is out of fuel. *)
Fixpoint ReadPhysicalRecord_loop (fuel : nat) (result : bytes) (r : Reader)
    : option (Z * bytes * Reader) :=
  match fuel with
  | O => None
  | S fuel' =>
      if len (buffer_ r) <? kHeaderSize then
        if negb (eof_ r) then
          let '(f, buf, ok) := File_Read (file_ r) kBlockSize in
          let o := end_of_buffer_offset_ r + len buf in
          if negb ok then
            let r := ReportDrop kBlockSize ReadError (set_file f [] (eof_ r) o r) in
            Some (kEof, result, set_file (file_ r) (buffer_ r) true (end_of_buffer_offset_ r) r)
          else
            let e := if len buf <? kBlockSize then true else eof_ r in
            ReadPhysicalRecord_loop fuel' result (set_file f buf e o r)
        else Some (kEof, result, set_buffer [] r)
      else Some (ParsePhysicalRecord result r)
  end.

Definition ReadPhysicalRecord (result : bytes) (r : Reader) : option (Z * bytes * Reader) :=
  ReadPhysicalRecord_loop 3 result r.

(** The locals of [ReadRecord]'s loop. *)
Record ReadState := {
  rs_fragment : bytes;
  rs_scratch : bytes;
  rs_in_fragmented_record : bool;
  rs_prospective : Z
}.

(** What one turn of the loop does. *)
Inductive TurnResult :=
  | Return (found : bool) (record : bytes) (r : Reader)
  | Continue (st : ReadState) (r : Reader).

Definition ReadRecord_turn (record_type : Z) (fragment : bytes) (st : ReadState) (r : Reader) : TurnResult :=
  let physical_record_offset :=
    u64 (end_of_buffer_offset_ r - len (buffer_ r) - kHeaderSize - len fragment) in
  let st := {| rs_fragment := fragment; rs_scratch := rs_scratch st;
               rs_in_fragmented_record := rs_in_fragmented_record st;
               rs_prospective := rs_prospective st |} in
  let restart scratch inf pro :=
    {| rs_fragment := fragment; rs_scratch := scratch;
       rs_in_fragmented_record := inf; rs_prospective := pro |} in
  if resyncing_ r && (record_type =? kMiddleType) then Continue st r
  else if resyncing_ r && (record_type =? kLastType) then Continue st (set_resyncing false r)
  else
    let r := set_resyncing false r in
    let scratch := rs_scratch st in
    let inf := rs_in_fragmented_record st in
    if record_type =? kFullType then
      let r := if inf && negb (len scratch =? 0)
               then ReportCorruption (len scratch) (PartialRecordWithoutEnd 1) r else r in
      Return true fragment (set_last_record_offset physical_record_offset r)
    else if record_type =? kFirstType then
      let r := if inf && negb (len scratch =? 0)
               then ReportCorruption (len scratch) (PartialRecordWithoutEnd 2) r else r in
      Continue (restart fragment true physical_record_offset) r
    else if record_type =? kMiddleType then
      if negb inf then Continue st (ReportCorruption (len fragment) (MissingStart 1) r)
      else Continue (restart (scratch ++ fragment) inf (rs_prospective st)) r
    else if record_type =? kLastType then
      if negb inf then Continue st (ReportCorruption (len fragment) (MissingStart 2) r)
      else Return true (scratch ++ fragment) (set_last_record_offset (rs_prospective st) r)
    else if record_type =? kEof then Return false [] r
    else if record_type =? kBadRecord then
      if inf then
        Continue (restart [] false (rs_prospective st))
          (ReportCorruption (len scratch) ErrorInMiddle r)
      else Continue st r
    else
      Continue (restart [] false (rs_prospective st))
        (ReportCorruption (len fragment + if inf then len scratch else 0)
           (UnknownRecordType record_type) r).

(** [while (true)]; [None] is out of fuel. *)
Fixpoint ReadRecord_loop (fuel : nat) (st : ReadState) (r : Reader) : option (bool * bytes * Reader) :=
  match fuel with
  | O => None
  | S fuel' =>
      match ReadPhysicalRecord (rs_fragment st) r with
      | None => None
      | Some (record_type, fragment, r) =>
          match ReadRecord_turn record_type fragment st r with
          | Return found record r => Some (found, record, r)
          | Continue st r => ReadRecord_loop fuel' st r
          end
      end
  end.

Definition ReadState_init : ReadState :=
  {| rs_fragment := []; rs_scratch := []; rs_in_fragmented_record := false; rs_prospective := 0 |}.

Definition ReadRecord (fuel : nat) (r : Reader) : option (bool * bytes * Reader) :=
  let '(r, ok) :=
    if last_record_offset_ r <? initial_offset_ r then SkipToInitialBlock r else (r, true) in
  if ok then ReadRecord_loop fuel ReadState_init r else Some (false, [], r).

(** Reading until [ReadRecord] returns false. *)
Fixpoint ReadAll (n fuel : nat) (r : Reader) : option (list bytes * Reader) :=
  match n with
  | O => None
  | S n' =>
      match ReadRecord fuel r with
      | None => None
      | Some (false, _, r) => Some ([], r)
      | Some (true, record, r) =>
          match ReadAll n' fuel r with
          | None => None
          | Some (l, r) => Some (record :: l, r)
          end
      end
  end.

(** ** Lemmas: the bytes of a log *)

(** A file that never fails and holds what was appended. *)
Definition mem_Append (f s : bytes) : bytes * bool := (f ++ s, true).
Definition mem_Flush (f : bytes) : bytes * bool := (f, true).

(** The trailer the writer leaves before the next record, and where it then is. *)
Definition pad (o : Z) : bytes :=
  if kBlockSize - o <? kHeaderSize then first (kBlockSize - o) [0; 0; 0; 0; 0; 0] else [].
Definition off1 (o : Z) : Z := if kBlockSize - o <? kHeaderSize then 0 else o.

Lemma SwitchBlock_mem w :
  block_offset_ w ≤ kBlockSize →
  SwitchBlock mem_Append w =
  {| dest_ := dest_ w ++ pad (block_offset_ w); block_offset_ := off1 (block_offset_ w) |}.
Proof.
  intros Hw. unfold SwitchBlock, pad, off1. destruct w as [d o]. simpl in *.
  case_if; [|by rewrite app_nil_r]. f_equal. rewrite Z.gtb_ltb.
  destruct (Z.ltb_spec 0 (kBlockSize - o)); [done|].
  replace (kBlockSize - o) with 0 by lia. by rewrite app_nil_r.
Qed.

Lemma Emit_mem w t p :
  EmitPhysicalRecord mem_Append mem_Flush w t p =
  ({| dest_ := dest_ w ++ header t p ++ p;
      block_offset_ := block_offset_ w + kHeaderSize + len p |}, true).
Proof. unfold EmitPhysicalRecord. simpl. by rewrite <- app_assoc. Qed.

Lemma len_header t p : len (header t p) = kHeaderSize.
Proof. unfold header. rewrite len_app, len_EncodeFixed32. done. Qed.

Lemma len_pad o :
  0 ≤ o ≤ kBlockSize → len (pad o) = if kBlockSize - o <? kHeaderSize then kBlockSize - o else 0.
Proof.
  intros Ho. unfold pad. case_if; [|done]. apply len_first.
  unfold kHeaderSize in *. change (len [0; 0; 0; 0; 0; 0]) with 6. lia.
Qed.

Lemma off1_bound o : 0 ≤ o ≤ kBlockSize → 0 ≤ off1 o ≤ kBlockSize - kHeaderSize.
Proof. intros. unfold off1. case_if; unfold kBlockSize, kHeaderSize in *; lia. Qed.

(** The header alone gives the length, also when the payload is cut off. *)
Lemma header_length t p rest :
  len p ≤ kBlockSize →
  let h := header t p ++ rest in
  Z.lor (Z.land (at_ h 4) 255) (Z.shiftl (Z.land (at_ h 5) 255) 8) = len p.
Proof.
  intros Hl h. pose proof (len_nonneg p). unfold kBlockSize in Hl.
  assert (∀ i, 4 ≤ i → at_ h i = at_ (u8 (Z.land (len p) 255) :: u8 (Z.shiftr (len p) 8) :: u8 t :: rest) (i - 4)) as Hat.
  { intros i Hi. unfold h, header. rewrite <- app_assoc, at_app_r; rewrite len_EncodeFixed32; done || lia. }
  rewrite !Hat by lia. change (at_ _ (4 - 4)) with (u8 (Z.land (len p) 255)).
  change (at_ _ (5 - 4)) with (u8 (Z.shiftr (len p) 8)).
  rewrite Z.shiftr_div_pow2 by lia. change (2 ^ 8) with 256.
  rewrite !byte_of. rewrite (u8_id (len p `mod` 256)) by (unfold byte_ok; apply Z.mod_pos_bound; lia).
  rewrite (u8_id (len p / 256)) by (unfold byte_ok; Z.div_mod_to_equations; lia).
  rewrite Z.mod_mod, (Z.mod_small (len p / 256)) by (Z.div_mod_to_equations; lia).
  rewrite lor_shiftl_add by (try apply Z.mod_pos_bound; lia).
  Z.div_mod_to_equations; lia.
Qed.

(** Reading the header the writer wrote. *)
Lemma header_parse t p rest :
  1 ≤ t ≤ 4 → bytes_ok p → len p ≤ kBlockSize →
  let h := header t p ++ p ++ rest in
  Z.lor (Z.land (at_ h 4) 255) (Z.shiftl (Z.land (at_ h 5) 255) 8) = len p ∧
  u32 (i8 (at_ h 6)) = t ∧
  Unmask (DecodeFixed32 h) = Value (slice h 6 (1 + len p)) ∧
  slice h kHeaderSize (len p) = p ∧ skip (kHeaderSize + len p) h = rest.
Proof.
  intros Ht Hp Hl h. pose proof (len_nonneg p). unfold kBlockSize in Hl.
  assert (u8 t = t) as Hut by (apply u8_id; unfold byte_ok; lia).
  assert (h = EncodeFixed32 (Mask (Extend (type_crc t) p)) ++
    u8 (Z.land (len p) 255) :: u8 (Z.shiftr (len p) 8) :: t :: p ++ rest) as Eh.
  { unfold h, header. rewrite Hut, <- app_assoc. done. }
  assert (∀ i, 4 ≤ i → at_ h i = at_ (u8 (Z.land (len p) 255) :: u8 (Z.shiftr (len p) 8) :: t :: p ++ rest) (i - 4)) as Hat.
  { intros i Hi. rewrite Eh, at_app_r; rewrite len_EncodeFixed32; done || lia. }
  split; [|split; [|split; [|split]]].
  - apply (header_length t p (p ++ rest)). unfold kBlockSize. lia.
  - rewrite Hat by lia. change (at_ _ (6 - 4)) with t. unfold i8. rewrite Z.mod_small, Z.add_simpl_r by lia. apply u32_id. unfold u32_ok. lia.
  - assert (bytes_ok [t]) as Hbt by (repeat constructor; lia).
    assert (Extend (type_crc t) p = Value (t :: p)) as Hcrc
      by (unfold type_crc; rewrite Hut; by apply (Extend_Value [t] p)).
    rewrite Hcrc in Eh. rewrite Eh, DecodeFixed32_app by apply u32_range.
    rewrite (proj1 (Unmask_Mask _ (Value_ok (t :: p)
      ltac:(constructor; [unfold byte_ok; lia|done])))). f_equal. clear Eh Hat.
    replace (EncodeFixed32 (Mask (Value (t :: p))) ++
      u8 (Z.land (len p) 255) :: u8 (Z.shiftr (len p) 8) :: t :: p ++ rest)
    with ((EncodeFixed32 (Mask (Value (t :: p))) ++ [u8 (Z.land (len p) 255); u8 (Z.shiftr (len p) 8)])
      ++ (t :: p) ++ rest) by (by rewrite <- app_assoc).
    symmetry. apply slice_app; [by rewrite len_app, len_EncodeFixed32|rewrite len_cons; lia].
  - apply slice_app; [by rewrite len_header|done].
  - unfold h. rewrite app_assoc, skip_app; [done|]. by rewrite len_app, len_header.
Qed.

(** ** Lemmas: the reader on a stream *)

Lemma block_size : kBlockSize = 32768.
Proof. done. Qed.

Lemma header_size : kHeaderSize = 7.
Proof. done. Qed.

#[local] Opaque kBlockSize kHeaderSize.

(** [lia] with the two constants. *)
Ltac blia := pose proof block_size; pose proof header_size; lia.

(** The reader has [T] left to read and is at offset [o] of a block: either the
    last block was short and all of [T] is buffered, or the buffer holds the
    rest of a full block. A reader that has read nothing is at the end of the
    block before the first. *)
Record at_stream (r : Reader) (o : Z) (T : bytes) : Prop := {
  as_rest : buffer_ r ++ sf_rest (file_ r) = T;
  as_range : 0 ≤ o ≤ kBlockSize;
  as_file : sf_read_error (file_ r) = false;
  as_offset : initial_offset_ r = 0 ∧ 0 ≤ last_record_offset_ r;
  as_sync : resyncing_ r = false;
  as_eof : (eof_ r = true ∧ sf_rest (file_ r) = [] ∧ o + len T < kBlockSize) ∨
           (eof_ r = false ∧ len (buffer_ r) = kBlockSize - o)
}.

(** Refilling at the end of a block drops the trailer and loads the next one. *)
Lemma read_refill res r o trailer T n :
  at_stream r o (trailer ++ T) → len trailer = kBlockSize - o → len trailer < kHeaderSize →
  ∃ r', ReadPhysicalRecord_loop (S n) res r = ReadPhysicalRecord_loop n res r' ∧
    at_stream r' 0 T ∧ reports_ r' = reports_ r.
Proof.
  intros [Hr Ho Hf Hi Hs He] Hp Hlt.
  destruct He as [(_ & _ & He)|[He Hb]].
  { rewrite len_app in He. pose proof (len_nonneg T). lia. }
  apply app_inj_1 in Hr as [Hbuf Hrest]; [|unfold len in *; lia].
  cbn [ReadPhysicalRecord_loop]. rewrite (proj2 (Z.ltb_lt _ _)) by lia. rewrite He.
  unfold File_Read. rewrite Hf. cbn [negb].
  eexists. split; [reflexivity|]. split; [|done].
  rewrite Hrest. constructor; cbn; try done; try apply first_skip; try blia.
  - pose proof (len_nonneg T). pose proof block_size.
    destruct (Z.le_gt_cases kBlockSize (len T)) as [Hge|Hlt'].
    + rewrite len_first, Z.ltb_irrefl by lia. right. split; [done|]. lia.
    + left. unfold first, skip. rewrite take_ge, drop_ge by (unfold len in *; lia).
      rewrite (proj2 (Z.ltb_lt _ _)) by done. split; [done|]. split; [done|lia].
Qed.

(** A whole record at the front of the buffer. *)
Lemma parse_record res r o t p T :
  at_stream r o (header t p ++ p ++ T) → 1 ≤ t ≤ 4 → bytes_ok p →
  o + kHeaderSize + len p ≤ kBlockSize →
  ∃ r', (∀ n, ReadPhysicalRecord_loop (S n) res r = Some (t, p, r')) ∧
    at_stream r' (o + kHeaderSize + len p) T ∧ reports_ r' = reports_ r.
Proof.
  intros [Hr Ho Hf [Hi Hlast] Hs He] Ht Hp Hfit. pose proof (len_nonneg p).
  pose proof (len_nonneg T) as HT.
  assert (∃ B, buffer_ r = header t p ++ p ++ B ∧ B ++ sf_rest (file_ r) = T) as (B & HB & HT').
  { destruct He as [(_ & Hrest & _)|[_ Hb]].
    - exists T. rewrite Hrest, !app_nil_r in *. by rewrite <- Hr.
    - exists (skip (kHeaderSize + len p) (buffer_ r)).
      assert (first (kHeaderSize + len p) (buffer_ r) = header t p ++ p) as Hfst.
      { apply (f_equal (first (kHeaderSize + len p))) in Hr. rewrite app_assoc in Hr.
        rewrite (first_app (header t p ++ p)) in Hr by (by rewrite len_app, len_header).
        rewrite <- Hr. unfold first. rewrite take_app_le; [done|].
        unfold len in *. blia. }
      rewrite app_assoc, <- Hfst, first_skip. split; [done|].
      apply (app_inv_head (header t p ++ p)). rewrite app_assoc, <- Hfst, first_skip, Hr.
      by rewrite Hfst, app_assoc. }
  assert (kHeaderSize + len p ≤ len (buffer_ r)) as Hlen
    by (rewrite HB, !len_app, len_header; pose proof (len_nonneg B); lia).
  assert (len p ≤ kBlockSize) by blia.
  destruct (header_parse t p B Ht Hp ltac:(done)) as (Hl & Hty & Hcrc & Hsl & Hsk).
  rewrite <- HB in *.
  exists (set_buffer B r). split; [|split].
  - intros n. cbn [ReadPhysicalRecord_loop].
    rewrite (proj2 (Z.ltb_ge _ kHeaderSize)) by blia. unfold ParsePhysicalRecord.
    rewrite Hl, Hty, Hcrc, Hsl, Hsk, Z.gtb_ltb, (proj2 (Z.ltb_ge _ _)) by lia.
    rewrite (proj2 (Z.eqb_neq t kZeroType)) by (unfold kZeroType; lia). cbn [andb].
    rewrite Z.eqb_refl. cbn [negb]. destruct (checksum_ r); cbn [set_buffer end_of_buffer_offset_ buffer_ initial_offset_];
      rewrite Hi; rewrite (proj2 (Z.ltb_ge _ 0)) by apply u64_range; done.
  - split; cbn; try done.
    + blia.
    + rewrite <- HT' in He. destruct He as [(He & Hrest & Hlt)|[He Hb]]; [left|right].
      * rewrite Hrest, app_nil_r in *. rewrite !len_app, len_header in Hlt. rewrite HT' in *.
        split; [done|]. split; [done|]. lia.
      * split; [done|]. rewrite HB, !len_app, len_header in Hb. lia.
  - done.
Qed.

(** The next physical record, across a trailer if there is one. *)
Lemma read_physical res r o t p T :
  at_stream r o (pad o ++ header t p ++ p ++ T) → 1 ≤ t ≤ 4 → bytes_ok p →
  off1 o + kHeaderSize + len p ≤ kBlockSize →
  ∃ r', ReadPhysicalRecord res r = Some (t, p, r') ∧
    at_stream r' (off1 o + kHeaderSize + len p) T ∧ reports_ r' = reports_ r.
Proof.
  intros Hat Ht Hp Hfit. pose proof (len_pad o (as_range _ _ _ Hat)) as Hpad.
  unfold ReadPhysicalRecord, pad, off1 in *.
  destruct (Z.ltb_spec (kBlockSize - o) kHeaderSize).
  - destruct (read_refill res r o _ _ 2 Hat) as (r1 & -> & Hat1 & Hrep); [done|lia|].
    destruct (parse_record res r1 0 t p T Hat1 Ht Hp) as (r2 & Hr2 & Hat2 & Hrep2); [lia|].
    exists r2. rewrite Hr2. split; [done|]. split; [done|congruence].
  - destruct (parse_record res r o t p T Hat Ht Hp) as (r2 & Hr2 & Hat2 & Hrep2); [lia|].
    exists r2. by rewrite Hr2.
Qed.

(** A stream cut anywhere before the end of the next record reads as the end of
    the file, with nothing reported. *)
Lemma read_torn_here res r o t p S U n :
  at_stream r o S → S ++ U = header t p ++ p → U ≠ [] →
  o + kHeaderSize + len p ≤ kBlockSize →
  ∃ r', ReadPhysicalRecord_loop (Datatypes.S n) res r = Some (kEof, res, r') ∧
    reports_ r' = reports_ r ∧ resyncing_ r' = false.
Proof.
  intros [Hr Ho Hf Hi Hs He] HSU HU Hfit.
  assert (len S < kHeaderSize + len p) as HS.
  { apply (f_equal len) in HSU. rewrite !len_app, len_header in HSU.
    destruct U as [|x U]; [done|]. rewrite len_cons in HSU. pose proof (len_nonneg U). lia. }
  destruct He as [(He & Hrest & Hlt)|[He Hb]].
  2: { rewrite <- Hr, len_app in HS. pose proof (len_nonneg (sf_rest (file_ r))). lia. }
  rewrite Hrest, app_nil_r in Hr. exists (set_buffer [] r). split; [|done].
  cbn [ReadPhysicalRecord_loop]. rewrite Hr, He.
  destruct (Z.ltb_spec (len S) kHeaderSize) as [Hh|Hh]; [done|].
  assert (∃ q, S = header t p ++ q) as [q Hq].
  { exists (skip kHeaderSize S). rewrite <- (first_skip kHeaderSize S) at 1. f_equal.
    apply (f_equal (first kHeaderSize)) in HSU.
    rewrite (first_app (header t p)) in HSU by (by rewrite len_header).
    rewrite <- HSU. unfold first. rewrite take_app_le; [done|]. unfold len in Hh. lia. }
  unfold ParsePhysicalRecord. rewrite Hr, Hq. pose proof (len_nonneg p).
  rewrite header_length by blia. rewrite <- Hq, Z.gtb_ltb, (proj2 (Z.ltb_lt _ _)) by lia.
  cbn. by rewrite He.
Qed.

Lemma read_torn res r o t p S U :
  at_stream r o S → S ++ U = pad o ++ header t p ++ p → U ≠ [] →
  off1 o + kHeaderSize + len p ≤ kBlockSize →
  ∃ r', ReadPhysicalRecord res r = Some (kEof, res, r') ∧
    reports_ r' = reports_ r ∧ resyncing_ r' = false.
Proof.
  intros Hat HSU HU Hfit. pose proof (len_pad o (as_range _ _ _ Hat)) as Hpad.
  unfold ReadPhysicalRecord, pad, off1 in *.
  destruct (Z.ltb_spec (kBlockSize - o) kHeaderSize) as [Hsw|Hsw].
  2: { exact (read_torn_here res r o t p S U 2 Hat HSU HU Hfit). }
  destruct (as_eof _ _ _ Hat) as [(He & Hrest & Hlt)|[He Hb]].
  - pose proof (as_rest _ _ _ Hat) as Hr. rewrite Hrest, app_nil_r in Hr.
    exists (set_buffer [] r). cbn [ReadPhysicalRecord_loop].
    rewrite Hr, (proj2 (Z.ltb_lt _ _)), He by lia. cbn [negb]. split; [done|].
    split; [done|]. apply Hat.
  - pose proof (as_rest _ _ _ Hat) as Hr. subst S. rewrite <- app_assoc in HSU.
    apply app_inj_1 in HSU as [Hbuf HSU]; [|unfold len in *; lia].
    destruct (read_refill res r o (buffer_ r) (sf_rest (file_ r)) 2) as (r1 & -> & Hat1 & Hrep);
      [done|done|lia|].
    destruct (read_torn_here res r1 0 t p _ U 1 Hat1 HSU HU) as (r2 & Hr2 & ?); [lia|].
    exists r2. rewrite Hr2, <- Hrep. done.
Qed.

(** ** Lemmas: a logical record *)

(** The reader's locals while a record is being assembled: nothing yet
    ([begin]), or the fragments so far. *)
Record assembling (begin : bool) (st : ReadState) : Prop := {
  as_frag : rs_in_fragmented_record st = negb begin;
  as_scratch : begin = true → rs_scratch st = [];
  as_prospective : 0 ≤ rs_prospective st
}.

Lemma at_stream_upd r o T x :
  0 ≤ x → at_stream r o T → at_stream (set_last_record_offset x (set_resyncing false r)) o T.
Proof. intros Hx []. split; naive_solver. Qed.

Lemma at_stream_sync r o T : at_stream r o T → at_stream (set_resyncing false r) o T.
Proof. intros []. by split. Qed.

Lemma turn_end begin st p r o T :
  assembling begin st → at_stream r o T →
  ∃ r', ReadRecord_turn (if begin then kFullType else kLastType) p st r
          = Return true (rs_scratch st ++ p) r' ∧
    at_stream r' o T ∧ reports_ r' = reports_ r.
Proof.
  intros [Hf Hs Hp] Hat. unfold ReadRecord_turn. rewrite (as_sync _ _ _ Hat). cbn [andb].
  destruct begin; cbn in *.
  - rewrite Hs, Hf by done. eexists. split; [done|]. split; [|done].
    apply at_stream_upd; [apply u64_range|done].
  - rewrite Hf. eexists. split; [done|]. split; [|done]. by apply at_stream_upd.
Qed.

Lemma turn_more begin st p r o T :
  assembling begin st → at_stream r o T →
  ∃ st' r', ReadRecord_turn (if begin then kFirstType else kMiddleType) p st r = Continue st' r' ∧
    assembling false st' ∧ rs_scratch st' = rs_scratch st ++ p ∧
    at_stream r' o T ∧ reports_ r' = reports_ r.
Proof.
  intros [Hf Hs Hp] Hat. unfold ReadRecord_turn. rewrite (as_sync _ _ _ Hat). cbn [andb].
  destruct begin; cbn in *; rewrite Hf; cbn.
  - rewrite Hs by done. do 2 eexists. split; [done|]. split; [split; cbn; try done; apply u64_range|].
    split; [done|]. split; [by apply at_stream_sync|done].
  - do 2 eexists. split; [done|]. split; [split; cbn; done|].
    split; [done|]. split; [by apply at_stream_sync|done].
Qed.

(** Reader and writer are at the same place: a reader that is at the end of a
    block and a writer at the start of the next agree. *)
Definition synced (o ow : Z) : Prop := pad o = pad ow ∧ off1 o = off1 ow.

(** What the bytes [E] that one record adds, written from offset [ow] and
    leaving the writer at [o'], mean to the reader. *)
Record decodes (n : nat) (begin : bool) (ow : Z) (E : bytes) (o' : Z) (ptr : bytes) : Prop := {
  dec_off : 0 ≤ o' ≤ kBlockSize;
  dec_nonempty : E ≠ [];
  dec_len : ∃ k, ow + len E = o' + k * kBlockSize;
  dec_whole : ∀ m st r o T, (n ≤ m)%nat → assembling begin st → synced o ow →
    at_stream r o (E ++ T) →
    ∃ r', ReadRecord_loop m st r = Some (true, rs_scratch st ++ ptr, r') ∧
      at_stream r' o' T ∧ reports_ r' = reports_ r;
  dec_torn : ∀ m st r o S U, (n ≤ m)%nat → assembling begin st → synced o ow →
    at_stream r o S → S ++ U = E → U ≠ [] →
    ∃ r', ReadRecord_loop m st r = Some (false, [], r') ∧ reports_ r' = reports_ r
}.

(** Reaching the end of the file ends the loop without a report. *)
Lemma loop_eof m begin st r r1 :
  assembling begin st → ReadPhysicalRecord (rs_fragment st) r = Some (kEof, rs_fragment st, r1) →
  resyncing_ r1 = false → reports_ r1 = reports_ r →
  ∃ r', ReadRecord_loop (S m) st r = Some (false, [], r') ∧ reports_ r' = reports_ r.
Proof.
  intros _ Hr Hs Hrep. cbn [ReadRecord_loop]. rewrite Hr. unfold ReadRecord_turn. rewrite Hs. cbn.
  eexists. split; [done|]. done.
Qed.

Section fragment.

Context (ow : Z) (begin : bool) (p : bytes) (t : Z).
Context (Ht : 1 ≤ t ≤ 4) (Hp : bytes_ok p) (Hfit : off1 ow + kHeaderSize + len p ≤ kBlockSize).
Context (How : 0 ≤ ow ≤ kBlockSize).

Let E1 := pad ow ++ header t p ++ p.

Lemma E1_nonempty X : E1 ++ X ≠ [].
Proof.
  intros H. apply (f_equal len) in H. unfold E1 in H. rewrite !len_app, len_header in H.
  pose proof (len_nonneg (pad ow)). pose proof (len_nonneg p). pose proof (len_nonneg X).
  change (len []) with 0 in H. blia.
Qed.

Lemma E1_len : ∃ k, ow + len E1 = off1 ow + kHeaderSize + len p + k * kBlockSize.
Proof.
  unfold E1. rewrite !len_app, len_header, (len_pad ow How). unfold off1.
  case_if; [exists 1|exists 0]; lia.
Qed.

(** The fragment that ends a record. *)
Lemma decodes_end :
  t = (if begin then kFullType else kLastType) →
  decodes 1 begin ow E1 (off1 ow + kHeaderSize + len p) p.
Proof.
  intros Et. pose proof (len_nonneg p). pose proof (off1_bound ow How). split.
  - blia.
  - rewrite <- (app_nil_r E1). apply E1_nonempty.
  - apply E1_len.
  - intros [|m] st r o T Hm Hst [Hpad Hoff] Hat; [lia|]. unfold E1 in Hat. rewrite <- Hpad in Hat.
    rewrite <- !app_assoc in Hat. rewrite <- Hoff in Hfit |- *.
    destruct (read_physical (rs_fragment st) r o t p T Hat Ht Hp Hfit) as (r1 & Hr1 & Hat1 & Hrep1).
    destruct (turn_end begin st p r1 _ T Hst Hat1) as (r2 & Hr2 & Hat2 & Hrep2).
    exists r2. cbn [ReadRecord_loop]. rewrite Hr1, Et, Hr2. split; [done|]. split; [done|congruence].
  - intros [|m] st r o S U Hm Hst [Hpad Hoff] Hat HSU HU; [lia|]. unfold E1 in HSU.
    rewrite <- Hpad in HSU. rewrite <- Hoff in Hfit.
    destruct (read_torn (rs_fragment st) r o t p S U Hat HSU HU Hfit) as (r1 & Hr1 & Hrep1 & Hs1).
    by apply (loop_eof m begin st r r1).
Qed.

(** A fragment that is followed by others. *)
Lemma decodes_more n E2 o' q :
  t = (if begin then kFirstType else kMiddleType) →
  decodes n false (off1 ow + kHeaderSize + len p) E2 o' q →
  decodes (S n) begin ow (E1 ++ E2) o' (p ++ q).
Proof.
  intros Et Hd. split.
  - apply Hd.
  - apply E1_nonempty.
  - destruct E1_len as [k Hk]. destruct (dec_len _ _ _ _ _ _ Hd) as [k' Hk'].
    exists (k + k'). rewrite len_app. lia.
  - intros [|m] st r o T Hm Hst [Hpad Hoff] Hat; [lia|]. unfold E1 in Hat. rewrite <- Hpad in Hat.
    rewrite <- !app_assoc in Hat. rewrite <- Hoff in Hfit, Hd.
    destruct (read_physical (rs_fragment st) r o t p _ Hat Ht Hp Hfit) as (r1 & Hr1 & Hat1 & Hrep1).
    destruct (turn_more begin st p r1 _ _ Hst Hat1) as (st2 & r2 & Hr2 & Hst2 & Hsc & Hat2 & Hrep2).
    destruct (dec_whole _ _ _ _ _ _ Hd m st2 r2 _ T ltac:(lia) Hst2 (conj eq_refl eq_refl) Hat2)
      as (r3 & Hr3 & Hat3 & Hrep3).
    exists r3. cbn [ReadRecord_loop]. rewrite Hr1, Et, Hr2, Hr3, Hsc, <- app_assoc.
    split; [done|]. split; [done|congruence].
  - intros [|m] st r o S U Hm Hst [Hpad Hoff] Hat HSU HU; [lia|]. unfold E1 in HSU.
    rewrite <- Hpad in HSU. rewrite <- Hoff in Hfit, Hd.
    apply app_cut in HSU as [(V & HV & HSV)|(S2 & ES & HS2)].
    + destruct (read_torn (rs_fragment st) r o t p S V Hat HSV HV Hfit) as (r1 & Hr1 & Hrep1 & Hs1).
      by apply (loop_eof m begin st r r1).
    + rewrite ES, <- !app_assoc in Hat.
      destruct (read_physical (rs_fragment st) r o t p _ Hat Ht Hp Hfit) as (r1 & Hr1 & Hat1 & Hrep1).
      destruct (turn_more begin st p r1 _ _ Hst Hat1) as (st2 & r2 & Hr2 & Hst2 & Hsc & Hat2 & Hrep2).
      destruct (dec_torn _ _ _ _ _ _ Hd m st2 r2 _ S2 U ltac:(lia) Hst2 (conj eq_refl eq_refl) Hat2 HS2 HU)
        as (r3 & Hr3 & Hrep3).
      exists r3. cbn [ReadRecord_loop]. rewrite Hr1, Et, Hr2, Hr3. split; [done|congruence].
Qed.

End fragment.

Lemma decodes_mono n n' begin ow E o' ptr :
  (n ≤ n')%nat → decodes n begin ow E o' ptr → decodes n' begin ow E o' ptr.
Proof.
  intros Hn []. split; [done..| |].
  - intros m st r o T Hm. apply dec_whole0. lia.
  - intros m st r o S U Hm. apply dec_torn0. lia.
Qed.

(** How many turns the writer needs: one byte a turn at least, but for a first
    turn that finds no room for any. *)
Definition turns (ow : Z) (ptr : bytes) : nat :=
  length ptr + (if (off1 ow =? kBlockSize - kHeaderSize)%Z then 2 else 1).

Lemma turns_next ow ptr avail :
  0 ≤ ow ≤ kBlockSize → avail = kBlockSize - off1 ow - kHeaderSize → avail ≤ len ptr →
  len ptr ≠ avail → (S (turns (off1 ow + kHeaderSize + avail) (skip avail ptr)) ≤ turns ow ptr)%nat.
Proof.
  intros Ho Ha Hle Hne. pose proof (off1_bound ow Ho).
  assert (off1 (off1 ow + kHeaderSize + avail) = 0) as E0.
  { unfold off1 at 1. rewrite (proj2 (Z.ltb_lt _ _)); [done|]. blia. }
  unfold turns. rewrite E0, (proj2 (Z.eqb_neq 0 _)) by blia.
  unfold skip. rewrite length_drop. unfold len in *.
  destruct (Z.eqb_spec (off1 ow) (kBlockSize - kHeaderSize)); lia.
Qed.

Lemma write_record n w ptr begin :
  bytes_ok ptr → 0 ≤ block_offset_ w ≤ kBlockSize → (turns (block_offset_ w) ptr ≤ n)%nat →
  ∃ E o', AddRecord_loop mem_Append mem_Flush n w ptr begin
            = Some ({| dest_ := dest_ w ++ E; block_offset_ := o' |}, true) ∧
    decodes n begin (block_offset_ w) E o' ptr.
Proof.
  revert w ptr begin. induction n as [|n IH]; intros [f ow] ptr begin Hok How Hn; simpl in How, Hn.
  { unfold turns in Hn. destruct (_ =? _)%Z; lia. }
  pose proof (off1_bound ow How) as Ho1. cbn [AddRecord_loop].
  rewrite SwitchBlock_mem by apply How. cbn [block_offset_ dest_].
  remember (kBlockSize - off1 ow - kHeaderSize) as avail eqn:Ea.
  pose proof (len_nonneg ptr) as Hl0.
  destruct (Z.le_gt_cases (len ptr) avail) as [Hle|Hgt].
  - replace (if len ptr <? avail then len ptr else avail) with (len ptr) by (case_if; lia).
    rewrite Z.eqb_refl, Emit_mem, (first_all ptr) by done. cbn [dest_ block_offset_].
    assert (skip (len ptr) ptr = []) as -> by (rewrite <- (app_nil_r ptr) at 2; by apply skip_app).
    eexists _, _. split; [by rewrite <- app_assoc|].
    apply (decodes_mono 1); [lia|].
    pose proof (decodes_end ow begin ptr (if begin then kFullType else kLastType)) as D.
    rewrite andb_true_r. destruct begin; apply D; done || blia.
  - rewrite (proj2 (Z.ltb_ge _ _)), (proj2 (Z.eqb_neq _ _)), Emit_mem by lia. cbn [dest_ block_offset_]. rewrite len_first, Z.gtb_ltb by lia.
    rewrite (proj2 (Z.ltb_lt 0 _)) by (rewrite len_skip; lia). cbn [andb].
    rewrite !andb_false_r.
    pose proof (turns_next ow ptr avail How Ea ltac:(lia) ltac:(lia)) as Hdec.
    edestruct (IH {| dest_ := (f ++ pad ow) ++
        header (if begin then kFirstType else kMiddleType) (first avail ptr) ++ first avail ptr;
        block_offset_ := off1 ow + kHeaderSize + avail |} (skip avail ptr) false)
      as (E & o' & HE & HD); [by apply bytes_ok_skip|cbn; blia|cbn; lia|].
    replace (if begin then kFirstType else if false then kLastType else kMiddleType)
      with (if begin then kFirstType else kMiddleType) by done.
    rewrite HE. cbn [dest_]. eexists _, _. split.
    { rewrite <- !app_assoc. done. }
    rewrite <- (first_skip avail ptr) at 3. cbn [block_offset_] in *.
    pose proof (decodes_more ow begin (first avail ptr) (if begin then kFirstType else kMiddleType)) as D.
    rewrite len_first in D by lia.
    specialize (D ltac:(destruct begin; unfold kFirstType, kMiddleType; lia) (bytes_ok_first _ _ Hok)
      ltac:(blia) How n E o' (skip avail ptr) eq_refl HD).
    rewrite <- !app_assoc in D. exact D.
Qed.

(** ** Lemmas: a whole log *)

(** Sessions of a log: each opens the file with its length, as
    [log::Writer(dest, dest_length)], and adds its records. *)
Fixpoint WriteSessions (f : bytes) (ls : list (list bytes)) : option bytes :=
  match ls with
  | [] => Some f
  | l :: ls' =>
      match AddRecords mem_Append mem_Flush (NewWriter f (len f)) l with
      | Some (w, true) => WriteSessions (dest_ w) ls'
      | _ => None
      end
  end.

(** [E] is the encoding of [l] from offset [ow], readable with fuel [m]. *)
Inductive encoded (m : nat) : Z → bytes → list bytes → Prop :=
  | encoded_nil ow : encoded m ow [] []
  | encoded_cons n o ow E1 o1 s E2 l :
      (n ≤ m)%nat → synced o ow → decodes n true ow E1 o1 s → encoded m o1 E2 l →
      encoded m o (E1 ++ E2) (s :: l).

#[local] Instance synced_preorder : PreOrder synced.
Proof. split; [done|]. intros a b c [] []. split; congruence. Qed.

Lemma encoded_synced m a b E l : synced a b → encoded m b E l → encoded m a E l.
Proof. intros Hs HE. destruct HE as [|n b ow]; econstructor; [done| |done..]. by transitivity b. Qed.

Lemma ReadAll_S n m r :
  ReadAll (S n) m r =
  match ReadRecord m r with
  | None => None
  | Some (false, _, r) => Some ([], r)
  | Some (true, record, r) =>
      match ReadAll n m r with None => None | Some (l, r) => Some (record :: l, r) end
  end.
Proof. done. Qed.

Lemma read_encoded m ow E l :
  encoded m ow E l → (0 < m)%nat →
  ∀ r o S U, at_stream r o S → synced o ow → S ++ U = E →
  ∃ l' r', ReadAll (Datatypes.S (length l)) m r = Some (l', r') ∧ reports_ r' = reports_ r ∧
    l' `prefix_of` l ∧ (U = [] → l' = l).
Proof.
  intros HE Hm. destruct m as [|m]; [lia|]. clear Hm.
  assert (∀ r o T k, at_stream r o T → ReadRecord k r = ReadRecord_loop k ReadState_init r) as Hrr.
  { intros r o T k Hat. unfold ReadRecord. destruct (as_offset _ _ _ Hat) as [-> ?].
    by rewrite (proj2 (Z.ltb_ge _ _)) by lia. }
  assert (assembling true ReadState_init) as Hini by done.
  induction HE as [ow|n o' ow E1 o1 s E2 l Hn Hsy Hd HE IH];
    intros r o S U Hat Hs HSU; rewrite ReadAll_S, (Hrr _ _ _ _ Hat).
  - destruct S as [|]; [|done]. destruct U as [|]; [|done].
    pose proof (off1_bound o (as_range _ _ _ Hat)).
    destruct (read_torn [] r o kFullType [] [] (pad o ++ header kFullType [] ++ []) Hat)
      as (r1 & Hr1 & Hrep1 & Hs1); [done| |change (len []) with 0; blia|].
    { intros E0. apply (f_equal len) in E0. rewrite !len_app, len_header in E0.
      pose proof (len_nonneg (pad o)). change (len []) with 0 in E0. blia. }
    destruct (loop_eof m true ReadState_init r r1 Hini Hr1 Hs1 Hrep1) as (r2 & -> & Hrep2).
    eexists _, _. split; [done|]. split; [done|]. split; [by exists []|done].
  - pose proof (transitivity Hs Hsy) as Hs'. clear Hs Hsy.
    pose proof HSU as HSU0. apply app_cut in HSU as [(V & HV & HSV)|(S2 & -> & HS2)].
    + destruct (dec_torn _ _ _ _ _ _ Hd (Datatypes.S m) ReadState_init r o S V Hn Hini Hs' Hat HSV HV)
        as (r1 & -> & Hrep1).
      eexists _, _. split; [done|]. split; [done|]. split; [by exists (s :: l)|].
      intros ->. exfalso. apply HV.
      rewrite app_nil_r in HSU0. rewrite <- HSV in HSU0.
      apply (f_equal length) in HSU0. rewrite !length_app in HSU0.
      apply nil_length_inv. lia.
    + destruct (dec_whole _ _ _ _ _ _ Hd (Datatypes.S m) ReadState_init r o S2 Hn Hini Hs' Hat)
        as (r1 & -> & Hat1 & Hrep1).
      destruct (IH r1 o1 S2 U Hat1 (reflexivity o1) HS2) as (l' & r' & Hl' & Hrep' & [k ->] & Hwhole).
      cbn [rs_scratch ReadState_init app length] in *. rewrite Hl'. eexists _, _. split; [done|].
      split; [congruence|]. split; [by exists k|]. intros HU. f_equal. by apply Hwhole.
Qed.

(** Where a session starts agrees with where the one before stopped. *)
Lemma synced_reopen o L k :
  0 ≤ o ≤ kBlockSize → L = o + k * kBlockSize → synced o (L `mod` kBlockSize).
Proof.
  intros Ho ->. rewrite Z.mod_add by blia.
  destruct (Z.eq_dec o kBlockSize) as [->|].
  - rewrite Z_mod_same_full. unfold synced, pad, off1. rewrite Z.sub_diag.
    pose proof block_size as B. pose proof header_size as H.
    rewrite (proj2 (Z.ltb_lt _ _)), (proj2 (Z.ltb_ge _ _)) by lia. done.
  - by rewrite Z.mod_small by lia.
Qed.

(** The fuel of a log: enough for each record. *)
Definition log_fuel (m : nat) (l : list bytes) : Prop := Forall (λ s, length s + 2 ≤ m)%nat l.

Lemma AddRecords_mem l w :
  Forall bytes_ok l → 0 ≤ block_offset_ w ≤ kBlockSize →
  ∃ E o' k, AddRecords mem_Append mem_Flush w l
      = Some ({| dest_ := dest_ w ++ E; block_offset_ := o' |}, true) ∧
    0 ≤ o' ≤ kBlockSize ∧ block_offset_ w + len E = o' + k * kBlockSize ∧
    ∀ m o2 E2 l2, log_fuel m l → synced o' o2 → encoded m o2 E2 l2 →
      encoded m (block_offset_ w) (E ++ E2) (l ++ l2).
Proof.
  revert w. induction l as [|s l IH]; intros w Hl Ho.
  - exists [], (block_offset_ w), 0. cbn [AddRecords]. destruct w as [f ow]. cbn in *.
    rewrite app_nil_r. split; [done|]. split; [done|]. split; [change (len []) with 0; lia|].
    intros m o2 E2 l2 _. apply encoded_synced.
  - inversion_clear Hl as [|?? Hs Hl'].
    destruct (write_record (length s + 2) w s true Hs Ho) as (E1 & o1 & HE1 & HD1).
    { unfold turns. destruct (_ =? _)%Z; lia. }
    pose proof (dec_off _ _ _ _ _ _ HD1) as Ho1. destruct (dec_len _ _ _ _ _ _ HD1) as [k1 Hk1].
    destruct (IH {| dest_ := dest_ w ++ E1; block_offset_ := o1 |} Hl' Ho1)
      as (E2 & o' & k & HE2 & Ho' & Hk & Henc).
    exists (E1 ++ E2), o', (k1 + k). cbn [AddRecords]. unfold AddRecord. rewrite HE1, HE2.
    cbn [dest_ block_offset_] in *. rewrite app_assoc. split; [done|]. split; [done|].
    split; [rewrite len_app; lia|]. intros m o2 E3 l2 Hm Hsy HE3. inversion_clear Hm as [|?? Hm1 Hm2].
    rewrite <- app_assoc. cbn [app]. econstructor; eauto. done.
Qed.

(** The sessions' bytes, from a file that ends at block offset [o]. *)
Lemma WriteSessions_encoded ls f o k :
  Forall (Forall bytes_ok) ls → 0 ≤ o ≤ kBlockSize → len f = o + k * kBlockSize →
  ∃ E, WriteSessions f ls = Some (f ++ E) ∧
    ∀ m, log_fuel m (concat ls) → encoded m o E (concat ls).
Proof.
  revert f o k. induction ls as [|l ls IH]; intros f o k Hls Ho Hf; cbn [WriteSessions concat].
  { exists []. rewrite app_nil_r. split; [done|]. constructor. }
  inversion_clear Hls as [|?? Hl Hls'].
  pose proof (synced_reopen o (len f) k Ho Hf) as Hsy.
  assert (0 ≤ block_offset_ (NewWriter f (len f)) ≤ kBlockSize) as Hr.
  { cbn. pose proof (Z.mod_pos_bound (len f) kBlockSize). blia. }
  destruct (AddRecords_mem l (NewWriter f (len f)) Hl Hr) as (E1 & o1 & k1 & HE1 & Ho1 & Hk1 & Henc1).
  rewrite HE1. cbn [dest_ NewWriter block_offset_] in *.
  pose proof (Z_div_mod_eq_full (len f) kBlockSize) as Hdm.
  destruct (IH (f ++ E1) o1 (len f / kBlockSize + k1) Hls' Ho1) as (E2 & HE2 & Henc2).
  { rewrite len_app. lia. }
  exists (E1 ++ E2). rewrite HE2, app_assoc. split; [done|]. intros m [Hm1 Hm2]%Forall_app.
  apply (encoded_synced _ _ _ _ _ Hsy). apply (Henc1 m o1); [done|done|]. by apply Henc2.
Qed.

Definition open_log (f : bytes) : SequentialFile :=
  {| sf_rest := f; sf_read_error := false; sf_skip_error := false |}.

(** A reader that has read nothing is at the end of the block before. *)
Lemma NewReader_at_stream f rep chk : at_stream (NewReader (open_log f) rep chk 0) kBlockSize f.
Proof. split; cbn; try done; try blia. right. split; [done|]. change (len []) with 0. lia. Qed.

Lemma synced_start : synced kBlockSize 0.
Proof. apply (synced_reopen kBlockSize 0 (-1)); blia. Qed.

(** Reading any prefix of a log. *)
Lemma read_log_prefix ls :
  Forall (Forall bytes_ok) ls →
  ∃ f, WriteSessions [] ls = Some f ∧
  ∀ S U m rep chk, f = S ++ U → (0 < m)%nat → log_fuel m (concat ls) →
  ∃ l' r, ReadAll (Datatypes.S (length (concat ls))) m (NewReader (open_log S) rep chk 0) = Some (l', r) ∧
    reports_ r = [] ∧ l' `prefix_of` concat ls ∧ (U = [] → l' = concat ls).
Proof.
  intros Hls. destruct (WriteSessions_encoded ls [] 0 0 Hls) as (E & HE & Henc); [blia|done|].
  exists E. split; [done|]. intros S U m rep chk -> Hm0 Hm.
  eapply (read_encoded _ _ _ _ (Henc m Hm) Hm0); [apply NewReader_at_stream|apply synced_start|done].
Qed.

(** ** The log *)

(** C2: every log the writer produces, in any number of sessions that reopen
    the file at its length, is read back whole: with checksums verified or not,
    [ReadRecord] returns exactly the records that were added, in order, then
    false, and the reporter is told nothing.  The writer does not run out of
    its [length + 2] turns a record, nor the reader of as many. *)
Theorem log_roundtrip ls :
  Forall (Forall bytes_ok) ls →
  ∃ f, WriteSessions [] ls = Some f ∧
  ∀ m rep chk, (0 < m)%nat → log_fuel m (concat ls) →
  ∃ r, ReadAll (S (length (concat ls))) m (NewReader (open_log f) rep chk 0) = Some (concat ls, r) ∧
    reports_ r = [].
Proof.
  intros Hls. destruct (read_log_prefix ls Hls) as (f & Hf & H). exists f. split; [done|].
  intros m rep chk Hm0 Hm.
  destruct (H f [] m rep chk) as (l' & r & Hr & Hrep & _ & Hl'); [by rewrite app_nil_r|done..|].
  rewrite Hl' in Hr by done. eauto.
Qed.

(** C20: a log cut at any byte, as by a crash in the middle of a write, reads as
    a prefix of its records, and the torn end is not reported as corruption. *)
Theorem log_torn_write ls :
  Forall (Forall bytes_ok) ls →
  ∃ f, WriteSessions [] ls = Some f ∧
  ∀ n m rep chk, (0 < m)%nat → log_fuel m (concat ls) →
  ∃ l' r, ReadAll (S (length (concat ls))) m (NewReader (open_log (first n f)) rep chk 0) = Some (l', r) ∧
    reports_ r = [] ∧ l' `prefix_of` concat ls.
Proof.
  intros Hls. destruct (read_log_prefix ls Hls) as (f & Hf & H). exists f. split; [done|].
  intros n m rep chk Hm0 Hm.
  destruct (H (first n f) (skip n f) m rep chk) as (l' & r & Hr & Hrep & Hl' & _);
    [by rewrite first_skip|done..|]. eauto.
Qed.

Definition log_example : list (list bytes) := [[[1; 2; 3]; []]; [[255]]].

Lemma log_roundtrip_witness :
  Forall (Forall bytes_ok) log_example ∧
  ∃ f, WriteSessions [] log_example = Some f ∧
    ∃ r, ReadAll 4 5 (NewReader (open_log f) true true 0) = Some ([[1; 2; 3]; []; [255]], r) ∧
      reports_ r = [].
Proof.
  assert (Forall (Forall bytes_ok) log_example) as Hok by by_decide. split; [done|].
  destruct (log_roundtrip log_example Hok) as (f & Hf & H). exists f. split; [done|].
  apply (H 5%nat true true); [lia|]. unfold log_fuel. by_decide.
Defined.

Lemma log_torn_write_witness :
  Forall (Forall bytes_ok) log_example ∧
  ∃ f, WriteSessions [] log_example = Some f ∧
    ∃ l' r, ReadAll 4 5 (NewReader (open_log (first 20 f)) true true 0) = Some (l', r) ∧
      reports_ r = [] ∧ l' `prefix_of` [[1; 2; 3]; []; [255]].
Proof.
  assert (Forall (Forall bytes_ok) log_example) as Hok by by_decide. split; [done|].
  destruct (log_torn_write log_example Hok) as (f & Hf & H). exists f. split; [done|].
  apply (H 20 5%nat true true); [lia|]. unfold log_fuel. by_decide.
Defined.

(** ** Termination on every file *)

(** One turn of the writer's loop leaves the block offset in its block. *)
Lemma AddRecord_loop_total {F} (Append : F → bytes → F * bool) Flush n w ptr begin :
  0 ≤ block_offset_ w ≤ kBlockSize → (turns (block_offset_ w) ptr ≤ n)%nat →
  ∃ w' ok, AddRecord_loop Append Flush n w ptr begin = Some (w', ok) ∧
    0 ≤ block_offset_ w' ≤ kBlockSize.
Proof.
  revert w ptr begin. induction n as [|n IH]; intros w ptr begin How Hn.
  { unfold turns in Hn. destruct (_ =? _)%Z; lia. }
  cbn [AddRecord_loop].
  assert (block_offset_ (SwitchBlock Append w) = off1 (block_offset_ w)) as Eo.
  { unfold SwitchBlock, off1. case_if; done. }
  pose proof (off1_bound _ How) as Ho1. rewrite Eo.
  remember (kBlockSize - off1 (block_offset_ w) - kHeaderSize) as avail eqn:Ea.
  pose proof (len_nonneg ptr) as Hl0.
  set (fl := if len ptr <? avail then len ptr else avail).
  assert (0 ≤ fl ≤ len ptr ∧ fl ≤ avail ∧ (fl = len ptr ∨ fl = avail)) as (Hfl & Hfa & Hfe)
    by (unfold fl; case_if; lia).
  destruct (EmitPhysicalRecord _ _ _ _ _) as [w1 ok] eqn:HE.
  assert (block_offset_ w1 = off1 (block_offset_ w) + kHeaderSize + fl) as Ew1.
  { unfold EmitPhysicalRecord in HE. rewrite Eo, len_first in HE by lia.
    repeat case_match; simplify_eq; done. }
  destruct (ok && (len (skip fl ptr) >? 0)) eqn:Ek.
  - apply andb_prop in Ek as [_ Ek]. rewrite Z.gtb_ltb, Z.ltb_lt, len_skip in Ek by lia.
    destruct Hfe as [|Hfe]; [lia|]. apply IH; [rewrite Ew1; blia|].
    rewrite Ew1, Hfe. pose proof (turns_next _ ptr avail How Ea). lia.
  - exists w1, ok. split; [done|]. rewrite Ew1. blia.
Qed.

(** What is left to read. *)
Definition unread (r : Reader) : nat := length (buffer_ r) + length (sf_rest (file_ r)).

(** The reports of a reader only grow. *)
Lemma ReportDrop_reports n e r : reports_ r `prefix_of` reports_ (ReportDrop n e r).
Proof. unfold ReportDrop. case_if; [by apply prefix_app_r|done]. Qed.

Lemma ParsePhysicalRecord_reports res r t p r' :
  ParsePhysicalRecord res r = (t, p, r') → reports_ r `prefix_of` reports_ r'.
Proof.
  unfold ParsePhysicalRecord, ReportCorruption. intros H.
  repeat (case_match; simplify_eq; try done); try apply (ReportDrop_reports _ _ (set_buffer [] r)).
Qed.

Lemma ReadPhysicalRecord_reports n res r t p r' :
  ReadPhysicalRecord_loop n res r = Some (t, p, r') → reports_ r `prefix_of` reports_ r'.
Proof.
  revert r. induction n as [|n IH]; intros r; cbn [ReadPhysicalRecord_loop]; [done|].
  case_if; [|intros [= H]; by apply ParsePhysicalRecord_reports in H].
  case_if; [|intros [= <- <- <-]; done].
  destruct (File_Read (file_ r) kBlockSize) as [[f buf] ok]. case_if; [|apply IH].
  intros [= <- <- <-]. cbn [reports_ set_file].
  exact (ReportDrop_reports kBlockSize ReadError (set_file f [] (eof_ r) (end_of_buffer_offset_ r + len buf) r)).
Qed.

Lemma ReadRecord_turn_reports t p st r :
  match ReadRecord_turn t p st r with
  | Return _ _ r' => reports_ r `prefix_of` reports_ r'
  | Continue _ r' => reports_ r `prefix_of` reports_ r'
  end.
Proof.
  unfold ReadRecord_turn, ReportCorruption.
  repeat (case_if; try done); cbn [reports_ set_last_record_offset];
    try apply (ReportDrop_reports _ _ (set_resyncing false r)); done.
Qed.

Lemma ReadRecord_reports fuel r found record r' :
  ReadRecord fuel r = Some (found, record, r') → reports_ r `prefix_of` reports_ r'.
Proof.
  assert (∀ st r, ReadRecord_loop fuel st r = Some (found, record, r') → reports_ r `prefix_of` reports_ r') as Hloop.
  { induction fuel as [|fuel IH]; intros st r0; cbn [ReadRecord_loop]; [done|].
    destruct (ReadPhysicalRecord _ r0) as [[[t p] r1]|] eqn:E; [|done]. apply ReadPhysicalRecord_reports in E.
    pose proof (ReadRecord_turn_reports t p st r1) as Ht. destruct (ReadRecord_turn t p st r1) as [f q r2|st2 r2].
    - intros [= -> -> ->]. by etrans.
    - intros H%IH. etrans; [exact E|]. by etrans. }
  unfold ReadRecord. case_if; [|apply Hloop]. destruct (SkipToInitialBlock r) as [r1 ok] eqn:Es.
  assert (reports_ r `prefix_of` reports_ r1) as H1.
  { unfold SkipToInitialBlock in Es. repeat (case_match; simplify_eq; try done).
    all: match goal with |- _ `prefix_of` reports_ (ReportDrop _ _ ?r2) => apply (ReportDrop_reports _ _ r2) end. }
  destruct ok; [intros H%Hloop; by etrans|by intros [= <- <- <-]].
Qed.

Lemma ReadAll_reports n fuel r l r' : ReadAll n fuel r = Some (l, r') → reports_ r `prefix_of` reports_ r'.
Proof.
  revert r l. induction n as [|n IH]; intros r l; cbn [ReadAll]; [done|].
  destruct (ReadRecord fuel r) as [[[[] record] r1]|] eqn:E; [| |done]; apply ReadRecord_reports in E.
  - destruct (ReadAll n fuel r1) as [[l1 r2]|] eqn:Ea; [|done]. intros [= <- <-]. etrans; [exact E|]. by eapply IH.
  - by intros [= <- <-].
Qed.

Lemma ReportDrop_unread n e r :
  unread (ReportDrop n e r) = unread r ∧ buffer_ (ReportDrop n e r) = buffer_ r.
Proof. unfold ReportDrop. by case_if. Qed.

(** A physical record that is parsed is consumed. *)
Lemma ParsePhysicalRecord_consumes res r t p r' :
  kHeaderSize ≤ len (buffer_ r) → ParsePhysicalRecord res r = (t, p, r') →
  (unread r' < unread r)%nat.
Proof.
  intros Hb HP. pose proof header_size.
  assert (∀ s, (length s < length (buffer_ r))%nat → (unread (set_buffer s r) < unread r)%nat) as Hset.
  { intros s Hs. unfold unread. cbn. lia. }
  assert (unread (set_buffer [] r) < unread r)%nat as Hnil by (apply Hset; unfold len in Hb; cbn; lia).
  unfold ParsePhysicalRecord in HP.
  set (n := Z.lor _ _) in HP.
  assert (0 ≤ n) as Hn.
  { unfold n. apply Z.lor_nonneg. split; [apply Z.land_nonneg; lia|].
    apply Z.shiftl_nonneg, Z.land_nonneg; lia. }
  assert (unread (set_buffer (skip (kHeaderSize + n) (buffer_ r)) r) < unread r)%nat as Hsk.
  { apply Hset. unfold skip. rewrite length_drop. unfold len in Hb. lia. }
  repeat case_match; simplify_eq;
    unfold ReportCorruption; rewrite ?(proj1 (ReportDrop_unread _ _ _)); done.
Qed.

Lemma ReadPhysicalRecord_total res r :
  ∃ t p r', ReadPhysicalRecord res r = Some (t, p, r') ∧ (t = kEof ∨ (unread r' < unread r)%nat).
Proof.
  unfold ReadPhysicalRecord. assert (∀ n r, kHeaderSize ≤ len (buffer_ r) →
    ∃ t p r', ReadPhysicalRecord_loop (S n) res r = Some (t, p, r') ∧ (unread r' < unread r)%nat) as Hparse.
  { intros n r0 Hb. cbn [ReadPhysicalRecord_loop]. rewrite (proj2 (Z.ltb_ge _ _)) by lia.
    destruct (ParsePhysicalRecord res r0) as [[t p] r1] eqn:HP.
    eauto 10 using ParsePhysicalRecord_consumes. }
  assert (∀ n r, eof_ r = true ∨ kHeaderSize ≤ len (buffer_ r) →
    ∃ t p r', ReadPhysicalRecord_loop (S n) res r = Some (t, p, r') ∧
      (t = kEof ∨ (unread r' < unread r)%nat)) as Hnext.
  { intros n r0 Hr0. destruct (Z.ltb_spec (len (buffer_ r0)) kHeaderSize) as [Hlt|Hge].
    - destruct Hr0 as [He|]; [|lia]. cbn [ReadPhysicalRecord_loop].
      rewrite (proj2 (Z.ltb_lt _ _)), He by lia. eauto 10.
    - destruct (Hparse n r0 Hge) as (t & p & r1 & H1 & H2). eauto 10. }
  destruct (Z.ltb_spec (len (buffer_ r)) kHeaderSize) as [Hlt|Hge]; [|apply Hnext; eauto].
  destruct (eof_ r) eqn:He; [apply Hnext; eauto|].
  remember 2%nat as two eqn:E2. cbn [ReadPhysicalRecord_loop]. rewrite (proj2 (Z.ltb_lt _ _)), He by lia.
  cbn [negb]. unfold File_Read. destruct (sf_read_error (file_ r)) eqn:Hf; cbn [negb].
  - eauto 10.
  - subst two. set (r1 := set_file _ _ _ _ _).
    destruct (Hnext 1%nat r1) as (t & p & r2 & H1 & H2).
    { unfold r1. cbn. destruct (Z.ltb_spec (len (first kBlockSize (sf_rest (file_ r)))) kBlockSize); [by left|].
      right. blia. }
    exists t, p, r2. split; [done|]. destruct H2 as [|H2]; [by left|]. right.
    assert (unread r1 ≤ unread r)%nat; [|lia]. unfold unread, r1. cbn.
    pose proof (f_equal length (first_skip kBlockSize (sf_rest (file_ r)))) as Hl.
    rewrite length_app in Hl. lia.
Qed.

Lemma ReadRecord_turn_unread t p st r st' r' :
  ReadRecord_turn t p st r = Continue st' r' → unread r' = unread r ∧ t ≠ kEof.
Proof.
  unfold ReadRecord_turn, ReportCorruption. intros H.
  repeat case_match; simplify_eq; zify_bool;
    rewrite ?(proj1 (ReportDrop_unread _ _ _)); (split; [done|]);
    unfold kMiddleType, kLastType, kFirstType, kFullType, kEof, kBadRecord, kMaxRecordType, kLastType in *; lia.
Qed.

Lemma ReadRecord_loop_total m st r :
  (unread r < m)%nat → ∃ res, ReadRecord_loop m st r = Some res.
Proof.
  revert st r. induction m as [|m IH]; intros st r Hm; [lia|]. cbn [ReadRecord_loop].
  destruct (ReadPhysicalRecord_total (rs_fragment st) r) as (t & p & r1 & -> & Ht).
  destruct (ReadRecord_turn t p st r1) as [| st' r2] eqn:HT; [eauto|].
  apply ReadRecord_turn_unread in HT as [HT ?]. apply IH. destruct Ht as [|]; [done|]. lia.
Qed.

(** [AddRecord] ends on every file, whatever [Append] and [Flush] return,
    and leaves the block offset inside a block. *)
Theorem AddRecord_total {F} (Append : F → bytes → F * bool) (Flush : F → F * bool) w s :
  0 ≤ block_offset_ w ≤ kBlockSize →
  ∃ w' ok, AddRecord Append Flush w s = Some (w', ok) ∧ 0 ≤ block_offset_ w' ≤ kBlockSize.
Proof.
  intros Hw. apply AddRecord_loop_total; [done|]. unfold turns. destruct (_ =? _)%Z; lia.
Qed.

Lemma AddRecord_total_witness :
  ∃ w' ok, AddRecord (λ f _, (f, false)) (λ f, (f, true)) (NewWriter tt 5) [1; 2] = Some (w', ok) ∧
    0 ≤ block_offset_ w' ≤ kBlockSize.
Proof. apply AddRecord_total. cbn. rewrite block_size. vm_compute. split; discriminate. Defined.

(** C35: [ReadRecord] ends on every file, corrupt or failing, from every state
    of the reader: each turn that does not return consumes input, so more turns
    than unread bytes are never needed. *)
Theorem ReadRecord_total m r :
  (unread r < m)%nat → ∃ found record r', ReadRecord m r = Some (found, record, r').
Proof.
  intros Hm. unfold ReadRecord.
  assert (∀ r, (unread r < m)%nat → ∃ found record r', ReadRecord_loop m ReadState_init r = Some (found, record, r')) as HL.
  { intros r0 H0. destruct (ReadRecord_loop_total m ReadState_init r0 H0) as [[[? ?] ?] ?]. eauto. }
  case_if; [|by apply HL].
  destruct (SkipToInitialBlock r) as [r1 ok] eqn:HS. destruct ok; [|eauto]. apply HL.
  unfold SkipToInitialBlock, File_Skip in HS. repeat case_match; simplify_eq; unfold unread in *; cbn in *; try lia.
  all: unfold skip; rewrite length_drop; lia.
Qed.

Lemma ReadRecord_total_witness :
  ∃ found record r', ReadRecord 10 (NewReader (open_log [1; 2; 3; 4; 0; 0; 9]) true true 0)
    = Some (found, record, r').
Proof. apply ReadRecord_total. vm_compute. lia. Defined.

(** ** Lemmas for the users of a log *)

Lemma AddRecords_snoc w l x :
  AddRecords mem_Append mem_Flush w (l ++ [x]) =
  match AddRecords mem_Append mem_Flush w l with
  | Some (w, true) => AddRecord mem_Append mem_Flush w x
  | r => r
  end.
Proof.
  revert w. induction l as [|y l IH]; intros w; cbn [app AddRecords].
  - destruct (AddRecord _ _ w x) as [[? []]|]; done.
  - destruct (AddRecord _ _ w y) as [[? []]|]; [apply IH|done..].
Qed.

(** The file of a writer, cut at any byte, reads as the first records. *)
Lemma cut_log_read lw (l : list bytes) n :
  Forall bytes_ok l → AddRecords mem_Append mem_Flush (NewWriter [] 0) l = Some (lw, true) →
  ∃ turns fuel k r, ReadAll turns fuel (NewReader (open_log (first n (dest_ lw))) true true 0) = Some (take k l, r) ∧
    reports_ r = [] ∧ (len (dest_ lw) ≤ n → take k l = l).
Proof.
  intros Hok Hlog. destruct (read_log_prefix [l]) as (f & Hf & Hread); [by apply Forall_singleton|].
  cbn in Hf. change (AddRecords _ _ _ _) with (AddRecords mem_Append mem_Flush (NewWriter [] 0) l) in Hf.
  rewrite Hlog in Hf. injection Hf as <-. cbn [concat] in Hread. rewrite app_nil_r in Hread.
  assert (∃ m, 0 < m ∧ log_fuel m l)%nat as (fuel & Hfuel & Hlf).
  { clear. unfold log_fuel. induction l as [|b l (m & H0 & Hm)]; [exists 1%nat; split; [lia|constructor]|].
    exists (m + length b + 2)%nat. split; [lia|]. constructor; [lia|]. eapply Forall_impl; [exact Hm|]. cbn. lia. }
  destruct (Hread (first n (dest_ lw)) (skip n (dest_ lw)) fuel true true) as (l' & r & Hr & Hrep & Hpre & Hall);
    [by rewrite first_skip|done..|].
  assert (l' = take (length l') l) as El by (destruct Hpre as [k ->]; by rewrite take_app_length).
  exists (S (length l)), fuel, (length l'), r. rewrite <- El. split; [done|]. split; [done|].
  intros Hn. apply Hall. unfold skip. apply drop_ge. unfold len in Hn. lia.
Qed.
