(* ===== verification/Block.v ===== *)
(** * table/block_builder.cc, table/block.h, table/block.cc: blocks

    A block is a sequence of entries followed by the offsets of its restart
    points and their number.  [BlockBuilder] writes one; [Block] opens one and
    [Iter] moves over its entries.  Key prefix sharing is commented out in
    [BlockBuilder::Add], so that every entry has a shared length of zero, but
    the reader still supports it. *)

From Stdlib Require Import Sorted.
From S2P Require Import Prelude Coding Comparator.

(** ** BlockBuilder *)

Module Builder.

Record t := {
  block_restart_interval : Z;      (** of [options_] *)
  buffer_ : bytes;
  restarts_ : list Z;
  counter_ : Z;
  num_entries_ : Z;
  finished_ : bool;
  last_key_ : bytes
}.

Definition New (interval : Z) : t := {|
  block_restart_interval := interval; buffer_ := []; restarts_ := [0]; counter_ := 0;
  num_entries_ := 0; finished_ := false; last_key_ := [] |}.

Definition Reset (b : t) : t := {|
  block_restart_interval := block_restart_interval b; buffer_ := []; restarts_ := [0];
  counter_ := 0; num_entries_ := 0; finished_ := false; last_key_ := [] |}.

Definition CurrentSizeEstimate (b : t) : Z := len (buffer_ b) + len (restarts_ b) * 4 + 4.

Definition BlockOffset (b : t) : Z := num_entries_ b.

Definition empty (b : t) : bool := len (buffer_ b) =? 0.

Fixpoint PutRestarts (dst : bytes) (l : list Z) : bytes :=
  match l with
  | [] => dst
  | x :: l' => PutRestarts (PutFixed32 dst x) l'
  end.

Definition Finish (b : t) : t * bytes :=
  let buffer := PutRestarts (buffer_ b) (restarts_ b) in
  let buffer := PutFixed32 buffer (u32 (len (restarts_ b))) in
  ({| block_restart_interval := block_restart_interval b; buffer_ := buffer;
      restarts_ := restarts_ b; counter_ := counter_ b; num_entries_ := num_entries_ b;
      finished_ := true; last_key_ := last_key_ b |}, buffer).

(** Sharing is never looked for: the loop that raises [shared] is commented out. *)
Definition Add (b : t) (key value : bytes) : t :=
  let shared := 0 in
  let restart := negb (counter_ b <? block_restart_interval b) in
  let restarts := if restart then restarts_ b ++ [u32 (len (buffer_ b))] else restarts_ b in
  let counter := if restart then 0 else counter_ b in
  let non_shared := len key - shared in
  let buffer := PutVarint32 (buffer_ b) (u32 shared) in
  let buffer := PutVarint32 buffer (u32 non_shared) in
  let buffer := PutVarint32 buffer (u32 (len value)) in
  let buffer := buffer ++ slice key shared non_shared in
  let buffer := buffer ++ value in
  {| block_restart_interval := block_restart_interval b; buffer_ := buffer;
     restarts_ := restarts; counter_ := counter + 1; num_entries_ := u32 (num_entries_ b + 1);
     finished_ := finished_ b; last_key_ := first shared (last_key_ b) ++ slice key shared non_shared |}.

Definition AddAll (b : t) (es : list (bytes * bytes)) : t :=
  foldl (λ b e, Add b e.1 e.2) b es.

Definition Build (interval : Z) (es : list (bytes * bytes)) : bytes :=
  snd (Finish (AddAll (New interval) es)).

End Builder.

(** ** DecodeEntry *)

(** The bytes from [p] to [limit]; returns what follows the three lengths. *)
Definition DecodeEntry (p : bytes) : option (Z * Z * Z * bytes) :=
  if len p <? 3 then None
  else
    let shared := at_ p 0 in
    let non_shared := at_ p 1 in
    let value_length := at_ p 2 in
    r ← (if Z.lor (Z.lor shared non_shared) value_length <? 128
         then Some (shared, non_shared, value_length, skip 3 p)
         else
           '(shared, p) ← GetVarint32Ptr p;
           '(non_shared, p) ← GetVarint32Ptr p;
           '(value_length, p) ← GetVarint32Ptr p;
           Some (shared, non_shared, value_length, p));
    let '(shared, non_shared, value_length, p) := r in
    if u32 (len p) <? u32 (non_shared + value_length) then None
    else Some (shared, non_shared, value_length, p).

(** ** Block *)

Record Block := { data_ : bytes; size_ : Z; restart_offset_ : Z }.

Definition NumRestarts (data : bytes) (size : Z) : Z := DecodeFixed32 (skip (size - 4) data).

(** [restart_offset_] stays unset on an error, where it is not read. *)
Definition NewBlock (contents : bytes) : Block :=
  let size := len contents in
  if size <? 4 then {| data_ := contents; size_ := 0; restart_offset_ := 0 |}
  else
    let max_restarts_allowed := (size - 4) / 4 in
    let n := NumRestarts contents size in
    if n >? max_restarts_allowed then {| data_ := contents; size_ := 0; restart_offset_ := 0 |}
    else {| data_ := contents; size_ := size; restart_offset_ := u32 (size - (1 + n) * 4) |}.

(** ** Block::Iter *)

Module Iter.

(** [value_] is the offset of the slice in [data_] and its length, [None] when
    it is the empty slice of the constructor and of [clear()].  In what follows
    [None] stands for a read outside the block or of a value that is not in it,
    which is undefined in C++, and for a loop that runs out of fuel. *)
Record t := {
  comparator_ : Comparator;
  data_ : bytes;
  restarts_ : Z;
  num_restarts_ : Z;
  current_ : Z;
  restart_index_ : Z;
  key_ : bytes;
  value_ : option (Z * Z);
  status_ok : bool
}.

Definition New (c : Comparator) (data : bytes) (restarts num_restarts : Z) : t := {|
  comparator_ := c; data_ := data; restarts_ := restarts; num_restarts_ := num_restarts;
  current_ := restarts; restart_index_ := num_restarts; key_ := []; value_ := None;
  status_ok := true |}.

Definition set_pos (cur ri : Z) (it : t) : t := {|
  comparator_ := comparator_ it; data_ := data_ it; restarts_ := restarts_ it;
  num_restarts_ := num_restarts_ it; current_ := cur; restart_index_ := ri; key_ := key_ it;
  value_ := value_ it; status_ok := status_ok it |}.

Definition set_kv (k : bytes) (v : option (Z * Z)) (it : t) : t := {|
  comparator_ := comparator_ it; data_ := data_ it; restarts_ := restarts_ it;
  num_restarts_ := num_restarts_ it; current_ := current_ it;
  restart_index_ := restart_index_ it; key_ := k; value_ := v; status_ok := status_ok it |}.

Definition Valid (it : t) : bool := current_ it <? restarts_ it.

(** The bytes of [value()]. *)
Definition value (it : t) : bytes :=
  match value_ it with Some (o, n) => slice (data_ it) o n | None => [] end.

Definition NextEntryOffset (it : t) : option Z :=
  '(o, n) ← value_ it; Some (u32 (o + n)).

Definition GetRestartPoint (it : t) (index : Z) : option Z :=
  let off := restarts_ it + index * 4 in
  if (0 <=? off) && (off + 4 <=? len (data_ it)) then Some (DecodeFixed32 (skip off (data_ it)))
  else None.

Definition SeekToRestartPoint (index : Z) (it : t) : option t :=
  offset ← GetRestartPoint it index;
  Some (set_kv [] (Some (offset, 0)) (set_pos (current_ it) index it)).

Definition CorruptionError (it : t) : t := {|
  comparator_ := comparator_ it; data_ := data_ it; restarts_ := restarts_ it;
  num_restarts_ := num_restarts_ it; current_ := restarts_ it;
  restart_index_ := num_restarts_ it; key_ := []; value_ := None; status_ok := false |}.

(** [while (restart_index_ + 1 < num_restarts_ && GetRestartPoint(...) < current_)] *)
Fixpoint AdvanceRestart (fuel : nat) (it : t) (cur ri : Z) : option Z :=
  match fuel with
  | O => None
  | S fuel' =>
      if u32 (ri + 1) <? num_restarts_ it then
        p ← GetRestartPoint it (u32 (ri + 1));
        if p <? cur then AdvanceRestart fuel' it cur (u32 (ri + 1)) else Some ri
      else Some ri
  end.

Definition ParseNextKey (it : t) : option (bool * t) :=
  cur ← NextEntryOffset it;
  if cur >=? restarts_ it then Some (false, set_pos (restarts_ it) (num_restarts_ it) it)
  else
    let it := set_pos cur (restart_index_ it) it in
    match DecodeEntry (slice (data_ it) cur (restarts_ it - cur)) with
    | None => Some (false, CorruptionError it)
    | Some (shared, non_shared, value_length, rest) =>
        if len (key_ it) <? shared then Some (false, CorruptionError it)
        else
          let p := restarts_ it - len rest in
          if p + non_shared <=? len (data_ it) then
            let it := set_kv (first shared (key_ it) ++ slice (data_ it) p non_shared)
                             (Some (p + non_shared, value_length)) it in
            ri ← AdvanceRestart (S (Z.to_nat (num_restarts_ it))) it cur (restart_index_ it);
            Some (true, set_pos cur ri it)
          else None
    end.

Definition Next (it : t) : option t := '(_, it) ← ParseNextKey it; Some it.

(** The backward scan of [Prev]: the restart index, or [inl] when there are no
    more entries. *)
Fixpoint PrevRestart (fuel : nat) (it : t) (original ri : Z) : option (unit + Z) :=
  match fuel with
  | O => None
  | S fuel' =>
      p ← GetRestartPoint it ri;
      if p >=? original then
        if ri =? 0 then Some (inl tt) else PrevRestart fuel' it original (ri - 1)
      else Some (inr ri)
  end.

(** [while (ParseNextKey() && NextEntryOffset() < limit)] *)
Fixpoint SkipUntil (fuel : nat) (limit : Z) (it : t) : option t :=
  match fuel with
  | O => None
  | S fuel' =>
      '(ok, it) ← ParseNextKey it;
      if negb ok then Some it
      else
        next ← NextEntryOffset it;
        if next <? limit then SkipUntil fuel' limit it else Some it
  end.

(** An entry takes at least three bytes. *)
Definition fuel (it : t) : nat := S (Z.to_nat (restarts_ it)).

Definition Prev (it : t) : option t :=
  let original := current_ it in
  r ← PrevRestart (S (Z.to_nat (restart_index_ it))) it original (restart_index_ it);
  match r with
  | inl _ => Some (set_pos (restarts_ it) (num_restarts_ it) it)
  | inr ri =>
      it ← SeekToRestartPoint ri (set_pos original ri it);
      SkipUntil (fuel it) original it
  end.

(** The binary search of [Seek]: the last restart point with a key below
    [target], or [inl] when an entry does not decode. *)
Fixpoint SeekRestart (fuel : nat) (it : t) (target : bytes) (left right : Z) : option (unit + Z) :=
  match fuel with
  | O => None
  | S fuel' =>
      if left <? right then
        let mid := u32 (left + right + 1) / 2 in
        region_offset ← GetRestartPoint it mid;
        match DecodeEntry (slice (data_ it) region_offset (restarts_ it - region_offset)) with
        | None => Some (inl tt)
        | Some (shared, non_shared, value_length, rest) =>
            if negb (shared =? 0) then Some (inl tt)
            else
              let mid_key := first non_shared rest in
              if Compare (comparator_ it) mid_key target <? 0
              then SeekRestart fuel' it target mid right
              else SeekRestart fuel' it target left (mid - 1)
        end
      else Some (inr left)
  end.

Fixpoint SeekLinear (fuel : nat) (target : bytes) (it : t) : option t :=
  match fuel with
  | O => None
  | S fuel' =>
      '(ok, it) ← ParseNextKey it;
      if negb ok || (Compare (comparator_ it) (key_ it) target >=? 0) then Some it
      else SeekLinear fuel' target it
  end.

Definition Seek (target : bytes) (it : t) : option t :=
  r ← SeekRestart (S (Z.to_nat (num_restarts_ it))) it target 0 (u32 (num_restarts_ it - 1));
  match r with
  | inl _ => Some (CorruptionError it)
  | inr l =>
      it ← SeekToRestartPoint l it;
      SeekLinear (fuel it) target it
  end.

Definition SeekToFirst (it : t) : option t :=
  it ← SeekToRestartPoint 0 it;
  '(_, it) ← ParseNextKey it;
  Some it.

Definition SeekToLast (it : t) : option t :=
  it ← SeekToRestartPoint (u32 (num_restarts_ it - 1)) it;
  SkipUntil (fuel it) (restarts_ it) it.

(** The two loops of [SeekToNth], in the 32-bit arithmetic of the code. *)
Fixpoint NthRestart (fuel : nat) (it : t) (offset index cur_offset cur_size : Z) : option (Z * Z) :=
  match fuel with
  | O => None
  | S fuel' =>
      if u32 (cur_offset + cur_size) <? offset then
        let index := u32 (index + 1) in
        size ← GetRestartPoint it index;
        NthRestart fuel' it offset index (u32 (cur_offset + cur_size)) size
      else Some (index, cur_offset)
  end.

Fixpoint NthLinear (fuel : nat) (it : t) (offset cur_offset : Z) : option t :=
  match fuel with
  | O => None
  | S fuel' =>
      '(ok, it) ← ParseNextKey it;
      if negb ok then Some it
      else
        next ← NextEntryOffset it;
        if (next <? restarts_ it) && (cur_offset <? offset)
        then NthLinear fuel' it offset (u32 (cur_offset + 1))
        else Some it
  end.

Definition SeekToNth (offset : Z) (it : t) : option t :=
  size ← GetRestartPoint it 0;
  '(index, cur_offset) ← NthRestart (S (length (data_ it))) it offset 0 0 size;
  it ← SeekToRestartPoint index it;
  NthLinear (fuel it) it offset cur_offset.

(** The private [Seek(left, right, target)] of the learned iterator: the last
    step reads one entry only. *)
Fixpoint SeekRangeRestart (fuel : nat) (it : t) (target : bytes) (left right : Z) : option (unit + Z) :=
  match fuel with
  | O => None
  | S fuel' =>
      if left <? right then
        let mid := u32 (left + right) / 2 in
        region_offset ← GetRestartPoint it mid;
        match DecodeEntry (slice (data_ it) region_offset (restarts_ it - region_offset)) with
        | None => Some (inl tt)
        | Some (shared, non_shared, value_length, rest) =>
            if negb (shared =? 0) then Some (inl tt)
            else
              let mid_key := first non_shared rest in
              if Compare (comparator_ it) mid_key target <? 0
              then SeekRangeRestart fuel' it target (mid + 1) right
              else SeekRangeRestart fuel' it target left mid
        end
      else Some (inr left)
  end.

Definition SeekRange (left right : Z) (target : bytes) (it : t) : option t :=
  r ← SeekRangeRestart (S (Z.to_nat (right - left))) it target left right;
  match r with
  | inl _ => Some (CorruptionError it)
  | inr l =>
      it ← SeekToRestartPoint l it;
      '(_, it) ← ParseNextKey it;
      Some it
  end.

End Iter.

(** [Block::NewIterator]. *)
Inductive NewIteratorResult :=
  | ErrorIterator
  | EmptyIterator
  | BlockIterator (it : Iter.t).

Definition NewIterator (c : Comparator) (b : Block) : NewIteratorResult :=
  if size_ b <? 4 then ErrorIterator
  else
    let num_restarts := NumRestarts (data_ b) (size_ b) in
    if num_restarts =? 0 then EmptyIterator
    else BlockIterator (Iter.New c (data_ b) (restart_offset_ b) num_restarts).

(** ** Lemmas: the bytes of a block *)

#[local] Opaque Z.to_nat.

Definition entry_header (e : bytes * bytes) : bytes :=
  EncodeVarint32 0 ++ EncodeVarint32 (len e.1) ++ EncodeVarint32 (len e.2).

Definition encode_entry (e : bytes * bytes) : bytes := entry_header e ++ e.1 ++ e.2.

Definition encode_entries (es : list (bytes * bytes)) : bytes := concat (map encode_entry es).

(** The offset of entry [i]. *)
Definition offs (es : list (bytes * bytes)) (i : nat) : Z := len (encode_entries (take i es)).

Definition encode_restarts (R : list Z) : bytes :=
  concat (map EncodeFixed32 R) ++ EncodeFixed32 (len R).

Definition entry_ok (e : bytes * bytes) : Prop := u32_ok (len e.1) ∧ u32_ok (len e.2).

Lemma encode_entries_app l k : encode_entries (l ++ k) = encode_entries l ++ encode_entries k.
Proof. unfold encode_entries. by rewrite map_app, concat_app. Qed.

(** Every restart point is the offset of an entry, the first one zero. *)
Definition restarts_ok (es : list (bytes * bytes)) (R : list Z) : Prop :=
  R !! 0%nat = Some 0 ∧
  ∀ j x, (0 < j)%nat → R !! j = Some x → ∃ i, x = offs es i ∧ (i < length es)%nat.

Lemma offs_app es k i : (i ≤ length es)%nat → offs (es ++ k) i = offs es i.
Proof. intros. unfold offs. by rewrite take_app_le by done. Qed.

Lemma offs_all es : offs es (length es) = len (encode_entries es).
Proof. unfold offs. by rewrite firstn_all. Qed.

Lemma Add_buffer b k v :
  entry_ok (k, v) → Builder.buffer_ (Builder.Add b k v) = Builder.buffer_ b ++ encode_entry (k, v).
Proof.
  intros [Hk Hv]. unfold Builder.Add, encode_entry, entry_header, PutVarint32. simpl.
  rewrite Z.sub_0_r, (u32_id 0), (u32_id (len k)), (u32_id (len v)) by (done || unfold u32_ok; lia).
  assert (slice k 0 (len k) = k) as ->.
  { unfold slice. change (Z.to_nat 0) with 0%nat. rewrite drop_0. unfold len. apply take_ge. lia. }
  by rewrite <- !app_assoc.
Qed.

Lemma AddAll_buffer I es :
  Forall entry_ok es → Builder.buffer_ (Builder.AddAll (Builder.New I) es) = encode_entries es.
Proof.
  unfold Builder.AddAll. induction es as [|[k v] es IH] using rev_ind; intros Hok; [done|].
  apply Forall_app in Hok as [Hok [He _]%Forall_cons]. rewrite foldl_app. cbn [foldl fst snd].
  rewrite Add_buffer, IH, encode_entries_app by done. f_equal.
  unfold encode_entries. simpl. by rewrite app_nil_r.
Qed.

Lemma AddAll_spec I es :
  Forall entry_ok es → len (encode_entries es) < 2 ^ 32 →
  let b := Builder.AddAll (Builder.New I) es in
  Builder.buffer_ b = encode_entries es ∧ restarts_ok es (Builder.restarts_ b) ∧
  Builder.num_entries_ b = u32 (len es) ∧
  (length (Builder.restarts_ b) ≤ S (length es))%nat.
Proof.
  unfold Builder.AddAll. induction es as [|e es IH] using rev_ind; intros Hok Hsz.
  { split; [done|]. split; [|done]. split; [done|]. intros [|j] x; [lia|done]. }
  apply Forall_app in Hok as [Hok [He _]%Forall_cons].
  rewrite encode_entries_app, len_app in Hsz.
  pose proof (len_nonneg (encode_entries [e])) as Hnn.
  destruct (IH Hok ltac:(lia)) as (Hb & (H0 & HR) & Hn & Hlen).
  rewrite foldl_app. cbn [foldl]. set (b := foldl _ _ es) in *. destruct e as [k v].
  split; [|split; [split|split]].
  - rewrite Add_buffer by done. rewrite Hb, encode_entries_app. f_equal.
    unfold encode_entries. simpl. by rewrite app_nil_r.
  - unfold Builder.Add. cbn [Builder.restarts_]. case_if; [|done].
    rewrite lookup_app_l; [done|]. apply lookup_lt_is_Some. eauto.
  - assert (∀ j x, (0 < j)%nat → Builder.restarts_ b !! j = Some x →
      ∃ i, x = offs (es ++ [(k, v)]) i ∧ (i < length (es ++ [(k, v)]))%nat) as Hold.
    { intros j x Hj0 Hj. destruct (HR j x Hj0 Hj) as (i & -> & Hi). exists i.
      rewrite length_app. simpl. split; [|lia]. symmetry. apply offs_app. lia. }
    intros j x. unfold Builder.Add. cbn [Builder.restarts_]. case_if; [|apply Hold].
    intros Hj0 [Hj|[_ Hj]]%lookup_app_Some; [by eapply Hold|].
    apply list_lookup_singleton_Some in Hj as [_ <-].
    exists (length es). rewrite offs_app, offs_all, Hb by done.
    rewrite length_app. simpl. split; [|lia].
    apply u32_id. unfold u32_ok. pose proof (len_nonneg (encode_entries es)). lia.
  - unfold Builder.Add. cbn [Builder.num_entries_]. rewrite Hn, len_app, len_cons, len_nil.
    unfold u32. by rewrite Zplus_mod_idemp_l.
  - unfold Builder.Add. cbn [Builder.restarts_]. rewrite length_app. case_if; simpl; [|lia].
    rewrite length_app. simpl. lia.
Qed.

Lemma PutRestarts_eq dst R : Builder.PutRestarts dst R = dst ++ concat (map EncodeFixed32 R).
Proof.
  revert dst. induction R as [|x R IH]; intros dst; simpl; [by rewrite app_nil_r|].
  rewrite IH. unfold PutFixed32. by rewrite <- app_assoc.
Qed.

Lemma len_restarts R : len (concat (map EncodeFixed32 R)) = 4 * len R.
Proof.
  induction R as [|x R IH]; [done|]. cbn [map concat]. rewrite len_app, IH, len_EncodeFixed32, len_cons. lia.
Qed.

(** A block: its entries, then its restart points. *)
Lemma Build_spec I es :
  Forall entry_ok es → len (Builder.Build I es) < 2 ^ 32 →
  ∃ R, Builder.Build I es = encode_entries es ++ encode_restarts R ∧ restarts_ok es R ∧
    len R < 2 ^ 30.
Proof.
  intros Hok. unfold Builder.Build, Builder.Finish. cbn [snd].
  rewrite PutRestarts_eq, AddAll_buffer by done. unfold PutFixed32.
  rewrite !len_app, len_restarts, len_EncodeFixed32. intros Hsz.
  pose proof (len_nonneg (encode_entries es)).
  pose proof (len_nonneg (Builder.restarts_ (Builder.AddAll (Builder.New I) es))).
  destruct (AddAll_spec I es Hok ltac:(lia)) as (_ & HR & _).
  eexists. split; [|split; [done|lia]]. rewrite <- app_assoc. unfold encode_restarts.
  by rewrite u32_id by (unfold u32_ok; lia).
Qed.

(** ** Lemmas: decoding an entry *)

Lemma varint_head v :
  u32_ok v → (v < 128 ∧ EncodeVarint32 v = [v]) ∨ ∃ b s, EncodeVarint32 v = b :: s ∧ 128 ≤ b.
Proof.
  intros Hv. rewrite EncodeVarint32_canonical by done. cbn [varint].
  destruct (Z.ltb_spec v 128); [by left|]. right. eexists _, _. split; [done|].
  pose proof (Z.mod_pos_bound v 128). lia.
Qed.

Lemma GetVarint32Ptr_put v rest :
  u32_ok v → GetVarint32Ptr (EncodeVarint32 v ++ rest) = Some (v, rest).
Proof.
  intros Hv. pose proof (GetVarint32_put v rest Hv) as H. unfold GetVarint32 in H.
  by destruct (GetVarint32Ptr _) as [[? ?]|].
Qed.

Lemma lor_ge_l a b : 0 ≤ a → 0 ≤ b → a ≤ Z.lor a b.
Proof.
  intros Ha Hb. assert (Z.ldiff a (Z.lor a b) = 0) as H0.
  { apply Z.bits_inj'. intros i Hi. rewrite Z.ldiff_spec, Z.lor_spec, Z.bits_0.
    by destruct (Z.testbit a i), (Z.testbit b i). }
  pose proof (Z.sub_nocarry_ldiff (Z.lor a b) a H0).
  assert (0 ≤ Z.ldiff (Z.lor a b) a); [|lia]. apply Z.ldiff_nonneg. left. by apply Z.lor_nonneg.
Qed.

Lemma at_ok s i : bytes_ok s → byte_ok (at_ s i).
Proof.
  intros Hs. rewrite at_default. destruct (s !! _) eqn:E; simpl; [|unfold byte_ok; lia].
  by apply (proj1 (Forall_lookup _ _) Hs _ _ E).
Qed.

(** The first byte of a varint in a longer string. *)
Lemma at_varint X v rest :
  u32_ok v →
  (v < 128 ∧ at_ (X ++ EncodeVarint32 v ++ rest) (len X) = v ∧ EncodeVarint32 v = [v]) ∨
  128 ≤ at_ (X ++ EncodeVarint32 v ++ rest) (len X).
Proof.
  intros Hv. rewrite at_app_r, Z.sub_diag by lia.
  destruct (varint_head v Hv) as [[? E]|(b & s & E & ?)]; rewrite E; [left|right]; done.
Qed.

Lemma DecodeEntry_encode e rest :
  entry_ok e → len (e.1 ++ e.2 ++ rest) < 2 ^ 32 →
  DecodeEntry (encode_entry e ++ rest) = Some (0, len e.1, len e.2, e.1 ++ e.2 ++ rest).
Proof.
  intros [Hk Hv] Hsz. unfold encode_entry, entry_header. rewrite <- !app_assoc.
  set (T := e.1 ++ e.2 ++ rest) in *.
  pose proof (len_EncodeVarint32 _ Hk) as Lk. pose proof (len_EncodeVarint32 _ Hv) as Lv.
  pose proof (len_nonneg T) as HT.
  unfold DecodeEntry. change (EncodeVarint32 0) with [0].
  rewrite (proj2 (Z.ltb_ge _ 3)) by (rewrite !len_app; change (len [0]) with 1; lia).
  assert (u32 (len T) <? u32 (len e.1 + len e.2) = false) as Hfits.
  { unfold T in *. rewrite !len_app in *. pose proof (len_nonneg rest).
    unfold u32_ok in *. rewrite !u32_id by (unfold u32_ok; lia). apply Z.ltb_ge. lia. }
  change (at_ ([0] ++ ?x) 0) with 0. rewrite Z.lor_0_l.
  assert (byte_ok (at_ ([0] ++ EncodeVarint32 (len e.1) ++ EncodeVarint32 (len e.2) ++ T) 2)) as B2.
  { rewrite app_assoc, app_assoc, at_app_l by (rewrite !len_app; change (len [0]) with 1; lia).
    apply at_ok. rewrite !bytes_ok_app. repeat split; eauto with doux. repeat constructor; lia. }
  pose proof (at_varint [0] (len e.1) (EncodeVarint32 (len e.2) ++ T) Hk) as D1.
  change (len [0]) with 1 in D1. set (p := [0] ++ _) in *.
  pose proof (lor_ge_l (at_ p 1) (at_ p 2)) as G1. pose proof (lor_ge_l (at_ p 2) (at_ p 1)) as G2.
  rewrite (Z.lor_comm (at_ p 2)) in G2. unfold byte_ok in B2.
  destruct (Z.ltb_spec (Z.lor (at_ p 1) (at_ p 2)) 128) as [Hfast|Hslow].
  - destruct D1 as [(Hk1 & Ek & Vk)|]; [|lia]. rewrite Ek in *.
    pose proof (at_varint [0; len e.1] (len e.2) T Hv) as D2. change (len [0; len e.1]) with 2 in D2.
    assert (p = [0; len e.1] ++ EncodeVarint32 (len e.2) ++ T) as Ep by (unfold p; by rewrite Vk).
    rewrite <- Ep in D2. unfold u32_ok in Hk. destruct D2 as [(_ & Ev & Vv)|]; [|lia].
    rewrite Ev. cbn [mbind option_bind]. rewrite Ep, Vv.
    change (skip 3 _) with T. by rewrite Hfits.
  - unfold p. change (GetVarint32Ptr ([0] ++ ?x)) with (Some (0, x)). cbn [mbind option_bind].
    rewrite GetVarint32Ptr_put by done. cbn [mbind option_bind].
    rewrite GetVarint32Ptr_put by done. cbn [mbind option_bind]. by rewrite Hfits.
Qed.

(** ** Lemmas: the iterator *)

Section iter.

Context (c : Comparator) (es : list (bytes * bytes)) (R : list Z).
Context (Hok : Forall entry_ok es) (HR : restarts_ok es R) (HRlen : len R < 2 ^ 30).
Context (Hsz : len (encode_entries es) < 2 ^ 32).

Let D := encode_entries es.
Let contents := D ++ encode_restarts R.

Lemma R_nonempty : 0 < len R.
Proof. destruct HR as [H0 _]. destruct R; [done|]. rewrite len_cons. pose proof (len_nonneg l). lia. Qed.

Lemma encode_entry_len e : entry_ok e → 3 + len e.1 + len e.2 ≤ len (encode_entry e).
Proof.
  intros [Hk Hv]. unfold encode_entry, entry_header. rewrite !len_app.
  pose proof (len_EncodeVarint32 _ Hk). pose proof (len_EncodeVarint32 _ Hv).
  change (len (EncodeVarint32 0)) with 1. lia.
Qed.

(** Where entry [i] is. *)
Lemma entry_split i e :
  es !! i = Some e →
  encode_entries es = encode_entries (take i es) ++ encode_entry e ++ encode_entries (drop (S i) es) ∧
  offs es (S i) = offs es i + len (encode_entry e).
Proof.
  intros Hi. assert (encode_entries [e] = encode_entry e) as E1
    by (unfold encode_entries; simpl; by rewrite app_nil_r).
  split.
  - rewrite <- (take_drop_middle _ _ _ Hi) at 1.
    change (e :: drop (S i) es) with ([e] ++ drop (S i) es). by rewrite !encode_entries_app, E1.
  - unfold offs. rewrite (take_S_r _ _ _ Hi), encode_entries_app, len_app, E1. done.
Qed.

Lemma offs_lt i j : (i < j ≤ length es)%nat → offs es i + 3 ≤ offs es j.
Proof.
  intros [Hlt Hj]. induction Hlt as [|j Hlt IH].
  - destruct (lookup_lt_is_Some_2 es i ltac:(lia)) as [e He].
    destruct (entry_split i e He) as [_ ->].
    pose proof (encode_entry_len e (proj1 (Forall_lookup _ _) Hok _ _ He)).
    pose proof (len_nonneg e.1). pose proof (len_nonneg e.2). lia.
  - destruct (lookup_lt_is_Some_2 es j ltac:(lia)) as [e He].
    destruct (entry_split j e He) as [_ ->]. specialize (IH ltac:(lia)).
    pose proof (len_nonneg (encode_entry e)). lia.
Qed.

Lemma offs_count i : (i ≤ length es)%nat → Z.of_nat i ≤ offs es i.
Proof.
  induction i as [|i IH]; intros Hi; [done|].
  pose proof (offs_lt i (S i) ltac:(lia)). specialize (IH ltac:(lia)). lia.
Qed.

Lemma offs_bound i : 0 ≤ offs es i ≤ len D.
Proof.
  unfold offs, D. split; [apply len_nonneg|].
  rewrite <- (take_drop i es) at 2. rewrite encode_entries_app, len_app.
  pose proof (len_nonneg (encode_entries (drop i es))). lia.
Qed.

Lemma offs_end : offs es (length es) = len D.
Proof. apply offs_all. Qed.

(** The fixed part of the iterator's state. *)
Record of_block (it : Iter.t) : Prop := {
  ob_cmp : Iter.comparator_ it = c;
  ob_data : Iter.data_ it = contents;
  ob_restarts : Iter.restarts_ it = len D;
  ob_num : Iter.num_restarts_ it = len R;
  ob_status : Iter.status_ok it = true
}.

(** The entry [ParseNextKey] will read is [i]. *)
Record before (it : Iter.t) (i : nat) : Prop := {
  be_block : of_block it;
  be_index : 0 ≤ Iter.restart_index_ it < len R;
  be_le : (i ≤ length es)%nat;
  be_next : Iter.NextEntryOffset it = Some (offs es i)
}.

(** The iterator is at entry [i]. *)
Record at_entry (it : Iter.t) (i : nat) : Prop := {
  ae_before : before it (S i);
  ae_current : Iter.current_ it = offs es i;
  ae_entry : es !! i = Some (Iter.key_ it, Iter.value it)
}.

Record at_end (it : Iter.t) : Prop := {
  en_block : of_block it;
  en_current : Iter.current_ it = len D
}.

Lemma R_entry j x :
  R !! j = Some x → ∃ i, x = offs es i ∧ (i < length es ∨ j = 0 ∧ i = 0)%nat.
Proof.
  intros Hj. destruct HR as [H0 HR']. destruct j as [|j].
  - rewrite H0 in Hj. simplify_eq. exists 0%nat. split; [done|lia].
  - destruct (HR' (S j) x ltac:(lia) Hj) as (i & ? & ?). eauto.
Qed.

Lemma GetRestartPoint_ok it j x :
  of_block it → 0 ≤ j → R !! Z.to_nat j = Some x → Iter.GetRestartPoint it j = Some x.
Proof.
  intros [? Hd Hr Hn ?] Hj0 Hj. unfold Iter.GetRestartPoint. rewrite Hd, Hr.
  pose proof (lookup_lt_Some _ _ _ Hj) as Hlt.
  assert (u32_ok x) as Hx.
  { destruct (R_entry _ _ Hj) as (i & -> & _).
    pose proof (offs_bound i). unfold u32_ok, D in *. lia. }
  pose proof (len_nonneg D). unfold contents, encode_restarts.
  rewrite !len_app, len_restarts, len_EncodeFixed32.
  rewrite (proj2 (Z.leb_le 0 _)), (proj2 (Z.leb_le _ (_ + _))) by (unfold len in *; lia).
  cbn [andb]. f_equal.
  rewrite <- (take_drop_middle _ _ _ Hj), map_app, concat_app. cbn [map concat].
  rewrite <- !app_assoc, !app_assoc, <- app_assoc, <- app_assoc.
  rewrite skip_app.
  - apply DecodeFixed32_app. done.
  - rewrite len_app, len_restarts. unfold len at 3. rewrite length_take. lia.
Qed.

Lemma R_lookup j : 0 ≤ j < len R → ∃ x, R !! Z.to_nat j = Some x.
Proof. intros. apply lookup_lt_is_Some_2. unfold len in *. lia. Qed.

Lemma AdvanceRestart_ok fuel it cur ri :
  of_block it → 0 ≤ ri < len R → (Z.to_nat (len R - ri) < fuel)%nat →
  ∃ ri', Iter.AdvanceRestart fuel it cur ri = Some ri' ∧ 0 ≤ ri' < len R.
Proof.
  intros Hb. revert ri. induction fuel as [|fuel IH]; intros ri Hri Hf; [lia|].
  cbn [Iter.AdvanceRestart]. rewrite (ob_num _ Hb), u32_id by (unfold u32_ok; lia).
  destruct (Z.ltb_spec (ri + 1) (len R)) as [Hlt|]; [|eauto].
  destruct (R_lookup (ri + 1) ltac:(lia)) as [x Hx].
  rewrite (GetRestartPoint_ok it _ x Hb) by (done || lia). cbn [mbind option_bind].
  case_if; [|eauto]. apply IH; lia.
Qed.

Lemma of_block_set_pos a b it : of_block it → of_block (Iter.set_pos a b it).
Proof. by intros []. Qed.

Lemma of_block_set_kv a b it : of_block it → of_block (Iter.set_kv a b it).
Proof. by intros []. Qed.

#[local] Hint Resolve of_block_set_pos of_block_set_kv : core.

(** The bytes of the block from an entry on. *)
Lemma block_at i e :
  es !! i = Some e →
  slice contents (offs es i) (len D - offs es i) =
    encode_entry e ++ encode_entries (drop (S i) es) ∧
  len (e.1 ++ e.2 ++ encode_entries (drop (S i) es)) = len D - offs es i - len (entry_header e) ∧
  slice contents (offs es i + len (entry_header e)) (len e.1) = e.1 ∧
  slice contents (offs es i + len (entry_header e) + len e.1) (len e.2) = e.2 ∧
  offs es (S i) = offs es i + len (entry_header e) + len e.1 + len e.2.
Proof.
  intros Hi. destruct (entry_split i e Hi) as [HD Hoff].
  assert (len D = offs es i + len (encode_entry e ++ encode_entries (drop (S i) es))) as HlD.
  { unfold D. by rewrite HD, len_app. }
  unfold contents, D. rewrite HD. split; [|split; [|split; [|split]]].
  - rewrite <- app_assoc. apply slice_app; [done|]. fold D. unfold D. rewrite <- HD. fold D. lia.
  - rewrite <- HD. fold D. rewrite HlD. unfold encode_entry. rewrite !len_app. lia.
  - unfold encode_entry. rewrite <- !app_assoc, (app_assoc _ (entry_header e)).
    apply slice_app; [by rewrite len_app|done].
  - unfold encode_entry. rewrite <- !app_assoc, (app_assoc _ (entry_header e)), (app_assoc _ e.1).
    apply slice_app; [by rewrite !len_app|done].
  - rewrite Hoff. unfold encode_entry. rewrite !len_app. lia.
Qed.

Lemma ParseNextKey_entry it i :
  before it i → (i < length es)%nat →
  ∃ it', Iter.ParseNextKey it = Some (true, it') ∧ at_entry it' i.
Proof.
  intros [Hb Hri _ Hnext] Hi. destruct (lookup_lt_is_Some_2 es i Hi) as [e He].
  destruct (block_at i e He) as (Hsl & Hlen & Hk & Hv & Hoff).
  pose proof (proj1 (Forall_lookup _ _) Hok _ _ He) as Heok.
  pose proof (offs_lt i (S i) ltac:(lia)). pose proof (offs_bound (S i)) as HSi. pose proof (offs_bound i) as Hi'.
  pose proof (len_nonneg (entry_header e)). pose proof (len_nonneg e.1). pose proof (len_nonneg e.2).
  assert (len D ≤ len contents) as Hc
    by (unfold contents; rewrite len_app; pose proof (len_nonneg (encode_restarts R)); lia).
  unfold Iter.ParseNextKey. rewrite Hnext. cbn [mbind option_bind].
  rewrite Z.geb_leb, (ob_restarts _ Hb), (proj2 (Z.leb_gt _ _)) by lia.
  cbn [Iter.set_pos Iter.data_ Iter.restarts_ Iter.key_ Iter.num_restarts_ Iter.restart_index_].
  rewrite (ob_data _ Hb), (ob_restarts _ Hb), Hsl, DecodeEntry_encode, Hlen by (done || (fold D in Hsz; lia)).
  rewrite (proj2 (Z.ltb_ge _ 0)) by apply len_nonneg.
  replace (len D - (len D - offs es i - len (entry_header e))) with (offs es i + len (entry_header e)) by lia.
  rewrite (proj2 (Z.leb_le _ _)) by lia. rewrite Hk.
  match goal with |- context [Iter.AdvanceRestart ?f ?it1 ?cur ?ri] =>
    destruct (AdvanceRestart_ok f it1 cur ri) as (ri' & Hri' & Hrange) end.
  { auto. } { done. } { cbn. rewrite (ob_num _ Hb). lia. }
  rewrite Hri'. cbn [mbind option_bind]. eexists. split; [done|].
  split; [split|..]; [auto|done|lia| |done|].
  - unfold Iter.NextEntryOffset. cbn. rewrite u32_id by (unfold u32_ok; fold D in Hsz; lia). f_equal. lia.
  - unfold Iter.value. cbn. rewrite (ob_data _ Hb), Hv, He. by destruct e.
Qed.

Lemma ParseNextKey_end it :
  before it (length es) → ∃ it', Iter.ParseNextKey it = Some (false, it') ∧ at_end it'.
Proof.
  intros [Hb Hri _ Hnext]. unfold Iter.ParseNextKey. rewrite Hnext, offs_end. cbn [mbind option_bind].
  rewrite Z.geb_leb, (ob_restarts _ Hb), (proj2 (Z.leb_le _ _)) by lia.
  eexists. split; [done|]. split; [auto|done].
Qed.

(** [ParseNextKey], with both outcomes. *)
Lemma ParseNextKey_ok it i :
  before it i →
  (i = length es ∧ ∃ it', Iter.ParseNextKey it = Some (false, it') ∧ at_end it') ∨
  ((i < length es)%nat ∧ ∃ it', Iter.ParseNextKey it = Some (true, it') ∧ at_entry it' i).
Proof.
  intros Hbe. pose proof (be_le _ _ Hbe).
  destruct (decide (i = length es)) as [->|]; [left|right]; (split; [lia || done|]).
  - by apply ParseNextKey_end.
  - apply ParseNextKey_entry; [done|lia].
Qed.

Lemma SeekToRestartPoint_ok it j :
  of_block it → 0 ≤ j < len R →
  ∃ it' i, Iter.SeekToRestartPoint j it = Some it' ∧ before it' i ∧
    R !! Z.to_nat j = Some (offs es i) ∧ ((i < length es)%nat ∨ j = 0 ∧ i = 0%nat).
Proof.
  intros Hb Hj. destruct (R_lookup j Hj) as [x Hx].
  destruct (R_entry _ _ Hx) as (i & -> & Hi). exists (Iter.set_kv [] (Some (offs es i, 0)) (Iter.set_pos (Iter.current_ it) j it)), i.
  unfold Iter.SeekToRestartPoint. rewrite (GetRestartPoint_ok it j _ Hb) by (done || lia).
  split; [done|]. split; [|split; [done|]; destruct Hi as [|[? ?]]; [by left|right; split; [lia|done]]].
  pose proof (offs_bound i).
  split; [auto|done|destruct Hi as [|[_ ->]]; lia|].
  unfold Iter.NextEntryOffset. cbn. rewrite Z.add_0_r, u32_id by (unfold u32_ok; fold D in Hsz; lia). done.
Qed.

Lemma SkipUntil_ok fuel it i t :
  before it i → (i ≤ t < length es)%nat → (t - i < fuel)%nat →
  ∃ it', Iter.SkipUntil fuel (offs es (S t)) it = Some it' ∧ at_entry it' t.
Proof.
  revert it i. induction fuel as [|fuel IH]; intros it i Hbe Hit Hf; [lia|].
  destruct (ParseNextKey_entry it i Hbe ltac:(lia)) as (it1 & Hp & Hat).
  cbn [Iter.SkipUntil]. rewrite Hp. cbn [mbind option_bind negb].
  rewrite (be_next _ _ (ae_before _ _ Hat)). cbn [mbind option_bind].
  destruct (decide (i = t)) as [->|Hne].
  - rewrite Z.ltb_irrefl. eauto.
  - pose proof (offs_lt (S i) (S t) ltac:(lia)). rewrite (proj2 (Z.ltb_lt _ _)) by lia.
    apply (IH it1 (S i)); [apply Hat|lia|lia].
Qed.

(** The linear search stops at the first key that is not below the target. *)
Lemma SeekLinear_ok fuel target it i :
  before it i → (length es - i < fuel)%nat →
  ∃ it', Iter.SeekLinear fuel target it = Some it' ∧
    ((at_end it' ∧ ∀ j e, (i ≤ j)%nat → es !! j = Some e → Compare c e.1 target < 0) ∨
     ∃ t, (i ≤ t)%nat ∧ at_entry it' t ∧ 0 ≤ Compare c (Iter.key_ it') target ∧
       ∀ j e, (i ≤ j < t)%nat → es !! j = Some e → Compare c e.1 target < 0).
Proof.
  revert it i. induction fuel as [|fuel IH]; intros it i Hbe Hf; [lia|].
  cbn [Iter.SeekLinear]. destruct (ParseNextKey_ok it i Hbe) as [[-> (it1 & -> & He)]|[Hi (it1 & -> & Hat)]];
    cbn [mbind option_bind negb orb].
  - eexists. split; [done|]. left. split; [done|]. intros j e Hj He'.
    apply lookup_lt_Some in He'. lia.
  - rewrite (ob_cmp _ (be_block _ _ (ae_before _ _ Hat))), Z.geb_leb.
    destruct (Z.leb_spec 0 (Compare c (Iter.key_ it1) target)) as [Hge|Hlt].
    + eexists. split; [done|]. right. exists i.
      do 3 (split; [done|]). intros j e ?. lia.
    + pose proof (ae_entry _ _ Hat) as Hent.
      assert (∀ j e, j = i → es !! j = Some e → Compare c e.1 target < 0) as Hhere.
      { intros j e -> He'. by simplify_eq. }
      destruct (IH it1 (S i) (ae_before _ _ Hat) ltac:(lia)) as (it' & -> & [[Hend Hall]|(t & Ht & Hat' & Hge & Hall)]).
      * eexists. split; [done|]. left. split; [done|]. intros j e Hj He'.
        destruct (decide (j = i)); [eauto|]. apply (Hall j e); [lia|done].
      * eexists. split; [done|]. right. exists t.
        split; [lia|]. do 2 (split; [done|]).
        intros j e Hj He'. destruct (decide (j = i)); [eauto|]. apply (Hall j e); [lia|done].
Qed.

Lemma before_first it i : before it i → R !! 0%nat = Some (offs es i) → i = 0%nat.
Proof.
  intros Hbe H0. destruct HR as [H0' _]. rewrite H0' in H0. injection H0 as H0.
  pose proof (offs_count i (be_le _ _ Hbe)). lia.
Qed.

(** A restart point below the target, or the first one. *)
Definition low_restart (target : bytes) (j : Z) : Prop :=
  j = 0 ∨ ∃ i e, R !! Z.to_nat j = Some (offs es i) ∧ es !! i = Some e ∧ Compare c e.1 target < 0.

Lemma SeekRestart_ok fuel it target left right :
  of_block it → 0 ≤ left ≤ right → right < len R → low_restart target left →
  (Z.to_nat (right - left) < fuel)%nat →
  ∃ l, Iter.SeekRestart fuel it target left right = Some (inr l) ∧ 0 ≤ l < len R ∧ low_restart target l.
Proof.
  intros Hb. revert left right. induction fuel as [|fuel IH]; intros left right Hlr Hr Hlow Hf; [lia|].
  cbn [Iter.SeekRestart]. destruct (Z.ltb_spec left right) as [Hlt|]; [|exists left; repeat split; done || lia].
  rewrite u32_id by (unfold u32_ok; lia). set (mid := (left + right + 1) / 2).
  assert (left < mid ≤ right) as Hmid by (unfold mid; Z.div_mod_to_equations; lia).
  destruct (R_lookup mid ltac:(lia)) as [x Hx].
  rewrite (GetRestartPoint_ok it mid x Hb) by (done || lia). cbn [mbind option_bind].
  destruct (R_entry _ _ Hx) as (i & -> & Hi). destruct Hi as [Hi|[? ?]]; [|lia].
  destruct (lookup_lt_is_Some_2 es i Hi) as [e He].
  destruct (block_at i e He) as (Hsl & Hlen & _). pose proof (offs_bound i). pose proof (len_nonneg (entry_header e)).
  rewrite (ob_data _ Hb), (ob_restarts _ Hb), Hsl, DecodeEntry_encode
    by (first [exact (proj1 (Forall_lookup _ _) Hok _ _ He)|fold D in Hsz; lia]).
  cbn [negb Z.eqb]. rewrite first_app by done. rewrite (ob_cmp _ Hb).
  case_if; apply IH; try lia; [|done]. right. eauto.
Qed.

(** ** The iterator as a cursor *)

Definition rep (it : Iter.t) (pos : option nat) : Prop :=
  match pos with Some i => at_entry it i | None => at_end it end.

Lemma rep_block it pos : rep it pos → of_block it.
Proof. destruct pos; [intros Hat; apply Hat|intros He; apply He]. Qed.

Lemma Seek_rep target it :
  of_block it → (∀ i j a b, (i < j)%nat → es !! i = Some a → es !! j = Some b →
    Compare c b.1 target < 0 → Compare c a.1 target < 0) →
  ∃ it', Iter.Seek target it = Some it' ∧
    rep it' (fst <$> list_find (λ e, 0 ≤ Compare c e.1 target) es).
Proof.
  intros Hb Hsorted. unfold Iter.Seek. pose proof R_nonempty.
  rewrite (ob_num _ Hb), u32_id by (unfold u32_ok; lia).
  destruct (SeekRestart_ok (S (Z.to_nat (len R))) it target 0 (len R - 1)) as (l & -> & Hl & Hlow);
    [done|lia|lia|by left|lia|]. cbn [mbind option_bind].
  destruct (SeekToRestartPoint_ok it l Hb Hl) as (it1 & i & -> & Hbe & Hi & _). cbn [mbind option_bind].
  assert (∀ j e, (j < i)%nat → es !! j = Some e → Compare c e.1 target < 0) as Hbelow.
  { intros j e Hj He. destruct Hlow as [->|(i' & e' & Hi' & He' & Hlt)].
    - pose proof (before_first _ _ Hbe Hi). lia.
    - rewrite Hi in Hi'. injection Hi' as Hi'.
      assert (i = i') as <-; [|eauto].
      pose proof (lookup_lt_Some _ _ _ He'). pose proof (be_le _ _ Hbe).
      destruct (lt_eq_lt_dec i i') as [[Hlt'|]|Hlt']; [|done|].
      + pose proof (offs_lt i i' ltac:(lia)). lia.
      + pose proof (offs_lt i' i ltac:(lia)). lia. }
  destruct (SeekLinear_ok (Iter.fuel it1) target it1 i Hbe) as (it2 & -> & Hres).
  { unfold Iter.fuel. rewrite (ob_restarts _ (be_block _ _ Hbe)).
    pose proof (offs_count (length es) ltac:(done)). rewrite offs_end in *. lia. }
  exists it2. split; [done|]. destruct Hres as [[Hend Hall]|(t & Ht & Hat & Hge & Hall)].
  - replace (list_find _ es) with (@None (nat * (bytes * bytes))); [done|]. symmetry.
    apply list_find_None, Forall_lookup. intros j e He.
    destruct (decide (i ≤ j)%nat); [specialize (Hall j e ltac:(lia) He)|specialize (Hbelow j e ltac:(lia) He)]; lia.
  - replace (list_find _ es) with (Some (t, (Iter.key_ it2, Iter.value it2))); [done|]. symmetry.
    apply list_find_Some. split; [apply Hat|]. split; [done|]. intros j e He Hj.
    destruct (decide (i ≤ j)%nat); [specialize (Hall j e ltac:(lia) He)|specialize (Hbelow j e ltac:(lia) He)]; lia.
Qed.

Lemma SeekToFirst_rep it :
  of_block it →
  ∃ it', Iter.SeekToFirst it = Some it' ∧ rep it' (if (length es =? 0)%nat then None else Some 0%nat).
Proof.
  intros Hb. unfold Iter.SeekToFirst. pose proof R_nonempty.
  destruct (SeekToRestartPoint_ok it 0 Hb ltac:(lia)) as (it1 & i & -> & Hbe & Hi & _).
  pose proof (before_first _ _ Hbe Hi) as ->. cbn [mbind option_bind].
  destruct (ParseNextKey_ok it1 0 Hbe) as [[<- (it2 & -> & He)]|[Hl (it2 & -> & Hat)]]; cbn [mbind option_bind].
  - eauto.
  - rewrite (proj2 (Nat.eqb_neq _ _)) by lia. eauto.
Qed.

Lemma SeekToLast_rep it :
  of_block it →
  ∃ it', Iter.SeekToLast it = Some it' ∧
    rep it' (if (length es =? 0)%nat then None else Some (pred (length es))).
Proof.
  intros Hb. unfold Iter.SeekToLast. pose proof R_nonempty.
  rewrite (ob_num _ Hb), u32_id by (unfold u32_ok; lia).
  destruct (SeekToRestartPoint_ok it (len R - 1) Hb ltac:(lia)) as (it1 & i & -> & Hbe & _ & Hi).
  cbn [mbind option_bind]. pose proof (be_le _ _ Hbe).
  destruct (Nat.eqb_spec (length es) 0) as [Hz|Hnz].
  - assert (i = length es) as -> by lia. unfold Iter.fuel. cbn [Iter.SkipUntil].
    destruct (ParseNextKey_end it1 Hbe) as (it2 & -> & He). cbn [mbind option_bind negb]. eauto.
  - rewrite (ob_restarts _ (be_block _ _ Hbe)), <- offs_end.
    assert (offs es (length es) = offs es (S (pred (length es)))) as -> by (f_equal; lia).
    destruct (SkipUntil_ok (Iter.fuel it1) it1 i (pred (length es)) Hbe) as (it2 & -> & Hat); [lia| |eauto].
    unfold Iter.fuel. rewrite (ob_restarts _ (be_block _ _ Hbe)).
    pose proof (offs_count (length es) ltac:(done)). rewrite offs_end in *. lia.
Qed.

Lemma Next_rep it i :
  at_entry it i →
  ∃ it', Iter.Next it = Some it' ∧ rep it' (if (S i <? length es)%nat then Some (S i) else None).
Proof.
  intros Hat. unfold Iter.Next.
  destruct (ParseNextKey_ok it (S i) (ae_before _ _ Hat)) as [[Hi (it2 & -> & He)]|[Hl (it2 & -> & Hat')]];
    cbn [mbind option_bind].
  - rewrite (proj2 (Nat.ltb_ge _ _)) by lia. eauto.
  - rewrite (proj2 (Nat.ltb_lt _ _)) by lia. eauto.
Qed.

Lemma PrevRestart_ok fuel it original ri :
  of_block it → 0 ≤ ri < len R → (Z.to_nat ri < fuel)%nat → 0 ≤ original →
  (original = 0 ∧ Iter.PrevRestart fuel it original ri = Some (inl tt)) ∨
  ∃ r x, Iter.PrevRestart fuel it original ri = Some (inr r) ∧ 0 ≤ r < len R ∧
    R !! Z.to_nat r = Some x ∧ x < original.
Proof.
  intros Hb. revert ri. induction fuel as [|fuel IH]; intros ri Hri Hf Ho; [lia|].
  cbn [Iter.PrevRestart]. destruct (R_lookup ri Hri) as [x Hx].
  rewrite (GetRestartPoint_ok it ri x Hb) by (done || lia). cbn [mbind option_bind]. rewrite Z.geb_leb.
  destruct (Z.leb_spec original x) as [Hge|Hlt]; [|right; eauto 10].
  destruct (Z.eqb_spec ri 0) as [->|]; [|apply IH; lia].
  left. destruct HR as [H0 _]. change (Z.to_nat 0) with 0%nat in Hx. rewrite H0 in Hx. simplify_eq.
  split; [lia|done].
Qed.

Lemma Prev_rep it i :
  at_entry it i → ∃ it', Iter.Prev it = Some it' ∧ rep it' (match i with O => None | S j => Some j end).
Proof.
  intros Hat. pose proof (be_block _ _ (ae_before _ _ Hat)) as Hb.
  pose proof (be_index _ _ (ae_before _ _ Hat)) as Hri.
  pose proof (lookup_lt_Some _ _ _ (ae_entry _ _ Hat)) as Hi. pose proof (offs_bound i) as Hoff.
  unfold Iter.Prev. rewrite (ae_current _ _ Hat).
  destruct (PrevRestart_ok (S (Z.to_nat (Iter.restart_index_ it))) it (offs es i) (Iter.restart_index_ it) Hb Hri)
    as [[H0 ->]|(r & x & -> & Hr & Hx & Hlt)]; [lia|lia| |]; cbn [mbind option_bind].
  - pose proof (offs_count i ltac:(lia)). replace i with 0%nat by lia.
    eexists. split; [done|]. split; [auto|]. apply (ob_restarts _ Hb).
  - destruct (SeekToRestartPoint_ok (Iter.set_pos (offs es i) r it) r ltac:(auto) Hr)
      as (it1 & j & -> & Hbe & Hj & _). cbn [mbind option_bind].
    rewrite Hx in Hj. injection Hj as ->.
    destruct i as [|i]. { pose proof (offs_bound j). change (offs es 0) with 0 in Hlt. lia. }
    assert (j ≤ i)%nat as Hji.
    { destruct (decide (j ≤ i)%nat); [done|]. exfalso. destruct (decide (j = S i)) as [->|]; [lia|].
      pose proof (be_le _ _ Hbe). pose proof (offs_lt (S i) j ltac:(lia)). lia. }
    destruct (SkipUntil_ok (Iter.fuel it1) it1 j i Hbe) as (it2 & -> & Hat2); [lia| |eauto].
    unfold Iter.fuel. rewrite (ob_restarts _ (be_block _ _ Hbe)).
    pose proof (offs_count (length es) ltac:(done)). rewrite offs_end in *. lia.
Qed.

End iter.

(** ** The abstract cursor *)

(** What an iterator over a list of entries promises: a position, or none. *)
Module Cursor.

Inductive op := Seek (target : bytes) | SeekToFirst | SeekToLast | Next | Prev.

(** [None]: the operation requires a valid position. *)
Definition step (c : Comparator) (es : list (bytes * bytes)) (pos : option nat) (o : op) : option (option nat) :=
  match o, pos with
  | Seek target, _ => Some (fst <$> list_find (λ e, 0 ≤ Compare c e.1 target) es)
  | SeekToFirst, _ => Some (if (length es =? 0)%nat then None else Some 0%nat)
  | SeekToLast, _ => Some (if (length es =? 0)%nat then None else Some (pred (length es)))
  | Next, Some i => Some (if (S i <? length es)%nat then Some (S i) else None)
  | Prev, Some i => Some (match i with O => None | S j => Some j end)
  | _, None => None
  end.

Fixpoint run (c : Comparator) es (pos : option nat) (l : list op) : option (option nat) :=
  match l with
  | [] => Some pos
  | o :: l' => pos ← step c es pos o; run c es pos l'
  end.

(** The targets of the searches of a run. *)
Definition targets_in (dom : bytes → Prop) (l : list op) : Prop :=
  Forall (λ o, match o with Seek t => dom t | _ => True end) l.

End Cursor.

Definition iter_step (o : Cursor.op) (it : Iter.t) : option Iter.t :=
  match o with
  | Cursor.Seek target => Iter.Seek target it
  | Cursor.SeekToFirst => Iter.SeekToFirst it
  | Cursor.SeekToLast => Iter.SeekToLast it
  | Cursor.Next => Iter.Next it
  | Cursor.Prev => Iter.Prev it
  end.

Fixpoint iter_run (l : list Cursor.op) (it : Iter.t) : option Iter.t :=
  match l with
  | [] => Some it
  | o :: l' => it ← iter_step o it; iter_run l' it
  end.

(** The entries are in the order of the comparator. *)
Definition keys_sorted (c : Comparator) (es : list (bytes * bytes)) : Prop :=
  StronglySorted (λ a b, Compare c a.1 b.1 < 0) es.

Lemma keys_sorted_lookup c es i j a b :
  keys_sorted c es → (i < j)%nat → es !! i = Some a → es !! j = Some b → Compare c a.1 b.1 < 0.
Proof.
  intros Hs. revert i j. induction Hs as [|x l Hs IH Hx]; intros i j Hij Ha Hb; [done|].
  destruct i as [|i], j as [|j]; [lia| |lia|].
  - simplify_eq/=. exact (proj1 (Forall_lookup _ _) Hx _ _ Hb).
  - apply (IH i j); [lia|done..].
Qed.

(** Opening a block that was built. *)
Lemma open_block c I es :
  Forall entry_ok es → len (Builder.Build I es) < 2 ^ 32 →
  ∃ R it, NewIterator c (NewBlock (Builder.Build I es)) = BlockIterator it ∧
    restarts_ok es R ∧ len R < 2 ^ 30 ∧ len (encode_entries es) < 2 ^ 32 ∧ rep c es R it None.
Proof.
  intros Hok Hsz. destruct (Build_spec I es Hok Hsz) as (R & HB & HR & HRl).
  pose proof (R_nonempty es R HR) as HR0. exists R.
  rewrite HB in *. set (D := encode_entries es) in *.
  assert (len (D ++ encode_restarts R) = len D + 4 * len R + 4) as Hlen
    by (unfold encode_restarts; rewrite !len_app, len_restarts, len_EncodeFixed32; lia).
  pose proof (len_nonneg D) as HD0.
  assert (NumRestarts (D ++ encode_restarts R) (len D + 4 * len R + 4) = len R) as Hnum.
  { unfold NumRestarts, encode_restarts. rewrite app_assoc, skip_app
      by (rewrite len_app, len_restarts; lia).
    rewrite <- (app_nil_r (EncodeFixed32 _)). apply DecodeFixed32_app. unfold u32_ok. lia. }
  unfold NewBlock. rewrite Hlen, (proj2 (Z.ltb_ge _ 4)), Hnum, Z.gtb_ltb by lia.
  rewrite (proj2 (Z.ltb_ge _ _)) by (Z.div_mod_to_equations; lia).
  unfold NewIterator. cbn [size_ data_ restart_offset_].
  rewrite (proj2 (Z.ltb_ge _ 4)), Hnum, (proj2 (Z.eqb_neq _ 0)) by lia.
  replace (len D + 4 * len R + 4 - (1 + len R) * 4) with (len D) by lia.
  rewrite u32_id by (unfold u32_ok; lia). eexists. split; [done|].
  split; [done|]. split; [done|]. split; [lia|]. by split.
Qed.

Section refinement.

Context (dom : bytes → Prop) (c : Comparator) `{!ComparatorLaws dom c}.
Context (es : list (bytes * bytes)) (R : list Z).
Context (Hok : Forall entry_ok es) (HR : restarts_ok es R) (HRlen : len R < 2 ^ 30).
Context (Hsz : len (encode_entries es) < 2 ^ 32).
Context (Hdom : Forall (λ e, dom e.1) es) (Hsorted : keys_sorted c es).

Lemma iter_step_rep o it pos pos' :
  Cursor.targets_in dom [o] → rep c es R it pos → Cursor.step c es pos o = Some pos' →
  ∃ it', iter_step o it = Some it' ∧ rep c es R it' pos'.
Proof.
  intros [Ht _]%Forall_cons Hrep Hstep. pose proof (rep_block _ _ _ _ _ Hrep) as Hb.
  destruct o as [t| | | |]; cbn [Cursor.step iter_step] in *.
  - simplify_eq. apply Seek_rep; try done.
    intros i j a b Hij Ha Hb' Hlt.
    pose proof (proj1 (Forall_lookup _ _) Hdom _ _ Ha). pose proof (proj1 (Forall_lookup _ _) Hdom _ _ Hb').
    apply (cmp_trans _ b.1); try done. by apply (keys_sorted_lookup c es i j).
  - simplify_eq. by apply SeekToFirst_rep.
  - simplify_eq. by apply SeekToLast_rep.
  - destruct pos as [i|]; simplify_eq. by apply Next_rep.
  - destruct pos as [i|]; simplify_eq. by apply Prev_rep.
Qed.

Lemma iter_run_rep l it pos pos' :
  Cursor.targets_in dom l → rep c es R it pos → Cursor.run c es pos l = Some pos' →
  ∃ it', iter_run l it = Some it' ∧ rep c es R it' pos'.
Proof.
  revert it pos. induction l as [|o l IH]; intros it pos Ht Hrep Hrun; cbn [Cursor.run iter_run] in *.
  { simplify_eq. eauto. }
  apply Forall_cons in Ht as [Ho Ht].
  destruct (Cursor.step c es pos o) as [pos1|] eqn:Hs; [|done]. cbn [mbind option_bind] in Hrun.
  destruct (iter_step_rep o it pos pos1) as (it1 & -> & Hrep1); [by constructor|done..|].
  cbn [mbind option_bind]. by apply (IH it1 pos1).
Qed.

End refinement.

(** What the state at a position says of the iterator. *)
Lemma rep_valid c es R it pos :
  Forall entry_ok es → rep c es R it pos →
  match pos with
  | Some i => Iter.Valid it = true ∧ es !! i = Some (Iter.key_ it, Iter.value it)
  | None => Iter.Valid it = false
  end.
Proof.
  intros Hok Hrep. pose proof (rep_block _ _ _ _ _ Hrep) as Hb. unfold Iter.Valid. rewrite (ob_restarts _ _ _ _ Hb).
  destruct pos as [i|]; cbn [rep] in Hrep.
  - split; [|apply Hrep]. rewrite (ae_current _ _ _ _ _ Hrep).
    pose proof (lookup_lt_Some _ _ _ (ae_entry _ _ _ _ _ Hrep)).
    pose proof (offs_lt es Hok i (length es) ltac:(lia)). rewrite offs_all in *. apply Z.ltb_lt. lia.
  - rewrite (en_current _ _ _ _ Hrep). apply Z.ltb_irrefl.
Qed.

(** A run of the iterator of a built block. *)
Lemma block_run (dom : bytes → Prop) (c : Comparator) I es ops pos :
  ComparatorLaws dom c → Forall entry_ok es → Forall (λ e, dom e.1) es → keys_sorted c es →
  len (Builder.Build I es) < 2 ^ 32 → Cursor.targets_in dom ops → Cursor.run c es None ops = Some pos →
  ∃ it0 it, NewIterator c (NewBlock (Builder.Build I es)) = BlockIterator it0 ∧
    iter_run ops it0 = Some it ∧ Iter.status_ok it = true ∧
    match pos with
    | Some i => Iter.Valid it = true ∧ es !! i = Some (Iter.key_ it, Iter.value it)
    | None => Iter.Valid it = false
    end.
Proof.
  intros HL Hok Hdom Hs Hsz Ht Hrun.
  destruct (open_block c I es Hok Hsz) as (R & it0 & Hopen & HR & HRl & HDl & Hrep).
  destruct (iter_run_rep dom c es R Hok HR HRl HDl Hdom Hs ops it0 None pos Ht Hrep Hrun) as (it & Hit & Hrep').
  exists it0, it. split; [done|]. split; [done|]. split; [apply (rep_block _ _ _ _ _ Hrep')|]. by apply rep_valid in Hrep'.
Qed.

(** ** Blocks *)

(** C17: a block built from sorted entries, at any restart interval, opens, and
    its iterator refines the abstract cursor: after any sequence of [Seek],
    [SeekToFirst], [SeekToLast], [Next] and [Prev] (the last two where the
    position is valid) the iterator is valid exactly when the cursor has a
    position, shows the key and value of that entry, and has seen no
    corruption. *)
Theorem block_iterator_refines (dom : bytes → Prop) (c : Comparator) I es ops pos :
  ComparatorLaws dom c → Forall entry_ok es → Forall (λ e, dom e.1) es → keys_sorted c es →
  len (Builder.Build I es) < 2 ^ 32 → Cursor.targets_in dom ops → Cursor.run c es None ops = Some pos →
  ∃ it0 it, NewIterator c (NewBlock (Builder.Build I es)) = BlockIterator it0 ∧
    iter_run ops it0 = Some it ∧ Iter.status_ok it = true ∧
    match pos with
    | Some i => Iter.Valid it = true ∧ es !! i = Some (Iter.key_ it, Iter.value it)
    | None => Iter.Valid it = false
    end.
Proof. apply block_run. Qed.

Definition block_example : list (bytes * bytes) :=
  [([97], [1; 1]); ([98], [2; 2]); ([99], [3]); ([100], [4]); ([101], [5; 5; 5])].

Lemma block_iterator_refines_witness :
  ∃ it0 it, NewIterator Bytewise.comparator (NewBlock (Builder.Build 2 block_example)) = BlockIterator it0 ∧
    iter_run [Cursor.Seek [99; 0]; Cursor.Prev; Cursor.Prev; Cursor.Next] it0 = Some it ∧
    Iter.status_ok it = true ∧ Iter.Valid it = true ∧
    block_example !! 2%nat = Some (Iter.key_ it, Iter.value it).
Proof.
  apply (block_iterator_refines bytes_ok Bytewise.comparator 2 block_example
    [Cursor.Seek [99; 0]; Cursor.Prev; Cursor.Prev; Cursor.Next] (Some 2%nat)).
  - apply _.
  - unfold entry_ok, u32_ok. by_decide.
  - by_decide.
  - unfold keys_sorted, block_example.
    repeat first [apply SSorted_cons | apply SSorted_nil | apply Forall_cons; split | apply Forall_nil | reflexivity].
  - by vm_compute.
  - by repeat constructor.
  - reflexivity.
Defined.

(** [SeekToNth], which the value-table lookup calls with the index of an
    entry in its block, adds up the restart array as if it held sizes, where it
    holds offsets: on this block of five entries it misses the entry of index 1
    at the default restart interval, with a corruption status, and at interval
    1 stops one entry too late. *)
Theorem SeekToNth_misses :
  (∀ I, I = 1 ∨ I = 16 → ∃ it0 it,
    NewIterator Bytewise.comparator (NewBlock (Builder.Build I block_example)) = BlockIterator it0 ∧
    Iter.SeekToNth 1 it0 = Some it ∧
    block_example !! 1%nat ≠ Some (Iter.key_ it, Iter.value it) ∧
    Iter.status_ok it = (I =? 1)) ∧
  ∃ it0 it, NewIterator Bytewise.comparator (NewBlock (Builder.Build 16 block_example)) = BlockIterator it0 ∧
    Iter.SeekToNth 0 it0 = Some it ∧ block_example !! 0%nat = Some (Iter.key_ it, Iter.value it).
Proof.
  split.
  - intros I [-> | ->]; (eexists _, _; split; [vm_compute; reflexivity|]; split; [vm_compute; reflexivity|]);
      (split; [by vm_compute|done]).
  - eexists _, _. split; [vm_compute; reflexivity|]. split; [vm_compute; reflexivity|]. done.
Qed.

(** ** Entries of a damaged block *)

Lemma GetVarint32Ptr_bounds input v q :
  bytes_ok input → GetVarint32Ptr input = Some (v, q) →
  0 ≤ v ∧ bytes_ok q ∧ len q < len input.
Proof.
  intros Hin H. destruct (GetVarint32_bounds input v q Hin) as [Hv (u & -> & Hu)].
  { unfold GetVarint32. by rewrite H. }
  apply bytes_ok_app in Hin as [_ ?]. rewrite len_app. destruct u as [|x u]; [done|].
  rewrite len_cons. pose proof (len_nonneg u). split; [apply Hv|]. split; [done|lia].
Qed.

(** C40: what [DecodeEntry] accepts of arbitrary bytes stays inside them, as
    long as the two lengths do not overflow 32 bits when added; the second
    part is an entry of eleven bytes whose key length is 2^32 - 1, which the
    wrapped sum lets through. *)
Theorem DecodeEntry_bounds p shared non_shared value_length rest :
  bytes_ok p → len p < 2 ^ 32 →
  (DecodeEntry p = Some (shared, non_shared, value_length, rest) →
     non_shared + value_length < 2 ^ 32 →
     0 ≤ shared ∧ 0 ≤ non_shared ∧ 0 ≤ value_length ∧
     non_shared + value_length ≤ len rest ∧ len rest < len p) ∧
  DecodeEntry [0; 255; 255; 255; 255; 15; 1; 7; 7; 7; 7] = Some (0, 2 ^ 32 - 1, 1, [7; 7; 7; 7]).
Proof.
  intros Hp Hsz. split; [|done]. intros H Hno. unfold DecodeEntry in H.
  destruct (Z.ltb_spec (len p) 3) as [|H3]; [done|].
  match type of H with (?m ≫= _) = _ => assert (∀ s n v r, m = Some (s, n, v, r) →
    0 ≤ s ∧ 0 ≤ n ∧ 0 ≤ v ∧ len r < len p) as Hm end.
  { intros s n v r Hm. destruct (_ <? 128).
    - simplify_eq. pose proof (at_ok p 0 Hp). pose proof (at_ok p 1 Hp). pose proof (at_ok p 2 Hp).
      unfold byte_ok in *. rewrite len_skip by lia. lia.
    - destruct (GetVarint32Ptr p) as [[s1 p1]|] eqn:E1; [|done]. cbn [mbind option_bind] in Hm.
      destruct (GetVarint32Ptr p1) as [[n1 p2]|] eqn:E2; [|done]. cbn [mbind option_bind] in Hm.
      destruct (GetVarint32Ptr p2) as [[v1 p3]|] eqn:E3; [|done]. simplify_eq/=.
      apply GetVarint32Ptr_bounds in E1 as (? & ? & ?); [|done].
      apply GetVarint32Ptr_bounds in E2 as (? & ? & ?); [|done].
      apply GetVarint32Ptr_bounds in E3 as (? & ? & ?); [|done]. lia. }
  apply bind_Some in H as ([[[s n] v] r] & Hr & H). apply Hm in Hr as (? & ? & ? & ?).
  pose proof (len_nonneg r). destruct (Z.ltb_spec (u32 (len r)) (u32 (n + v))) as [|Hge]; [done|].
  simplify_eq. rewrite !u32_id in Hge by (unfold u32_ok; lia). lia.
Qed.

Lemma DecodeEntry_bounds_witness :
  0 ≤ 0 ∧ 0 ≤ 1 ∧ 0 ≤ 2 ∧ 1 + 2 ≤ len [97; 5; 6; 9] ∧ len [97; 5; 6; 9] < len [0; 1; 2; 97; 5; 6; 9].
Proof.
  apply (DecodeEntry_bounds [0; 1; 2; 97; 5; 6; 9] 0 1 2 [97; 5; 6; 9]); [by_decide|done..].
Defined.
