(* ===== verification/Format.v ===== *)
(** * table/format.h, table/format.cc: block handles, the footer, block trailers

    Also the block writer of table/table_builder.cc, whose format [ReadBlock]
    reads back. *)

From S2P Require Import Prelude Coding Crc32c.

(** ** Errors *)

Inductive Error :=
  | BadBlockHandle
  | BadMagicNumber
  | TruncatedBlockRead
  | BlockChecksumMismatch
  | CorruptedCompressedBlock
  | BadBlockType
  | FileTooShort
  | BadBlockContents
  | BadEntryInBlock
  | IOError.

(** [Status] with the value the call produces when it is ok. *)
Abbreviation Status A := (Error + A)%type.

Definition bindS {A B} (m : Status A) (f : A → Status B) : Status B :=
  match m with inl e => inl e | inr x => f x end.

(** ** BlockHandle *)

Record BlockHandle := { offset_ : Z; size_ : Z }.

Definition kMaxEncodedLength : Z := 10 + 10.

Definition BlockHandle_init : BlockHandle := {| offset_ := 2 ^ 64 - 1; size_ := 2 ^ 64 - 1 |}.

Definition BlockHandle_EncodeTo (dst : bytes) (h : BlockHandle) : bytes :=
  PutVarint64 (PutVarint64 dst (offset_ h)) (size_ h).

(** Returns what is left of [*input]. *)
Definition BlockHandle_DecodeFrom (input : bytes) : Status (BlockHandle * bytes) :=
  match GetVarint64 input with
  | Some (offset, input) =>
      match GetVarint64 input with
      | Some (size, input) => inr ({| offset_ := offset; size_ := size |}, input)
      | None => inl BadBlockHandle
      end
  | None => inl BadBlockHandle
  end.

(** ** Footer *)

Record Footer := { metaindex_handle_ : BlockHandle; index_handle_ : BlockHandle }.

Definition kEncodedLength : Z := 2 * kMaxEncodedLength + 8.
Definition kTableMagicNumber : Z := 0xdb4775248b80fb57.

(** [std::string::resize]. *)
Definition resize (s : bytes) (n : Z) : bytes :=
  first n s ++ replicate (Z.to_nat (n - len s)) 0.

Definition Footer_EncodeTo (dst : bytes) (f : Footer) : bytes :=
  let dst := BlockHandle_EncodeTo dst (metaindex_handle_ f) in
  let dst := BlockHandle_EncodeTo dst (index_handle_ f) in
  let dst := resize dst (2 * kMaxEncodedLength) in
  let dst := PutFixed32 dst (u32 (Z.land kTableMagicNumber 0xffffffff)) in
  PutFixed32 dst (u32 (Z.shiftr kTableMagicNumber 32)).

(** Reads [kEncodedLength] bytes; the caller gives that many. *)
Definition Footer_DecodeFrom (input : bytes) : Status (Footer * bytes) :=
  let magic_ptr := skip (kEncodedLength - 8) input in
  let magic_lo := DecodeFixed32 magic_ptr in
  let magic_hi := DecodeFixed32 (skip 4 magic_ptr) in
  let magic := Z.lor (u64 (Z.shiftl magic_hi 32)) magic_lo in
  if negb (magic =? kTableMagicNumber) then inl BadMagicNumber
  else
    bindS (BlockHandle_DecodeFrom input) (λ '(metaindex_handle, rest),
    bindS (BlockHandle_DecodeFrom rest) (λ '(index_handle, rest),
    inr ({| metaindex_handle_ := metaindex_handle; index_handle_ := index_handle |},
         skip kEncodedLength input))).

(** ** Compression *)

Definition kNoCompression : Z := 0.
Definition kSnappyCompression : Z := 1.

(** The Snappy library behind port/port_stdcxx.h; [None] where the call returns
    false. *)
Class Snappy := {
  Snappy_Compress : bytes → option bytes;
  Snappy_GetUncompressedLength : bytes → option Z;
  Snappy_Uncompress : bytes → option bytes
}.

(** What it documents: uncompressing what was compressed gives it back. *)
Class SnappyLaws (S : Snappy) : Prop := {
  snappy_length s c : Snappy_Compress s = Some c → Snappy_GetUncompressedLength c = Some (len s);
  snappy_roundtrip s c : Snappy_Compress s = Some c → Snappy_Uncompress c = Some s;
  snappy_ok s c : Snappy_Compress s = Some c → bytes_ok s → bytes_ok c
}.

(** The build without Snappy. *)
Definition no_snappy : Snappy := {|
  Snappy_Compress := λ _, None;
  Snappy_GetUncompressedLength := λ _, None;
  Snappy_Uncompress := λ _, None |}.

#[export] Instance no_snappy_laws : SnappyLaws no_snappy.
Proof. by split. Qed.

(** ** Blocks in a file *)

Definition kBlockTrailerSize : Z := 5.

Section blocks.

Context `{S : !Snappy}.

(** [WriteBlock]: what is stored of a block, and its type. *)
Definition CompressBlock (compression : Z) (raw : bytes) : bytes * Z :=
  if compression =? kSnappyCompression then
    match Snappy_Compress raw with
    | Some compressed =>
        if len compressed <? len raw - len raw / 8 then (compressed, kSnappyCompression)
        else (raw, kNoCompression)
    | None => (raw, kNoCompression)
    end
  else (raw, kNoCompression).

(** The trailer of [WriteRawBlock]. *)
Definition BlockTrailer (block_contents : bytes) (type : Z) : bytes :=
  let crc := Value block_contents in
  let crc := Extend crc [u8 type] in
  u8 type :: EncodeFixed32 (Mask crc).

(** [file->Read(offset, n)]: [None] when it fails. *)
Definition ReadBlock (Read : Z → Z → option bytes) (verify_checksums : bool) (handle : BlockHandle)
    : Status bytes :=
  let n := size_ handle in
  match Read (offset_ handle) (u64 (n + kBlockTrailerSize)) with
  | None => inl IOError
  | Some contents =>
      if negb (len contents =? u64 (n + kBlockTrailerSize)) then inl TruncatedBlockRead
      else
        let data := contents in
        let bad_crc :=
          if verify_checksums then
            let crc := Unmask (DecodeFixed32 (skip (n + 1) data)) in
            let actual := Value (first (n + 1) data) in
            negb (actual =? crc)
          else false in
        if bad_crc then inl BlockChecksumMismatch
        else if at_ data n =? kNoCompression then inr (first n data)
        else if at_ data n =? kSnappyCompression then
          match Snappy_GetUncompressedLength (first n data) with
          | None => inl CorruptedCompressedBlock
          | Some ulength =>
              match Snappy_Uncompress (first n data) with
              | None => inl CorruptedCompressedBlock
              | Some ubuf => inr (first ulength ubuf)
              end
          end
        else inl BadBlockType
  end.

End blocks.

(** A file in memory. *)
Definition mem_Read (f : bytes) (offset n : Z) : option bytes := Some (first n (skip offset f)).

(** ** Lemmas *)

Definition handle_ok (h : BlockHandle) : Prop := u64_ok (offset_ h) ∧ u64_ok (size_ h).

Lemma BlockHandle_roundtrip h rest :
  handle_ok h → BlockHandle_DecodeFrom (BlockHandle_EncodeTo [] h ++ rest) = inr (h, rest).
Proof.
  intros [Ho Hs]. unfold BlockHandle_DecodeFrom, BlockHandle_EncodeTo, PutVarint64.
  cbn [app]. rewrite <- app_assoc, GetVarint64_put, GetVarint64_put by done. by destruct h.
Qed.

Lemma BlockHandle_EncodeTo_app dst h :
  BlockHandle_EncodeTo dst h = dst ++ BlockHandle_EncodeTo [] h.
Proof. unfold BlockHandle_EncodeTo, PutVarint64. by rewrite <- app_assoc. Qed.

Lemma len_BlockHandle h : handle_ok h → 2 ≤ len (BlockHandle_EncodeTo [] h) ≤ kMaxEncodedLength.
Proof.
  intros [Ho Hs]. unfold BlockHandle_EncodeTo, PutVarint64, kMaxEncodedLength. cbn [app].
  rewrite len_app. pose proof (len_EncodeVarint64 _ Ho). pose proof (len_EncodeVarint64 _ Hs). lia.
Qed.

Lemma Footer_encoding f :
  handle_ok (metaindex_handle_ f) → handle_ok (index_handle_ f) →
  ∃ pad, Footer_EncodeTo [] f =
    (BlockHandle_EncodeTo [] (metaindex_handle_ f) ++ BlockHandle_EncodeTo [] (index_handle_ f) ++ pad) ++
    EncodeFixed32 (u32 kTableMagicNumber) ++ EncodeFixed32 (Z.shiftr kTableMagicNumber 32) ∧
    len (BlockHandle_EncodeTo [] (metaindex_handle_ f) ++
         BlockHandle_EncodeTo [] (index_handle_ f) ++ pad) = kEncodedLength - 8.
Proof.
  intros Hm Hi. pose proof (len_BlockHandle _ Hm) as Lm. pose proof (len_BlockHandle _ Hi) as Li.
  unfold Footer_EncodeTo, PutFixed32. rewrite (BlockHandle_EncodeTo_app (BlockHandle_EncodeTo [] _)).
  unfold resize, kMaxEncodedLength in *.
  set (m := BlockHandle_EncodeTo [] (metaindex_handle_ f)) in *.
  set (i := BlockHandle_EncodeTo [] (index_handle_ f)) in *.
  exists (replicate (Z.to_nat (2 * (10 + 10) - len (m ++ i))) 0).
  assert (first (2 * (10 + 10)) (m ++ i) = m ++ i) as ->.
  { unfold first. apply take_ge. pose proof (len_app m i). unfold len in *. lia. }
  split; [by rewrite <- !app_assoc|].
  rewrite !len_app. unfold len at 3. rewrite length_replicate. unfold kEncodedLength, kMaxEncodedLength. lia.
Qed.

Lemma Footer_roundtrip f rest :
  handle_ok (metaindex_handle_ f) → handle_ok (index_handle_ f) →
  len (Footer_EncodeTo [] f) = kEncodedLength ∧
  Footer_DecodeFrom (Footer_EncodeTo [] f ++ rest) = inr (f, rest).
Proof.
  intros Hm Hi. destruct (Footer_encoding f Hm Hi) as (pad & E & Hlen).
  assert (len (Footer_EncodeTo [] f) = kEncodedLength) as HL.
  { rewrite E, len_app, Hlen, len_app, !len_EncodeFixed32. lia. }
  split; [done|]. unfold Footer_DecodeFrom.
  rewrite (skip_app (Footer_EncodeTo [] f) rest kEncodedLength) by done.
  rewrite E, <- app_assoc. rewrite (skip_app _ _ (kEncodedLength - 8)) by done.
  rewrite <- !app_assoc, DecodeFixed32_app by apply u32_range.
  rewrite (skip_app (EncodeFixed32 _) _ 4) by (by rewrite len_EncodeFixed32).
  rewrite DecodeFixed32_app by by_decide.
  assert (Z.lor (u64 (Z.shiftl (Z.shiftr kTableMagicNumber 32) 32)) (u32 kTableMagicNumber) =? kTableMagicNumber = true) as ->
    by (vm_compute; reflexivity).
  cbn [negb]. rewrite BlockHandle_roundtrip by done. cbn [bindS].
  rewrite BlockHandle_roundtrip by done. cbn [bindS]. by destruct f.
Qed.

Section roundtrip.

Context `{S : !Snappy} `{!SnappyLaws S}.

(** Reading a stored block back. *)
Lemma ReadBlock_stored pre raw compression rest verify :
  bytes_ok raw → len pre < 2 ^ 63 → len raw < 2 ^ 32 →
  let '(stored, type) := CompressBlock compression raw in
  ReadBlock (mem_Read (pre ++ stored ++ BlockTrailer stored type ++ rest)) verify
    {| offset_ := len pre; size_ := len stored |} = inr raw.
Proof.
  intros Hraw Hpre Hlen. destruct (CompressBlock compression raw) as [stored type] eqn:HC.
  assert (bytes_ok stored ∧ len stored < 2 ^ 32 ∧
    ((type = kNoCompression ∧ stored = raw) ∨
     (type = kSnappyCompression ∧ Snappy_Compress raw = Some stored))) as (Hst & Hls & Htype).
  { unfold CompressBlock in HC. pose proof (len_nonneg raw).
    case_match; [|simplify_eq; auto]. destruct (Snappy_Compress raw) as [c|] eqn:Hc; [|simplify_eq; auto].
    case_match; zify_bool; simplify_eq; [|auto]. split; [by apply (snappy_ok raw)|]. split; [|auto].
    Z.div_mod_to_equations; lia. }
  pose proof (len_nonneg stored). pose proof (len_nonneg pre).
  assert (len (BlockTrailer stored type) = 5) as Htr
    by (unfold BlockTrailer; by rewrite len_cons, len_EncodeFixed32).
  assert (byte_ok type) as Hty by (destruct Htype as [[-> _]|[-> _]]; unfold byte_ok, kNoCompression, kSnappyCompression; lia).
  assert (bytes_ok [type]) as Hty1 by (by apply Forall_singleton).
  unfold ReadBlock, mem_Read. cbn [offset_ size_]. unfold kBlockTrailerSize.
  rewrite u64_id by (unfold u64_ok; lia). rewrite skip_app by done.
  rewrite app_assoc, first_app by (rewrite len_app, Htr; lia).
  rewrite len_app, Htr, Z.eqb_refl. cbn [negb].
  set (tr := BlockTrailer stored type) in *.
  assert (tr = type :: EncodeFixed32 (Mask (Value (stored ++ [type])))) as Etr.
  { unfold tr, BlockTrailer. rewrite u8_id by done. by rewrite Extend_Value. }
  assert (first (len stored + 1) (stored ++ tr) = stored ++ [type]) as Hf1.
  { rewrite Etr, (cons_middle type stored). rewrite app_assoc.
    apply first_app. rewrite len_app. done. }
  assert (skip (len stored + 1) (stored ++ tr) = EncodeFixed32 (Mask (Value (stored ++ [type])))) as Hs1.
  { rewrite Etr. rewrite (cons_middle type stored), app_assoc. apply skip_app. by rewrite len_app. }
  assert (at_ (stored ++ tr) (len stored) = type) as Hat by (rewrite at_app_r, Z.sub_diag, Etr by lia; done).
  assert (bytes_ok (stored ++ [type])) as Hok2 by (by apply bytes_ok_app).
  rewrite Hf1, Hs1, Hat, (first_app stored) by done.
  rewrite <- (app_nil_r (EncodeFixed32 _)), DecodeFixed32_app by (apply Unmask_Mask, Value_ok; done).
  rewrite (proj1 (Unmask_Mask _ (Value_ok _ Hok2))), Z.eqb_refl. cbn [negb].
  destruct verify; (destruct Htype as [[-> ->]|[-> Hc]]; cbn [Z.eqb kNoCompression kSnappyCompression];
    [done|by rewrite (snappy_length _ _ Hc), (snappy_roundtrip _ _ Hc), first_all]).
Qed.

End roundtrip.

(** ** Properties *)

(** A block handle and a footer survive their encodings, in the lengths
    the format reserves: at most 20 bytes for a handle, exactly 48 for a
    footer, and what follows them is left unread. *)
Theorem footer_roundtrip f h rest :
  handle_ok h → handle_ok (metaindex_handle_ f) → handle_ok (index_handle_ f) →
  BlockHandle_DecodeFrom (BlockHandle_EncodeTo [] h ++ rest) = inr (h, rest) ∧
  len (BlockHandle_EncodeTo [] h) ≤ kMaxEncodedLength ∧
  Footer_DecodeFrom (Footer_EncodeTo [] f ++ rest) = inr (f, rest) ∧
  len (Footer_EncodeTo [] f) = kEncodedLength.
Proof.
  intros Hh Hm Hi. destruct (Footer_roundtrip f rest Hm Hi).
  split; [by apply BlockHandle_roundtrip|]. split; [by apply len_BlockHandle|done].
Qed.

Lemma footer_roundtrip_witness :
  let h := {| offset_ := 300; size_ := 70000 |} in
  let f := {| metaindex_handle_ := h; index_handle_ := h |} in
  BlockHandle_DecodeFrom (BlockHandle_EncodeTo [] h ++ [9]) = inr (h, [9]) ∧
  len (BlockHandle_EncodeTo [] h) ≤ kMaxEncodedLength ∧
  Footer_DecodeFrom (Footer_EncodeTo [] f ++ [9]) = inr (f, [9]) ∧
  len (Footer_EncodeTo [] f) = kEncodedLength.
Proof. intros h f. apply (footer_roundtrip f h [9]); unfold handle_ok, u64_ok; simpl; lia. Defined.

(** [ReadBlock] gives back the block [WriteBlock] stored, wherever in the
    file it is, compressed or not, with the checksum verified or not. *)
Theorem block_storage_roundtrip (S : Snappy) pre raw compression rest verify :
  SnappyLaws S → bytes_ok raw → len pre < 2 ^ 63 → len raw < 2 ^ 32 →
  let '(stored, type) := CompressBlock compression raw in
  ReadBlock (mem_Read (pre ++ stored ++ BlockTrailer stored type ++ rest)) verify
    {| offset_ := len pre; size_ := len stored |} = inr raw.
Proof. intros. by apply ReadBlock_stored. Qed.

(** A compressor for runs of zeros, to have one that compresses. *)
Definition run_snappy : Snappy := {|
  Snappy_Compress := λ s, if bool_decide (s = replicate 100 0) then Some [100] else None;
  Snappy_GetUncompressedLength := λ c, match c with [n] => Some n | _ => None end;
  Snappy_Uncompress := λ c, match c with [n] => Some (replicate (Z.to_nat n) 0) | _ => None end |}.

Lemma run_snappy_laws : SnappyLaws run_snappy.
Proof.
  assert (∀ s c, @Snappy_Compress run_snappy s = Some c → s = replicate 100 0 ∧ c = [100]) as H.
  { intros s c. cbn -[replicate]. destruct (bool_decide_reflect (s = replicate 100 0)); [|done].
    by intros [= <-]. }
  split; intros s c Hc; apply H in Hc as [-> ->]; [done..|]. intros _. by_decide.
Qed.

Lemma block_storage_roundtrip_witness :
  let raw := replicate 100 0 in
  @CompressBlock run_snappy kSnappyCompression raw = ([100], kSnappyCompression) ∧
  @ReadBlock run_snappy (mem_Read ([1; 2] ++ [100] ++ BlockTrailer [100] kSnappyCompression ++ [3])) true
    {| offset_ := len [1; 2]; size_ := len [100] |} = inr raw.
Proof.
  intros raw. split; [vm_compute; reflexivity|].
  apply (block_storage_roundtrip run_snappy [1; 2] raw kSnappyCompression [3] true run_snappy_laws);
    [by_decide|done|by vm_compute].
Defined.
