(* ===== verification/TableBuilder.v ===== *)
(** * table/table_builder.cc: writing a table

    [TableBuilder] cuts a sequence of entries into blocks, appends each with
    its trailer to the file, and keeps the index entries of the blocks it has
    written; [Finish] writes the filter, metaindex and index blocks and the
    footer. *)

From S2P Require Import Prelude Coding Crc32c Comparator DBFormat FilterBlock Block Format.

Record Options := {
  comparator : Comparator;
  block_size : Z;
  block_restart_interval : Z;
  compression : Z;
  filter_policy : option (bytes * FilterPolicy)    (** its name, and the policy *)
}.

Section builder.

(** The file: [Append] and [Flush] return the new file and [ok()]. *)
Context `{S : !Snappy} {F : Type} (Append : F → bytes → F * bool) (FileFlush : F → F * bool).

Record Rep := {
  options : Options;
  file : F;
  offset : Z;
  status : bool;                     (** [ok()] *)
  data_block : Builder.t;
  index_block : Builder.t;
  block_number : Z;
  last_key : bytes;
  num_entries : Z;
  closed : bool;
  filter_block : option FilterBlockBuilder;
  pending_index_entry : bool;
  pending_handle : BlockHandle
}.

(** The assignments of the methods. *)
Definition set_written (f : F) (off : Z) (ok : bool) (r : Rep) : Rep := {|
  options := options r; file := f; offset := off; status := ok; data_block := data_block r;
  index_block := index_block r; block_number := block_number r; last_key := last_key r;
  num_entries := num_entries r; closed := closed r; filter_block := filter_block r;
  pending_index_entry := pending_index_entry r; pending_handle := pending_handle r |}.

Definition set_data_block (b : Builder.t) (r : Rep) : Rep := {|
  options := options r; file := file r; offset := offset r; status := status r; data_block := b;
  index_block := index_block r; block_number := block_number r; last_key := last_key r;
  num_entries := num_entries r; closed := closed r; filter_block := filter_block r;
  pending_index_entry := pending_index_entry r; pending_handle := pending_handle r |}.

Definition set_index (b : Builder.t) (pending : bool) (h : BlockHandle) (r : Rep) : Rep := {|
  options := options r; file := file r; offset := offset r; status := status r;
  data_block := data_block r; index_block := b; block_number := block_number r;
  last_key := last_key r; num_entries := num_entries r; closed := closed r;
  filter_block := filter_block r; pending_index_entry := pending; pending_handle := h |}.

Definition set_filter (fb : option FilterBlockBuilder) (r : Rep) : Rep := {|
  options := options r; file := file r; offset := offset r; status := status r;
  data_block := data_block r; index_block := index_block r; block_number := block_number r;
  last_key := last_key r; num_entries := num_entries r; closed := closed r;
  filter_block := fb; pending_index_entry := pending_index_entry r; pending_handle := pending_handle r |}.

Definition set_block_number (n : Z) (r : Rep) : Rep := {|
  options := options r; file := file r; offset := offset r; status := status r;
  data_block := data_block r; index_block := index_block r; block_number := n;
  last_key := last_key r; num_entries := num_entries r; closed := closed r;
  filter_block := filter_block r; pending_index_entry := pending_index_entry r;
  pending_handle := pending_handle r |}.

Definition set_last (k : bytes) (n : Z) (r : Rep) : Rep := {|
  options := options r; file := file r; offset := offset r; status := status r;
  data_block := data_block r; index_block := index_block r; block_number := block_number r;
  last_key := k; num_entries := n; closed := closed r; filter_block := filter_block r;
  pending_index_entry := pending_index_entry r; pending_handle := pending_handle r |}.

Definition set_closed (r : Rep) : Rep := {|
  options := options r; file := file r; offset := offset r; status := status r;
  data_block := data_block r; index_block := index_block r; block_number := block_number r;
  last_key := last_key r; num_entries := num_entries r; closed := true;
  filter_block := filter_block r; pending_index_entry := pending_index_entry r;
  pending_handle := pending_handle r |}.

(** A call on the filter block, where there is one. *)
Definition with_filter (f : FilterPolicy → FilterBlockBuilder → FilterBlockBuilder) (r : Rep) : Rep :=
  match filter_policy (options r), filter_block r with
  | Some (_, policy), Some fb => set_filter (Some (f policy fb)) r
  | _, _ => r
  end.

Definition NewTableBuilder (opt : Options) (f : F) : Rep :=
  let r := {| options := opt; file := f; offset := 0; status := true;
     data_block := Builder.New (block_restart_interval opt); index_block := Builder.New 1;
     block_number := 0; last_key := []; num_entries := 0; closed := false;
     filter_block := match filter_policy opt with
                     | Some _ => Some FilterBlockBuilder_init | None => None end;
     pending_index_entry := false; pending_handle := BlockHandle_init |} in
  with_filter (λ policy, StartBlock policy 0) r.

Definition WriteRawBlock (block_contents : bytes) (type : Z) (r : Rep) : Rep * BlockHandle :=
  let handle := {| Format.offset_ := offset r; Format.size_ := len block_contents |} in
  let '(f, ok) := Append (file r) block_contents in
  if ok then
    let '(f, ok) := Append f (BlockTrailer block_contents type) in
    (set_written f (if ok then u64 (offset r + len block_contents + kBlockTrailerSize) else offset r) ok r,
     handle)
  else (set_written f (offset r) ok r, handle).

(** Returns the handle and the block, reset. *)
Definition WriteBlock (block : Builder.t) (r : Rep) : Rep * BlockHandle * Builder.t :=
  let '(block, raw) := Builder.Finish block in
  let '(block_contents, type) := CompressBlock (compression (options r)) raw in
  let '(r, handle) := WriteRawBlock block_contents type r in
  (r, handle, Builder.Reset block).

Definition Flush (r : Rep) : Rep :=
  if negb (status r) then r
  else if Builder.empty (data_block r) then r
  else
    let '(r, handle, block) := WriteBlock (data_block r) r in
    let r := set_data_block block r in
    let r := set_index (index_block r) (pending_index_entry r) handle r in
    let r :=
      if status r then
        let r := set_index (index_block r) true (pending_handle r) r in
        let r := set_block_number (u32 (block_number r + 1)) r in
        let '(f, ok) := FileFlush (file r) in
        set_written f (offset r) ok r
      else r in
    with_filter (λ policy, StartBlock policy (offset r)) r.

(** The index entry of the block that was written last. *)
Definition EmitPendingIndex (r : Rep) : Rep :=
  if pending_index_entry r then
    let handle_encoding := BlockHandle_EncodeTo [] (pending_handle r) in
    set_index (Builder.Add (index_block r) (last_key r) handle_encoding) false (pending_handle r) r
  else r.

Definition Add (key value : bytes) (r : Rep) : Rep :=
  if negb (status r) then r
  else
    let r := EmitPendingIndex r in
    let r := with_filter (λ _, AddKey key) r in
    let r := set_last key (num_entries r + 1) r in
    let r := set_data_block (Builder.Add (data_block r) key value) r in
    let estimated_block_size := Builder.CurrentSizeEstimate (data_block r) in
    if estimated_block_size >=? block_size (options r) then Flush r else r.

(** The bytes of "filter.". *)
Definition filter_prefix : bytes := [102; 105; 108; 116; 101; 114; 46].

Definition Finish (r : Rep) : Rep :=
  let r := Flush r in
  let r := set_closed r in
  (* filter block *)
  let '(r, filter_block_handle) :=
    match filter_policy (options r), filter_block r with
    | Some (_, policy), Some fb =>
        if status r then WriteRawBlock (FilterBlock.Finish policy fb) kNoCompression r
        else (r, BlockHandle_init)
    | _, _ => (r, BlockHandle_init)
    end in
  (* metaindex block *)
  let '(r, metaindex_block_handle) :=
    if status r then
      let meta_index_block := Builder.New (block_restart_interval (options r)) in
      let meta_index_block :=
        match filter_policy (options r), filter_block r with
        | Some (name, _), Some _ =>
            Builder.Add meta_index_block (filter_prefix ++ name)
              (BlockHandle_EncodeTo [] filter_block_handle)
        | _, _ => meta_index_block
        end in
      let '(r, h, _) := WriteBlock meta_index_block r in (r, h)
    else (r, BlockHandle_init) in
  (* index block *)
  let '(r, index_block_handle) :=
    if status r then
      let r := EmitPendingIndex r in
      let '(r, h, b) := WriteBlock (index_block r) r in
      (set_index b (pending_index_entry r) (pending_handle r) r, h)
    else (r, BlockHandle_init) in
  (* footer *)
  if status r then
    let footer_encoding :=
      Footer_EncodeTo [] {| metaindex_handle_ := metaindex_block_handle;
                            index_handle_ := index_block_handle |} in
    let '(f, ok) := Append (file r) footer_encoding in
    set_written f (if ok then u64 (offset r + len footer_encoding) else offset r) ok r
  else r.

(** [same] tells whether the new comparator is the old one. A block builder
    points to the options of the table, and sees the new ones. *)
Definition ChangeOptions (opt : Options) (same : bool) (r : Rep) : Rep * bool :=
  if negb same then (r, false)
  else
    ({| options := opt; file := file r; offset := offset r; status := status r;
        data_block := {| Builder.block_restart_interval := block_restart_interval opt;
          Builder.buffer_ := Builder.buffer_ (data_block r);
          Builder.restarts_ := Builder.restarts_ (data_block r);
          Builder.counter_ := Builder.counter_ (data_block r);
          Builder.num_entries_ := Builder.num_entries_ (data_block r);
          Builder.finished_ := Builder.finished_ (data_block r);
          Builder.last_key_ := Builder.last_key_ (data_block r) |};
        index_block := index_block r; block_number := block_number r; last_key := last_key r;
        num_entries := num_entries r; closed := closed r; filter_block := filter_block r;
        pending_index_entry := pending_index_entry r; pending_handle := pending_handle r |}, true).

Definition Abandon (r : Rep) : Rep := set_closed r.

Definition NumEntries (r : Rep) : Z := u64 (num_entries r).
Definition FileSize (r : Rep) : Z := offset r.
Definition BlockNumber (r : Rep) : Z := block_number r.
Definition BlockOffset (r : Rep) : Z := Builder.BlockOffset (data_block r).

Definition AddAll (es : list (bytes * bytes)) (r : Rep) : Rep :=
  foldl (λ r e, Add e.1 e.2 r) r es.

End builder.

Arguments Rep : clear implicits.

(** ** Lemmas: what is in the file *)

Definition mem_Append (f s : bytes) : bytes * bool := (f ++ s, true).
Definition mem_Flush (f : bytes) : bytes * bool := (f, true).

Abbreviation entries := (list (bytes * bytes)).

Section mem.

Context `{S : !Snappy} (opt : Options).

Abbreviation Add := (Add mem_Append mem_Flush).
Abbreviation Flush := (Flush mem_Append mem_Flush).
Abbreviation Finish := (Finish mem_Append mem_Flush).
Abbreviation AddAll := (AddAll mem_Append mem_Flush).

(** A block as it is stored, with its trailer. *)
Definition stored (raw : bytes) : bytes :=
  let '(s, t) := CompressBlock (compression opt) raw in s ++ BlockTrailer s t.

Definition data (b : entries) : bytes := stored (Builder.Build (block_restart_interval opt) b).

Definition handle_at (off : Z) (raw : bytes) : BlockHandle :=
  {| Format.offset_ := u64 off; Format.size_ := len (fst (CompressBlock (compression opt) raw)) |}.

Definition last_key_of (b : entries) : bytes := default [] (fst <$> last b).

(** The index of blocks stored from offset [off] on. *)
Fixpoint index_entries (off : Z) (bs : list entries) : entries :=
  match bs with
  | [] => []
  | b :: bs' =>
      (last_key_of b, BlockHandle_EncodeTo [] (handle_at off (Builder.Build (block_restart_interval opt) b)))
      :: index_entries (off + len (data b)) bs'
  end.

(** The calls made on the filter builder. *)
Fixpoint filter_done (off : Z) (bs : list entries) : list (Z * list bytes) :=
  match bs with
  | [] => []
  | b :: bs' => (u64 off, map fst b) :: filter_done (off + len (data b)) bs'
  end.

Definition file_of (bs : list entries) : bytes := concat (map data bs).

Definition filter_of (bs : list entries) (cur : entries) : option FilterBlockBuilder :=
  match filter_policy opt with
  | Some (_, p) =>
      Some (foldl (AddBlock p) FilterBlockBuilder_init
              (filter_done 0 bs ++ [(u64 (len (file_of bs)), map fst cur)]))
  | None => None
  end.

(** [bs] is written, [cur] is in the data block. *)
Record built (r : Rep bytes) (bs : list entries) (cur : entries) : Prop := {
  bu_opt : options r = opt;
  bu_file : file r = file_of bs;
  bu_off : offset r = u64 (len (file r));
  bu_status : status r = true;
  bu_data : data_block r = Builder.AddAll (Builder.New (block_restart_interval opt)) cur;
  bu_index : index_block (EmitPendingIndex r) = Builder.AddAll (Builder.New 1) (index_entries 0 bs);
  bu_pending : pending_index_entry r = true → cur = [];
  bu_number : block_number r = u32 (len bs);
  bu_last : cur ≠ [] → last_key r = last_key_of cur;
  bu_nonempty : Forall (λ b, b ≠ []) bs;
  bu_filter : filter_block r = filter_of bs cur
}.

#[local] Arguments Builder.Build : simpl never.
#[local] Arguments Builder.Add : simpl never.
#[local] Arguments Builder.AddAll : simpl never.
#[local] Arguments stored : simpl never.
#[local] Arguments data : simpl never.
#[local] Arguments file_of : simpl never.
#[local] Arguments filter_of : simpl never.
#[local] Arguments handle_at : simpl never.
#[local] Arguments with_filter : simpl never.
#[local] Arguments EmitPendingIndex : simpl never.
#[local] Arguments StartBlock : simpl never.
#[local] Arguments AddKey : simpl never.

Lemma file_of_snoc bs b : file_of (bs ++ [b]) = file_of bs ++ data b.
Proof. unfold file_of. rewrite map_app, concat_app. simpl. by rewrite app_nil_r. Qed.

Lemma index_entries_snoc off bs b :
  index_entries off (bs ++ [b]) = index_entries off bs ++
    [(last_key_of b, BlockHandle_EncodeTo []
        (handle_at (off + len (file_of bs)) (Builder.Build (block_restart_interval opt) b)))].
Proof.
  revert off. induction bs as [|b' bs IH]; intros off; simpl.
  - by rewrite Z.add_0_r.
  - rewrite IH. unfold file_of. simpl. by rewrite len_app, Z.add_assoc.
Qed.

Lemma filter_done_snoc off bs b :
  filter_done off (bs ++ [b]) = filter_done off bs ++ [(u64 (off + len (file_of bs)), map fst b)].
Proof.
  revert off. induction bs as [|b' bs IH]; intros off; simpl.
  - by rewrite Z.add_0_r.
  - rewrite IH. unfold file_of. simpl. by rewrite len_app, Z.add_assoc.
Qed.

Lemma u64_add x y : u64 (u64 x + y) = u64 (x + y).
Proof. unfold u64. apply Zplus_mod_idemp_l. Qed.

Lemma stored_eq raw :
  stored raw = fst (CompressBlock (compression opt) raw) ++
    BlockTrailer (fst (CompressBlock (compression opt) raw)) (snd (CompressBlock (compression opt) raw)).
Proof. unfold stored. by destruct (CompressBlock _ _). Qed.

Lemma len_stored raw : len (stored raw) = len (fst (CompressBlock (compression opt) raw)) + 5.
Proof.
  rewrite stored_eq, len_app. unfold BlockTrailer. rewrite len_cons, len_EncodeFixed32. lia.
Qed.

Lemma Builder_Reset i b : Builder.Reset (fst (Builder.Finish (Builder.AddAll (Builder.New i) b))) = Builder.New i.
Proof.
  unfold Builder.Reset, Builder.Finish. simpl.
  assert (Builder.block_restart_interval (Builder.AddAll (Builder.New i) b) = i) as ->; [|done].
  unfold Builder.AddAll. induction b as [|e b IH] using rev_ind; [done|]. by rewrite foldl_app.
Qed.

Lemma WriteRawBlock_mem c t r :
  WriteRawBlock mem_Append c t r =
  (set_written (file r ++ c ++ BlockTrailer c t) (u64 (offset r + len c + 5)) true r,
   {| Format.offset_ := offset r; Format.size_ := len c |}).
Proof. unfold WriteRawBlock. simpl. by rewrite <- app_assoc. Qed.

Lemma WriteBlock_mem i b r :
  options r = opt → offset r = u64 (len (file r)) →
  WriteBlock mem_Append (Builder.AddAll (Builder.New i) b) r =
  (set_written (file r ++ stored (Builder.Build i b)) (u64 (len (file r) + len (stored (Builder.Build i b)))) true r,
   handle_at (len (file r)) (Builder.Build i b), Builder.New i).
Proof.
  intros Hopt Hoff. unfold WriteBlock, handle_at.
  rewrite len_stored, stored_eq. pose proof (Builder_Reset i b) as HR. unfold Builder.Build.
  destruct (Builder.Finish _) as [b' raw]. cbn [fst snd] in *. rewrite Hopt, HR.
  destruct (CompressBlock _ raw) as [c t]. cbn [fst snd].
  rewrite WriteRawBlock_mem, Hoff, <- Z.add_assoc, u64_add. done.
Qed.

Lemma empty_AddAll i b : Forall entry_ok b → Builder.empty (Builder.AddAll (Builder.New i) b) = bool_decide (b = []).
Proof.
  intros Hb. unfold Builder.empty. rewrite AddAll_buffer by done. destruct b as [|e b]; [done|].
  rewrite bool_decide_false by done. apply Z.eqb_neq. unfold encode_entries. cbn [map concat]. rewrite len_app.
  apply Forall_cons in Hb as [He _]. pose proof (encode_entry_len e He).
  pose proof (len_nonneg e.1). pose proof (len_nonneg e.2). pose proof (len_nonneg (concat (map encode_entry b))). lia.
Qed.

Lemma filter_of_key bs cur e :
  filter_of bs (cur ++ [e]) =
  match filter_policy opt, filter_of bs cur with
  | Some _, Some fb => Some (AddKey e.1 fb)
  | _, _ => None
  end.
Proof.
  unfold filter_of. destruct (filter_policy opt) as [[n p]|]; [|done].
  f_equal. rewrite !foldl_app. cbn [foldl]. unfold AddBlock. cbn [fst snd].
  by rewrite map_app, foldl_app.
Qed.

Lemma filter_of_start bs b :
  filter_of (bs ++ [b]) [] =
  match filter_policy opt, filter_of bs b with
  | Some (_, p), Some fb => Some (StartBlock p (u64 (len (file_of (bs ++ [b])))) fb)
  | _, _ => None
  end.
Proof.
  unfold filter_of. destruct (filter_policy opt) as [[n p]|]; [|done].
  f_equal. rewrite filter_done_snoc, Z.add_0_l, foldl_app. done.
Qed.

Lemma Builder_AddAll_snoc b es k v :
  Builder.AddAll b (es ++ [(k, v)]) = Builder.Add (Builder.AddAll b es) k v.
Proof. unfold Builder.AddAll. by rewrite foldl_app. Qed.

Lemma built_init : built (NewTableBuilder opt []) [] [].
Proof.
  unfold NewTableBuilder, with_filter. cbn.
  destruct (filter_policy opt) as [[n p]|] eqn:Hp; split; cbn; try done;
    unfold filter_of; by rewrite Hp.
Qed.

(** The filter block after a call, whether there is one or not. *)
Lemma with_filter_set f (r : Rep bytes) :
  with_filter f r = set_filter
    (match filter_policy (options r), filter_block r with
     | Some (_, p), Some fb => Some (f p fb) | _, fb => fb end) r.
Proof.
  unfold with_filter. destruct (filter_policy (options r)) as [[n p]|]; [|by destruct r].
  by destruct r as [??????????[|]??].
Qed.

Lemma filter_step bs cur f :
  match filter_policy opt, filter_of bs cur with
  | Some (_, p), Some fb => Some (f p fb) | _, fb => fb end =
  match filter_policy opt, filter_of bs cur with
  | Some (_, p), Some fb => Some (f p fb) | _, _ => None end.
Proof. unfold filter_of. by destruct (filter_policy opt) as [[n p]|]. Qed.

(** [Flush] of a nonempty block. *)
Lemma Flush_built r bs cur :
  built r bs cur → cur ≠ [] → Forall entry_ok cur → built (Flush r) (bs ++ [cur]) [].
Proof.
  intros [Ho Hf Hoff Hst Hd Hi Hp Hn Hl Hne Hflt] Hcur Hok. unfold TableBuilder.Flush.
  rewrite Hst, Hd, empty_AddAll, bool_decide_false by done. cbn [negb].
  rewrite WriteBlock_mem by done.
  assert (pending_index_entry r = false) as Hpend by (destruct (pending_index_entry r); [by specialize (Hp eq_refl)|done]).
  unfold EmitPendingIndex in Hi. rewrite Hpend in Hi.
  cbn. rewrite with_filter_set.
  cbn. rewrite Ho, Hflt, filter_step, Hf. fold (data cur).
  rewrite <- len_app, <- file_of_snoc.
  split; cbn; try done.
  - unfold EmitPendingIndex. cbn. rewrite index_entries_snoc, Builder_AddAll_snoc, Hi, Hl, Z.add_0_l by done. done.
  - rewrite Hn, len_app. unfold u32. by rewrite Zplus_mod_idemp_l.
  - apply Forall_app. split; [done|]. by apply Forall_singleton.
  - by rewrite filter_of_start.
Qed.

(** [Add] before the size test. *)
Definition AddEntry (key value : bytes) (r : Rep bytes) : Rep bytes :=
  let r := EmitPendingIndex r in
  let r := with_filter (λ _, AddKey key) r in
  let r := set_last key (num_entries r + 1) r in
  set_data_block (Builder.Add (data_block r) key value) r.

Lemma AddEntry_built r bs cur k v :
  built r bs cur → built (AddEntry k v r) bs (cur ++ [(k, v)]).
Proof.
  intros [Ho Hf Hoff Hst Hd Hi Hp Hn Hl Hne Hflt]. unfold AddEntry. rewrite with_filter_set.
  assert (∀ r : Rep bytes, options (EmitPendingIndex r) = options r ∧ file (EmitPendingIndex r) = file r ∧
    offset (EmitPendingIndex r) = offset r ∧ status (EmitPendingIndex r) = status r ∧
    data_block (EmitPendingIndex r) = data_block r ∧ block_number (EmitPendingIndex r) = block_number r ∧
    filter_block (EmitPendingIndex r) = filter_block r ∧ pending_index_entry (EmitPendingIndex r) = false) as HE.
  { intros r0. unfold EmitPendingIndex. by case_if. }
  destruct (HE r) as (E1 & E2 & E3 & E4 & E5 & E6 & E7 & E8).
  rewrite E1, E7, Ho, Hflt, filter_step.
  split; cbn;
    rewrite ?E1, ?E2, ?E3, ?E4, ?E5, ?E6; try done.
  - by rewrite Hd, Builder_AddAll_snoc.
  - unfold EmitPendingIndex at 1. cbn. by rewrite E8.
  - by rewrite E8.
  - intros _. unfold last_key_of. by rewrite last_snoc.
  - rewrite filter_of_key. by destruct (filter_policy opt) as [[??]|].
Qed.

Lemma Add_AddEntry r k v :
  status r = true →
  Add k v r = (if Builder.CurrentSizeEstimate (data_block (AddEntry k v r)) >=? block_size (options (AddEntry k v r))
               then Flush (AddEntry k v r) else AddEntry k v r).
Proof. intros Hst. unfold TableBuilder.Add. by rewrite Hst. Qed.

(** Where an entry of a partly written table ends up. *)
Record extends (bs : list entries) (cur : entries) (bs' : list entries) (cur' : entries) : Prop := {
  ex_bs : bs `prefix_of` bs';
  ex_cur : ∃ l, (bs' ++ [cur']) !! length bs = Some l ∧ cur `prefix_of` l
}.

Lemma extends_refl bs cur : extends bs cur bs cur.
Proof. split; [done|]. exists cur. split; [|done]. by rewrite list_lookup_middle. Qed.

Lemma extends_trans bs1 c1 bs2 c2 bs3 c3 :
  extends bs1 c1 bs2 c2 → extends bs2 c2 bs3 c3 → extends bs1 c1 bs3 c3.
Proof.
  intros [H1 (l1 & Hl1 & Hc1)] [H2 (l2 & Hl2 & Hc2)]. split; [by transitivity bs2|].
  destruct (decide (length bs1 < length bs2)%nat) as [Hlt|Hge].
  - exists l1. split; [|done]. rewrite lookup_app_l in Hl1 by done.
    apply (prefix_lookup_Some _ _ _ _ Hl1). by apply prefix_app_r.
  - apply prefix_length in H1 as Hle. assert (length bs1 = length bs2) as E by lia.
    rewrite E, list_lookup_middle in Hl1 by done. simplify_eq.
    exists l2. rewrite E. split; [done|]. by transitivity l1.
Qed.

(** How the builder cuts the entries into blocks: the blocks that are complete,
    and the one being filled. *)
Definition cut_step (st : list entries * entries) (e : bytes * bytes) : list entries * entries :=
  let cur := st.2 ++ [e] in
  if Builder.CurrentSizeEstimate (Builder.AddAll (Builder.New (block_restart_interval opt)) cur) >=? block_size opt
  then (st.1 ++ [cur], []) else (st.1, cur).

Definition cut (es : entries) : list entries * entries := foldl cut_step ([], []) es.

Lemma Add_built r bs cur k v :
  built r bs cur → Forall entry_ok cur → entry_ok (k, v) →
  let st := cut_step (bs, cur) (k, v) in
  built (Add k v r) st.1 st.2 ∧ Forall entry_ok st.2.
Proof.
  intros Hb Hok He. pose proof (AddEntry_built r bs cur k v Hb) as Hb1.
  rewrite Add_AddEntry by apply Hb. rewrite (bu_data _ _ _ Hb1), (bu_opt _ _ _ Hb1).
  assert (Forall entry_ok (cur ++ [(k, v)])) as Hok1 by (apply Forall_app; split; [done|by apply Forall_singleton]).
  unfold cut_step. cbn [fst snd]. case_if; [|done]. cbn [fst snd].
  split; [|done]. apply Flush_built; [done|by destruct cur|done].
Qed.

Lemma AddAll_built es r bs cur :
  built r bs cur → Forall entry_ok cur → Forall entry_ok es →
  let st := foldl cut_step (bs, cur) es in
  built (AddAll es r) st.1 st.2 ∧ Forall entry_ok st.2.
Proof.
  revert r bs cur. induction es as [|[k v] es IH]; intros r bs cur Hb Hok Hes; [done|].
  apply Forall_cons in Hes as [He Hes].
  destruct (Add_built r bs cur k v Hb Hok He) as [Hb1 Hok1]. cbn [foldl].
  destruct (cut_step (bs, cur) (k, v)) as [bs1 cur1]. by apply (IH _ bs1 cur1).
Qed.

Lemma cut_concat st es :
  let st' := foldl cut_step st es in concat st'.1 ++ st'.2 = concat st.1 ++ st.2 ++ es.
Proof.
  revert st. induction es as [|e es IH]; intros [bs cur]; cbn [foldl fst snd]; [by rewrite app_nil_r|].
  rewrite IH. unfold cut_step. case_if; cbn [fst snd].
  - rewrite concat_app. cbn. rewrite app_nil_r, <- !app_assoc. done.
  - by rewrite <- app_assoc.
Qed.

Lemma cut_extends st es :
  let st' := foldl cut_step st es in extends st.1 st.2 st'.1 st'.2.
Proof.
  revert st. induction es as [|e es IH]; intros [bs cur]; cbn [foldl fst snd]; [apply extends_refl|].
  eapply extends_trans; [|apply IH]. unfold cut_step. case_if; cbn [fst snd].
  - split; [by apply prefix_app_r|]. exists (cur ++ [e]). split; [|by apply prefix_app_r].
    rewrite lookup_app_l by (rewrite length_app; simpl; lia). by rewrite list_lookup_middle.
  - split; [done|]. exists (cur ++ [e]). split; [by rewrite list_lookup_middle|by apply prefix_app_r].
Qed.

(** The entry added after [l1] is entry [length cur] of block [length bs]. *)
Lemma cut_address l1 e l2 :
  let st := cut l1 in let st' := cut (l1 ++ e :: l2) in
  ∃ b, (st'.1 ++ [st'.2]) !! length st.1 = Some b ∧ b !! length st.2 = Some e.
Proof.
  unfold cut. rewrite foldl_app. cbn [foldl]. destruct (foldl cut_step ([], []) l1) as [bs cur]. cbn [fst snd].
  assert (extends bs (cur ++ [e]) (cut_step (bs, cur) e).1 (cut_step (bs, cur) e).2) as H1.
  { unfold cut_step. cbn [fst snd]. case_if; cbn [fst snd]; [|apply extends_refl].
    split; [by apply prefix_app_r|]. exists (cur ++ [e]). split; [|done].
    rewrite lookup_app_l by (rewrite length_app; simpl; lia). by rewrite list_lookup_middle. }
  destruct (extends_trans _ _ _ _ _ _ H1 (cut_extends (cut_step (bs, cur) e) l2)) as [_ (b & Hb & [k ->])].
  exists ((cur ++ [e]) ++ k). split; [done|]. rewrite <- app_assoc. cbn [app]. by rewrite list_lookup_middle.
Qed.

(** [Flush], whether the block is empty or not. *)
Lemma Flush_any r bs cur :
  built r bs cur → Forall entry_ok cur →
  ∃ bs', built (Flush r) bs' [] ∧ bs' = bs ++ (if decide (cur = []) then [] else [cur]).
Proof.
  intros Hb Hok. destruct (decide (cur = [])) as [->|Hne].
  - exists bs. rewrite app_nil_r. split; [|done]. unfold TableBuilder.Flush.
    rewrite (bu_status _ _ _ Hb), (bu_data _ _ _ Hb). done.
  - exists (bs ++ [cur]). split; [by apply Flush_built|done].
Qed.

(** The blocks [Finish] writes after the data blocks: the filter block and the
    metaindex block. *)
Definition filter_contents (bs : list entries) : bytes :=
  match filter_policy opt with
  | Some (_, p) => BuildFilterBlock p (filter_done 0 bs ++ [(u64 (len (file_of bs)), [])])
  | None => []
  end.

Definition filter_part (bs : list entries) : bytes :=
  match filter_policy opt with
  | Some _ => filter_contents bs ++ BlockTrailer (filter_contents bs) kNoCompression
  | None => []
  end.

Definition meta_entries (bs : list entries) : entries :=
  match filter_policy opt with
  | Some (name, _) =>
      [(filter_prefix ++ name, BlockHandle_EncodeTo []
          {| Format.offset_ := u64 (len (file_of bs)); Format.size_ := len (filter_contents bs) |})]
  | None => []
  end.

Definition meta_block (bs : list entries) : bytes :=
  Builder.Build (block_restart_interval opt) (meta_entries bs).
Definition index_contents (bs : list entries) : bytes := Builder.Build 1 (index_entries 0 bs).

Definition meta_offset (bs : list entries) : Z := len (file_of bs ++ filter_part bs).
Definition index_offset (bs : list entries) : Z := meta_offset bs + len (stored (meta_block bs)).

Definition footer_of (bs : list entries) : Footer := {|
  metaindex_handle_ := handle_at (meta_offset bs) (meta_block bs);
  index_handle_ := handle_at (index_offset bs) (index_contents bs) |}.

(** The file of a table whose data blocks are [bs]. *)
Definition table_file (bs : list entries) : bytes :=
  file_of bs ++ filter_part bs ++ stored (meta_block bs) ++ stored (index_contents bs) ++
  Footer_EncodeTo [] (footer_of bs).

Lemma Finish_built r bs cur :
  built r bs cur → Forall entry_ok cur →
  ∃ bs', bs' = bs ++ (if decide (cur = []) then [] else [cur]) ∧
    status (Finish r) = true ∧ file (Finish r) = table_file bs' ∧
    offset (Finish r) = u64 (len (table_file bs')).
Proof.
  intros Hb Hok. destruct (Flush_any r bs cur Hb Hok) as (bs' & Hb' & Hbs'). exists bs'. split; [done|].
  destruct Hb' as [Ho Hf Hoff Hst Hd Hi Hp Hn Hl Hne Hflt].
  unfold TableBuilder.Finish. set (r1 := Flush r) in *. clearbody r1. clear Hb Hok Hbs' Hd Hn Hl.
  (* the filter block *)
  assert (∃ r2 h, (match filter_policy (options (set_closed r1)), filter_block (set_closed r1) with
    | Some (_, policy), Some fb =>
        if status (set_closed r1)
        then WriteRawBlock mem_Append (FilterBlock.Finish policy fb) kNoCompression (set_closed r1)
        else (set_closed r1, BlockHandle_init)
    | _, _ => (set_closed r1, BlockHandle_init) end) = (r2, h) ∧
    r2 = set_written (file_of bs' ++ filter_part bs') (u64 (meta_offset bs')) true (set_closed r1) ∧
    (match filter_policy opt, filter_of bs' [] with
     | Some (name, _), Some _ =>
        Builder.Add (Builder.New (block_restart_interval opt)) (filter_prefix ++ name) (BlockHandle_EncodeTo [] h)
     | _, _ => Builder.New (block_restart_interval opt) end)
      = Builder.AddAll (Builder.New (block_restart_interval opt)) (meta_entries bs')) as (r2 & h & -> & -> & Hmeta).
  { cbn [options filter_block set_closed status]. rewrite Ho, Hflt, Hst.
    unfold filter_of, filter_part, meta_offset, meta_entries, filter_contents.
    unfold filter_part, filter_contents. destruct (filter_policy opt) as [[name p]|] eqn:Hpol.
    - rewrite WriteRawBlock_mem. eexists _, _. split; [done|]. cbn. rewrite Hoff, Hf. split.
      + rewrite <- Z.add_assoc, u64_add, !len_app. unfold BlockTrailer at 3. rewrite len_cons, len_EncodeFixed32.
        done.
      + done.
    - eexists _, _. split; [done|]. split; [|done]. rewrite app_nil_r, <- Hf, <- Hoff, <- Hst. by destruct r1. }
  cbn [status options filter_block set_written set_closed]. rewrite Ho, Hflt, Hmeta.
  (* the metaindex block *)
  rewrite WriteBlock_mem by done. cbn [status set_written].
  (* the index block *)
  set (r3 := set_written _ _ _ _).
  assert (options r3 = opt ∧ offset r3 = u64 (len (file r3)) ∧
    file r3 = file_of bs' ++ filter_part bs' ++ stored (meta_block bs') ∧
    len (file r3) = index_offset bs') as (Ho3 & Hoff3 & Hf3 & Hl3).
  { unfold r3. cbn [options offset file set_written set_closed]. rewrite Ho.
    unfold index_offset, meta_offset, meta_block. rewrite !len_app, <- app_assoc. done. }
  assert (index_block (EmitPendingIndex r3) = Builder.AddAll (Builder.New 1) (index_entries 0 bs') ∧
    options (EmitPendingIndex r3) = opt ∧ file (EmitPendingIndex r3) = file r3 ∧
    offset (EmitPendingIndex r3) = offset r3) as (Hi4 & Ho4 & Hf4 & Hoff4).
  { rewrite <- Hi, <- Ho3. unfold EmitPendingIndex, r3. cbn. by destruct (pending_index_entry r1). }
  clearbody r3. rewrite Hi4, WriteBlock_mem by (by rewrite ?Hf4, ?Hoff4).
  cbn [status set_index set_written file offset]. rewrite Hf4, Hl3.
  (* the footer *)
  unfold mem_Append. cbn [status set_written file offset].
  assert ((file r3 ++ stored (Builder.Build 1 (index_entries 0 bs'))) ++
    Footer_EncodeTo [] {| metaindex_handle_ := handle_at (len (file_of bs' ++ filter_part bs'))
        (Builder.Build (block_restart_interval opt) (meta_entries bs'));
      index_handle_ := handle_at (index_offset bs') (Builder.Build 1 (index_entries 0 bs')) |}
    = table_file bs') as Hfin by (rewrite Hf3, <- !app_assoc; done).
  rewrite Hfin. split; [done|]. split; [done|].
  rewrite u64_add, <- Hl3, <- Hfin, !len_app. f_equal. rewrite Hl3. lia.
Qed.

End mem.
