(* ===== verification/Table.v ===== *)
(** * table/table.cc: reading a table

    [Open] reads the footer, the index block and the filter; [InternalGet]
    seeks a key through the index; [InternalVGet] goes to a block by its number
    and to an entry by its index, as the key tables of the value separation
    address their values.  The block cache is an interface: the operations
    [BlockReader] calls, and what a cache promises. *)

From S2P Require Import Prelude Coding Crc32c Comparator DBFormat Bloom FilterBlock Block Format TableBuilder.

(** ** Iterators as [BlockReader] returns them *)

Inductive Iterator :=
  | ErrorIter (e : Error)
  | EmptyIter
  | BlockIter (it : Iter.t).

Definition of_block_iterator (r : NewIteratorResult) : Iterator :=
  match r with
  | ErrorIterator => ErrorIter BadBlockContents
  | EmptyIterator => EmptyIter
  | BlockIterator it => BlockIter it
  end.

(** A method that moves the iterator: error and empty iterators stay. *)
Definition move (f : Iter.t → option Iter.t) (i : Iterator) : option Iterator :=
  match i with
  | BlockIter it => it ← f it; Some (BlockIter it)
  | _ => Some i
  end.

Definition Valid (i : Iterator) : bool :=
  match i with BlockIter it => Iter.Valid it | _ => false end.

Definition current (i : Iterator) : bytes * bytes :=
  match i with BlockIter it => (Iter.key_ it, Iter.value it) | _ => ([], []) end.

(** [None] is ok. *)
Definition iter_status (i : Iterator) : option Error :=
  match i with
  | ErrorIter e => Some e
  | EmptyIter => None
  | BlockIter it => if Iter.status_ok it then None else Some BadEntryInBlock
  end.

(** ** Table *)

(** The block cache of include/leveldb/cache.h as [BlockReader] uses it, by the
    bytes of its keys. [Lookup] may move an entry in the order of eviction. *)
Class BlockCache (C : Type) := {
  Lookup : C → bytes → option Block * C;
  Insert : C → bytes → Block → C
}.

(** What a cache promises: it forgets entries as it likes, and otherwise holds
    what was inserted. *)
Class BlockCacheLaws (C : Type) (BC : BlockCache C) := {
  Holds : C → bytes → Block → Prop;
  lookup_held c k b c' : Lookup c k = (Some b, c') → Holds c k b;
  lookup_keeps c k r c' k' b : Lookup c k = (r, c') → Holds c' k' b → Holds c k' b;
  insert_holds c k b k' b' : Holds (Insert c k b) k' b' → (k' = k ∧ b' = b) ∨ Holds c k' b'
}.

Record ReadOptions := { verify_checksums : bool; fill_cache : bool }.

Section table.

Context `{SN : !Snappy} {C : Type} {BC : BlockCache C}.

Record Table := {
  t_options : Options;
  t_cache_id : Z;
  t_Read : Z → Z → option bytes;
  t_metaindex_handle : BlockHandle;
  t_index_block : Block;
  t_filter : option FilterBlockReader
}.

Definition ReadFilter (Read : Z → Z → option bytes) (paranoid_checks : bool) (filter_handle_value : bytes)
    : option FilterBlockReader :=
  match BlockHandle_DecodeFrom filter_handle_value with
  | inl _ => None
  | inr (filter_handle, _) =>
      match ReadBlock Read paranoid_checks filter_handle with
      | inl _ => None
      | inr block => Some (NewFilterBlockReader block)
      end
  end.

(** The outer [None] is the iterator's. *)
Definition ReadMeta (opt : Options) (Read : Z → Z → option bytes) (paranoid_checks : bool) (footer : Footer)
    : option (option FilterBlockReader) :=
  match filter_policy opt with
  | None => Some None
  | Some (name, _) =>
      match ReadBlock Read paranoid_checks (metaindex_handle_ footer) with
      | inl _ => Some None
      | inr contents =>
          let meta := NewBlock contents in
          let iter := of_block_iterator (NewIterator Bytewise.comparator meta) in
          let key := filter_prefix ++ name in
          iter ← move (Iter.Seek key) iter;
          if Valid iter && Slice.operator_eq (current iter).1 key
          then Some (ReadFilter Read paranoid_checks (current iter).2)
          else Some None
      end
  end.

(** [cache_id] is what [NewId] of the block cache returns, 0 without one. *)
Definition Open (opt : Options) (cache_id : Z) (Read : Z → Z → option bytes) (paranoid_checks : bool) (size : Z)
    : option (Status Table) :=
  if size <? kEncodedLength then Some (inl FileTooShort)
  else
    match Read (size - kEncodedLength) kEncodedLength with
    | None => Some (inl IOError)
    | Some footer_input =>
        match Footer_DecodeFrom footer_input with
        | inl e => Some (inl e)
        | inr (footer, _) =>
            match ReadBlock Read paranoid_checks (index_handle_ footer) with
            | inl e => Some (inl e)
            | inr index_block_contents =>
                filter ← ReadMeta opt Read paranoid_checks footer;
                Some (inr {| t_options := opt; t_cache_id := cache_id; t_Read := Read;
                             t_metaindex_handle := metaindex_handle_ footer;
                             t_index_block := NewBlock index_block_contents;
                             t_filter := filter |})
            end
        end
    end.

(** [cmp] is the comparator the configuration [MOD] selects. *)
Definition VBlockReader (t : Table) (cmp : Comparator) (options : ReadOptions) (index_value : bytes) : Iterator :=
  match BlockHandle_DecodeFrom index_value with
  | inl e => ErrorIter e
  | inr (handle, _) =>
      match ReadBlock (t_Read t) (verify_checksums options) handle with
      | inl e => ErrorIter e
      | inr contents => of_block_iterator (NewIterator cmp (NewBlock contents))
      end
  end.

Definition cache_key (t : Table) (off : Z) : bytes := EncodeFixed64 (t_cache_id t) ++ EncodeFixed64 off.

(** [block_cache] is [nullptr] or a cache; [cachable] is what [ReadBlock] sets
    of its result: false when the file returned memory of its own. *)
Definition BlockReader (t : Table) (options : ReadOptions) (cachable : bool) (block_cache : option C)
    (index_value : bytes) : Iterator * option C :=
  match BlockHandle_DecodeFrom index_value with
  | inl e => (ErrorIter e, block_cache)
  | inr (handle, _) =>
      let cmp := comparator (t_options t) in
      let read := ReadBlock (t_Read t) (verify_checksums options) handle in
      match block_cache with
      | Some cache =>
          let key := cache_key t (Format.offset_ handle) in
          match Lookup cache key with
          | (Some block, cache) => (of_block_iterator (NewIterator cmp block), Some cache)
          | (None, cache) =>
              match read with
              | inl e => (ErrorIter e, Some cache)
              | inr contents =>
                  let block := NewBlock contents in
                  (of_block_iterator (NewIterator cmp block),
                   Some (if cachable && fill_cache options then Insert cache key block else cache))
              end
          end
      | None =>
          match read with
          | inl e => (ErrorIter e, None)
          | inr contents => (of_block_iterator (NewIterator cmp (NewBlock contents)), None)
          end
      end
  end.

(** What [handle_result] was called with, the status, and the cache. *)
Definition InternalGet (t : Table) (options : ReadOptions) (cachable : bool) (block_cache : option C) (k : bytes)
    : option (option (bytes * bytes) * option Error * option C) :=
  let c := comparator (t_options t) in
  let iiter := of_block_iterator (NewIterator c (t_index_block t)) in
  iiter ← move (Iter.Seek k) iiter;
  r ← (if Valid iiter then
         let handle_value := (current iiter).2 in
         let filtered :=
           match filter_policy (t_options t), t_filter t, BlockHandle_DecodeFrom handle_value with
           | Some (_, policy), Some filter, inr (handle, _) =>
               negb (KeyMayMatch policy filter (Format.offset_ handle) k)
           | _, _, _ => false
           end in
         if filtered then Some (None, None, block_cache)
         else
           let '(block_iter, block_cache) := BlockReader t options cachable block_cache handle_value in
           block_iter ← move (Iter.Seek k) block_iter;
           Some (if Valid block_iter then Some (current block_iter) else None, iter_status block_iter, block_cache)
       else Some (None, None, block_cache));
  let '(found, s, block_cache) := r in
  Some (found, match s with None => iter_status iiter | Some _ => s end, block_cache).

Fixpoint NextN (n : nat) (i : Iterator) : option Iterator :=
  match n with
  | O => Some i
  | S n' => i ← move Iter.Next i; NextN n' i
  end.

Definition InternalVGet (t : Table) (vcmp : Comparator) (options : ReadOptions)
    (block_number block_offset : Z) : option (option (bytes * bytes) * option Error) :=
  let iiter := of_block_iterator (NewIterator VKey.comparator (t_index_block t)) in
  iiter ← move Iter.SeekToFirst iiter;
  iiter ← NextN (Z.to_nat block_number) iiter;
  r ← (if Valid iiter then
         let block_iter := VBlockReader t vcmp options (current iiter).2 in
         block_iter ← move (Iter.SeekToNth block_offset) block_iter;
         Some (if Valid block_iter then Some (current block_iter) else None, iter_status block_iter)
       else Some (None, None));
  let '(found, s) := r in
  Some (found, match s with None => iter_status iiter | Some _ => s end).

(** A sequence of lookups that share the cache. *)
Fixpoint InternalGets (t : Table) (block_cache : option C) (gets : list (ReadOptions * bool * bytes))
    : option (list (option (bytes * bytes) * option Error)) :=
  match gets with
  | [] => Some []
  | (options, cachable, k) :: gets' =>
      '(found, s, block_cache) ← InternalGet t options cachable block_cache k;
      rs ← InternalGets t block_cache gets';
      Some ((found, s) :: rs)
  end.

End table.

(** ** Lemmas *)

(** What bounds a table: the entries with their headers, and 64 bytes an entry
    for restart points, trailers and the index. *)
Record table_ok (es : entries) : Prop := {
  to_entries : Forall entry_ok es;
  to_bytes : Forall (λ e, bytes_ok e.1 ∧ bytes_ok e.2) es;
  to_size : len (encode_entries es) + 64 * len es < 2 ^ 31
}.

Lemma table_ok_app l1 es l2 : table_ok (l1 ++ es ++ l2) → table_ok es.
Proof.
  intros [H1 H2 H3]. rewrite !Forall_app in *. split; [tauto..|].
  rewrite !encode_entries_app, !len_app in H3.
  pose proof (len_nonneg (encode_entries l1)). pose proof (len_nonneg (encode_entries l2)).
  pose proof (len_nonneg l1). pose proof (len_nonneg l2). lia.
Qed.

Lemma len_Build i es :
  Forall entry_ok es → len (encode_entries es) < 2 ^ 32 →
  len (Builder.Build i es) ≤ len (encode_entries es) + 4 * len es + 8.
Proof.
  intros H1 H3. destruct (AddAll_spec i es H1 H3) as (_ & _ & _ & HR).
  unfold Builder.Build, Builder.Finish. cbn [snd]. rewrite PutRestarts_eq, AddAll_buffer by done.
  unfold PutFixed32. rewrite !len_app, len_restarts, len_EncodeFixed32. unfold len in *. lia.
Qed.

Lemma encode_entries_ok es :
  Forall entry_ok es → Forall (λ e, bytes_ok e.1 ∧ bytes_ok e.2) es → bytes_ok (encode_entries es).
Proof.
  unfold encode_entries. induction 1 as [|e es [Hk Hv] _ IH]; intros Hb; [constructor|].
  apply Forall_cons in Hb as [[Hb1 Hb2] Hb]. cbn [map concat]. apply bytes_ok_app. split; [|by apply IH].
  unfold encode_entry, entry_header. rewrite !bytes_ok_app. repeat split; try done; apply EncodeVarint32_ok; done || by_decide.
Qed.

Lemma fixed32s_ok l : bytes_ok (concat (map EncodeFixed32 l)).
Proof.
  induction l as [|x l IH]; [constructor|]. cbn [map concat]. apply bytes_ok_app. split; [|done].
  apply EncodeFixed32_ok.
Qed.

Lemma Build_ok i es :
  Forall entry_ok es → Forall (λ e, bytes_ok e.1 ∧ bytes_ok e.2) es → bytes_ok (Builder.Build i es).
Proof.
  intros H1 H2. unfold Builder.Build, Builder.Finish. cbn [snd].
  rewrite PutRestarts_eq, AddAll_buffer by done. unfold PutFixed32. rewrite !bytes_ok_app.
  split; [split|]; [by apply encode_entries_ok|apply fixed32s_ok|apply EncodeFixed32_ok].
Qed.

Lemma len_compress `{SN : !Snappy} c raw : len (fst (CompressBlock c raw)) ≤ len raw.
Proof.
  unfold CompressBlock. pose proof (len_nonneg raw). repeat case_match; zify_bool; simpl; try lia.
  Z.div_mod_to_equations; lia.
Qed.

Lemma BlockHandle_ok h : handle_ok h → bytes_ok (BlockHandle_EncodeTo [] h).
Proof.
  intros [? ?]. unfold BlockHandle_EncodeTo, PutVarint64. rewrite !bytes_ok_app.
  split; [split; [constructor|]|]; by apply EncodeVarint64_ok.
Qed.

Section built.

Context `{SN : !Snappy} `{!SnappyLaws SN} {C : Type} {BC : BlockCache C} `{BL : !BlockCacheLaws C BC} (opt : Options) (cache_id : Z).
Abbreviation interval := (block_restart_interval opt).

Lemma len_data b : table_ok b → len (data opt b) ≤ len (encode_entries b) + 4 * len b + 13.
Proof.
  intros [H1 _ H3]. unfold data. rewrite len_stored. pose proof (len_nonneg b).
  pose proof (len_compress (compression opt) (Builder.Build interval b)).
  pose proof (len_Build interval b H1 ltac:(lia)). lia.
Qed.

Lemma len_file_of bs :
  Forall (λ b, b ≠ []) bs → table_ok (concat bs) →
  len (file_of opt bs) ≤ len (encode_entries (concat bs)) + 17 * len (concat bs).
Proof.
  intros Hne Hok. unfold file_of. induction Hne as [|b bs Hb Hne IH]; [done|]. cbn [map concat] in *.
  rewrite len_app, encode_entries_app, !len_app.
  pose proof (len_data b (table_ok_app [] b (concat bs) Hok)).
  specialize (IH ltac:(apply (table_ok_app b (concat bs) []); by rewrite app_nil_r)).
  destruct b as [|e b]; [done|]. pose proof (len_nonneg b). rewrite len_cons in *. lia.
Qed.

(** The index of a table. *)
Lemma index_entries_ok off bs :
  Forall (λ b, b ≠ []) bs → table_ok (concat bs) →
  Forall entry_ok (index_entries opt off bs) ∧
  Forall (λ e, bytes_ok e.1 ∧ bytes_ok e.2) (index_entries opt off bs) ∧
  len (encode_entries (index_entries opt off bs)) + 4 * len (index_entries opt off bs)
    ≤ len (encode_entries (concat bs)) + 39 * len (concat bs).
Proof.
  intros Hne. revert off. induction Hne as [|b bs Hb Hne IH]; intros off Hok; [done|].
  cbn [index_entries concat] in *. pose proof (table_ok_app [] b (concat bs) Hok) as Hokb.
  destruct (IH (off + len (data opt b)) ltac:(apply (table_ok_app b (concat bs) []); by rewrite app_nil_r))
    as (IH1 & IH2 & IH3).
  set (h := handle_at opt off _).
  assert (handle_ok h) as Hh.
  { split; [apply u64_range|]. unfold h, handle_at. cbn [Format.size_].
    pose proof (len_compress (compression opt) (Builder.Build interval b)).
    pose proof (len_nonneg (fst (CompressBlock (compression opt) (Builder.Build interval b)))).
    destruct Hokb as [H1 _ H3]. pose proof (len_nonneg b).
    pose proof (len_Build interval b H1 ltac:(lia)). unfold u64_ok. lia. }
  pose proof (len_BlockHandle h Hh) as Hlh. unfold kMaxEncodedLength in Hlh.
  destruct b as [|x b _] using rev_ind; [done|]. unfold last_key_of. rewrite last_snoc. cbn [default fmap option_fmap option_map from_option id].
  destruct Hokb as [[H1 [Hx _]%Forall_cons]%Forall_app [_ [[Hbx _] _]%Forall_cons]%Forall_app _].
  set (e := (x.1, BlockHandle_EncodeTo [] h)).
  assert (entry_ok e) as He.
  { destruct Hx as [Hx _]. split; [done|]. cbn [snd e]. unfold u32_ok. lia. }
  split; [by constructor|]. split; [constructor; [split; [done|by apply BlockHandle_ok]|done]|].
  rewrite !encode_entries_app, len_cons, !len_app. unfold encode_entries at 1. cbn [map concat].
  fold (encode_entries (index_entries opt (off + len (data opt (b ++ [x]))) bs)).
  rewrite len_app. unfold encode_entries at 3. cbn [map concat]. rewrite app_nil_r.
  pose proof (encode_entry_len x Hx). pose proof (len_nonneg x.2). pose proof (len_nonneg b).
  pose proof (len_nonneg (encode_entries b)).
  assert (len (encode_entry e) ≤ 15 + len x.1 + 20).
  { unfold encode_entry, entry_header. rewrite !len_app. destruct He as [He1 He2].
    pose proof (len_EncodeVarint32 _ He1). pose proof (len_EncodeVarint32 _ He2).
    change (len (EncodeVarint32 0)) with 1. cbn [fst snd e] in *. lia. }
  change (len [x]) with 1. lia.
Qed.

(** Reading a block back through its handle. *)
Lemma ReadBlock_at pre raw rest verify :
  bytes_ok raw → len pre < 2 ^ 63 → len raw < 2 ^ 32 →
  ReadBlock (mem_Read (pre ++ stored opt raw ++ rest)) verify (handle_at opt (len pre) raw) = inr raw.
Proof.
  intros Hraw Hpre Hlen. pose proof (ReadBlock_stored pre raw (compression opt) rest verify Hraw Hpre Hlen) as H.
  unfold stored, handle_at. destruct (CompressBlock _ _) as [s t]. pose proof (len_nonneg pre).
  rewrite u64_id by (unfold u64_ok; lia). by rewrite <- app_assoc.
Qed.

Context (bs : list entries) (Hne : Forall (λ b, b ≠ []) bs) (Hok : table_ok (concat bs)).

(** The filter block, where there is one, is made of bytes and not too long. *)
Definition filter_fits : Prop :=
  match filter_policy opt with
  | None => True
  | Some (name, _) =>
      bytes_ok name ∧ len name < 2 ^ 30 ∧
      bytes_ok (filter_contents opt bs) ∧ len (filter_contents opt bs) < 2 ^ 32
  end.

Context (Hfit : filter_fits).

Lemma len_blocks : len bs ≤ len (concat bs).
Proof.
  clear Hok Hfit. induction Hne as [|b l Hb Hl IH]; [done|]. cbn [concat]. rewrite len_cons, len_app.
  destruct b as [|x b]; [done|]. rewrite len_cons. pose proof (len_nonneg b). specialize (IH Hl). lia.
Qed.

Lemma index_contents_ok : bytes_ok (index_contents opt bs) ∧ len (index_contents opt bs) < 2 ^ 32.
Proof.
  destruct (index_entries_ok 0 bs Hne Hok) as (H1 & H2 & H3). destruct Hok as [_ _ H4].
  pose proof (len_nonneg (concat bs)). pose proof (len_nonneg (index_entries opt 0 bs)).
  unfold index_contents. split; [by apply Build_ok|].
  pose proof (len_Build 1 _ H1 ltac:(lia)). lia.
Qed.

Lemma file_len : len (file_of opt bs) < 2 ^ 32.
Proof. pose proof (len_file_of bs Hne Hok). destruct Hok. pose proof (len_nonneg (concat bs)). lia. Qed.

Definition filter_handle : BlockHandle :=
  {| Format.offset_ := u64 (len (file_of opt bs)); Format.size_ := len (filter_contents opt bs) |}.

Lemma filter_handle_ok : filter_policy opt ≠ None → handle_ok filter_handle.
Proof.
  intros Hp. split; [apply u64_range|]. cbn. unfold filter_fits in Hfit.
  destruct (filter_policy opt) as [[name p]|]; [|done]. destruct Hfit as (_ & _ & _ & ?).
  pose proof (len_nonneg (filter_contents opt bs)). unfold u64_ok. lia.
Qed.

Lemma meta_ok :
  Forall entry_ok (meta_entries opt bs) ∧ bytes_ok (meta_block opt bs) ∧ len (meta_block opt bs) < 2 ^ 32.
Proof.
  unfold meta_block. assert (Forall entry_ok (meta_entries opt bs) ∧
    Forall (λ e, bytes_ok e.1 ∧ bytes_ok e.2) (meta_entries opt bs) ∧
    len (encode_entries (meta_entries opt bs)) + 4 * len (meta_entries opt bs) + 8 < 2 ^ 32) as (H1 & H2 & H3).
  { unfold meta_entries. pose proof filter_handle_ok as Hfh. unfold filter_fits in Hfit.
    destruct (filter_policy opt) as [[name p]|]; [|done]. destruct Hfit as (Hn & Hnl & _ & _).
    fold filter_handle. specialize (Hfh ltac:(done)). pose proof (len_BlockHandle _ Hfh) as Hl.
    unfold kMaxEncodedLength in Hl. set (e := (filter_prefix ++ name, BlockHandle_EncodeTo [] filter_handle)).
    assert (entry_ok e) as He.
    { split; cbn [fst snd e]; unfold u32_ok; [|lia]. rewrite len_app. change (len filter_prefix) with 7.
      pose proof (len_nonneg name). lia. }
    split; [by apply Forall_singleton|]. split.
    - apply Forall_singleton. split; [|by apply BlockHandle_ok].
      apply bytes_ok_app. split; [by_decide|done].
    - unfold encode_entries. cbn [map concat]. rewrite app_nil_r. unfold encode_entry, entry_header.
      destruct He as [He1 He2]. pose proof (len_EncodeVarint32 _ He1). pose proof (len_EncodeVarint32 _ He2).
      rewrite !len_app. change (len (EncodeVarint32 0)) with 1. change (len [e]) with 1.
      cbn [fst snd e] in *. assert (len (filter_prefix ++ name) = 7 + len name) by (by rewrite len_app). lia. }
  split; [done|]. split; [by apply Build_ok|]. pose proof (len_nonneg (meta_entries opt bs)).
  pose proof (len_Build interval _ H1 ltac:(lia)). lia.
Qed.

Lemma filter_part_len : len (filter_part opt bs) < 2 ^ 33.
Proof.
  unfold filter_part. unfold filter_fits in Hfit. destruct (filter_policy opt) as [[name p]|]; [|done].
  destruct Hfit as (_ & _ & _ & ?). rewrite len_app. unfold BlockTrailer. rewrite len_cons, len_EncodeFixed32. lia.
Qed.

Lemma offsets_fit :
  0 ≤ meta_offset opt bs < 2 ^ 34 ∧ 0 ≤ index_offset opt bs < 2 ^ 35.
Proof.
  destruct meta_ok as (_ & _ & Hm). pose proof filter_part_len. pose proof file_len.
  pose proof (len_nonneg (file_of opt bs)). pose proof (len_nonneg (filter_part opt bs)).
  pose proof (len_compress (compression opt) (meta_block opt bs)).
  pose proof (len_nonneg (stored opt (meta_block opt bs))).
  unfold index_offset, meta_offset. rewrite len_app. rewrite len_stored in *. lia.
Qed.

Lemma footer_handles_ok :
  handle_ok (metaindex_handle_ (footer_of opt bs)) ∧ handle_ok (index_handle_ (footer_of opt bs)).
Proof.
  destruct meta_ok as (_ & _ & Hm). destruct index_contents_ok as (_ & Hi).
  pose proof (len_compress (compression opt) (meta_block opt bs)).
  pose proof (len_compress (compression opt) (index_contents opt bs)).
  pose proof (len_nonneg (fst (CompressBlock (compression opt) (meta_block opt bs)))).
  pose proof (len_nonneg (fst (CompressBlock (compression opt) (index_contents opt bs)))).
  split; (split; [apply u64_range|]); unfold u64_ok; unfold footer_of, handle_at; cbn [Format.size_ metaindex_handle_ index_handle_]; lia.
Qed.

(** Reading the blocks of the file. *)
Lemma read_index verify :
  ReadBlock (mem_Read (table_file opt bs)) verify (index_handle_ (footer_of opt bs)) = inr (index_contents opt bs).
Proof.
  destruct index_contents_ok as (Hb & Hl). destruct offsets_fit as (_ & Ho). cbn [index_handle_ footer_of].
  unfold table_file. rewrite !app_assoc, <- (app_assoc _ (stored opt (index_contents opt bs))).
  assert (index_offset opt bs = len ((file_of opt bs ++ filter_part opt bs) ++ stored opt (meta_block opt bs))) as E
    by (unfold index_offset, meta_offset; by rewrite (len_app (_ ++ _))).
  rewrite E. apply ReadBlock_at; [done| |done]. rewrite <- E. lia.
Qed.

Lemma read_meta verify :
  ReadBlock (mem_Read (table_file opt bs)) verify (metaindex_handle_ (footer_of opt bs)) = inr (meta_block opt bs).
Proof.
  destruct meta_ok as (_ & Hb & Hl). destruct offsets_fit as (Ho & _). cbn [metaindex_handle_ footer_of].
  unfold table_file. rewrite (app_assoc (file_of opt bs)). apply ReadBlock_at; [done| |done].
  unfold meta_offset in Ho. lia.
Qed.

Lemma read_filter verify :
  filter_policy opt ≠ None →
  ReadBlock (mem_Read (table_file opt bs)) verify filter_handle = inr (filter_contents opt bs).
Proof.
  intros Hp. pose proof file_len. unfold table_file, filter_part, filter_handle. unfold filter_fits in Hfit.
  destruct (filter_policy opt) as [[name p]|]; [|done]. destruct Hfit as (_ & _ & Hb & Hl).
  pose proof (len_nonneg (file_of opt bs)). rewrite u64_id by (unfold u64_ok; lia).
  rewrite <- (app_assoc (filter_contents opt bs)).
  assert (len (file_of opt bs) < 2 ^ 63) as Hpre by lia.
  exact (ReadBlock_stored (file_of opt bs) (filter_contents opt bs) kNoCompression _ verify Hb Hpre Hl).
Qed.

Lemma read_data verify j b :
  bs !! j = Some b →
  ∃ off, index_entries opt 0 bs !! j = Some (last_key_of b,
      BlockHandle_EncodeTo [] (handle_at opt off (Builder.Build interval b))) ∧
    off = len (file_of opt (take j bs)) ∧
    ReadBlock (mem_Read (table_file opt bs)) verify (handle_at opt off (Builder.Build interval b))
      = inr (Builder.Build interval b).
Proof.
  intros Hj. pose proof (take_drop_middle _ _ _ Hj) as E.
  assert (table_ok b) as [Hb1 Hb2 Hb3].
  { apply (table_ok_app (concat (take j bs)) b (concat (drop (S j) bs))).
    rewrite <- E in Hok. by rewrite concat_app in Hok. }
  assert (∀ off l, index_entries opt off (l ++ b :: drop (S j) bs) !! length l =
    Some (last_key_of b, BlockHandle_EncodeTo [] (handle_at opt (off + len (file_of opt l)) (Builder.Build interval b)))) as Hidx.
  { intros off l. revert off. induction l as [|b' l IH]; intros off; cbn [app index_entries length].
    - cbn. change (file_of opt []) with (@nil Z). rewrite len_nil, Z.add_0_r. done.
    - cbn [lookup list_lookup]. rewrite IH. unfold file_of. cbn [map concat]. by rewrite len_app, Z.add_assoc. }
  assert (j = length (take j bs)) as Elen
    by (rewrite length_take; pose proof (lookup_lt_Some _ _ _ Hj); lia).
  specialize (Hidx 0 (take j bs)). rewrite E, <- Elen, Z.add_0_l in Hidx.
  eexists. split; [done|]. split; [done|].
  assert (file_of opt bs = file_of opt (take j bs) ++ data opt b ++ file_of opt (drop (S j) bs)) as Ef.
  { rewrite <- E at 1. unfold file_of. rewrite map_app, concat_app. done. }
  unfold table_file. rewrite Ef, <- !app_assoc. apply ReadBlock_at.
  - by apply Build_ok.
  - pose proof file_len. rewrite Ef, !len_app in *. pose proof (len_nonneg (data opt b)).
    pose proof (len_nonneg (file_of opt (drop (S j) bs))). lia.
  - pose proof (len_nonneg b). pose proof (len_Build interval b Hb1 ltac:(lia)). lia.
Qed.

(** [Open] of the file of a table. *)
Definition opened : Table := {|
  t_options := opt; t_cache_id := cache_id; t_Read := mem_Read (table_file opt bs);
  t_metaindex_handle := metaindex_handle_ (footer_of opt bs);
  t_index_block := NewBlock (index_contents opt bs);
  t_filter := match filter_policy opt with
              | Some _ => Some (NewFilterBlockReader (filter_contents opt bs)) | None => None end |}.

Lemma ReadMeta_table paranoid :
  ReadMeta opt (mem_Read (table_file opt bs)) paranoid (footer_of opt bs) = Some (t_filter opened).
Proof.
  unfold ReadMeta, opened. cbn [t_filter]. destruct (filter_policy opt) as [[name p]|] eqn:Hpol; [|done].
  rewrite read_meta. destruct meta_ok as (He & _ & Hl).
  pose proof (read_filter paranoid) as Hrf. pose proof filter_handle_ok as Hfh. rewrite Hpol in Hrf, Hfh.
  assert (bytes_ok (filter_prefix ++ name)) as Hkey.
  { unfold filter_fits in Hfit. rewrite Hpol in Hfit. apply bytes_ok_app. split; [by_decide|]. apply Hfit. }
  assert (meta_entries opt bs = [(filter_prefix ++ name, BlockHandle_EncodeTo [] filter_handle)]) as Em
    by (unfold meta_entries; by rewrite Hpol).
  destruct (block_run bytes_ok Bytewise.comparator interval (meta_entries opt bs)
    [Cursor.Seek (filter_prefix ++ name)] (Some 0%nat)) as (it0 & it & Hopen & Hrun & Hst & Hv & Hent).
  - apply _.
  - done.
  - rewrite Em. by apply Forall_singleton.
  - rewrite Em. repeat constructor.
  - done.
  - by apply Forall_singleton.
  - cbn [Cursor.run Cursor.step mbind option_bind]. rewrite Em. f_equal.
    apply fmap_Some. eexists (0%nat, _). split; [|done]. apply list_find_Some. split; [done|]. split; [|intros; lia]. cbn [fst].
    by rewrite (proj2 (cmp_eq _ _ Hkey Hkey)).
  - unfold meta_block. rewrite Hopen. cbn [of_block_iterator move mbind option_bind].
    cbn [iter_run iter_step] in Hrun. destruct (Iter.Seek (filter_prefix ++ name) it0) as [it1|]; [|done].
    cbn [mbind option_bind] in Hrun. injection Hrun as ->. cbn [mbind option_bind Valid current fst snd].
    rewrite Hv. rewrite Em in Hent. cbn [lookup list_lookup] in Hent. injection Hent as <- <-.
    rewrite operator_eq_refl. cbn [andb]. unfold ReadFilter.
    rewrite <- (app_nil_r (BlockHandle_EncodeTo _ _)), BlockHandle_roundtrip by (by apply Hfh).
    by rewrite Hrf.
Qed.

Lemma Open_table paranoid :
  Open opt cache_id (mem_Read (table_file opt bs)) paranoid (len (table_file opt bs)) = Some (inr opened).
Proof.
  destruct footer_handles_ok as [Hm Hi]. destruct (Footer_roundtrip (footer_of opt bs) [] Hm Hi) as [Hlen Hdec].
  rewrite app_nil_r in Hdec. unfold Open.
  assert (∃ pre, table_file opt bs = pre ++ Footer_EncodeTo [] (footer_of opt bs)) as [pre E].
  { unfold table_file. rewrite !app_assoc. eauto. }
  pose proof (len_nonneg pre).
  assert (len (table_file opt bs) = len pre + kEncodedLength) as Hl by (by rewrite E, len_app, Hlen).
  rewrite Hl, (proj2 (Z.ltb_ge _ _)) by lia. unfold mem_Read at 1.
  rewrite E at 1. rewrite skip_app, first_all by lia. rewrite Hdec, read_index, ReadMeta_table. done.
Qed.

Lemma block_facts j b off :
  bs !! j = Some b →
  Forall entry_ok b ∧ len (Builder.Build interval b) < 2 ^ 32 ∧
  BlockHandle_DecodeFrom (BlockHandle_EncodeTo [] (handle_at opt off (Builder.Build interval b)))
    = inr (handle_at opt off (Builder.Build interval b), []).
Proof.
  intros Hb. assert (table_ok b) as [Hb1 Hb2 Hb3].
  { apply list_elem_of_lookup_2, list_elem_of_split in Hb as (l1 & l2 & E).
    apply (table_ok_app (concat l1) b (concat l2)). rewrite E, concat_app in Hok. done. }
  assert (len (Builder.Build interval b) < 2 ^ 32) as Hbl.
  { pose proof (len_nonneg b). pose proof (len_Build interval b Hb1 ltac:(lia)). lia. }
  split; [done|]. split; [done|].
  rewrite <- (app_nil_r (BlockHandle_EncodeTo _ _)). apply BlockHandle_roundtrip.
  split; [apply u64_range|]. unfold handle_at. cbn [Format.size_].
  pose proof (len_compress (compression opt) (Builder.Build interval b)).
  pose proof (len_nonneg (fst (CompressBlock (compression opt) (Builder.Build interval b)))). unfold u64_ok. lia.
Qed.

Lemma VBlockReader_data cmp options j b off :
  bs !! j = Some b → off = len (file_of opt (take j bs)) →
  VBlockReader opened cmp options (BlockHandle_EncodeTo [] (handle_at opt off (Builder.Build interval b)))
    = of_block_iterator (NewIterator cmp (NewBlock (Builder.Build interval b))).
Proof.
  intros Hb Hoff. destruct (read_data (verify_checksums options) j b Hb) as (off' & _ & Hoff' & Hread).
  unfold VBlockReader. rewrite (proj2 (proj2 (block_facts j b off Hb))).
  cbn [opened t_Read]. subst off off'. by rewrite Hread.
Qed.

(** The cache holds nothing for the table but its blocks. *)
Definition cached_ok (cache : option C) : Prop :=
  ∀ c0, cache = Some c0 → ∀ j b block, bs !! j = Some b →
    Holds c0 (cache_key opened (u64 (len (file_of opt (take j bs))))) block →
    block = NewBlock (Builder.Build interval b).

Lemma cache_key_inj x y : u64_ok x → u64_ok y → cache_key opened x = cache_key opened y → x = y.
Proof.
  intros Hx Hy E. unfold cache_key in E. apply app_inj_1 in E as [_ E]; [|done].
  rewrite <- (DecodeFixed64_enc x Hx), <- (DecodeFixed64_enc y Hy). by f_equal.
Qed.

(** Blocks are at different offsets. *)
Lemma offset_inj i j :
  (i ≤ length bs)%nat → (j ≤ length bs)%nat →
  u64 (len (file_of opt (take i bs))) = u64 (len (file_of opt (take j bs))) → i = j.
Proof.
  assert (∀ n, len (file_of opt (take n bs)) ≤ len (file_of opt bs)) as Hle.
  { intros n. rewrite <- (take_drop n bs) at 2. unfold file_of. rewrite map_app, concat_app, len_app.
    pose proof (len_nonneg (concat (map (data opt) (drop n bs)))). lia. }
  pose proof file_len as Hfl. intros Hi Hj.
  rewrite !u64_id by (pose proof (Hle i); pose proof (Hle j); pose proof (len_nonneg (file_of opt (take i bs)));
    pose proof (len_nonneg (file_of opt (take j bs))); unfold u64_ok; lia).
  assert (∀ l m n, (m < n ≤ length l)%nat → len (file_of opt (take m l)) < len (file_of opt (take n l))) as Hlt.
  { clear. induction l as [|b l IH]; intros m n [Hm Hn]; cbn in Hn; [lia|]. destruct n as [|n]; [lia|].
    unfold file_of in *. destruct m as [|m]; cbn [take map concat]; rewrite !len_app.
    - pose proof (len_nonneg (concat (map (data opt) (take n l)))). unfold data at 1. rewrite len_stored.
      pose proof (len_nonneg (fst (CompressBlock (compression opt) (Builder.Build interval b)))). rewrite len_nil. lia.
    - specialize (IH m n ltac:(lia)). lia. }
  intros E. destruct (Nat.lt_trichotomy i j) as [H|[H|H]]; [|done|].
  - specialize (Hlt bs i j ltac:(lia)). lia.
  - specialize (Hlt bs j i ltac:(lia)). lia.
Qed.

Lemma BlockReader_data options cachable cache j b off :
  cached_ok cache → bs !! j = Some b → off = len (file_of opt (take j bs)) →
  ∃ cache', BlockReader opened options cachable cache (BlockHandle_EncodeTo [] (handle_at opt off (Builder.Build interval b)))
      = (of_block_iterator (NewIterator (comparator opt) (NewBlock (Builder.Build interval b))), cache') ∧
    cached_ok cache'.
Proof.
  intros Hc Hb Hoff. destruct (read_data (verify_checksums options) j b Hb) as (off' & _ & Hoff' & Hread).
  assert (∀ c0 c1 r k, cache = Some c0 → Lookup c0 k = (r, c1) → cached_ok (Some c1)) as Hkeep.
  { intros c0 c1 r k -> Hl ? [= <-] i b' block Hi Hh. apply (Hc c0 eq_refl i b' block Hi). by eapply lookup_keeps. }
  unfold BlockReader. rewrite (proj2 (proj2 (block_facts j b off Hb))).
  cbn [opened t_Read t_options]. rewrite <- Hoff in Hoff'. subst off'. rewrite Hread.
  destruct cache as [c0|]; [|by eexists].
  destruct (Lookup c0 _) as [[block|] c1] eqn:Hl; specialize (Hkeep _ _ _ _ eq_refl Hl); cbn [Format.offset_ handle_at] in Hl.
  - apply lookup_held in Hl as Hh. rewrite Hoff in Hh. rewrite (Hc c0 eq_refl j b block Hb Hh). by eexists.
  - eexists. split; [done|]. destruct (cachable && fill_cache options); [|done].
    intros ? [= <-] i b' block Hi [[Hk ->]|Hh]%insert_holds; [|by apply (Hkeep c1 eq_refl i b')].
    cbn [Format.offset_ handle_at] in Hk. rewrite Hoff in Hk. apply cache_key_inj in Hk; [|apply u64_range..].
    apply offset_inj in Hk; [congruence|by apply Nat.lt_le_incl; eapply lookup_lt_Some..].
Qed.

(** The calls on the filter builder come at increasing offsets. *)
Lemma filter_blocks_lookup i x :
  (filter_done opt 0 bs ++ [(u64 (len (file_of opt bs)), [])]) !! i = Some x →
  x.1 = len (file_of opt (take i bs)).
Proof.
  assert (∀ l off i x, filter_done opt off l !! i = Some x →
    x.1 = u64 (off + len (file_of opt (take i l))) ∧ (i < length l)%nat) as Hd.
  { clear. induction l as [|b l IH]; intros off i x; [done|]. destruct i as [|i]; cbn [filter_done lookup list_lookup].
    - intros [= <-]. cbn. change (file_of opt []) with (@nil Z). rewrite len_nil, Z.add_0_r. split; [done|lia].
    - intros H. apply IH in H as [-> ?]. unfold file_of. cbn [take map concat length].
      rewrite len_app, Z.add_assoc. split; [done|lia]. }
  assert (len (filter_done opt 0 bs) = len bs) as Hlen.
  { generalize 0. clear. induction bs as [|b l IH]; intros off; [done|]. cbn [filter_done]. by rewrite !len_cons, IH. }
  pose proof file_len as Hfl. intros [Hx|[Hi Hx]]%lookup_app_Some.
  - apply Hd in Hx as [-> _]. rewrite Z.add_0_l. apply u64_id. split; [apply len_nonneg|].
    rewrite <- (take_drop i bs) in Hfl. unfold file_of in *. rewrite map_app, concat_app, len_app in Hfl.
    pose proof (len_nonneg (concat (map (data opt) (drop i bs)))). lia.
  - apply list_lookup_singleton_Some in Hx as [Hi0 <-]. cbn [fst].
    rewrite take_ge by (unfold len in *; lia). apply u64_id. split; [apply len_nonneg|lia].
Qed.

Lemma filter_blocks_increasing :
  increasing (filter_done opt 0 bs ++ [(u64 (len (file_of opt bs)), [])]).
Proof.
  split.
  - apply Forall_lookup. intros i x Hx. rewrite (filter_blocks_lookup i x Hx). apply len_nonneg.
  - intros i j x y Hij Hx Hy. rewrite (filter_blocks_lookup i x Hx), (filter_blocks_lookup j y Hy).
    rewrite <- (take_drop i (take j bs)), take_take, Nat.min_l by lia.
    unfold file_of. rewrite map_app, concat_app, len_app.
    pose proof (len_nonneg (concat (map (data opt) (drop i (take j bs))))). lia.
Qed.

Lemma filter_keys : concat (map snd (filter_done opt 0 bs ++ [(u64 (len (file_of opt bs)), [])])) = map fst (concat bs).
Proof.
  rewrite map_app, concat_app. cbn. rewrite app_nil_r. generalize 0. clear.
  induction bs as [|b l IH]; intros off; [done|]. cbn [filter_done map concat snd]. by rewrite IH, map_app.
Qed.

(** The filter passes every key of the table. *)
Lemma filter_passes name p j b e :
  filter_policy opt = Some (name, p) → FilterLaws p → bs !! j = Some b → e ∈ b →
  KeyMayMatch p (NewFilterBlockReader (filter_contents opt bs)) (u64 (len (file_of opt (take j bs)))) e.1 = true.
Proof.
  intros Hp HL Hj He. unfold filter_fits in Hfit. rewrite Hp in Hfit. destruct Hfit as (_ & _ & _ & Hfl).
  unfold filter_contents in *. rewrite Hp in *. destruct Hok as [H1 H2 H3].
  apply (filter_block_match p _ _ (map fst b)).
  - apply filter_blocks_increasing.
  - done.
  - rewrite filter_keys. unfold len. rewrite length_map. pose proof (len_nonneg (encode_entries (concat bs))).
    unfold len in H3. lia.
  - rewrite filter_keys. apply Forall_map. eapply Forall_impl; [exact H2|]. by intros ? [? _].
  - apply elem_of_app. left.
    assert (∀ l off j b, l !! j = Some b →
      (u64 (off + len (file_of opt (take j l))), map fst b) ∈ filter_done opt off l) as Hin.
    { clear. induction l as [|b' l IH]; intros off j b Hj; [done|]. destruct j as [|j]; cbn in Hj; simplify_eq.
      - cbn [filter_done take]. change (file_of opt []) with (@nil Z). rewrite len_nil, Z.add_0_r. by left.
      - cbn [filter_done take]. right. unfold file_of. cbn [map concat]. rewrite len_app, Z.add_assoc. by apply IH. }
    apply (Hin bs 0 j b Hj).
  - apply list_elem_of_In, in_map, list_elem_of_In, He.
Qed.

(** Seeking in a block of the table. *)
Section get.

Context (dom : bytes → Prop) `{!ComparatorLaws dom (comparator opt)}.
Context (Hdom : Forall (λ e, dom e.1) (concat bs)) (Hsorted : keys_sorted (comparator opt) (concat bs)).
Abbreviation c := (comparator opt).

(** The first entry at or after [k]. *)
Definition at_or_after (k : bytes) (e : bytes * bytes) : Prop := 0 ≤ Compare c e.1 k.
#[local] Instance at_or_after_dec k e : Decision (at_or_after k e).
Proof. unfold at_or_after. apply _. Defined.
Definition find_entry (k : bytes) (es : entries) : option (bytes * bytes) :=
  snd <$> list_find (at_or_after k) es.

Lemma seek_built i es k :
  Forall entry_ok es → Forall (λ e, dom e.1) es → keys_sorted c es → len (Builder.Build i es) < 2 ^ 32 → dom k →
  ∃ it, move (Iter.Seek k) (of_block_iterator (NewIterator c (NewBlock (Builder.Build i es)))) = Some (BlockIter it) ∧
    Iter.status_ok it = true ∧
    match find_entry k es with
    | Some e => Iter.Valid it = true ∧ (Iter.key_ it, Iter.value it) = e
    | None => Iter.Valid it = false
    end.
Proof.
  intros He Hd Hs Hl Hk.
  destruct (block_run dom c i es [Cursor.Seek k] (fst <$> list_find (at_or_after k) es))
    as (it0 & it & Hopen & Hrun & Hst & Hpos); try done.
  { by apply Forall_singleton. }
  rewrite Hopen. cbn [of_block_iterator move].
  cbn [iter_run iter_step] in Hrun. destruct (Iter.Seek k it0) as [it1|]; [|done].
  cbn [mbind option_bind] in *. injection Hrun as ->. exists it. split; [done|]. split; [done|].
  unfold find_entry. destruct (list_find _ es) as [[j e]|] eqn:Hf; cbn in Hpos |- *; [|done].
  apply list_find_Some in Hf as (Hj & _ & _). destruct Hpos as [Hv He']. split; [done|]. congruence.
Qed.

Lemma find_entry_app_r k l1 l2 :
  Forall (λ e, ¬ at_or_after k e) l1 → find_entry k (l1 ++ l2) = find_entry k l2.
Proof.
  intros H. unfold find_entry. rewrite list_find_app_r by (by apply list_find_None).
  by destruct (list_find _ l2) as [[??]|].
Qed.

(** The block the index leads to holds the entry. *)
Lemma find_block k off l :
  Forall (λ b, b ≠ []) l → Forall (λ e, dom e.1) (concat l) → keys_sorted c (concat l) → dom k →
  match list_find (at_or_after k) (index_entries opt off l) with
  | None => find_entry k (concat l) = None
  | Some (j, _) => ∃ b e, l !! j = Some b ∧ find_entry k b = Some e ∧ find_entry k (concat l) = Some e
  end.
Proof.
  intros Hn. revert off. induction Hn as [|b l Hb Hn IH]; intros off Hd Hs Hk; [done|].
  cbn [index_entries concat] in *. destruct b as [|x b _] using rev_ind; [done|].
  unfold last_key_of at 1. rewrite last_snoc. cbn [list_find].
  apply Forall_app in Hd as [Hd1 Hd2].
  destruct (decide (at_or_after k _)) as [Hlast|Hlast].
  - exists (b ++ [x]). cbn [lookup list_lookup].
    assert (is_Some (list_find (at_or_after k) (b ++ [x]))) as [[i e] Hf].
    { apply list_find_elem_of with x; [apply elem_of_app; right; by apply list_elem_of_singleton|done]. }
    exists e. unfold find_entry at 1 2. rewrite Hf. split; [done|]. split; [done|].
    by rewrite (list_find_app_l _ _ _ _ _ Hf).
  - assert (Forall (λ e, ¬ at_or_after k e) (b ++ [x])) as Hall.
    { apply Forall_lookup. intros i e Hi. destruct (decide (i = length b)) as [->|Hne'].
      - rewrite list_lookup_middle in Hi by done. by simplify_eq.
      - assert (i < length b)%nat as Hib.
        { apply lookup_lt_Some in Hi. rewrite length_app in Hi. simpl in Hi. lia. }
        unfold at_or_after in *. cbn in Hlast.
        assert (((b ++ [x]) ++ concat l) !! length b = Some x) as Hx
          by (apply lookup_app_l_Some; by rewrite list_lookup_middle).
        pose proof (keys_sorted_lookup c ((b ++ [x]) ++ concat l) i (length b) e x Hs Hib
          (lookup_app_l_Some _ _ _ _ Hi) Hx) as Hlt.
        pose proof (proj1 (Forall_lookup _ _) Hd1 _ _ Hi) as De.
        apply Forall_app in Hd1 as [_ [Dx _]%Forall_cons].
        pose proof (cmp_trans (dom := dom) _ _ _ De Dx Hk Hlt ltac:(lia)). lia. }
    rewrite find_entry_app_r by done.
    assert (keys_sorted c (concat l)) as Hs2.
    { clear -Hs. unfold keys_sorted in *. induction (b ++ [x]) as [|y l' IH']; [done|].
      inversion_clear Hs. auto. }
    specialize (IH (off + len (data opt (b ++ [x]))) Hd2 Hs2 Hk).
    destruct (list_find (at_or_after k) (index_entries opt _ l)) as [[j e]|]; cbn; [|done]. done.
Qed.

Lemma keys_sorted_app l1 l2 x y :
  keys_sorted c (l1 ++ l2) → x ∈ l1 → y ∈ l2 → Compare c x.1 y.1 < 0.
Proof.
  intros Hs [i Hi]%list_elem_of_lookup [j Hj]%list_elem_of_lookup.
  apply (keys_sorted_lookup c (l1 ++ l2) i (length l1 + j)); [done| | |].
  - apply lookup_lt_Some in Hi. lia.
  - by apply lookup_app_l_Some.
  - rewrite lookup_app_r by lia. by rewrite Nat.add_comm, Nat.add_sub.
Qed.

Lemma keys_sorted_r l1 l2 : keys_sorted c (l1 ++ l2) → keys_sorted c l2.
Proof.
  unfold keys_sorted. induction l1 as [|y l' IH]; [done|]. intros Hs. inversion_clear Hs. auto.
Qed.

Lemma keys_sorted_l l1 l2 : keys_sorted c (l1 ++ l2) → keys_sorted c l1.
Proof.
  unfold keys_sorted. induction l1 as [|y l' IH]; intros Hs; [constructor|].
  inversion_clear Hs as [|?? Hs' Hy]. apply Forall_app in Hy as [Hy _]. constructor; auto.
Qed.

(** An index key is a key of the table. *)
Lemma index_key off l e :
  Forall (λ b, b ≠ []) l → e ∈ index_entries opt off l → ∃ x, x ∈ concat l ∧ x.1 = e.1.
Proof.
  intros Hn. revert off. induction Hn as [|b l Hb Hn IH]; intros off; cbn [index_entries concat].
  { by intros ?%not_elem_of_nil. }
  intros [->|He]%elem_of_cons.
  - destruct b as [|x b _] using rev_ind; [done|]. exists x. split.
    + rewrite <- app_assoc. apply elem_of_app. right. by left.
    + unfold last_key_of. by rewrite last_snoc.
  - destruct (IH _ He) as (x & Hx & ?). exists x. split; [|done]. apply elem_of_app. by right.
Qed.

Lemma index_sorted off l :
  Forall (λ b, b ≠ []) l → keys_sorted c (concat l) → keys_sorted c (index_entries opt off l).
Proof.
  intros Hn. revert off. induction Hn as [|b l Hb Hn IH]; intros off Hs; [constructor|].
  cbn [index_entries concat] in *. constructor; [by apply IH, (keys_sorted_r b)|].
  apply Forall_forall. intros e He. destruct (index_key _ _ _ Hn He) as (y & Hy & <-).
  destruct b as [|x b _] using rev_ind; [done|]. unfold last_key_of. rewrite last_snoc. cbn.
  apply (keys_sorted_app (b ++ [x]) (concat l) x y); [done| |done]. apply elem_of_app. right. by left.
Qed.

Lemma index_dom off l :
  Forall (λ b, b ≠ []) l → Forall (λ e, dom e.1) (concat l) → Forall (λ e, dom e.1) (index_entries opt off l).
Proof.
  intros Hn Hd. apply Forall_forall. intros e He. destruct (index_key _ _ _ Hn He) as (y & Hy & <-).
  by apply (proj1 (Forall_forall _ _) Hd).
Qed.

(** The lookup, with what the filter answers for the block. *)
Lemma InternalGet_opened options cachable cache k :
  dom k → cached_ok cache →
  ∃ r cache', InternalGet opened options cachable cache k = Some (r, None, cache') ∧ cached_ok cache' ∧
    (r = find_entry k (concat bs) ∨
     r = None ∧ ∃ name p j b e, filter_policy opt = Some (name, p) ∧ bs !! j = Some b ∧ e ∈ b ∧
       find_entry k (concat bs) = Some e ∧
       KeyMayMatch p (NewFilterBlockReader (filter_contents opt bs))
         (u64 (len (file_of opt (take j bs)))) k = false).
Proof.
  intros Hk Hcache. destruct (index_entries_ok 0 bs Hne Hok) as (Hi1 & _ & _). destruct index_contents_ok as (_ & Hil).
  destruct (seek_built 1 (index_entries opt 0 bs) k Hi1 (index_dom 0 bs Hne Hdom)
    (index_sorted 0 bs Hne Hsorted) Hil Hk) as (iit & Hiseek & Hist & Hires).
  pose proof (find_block k 0 bs Hne Hdom Hsorted Hk) as Hfind.
  unfold InternalGet. cbn [opened t_options t_index_block]. unfold index_contents.
  rewrite Hiseek. cbn [mbind option_bind Valid current snd].
  unfold find_entry in Hires. destruct (list_find (at_or_after k) (index_entries opt 0 bs)) as [[j ie]|] eqn:Hf;
    cbn in Hires.
  2: { rewrite Hires. cbn [mbind option_bind iter_status]. rewrite Hist. eexists _, _. split; [done|]. split; [done|]. left. by rewrite Hfind. }
  destruct Hires as [Hv Hcur]. destruct Hfind as (b & e & Hb & Hfb & Hfc).
  apply list_find_Some in Hf as (Hj & _ & _).
  destruct (read_data true j b Hb) as (off & Hidx & Hoff & Hread). rewrite Hj in Hidx. injection Hidx as ->.
  rewrite Hv. injection Hcur as _ ->.
  destruct (block_facts j b off Hb) as (Hb1 & Hbl & Hdec).
  assert (Forall (λ e, dom e.1) b ∧ keys_sorted c b) as [Hbd Hbs].
  { apply list_elem_of_lookup_2, list_elem_of_split in Hb as (l1 & l2 & E).
    rewrite E, concat_app in Hdom, Hsorted. cbn [concat] in Hdom, Hsorted.
    rewrite !Forall_app in Hdom. split; [tauto|]. by eapply keys_sorted_l, keys_sorted_r. }
  destruct (seek_built interval b k Hb1 Hbd Hbs Hbl Hk) as (it & Hseek & Hst & Hres).
  rewrite Hfb in Hres. destruct Hres as [Hv2 Hcur2].
  rewrite Hdec. cbn [opened t_filter t_options].
  destruct (match filter_policy opt with Some _ => _ | None => _ end) eqn:Hfilt.
  - destruct (filter_policy opt) as [[name p]|]; [|done]. apply negb_true_iff in Hfilt.
    cbn [mbind option_bind iter_status]. rewrite Hist. eexists _, _. split; [done|]. split; [done|]. right. split; [done|].
    exists name, p, j, b, e. split; [done|]. split; [done|]. split; [|split; [done|by rewrite <- Hoff]].
    unfold find_entry in Hfb. destruct (list_find _ b) as [[i' e']|] eqn:Hlf; [|done]. cbn in Hfb. simplify_eq.
    apply list_find_Some in Hlf as (Hlf & _). by eapply list_elem_of_lookup_2.
  - destruct (BlockReader_data options cachable cache j b off Hcache Hb Hoff) as (cache' & -> & Hc'). rewrite Hseek.
    cbn [mbind option_bind Valid current iter_status]. rewrite Hv2, Hcur2, Hst, Hist.
    eexists _, _. split; [done|]. split; [done|]. left. by rewrite Hfc.
Qed.

End get.

End built.

(** ** Walking an index block *)

Lemma NextN_rep c es R n i it :
  Forall entry_ok es → restarts_ok es R → len R < 2 ^ 30 → len (encode_entries es) < 2 ^ 32 →
  at_entry c es R it i → (i + n < length es)%nat →
  ∃ it', NextN n (BlockIter it) = Some (BlockIter it') ∧ at_entry c es R it' (i + n).
Proof.
  intros Hok HR HRl Hsz. revert i it. induction n as [|n IH]; intros i it Hat Hlt; cbn [NextN].
  { exists it. by rewrite Nat.add_0_r. }
  destruct (Next_rep c es R Hok HR HRl Hsz it i Hat) as (it1 & Hn & Hrep).
  rewrite (proj2 (Nat.ltb_lt _ _)) in Hrep by lia. cbn [move]. rewrite Hn. cbn [mbind option_bind].
  destruct (IH (S i) it1 Hrep ltac:(lia)) as (it2 & -> & Hat2). exists it2. by rewrite <- Nat.add_succ_comm.
Qed.

(** [SeekToFirst] and [n] times [Next] reach entry [n]. *)
Lemma index_walk c I es n :
  Forall entry_ok es → len (Builder.Build I es) < 2 ^ 32 → (n < length es)%nat →
  ∃ i0 it, move Iter.SeekToFirst (of_block_iterator (NewIterator c (NewBlock (Builder.Build I es)))) = Some i0 ∧
    NextN n i0 = Some (BlockIter it) ∧ Iter.Valid it = true ∧ Iter.status_ok it = true ∧
    es !! n = Some (Iter.key_ it, Iter.value it).
Proof.
  intros Hok Hsz Hn. destruct (open_block c I es Hok Hsz) as (R & it0 & -> & HR & HRl & HDl & Hrep).
  pose proof (rep_block _ _ _ _ _ Hrep) as Hb.
  destruct (SeekToFirst_rep c es R Hok HR HRl HDl it0 Hb) as (it1 & Hfst & Hrep1).
  destruct (length es) eqn:El; [lia|]. cbn [Nat.eqb] in Hrep1. rewrite <- El in Hn.
  destruct (NextN_rep c es R n 0 it1 Hok HR HRl HDl Hrep1 Hn) as (it2 & Hnext & Hat).
  exists (BlockIter it1), it2. cbn [of_block_iterator move]. rewrite Hfst. split; [done|]. split; [done|].
  pose proof (rep_block c es R it2 (Some (0 + n)%nat) Hat) as Hb2. split; [|split; [apply Hb2|apply Hat]].
  unfold Iter.Valid. rewrite (ob_restarts _ _ _ _ Hb2), (ae_current _ _ _ _ _ Hat).
  pose proof (offs_lt es Hok n (length es) ltac:(lia)). rewrite offs_all in *. apply Z.ltb_lt. simpl. lia.
Qed.

(** ** Tables *)

Section claims.

Context (SN : Snappy) (HS : SnappyLaws SN) {C : Type} (BC : BlockCache C) (BL : BlockCacheLaws C BC).

(** A table built in memory. *)
Definition builder_after (opt : Options) (es : entries) : Rep bytes :=
  AddAll mem_Append mem_Flush es (NewTableBuilder opt []).

Definition build_table (opt : Options) (es : entries) : Rep bytes :=
  Finish mem_Append mem_Flush (builder_after opt es).

(** The blocks a builder cuts the entries into. *)
Definition table_blocks (opt : Options) (es : entries) : list entries :=
  (cut opt es).1 ++ (if decide ((cut opt es).2 = []) then [] else [(cut opt es).2]).

(** The filter block of the table, where there is one, is made of bytes and
    shorter than 4 GiB. *)
Definition filters_fit (opt : Options) (es : entries) : Prop := filter_fits opt (table_blocks opt es).

Lemma builder_after_built opt es :
  Forall entry_ok es → built opt (builder_after opt es) (cut opt es).1 (cut opt es).2 ∧ Forall entry_ok (cut opt es).2.
Proof. intros Hok. apply AddAll_built; [apply built_init|constructor|done]. Qed.

Lemma build_table_blocks opt es :
  Forall entry_ok es →
  ∃ bs, Forall (λ b, b ≠ []) bs ∧ concat bs = es ∧ (filters_fit opt es → filter_fits opt bs) ∧
    status (build_table opt es) = true ∧ file (build_table opt es) = table_file opt bs ∧
    FileSize (build_table opt es) = u64 (len (table_file opt bs)) ∧
    ∀ l1 k v l2, es = l1 ++ (k, v) :: l2 →
      ∃ b j o, bs !! j = Some b ∧ b !! o = Some (k, v) ∧
        BlockNumber (builder_after opt l1) = u32 (Z.of_nat j) ∧
        BlockOffset (builder_after opt l1) = u32 (Z.of_nat o).
Proof.
  intros Hok. destruct (builder_after_built opt es Hok) as [Hb Hcok].
  pose proof (cut_concat opt ([], []) es) as Hc. fold (cut opt es) in Hc. cbn [fst snd concat app] in Hc.
  destruct (Finish_built opt _ _ _ Hb Hcok) as (bs & Hbs & Hst & Hf & Hoff). exists bs. split_and!; try done.
  - rewrite Hbs. apply Forall_app. split; [apply Hb|]. case_decide; [constructor|by apply Forall_singleton].
  - etrans; [|exact Hc]. rewrite Hbs, concat_app. f_equal. case_decide as E; [by rewrite E|].
    simpl. by rewrite app_nil_r.
  - unfold filters_fit, table_blocks. by rewrite <- Hbs.
  - intros l1 k v l2 ->. apply Forall_app in Hok as [Hok1 _].
    destruct (builder_after_built opt l1 Hok1) as [Hb1 Hcok1].
    destruct (cut_address opt l1 (k, v) l2) as (b & Hb' & Ho).
    exists b, (length (cut opt l1).1), (length (cut opt l1).2). split_and!; [|done|exact (bu_number _ _ _ _ Hb1)|].
    + rewrite Hbs. case_decide as E; [|done].
      rewrite app_nil_r. destruct (decide (length (cut opt l1).1 < length (cut opt (l1 ++ (k, v) :: l2)).1)%nat).
      * by rewrite lookup_app_l in Hb'.
      * rewrite E, lookup_app_r in Hb' by lia. apply list_lookup_singleton_Some in Hb' as [_ <-]. done.
    + unfold BlockOffset, Builder.BlockOffset. rewrite (bu_data _ _ _ _ Hb1).
      generalize (cut opt l1).2. intros l. unfold Builder.AddAll. induction l as [|x l IH] using rev_ind; [done|].
      rewrite foldl_app, length_app, Nat2Z.inj_add. cbn. rewrite IH. unfold u32. by rewrite Zplus_mod_idemp_l.
Qed.

(** What a lookup of [k] in a table of the entries [es] may answer: the first
    entry at or after [k]; a filter may only suppress the answer, and a lawful
    one never for an entry whose key it does not tell from [k]. *)
Definition get_answer (opt : Options) (es : entries) (k : bytes) (r : option (bytes * bytes) * option Error) : Prop :=
  r.2 = None ∧ (r.1 = None ∨ r.1 = find_entry opt k es) ∧
  (filter_policy opt = None → r.1 = find_entry opt k es) ∧
  ∀ name p e, filter_policy opt = Some (name, p) → FilterLaws p → find_entry opt k es = Some e →
    (∀ f, DBFormat.KeyMayMatch p k f = DBFormat.KeyMayMatch p e.1 f) → r.1 = Some e.

Lemma InternalGets_opened opt cache_id bs dom gets cache :
  ComparatorLaws dom (comparator opt) → Forall (λ b, b ≠ []) bs → table_ok (concat bs) → filter_fits opt bs →
  Forall (λ e, dom e.1) (concat bs) → keys_sorted (comparator opt) (concat bs) → Forall (λ g, dom g.2) gets →
  cached_ok opt cache_id bs cache →
  ∃ rs, InternalGets (opened opt cache_id bs) cache gets = Some rs ∧
    Forall2 (λ g r, get_answer opt (concat bs) g.2 r) gets rs.
Proof.
  intros HL Hne Hok Hff Hdom Hs Hg. revert cache.
  induction Hg as [|[[options cachable] k] gets Hk Hg IH]; intros cache Hc; [by exists []|]. cbn [InternalGets].
  destruct (InternalGet_opened opt cache_id bs Hne Hok dom Hdom Hs options cachable cache k Hk Hc)
    as (r & cache' & -> & Hc' & Hr). cbn [mbind option_bind].
  destruct (IH cache' Hc') as (rs & -> & Hrs). eexists. split; [done|]. constructor; [|done]. cbn [snd].
  destruct Hr as [->|(-> & name & p & j & b & e & Hp & Hj & He & Hfe & Hno)]; (split; [done|]).
  - split_and!; eauto.
  - split_and!; [by left|congruence|]. intros name' p' e' Hp' HLp Hfe' Heq. simplify_eq.
    pose proof (filter_passes opt bs Hne Hok Hff _ _ j b _ Hp HLp Hj He) as Hpass.
    exfalso. unfold KeyMayMatch in Hno, Hpass. rewrite Heq in Hno. congruence.
Qed.

(** C1: a table is found again. Entries added in order to a [TableBuilder] of
    any block size, restart interval, compression and filter policy, whose filter
    block, if any, is shorter than 4 GiB as its 32-bit offsets need, give, after
    [Finish], a file that [Table::Open] accepts; and any sequence of
    [InternalGet]s, without a block cache or sharing one that starts with
    nothing under the id the table was given, hands its callers the first entry
    at or after each key, with an ok status. A filter policy may only suppress
    an answer, and never for an entry whose key it does not tell from [k]. *)
Theorem table_get_correct opt cache_id dom es paranoid cache gets :
  ComparatorLaws dom (comparator opt) → table_ok es → filters_fit opt es →
  Forall (λ e, dom e.1) es → keys_sorted (comparator opt) es → Forall (λ g, dom g.2) gets →
  (∀ c off block, cache = Some c → ¬ Holds c (EncodeFixed64 cache_id ++ EncodeFixed64 off) block) →
  status (build_table opt es) = true ∧
  ∃ t rs, Open opt cache_id (mem_Read (file (build_table opt es))) paranoid (len (file (build_table opt es))) = Some (inr t) ∧
    InternalGets t cache gets = Some rs ∧ Forall2 (λ g r, get_answer opt es g.2 r) gets rs.
Proof.
  intros HL Hok Hff Hdom Hs Hg Hc.
  destruct (build_table_blocks opt es (to_entries _ Hok)) as (bs & Hne & Hcat & Hfits & Hst & Hf & _ & _). specialize (Hfits Hff). subst es.
  split; [done|]. rewrite Hf. exists (opened opt cache_id bs).
  destruct (InternalGets_opened opt cache_id bs dom gets cache HL Hne Hok Hfits Hdom Hs Hg) as (rs & Hrs & HF).
  { intros c0 Hc0 j b block _ Hh. by destruct (Hc c0 _ block Hc0 Hh). }
  exists rs. split; [apply Open_table; auto|done].
Qed.

(** C23: the addresses of the value separation are right. The block number and
    block offset that [BuildDuTable] and the compaction read off the builder
    just before they add an entry, and store in the key table, lead back to the
    entry: walking the index of the finished table, of any options whose filter
    block is shorter than 4 GiB, to that block number gives the handle of a block
    whose entry of that index is the one that was added. *)
Theorem table_addresses opt cache_id l1 k v l2 paranoid options cmp :
  let es := l1 ++ (k, v) :: l2 in
  table_ok es → filters_fit opt es →
  ∃ t i0 it b,
    Open opt cache_id (mem_Read (file (build_table opt es))) paranoid (len (file (build_table opt es))) = Some (inr t) ∧
    move Iter.SeekToFirst (of_block_iterator (NewIterator VKey.comparator (t_index_block t))) = Some i0 ∧
    NextN (Z.to_nat (BlockNumber (builder_after opt l1))) i0 = Some (BlockIter it) ∧ Iter.Valid it = true ∧
    VBlockReader t cmp options (Iter.value it)
      = of_block_iterator (NewIterator cmp (NewBlock (Builder.Build (block_restart_interval opt) b))) ∧
    b !! Z.to_nat (BlockOffset (builder_after opt l1)) = Some (k, v).
Proof.
  intros es Hok Hff.
  destruct (build_table_blocks opt es (to_entries _ Hok)) as (bs & Hne & Hcat & Hfits & Hst & Hf & _ & Haddr).
  destruct (Haddr l1 k v l2 eq_refl) as (b & j & o & Hj & Ho & -> & ->). rewrite Hf. clear Hf Haddr Hst.
  specialize (Hfits Hff). rewrite <- Hcat in Hok. clear Hff. rename Hfits into Hff.
  destruct (index_entries_ok opt 0 bs Hne Hok) as (Hi1 & _ & _). destruct (index_contents_ok opt bs Hne Hok) as (_ & Hil).
  destruct (read_data opt bs Hne Hok true j b Hj) as (off & Hidx & Hoff & _).
  assert (j < length bs ∧ o < length b)%nat as [Hjl Hol] by (split; by eapply lookup_lt_Some).
  assert (Z.of_nat (length bs) < 2 ^ 31 ∧ Z.of_nat (length b) < 2 ^ 31) as [Hbl1 Hbl2].
  { pose proof (len_blocks bs Hne). destruct Hok as [_ _ H3]. pose proof (len_nonneg (encode_entries (concat bs))).
    apply list_elem_of_lookup_2, list_elem_of_split in Hj as (x & y & E).
    assert (len b ≤ len (concat bs)).
    { rewrite E, concat_app. cbn. rewrite !len_app. pose proof (len_nonneg (concat x)). pose proof (len_nonneg (concat y)). lia. }
    unfold len in *. lia. }
  rewrite !u32_id, !Nat2Z.id by (unfold u32_ok; lia).
  destruct (index_walk VKey.comparator 1 (index_entries opt 0 bs) j Hi1 Hil) as (i0 & it & Hfst & Hnext & Hv & _ & Hent).
  { by eapply lookup_lt_Some. }
  exists (opened opt cache_id bs), i0, it, b. split_and!; [by apply Open_table|done|done|done| |done].
  rewrite Hidx in Hent. injection Hent as _ <-. by apply VBlockReader_data with j.
Qed.

End claims.

(** ** Witnesses *)

Definition table_example : entries :=
  [([97], [1; 1]); ([98], [2; 2]); ([99], [3]); ([100], [4]); ([101], [5; 5; 5])].

(** Two entries a block, and a Bloom filter of ten bits a key. *)
Definition options_example : Options := {|
  comparator := Bytewise.comparator; block_size := 20; block_restart_interval := 16;
  compression := kSnappyCompression; filter_policy := Some ([98; 108; 111; 111; 109], BloomFilterPolicy 10) |}.

Lemma table_example_ok : table_ok table_example.
Proof. split; [unfold entry_ok, u32_ok|..|by vm_compute]; by_decide. Qed.

(** A cache that never forgets. *)
#[export] Instance map_cache : BlockCache (gmap bytes Block) := {
  Lookup c k := (c !! k, c);
  Insert c k b := <[k := b]> c
}.

#[export] Instance map_cache_laws : BlockCacheLaws (gmap bytes Block) map_cache.
Proof.
  apply (Build_BlockCacheLaws _ _ (λ c k b, c !! k = Some b)).
  - intros c k b c' Hl. by simplify_eq/=.
  - intros c k r c' k' b Hl Hh. by simplify_eq/=.
  - intros c k b k' b' Hh. cbn in Hh. apply lookup_insert_Some in Hh as [[-> ->]|[_ Hh]]; auto.
Defined.

Definition read_options : ReadOptions := {| verify_checksums := true; fill_cache := true |}.
Lemma filter_example_fits : filters_fit no_snappy options_example table_example.
Proof.
  unfold filters_fit, filter_fits. cbn [filter_policy options_example]. set (f := filter_contents _ _). vm_compute in f. subst f.
  split_and!; by_decide.
Qed.

Definition gets_example : list (ReadOptions * bool * bytes) :=
  [(read_options, true, [98]); (read_options, true, [100]); (read_options, false, [101])].

(** With a filter: the keys that were added are found. *)
Lemma table_get_correct_witness :
  status (@build_table no_snappy options_example table_example) = true ∧
  ∃ t rs, @Open no_snappy options_example 7 (mem_Read (file (@build_table no_snappy options_example table_example))) true
      (len (file (@build_table no_snappy options_example table_example))) = Some (inr t) ∧
    @InternalGets no_snappy _ map_cache t (Some ∅) gets_example = Some rs ∧
    fst <$> rs = [Some ([98], [2; 2]); Some ([100], [4]); Some ([101], [5; 5; 5])].
Proof.
  destruct (table_get_correct no_snappy no_snappy_laws map_cache map_cache_laws
    options_example 7 bytes_ok table_example true (Some ∅) gets_example) as (Hst & t & rs & Ho & Hg & HF).
  - apply _.
  - apply table_example_ok.
  - apply filter_example_fits.
  - by_decide.
  - unfold keys_sorted, table_example.
    repeat first [apply Sorted.SSorted_cons | apply Sorted.SSorted_nil | apply Forall_cons; split | apply Forall_nil | reflexivity].
  - by_decide.
  - intros c off block [= <-] Hh. cbn in Hh. by rewrite lookup_empty in Hh.
  - split; [done|]. exists t, rs. split; [done|]. split; [done|].
    apply Forall2_cons_inv_l in HF as (r1 & ? & (_ & _ & _ & H1) & HF & ->).
    apply Forall2_cons_inv_l in HF as (r2 & ? & (_ & _ & _ & H2) & HF & ->).
    apply Forall2_cons_inv_l in HF as (r3 & ? & (_ & _ & _ & H3) & HF & ->).
    apply Forall2_nil_inv_l in HF as ->. cbn [fmap list_fmap].
    assert (FilterLaws (BloomFilterPolicy 10)) as HB by (apply bloom_laws; lia).
    by rewrite (H1 _ _ ([98], [2; 2]) eq_refl HB eq_refl), (H2 _ _ ([100], [4]) eq_refl HB eq_refl), (H3 _ _ ([101], [5; 5; 5]) eq_refl HB eq_refl).
Defined.

Lemma table_addresses_witness :
  BlockNumber (@builder_after no_snappy options_example (take 3 table_example)) = 1 ∧
  BlockOffset (@builder_after no_snappy options_example (take 3 table_example)) = 1 ∧
  ∃ t i0 it b,
    @Open no_snappy options_example 7 (mem_Read (file (@build_table no_snappy options_example table_example))) true
      (len (file (@build_table no_snappy options_example table_example))) = Some (inr t) ∧
    move Iter.SeekToFirst (of_block_iterator (NewIterator VKey.comparator (t_index_block t))) = Some i0 ∧
    NextN 1 i0 = Some (BlockIter it) ∧ Iter.Valid it = true ∧
    @VBlockReader no_snappy t Bytewise.comparator read_options (Iter.value it)
      = of_block_iterator (NewIterator Bytewise.comparator (NewBlock (Builder.Build 16 b))) ∧
    b !! 1%nat = Some ([100], [4]).
Proof.
  split; [vm_compute; reflexivity|]. split; [vm_compute; reflexivity|].
  apply (table_addresses no_snappy no_snappy_laws options_example 7 (take 3 table_example) [100] [4]
    (drop 4 table_example) true read_options Bytewise.comparator).
  - apply table_example_ok.
  - apply filter_example_fits.
Defined.
