(* ===== verification/Cache.v ===== *)
(** * The LRU cache

    util/cache.cc: a hash table of reference-counted entries and two lists, the
    entries in use by clients and the others in the order of their use. It is
    proved to hold what was inserted, to drop the least recently used entries
    first, and to delete every entry once, when its last reference goes. *)

From Stdlib Require Import Sorted.
From stdpp Require Import sorting.
From S2P Require Import Prelude Coding Comparator Bloom Block Format TableBuilder Table.

Section cache.

(** The values, and the hash of a key. *)
Context {V : Type}.

(** An entry in memory; its address is a number. The pointers that link the
    entries are the lists below. *)
Record LRUHandle := {
  h_key : bytes;
  h_value : V;
  h_charge : Z;
  h_in_cache : bool;
  h_refs : Z;
  h_hash : Z
}.

Abbreviation Heap := (gmap nat LRUHandle).

(** ** HandleTable *)

(** The buckets are the chains of [next_hash]. *)
Record HandleTable := { length_ : Z; elems_ : Z; list_ : list (list nat) }.

(** The entry has the hash and the key. *)
Definition matches (heap : Heap) (key : bytes) (hash : Z) (e : nat) : bool :=
  match heap !! e with Some h => (h_hash h =? hash) && Slice.operator_eq key (h_key h) | None => false end.

(** The chain before the slot, and from the slot on. *)
Fixpoint FindPointer (heap : Heap) (key : bytes) (hash : Z) (chain : list nat) : list nat * list nat :=
  match chain with
  | [] => ([], [])
  | e :: rest => if matches heap key hash e then ([], chain) else let '(before, slot) := FindPointer heap key hash rest in (e :: before, slot)
  end.

(** [hash & (length_ - 1)]. *)
Definition bucket (length : Z) (hash : Z) : nat := Z.to_nat (Z.land hash (u32 (length - 1))).

Definition chain_of (t : HandleTable) (hash : Z) : list nat := default [] (list_ t !! bucket (length_ t) hash).

Definition HT_Lookup (heap : Heap) (t : HandleTable) (key : bytes) (hash : Z) : option nat :=
  head (FindPointer heap key hash (chain_of t hash)).2.

(** [while (new_length < elems_) new_length *= 2]. *)
Fixpoint NewLength (fuel : nat) (new_length elems : Z) : option Z :=
  if new_length <? elems then match fuel with O => None | S fuel => NewLength fuel (u32 (new_length * 2)) elems end else Some new_length.

(** The entry is put in front of its new chain. *)
Definition Rehash (heap : Heap) (new_length : Z) (new_list : list (list nat)) (e : nat) : list (list nat) :=
  alter (cons e) (bucket new_length (default 0 (h_hash <$> heap !! e))) new_list.

(** [None] is also the failed assertion [elems_ == count]; [count] is 32 bits
    wide. *)
Definition Resize (heap : Heap) (t : HandleTable) : option HandleTable :=
  new_length ← NewLength 32 4 (elems_ t);
  if negb (elems_ t =? u32 (len (mjoin (list_ t)))) then None else
  Some {| length_ := new_length; elems_ := elems_ t;
          list_ := foldl (foldl (Rehash heap new_length)) (replicate (Z.to_nat new_length) []) (list_ t) |}.

Definition NewHandleTable : option HandleTable := Resize ∅ {| length_ := 0; elems_ := 0; list_ := [] |}.

(** The entry [e] of the heap is inserted; the result is the entry it replaces. *)
Definition HT_Insert (heap : Heap) (t : HandleTable) (e : nat) : option (option nat * HandleTable) :=
  h ← heap !! e;
  let '(before, slot) := FindPointer heap (h_key h) (h_hash h) (chain_of t (h_hash h)) in
  let old := head slot in
  let list := <[bucket (length_ t) (h_hash h) := before ++ e :: tail slot]> (list_ t) in
  match old with
  | Some _ => Some (old, {| length_ := length_ t; elems_ := elems_ t; list_ := list |})
  | None =>
      let t := {| length_ := length_ t; elems_ := u32 (elems_ t + 1); list_ := list |} in
      t ← (if elems_ t >? length_ t then Resize heap t else Some t);
      Some (old, t)
  end.

Definition HT_Remove (heap : Heap) (t : HandleTable) (key : bytes) (hash : Z) : option nat * HandleTable :=
  let '(before, slot) := FindPointer heap key hash (chain_of t hash) in
  match slot with
  | e :: rest => (Some e, {| length_ := length_ t; elems_ := u32 (elems_ t - 1); list_ := <[bucket (length_ t) hash := before ++ rest]> (list_ t) |})
  | [] => (None, t)
  end.

(** ** LRUCache *)

(** The circular lists are the lists of their elements, the oldest first.
    [fresh] is the next address that [malloc] returns, and [deleted] has the
    calls of the deleter. *)
Record LRUCache := {
  capacity_ : Z;
  usage_ : Z;
  lru_ : list nat;
  in_use_ : list nat;
  table_ : HandleTable;
  heap : Heap;
  fresh : nat;
  deleted : list (nat * bytes * V)
}.

Definition NewLRUCache : option LRUCache :=
  t ← NewHandleTable;
  Some {| capacity_ := 0; usage_ := 0; lru_ := []; in_use_ := []; table_ := t; heap := ∅; fresh := 0; deleted := [] |}.

Definition SetCapacity (capacity : Z) (c : LRUCache) : LRUCache := {|
  capacity_ := capacity; usage_ := usage_ c; lru_ := lru_ c; in_use_ := in_use_ c; table_ := table_ c; heap := heap c; fresh := fresh c; deleted := deleted c |}.

Definition set_lists (lru in_use : list nat) (c : LRUCache) : LRUCache := {|
  capacity_ := capacity_ c; usage_ := usage_ c; lru_ := lru; in_use_ := in_use; table_ := table_ c; heap := heap c; fresh := fresh c; deleted := deleted c |}.
Definition set_heap (m : Heap) (c : LRUCache) : LRUCache := {|
  capacity_ := capacity_ c; usage_ := usage_ c; lru_ := lru_ c; in_use_ := in_use_ c; table_ := table_ c; heap := m; fresh := fresh c; deleted := deleted c |}.
Definition set_table (t : HandleTable) (usage : Z) (c : LRUCache) : LRUCache := {|
  capacity_ := capacity_ c; usage_ := usage; lru_ := lru_ c; in_use_ := in_use_ c; table_ := t; heap := heap c; fresh := fresh c; deleted := deleted c |}.

Definition set_refs (in_cache : bool) (refs : Z) (h : LRUHandle) : LRUHandle := {|
  h_key := h_key h; h_value := h_value h; h_charge := h_charge h; h_in_cache := in_cache; h_refs := refs; h_hash := h_hash h |}.

(** An element is in at most one of the lists. *)
Definition LRU_Remove (e : nat) (c : LRUCache) : LRUCache := set_lists (filter (λ x, x ≠ e) (lru_ c)) (filter (λ x, x ≠ e) (in_use_ c)) c.
Definition Append_lru (e : nat) (c : LRUCache) : LRUCache := set_lists (lru_ c ++ [e]) (in_use_ c) c.
Definition Append_in_use (e : nat) (c : LRUCache) : LRUCache := set_lists (lru_ c) (in_use_ c ++ [e]) c.

(** Below, [None] is an entry that was freed, or an assertion that fails. *)
Definition Ref (e : nat) (c : LRUCache) : option LRUCache :=
  h ← heap c !! e;
  let c := if (h_refs h =? 1) && h_in_cache h then Append_in_use e (LRU_Remove e c) else c in
  Some (set_heap (<[e := set_refs (h_in_cache h) (u32 (h_refs h + 1)) h]> (heap c)) c).

Definition Unref (e : nat) (c : LRUCache) : option LRUCache :=
  h ← heap c !! e;
  if h_refs h <=? 0 then None
  else
    let refs := h_refs h - 1 in
    let h := set_refs (h_in_cache h) refs h in
    let c := set_heap (<[e := h]> (heap c)) c in
    if refs =? 0 then
      if h_in_cache h then None
      else Some {| capacity_ := capacity_ c; usage_ := usage_ c; lru_ := lru_ c; in_use_ := in_use_ c; table_ := table_ c;
                   heap := delete e (heap c); fresh := fresh c; deleted := deleted c ++ [(e, h_key h, h_value h)] |}
    else if h_in_cache h && (refs =? 1) then Some (Append_lru e (LRU_Remove e c))
    else Some c.

(** [nullptr] is [None]. *)
Definition FinishErase (e : option nat) (c : LRUCache) : option (bool * LRUCache) :=
  match e with
  | None => Some (false, c)
  | Some e =>
      h ← heap c !! e;
      if negb (h_in_cache h) then None
      else
        let c := LRU_Remove e c in
        let c := set_heap (<[e := set_refs false (h_refs h) h]> (heap c)) c in
        let c := set_table (table_ c) (u64 (usage_ c - h_charge h)) c in
        c ← Unref e c;
        Some (true, c)
  end.

Definition Lookup (key : bytes) (hash : Z) (c : LRUCache) : option (option nat * LRUCache) :=
  match HT_Lookup (heap c) (table_ c) key hash with
  | Some e => c ← Ref e c; Some (Some e, c)
  | None => Some (None, c)
  end.

Definition Release (handle : nat) (c : LRUCache) : option LRUCache := Unref handle c.

(** The oldest entry is removed; the body of the loops of [Insert] and
    [Prune]. *)
Definition EvictOldest (old : nat) (c : LRUCache) : option LRUCache :=
  h ← heap c !! old;
  if negb (h_refs h =? 1) then None
  else
    let '(e, t) := HT_Remove (heap c) (table_ c) (h_key h) (h_hash h) in
    '(erased, c) ← FinishErase e (set_table t (usage_ c) c);
    if (erased : bool) then Some c else None.

(** [while (usage_ > capacity_ && lru_.next != &lru_)]. *)
Fixpoint EvictLoop (fuel : nat) (c : LRUCache) : option LRUCache :=
  if usage_ c >? capacity_ c then
    match lru_ c with
    | [] => Some c
    | old :: _ => match fuel with O => None | S fuel => c ← EvictOldest old c; EvictLoop fuel c end
    end
  else Some c.

Definition Insert (key : bytes) (hash : Z) (value : V) (charge : Z) (c : LRUCache) : option (nat * LRUCache) :=
  let e := fresh c in
  let cached := capacity_ c >? 0 in
  let h := {| h_key := key; h_value := value; h_charge := charge; h_in_cache := cached; h_refs := if cached then 2 else 1; h_hash := hash |} in
  let c := {| capacity_ := capacity_ c; usage_ := usage_ c; lru_ := lru_ c; in_use_ := in_use_ c; table_ := table_ c;
              heap := <[e := h]> (heap c); fresh := S (fresh c); deleted := deleted c |} in
  c ← (if cached then
         let c := Append_in_use e c in
         '(old, t) ← HT_Insert (heap c) (table_ c) e;
         '(_, c) ← FinishErase old (set_table t (u64 (usage_ c + charge)) c);
         Some c
       else Some c);
  c ← EvictLoop (length (lru_ c)) c;
  Some (e, c).

Definition Erase (key : bytes) (hash : Z) (c : LRUCache) : option LRUCache :=
  let '(e, t) := HT_Remove (heap c) (table_ c) key hash in
  '(_, c) ← FinishErase e (set_table t (usage_ c) c);
  Some c.

Fixpoint Prune_loop (fuel : nat) (c : LRUCache) : option LRUCache :=
  match lru_ c with
  | [] => Some c
  | e :: _ => match fuel with O => None | S fuel => c ← EvictOldest e c; Prune_loop fuel c end
  end.

Definition Prune (c : LRUCache) : option LRUCache := Prune_loop (length (lru_ c)) c.

Definition TotalCharge (c : LRUCache) : Z := usage_ c.

(** The destructor: the body of its loop, and the loop. *)
Definition DestroyEntry (c : LRUCache) (e : nat) : option LRUCache :=
  h ← heap c !! e;
  if negb (h_in_cache h) || negb (h_refs h =? 1) then None
  else Unref e (set_heap (<[e := set_refs false (h_refs h) h]> (heap c)) c).

Definition Destroy (c : LRUCache) : option LRUCache := foldl (λ st e, c ← st; DestroyEntry c e) (Some c) (lru_ c).

(** The calls of a client, and the handle that is returned. *)
Inductive CacheOp := OpInsert (key : bytes) (value : V) (charge : Z) | OpLookup (key : bytes) | OpRelease (handle : nat) | OpErase (key : bytes) | OpPrune.

Definition exec (hash : bytes → Z) (o : CacheOp) (c : LRUCache) : option (option nat * LRUCache) :=
  match o with
  | OpInsert key value charge => '(e, c) ← Insert key (hash key) value charge c; Some (Some e, c)
  | OpLookup key => Lookup key (hash key) c
  | OpRelease handle => c ← Release handle c; Some (None, c)
  | OpErase key => c ← Erase key (hash key) c; Some (None, c)
  | OpPrune => c ← Prune c; Some (None, c)
  end.

(** ** ShardedLRUCache *)

Definition kNumShardBits : Z := 4.
Definition kNumShards : Z := 16.

Record ShardedLRUCache := { shard_ : list LRUCache; last_id_ : Z }.

Definition HashSlice (s : bytes) : Z := Hash s 0.
Definition Shard (hash : Z) : nat := Z.to_nat (Z.shiftr hash (32 - kNumShardBits)).

Definition NewShardedLRUCache (capacity : Z) : option ShardedLRUCache :=
  let per_shard := u64 (capacity + (kNumShards - 1)) / kNumShards in
  s ← NewLRUCache;
  Some {| shard_ := replicate (Z.to_nat kNumShards) (SetCapacity per_shard s); last_id_ := 0 |}.

(** A handle: the shard, which the code reads off the hash in the entry, and
    the address. *)
Abbreviation Handle := (nat * nat)%type.

Definition set_shard (i : nat) (s : LRUCache) (c : ShardedLRUCache) : ShardedLRUCache := {| shard_ := <[i := s]> (shard_ c); last_id_ := last_id_ c |}.

Definition S_Insert (key : bytes) (value : V) (charge : Z) (c : ShardedLRUCache) : option (Handle * ShardedLRUCache) :=
  let hash := HashSlice key in
  s ← shard_ c !! Shard hash;
  '(e, s) ← Insert key hash value charge s;
  Some ((Shard hash, e), set_shard (Shard hash) s c).

Definition S_Lookup (key : bytes) (c : ShardedLRUCache) : option (option Handle * ShardedLRUCache) :=
  let hash := HashSlice key in
  s ← shard_ c !! Shard hash;
  '(r, s) ← Lookup key hash s;
  Some (match r with Some e => Some (Shard hash, e) | None => None end, set_shard (Shard hash) s c).

Definition S_Release (handle : Handle) (c : ShardedLRUCache) : option ShardedLRUCache :=
  s ← shard_ c !! handle.1;
  s ← Release handle.2 s;
  Some (set_shard handle.1 s c).

Definition S_Erase (key : bytes) (c : ShardedLRUCache) : option ShardedLRUCache :=
  let hash := HashSlice key in
  s ← shard_ c !! Shard hash;
  s ← Erase key hash s;
  Some (set_shard (Shard hash) s c).

Definition S_Value (handle : Handle) (c : ShardedLRUCache) : option V :=
  s ← shard_ c !! handle.1;
  h ← heap s !! handle.2;
  Some (h_value h).

Definition S_NewId (c : ShardedLRUCache) : Z * ShardedLRUCache :=
  let id := u64 (last_id_ c + 1) in (id, {| shard_ := shard_ c; last_id_ := id |}).

Definition S_Prune (c : ShardedLRUCache) : option ShardedLRUCache :=
  shards ← mapM Prune (shard_ c);
  Some {| shard_ := shards; last_id_ := last_id_ c |}.

Definition S_TotalCharge (c : ShardedLRUCache) : Z := foldl (λ total s, u64 (total + TotalCharge s)) 0 (shard_ c).

End cache.

#[global] Arguments LRUHandle : clear implicits.
#[global] Arguments LRUCache : clear implicits.
#[global] Arguments CacheOp : clear implicits.
#[global] Arguments ShardedLRUCache : clear implicits.

(** ** Lemmas: the hash table *)

(** The chain at an index and the rest of the table. *)
Lemma join_split {A} (l : list (list A)) i chain :
  l !! i = Some chain → ∃ rest, mjoin l ≡ₚ chain ++ rest ∧ ∀ chain', mjoin (<[i := chain']> l) ≡ₚ chain' ++ rest.
Proof.
  intros Hi. exists (mjoin (take i l) ++ mjoin (drop (S i) l)). pose proof (lookup_lt_Some _ _ _ Hi) as Hlt.
  assert (∀ a c b : list A, a ++ c ++ b ≡ₚ c ++ a ++ b) as Hp by (intros; solve_Permutation).
  split.
  - rewrite <- (take_drop_middle l i chain Hi) at 1. rewrite join_app. cbn [mjoin list_join]. apply Hp.
  - intros chain'. rewrite insert_take_drop by done. rewrite join_app. cbn [mjoin list_join]. apply Hp.
Qed.

Lemma foldl_chains {A B} (f : B → A → B) b (ls : list (list A)) : foldl (foldl f) b ls = foldl f b (mjoin ls).
Proof. revert b. induction ls as [|l ls IH]; intros b; [done|]. cbn [foldl mjoin list_join]. by rewrite foldl_app, IH. Qed.

Section table.

Context {V : Type} (hashf : bytes → Z) (Hhash : ∀ k, u32_ok (hashf k)).

Abbreviation Heap := (gmap nat (LRUHandle V)).
Implicit Types (m : Heap) (h : LRUHandle V) (t : HandleTable).

(** Where an entry may lie, and that keys are unique. *)
Record table_wf (m : Heap) (t : HandleTable) : Prop := {
  tw_len : len (list_ t) = length_ t;
  tw_pow : ∃ n, 2 ≤ n ≤ 31 ∧ length_ t = 2 ^ n;
  tw_elems : elems_ t = len (mjoin (list_ t));
  tw_few : elems_ t ≤ 2 ^ 31;
  tw_nodup : NoDup (mjoin (list_ t));
  tw_place i chain e : list_ t !! i = Some chain → e ∈ chain → ∃ h, m !! e = Some h ∧ h_hash h = hashf (h_key h) ∧ i = bucket (length_ t) (h_hash h);
  tw_keys e e' h h' : e ∈ mjoin (list_ t) → e' ∈ mjoin (list_ t) → m !! e = Some h → m !! e' = Some h' → h_key h = h_key h' → e = e'
}.

Lemma table_member m t e : table_wf m t → e ∈ mjoin (list_ t) → ∃ h, m !! e = Some h ∧ h_hash h = hashf (h_key h).
Proof.
  intros Ht (chain & He & [i Hi]%list_elem_of_lookup_1)%list_elem_of_join. destruct (tw_place m t Ht i chain e Hi He) as (h & ? & ? & _). eauto.
Qed.

Lemma bucket_lt n hash : 2 ≤ n ≤ 31 → u32_ok hash → 0 ≤ Z.land hash (u32 (2 ^ n - 1)) < 2 ^ n.
Proof.
  intros Hn Hh. rewrite u32_id. 2:{ unfold u32_ok. pose proof (Z.pow_lt_mono_r 2 n 32). lia. }
  replace (2 ^ n - 1) with (Z.ones n) by (rewrite Z.ones_equiv; lia). rewrite Z.land_ones by lia. apply Z.mod_pos_bound. lia.
Qed.

Lemma bucket_lookup m t key : table_wf m t → list_ t !! bucket (length_ t) (hashf key) = Some (chain_of t (hashf key)).
Proof.
  intros Ht. destruct (tw_pow m t Ht) as (n & Hn & E). unfold chain_of. destruct (list_ t !! _) eqn:El; [done|]. apply lookup_ge_None in El.
  pose proof (tw_len m t Ht) as Hl. unfold bucket, len in *. rewrite E in *. pose proof (bucket_lt n (hashf key) Hn (Hhash key)). lia.
Qed.

Lemma matches_spec m key e : matches m key (hashf key) e = true ↔ ∃ h, m !! e = Some h ∧ h_hash h = hashf key ∧ h_key h = key.
Proof.
  unfold matches. destruct (m !! e) as [h|]; [|split; [done|intros (? & ? & _); done]]. rewrite andb_true_iff, Z.eqb_eq, operator_eq_spec. naive_solver.
Qed.

Lemma FindPointer_spec m key hash chain before slot :
  FindPointer m key hash chain = (before, slot) →
  chain = before ++ slot ∧ Forall (λ e, matches m key hash e = false) before ∧ ∀ e, head slot = Some e → matches m key hash e = true.
Proof.
  revert before. induction chain as [|e chain IH]; intros before; cbn [FindPointer]; [by intros [= <- <-]|].
  destruct (matches m key hash e) eqn:E; [intros [= <- <-]; by split_and!; [..|intros ? [= <-]]|].
  destruct (FindPointer m key hash chain) as [b s]. intros [= <- <-]. destruct (IH b eq_refl) as (-> & Hb & Hs). split_and!; [done|by constructor|done].
Qed.

(** An entry with the key is the head of the slot, and in no other chain. *)
Lemma FindPointer_ok m t key before slot :
  table_wf m t → FindPointer m key (hashf key) (chain_of t (hashf key)) = (before, slot) →
  chain_of t (hashf key) = before ++ slot ∧
  (∀ e, head slot = Some e → e ∈ mjoin (list_ t) ∧ ∃ h, m !! e = Some h ∧ h_key h = key) ∧
  (∀ e h, e ∈ mjoin (list_ t) → m !! e = Some h → h_key h = key → head slot = Some e).
Proof.
  intros Ht E. destruct (FindPointer_spec _ _ _ _ _ _ E) as (Hc & Hb & Hs). pose proof (bucket_lookup m t key Ht) as Hl. split; [done|]. split.
  - intros e He. specialize (Hs e He). apply matches_spec in Hs as (h & Hh & _ & Hk). split; [|eauto]. apply list_elem_of_join. exists (chain_of t (hashf key)).
    split; [|by eapply list_elem_of_lookup_2]. rewrite Hc. apply elem_of_app. right. destruct slot; [done|]. injection He as <-. by left.
  - intros e h Hin Hh Hk. pose proof Hin as Hin'. apply list_elem_of_join in Hin' as (chain & He & [i Hi]%list_elem_of_lookup_1).
    destruct (tw_place m t Ht i chain e Hi He) as (h' & Hh' & Hhash' & ->). rewrite Hh in Hh'. injection Hh' as <-. rewrite Hhash', Hk, Hl in Hi. injection Hi as <-.
    rewrite Hc in He. apply elem_of_app in He as [He|He].
    + rewrite Forall_forall in Hb. specialize (Hb e He). cbn in Hb. assert (matches m key (hashf key) e = true) by (apply matches_spec; exists h; by rewrite Hhash', Hk). congruence.
    + destruct slot as [|e' slot]; [by apply not_elem_of_nil in He|]. cbn. f_equal. specialize (Hs e' eq_refl). apply matches_spec in Hs as (h2 & Hh2 & _ & Hk2).
      apply (tw_keys m t Ht e' e h2 h); try done; [|congruence]. apply list_elem_of_join. exists (chain_of t (hashf key)). split; [|by eapply list_elem_of_lookup_2].
      rewrite Hc. apply elem_of_app. right. by left.
Qed.

Lemma HT_Lookup_ok m t key e :
  table_wf m t → HT_Lookup m t key (hashf key) = Some e ↔ e ∈ mjoin (list_ t) ∧ ∃ h, m !! e = Some h ∧ h_key h = key.
Proof.
  intros Ht. unfold HT_Lookup. destruct (FindPointer _ _ _ _) as [before slot] eqn:E. destruct (FindPointer_ok m t key _ _ Ht E) as (_ & H1 & H2). cbn [snd].
  split; [apply H1|]. intros (Hin & h & Hh & Hk). by apply (H2 e h).
Qed.

(** Only keys and hashes of the entries in the table matter. *)
Lemma table_wf_heap m m' t :
  (∀ e h, e ∈ mjoin (list_ t) → m !! e = Some h → ∃ h', m' !! e = Some h' ∧ h_key h' = h_key h ∧ h_hash h' = h_hash h) → table_wf m t → table_wf m' t.
Proof.
  intros Hm Ht. split; try apply Ht.
  - intros i chain e Hi He. destruct (tw_place m t Ht i chain e Hi He) as (h & Hh & E & ->). destruct (Hm e h) as (h' & Hh' & Ek & Eh); [|done|].
    { apply list_elem_of_join. exists chain. split; [done|]. by eapply list_elem_of_lookup_2. }
    exists h'. by rewrite Ek, Eh.
  - intros e e' h h' He He' Hh Hh' Ek. destruct (table_member m t e Ht He) as (h1 & H1 & _), (table_member m t e' Ht He') as (h2 & H2 & _).
    destruct (Hm e h1 He H1) as (h3 & H3 & K3 & _), (Hm e' h2 He' H2) as (h4 & H4 & K4 & _). simplify_eq.
    apply (tw_keys m t Ht e e' h1 h2); try done. congruence.
Qed.

(** The table with another chain at the place of a key. *)
Lemma set_chain m t key chain' elems :
  table_wf m t → (∀ e, e ∈ chain' → e ∈ chain_of t (hashf key) ∨ ∃ h, m !! e = Some h ∧ h_key h = key ∧ h_hash h = hashf key) →
  let t' := {| length_ := length_ t; elems_ := elems; list_ := <[bucket (length_ t) (hashf key) := chain']> (list_ t) |} in
  NoDup (mjoin (list_ t')) → elems = len (mjoin (list_ t')) → elems ≤ 2 ^ 31 →
  (∀ e e' h h', e ∈ mjoin (list_ t') → e' ∈ mjoin (list_ t') → m !! e = Some h → m !! e' = Some h' → h_key h = h_key h' → e = e') → table_wf m t'.
Proof.
  intros Ht Hc t' Hnd He Hf Hk. destruct (tw_pow m t Ht) as (n & Hn & Hl). split; try done.
  - cbn. unfold len. rewrite length_insert. apply (tw_len m t Ht).
  - by exists n.
  - intros i chain e Hi Hin. cbn [list_ length_ t'] in *. pose proof (bucket_lookup m t key Ht) as Hcl.
    destruct (decide (bucket (length_ t) (hashf key) = i)) as [<-|Hne].
    + rewrite list_lookup_insert_eq in Hi by (by eapply lookup_lt_Some). injection Hi as <-. destruct (Hc e Hin) as [Hin'|(h & Hh & <- & E)].
      * by apply (tw_place m t Ht _ _ e Hcl).
      * exists h. by rewrite E.
    + rewrite list_lookup_insert_ne in Hi by done. by apply (tw_place m t Ht i chain e).
Qed.

Lemma HT_Remove_ok m t key :
  table_wf m t → ∃ r t', HT_Remove m t key (hashf key) = (r, t') ∧ table_wf m t' ∧
    match r with
    | Some e => e ∈ mjoin (list_ t) ∧ (∃ h, m !! e = Some h ∧ h_key h = key) ∧ mjoin (list_ t) ≡ₚ e :: mjoin (list_ t')
    | None => t' = t ∧ ∀ e h, e ∈ mjoin (list_ t) → m !! e = Some h → h_key h ≠ key
    end.
Proof.
  intros Ht. unfold HT_Remove. destruct (FindPointer _ _ _ _) as [before slot] eqn:E. destruct (FindPointer_ok m t key _ _ Ht E) as (Hc & H1 & H2).
  destruct slot as [|e rest].
  { exists None, t. split; [done|]. split; [done|]. split; [done|]. intros e h He Hh Hk. specialize (H2 e h He Hh Hk). done. }
  eexists (Some e), _. split; [done|]. destruct (H1 e eq_refl) as (Hin & Hh). pose proof (bucket_lookup m t key Ht) as Hcl.
  destruct (join_split (list_ t) _ _ Hcl) as (others & Hp & Hp'). specialize (Hp' (before ++ rest)).
  assert (mjoin (list_ t) ≡ₚ e :: mjoin (<[bucket (length_ t) (hashf key) := before ++ rest]> (list_ t))) as Hall.
  { rewrite Hp, Hp', Hc. solve_Permutation. }
  split; [|by split_and!]. pose proof (tw_nodup m t Ht) as Hnd. rewrite Hall in Hnd. apply NoDup_cons in Hnd as [_ Hnd].
  assert (u32 (elems_ t - 1) = elems_ t - 1) as Eu.
  { apply u32_id. pose proof (tw_few m t Ht). pose proof (tw_elems m t Ht) as He. unfold len in He. rewrite Hall in He. cbn [length] in He. unfold u32_ok. lia. }
  apply set_chain; try done.
  - intros x Hx. left. rewrite Hc. apply elem_of_app in Hx as [?|?]; apply elem_of_app; [by left|right; by right].
  - cbn [list_]. rewrite Eu, (tw_elems m t Ht). unfold len. rewrite Hall. cbn [length]. lia.
  - rewrite Eu. pose proof (tw_few m t Ht). lia.
  - cbn [list_]. intros x y h h' Hx Hy. apply (tw_keys m t Ht); rewrite Hall; by right.
Qed.

Lemma NewLength_ok fuel k elems :
  2 ≤ k ≤ 31 → elems ≤ 2 ^ 31 → 31 - k ≤ Z.of_nat fuel → ∃ n, 2 ≤ n ≤ 31 ∧ NewLength fuel (2 ^ k) elems = Some (2 ^ n).
Proof.
  revert k. induction fuel as [|fuel IH]; intros k Hk He Hf; cbn [NewLength].
  - assert (k = 31) as -> by lia. rewrite (proj2 (Z.ltb_ge _ _)) by lia. by exists 31.
  - destruct (Z.ltb_spec (2 ^ k) elems); [|by exists k].
    assert (k < 31) by (destruct (decide (k = 31)) as [->|]; lia).
    replace (2 ^ k * 2) with (2 ^ (k + 1)) by (rewrite Z.pow_add_r by lia; lia). rewrite u32_id; [apply IH; lia|].
    unfold u32_ok. pose proof (Z.pow_lt_mono_r 2 (k + 1) 32). lia.
Qed.

(** Rehashing puts the entries in front of their chains. *)
Lemma Rehash_all m n es : ∀ l,
  2 ≤ n ≤ 31 → len l = 2 ^ n → (∀ e, e ∈ es → ∃ h, m !! e = Some h ∧ h_hash h = hashf (h_key h)) →
  (∀ i chain e, l !! i = Some chain → e ∈ chain → ∃ h, m !! e = Some h ∧ h_hash h = hashf (h_key h) ∧ i = bucket (2 ^ n) (h_hash h)) →
  let l' := foldl (Rehash m (2 ^ n)) l es in
  len l' = 2 ^ n ∧ mjoin l' ≡ₚ es ++ mjoin l ∧
  (∀ i chain e, l' !! i = Some chain → e ∈ chain → ∃ h, m !! e = Some h ∧ h_hash h = hashf (h_key h) ∧ i = bucket (2 ^ n) (h_hash h)).
Proof.
  induction es as [|e es IH]; intros l Hn Hl Hes Hpl; cbn [foldl]; [done|].
  destruct (Hes e) as (h & Hh & Eh); [by left|]. pose proof (bucket_lt n (hashf (h_key h)) Hn (Hhash _)) as Hb.
  destruct (lookup_lt_is_Some_2 l (bucket (2 ^ n) (h_hash h))) as [chain Hc]; [rewrite Eh; unfold bucket, len in *; lia|].
  assert (Rehash m (2 ^ n) l e = <[bucket (2 ^ n) (h_hash h) := e :: chain]> l) as ->.
  { unfold Rehash. rewrite Hh. cbn. apply list_eq. intros j. destruct (decide (bucket (2 ^ n) (h_hash h) = j)) as [<-|].
    - rewrite list_lookup_insert_eq by (by eapply lookup_lt_Some). by rewrite list_lookup_alter_eq, Hc.
    - by rewrite list_lookup_insert_ne, list_lookup_alter_ne. }
  destruct (join_split l _ _ Hc) as (rest & Hp & Hp').
  destruct (IH (<[bucket (2 ^ n) (h_hash h) := e :: chain]> l) Hn) as (H1 & H2 & H3).
  - unfold len. by rewrite length_insert.
  - intros x Hx. apply Hes. by right.
  - intros i c x Hi Hx. destruct (decide (bucket (2 ^ n) (h_hash h) = i)) as [<-|Hne].
    + rewrite list_lookup_insert_eq in Hi by (by eapply lookup_lt_Some). injection Hi as <-. apply elem_of_cons in Hx as [->|Hx]; [by exists h|by apply (Hpl _ chain)].
    + rewrite list_lookup_insert_ne in Hi by done. by apply (Hpl i c).
  - split_and!; [done| |done]. rewrite H2, Hp', Hp. solve_Permutation.
Qed.

Lemma Resize_ok m t :
  table_wf m t → ∃ t', Resize m t = Some t' ∧ table_wf m t' ∧ mjoin (list_ t') ≡ₚ mjoin (list_ t).
Proof.
  intros Ht. unfold Resize. destruct (NewLength_ok 32 2 (elems_ t)) as (n & Hn & E); [lia|apply Ht|lia|]. change (2 ^ 2) with 4 in E. rewrite E. cbn [mbind option_bind].
  pose proof (tw_elems m t Ht) as Hel. pose proof (tw_few m t Ht) as Hfw. pose proof (len_nonneg (mjoin (list_ t))). rewrite <- Hel, u32_id, Z.eqb_refl by (unfold u32_ok; lia). cbn [negb]. clear Hel Hfw.
  eexists. split; [done|]. rewrite foldl_chains.
  destruct (Rehash_all m n (mjoin (list_ t)) (replicate (Z.to_nat (2 ^ n)) []) Hn) as (H1 & H2 & H3).
  - unfold len. rewrite length_replicate. lia.
  - intros e He. by apply (table_member m t).
  - intros i chain e [-> _]%lookup_replicate He. by apply not_elem_of_nil in He.
  - assert (mjoin (replicate (Z.to_nat (2 ^ n)) []) = @nil nat) as Enil by (generalize (Z.to_nat (2 ^ n)) as k; induction k; done).
    rewrite Enil, app_nil_r in H2. split; [|done]. split; cbn [list_ length_ elems_]; try done.
    + by exists n.
    + rewrite (tw_elems m t Ht). unfold len. by rewrite H2.
    + apply Ht.
    + rewrite H2. apply Ht.
    + intros e e' h h'. rewrite H2. apply (tw_keys m t Ht).
Qed.

Lemma HT_Insert_ok m t e h :
  table_wf m t → m !! e = Some h → h_hash h = hashf (h_key h) → e ∉ mjoin (list_ t) → elems_ t < 2 ^ 31 →
  ∃ old t' rest, HT_Insert m t e = Some (old, t') ∧ table_wf m t' ∧ mjoin (list_ t') ≡ₚ e :: rest ∧
    match old with
    | Some o => mjoin (list_ t) ≡ₚ o :: rest ∧ ∃ h', m !! o = Some h' ∧ h_key h' = h_key h
    | None => mjoin (list_ t) ≡ₚ rest ∧ ∀ e' h', e' ∈ mjoin (list_ t) → m !! e' = Some h' → h_key h' ≠ h_key h
    end.
Proof.
  intros Ht Hh Eh Hnin Hfew. unfold HT_Insert. rewrite Hh. cbn [mbind option_bind]. rewrite Eh. set (key := h_key h) in *.
  destruct (FindPointer _ _ _ _) as [before slot] eqn:E. destruct (FindPointer_ok m t key _ _ Ht E) as (Hc & H1 & H2).
  destruct (join_split (list_ t) _ _ (bucket_lookup m t key Ht)) as (others & Hp & Hp'). specialize (Hp' (before ++ e :: tail slot)). rewrite Hc in Hp.
  assert (∃ rest, mjoin (<[bucket (length_ t) (hashf key) := before ++ e :: tail slot]> (list_ t)) ≡ₚ e :: rest ∧
    match head slot with Some o => mjoin (list_ t) ≡ₚ o :: rest | None => mjoin (list_ t) ≡ₚ rest end) as (rest & Hr & Ho).
  { exists (before ++ tail slot ++ others). split; [rewrite Hp'; solve_Permutation|]. destruct slot; cbn [head tail] in *; rewrite Hp; solve_Permutation. }
  assert (∀ x, x ∈ rest → x ∈ mjoin (list_ t)) as Hsub by (intros x Hx; destruct (head slot); rewrite Ho; [by right|done]).
  assert (∀ x h', x ∈ rest → m !! x = Some h' → h_key h' ≠ key) as Hkeys.
  { intros x h' Hx Hxh Hk. specialize (H2 x h' (Hsub x Hx) Hxh Hk). rewrite H2 in Ho. pose proof (tw_nodup m t Ht) as Hnd. rewrite Ho in Hnd.
    by apply NoDup_cons in Hnd as [? _]. }
  assert (NoDup (e :: rest)) as Hnd.
  { apply NoDup_cons. split; [intros Hx; by apply Hnin, Hsub|]. pose proof (tw_nodup m t Ht) as Hnd. destruct (head slot); rewrite Ho in Hnd; [by apply NoDup_cons in Hnd as [_ ?]|done]. }
  assert (∀ elems, elems = len (e :: rest) → elems ≤ 2 ^ 31 →
    table_wf m {| length_ := length_ t; elems_ := elems; list_ := <[bucket (length_ t) (hashf key) := before ++ e :: tail slot]> (list_ t) |}) as Hwf.
  { intros elems He Hle. apply set_chain; try done; cbn [list_].
    - intros x [Hx|[->|Hx]%elem_of_cons]%elem_of_app; [left; rewrite Hc; apply elem_of_app; by left|right; by exists h|].
      left. rewrite Hc. apply elem_of_app. right. destruct slot; [by apply not_elem_of_nil in Hx|by right].
    - by rewrite Hr.
    - rewrite He. unfold len. by rewrite Hr.
    - intros x y hx hy. rewrite Hr. intros [->|Hx]%elem_of_cons [->|Hy]%elem_of_cons Hxh Hyh Ek; simplify_eq; try done.
      + by destruct (Hkeys y hy Hy Hyh).
      + by destruct (Hkeys x hx Hx Hxh).
      + by apply (tw_keys m t Ht x y hx hy); [apply Hsub|apply Hsub|..]. }
  pose proof (tw_elems m t Ht) as Hel. destruct (head slot) as [o|] eqn:Eo.
  - eexists (Some o), _, rest. split; [done|]. destruct (H1 o eq_refl) as (_ & ho & Hho & Hk). split; [|split_and!; [done..|by exists ho]]. apply Hwf; [|lia].
    rewrite Hel. unfold len. by rewrite Ho.
  - assert (u32 (elems_ t + 1) = len (e :: rest)) as Eu.
    { rewrite u32_id; [|unfold u32_ok; rewrite Hel; unfold len in *; lia]. rewrite Hel. unfold len. rewrite Ho. cbn [length]. lia. }
    rewrite Eu. assert (len (e :: rest) ≤ 2 ^ 31) as Hle by (rewrite Hel in Hfew; unfold len in *; rewrite Ho in Hfew; cbn [length]; lia).
    specialize (Hwf _ eq_refl Hle).
    match type of Hwf with table_wf m ?t0 => set (t1 := t0) in * end.
    assert (∃ t', (if elems_ t1 >? length_ t1 then Resize m t1 else Some t1) = Some t' ∧ table_wf m t' ∧ mjoin (list_ t') ≡ₚ e :: rest) as (t' & -> & Ht' & Hj).
    { destruct (elems_ t1 >? length_ t1); [|by exists t1]. destruct (Resize_ok m t1 Hwf) as (t' & -> & Ht' & Hj). exists t'. by rewrite Hj. }
    eexists None, t', rest. split; [done|]. split; [done|]. split; [done|]. split; [done|]. intros e' h' He'. rewrite Ho in He'. by apply Hkeys.
Qed.

Lemma NewHandleTable_ok : ∃ t, NewHandleTable (V := V) = Some t ∧ table_wf ∅ t ∧ mjoin (list_ t) = [].
Proof.
  eexists. split; [reflexivity|]. split; [|reflexivity]. split; cbn [length_ elems_ list_]; try done.
  - by exists 2.
  - constructor.
  - intros i chain e Hi He. apply list_elem_of_lookup_2 in Hi. repeat (apply elem_of_cons in Hi as [->|Hi]; [by apply not_elem_of_nil in He|]). by apply not_elem_of_nil in Hi.
Qed.

End table.

(** ** Lemmas: the invariant of the cache *)

Definition b2z (b : bool) : Z := if b then 1 else 0.

Section lru.

Context {V : Type} (hashf : bytes → Z) (Hhash : ∀ k, u32_ok (hashf k)).

Implicit Types (c : LRUCache V) (h : LRUHandle V) (held : nat → Z).

Definition charge_of (m : gmap nat (LRUHandle V)) (e : nat) : Z := default 0 (h_charge <$> m !! e).
Definition charges (m : gmap nat (LRUHandle V)) (es : list nat) : Z := foldr Z.add 0 (charge_of m <$> es).

(** [held e] is the number of references that clients hold on [e]; [gone] are
    entries that have left the table and are about to leave the lists. *)
Record inv (gone : list nat) c held : Prop := {
  iv_heap e h : heap c !! e = Some h →
    h_refs h = b2z (h_in_cache h) + held e ∧ 0 ≤ held e ∧ 0 < h_refs h < 2 ^ 32 ∧ h_hash h = hashf (h_key h);
  iv_free e : heap c !! e = None → held e = 0;
  iv_lru e : e ∈ lru_ c ↔ ∃ h, heap c !! e = Some h ∧ h_in_cache h = true ∧ h_refs h = 1;
  iv_in_use e : e ∈ in_use_ c ↔ ∃ h, heap c !! e = Some h ∧ h_in_cache h = true ∧ 1 < h_refs h;
  iv_nodup : NoDup (lru_ c ++ in_use_ c);
  iv_table : table_wf hashf (heap c) (table_ c);
  iv_members : lru_ c ++ in_use_ c ≡ₚ gone ++ mjoin (list_ (table_ c));
  iv_usage : usage_ c = u64 (charges (heap c) (lru_ c ++ in_use_ c));
  iv_deleted : NoDup (deleted c).*1.*1;
  iv_alive e : (e < fresh c)%nat ↔ is_Some (heap c !! e) ∨ e ∈ (deleted c).*1.*1;
  iv_dead e : e ∈ (deleted c).*1.*1 → heap c !! e = None
}.

Definition upd held (e : nat) (n : Z) : nat → Z := λ x, if decide (x = e) then n else held x.

Lemma charges_perm m es es' : es ≡ₚ es' → charges m es = charges m es'.
Proof. intros H. unfold charges. induction H; cbn; lia. Qed.

Lemma charges_heap m m' es : (∀ e, e ∈ es → charge_of m' e = charge_of m e) → charges m' es = charges m es.
Proof. induction es as [|e es IH]; intros H; [done|]. cbn. unfold charges in IH. rewrite IH; [rewrite (H e); [lia|by left]|]. intros x Hx. apply H. by right. Qed.

Lemma in_lists gone c held e : inv gone c held → e ∈ lru_ c ++ in_use_ c ↔ ∃ h, heap c !! e = Some h ∧ h_in_cache h = true.
Proof.
  intros Hi. rewrite elem_of_app, (iv_lru _ _ _ Hi), (iv_in_use _ _ _ Hi). split; [naive_solver|]. intros (h & Hh & Hc).
  pose proof (iv_heap _ _ _ Hi e h Hh) as (? & ? & ? & _). destruct (decide (h_refs h = 1)); [left|right]; exists h; split_and!; try done; lia.
Qed.

Lemma in_table c held e : inv [] c held → e ∈ mjoin (list_ (table_ c)) ↔ ∃ h, heap c !! e = Some h ∧ h_in_cache h = true.
Proof. intros Hi. rewrite <- (in_lists _ _ _ e Hi). by rewrite (iv_members _ _ _ Hi). Qed.

Lemma u64_sub x y : u64 (u64 x - y) = u64 (x - y).
Proof. unfold u64. apply Zminus_mod_idemp_l. Qed.

Lemma u64_plus x y : u64 (u64 x + y) = u64 (x + y).
Proof. unfold u64. apply Zplus_mod_idemp_l. Qed.

Lemma remove_one (l : list nat) e : NoDup l → e ∈ l → l ≡ₚ e :: filter (λ x, x ≠ e) l.
Proof.
  induction l as [|x l IH]; [by intros _ ?%not_elem_of_nil|]. intros [Hx Hl]%NoDup_cons [->|He]%elem_of_cons.
  - rewrite filter_cons_False by auto. assert (filter (λ y, y ≠ x) l = l) as ->; [|done].
    clear IH Hl. induction l as [|y l IH]; [done|]. apply not_elem_of_cons in Hx as [? ?]. rewrite filter_cons_True by auto. by rewrite IH.
  - rewrite filter_cons_True by (by intros ->). rewrite (IH Hl He) at 1. apply Permutation_swap.
Qed.

(** The entry that has left the table leaves the lists; it is deleted if no
    client holds it. *)
Lemma FinishErase_ok c held e :
  inv [e] c held → ∃ h c', heap c !! e = Some h ∧ h_in_cache h = true ∧ FinishErase (Some e) c = Some (true, c') ∧ inv [] c' held ∧
    capacity_ c' = capacity_ c ∧ fresh c' = fresh c ∧ table_ c' = table_ c ∧ usage_ c' = u64 (usage_ c - h_charge h) ∧
    lru_ c' = filter (λ x, x ≠ e) (lru_ c) ∧ in_use_ c' = filter (λ x, x ≠ e) (in_use_ c) ∧
    (∀ x, x ≠ e → heap c' !! x = heap c !! x) ∧
    heap c' !! e = (if held e =? 0 then None else Some (set_refs false (held e) h)) ∧
    deleted c' = deleted c ++ (if held e =? 0 then [(e, h_key h, h_value h)] else []).
Proof.
  intros Hi. assert (e ∈ lru_ c ++ in_use_ c) as Hin by (rewrite (iv_members _ _ _ Hi); by left).
  pose proof Hin as (h & Hh & Hc)%(in_lists _ _ _ _ Hi). destruct (iv_heap _ _ _ Hi e h Hh) as (Hr & Hh0 & Hr0 & Hhash'). rewrite Hc in Hr. cbn in Hr.
  set (m' := if held e =? 0 then delete e (heap c) else <[e := set_refs false (held e) h]> (heap c)).
  set (c' := {| capacity_ := capacity_ c; usage_ := u64 (usage_ c - h_charge h); lru_ := filter (λ x, x ≠ e) (lru_ c); in_use_ := filter (λ x, x ≠ e) (in_use_ c);
    table_ := table_ c; heap := m'; fresh := fresh c; deleted := deleted c ++ (if held e =? 0 then [(e, h_key h, h_value h)] else []) |}).
  exists h, c'. split; [done|]. split; [done|].
  assert (∀ x, x ≠ e → m' !! x = heap c !! x) as Hne by (intros x Hx; unfold m'; case_match; by rewrite ?lookup_delete_ne, ?lookup_insert_ne by done).
  assert (m' !! e = if held e =? 0 then None else Some (set_refs false (held e) h)) as Heq by (unfold m'; case_match; by rewrite ?lookup_delete_eq, ?lookup_insert_eq).
  split; [|split; [|by split_and!]].
  - unfold FinishErase. rewrite Hh. cbn [mbind option_bind]. rewrite Hc. cbn [negb]. unfold Unref.
    cbn [heap set_table set_heap LRU_Remove set_lists usage_ capacity_ lru_ in_use_ table_ fresh deleted]. rewrite lookup_insert_eq. cbn [mbind option_bind].
    cbn [h_refs set_refs h_in_cache h_key h_value]. rewrite (proj2 (Z.leb_gt _ _)) by lia. rewrite insert_insert_eq.
    replace (h_refs h - 1) with (held e) by lia. unfold c', m'. destruct (Z.eqb_spec (held e) 0) as [E|E].
    + cbn [mbind option_bind]. rewrite delete_insert_eq. done.
    + cbn [andb mbind option_bind]. by rewrite app_nil_r.
  - assert (lru_ c ++ in_use_ c ≡ₚ e :: lru_ c' ++ in_use_ c') as Hp.
    { cbn [lru_ in_use_ c']. rewrite <- filter_app. apply remove_one; [apply Hi|done]. }
    pose proof (iv_nodup _ _ _ Hi) as Hnd. rewrite Hp in Hnd. apply NoDup_cons in Hnd as [Hnin Hnd].
    split; cbn [heap c' lru_ in_use_ table_ usage_ deleted fresh].
    + intros x hx. destruct (decide (x = e)) as [->|Hx]; [|rewrite Hne by done; apply (iv_heap _ _ _ Hi)]. rewrite Heq.
      destruct (Z.eqb_spec (held e) 0); [done|]. intros [= <-]. cbn. split_and!; try done; lia.
    + intros x. destruct (decide (x = e)) as [->|Hx]; [|rewrite Hne by done; apply (iv_free _ _ _ Hi)]. rewrite Heq. by destruct (Z.eqb_spec (held e) 0).
    + intros x. rewrite list_elem_of_filter, (iv_lru _ _ _ Hi). destruct (decide (x = e)) as [->|Hx]; [|rewrite Hne by done; naive_solver].
      rewrite Heq. split; [by intros [? _]|]. destruct (held e =? 0); [by intros (? & ? & _)|]. intros (? & [= <-] & ? & _). done.
    + intros x. rewrite list_elem_of_filter, (iv_in_use _ _ _ Hi). destruct (decide (x = e)) as [->|Hx]; [|rewrite Hne by done; naive_solver].
      rewrite Heq. split; [by intros [? _]|]. destruct (held e =? 0); [by intros (? & ? & _)|]. intros (? & [= <-] & ? & _). done.
    + exact Hnd.
    + apply (table_wf_heap hashf (heap c)); [|apply Hi]. intros x hx Hx Hhx. exists hx. rewrite Hne; [done|]. intros ->.
      pose proof (iv_nodup _ _ _ Hi) as Hnd'. rewrite (iv_members _ _ _ Hi) in Hnd'. by apply NoDup_cons in Hnd' as [? _].
    + apply (Permutation_cons_inv (a := e)). change (e :: lru_ c' ++ in_use_ c' ≡ₚ [e] ++ mjoin (list_ (table_ c))). rewrite <- Hp. apply Hi.
    + rewrite (iv_usage _ _ _ Hi), u64_sub, (charges_perm _ _ _ Hp). cbn [charges fmap list_fmap foldr]. fold (charges (heap c) (lru_ c' ++ in_use_ c')).
      unfold charge_of at 1. rewrite Hh. cbn [fmap option_fmap option_map default from_option]. unfold id.
      replace (h_charge h + charges (heap c) (lru_ c' ++ in_use_ c') - h_charge h) with (charges (heap c) (lru_ c' ++ in_use_ c')) by lia. f_equal.
      symmetry. apply charges_heap. intros x Hx. unfold charge_of. rewrite Hne; [done|]. by intros ->.
    + rewrite !fmap_app. destruct (held e =? 0); [|by rewrite app_nil_r; apply Hi]. cbn. apply NoDup_app. split_and!; [apply Hi| |apply NoDup_singleton].
      intros x Hx ->%list_elem_of_singleton. pose proof (iv_dead _ _ _ Hi e Hx). congruence.
    + intros x. rewrite (iv_alive _ _ _ Hi), !fmap_app, elem_of_app. destruct (decide (x = e)) as [->|Hx].
      * rewrite Heq, Hh. split; intros _; [|left; by eexists]. destruct (held e =? 0); cbn; [right; right; by left|left; by eexists].
      * rewrite Hne by done. destruct (held e =? 0); cbn; [rewrite list_elem_of_singleton; tauto|]. split; [tauto|]. intros [?|[?|?%not_elem_of_nil]]; tauto.
    + intros x. rewrite !fmap_app, elem_of_app. destruct (decide (x = e)) as [->|Hx].
      * rewrite Heq. destruct (held e =? 0); [done|]. cbn. intros [Hx|Hx]; [|by apply not_elem_of_nil in Hx]. pose proof (iv_dead _ _ _ Hi e Hx). congruence.
      * rewrite Hne by done. intros [Hd|Hd]; [by apply (iv_dead _ _ _ Hi)|]. destruct (held e =? 0); cbn in Hd; [by apply list_elem_of_singleton in Hd|by apply not_elem_of_nil in Hd].
Qed.

(** An entry changes its references, and its place in the lists with them. *)
Lemma rerefs_inv c held e h n lru in_use :
  inv [] c held → heap c !! e = Some h → 0 ≤ n → 0 < b2z (h_in_cache h) + n < 2 ^ 32 →
  lru ++ in_use ≡ₚ lru_ c ++ in_use_ c →
  (∀ x, x ≠ e → (x ∈ lru ↔ x ∈ lru_ c) ∧ (x ∈ in_use ↔ x ∈ in_use_ c)) →
  (e ∈ lru ↔ h_in_cache h = true ∧ n = 0) → (e ∈ in_use ↔ h_in_cache h = true ∧ 0 < n) →
  inv [] (set_heap (<[e := set_refs (h_in_cache h) (b2z (h_in_cache h) + n) h]> (heap c)) (set_lists lru in_use c)) (upd held e n).
Proof.
  intros Hi Hh Hn Hr Hp Hx He1 He2. destruct (iv_heap _ _ _ Hi e h Hh) as (_ & _ & _ & Hhash').
  split; cbn [heap set_heap set_lists lru_ in_use_ table_ usage_ deleted fresh].
  - intros x hx. unfold upd. destruct (decide (x = e)) as [->|Hne]; [rewrite lookup_insert_eq|rewrite lookup_insert_ne by done; apply (iv_heap _ _ _ Hi)].
    intros [= <-]. cbn. split_and!; try done; lia.
  - intros x. unfold upd. destruct (decide (x = e)) as [->|Hne]; [by rewrite lookup_insert_eq|rewrite lookup_insert_ne by done; apply (iv_free _ _ _ Hi)].
  - intros x. destruct (decide (x = e)) as [->|Hne].
    + rewrite He1, lookup_insert_eq. split; [intros [Hc ->]; eexists; split; [done|]; cbn; rewrite Hc; by split_and!|].
      intros (? & [= <-] & Hc & E). cbn in *. rewrite Hc in E. cbn in E. split; [done|lia].
    + rewrite lookup_insert_ne by done. rewrite (proj1 (Hx x Hne)). apply (iv_lru _ _ _ Hi).
  - intros x. destruct (decide (x = e)) as [->|Hne].
    + rewrite He2, lookup_insert_eq. split; [intros [Hc ?]; eexists; split; [done|]; cbn; rewrite Hc; cbn; split; [done|lia]|].
      intros (? & [= <-] & Hc & E). cbn in *. rewrite Hc in E. cbn in E. split; [done|lia].
    + rewrite lookup_insert_ne by done. rewrite (proj2 (Hx x Hne)). apply (iv_in_use _ _ _ Hi).
  - rewrite Hp. apply Hi.
  - apply (table_wf_heap hashf (heap c)); [|apply Hi]. intros x hx Hxt Hhx. destruct (decide (x = e)) as [->|Hne]; [|exists hx; by rewrite lookup_insert_ne].
    rewrite lookup_insert_eq. eexists. split; [done|]. rewrite Hh in Hhx. by injection Hhx as <-.
  - rewrite Hp. apply Hi.
  - rewrite (charges_perm _ _ _ Hp), (iv_usage _ _ _ Hi). f_equal. symmetry. apply charges_heap. intros x _. unfold charge_of.
    destruct (decide (x = e)) as [->|Hne]; [by rewrite lookup_insert_eq, Hh|by rewrite lookup_insert_ne].
  - apply Hi.
  - intros x. rewrite (iv_alive _ _ _ Hi). destruct (decide (x = e)) as [->|Hne]; [rewrite lookup_insert_eq, Hh|by rewrite lookup_insert_ne].
    split; intros _; left; by eexists.
  - intros x Hd. destruct (decide (x = e)) as [->|Hne]; [|rewrite lookup_insert_ne by done; by apply (iv_dead _ _ _ Hi)].
    pose proof (iv_dead _ _ _ Hi e Hd). congruence.
Qed.

(** The entries but their reference counts. *)
Definition same_entries c c' : Prop :=
  ∀ x, (h_key <$> heap c' !! x) = (h_key <$> heap c !! x) ∧ (h_value <$> heap c' !! x) = (h_value <$> heap c !! x) ∧
    (h_charge <$> heap c' !! x) = (h_charge <$> heap c !! x) ∧ (h_in_cache <$> heap c' !! x) = (h_in_cache <$> heap c !! x).

Lemma same_set_refs c e h n lru in_use :
  heap c !! e = Some h → same_entries c (set_heap (<[e := set_refs (h_in_cache h) n h]> (heap c)) (set_lists lru in_use c)).
Proof. intros Hh x. cbn. destruct (decide (x = e)) as [->|Hne]; [by rewrite lookup_insert_eq, Hh|by rewrite lookup_insert_ne]. Qed.

Lemma filter_out (l : list nat) e : e ∉ l → filter (λ x, x ≠ e) l = l.
Proof.
  induction l as [|x l IH]; [done|]. intros [? ?]%not_elem_of_cons. rewrite filter_cons_True by auto. by rewrite IH.
Qed.

Lemma set_lists_twice c lru in_use lru' in_use' : set_lists lru in_use (set_lists lru' in_use' c) = set_lists lru in_use c.
Proof. done. Qed.

Lemma Ref_ok c held e h :
  inv [] c held → heap c !! e = Some h → h_in_cache h = true → held e + 2 < 2 ^ 32 →
  ∃ c', Ref e c = Some c' ∧ inv [] c' (upd held e (held e + 1)) ∧ same_entries c c' ∧ table_ c' = table_ c ∧ capacity_ c' = capacity_ c ∧ usage_ c' = usage_ c ∧
    lru_ c' = filter (λ x, x ≠ e) (lru_ c) ∧ deleted c' = deleted c ∧ fresh c' = fresh c.
Proof.
  intros Hi Hh Hc Hlt. destruct (iv_heap _ _ _ Hi e h Hh) as (Hr & Hh0 & Hr0 & _). rewrite Hc in Hr. cbn in Hr. unfold Ref. rewrite Hh. cbn [mbind option_bind]. rewrite Hc, andb_true_r.
  assert (u32 (h_refs h + 1) = b2z (h_in_cache h) + (held e + 1)) as -> by (rewrite u32_id; [rewrite Hc; cbn; lia|unfold u32_ok; lia]).
  pose proof (iv_nodup _ _ _ Hi) as (Hnd1 & Hdisj & Hnd2)%NoDup_app.
  destruct (Z.eqb_spec (h_refs h) 1) as [E|E].
  - assert (e ∈ lru_ c) as Hin by (apply (iv_lru _ _ _ Hi); eauto). assert (e ∉ in_use_ c) as Hnin by (by apply Hdisj).
    eexists. split; [done|]. unfold Append_in_use, LRU_Remove. cbn [heap set_lists in_use_ lru_]. rewrite (filter_out (in_use_ c) e Hnin), set_lists_twice. rewrite <- Hc.
    split; [|split; [by apply same_set_refs|by split_and!]]. apply rerefs_inv; try done; try lia.
    + rewrite Hc. cbn. lia.
    + rewrite (remove_one (lru_ c) e Hnd1 Hin) at 2. solve_Permutation.
    + intros x Hx. rewrite list_elem_of_filter, elem_of_app, list_elem_of_singleton. tauto.
    + rewrite list_elem_of_filter. split; [by intros [? _]|]. lia.
    + rewrite elem_of_app, list_elem_of_singleton. split; [split; [done|lia]|by right].
  - assert (e ∉ lru_ c) as Hnin by (rewrite (iv_lru _ _ _ Hi); intros (? & ? & _ & ?); congruence).
    eexists. split; [done|]. rewrite <- Hc.
    assert (∀ m, set_heap m c = set_heap m (set_lists (lru_ c) (in_use_ c) c)) as Es by (by destruct c). rewrite Es.
    split; [|split; [by apply same_set_refs|split_and!; try done; cbn; by rewrite filter_out]]. apply rerefs_inv; try done; try lia.
    + rewrite Hc. cbn. lia.
    + split; [done|lia].
    + rewrite (iv_in_use _ _ _ Hi). split; [split; [done|lia]|]. intros _. exists h. split_and!; try done. lia.
Qed.

(** An entry that is not in the cache loses its last reference. *)
Lemma free_inv c held e h :
  inv [] c held → heap c !! e = Some h → h_in_cache h = false →
  inv [] {| capacity_ := capacity_ c; usage_ := usage_ c; lru_ := lru_ c; in_use_ := in_use_ c; table_ := table_ c; heap := delete e (heap c); fresh := fresh c;
            deleted := deleted c ++ [(e, h_key h, h_value h)] |} (upd held e 0).
Proof.
  intros Hi Hh Hc.
  assert (e ∉ lru_ c ++ in_use_ c) as Hnin by (intros (h' & Hh' & Hc')%(in_lists _ _ _ _ Hi); congruence).
  pose proof Hnin as [Hn1 Hn2]%not_elem_of_app.
  split; cbn [heap lru_ in_use_ table_ usage_ deleted fresh].
  - intros x hx. unfold upd. destruct (decide (x = e)) as [->|Hne]; [by rewrite lookup_delete_eq|rewrite lookup_delete_ne by done; apply (iv_heap _ _ _ Hi)].
  - intros x. unfold upd. destruct (decide (x = e)) as [->|Hne]; [done|rewrite lookup_delete_ne by done; apply (iv_free _ _ _ Hi)].
  - intros x. destruct (decide (x = e)) as [->|Hne]; [|rewrite lookup_delete_ne by done; apply (iv_lru _ _ _ Hi)].
    rewrite lookup_delete_eq. split; [done|]. by intros (? & ? & _).
  - intros x. destruct (decide (x = e)) as [->|Hne]; [|rewrite lookup_delete_ne by done; apply (iv_in_use _ _ _ Hi)].
    rewrite lookup_delete_eq. split; [done|]. by intros (? & ? & _).
  - apply Hi.
  - apply (table_wf_heap hashf (heap c)); [|apply Hi]. intros x hx Hx Hhx. exists hx. rewrite lookup_delete_ne; [done|]. intros <-.
    apply Hnin. by rewrite (iv_members _ _ _ Hi).
  - apply Hi.
  - rewrite (iv_usage _ _ _ Hi). f_equal. symmetry. apply charges_heap. intros x Hx. unfold charge_of. rewrite lookup_delete_ne; [done|]. by intros <-.
  - rewrite !fmap_app. cbn. apply NoDup_app. split_and!; [apply Hi| |apply NoDup_singleton]. intros x Hx ->%list_elem_of_singleton.
    pose proof (iv_dead _ _ _ Hi e Hx). congruence.
  - intros x. rewrite (iv_alive _ _ _ Hi), !fmap_app, elem_of_app. cbn. rewrite list_elem_of_singleton. destruct (decide (x = e)) as [->|Hne].
    + rewrite lookup_delete_eq, Hh. split; intros _; [by right; right|left; by eexists].
    + rewrite lookup_delete_ne by done. tauto.
  - intros x. rewrite !fmap_app, elem_of_app. cbn. rewrite list_elem_of_singleton. destruct (decide (x = e)) as [->|Hne]; [by rewrite lookup_delete_eq|].
    rewrite lookup_delete_ne by done. intros [?|?]; [by apply (iv_dead _ _ _ Hi)|done].
Qed.

Lemma Release_ok c held e :
  inv [] c held → 0 < held e →
  ∃ h c', heap c !! e = Some h ∧ Release e c = Some c' ∧ inv [] c' (upd held e (held e - 1)) ∧
    table_ c' = table_ c ∧ capacity_ c' = capacity_ c ∧ usage_ c' = usage_ c ∧ fresh c' = fresh c ∧
    (if (held e =? 1) && negb (h_in_cache h)
     then heap c' = delete e (heap c) ∧ lru_ c' = lru_ c ∧ deleted c' = deleted c ++ [(e, h_key h, h_value h)]
     else same_entries c c' ∧ deleted c' = deleted c ∧ lru_ c' = lru_ c ++ (if held e =? 1 then [e] else [])).
Proof.
  intros Hi Hpos. destruct (heap c !! e) as [h|] eqn:Hh; [|rewrite (iv_free _ _ _ Hi e Hh) in Hpos; lia]. exists h.
  destruct (iv_heap _ _ _ Hi e h Hh) as (Hr & _ & Hr0 & _). unfold Release, Unref. rewrite Hh. cbn [mbind option_bind]. rewrite (proj2 (Z.leb_gt _ _)) by lia.
  cbn [set_refs h_in_cache h_key h_value]. pose proof (iv_nodup _ _ _ Hi) as (Hnd1 & Hdisj & Hnd2)%NoDup_app.
  assert (∀ m, set_heap m c = set_heap m (set_lists (lru_ c) (in_use_ c) c)) as Es by (by destruct c).
  destruct (h_in_cache h) eqn:Hc; cbn [b2z] in Hr.
  - rewrite (proj2 (Z.eqb_neq _ _)) by lia. rewrite andb_false_r. cbn [andb]. assert (e ∈ in_use_ c) as Hin by (apply (iv_in_use _ _ _ Hi); exists h; split_and!; try done; lia).
    assert (e ∉ lru_ c) as Hnin by (intros Hx; by apply (Hdisj e)).
    assert (h_refs h - 1 = b2z (h_in_cache h) + (held e - 1)) as -> by (rewrite Hc; cbn; lia). destruct (Z.eqb_spec (held e) 1) as [E|E].
    + rewrite (proj2 (Z.eqb_eq _ _)) by (rewrite Hc; cbn; lia). unfold Append_lru, LRU_Remove. cbn [set_heap set_lists lru_ in_use_ heap]. rewrite (filter_out (lru_ c) e Hnin).
      eexists. split; [done|]. split; [done|]. rewrite <- Hc.
      match goal with |- inv _ ?cc _ ∧ _ => change cc with (set_heap (<[e := set_refs (h_in_cache h) (b2z (h_in_cache h) + (held e - 1)) h]> (heap c))
        (set_lists (lru_ c ++ [e]) (filter (λ x, x ≠ e) (in_use_ c)) c)) end.
      split; [|split_and!; try done; by apply same_set_refs]. apply rerefs_inv; try done; try lia.
      * rewrite Hc. cbn. lia.
      * rewrite (remove_one (in_use_ c) e Hnd2 Hin) at 2. solve_Permutation.
      * intros x Hx. rewrite list_elem_of_filter, elem_of_app, list_elem_of_singleton. tauto.
      * rewrite elem_of_app, list_elem_of_singleton. split; [split; [done|lia]|by right].
      * rewrite list_elem_of_filter. split; [by intros [? _]|]. lia.
    + rewrite (proj2 (Z.eqb_neq _ _)) by (rewrite Hc; cbn; lia). eexists. split; [done|]. split; [done|]. rewrite <- Hc, Es, app_nil_r.
      split; [|split_and!; try done; by apply same_set_refs]. apply rerefs_inv; try done; try lia.
      * rewrite Hc. cbn. lia.
      * split; [done|]. lia.
      * split; [split; [done|lia]|done].
  - cbn [andb negb]. rewrite andb_true_r. assert (e ∉ lru_ c ++ in_use_ c) as Hnin by (intros (h' & Hh' & Hc')%(in_lists _ _ _ _ Hi); congruence).
    replace (h_refs h - 1) with (held e - 1) by lia. destruct (Z.eqb_spec (held e) 1) as [E|E].
    + rewrite (proj2 (Z.eqb_eq _ _)) by lia. eexists. split; [done|]. split; [done|]. cbn [set_heap heap capacity_ usage_ lru_ in_use_ table_ fresh deleted].
      rewrite delete_insert_eq. replace (held e - 1) with 0 by lia. split; [by apply free_inv|by split_and!].
    + rewrite (proj2 (Z.eqb_neq _ _)) by lia. eexists. split; [done|]. split; [done|]. rewrite app_nil_r, Es. apply not_elem_of_app in Hnin as [Hn1 Hn2].
      assert (set_refs false (held e - 1) h = set_refs (h_in_cache h) (b2z (h_in_cache h) + (held e - 1)) h) as -> by (by rewrite Hc).
      split; [|split_and!; try done; by apply same_set_refs]. apply rerefs_inv; try done; try lia.
      * rewrite Hc. cbn. lia.
      * rewrite Hc. split; [done|by intros [? _]].
      * rewrite Hc. split; [done|by intros [? _]].
Qed.

(** The key under which the cache holds an entry. *)
Definition holds c (k : bytes) (e : nat) (v : V) : Prop := ∃ h, heap c !! e = Some h ∧ h_in_cache h = true ∧ h_key h = k ∧ h_value h = v.

Lemma holds_key c held k e e' v v' : inv [] c held → holds c k e v → holds c k e' v' → e = e'.
Proof.
  intros Hi (h & Hh & Hc & Hk & _) (h' & Hh' & Hc' & Hk' & _). apply (tw_keys _ _ _ (iv_table _ _ _ Hi) e e' h h'); try done; [apply (in_table c held e Hi)|apply (in_table c held e' Hi)|congruence]; eauto.
Qed.

(** An entry is taken out of the table. *)
Lemma Remove_inv c held key :
  inv [] c held → ∃ r t', HT_Remove (heap c) (table_ c) key (hashf key) = (r, t') ∧
    match r with
    | Some e => inv [e] (set_table t' (usage_ c) c) held ∧ ∃ v, holds c key e v
    | None => t' = table_ c ∧ ∀ e v, ¬ holds c key e v
    end.
Proof.
  intros Hi. destruct (HT_Remove_ok hashf Hhash (heap c) (table_ c) key (iv_table _ _ _ Hi)) as (r & t' & E & Ht' & Hr). exists r, t'. split; [done|].
  destruct r as [e|].
  - destruct Hr as (Hin & (h & Hh & Hk) & Hp). apply (in_table c held e Hi) in Hin as (h' & Hh' & Hc). rewrite Hh in Hh'. injection Hh' as <-.
    split; [|exists (h_value h), h; by split_and!]. split; cbn [set_table heap lru_ in_use_ table_ usage_ deleted fresh]; try apply Hi; [done|].
    rewrite (iv_members _ _ _ Hi). exact Hp.
  - destruct Hr as [-> Hno]. split; [done|]. intros e v (h & Hh & Hc & Hk & _). apply (Hno e h); try done. apply (in_table c held e Hi). eauto.
Qed.

Lemma EvictOldest_ok c held old rest :
  inv [] c held → lru_ c = old :: rest →
  ∃ h c', heap c !! old = Some h ∧ EvictOldest old c = Some c' ∧ inv [] c' held ∧ lru_ c' = rest ∧ in_use_ c' = in_use_ c ∧
    capacity_ c' = capacity_ c ∧ fresh c' = fresh c ∧ usage_ c' = u64 (usage_ c - h_charge h) ∧ (∀ x, heap c' !! x = delete old (heap c) !! x) ∧
    deleted c' = deleted c ++ [(old, h_key h, h_value h)].
Proof.
  intros Hi El. assert (old ∈ lru_ c) as Hin by (rewrite El; by left). pose proof Hin as (h & Hh & Hc & Hr)%(iv_lru _ _ _ Hi).
  destruct (iv_heap _ _ _ Hi old h Hh) as (Hr' & _ & _ & Hhash'). rewrite Hc in Hr'. cbn in Hr'.
  assert (holds c (h_key h) old (h_value h)) as Hold by (exists h; by split_and!).
  unfold EvictOldest. rewrite Hh. cbn [mbind option_bind]. rewrite Hr, Hhash'. cbn [Z.eqb Pos.eqb negb].
  destruct (Remove_inv c held (h_key h) Hi) as (r & t' & -> & Hrem). destruct r as [e|]; [|by destruct (proj2 Hrem old (h_value h))].
  destruct Hrem as [Hi1 (v & He)]. rewrite (holds_key c held _ e old v (h_value h) Hi He Hold) in *. clear e He.
  destruct (FinishErase_ok _ _ _ Hi1) as (h1 & c' & Hh1 & _ & -> & Hi' & Ecap & Efr & _ & Eus & Elru & Euse & Hne & Heq & Hdel). cbn [set_table heap capacity_ usage_ lru_ in_use_ fresh deleted] in *.
  rewrite Hh in Hh1. injection Hh1 as <-. cbn [mbind option_bind]. exists h, c'. rewrite (proj2 (Z.eqb_eq (held old) 0)) in Heq, Hdel by lia.
  pose proof (iv_nodup _ _ _ Hi) as (Hnd & Hdisj & _)%NoDup_app.
  split_and!; try done.
  - rewrite Elru, El, filter_cons_False by auto. apply filter_out. rewrite El in Hnd. by apply NoDup_cons in Hnd as [? _].
  - rewrite Euse. apply filter_out. by apply Hdisj.
  - intros x. destruct (decide (x = old)) as [->|Hx]; [by rewrite lookup_delete_eq|]. by rewrite lookup_delete_ne, Hne.
Qed.

(** The loops of [Insert] and [Prune]: the oldest entries go. *)
Record evicted (c c' : LRUCache V) (es : list nat) : Prop := {
  ev_lru : lru_ c = es ++ lru_ c';
  ev_in_use : in_use_ c' = in_use_ c;
  ev_capacity : capacity_ c' = capacity_ c;
  ev_fresh : fresh c' = fresh c;
  ev_heap x : heap c' !! x = if decide (x ∈ es) then None else heap c !! x;
  ev_usage : usage_ c' = u64 (usage_ c - charges (heap c) es);
  ev_deleted : (deleted c').*1.*1 = (deleted c).*1.*1 ++ es
}.

Lemma usage_ok gone c held : inv gone c held → u64 (usage_ c) = usage_ c.
Proof. intros Hi. rewrite (iv_usage _ _ _ Hi). unfold u64. by rewrite Z.mod_mod. Qed.

Lemma evicted_refl gone c held : inv gone c held → evicted c c [].
Proof. intros Hi. split; try done; [by cbn; rewrite Z.sub_0_r, (usage_ok _ _ _ Hi)|by rewrite app_nil_r]. Qed.

Lemma evicted_step c c1 c2 old h es :
  NoDup (lru_ c) → heap c !! old = Some h → usage_ c1 = u64 (usage_ c - h_charge h) →
  lru_ c = old :: lru_ c1 → in_use_ c1 = in_use_ c → capacity_ c1 = capacity_ c → fresh c1 = fresh c → (∀ x, heap c1 !! x = delete old (heap c) !! x) →
  deleted c1 = deleted c ++ [(old, h_key h, h_value h)] → evicted c1 c2 es → evicted c c2 (old :: es).
Proof.
  intros Hnd Hold Eus El Eu Ec Ef Hh Hd [H1 H2 H3 H4 H5 H7 H6]. split; try congruence.
  - by rewrite El, H1.
  - intros x. rewrite H5. destruct (decide (x = old)) as [->|Hne].
    + rewrite Hh, lookup_delete_eq. rewrite (decide_True (P := old ∈ old :: es)) by (by left). by case_decide.
    + rewrite Hh, lookup_delete_ne by done. destruct (decide (x ∈ es)); case_decide as Hx; try done; [destruct Hx; by right|by apply elem_of_cons in Hx as [|]].
  - rewrite H7, Eus, u64_sub. cbn [charges fmap list_fmap foldr]. fold (charges (heap c) es). unfold charge_of at 1. rewrite Hold. cbn. unfold id.
    rewrite (charges_heap (heap c) (heap c1)); [f_equal; lia|]. intros x Hx. unfold charge_of. rewrite Hh, lookup_delete_ne; [done|]. intros <-.
    rewrite El, H1 in Hnd. apply NoDup_cons in Hnd as [Hnd _]. apply Hnd, elem_of_app. by left.
  - rewrite H6, Hd, !fmap_app. cbn. by rewrite <- app_assoc.
Qed.

Lemma EvictLoop_ok held fuel : ∀ c, inv [] c held → (length (lru_ c) ≤ fuel)%nat →
  ∃ c' es, EvictLoop fuel c = Some c' ∧ inv [] c' held ∧ evicted c c' es ∧ (usage_ c' ≤ capacity_ c' ∨ lru_ c' = []) ∧
    ∀ x, last es = Some x → capacity_ c < u64 (usage_ c' + charge_of (heap c) x).
Proof.
  induction fuel as [|fuel IH]; intros c Hi Hf; cbn [EvictLoop]; rewrite Z.gtb_ltb; destruct (Z.ltb_spec (capacity_ c) (usage_ c)) as [Hu|Hu].
  - destruct (lru_ c) as [|old rest] eqn:El; [|cbn in Hf; lia]. exists c, []. split_and!; try done; [by apply (evicted_refl [] c held)|by right].
  - exists c, []. split_and!; try done; [by apply (evicted_refl [] c held)|by left].
  - destruct (lru_ c) as [|old rest] eqn:El. { exists c, []. split_and!; try done; [by apply (evicted_refl [] c held)|by right]. }
    destruct (EvictOldest_ok c held old rest Hi El) as (h & c1 & Hh & -> & Hi1 & El1 & Eu1 & Ec1 & Ef1 & Eus & Hh1 & Hd1). cbn [mbind option_bind].
    destruct (IH c1 Hi1) as (c' & es & -> & Hi' & Hev & Hfin & Hlast); [rewrite El1; cbn in Hf; lia|]. exists c', (old :: es). split; [done|]. split; [done|].
    rewrite <- El1 in El. pose proof (iv_nodup _ _ _ Hi) as (Hnd & _ & _)%NoDup_app. pose proof (evicted_step c c1 c' old h es Hnd Hh Eus El Eu1 Ec1 Ef1 Hh1 Hd1 Hev) as Hev'.
    split; [done|]. split; [done|]. intros x Hx. destruct es as [|y es].
    + injection Hx as <-. rewrite (ev_usage _ _ _ Hev'). cbn [charges fmap list_fmap foldr]. rewrite Z.add_0_r, u64_plus, Z.sub_add, (usage_ok _ _ _ Hi). done.
    + specialize (Hlast x Hx). rewrite Ec1 in Hlast. unfold charge_of in *. rewrite Hh1, lookup_delete_ne in Hlast; [done|]. intros <-.
      rewrite El, (ev_lru _ _ _ Hev) in Hnd. apply NoDup_cons in Hnd as [Hnd _]. apply Hnd, elem_of_app. left. by apply last_Some_elem_of.
  - exists c, []. split_and!; try done; [by apply (evicted_refl [] c held)|by left].
Qed.
Lemma fresh_free gone c held e : inv gone c held → (fresh c ≤ e)%nat → heap c !! e = None ∧ e ∉ (deleted c).*1.*1 ∧ held e = 0.
Proof.
  intros Hi He. assert (¬ (is_Some (heap c !! e) ∨ e ∈ (deleted c).*1.*1)) as H by (rewrite <- (iv_alive _ _ _ Hi); lia).
  assert (heap c !! e = None) as Hn by (destruct (heap c !! e) eqn:E; [|done]; destruct H; left; by eexists).
  split_and!; [done|by intros ?; apply H; right|by apply (iv_free _ _ _ Hi)].
Qed.

(** A new entry, which the caller holds. *)
Lemma alloc_inv gone c held h t' :
  inv [] c held → h_refs h = b2z (h_in_cache h) + 1 → h_hash h = hashf (h_key h) → table_wf hashf (<[fresh c := h]> (heap c)) t' →
  lru_ c ++ in_use_ c ++ (if h_in_cache h then [fresh c] else []) ≡ₚ gone ++ mjoin (list_ t') →
  inv gone {| capacity_ := capacity_ c; usage_ := if h_in_cache h then u64 (usage_ c + h_charge h) else usage_ c; lru_ := lru_ c;
    in_use_ := in_use_ c ++ (if h_in_cache h then [fresh c] else []); table_ := t'; heap := <[fresh c := h]> (heap c); fresh := S (fresh c); deleted := deleted c |}
    (upd held (fresh c) 1).
Proof.
  intros Hi Hr Hhash' Ht Hp. destruct (fresh_free _ _ _ (fresh c) Hi ltac:(lia)) as (Hn & Hnd & _). set (e := fresh c) in *.
  assert (e ∉ lru_ c ++ in_use_ c) as Hnin by (intros (h' & Hh' & _)%(in_lists _ _ _ _ Hi); congruence). pose proof Hnin as [Hn1 Hn2]%not_elem_of_app.
  assert (∀ x, x ∈ (if h_in_cache h then [e] else []) ↔ h_in_cache h = true ∧ x = e) as Hx.
  { intros x. destruct (h_in_cache h); [rewrite list_elem_of_singleton; tauto|]. split; [by intros ?%not_elem_of_nil|by intros [? _]]. }
  split; cbn [heap lru_ in_use_ table_ usage_ deleted fresh].
  - intros x hx. unfold upd. destruct (decide (x = e)) as [->|Hne]; [rewrite lookup_insert_eq|rewrite lookup_insert_ne by done; apply (iv_heap _ _ _ Hi)].
    intros [= <-]. split_and!; try done; destruct (h_in_cache h); cbn in *; lia.
  - intros x. unfold upd. destruct (decide (x = e)) as [->|Hne]; [by rewrite lookup_insert_eq|rewrite lookup_insert_ne by done; apply (iv_free _ _ _ Hi)].
  - intros x. destruct (decide (x = e)) as [->|Hne]; [rewrite lookup_insert_eq|rewrite lookup_insert_ne by done; apply (iv_lru _ _ _ Hi)].
    split; [done|]. intros (? & [= <-] & Hc & E). rewrite Hc in Hr. cbn in Hr. lia.
  - intros x. rewrite elem_of_app, Hx. destruct (decide (x = e)) as [->|Hne]; [rewrite lookup_insert_eq|rewrite lookup_insert_ne, <- (iv_in_use _ _ _ Hi) by done; tauto].
    split; [intros [?|[Hc _]]; [done|]; exists h; rewrite Hc in Hr; cbn in Hr; split_and!; try done; lia|]. intros (? & [= <-] & Hc & _). by right.
  - rewrite app_assoc. apply NoDup_app. split_and!; [apply Hi| |destruct (h_in_cache h); [apply NoDup_singleton|constructor]].
    intros x Hx1 [_ ->]%Hx. done.
  - done.
  - done.
  - rewrite app_assoc. destruct (h_in_cache h).
    + rewrite (charges_perm _ _ (e :: lru_ c ++ in_use_ c)) by solve_Permutation. cbn [charges fmap list_fmap foldr]. fold (charges (<[e := h]> (heap c)) (lru_ c ++ in_use_ c)).
      unfold charge_of at 1. rewrite lookup_insert_eq. cbn. unfold id. rewrite (charges_heap (heap c)), (iv_usage _ _ _ Hi), u64_plus; [f_equal; lia|].
      intros x Hxl. unfold charge_of. rewrite lookup_insert_ne; [done|]. by intros <-.
    + rewrite app_nil_r, (iv_usage _ _ _ Hi). f_equal. symmetry. apply charges_heap. intros x Hxl. unfold charge_of. rewrite lookup_insert_ne; [done|]. by intros <-.
  - apply Hi.
  - intros x. destruct (decide (x = e)) as [->|Hne]; [rewrite lookup_insert_eq|rewrite lookup_insert_ne by done].
    + split; [intros _; left; by eexists|lia].
    + rewrite <- (iv_alive _ _ _ Hi). unfold e in *. lia.
  - intros x Hd. rewrite lookup_insert_ne; [by apply (iv_dead _ _ _ Hi)|]. by intros <-.
Qed.

Lemma filter_ext_in {A} (P Q : A → Prop) `{∀ x, Decision (P x), ∀ x, Decision (Q x)} (l : list A) :
  (∀ x, x ∈ l → P x ↔ Q x) → filter P l = filter Q l.
Proof.
  induction l as [|x l IH]; intros Hx; [done|]. pose proof (Hx x ltac:(by left)). rewrite !filter_cons, IH by (intros y Hy; apply Hx; by right).
  repeat case_decide; tauto.
Qed.

(** The entry after [Insert], before the cache shrinks: an entry with the same
    key has been replaced. *)
Lemma Insert_shape c held key value charge e cached h :
  inv [] c held → elems_ (table_ c) < 2 ^ 31 → fresh c = e → (capacity_ c >? 0) = cached →
  h = {| h_key := key; h_value := value; h_charge := charge; h_in_cache := cached; h_refs := if cached then 2 else 1; h_hash := hashf key |} →
  ∃ c1, Insert key (hashf key) value charge c = (c' ← EvictLoop (length (lru_ c1)) c1; Some (e, c')) ∧ inv [] c1 (upd held e 1) ∧
    heap c1 !! e = Some h ∧ capacity_ c1 = capacity_ c ∧ fresh c1 = S (fresh c) ∧
    lru_ c1 = filter (λ x, cached = false ∨ (h_key <$> heap c !! x) ≠ Some key) (lru_ c) ∧
    (∀ x hx, x ≠ e → heap c1 !! x = Some hx → ∃ h0, heap c !! x = Some h0 ∧ h_key hx = h_key h0 ∧ h_value hx = h_value h0 ∧ h_charge hx = h_charge h0 ∧
       (h_in_cache hx = true → h_in_cache h0 = true ∧ (cached = true → h_key h0 ≠ key))).
Proof.
  intros Hi Hfew He Hcap Hh. unfold Insert. rewrite Hcap, He. rewrite <- Hh. destruct (fresh_free _ _ _ e Hi ltac:(by rewrite He)) as (Hn & _ & He0).
  assert (h_key h = key ∧ h_hash h = hashf key ∧ h_in_cache h = cached ∧ h_charge h = charge ∧ h_refs h = b2z cached + 1) as (Ek & Eh & Ei & Ech & Er) by (subst h; by destruct cached).
  clear Hh. destruct cached.
  all: assert (table_wf hashf (<[e := h]> (heap c)) (table_ c)) as Ht by
    (apply (table_wf_heap hashf (heap c)); [|apply Hi]; intros x hx Hx Hhx; exists hx; rewrite lookup_insert_ne; [done|]; intros <-; congruence).
  - assert (e ∉ mjoin (list_ (table_ c))) as Hnt by (intros (h' & Hh' & _)%(in_table c held e Hi); congruence).
    destruct (HT_Insert_ok hashf Hhash (<[e := h]> (heap c)) (table_ c) e h Ht ltac:(by rewrite lookup_insert_eq) ltac:(by rewrite Ek) Hnt Hfew)
      as (old & t' & rest & Hins & Ht' & Hj & Hold).
    cbn [Append_in_use set_lists heap table_ lru_ in_use_ usage_ capacity_ fresh deleted]. rewrite Hins. cbn [mbind option_bind].
    pose proof (alloc_inv (option_list old) c held h t' Hi) as Hi2. rewrite Ek, Eh, Ei, Ech, Er, He in Hi2. specialize (Hi2 eq_refl eq_refl Ht').
    match type of Hi2 with _ → inv _ ?cc _ => set (c2 := cc) in * end.
    assert (inv (option_list old) c2 (upd held e 1)) as Hi2'.
    { apply Hi2. rewrite app_assoc, (iv_members _ _ _ Hi), Hj. destruct old as [o|]; destruct Hold as [Hold _]; rewrite Hold; cbn; solve_Permutation. }
    clear Hi2. destruct old as [o|]; cbn [option_list] in Hi2'.
    + destruct Hold as (Hjo & ho & Hho & Hko). rewrite Ek in Hko. assert (o ≠ e) as Hoe by (intros ->; rewrite Hjo in Hnt; by apply Hnt; left).
      rewrite lookup_insert_ne in Hho by done. assert (o ∈ mjoin (list_ (table_ c))) as (ho' & Hho' & Hco)%(in_table c held o Hi) by (rewrite Hjo; by left).
      rewrite Hho in Hho'. injection Hho' as <-.
      destruct (FinishErase_ok _ _ _ Hi2') as (h1 & c' & Hh1 & _ & Hfe & Hi' & Ec' & Ef' & _ & _ & El & _ & Hne & Heq & _).
      cbn [heap c2] in Hh1. rewrite lookup_insert_ne, Hho in Hh1 by done. injection Hh1 as <-.
      exists c'. split; [change (set_table _ _ _) with c2; rewrite Hfe; done|]. split; [done|]. split; [rewrite Hne by done; cbn; by rewrite lookup_insert_eq|]. split; [done|]. split; [done|].
      assert (∀ x h0, x ≠ o → heap c !! x = Some h0 → h_in_cache h0 = true → h_key h0 ≠ key) as Hother.
      { intros x h0 Hx Hh0 Hc0 Hk. apply Hx. apply (holds_key c held key x o (h_value h0) (h_value ho) Hi); eexists; by split_and!. }
      split.
      * rewrite El. cbn [lru_ c2]. apply filter_ext_in. intros x (h0 & Hh0 & Hc0 & _)%(iv_lru _ _ _ Hi). rewrite Hh0. cbn.
        split; [intros Hx; right; intros [= Hk]; by apply (Hother x h0)|]. intros [?|Hx]; [done|]. intros ->. rewrite Hho in Hh0. injection Hh0 as <-. by rewrite Hko in Hx.
      * intros x hx Hx Hhx. destruct (decide (x = o)) as [->|Hxo].
        -- rewrite Heq in Hhx. destruct (upd held e 1 o =? 0); [done|]. injection Hhx as <-. exists ho. cbn. by split_and!.
        -- rewrite Hne in Hhx by done. cbn [heap c2] in Hhx. rewrite lookup_insert_ne in Hhx by done. exists hx. split_and!; try done. intros Hc. split; [done|]. intros _. by apply (Hother x).
    + destruct Hold as (Hjo & Hno). rewrite Ek in Hno. exists c2. split; [done|]. split; [done|]. split; [by cbn; rewrite lookup_insert_eq|]. split; [done|]. split; [done|].
      assert (∀ x h0, x ≠ e → heap c !! x = Some h0 → h_in_cache h0 = true → h_key h0 ≠ key) as Hother.
      { intros x h0 Hx Hh0 Hc0. apply (Hno x h0); [apply (in_table c held x Hi); eauto|by rewrite lookup_insert_ne]. }
      split.
      * cbn [lru_ c2]. rewrite <- (filter_out (lru_ c) e) at 1 by (intros (? & ? & _)%(iv_lru _ _ _ Hi); congruence). apply filter_ext_in.
        intros x (h0 & Hh0 & Hc0 & _)%(iv_lru _ _ _ Hi). rewrite Hh0. cbn. split; [intros Hx; right; intros [= Hk]; by apply (Hother x h0)|]. intros _ ->. congruence.
      * intros x hx Hx Hhx. cbn [heap c2] in Hhx. rewrite lookup_insert_ne in Hhx by done. exists hx. split_and!; try done. intros Hc. split; [done|]. intros _. by apply (Hother x).
  - pose proof (alloc_inv [] c held h (table_ c) Hi) as Hi2. rewrite Ek, Eh, Ei, Er, He in Hi2. specialize (Hi2 eq_refl eq_refl Ht).
    match type of Hi2 with _ → inv _ ?cc _ => set (c2 := cc) in * end.
    assert (inv [] c2 (upd held e 1)) as Hi2' by (apply Hi2; rewrite app_nil_r; apply Hi). clear Hi2.
    exists c2. split; [unfold c2; by rewrite app_nil_r|]. split; [done|]. split; [by cbn; rewrite lookup_insert_eq|]. split; [done|]. split; [done|]. split.
    + cbn [lru_ c2]. rewrite <- (filter_out (lru_ c) e) at 1 by (intros (? & ? & _)%(iv_lru _ _ _ Hi); congruence). apply filter_ext_in.
      intros x (h0 & Hh0 & Hc0 & _)%(iv_lru _ _ _ Hi). split; [by left|]. intros _ ->. congruence.
    + intros x hx Hx Hhx. cbn [heap c2] in Hhx. rewrite lookup_insert_ne in Hhx by done. exists hx. by split_and!.
Qed.

(** ** Lemmas: the operations *)

(** What an operation promises, of the state before and after it. *)
Definition answers (o : CacheOp V) (r : option nat) c c' held : Prop :=
  match o with
  | OpInsert k v charge =>
      ∃ e es, r = Some e ∧ e = fresh c ∧ (∃ h, heap c' !! e = Some h ∧ h_key h = k ∧ h_value h = v) ∧
        (0 < capacity_ c → holds c' k e v) ∧
        (∀ k' e' v', holds c' k' e' v' → (k' = k ∧ e' = e ∧ v' = v) ∨ (holds c k' e' v' ∧ (0 < capacity_ c → k' ≠ k))) ∧
        (usage_ c' ≤ capacity_ c' ∨ lru_ c' = []) ∧
        filter (λ x, (capacity_ c >? 0) = false ∨ (h_key <$> heap c !! x) ≠ Some k) (lru_ c) = es ++ lru_ c' ∧
        (∀ x, last es = Some x → capacity_ c < u64 (usage_ c' + charge_of (heap c) x))
  | OpLookup k => (∀ e, r = Some e ↔ ∃ v, holds c k e v) ∧ (∀ k' e' v', holds c' k' e' v' ↔ holds c k' e' v')
  | OpRelease e => r = None ∧ ∀ k' e' v', holds c' k' e' v' ↔ holds c k' e' v'
  | OpErase k => r = None ∧ ∀ k' e' v', holds c' k' e' v' ↔ holds c k' e' v' ∧ k' ≠ k
  | OpPrune => r = None ∧ lru_ c' = [] ∧ ∀ k' e' v', holds c' k' e' v' ↔ holds c k' e' v' ∧ 0 < held e'
  end.

(** The entries without a client, oldest first, can only lose some, and gain at
    the end the one whose last handle is released. *)
Definition order_bound (o : CacheOp V) c held : list nat :=
  match o with OpRelease e => if held e =? 1 then lru_ c ++ [e] else lru_ c | _ => lru_ c end.

(** What a client may do. *)
Definition allowed (o : CacheOp V) c held : Prop :=
  match o with
  | OpInsert _ _ _ => elems_ (table_ c) < 2 ^ 31
  | OpLookup _ => ∀ e, held e + 2 < 2 ^ 32
  | OpRelease e => 0 < held e
  | _ => True
  end.

Definition held_after (o : CacheOp V) (r : option nat) held : nat → Z :=
  match o, r with
  | OpRelease e, _ => upd held e (held e - 1)
  | _, Some e => upd held e (held e + 1)
  | _, None => held
  end.

Lemma holds_fields c k e v :
  holds c k e v ↔ (h_in_cache <$> heap c !! e) = Some true ∧ (h_key <$> heap c !! e) = Some k ∧ (h_value <$> heap c !! e) = Some v.
Proof. unfold holds. rewrite !fmap_Some. split; [intros (h & ? & <- & <- & <-); split_and!; eauto|]. intros ((h & Hh & ?) & (h1 & Hh1 & ?) & (h2 & Hh2 & ?)). simplify_eq. eauto. Qed.

Lemma same_holds c c' : same_entries c c' → ∀ k e v, holds c' k e v ↔ holds c k e v.
Proof. intros Hs k e v. destruct (Hs e) as (H1 & H2 & _ & H4). by rewrite !holds_fields, H1, H2, H4. Qed.

Lemma Lookup_ok c held k :
  inv [] c held → (∀ e, held e + 2 < 2 ^ 32) →
  ∃ r c', Lookup k (hashf k) c = Some (r, c') ∧ inv [] c' (held_after (OpLookup k) r held) ∧ answers (OpLookup k) r c c' held ∧ capacity_ c' = capacity_ c ∧ same_entries c c' ∧ lru_ c' `sublist_of` lru_ c.
Proof.
  intros Hi Hb. unfold Lookup. destruct (HT_Lookup (heap c) (table_ c) k (hashf k)) as [e|] eqn:E.
  - pose proof E as (Hin & h & Hh & Hk)%(HT_Lookup_ok hashf Hhash _ _ k e (iv_table _ _ _ Hi)). apply (in_table c held e Hi) in Hin as (h' & Hh' & Hc).
    rewrite Hh in Hh'. injection Hh' as <-. destruct (Ref_ok c held e h Hi Hh Hc (Hb e)) as (c' & -> & Hi' & Hs & _ & Hcap & _ & Hlru & _). exists (Some e), c'. split; [done|]. split; [done|].
    split; [|split_and!; [done|done|rewrite Hlru; apply sublist_filter]]. split; [|by apply same_holds]. assert (holds c k e (h_value h)) as He by (exists h; by split_and!). intros e'. split; [intros [= <-]; eauto|].
    intros (v & He'). f_equal. by apply (holds_key c held k e e' (h_value h) v).
  - exists None, c. split; [done|]. split; [done|]. split; [|done]. split; [|done]. intros e. split; [done|]. intros (v & h & Hh & Hc & Hk & _).
    assert (HT_Lookup (heap c) (table_ c) k (hashf k) = Some e) as E'; [|by rewrite E in E']. apply HT_Lookup_ok; [done|apply Hi|]. split; [apply (in_table c held e Hi)|]; eauto.
Qed.

(** The values of entries do not change. *)
Definition values_kept c c' : Prop :=
  ∀ x h h', heap c !! x = Some h → heap c' !! x = Some h' → h_key h' = h_key h ∧ h_value h' = h_value h.

Lemma same_values c c' : same_entries c c' → values_kept c c'.
Proof. intros Hs x h h' Hh Hh'. destruct (Hs x) as (H1 & H2 & _). rewrite Hh, Hh' in H1, H2. by injection H1; injection H2. Qed.

Lemma Insert_op c held k v charge :
  inv [] c held → elems_ (table_ c) < 2 ^ 31 →
  ∃ e c', Insert k (hashf k) v charge c = Some (e, c') ∧ inv [] c' (upd held e (held e + 1)) ∧ answers (OpInsert k v charge) (Some e) c c' held ∧
    capacity_ c' = capacity_ c ∧ values_kept c c' ∧ lru_ c' `sublist_of` lru_ c.
Proof.
  intros Hi Hfew. destruct (Insert_shape c held k v charge (fresh c) _ _ Hi Hfew eq_refl eq_refl eq_refl) as (c1 & -> & Hi1 & He1 & Ec1 & Ef1 & El1 & Hh1).
  destruct (EvictLoop_ok (upd held (fresh c) 1) (length (lru_ c1)) c1 Hi1 ltac:(done)) as (c' & es & -> & Hi' & Hev & Hfin & Hlast). cbn [mbind option_bind].
  exists (fresh c), c'. split; [done|]. destruct (fresh_free _ _ _ (fresh c) Hi ltac:(lia)) as (Hn & _ & ->). split; [done|].
  set (h := {| h_key := k |}) in He1. assert (fresh c ∉ es) as Hnes.
  { intros Hx. assert (fresh c ∈ lru_ c1) as (h' & Hh' & _ & Hr)%(iv_lru _ _ _ Hi1) by (rewrite (ev_lru _ _ _ Hev); apply elem_of_app; by left).
    rewrite He1 in Hh'. injection Hh' as <-. destruct (iv_heap _ _ _ Hi1 _ _ He1) as (Hr' & _). unfold upd in Hr'. rewrite decide_True in Hr' by done.
    assert (fresh c ∈ lru_ c1) as Hin by (rewrite (ev_lru _ _ _ Hev); apply elem_of_app; by left). rewrite El1 in Hin. apply list_elem_of_filter in Hin as [_ Hin].
    apply (iv_lru _ _ _ Hi) in Hin as (? & ? & _). congruence. }
  assert (heap c' !! fresh c = Some h) as He' by (rewrite (ev_heap _ _ _ Hev), decide_False by done; done).
  assert (∀ x hx, heap c' !! x = Some hx → heap c1 !! x = Some hx) as Hsub by (intros x hx; rewrite (ev_heap _ _ _ Hev); destruct (decide (x ∈ es)); [done|exact id]).
  split; [|split_and!; [by rewrite (ev_capacity _ _ _ Hev)| |]].
  - exists (fresh c), es. split; [done|]. split; [done|]. split; [by exists h|]. split.
    { intros Hcap. exists h. split; [done|]. split; [|done]. cbn. rewrite Z.gtb_ltb. by apply Z.ltb_lt. }
    split; [|split; [done|split]].
    + intros k' e' v' (h' & Hh' & Hc' & <- & <-). destruct (decide (e' = fresh c)) as [->|Hne].
      * left. rewrite He' in Hh'. injection Hh' as <-. done.
      * right. destruct (Hh1 e' h' Hne (Hsub _ _ Hh')) as (h0 & Hh0 & Ek & Ev & _ & Hcc). destruct (Hcc Hc') as [Hc0 Hk0]. split; [exists h0; by split_and!|].
        intros Hcap. rewrite Ek. apply Hk0. rewrite Z.gtb_ltb. by apply Z.ltb_lt.
    + rewrite <- (ev_lru _ _ _ Hev). by rewrite El1.
    + intros x Hx. specialize (Hlast x Hx). rewrite Ec1 in Hlast. assert (x ≠ fresh c) as Hne by (intros ->; apply Hnes; by apply last_Some_elem_of).
      assert (x ∈ lru_ c1) as (hx & Hhx & _)%(iv_lru _ _ _ Hi1) by (rewrite (ev_lru _ _ _ Hev); apply elem_of_app; left; by apply last_Some_elem_of).
      destruct (Hh1 x hx Hne Hhx) as (h0 & Hh0 & _ & _ & Ech & _). unfold charge_of in *. rewrite Hh0. rewrite Hhx in Hlast. cbn in *. by rewrite <- Ech.
  - intros x hx hx' Hhx Hhx'. assert (x ≠ fresh c) as Hne by (intros ->; congruence). destruct (Hh1 x hx' Hne (Hsub _ _ Hhx')) as (h0 & Hh0 & Ek & Ev & _).
    rewrite Hhx in Hh0. by injection Hh0 as <-.
  - etrans; [|apply (sublist_filter (λ x, (capacity_ c >? 0) = false ∨ (h_key <$> heap c !! x) ≠ Some k))]. rewrite <- El1, (ev_lru _ _ _ Hev). by apply sublist_inserts_l.
Qed.

Lemma Release_op c held e :
  inv [] c held → 0 < held e →
  ∃ c', Release e c = Some c' ∧ inv [] c' (upd held e (held e - 1)) ∧ answers (OpRelease e) None c c' held ∧ capacity_ c' = capacity_ c ∧ values_kept c c' ∧
    lru_ c' `sublist_of` order_bound (OpRelease e) c held.
Proof.
  intros Hi Hpos. destruct (Release_ok c held e Hi Hpos) as (h & c' & Hh & -> & Hi' & _ & Ec & _ & _ & H). exists c'. split; [done|]. split; [done|].
  destruct ((held e =? 1) && negb (h_in_cache h)) eqn:E.
  - destruct H as (Hd & Hl & _). apply andb_true_iff in E as [_ Hc%negb_true_iff]. split; [|split_and!; [done| |cbn; rewrite Hl; case_match; [by apply sublist_inserts_r|done]]].
    + split; [done|]. intros k' e' v'. unfold holds. rewrite Hd. destruct (decide (e' = e)) as [->|Hne]; [|by rewrite lookup_delete_ne].
      rewrite lookup_delete_eq, Hh. split; [by intros (? & ? & _)|]. intros (? & [= <-] & ? & _). congruence.
    + intros x hx hx' Hhx Hhx'. rewrite Hd in Hhx'. apply lookup_delete_Some in Hhx' as [_ Hhx']. by simplify_eq.
  - destruct H as (Hs & _ & Hl). split; [|split_and!; [done|by apply same_values|cbn; rewrite Hl; case_match; [done|by rewrite app_nil_r]]]. split; [done|]. by apply same_holds.
Qed.

(** An entry that leaves the cache. *)
Lemma erased_holds c c' held e k v h :
  inv [] c held → holds c k e v → (∀ x, x ≠ e → heap c' !! x = heap c !! x) → heap c !! e = Some h →
  heap c' !! e = (if held e =? 0 then None else Some (set_refs false (held e) h)) →
  (∀ k' e' v', holds c' k' e' v' ↔ holds c k' e' v' ∧ e' ≠ e) ∧ values_kept c c'.
Proof.
  intros Hi He Hne Hh Heq. split.
  - intros k' e' v'. unfold holds. destruct (decide (e' = e)) as [->|Hx]; [|rewrite Hne by done; naive_solver].
    rewrite Heq. split; [|naive_solver]. destruct (held e =? 0); [by intros (? & ? & _)|]. intros (? & [= <-] & ? & _). done.
  - intros x hx hx' Hhx Hhx'. destruct (decide (x = e)) as [->|Hx]; [|rewrite Hne in Hhx' by done; by simplify_eq].
    rewrite Heq in Hhx'. destruct (held e =? 0); [done|]. by simplify_eq/=.
Qed.

Lemma Erase_op c held k :
  inv [] c held → ∃ c', Erase k (hashf k) c = Some c' ∧ inv [] c' held ∧ answers (OpErase k) None c c' held ∧ capacity_ c' = capacity_ c ∧ values_kept c c' ∧ lru_ c' `sublist_of` lru_ c.
Proof.
  intros Hi. unfold Erase. destruct (Remove_inv c held k Hi) as (r & t' & -> & Hr). destruct r as [e|].
  - destruct Hr as [Hi1 (v & He)]. destruct (FinishErase_ok _ _ _ Hi1) as (h & c' & Hh & _ & -> & Hi' & Ec & _ & _ & _ & El & _ & Hne & Heq & _). cbn [set_table heap capacity_ lru_ mbind option_bind] in *.
    exists c'. split; [done|]. split; [done|]. destruct (erased_holds c c' held e k v h Hi He Hne Hh Heq) as [Hhold Hval]. split; [|split_and!; [done|done|rewrite El; apply sublist_filter]]. split; [done|].
    intros k' e' v'. rewrite Hhold. split; intros [H1 H2]; (split; [done|]); intros ->; apply H2.
    + by apply (holds_key c held k e' e v' v).
    + destruct H1 as (h1 & Hh1 & _ & <- & _), He as (h2 & Hh2 & _ & <- & _). by simplify_eq.
  - destruct Hr as [-> Hno]. cbn [FinishErase mbind option_bind]. exists c. assert (set_table (table_ c) (usage_ c) c = c) as -> by (by destruct c).
    split; [done|]. split; [done|]. split; [|split_and!; [done|by apply same_values|done]]. split; [done|]. intros k' e' v'. split; [|by intros [? _]]. intros H. split; [done|].
    intros ->. by apply (Hno e' v').
Qed.

Lemma Prune_loop_ok held fuel : ∀ c, inv [] c held → (length (lru_ c) ≤ fuel)%nat →
  ∃ c' es, Prune_loop fuel c = Some c' ∧ inv [] c' held ∧ evicted c c' es ∧ lru_ c' = [].
Proof.
  induction fuel as [|fuel IH]; intros c Hi Hf; cbn [Prune_loop]; destruct (lru_ c) as [|old rest] eqn:El.
  1,3: exists c, []; split_and!; try done; by apply (evicted_refl [] c held).
  - cbn in Hf. lia.
  - destruct (EvictOldest_ok c held old rest Hi El) as (h & c1 & Hh & -> & Hi1 & El1 & Eu1 & Ec1 & Ef1 & Eus & Hh1 & Hd1). cbn [mbind option_bind].
    destruct (IH c1 Hi1) as (c' & es & -> & Hi' & Hev & Hfin); [rewrite El1; cbn in Hf; lia|]. exists c', (old :: es). rewrite <- El1 in El.
    pose proof (iv_nodup _ _ _ Hi) as (Hnd & _ & _)%NoDup_app. split_and!; try done. by apply (evicted_step c c1 c' old h).
Qed.

Lemma Prune_op c held :
  inv [] c held → ∃ c', Prune c = Some c' ∧ inv [] c' held ∧ answers OpPrune None c c' held ∧ capacity_ c' = capacity_ c ∧ values_kept c c' ∧ lru_ c' `sublist_of` lru_ c.
Proof.
  intros Hi. destruct (Prune_loop_ok held (length (lru_ c)) c Hi ltac:(done)) as (c' & es & E & Hi' & Hev & Hl). exists c'. split; [done|]. split; [done|].
  pose proof (ev_lru _ _ _ Hev) as Elru. rewrite Hl, app_nil_r in Elru. split; [|split_and!; [apply Hev| |rewrite Hl; apply sublist_nil_l]].
  - split; [done|]. split; [done|]. intros k' e' v'. unfold holds. rewrite (ev_heap _ _ _ Hev), <- Elru. destruct (decide (e' ∈ lru_ c)) as [Hin|Hnin].
    + split; [by intros (? & ? & _)|]. intros [(h & Hh & Hc & _) Hpos]. apply (iv_lru _ _ _ Hi) in Hin as (h' & Hh' & Hc' & Hr). rewrite Hh in Hh'. injection Hh' as <-.
      destruct (iv_heap _ _ _ Hi e' h Hh) as (Hr' & _). rewrite Hc in Hr'. cbn in Hr'. lia.
    + split; [|by intros [? _]]. intros (h & Hh & Hc & Hk). split; [by exists h|]. destruct (iv_heap _ _ _ Hi e' h Hh) as (Hr & Hp & _). rewrite Hc in Hr. cbn in Hr.
      destruct (decide (held e' = 0)); [|lia]. destruct Hnin. apply (iv_lru _ _ _ Hi). exists h. split_and!; try done. lia.
  - intros x h h' Hh Hh'. rewrite (ev_heap _ _ _ Hev) in Hh'. destruct (decide (x ∈ es)); [done|]. by simplify_eq.
Qed.

(** One operation of a client. *)
Lemma exec_ok o c held :
  inv [] c held → allowed o c held →
  ∃ r c', exec hashf o c = Some (r, c') ∧ inv [] c' (held_after o r held) ∧ answers o r c c' held ∧ capacity_ c' = capacity_ c ∧ values_kept c c' ∧
    lru_ c' `sublist_of` order_bound o c held.
Proof.
  intros Hi Ha. destruct o as [k v charge|k|e|k|]; cbn [exec allowed] in *.
  - destruct (Insert_op c held k v charge Hi Ha) as (e & c' & -> & ?). by exists (Some e), c'.
  - destruct (Lookup_ok c held k Hi Ha) as (r & c' & -> & ? & ? & ? & ? & ?). exists r, c'. split_and!; try done. by apply same_values.
  - destruct (Release_op c held e Hi Ha) as (c' & -> & ?). by exists None, c'.
  - destruct (Erase_op c held k Hi) as (c' & -> & ?). by exists None, c'.
  - destruct (Prune_op c held Hi) as (c' & -> & ?). by exists None, c'.
Qed.

Lemma NewLRUCache_ok capacity :
  ∃ c, NewLRUCache = Some c ∧ inv [] (SetCapacity capacity c) (λ _, 0) ∧ ∀ k e v, ¬ holds (SetCapacity capacity c) k e v.
Proof.
  destruct (NewHandleTable_ok (V := V) hashf) as (t & Et & Ht & Hj). unfold NewLRUCache. rewrite Et. cbn [mbind option_bind]. eexists. split; [done|]. split.
  - split; cbn [SetCapacity heap lru_ in_use_ table_ usage_ deleted fresh]; try done.
    + intros e. split; [by intros ?%not_elem_of_nil|]. by intros (? & ? & _).
    + intros e. split; [by intros ?%not_elem_of_nil|]. by intros (? & ? & _).
    + constructor.
    + by rewrite Hj.
    + constructor.
    + intros e. rewrite lookup_empty. split; [lia|]. intros [[? ?]|?%not_elem_of_nil]; done.
  - by intros k e v (h & Hh & _).
Qed.

(** The states that clients reach, with the references that they hold, the number
    of calls, and for each entry the call that released its last handle. *)
Definition used_after (o : CacheOp V) held (clock : nat) (used : nat → nat) : nat → nat :=
  match o with OpRelease e => if held e =? 1 then λ x, if decide (x = e) then clock else used x else used | _ => used end.

Inductive reaches (capacity : Z) : LRUCache V → (nat → Z) → nat → (nat → nat) → Prop :=
  | reach_new c : NewLRUCache = Some c → reaches capacity (SetCapacity capacity c) (λ _, 0) 0 (λ _, 0%nat)
  | reach_step c held clock used o r c' : reaches capacity c held clock used → allowed o c held → exec hashf o c = Some (r, c') →
      reaches capacity c' (held_after o r held) (S clock) (used_after o held clock used).

(** The list is in the order of last use. *)
Record in_order c (clock : nat) (used : nat → nat) : Prop := {
  io_sorted : StronglySorted (λ x y, (used x < used y)%nat) (lru_ c);
  io_past : Forall (λ x, (used x < clock)%nat) (lru_ c) }.

Lemma Forall_sublist {A} (P : A → Prop) l k : l `sublist_of` k → Forall P k → Forall P l.
Proof. induction 1; [done|intros [? ?]%Forall_cons; constructor; auto|intros [? ?]%Forall_cons; auto]. Qed.

Lemma StronglySorted_sublist {A} (R : A → A → Prop) l k : l `sublist_of` k → StronglySorted R k → StronglySorted R l.
Proof.
  induction 1 as [|x l k Hs IH|x l k Hs IH]; intros Hk; [done|apply StronglySorted_inv in Hk as [Hk Hx]|apply StronglySorted_inv in Hk as [Hk _]; by apply IH].
  constructor; [by apply IH|]. by eapply Forall_sublist.
Qed.

Lemma in_order_step o c c' held clock used :
  inv [] c held → allowed o c held → in_order c clock used → lru_ c' `sublist_of` order_bound o c held → in_order c' (S clock) (used_after o held clock used).
Proof.
  intros Hi Ha [Hs Hp] Hsub.
  assert (∀ l k (u v : nat → nat), l `sublist_of` k → (∀ x, x ∈ k → v x = u x) → StronglySorted (λ x y, (u x < u y)%nat) k → Forall (λ x, (u x < S clock)%nat) k →
    StronglySorted (λ x y, (v x < v y)%nat) l ∧ Forall (λ x, (v x < S clock)%nat) l) as Hgen.
  { intros l k u v Hlk Huv Hk1 Hk2. split.
    - apply (StronglySorted_sublist _ _ _ Hlk). clear Hlk Hk2. induction Hk1 as [|x k Hk IH Hx]; [constructor|]. constructor; [apply IH; intros y Hy; apply Huv; by right|].
      rewrite Forall_forall in *. intros y Hy. rewrite !Huv by (by left || by right). by apply Hx.
    - apply (Forall_sublist _ _ _ Hlk). rewrite Forall_forall in *. intros x Hx. rewrite Huv by done. by apply Hk2. }
  assert (Forall (λ x, (used x < S clock)%nat) (lru_ c)) as Hp' by (eapply Forall_impl; [exact Hp|]; cbn; lia).
  destruct o as [? ? ?|?|e|?|]; cbn [order_bound used_after allowed] in *; [by split; apply (Hgen _ (lru_ c) used)|by split; apply (Hgen _ (lru_ c) used)| |by split; apply (Hgen _ (lru_ c) used)|by split; apply (Hgen _ (lru_ c) used)].
  destruct (Z.eqb_spec (held e) 1) as [E|E]; [|by split; apply (Hgen _ (lru_ c) used)].
  assert (e ∉ lru_ c) as Hnin. { intros (h & Hh & Hc & Hr)%(iv_lru _ _ _ Hi). destruct (iv_heap _ _ _ Hi e h Hh) as (Hr' & _). rewrite Hc in Hr'. cbn in Hr'. lia. }
  set (v := λ x, if decide (x = e) then clock else used x). assert (v e = clock) as Hve by (unfold v; by rewrite decide_True). assert (∀ x, x ∈ lru_ c → v x = used x) as Hvx by (intros x Hx; unfold v; rewrite decide_False by congruence; done).
  destruct (Hgen (lru_ c) (lru_ c) used v ltac:(done) Hvx Hs Hp') as [Hs1 Hp1].
  assert (StronglySorted (λ x y, (v x < v y)%nat) (lru_ c ++ [e]) ∧ Forall (λ x, (v x < S clock)%nat) (lru_ c ++ [e])) as [H1 H2].
  { split; [|rewrite Forall_app, Forall_singleton; split; [done|lia]]. apply StronglySorted_app. split_and!; [|done|repeat constructor].
    intros x y Hx ->%list_elem_of_singleton. rewrite Hve, Hvx by done. rewrite Forall_forall in Hp. by apply Hp. }
  split; [by apply (StronglySorted_sublist _ _ _ Hsub)|by apply (Forall_sublist _ _ _ Hsub)].
Qed.

Lemma reaches_inv capacity c held clock used : reaches capacity c held clock used → inv [] c held ∧ capacity_ c = capacity ∧ in_order c clock used.
Proof.
  induction 1 as [c Hc|c held clock used o r c' _ (IH & IHc & IHo) Ha He].
  - destruct (NewLRUCache_ok capacity) as (c0 & E & Hi & _). rewrite Hc in E. injection E as <-. split_and!; [done|done|].
    unfold NewLRUCache in Hc. destruct NewHandleTable; [|done]. injection Hc as <-. split; constructor.
  - destruct (exec_ok o c held IH Ha) as (r' & c2 & E & Hi & _ & Hcap & _ & Hsub). rewrite He in E. injection E as <- <-. split_and!; [done|congruence|by eapply in_order_step].
Qed.

(** An entry of the cache that no client holds. *)
Definition idle c held (x : nat) : Prop := held x = 0 ∧ ∃ k v, holds c k x v.

Lemma idle_lru c held x : inv [] c held → idle c held x ↔ x ∈ lru_ c.
Proof.
  intros Hi. rewrite (iv_lru _ _ _ Hi). unfold idle, holds. split.
  - intros (H0 & k & v & h & Hh & Hc & _). exists h. destruct (iv_heap _ _ _ Hi x h Hh) as (Hr & _). rewrite Hc in Hr. cbn in Hr. split_and!; [done|done|lia].
  - intros (h & Hh & Hc & Hr1). destruct (iv_heap _ _ _ Hi x h Hh) as (Hr & _). rewrite Hc in Hr. cbn in Hr. split; [lia|]. exists (h_key h), (h_value h), h. by split_and!.
Qed.

(** The destructor deletes the entries that no client holds. *)
Lemma Destroy_all es : ∀ c, NoDup es → (∀ e, e ∈ es → ∃ h, heap c !! e = Some h ∧ h_in_cache h = true ∧ h_refs h = 1) →
  ∃ c', foldl (λ st e, c ← st; DestroyEntry c e) (Some c) es = Some c' ∧ (deleted c').*1.*1 = (deleted c).*1.*1 ++ es ∧
    ∀ x, heap c' !! x = if decide (x ∈ es) then None else heap c !! x.
Proof.
  induction es as [|e es IH]; intros c Hnd Hes; cbn [foldl]; [exists c; split_and!; [done|by rewrite app_nil_r|done]|].
  apply NoDup_cons in Hnd as [Hnin Hnd]. destruct (Hes e) as (h & Hh & Hc & Hr); [by left|]. cbn [mbind option_bind]. unfold DestroyEntry at 2. rewrite Hh. cbn [mbind option_bind].
  rewrite Hc, Hr. cbn [negb orb Z.eqb Pos.eqb]. unfold Unref. cbn [heap set_heap]. rewrite lookup_insert_eq. cbn [mbind option_bind set_refs h_refs h_in_cache h_key h_value Z.leb].
  cbn [Z.compare]. change (1 - 1 =? 0) with true. cbn iota. rewrite insert_insert_eq, delete_insert_eq.
  change (1 <=? 0) with false. cbn iota. match goal with |- context [foldl _ (Some ?cc) es] => set (c1 := cc) end. destruct (IH c1 Hnd) as (c' & -> & Hd & Hheap).
  - intros x Hx. cbn [heap c1]. rewrite lookup_delete_ne by (intros <-; done). apply Hes. by right.
  - exists c'. split; [done|]. split; [rewrite Hd; cbn [deleted c1 set_heap]; rewrite !fmap_app; cbn; by rewrite <- app_assoc|].
    intros x. rewrite Hheap. cbn [heap c1]. destruct (decide (x = e)) as [->|Hne].
    + rewrite (decide_True (P := e ∈ e :: es)) by (by left). rewrite lookup_delete_eq. by case_decide.
    + rewrite lookup_delete_ne by done. destruct (decide (x ∈ es)); case_decide as Hx; try done; [destruct Hx; by right|by apply elem_of_cons in Hx as [|]].
Qed.

Lemma Destroy_ok c held :
  inv [] c held → ∃ c', Destroy c = Some c' ∧ (deleted c').*1.*1 = (deleted c).*1.*1 ++ lru_ c.
Proof.
  intros Hi. pose proof (iv_nodup _ _ _ Hi) as (Hnd & _ & _)%NoDup_app. destruct (Destroy_all (lru_ c) c Hnd) as (c' & E & Hd & _); [|by exists c'].
  intros e He. by apply (iv_lru _ _ _ Hi).
Qed.

End lru.

(** ** The sharded cache *)

Section shards.

Context {V : Type}.
Implicit Types (c : ShardedLRUCache V) (v : V).

(** A shard takes up to [2 ^ 31] entries, where its hash table stops growing. *)
Definition has_room c (k : bytes) : bool :=
  match shard_ c !! Shard (HashSlice k) with Some s => elems_ (table_ s) <? 2 ^ 31 | None => false end.

(** No handle is outstanding. *)
Definition sinv c : Prop := length (shard_ c) = 16%nat ∧ Forall (λ s, inv HashSlice [] s (λ _, 0)) (shard_ c).

Definition sholds c (k : bytes) v : Prop := ∃ i s e, shard_ c !! i = Some s ∧ holds s k e v.

Lemma inv_ext hashf gone (s : LRUCache V) held held' : (∀ e, held' e = held e) → inv hashf gone s held → inv hashf gone s held'.
Proof. intros He Hi. split; try apply Hi; [intros e h; rewrite He|intros e; rewrite He]; apply Hi. Qed.

Lemma HashSlice_ok k : u32_ok (HashSlice k).
Proof. apply Hash_range. Qed.

Lemma shard_lookup c k : sinv c → ∃ s, shard_ c !! Shard (HashSlice k) = Some s ∧ inv HashSlice [] s (λ _, 0).
Proof.
  intros [Hl Hs]. destruct (lookup_lt_is_Some_2 (shard_ c) (Shard (HashSlice k))) as [s Es].
  - rewrite Hl. unfold Shard, kNumShardBits. pose proof (HashSlice_ok k) as Hk. rewrite Z.shiftr_div_pow2 by lia.
    assert (HashSlice k / 2 ^ (32 - 4) < 16) by (apply Z.div_lt_upper_bound; unfold u32_ok in Hk; lia). lia.
  - exists s. split; [done|]. by apply (Forall_lookup_1 _ _ _ _ Hs Es).
Qed.

Lemma sinv_set c i s : sinv c → inv HashSlice [] s (λ _, 0) → sinv (set_shard i s c).
Proof. intros [Hl Hs] Hi. split; [by cbn; rewrite length_insert|]. cbn. by apply Forall_insert. Qed.

Lemma sholds_set c i s k v : sholds (set_shard i s c) k v → (∃ e, holds s k e v) ∨ sholds c k v.
Proof.
  intros (j & s' & e & Hs & He). cbn [shard_ set_shard] in Hs. apply list_lookup_insert_Some in Hs as [(-> & <- & _)|[_ Hs]]; [left; by exists e|].
  right. by exists j, s', e.
Qed.

Lemma set_shard_twice i (s s' : LRUCache V) c : set_shard i s' (set_shard i s c) = set_shard i s' c.
Proof. unfold set_shard. cbn. by rewrite list_insert_insert_eq. Qed.

(** A lookup whose handle is released: the value, and the same entries. *)
Lemma S_Lookup_ok c k :
  sinv c → ∃ r c1, S_Lookup k c = Some (r, c1) ∧ last_id_ c1 = last_id_ c ∧
  match r with
  | None => sinv c1 ∧ ∀ k' v, sholds c1 k' v → sholds c k' v
  | Some h => ∃ v c2, S_Value h c1 = Some v ∧ S_Release h c1 = Some c2 ∧ last_id_ c2 = last_id_ c ∧ sinv c2 ∧ sholds c k v ∧
      ∀ k' v', sholds c2 k' v' → sholds c k' v'
  end.
Proof.
  intros Hc. destruct (shard_lookup c k Hc) as (s & Hs & Hi). unfold S_Lookup. rewrite Hs. cbn [mbind option_bind].
  destruct (Lookup_ok HashSlice HashSlice_ok s (λ _, 0) k Hi ltac:(lia)) as (r & s1 & -> & Hi1 & [Hr Hh1] & _). cbn [mbind option_bind].
  eexists _, _. split; [done|]. split; [done|]. destruct r as [e|]; cbn [held_after] in *.
  - destruct (proj1 (Hr e) eq_refl) as (v & He). pose proof (proj2 (Hh1 k e v) He) as (h & Hh & _ & _ & Hv).
    unfold S_Value, S_Release. cbn [fst snd shard_ set_shard]. rewrite list_lookup_insert_eq by (by eapply lookup_lt_Some). cbn [mbind option_bind]. rewrite Hh. cbn [mbind option_bind].
    destruct (Release_op HashSlice s1 _ e Hi1) as (s2 & -> & Hi2 & [_ Hh2] & _); [unfold upd; rewrite decide_True by done; lia|]. cbn [mbind option_bind].
    eexists _, _. split; [done|]. split; [done|]. split; [done|]. rewrite set_shard_twice. split; [|split].
    + apply sinv_set; [done|]. eapply inv_ext; [|exact Hi2]. intros x. unfold upd. repeat case_decide; lia.
    + rewrite Hv. by exists (Shard (HashSlice k)), s, e.
    + intros k' v' [(e' & He'%Hh2%Hh1)|?]%sholds_set; [by exists (Shard (HashSlice k)), s, e'|done].
  - split; [by apply sinv_set|]. intros k' v [(e & He%Hh1)|?]%sholds_set; [by exists (Shard (HashSlice k)), s, e|done].
Qed.

(** An insertion whose handle is released. *)
Lemma S_Insert_ok c k v charge :
  sinv c → has_room c k = true → ∃ h c1 c2, S_Insert k v charge c = Some (h, c1) ∧ S_Value h c1 = Some v ∧ S_Release h c1 = Some c2 ∧
    last_id_ c2 = last_id_ c ∧ sinv c2 ∧ ∀ k' v', sholds c2 k' v' → (k' = k ∧ v' = v) ∨ sholds c k' v'.
Proof.
  intros Hc Hroom. destruct (shard_lookup c k Hc) as (s & Hs & Hi). unfold has_room in Hroom. rewrite Hs in Hroom. apply Z.ltb_lt in Hroom.
  unfold S_Insert. rewrite Hs. cbn [mbind option_bind].
  destruct (Insert_op HashSlice HashSlice_ok s (λ _, 0) k v charge Hi Hroom) as (e & s1 & -> & Hi1 & Ha & _). cbn [mbind option_bind].
  destruct Ha as (e0 & es & [= <-] & _ & (h & Hh & _ & Hv) & _ & Hh1 & _). exists (Shard (HashSlice k), e), (set_shard (Shard (HashSlice k)) s1 c). unfold S_Value, S_Release. cbn [fst snd shard_ set_shard].
  rewrite list_lookup_insert_eq by (by eapply lookup_lt_Some). cbn [mbind option_bind]. rewrite Hh. cbn [mbind option_bind]. rewrite Hv.
  destruct (Release_op HashSlice s1 _ e Hi1) as (s2 & -> & Hi2 & [_ Hh2] & _); [unfold upd; rewrite decide_True by done; lia|]. cbn [mbind option_bind].
  eexists. split; [done|]. split; [done|]. split; [done|]. split; [done|]. rewrite set_shard_twice. split.
  - apply sinv_set; [done|]. eapply inv_ext; [|exact Hi2]. intros x. unfold upd. repeat case_decide; lia.
  - intros k' v' [(e' & He'%Hh2)|?]%sholds_set; [|by right]. destruct (Hh1 _ _ _ He') as [(-> & _ & ->)|[He _]]; [by left|].
    right. by exists (Shard (HashSlice k)), s, e'.
Qed.

Lemma S_Erase_ok c k :
  sinv c → ∃ c', S_Erase k c = Some c' ∧ last_id_ c' = last_id_ c ∧ sinv c' ∧ ∀ k' v, sholds c' k' v → sholds c k' v.
Proof.
  intros Hc. destruct (shard_lookup c k Hc) as (s & Hs & Hi). unfold S_Erase. rewrite Hs. cbn [mbind option_bind].
  destruct (Erase_op HashSlice HashSlice_ok s (λ _, 0) k Hi) as (s1 & -> & Hi1 & [_ Hh1] & _). cbn [mbind option_bind].
  eexists. split; [done|]. split; [done|]. split; [by apply sinv_set|]. intros k' v [(e & [He _]%Hh1)|?]%sholds_set; [by exists (Shard (HashSlice k)), s, e|done].
Qed.

(** The cache has room if all its keys are in a short list. *)
Lemma has_room_ok c k (K : list bytes) : sinv c → (∀ k' v, sholds c k' v → k' ∈ K) → len K < 2 ^ 31 → has_room c k = true.
Proof.
  intros Hc HK Hl. destruct (shard_lookup c k Hc) as (s & Hs & Hi). unfold has_room. rewrite Hs. apply Z.ltb_lt. pose proof (iv_table _ _ _ _ Hi) as Ht.
  rewrite (tw_elems _ _ _ Ht). set (key_of := λ e, default [] (h_key <$> heap s !! e)). eapply Z.le_lt_trans; [|exact Hl]. unfold len.
  rewrite <- (length_fmap key_of). apply Nat2Z.inj_le, submseteq_length, NoDup_submseteq.
  - apply NoDup_fmap_2_strong; [|apply (tw_nodup _ _ _ Ht)]. intros e e' He He' E. pose proof He as (h & Hh & _)%(table_member _ _ _ _ Ht).
    pose proof He' as (h' & Hh' & _)%(table_member _ _ _ _ Ht). apply (tw_keys _ _ _ Ht e e' h h'); try done. unfold key_of in E. by rewrite Hh, Hh' in E.
  - intros k' (e & -> & He)%list_elem_of_fmap. apply (in_table HashSlice s (λ _, 0) e Hi) in He as (h & Hh & Hin). unfold key_of. rewrite Hh.
    apply (HK _ (h_value h)). exists (Shard (HashSlice k)), s, e. split; [done|]. by exists h.
Qed.

Lemma new_sharded_ok capacity : ∃ c, NewShardedLRUCache capacity = Some c ∧ last_id_ c = 0 ∧ sinv c ∧ ∀ k v, ¬ sholds c k v.
Proof.
  unfold NewShardedLRUCache. destruct (NewLRUCache_ok (V := V) HashSlice (u64 (capacity + (kNumShards - 1)) / kNumShards)) as (s & -> & Hi & Hno). cbn [mbind option_bind].
  eexists. split; [done|]. split; [done|]. split; [split; [done|by apply Forall_replicate]|]. intros k v (i & s' & e & Hs & He). cbn [shard_] in Hs.
  apply lookup_replicate in Hs as [-> _]. by apply (Hno k e v).
Qed.

End shards.

(** ** The cache as a block cache *)

Section blocks.

(** [block->size()] is the charge of a block. *)
Definition block_charge (b : Block) : Z := Block.size_ b.

(** How the table reader uses the cache: a handle that it gets is released when
    the iterator over the block goes. *)
Definition block_lookup (c : ShardedLRUCache Block) (k : bytes) : option (option Block * ShardedLRUCache Block) :=
  '(r, c) ← S_Lookup k c;
  match r with
  | None => Some (None, c)
  | Some h => b ← S_Value h c; c ← S_Release h c; Some (Some b, c)
  end.

Definition block_insert (c : ShardedLRUCache Block) (k : bytes) (b : Block) : option (ShardedLRUCache Block) :=
  '(h, c) ← S_Insert k b (block_charge b) c;
  S_Release h c.

#[export] Instance lru_block_cache : BlockCache (ShardedLRUCache Block) := {|
  Table.Lookup c k := default (None, c) (block_lookup c k);
  Table.Insert c k b := if has_room c k then default c (block_insert c k b) else c |}.

#[export] Instance Block_eq_dec : EqDecision Block.
Proof. solve_decision. Defined.

(** Lookup and insertion of the reader. *)
Lemma block_lookup_ok c k :
  sinv c → ∃ r c', block_lookup c k = Some (r, c') ∧ last_id_ c' = last_id_ c ∧ sinv c' ∧ (∀ b, r = Some b → sholds c k b) ∧ ∀ k' b, sholds c' k' b → sholds c k' b.
Proof.
  intros Hc. unfold block_lookup. destruct (S_Lookup_ok c k Hc) as ([h|] & c1 & -> & Hid & H); cbn [mbind option_bind].
  - destruct H as (v & c2 & -> & -> & Hid2 & Hi & Hv & Hk). exists (Some v), c2. split_and!; try done. by intros b [= <-].
  - destruct H as [Hi Hk]. by exists None, c1.
Qed.

Lemma block_insert_ok c k b :
  sinv c → has_room c k = true → ∃ c', block_insert c k b = Some c' ∧ last_id_ c' = last_id_ c ∧ sinv c' ∧ ∀ k' b', sholds c' k' b' → (k' = k ∧ b' = b) ∨ sholds c k' b'.
Proof.
  intros Hc Hroom. unfold block_insert. destruct (S_Insert_ok c k b (block_charge b) Hc Hroom) as (h & c1 & c2 & -> & _ & E & ? & ? & ?). cbn [mbind option_bind]. rewrite E. by exists c2.
Qed.

#[export] Instance lru_block_cache_laws : BlockCacheLaws (ShardedLRUCache Block) lru_block_cache.
Proof.
  apply (Build_BlockCacheLaws _ _ (λ c k b, sinv c → sholds c k b)).
  - intros c k b c' Hl Hc. cbn in Hl. destruct (block_lookup_ok c k Hc) as (r & c1 & E & _ & _ & Hr & _). rewrite E in Hl. cbn in Hl. injection Hl as -> _. by apply Hr.
  - intros c k r c' k' b Hl Hh Hc. cbn in Hl. destruct (block_lookup_ok c k Hc) as (r1 & c1 & E & _ & Hc1 & _ & Hk). rewrite E in Hl. cbn in Hl. injection Hl as _ ->. by apply Hk, Hh.
  - intros c k b k' b' Hh. cbn in Hh. destruct (decide (k' = k ∧ b' = b)) as [?|Hne]; [by left|]. right. intros Hc. destruct (has_room c k) eqn:Er; [|by apply Hh].
    destruct (block_insert_ok c k b Hc Er) as (c' & E & _ & Hc' & Hk). rewrite E in Hh. cbn in Hh. by destruct (Hk k' b' (Hh Hc')).
Defined.

End blocks.

(** ** Properties *)

(** C30: the cache is correct under any calls of its clients. In every state
    that calls of [Insert], [Lookup], [Release] (of handles that are held),
    [Erase] and [Prune] lead to, the next call succeeds: no assertion fails and
    no freed entry is touched. [Lookup] finds an entry exactly when the cache
    holds its key. [Insert] replaces an entry of the same key, then drops
    entries that no client holds, no more than needed, until the charge is within
    the capacity or only entries in use are left; and the last handle of an entry
    it drops was released before that of every entry without a client that it
    keeps: the least recently used go first. Entries keep their values; an entry
    that a client holds is in memory, and an entry that is not is given to its
    deleter exactly once. *)
Theorem lru_cache_correct {V} hashf capacity (c : LRUCache V) held clock used o :
  (∀ k, u32_ok (hashf k)) → reaches hashf capacity c held clock used → allowed o c held →
  ∃ r c', exec hashf o c = Some (r, c') ∧ reaches hashf capacity c' (held_after o r held) (S clock) (used_after o held clock used) ∧ answers o r c c' held ∧ values_kept c c' ∧
    (∀ k v charge x y, o = OpInsert k v charge → idle c held x → (h_key <$> heap c !! x) ≠ Some k → ¬ idle c' (held_after o r held) x →
       idle c' (held_after o r held) y → (used x < used y)%nat) ∧
    (∀ e, 0 < held_after o r held e → is_Some (heap c' !! e)) ∧
    NoDup (deleted c').*1.*1 ∧ (∀ e, (e < fresh c')%nat → heap c' !! e = None ↔ e ∈ (deleted c').*1.*1).
Proof.
  intros Hh Hr Ha. pose proof Hr as (Hi & _ & [Hord _])%(reaches_inv hashf Hh). destruct (exec_ok hashf Hh o c held Hi Ha) as (r & c' & He & Hi' & Hans & _ & Hval & _).
  exists r, c'. split; [done|]. split; [by eapply reach_step|]. split; [done|]. split; [done|]. split_and!; [| |apply Hi'|].
  - intros k v charge x y -> Hx%(idle_lru hashf _ _ _ Hi) Hk Hx' Hy%(idle_lru hashf _ _ _ Hi'). rewrite (idle_lru hashf _ _ _ Hi') in Hx'.
    destruct Hans as (_ & es & _ & _ & _ & _ & _ & _ & Hes & _).
    assert (x ∈ es ++ lru_ c') as Hxe by (rewrite <- Hes; apply list_elem_of_filter; by split; [right|]).
    apply elem_of_app in Hxe as [Hxe|]; [|done]. eapply (StronglySorted_sublist _ _ _ (sublist_filter _ _)) in Hord. rewrite Hes in Hord.
    apply StronglySorted_app in Hord as (Hlt & _). by apply Hlt.
  - intros e Hpos. destruct (heap c' !! e) eqn:E; [by eexists|]. rewrite (iv_free _ _ _ _ Hi' e E) in Hpos. lia.
  - intros e Hlt. split; [|apply (iv_dead _ _ _ _ Hi')]. intros E. apply (iv_alive _ _ _ _ Hi') in Hlt as [[? ?]|?]; [congruence|done].
Qed.

(** The table reader with an LRU block cache. Any sequence of lookups that
    share a new cache of any capacity answers as the sorted list of the table's
    entries does. *)
Theorem table_get_lru {SN : Snappy} {HS : SnappyLaws SN} opt cache_id dom es paranoid capacity gets :
  ComparatorLaws dom (comparator opt) → table_ok es → filters_fit SN opt es →
  Forall (λ e, dom e.1) es → keys_sorted (comparator opt) es → Forall (λ g, dom g.2) gets →
  ∃ cache t rs, NewShardedLRUCache (V := Block) capacity = Some cache ∧
    Open opt cache_id (mem_Read (file (build_table SN opt es))) paranoid (len (file (build_table SN opt es))) = Some (inr t) ∧
    InternalGets t (Some cache) gets = Some rs ∧ Forall2 (λ g r, get_answer opt es g.2 r) gets rs.
Proof.
  intros HL Hok Hff Hdom Hs Hg. destruct (new_sharded_ok (V := Block) capacity) as (cache & Hc & _ & Hsi & Hno).
  destruct (build_table_blocks SN opt es (to_entries _ Hok)) as (bs & Hne & Hcat & Hfits & _ & Hf & _ & _). specialize (Hfits Hff). subst es. rewrite Hf. exists cache, (opened opt cache_id bs).
  destruct (InternalGets_opened SN HS lru_block_cache lru_block_cache_laws opt cache_id bs dom gets (Some cache) HL Hne Hok Hfits Hdom Hs Hg) as (rs & Hrs & HF).
  { intros c0 [= <-] j b block _ Hh. exfalso. exact (Hno _ _ (Hh Hsi)). }
  exists rs. split; [done|]. split; [apply Open_table; auto|done].
Qed.

(** ** Witnesses *)

(** A cache of three units, and a run: three insertions whose handles are
    released, a lookup of the first, and one more insertion. *)
Definition cache_example : LRUCache Z :=
  match NewLRUCache with Some c => SetCapacity 3 c | None => {| capacity_ := 0; usage_ := 0; lru_ := []; in_use_ := [];
    table_ := {| length_ := 0; elems_ := 0; list_ := [] |}; heap := ∅; fresh := 0; deleted := [] |} end.

Definition run_example : list (CacheOp Z) :=
  [OpInsert [97] 1 1; OpRelease 0; OpInsert [98] 2 1; OpRelease 1; OpInsert [99] 3 1; OpRelease 2; OpLookup [97]; OpRelease 0; OpInsert [100] 4 1].

Fixpoint execs (os : list (CacheOp Z)) (c : LRUCache Z) : option (LRUCache Z) :=
  match os with
  | [] => Some c
  | o :: os => '(_, c) ← exec HashSlice o c; execs os c
  end.

(** The entry of 98, the least recently used, is dropped. *)
Lemma lru_cache_correct_witness :
  (c ← execs run_example cache_example; Some (lru_ c, in_use_ c, deleted c)) = Some ([2; 0]%nat, [3]%nat, [(1%nat, [98], 2)]) ∧
  ∃ r c', exec HashSlice (OpInsert [97] 1 1) cache_example = Some (r, c') ∧ answers (OpInsert [97] 1 1) r cache_example c' (λ _, 0).
Proof.
  split; [vm_compute; reflexivity|].
  destruct (lru_cache_correct HashSlice 3 cache_example (λ _, 0) 0 (λ _, 0%nat) (OpInsert [97] 1 1)) as (r & c' & He & _ & Ha & _).
  - apply HashSlice_ok.
  - apply (reach_new HashSlice 3 (V := Z)). reflexivity.
  - reflexivity.
  - exists r, c'. split; [exact He|exact Ha].
Defined.

Lemma table_get_lru_witness :
  ∃ cache t rs, NewShardedLRUCache (V := Block) 100 = Some cache ∧
    Open (SN := no_snappy) options_example 7 (mem_Read (file (@build_table no_snappy options_example table_example))) true
      (len (file (@build_table no_snappy options_example table_example))) = Some (inr t) ∧
    InternalGets (SN := no_snappy) t (Some cache) gets_example = Some rs ∧ Forall2 (λ g r, get_answer options_example table_example g.2 r) gets_example rs.
Proof.
  apply (table_get_lru (HS := no_snappy_laws) options_example 7 bytes_ok table_example true 100 gets_example).
  - apply _.
  - apply table_example_ok.
  - apply filter_example_fits.
  - by_decide.
  - unfold keys_sorted, table_example. repeat first [apply SSorted_cons | apply SSorted_nil | apply Forall_cons; split | apply Forall_nil | reflexivity].
  - by_decide.
Defined.
