(* ===== verification/Dependency.v ===== *)
(** * impl/dependency.h: where value-table blocks have moved

    [DependencyGraph] maps a block of a value table to the block that replaced
    it, so that an address stored before a compaction still finds its block;
    [Dependency] is the older union-find between file numbers. *)

From S2P Require Import Prelude Coding.

(** ** Data *)

Record BlockRange := { start_block : Z; end_block : Z }.

Definition Contains (r : BlockRange) (block_id : Z) : bool :=
  (block_id >=? start_block r) && (block_id <=? end_block r).

Definition Size (r : BlockRange) : Z := u32 (end_block r - start_block r + 1).

Record MappingEntry := {
  new_file_number : Z;
  new_block_range : BlockRange;
  ref_count : Z
}.

(** [BlockLocation]: a file number and a block id. *)
Abbreviation BlockLocation := (Z * Z)%type.

Abbreviation Mappings := (gmap BlockLocation MappingEntry).

(** ** DependencyGraph *)

(** [for (i = 0; i < Size(); ++i)]: the loop of [AddMapping] and of
    [AddRangeMapping], [n] turns from [i]. *)
Fixpoint AddMapping_loop (n : nat) (i : Z) (origin_file origin_start new_file new_start : Z)
    (m : Mappings) : Mappings :=
  match n with
  | O => m
  | S n' =>
      let single_block := {| start_block := u32 (new_start + i); end_block := u32 (new_start + i) |} in
      let m := <[(origin_file, u32 (origin_start + i)) :=
                 {| new_file_number := new_file; new_block_range := single_block; ref_count := 1 |}]> m in
      AddMapping_loop n' (i + 1) origin_file origin_start new_file new_start m
  end.

(** The blocks of a range, one by one. *)
Definition SetMappings (origin_file : Z) (origin_range : BlockRange) (new_file : Z) (new_range : BlockRange)
    (m : Mappings) : Mappings :=
  AddMapping_loop (Z.to_nat (Size origin_range)) 0 origin_file (start_block origin_range)
    new_file (start_block new_range) m.

(** [NDEBUG]: the build switch that leaves assertions out; [None] is the failed
    assertion that the ranges have the same size. *)
Definition AddMapping (NDEBUG : bool) (origin_file : Z) (origin_range : BlockRange) (new_file : Z) (new_range : BlockRange)
    (m : Mappings) : option Mappings :=
  if NDEBUG || (Size origin_range =? Size new_range) then Some (SetMappings origin_file origin_range new_file new_range m) else None.

Definition AddRangeMapping := AddMapping.

Definition max_redirect : nat := 10.

(** The loop of [LookupBlock]: the location reached, the number of redirects,
    and whether the loop ran to its bound. *)
Fixpoint LookupBlock_loop (turns : nat) (m : Mappings) (loc : BlockLocation) (redirects : Z)
    : BlockLocation * Z * bool :=
  match turns with
  | O => (loc, redirects, true)
  | S turns' =>
      match m !! loc with
      | None => (loc, redirects, false)
      | Some entry =>
          let offset := u32 (snd loc - snd loc) in
          if offset >=? Size (new_block_range entry) then (loc, redirects, false)
          else
            LookupBlock_loop turns' m
              (new_file_number entry, u32 (start_block (new_block_range entry) + offset)) (redirects + 1)
      end
  end.

(** The result, the new location and the number of redirects. *)
Definition LookupBlock (m : Mappings) (file_number block_id : Z) : bool * BlockLocation * Z :=
  let '(loc, redirects, at_bound) := LookupBlock_loop max_redirect m (file_number, block_id) 0 in
  let moved := negb (fst loc =? file_number) || negb (snd loc =? block_id) in
  (if at_bound then true else moved, loc, redirects).

Definition DecrementRef (file_number block_id : Z) (m : Mappings) : Mappings :=
  let loc := (file_number, block_id) in
  match m !! loc with
  | None => m
  | Some entry =>
      let count := u32 (ref_count entry - 1) in
      if count =? 0 then delete loc m
      else <[loc := {| new_file_number := new_file_number entry;
                       new_block_range := new_block_range entry; ref_count := count |}]> m
  end.

(** [for (block_id = start; block_id <= end; ++block_id)] on 32-bit integers;
    [None] is out of fuel. *)
Fixpoint DecrementRangeRef_loop (fuel : nat) (file_number block_id end_ : Z) (m : Mappings) : option Mappings :=
  match fuel with
  | O => None
  | S fuel' =>
      if block_id <=? end_
      then DecrementRangeRef_loop fuel' file_number (u32 (block_id + 1)) end_ (DecrementRef file_number block_id m)
      else Some m
  end.

Definition DecrementRangeRef (fuel : nat) (file_number : Z) (range : BlockRange) (m : Mappings) : option Mappings :=
  DecrementRangeRef_loop fuel file_number (start_block range) (end_block range) m.

(** The new map and the number of entries removed. *)
Definition GarbageCollect (m : Mappings) : Mappings * nat :=
  let kept := filter (λ p, ref_count p.2 ≠ 0) m in
  (kept, (size m - size kept)%nat).

(** *** The file *)

Definition EncodeMapping (p : BlockLocation * MappingEntry) : bytes :=
  let '((file_number, block_id), entry) := p in
  EncodeFixed64 file_number ++ EncodeFixed32 block_id ++ EncodeFixed64 (new_file_number entry) ++
  EncodeFixed32 (start_block (new_block_range entry)) ++ EncodeFixed32 (end_block (new_block_range entry)) ++
  EncodeFixed32 (ref_count entry).

(** The bytes [SaveToFile] writes; [l] is the map in the order its iteration
    has, which C++ leaves open. *)
Definition SaveBytes (l : list (BlockLocation * MappingEntry)) : bytes :=
  EncodeFixed32 1 ++ EncodeFixed32 (u32 (len l)) ++ concat (map EncodeMapping l).

(** A file system with this one file; [writable] tells whether it opens for
    writing. *)
Record FileState := { contents : option bytes; writable : bool }.

Definition SaveToFile (l : list (BlockLocation * MappingEntry)) (f : FileState) : FileState * bool :=
  if writable f then ({| contents := Some (SaveBytes l); writable := true |}, true) else (f, false).

(** [ifs.read] of [n] bytes: [None] when the stream is no longer good. *)
Definition read (n : Z) (s : bytes) : option (bytes * bytes) :=
  if len s <? n then None else Some (first n s, skip n s).

Definition ReadMapping (s : bytes) : option ((BlockLocation * MappingEntry) * bytes) :=
  '(a, s) ← read 8 s;
  '(b, s) ← read 4 s;
  '(c, s) ← read 8 s;
  '(d, s) ← read 4 s;
  '(e, s) ← read 4 s;
  '(g, s) ← read 4 s;
  Some (((DecodeFixed64 a, DecodeFixed32 b),
         {| new_file_number := DecodeFixed64 c;
            new_block_range := {| start_block := DecodeFixed32 d; end_block := DecodeFixed32 e |};
            ref_count := DecodeFixed32 g |}), s).

Fixpoint ReadMappings (count : nat) (s : bytes) (m : Mappings) : option Mappings :=
  match count with
  | O => Some m
  | S count' => '((loc, entry), s) ← ReadMapping s; ReadMappings count' s (<[loc := entry]> m)
  end.

(** The map of a good file; [None] is the branch that starts over with an empty
    graph. *)
Definition LoadBytes (s : bytes) : option Mappings :=
  '(v, s) ← read 4 s;
  if negb (DecodeFixed32 v =? 1) then None
  else
    '(c, s) ← read 4 s;
    ReadMappings (Z.to_nat (DecodeFixed32 c)) s ∅.

Definition LoadFromFile (f : FileState) : Mappings * FileState * bool :=
  let fresh := let '(f, ok) := SaveToFile [] f in (∅, f, ok) in
  match contents f with
  | None => fresh
  | Some s => match LoadBytes s with Some m => (m, f, true) | None => fresh end
  end.

Definition Clear (m : Mappings) : Mappings := ∅.

(** ** Dependency: union-find with path compression *)

Module UnionFind.

Abbreviation dep_map := (gmap Z Z).

(** [None] is out of fuel. *)
Fixpoint FindParent (fuel : nat) (child : Z) (m : dep_map) : option (Z * dep_map) :=
  match fuel with
  | O => None
  | S fuel' =>
      let m := match m !! child with None => <[child := child]> m | Some _ => m end in
      let p := default child (m !! child) in
      if negb (p =? child) then
        '(r, m) ← FindParent fuel' p m;
        Some (r, <[child := r]> m)
      else Some (p, m)
  end.

Definition SetParent (fuel : nat) (parent child : Z) (m : dep_map) : option dep_map :=
  '(root1, m) ← FindParent fuel parent m;
  '(root2, m) ← FindParent fuel child m;
  if root1 =? root2 then Some m else Some (<[root2 := root1]> m).

End UnionFind.

(** ** Lemmas: chains of redirections *)

(** Entries as [AddMapping] makes them: one block, which fits its type. *)
Definition entry_wf (e : MappingEntry) : Prop :=
  u64_ok (new_file_number e) ∧ u32_ok (start_block (new_block_range e)) ∧
  end_block (new_block_range e) = start_block (new_block_range e) ∧ u32_ok (ref_count e).

Definition graph_wf (m : Mappings) : Prop := map_Forall (λ _ e, entry_wf e) m.

Definition target (e : MappingEntry) : BlockLocation := (new_file_number e, start_block (new_block_range e)).

(** [path m loc d fin]: [d] redirections lead from [loc] to [fin]. *)
Inductive path (m : Mappings) : BlockLocation → nat → BlockLocation → Prop :=
  | path_here loc : path m loc 0 loc
  | path_step loc e d fin : m !! loc = Some e → path m (target e) d fin → path m loc (S d) fin.

Lemma Size_single e : entry_wf e → Size (new_block_range e) = 1.
Proof. intros (_ & _ & H & _). unfold Size. by rewrite H, Z.sub_diag. Qed.

Lemma LookupBlock_loop_path turns m loc d fin r :
  graph_wf m → path m loc d fin → (d ≤ turns)%nat →
  LookupBlock_loop turns m loc r = LookupBlock_loop (turns - d) m fin (r + Z.of_nat d).
Proof.
  intros Hwf Hp. revert turns r. induction Hp as [loc|loc e d fin He Hp IH]; intros turns r Hd.
  { by rewrite Nat.sub_0_r, Z.add_0_r. }
  destruct turns as [|turns]; [lia|]. cbn [LookupBlock_loop]. rewrite He, Z.sub_diag.
  pose proof (Hwf _ _ He) as Hew. rewrite (Size_single e Hew). change (u32 0) with 0.
  rewrite Z.add_0_r, u32_id by apply Hew. cbn [Z.geb Z.compare]. fold (target e). rewrite (IH turns (r + 1)) by lia.
  f_equal; lia.
Qed.

(** A chain that ends within the bound is followed to its end. *)
Lemma LookupBlock_path m f b d fin :
  graph_wf m → path m (f, b) d fin → m !! fin = None → (d ≤ max_redirect)%nat →
  LookupBlock m f b = (bool_decide (d = max_redirect) || bool_decide (fin ≠ (f, b)), fin, Z.of_nat d).
Proof.
  intros Hwf Hp Hfin Hd. unfold LookupBlock. rewrite (LookupBlock_loop_path _ m _ d fin 0 Hwf Hp Hd).
  rewrite Z.add_0_l.
  assert (negb (fst fin =? f) || negb (snd fin =? b) = bool_decide (fin ≠ (f, b))) as Hne.
  { destruct fin as [f' b']. cbn. destruct (Z.eqb_spec f' f), (Z.eqb_spec b' b); subst; cbn;
      symmetry; apply bool_decide_eq_true || apply bool_decide_eq_false; naive_solver. }
  destruct (max_redirect - d)%nat eqn:E; cbn [LookupBlock_loop].
  - by rewrite (bool_decide_true (d = _)) by lia.
  - by rewrite Hfin, Hne, (bool_decide_false (d = _)) by lia.
Qed.

(** ** Lemmas: adding mappings *)

(** Block [i] of the range at [s] is [(f, s + i)]. *)
Lemma AddMapping_loop_lookup n i o s nf s' m k :
  0 ≤ s → 0 ≤ s' → 0 ≤ i → s + i + Z.of_nat n ≤ 2 ^ 32 → s' + i + Z.of_nat n ≤ 2 ^ 32 →
  AddMapping_loop n i o s nf s' m !! k =
  if bool_decide (k.1 = o ∧ s + i ≤ k.2 < s + i + Z.of_nat n) then
    Some {| new_file_number := nf;
            new_block_range := {| start_block := s' + (k.2 - s); end_block := s' + (k.2 - s) |};
            ref_count := 1 |}
  else m !! k.
Proof.
  intros Hs Hs'. revert i m. induction n as [|n IH]; intros i m Hi Hn Hn'; cbn [AddMapping_loop].
  { rewrite bool_decide_false by lia. done. }
  rewrite IH by lia. rewrite !u32_id by (unfold u32_ok; lia). destruct k as [kf kb]. cbn [fst snd].
  destruct (decide (kf = o ∧ kb = s + i)) as [[-> ->]|Hne].
  - rewrite (bool_decide_true (o = o ∧ s + i ≤ s + i < s + i + Z.of_nat (S n))) by lia.
    rewrite bool_decide_false by lia. rewrite lookup_insert_eq. do 3 f_equal; lia.
  - rewrite lookup_insert_ne by naive_solver.
    destruct (bool_decide_reflect (kf = o ∧ s + (i + 1) ≤ kb < s + (i + 1) + Z.of_nat n)) as [H|H].
    + rewrite bool_decide_true by lia. done.
    + rewrite bool_decide_false; [done|]. intros [-> ?]. apply H. split; [done|]. naive_solver lia.
Qed.

(** A range of [n] blocks that fits 32 bits. *)
Definition range_ok (r : BlockRange) : Prop := 0 ≤ start_block r ≤ end_block r ∧ end_block r < 2 ^ 32 - 1.

Lemma Size_ok r : range_ok r → Size r = end_block r - start_block r + 1.
Proof. intros [? ?]. unfold Size. apply u32_id. unfold u32_ok. lia. Qed.

Lemma SetMappings_lookup o r nf r' m k :
  range_ok r → range_ok r' → Size r = Size r' →
  SetMappings o r nf r' m !! k =
  if bool_decide (k.1 = o ∧ start_block r ≤ k.2 ≤ end_block r) then
    Some {| new_file_number := nf;
            new_block_range := {| start_block := start_block r' + (k.2 - start_block r);
                                  end_block := start_block r' + (k.2 - start_block r) |};
            ref_count := 1 |}
  else m !! k.
Proof.
  intros Hr Hr' HS. pose proof (Size_ok r Hr) as E. pose proof (Size_ok r' Hr') as E'.
  destruct Hr as [? ?], Hr' as [? ?]. unfold SetMappings. rewrite AddMapping_loop_lookup by lia.
  rewrite Z2Nat.id, !Z.add_0_r by lia. erewrite bool_decide_ext; [done|]. lia.
Qed.

Section moved.

Context (m : Mappings) (o : Z) (r : BlockRange) (nf : Z) (r' : BlockRange).
Context (Hwf : graph_wf m) (Hr : range_ok r) (Hr' : range_ok r') (HS : Size r = Size r') (Hnf : u64_ok nf).

(** The blocks that move are where they were last put, and the place they move
    to is new. *)
Definition live : Prop := ∀ b, start_block r ≤ b ≤ end_block r → m !! (o, b) = None.
Definition fresh : Prop := ∀ b, start_block r' ≤ b ≤ end_block r' →
  m !! (nf, b) = None ∧ ¬ (nf = o ∧ start_block r ≤ b ≤ end_block r).

Let m' := SetMappings o r nf r' m.

Lemma SetMappings_wf : graph_wf m'.
Proof.
  intros k e. unfold m'. rewrite SetMappings_lookup by done. case_bool_decide as Hk; [|apply Hwf].
  intros [= <-]. pose proof (Size_ok r Hr). pose proof (Size_ok r' Hr'). destruct Hr, Hr'.
  unfold entry_wf. cbn. unfold u32_ok, u64_ok in *. lia.
Qed.

(** Chains that end in a block that stays keep their end. *)
Lemma path_kept loc d fin :
  live → path m loc d fin → path m' loc d fin.
Proof.
  intros Hlive Hp. induction Hp as [loc|[f b] e d fin He Hp IH]; [constructor|].
  apply (path_step _ _ e); [|done]. unfold m'. rewrite SetMappings_lookup by done.
  rewrite bool_decide_false; [done|]. cbn. intros [-> Hb]. by rewrite (Hlive b Hb) in He.
Qed.

(** Chains that end in a block that moves are one longer. *)
Lemma path_moved loc d b :
  live → start_block r ≤ b ≤ end_block r → path m loc d (o, b) →
  path m' loc (S d) (nf, start_block r' + (b - start_block r)).
Proof.
  intros Hlive Hb Hp. apply path_kept in Hp; [|done].
  remember (o, b) as fin eqn:E. induction Hp as [loc|loc e d fin He Hp IH].
  - subst. set (x := start_block r' + (b - start_block r)).
    apply (path_step _ _ {| new_file_number := nf; ref_count := 1;
      new_block_range := {| start_block := x; end_block := x |} |}); [|apply path_here].
    unfold m'. rewrite SetMappings_lookup by done. by rewrite bool_decide_true.
  - apply (path_step _ _ e); auto.
Qed.

Lemma fresh_unmapped b : fresh → start_block r ≤ b ≤ end_block r →
  m' !! (nf, start_block r' + (b - start_block r)) = None.
Proof.
  intros Hf Hb. pose proof (Size_ok r Hr). pose proof (Size_ok r' Hr').
  destruct (Hf (start_block r' + (b - start_block r)) ltac:(lia)) as [H1 H2].
  unfold m'. rewrite SetMappings_lookup by done. by rewrite bool_decide_false.
Qed.

End moved.

(** ** Lemmas: the file *)

Definition key_ok (k : BlockLocation) : Prop := u64_ok k.1 ∧ u32_ok k.2.

Lemma read_app a s n : n = len a → read n (a ++ s) = Some (a, s).
Proof.
  intros ->. unfold read. rewrite len_app. pose proof (len_nonneg s).
  rewrite (proj2 (Z.ltb_ge _ _)) by lia. by rewrite first_app, skip_app.
Qed.

(** The fields of an entry of any shape fit their types. *)
Definition entry_fits (e : MappingEntry) : Prop :=
  u64_ok (new_file_number e) ∧ u32_ok (start_block (new_block_range e)) ∧
  u32_ok (end_block (new_block_range e)) ∧ u32_ok (ref_count e).

Lemma ReadMapping_encode p s :
  key_ok p.1 → entry_fits p.2 → ReadMapping (EncodeMapping p ++ s) = Some (p, s).
Proof.
  destruct p as [[f b] [nf [st en] rc]]. intros [Hf Hb] (H1 & H2 & H3 & H4). cbn in *.
  unfold ReadMapping. rewrite <- !app_assoc.
  repeat (rewrite read_app by (by rewrite ?len_EncodeFixed64, ?len_EncodeFixed32); cbn [mbind option_bind]).
  by rewrite !DecodeFixed64_enc, !DecodeFixed32_enc.
Qed.

Lemma ReadMappings_encode l s m :
  Forall (λ p, key_ok p.1 ∧ entry_fits p.2) l →
  ReadMappings (length l) (concat (map EncodeMapping l) ++ s) m
    = Some (foldl (λ m p, <[p.1 := p.2]> m) m l).
Proof.
  revert m. induction l as [|p l IH]; intros m Hl; [done|]. apply Forall_cons in Hl as [[Hk He] Hl].
  cbn [map concat length ReadMappings foldl]. rewrite <- app_assoc, ReadMapping_encode by done.
  cbn [mbind option_bind]. destruct p as [loc e]. by apply IH.
Qed.

Lemma foldl_insert l : NoDup l.*1 → foldl (λ m p, <[p.1 := p.2]> m) ∅ l = (list_to_map l : Mappings).
Proof.
  induction l as [|[k e] l IH] using rev_ind; intros Hnd; [done|].
  rewrite fmap_app in Hnd. apply NoDup_app in Hnd as (Hnd & Hk & _).
  rewrite foldl_app, list_to_map_snoc, IH by (done || (intros Hin; apply (Hk k Hin); by left)). done.
Qed.

Lemma LoadBytes_save (m : Mappings) l :
  l ≡ₚ map_to_list m → map_Forall (λ k e, key_ok k ∧ entry_fits e) m → len l < 2 ^ 32 →
  LoadBytes (SaveBytes l) = Some m.
Proof.
  intros Hl Hm Hn. unfold LoadBytes, SaveBytes.
  rewrite read_app by (by rewrite len_EncodeFixed32). cbn [mbind option_bind].
  rewrite DecodeFixed32_enc by by_decide. cbn [Z.eqb Pos.eqb negb].
  rewrite read_app by (by rewrite len_EncodeFixed32). cbn [mbind option_bind].
  pose proof (len_nonneg l).
  rewrite DecodeFixed32_enc, u32_id by (apply u32_range || (unfold u32_ok; lia)).
  unfold len. rewrite Nat2Z.id, <- (app_nil_r (concat _)), ReadMappings_encode.
  - rewrite foldl_insert by (rewrite Hl; apply NoDup_fst_map_to_list).
    f_equal. rewrite (list_to_map_proper l (map_to_list m)); [apply list_to_map_to_list| |done].
    rewrite Hl. apply NoDup_fst_map_to_list.
  - rewrite Hl. apply map_Forall_to_list in Hm. eapply Forall_impl; [exact Hm|]. by intros [k e].
Qed.

(** ** Lemmas: dropping references *)

Lemma DecrementRef_lookup f b m k :
  k ≠ (f, b) → DecrementRef f b m !! k = m !! k.
Proof.
  intros Hne. unfold DecrementRef. destruct (m !! (f, b)) as [e|]; [|done].
  case_if; [by rewrite lookup_delete_ne|by rewrite lookup_insert_ne].
Qed.

Lemma DecrementRef_local f b m1 m2 :
  m1 !! (f, b) = m2 !! (f, b) → DecrementRef f b m1 !! (f, b) = DecrementRef f b m2 !! (f, b).
Proof.
  intros E. unfold DecrementRef. rewrite E. destruct (m2 !! (f, b)) as [e|] eqn:E2; [|congruence].
  case_if; [by rewrite !lookup_delete_eq|by rewrite !lookup_insert_eq].
Qed.

Lemma DecrementRangeRef_loop_ok fuel f b en m :
  0 ≤ b → en < 2 ^ 32 - 1 → (Z.to_nat (en - b + 1) < fuel)%nat →
  ∃ m', DecrementRangeRef_loop fuel f b en m = Some m' ∧
    ∀ k, m' !! k = if bool_decide (k.1 = f ∧ b ≤ k.2 ≤ en) then DecrementRef f k.2 m !! k else m !! k.
Proof.
  intros Hb Hen. revert b m Hb. induction fuel as [|fuel IH]; intros b m Hb Hf; [lia|].
  cbn [DecrementRangeRef_loop]. destruct (Z.leb_spec b en) as [Hle|Hgt].
  - rewrite u32_id by (unfold u32_ok; lia).
    destruct (IH (b + 1) (DecrementRef f b m) ltac:(lia) ltac:(lia)) as (m' & -> & Hm').
    exists m'. split; [done|]. intros [kf kb]. rewrite Hm'. cbn [fst snd].
    destruct (decide (kf = f ∧ kb = b)) as [[-> ->]|Hne].
    + rewrite bool_decide_false, bool_decide_true by lia. done.
    + rewrite (DecrementRef_lookup f b m (kf, kb)) by naive_solver.
      destruct (bool_decide_reflect (kf = f ∧ b + 1 ≤ kb ≤ en)) as [[-> ?]|H].
      * rewrite bool_decide_true by lia. apply DecrementRef_local, DecrementRef_lookup. naive_solver.
      * rewrite bool_decide_false; [done|]. intros [-> ?]. apply H. split; [done|]. naive_solver lia.
  - exists m. split; [done|]. intros k. by rewrite bool_decide_false by lia.
Qed.

(** ** Lemmas: union-find *)

Module UnionFindProofs.
Import UnionFind.

(** [roots m x d r]: [r] is the representative of [x], [d] links away. *)
Inductive roots (m : dep_map) : Z → nat → Z → Prop :=
  | roots_none x : m !! x = None → roots m x 0 x
  | roots_self x : m !! x = Some x → roots m x 0 x
  | roots_up x p d r : m !! x = Some p → p ≠ x → roots m p d r → roots m x (S d) r.

(** Every chain ends, within [n] links. *)
Definition forest (n : nat) (m : dep_map) : Prop := ∀ x, ∃ d r, roots m x d r ∧ (d < n)%nat.

Lemma roots_det m x d r d' r' : roots m x d r → roots m x d' r' → d = d' ∧ r = r'.
Proof.
  intros H. revert d' r'. induction H as [x Hx|x Hx|x p d r Hx Hne H IH]; intros d' r' H';
    inversion H'; simplify_eq; try done.
  edestruct IH; [done|]. by subst.
Qed.

Lemma roots_root m x d r : roots m x d r → m !! r = None ∨ m !! r = Some r.
Proof. induction 1; eauto. Qed.

(** Pointing [x] at its representative keeps every representative. *)
Lemma roots_compress m x d r y e s :
  roots m x d r → (x = r ∨ m !! r = Some r) → roots m y e s →
  ∃ e', (e' ≤ e)%nat ∧ roots (<[x := r]> m) y e' s.
Proof.
  intros Hx Hr Hy.
  assert (∃ e', (e' ≤ d)%nat ∧ roots (<[x := r]> m) x e' r) as Hxx.
  { destruct (decide (x = r)) as [->|Hne].
    - exists 0%nat. split; [lia|]. apply roots_self, lookup_insert_eq.
    - exists 1%nat. split.
      + destruct Hx; [done..|lia].
      + destruct Hr as [|Hr]; [done|]. apply (roots_up _ _ r); [apply lookup_insert_eq|done|].
        apply roots_self. by rewrite lookup_insert_ne. }
  induction Hy as [y Hy|y Hy|y p e s Hy Hne Hp IH].
  - destruct (decide (y = x)) as [->|Hyx].
    + destruct (roots_det _ _ _ _ _ _ Hx (roots_none m x Hy)) as [-> ->]. done.
    + exists 0%nat. split; [done|]. apply roots_none. by rewrite lookup_insert_ne.
  - destruct (decide (y = x)) as [->|Hyx].
    + destruct (roots_det _ _ _ _ _ _ Hx (roots_self m x Hy)) as [-> ->]. done.
    + exists 0%nat. split; [done|]. apply roots_self. by rewrite lookup_insert_ne.
  - destruct (decide (y = x)) as [->|Hyx].
    + destruct (roots_det _ _ _ _ _ _ Hx (roots_up m x p e s Hy Hne Hp)) as [-> ->]. done.
    + destruct IH as (e' & He' & IH). exists (S e'). split; [lia|].
      apply (roots_up _ _ p); [by rewrite lookup_insert_ne|done|done].
Qed.

(** [m'] has the representatives of [m], no further away. *)
Definition refines (m m' : dep_map) : Prop :=
  ∀ y e s, roots m y e s → ∃ e', (e' ≤ e)%nat ∧ roots m' y e' s.

#[local] Instance refines_preorder : PreOrder refines.
Proof.
  split; [intros m y e s H; eauto|]. intros m1 m2 m3 H1 H2 y e s H.
  destruct (H1 _ _ _ H) as (e1 & ? & Hy1). destruct (H2 _ _ _ Hy1) as (e2 & ? & ?). exists e2. split; [lia|done].
Qed.

Lemma refines_forest n m m' : refines m m' → forest n m → forest n m'.
Proof.
  intros Hr Hf x. destruct (Hf x) as (d & r & Hx & Hd). destruct (Hr _ _ _ Hx) as (d' & ? & ?).
  exists d', r. split; [done|lia].
Qed.

(** [FindParent] returns the representative and only shortens chains. *)
Lemma FindParent_ok fuel x m d r :
  roots m x d r → (d < fuel)%nat →
  ∃ m', FindParent fuel x m = Some (r, m') ∧ refines m m' ∧ m' !! r = Some r.
Proof.
  revert x m d. induction fuel as [|fuel IH]; intros x m d Hx Hd; [lia|]. cbn [FindParent].
  inversion Hx as [y Hy|y Hy|y p d' r' Hy Hne Hp]; subst; rewrite Hy.
  - rewrite lookup_insert_eq. cbn [default from_option id]. rewrite Z.eqb_refl. cbn [negb]. eexists. split; [done|].
    split; [|apply lookup_insert_eq]. intros y e s Hys. apply (roots_compress m r 0 r); [done|by left|done].
  - rewrite Hy. cbn [default from_option id]. rewrite Z.eqb_refl. cbn [negb]. eexists. split; [done|]. by split.
  - rewrite Hy. cbn [default from_option id]. rewrite (proj2 (Z.eqb_neq _ _)) by done. cbn [negb].
    destruct (IH p m d' Hp ltac:(lia)) as (m1 & -> & Hr1 & Hroot). cbn [mbind option_bind].
    eexists. split; [done|]. destruct (Hr1 _ _ _ Hx) as (e1 & _ & Hx1).
    split; [transitivity m1; [done|]|].
    + intros y e s Hys. apply (roots_compress m1 x e1 r); [done|by right|done].
    + destruct (decide (x = r)) as [->|]; [apply lookup_insert_eq|by rewrite lookup_insert_ne].
Qed.

(** Linking one root under another. *)
Lemma roots_link m r1 r2 y e s :
  roots m r1 0 r1 → m !! r2 = Some r2 → r1 ≠ r2 → roots m y e s →
  ∃ e', (e' ≤ S e)%nat ∧ roots (<[r2 := r1]> m) y e' (if s =? r2 then r1 else s).
Proof.
  intros H1 Hr2 Hne Hy. assert (roots (<[r2 := r1]> m) r2 1 r1) as H2.
  { apply (roots_up _ _ r1); [apply lookup_insert_eq|done|].
    inversion H1; [apply roots_none|apply roots_self]; by rewrite lookup_insert_ne. }
  induction Hy as [y Hy|y Hy|y p e s Hy Hyp Hp IH].
  - destruct (Z.eqb_spec y r2) as [->|]; [eauto|]. exists 0%nat. split; [lia|].
    apply roots_none. by rewrite lookup_insert_ne.
  - destruct (Z.eqb_spec y r2) as [->|]; [eauto|]. exists 0%nat. split; [lia|].
    apply roots_self. by rewrite lookup_insert_ne.
  - destruct (decide (y = r2)) as [->|Hyr]; [congruence|].
    destruct IH as (e' & He' & IH). exists (S e'). split; [lia|].
    apply (roots_up _ _ p); [by rewrite lookup_insert_ne|done|done].
Qed.

(** [SetParent] gives the class of [child] the representative of [parent]. *)
Lemma SetParent_ok fuel parent child m d1 r1 d2 r2 :
  forest fuel m → roots m parent d1 r1 → roots m child d2 r2 →
  ∃ m', SetParent fuel parent child m = Some m' ∧
    (∀ y e s, roots m y e s → ∃ e', (e' ≤ S e)%nat ∧ roots m' y e' (if s =? r2 then r1 else s)).
Proof.
  intros Hf H1 H2. unfold SetParent.
  assert (∀ n m x d r, forest n m → roots m x d r → (d < n)%nat) as Hdepth.
  { intros n m0 x d r Hn Hx. destruct (Hn x) as (d' & r' & Hx' & ?).
    by destruct (roots_det _ _ _ _ _ _ Hx Hx') as [-> _]. }
  destruct (FindParent_ok fuel parent m d1 r1 H1 (Hdepth _ _ _ _ _ Hf H1)) as (m1 & -> & Hr1 & Hroot1).
  cbn [mbind option_bind]. destruct (Hr1 _ _ _ H2) as (d2' & Hd2 & H2').
  destruct (FindParent_ok fuel child m1 d2' r2 H2') as (m2 & -> & Hr2 & Hroot2).
  { apply (Hdepth _ m1 child _ r2); [|done]. by apply (refines_forest _ m). }
  cbn [mbind option_bind]. assert (refines m m2) as Hr by (by transitivity m1).
  assert (roots m2 r1 0 r1) as Hroot1'.
  { destruct (Hr2 _ _ _ (roots_self m1 r1 Hroot1)) as (e & He & Hre). by assert (e = 0%nat) as -> by lia. }
  destruct (Z.eqb_spec r1 r2) as [->|Hne].
  - eexists. split; [done|]. intros y e s Hy. destruct (Hr _ _ _ Hy) as (e' & He' & Hy').
    exists e'. split; [lia|]. destruct (Z.eqb_spec s r2); by subst.
  - eexists. split; [done|]. intros y e s Hy. destruct (Hr _ _ _ Hy) as (e' & He' & Hy').
    destruct (roots_link m2 r1 r2 y e' s Hroot1' Hroot2 Hne Hy') as (e2 & He2 & Hl). exists e2. split; [lia|done].
Qed.

End UnionFindProofs.

(** ** Properties *)

(** C28: a block that has been moved is found. Moving the blocks of a range of
    one value table to fresh blocks of another with [AddMapping] keeps the graph
    well-formed; every chain of redirections that ended in a moved block ends,
    one redirect later, in the block that replaced it, every other chain keeps
    its end, and [LookupBlock] follows any chain of at most ten redirects to
    its end. *)
Theorem moved_blocks_found NDEBUG m o r nf r' f b d fin :
  graph_wf m → range_ok r → range_ok r' → Size r = Size r' → u64_ok nf →
  live m o r → fresh m o r nf r' → path m (f, b) d fin → m !! fin = None → (d < max_redirect)%nat →
  ∃ m', AddMapping NDEBUG o r nf r' m = Some m' ∧
  graph_wf m' ∧
  LookupBlock m f b = (bool_decide (fin ≠ (f, b)), fin, Z.of_nat d) ∧
  if bool_decide (fin.1 = o ∧ start_block r ≤ fin.2 ≤ end_block r) then
    LookupBlock m' f b =
      (bool_decide (S d = max_redirect) || bool_decide ((nf, start_block r' + (fin.2 - start_block r)) ≠ (f, b)),
       (nf, start_block r' + (fin.2 - start_block r)), Z.of_nat (S d))
  else LookupBlock m' f b = (bool_decide (fin ≠ (f, b)), fin, Z.of_nat d).
Proof.
  intros Hwf Hr Hr' HS Hnf Hlive Hfresh Hp Hfin Hd. set (m' := SetMappings o r nf r' m). exists m'.
  split; [unfold AddMapping; by rewrite HS, Z.eqb_refl, orb_true_r|].
  pose proof (SetMappings_wf m o r nf r' Hwf Hr Hr' HS Hnf) as Hwf'. fold m' in Hwf'.
  split; [done|]. split.
  { rewrite (LookupBlock_path m f b d fin Hwf Hp Hfin) by lia. by rewrite bool_decide_false by lia. }
  case_bool_decide as Hin.
  - destruct fin as [ff fb]. destruct Hin as [Hff Hfb]. cbn [fst snd] in *. subst ff.
    apply LookupBlock_path; [done| | |lia].
    + by apply path_moved.
    + by apply fresh_unmapped.
  - rewrite (LookupBlock_path m' f b d fin Hwf'); [by rewrite bool_decide_false by lia| | |lia].
    + by apply path_kept.
    + unfold m'. rewrite SetMappings_lookup by done. by rewrite bool_decide_false.
Qed.

(** Block 4 of file 7 was moved to block 1 of file 8; now blocks 0..2 of file 8
    move to blocks 5..7 of file 9. *)
Definition graph_example : Mappings :=
  SetMappings 7 {| start_block := 4; end_block := 4 |} 8 {| start_block := 1; end_block := 1 |} ∅.

Lemma moved_blocks_found_witness :
  ∃ m', AddMapping false 8 {| start_block := 0; end_block := 2 |} 9 {| start_block := 5; end_block := 7 |} graph_example = Some m' ∧
    LookupBlock m' 7 4 = (true, (9, 6), 2).
Proof.
  destruct (moved_blocks_found false graph_example 8 {| start_block := 0; end_block := 2 |} 9
    {| start_block := 5; end_block := 7 |} 7 4 1 (8, 1)) as (m' & Hm & _ & _ & H); [..|exists m'; split; [exact Hm|exact H]].
  - apply SetMappings_wf; try done; unfold range_ok, u64_ok; cbn; try lia.
  - unfold range_ok. cbn. lia.
  - unfold range_ok. cbn. lia.
  - done.
  - unfold u64_ok. lia.
  - intros b Hb. cbn in Hb. unfold graph_example. rewrite SetMappings_lookup by (done || (unfold range_ok; cbn; lia)).
    rewrite bool_decide_false by (cbn; lia). done.
  - intros b Hb. cbn in Hb. unfold graph_example. rewrite SetMappings_lookup by (done || (unfold range_ok; cbn; lia)).
    rewrite bool_decide_false by (cbn; lia). split; [done|lia].
  - eapply path_step; [by vm_compute|]. apply path_here.
  - by vm_compute.
  - unfold max_redirect. lia.
Defined.

(** The bound on redirects is a bound on correctness: of a chain of eleven
    moves [LookupBlock] returns the tenth block, which has itself been moved,
    and says it found it. *)
Theorem LookupBlock_long_chain m f b e mid :
  graph_wf m → path m (f, b) max_redirect mid → m !! mid = Some e →
  LookupBlock m f b = (true, mid, 10).
Proof.
  intros Hwf Hp _. unfold LookupBlock.
  by rewrite (LookupBlock_loop_path max_redirect m _ max_redirect mid 0 Hwf Hp) by done.
Qed.

(** Block 0 moves from file [n] to file [n + 1], eleven times. *)
Definition long_chain : Mappings :=
  foldl (λ m n, SetMappings n {| start_block := 0; end_block := 0 |} (n + 1) {| start_block := 0; end_block := 0 |} m)
    ∅ (seqZ 1 11).

Lemma LookupBlock_long_chain_witness :
  LookupBlock long_chain 1 0 = (true, (11, 0), 10) ∧ is_Some (long_chain !! (11, 0)).
Proof.
  assert (long_chain !! (11, 0) = Some {| new_file_number := 12;
    new_block_range := {| start_block := 0; end_block := 0 |}; ref_count := 1 |}) as He by (by vm_compute).
  split; [|by rewrite He].
  apply (LookupBlock_long_chain long_chain 1 0 {| new_file_number := 12;
    new_block_range := {| start_block := 0; end_block := 0 |}; ref_count := 1 |}); [| |done].
  - apply map_Forall_to_list. unfold entry_wf, u64_ok, u32_ok. by_decide.
  - do 10 (eapply path_step; [by vm_compute|]). apply path_here.
Defined.

(** The graph survives the file, whatever order the hash map is iterated
    in, and a file that is missing or damaged (here: a wrong version) gives an
    empty graph and rewrites the file. *)
Theorem graph_file_roundtrip m l f :
  l ≡ₚ map_to_list m → map_Forall (λ k e, key_ok k ∧ entry_fits e) m → len l < 2 ^ 32 → writable f = true →
  LoadFromFile (fst (SaveToFile l f)) = (m, fst (SaveToFile l f), true) ∧
  (contents f = None ∨ (∃ s, contents f = Some s ∧ LoadBytes s = None) →
    LoadFromFile f = (∅, {| contents := Some (SaveBytes []); writable := true |}, true)).
Proof.
  intros Hl Hm Hn Hw. unfold SaveToFile, LoadFromFile. rewrite Hw. cbn [fst contents].
  rewrite (LoadBytes_save m l Hl Hm Hn). split; [done|].
  intros [->|(s & -> & ->)]; unfold SaveToFile; by rewrite Hw.
Qed.

Lemma graph_file_roundtrip_witness :
  let l := map_to_list graph_example in
  let f := {| contents := Some [2; 0; 0; 0; 1]; writable := true |} in
  LoadFromFile (fst (SaveToFile l f)) = (graph_example, fst (SaveToFile l f), true) ∧
  LoadFromFile f = (∅, {| contents := Some (SaveBytes []); writable := true |}, true).
Proof.
  intros l f. destruct (graph_file_roundtrip graph_example l f) as [H1 H2].
  - done.
  - apply map_Forall_to_list. unfold key_ok, entry_fits, u64_ok, u32_ok. by_decide.
  - by vm_compute.
  - done.
  - split; [done|]. apply H2. right. by exists [2; 0; 0; 0; 1].
Defined.

(** [DecrementRangeRef] ends and drops one reference of each block of the
    range and of no other; except for a range that ends at the last 32-bit
    block id, where the loop variable wraps and the loop never ends. *)
Theorem DecrementRangeRef_bounds f r m fuel :
  0 ≤ start_block r →
  (end_block r < 2 ^ 32 - 1 → (Z.to_nat (end_block r - start_block r + 1) < fuel)%nat →
     ∃ m', DecrementRangeRef fuel f r m = Some m' ∧
       ∀ k, m' !! k = if bool_decide (k.1 = f ∧ start_block r ≤ k.2 ≤ end_block r)
                      then DecrementRef f k.2 m !! k else m !! k) ∧
  (end_block r = 2 ^ 32 - 1 → start_block r < 2 ^ 32 → DecrementRangeRef fuel f r m = None).
Proof.
  intros Hs. split.
  - intros He Hf. by apply DecrementRangeRef_loop_ok.
  - intros He Hs2. unfold DecrementRangeRef. rewrite He. generalize dependent m.
    assert (u32_ok (start_block r)) as Hb by (unfold u32_ok; lia). revert Hb. generalize (start_block r).
    induction fuel as [|fuel IH]; intros b Hb m; [done|]. cbn [DecrementRangeRef_loop].
    rewrite (proj2 (Z.leb_le _ _)) by (unfold u32_ok in Hb; lia). apply IH, u32_range.
Qed.

Lemma DecrementRangeRef_bounds_witness :
  ∃ m', DecrementRangeRef 5 7 {| start_block := 3; end_block := 5 |} graph_example = Some m' ∧
    m' !! (7, 4) = None.
Proof.
  destruct (DecrementRangeRef_bounds 7 {| start_block := 3; end_block := 5 |} graph_example 5) as [H _];
    [cbn; lia|]. destruct H as (m' & Hm & Hk); [cbn; lia|cbn; lia|].
  exists m'. split; [done|]. rewrite Hk. by vm_compute.
Defined.

(** [FindParent] returns the representative of a file and [SetParent]
    merges the two classes, both within the depth of the forest, which path
    compression never increases. *)
Theorem union_find_correct n m parent child r1 d1 r2 d2 :
  UnionFindProofs.forest n m →
  UnionFindProofs.roots m parent d1 r1 → UnionFindProofs.roots m child d2 r2 →
  (∃ m', UnionFind.FindParent n child m = Some (r2, m') ∧
     UnionFindProofs.forest n m' ∧ UnionFindProofs.refines m m') ∧
  (∃ m', UnionFind.SetParent n parent child m = Some m' ∧ UnionFindProofs.forest (S n) m' ∧
     ∀ y e s, UnionFindProofs.roots m y e s →
       ∃ e', UnionFindProofs.roots m' y e' (if s =? r2 then r1 else s)).
Proof.
  intros Hf H1 H2. split.
  - destruct (Hf child) as (d & r & Hd & Hlt).
    destruct (UnionFindProofs.roots_det _ _ _ _ _ _ H2 Hd) as [<- <-].
    destruct (UnionFindProofs.FindParent_ok n child m d2 r2 H2 Hlt) as (m' & Hm & Hr & _).
    exists m'. split; [done|]. split; [|done]. by apply (UnionFindProofs.refines_forest n m).
  - destruct (UnionFindProofs.SetParent_ok n parent child m d1 r1 d2 r2 Hf H1 H2) as (m' & Hm & Hl).
    exists m'. split; [done|]. split.
    + intros x. destruct (Hf x) as (d & r & Hx & Hlt). destruct (Hl _ _ _ Hx) as (e' & He' & Hx').
      eexists _, _. split; [done|lia].
    + intros y e s Hy. destruct (Hl _ _ _ Hy) as (e' & _ & ?). eauto.
Qed.

Lemma union_find_correct_witness :
  (∃ m', UnionFind.FindParent 2 2 {[2 := 3]} = Some (3, m') ∧
     UnionFindProofs.forest 2 m' ∧ UnionFindProofs.refines {[2 := 3]} m') ∧
  (∃ m', UnionFind.SetParent 2 1 2 {[2 := 3]} = Some m' ∧ UnionFindProofs.forest 3 m' ∧
     ∀ y e s, UnionFindProofs.roots {[2 := 3]} y e s →
       ∃ e', UnionFindProofs.roots m' y e' (if s =? 3 then 1 else s)).
Proof.
  assert (∀ x, x ≠ 2 → UnionFindProofs.roots {[2 := 3]} x 0 x) as Hx.
  { intros x Hx. apply UnionFindProofs.roots_none. by apply lookup_singleton_ne. }
  assert (UnionFindProofs.roots {[2 := 3]} 2 1 3) as H2.
  { apply (UnionFindProofs.roots_up _ _ 3); [apply lookup_singleton_eq|done|by apply Hx]. }
  apply (union_find_correct 2 {[2 := 3]} 1 2 1 0 3 1); [|by apply Hx|done].
  intros x. destruct (decide (x = 2)) as [->|]; [exists 1%nat, 3|exists 0%nat, x]; (split; [auto|lia]).
Defined.
