(* ===== verification/ValueLog.v ===== *)
(** * mod/Vlog.cpp, mod/GroupedValueLog.cpp: the value logs

    A value log is a file with a write buffer in front of it; [AddRecord]
    returns the address of the value, and [ReadRecord] reads a value at an
    address from the buffer or from the file.  A grouped log has one log per
    hash bucket of the keys. *)

From S2P Require Import Prelude Coding Bloom.

Definition buffer_size_max : Z := 300 * 1024.

(** ** VLog *)

Module VLog.

(** [file] is what [writer] has been given and [reader] sees; the code does not
    look at the status of an append, and nothing reaches the file once [writer]
    is closed. [scratch] is the size of the buffer that [reader] fills. *)
Record t := { file : bytes; buffer : bytes; vlog_size : Z; scratch : Z; writer_open : bool }.

(** [NewWritableFile] starts an empty file, whose size [stat] gives. *)
Definition empty_log (scratch : Z) : t := {| file := []; buffer := []; vlog_size := 0; scratch := scratch; writer_open := true |}.

(** [value_size] is [adgMod::value_size]. *)
Definition New (value_size : Z) : t := empty_log (value_size * 2).

Definition Flush (v : t) : t :=
  if len (buffer v) =? 0 then v
  else {| file := if writer_open v then file v ++ buffer v else file v; buffer := []; vlog_size := u64 (vlog_size v + len (buffer v));
          scratch := scratch v; writer_open := writer_open v |}.

Definition set_buffer (b : bytes) (v : t) : t :=
  {| file := file v; buffer := b; vlog_size := vlog_size v; scratch := scratch v; writer_open := writer_open v |}.

Definition AddRecord (key value : bytes) (v : t) : t * Z :=
  let b := PutLengthPrefixedSlice (buffer v) key in
  let b := PutVarint32 b (u32 (len value)) in
  let result := u64 (vlog_size v + len b) in
  let v := set_buffer (b ++ value) v in
  (if len (buffer v) >=? buffer_size_max then Flush v else v, result).

Definition AddRecord2 (key value : bytes) (v : t) : t * Z :=
  let b := PutFixed32 (buffer v) (u32 (len key)) in
  let b := b ++ key in
  let b := PutFixed32 b (u32 (len value)) in
  let result := u64 (vlog_size v + len b) in
  let v := set_buffer (b ++ value) v in
  (if len (buffer v) >=? buffer_size_max then Flush v else v, result).

(** [None] is an access out of bounds: of the buffer and the byte that ends it,
    or of [scratch], into which [reader] copies what the file has of the
    [size] bytes. *)
Definition ReadRecord (address size : Z) (v : t) : option bytes :=
  if address >=? vlog_size v then
    let offset := u64 (address - vlog_size v) in
    if offset + size <=? len (buffer v) + 1 then Some (slice (buffer v ++ [0]) offset size) else None
  else
    let value := slice (file v) address size in
    if len value <=? scratch v then Some value else None.

Definition Sync (v : t) : t := Flush v.

(** [removed]: whether [remove] of the file, which is closed before, succeeded. *)
Definition Reset (removed : bool) (v : t) : t :=
  if removed then empty_log (scratch v)
  else {| file := file v; buffer := []; vlog_size := vlog_size v; scratch := scratch v; writer_open := false |}.

End VLog.

(** ** GroupValueLog *)

Module Grouped.

Record t := { num_groups : Z; group_vlogs : list VLog.t }.

Definition New (num_groups value_size : Z) : t :=
  {| num_groups := num_groups; group_vlogs := replicate (Z.to_nat num_groups) (VLog.New value_size) |}.

Definition GetGroupIndex (g : t) (key : bytes) : Z := Hash key 0 `mod` num_groups g.

(** Replaces a log in place; an index out of range is undefined in C++. *)
Definition update (i : Z) (f : VLog.t → VLog.t) (g : t) : t :=
  {| num_groups := num_groups g; group_vlogs := alter f (Z.to_nat i) (group_vlogs g) |}.

Definition log_at (i : Z) (g : t) : VLog.t := default (VLog.empty_log 0) (group_vlogs g !! Z.to_nat i).

Definition AddRecord (key value : bytes) (g : t) : t * (Z * Z) :=
  let group_index := GetGroupIndex g key in
  let '(v, address) := VLog.AddRecord2 key value (log_at group_index g) in
  (update group_index (λ _, v) g, (group_index, address)).

Definition ReadRecord (group_num address size : Z) (g : t) : option bytes :=
  if (group_num <? 0) || (group_num >=? num_groups g) then Some []
  else VLog.ReadRecord address size (log_at group_num g).

Definition Flush (group_num : Z) (g : t) : t :=
  if (group_num <? 0) || (group_num >=? num_groups g) then g
  else update group_num VLog.Flush g.

Definition FlushAll (g : t) : t :=
  {| num_groups := num_groups g; group_vlogs := map VLog.Flush (group_vlogs g) |}.

Definition Reset (group_num : Z) (removed : bool) (g : t) : t :=
  if (group_num <? 0) || (group_num >=? num_groups g) then g
  else update group_num (VLog.Reset removed) g.

End Grouped.

(** ** Lemmas *)

(** The state of a log: the size is the size of the file, and everything fits
    64 bits. *)
Record vlog_ok (v : VLog.t) : Prop := {
  vo_open : VLog.writer_open v = true;
  vo_size : VLog.vlog_size v = len (VLog.file v);
  vo_fits : len (VLog.file v) + len (VLog.buffer v) < 2 ^ 63
}.

(** [value] is at [address], all of it in the file or all of it in the buffer. *)
Record holds (v : VLog.t) (address : Z) (value : bytes) : Prop := {
  ho_value : ∃ pre post, VLog.file v ++ VLog.buffer v = pre ++ value ++ post ∧ len pre = address;
  ho_whole : len (VLog.file v) ≤ address ∨ address + len value ≤ len (VLog.file v)
}.

(** What an operation may do to a log: append to its contents, and move all of
    the buffer to the file. *)
Record extends (v v' : VLog.t) : Prop := {
  ve_content : ∃ s, VLog.file v' ++ VLog.buffer v' = (VLog.file v ++ VLog.buffer v) ++ s;
  ve_file : VLog.file v' = VLog.file v ∨ len (VLog.file v ++ VLog.buffer v) ≤ len (VLog.file v');
  ve_scratch : VLog.scratch v' = VLog.scratch v
}.

Lemma holds_extends v v' a s : holds v a s → extends v v' → holds v' a s.
Proof.
  intros [(pre & post & E & Ha) Hw] [(t & E') Hf _]. split.
  - exists pre, (post ++ t). rewrite E', E, <- !app_assoc. done.
  - destruct Hf as [->|Hf]; [done|]. right. rewrite E, !len_app in Hf. pose proof (len_nonneg post). lia.
Qed.

Lemma read_holds v a s :
  vlog_ok v → holds v a s → len s ≤ VLog.scratch v → VLog.ReadRecord a (len s) v = Some s.
Proof.
  intros [_ Hs Hfit] [(pre & post & E & Ha) Hw] Hscr. unfold VLog.ReadRecord. rewrite Hs, Z.geb_leb.
  pose proof (len_nonneg pre). pose proof (len_nonneg s). pose proof (len_nonneg post).
  pose proof (len_nonneg (VLog.buffer v)). pose proof (len_nonneg (VLog.file v)).
  assert (len (VLog.file v) + len (VLog.buffer v) = len pre + (len s + len post)) as El
    by (rewrite <- !len_app; by f_equal).
  destruct (Z.leb_spec (len (VLog.file v)) a) as [Hle|Hgt].
  - rewrite u64_id by (unfold u64_ok; lia).
    assert (VLog.buffer v = skip (len (VLog.file v)) pre ++ s ++ post) as Eb.
    { apply (f_equal (skip (len (VLog.file v)))) in E. rewrite skip_app in E by done. rewrite E.
      unfold skip. rewrite drop_app_le; [done|]. unfold len in *. lia. }
    rewrite (proj2 (Z.leb_le _ _)) by lia. rewrite Eb, <- !app_assoc. f_equal. apply slice_app; [|done]. rewrite len_skip; lia.
  - destruct Hw as [|Hw]; [lia|].
    assert (VLog.file v = pre ++ s ++ first (len (VLog.file v) - len pre - len s) post) as Ef.
    { apply (f_equal (first (len (VLog.file v)))) in E. rewrite first_app in E by done.
      rewrite E at 1. unfold first. rewrite !take_app_ge by (unfold len in *; lia). do 3 f_equal.
      unfold len in *. lia. }
    rewrite Ef, slice_app by done. by rewrite (proj2 (Z.leb_le _ _)).
Qed.

Lemma Flush_extends v : VLog.writer_open v = true → extends v (VLog.Flush v).
Proof.
  intros Ho. unfold VLog.Flush. rewrite Ho. case_if; split; cbn; try done; try (exists []; by rewrite !app_nil_r); [by left|right; lia].
Qed.

Lemma Flush_ok v : vlog_ok v → vlog_ok (VLog.Flush v).
Proof.
  intros [Ho Hs Hf]. unfold VLog.Flush. rewrite Ho. case_if; [done|]. pose proof (len_nonneg (VLog.file v)). pose proof (len_nonneg (VLog.buffer v)).
  split; cbn; rewrite ?len_app, ?len_nil; [done| |lia]. rewrite Hs. apply u64_id. unfold u64_ok. lia.
Qed.

#[global] Instance extends_preorder : PreOrder extends.
Proof.
  split; [intros v; split; [exists []; by rewrite app_nil_r|by left|done]|].
  intros v1 v2 v3 [(s1 & E1) F1 S1] [(s2 & E2) F2 S2]. split; [| |congruence].
  - exists (s1 ++ s2). by rewrite E2, E1, <- app_assoc.
  - rewrite E1, (len_app (_ ++ _)) in F2. pose proof (len_nonneg s1). destruct F2 as [->|F2]; [done|].
    right. lia.
Qed.

(** Appending [hdr ++ value] to the buffer, then flushing it if it is full. *)
Definition append_record (hdr value : bytes) (v : VLog.t) : VLog.t * Z :=
  let w := VLog.set_buffer ((VLog.buffer v ++ hdr) ++ value) v in
  (if len (VLog.buffer w) >=? buffer_size_max then VLog.Flush w else w,
   u64 (VLog.vlog_size v + len (VLog.buffer v ++ hdr))).

Lemma append_record_ok hdr value v :
  vlog_ok v → len (VLog.file v) + len (VLog.buffer v) + len hdr + len value < 2 ^ 63 →
  let '(v', a) := append_record hdr value v in
  vlog_ok v' ∧ extends v v' ∧ holds v' a value.
Proof.
  intros Hv Hfit. unfold append_record. set (w := VLog.set_buffer _ v).
  pose proof (len_nonneg (VLog.file v)). pose proof (len_nonneg (VLog.buffer v)).
  pose proof (len_nonneg hdr). pose proof (len_nonneg value).
  assert (vlog_ok w) as Hw.
  { split; [apply Hv|apply Hv|]. cbn. rewrite !len_app. lia. }
  assert (extends v w) as Hx.
  { split; [|by left|done]. cbn. exists (hdr ++ value). by rewrite <- !app_assoc. }
  assert (holds w (u64 (VLog.vlog_size v + len (VLog.buffer v ++ hdr))) value) as Hh.
  { rewrite (vo_size _ Hv), u64_id by (rewrite len_app; unfold u64_ok; lia). split.
    - exists (VLog.file v ++ VLog.buffer v ++ hdr), []. cbn. rewrite app_nil_r, len_app, <- !app_assoc. done.
    - left. cbn. rewrite len_app. lia. }
  case_if; [|done]. pose proof (vo_open _ Hw) as Ho. split; [by apply Flush_ok|]. split; [etrans; [done|by apply Flush_extends]|].
  apply (holds_extends w); [done|by apply Flush_extends].
Qed.

Lemma AddRecord_append key value v :
  VLog.AddRecord key value v = append_record (PutLengthPrefixedSlice [] key ++ EncodeVarint32 (u32 (len value))) value v.
Proof.
  unfold VLog.AddRecord, append_record, PutVarint32. rewrite (PutLengthPrefixedSlice_app (VLog.buffer v)).
  by rewrite !app_assoc.
Qed.

Lemma AddRecord2_append key value v :
  VLog.AddRecord2 key value v =
  append_record (EncodeFixed32 (u32 (len key)) ++ key ++ EncodeFixed32 (u32 (len value))) value v.
Proof. unfold VLog.AddRecord2, append_record, PutFixed32. by rewrite !app_assoc. Qed.

(** ** Sequences of operations *)

Inductive vlog_op := OpAdd (key value : bytes) | OpAdd2 (key value : bytes) | OpFlush.

Definition vlog_step (v : VLog.t) (o : vlog_op) : VLog.t :=
  match o with
  | OpAdd key value => fst (VLog.AddRecord key value v)
  | OpAdd2 key value => fst (VLog.AddRecord2 key value v)
  | OpFlush => VLog.Sync v
  end.

(** The bytes an operation can add: the headers take at most ten. *)
Definition op_bytes (o : vlog_op) : Z :=
  match o with OpAdd k v | OpAdd2 k v => len k + len v + 10 | OpFlush => 0 end.

Definition ops_bytes (l : list vlog_op) : Z := foldr (λ o n, op_bytes o + n) 0 l.

Lemma op_bytes_nonneg o : 0 ≤ op_bytes o.
Proof. destruct o as [k v|k v|]; cbn [op_bytes]; try pose proof (len_nonneg k); try pose proof (len_nonneg v); lia. Qed.

Lemma ops_bytes_nonneg l : 0 ≤ ops_bytes l.
Proof.
  induction l as [|o l IH]; [done|]. cbn [ops_bytes foldr]. fold (ops_bytes l). pose proof (op_bytes_nonneg o). lia.
Qed.

(** The header of a record is at most ten bytes longer than its key. *)
Lemma header_bytes (key value : bytes) :
  len (PutLengthPrefixedSlice [] key ++ EncodeVarint32 (u32 (len value))) ≤ len key + 10 ∧
  len (EncodeFixed32 (u32 (len key)) ++ key ++ EncodeFixed32 (u32 (len value))) ≤ len key + 10.
Proof.
  unfold PutLengthPrefixedSlice, PutVarint32. rewrite !len_app, !len_EncodeFixed32, len_nil.
  pose proof (len_EncodeVarint32 _ (u32_range (len key))). pose proof (len_EncodeVarint32 _ (u32_range (len value))). lia.
Qed.

Definition content (v : VLog.t) : Z := len (VLog.file v) + len (VLog.buffer v).

Lemma Flush_content v : VLog.writer_open v = true → content (VLog.Flush v) = content v.
Proof. intros Ho. unfold VLog.Flush, content. rewrite Ho. case_if; [done|]. cbn. rewrite len_app, len_nil. lia. Qed.

Lemma append_record_content hdr value v :
  VLog.writer_open v = true → content (fst (append_record hdr value v)) = content v + len hdr + len value.
Proof.
  intros Ho. unfold append_record. cbn [fst].
  assert (content (VLog.set_buffer ((VLog.buffer v ++ hdr) ++ value) v) = content v + len hdr + len value) as E
    by (unfold content; cbn; rewrite !len_app; lia).
  case_if; by rewrite ?Flush_content by done.
Qed.

Lemma vlog_step_ok v o :
  vlog_ok v → content v + op_bytes o < 2 ^ 63 →
  vlog_ok (vlog_step v o) ∧ extends v (vlog_step v o) ∧ content (vlog_step v o) ≤ content v + op_bytes o.
Proof.
  intros Hv Hfit. destruct o as [k s|k s|]; cbn [vlog_step op_bytes] in *.
  - destruct (header_bytes k s) as [Hh _]. rewrite AddRecord_append.
    set (hdr := _ ++ _) in *. pose proof (append_record_ok hdr s v Hv) as H.
    pose proof (append_record_content hdr s v (vo_open _ Hv)). unfold content in *.
    destruct (append_record hdr s v) as [v' a]. destruct H as (? & ? & ?); [lia|]. cbn [fst] in *. split_and!; [done..|lia].
  - destruct (header_bytes k s) as [_ Hh]. rewrite AddRecord2_append.
    set (hdr := _ ++ _) in *. pose proof (append_record_ok hdr s v Hv) as H.
    pose proof (append_record_content hdr s v (vo_open _ Hv)). unfold content in *.
    destruct (append_record hdr s v) as [v' a]. destruct H as (? & ? & ?); [lia|]. cbn [fst] in *. split_and!; [done..|lia].
  - unfold VLog.Sync. pose proof (vo_open _ Hv). rewrite Flush_content by done. split_and!; [by apply Flush_ok|by apply Flush_extends|lia].
Qed.

Lemma vlog_run_ok l v :
  vlog_ok v → content v + ops_bytes l < 2 ^ 63 →
  let v' := foldl vlog_step v l in
  vlog_ok v' ∧ extends v v' ∧ content v' ≤ content v + ops_bytes l.
Proof.
  revert v. induction l as [|o l IH]; intros v Hv Hfit; cbn [foldl ops_bytes foldr] in *.
  { split_and!; [done..|lia]. }
  fold (ops_bytes l) in *. pose proof (ops_bytes_nonneg l).
  destruct (vlog_step_ok v o Hv ltac:(lia)) as (H1 & H2 & H3).
  destruct (IH (vlog_step v o) H1 ltac:(lia)) as (H4 & H5 & H6). split_and!; [done|by etrans|lia].
Qed.

Lemma New_ok n : vlog_ok (VLog.New n).
Proof. by split. Qed.

(** The address [AddRecord] or [AddRecord2] returns. *)
Definition add_address (o : vlog_op) (v : VLog.t) : option (Z * bytes) :=
  match o with
  | OpAdd key value => Some (snd (VLog.AddRecord key value v), value)
  | OpAdd2 key value => Some (snd (VLog.AddRecord2 key value v), value)
  | OpFlush => None
  end.

Lemma add_holds o v a value :
  vlog_ok v → content v + op_bytes o < 2 ^ 63 → add_address o v = Some (a, value) → holds (vlog_step v o) a value.
Proof.
  intros Hv Hfit Ha. destruct o as [k s|k s|]; cbn [add_address vlog_step op_bytes] in *; simplify_eq.
  - destruct (header_bytes k value) as [Hh _]. rewrite AddRecord_append. set (hdr := _ ++ _) in *.
    pose proof (append_record_ok hdr value v Hv) as H. unfold content in *.
    destruct (append_record hdr value v) as [v' a]. apply H. lia.
  - destruct (header_bytes k value) as [_ Hh]. rewrite AddRecord2_append. set (hdr := _ ++ _) in *.
    pose proof (append_record_ok hdr value v Hv) as H. unfold content in *.
    destruct (append_record hdr value v) as [v' a]. apply H. lia.
Qed.

(** ** Properties *)

(** An address of a value log stays good: the value of a record added after
    any operations is read back at the address that was returned, after any
    further additions and flushes, whether it is still in the buffer or has
    been moved to the file; if it has at most twice [value_size] bytes, what
    [scratch] holds. *)
Theorem vlog_read_back value_size before o after a value :
  ops_bytes (before ++ o :: after) < 2 ^ 62 → len value ≤ value_size * 2 →
  let v1 := foldl vlog_step (VLog.New value_size) before in
  add_address o v1 = Some (a, value) →
  VLog.ReadRecord a (len value) (foldl vlog_step (vlog_step v1 o) after) = Some value.
Proof.
  intros Hsz Hscr v1 Ha. unfold ops_bytes in Hsz. rewrite foldr_app in Hsz. cbn [foldr] in Hsz.
  assert (∀ l n, foldr (λ o n, op_bytes o + n) n l = ops_bytes l + n) as Hf.
  { clear. intros l n. induction l as [|o l IH]; [done|]. cbn [foldr]. rewrite IH. unfold ops_bytes. cbn [foldr]. lia. }
  rewrite Hf in Hsz. fold (ops_bytes after) in Hsz.
  pose proof (ops_bytes_nonneg after). pose proof (ops_bytes_nonneg before). pose proof (op_bytes_nonneg o).
  destruct (vlog_run_ok before (VLog.New value_size) (New_ok _)) as (I1 & I2 & I3).
  { change (content (VLog.New value_size)) with 0. lia. }
  fold v1 in I1, I2, I3. change (content (VLog.New value_size)) with 0 in I3.
  destruct (vlog_step_ok v1 o I1 ltac:(lia)) as (I4 & I8 & I5).
  destruct (vlog_run_ok after (vlog_step v1 o) I4 ltac:(lia)) as (I6 & I7 & _).
  apply read_holds; [done| |by rewrite (ve_scratch _ _ I7), (ve_scratch _ _ I8), (ve_scratch _ _ I2)].
  apply (holds_extends (vlog_step v1 o)); [|done]. apply add_holds; [done|lia|done].
Qed.

Lemma vlog_read_back_witness :
  let v1 := foldl vlog_step (VLog.New 1) [OpAdd2 [1] [2; 3]; OpFlush] in
  add_address (OpAdd [4] [7; 8]) v1 = Some (14, [7; 8]) ∧
  VLog.ReadRecord 14 (len [7; 8]) (foldl vlog_step (vlog_step v1 (OpAdd [4] [7; 8])) [OpAdd2 [5] [6]; OpFlush]) = Some [7; 8].
Proof.
  intros v1. assert (add_address (OpAdd [4] [7; 8]) v1 = Some (14, [7; 8])) as H by (by vm_compute).
  split; [done|]. apply (vlog_read_back 1 [OpAdd2 [1] [2; 3]; OpFlush] (OpAdd [4] [7; 8]) [OpAdd2 [5] [6]; OpFlush] 14 [7; 8]).
  - by vm_compute.
  - by vm_compute.
  - exact H.
Defined.

(** A value of more than twice [value_size] bytes cannot be read once it is in
    the file: [reader] writes past the end of [scratch]. *)
Theorem large_value_overflows value_size key value :
  0 ≤ value_size → value_size * 2 < len value → len key + len value + 10 < 2 ^ 62 →
  let '(v, a) := VLog.AddRecord key value (VLog.New value_size) in
  VLog.ReadRecord a (len value) (VLog.Sync v) = None.
Proof.
  intros Hvs Hbig Hsz. pose proof (len_nonneg key). pose proof (len_nonneg value) as Hv0. set (v0 := VLog.New value_size).
  pose proof (vlog_step_ok v0 (OpAdd key value) (New_ok _)) as Hst. pose proof (add_holds (OpAdd key value) v0 (VLog.AddRecord key value v0).2 value (New_ok _)) as Hh. cbn [op_bytes vlog_step add_address] in *.
  change (content v0) with 0 in *. specialize (Hh ltac:(lia) eq_refl). destruct (Hst ltac:(lia)) as (H1 & H2 & _).
  destruct (VLog.AddRecord key value v0) as [v a] eqn:E. cbn [fst snd] in *. unfold VLog.Sync.
  pose proof (Flush_extends v (vo_open _ H1)) as Hx. pose proof (Flush_ok v H1) as Hok. pose proof (holds_extends _ _ _ _ Hh Hx) as Hf.
  assert (VLog.buffer (VLog.Flush v) = []) as Eb by (unfold VLog.Flush; destruct (Z.eqb_spec (len (VLog.buffer v)) 0) as [E0|]; [by destruct (VLog.buffer v)|done]).
  destruct Hf as [(pre & post & Ec & Ea) _]. rewrite Eb, app_nil_r in Ec. unfold VLog.ReadRecord. rewrite (vo_size _ Hok), Ec, !len_app, Z.geb_leb. pose proof (len_nonneg pre). pose proof (len_nonneg post).
  rewrite (proj2 (Z.leb_gt _ _)) by lia. rewrite slice_app by done. rewrite (ve_scratch _ _ Hx), (ve_scratch _ _ H2). change (VLog.scratch v0) with (value_size * 2). by rewrite (proj2 (Z.leb_gt _ _)).
Qed.

(** ** Groups *)

(** A reset whose [remove] fails leaves a log without a file. *)
Inductive group_op := GAdd (key value : bytes) | GFlush (i : Z) | GFlushAll | GReset (i : Z).

Definition group_step (g : Grouped.t) (o : group_op) : Grouped.t :=
  match o with
  | GAdd key value => fst (Grouped.AddRecord key value g)
  | GFlush i => Grouped.Flush i g
  | GFlushAll => Grouped.FlushAll g
  | GReset i => Grouped.Reset i true g
  end.

Definition group_bytes (o : group_op) : Z :=
  match o with GAdd k v => len k + len v + 10 | _ => 0 end.

Definition groups_bytes (l : list group_op) : Z := foldr (λ o n, group_bytes o + n) 0 l.

Lemma group_bytes_nonneg o : 0 ≤ group_bytes o.
Proof.
  destruct o as [k v| | |]; cbn [group_bytes]; try lia. pose proof (len_nonneg k). pose proof (len_nonneg v). lia.
Qed.

Lemma groups_bytes_nonneg l : 0 ≤ groups_bytes l.
Proof.
  induction l as [|o l IH]; [done|]. cbn [groups_bytes foldr]. fold (groups_bytes l).
  pose proof (group_bytes_nonneg o). lia.
Qed.

(** The operations leave group [i] alone but for additions and flushes. *)
Definition keeps_group (i : Z) (l : list group_op) : Prop :=
  Forall (λ o, match o with GReset j => j ≠ i | _ => True end) l.

(** Every log is well-formed, holds at most [n] bytes and reads values of up to
    [m]. *)
Record groups_ok (m n : Z) (g : Grouped.t) : Prop := {
  go_pos : 0 < Grouped.num_groups g;
  go_len : len (Grouped.group_vlogs g) = Grouped.num_groups g;
  go_logs : Forall (λ v, vlog_ok v ∧ content v ≤ n ∧ m ≤ VLog.scratch v) (Grouped.group_vlogs g)
}.

Lemma log_at_ok m n g i :
  groups_ok m n g → 0 ≤ i < Grouped.num_groups g →
  Grouped.group_vlogs g !! Z.to_nat i = Some (Grouped.log_at i g) ∧
  vlog_ok (Grouped.log_at i g) ∧ content (Grouped.log_at i g) ≤ n ∧ m ≤ VLog.scratch (Grouped.log_at i g).
Proof.
  intros [Hp Hl Hv] Hi. unfold Grouped.log_at.
  destruct (lookup_lt_is_Some_2 (Grouped.group_vlogs g) (Z.to_nat i)) as [v Hlk]; [unfold len in Hl; lia|].
  rewrite Hlk. cbn. split; [done|]. by apply (proj1 (Forall_lookup _ _) Hv _ _ Hlk).
Qed.

Lemma update_ok m n n' g i f :
  groups_ok m n g → n ≤ n' → 0 ≤ i < Grouped.num_groups g →
  vlog_ok (f (Grouped.log_at i g)) → content (f (Grouped.log_at i g)) ≤ n' → VLog.scratch (f (Grouped.log_at i g)) = VLog.scratch (Grouped.log_at i g) →
  groups_ok m n' (Grouped.update i f g).
Proof.
  intros Hg Hn Hi Hok Hc Hscr. destruct (log_at_ok m n g i Hg Hi) as (Hlk & _ & _ & Hm). destruct Hg as [Hp Hl Hv].
  split; cbn; [done|unfold len in *; by rewrite length_alter|].
  apply Forall_lookup. intros j v Hj. destruct (decide (j = Z.to_nat i)) as [->|Hne].
  - rewrite list_lookup_alter_eq, Hlk in Hj. cbn in Hj. simplify_eq. split_and!; [done|done|lia].
  - rewrite list_lookup_alter_ne in Hj by done.
    destruct (proj1 (Forall_lookup _ _) Hv _ _ Hj) as (? & ? & ?). split_and!; [done|lia|done].
Qed.

Lemma log_at_update m n g i j f :
  groups_ok m n g → 0 ≤ i < Grouped.num_groups g → 0 ≤ j →
  Grouped.log_at j (Grouped.update i f g) = if j =? i then f (Grouped.log_at j g) else Grouped.log_at j g.
Proof.
  intros Hg Hi Hj. destruct (log_at_ok m n g i Hg Hi) as (Hlk & _). unfold Grouped.log_at at 1. cbn.
  destruct (Z.eqb_spec j i) as [->|Hne].
  - by rewrite list_lookup_alter_eq, Hlk.
  - by rewrite list_lookup_alter_ne by lia.
Qed.

Lemma AddRecord2_ok key value v :
  vlog_ok v → content v + (len key + len value + 10) < 2 ^ 63 →
  let '(v', a) := VLog.AddRecord2 key value v in
  vlog_ok v' ∧ extends v v' ∧ holds v' a value ∧ content v' ≤ content v + (len key + len value + 10).
Proof.
  intros Hv Hfit. pose proof (vlog_step_ok v (OpAdd2 key value) Hv Hfit) as (H1 & H2 & H3).
  pose proof (add_holds (OpAdd2 key value) v _ value Hv Hfit eq_refl) as H4. cbn [vlog_step op_bytes] in *.
  by destruct (VLog.AddRecord2 key value v).
Qed.

Lemma group_index_range m n g key : groups_ok m n g → 0 ≤ Grouped.GetGroupIndex g key < Grouped.num_groups g.
Proof. intros [Hp _ _]. by apply Z.mod_pos_bound. Qed.

(** One operation: the logs stay well-formed, and the log of a group the
    operation does not reset is extended. *)
Lemma group_step_ok m n g o :
  groups_ok m n g → n + group_bytes o < 2 ^ 63 →
  groups_ok m (n + group_bytes o) (group_step g o) ∧
  Grouped.num_groups (group_step g o) = Grouped.num_groups g ∧
  ∀ i, 0 ≤ i < Grouped.num_groups g → keeps_group i [o] → extends (Grouped.log_at i g) (Grouped.log_at i (group_step g o)).
Proof.
  intros Hg Hn. destruct o as [key value|j| |j]; cbn [group_step group_bytes] in *.
  - pose proof (group_index_range m n g key Hg) as Hgi. unfold Grouped.AddRecord.
    destruct (log_at_ok m n g _ Hg Hgi) as (_ & Hv & Hc & _).
    pose proof (AddRecord2_ok key value _ Hv ltac:(lia)) as Hadd.
    destruct (VLog.AddRecord2 key value _) as [v' a]. destruct Hadd as (H1 & H2 & _ & H4). cbn [fst].
    pose proof (len_nonneg key). pose proof (len_nonneg value).
    split; [apply (update_ok m n); [done|lia|done|done|lia|apply H2]|]. split; [done|]. intros i Hi _.
    rewrite (log_at_update m n) by (done || lia). destruct (Z.eqb_spec i (Grouped.GetGroupIndex g key)) as [->|]; done.
  - rewrite Z.add_0_r. unfold Grouped.Flush. destruct ((j <? 0) || (j >=? Grouped.num_groups g)) eqn:E; [done|].
    rewrite Z.geb_leb in E. zify_bool. destruct (log_at_ok m n g j Hg ltac:(lia)) as (_ & Hv & Hc & _). pose proof (vo_open _ Hv) as Ho.
    split; [apply (update_ok m n); [done|lia|lia|by apply Flush_ok|by rewrite Flush_content|by apply (ve_scratch _ _ (Flush_extends _ Ho))]|]. split; [done|].
    intros i Hi _. rewrite (log_at_update m n) by (done || lia). destruct (Z.eqb_spec i j) as [->|]; [by apply Flush_extends|done].
  - rewrite Z.add_0_r. pose proof Hg as [Hp Hl Hv].
    split; [split; cbn; [done|unfold len in *; by rewrite length_map|]|].
    + apply Forall_map. eapply Forall_impl; [exact Hv|]. intros v (Hvok & ? & ?). pose proof (vo_open _ Hvok) as Ho. split; [by apply Flush_ok|].
      rewrite Flush_content by done. split; [done|]. by rewrite (ve_scratch _ _ (Flush_extends _ Ho)).
    + split; [done|]. intros i Hi _. destruct (log_at_ok m n g i Hg Hi) as (Hlk & Hvok & _). unfold Grouped.log_at at 2. cbn. rewrite list_lookup_fmap, Hlk. apply Flush_extends. apply Hvok.
  - rewrite Z.add_0_r. unfold Grouped.Reset. destruct ((j <? 0) || (j >=? Grouped.num_groups g)) eqn:E; [done|].
    rewrite Z.geb_leb in E. zify_bool. destruct (log_at_ok m n g j Hg ltac:(lia)) as (_ & _ & Hc & _).
    assert (0 ≤ n). { unfold content in Hc. pose proof (len_nonneg (VLog.buffer (Grouped.log_at j g))). pose proof (len_nonneg (VLog.file (Grouped.log_at j g))). lia. }
    split; [apply (update_ok m n); [done|lia|lia|by split|done|done]|]. split; [done|]. intros i Hi [Hk _]%Forall_cons.
    rewrite (log_at_update m n) by (done || lia). by rewrite (proj2 (Z.eqb_neq i j)) by done.
Qed.

Lemma group_run_ok m l n g :
  groups_ok m n g → 0 ≤ n → n + groups_bytes l < 2 ^ 63 →
  let g' := foldl group_step g l in
  groups_ok m (n + groups_bytes l) g' ∧ Grouped.num_groups g' = Grouped.num_groups g ∧
  ∀ i, 0 ≤ i < Grouped.num_groups g → keeps_group i l → extends (Grouped.log_at i g) (Grouped.log_at i g').
Proof.
  revert n g. induction l as [|o l IH]; intros n g Hg Hn Hfit; cbn [foldl groups_bytes foldr] in *.
  { by rewrite Z.add_0_r. }
  fold (groups_bytes l) in *. pose proof (groups_bytes_nonneg l). pose proof (group_bytes_nonneg o).
  destruct (group_step_ok m n g o Hg ltac:(lia)) as (H1 & H2 & H3).
  destruct (IH _ _ H1 ltac:(lia) ltac:(lia)) as (H4 & H5 & H6).
  rewrite Z.add_assoc. split; [done|]. split; [congruence|]. intros i Hi [Ho Hk]%Forall_cons. etrans; [apply H3; [done|by apply Forall_singleton]|]. apply H6; [by rewrite H2|done].
Qed.

Lemma Grouped_New_ok k value_size : 0 < k → groups_ok (value_size * 2) 0 (Grouped.New k value_size).
Proof.
  intros Hk. split; cbn; [done|unfold len; rewrite length_replicate; lia|].
  apply Forall_replicate. split_and!; [apply New_ok|done|done].
Qed.

(** A value of a grouped log, of at most twice [value_size] bytes, is found
    under the group and address [AddRecord] returned: the record may be added
    after any additions, flushes and resets, and read after any further ones but
    resets of its own group. *)
Theorem grouped_read_back k value_size before key value after :
  0 < k → groups_bytes before + (len key + len value + 10) + groups_bytes after < 2 ^ 62 → len value ≤ value_size * 2 →
  let '(g, (i, a)) := Grouped.AddRecord key value (foldl group_step (Grouped.New k value_size) before) in
  keeps_group i after →
  0 ≤ i < k ∧ Grouped.ReadRecord i a (len value) (foldl group_step g after) = Some value.
Proof.
  intros Hk Hsz Hscr. pose proof (Grouped_New_ok k value_size Hk) as Hg0. pose proof (len_nonneg key). pose proof (len_nonneg value).
  pose proof (groups_bytes_nonneg before). pose proof (groups_bytes_nonneg after).
  destruct (group_run_ok _ before _ _ Hg0 ltac:(lia) ltac:(lia)) as (Hg & Hnum & _). set (g0 := foldl group_step (Grouped.New k value_size) before) in *.
  pose proof (group_index_range _ _ g0 key Hg) as Hi.
  destruct (log_at_ok _ _ g0 _ Hg Hi) as (_ & Hv & Hc & _).
  pose proof (group_step_ok _ _ g0 (GAdd key value) Hg) as Hstep.
  cbn [group_step group_bytes] in Hstep. unfold Grouped.AddRecord in *.
  pose proof (AddRecord2_ok key value _ Hv ltac:(lia)) as Hadd.
  destruct (VLog.AddRecord2 key value _) as [v' a]. destruct Hadd as (_ & _ & Hh & _).
  cbn [fst] in Hstep. destruct Hstep as (I1 & I2 & _); [lia|].
  intros Hkeep. split; [rewrite Hnum in Hi; exact Hi|].
  destruct (group_run_ok _ after _ _ I1 ltac:(lia) ltac:(lia)) as (I4 & I5 & I6). specialize (I6 (Grouped.GetGroupIndex g0 key) ltac:(by rewrite I2) Hkeep).
  rewrite (log_at_update _ _ _ _ _ _ Hg) in I6 by (done || lia). rewrite Z.eqb_refl in I6.
  unfold Grouped.ReadRecord. rewrite I5, I2, Z.geb_leb.
  rewrite (proj2 (Z.ltb_ge _ _)), (proj2 (Z.leb_gt _ _)) by lia. cbn [orb].
  destruct (log_at_ok _ _ _ (Grouped.GetGroupIndex g0 key) I4) as (_ & J1 & _ & J2); [by rewrite I5, I2|].
  apply read_holds; [done|by apply (holds_extends v')|lia].
Qed.

Lemma grouped_read_back_witness :
  snd (Grouped.AddRecord [1] [5; 6] (foldl group_step (Grouped.New 2 1) [GAdd [1] [4]; GFlushAll; GAdd [1] [3; 3]])) = (0, 30) ∧
  Grouped.ReadRecord 0 30 (len [5; 6])
    (foldl group_step (fst (Grouped.AddRecord [1] [5; 6] (foldl group_step (Grouped.New 2 1) [GAdd [1] [4]; GFlushAll; GAdd [1] [3; 3]]))) [GAdd [2] [7]; GFlushAll; GReset 1]) = Some [5; 6].
Proof.
  split; [by vm_compute|].
  apply (grouped_read_back 2 1 [GAdd [1] [4]; GFlushAll; GAdd [1] [3; 3]] [1] [5; 6] [GAdd [2] [7]; GFlushAll; GReset 1]).
  - lia.
  - by vm_compute.
  - by vm_compute.
  - by repeat constructor.
Defined.
