(* ===== verification/SkipList.v ===== *)
(** * db/skiplist.h: the skip list of the memtable, with util/random.h

    The nodes and their links are modelled at the level of the code: a node is
    a number, [Next(n)] reads a slot of a link table and [SetNext] writes one.
    The theorems relate this state to the sorted list of its keys. *)

From Stdlib Require Import Sorted.
From S2P Require Import Prelude.

(** ** Random *)

Module Random.

Definition New (s : Z) : Z :=
  let seed := Z.land s 0x7fffffff in
  if (seed =? 0) || (seed =? 2147483647) then 1 else seed.

(** The new seed, which is also the result. *)
Definition Next (seed : Z) : Z :=
  let M := 2147483647 in
  let A := 16807 in
  let product := u64 (seed * A) in
  let seed := u32 (Z.shiftr product 31 + Z.land product M) in
  if seed >? M then seed - M else seed.

End Random.

Definition kMaxHeight : nat := 12.
Definition kBranching : Z := 4.

Section skiplist.

Context {Key : Type} (compare_ : Key → Key → Z).

(** [head_] is node 0, whose key is not looked at. *)
Definition head_ : nat := 0.

Record SkipList := {
  keys : gmap nat Key;                (** [Node::key] *)
  links : gmap (nat * nat) nat;       (** [next_[n]] of a node; absent is null *)
  node_count : nat;                   (** nodes allocated so far *)
  max_height_ : nat;
  rnd_ : Z
}.

Definition New : SkipList := {|
  keys := ∅; links := ∅; node_count := 1; max_height_ := 1; rnd_ := Random.New 0xdeadbeef |}.

Definition Next (s : SkipList) (x n : nat) : option nat := links s !! (x, n).

Definition SetNext (x n : nat) (y : option nat) (l : gmap (nat * nat) nat) : gmap (nat * nat) nat :=
  match y with Some y => <[(x, n) := y]> l | None => delete (x, n) l end.

Definition KeyIsAfterNode (s : SkipList) (key : Key) (n : option nat) : bool :=
  match n with
  | None => false
  | Some n => match keys s !! n with Some k => compare_ k key <? 0 | None => false end
  end.

(** The [while (true)] of [FindGreaterOrEqual]; [prev] is the array that is
    filled, as a map from levels; [None] is out of fuel. *)
Fixpoint FindGreaterOrEqual_loop (fuel : nat) (s : SkipList) (key : Key) (x level : nat) (prev : gmap nat nat)
    : option (option nat * gmap nat nat) :=
  match fuel with
  | O => None
  | S fuel' =>
      let next := Next s x level in
      if KeyIsAfterNode s key next then
        y ← next; FindGreaterOrEqual_loop fuel' s key y level prev
      else
        let prev := <[level := x]> prev in
        match level with
        | O => Some (next, prev)
        | S level' => FindGreaterOrEqual_loop fuel' s key x level' prev
        end
  end.

(** A turn goes to the next node or down a level. *)
Definition fuel (s : SkipList) : nat := S (node_count s + kMaxHeight).

Definition FindGreaterOrEqual (s : SkipList) (key : Key) : option (option nat * gmap nat nat) :=
  FindGreaterOrEqual_loop (fuel s) s key head_ (pred (max_height_ s)) ∅.

Fixpoint FindLessThan_loop (fuel : nat) (s : SkipList) (key : Key) (x level : nat) : option nat :=
  match fuel with
  | O => None
  | S fuel' =>
      match Next s x level with
      | Some next =>
          match keys s !! next with
          | Some k =>
              if compare_ k key >=? 0
              then match level with O => Some x | S level' => FindLessThan_loop fuel' s key x level' end
              else FindLessThan_loop fuel' s key next level
          | None => None
          end
      | None => match level with O => Some x | S level' => FindLessThan_loop fuel' s key x level' end
      end
  end.

Definition FindLessThan (s : SkipList) (key : Key) : option nat :=
  FindLessThan_loop (fuel s) s key head_ (pred (max_height_ s)).

Fixpoint FindLast_loop (fuel : nat) (s : SkipList) (x level : nat) : option nat :=
  match fuel with
  | O => None
  | S fuel' =>
      match Next s x level with
      | Some next => FindLast_loop fuel' s next level
      | None => match level with O => Some x | S level' => FindLast_loop fuel' s x level' end
      end
  end.

Definition FindLast (s : SkipList) : option nat :=
  FindLast_loop (fuel s) s head_ (pred (max_height_ s)).

(** The height and the generator's new state: at most eleven increments. *)
Fixpoint RandomHeight_loop (n : nat) (height : nat) (rnd : Z) : nat * Z :=
  match n with
  | O => (height, rnd)
  | S n' =>
      let rnd := Random.Next rnd in
      if rnd `mod` kBranching =? 0 then RandomHeight_loop n' (S height) rnd else (height, rnd)
  end.

Definition RandomHeight (rnd : Z) : nat * Z := RandomHeight_loop (kMaxHeight - 1) 1 rnd.

(** [for (i = 0; i < height; i++)]: linking node [x] in at each level. *)
Fixpoint Link (n i : nat) (x : nat) (prev : gmap nat nat) (l : gmap (nat * nat) nat)
    : option (gmap (nat * nat) nat) :=
  match n with
  | O => Some l
  | S n' =>
      p ← prev !! i;
      let l := SetNext x i (l !! (p, i)) l in
      let l := SetNext p i (Some x) l in
      Link n' (S i) x prev l
  end.

(** [prev[i] = head_] for the levels the list did not have. *)
Fixpoint RaisePrev (n i : nat) (prev : gmap nat nat) : gmap nat nat :=
  match n with
  | O => prev
  | S n' => RaisePrev n' (S i) (<[i := head_]> prev)
  end.

Definition Insert (key : Key) (s : SkipList) : option SkipList :=
  '(_, prev) ← FindGreaterOrEqual s key;
  let '(height, rnd) := RandomHeight (rnd_ s) in
  let prev :=
    if (max_height_ s <? height)%nat then RaisePrev (height - max_height_ s) (max_height_ s) prev else prev in
  let max_height := if (max_height_ s <? height)%nat then height else max_height_ s in
  let x := node_count s in
  links' ← Link height 0 x prev (links s);
  Some {| keys := <[x := key]> (keys s); links := links'; node_count := S x;
          max_height_ := max_height; rnd_ := rnd |}.

Definition Contains (key : Key) (s : SkipList) : option bool :=
  '(x, _) ← FindGreaterOrEqual s key;
  Some (match x with
        | Some x => match keys s !! x with Some k => compare_ key k =? 0 | None => false end
        | None => false
        end).

(** ** Iterator: a node, or null *)

Definition iter_SeekToFirst (s : SkipList) : option nat := Next s head_ 0.
Definition iter_Next (s : SkipList) (x : nat) : option nat := Next s x 0.

(** The outer [None] is out of fuel. *)
Definition iter_Seek (s : SkipList) (target : Key) : option (option nat) :=
  '(x, _) ← FindGreaterOrEqual s target; Some x.

Definition iter_Prev (s : SkipList) (x : nat) : option (option nat) :=
  k ← keys s !! x;
  y ← FindLessThan s k;
  Some (if (y =? head_)%nat then None else Some y).

Definition iter_SeekToLast (s : SkipList) : option (option nat) :=
  y ← FindLast s;
  Some (if (y =? head_)%nat then None else Some y).

End skiplist.

Arguments SkipList : clear implicits.

(** ** Lemmas: walking the lists *)

(** The three searches are one walk: along a level while the next node
    satisfies [P], down a level otherwise. *)
Fixpoint walk (fuel : nat) (links : gmap (nat * nat) nat) (P : nat → bool) (x level : nat) (prev : gmap nat nat)
    : option (option nat * gmap nat nat) :=
  match fuel with
  | O => None
  | S fuel' =>
      match links !! (x, level) with
      | Some y =>
          if P y then walk fuel' links P y level prev
          else match level with
               | O => Some (Some y, <[level := x]> prev)
               | S level' => walk fuel' links P x level' (<[level := x]> prev)
               end
      | None => match level with
                | O => Some (None, <[level := x]> prev)
                | S level' => walk fuel' links P x level' (<[level := x]> prev)
                end
      end
  end.

(** The nodes [ids] follow node [x] at level [i]. *)
Fixpoint chain (links : gmap (nat * nat) nat) (i x : nat) (ids : list nat) : Prop :=
  match ids with
  | [] => links !! (x, i) = None
  | y :: ids' => links !! (x, i) = Some y ∧ chain links i y ids'
  end.

Lemma chain_app links i x l1 l2 :
  chain links i x (l1 ++ l2) → chain links i (default x (last l1)) l2.
Proof.
  revert x. induction l1 as [|y l1 IH]; intros x; [done|]. intros [_ H]. apply IH in H.
  rewrite last_cons. by destruct (last l1).
Qed.

Section walk.

Context (links : gmap (nat * nat) nat) (ht : nat → nat) (P : nat → bool) (A B : list nat).

(** Level [i] has the nodes of height above [i]. *)
Definition level_list (i : nat) (l : list nat) : list nat := filter (λ x, i < ht x)%nat l.
Definition last_at (i : nat) (l : list nat) : nat := default head_ (last (level_list i l)).

Context (Hchain : ∀ i, chain links i head_ (level_list i (A ++ B))).
Context (HA : Forall (λ x, P x = true) A) (HB : Forall (λ x, P x = false) B).
Context (Hht : Forall (λ x, 1 ≤ ht x)%nat (A ++ B)).

Lemma level_list_app i l1 l2 : level_list i (l1 ++ l2) = level_list i l1 ++ level_list i l2.
Proof. apply filter_app. Qed.

Lemma last_at_snoc i l x : (i < ht x)%nat → last_at i (l ++ [x]) = x.
Proof.
  intros Hx. unfold last_at. rewrite level_list_app. unfold level_list at 2.
  rewrite filter_cons_True, filter_nil, last_snoc by done. done.
Qed.

(** Where the walk may stand: at the last node of [A1] or at the head. *)
Definition stands (x level : nat) (A1 : list nat) : Prop :=
  (x = head_ ∧ A1 = []) ∨ (∃ l, A1 = l ++ [x] ∧ (level < ht x)%nat).

Lemma stands_last x level A1 : stands x level A1 → ∀ i, (i ≤ level)%nat → x = last_at i A1.
Proof.
  intros [[-> ->]|(l & -> & Hx)] i Hi; [done|]. by rewrite last_at_snoc by lia.
Qed.

Lemma stands_down x level A1 : stands x (S level) A1 → stands x level A1.
Proof. intros [|(l & -> & ?)]; [by left|right]. exists l. split; [done|lia]. Qed.

(** A node of level [i] in a list that has one. *)
Lemma level_list_cons i l y r :
  level_list i l = y :: r → ∃ l1 l2, l = l1 ++ y :: l2 ∧ level_list i l1 = [] ∧ (i < ht y)%nat.
Proof.
  induction l as [|z l IH]; [done|]. unfold level_list. cbn [filter]. intros H.
  destruct (decide (i < ht z)%nat) as [Hz|Hz].
  - rewrite filter_cons_True in H by done. simplify_eq. by exists [], l.
  - rewrite filter_cons_False in H by done. apply IH in H as (l1 & l2 & -> & H1 & Hy).
    exists (z :: l1), l2. split; [done|]. split; [|done]. unfold level_list. by rewrite filter_cons_False.
Qed.

Lemma walk_ok fuel x level A1 A2 prev :
  A = A1 ++ A2 → stands x level A1 → (length A2 + level < fuel)%nat →
  ∃ prev', walk fuel links P x level prev = Some (head B, prev') ∧
    (∀ i, (i ≤ level)%nat → prev' !! i = Some (last_at i A)) ∧
    (∀ i, (level < i)%nat → prev' !! i = prev !! i).
Proof.
  revert x level A1 A2 prev. induction fuel as [|fuel IH]; intros x level A1 A2 prev EA Hst Hf; [lia|].
  pose proof (stands_last x level A1 Hst level ltac:(lia)) as Hx.
  pose proof (Hchain level) as Hc. rewrite EA, <- app_assoc, level_list_app in Hc.
  apply chain_app in Hc. fold (last_at level A1) in Hc. rewrite <- Hx in Hc.
  rewrite level_list_app in Hc. cbn [walk].
  (* down a level, or done *)
  assert (level_list level A2 = [] → ∀ next, (level = O → next = head B) →
    ∃ prev', match level with
      | O => Some (next, <[level := x]> prev)
      | S level' => walk fuel links P x level' (<[level := x]> prev) end = Some (head B, prev') ∧
      (∀ i, (i ≤ level)%nat → prev' !! i = Some (last_at i A)) ∧
      (∀ i, (level < i)%nat → prev' !! i = prev !! i)) as Hdown.
  { intros E2 next Hnext. assert (x = last_at level A) as Hxa.
    { rewrite Hx, EA. unfold last_at. by rewrite level_list_app, E2, app_nil_r. }
    destruct level as [|level'].
    - rewrite Hnext by done. eexists. split; [done|]. split; intros i Hi.
      + assert (i = 0)%nat as -> by lia. by rewrite lookup_insert_eq, <- Hxa.
      + by rewrite lookup_insert_ne by lia.
    - destruct (IH x level' A1 A2 (<[S level' := x]> prev) EA (stands_down _ _ _ Hst) ltac:(lia))
        as (prev' & Hw & H1 & H2).
      exists prev'. split; [done|]. split; intros i Hi.
      + destruct (decide (i = S level')) as [->|]; [|apply H1; lia].
        rewrite H2 by lia. by rewrite lookup_insert_eq, <- Hxa.
      + rewrite H2 by lia. by rewrite lookup_insert_ne by lia. }
  destruct (level_list level A2) as [|y r] eqn:E2.
  - cbn [app] in Hc. destruct (level_list level B) as [|b rb] eqn:EB; cbn [chain] in Hc.
    + rewrite Hc. apply Hdown; [done|]. intros ->. destruct B as [|b B']; [done|]. exfalso.
      apply Forall_app in Hht as [_ [Hb _]%Forall_cons].
      unfold level_list in EB. rewrite filter_cons_True in EB by lia. done.
    + destruct Hc as [-> _]. destruct (level_list_cons _ _ _ _ EB) as (B1 & B2 & EBB & EB1 & Hb).
      assert (P b = false) as ->.
      { rewrite EBB in HB. apply Forall_app in HB as [_ [? _]%Forall_cons]. done. }
      apply Hdown; [done|]. intros ->. rewrite EBB. destruct B1 as [|b1 B1]; [done|]. exfalso.
      rewrite EBB, app_assoc in Hht. apply Forall_app in Hht as [[_ [Hb1 _]%Forall_cons]%Forall_app _].
      unfold level_list in EB1. rewrite filter_cons_True in EB1 by lia. done.
  - destruct Hc as [-> _]. destruct (level_list_cons _ _ _ _ E2) as (l1 & l2 & EA2 & _ & Hy).
    assert (P y = true) as ->.
    { rewrite EA, EA2 in HA. rewrite !Forall_app in HA. destruct HA as (_ & _ & [? _]%Forall_cons). done. }
    apply (IH y level (A1 ++ l1 ++ [y]) l2).
    + rewrite EA, EA2, <- !app_assoc. done.
    + right. exists (A1 ++ l1). by rewrite app_assoc.
    + rewrite EA2, length_app in Hf. simpl in Hf. lia.
Qed.

End walk.

(** ** Lemmas: linking a node in *)

Lemma chain_frame l l' i x ids :
  (∀ z, z ∈ x :: ids → l' !! (z, i) = l !! (z, i)) → chain l i x ids → chain l' i x ids.
Proof.
  revert x. induction ids as [|y ids IH]; intros x Hf; cbn [chain].
  - intros H. by rewrite Hf by (by left).
  - intros [H Hc]. split; [by rewrite Hf by (by left)|]. apply IH; [|done]. intros z Hz. apply Hf. by right.
Qed.

(** The two assignments of a turn of the loop. *)
Definition link_in (x p i : nat) (l : gmap (nat * nat) nat) : gmap (nat * nat) nat :=
  SetNext p i (Some x) (SetNext x i (l !! (p, i)) l).

Lemma link_in_lookup x p i l y j :
  x ≠ p → link_in x p i l !! (y, j) =
    if decide (j = i ∧ y = p) then Some x else if decide (j = i ∧ y = x) then l !! (p, i) else l !! (y, j).
Proof.
  intros Hxp. unfold link_in, SetNext. destruct (decide (j = i ∧ y = p)) as [[-> ->]|H1].
  { by rewrite lookup_insert_eq. }
  rewrite lookup_insert_ne by naive_solver.
  destruct (decide (j = i ∧ y = x)) as [[-> ->]|H2].
  - destruct (l !! (p, i)); [by rewrite lookup_insert_eq|by rewrite lookup_delete_eq].
  - destruct (l !! (p, i)); [by rewrite lookup_insert_ne by naive_solver|by rewrite lookup_delete_ne by naive_solver].
Qed.

Lemma chain_link_in l i x y l1 l2 :
  chain l i y (l1 ++ l2) → NoDup (y :: l1 ++ l2) → x ∉ y :: l1 ++ l2 →
  chain (link_in x (default y (last l1)) i l) i y (l1 ++ x :: l2).
Proof.
  revert y. induction l1 as [|a l1 IH]; intros y Hc Hnd Hx; cbn [app chain] in *.
  - cbn [last default from_option id]. assert (x ≠ y) as Hxy by (intros ->; apply Hx; by left).
    split; [rewrite link_in_lookup by done; by rewrite decide_True|].
    destruct l2 as [|z l3]; cbn [chain] in *.
    + rewrite link_in_lookup by done. rewrite decide_False, decide_True by naive_solver. done.
    + destruct Hc as [Hz Hc]. split.
      * rewrite link_in_lookup by done. rewrite decide_False, decide_True by naive_solver. done.
      * apply (chain_frame l); [|done]. intros w Hw. rewrite link_in_lookup by done.
        apply NoDup_cons in Hnd as [Hy _]. rewrite !decide_False; [done|..].
        -- intros [_ ->]. apply Hx. by right.
        -- by intros [_ ->].
  - destruct Hc as [Ha Hc]. apply NoDup_cons in Hnd as [Hy Hnd]. apply not_elem_of_cons in Hx as [Hxy Hx].
    rewrite last_cons.
    assert ((default y (Some (default a (last l1)))) = default a (last l1)) as E by done.
    replace (default y match last l1 with Some y0 => Some y0 | None => Some a end) with (default a (last l1))
      by (by destruct (last l1)).
    assert (default a (last l1) ∈ a :: l1) as Hp.
    { destruct (last l1) as [w|] eqn:El; cbn; [|by left]. right. by apply last_Some_elem_of. }
    assert (x ≠ default a (last l1)) as Hxp.
    { intros ->. apply Hx. apply elem_of_cons in Hp as [->|Hp]; [by left|]. right. apply elem_of_app. by left. }
    split; [|by apply IH].
    rewrite link_in_lookup by done. rewrite !decide_False; [done|..]; intros [_ ->]; [done|].
    apply Hy. apply elem_of_cons in Hp as [->|Hp]; [by left|]. right. apply elem_of_app. by left.
Qed.

Section link.

Context (ht : nat → nat) (A B : list nat) (x : nat) (prev : gmap nat nat).
Context (Hnd : NoDup (head_ :: A ++ B)) (Hx : x ∉ head_ :: A ++ B).

Lemma level_list_elem i l y : y ∈ level_list ht i l → y ∈ l.
Proof. intros H. apply list_elem_of_filter in H. apply H. Qed.

Lemma level_nodup i : NoDup (head_ :: level_list ht i A ++ level_list ht i B).
Proof.
  rewrite <- level_list_app. apply NoDup_cons in Hnd as [H0 HL]. apply NoDup_cons. split.
  - intros H. by apply level_list_elem in H.
  - by apply NoDup_filter.
Qed.

Lemma level_fresh i : x ∉ head_ :: level_list ht i A ++ level_list ht i B.
Proof.
  rewrite <- level_list_app. apply not_elem_of_cons in Hx as [H1 H2]. apply not_elem_of_cons. split; [done|].
  intros H. by apply level_list_elem in H.
Qed.

Lemma Link_ok n i l :
  (∀ j, (i ≤ j < i + n)%nat → prev !! j = Some (last_at ht j A)) →
  (∀ j, (i ≤ j < i + n)%nat → chain l j head_ (level_list ht j (A ++ B))) →
  ∃ l', Link n i x prev l = Some l' ∧
    (∀ j, (i ≤ j < i + n)%nat → chain l' j head_ (level_list ht j A ++ x :: level_list ht j B)) ∧
    (∀ y j, ¬ (i ≤ j < i + n)%nat → l' !! (y, j) = l !! (y, j)) ∧
    (∀ y j z, l' !! (y, j) = Some z → z = x ∨ ∃ y' j', l !! (y', j') = Some z).
Proof.
  revert i l. induction n as [|n IH]; intros i l Hp Hc; cbn [Link].
  { exists l. split; [done|]. split; [intros; lia|]. split; [done|]. eauto. }
  rewrite (Hp i) by lia. cbn [mbind option_bind]. fold (link_in x (last_at ht i A) i l).
  assert (x ≠ last_at ht i A) as Hxp.
  { intros Heq. apply (level_fresh i). rewrite Heq. unfold last_at. destruct (last (level_list ht i A)) as [w|] eqn:El; cbn; [|by left].
    right. apply elem_of_app. left. by apply last_Some_elem_of. }
  destruct (IH (S i) (link_in x (last_at ht i A) i l)) as (l' & Hl' & H1 & H2 & H3).
  - intros j Hj. apply Hp. lia.
  - intros j Hj. apply (chain_frame l); [|apply Hc; lia]. intros z _. rewrite link_in_lookup by done.
    by rewrite !decide_False by lia.
  - exists l'. split; [done|]. split; [|split].
    + intros j Hj. destruct (decide (j = i)) as [->|]; [|apply H1; lia].
      apply (chain_frame (link_in x (last_at ht i A) i l)); [intros z _; apply H2; lia|].
      apply chain_link_in; [|apply level_nodup|apply level_fresh]. rewrite <- level_list_app. apply Hc. lia.
    + intros y j Hj. rewrite H2 by lia. rewrite link_in_lookup by done. by rewrite !decide_False by lia.
    + intros y j z Hz. destruct (H3 _ _ _ Hz) as [->|(y' & j' & Hz')]; [by left|].
      rewrite link_in_lookup in Hz' by done. repeat case_decide; simplify_eq; eauto.
Qed.

End link.

Lemma RandomHeight_range rnd : (1 ≤ fst (RandomHeight rnd) ≤ kMaxHeight)%nat.
Proof.
  unfold RandomHeight. assert (∀ n h r, (h ≤ fst (RandomHeight_loop n h r) ≤ h + n)%nat) as H.
  { induction n as [|n IH]; intros h r; cbn [RandomHeight_loop]; [cbn; lia|]. case_if; [|cbn; lia].
    specialize (IH (S h) (Random.Next r)). lia. }
  specialize (H (kMaxHeight - 1)%nat 1%nat rnd). unfold kMaxHeight in *. lia.
Qed.

Lemma RaisePrev_lookup n i prev j :
  RaisePrev n i prev !! j = if decide (i ≤ j < i + n)%nat then Some head_ else prev !! j.
Proof.
  revert i prev. induction n as [|n IH]; intros i prev; cbn [RaisePrev].
  { by rewrite decide_False by lia. }
  rewrite IH. destruct (decide (j = i)) as [->|Hne].
  - rewrite decide_False, decide_True by lia. by rewrite lookup_insert_eq.
  - rewrite lookup_insert_ne by done. repeat case_decide; done || lia.
Qed.

Lemma StronglySorted_insert {T} (Q : T → T → Prop) A x B :
  StronglySorted Q (A ++ B) → Forall (λ y, Q y x) A → Forall (Q x) B → StronglySorted Q (A ++ x :: B).
Proof.
  intros HS HA HB. induction A as [|y A IH]; cbn in *; [by constructor|].
  inversion_clear HS as [|?? HS' Hy]. apply Forall_cons in HA as [Hyx HA].
  constructor; [by apply IH|]. apply Forall_app in Hy as [Hy1 Hy2]. apply Forall_app. split; [done|by constructor].
Qed.

(** ** The invariant *)

(** What the comparator promises on the keys that are inserted. *)
Class KeyOrder {Key} (dom : Key → Prop) (compare : Key → Key → Z) : Prop := {
  ko_trans a b c : dom a → dom b → dom c → compare a b < 0 → compare b c < 0 → compare a c < 0;
  ko_anti a b : dom a → dom b → compare a b < 0 ↔ 0 < compare b a;
  ko_equal a b c : dom a → dom b → dom c → compare a b < 0 → compare c b = 0 → compare a c < 0
}.

Section invariant.

Context {Key : Type} (dom : Key → Prop) (compare_ : Key → Key → Z) `{!KeyOrder dom compare_}.

(** [L] is the nodes in the order of the bottom level, [ht] their heights. *)
Record inv (s : SkipList Key) (L : list nat) (ht : nat → nat) : Prop := {
  in_nodup : NoDup (head_ :: L);
  in_bound : Forall (λ x, x < node_count s)%nat (head_ :: L);
  in_keys : Forall (λ x, ∃ k, keys s !! x = Some k ∧ dom k) L;
  in_sorted : StronglySorted (λ x y, ∀ kx ky, keys s !! x = Some kx → keys s !! y = Some ky → compare_ kx ky < 0) L;
  in_ht : Forall (λ x, 1 ≤ ht x ≤ max_height_ s)%nat L;
  in_max : (1 ≤ max_height_ s ≤ kMaxHeight)%nat;
  in_chain : ∀ i, chain (links s) i head_ (level_list ht i L);
  in_links : ∀ x i y, links s !! (x, i) = Some y → is_Some (keys s !! y)
}.

(** The keys of the list, in order. *)
Definition contents (s : SkipList Key) (L : list nat) : list Key := omap (λ x, keys s !! x) L.

Definition after (s : SkipList Key) (key : Key) (x : nat) : bool := KeyIsAfterNode compare_ s key (Some x).

Lemma FGE_walk fuel s key x level prev :
  FindGreaterOrEqual_loop compare_ fuel s key x level prev = walk fuel (links s) (after s key) x level prev.
Proof.
  revert x level prev. induction fuel as [|fuel IH]; intros x level prev; [done|].
  cbn [FindGreaterOrEqual_loop walk]. unfold Next, after. destruct (links s !! (x, level)) as [y|]; cbn [KeyIsAfterNode].
  - destruct (keys s !! y) as [k|]; [destruct (compare_ k key <? 0)|]; cbn [mbind option_bind]; rewrite ?IH; try done;
      destruct level; try rewrite IH; done.
  - destruct level; try rewrite IH; done.
Qed.

Lemma FLT_walk fuel (s : SkipList Key) key x level prev :
  (∀ x i y, links s !! (x, i) = Some y → is_Some (keys s !! y)) →
  FindLessThan_loop compare_ fuel s key x level =
    r ← walk fuel (links s) (after s key) x level prev; snd r !! 0%nat.
Proof.
  intros Hl. revert x level prev. induction fuel as [|fuel IH]; intros x level prev; [done|].
  cbn [FindLessThan_loop walk]. unfold Next. destruct (links s !! (x, level)) as [y|] eqn:E.
  - destruct (Hl _ _ _ E) as [k Hk]. unfold after at 1. cbn [KeyIsAfterNode]. rewrite Hk, Z.geb_leb.
    destruct (Z.leb_spec 0 (compare_ k key)); [rewrite (proj2 (Z.ltb_ge _ _)) by lia|rewrite (proj2 (Z.ltb_lt _ _)) by lia].
    + destruct level; [cbn; by rewrite lookup_insert_eq|apply IH].
    + apply IH.
  - destruct level; [cbn; by rewrite lookup_insert_eq|apply IH].
Qed.

Lemma FLast_walk fuel (s : SkipList Key) x level prev :
  FindLast_loop fuel s x level = r ← walk fuel (links s) (λ _, true) x level prev; snd r !! 0%nat.
Proof.
  revert x level prev. induction fuel as [|fuel IH]; intros x level prev; [done|].
  cbn [FindLast_loop walk]. unfold Next. destruct (links s !! (x, level)) as [y|]; [apply IH|].
  destruct level; [cbn; by rewrite lookup_insert_eq|apply IH].
Qed.

(** The nodes below a key come first. *)
Lemma split_at_key s L ht key :
  inv s L ht → dom key →
  ∃ A B, L = A ++ B ∧ Forall (λ x, after s key x = true) A ∧ Forall (λ x, after s key x = false) B.
Proof.
  intros Hi Hk. destruct Hi as [_ _ HK HS _ _ _ _]. induction HS as [|x L HS IH Hx].
  { exists [], []. done. }
  apply Forall_cons in HK as [(kx & Hkx & Dx) HK]. destruct (IH HK) as (A & B & -> & HA & HB).
  destruct (after s key x) eqn:Ex.
  - exists (x :: A), B. split; [done|]. split; [by constructor|done].
  - exists [], (x :: A ++ B). split; [done|]. split; [done|]. constructor; [done|].
    apply Forall_forall. intros y Hy. rewrite Forall_forall in Hx, HK.
    specialize (Hx y Hy). destruct (HK y Hy) as (ky & Hky & Dy).
    unfold after in *. cbn in *. rewrite Hkx in Ex. rewrite Hky.
    apply Z.ltb_ge in Ex. apply Z.ltb_ge. specialize (Hx kx ky Hkx Hky).
    destruct (Z.lt_ge_cases (compare_ ky key) 0) as [Hlt|]; [|lia].
    pose proof (ko_trans kx ky key Dx Dy Hk Hx Hlt). lia.
Qed.

Lemma inv_length s L ht : inv s L ht → (S (length L) ≤ node_count s)%nat.
Proof.
  intros Hi. pose proof (in_bound _ _ _ Hi) as Hb. pose proof (in_nodup _ _ _ Hi) as Hnd.
  change (S (length L)) with (length (head_ :: L)).
  rewrite <- (length_seq (node_count s) 0). apply submseteq_length, NoDup_submseteq; [done|].
  intros x Hx. rewrite Forall_forall in Hb. apply Hb in Hx. apply elem_of_seq. lia.
Qed.

(** [FindGreaterOrEqual] finds the first node not below the key, and the node
    before it at every level. *)
Lemma FindGreaterOrEqual_ok s A B ht key :
  inv s (A ++ B) ht → Forall (λ x, after s key x = true) A → Forall (λ x, after s key x = false) B →
  ∃ prev, FindGreaterOrEqual compare_ s key = Some (head B, prev) ∧
    ∀ i, (i < max_height_ s)%nat → prev !! i = Some (last_at ht i A).
Proof.
  intros Hi HA HB. unfold FindGreaterOrEqual. rewrite FGE_walk.
  pose proof (in_max _ _ _ Hi) as Hm.
  destruct (walk_ok (links s) ht (after s key) A B (in_chain _ _ _ Hi) HA HB) with
    (fuel := fuel s) (x := head_) (level := pred (max_height_ s)) (A1 := @nil nat) (A2 := A) (prev := ∅ : gmap nat nat)
    as (prev & Hw & Hp & _).
  - eapply Forall_impl; [apply (in_ht _ _ _ Hi)|]. cbn. lia.
  - done.
  - by left.
  - unfold fuel. pose proof (inv_length s _ ht Hi) as Hlen. rewrite length_app in Hlen. lia.
  - exists prev. split; [done|]. intros i Hlt. apply Hp. lia.
Qed.

Lemma New_inv : inv New [] (λ _, 1%nat).
Proof.
  split; try done.
  - apply NoDup_singleton.
  - apply Forall_singleton. cbn. unfold head_. lia.
  - constructor.
  - cbn. unfold kMaxHeight. lia.
Qed.

Lemma level_list_new ht x h i l :
  x ∉ l → level_list (λ y, if decide (y = x) then h else ht y) i l = level_list ht i l.
Proof.
  unfold level_list. induction l as [|y l IH]; [done|]. intros [Hne Hx]%not_elem_of_cons.
  destruct (decide (i < ht y)%nat) as [Hy|Hy].
  - rewrite !filter_cons_True by (rewrite ?decide_False by done; done). by rewrite IH.
  - rewrite !filter_cons_False by (rewrite ?decide_False by done; done). by rewrite IH.
Qed.

Lemma level_list_nil ht i l : Forall (λ y, ht y ≤ i)%nat l → level_list ht i l = [].
Proof.
  induction 1 as [|y l Hy Hl IH]; [done|]. unfold level_list. rewrite filter_cons_False by lia. exact IH.
Qed.

Lemma Insert_ok s A B ht key :
  inv s (A ++ B) ht → dom key →
  Forall (λ x, after s key x = true) A →
  Forall (λ x, ∃ k, keys s !! x = Some k ∧ 0 < compare_ k key) B →
  ∃ s' ht', Insert compare_ key s = Some s' ∧ inv s' (A ++ node_count s :: B) ht' ∧
    keys s' = <[node_count s := key]> (keys s).
Proof.
  intros Hi Hk HA HB.
  assert (Forall (λ x, after s key x = false) B) as HB'.
  { eapply Forall_impl; [exact HB|]. intros x (k & Hkx & Hlt). unfold after. cbn. rewrite Hkx. apply Z.ltb_ge. lia. }
  destruct (FindGreaterOrEqual_ok s A B ht key Hi HA HB') as (prev & Hf & Hprev).
  unfold Insert. rewrite Hf. cbn [mbind option_bind].
  destruct (RandomHeight (rnd_ s)) as [h rnd] eqn:Eh. pose proof (RandomHeight_range (rnd_ s)) as Hh. rewrite Eh in Hh. cbn [fst] in Hh.
  destruct Hi as [Hnd Hb HK HS Hht Hm Hch Hl].
  set (x := node_count s) in *. set (prev' := if (max_height_ s <? h)%nat then _ else prev).
  assert (x ∉ head_ :: A ++ B) as Hx.
  { intros Hin. rewrite Forall_forall in Hb. apply Hb in Hin. unfold x in Hin. lia. }
  assert (∀ j, (0 ≤ j < 0 + h)%nat → prev' !! j = Some (last_at ht j A)) as Hp'.
  { intros j Hj. unfold prev'. destruct (Nat.ltb_spec (max_height_ s) h) as [Hlt|Hge]; [|apply Hprev; lia].
    rewrite RaisePrev_lookup. case_decide; [|apply Hprev; lia].
    f_equal. unfold last_at. replace (level_list ht j A) with (@nil nat); [done|]. symmetry.
    apply level_list_nil. apply Forall_app in Hht as [HhA _]. eapply Forall_impl; [exact HhA|]. cbn. lia. }
  destruct (Link_ok ht A B x prev' Hnd Hx h 0 (links s) Hp' (λ j _, Hch j)) as (l' & Hl' & HL1 & HL2 & HL3).
  rewrite Hl'. cbn [mbind option_bind]. eexists _, (λ y, if decide (y = x) then h else ht y).
  split; [done|]. split; [|done].
  apply not_elem_of_cons in Hx as [Hx0 Hx]. apply not_elem_of_app in Hx as [HxA HxB].
  assert (∀ y, y ∈ A ++ B → <[x := key]> (keys s) !! y = keys s !! y) as Hkeys.
  { intros y Hy. rewrite lookup_insert_ne; [done|]. intros <-. by apply elem_of_app in Hy as [?|?]. }
  split; cbn [keys links node_count max_height_].
  - apply NoDup_cons in Hnd as [H0 HndL]. apply NoDup_cons. split.
    + rewrite elem_of_app, elem_of_cons in *. naive_solver.
    + rewrite <- Permutation_middle. apply NoDup_cons. rewrite not_elem_of_app. done.
  - apply Forall_cons in Hb as [Hb0 HbL]. constructor; [lia|]. apply Forall_app in HbL as [HbA HbB].
    apply Forall_app. split; [eapply Forall_impl; [exact HbA|]; cbn; lia|]. constructor; [lia|].
    eapply Forall_impl; [exact HbB|]. cbn. lia.
  - rewrite Forall_forall in HK. apply Forall_forall. intros y Hy.
    apply elem_of_app in Hy as [Hy|[->|Hy]%elem_of_cons].
    + rewrite Hkeys by (apply elem_of_app; by left). apply HK, elem_of_app. by left.
    + exists key. by rewrite lookup_insert_eq.
    + rewrite Hkeys by (apply elem_of_app; by right). apply HK, elem_of_app. by right.
  - apply StronglySorted_insert.
    + clear -HS Hkeys. induction HS as [|y L HS IH Hy]; [constructor|].
      constructor; [apply IH; intros z Hz; apply Hkeys; by right|]. apply Forall_forall. intros z Hz.
      rewrite !Hkeys by (by left || by right). rewrite Forall_forall in Hy. by apply Hy.
    + apply Forall_forall. intros y Hy ky kx. rewrite (Hkeys y) by (apply elem_of_app; by left).
      rewrite lookup_insert_eq. intros Hky [= <-]. rewrite Forall_forall in HA. specialize (HA y Hy).
      unfold after in HA. cbn in HA. rewrite Hky in HA. by apply Z.ltb_lt.
    + apply Forall_forall. intros y Hy kx ky. rewrite (Hkeys y) by (apply elem_of_app; by right).
      rewrite lookup_insert_eq. intros [= <-] Hky. rewrite Forall_forall in HB, HK.
      destruct (HB y Hy) as (k' & Hk' & Hlt). destruct (HK y) as (k'' & Hk'' & Dk); [apply elem_of_app; by right|].
      simplify_eq. by apply ko_anti.
  - apply Forall_app in Hht as [HhA HhB]. rewrite Forall_forall in HhA, HhB.
    assert ((if (max_height_ s <? h)%nat then h else max_height_ s) = Nat.max (max_height_ s) h) as ->
      by (destruct (Nat.ltb_spec (max_height_ s) h); lia).
    apply Forall_forall. intros y Hy. apply elem_of_app in Hy as [Hy|[->|Hy]%elem_of_cons].
    + rewrite decide_False by (by intros ->). specialize (HhA y Hy). lia.
    + rewrite decide_True by done. lia.
    + rewrite decide_False by (by intros ->). specialize (HhB y Hy). lia.
  - destruct (Nat.ltb_spec (max_height_ s) h); lia.
  - intros i. rewrite level_list_app, level_list_new by done. change (x :: B) with ([x] ++ B).
    rewrite level_list_app, (level_list_new _ _ _ _ B) by done. destruct (decide (i < h)%nat) as [Hih|Hih].
    + unfold level_list at 2. rewrite filter_cons_True, filter_nil by (rewrite decide_True by done; lia). apply HL1. lia.
    + unfold level_list at 2. rewrite filter_cons_False, filter_nil by (rewrite decide_True by done; lia). cbn [app].
      rewrite <- level_list_app. apply (chain_frame (links s)); [|apply Hch]. intros z _. apply HL2. lia.
  - intros y j z Hz. destruct (HL3 _ _ _ Hz) as [->|(y' & j' & Hz')].
    + rewrite lookup_insert_eq. eauto.
    + destruct (decide (z = x)) as [->|]; [rewrite lookup_insert_eq; eauto|]. rewrite lookup_insert_ne by done. eauto.
Qed.

(** The list holds the keys [C]; they are then sorted. *)
Definition represents (s : SkipList Key) (C : list Key) : Prop := ∃ L ht, inv s L ht ∧ contents s L = C.

Lemma contents_app s l1 l2 : contents s (l1 ++ l2) = contents s l1 ++ contents s l2.
Proof. unfold contents. apply omap_app. Qed.

Lemma contents_Forall2 s L ht : inv s L ht → Forall2 (λ x k, keys s !! x = Some k ∧ dom k) L (contents s L).
Proof.
  intros Hi. pose proof (in_keys _ _ _ Hi) as HK. clear Hi. unfold contents.
  induction HK as [|x L (k & Hk & Dk) HK IH]; [constructor|]. cbn [omap list_omap]. rewrite Hk. by constructor.
Qed.

Lemma contents_sorted s L ht : inv s L ht → StronglySorted (λ a b, compare_ a b < 0) (contents s L).
Proof.
  intros Hi. pose proof (in_keys _ _ _ Hi) as HK. pose proof (in_sorted _ _ _ Hi) as HS. clear Hi. unfold contents.
  induction HS as [|x L HS IH Hx]; [constructor|]. apply Forall_cons in HK as [(k & Hk & Dk) HK].
  cbn [omap list_omap]. rewrite Hk. constructor; [by apply IH|].
  apply Forall_forall. intros ky (y & Hy & Hky)%list_elem_of_omap. rewrite Forall_forall in Hx. by apply (Hx y Hy).
Qed.

(** The keys below [key] and the others. *)
Lemma split_contents s L ht key :
  inv s L ht → dom key →
  ∃ A B, L = A ++ B ∧ Forall (λ x, after s key x = true) A ∧ Forall (λ x, after s key x = false) B ∧
    Forall (λ k, dom k ∧ compare_ k key < 0) (contents s A) ∧ Forall (λ k, dom k ∧ 0 ≤ compare_ k key) (contents s B).
Proof.
  intros Hi Hk. destruct (split_at_key s L ht key Hi Hk) as (A & B & -> & HA & HB).
  exists A, B. split; [done|]. split; [done|]. split; [done|].
  pose proof (in_keys _ _ _ Hi) as HK. rewrite !Forall_forall in *.
  split; intros k (x & Hx & Hkx)%list_elem_of_omap.
  - specialize (HA x Hx). unfold after in HA. cbn in HA. rewrite Hkx in HA. apply Z.ltb_lt in HA.
    destruct (HK x) as (k' & Hk' & D); [apply elem_of_app; by left|]. by simplify_eq.
  - specialize (HB x Hx). unfold after in HB. cbn in HB. rewrite Hkx in HB. apply Z.ltb_ge in HB.
    destruct (HK x) as (k' & Hk' & D); [apply elem_of_app; by right|]. by simplify_eq.
Qed.

Lemma contents_head s L ht : inv s L ht → (head L ≫= λ x, keys s !! x) = head (contents s L).
Proof.
  intros Hi. pose proof (contents_Forall2 s L ht Hi) as HF. inversion HF as [|x k L' C' [Hk _] _ HL HC]; [done|].
  cbn. by rewrite Hk.
Qed.

Lemma inv_tail_head s A B ht :
  inv s (A ++ B) ht → (head B ≫= λ x, keys s !! x) = head (contents s B).
Proof.
  intros Hi. destruct B as [|b B]; [done|]. cbn.
  pose proof (in_keys _ _ _ Hi) as HK. apply Forall_app in HK as [_ [(k & -> & _) _]%Forall_cons]. done.
Qed.

(** The bottom level is the whole list. *)
Lemma level_list_0 s L ht : inv s L ht → level_list ht 0 L = L.
Proof.
  intros Hi. pose proof (in_ht _ _ _ Hi) as Hh. clear Hi. unfold level_list.
  induction Hh as [|x L Hx Hh IH]; [done|]. rewrite filter_cons_True by lia. by rewrite IH.
Qed.

Lemma chain_lookup l i x ids j y :
  chain l i x ids → ids !! j = Some y → l !! (y, i) = ids !! S j.
Proof.
  revert x j. induction ids as [|z ids IH]; intros x j Hc Hj; [done|]. destruct Hc as [Hz Hc].
  destruct j as [|j]; cbn in Hj; [|by apply (IH z)]. simplify_eq. cbn. destruct ids; [done|]. by destruct Hc.
Qed.

Lemma FindLessThan_ok s A B ht key :
  inv s (A ++ B) ht → Forall (λ x, after s key x = true) A → Forall (λ x, after s key x = false) B →
  FindLessThan compare_ s key = Some (default head_ (last A)).
Proof.
  intros Hi HA HB. destruct (FindGreaterOrEqual_ok s A B ht key Hi HA HB) as (prev & Hf & Hp).
  unfold FindLessThan, FindGreaterOrEqual in *. rewrite (FLT_walk _ _ _ _ _ ∅) by apply Hi.
  rewrite <- FGE_walk, Hf. cbn [mbind option_bind snd]. rewrite Hp by (pose proof (in_max _ _ _ Hi); lia).
  unfold last_at. do 3 f_equal. pose proof (level_list_0 s _ ht Hi) as H0. rewrite level_list_app in H0.
  apply app_inj_1 in H0 as [? _]; [done|]. unfold level_list.
  pose proof (in_ht _ _ _ Hi) as Hh. apply Forall_app in Hh as [Hh _]. clear -Hh.
  induction Hh as [|x l Hx Hh IH]; [done|]. rewrite filter_cons_True by lia. cbn. by rewrite IH.
Qed.

Lemma FindLast_ok s L ht : inv s L ht → FindLast s = Some (default head_ (last L)).
Proof.
  intros Hi. unfold FindLast. rewrite (FLast_walk _ _ _ _ ∅).
  pose proof (in_max _ _ _ Hi) as Hm.
  destruct (walk_ok (links s) ht (λ _, true) L []) with
    (fuel := fuel s) (x := head_) (level := pred (max_height_ s)) (A1 := @nil nat) (A2 := L) (prev := ∅ : gmap nat nat)
    as (prev & Hw & Hp & _).
  - rewrite app_nil_r. apply Hi.
  - by apply Forall_true.
  - done.
  - rewrite app_nil_r. eapply Forall_impl; [apply (in_ht _ _ _ Hi)|]. cbn. lia.
  - done.
  - by left.
  - unfold fuel. pose proof (inv_length s _ ht Hi). lia.
  - rewrite Hw. cbn [mbind option_bind snd]. rewrite Hp by lia. unfold last_at. by rewrite (level_list_0 s).
Qed.

(** The nodes on the two sides of a node of the list. *)
Lemma around_node s L ht i x k :
  inv s L ht → L !! i = Some x → keys s !! x = Some k → dom k →
  Forall (λ y, after s k y = true) (take i L) ∧ Forall (λ y, after s k y = false) (drop i L).
Proof.
  intros Hi Hx Hk Dk. pose proof (in_sorted _ _ _ Hi) as HS. pose proof (in_keys _ _ _ Hi) as HK. clear Hi.
  revert i Hx. induction HS as [|y L HS IH Hy]; intros i Hx; [done|]. rewrite Forall_forall in Hy.
  apply Forall_cons in HK as [(ky & Hky & Dky) HK]. destruct i as [|i].
  - cbn in Hx. simplify_eq. split; [constructor|]. cbn [drop]. unfold after; cbn [KeyIsAfterNode].
    assert (¬ compare_ k k < 0) as Hirr by (intros H; pose proof H as H'; apply ko_anti in H'; [lia|done..]).
    constructor; [rewrite Hk; apply Z.ltb_ge; lia|]. apply Forall_forall. intros z Hz.
    rewrite Forall_forall in HK. destruct (HK z Hz) as (kz & Hkz & Dz). rewrite Hkz.
    specialize (Hy z Hz _ _ Hk Hkz). apply ko_anti in Hy; [|done..]. apply Z.ltb_ge. lia.
  - cbn in Hx. destruct (IH HK i Hx) as [H1 H2]. split; [|done]. cbn [take]. constructor; [|done].
    unfold after; cbn [KeyIsAfterNode]. rewrite Hky. apply Z.ltb_lt. apply (Hy x); [by eapply list_elem_of_lookup_2|done..].
Qed.

End invariant.

(** ** Properties *)

Section claims.

Context {Key : Type} (dom : Key → Prop) (compare_ : Key → Key → Z) (HO : KeyOrder dom compare_).

Lemma insert_represents s C key :
  represents dom compare_ s C → dom key → Forall (λ k, compare_ k key ≠ 0) C →
  ∃ s' C1 C2, Insert compare_ key s = Some s' ∧ C = C1 ++ C2 ∧
    Forall (λ k, compare_ k key < 0) C1 ∧ Forall (λ k, compare_ key k < 0) C2 ∧
    represents dom compare_ s' (C1 ++ key :: C2).
Proof.
  intros (L & ht & Hi & <-) Hk Hne.
  destruct (split_contents dom compare_ s L ht key Hi Hk) as (A & B & -> & HA & HB & HCA & HCB).
  rewrite contents_app in Hne. apply Forall_app in Hne as [_ HneB].
  destruct (Insert_ok dom compare_ s A B ht key Hi Hk HA) as (s' & ht' & Hins & Hi' & Hkeys).
  { apply Forall_forall. intros x Hx. pose proof (in_keys _ _ _ _ _ Hi) as HK. rewrite Forall_forall in HK.
    destruct (HK x) as (k & Hkx & Dk); [apply elem_of_app; by right|]. exists k. split; [done|].
    rewrite Forall_forall in HCB, HneB. assert (k ∈ contents s B) as Hin by (apply list_elem_of_omap; eauto).
    specialize (HCB k Hin). specialize (HneB k Hin). cbn in *. lia. }
  exists s', (contents s A), (contents s B). split; [done|]. rewrite contents_app. split; [done|].
  split; [eapply Forall_impl; [exact HCA|]; naive_solver|]. split.
  - rewrite !Forall_forall in *. intros k Hin. destruct (HCB k Hin) as [Dk Hge]. specialize (HneB k Hin).
    apply (ko_anti key k); [done..|]. cbn in HneB. lia.
  - exists (A ++ node_count s :: B), ht'. split; [done|].
    assert (∀ l, node_count s ∉ l → contents s' l = contents s l) as Hcont.
    { intros l Hl. unfold contents. rewrite Hkeys. clear -Hl. induction l as [|x l IH]; [done|].
      apply not_elem_of_cons in Hl as [Hne Hl]. cbn [omap list_omap]. rewrite lookup_insert_ne by done. by rewrite IH. }
    assert (node_count s ∉ A ++ B) as Hfresh.
    { intros Hin. pose proof (in_bound _ _ _ _ _ Hi) as Hb. apply Forall_cons in Hb as [_ Hb].
      rewrite Forall_forall in Hb. specialize (Hb _ Hin). cbn in Hb. lia. }
    apply not_elem_of_app in Hfresh as [HfA HfB].
    assert (contents s' (node_count s :: B) = key :: contents s B) as HB'.
    { rewrite <- (Hcont B) by done. unfold contents. cbn [omap list_omap].
      assert (keys s' !! node_count s = Some key) as -> by (by rewrite Hkeys, lookup_insert_eq). done. }
    by rewrite contents_app, (Hcont A), HB'.
Qed.

(** C22: [Insert] puts a new key in its place. On a list that holds the sorted
    keys [C], whatever heights the generator draws, it succeeds within its
    bound of turns and gives a list that holds the same keys and the new one
    between those below and those above it. *)
Theorem skiplist_insert s C key :
  represents dom compare_ s C → dom key → Forall (λ k, compare_ k key ≠ 0) C →
  ∃ s' C1 C2, Insert compare_ key s = Some s' ∧ C = C1 ++ C2 ∧
    Forall (λ k, compare_ k key < 0) C1 ∧ Forall (λ k, compare_ key k < 0) C2 ∧
    represents dom compare_ s' (C1 ++ key :: C2).
Proof. apply insert_represents. Qed.

(** The first key at or after [key]. *)
Definition lower_bound (key : Key) (C : list Key) : option Key := head (filter (λ k, 0 ≤ compare_ k key) C).

Lemma seek_represents s C key :
  represents dom compare_ s C → dom key →
  ∃ x, iter_Seek compare_ s key = Some x ∧ (x ≫= λ x, keys s !! x) = lower_bound key C ∧
    Contains compare_ key s = Some (bool_decide (Exists (λ k, compare_ key k = 0) C)).
Proof.
  intros (L & ht & Hi & <-) Hk.
  destruct (split_contents dom compare_ s L ht key Hi Hk) as (A & B & -> & HA & HB & HCA & HCB).
  destruct (FindGreaterOrEqual_ok dom compare_ s A B ht key Hi HA HB) as (prev & Hf & _).
  exists (head B). unfold iter_Seek, Contains. rewrite Hf. cbn [mbind option_bind]. split; [done|].
  pose proof (inv_tail_head dom compare_ s A B ht Hi) as Hhd.
  assert (lower_bound key (contents s (A ++ B)) = head (contents s B)) as Hlb.
  { unfold lower_bound. rewrite contents_app, filter_app. clear -HCA HCB.
    assert (filter (λ k, 0 ≤ compare_ k key) (contents s A) = []) as ->.
    { induction HCA as [|k l [_ Hlt] HCA IH]; [done|]. by rewrite filter_cons_False by lia. }
    cbn [app]. destruct HCB as [|k l [_ Hge] HCB]; [done|]. by rewrite filter_cons_True. }
  rewrite Hlb, Hhd. split; [done|]. f_equal.
  pose proof (contents_sorted dom compare_ s _ ht Hi) as HS. rewrite contents_app in HS |- *.
  destruct B as [|b B]; cbn [head mbind option_bind] in *.
  - symmetry. apply bool_decide_eq_false. cbn. rewrite app_nil_r.
    intros (k & Hin & Heq)%Exists_exists. rewrite Forall_forall in HCA. destruct (HCA k Hin) as [Dk Hlt].
    apply ko_anti in Hlt; [lia|done..].
  - destruct (keys s !! b) as [kb|] eqn:Ekb; cycle 1.
    { pose proof (in_keys _ _ _ _ _ Hi) as HK. apply Forall_app in HK as [_ [(? & ? & _) _]%Forall_cons]. congruence. }
    unfold contents in HCB, HS |- *. cbn [omap list_omap] in HCB, HS |- *. rewrite Ekb in *.
    destruct (Z.eqb_spec (compare_ key kb) 0) as [Heq|Hneq]; symmetry.
    + apply bool_decide_eq_true. apply Exists_app. right. by left.
    + apply bool_decide_eq_false. intros [Hex|Hex]%Exists_app.
      * apply Exists_exists in Hex as (k & Hin & Heq). rewrite Forall_forall in HCA. destruct (HCA k Hin) as [Dk Hlt].
        apply ko_anti in Hlt; [lia|done..].
      * apply Exists_cons in Hex as [|Hex]; [done|]. apply Exists_exists in Hex as (k & Hin & Heq).
        apply Forall_cons in HCB as [[Dkb Hge] HCB]. rewrite Forall_forall in HCB. destruct (HCB k Hin) as [Dk _].
        assert (compare_ kb k < 0) as Hlt.
        { clear -HS Hin. induction (omap _ A) as [|a l IH]; cbn in HS.
          - inversion_clear HS as [|?? _ Hf]. rewrite Forall_forall in Hf. by apply Hf.
          - inversion_clear HS. auto. }
        pose proof (ko_equal kb k key Dkb Dk Hk Hlt Heq). lia.
Qed.

(** The searches find what they should: [Seek] stops at the first key at or
    after its target, or at the end, and [Contains] tells whether an equal key
    is in the list. *)
Theorem skiplist_search s C key :
  represents dom compare_ s C → dom key →
  ∃ x, iter_Seek compare_ s key = Some x ∧ (x ≫= λ x, keys s !! x) = lower_bound key C ∧
    Contains compare_ key s = Some (bool_decide (Exists (λ k, compare_ key k = 0) C)).
Proof. apply seek_represents. Qed.

Lemma iterate_represents s C :
  represents dom compare_ s C →
  StronglySorted (λ a b, compare_ a b < 0) C ∧
  ∃ L, Forall2 (λ x k, keys s !! x = Some k) L C ∧
    iter_SeekToFirst s = head L ∧ iter_SeekToLast s = Some (last L) ∧
    ∀ i x, L !! i = Some x → iter_Next s x = L !! S i ∧
      iter_Prev compare_ s x = Some (match i with O => None | S j => L !! j end).
Proof.
  intros (L & ht & Hi & <-). split; [by apply (contents_sorted dom compare_ s L ht)|]. exists L.
  pose proof (level_list_0 dom compare_ s L ht Hi) as H0. pose proof (in_chain _ _ _ _ _ Hi 0%nat) as Hc. rewrite H0 in Hc.
  assert (∀ x, x ∈ L → (x =? head_)%nat = false) as Hnh.
  { intros x Hx. apply Nat.eqb_neq. intros ->. pose proof (in_nodup _ _ _ _ _ Hi) as Hnd. by apply NoDup_cons in Hnd as [? _]. }
  split; [eapply Forall2_impl; [apply (contents_Forall2 dom compare_ s L ht Hi)|naive_solver]|].
  split; [|split].
  - unfold iter_SeekToFirst, Next. destruct L as [|y L]; [done|]. by destruct Hc.
  - unfold iter_SeekToLast. rewrite (FindLast_ok dom compare_ s L ht Hi). cbn [mbind option_bind].
    destruct (last L) as [y|] eqn:El; [|done]. cbn. by rewrite Hnh by (by apply last_Some_elem_of).
  - intros i x Hx. split; [unfold iter_Next, Next; by apply (chain_lookup _ 0 head_ L)|].
    pose proof (in_keys _ _ _ _ _ Hi) as HK.
    destruct (proj1 (Forall_lookup _ _) HK _ _ Hx) as (k & Hk & Dk). unfold iter_Prev. rewrite Hk. cbn [mbind option_bind].
    assert (L = take i L ++ drop i L) as EL by (by rewrite take_drop). pose proof Hi as Hi2. rewrite EL in Hi2.
    destruct (around_node dom compare_ s L ht i x k Hi Hx Hk Dk) as [HA HB].
    rewrite (FindLessThan_ok dom compare_ s (take i L) (drop i L) ht k Hi2 HA HB).
    cbn [mbind option_bind]. destruct i as [|j]; [by cbn|].
    destruct (lookup_lt_is_Some_2 L j) as [y Hy]; [apply lookup_lt_Some in Hx; lia|].
    rewrite (take_S_r _ _ _ Hy), last_snoc, Hy. cbn. by rewrite Hnh by (by apply list_elem_of_lookup_2 in Hy).
Qed.

(** The iterator runs over the keys in order, in both directions: the nodes
    are those of the keys, [SeekToFirst] and [SeekToLast] stop at the ends, and
    [Next] and [Prev] go to the neighbours, [Prev] by a search from the head. *)
Theorem skiplist_iterate s C :
  represents dom compare_ s C →
  StronglySorted (λ a b, compare_ a b < 0) C ∧
  ∃ L, Forall2 (λ x k, keys s !! x = Some k) L C ∧
    iter_SeekToFirst s = head L ∧ iter_SeekToLast s = Some (last L) ∧
    ∀ i x, L !! i = Some x → iter_Next s x = L !! S i ∧
      iter_Prev compare_ s x = Some (match i with O => None | S j => L !! j end).
Proof. apply iterate_represents. Qed.

Lemma new_represents : represents dom compare_ New [].
Proof. exists [], (λ _, 1%nat). split; [apply New_inv|done]. Qed.

(** Inserting keys one after the other. *)
Fixpoint InsertAll (ks : list Key) (s : SkipList Key) : option (SkipList Key) :=
  match ks with
  | [] => Some s
  | k :: ks' => s' ← Insert compare_ k s; InsertAll ks' s'
  end.

(** No two keys of a list are equal under the comparator. *)
Definition distinct (ks : list Key) : Prop := StronglySorted (λ a b, compare_ a b ≠ 0 ∧ compare_ b a ≠ 0) ks.

Lemma insert_all_represents ks s C :
  represents dom compare_ s C → Forall dom ks → distinct ks → Forall (λ k, Forall (λ c, compare_ c k ≠ 0) C) ks →
  ∃ s' C', InsertAll ks s = Some s' ∧ C' ≡ₚ C ++ ks ∧ represents dom compare_ s' C'.
Proof.
  intros Hr Hd Hdis Hne. revert s C Hr Hne.
  induction Hdis as [|k ks Hdis IH Hk]; intros s C Hr Hne.
  - exists s, C. by rewrite app_nil_r.
  - apply Forall_cons in Hd as [Dk Hd]. apply Forall_cons in Hne as [HkC Hne].
    destruct (insert_represents s C k Hr Dk HkC) as (s1 & C1 & C2 & Hins & -> & _ & _ & Hr1).
    destruct (IH Hd s1 _ Hr1) as (s' & C' & Hall & HC & Hr').
    { apply Forall_forall. intros k' Hk'. rewrite Forall_forall in Hk, Hne. specialize (Hne k' Hk').
      apply Forall_app in Hne as [H1 H2]. apply Forall_app. split; [done|]. constructor; [|done]. by apply (Hk k'). }
    exists s', C'. cbn [InsertAll]. rewrite Hins. cbn [mbind option_bind]. split; [done|]. split; [|done].
    rewrite HC. solve_Permutation.
Qed.

(** A list built by any sequence of insertions of distinct keys holds
    exactly these keys, sorted: each key is found by [Contains], and nothing
    else is. *)
Theorem skiplist_build ks :
  Forall dom ks → distinct ks →
  ∃ s C, InsertAll ks New = Some s ∧ C ≡ₚ ks ∧ represents dom compare_ s C ∧
    ∀ key, dom key → Contains compare_ key s = Some (bool_decide (Exists (λ k, compare_ key k = 0) ks)).
Proof.
  intros Hd Hdis. destruct (insert_all_represents ks New []) as (s & C & Hall & HC & Hr); [apply new_represents|done|done| |].
  { apply Forall_forall. intros k _. constructor. }
  exists s, C. split; [done|]. split; [done|]. split; [done|]. intros key Hk.
  destruct (seek_represents s C key Hr Hk) as (x & _ & _ & ->). f_equal. apply bool_decide_ext. cbn in HC.
  rewrite !Exists_exists. setoid_rewrite HC. done.
Qed.

End claims.

(** The generator of the heights computes what its comment says: the two
    foldings give [seed * 16807 mod (2^31 - 1)], and a seed of [1 .. 2^31-2]
    stays in that range. *)
Theorem random_next seed :
  1 ≤ seed < 2147483647 →
  Random.Next seed = (seed * 16807) `mod` 2147483647 ∧ 1 ≤ Random.Next seed < 2147483647.
Proof.
  intros Hs. unfold Random.Next. set (p := seed * 16807).
  assert (¬ (2147483647 | p)) as Hnd.
  { intros Hd. unfold p in Hd. rewrite Z.mul_comm in Hd. apply Z.gauss in Hd; [|by vm_compute].
    apply Z.divide_pos_le in Hd; lia. }
  assert (0 ≤ p < 2 ^ 46) as Hp by (unfold p; lia).
  assert (u64 p = p) as -> by (unfold u64; apply Z.mod_small; lia).
  assert (Z.land p 2147483647 = p `mod` 2 ^ 31) as ->.
  { change 2147483647 with (Z.ones 31). by rewrite Z.land_ones by lia. }
  rewrite Z.shiftr_div_pow2 by lia.
  pose proof (Z.div_mod p (2 ^ 31)) as Hdm. pose proof (Z.mod_pos_bound p (2 ^ 31)) as Hr.
  assert (0 ≤ p `div` 2 ^ 31 < 2 ^ 15) as Hq.
  { split; [apply Z.div_pos; lia|]. apply Z.div_lt_upper_bound; lia. }
  set (q := p `div` 2 ^ 31) in *. set (r := p `mod` 2 ^ 31) in *.
  assert (u32 (q + r) = q + r) as -> by (unfold u32; apply Z.mod_small; lia).
  assert (q + r ≠ 2147483647) as Hne by (intros H; apply Hnd; exists (q + 1); lia).
  assert (q + r ≠ 0) as Hne0 by (intros H; apply Hnd; exists q; lia).
  assert (q + r ≠ 2 * 2147483647) as Hne2 by lia.
  destruct (Z.gtb_spec (q + r) 2147483647) as [H|H].
  - split; [|lia]. apply (Z.mod_unique_pos _ _ (q + 1)); lia.
  - split; [|lia]. apply (Z.mod_unique_pos _ _ q); lia.
Qed.

Lemma random_next_witness : Random.Next (Random.New 0xdeadbeef) = (1588444911 * 16807) `mod` 2147483647.
Proof. refine (proj1 (random_next 1588444911 _)). lia. Defined.

(** ** Witnesses: integer keys *)

#[local] Instance sub_order : KeyOrder (λ _, True) Z.sub.
Proof. split; intros; lia. Qed.

Definition sample : list Z := [50; 20; 80; 10; 60; 30; 70].

Lemma sample_distinct : distinct Z.sub sample.
Proof. unfold distinct, sample. repeat constructor; cbn; lia. Qed.

Lemma skiplist_build_witness :
  ∃ s C, InsertAll Z.sub sample New = Some s ∧ C ≡ₚ sample ∧ represents (λ _, True) Z.sub s C ∧
    Contains Z.sub 60 s = Some true ∧ Contains Z.sub 65 s = Some false.
Proof.
  destruct (skiplist_build (λ _, True) Z.sub sub_order sample) as (s & C & H1 & H2 & H3 & H4);
    [by repeat constructor|apply sample_distinct|].
  exists s, C. refine (conj H1 (conj H2 (conj H3 (conj _ _)))); [rewrite (H4 60 I)|rewrite (H4 65 I)]; clear; reflexivity.
Defined.

Lemma sample_list : ∃ s C, InsertAll Z.sub sample New = Some s ∧ C ≡ₚ sample ∧ represents (λ _, True) Z.sub s C.
Proof.
  destruct (insert_all_represents (λ _, True) Z.sub sub_order sample New []) as (s & C & H1 & H2 & H3);
    [apply new_represents|by repeat constructor|apply sample_distinct|by repeat constructor|]. exists s, C. exact (conj H1 (conj H2 H3)).
Qed.

Lemma skiplist_insert_witness :
  ∃ s C s' C', InsertAll Z.sub sample New = Some s ∧ C ≡ₚ sample ∧ Insert Z.sub 65 s = Some s' ∧
    represents (λ _, True) Z.sub s' C'.
Proof.
  destruct sample_list as (s & C & H1 & H2 & H3).
  destruct (skiplist_insert (λ _, True) Z.sub sub_order s C 65 H3) as (s' & C1 & C2 & Hi & _ & _ & _ & Hr); [done| |].
  { rewrite H2. unfold sample. repeat constructor; lia. }
  exists s, C, s', (C1 ++ 65 :: C2). exact (conj H1 (conj H2 (conj Hi Hr))).
Defined.

Lemma skiplist_search_witness :
  ∃ s C x, InsertAll Z.sub sample New = Some s ∧ C ≡ₚ sample ∧ iter_Seek Z.sub s 65 = Some x ∧
    (x ≫= λ x, keys s !! x) = lower_bound Z.sub 65 C.
Proof.
  destruct sample_list as (s & C & H1 & H2 & H3).
  destruct (skiplist_search (λ _, True) Z.sub sub_order s C 65 H3) as (x & Hs & Hx & _); [done|].
  exists s, C, x. exact (conj H1 (conj H2 (conj Hs Hx))).
Defined.

Lemma skiplist_iterate_witness :
  ∃ s C L, InsertAll Z.sub sample New = Some s ∧ C ≡ₚ sample ∧
    Forall2 (λ x k, keys s !! x = Some k) L C ∧ iter_SeekToFirst s = head L ∧ iter_SeekToLast s = Some (last L).
Proof.
  destruct sample_list as (s & C & H1 & H2 & H3).
  destruct (skiplist_iterate (λ _, True) Z.sub sub_order s C H3) as (_ & L & HL & Hf & Hl & _).
  exists s, C, L. exact (conj H1 (conj H2 (conj HL (conj Hf Hl)))).
Defined.
