(* ===== verification/MemTable.v ===== *)
(** * db/memtable.{h,cc}: the memtable

    A memtable is a skip list of encoded entries: a length-prefixed internal
    key and a length-prefixed value. [Add] encodes and inserts one, [Get] seeks
    the key of a snapshot. The theorems are stated over the writes in the order
    of their sequence numbers. *)

From Stdlib Require Import Sorted.
From S2P Require Import Prelude Coding Comparator DBFormat SkipList.

(** ** Entries *)

(** [GetVarint32Ptr(data, data + 5, &v)]: the value, and what follows the
    pointer it returns. *)
Definition GetVarint32At (data : bytes) : option (Z * bytes) :=
  match GetVarint32Ptr (first 5 data) with
  | Some (v, q) => Some (v, skip (len (first 5 data) - len q) data)
  | None => None
  end.

(** The file's own [GetLengthPrefixedSlice(const char* data)]. *)
Definition GetLengthPrefixedSliceAt (data : bytes) : option bytes :=
  '(n, p) ← GetVarint32At data; Some (first n p).

Definition KeyCompare (user : Comparator) (aptr bptr : bytes) : Z :=
  match GetLengthPrefixedSliceAt aptr, GetLengthPrefixedSliceAt bptr with
  | Some a, Some b => InternalKeyComparator.Compare user a b
  | _, _ => 0
  end.

Definition EncodeKey (target : bytes) : bytes := PutVarint32 [] (u32 (len target)) ++ target.

Record MemTable := {
  comparator_ : Comparator;            (** the user comparator *)
  refs_ : Z;
  table_ : SkipList bytes
}.

Definition NewMemTable (user : Comparator) : MemTable :=
  {| comparator_ := user; refs_ := 0; table_ := New |}.

Definition Ref (m : MemTable) : MemTable :=
  {| comparator_ := comparator_ m; refs_ := refs_ m + 1; table_ := table_ m |}.

(** [None]: the table deletes itself. *)
Definition Unref (m : MemTable) : option MemTable :=
  let refs := refs_ m - 1 in
  if refs <=? 0 then None
  else Some {| comparator_ := comparator_ m; refs_ := refs; table_ := table_ m |}.

(** The length [Add] allocates, and the bytes it writes there. *)
Definition encoded_len (key value : bytes) : Z :=
  VarintLength (len key + 8) + (len key + 8) + VarintLength (len value) + len value.

Definition encode (s : Z) (type : ValueType) (key value : bytes) : bytes :=
  EncodeVarint32 (u32 (len key + 8)) ++ key ++ EncodeFixed64 (Z.lor (u64 (Z.shiftl s 8)) (ValueType_code type)) ++
  EncodeVarint32 (u32 (len value)) ++ value.

(** [None] is out of fuel. *)
Definition Add (s : Z) (type : ValueType) (key value : bytes) (m : MemTable) : option MemTable :=
  table ← Insert (KeyCompare (comparator_ m)) (encode s type key value) (table_ m);
  Some {| comparator_ := comparator_ m; refs_ := refs_ m; table_ := table |}.

Inductive GetResult :=
  | Found (value : bytes)    (** true, and the value *)
  | Deleted                  (** true, and [NotFound] *)
  | Missing.                 (** false *)

Definition Get (key : LookupKey) (m : MemTable) : option GetResult :=
  x ← iter_Seek (KeyCompare (comparator_ m)) (table_ m) (memtable_key key);
  match x ≫= λ x, keys (table_ m) !! x with
  | None => Some Missing
  | Some entry =>
      '(key_length, key_ptr) ← GetVarint32At entry;
      if Compare (comparator_ m) (first (u32 (key_length - 8)) key_ptr) (lookup_user_key key) =? 0 then
        let tag := DecodeFixed64 (skip (key_length - 8) key_ptr) in
        match ValueType_of (Z.land tag 255) with
        | Some kTypeValue =>
            v ← GetLengthPrefixedSliceAt (skip key_length key_ptr); Some (Found v)
        | Some kTypeDeletion => Some Deleted
        | None => Some Missing
        end
      else Some Missing
  end.

(** ** MemTableIterator: over the skip list's *)

Definition iter_key (m : MemTable) (x : nat) : option bytes :=
  e ← keys (table_ m) !! x; GetLengthPrefixedSliceAt e.

Definition iter_value (m : MemTable) (x : nat) : option bytes :=
  e ← keys (table_ m) !! x;
  '(n, p) ← GetVarint32At e;
  GetLengthPrefixedSliceAt (skip n p).

Definition iter_MemSeek (m : MemTable) (k : bytes) : option (option nat) :=
  iter_Seek (KeyCompare (comparator_ m)) (table_ m) (EncodeKey k).

(** ** Lemmas *)

Lemma GetVarint32At_put n rest : u32_ok n → GetVarint32At (EncodeVarint32 n ++ rest) = Some (n, rest).
Proof.
  intros Hn. pose proof (len_EncodeVarint32 n Hn) as Hl. unfold GetVarint32At.
  assert (first 5 (EncodeVarint32 n ++ rest) = EncodeVarint32 n ++ first (5 - len (EncodeVarint32 n)) rest) as E.
  { unfold first, len in *. rewrite take_app. f_equal; [apply take_ge; lia|f_equal; lia]. }
  rewrite E. pose proof (GetVarint32_put n (first (5 - len (EncodeVarint32 n)) rest) Hn) as H.
  unfold GetVarint32 in H. destruct (GetVarint32Ptr _) as [[v q]|]; [|done]. simplify_eq.
  rewrite len_app. do 2 f_equal. apply skip_app. lia.
Qed.

Lemma GetLengthPrefixedSliceAt_put k rest :
  len k < 2 ^ 32 → GetLengthPrefixedSliceAt (EncodeVarint32 (len k) ++ k ++ rest) = Some k.
Proof.
  intros Hk. pose proof (len_nonneg k). unfold GetLengthPrefixedSliceAt.
  rewrite GetVarint32At_put by (unfold u32_ok; lia). cbn. by rewrite first_app.
Qed.

(** A write: its sequence number, type, user key and value. *)
Record write := { w_seq : Z; w_type : ValueType; w_key : bytes; w_value : bytes }.

Definition encode_write (w : write) : bytes := encode (w_seq w) (w_type w) (w_key w) (w_value w).
Definition write_key (w : write) : bytes := InternalKey (w_key w) (w_seq w) (w_type w).

Section memtable.

Context (udom : bytes → Prop) (user : Comparator) (HL : ComparatorLaws udom user).
Context (Hudom : ∀ u, udom u → bytes_ok u).

Record write_ok (w : write) : Prop := {
  wo_seq : 0 ≤ w_seq w ≤ kMaxSequenceNumber;
  wo_dom : udom (w_key w);
  wo_key : len (w_key w) + 8 < 2 ^ 32;
  wo_value : len (w_value w) < 2 ^ 32
}.

(** What the skip list orders: buffers that start with an internal key. *)
Definition entry_dom (e : bytes) : Prop := ∃ k, GetLengthPrefixedSliceAt e = Some k ∧ ikey_ok udom k.

Lemma KeyCompare_eq a b ka kb :
  GetLengthPrefixedSliceAt a = Some ka → GetLengthPrefixedSliceAt b = Some kb →
  KeyCompare user a b = InternalKeyComparator.Compare user ka kb.
Proof. unfold KeyCompare. by intros -> ->. Qed.

#[local] Instance entry_order : KeyOrder entry_dom (KeyCompare user).
Proof.
  split.
  - intros a b c (ka & Ha & Da) (kb & Hb & Db) (kc & Hc & Dc).
    rewrite (KeyCompare_eq a b ka kb), (KeyCompare_eq b c kb kc), (KeyCompare_eq a c ka kc) by done.
    by apply (icmp_trans udom).
  - intros a b (ka & Ha & Da) (kb & Hb & Db).
    rewrite (KeyCompare_eq a b ka kb), (KeyCompare_eq b a kb ka) by done. by apply (icmp_anti udom).
  - intros a b c (ka & Ha & Da) (kb & Hb & Db) (kc & Hc & Dc).
    rewrite (KeyCompare_eq a b ka kb), (KeyCompare_eq c b kc kb), (KeyCompare_eq a c ka kc) by done.
    intros Hlt Heq%(icmp_eq udom); [by subst|done..].
Qed.

Lemma encode_eq w :
  write_ok w →
  encode_write w = EncodeVarint32 (len (write_key w)) ++ write_key w ++ EncodeVarint32 (len (w_value w)) ++ w_value w.
Proof.
  intros [Hs Hd Hk Hv]. pose proof (len_nonneg (w_key w)). pose proof (len_nonneg (w_value w)).
  unfold encode_write, encode, write_key. rewrite InternalKey_app, len_app, len_EncodeFixed64.
  rewrite !u32_id by (unfold u32_ok; lia). by rewrite <- !app_assoc.
Qed.

Lemma write_key_ok w : write_ok w → ikey_ok udom (write_key w) ∧ len (write_key w) = len (w_key w) + 8.
Proof.
  intros [Hs Hd Hk Hv]. unfold write_key. rewrite InternalKey_app. split.
  - apply ikey_ok_tagged; auto. by apply Pack_ok.
  - by rewrite len_app, len_EncodeFixed64.
Qed.

Lemma encode_key w : write_ok w → GetLengthPrefixedSliceAt (encode_write w) = Some (write_key w).
Proof.
  intros Hw. rewrite encode_eq by done. apply GetLengthPrefixedSliceAt_put.
  destruct (write_key_ok w Hw) as [_ ->]. apply Hw.
Qed.

(** The order of two keys, in parts. *)
Lemma ICompare_parts u1 s1 t1 u2 s2 t2 :
  udom u1 → udom u2 → 0 ≤ s1 ≤ kMaxSequenceNumber → 0 ≤ s2 ≤ kMaxSequenceNumber →
  InternalKeyComparator.Compare user (InternalKey u1 s1 t1) (InternalKey u2 s2 t2) =
  andThen (Compare user u1 u2) (zcmp (ValueType_code t2 + s2 * 256) (ValueType_code t1 + s1 * 256)).
Proof.
  intros Hu1 Hu2 Hs1 Hs2. rewrite !InternalKey_app.
  rewrite (ICompare_unfold udom) by (apply ikey_ok_tagged; auto using Pack_ok).
  rewrite !ExtractUserKey_tagged, !tag_of_tagged by auto using Pack_ok. by rewrite !Pack_value.
Qed.

(** ** What a memtable holds *)

(** The writes [ws], in the order of their sequence numbers. *)
Record holds_writes (m : MemTable) (ws : list write) : Prop := {
  hw_comparator : comparator_ m = user;
  hw_writes : Forall write_ok ws;
  hw_seqs : StronglySorted (λ w w', w_seq w < w_seq w') ws;
  hw_table : ∃ C, represents entry_dom (KeyCompare user) (table_ m) C ∧ C ≡ₚ map encode_write ws
}.

Lemma New_holds : holds_writes (NewMemTable user) [].
Proof. split; try done; [constructor|]. exists []. split; [apply new_represents|done]. Qed.

Lemma Add_holds m ws w :
  holds_writes m ws → write_ok w → Forall (λ w', w_seq w' < w_seq w) ws →
  ∃ m', Add (w_seq w) (w_type w) (w_key w) (w_value w) m = Some m' ∧ holds_writes m' (ws ++ [w]).
Proof.
  intros [Hc Hw Hs (C & Hr & HC)] Hok Hlt. unfold Add. rewrite Hc. fold (encode_write w).
  destruct (insert_represents entry_dom (KeyCompare user) entry_order (table_ m) C (encode_write w))
    as (s' & C1 & C2 & -> & -> & _ & _ & Hr').
  - done.
  - exists (write_key w). split; [by apply encode_key|by apply write_key_ok].
  - rewrite HC. apply Forall_map. rewrite Forall_forall in Hw, Hlt |- *. intros w' Hin.
    specialize (Hw w' Hin). specialize (Hlt w' Hin). cbn in Hlt |- *.
    rewrite (KeyCompare_eq _ _ (write_key w') (write_key w)) by (by apply encode_key).
    unfold write_key. rewrite ICompare_parts by (apply Hw || apply Hok). 
    destruct (andThen_spec (Compare user (w_key w') (w_key w))
      (zcmp (ValueType_code (w_type w) + w_seq w * 256) (ValueType_code (w_type w') + w_seq w' * 256))) as [[_ ->]|[? ->]]; [|done].
    destruct (zcmp_spec (ValueType_code (w_type w) + w_seq w * 256) (ValueType_code (w_type w') + w_seq w' * 256))
      as [[? ->]|[[? ->]|[? ->]]]; [lia| |lia]. destruct (w_type w), (w_type w'); cbn in *; lia.
  - eexists. split; [done|]. split; cbn; [done|by apply Forall_app_2; [|apply Forall_singleton]| |].
    + clear -Hs Hlt. induction Hs as [|x l Hs IH Hx]; [repeat constructor|].
      apply Forall_cons in Hlt as [H1 H2]. constructor; [by apply IH|]. apply Forall_app_2; [done|by apply Forall_singleton].
    + exists (C1 ++ encode_write w :: C2). split; [done|]. rewrite map_app. cbn. rewrite <- HC. solve_Permutation.
Qed.

(** ** Lookups *)

(** The last write of [u] at or before [s], and what [Get] makes of it. *)
Definition visible (u : bytes) (s : Z) (ws : list write) : option write :=
  last (filter (λ w, w_key w = u ∧ w_seq w ≤ s) ws).

Definition answer (w : option write) : GetResult :=
  match w with
  | None => Missing
  | Some w => match w_type w with kTypeValue => Found (w_value w) | kTypeDeletion => Deleted end
  end.

(** The first key at or after [key] of a sorted list. *)
Lemma lower_bound_spec key C :
  StronglySorted (λ a b, KeyCompare user a b < 0) C →
  match lower_bound (KeyCompare user) key C with
  | None => Forall (λ k, KeyCompare user k key < 0) C
  | Some h => h ∈ C ∧ 0 ≤ KeyCompare user h key ∧
      Forall (λ k, 0 ≤ KeyCompare user k key → k = h ∨ KeyCompare user h k < 0) C
  end.
Proof.
  unfold lower_bound. induction 1 as [|x C HS IH Hx]; [by constructor|]. rewrite filter_cons. case_decide as Hd; cbn [head].
  - split; [by left|]. split; [done|]. constructor; [by left|]. eapply Forall_impl; [exact Hx|]. auto.
  - destruct (head _) as [h|]; [|constructor; [lia|done]]. destruct IH as (Hin & Hge & Hall).
    split; [by right|]. split; [done|]. constructor; [done|done].
Qed.

Lemma visible_Some u s ws w :
  StronglySorted (λ w w', w_seq w < w_seq w') ws → visible u s ws = Some w →
  w ∈ ws ∧ w_key w = u ∧ w_seq w ≤ s ∧ ∀ w', w' ∈ ws → w_key w' = u → w_seq w' ≤ s → w' = w ∨ w_seq w' < w_seq w.
Proof.
  unfold visible. intros HS Hl. assert (w ∈ filter (λ w, w_key w = u ∧ w_seq w ≤ s) ws) as Hin by (by apply last_Some_elem_of).
  apply list_elem_of_filter in Hin as [[Hk Hs] Hin]. split_and!; [done..|].
  intros w' Hin' Hk' Hs'. induction HS as [|x ws HS IH Hx]; [by apply not_elem_of_nil in Hin|].
  rewrite filter_cons in Hl. rewrite Forall_forall in Hx.
  apply elem_of_cons in Hin' as [->|Hin'].
  - rewrite decide_True in Hl by done. destruct (filter _ ws) as [|y l] eqn:E; [left; by simplify_eq/=|].
    change (last (y :: l) = Some w) in Hl. right. apply Hx.
    apply last_Some_elem_of in Hl. rewrite <- E in Hl. by apply list_elem_of_filter in Hl as [_ ?].
  - assert (w' ∈ filter (λ w, w_key w = u ∧ w_seq w ≤ s) ws) as Hf by (by apply list_elem_of_filter).
    destruct (filter _ ws) as [|y l] eqn:E; [by apply not_elem_of_nil in Hf|].
    assert (last (y :: l) = Some w) as Hl' by (case_decide; done).
    apply IH; [done| |done]. apply last_Some_elem_of in Hl'. rewrite <- E in Hl'. by apply list_elem_of_filter in Hl' as [_ ?].
Qed.

Lemma visible_None u s ws : visible u s ws = None → ∀ w, w ∈ ws → w_key w = u → ¬ w_seq w ≤ s.
Proof.
  unfold visible. intros Hl%last_None w Hin Hk Hs.
  assert (w ∈ filter (λ w, w_key w = u ∧ w_seq w ≤ s) ws) as Hf by (by apply list_elem_of_filter).
  rewrite Hl in Hf. by apply not_elem_of_nil in Hf.
Qed.

Lemma represents_sorted s C :
  represents entry_dom (KeyCompare user) s C → StronglySorted (λ a b, KeyCompare user a b < 0) C.
Proof. intros (L & ht & Hi & <-). by apply (contents_sorted entry_dom _ s L ht). Qed.

(** What [Get] reads of an entry. *)
Lemma read_entry w :
  write_ok w →
  ∃ key_ptr, GetVarint32At (encode_write w) = Some (len (w_key w) + 8, key_ptr) ∧
    first (u32 (len (w_key w) + 8 - 8)) key_ptr = w_key w ∧
    ValueType_of (Z.land (DecodeFixed64 (skip (len (w_key w) + 8 - 8) key_ptr)) 255) = Some (w_type w) ∧
    GetLengthPrefixedSliceAt (skip (len (w_key w) + 8) key_ptr) = Some (w_value w).
Proof.
  intros Hw. pose proof (len_nonneg (w_key w)). destruct (write_key_ok w Hw) as [_ Hlen].
  rewrite encode_eq by done. eexists. split; [rewrite GetVarint32At_put by (destruct Hw; unfold u32_ok; lia); by rewrite Hlen|].
  destruct Hw as [Hs Hd Hk Hv]. split_and!.
  - unfold write_key. rewrite InternalKey_app, <- app_assoc.
    rewrite u32_id by (unfold u32_ok; lia). apply first_app. lia.
  - unfold write_key. rewrite InternalKey_app, <- app_assoc, skip_app by lia.
    rewrite DecodeFixed64_app by (by apply Pack_ok). by apply Pack_type.
  - rewrite skip_app by lia. rewrite <- (app_nil_r (w_value w)) at 2. by apply GetLengthPrefixedSliceAt_put.
Qed.

(** Seeking the key of a snapshot finds the visible write. *)
Lemma seek_visible ws C target u s :
  Forall write_ok ws → StronglySorted (λ w w', w_seq w < w_seq w') ws → C ≡ₚ map encode_write ws → udom u →
  (∀ w, w ∈ ws → KeyCompare user (encode_write w) target =
    andThen (Compare user (w_key w) u) (zcmp (1 + s * 256) (ValueType_code (w_type w) + w_seq w * 256))) →
  match lower_bound (KeyCompare user) target C with
  | None => Forall (λ k, KeyCompare user k target < 0) C
  | Some h => h ∈ C ∧ 0 ≤ KeyCompare user h target ∧
      Forall (λ k, 0 ≤ KeyCompare user k target → k = h ∨ KeyCompare user h k < 0) C
  end →
  match lower_bound (KeyCompare user) target C with
  | None => visible u s ws = None
  | Some h => ∃ w, w ∈ ws ∧ h = encode_write w ∧
      visible u s ws = if Compare user (w_key w) u =? 0 then Some w else None
  end.
Proof.
  intros Hw HS HC Hu Hcmp Hlb. rewrite Forall_forall in Hw.
  assert (∀ w, w ∈ ws → encode_write w ∈ C) as HinC.
  { intros w Hin. rewrite HC. by apply list_elem_of_In, in_map, list_elem_of_In. }
  assert (∀ w0, visible u s ws = Some w0 → w0 ∈ ws ∧ w_key w0 = u ∧ 0 ≤ KeyCompare user (encode_write w0) target) as Hvis.
  { intros w0 Hv. apply visible_Some in Hv as (Hin & Hk & Hle & _); [|done]. split; [done|]. split; [done|].
    rewrite (Hcmp w0 Hin), Hk, (user_le_refl udom user u Hu). change (andThen 0 ?x) with x.
    destruct (zcmp_spec (1 + s * 256) (ValueType_code (w_type w0) + w_seq w0 * 256)) as [[? ->]|[[? ->]|[? ->]]]; [|lia..].
    destruct (w_type w0); cbn in *; lia. }
  destruct (lower_bound _ _ _) as [h|].
  2: { destruct (visible u s ws) as [w0|] eqn:Hv; [|done]. destruct (Hvis w0 eq_refl) as (Hin & _ & Hge).
       rewrite Forall_forall in Hlb. specialize (Hlb _ (HinC w0 Hin)). cbn in Hlb. lia. }
  destruct Hlb as (Hh & Hge & Hmin). rewrite HC in Hh.
  apply list_elem_of_In, in_map_iff in Hh as (w & <- & Hin%list_elem_of_In). exists w. split; [done|]. split; [done|].
  rewrite Forall_forall in Hmin. pose proof (Hw w Hin) as Hokw.
  assert (∀ w0, visible u s ws = Some w0 →
    andThen (Compare user (w_key w) u) (zcmp (ValueType_code (w_type w0) + w_seq w0 * 256)
      (ValueType_code (w_type w) + w_seq w * 256)) ≤ 0) as Hle0.
  { intros w0 Hv. destruct (Hvis w0 Hv) as (Hin0 & Hk0 & Hge0). pose proof (Hw w0 Hin0) as Hok0.
    rewrite <- Hk0, <- ICompare_parts by (apply Hokw || apply Hok0). fold (write_key w) (write_key w0).
    rewrite <- (KeyCompare_eq _ _ _ _ (encode_key w Hokw) (encode_key w0 Hok0)).
    destruct (Hmin _ (HinC w0 Hin0) Hge0) as [->|]; [|lia].
    rewrite (KeyCompare_eq _ _ _ _ (encode_key w Hokw) (encode_key w Hokw)).
    apply Z.eq_le_incl. apply (icmp_eq udom); [done|by apply write_key_ok..|done]. }
  rewrite Hcmp in Hge by done. destruct (Z.eqb_spec (Compare user (w_key w) u) 0) as [E|E].
  - rewrite E in Hge, Hle0. change (andThen 0 ?x) with x in Hge. apply cmp_eq in E; [|apply Hokw|done].
    assert (w_seq w ≤ s) as Hs.
    { destruct (zcmp_spec (1 + s * 256) (ValueType_code (w_type w) + w_seq w * 256)) as [[? E']|[[? E']|[? E']]];
        [lia|destruct (w_type w); cbn in *; lia..]. }
    destruct (visible u s ws) as [w0|] eqn:Hv; [|by apply (visible_None _ _ _ Hv w Hin) in E].
    pose proof (visible_Some u s ws w0 HS Hv) as (_ & _ & _ & Hmax). destruct (Hmax w Hin E Hs) as [->|Hlt]; [done|].
    specialize (Hle0 w0 eq_refl). change (andThen 0 ?x) with x in Hle0.
    destruct (zcmp_spec (ValueType_code (w_type w0) + w_seq w0 * 256) (ValueType_code (w_type w) + w_seq w * 256))
      as [[? E']|[[? E']|[? E']]]; [destruct (w_type w), (w_type w0); cbn in *; lia..|lia].
  - destruct (visible u s ws) as [w0|] eqn:Hv; [|done]. specialize (Hle0 w0 eq_refl).
    unfold andThen in Hge, Hle0. rewrite (proj2 (Z.eqb_neq _ _) E) in Hge, Hle0. lia.
Qed.

Lemma Get_holds m ws u s :
  holds_writes m ws → udom u → len u + 8 < 2 ^ 32 → 0 ≤ s ≤ kMaxSequenceNumber →
  Get (MakeLookupKey u s) m = Some (answer (visible u s ws)).
Proof.
  intros [Hc Hw HS (C & Hr & HC)] Hu Hlu Hs. pose proof (len_nonneg u).
  set (target := memtable_key (MakeLookupKey u s)).
  assert (GetLengthPrefixedSliceAt target = Some (InternalKey u s kValueTypeForSeek)) as Ht.
  { unfold target, memtable_key. cbn [MakeLookupKey lk_buf]. rewrite <- InternalKey_app, u32_id by (unfold u32_ok; lia).
    assert (len u + 8 = len (InternalKey u s kValueTypeForSeek)) as E by (by rewrite InternalKey_app, len_app, len_EncodeFixed64).
    rewrite E, <- (app_nil_r (_ ++ InternalKey _ _ _)), <- app_assoc. apply GetLengthPrefixedSliceAt_put. lia. }
  assert (entry_dom target) as Dt.
  { eexists. split; [exact Ht|]. rewrite InternalKey_app. apply ikey_ok_tagged; auto using Pack_ok. }
  assert (lookup_user_key (MakeLookupKey u s) = u) as Hlk.
  { unfold lookup_user_key. cbn [MakeLookupKey lk_buf lk_kstart]. apply slice_app; [done|].
    rewrite !len_app, len_EncodeFixed64. lia. }
  (* the order of an entry and the target *)
  assert (∀ w, w ∈ ws → KeyCompare user (encode_write w) target =
    andThen (Compare user (w_key w) u) (zcmp (1 + s * 256) (ValueType_code (w_type w) + w_seq w * 256))) as Hcmp.
  { intros w Hin. rewrite Forall_forall in Hw. specialize (Hw w Hin).
    rewrite (KeyCompare_eq _ _ (write_key w) _ (encode_key w Hw) Ht). unfold write_key. by rewrite ICompare_parts by (apply Hw || done). }
  unfold Get. rewrite Hc. fold target.
  destruct (seek_represents entry_dom (KeyCompare user) entry_order (table_ m) C target Hr Dt) as (x & -> & Hx & _).
  cbn [mbind option_bind] in Hx |- *. rewrite Hx. clear x Hx.
  pose proof (lower_bound_spec target C (represents_sorted _ _ Hr)) as Hlb.
  pose proof (seek_visible ws C target u s Hw HS HC Hu Hcmp Hlb) as Hv.
  destruct (lower_bound (KeyCompare user) target C) as [h|].
  - destruct Hv as (w & Hin & -> & Hv). rewrite Forall_forall in Hw. specialize (Hw w Hin).
    destruct (read_entry w Hw) as (key_ptr & E1 & E2 & E3 & E4). rewrite E1. cbn [mbind option_bind]. rewrite E2, Hlk, Hv.
    destruct (Z.eqb_spec (Compare user (w_key w) u) 0) as [E|E]; [|done]. rewrite E3, E4. unfold answer. by destruct (w_type w).
  - by rewrite Hv.
Qed.

(** The bytes [Add] writes are the bytes it allocates. *)
Lemma encode_len w : write_ok w → len (encode_write w) = encoded_len (w_key w) (w_value w).
Proof.
  intros Hw. destruct (write_key_ok w Hw) as [_ Hl]. rewrite encode_eq by done. unfold encoded_len.
  destruct Hw as [_ _ Hk Hv]. pose proof (len_nonneg (w_key w)). pose proof (len_nonneg (w_value w)).
  rewrite !len_app, Hl. rewrite !VarintLength_32 by (unfold u32_ok; lia). lia.
Qed.

Lemma StronglySorted_map_inv {A B} (f : A → B) (R : B → B → Prop) (Q : A → A → Prop) l :
  StronglySorted R (map f l) → (∀ x y, x ∈ l → y ∈ l → R (f x) (f y) → Q x y) → StronglySorted Q l.
Proof.
  induction l as [|x l IH]; intros HS HR; [constructor|]. cbn in HS. inversion_clear HS as [|?? HS' Hx].
  constructor; [apply IH; [done|]; intros; apply HR; [by right..|done]|].
  rewrite Forall_map in Hx. apply Forall_forall. intros y Hy. rewrite Forall_forall in Hx.
  apply HR; [by left|by right|by apply Hx].
Qed.

Fixpoint AddAll (ws : list write) (m : MemTable) : option MemTable :=
  match ws with
  | [] => Some m
  | w :: ws' => m' ← Add (w_seq w) (w_type w) (w_key w) (w_value w) m; AddAll ws' m'
  end.

Lemma AddAll_holds ws m ws0 :
  holds_writes m ws0 → Forall write_ok ws → StronglySorted (λ w w', w_seq w < w_seq w') (ws0 ++ ws) →
  ∃ m', AddAll ws m = Some m' ∧ holds_writes m' (ws0 ++ ws).
Proof.
  intros Hm Hw. revert m ws0 Hm. induction Hw as [|w ws Hw Hws IH]; intros m ws0 Hm HS.
  { exists m. by rewrite app_nil_r. }
  destruct (Add_holds m ws0 w Hm Hw) as (m1 & Ha & Hm1).
  { clear -HS. induction ws0 as [|x l IH]; [constructor|]. cbn in HS. inversion_clear HS as [|?? HS' Hx].
    constructor; [|by apply IH]. rewrite Forall_forall in Hx. apply Hx, elem_of_app. right. by left. }
  cbn [AddAll]. rewrite Ha. cbn [mbind option_bind].
  destruct (IH m1 (ws0 ++ [w]) Hm1) as (m' & Hm' & Hh); [by rewrite <- app_assoc|].
  exists m'. by rewrite <- app_assoc in Hh.
Qed.

(** C16: the memtable answers from the latest write a snapshot sees. After any
    writes with increasing sequence numbers, [Get] of a user key at snapshot
    [s] gives the value of the last write of the key at or before [s], or that
    it is a deletion, or that there is none; and each [Add] writes exactly the
    bytes it allocates. *)
Theorem memtable_get ws u s :
  Forall write_ok ws → StronglySorted (λ w w', w_seq w < w_seq w') ws →
  udom u → len u + 8 < 2 ^ 32 → 0 ≤ s ≤ kMaxSequenceNumber →
  ∃ m, AddAll ws (NewMemTable user) = Some m ∧
    Get (MakeLookupKey u s) m = Some (answer (visible u s ws)) ∧
    Forall (λ w, len (encode_write w) = encoded_len (w_key w) (w_value w)) ws.
Proof.
  intros Hw HS Hu Hl Hs. destruct (AddAll_holds ws (NewMemTable user) [] New_holds Hw HS) as (m & Hm & Hh).
  exists m. split; [done|]. split; [by apply Get_holds|]. eapply Forall_impl; [exact Hw|]. apply encode_len.
Qed.

(** The memtable's iterator, which a flush runs over, yields every write
    with its value, sorted by internal key: the nodes [SeekToFirst] and [Next]
    go through are those of a permutation of the writes. *)
Theorem memtable_scan ws :
  Forall write_ok ws → StronglySorted (λ w w', w_seq w < w_seq w') ws →
  ∃ m L ws', AddAll ws (NewMemTable user) = Some m ∧ ws' ≡ₚ ws ∧
    StronglySorted (λ w w', InternalKeyComparator.Compare user (write_key w) (write_key w') < 0) ws' ∧
    Forall2 (λ x w, iter_key m x = Some (write_key w) ∧ iter_value m x = Some (w_value w)) L ws' ∧
    iter_SeekToFirst (table_ m) = head L ∧
    ∀ i x, L !! i = Some x → iter_Next (table_ m) x = L !! S i.
Proof.
  intros Hw HS. destruct (AddAll_holds ws (NewMemTable user) [] New_holds Hw HS) as (m & Hm & [Hc _ _ (C & Hr & HC)]).
  destruct (iterate_represents entry_dom (KeyCompare user) entry_order (table_ m) C Hr) as (Hsorted & L & HF & Hf & _ & Hn).
  cbn [app] in HC. destruct (Permutation_map_inv _ _ HC) as (ws' & -> & Hp).
  exists m, L, ws'. split; [done|]. split; [by symmetry|].
  assert (Forall write_ok ws') as Hw' by (by rewrite <- Hp).
  split_and!; [| |done|intros i x Hx; by apply (Hn i x Hx)].
  - apply (StronglySorted_map_inv _ _ _ _ Hsorted). intros w w' Hin Hin'. rewrite Forall_forall in Hw'.
    by rewrite (KeyCompare_eq _ _ _ _ (encode_key w (Hw' w Hin)) (encode_key w' (Hw' w' Hin'))).
  - clear -HF Hw' Hudom. apply Forall2_fmap_r in HF. induction HF as [|x w L ws' Hx HF IH]; [constructor|].
    apply Forall_cons in Hw' as [Hok Hw']. constructor; [|by apply IH].
    unfold iter_key, iter_value. rewrite Hx. cbn [mbind option_bind].
    destruct (read_entry w Hok) as (key_ptr & E1 & _ & _ & E4). split; [by apply encode_key|]. rewrite E1. exact E4.
Qed.

End memtable.

(** ** Witnesses *)

(** Two versions of a key, another key, and a deletion. *)
Definition writes_example : list write := [
  {| w_seq := 1; w_type := kTypeValue; w_key := [97]; w_value := [1] |};
  {| w_seq := 2; w_type := kTypeValue; w_key := [98]; w_value := [2; 2] |};
  {| w_seq := 4; w_type := kTypeValue; w_key := [97]; w_value := [3] |};
  {| w_seq := 7; w_type := kTypeDeletion; w_key := [97]; w_value := [] |}].

Lemma writes_example_ok :
  Forall (write_ok bytes_ok) writes_example ∧ StronglySorted (λ w w', w_seq w < w_seq w') writes_example.
Proof.
  split; unfold writes_example.
  - repeat (constructor; [split; cbn [w_seq w_key w_value]; [split; vm_compute; discriminate|by_decide|by vm_compute..]|]). constructor.
  - repeat constructor; cbn; lia.
Qed.

Lemma memtable_get_witness :
  ∃ m, AddAll writes_example (NewMemTable Bytewise.comparator) = Some m ∧
    Get (MakeLookupKey [97] 5) m = Some (Found [3]).
Proof.
  destruct writes_example_ok as [H1 H2].
  destruct (memtable_get bytes_ok Bytewise.comparator _ (λ _ H, H) writes_example [97] 5 H1 H2) as (m & Hm & Hg & _).
  - by_decide.
  - by vm_compute.
  - split; vm_compute; discriminate.
  - exists m. exact (conj Hm Hg).
Defined.

Lemma memtable_scan_witness :
  ∃ m L ws', AddAll writes_example (NewMemTable Bytewise.comparator) = Some m ∧ ws' ≡ₚ writes_example ∧
    Forall2 (λ x w, iter_key m x = Some (write_key w) ∧ iter_value m x = Some (w_value w)) L ws'.
Proof.
  destruct writes_example_ok as [H1 H2].
  destruct (memtable_scan bytes_ok Bytewise.comparator _ (λ _ H, H) writes_example H1 H2)
    as (m & L & ws' & Hm & Hp & _ & HF & _).
  exists m, L, ws'. exact (conj Hm (conj Hp HF)).
Defined.
