(* ===== verification/WriteBatch.v ===== *)
(** * db/write_batch.cc: batches of updates

    A batch is one string: an 8-byte sequence number, a 4-byte count, and the
    tagged records. [Iterate] replays it to a handler; [InsertInto] replays it
    into a memtable. This is the record the log stores for a write. *)

From Stdlib Require Import Sorted.
From S2P Require Import Prelude Coding Comparator DBFormat SkipList MemTable.

Definition kHeader : Z := 12.

Definition WriteBatch := bytes.

(** [rep_.clear(); rep_.resize(kHeader)]. *)
Definition Clear : WriteBatch := replicate 12 0.

Definition NewWriteBatch : WriteBatch := Clear.

Definition ApproximateSize (b : WriteBatch) : Z := len b.

Definition Count (b : WriteBatch) : Z := i32 (DecodeFixed32 (skip 8 b)).
Definition SetCount (n : Z) (b : WriteBatch) : WriteBatch := first 8 b ++ EncodeFixed32 (u32 n) ++ skip 12 b.
Definition Sequence (b : WriteBatch) : Z := DecodeFixed64 b.
Definition SetSequence (seq : Z) (b : WriteBatch) : WriteBatch := EncodeFixed64 seq ++ skip 8 b.
Definition SetContents (contents : bytes) : WriteBatch := contents.

Definition Put (key value : bytes) (b : WriteBatch) : WriteBatch :=
  let b := SetCount (Count b + 1) b in
  let b := b ++ [ValueType_code kTypeValue] in
  let b := PutLengthPrefixedSlice b key in
  PutLengthPrefixedSlice b value.

Definition Delete (key : bytes) (b : WriteBatch) : WriteBatch :=
  let b := SetCount (Count b + 1) b in
  let b := b ++ [ValueType_code kTypeDeletion] in
  PutLengthPrefixedSlice b key.

(** [WriteBatchInternal::Append(dst, src)]. *)
Definition Append (src dst : WriteBatch) : WriteBatch :=
  SetCount (Count dst + Count src) dst ++ skip kHeader src.

(** ** Iterate *)

Record Handler (St : Type) := {
  h_Put : bytes → bytes → St → St;
  h_Delete : bytes → St → St
}.
Arguments h_Put {St}. Arguments h_Delete {St}.

Inductive BatchError := TooSmall | BadPut | BadDelete | UnknownTag | WrongCount.

Section iterate.

Context {St : Type} (handler : Handler St).

(** The [while (!input.empty())]; [None] is out of fuel. The result is the
    error or the records found, and the state of the handler. *)
Fixpoint Iterate_loop (fuel : nat) (input : bytes) (found : Z) (st : St) : option ((BatchError + Z) * St) :=
  match fuel with
  | O => None
  | S fuel' =>
      match input with
      | [] => Some (inr found, st)
      | tag :: input =>
          let found := i32 (found + 1) in
          if tag =? ValueType_code kTypeValue then
            match GetLengthPrefixedSlice input with
            | Some (key, input) =>
                match GetLengthPrefixedSlice input with
                | Some (value, input) => Iterate_loop fuel' input found (h_Put handler key value st)
                | None => Some (inl BadPut, st)
                end
            | None => Some (inl BadPut, st)
            end
          else if tag =? ValueType_code kTypeDeletion then
            match GetLengthPrefixedSlice input with
            | Some (key, input) => Iterate_loop fuel' input found (h_Delete handler key st)
            | None => Some (inl BadDelete, st)
            end
          else Some (inl UnknownTag, st)
      end
  end.

(** The status ([None] is ok) and the state of the handler; a turn consumes a
    byte at least. *)
Definition Iterate (b : WriteBatch) (st : St) : option (option BatchError * St) :=
  if len b <? kHeader then Some (Some TooSmall, st)
  else
    '(r, st) ← Iterate_loop (S (length b)) (skip kHeader b) 0 st;
    Some (match r with
          | inl e => Some e
          | inr found => if found =? Count b then None else Some WrongCount
          end, st).

End iterate.

(** [MemTableInserter]: the next sequence number and the table, [None] once
    the skip list has run out of fuel. *)
Definition MemTableInserter : Handler (Z * option MemTable) := {|
  h_Put := λ key value '(sequence, mem), (u64 (sequence + 1), mem ≫= Add sequence kTypeValue key value);
  h_Delete := λ key '(sequence, mem), (u64 (sequence + 1), mem ≫= Add sequence kTypeDeletion key [])
|}.

Definition InsertInto (b : WriteBatch) (m : MemTable) : option (option BatchError * option MemTable) :=
  '(s, (_, mem)) ← Iterate MemTableInserter b (Sequence b, Some m);
  Some (s, mem).

(** ** Lemmas: what a batch holds *)

Inductive op := OpPut (key value : bytes) | OpDelete (key : bytes).

Definition apply_op (o : op) (b : WriteBatch) : WriteBatch :=
  match o with OpPut k v => Put k v b | OpDelete k => Delete k b end.

Definition handle_op {St} (h : Handler St) (o : op) (st : St) : St :=
  match o with OpPut k v => h_Put h k v st | OpDelete k => h_Delete h k st end.

Definition op_bytes (o : op) : bytes :=
  match o with
  | OpPut k v => 1 :: PutLengthPrefixedSlice [] k ++ PutLengthPrefixedSlice [] v
  | OpDelete k => 0 :: PutLengthPrefixedSlice [] k
  end.

Definition op_ok (o : op) : Prop :=
  match o with OpPut k v => len k < 2 ^ 32 ∧ len v < 2 ^ 32 | OpDelete k => len k < 2 ^ 32 end.

(** The batch of sequence number [seq] and records [ops]. *)
Definition batch_of (seq : Z) (ops : list op) : WriteBatch :=
  EncodeFixed64 seq ++ EncodeFixed32 (len ops) ++ concat (map op_bytes ops).

Lemma new_batch : NewWriteBatch = batch_of 0 [].
Proof. done. Qed.

Lemma batch_parts seq ops :
  first 8 (batch_of seq ops) = EncodeFixed64 seq ∧
  skip 8 (batch_of seq ops) = EncodeFixed32 (len ops) ++ concat (map op_bytes ops) ∧
  skip kHeader (batch_of seq ops) = concat (map op_bytes ops).
Proof.
  unfold batch_of. split; [by apply first_app|]. split; [by apply skip_app|].
  rewrite app_assoc. by apply skip_app.
Qed.

Lemma batch_Sequence seq ops : u64_ok seq → Sequence (batch_of seq ops) = seq.
Proof. intros. unfold Sequence, batch_of. by apply DecodeFixed64_app. Qed.

Lemma batch_Count seq ops : len ops < 2 ^ 31 → Count (batch_of seq ops) = len ops.
Proof.
  intros Hl. pose proof (len_nonneg ops). unfold Count. rewrite (proj1 (proj2 (batch_parts seq ops))).
  rewrite DecodeFixed32_app by (unfold u32_ok; lia). unfold i32. rewrite Z.mod_small; lia.
Qed.

Lemma batch_SetCount seq ops n x :
  SetCount n (batch_of seq ops) ++ x = EncodeFixed64 seq ++ EncodeFixed32 (u32 n) ++ concat (map op_bytes ops) ++ x.
Proof.
  unfold SetCount. destruct (batch_parts seq ops) as (-> & _ & E). change 12 with kHeader. rewrite E. by rewrite <- !app_assoc.
Qed.

Lemma batch_SetSequence seq seq' ops : SetSequence seq' (batch_of seq ops) = batch_of seq' ops.
Proof. unfold SetSequence. by rewrite (proj1 (proj2 (batch_parts seq ops))). Qed.

Lemma batch_apply seq ops o : len ops + 1 < 2 ^ 31 → apply_op o (batch_of seq ops) = batch_of seq (ops ++ [o]).
Proof.
  intros Hl. pose proof (len_nonneg ops).
  assert (∀ x, x = op_bytes o → SetCount (Count (batch_of seq ops) + 1) (batch_of seq ops) ++ x = batch_of seq (ops ++ [o])) as HS.
  { intros x ->. rewrite batch_SetCount, batch_Count by lia. unfold batch_of.
    rewrite u32_id by (unfold u32_ok; lia). rewrite len_app, map_app, concat_app. cbn [map concat].
    rewrite app_nil_r. change (len [o]) with 1. done. }
  destruct o as [k v|k]; cbn [apply_op]; unfold Put, Delete.
  - rewrite PutLengthPrefixedSlice_app, (PutLengthPrefixedSlice_app (_ ++ _)), <- !app_assoc. by apply HS.
  - rewrite PutLengthPrefixedSlice_app, <- app_assoc. by apply HS.
Qed.

Lemma batch_build ops : len ops < 2 ^ 31 → foldl (λ b o, apply_op o b) NewWriteBatch ops = batch_of 0 ops.
Proof.
  rewrite new_batch. induction ops as [|o ops IH] using rev_ind; [done|].
  rewrite len_app. change (len [o]) with 1. intros Hl. rewrite foldl_snoc, IH, batch_apply by lia. done.
Qed.

Lemma batch_Append seq ops seq' ops' :
  len ops + len ops' < 2 ^ 31 → Append (batch_of seq' ops') (batch_of seq ops) = batch_of seq (ops ++ ops').
Proof.
  intros Hl. pose proof (len_nonneg ops). pose proof (len_nonneg ops'). unfold Append.
  rewrite (proj2 (proj2 (batch_parts seq' ops'))), batch_SetCount, !batch_Count by lia. unfold batch_of.
  rewrite u32_id by (unfold u32_ok; lia). by rewrite len_app, map_app, concat_app.
Qed.

Lemma Iterate_loop_ops {St} (h : Handler St) ops fuel n st :
  Forall op_ok ops → 0 ≤ n → n + len ops < 2 ^ 31 → (length (concat (map op_bytes ops)) < fuel)%nat →
  Iterate_loop h fuel (concat (map op_bytes ops)) n st = Some (inr (n + len ops), foldl (λ st o, handle_op h o st) st ops).
Proof.
  intros Hok. revert fuel n st. induction Hok as [|o ops Ho Hok IH]; intros fuel n st Hn Hl Hf.
  { destruct fuel; [cbn in Hf; lia|]. cbn. by rewrite Z.add_0_r. }
  rewrite len_cons in Hl |- *. pose proof (len_nonneg ops). cbn [map concat] in Hf |- *. rewrite length_app in Hf.
  assert (i32 (n + 1) = n + 1) as Hi by (unfold i32; rewrite Z.mod_small; lia).
  destruct fuel as [|fuel]; [lia|]. destruct o as [k v|k]; cbn [op_bytes app Iterate_loop foldl handle_op] in Hf |- *.
  - destruct Ho as [Hk Hv]. change (1 =? ValueType_code kTypeValue) with true. cbn iota.
    rewrite <- app_assoc, GetLengthPrefixedSlice_put, GetLengthPrefixedSlice_put by done.
    rewrite IH; rewrite ?Hi; [do 3 f_equal; lia|lia|lia|]. cbn in Hf. lia.
  - change (0 =? ValueType_code kTypeValue) with false. change (0 =? ValueType_code kTypeDeletion) with true. cbn iota.
    rewrite GetLengthPrefixedSlice_put by done.
    rewrite IH; rewrite ?Hi; [do 3 f_equal; lia|lia|lia|]. cbn in Hf. lia.
Qed.

Lemma Iterate_batch {St} (h : Handler St) seq ops st :
  Forall op_ok ops → len ops < 2 ^ 31 →
  Iterate h (batch_of seq ops) st = Some (None, foldl (λ st o, handle_op h o st) st ops).
Proof.
  intros Hok Hl. unfold Iterate. assert (12 ≤ len (batch_of seq ops)) as H12.
  { unfold batch_of. rewrite !len_app, len_EncodeFixed64, len_EncodeFixed32. pose proof (len_nonneg (concat (map op_bytes ops))). lia. }
  rewrite (proj2 (Z.ltb_ge _ _)) by done. rewrite (proj2 (proj2 (batch_parts seq ops))).
  rewrite Iterate_loop_ops; [|done|lia|lia|].
  - cbn [mbind option_bind]. rewrite batch_Count by done. by rewrite Z.add_0_l, Z.eqb_refl.
  - unfold batch_of. rewrite !length_app. lia.
Qed.

(** The records as writes: consecutive sequence numbers from [seq]. *)
Definition write_of (seq : Z) (o : op) : write :=
  match o with
  | OpPut k v => {| w_seq := seq; w_type := kTypeValue; w_key := k; w_value := v |}
  | OpDelete k => {| w_seq := seq; w_type := kTypeDeletion; w_key := k; w_value := [] |}
  end.

Fixpoint writes_of (seq : Z) (ops : list op) : list write :=
  match ops with
  | [] => []
  | o :: ops' => write_of seq o :: writes_of (seq + 1) ops'
  end.

Lemma write_of_seq seq o : w_seq (write_of seq o) = seq.
Proof. by destruct o. Qed.

Lemma writes_of_seqs seq ops : Forall (λ w, seq ≤ w_seq w < seq + len ops) (writes_of seq ops).
Proof.
  revert seq. induction ops as [|o ops IH]; intros seq; [constructor|]. cbn [writes_of]. rewrite len_cons.
  pose proof (len_nonneg ops). constructor; [rewrite write_of_seq; lia|].
  eapply Forall_impl; [apply IH|]. cbn. lia.
Qed.

Lemma writes_of_sorted seq ops : StronglySorted (λ w w', w_seq w < w_seq w') (writes_of seq ops).
Proof.
  revert seq. induction ops as [|o ops IH]; intros seq; [constructor|]. cbn [writes_of]. constructor; [apply IH|].
  eapply Forall_impl; [apply writes_of_seqs|]. cbn. rewrite write_of_seq. lia.
Qed.

Section insert.

Context (udom : bytes → Prop) (user : Comparator) (HL : ComparatorLaws udom user).
Context (Hudom : ∀ u, udom u → bytes_ok u).

Definition op_dom (o : op) : Prop :=
  match o with
  | OpPut k v => udom k ∧ len k + 8 < 2 ^ 32 ∧ len v < 2 ^ 32
  | OpDelete k => udom k ∧ len k + 8 < 2 ^ 32
  end.

Lemma op_dom_ok o : op_dom o → op_ok o.
Proof. destruct o; cbn; intuition lia. Qed.

Lemma write_of_ok seq o : 0 ≤ seq ≤ kMaxSequenceNumber → op_dom o → write_ok udom (write_of seq o).
Proof. intros Hs Ho. destruct o; cbn in Ho; split; cbn; try tauto; by vm_compute. Qed.

Lemma insert_ops ops seq m ws :
  holds_writes udom user m ws → Forall (λ w, w_seq w < seq) ws → Forall op_dom ops →
  0 ≤ seq → seq + len ops - 1 ≤ kMaxSequenceNumber →
  ∃ m', foldl (λ st o, handle_op MemTableInserter o st) (seq, Some m) ops = (seq + len ops, Some m') ∧
    holds_writes udom user m' (ws ++ writes_of seq ops).
Proof.
  intros Hm Hlt Hd. revert seq m ws Hm Hlt. induction Hd as [|o ops Ho Hd IH]; intros seq m ws Hm Hlt H0 Hmax.
  { exists m. cbn [foldl writes_of]. by rewrite app_nil_r, Z.add_0_r. }
  rewrite len_cons in Hmax |- *. pose proof (len_nonneg ops). cbn [foldl writes_of].
  destruct (Add_holds udom user HL Hudom m ws (write_of seq o) Hm) as (m1 & Ha & Hm1).
  { apply write_of_ok; [lia|done]. }
  { by rewrite write_of_seq. }
  destruct (IH (seq + 1) m1 (ws ++ [write_of seq o]) Hm1) as (m' & Hm' & Hh).
  { apply Forall_app_2; [eapply Forall_impl; [exact Hlt|]; cbn; lia|].
    apply Forall_singleton. rewrite write_of_seq. lia. }
  { lia. } { lia. }
  exists m'. rewrite <- app_assoc in Hh. split; [|exact Hh].
  assert (u64 (seq + 1) = seq + 1) as E.
  { apply u64_id. unfold u64_ok. unfold kMaxSequenceNumber in Hmax. change (Z.shiftl 1 56) with (2 ^ 56) in Hmax. lia. }
  replace (seq + (len ops + 1)) with (seq + 1 + len ops) by lia. rewrite <- Hm'. f_equal.
  destruct o; cbn in Ha |- *; by rewrite E, Ha.
Qed.

Lemma InsertInto_holds ops seq m ws :
  holds_writes udom user m ws → Forall (λ w, w_seq w < seq) ws → Forall op_dom ops → len ops < 2 ^ 31 →
  0 ≤ seq → seq + len ops - 1 ≤ kMaxSequenceNumber →
  ∃ m', InsertInto (batch_of seq ops) m = Some (None, Some m') ∧
    holds_writes udom user m' (ws ++ writes_of seq ops).
Proof.
  intros Hm Hlt Hd Hl H0 Hmax. destruct (insert_ops ops seq m ws Hm Hlt Hd H0 Hmax) as (m' & E & Hh).
  exists m'. split; [|done]. unfold InsertInto. pose proof (len_nonneg ops).
  assert (u64_ok seq).
  { unfold u64_ok. unfold kMaxSequenceNumber in Hmax. change (Z.shiftl 1 56) with (2 ^ 56) in Hmax. lia. }
  rewrite batch_Sequence, Iterate_batch, E by (done || (eapply Forall_impl; [exact Hd|]; apply op_dom_ok)). done.
Qed.

End insert.

Lemma GetLengthPrefixedSlice_shorter input s rest :
  bytes_ok input → GetLengthPrefixedSlice input = Some (s, rest) → bytes_ok rest ∧ (length rest ≤ length input)%nat.
Proof.
  intros Hb. unfold GetLengthPrefixedSlice. destruct (GetVarint32 input) as [[n q]|] eqn:E; [|done].
  apply GetVarint32_bounds in E as (_ & used & -> & _); [|done]. apply bytes_ok_app in Hb as [_ Hb].
  case_if; [|done]. intros [= _ <-]. split; [by apply bytes_ok_skip|]. unfold skip. rewrite length_drop, length_app. lia.
Qed.

Lemma Iterate_loop_total {St} (h : Handler St) fuel input n st :
  bytes_ok input → (length input < fuel)%nat → is_Some (Iterate_loop h fuel input n st).
Proof.
  revert input n st. induction fuel as [|fuel IH]; intros input n st Hb Hf; [lia|]. cbn [Iterate_loop].
  destruct input as [|tag input]; [done|]. apply Forall_cons in Hb as [_ Hb]. cbn in Hf.
  case_if; [|case_if; [|done]].
  - destruct (GetLengthPrefixedSlice input) as [[k i1]|] eqn:E1; [|done].
    apply GetLengthPrefixedSlice_shorter in E1 as [Hb1 Hl1]; [|done].
    destruct (GetLengthPrefixedSlice i1) as [[v i2]|] eqn:E2; [|done].
    apply GetLengthPrefixedSlice_shorter in E2 as [Hb2 Hl2]; [|done]. apply IH; [done|lia].
  - destruct (GetLengthPrefixedSlice input) as [[k i1]|] eqn:E1; [|done].
    apply GetLengthPrefixedSlice_shorter in E1 as [Hb1 Hl1]; [|done]. apply IH; [done|lia].
Qed.

(** ** Properties *)

(** A batch replays what was put into it. Records added one by one to two
    batches, the second appended to the first, are replayed by [Iterate] to any
    handler in their order, with an ok status; the count and the sequence
    number read back. *)
Theorem batch_roundtrip {St} (h : Handler St) ops1 ops2 seq st :
  Forall op_ok ops1 → Forall op_ok ops2 → len ops1 + len ops2 < 2 ^ 31 → u64_ok seq →
  let build := foldl (λ b o, apply_op o b) NewWriteBatch in
  let b := SetSequence seq (Append (build ops2) (build ops1)) in
  Iterate h b st = Some (None, foldl (λ st o, handle_op h o st) st (ops1 ++ ops2)) ∧
  Count b = len ops1 + len ops2 ∧ Sequence b = seq.
Proof.
  intros H1 H2 Hl Hs build b. pose proof (len_nonneg ops1). pose proof (len_nonneg ops2).
  assert (b = batch_of seq (ops1 ++ ops2)) as ->.
  { unfold b, build. by rewrite !batch_build, batch_Append, batch_SetSequence by lia. }
  rewrite Iterate_batch by (by rewrite ?len_app; try lia; apply Forall_app_2).
  rewrite batch_Count, batch_Sequence by (by rewrite ?len_app). by rewrite len_app.
Qed.

(** [Iterate] ends on every string: a turn of the loop consumes at least
    the tag, so one turn more than there are bytes is never needed, whatever the
    bytes are and whatever the handler does. *)
Theorem Iterate_total {St} (h : Handler St) b st :
  bytes_ok b → is_Some (Iterate h b st).
Proof.
  intros Hb. unfold Iterate. case_if; [done|].
  destruct (Iterate_loop_total h (S (length b)) (skip kHeader b) 0 st) as [[r st'] ->]; [by apply bytes_ok_skip| |done].
  unfold skip. rewrite length_drop. lia.
Qed.

(** C21: a batch applied to a memtable is seen by later reads. Inserting a batch
    of sequence number [seq] into a memtable whose writes are all older gives
    an ok status, and [Get] at any snapshot then answers from the older writes
    followed by the records of the batch, numbered from [seq]. *)
Theorem batch_insert_get udom user m ws seq ops u s :
  ComparatorLaws udom user → (∀ u, udom u → bytes_ok u) →
  holds_writes udom user m ws → Forall (λ w, w_seq w < seq) ws → Forall (op_dom udom) ops → len ops < 2 ^ 31 →
  0 ≤ seq → seq + len ops - 1 ≤ kMaxSequenceNumber →
  udom u → len u + 8 < 2 ^ 32 → 0 ≤ s ≤ kMaxSequenceNumber →
  ∃ m', InsertInto (SetSequence seq (foldl (λ b o, apply_op o b) NewWriteBatch ops)) m = Some (None, Some m') ∧
    Get (MakeLookupKey u s) m' = Some (answer (visible u s (ws ++ writes_of seq ops))).
Proof.
  intros HL Hud Hm Hlt Hd Hl H0 Hmax Hu Hlu Hs.
  destruct (InsertInto_holds udom user HL Hud ops seq m ws Hm Hlt Hd Hl H0 Hmax) as (m' & E & Hh).
  exists m'. rewrite batch_build, batch_SetSequence by done. split; [done|]. by apply (Get_holds udom user HL Hud m').
Qed.

(** ** Witnesses *)

(** A handler that lists what it is given. *)
Definition lister : Handler (list op) := {|
  h_Put := λ k v l, l ++ [OpPut k v]; h_Delete := λ k l, l ++ [OpDelete k] |}.

Definition ops_example : list op := [OpPut [97] [1; 2]; OpDelete [98]].

Lemma batch_roundtrip_witness :
  Iterate lister (SetSequence 9 (Append (Delete [99] NewWriteBatch) (Delete [98] (Put [97] [1; 2] NewWriteBatch)))) []
    = Some (None, ops_example ++ [OpDelete [99]]).
Proof.
  refine (proj1 (batch_roundtrip lister ops_example [OpDelete [99]] 9 [] _ _ _ _)).
  - repeat constructor.
  - repeat constructor.
  - by vm_compute.
  - split; by vm_compute.
Defined.

Lemma Iterate_total_witness : is_Some (Iterate lister [1; 2; 3; 4; 5; 6; 7; 8; 9; 10; 11; 12; 1; 200] []).
Proof. apply Iterate_total. by_decide. Defined.

Lemma batch_insert_get_witness :
  ∃ m', InsertInto (SetSequence 9 (Delete [98] (Put [97] [1; 2] NewWriteBatch))) (NewMemTable Bytewise.comparator)
      = Some (None, Some m') ∧ Get (MakeLookupKey [97] 9) m' = Some (Found [1; 2]).
Proof.
  refine (batch_insert_get bytes_ok Bytewise.comparator (NewMemTable Bytewise.comparator) [] 9 ops_example [97] 9
    _ (λ _ H, H) _ _ _ _ _ _ _ _ _).
  - apply New_holds.
  - constructor.
  - repeat (constructor; [split_and!; [by_decide|by vm_compute..]|]). constructor.
  - by vm_compute.
  - lia.
  - vm_compute. discriminate.
  - by_decide.
  - by vm_compute.
  - split; vm_compute; discriminate.
Defined.
