(* ===== verification/DBWrite.v ===== *)
(** * db/db_impl.cc: the write path and the recovery of a log

    Writers queue up; the one at the front makes room, groups the batches of
    the writers behind it, appends the group to the log, inserts it into the
    memtable and completes the group. The queue, the group leader and the
    background thread are a transition system, in which a leader that waits for
    background work sleeps until it is signalled; the recovery replays a log. *)

From Stdlib Require Import Sorted.
From S2P Require Import Prelude Coding Comparator DBFormat SkipList MemTable WriteBatch Log.

(** ** The state *)

(** [DBImpl::Writer]: [q_id] tells the threads apart. *)
Record QWriter := { q_id : nat; q_batch : option WriteBatch; q_sync : bool }.

Inductive WriteError := LogFailed | BatchFailed (e : BatchError) | BackgroundError | OpenFailed.

(** Where the leader, the front of the queue, is in [Write]. [Waiting]: it sleeps
    in [background_work_finished_signal_.Wait()]. *)
Inductive Phase :=
  | Idle
  | MakingRoom (force allow_delay : bool)
  | Waiting (force allow_delay : bool)
  | Committing (updates : WriteBatch) (is_tmp : bool) (last_writer : nat) (last_sequence : Z).

Section db.

(** The log files, and [ApproximateMemoryUsage] of a memtable. *)
Context {F : Type} (FAppend : F → bytes → F * bool) (FFlush : F → F * bool) (FSync : F → F * bool) (FNew : F → Prop).
Context (MOD : Z) (user : Comparator) (usage : MemTable → Z) (write_buffer_size : Z).

Record DB := {
  phase : Phase;
  writers_ : list QWriter;
  tmp_batch_ : WriteBatch;
  log_ : Log.Writer F;
  mem_ : MemTable;
  imm_ : option (MemTable * F);         (** with the log file it was written to *)
  last_sequence_ : Z;                   (** [versions_->LastSequence()] *)
  bg_error_ : bool;
  scheduled_ : bool;                    (** [background_compaction_scheduled_] *)
  level0_files : Z;                     (** [versions_->NumLevelFiles(0)] *)
  tables_ : list MemTable;              (** the memtables written to level 0 so far *)
  finished : list (QWriter * option WriteError)  (** the calls of [Write] that have returned *)
}.

Definition set_phase (p : Phase) (s : DB) : DB := {|
  phase := p; writers_ := writers_ s; tmp_batch_ := tmp_batch_ s; log_ := log_ s; mem_ := mem_ s;
  imm_ := imm_ s; last_sequence_ := last_sequence_ s; bg_error_ := bg_error_ s; scheduled_ := scheduled_ s;
  level0_files := level0_files s; tables_ := tables_ s; finished := finished s |}.

Definition set_writers (ws : list QWriter) (s : DB) : DB := {|
  phase := phase s; writers_ := ws; tmp_batch_ := tmp_batch_ s; log_ := log_ s; mem_ := mem_ s;
  imm_ := imm_ s; last_sequence_ := last_sequence_ s; bg_error_ := bg_error_ s; scheduled_ := scheduled_ s;
  level0_files := level0_files s; tables_ := tables_ s; finished := finished s |}.

(** What the background thread changes. *)
Definition set_background (imm : option (MemTable * F)) (error scheduled : bool) (n : Z) (tables : list MemTable) (s : DB) : DB := {|
  phase := phase s; writers_ := writers_ s; tmp_batch_ := tmp_batch_ s; log_ := log_ s; mem_ := mem_ s;
  imm_ := imm; last_sequence_ := last_sequence_ s; bg_error_ := error; scheduled_ := scheduled;
  level0_files := n; tables_ := tables; finished := finished s |}.

(** ** Background work *)

Definition kL0_CompactionTrigger : Z := 4.

Definition set_scheduled (b : bool) (s : DB) : DB := set_background (imm_ s) (bg_error_ s) b (level0_files s) (tables_ s) s.

(** [other]: there is a manual compaction, or a level above 0 or a file that was
    searched too often needs one. The score of level 0 is the number of its files
    over the trigger. The database is not shutting down. *)
Definition MaybeScheduleCompaction (other : bool) (s : DB) : DB :=
  if scheduled_ s then s
  else if bg_error_ s then s
  else if bool_decide (imm_ s = None) && negb (other || (level0_files s >=? kL0_CompactionTrigger)) then s
  else set_scheduled true s.

(** [background_work_finished_signal_.SignalAll()]. *)
Definition SignalAll (s : DB) : DB :=
  match phase s with
  | Waiting force allow_delay => set_phase (MakingRoom force allow_delay) s
  | _ => s
  end.

(** [meta.file_size] is 0: the iterator of the memtable is not valid at its
    start. [WriteLevel0Table] then returns [NotFound]. *)
Definition Empty (m : MemTable) : bool :=
  match iter_SeekToFirst (table_ m) with None => true | Some _ => false end.

(** The immutable memtable is written to level 0 and the edit is applied, which
    an empty one never is; or something fails, which is recorded. *)
Inductive CompactMemTable : DB → DB → Prop :=
  | flush_ok s m f :
      imm_ s = Some (m, f) → Empty m = false →
      CompactMemTable s (set_background None (bg_error_ s) (scheduled_ s) (level0_files s + 1) (tables_ s ++ [m]) s)
  | flush_failed s m f :
      imm_ s = Some (m, f) →
      CompactMemTable s (set_background (imm_ s) true (scheduled_ s) (level0_files s) (tables_ s) s).

(** A compaction leaves [n] files in level 0. *)
Inductive BackgroundCompaction : DB → DB → Prop :=
  | bg_flush s s' : CompactMemTable s s' → BackgroundCompaction s s'
  | bg_compacted s n :
      imm_ s = None → 0 ≤ n ≤ level0_files s →
      BackgroundCompaction s (set_background None (bg_error_ s) (scheduled_ s) n (tables_ s) s)
  | bg_failed s :
      imm_ s = None → BackgroundCompaction s (set_background None true (scheduled_ s) (level0_files s) (tables_ s) s).

Inductive BackgroundCall (other : bool) : DB → DB → Prop :=
  | bg_error s : bg_error_ s = true → BackgroundCall other s (SignalAll (MaybeScheduleCompaction other (set_scheduled false s)))
  | bg_work s s' :
      bg_error_ s = false → BackgroundCompaction s s' →
      BackgroundCall other s (SignalAll (MaybeScheduleCompaction other (set_scheduled false s'))).

(** ** BuildBatchGroup *)

Definition ByteSize (b : WriteBatch) : Z := len b.

(** [size_t max_size]. *)
Definition max_group_size (size : Z) : Z :=
  if size <=? Z.shiftl 128 10 then size + Z.shiftl 128 10 else Z.shiftl 1 20.

(** The loop over the writers behind the first: the batch so far, whether it is
    [tmp_batch_], and the last writer of the group. *)
Fixpoint Group_loop (first : QWriter) (first_batch tmp : WriteBatch) (max_size size : Z)
    (result : WriteBatch) (is_tmp : bool) (last : QWriter) (ws : list QWriter) : WriteBatch * bool * QWriter :=
  match ws with
  | [] => (result, is_tmp, last)
  | w :: ws' =>
      if q_sync w && negb (q_sync first) then (result, is_tmp, last)
      else
        match q_batch w with
        | Some b =>
            let size := size + ByteSize b in
            if size >? max_size then (result, is_tmp, last)
            else
              let result := if is_tmp then result else Append first_batch tmp in
              Group_loop first first_batch tmp max_size size (Append b result) true w ws'
        | None => Group_loop first first_batch tmp max_size size result is_tmp w ws'
        end
  end.

Definition BuildBatchGroup (first : QWriter) (first_batch tmp : WriteBatch) (behind : list QWriter)
    : WriteBatch * bool * QWriter :=
  let size := ByteSize first_batch in
  Group_loop first first_batch tmp (max_group_size size) size first_batch false first behind.

(** ** MakeRoomForWrite: one turn of its loop *)

Definition kL0_SlowdownWritesTrigger : Z := 8.
Definition kL0_StopWritesTrigger : Z := 12.

Inductive RoomTurn := YieldError | Delay | HasRoom | WaitForBackground | SwitchMemTable.

Definition MakeRoom_turn (force allow_delay : bool) (s : DB) : RoomTurn :=
  if bg_error_ s then YieldError
  else if allow_delay && (level0_files s >=? kL0_SlowdownWritesTrigger) then Delay
  else if negb force && (usage (mem_ s) <=? write_buffer_size) then HasRoom
  else match imm_ s with
       | Some _ => WaitForBackground
       | None => if level0_files s >=? kL0_StopWritesTrigger then WaitForBackground else SwitchMemTable
       end.

(** [new_file] is the log file that was opened. *)
Definition DoSwitchMemTable (new_file : F) (other : bool) (s : DB) : DB := MaybeScheduleCompaction other {|
  phase := MakingRoom false (match phase s with MakingRoom _ a => a | _ => false end);
  writers_ := writers_ s; tmp_batch_ := tmp_batch_ s;
  log_ := NewWriter new_file 0; mem_ := Ref (NewMemTable user);
  imm_ := Some (mem_ s, dest_ (log_ s));
  last_sequence_ := last_sequence_ s; bg_error_ := bg_error_ s; scheduled_ := scheduled_ s;
  level0_files := level0_files s; tables_ := tables_ s; finished := finished s |}.

(** ** Write, after there is room *)

(** The end of [Write]: pops the queue up to the last writer of the group. *)
Fixpoint Complete (status : option WriteError) (last_writer : nat) (ws : list QWriter)
    (done : list (QWriter * option WriteError)) : list QWriter * list (QWriter * option WriteError) :=
  match ws with
  | [] => ([], done)
  | w :: ws' =>
      let done := done ++ [(w, status)] in
      if (q_id w =? last_writer)%nat then (ws', done) else Complete status last_writer ws' done
  end.

Definition Finish (status : option WriteError) (last_writer : nat) (s : DB) : DB :=
  let '(ws, done) := Complete status last_writer (writers_ s) (finished s) in {|
  phase := Idle; writers_ := ws; tmp_batch_ := tmp_batch_ s; log_ := log_ s; mem_ := mem_ s;
  imm_ := imm_ s; last_sequence_ := last_sequence_ s; bg_error_ := bg_error_ s; scheduled_ := scheduled_ s;
  level0_files := level0_files s; tables_ := tables_ s; finished := done |}.

(** [BuildBatchGroup], [SetSequence]; then the leader unlocks. Only the group's
    batch is kept: [SetSequence] touches the first 8 bytes of the leader's own
    batch when the group is that batch. *)
Definition StartCommit (w : QWriter) (b : WriteBatch) (behind : list QWriter) (s : DB) : DB :=
  let '(updates, is_tmp, last) := BuildBatchGroup w b (tmp_batch_ s) behind in
  let updates := SetSequence (u64 (last_sequence_ s + 1)) updates in
  set_phase (Committing updates is_tmp (q_id last) (u64 (last_sequence_ s + Count updates))) s.

(** The unlocked part and the rest; [None] is out of fuel. *)
Definition Commit (sync : bool) (updates : WriteBatch) (is_tmp : bool) (last_writer : nat) (last_sequence : Z) (s : DB)
    : option DB :=
  '(log, ok) ← (if (MOD <=? 6) || (MOD >=? 9) then
                  '(log, ok) ← AddRecord FAppend FFlush (log_ s) updates;
                  if ok && sync then
                    let '(f, ok) := FSync (dest_ log) in
                    Some ({| dest_ := f; block_offset_ := block_offset_ log |}, ok)
                  else Some (log, ok)
                else Some (log_ s, true));
  '(status, mem) ← (if (ok : bool) then
                      '(e, mem) ← InsertInto updates (mem_ s);
                      mem ← mem;
                      Some (match e with None => None | Some e => Some (BatchFailed e) end, mem)
                    else Some (Some LogFailed, mem_ s));
  Some (Finish status last_writer {|
    phase := phase s; writers_ := writers_ s;
    tmp_batch_ := if is_tmp then Clear else tmp_batch_ s;
    log_ := log; mem_ := mem; imm_ := imm_ s; last_sequence_ := last_sequence;
    bg_error_ := bg_error_ s; scheduled_ := scheduled_ s; level0_files := level0_files s; tables_ := tables_ s; finished := finished s |}).

(** ** The transition system *)

Inductive step : DB → DB → Prop :=
  (** A call of [Write] enters the queue, at any time. *)
  | step_enqueue s w :
      q_id w ∉ map q_id (writers_ s) → q_id w ∉ map (λ f, q_id f.1) (finished s) →
      step s (set_writers (writers_ s ++ [w]) s)
  (** The front of the queue becomes the leader: it found itself there, or the
      leader before it has signalled it. *)
  | step_lead s w ws :
      phase s = Idle → writers_ s = w :: ws →
      let force := bool_decide (q_batch w = None) in
      step s (set_phase (MakingRoom force (negb force)) s)
  (** A turn of [MakeRoomForWrite]. *)
  | step_error s w ws force allow_delay :
      phase s = MakingRoom force allow_delay → writers_ s = w :: ws →
      MakeRoom_turn force allow_delay s = YieldError →
      step s (Finish (Some BackgroundError) (q_id w) s)
  | step_delay s force allow_delay :
      phase s = MakingRoom force allow_delay → MakeRoom_turn force allow_delay s = Delay →
      step s (set_phase (MakingRoom force false) s)
  | step_wait s force allow_delay :
      phase s = MakingRoom force allow_delay → MakeRoom_turn force allow_delay s = WaitForBackground →
      step s (set_phase (Waiting force allow_delay) s)
  | step_switch s force allow_delay new_file other :
      phase s = MakingRoom force allow_delay → MakeRoom_turn force allow_delay s = SwitchMemTable →
      FNew new_file →
      step s (DoSwitchMemTable new_file other s)
  | step_open_failed s w ws force allow_delay :
      phase s = MakingRoom force allow_delay → writers_ s = w :: ws →
      MakeRoom_turn force allow_delay s = SwitchMemTable →
      step s (Finish (Some OpenFailed) (q_id w) s)
  (** There is room: a batch is committed, a null batch is done. *)
  | step_start s w ws b force allow_delay :
      phase s = MakingRoom force allow_delay → writers_ s = w :: ws → q_batch w = Some b →
      MakeRoom_turn force allow_delay s = HasRoom →
      step s (StartCommit w b ws s)
  | step_null s w ws force allow_delay :
      phase s = MakingRoom force allow_delay → writers_ s = w :: ws → q_batch w = None →
      MakeRoom_turn force allow_delay s = HasRoom →
      step s (Finish None (q_id w) s)
  | step_commit s s' w ws updates is_tmp last_writer last_sequence :
      phase s = Committing updates is_tmp last_writer last_sequence → writers_ s = w :: ws →
      Commit (q_sync w) updates is_tmp last_writer last_sequence s = Some s' →
      step s s'
  (** The background thread, and the flush in the loop of [DoCompactionWork]. *)
  | step_background s s' other :
      scheduled_ s = true → BackgroundCall other s s' → step s s'
  | step_flush s s' :
      scheduled_ s = true → CompactMemTable s s' → step s (SignalAll s').

End db.

(** ** RecoverLogFile *)

Inductive RecoverError := LogCorruption | RecordTooSmall | RecoveredBatch (e : BatchError) | Level0Failed | NoLogFile.

#[export] Instance BatchError_eq_dec : EqDecision BatchError.
Proof. solve_decision. Defined.
#[export] Instance RecoverError_eq_dec : EqDecision RecoverError.
Proof. solve_decision. Defined.

Section recovery.

(** [WriteLevel0] tells whether the file operations of [WriteLevel0Table]
    succeed. *)
Context (user : Comparator) (usage : MemTable → Z) (write_buffer_size : Z).
Context (paranoid_checks : bool) (WriteLevel0 : MemTable → bool).

Record Recovering := {
  rc_status : option RecoverError;
  rc_mem : option MemTable;
  rc_max_sequence : Z;
  rc_compactions : Z;
  rc_tables : list MemTable         (** the memtables given to [WriteLevel0Table] *)
}.

Definition rc_set_status (e : option RecoverError) (st : Recovering) : Recovering := {|
  rc_status := e; rc_mem := rc_mem st; rc_max_sequence := rc_max_sequence st;
  rc_compactions := rc_compactions st; rc_tables := rc_tables st |}.

Definition MaybeIgnoreError (e : option RecoverError) : option RecoverError :=
  if paranoid_checks then e else None.

(** The status of [WriteLevel0Table] is ok: an empty memtable is [NotFound]. *)
Definition WriteLevel0Table (m : MemTable) : bool := WriteLevel0 m && negb (Empty m).

(** [reporter.Corruption]: the first error is kept if checks are paranoid. *)
Definition Corruption (e : RecoverError) (st : Recovering) : Recovering :=
  match rc_status st with
  | None => rc_set_status (if paranoid_checks then Some e else None) st
  | Some _ => st
  end.

(** The body of the loop for a record, and whether it goes on. *)
Definition RecoverRecord (record : bytes) (st : Recovering) : option (Recovering * bool) :=
  if len record <? 12 then Some (Corruption RecordTooSmall st, true)
  else
    let batch := SetContents record in
    let mem := match rc_mem st with Some m => m | None => Ref (NewMemTable user) end in
    '(e, mem) ← InsertInto batch mem;
    mem ← mem;
    let status := MaybeIgnoreError (match e with None => None | Some e => Some (RecoveredBatch e) end) in
    match status with
    | Some _ => Some ({| rc_status := status; rc_mem := Some mem; rc_max_sequence := rc_max_sequence st;
                         rc_compactions := rc_compactions st; rc_tables := rc_tables st |}, false)
    | None =>
        let last_seq := u64 (Sequence batch + Count batch - 1) in
        let max := if last_seq >? rc_max_sequence st then last_seq else rc_max_sequence st in
        if usage mem >? write_buffer_size then
          let status := if WriteLevel0Table mem then None else Some Level0Failed in
          Some ({| rc_status := status; rc_mem := None; rc_max_sequence := max;
                   rc_compactions := rc_compactions st + 1; rc_tables := rc_tables st ++ [mem] |},
                WriteLevel0Table mem)
        else Some ({| rc_status := None; rc_mem := Some mem; rc_max_sequence := max;
                      rc_compactions := rc_compactions st; rc_tables := rc_tables st |}, true)
    end.

(** [while (reader.ReadRecord(&record, &scratch) && status.ok())], with the
    reports the reader makes during the call; [None] is out of fuel. *)
Fixpoint RecoverLog_loop (n fuel : nat) (r : Reader) (st : Recovering) : option Recovering :=
  match n with
  | O => None
  | S n' =>
      '(found, record, r') ← ReadRecord fuel r;
      let st := if (length (reports_ r) <? length (reports_ r'))%nat then Corruption LogCorruption st else st in
      match found, rc_status st with
      | true, None =>
          '(st, continue) ← RecoverRecord record st;
          if (continue : bool) then RecoverLog_loop n' fuel r' st else Some st
      | _, _ => Some st
      end
  end.

(** What the recovery leaves: the status, [mem_] and the log writer if the log
    is reused, [*max_sequence], the tables and [*save_manifest]. *)
Record Recovered := {
  rv_status : option RecoverError;
  rv_mem : option MemTable;
  rv_log : option (Log.Writer bytes);
  rv_max_sequence : Z;
  rv_tables : list MemTable;
  rv_save_manifest : bool
}.

(** [reuse]: [options_.reuse_logs] and [last_log], and the file could be opened
    again for appending. *)
Definition RecoverLogFile (n fuel : nat) (file : option bytes) (reuse : bool) (max_sequence : Z) : option Recovered :=
  match file with
  | None =>
      Some {| rv_status := MaybeIgnoreError (Some NoLogFile); rv_mem := None; rv_log := None;
              rv_max_sequence := max_sequence; rv_tables := []; rv_save_manifest := false |}
  | Some f =>
      let reader := NewReader {| sf_rest := f; sf_read_error := false; sf_skip_error := false |} true true 0 in
      st ← RecoverLog_loop n fuel reader
        {| rc_status := None; rc_mem := None; rc_max_sequence := max_sequence; rc_compactions := 0; rc_tables := [] |};
      let save := rc_compactions st >? 0 in
      if bool_decide (rc_status st = None) && reuse && (rc_compactions st =? 0) then
        Some {| rv_status := None;
                rv_mem := Some (match rc_mem st with Some m => m | None => Ref (NewMemTable user) end);
                rv_log := Some (NewWriter f (len f)); rv_max_sequence := rc_max_sequence st;
                rv_tables := rc_tables st; rv_save_manifest := save |}
      else
        match rc_mem st, rc_status st with
        | Some mem, None =>
            Some {| rv_status := if WriteLevel0Table mem then None else Some Level0Failed; rv_mem := None; rv_log := None;
                    rv_max_sequence := rc_max_sequence st; rv_tables := rc_tables st ++ [mem]; rv_save_manifest := true |}
        | _, e =>
            Some {| rv_status := e; rv_mem := None; rv_log := None; rv_max_sequence := rc_max_sequence st;
                    rv_tables := rc_tables st; rv_save_manifest := save |}
        end
  end.

End recovery.

Arguments DB : clear implicits.

(** ** Lemmas: groups *)

(** The records of a batch, as [Iterate] replays them. *)
Definition batch_ops (b : WriteBatch) : list op :=
  match Iterate lister b [] with Some (None, l) => l | _ => [] end.

Definition ops_of (w : QWriter) : list op :=
  match q_batch w with Some b => batch_ops b | None => [] end.

Definition group_ops (ws : list QWriter) : list op := concat (map ops_of ws).

Lemma new_batch_clear : Clear = batch_of 0 [].
Proof. apply new_batch. Qed.

Section proofs.

Context (udom : bytes → Prop) (user : Comparator) (HL : ComparatorLaws udom user).
Context (Hudom : ∀ u, udom u → bytes_ok u).

Definition op_fine (o : op) : Prop :=
  op_dom udom o ∧ match o with OpPut _ v => bytes_ok v | OpDelete _ => True end.

(** A batch as the interface builds it. *)
Definition batch_fine (b : WriteBatch) : Prop :=
  ∃ sq ops, b = batch_of sq ops ∧ Forall op_fine ops ∧ len ops < 2 ^ 31.

Definition writer_ok (w : QWriter) : Prop := ∀ b, q_batch w = Some b → batch_fine b.

Lemma op_fine_ok o : op_fine o → op_ok o.
Proof. intros [Ho _]. by apply (op_dom_ok udom). Qed.

Lemma lister_ops ops l : foldl (λ st o, handle_op lister o st) l ops = l ++ ops.
Proof.
  revert l. induction ops as [|o ops IH]; intros l; cbn [foldl]; [by rewrite app_nil_r|].
  rewrite IH. destruct o; cbn; by rewrite <- app_assoc.
Qed.

Lemma batch_ops_of sq ops : Forall op_fine ops → len ops < 2 ^ 31 → batch_ops (batch_of sq ops) = ops.
Proof.
  intros Hf Hl. unfold batch_ops. rewrite Iterate_batch; [by rewrite lister_ops| |done].
  eapply Forall_impl; [exact Hf|]. apply op_fine_ok.
Qed.

Lemma writer_batch w b : writer_ok w → q_batch w = Some b → ∃ sq, b = batch_of sq (ops_of w) ∧ Forall op_fine (ops_of w) ∧ len (ops_of w) < 2 ^ 31.
Proof.
  intros Hw Hb. destruct (Hw b Hb) as (sq & ops & -> & Hf & Hl). exists sq.
  unfold ops_of. by rewrite Hb, batch_ops_of.
Qed.

Lemma writer_fine w : writer_ok w → Forall op_fine (ops_of w).
Proof.
  intros Hw. destruct (q_batch w) as [b|] eqn:E; [|unfold ops_of; rewrite E; constructor].
  by destruct (writer_batch w b Hw E) as (sq & _ & ? & _).
Qed.

Lemma group_fine ws : Forall writer_ok ws → Forall op_fine (group_ops ws).
Proof.
  unfold group_ops. induction 1 as [|w ws Hw _ IH]; [constructor|]. cbn. apply Forall_app_2; [by apply writer_fine|done].
Qed.

Lemma group_ops_app l k : group_ops (l ++ k) = group_ops l ++ group_ops k.
Proof. unfold group_ops. by rewrite map_app, concat_app. Qed.

Lemma op_bytes_pos o : 1 ≤ len (op_bytes o).
Proof. destruct o as [k v|k]; cbn [op_bytes]; rewrite len_cons; [pose proof (len_nonneg (PutLengthPrefixedSlice [] k ++ PutLengthPrefixedSlice [] v))|pose proof (len_nonneg (PutLengthPrefixedSlice [] k))]; lia. Qed.

Lemma ByteSize_batch sq ops : len ops + 12 ≤ ByteSize (batch_of sq ops).
Proof.
  unfold ByteSize, batch_of. rewrite !len_app, len_EncodeFixed64, len_EncodeFixed32.
  assert (len ops ≤ len (concat (map op_bytes ops))); [|lia].
  induction ops as [|o ops IH]; [done|]. cbn [map concat]. rewrite len_cons, len_app. pose proof (op_bytes_pos o). lia.
Qed.

Lemma max_group_bound size : max_group_size size ≤ 2 ^ 20.
Proof. unfold max_group_size. case_if; [|done]. change (Z.shiftl 128 10) with (2 ^ 17) in *. lia. Qed.

(** [X] is the batch of a group that takes [pre] and a prefix of [ws]. *)
Definition group_result (first : QWriter) (pre ws : list QWriter) (X : WriteBatch * bool * QWriter) : Prop :=
  ∃ grp rest sq is_tmp last', ws = grp ++ rest ∧
    X = (batch_of sq (group_ops (first :: pre ++ grp)), is_tmp, last') ∧
    last (first :: pre ++ grp) = Some last' ∧ len (group_ops (first :: pre ++ grp)) < 2 ^ 31.

Lemma group_result_cons first pre w ws X : group_result first (pre ++ [w]) ws X → group_result first pre (w :: ws) X.
Proof.
  intros (grp & rest & sq & t & l & -> & H). rewrite <- app_assoc in H. by exists (w :: grp), rest, sq, t, l.
Qed.

(** The loop takes a prefix of the writers behind and joins their batches. *)
Lemma Group_loop_spec first first_batch max_size ws :
  (∃ sq, first_batch = batch_of sq (ops_of first)) → max_size ≤ 2 ^ 20 → Forall writer_ok ws →
  ∀ pre size result is_tmp last_w,
  (∃ sq, result = batch_of sq (group_ops (first :: pre))) → last (first :: pre) = Some last_w →
  len (group_ops (first :: pre)) + 12 ≤ size → (is_tmp = false → group_ops (first :: pre) = ops_of first) →
  len (group_ops (first :: pre)) < 2 ^ 31 →
  group_result first pre ws (Group_loop first first_batch Clear max_size size result is_tmp last_w ws).
Proof.
  intros [sqf Hff] Hmax Hws. induction Hws as [|w ws Hw Hws IH]; intros pre size result is_tmp last_w (sq & Hr) Hlast Hsize Htmp Hlen.
  { exists [], [], sq, is_tmp, last_w. rewrite (app_nil_r pre). by rewrite Hr. }
  assert (group_result first pre (w :: ws) (result, is_tmp, last_w)) as Hstop.
  { exists [], (w :: ws), sq, is_tmp, last_w. rewrite (app_nil_r pre). by rewrite Hr. }
  cbn [Group_loop]. destruct (q_sync w && negb (q_sync first)); [done|].
  assert (last (first :: pre ++ [w]) = Some w) as Hlast' by (rewrite app_comm_cons; apply last_snoc).
  assert (group_ops (first :: pre ++ [w]) = group_ops (first :: pre) ++ ops_of w) as Hgo.
  { rewrite app_comm_cons, group_ops_app. cbn. by rewrite app_nil_r. }
  destruct (q_batch w) as [b|] eqn:Eb.
  - destruct (writer_batch w b Hw Eb) as (sqw & Hb & Hfw & Hlw). pose proof (ByteSize_batch sqw (ops_of w)) as HB. rewrite <- Hb in HB.
    destruct (Z.gtb_spec (size + ByteSize b) max_size) as [Hgt|Hle]; [done|].
    pose proof (len_nonneg (ops_of w)). pose proof (len_nonneg (group_ops (first :: pre))).
    apply group_result_cons, IH; try done; rewrite ?Hgo, ?len_app; try lia.
    destruct is_tmp.
    + exists sq. by rewrite Hr, Hb, batch_Append by lia.
    + specialize (Htmp eq_refl). exists 0. rewrite Htmp in *. rewrite Hff, new_batch_clear, batch_Append, app_nil_l by (rewrite len_nil; lia).
      by rewrite Hb, batch_Append by lia.
  - assert (ops_of w = []) as Ew by (unfold ops_of; by rewrite Eb). rewrite Ew, app_nil_r in Hgo.
    apply group_result_cons, IH; rewrite ?Hgo; eauto.
Qed.

Lemma BuildBatchGroup_spec w b behind :
  writer_ok w → q_batch w = Some b → Forall writer_ok behind →
  group_result w [] behind (BuildBatchGroup w b Clear behind).
Proof.
  intros Hw Hb Hbs. destruct (writer_batch w b Hw Hb) as (sq & -> & Hf & Hl). unfold BuildBatchGroup.
  assert (group_ops [w] = ops_of w) as E by (unfold group_ops; cbn; by rewrite app_nil_r).
  apply Group_loop_spec; rewrite ?E; eauto; [apply max_group_bound|apply ByteSize_batch].
Qed.

(** ** Lemmas: the log of a memtable *)

Definition mem_Sync (f : bytes) : bytes * bool := (f, true).

(** Groups: sequence number and records; the batches logged and the writes. *)
Definition group_batches (gs : list (Z * list op)) : list bytes := map (λ g, batch_of g.1 g.2) gs.
Definition group_writes (gs : list (Z * list op)) : list write := concat (map (λ g, writes_of g.1 g.2) gs).

Definition group_fits (g : Z * list op) : Prop :=
  Forall op_fine g.2 ∧ len g.2 < 2 ^ 31 ∧ 1 ≤ g.1 ∧ g.1 + len g.2 - 1 ≤ kMaxSequenceNumber.

(** The records of a group are numbered below the next group. *)
Definition group_before (g g' : Z * list op) : Prop := g.1 + len g.2 ≤ g'.1.

(** The log that [lw] writes to holds the groups [gs], and the memtable their
    writes. *)
Record logged (lw : Log.Writer bytes) (m : MemTable) (gs : list (Z * list op)) : Prop := {
  lg_fits : Forall group_fits gs;
  lg_order : StronglySorted group_before gs;
  lg_log : AddRecords Log.mem_Append Log.mem_Flush (NewWriter [] 0) (group_batches gs) = Some (lw, true);
  lg_mem : holds_writes udom user m (group_writes gs)
}.

Lemma slice_ok s : bytes_ok s → len s < 2 ^ 32 → bytes_ok (PutLengthPrefixedSlice [] s).
Proof.
  intros Hs Hl. unfold PutLengthPrefixedSlice, PutVarint32. rewrite app_nil_l. pose proof (len_nonneg s).
  apply bytes_ok_app. split; [|done]. rewrite ?u32_id by (unfold u32_ok; lia). apply EncodeVarint32_ok. unfold u32_ok. lia.
Qed.

Lemma batch_bytes_ok sq ops : Forall op_fine ops → bytes_ok (batch_of sq ops).
Proof.
  intros Hf. unfold batch_of. rewrite !bytes_ok_app. split; [apply EncodeFixed64_ok|]. split; [apply EncodeFixed32_ok|].
  induction Hf as [|o ops [Ho Hv] Hf IH]; [constructor|]. cbn [map concat]. apply bytes_ok_app. split; [|done].
  destruct o as [k v|k]; cbn in Ho |- *; (constructor; [unfold byte_ok; lia|]).
  - destruct Ho as (Hk & Hlk & Hlv). apply bytes_ok_app. split; apply slice_ok; auto; lia.
  - destruct Ho as (Hk & Hlk). apply slice_ok; auto; lia.
Qed.

Lemma batches_ok gs : Forall group_fits gs → Forall bytes_ok (group_batches gs).
Proof.
  intros Hg. apply Forall_map. eapply Forall_impl; [exact Hg|]. intros g (Hf & _). by apply batch_bytes_ok.
Qed.

Lemma group_writes_older gs g : Forall (λ g', group_before g' g) gs → Forall (λ w, w_seq w < g.1) (group_writes gs).
Proof.
  unfold group_writes. induction 1 as [|g' gs Hg _ IH]; [constructor|]. cbn. apply Forall_app_2; [|done].
  eapply Forall_impl; [apply writes_of_seqs|]. unfold group_before in Hg. cbn. lia.
Qed.

Lemma StronglySorted_snoc {A} (R : A → A → Prop) l x : StronglySorted R l → Forall (λ y, R y x) l → StronglySorted R (l ++ [x]).
Proof.
  induction 1 as [|y l HS IH Hy]; intros Hx; [repeat constructor|]. apply Forall_cons in Hx as [Hyx Hx]. cbn.
  constructor; [by apply IH|]. apply Forall_app_2; [done|by apply Forall_singleton].
Qed.

(** Committing a group. *)
Lemma logged_commit lw m gs sq ops :
  logged lw m gs → group_fits (sq, ops) → Forall (λ g, group_before g (sq, ops)) gs →
  ∃ lw' m', AddRecord Log.mem_Append Log.mem_Flush lw (batch_of sq ops) = Some (lw', true) ∧
    InsertInto (batch_of sq ops) m = Some (None, Some m') ∧ logged lw' m' (gs ++ [(sq, ops)]).
Proof.
  intros [Hfits Hord Hlog Hmem] (Hf & Hl & H0 & Hmax) Hbef. pose proof (group_writes_older gs (sq, ops) Hbef) as Hlt.
  destruct (InsertInto_holds udom user HL Hudom ops sq m _ Hmem Hlt) as (m' & Hm' & Hh'); [|done|cbn in H0; lia|done|].
  { eapply Forall_impl; [exact Hf|]. by intros o [? _]. }
  assert (Forall group_fits (gs ++ [(sq, ops)])) as Hfits'
    by (apply Forall_app_2; [done|by apply Forall_singleton]).
  pose proof (AddRecords_snoc (NewWriter [] 0) (group_batches gs) (batch_of sq ops)) as Hsn. rewrite Hlog in Hsn.
  destruct (AddRecords_mem (group_batches gs ++ [batch_of sq ops]) (NewWriter [] 0)) as (E & o' & k & HE & _).
  { apply (batches_ok _) in Hfits'. unfold group_batches in Hfits' |- *. by rewrite map_app in Hfits'. }
  { cbn. pose proof (Z.mod_pos_bound 0 kBlockSize). unfold kBlockSize in *. lia. }
  eexists _, m'. split; [exact (eq_trans (eq_sym Hsn) HE)|]. split; [done|]. split; [done|by apply StronglySorted_snoc| |].
  - unfold group_batches. rewrite map_app. exact HE.
  - unfold group_writes in *. rewrite map_app, concat_app. cbn. by rewrite app_nil_r.
Qed.

Lemma logged_new : logged (NewWriter [] 0) (Ref (NewMemTable user)) [].
Proof. split; [constructor..|done|]. destruct (New_holds udom user) as [H1 H2 H3 H4]. by split. Qed.

Lemma writes_of_app sq a b : writes_of sq (a ++ b) = writes_of sq a ++ writes_of (sq + len a) b.
Proof.
  revert sq. induction a as [|o a IH]; intros sq; cbn [app writes_of]; [by rewrite len_nil, Z.add_0_r|].
  rewrite IH, len_cons. do 3 f_equal. lia.
Qed.

(** A memtable with writes is not empty. *)
Lemma Empty_holds m ws : holds_writes udom user m ws → ws ≠ [] → Empty m = false.
Proof.
  intros [_ _ _ (C & (L & ht & Hi & HL') & HC)] Hne. unfold Empty, iter_SeekToFirst, Next. pose proof (in_chain _ _ _ _ _ Hi 0) as Hc.
  destruct L as [|x L].
  { cbn in HL'. subst C. apply Permutation_nil_l in HC. by destruct ws. }
  pose proof (in_ht _ _ _ _ _ Hi) as Hh. apply Forall_cons in Hh as [Hx _]. unfold level_list in Hc. rewrite filter_cons, decide_True in Hc by lia.
  destruct Hc as [-> _]. done.
Qed.

(** ** The invariant of the write path *)

Section invariant.

(** The configuration writes a log; the files are reliable. *)
Context (MOD : Z) (Hlogs : (MOD <=? 6) || (MOD >=? 9) = true) (usage : MemTable → Z) (write_buffer_size : Z).

Definition dbstep : DB bytes → DB bytes → Prop :=
  step Log.mem_Append Log.mem_Flush mem_Sync (λ f, f = []) MOD user usage write_buffer_size.

Definition Initial : DB bytes := {|
  phase := Idle; writers_ := []; tmp_batch_ := Clear; log_ := NewWriter [] 0; mem_ := Ref (NewMemTable user);
  imm_ := None; last_sequence_ := 0; bg_error_ := false; scheduled_ := false;
  level0_files := 0; tables_ := []; finished := [] |}.

(** The records of the calls that returned ok, in the order they returned. *)
Definition committed (fin : list (QWriter * option WriteError)) : list op :=
  concat (map (λ f, match f.2 with None => ops_of f.1 | Some _ => [] end) fin).

(** The interface's batches, and enough sequence numbers for them. *)
Definition admissible (s : DB bytes) : Prop :=
  Forall writer_ok (writers_ s) ∧
  len (committed (finished s)) + len (group_ops (writers_ s)) ≤ kMaxSequenceNumber.

(** No call that returned ok had an empty batch. *)
Definition nonempty_batches (fin : list (QWriter * option WriteError)) : Prop :=
  Forall (λ f, f.2 = None → is_Some (q_batch f.1) → ops_of f.1 ≠ []) fin.

(** Where the writes are: tables, immutable memtable, memtable. *)
Record data_ok (s : DB bytes) (gt : list (list write)) (gi : list (Z * list op)) (gm : list (Z * list op)) : Prop := {
  d_tables : Forall2 (holds_writes udom user) (tables_ s) gt;
  d_imm : match imm_ s with None => gi = [] | Some (m, f) => ∃ lw, logged lw m gi ∧ dest_ lw = f end;
  d_mem : logged (log_ s) (mem_ s) gm;
  d_older : Forall (λ g, g.1 + len g.2 ≤ len (committed (finished s)) + 1) gm;
  d_all : concat gt ++ group_writes gi ++ group_writes gm = writes_of 1 (committed (finished s));
  d_groups : nonempty_batches (finished s) → Forall (λ g, g.2 ≠ []) gm
}.

Definition phase_ok (s : DB bytes) : Prop :=
  match phase s with
  | Committing updates is_tmp last_writer last_sequence =>
      ∃ grp rest l, writers_ s = grp ++ rest ∧ last grp = Some l ∧ q_id l = last_writer ∧ is_Some (w ← head grp; q_batch w) ∧
        updates = batch_of (last_sequence_ s + 1) (group_ops grp) ∧
        last_sequence = last_sequence_ s + len (group_ops grp) ∧ len (group_ops grp) < 2 ^ 31
  | _ => True
  end.

Record dbinv (s : DB bytes) : Prop := {
  i_nodup : NoDup (map q_id (map fst (finished s) ++ writers_ s));
  i_tmp : tmp_batch_ s = Clear;
  i_seq : last_sequence_ s = len (committed (finished s));
  i_data : ∃ gt gi gm, data_ok s gt gi gm;
  i_phase : phase_ok s
}.

Lemma committed_app a b : committed (a ++ b) = committed a ++ committed b.
Proof. unfold committed. by rewrite map_app, concat_app. Qed.

Lemma committed_group grp : committed (map (λ w, (w, None)) grp) = group_ops grp.
Proof. unfold committed, group_ops. by rewrite map_map. Qed.

Lemma committed_error e grp : committed (map (λ w, (w, Some e)) grp) = [].
Proof. induction grp as [|w grp IH]; [done|]. apply IH. Qed.

Lemma Complete_spec status grp rest l fin :
  last grp = Some l → NoDup (map q_id grp) →
  Complete status (q_id l) (grp ++ rest) fin = (rest, fin ++ map (λ w, (w, status)) grp).
Proof.
  revert fin. induction grp as [|w grp IH]; intros fin Hl Hnd; [done|]. cbn [app Complete map].
  cbn in Hnd. apply NoDup_cons in Hnd as [Hw Hnd].
  destruct grp as [|w' grp].
  - cbn in Hl. simplify_eq. by rewrite Nat.eqb_refl.
  - change (last (w' :: grp) = Some l) in Hl.
    assert (q_id w ≠ q_id l) as Hne.
    { intros E. apply Hw. rewrite E. apply last_Some_elem_of in Hl. by apply list_elem_of_In, in_map, list_elem_of_In. }
    rewrite (proj2 (Nat.eqb_neq _ _) Hne), IH by done. by rewrite <- app_assoc.
Qed.

Lemma nodup_queue (s : DB bytes) grp rest : NoDup (map q_id (map fst (finished s) ++ writers_ s)) → writers_ s = grp ++ rest → NoDup (map q_id grp).
Proof. intros Hnd E. rewrite E, !map_app in Hnd. apply NoDup_app in Hnd as (_ & _ & Hnd). by apply NoDup_app in Hnd as (? & _ & _). Qed.

(** Completing a group keeps the invariant, when the data does. *)
Lemma Finish_inv (s : DB bytes) status grp rest l gt gi gm :
  NoDup (map q_id (map fst (finished s) ++ writers_ s)) → tmp_batch_ s = Clear →
  writers_ s = grp ++ rest → last grp = Some l →
  last_sequence_ s = len (committed (finished s ++ map (λ w, (w, status)) grp)) →
  Forall2 (holds_writes udom user) (tables_ s) gt →
  match imm_ s with None => gi = [] | Some (m, f) => ∃ lw, logged lw m gi ∧ dest_ lw = f end →
  logged (log_ s) (mem_ s) gm →
  Forall (λ g, g.1 + len g.2 ≤ len (committed (finished s ++ map (λ w, (w, status)) grp)) + 1) gm →
  concat gt ++ group_writes gi ++ group_writes gm = writes_of 1 (committed (finished s ++ map (λ w, (w, status)) grp)) →
  (nonempty_batches (finished s ++ map (λ w, (w, status)) grp) → Forall (λ g, g.2 ≠ []) gm) →
  dbinv (Finish status (q_id l) s).
Proof.
  intros Hnd Htmp Hq Hl Hseq Ht Hi Hm Hold Hall Hgr. unfold Finish.
  rewrite Hq, (Complete_spec status grp rest l) by eauto using nodup_queue.
  split; cbn [finished writers_ tmp_batch_ last_sequence_]; [|done|done| |done].
  - rewrite Hq in Hnd. rewrite (map_app fst), (map_map _ fst). cbn [fst]. rewrite map_id, <- app_assoc. exact Hnd.
  - by exists gt, gi, gm.
Qed.

Lemma kMax_u64 x : 0 ≤ x ≤ kMaxSequenceNumber + 1 → u64 x = x.
Proof.
  intros Hx. apply u64_id. unfold u64_ok. unfold kMaxSequenceNumber in Hx. change (Z.shiftl 1 56) with (2 ^ 56) in Hx. lia.
Qed.

(** The front of the queue has returned with a status. *)
Definition served (s s' : DB bytes) (grp rest : list QWriter) (status : option WriteError) : Prop :=
  writers_ s = grp ++ rest ∧ grp ≠ [] ∧ phase s' = Idle ∧ writers_ s' = rest ∧
  finished s' = finished s ++ map (λ w, (w, status)) grp ∧ bg_error_ s' = bg_error_ s ∧ imm_ s' = imm_ s.

Lemma Finish_served s status grp rest l :
  NoDup (map q_id grp) → writers_ s = grp ++ rest → last grp = Some l → served s (Finish status (q_id l) s) grp rest status.
Proof.
  intros Hnd Hq Hl. unfold served, Finish. rewrite Hq, (Complete_spec status grp rest l) by done. split_and!; try done. by intros ->.
Qed.

(** A commit succeeds, keeps the invariant and serves the group. *)
Lemma Commit_inv s sync updates is_tmp last_writer last_sequence :
  dbinv s → admissible s → phase s = Committing updates is_tmp last_writer last_sequence →
  ∃ s', Commit Log.mem_Append Log.mem_Flush mem_Sync MOD sync updates is_tmp last_writer last_sequence s = Some s' ∧ dbinv s' ∧
    ∃ grp rest, served s s' grp rest None.
Proof.
  intros [Hnd Htmp Hseq (gt & gi & gm & Hd) Hph] [Hok Hroom] Hp. unfold phase_ok in Hph. rewrite Hp in Hph.
  destruct Hph as (grp & rest & l & Hq & Hl & <- & Hhd & -> & -> & Hlen). rewrite Hq in Hok, Hroom.
  apply Forall_app in Hok as [Hokg _]. rewrite group_ops_app, len_app in Hroom.
  pose proof (len_nonneg (group_ops rest)). pose proof (len_nonneg (group_ops grp)). pose proof (len_nonneg (committed (finished s))).
  destruct (logged_commit (log_ s) (mem_ s) gm (last_sequence_ s + 1) (group_ops grp) (d_mem _ _ _ _ Hd))
    as (lw' & m' & Ha & Hi & Hlg).
  { split_and!; cbn [fst snd]; [by apply group_fine|done|lia|lia]. }
  { eapply Forall_impl; [apply (d_older _ _ _ _ Hd)|]. unfold group_before. cbn. lia. }
  unfold Commit. rewrite Hlogs, Ha. cbn [mbind option_bind].
  destruct Hd as [Hdt Hdi _ Hold Hall Hgr].
  assert (∀ b, (if true && b then let '(f, ok) := mem_Sync (dest_ lw') in Some ({| dest_ := f; block_offset_ := block_offset_ lw' |}, ok)
    else Some (lw', true)) = Some (lw', true)) as -> by (intros []; by destruct lw').
  cbn [mbind option_bind]. rewrite Hi. cbn [mbind option_bind]. eexists. split; [done|].
  split; [|exists grp, rest; apply (Finish_served {| writers_ := writers_ s |} None grp rest l); [by eapply nodup_queue|done|done]].
  eapply (Finish_inv _ None grp rest l gt gi (gm ++ [(last_sequence_ s + 1, group_ops grp)]));
    cbn [finished writers_ tmp_batch_ last_sequence_ tables_ imm_ log_ mem_]; try done.
  - by destruct is_tmp.
  - rewrite committed_app, committed_group, len_app. lia.
  - rewrite committed_app, committed_group, len_app. apply Forall_app_2; [eapply Forall_impl; [exact Hold|]; cbn; lia|].
    apply Forall_singleton. cbn. lia.
  - rewrite committed_app, committed_group, writes_of_app, <- Hall, <- !app_assoc. do 2 f_equal.
    unfold group_writes. rewrite map_app, concat_app. cbn. rewrite app_nil_r, Hseq. do 2 f_equal. lia.
  - unfold nonempty_batches. intros [Hn1 Hn2]%Forall_app. apply Forall_app_2; [by apply Hgr|]. apply Forall_singleton. cbn [snd].
    destruct grp as [|w grp]; [done|]. cbn [map] in Hn2. apply Forall_cons in Hn2 as [Hn2 _]. cbn in Hn2, Hhd. unfold group_ops. cbn. intros [E _]%app_eq_nil. by apply Hn2.
Qed.

(** Completing only the leader, with an error or a null batch. *)
Lemma Finish_one_inv s status w ws :
  dbinv s → writers_ s = w :: ws → (status = None → q_batch w = None) → dbinv (Finish status (q_id w) s).
Proof.
  intros [Hnd Htmp Hseq (gt & gi & gm & [Hdt Hdi Hdm Hold Hall Hgr]) Hph] Hq Hst.
  assert (committed (finished s ++ map (λ w, (w, status)) [w]) = committed (finished s)) as E.
  { rewrite committed_app. destruct status as [e|]; [by rewrite committed_error, app_nil_r|].
    rewrite committed_group. unfold group_ops. cbn. unfold ops_of. by rewrite Hst, !app_nil_r. }
  apply (Finish_inv s status [w] ws w gt gi gm); try done; try by rewrite E.
  unfold nonempty_batches. intros [H1 _]%Forall_app. by apply Hgr.
Qed.

Lemma StartCommit_inv s w b ws force allow_delay :
  dbinv s → admissible s → phase s = MakingRoom force allow_delay → writers_ s = w :: ws → q_batch w = Some b →
  dbinv (StartCommit w b ws s).
Proof.
  intros [Hnd Htmp Hseq (gt & gi & gm & [Hdt Hdi Hdm Hold Hall Hgr]) _] [Hok Hroom] Hp Hq Hb. rewrite Hq in Hok, Hroom.
  apply Forall_cons in Hok as [Hw Hws]. unfold StartCommit. rewrite Htmp.
  destruct (BuildBatchGroup_spec w b ws Hw Hb Hws) as (grp & rest & sq & t & l & -> & -> & Hl & Hlen).
  cbn [app] in *. rewrite batch_SetSequence.
  change (w :: grp ++ rest) with ((w :: grp) ++ rest) in Hroom. rewrite group_ops_app, len_app in Hroom.
  pose proof (len_nonneg (group_ops rest)). pose proof (len_nonneg (group_ops (w :: grp))).
  pose proof (len_nonneg (committed (finished s))).
  rewrite batch_Count by done. rewrite !kMax_u64 by lia.
  split; try done.
  - by exists gt, gi, gm.
  - unfold phase_ok. cbn [phase set_phase writers_ last_sequence_]. exists (w :: grp), rest, l. split_and!; done.
Qed.

(** Steps of the background thread. *)
Lemma set_phase_inv s p : dbinv s → (∀ u t l q, p ≠ Committing u t l q) → dbinv (set_phase p s).
Proof.
  intros [Hnd Htmp Hseq (gt & gi & gm & [Hdt Hdi Hdm Hold Hall Hgr]) Hph] Hp. split; try done; [by exists gt, gi, gm|].
  unfold phase_ok. cbn. destruct p as [| | |u t l q]; try done. by destruct (Hp u t l q).
Qed.

Lemma SignalAll_inv s : dbinv s → dbinv (SignalAll s).
Proof. intros H. unfold SignalAll. destruct (phase s); try done; by apply set_phase_inv. Qed.

Lemma set_background_inv s e sch n : dbinv s → dbinv (set_background (imm_ s) e sch n (tables_ s) s).
Proof. intros [Hnd Htmp Hseq (gt & gi & gm & [Hdt Hdi Hdm Hold Hall Hgr]) Hph]. split; try done. by exists gt, gi, gm. Qed.

Lemma Schedule_inv other s : dbinv s → dbinv (MaybeScheduleCompaction other s).
Proof. intros H. unfold MaybeScheduleCompaction. repeat case_match; try done. by apply set_background_inv. Qed.

Lemma CompactMemTable_inv s s' : dbinv s → CompactMemTable s s' → dbinv s'.
Proof.
  intros Hi Hc. destruct Hc as [s m f Himm Hne|s m f Himm]; [|by apply set_background_inv].
  destruct Hi as [Hnd Htmp Hseq (gt & gi & gm & [Hdt Hdi Hdm Hold Hall Hgr]) Hph]. rewrite Himm in Hdi.
  destruct Hdi as (lw & Hlg & _). split; try done. exists (gt ++ [group_writes gi]), [], gm. split; cbn; [|done|done|done| |done].
  - apply Forall2_app; [done|]. constructor; [apply Hlg|constructor].
  - rewrite concat_app. cbn. by rewrite app_nil_r, <- app_assoc.
Qed.

Lemma BackgroundCall_inv other s s' : dbinv s → BackgroundCall other s s' → dbinv s'.
Proof.
  intros Hi Hc. destruct Hc as [s _|s s' _ Hb]; apply SignalAll_inv, Schedule_inv, set_background_inv; [done|].
  destruct Hb as [s s' Hc|s n Himm _|s Himm]; [by eapply CompactMemTable_inv|..]; rewrite <- Himm; by apply set_background_inv.
Qed.

Lemma DoSwitch_inv s force ad other :
  dbinv s → MakeRoom_turn usage write_buffer_size force ad s = SwitchMemTable → dbinv (DoSwitchMemTable user [] other s).
Proof.
  intros [Hnd Htmp Hseq (gt & gi & gm & [Hdt Hdi Hdm Hold Hall Hgr]) Hph] Hr. apply Schedule_inv.
  assert (imm_ s = None) as Himm by (unfold MakeRoom_turn in Hr; by repeat case_match). rewrite Himm in Hdi. subst gi.
  split; try done. exists gt, gm, []. split; cbn; [done|by exists (log_ s)|apply logged_new|constructor| |constructor].
  by rewrite app_nil_r.
Qed.

Lemma step_inv s s' : dbinv s → admissible s → dbstep s s' → dbinv s'.
Proof.
  intros Hinv Hadm Hstep. destruct Hstep as
    [s w Hf1 Hf2|s w ws Hp Hq|s w ws force ad Hp Hq Hr|s force ad Hp Hr|s force ad Hp Hr|s force ad f other Hp Hr ->
    |s w ws force ad Hp Hq Hr|s w ws b force ad Hp Hq Hb Hr|s w ws force ad Hp Hq Hb Hr
    |s s' w ws updates t lw lsq Hp Hq Hc|s s' other _ Hc|s s' _ Hc].
  - destruct Hinv as [Hnd Htmp Hseq (gt & gi & gm & [Hdt Hdi Hdm Hold Hall Hgr]) Hph].
    split; cbn [finished writers_ tmp_batch_ last_sequence_ set_writers]; try done.
    + rewrite app_assoc, map_app. apply NoDup_app. split; [done|]. split; [|apply NoDup_singleton].
      intros x Hx [= ->]%list_elem_of_singleton. rewrite map_app, map_map in Hx. by apply elem_of_app in Hx as [?|?].
    + by exists gt, gi, gm.
    + unfold phase_ok in *. cbn [phase set_writers writers_ last_sequence_]. destruct (phase s); try done.
      destruct Hph as (grp & rest & l & Hq & Hrest). exists grp, (rest ++ [w]), l. rewrite Hq, app_assoc. done.
  - by apply set_phase_inv.
  - by eapply Finish_one_inv.
  - by apply set_phase_inv.
  - by apply set_phase_inv.
  - by eapply DoSwitch_inv.
  - by eapply Finish_one_inv.
  - by eapply StartCommit_inv.
  - by eapply Finish_one_inv.
  - destruct (Commit_inv s (q_sync w) updates t lw lsq Hinv Hadm Hp) as (s2 & Hs2 & Hinv2 & _). congruence.
  - by eapply BackgroundCall_inv.
  - apply SignalAll_inv. by eapply CompactMemTable_inv.
Qed.

Definition reachable (s : DB bytes) : Prop := rtc (λ s s', dbstep s s' ∧ admissible s') Initial s.

Lemma reachable_inv s : reachable s → dbinv s ∧ admissible s.
Proof.
  unfold reachable. intros Hr. assert (dbinv Initial ∧ admissible Initial) as H0.
  { split.
    - split; try done; [constructor|]. exists [], [], []. split; cbn; [constructor|done|apply logged_new|constructor|done|constructor].
    - split; [constructor|done]. }
  induction Hr as [|x y z [Hs Ha] _ IH]; [done|]. destruct H0 as [Hi Hx]. apply IH. split; [by eapply step_inv|done].
Qed.

End invariant.

(** ** Lemmas: recovery *)

Section recover.

Context (usage : MemTable → Z) (write_buffer_size : Z) (paranoid : bool) (WriteLevel0 : MemTable → bool).
Context (Hlevel0 : ∀ m, WriteLevel0 m = true).

(** The state after the groups [gs] of a log. *)
Record recovered_ok (st : Recovering) (gs : list (Z * list op)) : Prop := {
  ro_status : rc_status st = None;
  ro_data : ∃ gt gm, Forall2 (holds_writes udom user) (rc_tables st) gt ∧
    match rc_mem st with Some m => holds_writes udom user m gm ∧ gm ≠ [] | None => gm = [] end ∧
    concat gt ++ gm = group_writes gs;
  ro_max : Forall (λ w, w_seq w ≤ rc_max_sequence st) (group_writes gs)
}.

Lemma RecoverRecord_ok st gs sq ops :
  recovered_ok st gs → group_fits (sq, ops) → ops ≠ [] → Forall (λ w, w_seq w < sq) (group_writes gs) →
  ∃ st', RecoverRecord user usage write_buffer_size paranoid WriteLevel0 (batch_of sq ops) st = Some (st', true) ∧
    recovered_ok st' (gs ++ [(sq, ops)]).
Proof.
  intros [Hst (gt & gm & Ht & Hm & Hall) Hmax] (Hf & Hl & H0 & Hk) Hne Hlt. cbn [fst snd] in *.
  assert (12 ≤ len (batch_of sq ops)) as H12.
  { pose proof (ByteSize_batch sq ops). pose proof (len_nonneg ops). unfold ByteSize in *. lia. }
  unfold RecoverRecord. rewrite (proj2 (Z.ltb_ge _ _)) by done. unfold SetContents.
  set (m := match rc_mem st with Some m => m | None => _ end).
  assert (holds_writes udom user m gm) as Hm0.
  { unfold m. destruct (rc_mem st); [by destruct Hm|]. subst gm. apply logged_new. }
  assert (Forall (λ w, w_seq w < sq) gm) as Hltm by (rewrite <- Hall in Hlt; by apply Forall_app in Hlt as [_ ?]).
  destruct (InsertInto_holds udom user HL Hudom ops sq m gm Hm0 Hltm) as (m' & -> & Hh); [|done|lia|done|].
  { eapply Forall_impl; [exact Hf|]. by intros o [? _]. }
  cbn [mbind option_bind]. assert (MaybeIgnoreError paranoid None = None) as -> by (by destruct paranoid).
  pose proof (len_nonneg ops). rewrite batch_Sequence, batch_Count by (done || (rewrite <- (kMax_u64 sq); [apply u64_range|lia])).
  rewrite kMax_u64 by lia.
  assert (group_writes (gs ++ [(sq, ops)]) = group_writes gs ++ writes_of sq ops) as Egw.
  { unfold group_writes. rewrite map_app, concat_app. cbn. by rewrite app_nil_r. }
  set (mx := if sq + len ops - 1 >? rc_max_sequence st then _ else _). assert (rc_max_sequence st ≤ mx ∧ sq + len ops - 1 ≤ mx) as [Hmx1 Hmx2].
  { unfold mx. destruct (Z.gtb_spec (sq + len ops - 1) (rc_max_sequence st)); lia. }
  assert (Forall (λ w, w_seq w ≤ mx) (group_writes (gs ++ [(sq, ops)]))) as Hmax'.
  { rewrite Egw. apply Forall_app_2; [eapply Forall_impl; [exact Hmax|]; cbn; lia|].
    eapply Forall_impl; [apply writes_of_seqs|]. cbn. lia. }
  assert (gm ++ writes_of sq ops ≠ []) as Hgm by (destruct ops; [done|]; by intros [_ ?]%app_eq_nil).
  assert (WriteLevel0Table WriteLevel0 m' = true) as -> by (unfold WriteLevel0Table; by rewrite Hlevel0, (Empty_holds m' _ Hh Hgm)).
  destruct (usage m' >? write_buffer_size); eexists; (split; [done|]); split; cbn; try done; rewrite Egw, <- Hall.
  - exists (gt ++ [gm ++ writes_of sq ops]), []. split; [apply Forall2_app; [done|by constructor; [|constructor]]|]. split; [done|].
    rewrite concat_app. cbn. by rewrite !app_nil_r, <- app_assoc.
  - exists gt, (gm ++ writes_of sq ops). by rewrite <- app_assoc.
Qed.

(** The loop over a log that reads as groups. *)
Lemma RecoverLog_loop_ok n fuel r r' st gs0 gs :
  ReadAll n fuel r = Some (group_batches gs, r') → reports_ r' = [] →
  recovered_ok st gs0 → Forall group_fits gs → Forall (λ g, g.2 ≠ []) gs → StronglySorted group_before (gs0 ++ gs) →
  ∃ st', RecoverLog_loop user usage write_buffer_size paranoid WriteLevel0 n fuel r st = Some st' ∧ recovered_ok st' (gs0 ++ gs).
Proof.
  revert r st gs0 gs. induction n as [|n IH]; intros r st gs0 gs; cbn [ReadAll RecoverLog_loop]; [done|].
  intros Hr Hrep Hst Hfits Hne Hord.
  destruct (ReadRecord fuel r) as [[[found record] r1]|] eqn:Er; [|done]. cbn [mbind option_bind].
  assert (reports_ r1 = []) as Hrep1.
  { apply (prefix_nil_inv (reports_ r1)). rewrite <- Hrep. destruct found; [|by simplify_eq].
    destruct (ReadAll n fuel r1) as [[l r2]|] eqn:Ea; [|done]. simplify_eq. by apply ReadAll_reports in Ea. }
  rewrite Hrep1. cbn [length Nat.ltb Nat.leb]. rewrite (ro_status _ _ Hst). destruct found.
  - destruct (ReadAll n fuel r1) as [[l r2]|] eqn:Ea; [|done]. destruct gs as [|[sq ops] gs]; [done|]. cbn in Hr.
    injection Hr as -> -> ->. apply Forall_cons in Hfits as [Hg Hfits]. apply Forall_cons in Hne as [Hne1 Hne].
    destruct (RecoverRecord_ok st gs0 sq ops Hst Hg Hne1) as (st1 & -> & Hst1).
    { apply (group_writes_older gs0 (sq, ops)). clear -Hord. induction gs0 as [|g gs0 IH]; [constructor|].
      cbn in Hord. inversion_clear Hord as [|?? HS Hx]. constructor; [|by apply IH]. rewrite Forall_forall in Hx.
      apply Hx. apply elem_of_app. right. by left. }
    cbn [mbind option_bind]. destruct (IH r1 st1 (gs0 ++ [(sq, ops)]) gs Ea Hrep Hst1 Hfits Hne) as (st' & -> & Hst').
    { by rewrite <- app_assoc. }
    exists st'. by rewrite <- app_assoc in Hst'.
  - destruct gs; [|done]. exists st. by rewrite app_nil_r.
Qed.

End recover.

(** Reading the log of a memtable, whole or cut. *)
Lemma logged_read lw m gs n :
  logged lw m gs →
  ∃ turns fuel k r, ReadAll turns fuel (NewReader (open_log (first n (dest_ lw))) true true 0)
      = Some (group_batches (take k gs), r) ∧ reports_ r = [] ∧ (len (dest_ lw) ≤ n → take k gs = gs).
Proof.
  intros [Hfits _ Hlog _]. destruct (cut_log_read _ _ n (batches_ok gs Hfits) Hlog) as (turns & fuel & k & r & Hr & Hrep & Hall).
  exists turns, fuel, k, r. unfold group_batches in *. rewrite firstn_map in *. split; [done|]. split; [done|].
  intros Hn. specialize (Hall Hn). apply (f_equal length) in Hall. rewrite length_map, length_take, length_map in Hall.
  apply take_ge. lia.
Qed.

Lemma StronglySorted_take {A} (R : A → A → Prop) k l : StronglySorted R l → StronglySorted R (take k l).
Proof.
  intros HS. revert k. induction HS as [|x l HS IH Hx]; intros [|k]; cbn; constructor; [apply IH|by apply Forall_take].
Qed.

End proofs.

(** ** Properties *)

(** C3: the write path keeps what it acknowledges. The files are reliable (a
    failed sync is the subject of C36) and the configuration writes a log: the
    mode is below 7 or above 8. Then in every state that calls of [Write], group
    leaders and the background thread can reach from a new database, under any
    interleaving, with failed flushes and compactions, the writes of the calls
    that returned ok, numbered 1, 2, ... in the order they returned, are exactly
    those of the memtables that were flushed to tables, then of the immutable
    memtable, then of the memtable; the last sequence number is their count, the log file of each memtable holds
    its groups, and a leader that has built its group can commit it. *)
Theorem write_path_correct udom user MOD usage write_buffer_size s :
  ComparatorLaws udom user → (∀ u, udom u → bytes_ok u) → (MOD <=? 6) || (MOD >=? 9) = true →
  reachable udom user MOD usage write_buffer_size s →
  last_sequence_ s = len (committed (finished s)) ∧
  (∃ gt gi gm, data_ok udom user s gt gi gm) ∧
  ∀ sync updates is_tmp last_writer last_sequence,
    phase s = Committing updates is_tmp last_writer last_sequence →
    is_Some (Commit Log.mem_Append Log.mem_Flush mem_Sync MOD sync updates is_tmp last_writer last_sequence s).
Proof.
  intros HL Hud Hlogs Hr. destruct (reachable_inv udom user HL Hud MOD Hlogs usage write_buffer_size s Hr) as [Hi Ha].
  split; [apply Hi|]. split; [apply Hi|]. intros sync updates t lw lsq Hp.
  destruct (Commit_inv udom user HL Hud MOD Hlogs s sync updates t lw lsq Hi Ha Hp) as (s' & -> & _). done.
Qed.

(** C5: a crash loses nothing that was logged and invents nothing. The files are
    reliable, the mode is below 7 or above 8, and no call that returned ok had an
    empty batch. Cut the log file of any reachable state at any byte: the
    recovery, whose writes of tables succeed, ends with an ok status, and its
    memtables hold exactly the writes of the first groups, each group whole;
    uncut, they hold all the writes of the memtable. The recovered last sequence
    number is not below any of them. *)
Theorem recovery_correct udom user MOD usage write_buffer_size s n usage' paranoid WriteLevel0 reuse max0 :
  ComparatorLaws udom user → (∀ u, udom u → bytes_ok u) → (MOD <=? 6) || (MOD >=? 9) = true →
  (∀ m, WriteLevel0 m = true) → reachable udom user MOD usage write_buffer_size s → nonempty_batches (finished s) →
  ∃ gs k turns fuel rv parts, logged udom user (log_ s) (mem_ s) gs ∧
    RecoverLogFile user usage' write_buffer_size paranoid WriteLevel0 turns fuel
      (Some (first n (dest_ (log_ s)))) reuse max0 = Some rv ∧
    rv_status rv = None ∧
    Forall2 (holds_writes udom user) (rv_tables rv ++ option_list (rv_mem rv)) parts ∧
    concat parts = group_writes (take k gs) ∧ (len (dest_ (log_ s)) ≤ n → take k gs = gs) ∧
    Forall (λ w, w_seq w ≤ rv_max_sequence rv) (concat parts).
Proof.
  intros HL Hud Hlogs Hlevel0 Hr Hne. destruct (reachable_inv udom user HL Hud MOD Hlogs usage write_buffer_size s Hr) as [Hi _].
  destruct (i_data _ _ _ Hi) as (gt & gi & gs & Hd). pose proof (d_mem _ _ _ _ _ _ Hd) as Hlg.
  destruct (logged_read udom user Hud (log_ s) (mem_ s) gs n Hlg) as (turns & fuel & k & r & Hread & Hrep & Hall).
  destruct (RecoverLog_loop_ok udom user HL Hud usage' write_buffer_size paranoid WriteLevel0 Hlevel0 turns fuel _ r
    {| rc_status := None; rc_mem := None; rc_max_sequence := max0; rc_compactions := 0; rc_tables := [] |} [] (take k gs)
    Hread Hrep) as (st & Hst & [Hok (gt' & gm' & Ht & Hm & Hcat) Hmax]).
  { split; [done| |constructor]. by exists [], []. }
  { apply Forall_take, Hlg. }
  { apply Forall_take. by apply (d_groups _ _ _ _ _ _ Hd). }
  { apply StronglySorted_take, Hlg. }
  exists gs, k, turns, fuel. unfold RecoverLogFile.
  change {| sf_rest := _; sf_read_error := false; sf_skip_error := false |} with (open_log (first n (dest_ (log_ s)))).
  rewrite Hst. cbn [mbind option_bind app] in *. rewrite Hok, bool_decide_true by done.
  rewrite <- Hcat in Hmax |- *. clear Hcat.
  destruct (true && reuse && (rc_compactions st =? 0)).
  - eexists _, (gt' ++ [gm']). split; [done|]. split; [done|]. split; [done|]. cbn [rv_tables rv_mem rv_max_sequence].
    split; [|split; [by rewrite concat_app; cbn; rewrite app_nil_r|]]; [|split; [done|by rewrite concat_app; cbn; rewrite app_nil_r]].
    apply Forall2_app; [done|]. cbn. constructor; [|constructor]. destruct (rc_mem st); [by destruct Hm|]. subst gm'.
    apply (logged_new udom user).
  - destruct (rc_mem st) as [m|].
    + eexists _, (gt' ++ [gm']). split; [done|]. split; [done|]. cbn [rv_tables rv_mem rv_max_sequence rv_status]. destruct Hm as [Hm Hgm].
      unfold WriteLevel0Table. rewrite Hlevel0, (Empty_holds udom user m _ Hm Hgm). split; [done|]. rewrite app_nil_r, concat_app. cbn [concat]. rewrite app_nil_r. split; [|done].
      apply Forall2_app; [done|]. by constructor; [|constructor].
    + subst gm'. eexists _, gt'. rewrite app_nil_r in *. split; [done|]. split; [done|].
      cbn [rv_tables rv_mem rv_max_sequence rv_status option_list]. by rewrite app_nil_r.
Qed.

(** ** One writer alone *)

Section alone.

Context (FSync : bytes → bytes * bool) (udom : bytes → Prop) (user : Comparator).

(** A call of [Write] on an idle database that has room. *)
Definition commit_now (w : QWriter) (s : DB bytes) : option (DB bytes) :=
  match phase s with
  | Committing updates is_tmp last_writer last_sequence =>
      Commit Log.mem_Append Log.mem_Flush FSync 0 (q_sync w) updates is_tmp last_writer last_sequence s
  | _ => None
  end.
Definition serve (w : QWriter) (b : WriteBatch) (s : DB bytes) : option (DB bytes) :=
  commit_now w (StartCommit w b [] (set_phase (MakingRoom false true) (set_writers [w] s))).

Definition idle (s : DB bytes) : Prop :=
  phase s = Idle ∧ writers_ s = [] ∧ bg_error_ s = false ∧ level0_files s = 0.

Abbreviation rstep := (step Log.mem_Append Log.mem_Flush FSync (λ f, f = []) 0 user (λ _, 0) 100).

Lemma commit_now_step w s s' : writers_ s = [w] → commit_now w s = Some s' → rstep s s'.
Proof.
  unfold commit_now. intros Hw Hs. destruct (phase s) as [| | |updates t lw lsq] eqn:Ep; try done.
  by eapply (step_commit _ _ _ _ _ _ _ _ _ _ w []).
Qed.

Lemma StartCommit_queue w b behind (x : DB bytes) :
  writers_ (StartCommit w b behind x) = writers_ x ∧ finished (StartCommit w b behind x) = finished x.
Proof. unfold StartCommit. by destruct (BuildBatchGroup _ _ _ _) as [[? ?] ?]. Qed.

Lemma start_now w b s :
  q_batch w = Some b → bg_error_ s = false → level0_files s = 0 → writers_ s = [w] → phase s = MakingRoom false true →
  rstep s (StartCommit w b [] s).
Proof.
  intros Hb Hbg Hl0 Hw Hp. eapply step_start; [exact Hp|exact Hw|exact Hb|]. unfold MakeRoom_turn. by rewrite Hbg, Hl0.
Qed.

Lemma serve_eq w b s :
  serve w b s = commit_now w (StartCommit w b [] (set_phase (MakingRoom false true) (set_writers [w] s))).
Proof. reflexivity. Qed.

Lemma serve_steps w b s s' :
  idle s → q_batch w = Some b → q_id w ∉ map (λ f, q_id f.1) (finished s) → serve w b s = Some s' →
  ∃ s1 s2 s3, rstep s s1 ∧ rstep s1 s2 ∧ rstep s2 s3 ∧ rstep s3 s' ∧
    (writers_ s1 = [w] ∧ writers_ s2 = [w] ∧ writers_ s3 = [w]) ∧
    finished s1 = finished s ∧ finished s2 = finished s ∧ finished s3 = finished s.
Proof.
  intros (Hp & Hq & Hbg & Hl0) Hb Hid Hs. rewrite serve_eq in Hs.
  set (s1 := set_writers [w] s) in *. set (s2 := set_phase (MakingRoom false true) s1) in *.
  destruct (StartCommit_queue w b [] s2) as [Hw Hf].
  exists s1, s2, (StartCommit w b [] s2). split; [|split; [|split; [|split; [|split]]]].
  - pose proof (step_enqueue Log.mem_Append Log.mem_Flush FSync (λ f, f = []) 0 user (λ _, 0) 100 s w) as H.
    rewrite Hq in H. apply H; [by apply not_elem_of_nil|done].
  - pose proof (step_lead Log.mem_Append Log.mem_Flush FSync (λ f, f = []) 0 user (λ _, 0) 100 s1 w [] Hp eq_refl) as H.
    cbn zeta in H. rewrite bool_decide_false in H by congruence. exact H.
  - by apply start_now.
  - refine (commit_now_step w _ _ _ Hs). rewrite Hw. reflexivity.
  - rewrite Hw. done.
  - rewrite Hf. done.
Qed.

Lemma serve_rtc w b s s' :
  idle s → q_batch w = Some b → q_id w ∉ map (λ f, q_id f.1) (finished s) → serve w b s = Some s' → rtc rstep s s'.
Proof.
  intros Hi Hb Hid Hs. destruct (serve_steps w b s s' Hi Hb Hid Hs) as (s1 & s2 & s3 & H1 & H2 & H3 & H4 & _).
  eapply rtc_l; [exact H1|]. eapply rtc_l; [exact H2|]. eapply rtc_l; [exact H3|]. by apply rtc_once.
Qed.

End alone.

Definition batch_example (ops : list op) : WriteBatch := foldl (λ b o, apply_op o b) NewWriteBatch ops.

Definition writer_example (id : nat) (sync : bool) (ops : list op) : QWriter :=
  {| q_id := id; q_batch := Some (batch_example ops); q_sync := sync |}.

(** A write that is to be synced, then one that is not. *)
Definition ops1 : list op := [OpPut [97] [1]].
Definition ops2 : list op := [OpPut [98] [2]].
Definition w1 : QWriter := writer_example 1 true ops1.
Definition w2 : QWriter := writer_example 2 false ops2.

Definition lost_sync1 : option (DB bytes) :=
  serve (λ f, (f, false)) w1 (batch_example ops1) (Initial Bytewise.comparator).
Definition lost_sync2 : option (DB bytes) :=
  s ← lost_sync1; serve (λ f, (f, false)) w2 (batch_example ops2) s.

(** What a later look at a state shows. *)
Definition status_view (s : DB bytes) : Phase * list QWriter * bool * Z * list (QWriter * option WriteError) :=
  (phase s, writers_ s, bg_error_ s, level0_files s, finished s).
Definition recovered_view (s : DB bytes) : option (option RecoverError * option GetResult) :=
  rv ← RecoverLogFile Bytewise.comparator (λ _, 0) 100 true (λ _, true) 5 100 (Some (dest_ (log_ s))) true 0;
  m ← rv_mem rv; Some (rv_status rv, Get (MakeLookupKey [97] 9) m).

Lemma lost_sync1_view : option_map status_view lost_sync1 = Some (Idle, [], false, 0, [(w1, Some LogFailed)]).
Proof. vm_compute. reflexivity. Qed.

Lemma lost_sync2_view :
  option_map (λ s, (finished s, Get (MakeLookupKey [97] 9) (mem_ s), recovered_view s)) lost_sync2 =
    Some ([(w1, Some LogFailed); (w2, None)], Some Missing, Some (None, Some (Found [1]))).
Proof. vm_compute. reflexivity. Qed.

Lemma lost_sync_rtc s :
  lost_sync2 = Some s →
  rtc (step Log.mem_Append Log.mem_Flush (λ f, (f, false)) (λ f, f = []) 0 Bytewise.comparator (λ _, 0) 100)
    (Initial Bytewise.comparator) s.
Proof.
  unfold lost_sync2. pose proof lost_sync1_view as V1. destruct lost_sync1 as [s1|] eqn:E1; [|done].
  unfold option_map, status_view in V1.
  apply (inj Some), pair_eq in V1 as [[[[Hp Hq]%pair_eq Hbg]%pair_eq Hl0]%pair_eq Hf1].
  cbn [mbind option_bind]. intros E2. unfold lost_sync1 in E1.
  etrans; [eapply serve_rtc; [| | |exact E1]|eapply serve_rtc; [| | |exact E2]]; try done; [by apply not_elem_of_nil|].
  rewrite Hf1. by intros [=]%list_elem_of_singleton.
Qed.

Lemma recovered_view_get s e r :
  recovered_view s = Some (e, r) →
  ∃ rv m, RecoverLogFile Bytewise.comparator (λ _, 0) 100 true (λ _, true) 5 100 (Some (dest_ (log_ s))) true 0 = Some rv ∧
    rv_status rv = e ∧ rv_mem rv = Some m ∧ Get (MakeLookupKey [97] 9) m = r.
Proof.
  unfold recovered_view. destruct (RecoverLogFile _ _ _ _ _ _ _ _ _ _) as [rv|]; [|done].
  cbn [mbind option_bind]. destruct (rv_mem rv) as [m|] eqn:Em; [|done]. cbn [mbind option_bind].
  intros [Hs Hg]%(inj Some)%pair_eq. by exists rv, m.
Qed.

(** C36: a failed sync is forgotten. The code computes [sync_error] but no longer
    acts on it: after a write whose sync failed, and was reported so, later
    writes succeed; the memtable does not hold the failed write, yet the
    recovery of the same log file brings it back. *)
Theorem sync_failure_resurrects :
  ∃ s, rtc (step Log.mem_Append Log.mem_Flush (λ f, (f, false)) (λ f, f = []) 0 Bytewise.comparator (λ _, 0) 100)
      (Initial Bytewise.comparator) s ∧
    finished s = [(w1, Some LogFailed); (w2, None)] ∧
    Get (MakeLookupKey [97] 9) (mem_ s) = Some Missing ∧
    ∃ rv m, RecoverLogFile Bytewise.comparator (λ _, 0) 100 true (λ _, true) 5 100 (Some (dest_ (log_ s))) true 0 = Some rv ∧
      rv_status rv = None ∧ rv_mem rv = Some m ∧ Get (MakeLookupKey [97] 9) m = Some (Found [1]).
Proof.
  pose proof lost_sync2_view as V. destruct lost_sync2 as [s|] eqn:E; [|done]. unfold option_map in V.
  apply (inj Some), pair_eq in V as [[Hf Hg]%pair_eq Hr]. exists s.
  split; [by apply lost_sync_rtc|]. split; [done|]. split; [done|]. by apply recovered_view_get.
Qed.

(** A write with an empty batch, on an idle database. *)
Definition w0 : QWriter := writer_example 1 false [].

(** A log with nothing but an empty batch cannot be recovered. The call of
    [Write] returns ok, but the recovery makes a memtable for the record, and
    [WriteLevel0Table] reports an empty memtable as an error: the database
    cannot be opened any more. *)
Theorem empty_batch_blocks_open :
  option_map (λ s, (finished s, rv_status <$>
    RecoverLogFile Bytewise.comparator (λ _, 0) 100 true (λ _, true) 5 100 (Some (dest_ (log_ s))) false 0))
    (serve mem_Sync w0 (batch_example []) (Initial Bytewise.comparator)) = Some ([(w0, None)], Some (Some Level0Failed)).
Proof. vm_compute. reflexivity. Qed.

(** ** Witnesses *)

Definition written1 : option (DB bytes) := serve mem_Sync w1 (batch_example ops1) (Initial Bytewise.comparator).

Lemma written1_view :
  option_map (λ s, (finished s, writers_ s, last_sequence_ s, len (dest_ (log_ s)))) written1 =
    Some ([(w1, None)], [], 1, 24).
Proof. vm_compute. reflexivity. Qed.

Lemma w1_admissible (s : DB bytes) : writers_ s = [w1] → finished s = [] → admissible bytes_ok s.
Proof.
  intros Hw Hf. split; rewrite Hw, ?Hf; [|by vm_compute]. constructor; [|constructor].
  intros b [= <-]. exists 0, ops1. split_and!; [by vm_compute| |by vm_compute].
  repeat constructor; by vm_compute.
Qed.

Lemma written1_reachable :
  ∃ s, reachable bytes_ok Bytewise.comparator 0 (λ _, 0) 100 s ∧ finished s = [(w1, None)] ∧ last_sequence_ s = 1 ∧
    len (dest_ (log_ s)) = 24.
Proof.
  pose proof written1_view as V. destruct written1 as [s|] eqn:E; [|done]. unfold option_map in V.
  apply (inj Some), pair_eq in V as [[[Hf Hw]%pair_eq Hs]%pair_eq Hl]. exists s. split; [|done].
  destruct (serve_steps mem_Sync Bytewise.comparator w1 (batch_example ops1) (Initial Bytewise.comparator) s)
    as (s1 & s2 & s3 & H1 & H2 & H3 & H4 & (Hw1 & Hw2 & Hw3) & Hf1 & Hf2 & Hf3); [done|done|by apply not_elem_of_nil|exact E|].
  unfold reachable. do 3 (eapply rtc_l; [split; [eassumption|by apply w1_admissible]|]).
  apply rtc_once. split; [done|]. split; rewrite Hw, ?Hf; [constructor|by vm_compute].
Qed.

Lemma write_path_correct_witness :
  ∃ s, finished s = [(w1, None)] ∧ last_sequence_ s = 1 ∧ ∃ gt gi gm, data_ok bytes_ok Bytewise.comparator s gt gi gm.
Proof.
  destruct written1_reachable as (s & Hr & Hf & Hs & _). exists s. split; [done|]. split; [done|].
  destruct (write_path_correct bytes_ok Bytewise.comparator 0 (λ _, 0) 100 s _ (λ u H, H) eq_refl Hr) as (_ & Hd & _).
  exact Hd.
Defined.

(** The log of one group of 24 bytes, cut in its last byte. *)
Lemma recovery_correct_witness :
  ∃ s gs k rv parts, finished s = [(w1, None)] ∧ logged bytes_ok Bytewise.comparator (log_ s) (mem_ s) gs ∧
    rv_status rv = None ∧ concat parts = group_writes (take k gs) ∧
    Forall2 (holds_writes bytes_ok Bytewise.comparator) (rv_tables rv ++ option_list (rv_mem rv)) parts.
Proof.
  destruct written1_reachable as (s & Hr & Hf & Hs & _). exists s.
  destruct (recovery_correct bytes_ok Bytewise.comparator 0 (λ _, 0) 100 s 23 (λ _, 0) true (λ _, true) false 0 _
    (λ u H, H) eq_refl (λ _, eq_refl) Hr) as (gs & k & turns & fuel & rv & parts & Hl & _ & Hst & Hp & Hc & _).
  { rewrite Hf. apply Forall_singleton. intros _ _. by vm_compute. }
  by exists gs, k, rv, parts.
Defined.
