(* ===== verification/DBLive.v ===== *)
(** * db/db_impl.cc: every writer returns

    From any state of the write path that can be reached from a new database,
    the leaders and the background thread can serve all writers that wait: a
    leader that sleeps in [MakeRoomForWrite] always has a background call to
    wake it. The call that schedules background work when a database is opened
    is commented out in the source, and a database that is opened with enough
    files in level 0 does hang. *)

From S2P Require Import Prelude Comparator DBFormat SkipList MemTable WriteBatch Log DBWrite.

(** ** DB::Open *)

(** What [DB::Open] leaves: the memtable and its log, recovered or new, and [n]
    files in level 0. [background_compaction_scheduled_] is as the constructor set
    it: the call of [MaybeScheduleCompaction] is commented out. *)
Definition Opened {F : Type} (log : Log.Writer F) (mem : MemTable) (last_sequence n : Z) : DB F := {|
  phase := Idle; writers_ := []; tmp_batch_ := Clear; log_ := log; mem_ := mem; imm_ := None;
  last_sequence_ := last_sequence; bg_error_ := false; scheduled_ := false; level0_files := n; tables_ := []; finished := [] |}.

(** ** Lemmas: the background thread *)

Section scheduling.

Context {F : Type} (FAppend : F → bytes → F * bool) (FFlush FSync : F → F * bool) (FNew : F → Prop).
Context (MOD : Z) (user : Comparator) (usage : MemTable → Z) (write_buffer_size : Z).



Lemma Finish_background st last (s : DB F) :
  let s' := Finish st last s in
  imm_ s' = imm_ s ∧ bg_error_ s' = bg_error_ s ∧ scheduled_ s' = scheduled_ s ∧ level0_files s' = level0_files s ∧ phase s' = Idle ∧ mem_ s' = mem_ s.
Proof. unfold Finish. by destruct (Complete _ _ _ _). Qed.


Lemma Schedule_view other (s : DB F) :
  let s' := MaybeScheduleCompaction other s in
  imm_ s' = imm_ s ∧ bg_error_ s' = bg_error_ s ∧ level0_files s' = level0_files s ∧ phase s' = phase s ∧ writers_ s' = writers_ s ∧
  finished s' = finished s ∧ mem_ s' = mem_ s.
Proof. unfold MaybeScheduleCompaction. by repeat case_match. Qed.


(** The end of a background call, or of a flush: whoever slept is awake. *)
Lemma SignalAll_view (s : DB F) :
  let s' := SignalAll s in
  imm_ s' = imm_ s ∧ bg_error_ s' = bg_error_ s ∧ level0_files s' = level0_files s ∧ scheduled_ s' = scheduled_ s ∧ writers_ s' = writers_ s ∧
  finished s' = finished s ∧ mem_ s' = mem_ s ∧ (∀ force ad, phase s' ≠ Waiting force ad) ∧
  (∀ force ad, phase s = MakingRoom force ad ∨ phase s = Waiting force ad → phase s' = MakingRoom force ad) ∧
  (∀ force ad, phase s' = MakingRoom force ad → phase s = MakingRoom force ad ∨ phase s = Waiting force ad).
Proof. unfold SignalAll. destruct (phase s) eqn:E; cbn; rewrite ?E; naive_solver. Qed.





End scheduling.

(** ** Lemmas: a round of the queue *)

Section live.

Context (udom : bytes → Prop) (user : Comparator) (HL : ComparatorLaws udom user) (Hudom : ∀ u, udom u → bytes_ok u).
Context (MOD : Z) (Hlogs : (MOD <=? 6) || (MOD >=? 9) = true) (usage : MemTable → Z) (write_buffer_size : Z).

(** An empty memtable is below the size at which it is switched. *)
Context (Hnew : ∀ m, Empty m = true → usage m ≤ write_buffer_size).

Abbreviation dbstep := (dbstep user MOD usage write_buffer_size).
Abbreviation turn := (MakeRoom_turn usage write_buffer_size).





















End live.

(** ** Properties *)


(** ** Defects *)

Section defects.

Context {F : Type} (FAppend : F → bytes → F * bool) (FFlush FSync : F → F * bool) (FNew : F → Prop).
Context (MOD : Z) (user : Comparator) (usage : MemTable → Z) (write_buffer_size : Z).

Abbreviation astep := (step FAppend FFlush FSync FNew MOD user usage write_buffer_size).

(** No work is scheduled, and none can be. *)
Record stalled (s : DB F) : Prop := {
  sl_error : bg_error_ s = false; sl_scheduled : scheduled_ s = false; sl_imm : imm_ s = None; sl_level0 : kL0_StopWritesTrigger ≤ level0_files s
}.

Lemma stalled_Finish st last s : stalled s → stalled (Finish st last s).
Proof. intros [? ? ? ?]. destruct (Finish_background st last s) as (? & ? & ? & ? & _). split; congruence. Qed.

Lemma stalled_step s s' : stalled s → astep s s' → stalled s'.
Proof.
  intros Hst Hs. pose proof Hst as [Hb Hsc Hi Hl]. destruct Hs; try congruence; try (by apply stalled_Finish); try by split.
  - exfalso. unfold MakeRoom_turn in *. rewrite Hb, Hi, (proj2 (Z.geb_le _ _) Hl) in *. by repeat case_match.
  - unfold StartCommit. destruct (BuildBatchGroup _ _ _ _) as [[? ?] ?]. by split.
  - unfold Commit in *. repeat (case_match; simplify_option_eq); by apply stalled_Finish.
Qed.

(** Nobody wakes the leader. *)
Lemma asleep s s' force ad :
  phase s = Waiting force ad → scheduled_ s = false → rtc astep s s' → phase s' = Waiting force ad ∧ finished s' = finished s ∧ writers_ s `prefix_of` writers_ s'.
Proof.
  intros Hp Hs Hr. induction Hr as [|x y z Hxy _ IH]; [done|]. destruct Hxy; try congruence. destruct (IH Hp Hs) as (H1 & H2 & H3). split_and!; try done.
  etrans; [|exact H3]. cbn. by apply prefix_app_r.
Qed.

(** A call that needs room waits. *)
Lemma waits s w :
  stalled s → phase s = Idle → writers_ s = [] → q_batch w = None ∨ write_buffer_size < usage (mem_ s) → q_id w ∉ map (λ f, q_id f.1) (finished s) →
  ∃ s' force, rtc astep s s' ∧ writers_ s' = [w] ∧ phase s' = Waiting force false ∧ scheduled_ s' = false ∧ finished s' = finished s.
Proof.
  intros [Hb Hs Hi Hl] Hp Hq Hfull Hid. set (force := bool_decide (q_batch w = None)).
  set (s1 := set_writers (writers_ s ++ [w]) s). set (s2 := set_phase (MakingRoom force (negb force)) s1). set (s3 := set_phase (MakingRoom force false) s2).
  set (s4 := set_phase (Waiting force false) s3). exists s4, force. split; [|split_and!; try done; cbn; by rewrite Hq].
  eapply rtc_l; [apply step_enqueue; [by rewrite Hq; apply not_elem_of_nil|done]|]. fold s1.
  eapply rtc_l; [apply (step_lead _ _ _ _ _ _ _ _ s1 w []); [done|by cbn; rewrite Hq]|]. cbn zeta. fold force. fold s2.
  assert (rtc astep s3 s4) as H34.
  { apply rtc_once. eapply (step_wait _ _ _ _ _ _ _ _ s3); [done|]. unfold MakeRoom_turn. cbn. rewrite Hb, Hi, (proj2 (Z.geb_le _ _) Hl).
    replace (negb force && (usage (mem_ s) <=? write_buffer_size)) with false; [done|]. symmetry. apply andb_false_iff.
    destruct Hfull as [E|E]; [left; unfold force; by rewrite bool_decide_true|right; by apply Z.leb_gt]. }
  destruct force eqn:Ef; [by unfold s3, s2 in *|]. eapply rtc_l; [|exact H34]. eapply (step_delay _ _ _ _ _ _ _ _ s2); [done|]. unfold MakeRoom_turn. cbn.
  rewrite Hb, (proj2 (Z.geb_le _ _)); [done|]. unfold kL0_SlowdownWritesTrigger, kL0_StopWritesTrigger in *. lia.
Qed.

End defects.

(** C33: a database that is opened with twelve or more files in level 0 hangs as
    soon as its memtable is full. [DB::Open] no longer calls
    [MaybeScheduleCompaction], so that the database starts with no background work
    scheduled. In every state that it then reaches, over any files and in any
    mode, and in which no call is under way, a call of [Write] that finds the
    memtable full, or has a null batch, comes to wait for background work; from
    then on no step of the system lets any call return. (Manual compactions, which
    do schedule work, are not among the steps.) *)
Theorem open_hangs {F} (FAppend : F → bytes → F * bool) FFlush FSync FNew MOD user usage write_buffer_size log mem last_sequence n s w :
  kL0_StopWritesTrigger ≤ n →
  rtc (step FAppend FFlush FSync FNew MOD user usage write_buffer_size) (Opened log mem last_sequence n) s → phase s = Idle → writers_ s = [] →
  q_batch w = None ∨ write_buffer_size < usage (mem_ s) → q_id w ∉ map (λ f, q_id f.1) (finished s) →
  ∃ s', rtc (step FAppend FFlush FSync FNew MOD user usage write_buffer_size) s s' ∧ writers_ s' = [w] ∧
    ∀ s'', rtc (step FAppend FFlush FSync FNew MOD user usage write_buffer_size) s' s'' → w ∈ writers_ s'' ∧ finished s'' = finished s.
Proof.
  intros Hn Hr Hp Hq Hfull Hid.
  assert (stalled s) as Hst.
  { assert (stalled (Opened log mem last_sequence n)) as H0 by (by split). induction Hr as [|x y z Hxy _ IH]; [done|]. apply IH; try done. by eapply stalled_step. }
  destruct (waits FAppend FFlush FSync FNew MOD user usage write_buffer_size s w Hst Hp Hq Hfull Hid) as (s' & force & Hs' & Hw & Hph & Hsc & Hf).
  exists s'. split; [done|]. split; [done|]. intros s'' H. destruct (asleep _ _ _ _ _ _ _ _ s' s'' force false Hph Hsc H) as (_ & Hf' & Hpre).
  split; [|congruence]. rewrite Hw in Hpre. destruct Hpre as [l ->]. by left.
Qed.

(** A null batch on an empty memtable breaks the database. Such a batch, which
    [TEST_CompactMemTable] writes, makes the empty memtable immutable; writing it
    is an error, so that every background call that finds it records one, and
    the calls of [Write] fail from then on. *)
Theorem null_batch_poisons {F} other (s s' : DB F) m f :
  imm_ s = Some (m, f) → Empty m = true → bg_error_ s = false → BackgroundCall other s s' → bg_error_ s' = true ∧ imm_ s' = Some (m, f).
Proof.
  intros Hi He Hb Hc. destruct Hc as [s Hb'|s s' _ Hc]; [congruence|].
  assert (bg_error_ s' = true ∧ imm_ s' = Some (m, f)) as [E1 E2] by (destruct Hc as [s s' Hc| |]; [destruct Hc; cbn; split; congruence|congruence..]).
  destruct (SignalAll_view (MaybeScheduleCompaction other (set_scheduled false s'))) as (-> & -> & _).
  by destruct (Schedule_view other (set_scheduled false s')) as (-> & -> & _).
Qed.

(** ** Witnesses *)

Definition live_writer : QWriter := {| q_id := 1; q_batch := Some (batch_of 0 [OpPut [97] [1]]); q_sync := true |}.


(** As it is opened, with twelve files in level 0, and a memtable that is full. *)
Lemma open_hangs_witness :
  ∃ s' : DB bytes, writers_ s' = [live_writer] ∧
    ∀ s'', rtc (step Log.mem_Append Log.mem_Flush mem_Sync (λ f, f = []) 0 Bytewise.comparator (λ _, 5) 4) s' s'' → finished s'' = [].
Proof.
  destruct (open_hangs Log.mem_Append Log.mem_Flush mem_Sync (λ f, f = []) 0 Bytewise.comparator (λ _, 5) 4 (NewWriter [] 0) (Ref (NewMemTable Bytewise.comparator)) 0 12
    (Opened (NewWriter [] 0) (Ref (NewMemTable Bytewise.comparator)) 0 12) live_writer) as (s' & _ & Hw & H).
  - vm_compute. discriminate.
  - apply rtc_refl.
  - reflexivity.
  - reflexivity.
  - right. reflexivity.
  - apply not_elem_of_nil.
  - exists s'. split; [exact Hw|]. intros s'' Hs. exact (proj2 (H s'' Hs)).
Defined.
