(* ===== verification/Containers.v ===== *)
(** * std::set: an ordered set as the sorted list of its elements

    [std::set] keeps its elements in the order of a comparison functor, and an
    insertion of an element that is equivalent to one already there changes
    nothing. The version edit and the version builder use such sets. *)

From Stdlib Require Import Sorted.
From stdpp Require sorting.
From S2P Require Import Prelude.

Section std_set.

Context {A : Type} (lt : A → A → bool).

(** [insert]. *)
Fixpoint set_insert (x : A) (s : list A) : list A :=
  match s with
  | [] => [x]
  | y :: s' => if lt x y then x :: s else if lt y x then y :: set_insert x s' else s
  end.

(** The elements that [std::upper_bound] leaves before its result. *)
Fixpoint upper_split (x : A) (s : list A) : list A * list A :=
  match s with
  | [] => ([], [])
  | y :: s' => if lt x y then ([], s) else let '(a, b) := upper_split x s' in (y :: a, b)
  end.

(** A strict weak order: what the standard requires of the functor. *)
Class StrictWeak (dom : A → Prop) : Prop := {
  lt_irrefl x : dom x → lt x x = false;
  lt_trans x y z : dom x → dom y → dom z → lt x y = true → lt y z = true → lt x z = true;
  lt_cotrans x y z : dom x → dom y → dom z → lt x z = true → lt x y = true ∨ lt y z = true
}.

Definition ordered (s : list A) : Prop := StronglySorted (λ x y, lt x y = true) s.

Section laws.

Context (dom : A → Prop) {H : StrictWeak dom}.

Lemma set_insert_elem x s y : y ∈ set_insert x s → y = x ∨ y ∈ s.
Proof.
  induction s as [|z s IH]; cbn [set_insert]; [intros ->%list_elem_of_singleton; by left|].
  destruct (lt x z); [intros [->|?]%elem_of_cons; auto|]. destruct (lt z x); [|by right].
  rewrite !elem_of_cons. naive_solver.
Qed.

Lemma set_insert_Forall (P : A → Prop) x s : P x → Forall P s → Forall P (set_insert x s).
Proof.
  intros Hx Hs. apply Forall_forall. intros y [->|Hy]%set_insert_elem; [done|]. by eapply Forall_forall in Hs.
Qed.

Lemma set_insert_ordered x s : dom x → Forall dom s → ordered s → ordered (set_insert x s).
Proof.
  intros Hx. induction s as [|y s IH]; intros Hs Ho; cbn [set_insert]; [repeat constructor|].
  inversion_clear Hs as [|? ? Hy Hs']. inversion_clear Ho as [|? ? Ho' Hall].
  destruct (lt x y) eqn:Exy.
  - constructor; [by constructor|]. constructor; [done|]. apply Forall_forall. intros z Hz.
    eapply Forall_forall in Hall; [|done]. eapply Forall_forall in Hs'; [|done]. by eapply (lt_trans x y z).
  - destruct (lt y x) eqn:Eyx; [|by constructor]. constructor; [by apply IH|]. by apply set_insert_Forall.
Qed.

(** An element beyond all others goes to the end. *)
Lemma set_insert_last x s :
  dom x → Forall dom s → Forall (λ y, lt y x = true) s → set_insert x s = s ++ [x].
Proof.
  intros Hx. induction s as [|y s IH]; intros Hs Hlt; cbn [set_insert]; [done|].
  inversion_clear Hs as [|? ? Hy Hs']. inversion_clear Hlt as [|? ? Hyx Hlt'].
  destruct (lt x y) eqn:Exy.
  { pose proof (lt_trans x y x Hx Hy Hx Exy Hyx) as E. by rewrite lt_irrefl in E. }
  by rewrite Hyx, IH.
Qed.

(** Inserting the elements of an ordered list in order rebuilds it. *)
Lemma insert_ordered k s :
  Forall dom (s ++ k) → ordered (s ++ k) → foldl (λ s x, set_insert x s) s k = s ++ k.
Proof.
  revert s. induction k as [|x k IH]; intros s Hd Ho; cbn [foldl]; [by rewrite app_nil_r|].
  assert (s ++ x :: k = (s ++ [x]) ++ k) as E by (by rewrite <- app_assoc).
  rewrite set_insert_last; [rewrite IH; by rewrite <- ?E| | |].
  - apply Forall_app in Hd as [_ Hd]. by inversion Hd.
  - by apply Forall_app in Hd as [Hd _].
  - clear -Ho. induction s as [|y s IH]; [constructor|]. inversion_clear Ho as [|? ? Ho' Hall].
    constructor; [|by apply IH]. apply Forall_app in Hall as [_ Hall]. by inversion Hall.
Qed.

Lemma upper_split_app x s : (upper_split x s).1 ++ (upper_split x s).2 = s.
Proof.
  induction s as [|y s IH]; [done|]. cbn. destruct (lt x y); [done|].
  destruct (upper_split x s) as [a b]. cbn in *. by rewrite IH.
Qed.

End laws.

End std_set.

#[global] Arguments StrictWeak {A} lt dom.
#[global] Arguments ordered {A} lt s.

(** The order of [std::pair<int, uint64_t>]. *)
Definition pair_lt (a b : Z * Z) : bool :=
  if a.1 <? b.1 then true else if b.1 <? a.1 then false else a.2 <? b.2.

Lemma pair_lt_spec a b : pair_lt a b = true ↔ a.1 < b.1 ∨ a.1 = b.1 ∧ a.2 < b.2.
Proof. unfold pair_lt. repeat case_if; rewrite ?Z.ltb_lt; split; try done; lia. Qed.

#[export] Instance pair_lt_strict : StrictWeak pair_lt (λ _, True).
Proof.
  split.
  - intros x _. apply not_true_iff_false. rewrite pair_lt_spec. lia.
  - intros x y z _ _ _. rewrite !pair_lt_spec. lia.
  - intros x y z _ _ _. rewrite !pair_lt_spec. lia.
Qed.

(** ** Lemmas: elements and uniqueness *)

Section elements.

Context {A : Type} (lt : A → A → bool) (dom : A → Prop) {H : StrictWeak lt dom}.

(** Elements that the order does not tell apart are equal. *)
Context (Htotal : ∀ x y, dom x → dom y → lt x y = false → lt y x = false → x = y).

Lemma set_insert_iff x s y : dom x → Forall dom s → y ∈ set_insert lt x s ↔ y = x ∨ y ∈ s.
Proof.
  intros Hx Hs. split; [apply set_insert_elem|]. induction Hs as [|z s Hz Hs IH]; cbn [set_insert].
  - intros [->|Hy]; [by left|by apply not_elem_of_nil in Hy].
  - destruct (lt x z) eqn:E1; [rewrite !elem_of_cons; tauto|]. destruct (lt z x) eqn:E2; [rewrite !elem_of_cons; tauto|].
    rewrite (Htotal x z) by done. rewrite !elem_of_cons. tauto.
Qed.

Lemma ordered_NoDup s : Forall dom s → ordered lt s → NoDup s.
Proof.
  intros Hs Ho. induction Ho as [|x s Ho IH Hx]; [constructor|]. inversion_clear Hs as [|? ? Hdx Hds]. constructor; [|by apply IH].
  intros Hin. rewrite Forall_forall in Hx. specialize (Hx x Hin). cbn in Hx. rewrite (lt_irrefl lt x) in Hx by done. done.
Qed.

Lemma ordered_unique s t :
  Forall dom s → Forall dom t → ordered lt s → ordered lt t → (∀ x, x ∈ s ↔ x ∈ t) → s = t.
Proof.
  intros Hs Ht Hos Hot Heq. apply (sorting.StronglySorted_unique_strong (λ x y, lt x y = true)); [|done|done|].
  - intros x y Hx Hy H1 H2. rewrite Forall_forall in Hs, Ht. specialize (Hs x Hx). specialize (Ht y Hy).
    pose proof (lt_trans lt x y x Hs Ht Hs H1 H2) as E. by rewrite (lt_irrefl lt) in E.
  - apply NoDup_Permutation; [by apply ordered_NoDup..|done].
Qed.

(** [std::upper_bound] in an ordered list without the element. *)
Lemma upper_split_ordered x s a b :
  dom x → Forall dom s → ordered lt s → x ∉ s → upper_split lt x s = (a, b) →
  s = a ++ b ∧ Forall (λ y, lt y x = true) a ∧ Forall (λ y, lt x y = true) b.
Proof.
  intros Hx. revert a. induction s as [|y s IH]; intros a Hs Ho Hnin; cbn [upper_split].
  { intros [= <- <-]. done. }
  inversion_clear Hs as [|? ? Hy Hs']. inversion_clear Ho as [|? ? Ho' Hall]. rewrite not_elem_of_cons in Hnin. destruct Hnin as [Hne Hnin].
  destruct (lt x y) eqn:E.
  - intros [= <- <-]. split; [done|]. split; [constructor|]. constructor; [done|]. rewrite Forall_forall in Hall, Hs' |- *.
    intros z Hz. apply (lt_trans lt x y z); auto.
  - destruct (upper_split lt x s) as [a' b'] eqn:Es. intros [= <- <-]. destruct (IH a' Hs' Ho' Hnin eq_refl) as (-> & Ha & Hb).
    split; [done|]. split; [|done]. constructor; [|done]. destruct (lt y x) eqn:E2; [done|]. by destruct Hne; apply Htotal.
Qed.

End elements.
