(* ===== verification/VersionEdit.v ===== *)
(** * db/version_edit.cc: the records of the manifest

    A version edit lists the files that a flush or a compaction adds and
    deletes, with the counters of the version set. Its fields, the encoding and
    the decoder; what is written is read back. *)

From Stdlib Require Import Sorted.
From S2P Require Import Prelude Coding Dependency Containers.

(** ** Data *)

(** [refs] belongs to the memory management and is left out. *)
Record FileMetaData := {
  number : Z;
  file_size : Z;
  smallest : bytes;
  largest : bytes;
  allowed_seeks : Z;
  num_keys : Z;
  invalid_count : Z
}.

(** What [AddFile] and the decoder fill in; the rest as constructed. *)
Definition NewFileMeta (number file_size : Z) (smallest largest : bytes) : FileMetaData := {|
  number := number; file_size := file_size; smallest := smallest; largest := largest;
  allowed_seeks := Z.shiftl 1 30; num_keys := 0; invalid_count := 0 |}.

(** An optional field is the value with its [has_] flag. [dep_] is the map of
    the union-find. *)
Record VersionEdit := {
  comparator_ : option bytes;
  log_number_ : option Z;
  prev_log_number_ : option Z;
  next_file_number_ : option Z;
  last_sequence_ : option Z;
  compact_pointers_ : list (Z * bytes);
  compact_vpointers_ : list (Z * bytes);
  deleted_files_ : list (Z * Z);
  deleted_vfiles_ : list (Z * Z);
  new_files_ : list (Z * FileMetaData);
  new_vfiles_ : list (Z * FileMetaData);
  dep_ : gmap Z Z
}.

Definition NewVersionEdit : VersionEdit := {|
  comparator_ := None; log_number_ := None; prev_log_number_ := None; next_file_number_ := None; last_sequence_ := None;
  compact_pointers_ := []; compact_vpointers_ := []; deleted_files_ := []; deleted_vfiles_ := [];
  new_files_ := []; new_vfiles_ := []; dep_ := ∅ |}.

(** The compaction pointers and the dependencies stay. *)
Definition Clear (e : VersionEdit) : VersionEdit := {|
  comparator_ := None; log_number_ := None; prev_log_number_ := None; next_file_number_ := None; last_sequence_ := None;
  compact_pointers_ := compact_pointers_ e; compact_vpointers_ := compact_vpointers_ e;
  deleted_files_ := []; deleted_vfiles_ := []; new_files_ := []; new_vfiles_ := []; dep_ := dep_ e |}.

(** ** Setters *)

Definition with_counters (c : option bytes) (l p n s : option Z) (e : VersionEdit) : VersionEdit := {|
  comparator_ := c; log_number_ := l; prev_log_number_ := p; next_file_number_ := n; last_sequence_ := s;
  compact_pointers_ := compact_pointers_ e; compact_vpointers_ := compact_vpointers_ e;
  deleted_files_ := deleted_files_ e; deleted_vfiles_ := deleted_vfiles_ e;
  new_files_ := new_files_ e; new_vfiles_ := new_vfiles_ e; dep_ := dep_ e |}.

Definition with_files (cp cv : list (Z * bytes)) (df dv : list (Z * Z)) (nf nv : list (Z * FileMetaData)) (d : gmap Z Z)
    (e : VersionEdit) : VersionEdit := {|
  comparator_ := comparator_ e; log_number_ := log_number_ e; prev_log_number_ := prev_log_number_ e;
  next_file_number_ := next_file_number_ e; last_sequence_ := last_sequence_ e;
  compact_pointers_ := cp; compact_vpointers_ := cv; deleted_files_ := df; deleted_vfiles_ := dv;
  new_files_ := nf; new_vfiles_ := nv; dep_ := d |}.

Definition SetComparatorName (name : bytes) (e : VersionEdit) : VersionEdit :=
  with_counters (Some name) (log_number_ e) (prev_log_number_ e) (next_file_number_ e) (last_sequence_ e) e.
Definition SetLogNumber (num : Z) (e : VersionEdit) : VersionEdit :=
  with_counters (comparator_ e) (Some num) (prev_log_number_ e) (next_file_number_ e) (last_sequence_ e) e.
Definition SetPrevLogNumber (num : Z) (e : VersionEdit) : VersionEdit :=
  with_counters (comparator_ e) (log_number_ e) (Some num) (next_file_number_ e) (last_sequence_ e) e.
Definition SetNextFile (num : Z) (e : VersionEdit) : VersionEdit :=
  with_counters (comparator_ e) (log_number_ e) (prev_log_number_ e) (Some num) (last_sequence_ e) e.
Definition SetLastSequence (seq : Z) (e : VersionEdit) : VersionEdit :=
  with_counters (comparator_ e) (log_number_ e) (prev_log_number_ e) (next_file_number_ e) (Some seq) e.

Definition SetCompactPointer (level : Z) (key : bytes) (e : VersionEdit) : VersionEdit :=
  with_files (compact_pointers_ e ++ [(level, key)]) (compact_vpointers_ e) (deleted_files_ e) (deleted_vfiles_ e)
    (new_files_ e) (new_vfiles_ e) (dep_ e) e.
Definition SetCompactVPointer (level : Z) (key : bytes) (e : VersionEdit) : VersionEdit :=
  with_files (compact_pointers_ e) (compact_vpointers_ e ++ [(level, key)]) (deleted_files_ e) (deleted_vfiles_ e)
    (new_files_ e) (new_vfiles_ e) (dep_ e) e.
Definition DeleteFile (level file : Z) (e : VersionEdit) : VersionEdit :=
  with_files (compact_pointers_ e) (compact_vpointers_ e) (set_insert pair_lt (level, file) (deleted_files_ e))
    (deleted_vfiles_ e) (new_files_ e) (new_vfiles_ e) (dep_ e) e.
Definition DeleteVFile (level file : Z) (e : VersionEdit) : VersionEdit :=
  with_files (compact_pointers_ e) (compact_vpointers_ e) (deleted_files_ e)
    (set_insert pair_lt (level, file) (deleted_vfiles_ e)) (new_files_ e) (new_vfiles_ e) (dep_ e) e.
Definition push_new_file (level : Z) (f : FileMetaData) (e : VersionEdit) : VersionEdit :=
  with_files (compact_pointers_ e) (compact_vpointers_ e) (deleted_files_ e) (deleted_vfiles_ e)
    (new_files_ e ++ [(level, f)]) (new_vfiles_ e) (dep_ e) e.
Definition push_new_vfile (level : Z) (f : FileMetaData) (e : VersionEdit) : VersionEdit :=
  with_files (compact_pointers_ e) (compact_vpointers_ e) (deleted_files_ e) (deleted_vfiles_ e)
    (new_files_ e) (new_vfiles_ e ++ [(level, f)]) (dep_ e) e.
Definition AddFile (level file file_size : Z) (smallest largest : bytes) : VersionEdit → VersionEdit :=
  push_new_file level (NewFileMeta file file_size smallest largest).
Definition AddVFile (level file file_size : Z) (smallest largest : bytes) : VersionEdit → VersionEdit :=
  push_new_vfile level (NewFileMeta file file_size smallest largest).

(** [SetParent] with fuel for the longest chain: an entry per link. *)
Definition dep_SetParent (parent child : Z) (m : gmap Z Z) : option (gmap Z Z) :=
  UnionFind.SetParent (S (size m)) parent child m.

(** [for (it : dep_map_) SetParent(it.second, it.first)]. *)
Definition ReplayDependencies (deps : list (Z * Z)) (acc : gmap Z Z) : option (gmap Z Z) :=
  foldl (λ acc p, acc ← acc; dep_SetParent p.2 p.1 acc) (Some acc) deps.

Definition AddDependency (parent child : Z) (e : VersionEdit) : option VersionEdit :=
  d ← dep_SetParent parent child (dep_ e);
  Some (with_files (compact_pointers_ e) (compact_vpointers_ e) (deleted_files_ e) (deleted_vfiles_ e)
    (new_files_ e) (new_vfiles_ e) d e).

(** ** EncodeTo *)

Definition kComparator : Z := 1.
Definition kLogNumber : Z := 2.
Definition kNextFileNumber : Z := 3.
Definition kLastSequence : Z := 4.
Definition kCompactPointer : Z := 5.
Definition kDeletedFile : Z := 6.
Definition kNewFile : Z := 7.
Definition kPrevLogNumber : Z := 9.
Definition kCompactVPointer : Z := 10.
Definition kDeletedVFile : Z := 11.
Definition kNewVFile : Z := 12.
Definition kDependency : Z := 13.

Definition put_number (tag : Z) (n : option Z) (dst : bytes) : bytes :=
  match n with Some n => PutVarint64 (PutVarint32 dst tag) n | None => dst end.

Definition put_pointer (tag : Z) (dst : bytes) (p : Z * bytes) : bytes :=
  PutLengthPrefixedSlice (PutVarint32 (PutVarint32 dst tag) (u32 p.1)) p.2.

Definition put_deleted (tag : Z) (dst : bytes) (p : Z * Z) : bytes :=
  PutVarint64 (PutVarint32 (PutVarint32 dst tag) (u32 p.1)) p.2.

Definition put_file (tag : Z) (dst : bytes) (p : Z * FileMetaData) : bytes :=
  let f := p.2 in
  let dst := PutVarint32 (PutVarint32 dst tag) (u32 p.1) in
  let dst := PutVarint64 (PutVarint64 dst (number f)) (file_size f) in
  PutLengthPrefixedSlice (PutLengthPrefixedSlice dst (smallest f)) (largest f).

Definition put_dependency (dst : bytes) (p : Z * Z) : bytes :=
  PutVarint64 (PutVarint64 (PutVarint32 dst kDependency) p.1) p.2.

(** [InternalKey::Encode]: [None] is its abort on an empty key. *)
Definition Encode (rep : bytes) : option bytes := match rep with [] => None | _ => Some rep end.

(** The keys that [EncodeTo] encodes. *)
Definition edit_keys (e : VersionEdit) : list bytes :=
  (compact_pointers_ e).*2 ++ (compact_vpointers_ e).*2 ++
  mjoin ((λ p : Z * FileMetaData, [smallest p.2; largest p.2]) <$> (new_files_ e ++ new_vfiles_ e)).

(** The bytes when no call of [Encode] aborts; [deps] is [dep_map_] in the order
    its iterator has. *)
Definition EncodeFields (e : VersionEdit) (deps : list (Z * Z)) (dst : bytes) : bytes :=
  let dst := match comparator_ e with
             | Some name => PutLengthPrefixedSlice (PutVarint32 dst kComparator) name | None => dst end in
  let dst := put_number kLogNumber (log_number_ e) dst in
  let dst := put_number kPrevLogNumber (prev_log_number_ e) dst in
  let dst := put_number kNextFileNumber (next_file_number_ e) dst in
  let dst := put_number kLastSequence (last_sequence_ e) dst in
  let dst := foldl (put_pointer kCompactPointer) dst (compact_pointers_ e) in
  let dst := foldl (put_pointer kCompactVPointer) dst (compact_vpointers_ e) in
  let dst := foldl (put_deleted kDeletedFile) dst (deleted_files_ e) in
  let dst := foldl (put_deleted kDeletedVFile) dst (deleted_vfiles_ e) in
  let dst := foldl (put_file kNewFile) dst (new_files_ e) in
  let dst := foldl (put_file kNewVFile) dst (new_vfiles_ e) in
  foldl put_dependency dst deps.

(** [None]: the process aborts. *)
Definition EncodeTo (e : VersionEdit) (deps : list (Z * Z)) (dst : bytes) : option bytes :=
  _ ← mapM Encode (edit_keys e); Some (EncodeFields e deps dst).

(** ** DecodeFrom *)

Inductive EditError :=
  | ComparatorName | LogNumberEntry | PreviousLogNumber | NextFileNumber | LastSequenceNumber
  | CompactionPointer | CompactionVPointer | DeletedFileEntry | DeletedVFileEntry
  | NewFileEntry | NewVFileEntry | DependencyEntry | UnknownTag | InvalidTag.

Definition kNumLevels : Z := 7.

Definition GetInternalKey (input : bytes) : option (bytes * bytes) := GetLengthPrefixedSlice input.

Definition GetLevel (input : bytes) : option (Z * bytes) :=
  match GetVarint32 input with
  | Some (v, q) => if v <? kNumLevels then Some (v, q) else None
  | None => None
  end.

Definition GetPointer (input : bytes) : option (Z * bytes * bytes) :=
  '(level, q) ← GetLevel input; '(key, q) ← GetInternalKey q; Some (level, key, q).

Definition GetDeleted (input : bytes) : option (Z * Z * bytes) :=
  '(level, q) ← GetLevel input; '(n, q) ← GetVarint64 q; Some (level, n, q).

Definition GetFile (input : bytes) : option (Z * FileMetaData * bytes) :=
  '(level, q) ← GetLevel input; '(n, q) ← GetVarint64 q; '(sz, q) ← GetVarint64 q;
  '(s, q) ← GetInternalKey q; '(l, q) ← GetInternalKey q; Some (level, NewFileMeta n sz s l, q).

Definition GetDependency (input : bytes) : option (Z * Z * bytes) :=
  '(child, q) ← GetVarint64 input; '(parent, q) ← GetVarint64 q; Some (child, parent, q).

(** A field that was read, or the message. *)
Definition field {A} (r : option (A * bytes)) (error : EditError) (set : A → VersionEdit → VersionEdit) (e : VersionEdit)
    : option (VersionEdit * (bytes + EditError)) :=
  Some (match r with Some (v, input) => (set v e, inl input) | None => (e, inr error) end).

(** The [switch]; the outer [None] is out of fuel in [SetParent]. *)
Definition DecodeField (tag : Z) (input : bytes) (e : VersionEdit) : option (VersionEdit * (bytes + EditError)) :=
  if tag =? kComparator then field (GetLengthPrefixedSlice input) ComparatorName SetComparatorName e
  else if tag =? kLogNumber then field (GetVarint64 input) LogNumberEntry SetLogNumber e
  else if tag =? kPrevLogNumber then field (GetVarint64 input) PreviousLogNumber SetPrevLogNumber e
  else if tag =? kNextFileNumber then field (GetVarint64 input) NextFileNumber SetNextFile e
  else if tag =? kLastSequence then field (GetVarint64 input) LastSequenceNumber SetLastSequence e
  else if tag =? kCompactPointer then field (GetPointer input) CompactionPointer (λ p, SetCompactPointer p.1 p.2) e
  else if tag =? kCompactVPointer then field (GetPointer input) CompactionVPointer (λ p, SetCompactVPointer p.1 p.2) e
  else if tag =? kDeletedFile then field (GetDeleted input) DeletedFileEntry (λ p, DeleteFile p.1 p.2) e
  else if tag =? kDeletedVFile then field (GetDeleted input) DeletedVFileEntry (λ p, DeleteVFile p.1 p.2) e
  else if tag =? kNewFile then field (GetFile input) NewFileEntry (λ p, push_new_file p.1 p.2) e
  else if tag =? kNewVFile then field (GetFile input) NewVFileEntry (λ p, push_new_vfile p.1 p.2) e
  else if tag =? kDependency then
    match GetDependency input with
    | Some (child, parent, q) => e ← AddDependency parent child e; Some (e, inl q)
    | None => Some (e, inr DependencyEntry)
    end
  else Some (e, inr UnknownTag).

(** The loop and the test after it. *)
Fixpoint DecodeFrom_loop (fuel : nat) (input : bytes) (e : VersionEdit) : option (VersionEdit * option EditError) :=
  match fuel with
  | O => None
  | S fuel' =>
      match GetVarint32 input with
      | Some (tag, q) =>
          '(e, r) ← DecodeField tag q e;
          match r with
          | inl input => DecodeFrom_loop fuel' input e
          | inr msg => Some (e, Some msg)
          end
      | None => Some (e, match input with [] => None | _ => Some InvalidTag end)
      end
  end.

Definition DecodeFrom (src : bytes) (e : VersionEdit) : option (VersionEdit * option EditError) :=
  DecodeFrom_loop (S (length src)) src (Clear e).

(** ** Lemmas: chains of the union-find are no longer than its map *)

Module DepProofs.
Import UnionFindProofs.

(** The nodes on the way from [x] to its representative. *)
Lemma roots_nodes m x d r :
  roots m x d r →
  ∃ l, length l = d ∧ NoDup l ∧ ∀ y, y ∈ l → is_Some (m !! y) ∧ ∃ e, roots m y e r ∧ (1 ≤ e ≤ d)%nat.
Proof.
  induction 1 as [x Hx|x Hx|x p d r Hx Hne Hp (l & Hl & Hnd & Hin)].
  1-2: exists []; split_and!; [done|constructor|by intros y Hy%not_elem_of_nil].
  assert (roots m x (S d) r) as Hr by (by apply (roots_up _ _ p)).
  exists (x :: l). split_and!.
  - cbn. by rewrite Hl.
  - constructor; [|done]. intros Hin'. destruct (Hin x Hin') as (_ & e & He & Hle).
    destruct (roots_det _ _ _ _ _ _ Hr He). lia.
  - intros y [->|Hy]%elem_of_cons.
    + split; [by rewrite Hx|]. exists (S d). split; [done|lia].
    + destruct (Hin y Hy) as (? & e & He & ?). split; [done|]. exists e. split; [done|lia].
Qed.

Lemma roots_size m x d r : roots m x d r → (d ≤ size m)%nat.
Proof.
  intros (l & <- & Hnd & Hin)%roots_nodes. rewrite <- size_dom, <- (size_list_to_set (C := gset Z) l) by done.
  apply subseteq_size. intros y Hy%elem_of_list_to_set. apply elem_of_dom. by apply Hin.
Qed.

(** Every chain ends. *)
Definition acyclic (m : gmap Z Z) : Prop := ∀ x, ∃ d r, roots m x d r.

Lemma acyclic_forest m : acyclic m → forest (S (size m)) m.
Proof. intros H x. destruct (H x) as (d & r & Hr). exists d, r. split; [done|]. apply roots_size in Hr. lia. Qed.

Definition rep (m : gmap Z Z) (x r : Z) : Prop := ∃ d, roots m x d r.

Lemma rep_det m x r r' : rep m x r → rep m x r' → r = r'.
Proof. intros [d H] [d' H']. by destruct (roots_det _ _ _ _ _ _ H H'). Qed.

(** Linking the class of [child] to that of [parent]. *)
Lemma dep_SetParent_rep parent child m r1 r2 :
  acyclic m → rep m parent r1 → rep m child r2 →
  ∃ m', dep_SetParent parent child m = Some m' ∧ acyclic m' ∧
    ∀ y s, rep m y s → rep m' y (if s =? r2 then r1 else s).
Proof.
  intros Ha [d1 H1] [d2 H2]. unfold dep_SetParent.
  destruct (SetParent_ok (S (size m)) parent child m d1 r1 d2 r2 (acyclic_forest m Ha) H1 H2) as (m' & Hm & Hl).
  exists m'. split; [done|]. split.
  - intros x. destruct (Ha x) as (d & r & Hx). destruct (Hl _ _ _ Hx) as (e & _ & He). eauto.
  - intros y s [d Hy]. destruct (Hl _ _ _ Hy) as (e & _ & He). by exists e.
Qed.

Lemma acyclic_empty : acyclic ∅.
Proof. intros x. exists 0%nat, x. by apply roots_none. Qed.

Lemma dep_SetParent_total parent child m :
  acyclic m → ∃ m', dep_SetParent parent child m = Some m' ∧ acyclic m'.
Proof.
  intros Ha. destruct (Ha parent) as (d1 & r1 & H1), (Ha child) as (d2 & r2 & H2).
  destruct (dep_SetParent_rep parent child m r1 r2) as (m' & ? & ? & _); [done|by exists d1|by exists d2|eauto].
Qed.

(** File numbers fit their type. *)
Definition links_ok (m : gmap Z Z) : Prop := map_Forall (λ x p, u64_ok x ∧ u64_ok p) m.

Lemma FindParent_links fuel child m r m' :
  u64_ok child → links_ok m → UnionFind.FindParent fuel child m = Some (r, m') → u64_ok r ∧ links_ok m'.
Proof.
  revert child m r m'. induction fuel as [|fuel IH]; intros child m r m' Hc Hm; [done|]. cbn [UnionFind.FindParent].
  set (m1 := match m !! child with None => <[child := child]> m | Some _ => m end).
  assert (links_ok m1) as H1 by (unfold m1; destruct (m !! child); [done|by apply map_Forall_insert_2]).
  assert (u64_ok (default child (m1 !! child))) as Hp.
  { destruct (m1 !! child) as [p|] eqn:E; [|done]. by apply (H1 _ _ E). }
  destruct (negb _); [|by intros [= <- <-]].
  destruct (UnionFind.FindParent fuel _ m1) as [[r2 m2]|] eqn:E; [|done]. intros [= <- <-].
  destruct (IH _ _ _ _ Hp H1 E) as [Hr Hm2]. split; [done|]. by apply map_Forall_insert_2.
Qed.

Lemma dep_SetParent_links parent child m m' :
  u64_ok parent → u64_ok child → links_ok m → dep_SetParent parent child m = Some m' → links_ok m'.
Proof.
  intros Hp Hc Hm. unfold dep_SetParent, UnionFind.SetParent.
  destruct (UnionFind.FindParent _ parent m) as [[r1 m1]|] eqn:E1; [|done]. cbn [mbind option_bind].
  destruct (FindParent_links _ _ _ _ _ Hp Hm E1) as [H1 Hm1].
  destruct (UnionFind.FindParent _ child m1) as [[r2 m2]|] eqn:E2; [|done]. cbn [mbind option_bind].
  destruct (FindParent_links _ _ _ _ _ Hc Hm1 E2) as [H2 Hm2].
  destruct (r1 =? r2); intros [= <-]; [done|]. by apply map_Forall_insert_2.
Qed.

End DepProofs.

(** ** Lemmas: replaying the links of a forest, in any order *)

Module ReplayProofs.
Import UnionFindProofs DepProofs.

Lemma acyclic_sub m sub : sub ⊆ m → acyclic m → acyclic sub.
Proof.
  intros Hsub Ha x. destruct (Ha x) as (d & r & Hr).
  induction Hr as [x Hx|x Hx|x p d r Hx Hne Hp IH]; destruct (sub !! x) as [q|] eqn:E; try (by exists 0%nat, x; apply roots_none).
  - eapply lookup_weaken in E; [|done]. congruence.
  - pose proof (lookup_weaken _ _ _ _ E Hsub). simplify_eq. exists 0%nat, x. by apply roots_self.
  - pose proof (lookup_weaken _ _ _ _ E Hsub). simplify_eq. destruct IH as (d' & r' & H'). exists (S d'), r'. by apply (roots_up _ _ p).
Qed.

(** A chain that does not end in [x] does not see the new link of [x]. *)
Lemma roots_frame m x p y d s : m !! x = None → roots m y d s → s ≠ x → roots (<[x := p]> m) y d s.
Proof.
  intros Hx. induction 1 as [y Hy|y Hy|y q d s Hy Hne Hq IH]; intros Hs.
  - apply roots_none. by rewrite lookup_insert_ne.
  - apply roots_self. by rewrite lookup_insert_ne.
  - apply (roots_up _ _ q); [|done|by apply IH]. rewrite lookup_insert_ne; [done|congruence].
Qed.

(** A chain that ends in [x] goes on from there. *)
Lemma roots_through m x p y k e s :
  m !! x = None → roots m y k x → roots (<[x := p]> m) y e s → ∃ e', (e' ≤ e)%nat ∧ roots (<[x := p]> m) x e' s.
Proof.
  intros Hx Hy. remember x as z eqn:Ez in Hy. revert e Ez.
  induction Hy as [y Hy|y Hy|y q k z Hy Hne Hq IH]; intros e Ez He; subst; [by exists e|congruence|].
  assert (y ≠ x) as Hyx by congruence.
  inversion He as [? E|? E|? q' e' ? E Hne' Hq']; subst; rewrite lookup_insert_ne in E by done; simplify_eq.
  destruct (IH e' eq_refl Hq') as (e2 & ? & ?). exists e2. split; [lia|done].
Qed.

(** A new link of a node without one. *)
Lemma rep_new_link m x p r1 y s :
  m !! x = None → p ≠ x → acyclic (<[x := p]> m) → rep m p r1 → rep m y s →
  rep (<[x := p]> m) y (if s =? x then r1 else s).
Proof.
  intros Hx Hpx Ha [k Hp] [d Hy].
  assert (r1 ≠ x) as Hr1.
  { intros ->. destruct (Ha x) as (D & R & HR).
    inversion HR as [? E|? E|? q D' ? E Hne Hq]; subst; rewrite lookup_insert_eq in E; simplify_eq.
    destruct (roots_through m x q q k D' R Hx Hp Hq) as (e' & ? & He'). destruct (roots_det _ _ _ _ _ _ HR He'). lia. }
  assert (rep (<[x := p]> m) x r1) as Hxr.
  { exists (S k). apply (roots_up _ _ p); [by rewrite lookup_insert_eq|done|by apply roots_frame]. }
  destruct (Z.eqb_spec s x) as [->|Hs]; [|exists d; by apply roots_frame].
  remember x as z eqn:Ez in Hy. induction Hy as [y Hy|y Hy|y q d z Hy Hne Hq IH]; subst; [done|congruence|].
  destruct IH as [e He]; [done|]. exists (S e). apply (roots_up _ _ q); [|done|done].
  rewrite lookup_insert_ne; [done|congruence].
Qed.

Lemma rep_self_link m x y s : m !! x = None → rep m y s → rep (<[x := x]> m) y s.
Proof.
  intros Hx [d Hy]. exists d. induction Hy as [y Hy|y Hy|y q d s Hy Hne Hq IH].
  - destruct (decide (y = x)) as [->|]; [apply roots_self; by rewrite lookup_insert_eq|].
    apply roots_none. by rewrite lookup_insert_ne.
  - apply roots_self. rewrite lookup_insert_ne; [done|congruence].
  - apply (roots_up _ _ q); [|done|done]. rewrite lookup_insert_ne; [done|congruence].
Qed.

(** [sub] is the part of [m] that was replayed into [acc]. *)
Lemma replay_step m sub acc x p :
  acyclic m → m !! x = Some p → sub !! x = None → sub ⊆ m → acyclic acc → (∀ y s, rep sub y s → rep acc y s) →
  ∃ acc', dep_SetParent p x acc = Some acc' ∧ acyclic acc' ∧ <[x := p]> sub ⊆ m ∧
    ∀ y s, rep (<[x := p]> sub) y s → rep acc' y s.
Proof.
  intros Ha Hm Hx Hsub Hacc Hrep. assert (<[x := p]> sub ⊆ m) as Hsub' by by apply insert_subseteq_l.
  pose proof (acyclic_sub _ _ Hsub' Ha) as Ha'. pose proof (acyclic_sub _ _ Hsub Ha) as Has.
  destruct (Has p) as (k & r1 & Hp). assert (rep sub p r1) as Hpr by by exists k.
  assert (rep sub x x) as Hxx by (exists 0%nat; by apply roots_none).
  destruct (dep_SetParent_rep p x acc r1 x Hacc (Hrep _ _ Hpr) (Hrep _ _ Hxx)) as (acc' & Hset & Hacc' & Hl).
  exists acc'. split_and!; [done|done|done|]. intros y s Hy.
  destruct (Has y) as (d0 & s0 & Hy0). assert (rep sub y s0) as Hys by by exists d0.
  destruct (decide (p = x)) as [->|Hpx].
  - assert (r1 = x) as -> by by eapply rep_det.
    assert (s = s0) as E by (eapply rep_det; [done|by apply rep_self_link]). rewrite E.
    specialize (Hl y s0 (Hrep _ _ Hys)). by destruct (Z.eqb_spec s0 x) as [<-|].
  - assert (s = if s0 =? x then r1 else s0) as -> by (eapply rep_det; [done|by eapply rep_new_link]).
    by apply Hl, Hrep.
Qed.

Lemma replay_ok m deps sub acc :
  acyclic m → deps ⊆+ map_to_list m → NoDup deps.*1 → (∀ x, x ∈ deps.*1 → sub !! x = None) →
  sub ⊆ m → acyclic acc → (∀ y s, rep sub y s → rep acc y s) →
  ∃ acc' sub', ReplayDependencies deps acc = Some acc' ∧ acyclic acc' ∧ (∀ y s, rep sub' y s → rep acc' y s) ∧
    sub' = list_to_map deps ∪ sub.
Proof.
  intros Ha. revert sub acc. induction deps as [|[x p] deps IH]; intros sub acc Hin Hnd Hfresh Hsub Hacc Hrep.
  { exists acc, sub. split_and!; [done|done|done|]. rewrite list_to_map_nil. by rewrite (left_id_L ∅ (∪)). }
  cbn in Hnd. inversion_clear Hnd as [|? ? Hx Hnd'].
  assert (m !! x = Some p) as Hm.
  { apply elem_of_map_to_list. eapply elem_of_submseteq; [|exact Hin]. apply elem_of_cons. by left. }
  destruct (replay_step m sub acc x p) as (acc1 & Hs1 & Hacc1 & Hsub1 & Hrep1); [done..| |done|done|done|].
  { apply Hfresh, elem_of_cons. by left. }
  destruct (IH (<[x := p]> sub) acc1) as (acc' & sub' & Hr & Hacc' & Hrep' & Hsub'); [| | |done..|].
  { etrans; [|exact Hin]. apply submseteq_cons; done. }
  { done. }
  { intros y Hy. rewrite lookup_insert_ne by (intros ->; done). apply Hfresh, elem_of_cons. by right. }
  exists acc', sub'. split_and!; [|done|done|].
  - unfold ReplayDependencies in *. cbn [foldl mbind option_bind fst snd]. by rewrite Hs1.
  - rewrite Hsub', list_to_map_cons. rewrite <- insert_union_r, insert_union_l; [done|].
    by apply not_elem_of_list_to_map_1.
Qed.

(** The replayed forest has the same representatives. *)
Lemma replay_map m deps :
  acyclic m → deps ≡ₚ map_to_list m →
  ∃ acc, ReplayDependencies deps ∅ = Some acc ∧ acyclic acc ∧ ∀ y s, rep m y s ↔ rep acc y s.
Proof.
  intros Ha Hp. assert (NoDup deps.*1) as Hnd by (rewrite Hp; apply NoDup_fst_map_to_list).
  destruct (replay_ok m deps ∅ ∅) as (acc & sub & Hr & Hacc & Hrep & Hsub);
    [done|by rewrite Hp|done|done|apply map_empty_subseteq|apply acyclic_empty|done|].
  exists acc. split; [done|]. split; [done|].
  assert (sub = m) as ->.
  { rewrite Hsub, (right_id_L ∅ (∪)), <- (list_to_map_to_list m). by apply list_to_map_proper. }
  intros y s. split; [apply Hrep|]. intros Hs. destruct (Ha y) as (d & r & Hy).
  assert (s = r) as -> by (eapply rep_det; [done|]; apply Hrep; by exists d). by exists d.
Qed.

End ReplayProofs.

(** ** Lemmas: the records of an edit *)

Inductive EditRecord :=
  | RComparator (name : bytes)
  | RLogNumber (n : Z) | RPrevLogNumber (n : Z) | RNextFile (n : Z) | RLastSequence (n : Z)
  | RPointer (p : Z * bytes) | RVPointer (p : Z * bytes)
  | RDeleted (p : Z * Z) | RVDeleted (p : Z * Z)
  | RNew (p : Z * FileMetaData) | RVNew (p : Z * FileMetaData)
  | RDependency (p : Z * Z).

Definition put_record (dst : bytes) (r : EditRecord) : bytes :=
  match r with
  | RComparator name => PutLengthPrefixedSlice (PutVarint32 dst kComparator) name
  | RLogNumber n => put_number kLogNumber (Some n) dst
  | RPrevLogNumber n => put_number kPrevLogNumber (Some n) dst
  | RNextFile n => put_number kNextFileNumber (Some n) dst
  | RLastSequence n => put_number kLastSequence (Some n) dst
  | RPointer p => put_pointer kCompactPointer dst p
  | RVPointer p => put_pointer kCompactVPointer dst p
  | RDeleted p => put_deleted kDeletedFile dst p
  | RVDeleted p => put_deleted kDeletedVFile dst p
  | RNew p => put_file kNewFile dst p
  | RVNew p => put_file kNewVFile dst p
  | RDependency p => put_dependency dst p
  end.

Definition apply_record (r : EditRecord) (e : VersionEdit) : option VersionEdit :=
  match r with
  | RComparator name => Some (SetComparatorName name e)
  | RLogNumber n => Some (SetLogNumber n e)
  | RPrevLogNumber n => Some (SetPrevLogNumber n e)
  | RNextFile n => Some (SetNextFile n e)
  | RLastSequence n => Some (SetLastSequence n e)
  | RPointer p => Some (SetCompactPointer p.1 p.2 e)
  | RVPointer p => Some (SetCompactVPointer p.1 p.2 e)
  | RDeleted p => Some (DeleteFile p.1 p.2 e)
  | RVDeleted p => Some (DeleteVFile p.1 p.2 e)
  | RNew p => Some (push_new_file p.1 p.2 e)
  | RVNew p => Some (push_new_vfile p.1 p.2 e)
  | RDependency p => AddDependency p.2 p.1 e
  end.

Definition level_ok (level : Z) : Prop := 0 ≤ level < kNumLevels.
Definition slice32 (s : bytes) : Prop := len s < 2 ^ 32.
(** A key that can be encoded. *)
Definition key32 (s : bytes) : Prop := s ≠ [] ∧ slice32 s.
Definition pointer_ok (p : Z * bytes) : Prop := level_ok p.1 ∧ key32 p.2.
Definition deleted_ok (p : Z * Z) : Prop := level_ok p.1 ∧ u64_ok p.2.
(** The fields that are not written are as constructed. *)
Definition file_ok (p : Z * FileMetaData) : Prop :=
  level_ok p.1 ∧ u64_ok (number p.2) ∧ u64_ok (file_size p.2) ∧ key32 (smallest p.2) ∧ key32 (largest p.2) ∧
  p.2 = NewFileMeta (number p.2) (file_size p.2) (smallest p.2) (largest p.2).

Definition record_ok (r : EditRecord) : Prop :=
  match r with
  | RComparator name => slice32 name
  | RLogNumber n | RPrevLogNumber n | RNextFile n | RLastSequence n => u64_ok n
  | RPointer p | RVPointer p => pointer_ok p
  | RDeleted p | RVDeleted p => deleted_ok p
  | RNew p | RVNew p => file_ok p
  | RDependency p => u64_ok p.1 ∧ u64_ok p.2
  end.

(** All readers of the decoder undo the writers. *)
Lemma GetLevel_put level rest : level_ok level → GetLevel (EncodeVarint32 (u32 level) ++ rest) = Some (level, rest).
Proof.
  unfold level_ok, kNumLevels. intros H. unfold GetLevel.
  rewrite u32_id, GetVarint32_put by ulia. unfold kNumLevels. by rewrite (proj2 (Z.ltb_lt level 7)) by lia.
Qed.

Lemma GetInternalKey_put key rest : slice32 key → GetInternalKey (PutLengthPrefixedSlice [] key ++ rest) = Some (key, rest).
Proof. apply GetLengthPrefixedSlice_put. Qed.

Create Rewrite HintDb edit.
#[local] Hint Rewrite <- @app_assoc : edit.
#[local] Hint Rewrite @app_nil_l : edit.

Ltac unfold_put :=
  unfold put_record, put_number, put_pointer, put_deleted, put_file, put_dependency, PutVarint64, PutVarint32;
  rewrite ?(PutLengthPrefixedSlice_app (_ ++ _)), ?(PutLengthPrefixedSlice_app (PutLengthPrefixedSlice _ _)),
    ?(PutLengthPrefixedSlice_app (_ ++ _)).

Lemma put_record_app dst r : put_record dst r = dst ++ put_record [] r.
Proof. destruct r; unfold_put; autorewrite with edit; done. Qed.

Lemma DecodeField_put (tag : Z) fuel rest e :
  u32_ok tag →
  DecodeFrom_loop (S fuel) (EncodeVarint32 tag ++ rest) e =
    ('(e, r) ← DecodeField tag rest e;
     match r with inl input => DecodeFrom_loop fuel input e | inr msg => Some (e, Some msg) end).
Proof. intros H. cbn [DecodeFrom_loop]. by rewrite GetVarint32_put. Qed.

Ltac read_fields :=
  unfold GetPointer, GetDeleted, GetFile, GetDependency;
  repeat first
    [ rewrite GetLevel_put by done | rewrite GetVarint64_put by done | rewrite GetInternalKey_put by done
    | rewrite GetLengthPrefixedSlice_put by done | progress cbn [mbind option_bind fst snd] ].

Lemma Decode_record fuel r rest e :
  record_ok r →
  DecodeFrom_loop (S fuel) (put_record [] r ++ rest) e = (e ← apply_record r e; DecodeFrom_loop fuel rest e).
Proof.
  intros H. destruct r as [name|n|n|n|n|[l k]|[l k]|[l n]|[l n]|[l f]|[l f]|[c p]]; unfold_put; autorewrite with edit;
    rewrite DecodeField_put by done; cbn [record_ok] in H;
    cbv [DecodeField field kComparator kLogNumber kNextFileNumber kLastSequence kCompactPointer kDeletedFile kNewFile
      kPrevLogNumber kCompactVPointer kDeletedVFile kNewVFile kDependency Z.eqb Pos.eqb]; cbn [fst snd mbind option_bind apply_record].
  1-5: by read_fields.
  1-2: by destruct H as [? [_ ?]]; cbn [fst snd] in *; read_fields.
  1-2: by destruct H as [? ?]; cbn [fst snd] in *; read_fields.
  1-2: destruct H as (? & ? & ? & [_ ?] & [_ ?] & Ef); cbn [fst snd] in *; read_fields; by rewrite <- Ef.
  destruct H as [? ?]. cbn [fst snd] in *. read_fields. by destruct (AddDependency p c e).
Qed.

(** A record takes at least a byte. *)
Lemma put_record_pos dst r : record_ok r → (length dst < length (put_record dst r))%nat.
Proof.
  intros _. rewrite put_record_app. assert (∀ v, (1 ≤ length (EncodeVarint32 v))%nat) as Hv.
  { intros v. unfold EncodeVarint32. repeat case_if; cbn; lia. }
  rewrite length_app. destruct r; unfold_put; rewrite ?length_app; cbn [length];
    match goal with |- context [EncodeVarint32 ?t] => specialize (Hv t) end; lia.
Qed.

Definition apply_records (rs : list EditRecord) (e : VersionEdit) : option VersionEdit :=
  foldl (λ e r, e ← e; apply_record r e) (Some e) rs.

Lemma apply_records_None rs : foldl (λ e r, e ← e; apply_record r e) None rs = None.
Proof. by induction rs. Qed.

Lemma apply_records_app rs rs' e : apply_records (rs ++ rs') e = (e ← apply_records rs e; apply_records rs' e).
Proof. unfold apply_records. rewrite foldl_app. destruct (foldl _ (Some e) rs); [done|]. apply apply_records_None. Qed.

Lemma Decode_records fuel rs e :
  Forall record_ok rs → (length rs < fuel)%nat →
  DecodeFrom_loop fuel (foldl put_record [] rs) e = (e ← apply_records rs e; Some (e, None)).
Proof.
  assert (∀ rs dst, foldl put_record dst rs = dst ++ foldl put_record [] rs) as Happ.
  { intros l. induction l as [|r l IH]; intros dst; cbn [foldl]; [by rewrite app_nil_r|].
    rewrite IH, (put_record_app dst), (IH (put_record [] r)). by rewrite app_assoc. }
  intros Hok. revert fuel e. induction Hok as [|r rs Hr Hrs IH]; intros fuel e Hf.
  { destruct fuel; [lia|]. done. }
  destruct fuel as [|fuel]; [cbn in Hf; lia|]. cbn [foldl]. rewrite Happ, Decode_record by done.
  unfold apply_records. cbn [foldl mbind option_bind]. destruct (apply_record r e) as [e'|].
  - cbn [mbind option_bind]. apply IH. cbn in Hf. lia.
  - by rewrite apply_records_None.
Qed.

Definition opt_records {A} (R : A → EditRecord) (o : option A) : list EditRecord :=
  match o with Some x => [R x] | None => [] end.

Definition counters (e : VersionEdit) : list EditRecord :=
  opt_records RComparator (comparator_ e) ++ opt_records RLogNumber (log_number_ e) ++
  opt_records RPrevLogNumber (prev_log_number_ e) ++ opt_records RNextFile (next_file_number_ e) ++
  opt_records RLastSequence (last_sequence_ e).

Definition records (e : VersionEdit) (deps : list (Z * Z)) : list EditRecord :=
  counters e ++
  (RPointer <$> compact_pointers_ e) ++ (RVPointer <$> compact_vpointers_ e) ++
  (RDeleted <$> deleted_files_ e) ++ (RVDeleted <$> deleted_vfiles_ e) ++
  (RNew <$> new_files_ e) ++ (RVNew <$> new_vfiles_ e) ++ (RDependency <$> deps).

Lemma EncodeFields_records e deps dst : EncodeFields e deps dst = foldl put_record dst (records e deps).
Proof.
  unfold EncodeFields, records, counters. rewrite !foldl_app, !foldl_fmap. cbn [put_record].
  by destruct (comparator_ e), (log_number_ e), (prev_log_number_ e), (next_file_number_ e), (last_sequence_ e).
Qed.

(** A field that [set] assigns from a list, one element after the other. *)
Lemma apply_map {A} (R : A → EditRecord) (set : A → VersionEdit → VersionEdit) l e :
  (∀ p e, apply_record (R p) e = Some (set p e)) → apply_records (R <$> l) e = Some (foldl (λ e p, set p e) e l).
Proof.
  intros HR. revert e. induction l as [|p l IH]; intros e; [done|]. unfold apply_records in *. cbn [fmap list_fmap foldl mbind option_bind].
  rewrite HR. apply IH.
Qed.

Lemma foldl_pointers l e :
  foldl (λ e p, SetCompactPointer p.1 p.2 e) e l = with_files (compact_pointers_ e ++ l) (compact_vpointers_ e)
    (deleted_files_ e) (deleted_vfiles_ e) (new_files_ e) (new_vfiles_ e) (dep_ e) e.
Proof.
  revert e. induction l as [|[x y] l IH]; intros e; cbn [foldl]; [rewrite app_nil_r; by destruct e|].
  rewrite IH. cbn. by rewrite <- app_assoc.
Qed.

Lemma foldl_vpointers l e :
  foldl (λ e p, SetCompactVPointer p.1 p.2 e) e l = with_files (compact_pointers_ e) (compact_vpointers_ e ++ l)
    (deleted_files_ e) (deleted_vfiles_ e) (new_files_ e) (new_vfiles_ e) (dep_ e) e.
Proof.
  revert e. induction l as [|[x y] l IH]; intros e; cbn [foldl]; [rewrite app_nil_r; by destruct e|].
  rewrite IH. cbn. by rewrite <- app_assoc.
Qed.

Lemma foldl_deleted l e :
  foldl (λ e p, DeleteFile p.1 p.2 e) e l = with_files (compact_pointers_ e) (compact_vpointers_ e)
    (foldl (λ s p, set_insert pair_lt p s) (deleted_files_ e) l) (deleted_vfiles_ e) (new_files_ e) (new_vfiles_ e) (dep_ e) e.
Proof. revert e. induction l as [|[x y] l IH]; intros e; cbn [foldl]; [by destruct e|]. by rewrite IH. Qed.

Lemma foldl_vdeleted l e :
  foldl (λ e p, DeleteVFile p.1 p.2 e) e l = with_files (compact_pointers_ e) (compact_vpointers_ e)
    (deleted_files_ e) (foldl (λ s p, set_insert pair_lt p s) (deleted_vfiles_ e) l) (new_files_ e) (new_vfiles_ e) (dep_ e) e.
Proof. revert e. induction l as [|[x y] l IH]; intros e; cbn [foldl]; [by destruct e|]. by rewrite IH. Qed.

Lemma foldl_files l e :
  foldl (λ e p, push_new_file p.1 p.2 e) e l = with_files (compact_pointers_ e) (compact_vpointers_ e)
    (deleted_files_ e) (deleted_vfiles_ e) (new_files_ e ++ l) (new_vfiles_ e) (dep_ e) e.
Proof.
  revert e. induction l as [|[x y] l IH]; intros e; cbn [foldl]; [rewrite app_nil_r; by destruct e|].
  rewrite IH. cbn. by rewrite <- app_assoc.
Qed.

Lemma foldl_vfiles l e :
  foldl (λ e p, push_new_vfile p.1 p.2 e) e l = with_files (compact_pointers_ e) (compact_vpointers_ e)
    (deleted_files_ e) (deleted_vfiles_ e) (new_files_ e) (new_vfiles_ e ++ l) (dep_ e) e.
Proof.
  revert e. induction l as [|[x y] l IH]; intros e; cbn [foldl]; [rewrite app_nil_r; by destruct e|].
  rewrite IH. cbn. by rewrite <- app_assoc.
Qed.

Lemma apply_deps deps e :
  apply_records (RDependency <$> deps) e =
    (d ← ReplayDependencies deps (dep_ e);
     Some (with_files (compact_pointers_ e) (compact_vpointers_ e) (deleted_files_ e) (deleted_vfiles_ e)
       (new_files_ e) (new_vfiles_ e) d e)).
Proof.
  revert e. induction deps as [|[x p] deps IH]; intros e; [by destruct e|].
  unfold apply_records, ReplayDependencies in *. cbn [fmap list_fmap foldl mbind option_bind apply_record fst snd].
  unfold AddDependency. destruct (dep_SetParent p x (dep_ e)) as [d|] eqn:E; cbn [mbind option_bind].
  - rewrite IH. done.
  - rewrite apply_records_None. clear. by induction deps.
Qed.

(** ** Lemmas: edits that the interface builds *)

Record edit_ok (e : VersionEdit) : Prop := {
  eo_records : Forall record_ok (records e []);
  eo_deleted : ordered pair_lt (deleted_files_ e);
  eo_vdeleted : ordered pair_lt (deleted_vfiles_ e);
  eo_acyclic : DepProofs.acyclic (dep_ e);
  eo_links : DepProofs.links_ok (dep_ e)
}.

(** The optional fields of an edit, as the records set them. *)
Lemma apply_counters e0 e :
  apply_records (counters e) (Clear e0) =
    Some (with_counters (comparator_ e) (log_number_ e) (prev_log_number_ e) (next_file_number_ e) (last_sequence_ e) (Clear e0)).
Proof.
  unfold counters. by destruct (comparator_ e), (log_number_ e), (prev_log_number_ e), (next_file_number_ e), (last_sequence_ e).
Qed.

Lemma insert_pairs l : ordered pair_lt l → foldl (λ s p, set_insert pair_lt p s) [] l = l.
Proof. intros Ho. apply (insert_ordered pair_lt (λ _, True) l []); [by apply Forall_true|done]. Qed.

(** Keeps the edits of [apply_all] small. *)
Ltac reduce_edit := unfold with_files, with_counters, Clear;
  cbn [mbind option_bind comparator_ log_number_ prev_log_number_ next_file_number_ last_sequence_ compact_pointers_ compact_vpointers_
    deleted_files_ deleted_vfiles_ new_files_ new_vfiles_ dep_].

Lemma apply_all e deps e0 :
  ordered pair_lt (deleted_files_ e) → ordered pair_lt (deleted_vfiles_ e) →
  apply_records (records e deps) (Clear e0) =
    (d ← ReplayDependencies deps (dep_ e0);
     Some (with_files (compact_pointers_ e0 ++ compact_pointers_ e) (compact_vpointers_ e0 ++ compact_vpointers_ e)
       (deleted_files_ e) (deleted_vfiles_ e) (new_files_ e) (new_vfiles_ e) d e)).
Proof.
  intros Hd Hv. unfold records. rewrite apply_records_app, apply_counters. reduce_edit.
  rewrite apply_records_app, (apply_map RPointer (λ p, SetCompactPointer p.1 p.2)) by done. rewrite foldl_pointers. reduce_edit.
  rewrite apply_records_app, (apply_map RVPointer (λ p, SetCompactVPointer p.1 p.2)) by done. rewrite foldl_vpointers. reduce_edit.
  rewrite apply_records_app, (apply_map RDeleted (λ p, DeleteFile p.1 p.2)) by done. rewrite foldl_deleted. reduce_edit.
  rewrite apply_records_app, (apply_map RVDeleted (λ p, DeleteVFile p.1 p.2)) by done. rewrite foldl_vdeleted. reduce_edit.
  rewrite apply_records_app, (apply_map RNew (λ p, push_new_file p.1 p.2)) by done. rewrite foldl_files. reduce_edit.
  rewrite apply_records_app, (apply_map RVNew (λ p, push_new_vfile p.1 p.2)) by done. rewrite foldl_vfiles. reduce_edit.
  rewrite apply_deps. cbn. rewrite !insert_pairs by done. by destruct e.
Qed.

Lemma records_ok_app e deps : Forall record_ok (records e deps) ↔ Forall record_ok (records e []) ∧ Forall record_ok (RDependency <$> deps).
Proof. unfold records. rewrite !Forall_app. cbn. intuition constructor. Qed.

Lemma apply_record_ok r e e' : record_ok r → edit_ok e → apply_record r e = Some e' → edit_ok e'.
Proof.
  intros Hr [Hrec Hd Hv Ha Hlk] He.
  assert (∀ l p, ordered pair_lt l → ordered pair_lt (set_insert pair_lt p l)) as Hins.
  { intros l p. apply (set_insert_ordered pair_lt (λ _, True)); [done|]. by apply Forall_true. }
  unfold records, counters in Hrec. rewrite !Forall_app, !Forall_fmap in Hrec.
  destruct Hrec as ((? & ? & ? & ? & ?) & ? & ? & Hdel & Hvdel & ? & ? & ?).
  destruct r; cbn [apply_record] in He; try injection He as <-; try (unfold AddDependency in He;
    destruct (DepProofs.dep_SetParent_total p.2 p.1 (dep_ e) Ha) as (d & Hdp & Had); rewrite Hdp in He; injection He as <-; destruct Hr as [? ?];
    pose proof (DepProofs.dep_SetParent_links p.2 p.1 (dep_ e) d ltac:(done) ltac:(done) Hlk Hdp));
  (split; [|cbn; by auto..]); unfold records, counters; rewrite !Forall_app, !Forall_fmap; cbn; split_and!; auto;
    try (by apply Forall_singleton); try (apply Forall_app; split; [done|]; apply Forall_singleton; by destruct p);
    try (apply set_insert_Forall; [by destruct p|done]).
Qed.

Lemma apply_records_ok rs e e' : Forall record_ok rs → edit_ok e → apply_records rs e = Some e' → edit_ok e'.
Proof.
  intros Hok. revert e. induction Hok as [|r rs Hr _ IH]; intros e He Happ; [by injection Happ as <-|].
  unfold apply_records in *. cbn [foldl mbind option_bind] in Happ.
  destruct (apply_record r e) as [e1|] eqn:E; [|by rewrite apply_records_None in Happ].
  apply (IH e1); [by eapply apply_record_ok|done].
Qed.

Lemma edit_ok_new : edit_ok NewVersionEdit.
Proof. split; [by repeat constructor|constructor|constructor|apply DepProofs.acyclic_empty|apply map_Forall_empty]. Qed.

Lemma records_length rs dst : Forall record_ok rs → (length dst + length rs ≤ length (foldl put_record dst rs))%nat.
Proof.
  intros Hok. revert dst. induction Hok as [|r rs Hr _ IH]; intros dst; cbn; [lia|].
  pose proof (put_record_pos dst r Hr). pose proof (IH (put_record dst r)). lia.
Qed.

Lemma EncodeTo_Some e deps dst record : EncodeTo e deps dst = Some record → record = EncodeFields e deps dst.
Proof. unfold EncodeTo. by intros (? & _ & [= <-])%bind_Some. Qed.

(** No key of an edit is empty. *)
Lemma EncodeTo_ok e deps dst : edit_ok e → EncodeTo e deps dst = Some (EncodeFields e deps dst).
Proof.
  intros [Hrec _ _ _ _]. unfold EncodeTo. assert (Forall (λ k, Encode k = Some k) (edit_keys e)) as Hk.
  { assert (∀ k, key32 k → Encode k = Some k) as He by (by intros [|? ?] [? _]). unfold records in Hrec. rewrite !Forall_app, !Forall_fmap in Hrec.
    destruct Hrec as (_ & Hp & Hvp & _ & _ & Hf & Hvf & _). unfold edit_keys. rewrite !Forall_app. split_and!.
    - apply Forall_fmap. eapply Forall_impl; [exact Hp|]. intros p [_ ?]. by apply He.
    - apply Forall_fmap. eapply Forall_impl; [exact Hvp|]. intros p [_ ?]. by apply He.
    - apply Forall_join, Forall_fmap, Forall_app. split; (eapply Forall_impl; [eassumption|]); intros p (_ & _ & _ & Hs & Hl & _); repeat constructor; by apply He. }
  assert (mapM Encode (edit_keys e) = Some (edit_keys e)) as ->; [|done].
  apply mapM_Some. induction Hk; by constructor.
Qed.

(** An edit that is written and read back. *)
Lemma decode_encoded e deps e0 :
  edit_ok e → deps ≡ₚ map_to_list (dep_ e) → dep_ e0 = ∅ →
  ∃ d, DecodeFrom (EncodeFields e deps []) e0 =
      Some (with_files (compact_pointers_ e0 ++ compact_pointers_ e) (compact_vpointers_ e0 ++ compact_vpointers_ e)
        (deleted_files_ e) (deleted_vfiles_ e) (new_files_ e) (new_vfiles_ e) d e, None) ∧
    ∀ x r, DepProofs.rep (dep_ e) x r ↔ DepProofs.rep d x r.
Proof.
  intros [Hrec Hd Hv Ha Hlk] Hdeps Hd0.
  destruct (ReplayProofs.replay_map (dep_ e) deps Ha Hdeps) as (d & Hr & _ & Hrep). exists d. split; [|done].
  assert (Forall record_ok (records e deps)) as Hok.
  { apply records_ok_app. split; [done|]. apply Forall_fmap. rewrite Hdeps. apply Forall_forall.
    intros [x p] Hin%elem_of_map_to_list. exact (Hlk _ _ Hin). }
  unfold DecodeFrom. rewrite EncodeFields_records, Decode_records; [|done|].
  - by rewrite apply_all, Hd0, Hr by done.
  - pose proof (records_length (records e deps) [] Hok) as Hl. cbn in Hl. lia.
Qed.

(** ** Lemmas: decoding arbitrary bytes *)

(** A reader leaves a suffix of its input. *)
Definition reads {A} (get : bytes → option (A * bytes)) : Prop :=
  ∀ input v q, bytes_ok input → get input = Some (v, q) → bytes_ok q ∧ (length q ≤ length input)%nat.

Lemma suffix_reads (input used q : bytes) : bytes_ok input → input = used ++ q → bytes_ok q ∧ (length q ≤ length input)%nat.
Proof. intros Hok ->. apply bytes_ok_app in Hok as [_ Hok]. rewrite length_app. split; [done|lia]. Qed.

Lemma reads_varint64 : reads GetVarint64.
Proof.
  intros input v q Hok H. destruct (varint_reader_bounds input Hok) as (_ & H64 & _).
  destruct (H64 _ _ H) as (_ & used & E & _). by eapply suffix_reads.
Qed.

Lemma reads_slice : reads GetLengthPrefixedSlice.
Proof.
  intros input v q Hok H. destruct (varint_reader_bounds input Hok) as (_ & _ & Hsl).
  destruct (Hsl _ _ H) as (hdr & E & _). rewrite app_assoc in E. by eapply suffix_reads.
Qed.

Lemma reads_level input v q : bytes_ok input → GetLevel input = Some (v, q) → level_ok v ∧ bytes_ok q ∧ (length q ≤ length input)%nat.
Proof.
  intros Hok. unfold GetLevel. destruct (GetVarint32 input) as [[v' q']|] eqn:E; [|done].
  destruct (Z.ltb_spec v' kNumLevels) as [Hlt|]; [|done]. intros [= <- <-].
  destruct (GetVarint32_bounds _ _ _ Hok E) as (Hv & used & Eu & _). split; [|by eapply suffix_reads]. unfold level_ok. ulia.
Qed.

(** Takes a chain of readers apart. *)
Ltac invert_reads :=
  repeat match goal with
  | H : mbind _ ?r = Some _ |- _ =>
      let E := fresh "E" in destruct r as [[? ?]|] eqn:E; [cbn [mbind option_bind] in H|done]
  | H : Some _ = Some _ |- _ => injection H as H; subst
  | Hok : bytes_ok ?i, H : GetLevel ?i = Some _ |- _ => apply (reads_level _ _ _ Hok) in H as (? & ? & ?)
  | Hok : bytes_ok ?i, H : GetVarint64 ?i = Some _ |- _ => apply (reads_varint64 _ _ _ Hok) in H as (? & ?)
  | Hok : bytes_ok ?i, H : GetInternalKey ?i = Some _ |- _ => apply (reads_slice _ _ _ Hok) in H as (? & ?)
  end.

Lemma reads_pointer input p q : bytes_ok input → GetPointer input = Some (p, q) → level_ok p.1 ∧ bytes_ok q ∧ (length q ≤ length input)%nat.
Proof. intros Hok H. unfold GetPointer in H. invert_reads. cbn. split_and!; try done; lia. Qed.

Lemma reads_deleted input p q : bytes_ok input → GetDeleted input = Some (p, q) → level_ok p.1 ∧ bytes_ok q ∧ (length q ≤ length input)%nat.
Proof. intros Hok H. unfold GetDeleted in H. invert_reads. cbn. split_and!; try done; lia. Qed.

Lemma reads_file input p q : bytes_ok input → GetFile input = Some (p, q) → level_ok p.1 ∧ bytes_ok q ∧ (length q ≤ length input)%nat.
Proof. intros Hok H. unfold GetFile in H. invert_reads. cbn. split_and!; try done; lia. Qed.

Lemma reads_dependency : reads GetDependency.
Proof. intros input p q Hok H. unfold GetDependency in H. invert_reads. split_and!; try done; lia. Qed.

(** Every level an edit names exists. *)
Definition levels_below (e : VersionEdit) : Prop :=
  Forall (λ p, level_ok p.1) (compact_pointers_ e) ∧ Forall (λ p, level_ok p.1) (compact_vpointers_ e) ∧
  Forall (λ p, level_ok p.1) (deleted_files_ e) ∧ Forall (λ p, level_ok p.1) (deleted_vfiles_ e) ∧
  Forall (λ p, level_ok p.1) (new_files_ e) ∧ Forall (λ p, level_ok p.1) (new_vfiles_ e).

(** One field: [P] is what the setter keeps. *)
Definition field_ok (input : bytes) (e : VersionEdit) (R : option (VersionEdit * (bytes + EditError))) : Prop :=
  ∃ e' r, R = Some (e', r) ∧ DepProofs.acyclic (dep_ e') ∧ (levels_below e → levels_below e') ∧
    match r with inl q => bytes_ok q ∧ (length q ≤ length input)%nat | inr _ => True end.

Lemma field_total {A} (get : bytes → option (A * bytes)) (Q : A → Prop) set error input e :
  DepProofs.acyclic (dep_ e) → bytes_ok input →
  (∀ v q, get input = Some (v, q) → Q v ∧ bytes_ok q ∧ (length q ≤ length input)%nat) →
  (∀ v, Q v → dep_ (set v e) = dep_ e ∧ (levels_below e → levels_below (set v e))) →
  field_ok input e (field (get input) error set e).
Proof.
  intros Ha Hok Hget Hset. unfold field. destruct (get input) as [[v q]|] eqn:E.
  - destruct (Hget v q eq_refl) as (HQ & Hq). destruct (Hset v HQ) as [Hd Hl]. eexists _, _. split; [done|]. by rewrite Hd.
  - by eexists _, _.
Qed.

Lemma DecodeField_total tag input e :
  bytes_ok input → DepProofs.acyclic (dep_ e) → field_ok input e (DecodeField tag input e).
Proof.
  intros Hok Ha. unfold DecodeField. pose proof (reads_varint64 input) as H64. pose proof (reads_slice input) as Hsl.
  repeat match goal with |- context [if ?b then _ else _] => destruct b end.
  1-5: apply (field_total _ (λ _, True)); naive_solver.
  1-2: apply (field_total _ (λ p, level_ok p.1)); [done..|intros ? ?; by apply reads_pointer|];
    intros [l k] Hl; split; [done|]; intros (? & ? & ? & ? & ? & ?); repeat split; try done; apply Forall_app; split; [done|by constructor].
  1-2: apply (field_total _ (λ p, level_ok p.1)); [done..|intros ? ?; by apply reads_deleted|];
    intros [l k] Hl; split; [done|]; intros (? & ? & ? & ? & ? & ?); repeat split; try done; by apply set_insert_Forall.
  1-2: apply (field_total _ (λ p, level_ok p.1)); [done..|intros ? ?; by apply reads_file|];
    intros [l k] Hl; split; [done|]; intros (? & ? & ? & ? & ? & ?); repeat split; try done; apply Forall_app; split; [done|by constructor].
  - destruct (GetDependency input) as [[[c p] q]|] eqn:E; [|by eexists _, _].
    apply (reads_dependency _ _ _ Hok) in E. unfold AddDependency.
    destruct (DepProofs.dep_SetParent_total p c (dep_ e) Ha) as (d & -> & Hd). cbn. by eexists _, _.
  - by eexists _, _.
Qed.

Lemma DecodeFrom_loop_total fuel input e0 e :
  bytes_ok input → (length input < fuel)%nat → DepProofs.acyclic (dep_ e) → (levels_below e0 → levels_below e) →
  ∃ e' msg, DecodeFrom_loop fuel input e = Some (e', msg) ∧ DepProofs.acyclic (dep_ e') ∧ (levels_below e0 → levels_below e').
Proof.
  revert input e. induction fuel as [|fuel IH]; intros input e Hok Hf Ha Hl; [lia|]. cbn [DecodeFrom_loop].
  destruct (GetVarint32 input) as [[tag q]|] eqn:E; [|by eexists _, _].
  destruct (GetVarint32_bounds _ _ _ Hok E) as (_ & used & Eu & Hne).
  destruct (suffix_reads _ _ _ Hok Eu) as [Hq _].
  destruct (DecodeField_total tag q e Hq Ha) as (e1 & r & -> & Ha1 & Hl1 & Hr). cbn [mbind option_bind].
  destruct r as [q2|msg]; [|by eexists _, _; naive_solver]. destruct Hr as [Hq2 Hlen].
  apply IH; [done| |done|auto]. subst input. rewrite length_app in Hf. destruct used; [done|]. cbn in Hf. lia.
Qed.

(** ** Properties *)

(** C26: what a version edit writes is read back. For every edit that the
    interface builds, with keys that are not empty (the code aborts on an empty
    one, and so does the model), and any order in which the dependency map is
    iterated, the encoder does not abort, the decoder accepts the encoding, and
    from an edit without dependencies it yields the edit, with a dependency forest
    that has the same representatives. Decoding into an edit that was used before
    keeps its compaction pointers: [Clear] does not remove them. *)
Theorem edit_roundtrip rs e deps e0 :
  Forall record_ok rs → apply_records rs NewVersionEdit = Some e → deps ≡ₚ map_to_list (dep_ e) → dep_ e0 = ∅ →
  ∃ record d, EncodeTo e deps [] = Some record ∧ DecodeFrom record e0 =
      Some (with_files (compact_pointers_ e0 ++ compact_pointers_ e) (compact_vpointers_ e0 ++ compact_vpointers_ e)
        (deleted_files_ e) (deleted_vfiles_ e) (new_files_ e) (new_vfiles_ e) d e, None) ∧
    ∀ x r, DepProofs.rep (dep_ e) x r ↔ DepProofs.rep d x r.
Proof.
  intros Hrs He Hdeps Hd0. assert (edit_ok e) as Hok by (by apply (apply_records_ok rs _ _ Hrs edit_ok_new He)).
  destruct (decode_encoded e deps e0 Hok Hdeps Hd0) as (d & Hd & Hr). exists (EncodeFields e deps []), d. split; [by apply EncodeTo_ok|done].
Qed.

(** Decoding ends on any bytes. Whatever the manifest holds, the decoder
    returns, with the edit so far and the first error if there is one; only
    levels below [kNumLevels] get into the edit. *)
Theorem DecodeFrom_total src e :
  bytes_ok src → DepProofs.acyclic (dep_ e) →
  ∃ e' msg, DecodeFrom src e = Some (e', msg) ∧ DepProofs.acyclic (dep_ e') ∧
    (levels_below e → levels_below e').
Proof.
  intros Hs Ha. unfold DecodeFrom. apply DecodeFrom_loop_total; [done|lia|done|].
  intros (? & ? & _ & _ & _ & _). repeat split; try done; constructor.
Qed.

(** ** Witnesses *)

Definition edit_example_records : list EditRecord :=
  [RComparator [99]; RLogNumber 12; RNextFile 14; RLastSequence 300; RPointer (1, [7; 7]); RDeleted (2, 9); RDeleted (1, 10);
   RNew (0, NewFileMeta 13 4096 [97; 1] [98; 1]); RVNew (1, NewFileMeta 13 9000 [97; 1] [98; 1]); RDependency (4, 13); RDependency (5, 4)].

Definition edit_example : VersionEdit := default NewVersionEdit (apply_records edit_example_records NewVersionEdit).

Lemma edit_example_built : apply_records edit_example_records NewVersionEdit = Some edit_example.
Proof. vm_compute. reflexivity. Qed.

Lemma edit_example_ok : Forall record_ok edit_example_records.
Proof. repeat constructor; cbn; unfold key32, slice32, level_ok, u64_ok; vm_compute; done. Qed.

Lemma edit_roundtrip_witness :
  ∃ record d, EncodeTo edit_example (map_to_list (dep_ edit_example)) [] = Some record ∧ DecodeFrom record NewVersionEdit =
      Some (with_files [(1, [7; 7])] [] [(1, 10); (2, 9)] [] (new_files_ edit_example) (new_vfiles_ edit_example) d edit_example, None) ∧
    ∀ x r, DepProofs.rep (dep_ edit_example) x r ↔ DepProofs.rep d x r.
Proof.
  exact (edit_roundtrip edit_example_records edit_example _ NewVersionEdit edit_example_ok edit_example_built
    (Permutation_refl _) eq_refl).
Defined.

(** A deleted file at level 9. *)
Lemma DecodeFrom_total_witness :
  ∃ e' msg, DecodeFrom [2; 5; 6; 9; 1] NewVersionEdit = Some (e', msg) ∧ DepProofs.acyclic (dep_ e') ∧
    (levels_below NewVersionEdit → levels_below e').
Proof. apply (DecodeFrom_total [2; 5; 6; 9; 1] NewVersionEdit); [by_decide|apply DepProofs.acyclic_empty]. Defined.
