(* ===== verification/Version.v ===== *)
(** * db/version_set.cc: searching the files of a version

    A version is the list of files of each level. Level 0 holds files whose
    ranges may overlap, newest first by number; the files of a deeper level are
    sorted and disjoint. The searches over these lists, the choice of inputs
    that overlap a range, and the lookup of a key. *)

From Stdlib Require Import Sorted.
From stdpp Require Import sorting.
From S2P Require Import Prelude Coding Comparator DBFormat VersionEdit Containers.

(** The files of each level, the value tables of each level, and the forest of
    value tables that were merged into others. *)
Record Version := {
  files_ : list (list FileMetaData);
  vfiles_ : list (list FileMetaData);
  dep_map_ : gmap Z Z
}.

Definition level_files (v : Version) (level : Z) : list FileMetaData := default [] (files_ v !! Z.to_nat level).

Definition kMaxMemCompactLevel : Z := 0.

(** [int64_t]: the sizes are summed as such. *)
Definition i64 (x : Z) : Z := (x + 2 ^ 63) `mod` 2 ^ 64 - 2 ^ 63.

Definition TotalFileSize (files : list FileMetaData) : Z := foldl (λ sum f, i64 (sum + file_size f)) 0 files.

(** [10 * TargetFileSize(options)] and [25 * TargetFileSize(options)]. *)
Definition MaxGrandParentOverlapBytes (max_file_size : Z) : Z := i64 (u64 (10 * max_file_size)).
Definition ExpandedCompactionByteSizeLimit (max_file_size : Z) : Z := i64 (u64 (25 * max_file_size)).

(** The table cache, whose state is [C]: for a file and a key, the entry that is
    handed to [handle_result], if any, and whether the status is ok. The outer
    [None] is a failed assertion or a loop that does not end. *)
Class TableReader (C : Type) := table_read : FileMetaData → bytes → C → option (option (bytes * bytes) * bool * C).

Inductive SaverState := kNotFound | kFound | kDeleted | kCorrupt.
Inductive GetStatus := GetOk | GetNotFound | GetCorruption | GetTableError.

(** [NewestFirst] as a relation: it is total on the numbers. *)
Definition newer (a b : FileMetaData) : Prop := number b ≤ number a.
#[export] Instance newer_dec : RelDecision newer.
Proof. unfold newer. intros a b. apply _. Defined.

Section version.

Context (user : Comparator).

Abbreviation icmp := (InternalKeyComparator.Compare user).
Abbreviation ucmp := (Compare user).

(** ** FindFile *)

(** [while (left < right)]; [uint32_t mid = (left + right) / 2]. *)
Fixpoint FindFile_loop (fuel : nat) (files : list FileMetaData) (key : bytes) (left right : Z) : option Z :=
  if left <? right then
    match fuel with
    | O => None
    | S fuel' =>
        let mid := u32 (left + right) / 2 in
        f ← files !! Z.to_nat mid;
        if icmp (largest f) key <? 0 then FindFile_loop fuel' files key (u32 (mid + 1)) right
        else FindFile_loop fuel' files key left mid
    end
  else Some right.

Definition FindFile (files : list FileMetaData) (key : bytes) : option Z :=
  FindFile_loop (length files) files key 0 (u32 (len files)).

(** ** Overlap *)

(** A null pointer is [None]. *)
Definition AfterFile (user_key : option bytes) (f : FileMetaData) : bool :=
  match user_key with Some k => ucmp k (ExtractUserKey (largest f)) >? 0 | None => false end.

Definition BeforeFile (user_key : option bytes) (f : FileMetaData) : bool :=
  match user_key with Some k => ucmp k (ExtractUserKey (smallest f)) <? 0 | None => false end.

Definition SomeFileOverlapsRange (disjoint_sorted_files : bool) (files : list FileMetaData)
    (smallest_user_key largest_user_key : option bytes) : option bool :=
  if negb disjoint_sorted_files then
    Some (existsb (λ f, negb (AfterFile smallest_user_key f || BeforeFile largest_user_key f)) files)
  else
    index ← match smallest_user_key with
            | Some k => FindFile files (InternalKey k kMaxSequenceNumber kValueTypeForSeek)
            | None => Some 0
            end;
    if index >=? len files then Some false
    else f ← files !! Z.to_nat index; Some (negb (BeforeFile largest_user_key f)).

(** ** GetOverlappingInputs *)

(** The state of the loop: the index, the range and the inputs so far. *)
Record OverlapState := { ov_i : nat; ov_begin : option bytes; ov_end : option bytes; ov_inputs : list FileMetaData }.

(** One turn on file [f]. *)
Definition Overlap_turn (level : Z) (f : FileMetaData) (st : OverlapState) : OverlapState :=
  let file_start := ExtractUserKey (smallest f) in
  let file_limit := ExtractUserKey (largest f) in
  let i := S (ov_i st) in
  let skip := {| ov_i := i; ov_begin := ov_begin st; ov_end := ov_end st; ov_inputs := ov_inputs st |} in
  let before := match ov_begin st with Some b => ucmp file_limit b <? 0 | None => false end in
  let after := match ov_end st with Some e => ucmp file_start e >? 0 | None => false end in
  if before || after then skip
  else
    let take := {| ov_i := i; ov_begin := ov_begin st; ov_end := ov_end st; ov_inputs := ov_inputs st ++ [f] |} in
    if level =? 0 then
      if match ov_begin st with Some b => ucmp file_start b <? 0 | None => false end
      then {| ov_i := 0; ov_begin := Some file_start; ov_end := ov_end st; ov_inputs := [] |}
      else if match ov_end st with Some e => ucmp file_limit e >? 0 | None => false end
      then {| ov_i := 0; ov_begin := ov_begin st; ov_end := Some file_limit; ov_inputs := [] |}
      else take
    else take.

Fixpoint Overlap_loop (fuel : nat) (level : Z) (files : list FileMetaData) (st : OverlapState) : option OverlapState :=
  match files !! ov_i st with
  | None => Some st
  | Some f => match fuel with O => None | S fuel' => Overlap_loop fuel' level files (Overlap_turn level f st) end
  end.

(** A level of [n] files restarts at most [2 n] times. *)
Definition overlap_fuel (files : list FileMetaData) : nat := (2 * length files + 1) * length files.

Definition GetOverlappingInputs (level : Z) (files : list FileMetaData) (begin end_ : option bytes) : option (list FileMetaData) :=
  st ← Overlap_loop (overlap_fuel files) level files
    {| ov_i := 0; ov_begin := ExtractUserKey <$> begin; ov_end := ExtractUserKey <$> end_; ov_inputs := [] |};
  Some (ov_inputs st).

(** ** PickLevelForMemTableOutput *)

Definition OverlapInLevel (v : Version) (level : Z) (smallest_user_key largest_user_key : option bytes) : option bool :=
  SomeFileOverlapsRange (level >? 0) (level_files v level) smallest_user_key largest_user_key.

Fixpoint PickLevel_loop (fuel : nat) (max_file_size : Z) (v : Version) (smallest_user_key largest_user_key : bytes) (level : Z)
    : option Z :=
  if level <? kMaxMemCompactLevel then
    match fuel with
    | O => None
    | S fuel' =>
        overlap ← OverlapInLevel v (level + 1) (Some smallest_user_key) (Some largest_user_key);
        if (overlap : bool) then Some level
        else
          stop ← (if level + 2 <? kNumLevels then
                    overlaps ← GetOverlappingInputs (level + 2) (level_files v (level + 2))
                      (Some (InternalKey smallest_user_key kMaxSequenceNumber kValueTypeForSeek))
                      (Some (InternalKey largest_user_key 0 kTypeDeletion));
                    Some (TotalFileSize overlaps >? MaxGrandParentOverlapBytes max_file_size)
                  else Some false);
          if (stop : bool) then Some level
          else PickLevel_loop fuel' max_file_size v smallest_user_key largest_user_key (level + 1)
    end
  else Some level.

Definition PickLevelForMemTableOutput (max_file_size : Z) (v : Version) (smallest_user_key largest_user_key : bytes) : option Z :=
  overlap ← OverlapInLevel v 0 (Some smallest_user_key) (Some largest_user_key);
  if (overlap : bool) then Some 0
  else PickLevel_loop 2 max_file_size v smallest_user_key largest_user_key 0.

(** ** Get *)

(** [SaveValue]: the state and the value of the saver. *)
Definition SaveValue (user_key : bytes) (entry : bytes * bytes) (value : bytes) : SaverState * bytes :=
  match ParseInternalKey entry.1 with
  | None => (kCorrupt, value)
  | Some parsed_key =>
      if ucmp (DBFormat.user_key parsed_key) user_key =? 0 then
        match type parsed_key with kTypeValue => (kFound, entry.2) | kTypeDeletion => (kDeleted, value) end
      else (kNotFound, value)
  end.

(** The file of the first seek, charged when there is a second one. *)
Record GetStats := { seek_file : option (FileMetaData * Z); last_file_read : option (FileMetaData * Z) }.

Definition charge (f : FileMetaData) (level : Z) (stats : GetStats) : GetStats := {|
  seek_file := match last_file_read stats, seek_file stats with Some l, None => Some l | _, s => s end;
  last_file_read := Some (f, level) |}.

(** The files of a level that are searched, in order. *)
Definition SearchedFiles (v : Version) (level : Z) (ikey user_key : bytes) : option (list FileMetaData) :=
  let files := level_files v level in
  if level =? 0 then
    Some (merge_sort newer (filter (λ f, 0 ≤ ucmp user_key (ExtractUserKey (smallest f)) ∧
                                         ucmp user_key (ExtractUserKey (largest f)) ≤ 0) files))
  else
    index ← FindFile files ikey;
    if index >=? len files then Some []
    else
      tmp2 ← files !! Z.to_nat index;
      Some (if ucmp user_key (ExtractUserKey (smallest tmp2)) <? 0 then [] else [tmp2]).

Section get.

Context {C : Type} {T : TableReader C}.

(** [None] for the status: go on with the next level. *)
Fixpoint SearchFiles (files : list FileMetaData) (level : Z) (ikey user_key value : bytes) (stats : GetStats) (c : C)
    : option (option GetStatus * bytes * GetStats * C) :=
  match files with
  | [] => Some (None, value, stats, c)
  | f :: files =>
      let stats := charge f level stats in
      '(entry, ok, c) ← table_read f ikey c;
      let '(state, value) := match entry with Some e => SaveValue user_key e value | None => (kNotFound, value) end in
      if negb ok then Some (Some GetTableError, value, stats, c)
      else match state with
           | kNotFound => SearchFiles files level ikey user_key value stats c
           | kFound => Some (Some GetOk, value, stats, c)
           | kDeleted => Some (Some GetNotFound, value, stats, c)
           | kCorrupt => Some (Some GetCorruption, value, stats, c)
           end
  end.

Fixpoint Get_levels (n : nat) (v : Version) (level : Z) (ikey user_key value : bytes) (stats : GetStats) (c : C)
    : option (GetStatus * bytes * GetStats * C) :=
  match n with
  | O => Some (GetOk, value, stats, c)
  | S n' =>
      files ← SearchedFiles v level ikey user_key;
      '(s, value, stats, c) ← SearchFiles files level ikey user_key value stats c;
      match s with
      | Some s => Some (s, value, stats, c)
      | None => Get_levels n' v (level + 1) ikey user_key value stats c
      end
  end.

(** The modes without the learned index ([MOD] other than 6 and 7). The status
    is ok when all levels have been searched: nothing sets it otherwise. *)
Definition Version_Get (v : Version) (k : LookupKey) (value : bytes) (c : C) : option (GetStatus * bytes * GetStats * C) :=
  Get_levels (Z.to_nat kNumLevels) v 0 (internal_key k) (lookup_user_key k) value
    {| seek_file := None; last_file_read := None |} c.

End get.

End version.

(** ** Lemmas: the order of keys and files *)

Section order.

Context (udom : bytes → Prop) (user : Comparator) (HL : ComparatorLaws udom user).
Context (Hudom : ∀ u, udom u → bytes_ok u).

Abbreviation icmp := (InternalKeyComparator.Compare user).
Abbreviation ucmp := (Compare user).
Abbreviation ikey := (ikey_ok udom).

Lemma icmp_le_trans a b c : ikey a → ikey b → ikey c → icmp a b ≤ 0 → icmp b c ≤ 0 → icmp a c ≤ 0.
Proof.
  intros Ha Hb Hc H1 H2.
  destruct (decide (icmp a b = 0)) as [E|]; [apply (icmp_eq udom) in E as ->; done|].
  destruct (decide (icmp b c = 0)) as [E|]; [apply (icmp_eq udom) in E as <-; done|].
  pose proof (icmp_trans udom user a b c Ha Hb Hc). lia.
Qed.

Lemma icmp_lt_le_trans a b c : ikey a → ikey b → ikey c → icmp a b < 0 → icmp b c ≤ 0 → icmp a c < 0.
Proof.
  intros Ha Hb Hc H1 H2.
  destruct (decide (icmp b c = 0)) as [E|]; [apply (icmp_eq udom) in E as <-; done|].
  by apply (icmp_trans udom user a b c); [..|lia].
Qed.

Lemma icmp_le_lt_trans a b c : ikey a → ikey b → ikey c → icmp a b ≤ 0 → icmp b c < 0 → icmp a c < 0.
Proof.
  intros Ha Hb Hc H1 H2.
  destruct (decide (icmp a b = 0)) as [E|]; [apply (icmp_eq udom) in E as ->; done|].
  by apply (icmp_trans udom user a b c); [..|lia|].
Qed.

Lemma icmp_ge a b : ikey a → ikey b → 0 ≤ icmp a b ↔ icmp b a ≤ 0.
Proof. intros Ha Hb. pose proof (icmp_anti udom user a b Ha Hb). pose proof (icmp_anti udom user b a Hb Ha). lia. Qed.

Lemma ucmp_ge a b : udom a → udom b → 0 ≤ ucmp a b ↔ ucmp b a ≤ 0.
Proof. intros Ha Hb. pose proof (cmp_anti _ _ Ha Hb). pose proof (cmp_anti _ _ Hb Ha). lia. Qed.

Lemma ucmp_le_trans a b c : udom a → udom b → udom c → ucmp a b ≤ 0 → ucmp b c ≤ 0 → ucmp a c ≤ 0.
Proof.
  intros Ha Hb Hc H1 H2.
  destruct (decide (ucmp a b = 0)) as [E|]; [apply cmp_eq in E as ->; done|].
  destruct (decide (ucmp b c = 0)) as [E|]; [apply cmp_eq in E as <-; done|].
  pose proof (cmp_trans a b c Ha Hb Hc). lia.
Qed.

Lemma ucmp_antisym a b : udom a → udom b → ucmp a b ≤ 0 → ucmp b a ≤ 0 → a = b.
Proof. intros Ha Hb H1 H2. apply (ucmp_ge a b Ha Hb) in H2. apply (cmp_eq a b Ha Hb). lia. Qed.

(** The order of internal keys by user key and tag. *)
Lemma icmp_user a b : ikey a → ikey b → icmp a b ≤ 0 → ucmp (ExtractUserKey a) (ExtractUserKey b) ≤ 0.
Proof.
  intros Ha Hb. rewrite (ICompare_unfold udom) by done. unfold andThen.
  destruct (Z.eqb_spec (ucmp (ExtractUserKey a) (ExtractUserKey b)) 0); lia.
Qed.

Lemma icmp_same_user a b :
  ikey a → ikey b → ExtractUserKey a = ExtractUserKey b → icmp a b ≤ 0 ↔ tag_of b ≤ tag_of a.
Proof.
  intros Ha Hb E. rewrite (ICompare_unfold udom), E by done.
  rewrite (proj2 (cmp_eq (ExtractUserKey b) (ExtractUserKey b) (proj2 (proj2 Hb)) (proj2 (proj2 Hb))) eq_refl).
  unfold andThen, zcmp. rewrite Z.eqb_refl, Z.gtb_ltb.
  destruct (Z.ltb_spec (tag_of a) (tag_of b)); [lia|]. destruct (Z.ltb_spec (tag_of b) (tag_of a)); lia.
Qed.

Lemma icmp_user_lt a b : ikey a → ikey b → ucmp (ExtractUserKey a) (ExtractUserKey b) < 0 → icmp a b < 0.
Proof.
  intros Ha Hb H. rewrite (ICompare_unfold udom) by done. unfold andThen.
  destruct (Z.eqb_spec (ucmp (ExtractUserKey a) (ExtractUserKey b)) 0); lia.
Qed.

(** A key that a write made. *)
Definition valid_key (k : bytes) : Prop :=
  ∃ u s t, k = InternalKey u s t ∧ udom u ∧ 0 ≤ s ≤ kMaxSequenceNumber.

Lemma InternalKey_parts u s t :
  udom u → 0 ≤ s ≤ kMaxSequenceNumber →
  ikey (InternalKey u s t) ∧ ExtractUserKey (InternalKey u s t) = u ∧ tag_of (InternalKey u s t) = PackSequenceAndType s t.
Proof.
  intros Hu Hs. pose proof (Pack_ok s t Hs). rewrite InternalKey_app.
  split; [apply ikey_ok_tagged; auto|]. by rewrite ExtractUserKey_tagged, tag_of_tagged.
Qed.

Lemma valid_ikey k : valid_key k → ikey k.
Proof. intros (u & s & t & -> & Hu & Hs). by apply InternalKey_parts. Qed.

Lemma max_seq_ok : 0 ≤ kMaxSequenceNumber ≤ kMaxSequenceNumber.
Proof. done. Qed.

Lemma Pack_mono s t s' :
  0 ≤ s ≤ kMaxSequenceNumber → 0 ≤ s' ≤ kMaxSequenceNumber →
  PackSequenceAndType s t ≤ PackSequenceAndType s' kTypeValue ↔ s ≤ s'.
Proof. intros Hs Hs'. rewrite !Pack_value by done. destruct t; cbn [ValueType_code]; lia. Qed.

(** A file's range, and the files of a level. *)
Definition range_ok (f : FileMetaData) : Prop :=
  valid_key (smallest f) ∧ valid_key (largest f) ∧ icmp (smallest f) (largest f) ≤ 0.

Lemma range_keys f : range_ok f → ikey (smallest f) ∧ ikey (largest f) ∧ icmp (smallest f) (largest f) ≤ 0.
Proof. intros (?%valid_ikey & ?%valid_ikey & ?). done. Qed.

Definition disjoint_sorted (files : list FileMetaData) : Prop :=
  StronglySorted (λ f g, icmp (largest f) (smallest g) < 0) files.

Lemma disjoint_largest files i j f g :
  Forall range_ok files → disjoint_sorted files → files !! i = Some f → files !! j = Some g → (i < j)%nat →
  icmp (largest f) (smallest g) < 0.
Proof.
  intros _ Hs. revert i j. induction Hs as [|x files Hs IH Hx]; intros i j Hi Hj Hij; [by rewrite lookup_nil in Hi|].
  destruct j as [|j]; [lia|]. destruct i as [|i]; cbn in Hi, Hj.
  - injection Hi as <-. rewrite Forall_forall in Hx. apply Hx. by eapply list_elem_of_lookup_2.
  - by apply (IH i j); [..|lia].
Qed.

(** ** Lemmas: FindFile *)

(** Before [i] the largest keys are below [key], from [i] on they are not. *)
Definition first_file (files : list FileMetaData) (key : bytes) (i : nat) : Prop :=
  (i ≤ length files)%nat ∧ ∀ j f, files !! j = Some f → (icmp (largest f) key < 0 ↔ (j < i)%nat).

Lemma FindFile_loop_ok fuel files key (left right : nat) :
  Forall range_ok files → disjoint_sorted files → ikey key → len files < 2 ^ 31 →
  (left ≤ right)%nat → (right ≤ length files)%nat → (right - left ≤ fuel)%nat →
  (∀ j f, files !! j = Some f → (j < left)%nat → icmp (largest f) key < 0) →
  (∀ j f, files !! j = Some f → (right ≤ j)%nat → 0 ≤ icmp (largest f) key) →
  ∃ i, FindFile_loop user fuel files key (Z.of_nat left) (Z.of_nat right) = Some (Z.of_nat i) ∧ first_file files key i.
Proof.
  intros Hr Hs Hk Hn. revert left right.
  assert (∀ i j f g, files !! i = Some f → files !! j = Some g → (i < j)%nat → icmp (largest f) (largest g) < 0) as Hmono.
  { intros i j f g Hi Hj Hij. rewrite Forall_forall in Hr.
    destruct (range_keys f) as (? & ? & ?); [by eapply Hr, list_elem_of_lookup_2|].
    destruct (range_keys g) as (? & ? & ?); [by eapply Hr, list_elem_of_lookup_2|].
    apply (icmp_lt_le_trans _ (smallest g)); [done..| |done].
    eapply disjoint_largest; [by apply Forall_forall|done..]. }
  assert (∀ f j, files !! j = Some f → ikey (largest f)) as Hlk.
  { intros f j Hj. rewrite Forall_forall in Hr. eapply range_keys, Hr. by eapply list_elem_of_lookup_2. }
  unfold len in Hn. induction fuel as [|fuel IH]; intros left right Hlr Hrl Hf Hbelow Habove; cbn [FindFile_loop].
  { assert (left = right) as <- by lia. rewrite Z.ltb_irrefl. exists left. split; [done|]. split; [done|]. intros j f Hj.
    split; [|by apply Hbelow]. intros Hlt. destruct (decide (j < left)%nat); [done|]. pose proof (Habove j f Hj ltac:(lia)). lia. }
  destruct (Z.ltb_spec (Z.of_nat left) (Z.of_nat right)) as [Hlt|Hge].
  2:{ assert (left = right) as <- by lia. exists left. split; [done|]. split; [done|]. intros j f Hj.
      split; [|by apply Hbelow]. intros Hlt. destruct (decide (j < left)%nat); [done|]. pose proof (Habove j f Hj ltac:(lia)). lia. }
  rewrite (u32_id (Z.of_nat left + Z.of_nat right)) by (unfold u32_ok; lia). set (mid := ((left + right) / 2)%nat).
  assert (((Z.of_nat left + Z.of_nat right) / 2) = Z.of_nat mid) as -> by (unfold mid; rewrite Nat2Z.inj_div, Nat2Z.inj_add; done).
  assert (left ≤ mid < right)%nat as Hmid.
  { unfold mid. pose proof (Nat.div_mod (left + right) 2). pose proof (Nat.mod_upper_bound (left + right) 2). lia. }
  rewrite Nat2Z.id. destruct (lookup_lt_is_Some_2 files mid) as [f Hm]; [lia|]. rewrite Hm. cbn [mbind option_bind].
  destruct (Z.ltb_spec (icmp (largest f) key) 0) as [Hlf|Hgf].
  - rewrite u32_id by (unfold u32_ok; lia). replace (Z.of_nat mid + 1) with (Z.of_nat (S mid)) by lia.
    apply IH; [lia..| |done]. intros j g Hj Hjl. destruct (decide (j = mid)) as [->|]; [by simplify_eq|].
    apply (icmp_trans udom user _ (largest f)); [by eapply Hlk|by eapply Hlk|done| |done]. apply (Hmono j mid); [done..|lia].
  - apply IH; [lia..|done|]. intros j g Hj Hjl. destruct (decide (j = mid)) as [->|]; [by simplify_eq|].
    apply icmp_ge; [by eapply Hlk|done|]. apply icmp_ge in Hgf; [|by eapply Hlk|done].
    eapply (icmp_le_trans _ (largest f)); [done|by eapply Hlk..|done|].
    pose proof (Hmono mid j f g Hm Hj ltac:(lia)). lia.
Qed.

Lemma FindFile_ok files key :
  Forall range_ok files → disjoint_sorted files → ikey key → len files < 2 ^ 31 →
  ∃ i, FindFile user files key = Some (Z.of_nat i) ∧ first_file files key i.
Proof.
  intros Hr Hs Hk Hn. unfold FindFile. pose proof (len_nonneg files). rewrite u32_id by (unfold u32_ok; lia).
  apply (FindFile_loop_ok (length files) files key 0 (length files)); try done; try lia.
  intros j f Hj Hl. apply lookup_lt_Some in Hj. lia.
Qed.

(** ** Lemmas: files that overlap a range *)

Definition overlaps (lo hi : option bytes) (f : FileMetaData) : bool := negb (AfterFile user lo f || BeforeFile user hi f).

(** The seek key of a user key is the least internal key of it. *)
Lemma seek_key_least u k :
  udom u → valid_key k → icmp k (InternalKey u kMaxSequenceNumber kValueTypeForSeek) < 0 ↔ ucmp (ExtractUserKey k) u < 0.
Proof.
  intros Hu Hk. pose proof (valid_ikey k Hk) as Hik.
  destruct (InternalKey_parts u kMaxSequenceNumber kValueTypeForSeek Hu) as (Hi & Ei & Et); [done|].
  split; [|intros; apply icmp_user_lt; rewrite ?Ei; done]. intros Hlt.
  pose proof (icmp_user k _ Hik Hi ltac:(lia)) as Hle. rewrite Ei in Hle.
  destruct (decide (ucmp (ExtractUserKey k) u = 0)) as [E|]; [|lia]. exfalso.
  assert (udom (ExtractUserKey k)) as Huk by apply Hik. apply cmp_eq in E; [|done..].
  assert (icmp (InternalKey u kMaxSequenceNumber kValueTypeForSeek) k ≤ 0).
  { apply icmp_same_user; [done..|congruence|]. rewrite Et. destruct Hk as (u' & s & t & -> & Hu' & Hs).
    destruct (InternalKey_parts u' s t Hu' Hs) as (_ & _ & ->). apply Pack_mono; [done|done|lia]. }
  apply (icmp_anti udom user) in Hlt; [|done..]. lia.
Qed.

Lemma SomeFileOverlapsRange_ok disjoint files lo hi :
  Forall range_ok files → (disjoint = true → disjoint_sorted files) → len files < 2 ^ 31 →
  (∀ k, lo = Some k → udom k) → (∀ k, hi = Some k → udom k) →
  SomeFileOverlapsRange user disjoint files lo hi = Some (existsb (overlaps lo hi) files).
Proof.
  intros Hr Hd Hn Hlo Hhi. unfold SomeFileOverlapsRange. destruct disjoint; [cbn [negb]|done]. specialize (Hd eq_refl).
  assert (∃ i, match lo with Some k => FindFile user files (InternalKey k kMaxSequenceNumber kValueTypeForSeek) | None => Some 0 end =
      Some (Z.of_nat i) ∧ ∀ j f, files !! j = Some f → (AfterFile user lo f = true ↔ (j < i)%nat)) as (i & -> & Hi).
  { destruct lo as [k|]; [|by exists 0%nat; split; [done|]; cbn; intros; split; [done|lia]].
    specialize (Hlo k eq_refl). destruct (FindFile_ok files _ Hr Hd (proj1 (InternalKey_parts k kMaxSequenceNumber kValueTypeForSeek Hlo max_seq_ok)) Hn)
      as (i & Hf & _ & Hi). exists i. split; [done|]. intros j f Hj. rewrite <- (Hi j f Hj).
    rewrite Forall_forall in Hr. destruct (Hr f) as (_ & Hv & _); [by eapply list_elem_of_lookup_2|].
    rewrite seek_key_least by done. unfold AfterFile. rewrite Z.gtb_ltb, Z.ltb_lt.
    symmetry. apply cmp_anti; [|done]. by apply valid_ikey. }
  cbn [mbind option_bind]. unfold len. destruct (Z.geb_spec (Z.of_nat i) (Z.of_nat (length files))) as [Hge|Hlt].
  { f_equal. symmetry. apply not_true_iff_false. rewrite existsb_exists. intros (f & Hin%list_elem_of_In & Ho).
    apply list_elem_of_lookup_1 in Hin as [j Hj]. pose proof (lookup_lt_Some _ _ _ Hj).
    unfold overlaps in Ho. rewrite (proj2 (Hi j f Hj)) in Ho by lia. done. }
  rewrite Nat2Z.id. destruct (lookup_lt_is_Some_2 files i) as [f Hf]; [lia|]. rewrite Hf. cbn [mbind option_bind]. f_equal.
  assert (AfterFile user lo f = false) as Haf.
  { apply not_true_iff_false. rewrite (Hi i f Hf). lia. }
  destruct (BeforeFile user hi f) eqn:Eb; cbn [negb].
  - symmetry. apply not_true_iff_false. rewrite existsb_exists. intros (g & Hin%list_elem_of_In & Ho).
    apply list_elem_of_lookup_1 in Hin as [j Hj]. unfold overlaps in Ho. apply negb_true_iff, orb_false_iff in Ho as [Ha Hb].
    assert (¬ (j < i)%nat) as Hji by (rewrite <- (Hi j g Hj), Ha; done).
    destruct hi as [h|]; [|done]. specialize (Hhi h eq_refl). unfold BeforeFile in Eb, Hb. zify_bool.
    rewrite Forall_forall in Hr. destruct (Hr f) as (Hs1 & Hl1 & Hsl1); [by eapply list_elem_of_lookup_2|].
    destruct (Hr g) as (Hs2 & _ & _); [by eapply list_elem_of_lookup_2|].
    destruct (decide (j = i)) as [->|Hne]; [simplify_eq; lia|].
    pose proof (disjoint_largest files i j f g ltac:(by apply Forall_forall) Hd Hf Hj ltac:(lia)) as Hlt2.
    apply valid_ikey in Hs1, Hl1, Hs2.
    assert (icmp (smallest f) (smallest g) ≤ 0) as Hle by (eapply (icmp_le_trans _ (largest f)); [done..|lia]).
    apply icmp_user in Hle; [|done..]. assert (udom (ExtractUserKey (smallest f)) ∧ udom (ExtractUserKey (smallest g))) as [? ?].
    { split; [apply Hs1|apply Hs2]. }
    apply ucmp_ge in Hb; [|done..]. assert (ucmp (ExtractUserKey (smallest f)) h ≤ 0) by (by eapply ucmp_le_trans).
    apply cmp_anti in Eb; [|done..]. lia.
  - symmetry. apply existsb_exists. exists f. split; [apply list_elem_of_In; by eapply list_elem_of_lookup_2|].
    unfold overlaps. by rewrite Haf, Eb.
Qed.

(** ** Lemmas: GetOverlappingInputs *)

Definition start (f : FileMetaData) : bytes := ExtractUserKey (smallest f).
Definition limit (f : FileMetaData) : bytes := ExtractUserKey (largest f).

Definition bound_ok (o : option bytes) : Prop := ∀ k, o = Some k → udom k.

Lemma bound_some k : bound_ok (Some k) → udom k.
Proof. intros H. by apply H. Qed.

#[local] Hint Resolve bound_some : core.

Lemma range_user f : range_ok f → udom (start f) ∧ udom (limit f) ∧ ucmp (start f) (limit f) ≤ 0.
Proof.
  intros (Hs & Hl & Hle)%range_keys. split; [apply Hs|]. split; [apply Hl|]. by apply icmp_user.
Qed.

Lemma overlaps_spec lo hi f :
  range_ok f → bound_ok lo → bound_ok hi →
  overlaps lo hi f = true ↔ (∀ x, lo = Some x → ucmp x (limit f) ≤ 0) ∧ (∀ x, hi = Some x → ucmp (start f) x ≤ 0).
Proof.
  intros Hr Hlo Hhi. destruct (range_user f Hr) as (Hs & Hl & _). unfold overlaps, AfterFile, BeforeFile.
  rewrite negb_true_iff, orb_false_iff. fold (start f) (limit f).
  assert (match lo with Some k => ucmp k (limit f) >? 0 | None => false end = false ↔ ∀ x, lo = Some x → ucmp x (limit f) ≤ 0) as ->.
  { destruct lo as [k|]; [|done]. rewrite Z.gtb_ltb, Z.ltb_ge. naive_solver. }
  assert (match hi with Some k => ucmp k (start f) <? 0 | None => false end = false ↔ ∀ x, hi = Some x → ucmp (start f) x ≤ 0) as ->; [|done].
  destruct hi as [k|]; [|done]. rewrite Z.ltb_ge, ucmp_ge by auto. naive_solver.
Qed.

(** The test of a turn. *)
Lemma turn_skip b e f :
  range_ok f → bound_ok b → bound_ok e →
  match b with Some b => ucmp (limit f) b <? 0 | None => false end ||
  match e with Some e => ucmp (start f) e >? 0 | None => false end = negb (overlaps b e f).
Proof.
  intros Hr Hb He. destruct (range_user f Hr) as (Hs & Hl & _). unfold overlaps, AfterFile, BeforeFile. rewrite negb_involutive.
  f_equal; [destruct b as [k|]; [|done]|destruct e as [k|]; [|done]]; fold (start f) (limit f); rewrite Z.gtb_ltb; apply eq_bool_prop_intro;
    rewrite !Is_true_true, !Z.ltb_lt; [|symmetry]; apply cmp_anti; auto.
Qed.

(** Deeper levels: a filter. *)
Lemma Overlap_loop_deep fuel level files st :
  level ≠ 0 → Forall range_ok files → bound_ok (ov_begin st) → bound_ok (ov_end st) → (length files - ov_i st ≤ fuel)%nat →
  Overlap_loop user fuel level files st = Some {|
    ov_i := max (ov_i st) (length files); ov_begin := ov_begin st; ov_end := ov_end st;
    ov_inputs := ov_inputs st ++ filter (λ f, overlaps (ov_begin st) (ov_end st) f = true) (drop (ov_i st) files) |}.
Proof.
  intros Hlv Hr. revert st. induction fuel as [|fuel IH]; intros st Hb He Hf; cbn [Overlap_loop].
  { rewrite lookup_ge_None_2, drop_ge by lia. rewrite filter_nil, app_nil_r, Nat.max_l by lia. by destruct st. }
  destruct (files !! ov_i st) as [f|] eqn:E.
  2:{ apply lookup_ge_None_1 in E. rewrite drop_ge by lia. rewrite filter_nil, app_nil_r, Nat.max_l by lia. by destruct st. }
  assert (range_ok f) as Hrf by (rewrite Forall_forall in Hr; by eapply Hr, list_elem_of_lookup_2).
  pose proof (lookup_lt_Some _ _ _ E) as Hlt. unfold Overlap_turn. fold (start f) (limit f). rewrite turn_skip by done.
  rewrite (drop_S _ _ _ E), filter_cons, (proj2 (Z.eqb_neq level 0)) by done.
  destruct (overlaps (ov_begin st) (ov_end st) f) eqn:Eo; cbn [negb].
  - rewrite IH by (cbn; auto; lia). cbn. rewrite <- app_assoc. by rewrite !Nat.max_r by lia.
  - rewrite IH by (cbn; auto; lia). cbn. by rewrite !Nat.max_r by lia.
Qed.

(** Level 0: the range grows until it is closed. *)
Definition inside (b e : option bytes) (f : FileMetaData) : Prop :=
  (∀ x, b = Some x → ucmp x (start f) ≤ 0) ∧ (∀ x, e = Some x → ucmp (limit f) x ≤ 0).

(** [b'], [e'] is at least as wide as [b], [e]. *)
Definition wider (b e b' e' : option bytes) : Prop :=
  match b, b' with None, None => True | Some x, Some y => ucmp y x ≤ 0 | _, _ => False end ∧
  match e, e' with None, None => True | Some x, Some y => ucmp x y ≤ 0 | _, _ => False end.

(** Files that stick out of the range. *)
Definition sticks_out (b e : option bytes) (files : list FileMetaData) : nat :=
  (match b with Some x => length (filter (λ f, (ucmp (start f) x < 0)%Z) files) | None => 0 end +
   match e with Some x => length (filter (λ f, (ucmp (limit f) x > 0)%Z) files) | None => 0 end)%nat.

Lemma filter_shrinks {A} (P Q : A → Prop) `{∀ x, Decision (P x), ∀ x, Decision (Q x)} l y :
  (∀ x, x ∈ l → P x → Q x) → y ∈ l → Q y → ¬ P y → (length (filter P l) < length (filter Q l))%nat.
Proof.
  intros HPQ Hin HQ HP. assert ((length (filter P l) ≤ length (filter Q l))%nat ∧
    (y ∈ l → length (filter P l) < length (filter Q l))%nat) as [_ Hlt]; [|by apply Hlt].
  clear Hin. induction l as [|x l IH]; [split; [cbn; lia|by intros ?%not_elem_of_nil]|].
  destruct IH as [Hle Hlt]; [intros; apply HPQ; [by right|done]|]. pose proof (HPQ x ltac:(by left)) as Hx. rewrite !filter_cons.
  split; [|intros [<-|Hin]%elem_of_cons]; repeat case_decide; cbn; try lia; try tauto.
  all: specialize (Hlt Hin); lia.
Qed.

Lemma ucmp_lt_trans a b c : udom a → udom b → udom c → ucmp a b < 0 → ucmp b c < 0 → ucmp a c < 0.
Proof. intros Ha Hb Hc. exact (cmp_trans a b c Ha Hb Hc). Qed.

Lemma ucmp_gt_trans a b c : udom a → udom b → udom c → ucmp a b > 0 → ucmp b c > 0 → ucmp a c > 0.
Proof.
  intros Ha Hb Hc H1 H2. pose proof (cmp_anti b a Hb Ha) as E1. pose proof (cmp_anti c b Hc Hb) as E2.
  pose proof (cmp_anti c a Hc Ha) as E3. pose proof (ucmp_lt_trans c b a Hc Hb Ha). lia.
Qed.

(** What the loop has established when it is at file [ov_i]. *)
Record overlap_inv (files : list FileMetaData) (b0 e0 : option bytes) (st : OverlapState) : Prop := {
  oi_begin : bound_ok (ov_begin st);
  oi_end : bound_ok (ov_end st);
  oi_i : (ov_i st ≤ length files)%nat;
  oi_inputs : ov_inputs st = filter (λ f, overlaps (ov_begin st) (ov_end st) f = true) (take (ov_i st) files);
  oi_inside : Forall (inside (ov_begin st) (ov_end st)) (ov_inputs st);
  oi_wider : wider b0 e0 (ov_begin st) (ov_end st);
  oi_least : ∀ b e, bound_ok b → bound_ok e → wider b0 e0 b e →
    (∀ f, f ∈ files → overlaps b e f = true → inside b e f) → wider (ov_begin st) (ov_end st) b e
}.

Lemma wider_overlaps b e b' e' f :
  range_ok f → bound_ok b → bound_ok e → bound_ok b' → bound_ok e' → wider b e b' e' →
  overlaps b e f = true → overlaps b' e' f = true.
Proof.
  intros Hr Hb He Hb' He' [Hwb Hwe]. rewrite !overlaps_spec by done. destruct (range_user f Hr) as (Hs & Hl & _).
  intros [Hlo Hhi]. split; intros x ->.
  - destruct b as [y|]; [|done]. eapply (ucmp_le_trans x y); auto.
  - destruct e as [y|]; [|done]. eapply (ucmp_le_trans _ y); auto.
Qed.

Lemma wider_refl b e : bound_ok b → bound_ok e → wider b e b e.
Proof.
  intros Hb He. split; [destruct b as [x|]|destruct e as [x|]]; try done; rewrite (user_le_refl udom); auto; lia.
Qed.

Lemma wider_begin b e x y :
  bound_ok b → bound_ok e → b = Some x → udom y → ucmp y x ≤ 0 → wider b e (Some y) e.
Proof. intros Hb He -> Hy Hle. split; [done|]. apply (wider_refl (Some x) e Hb He). Qed.

Lemma wider_end b e x y :
  bound_ok b → bound_ok e → e = Some x → udom y → ucmp x y ≤ 0 → wider b e b (Some y).
Proof. intros Hb He -> Hy Hle. split; [|done]. apply (wider_refl b (Some x) Hb He). Qed.

Lemma wider_trans b e b1 e1 b2 e2 :
  bound_ok b → bound_ok e → bound_ok b1 → bound_ok e1 → bound_ok b2 → bound_ok e2 →
  wider b e b1 e1 → wider b1 e1 b2 e2 → wider b e b2 e2.
Proof.
  intros ? ? ? ? ? ? [H1 H2] [H3 H4]. split.
  - destruct b as [x|], b1 as [y|], b2 as [z|]; try done. eapply (ucmp_le_trans z y); auto.
  - destruct e as [x|], e1 as [y|], e2 as [z|]; try done. eapply (ucmp_le_trans x y); auto.
Qed.

(** A restart: file [f], which overlaps the range, sticks out of it, and the
    range grows to cover it on that side. *)
Lemma restart_inv files b0 e0 st f b e :
  Forall range_ok files → bound_ok b0 → bound_ok e0 → overlap_inv files b0 e0 st → f ∈ files →
  overlaps (ov_begin st) (ov_end st) f = true → bound_ok b → bound_ok e → wider (ov_begin st) (ov_end st) b e →
  (∀ b' e', bound_ok b' → bound_ok e' → wider (ov_begin st) (ov_end st) b' e' → inside b' e' f → wider b e b' e') →
  overlap_inv files b0 e0 {| ov_i := 0; ov_begin := b; ov_end := e; ov_inputs := [] |}.
Proof.
  intros Hr Hb0 He0 [Hb He _ _ _ Hw Hleast] Hf Ho Hb' He' Hwider Hmin. rewrite Forall_forall in Hr. split; cbn; try done; try lia.
  - by apply (wider_trans _ _ (ov_begin st) (ov_end st)).
  - intros b2 e2 Hb2 He2 Hw2 Hclosed. pose proof (Hleast b2 e2 Hb2 He2 Hw2 Hclosed) as H2.
    apply Hmin; [done..|]. apply Hclosed; [done|]. by eapply (wider_overlaps (ov_begin st) (ov_end st)); auto.
Qed.

Lemma Overlap_turn_inv files b0 e0 st f :
  Forall range_ok files → bound_ok b0 → bound_ok e0 → overlap_inv files b0 e0 st → files !! ov_i st = Some f →
  let st' := Overlap_turn user 0 f st in
  overlap_inv files b0 e0 st' ∧
  (ov_i st' = 0%nat ∧ (sticks_out (ov_begin st') (ov_end st') files < sticks_out (ov_begin st) (ov_end st) files)%nat ∨
   ov_i st' = S (ov_i st) ∧ ov_begin st' = ov_begin st ∧ ov_end st' = ov_end st).
Proof.
  intros Hr Hb0 He0 Hinv Hf. assert (f ∈ files) as Hin by by eapply list_elem_of_lookup_2.
  pose proof Hr as Hr'. rewrite Forall_forall in Hr'. pose proof (Hr' f Hin) as Hrf. destruct (range_user f Hrf) as (Hs & Hl & Hsl).
  pose proof Hinv as [Hb He Hi Hins Hinside Hw Hleast]. pose proof (lookup_lt_Some _ _ _ Hf) as Hlt.
  unfold Overlap_turn. fold (start f) (limit f). rewrite turn_skip by done.
  destruct (overlaps (ov_begin st) (ov_end st) f) eqn:Eo; cbn [negb Z.eqb].
  2:{ split; [|by right]. split; cbn; try done; try lia. rewrite (take_S_r _ _ _ Hf), filter_app, filter_cons, decide_False, filter_nil, app_nil_r by congruence. done. }
  destruct (match ov_begin st with Some b => ucmp (start f) b <? 0 | None => false end) eqn:E1.
  { destruct (ov_begin st) as [x|] eqn:Ex; [|done]. zify_bool. assert (udom x) as Hx by by apply Hb.
    split.
    - eapply restart_inv; eauto.
      + by rewrite Ex.
      + by intros k [= <-].
      + eapply wider_begin; [by rewrite Ex|done|done|done|lia].
      + intros b' e' Hb' He' [Hwb Hwe] [Hi1 _]. rewrite Ex in Hwb. destruct b' as [y|]; [|done]. split; [|done]. by apply Hi1.
    - left. split; [done|]. cbn. unfold sticks_out. apply Nat.add_lt_mono_r. eapply (filter_shrinks _ _ _ f); [|done|done|].
      + intros g Hg Hlg. destruct (range_user g (Hr' g Hg)) as (? & _). eapply (ucmp_lt_trans _ (start f)); done.
      + rewrite (user_le_refl udom) by done. lia. }
  destruct (match ov_end st with Some e => ucmp (limit f) e >? 0 | None => false end) eqn:E2.
  { destruct (ov_end st) as [x|] eqn:Ex; [|done]. rewrite Z.gtb_ltb in E2. zify_bool. assert (udom x) as Hx by by apply He.
    assert (ucmp x (limit f) ≤ 0) as Hxl by (apply ucmp_ge; [done..|lia]).
    split.
    - eapply restart_inv; eauto.
      + by rewrite Ex.
      + by intros k [= <-].
      + eapply wider_end; [done|by rewrite Ex|done|done|done].
      + intros b' e' Hb' He' [Hwb Hwe] [_ Hi2]. rewrite Ex in Hwe. destruct e' as [y|]; [|done]. split; [done|]. by apply Hi2.
    - left. split; [done|]. cbn. unfold sticks_out. apply Nat.add_lt_mono_l. eapply (filter_shrinks _ _ _ f); [|done|lia|].
      + intros g Hg Hlg. destruct (range_user g (Hr' g Hg)) as (_ & ? & _). eapply (ucmp_gt_trans _ (limit f)); try done. lia.
      + rewrite (user_le_refl udom) by done. lia. }
  split; [|by right]. split; cbn; try done; try lia.
  - rewrite (take_S_r _ _ _ Hf), filter_app, filter_cons, decide_True, filter_nil by done. by rewrite Hins.
  - apply Forall_app. split; [done|]. constructor; [|constructor]. split; intros x Hx.
    + rewrite Hx in E1. zify_bool. apply ucmp_ge in E1; auto.
    + rewrite Hx in E2. rewrite Z.gtb_ltb in E2. zify_bool. lia.
Qed.


Lemma Overlap_loop_zero fuel files b0 e0 st :
  Forall range_ok files → bound_ok b0 → bound_ok e0 → overlap_inv files b0 e0 st →
  (sticks_out (ov_begin st) (ov_end st) files * length files + (length files - ov_i st) ≤ fuel)%nat →
  ∃ st', Overlap_loop user fuel 0 files st = Some st' ∧ overlap_inv files b0 e0 st' ∧ ov_i st' = length files.
Proof.
  intros Hr Hb0 He0. revert st. induction fuel as [|fuel IH]; intros st Hinv Hf; cbn [Overlap_loop]; pose proof (oi_i _ _ _ _ Hinv) as Hi.
  { rewrite lookup_ge_None_2 by lia. exists st. split_and!; [done..|lia]. }
  destruct (files !! ov_i st) as [f|] eqn:E.
  2:{ apply lookup_ge_None_1 in E. exists st. split_and!; [done..|lia]. }
  pose proof (lookup_lt_Some _ _ _ E). destruct (Overlap_turn_inv files b0 e0 st f Hr Hb0 He0 Hinv E) as [Hinv' Hcase].
  apply IH; [done|]. destruct Hcase as [[-> Hlt]|(-> & -> & ->)]; [nia|lia].
Qed.

Lemma sticks_out_bound b e files : (sticks_out b e files ≤ 2 * length files)%nat.
Proof.
  unfold sticks_out. assert (∀ (P : FileMetaData → Prop) `{∀ x, Decision (P x)}, (length (filter P files) ≤ length files)%nat) as H by (intros; apply length_filter).
  destruct b as [x|], e as [y|]; cbn; repeat match goal with |- context [length (filter ?P files)] =>
    pose proof (H P _); generalize dependent (length (filter P files)); intros end; lia.
Qed.

Lemma bound_ikey o : (∀ k, o = Some k → ikey k) → bound_ok (ExtractUserKey <$> o).
Proof. intros H k Hk. destruct o as [x|]; [|done]. injection Hk as <-. by apply H. Qed.

(** Two files share user keys. *)
Definition user_overlap (f g : FileMetaData) : Prop := ucmp (start f) (limit g) ≤ 0 ∧ ucmp (start g) (limit f) ≤ 0.

Lemma inside_closed files b e f g :
  Forall range_ok files → bound_ok b → bound_ok e → f ∈ files → g ∈ files → inside b e g → user_overlap f g → overlaps b e f = true.
Proof.
  intros Hr Hb He Hf Hg [Hi1 Hi2] [H1 H2]. rewrite Forall_forall in Hr.
  destruct (range_user f (Hr f Hf)) as (? & ? & ?), (range_user g (Hr g Hg)) as (? & ? & ?). apply overlaps_spec; [by apply Hr|done..|].
  split; intros x Hx.
  - eapply (ucmp_le_trans x (start g)); auto.
  - eapply (ucmp_le_trans _ (limit g)); auto.
Qed.

End order.

(** ** Properties: files and ranges *)

(** [FindFile]'s binary search returns the first file whose largest key is
    at or after the key, and [SomeFileOverlapsRange], which uses it on sorted
    disjoint files, agrees with the test of every file. *)
Theorem find_file_correct udom user files key lo hi :
  ComparatorLaws udom user → (∀ u, udom u → bytes_ok u) →
  Forall (range_ok udom user) files → disjoint_sorted user files → len files < 2 ^ 31 →
  ikey_ok udom key → bound_ok udom lo → bound_ok udom hi →
  (∃ i, FindFile user files key = Some (Z.of_nat i) ∧ first_file user files key i) ∧
  ∀ disjoint, SomeFileOverlapsRange user disjoint files lo hi =
    Some (existsb (λ f, negb (AfterFile user lo f || BeforeFile user hi f)) files).
Proof.
  intros HL Hu Hr Hs Hn Hk Hlo Hhi. split; [by apply (FindFile_ok udom)|].
  intros disjoint. by apply (SomeFileOverlapsRange_ok udom).
Qed.

(** C27: [GetOverlappingInputs] ends and picks the right files. In a deeper level
    they are the files that overlap the range. In level 0 the range first grows
    to the least one that contains it and every file that overlaps it; so no
    file that is left behind shares user keys with one that is taken. *)
Theorem overlapping_inputs_correct udom user level files begin end_ :
  ComparatorLaws udom user → (∀ u, udom u → bytes_ok u) → Forall (range_ok udom user) files →
  (∀ k, begin = Some k → ikey_ok udom k) → (∀ k, end_ = Some k → ikey_ok udom k) →
  ∃ inputs b e, GetOverlappingInputs user level files begin end_ = Some inputs ∧
    inputs = filter (λ f, overlaps user b e f = true) files ∧
    wider user (ExtractUserKey <$> begin) (ExtractUserKey <$> end_) b e ∧
    if level =? 0 then
      Forall (inside user b e) inputs ∧
      (∀ f g, f ∈ files → g ∈ inputs → user_overlap user f g → f ∈ inputs) ∧
      ∀ b' e', bound_ok udom b' → bound_ok udom e' → wider user (ExtractUserKey <$> begin) (ExtractUserKey <$> end_) b' e' →
        (∀ f, f ∈ files → overlaps user b' e' f = true → inside user b' e' f) → wider user b e b' e'
    else b = ExtractUserKey <$> begin ∧ e = ExtractUserKey <$> end_.
Proof.
  intros HL Hu Hr Hb He. apply bound_ikey in Hb, He. unfold GetOverlappingInputs.
  set (st := {| ov_i := 0; ov_begin := _; ov_end := _; ov_inputs := [] |}).
  destruct (Z.eqb_spec level 0) as [->|Hlv].
  - destruct (Overlap_loop_zero udom user HL Hu (overlap_fuel files) files (ov_begin st) (ov_end st) st Hr Hb He)
      as (st' & -> & [Hb' He' _ Hins Hinside Hw Hleast] & Hi).
    + split; cbn; try done; try lia. by apply (wider_refl udom).
    + unfold overlap_fuel. pose proof (sticks_out_bound user (ov_begin st) (ov_end st) files). cbn [ov_i st]. nia.
    + cbn [mbind option_bind]. rewrite Hi, firstn_all in Hins. exists (ov_inputs st'), (ov_begin st'), (ov_end st').
      split_and!; try done. intros f g Hf Hg Ho. rewrite Hins in Hg |- *. apply list_elem_of_filter in Hg as [Hog Hg].
      apply list_elem_of_filter. split; [|done]. eapply (inside_closed udom); [done..| |done].
      rewrite Forall_forall in Hinside. apply Hinside. rewrite Hins. by apply list_elem_of_filter.
  - rewrite (Overlap_loop_deep udom user HL Hu (overlap_fuel files)); try done.
    + cbn. eexists _, _, _. split; [done|]. split; [by rewrite drop_0|]. split; [|done]. by apply (wider_refl udom).
    + unfold overlap_fuel. cbn. nia.
Qed.

(** ** PickLevelForMemTableOutput *)

(** The files of every level have ranges, those of a deeper level sorted. *)
Record levels_ok (udom : bytes → Prop) (user : Comparator) (v : Version) : Prop := {
  lo_ranges level : Forall (range_ok udom user) (level_files v level);
  lo_sorted level : 0 < level → disjoint_sorted user (level_files v level);
  lo_count level : len (level_files v level) < 2 ^ 31
}.

Section pick_level.

Context (udom : bytes → Prop) (user : Comparator) (HL : ComparatorLaws udom user).
Context (Hudom : ∀ u, udom u → bytes_ok u).

(** No file of the level shares user keys with the range. *)
Definition level_free (v : Version) (lo hi : bytes) (level : Z) : Prop :=
  Forall (λ f, overlaps user (Some lo) (Some hi) f = false) (level_files v level).

Lemma OverlapInLevel_ok v level lo hi :
  levels_ok udom user v → udom lo → udom hi → 0 ≤ level →
  ∃ b, OverlapInLevel user v level (Some lo) (Some hi) = Some b ∧ (b = false → level_free v lo hi level).
Proof.
  intros [Hr Hs Hn] Hlo Hhi Hl. unfold OverlapInLevel.
  rewrite (SomeFileOverlapsRange_ok udom user HL Hudom) by first [done | by intros k [= <-] | intros ?; apply Hs; lia | auto].
  eexists. split; [done|]. intros He. apply Forall_forall. intros f Hf. apply not_true_iff_false. intros Ho.
  apply not_true_iff_false in He. apply He, existsb_exists. exists f. split; [by apply list_elem_of_In|done].
Qed.

End pick_level.

(** A flushed memtable goes to level 0. Whatever the levels hold, also when
    no file shares keys with it: [kMaxMemCompactLevel] is 0, although its
    comment says that such a table is pushed to level 2. *)
Theorem pick_level_zero udom user max_file_size v lo hi :
  ComparatorLaws udom user → (∀ u, udom u → bytes_ok u) → levels_ok udom user v → udom lo → udom hi →
  PickLevelForMemTableOutput user max_file_size v lo hi = Some 0.
Proof.
  intros HL Hu Hv Hlo Hhi. unfold PickLevelForMemTableOutput.
  destruct (OverlapInLevel_ok udom user HL Hu v 0 lo hi Hv Hlo Hhi ltac:(lia)) as (b & -> & _). by destruct b.
Qed.

(** ** Lookup *)

(** The first entry at or after a key. *)
Definition find_at (user : Comparator) (k : bytes) (es : list (bytes * bytes)) : option (bytes * bytes) :=
  head (filter (λ e, 0 ≤ InternalKeyComparator.Compare user e.1 k) es).

Section lookup.

Context (udom : bytes → Prop) (user : Comparator) (HL : ComparatorLaws udom user).
Context (Hudom : ∀ u, udom u → bytes_ok u).
Context (contents : FileMetaData → list (bytes * bytes)).

Abbreviation icmp := (InternalKeyComparator.Compare user).
Abbreviation ucmp := (Compare user).

Definition seq_of (k : bytes) : Z := Z.shiftr (tag_of k) 8.

(** A file's metadata describe its entries. *)
Record file_wf (f : FileMetaData) : Prop := {
  fw_keys : Forall (λ e, valid_key udom e.1) (contents f);
  fw_sorted : StronglySorted (λ a b, icmp a.1 b.1 < 0) (contents f);
  fw_smallest : fst <$> head (contents f) = Some (smallest f);
  fw_largest : fst <$> last (contents f) = Some (largest f)
}.

(** What the table cache promises for a file, as long as its state is good for
    [n] more reads ([cache_ok n]): the first entry at or after the key, or
    nothing if a filter tells that its user key is another one. *)
Class TableReaderLaws (C : Type) (T : TableReader C) (cache_ok : nat → C → Prop) : Prop :=
  table_read_law f k n c : file_wf f → ikey_ok udom k → cache_ok (S n) c →
    ∃ r c', table_read f k c = Some (r, true, c') ∧ cache_ok n c' ∧
      (r = find_at user k (contents f) ∨
       r = None ∧ ∀ e, find_at user k (contents f) = Some e → ExtractUserKey e.1 ≠ ExtractUserKey k).

Context {C : Type} {T : TableReader C} (cache_ok : nat → C → Prop) {HT : TableReaderLaws C T cache_ok}.

(** Entries of [u] that snapshot [s] sees, and the newest of them. *)
Definition sees (u : bytes) (s : Z) (e : bytes * bytes) : Prop := ExtractUserKey e.1 = u ∧ seq_of e.1 ≤ s.
Definition newest (u : bytes) (s : Z) (es : list (bytes * bytes)) (e : bytes * bytes) : Prop :=
  e ∈ es ∧ sees u s e ∧ ∀ e', e' ∈ es → sees u s e' → seq_of e'.1 ≤ seq_of e.1.

(** The status and value for the newest entry. *)
Definition outcome (e : bytes * bytes) (value : bytes) : GetStatus * bytes :=
  match ParseInternalKey e.1 with
  | Some p => match type p with kTypeValue => (GetOk, e.2) | kTypeDeletion => (GetNotFound, value) end
  | None => (GetCorruption, value)
  end.

Lemma valid_seq u s t : udom u → 0 ≤ s ≤ kMaxSequenceNumber → seq_of (InternalKey u s t) = s.
Proof. intros Hu Hs. unfold seq_of. destruct (InternalKey_parts udom Hudom u s t Hu Hs) as (_ & _ & ->). by apply Pack_type. Qed.

(** In the order of internal keys, the entries of [u] that [s] sees are those
    at or after the lookup key. *)
Lemma sees_ge u s k :
  udom u → 0 ≤ s ≤ kMaxSequenceNumber → valid_key udom k → ExtractUserKey k = u →
  seq_of k ≤ s ↔ 0 ≤ icmp k (InternalKey u s kValueTypeForSeek).
Proof.
  intros Hu Hs Hk E. pose proof (valid_ikey udom Hudom k Hk) as Hik.
  destruct (InternalKey_parts udom Hudom u s kValueTypeForSeek Hu Hs) as (Hi & Ei & Et).
  rewrite (icmp_ge udom user HL) by done. rewrite (icmp_same_user udom user HL) by (done || congruence). rewrite Et.
  destruct Hk as (u' & q & t & -> & Hu' & Hq). rewrite valid_seq by done.
  destruct (InternalKey_parts udom Hudom u' q t Hu' Hq) as (_ & _ & ->). symmetry. by apply Pack_mono.
Qed.

Lemma seq_mono a b :
  valid_key udom a → valid_key udom b → ExtractUserKey a = ExtractUserKey b → icmp a b ≤ 0 → seq_of b ≤ seq_of a.
Proof.
  intros Ha Hb E Hle. apply (icmp_same_user udom user HL) in Hle; [|by apply (valid_ikey udom Hudom)..|done].
  unfold seq_of. rewrite !Z.shiftr_div_pow2 by lia. apply Z.div_le_mono; lia.
Qed.

Lemma find_at_spec k es :
  StronglySorted (λ a b, icmp a.1 b.1 < 0) es →
  match find_at user k es with
  | Some e => e ∈ es ∧ 0 ≤ icmp e.1 k ∧ ∀ e', e' ∈ es → 0 ≤ icmp e'.1 k → e' = e ∨ icmp e.1 e'.1 < 0
  | None => ∀ e, e ∈ es → icmp e.1 k < 0
  end.
Proof.
  unfold find_at. induction 1 as [|x es Hs IH Hx]; [by intros e He%not_elem_of_nil|]. rewrite filter_cons.
  case_decide as Hd; cbn [head].
  - split; [by left|]. split; [done|]. intros e' [->|He']%elem_of_cons; [by left|]. right. rewrite Forall_forall in Hx. by apply Hx.
  - destruct (head _) as [e|].
    + destruct IH as (Hin & Hge & Hall). split; [by right|]. split; [done|]. intros e' [->|He']%elem_of_cons Hge'; [lia|auto].
    + intros e [->|He]%elem_of_cons; [lia|auto].
Qed.

(** The answer of one file. *)
Lemma file_search f u s value n c :
  file_wf f → udom u → 0 ≤ s ≤ kMaxSequenceNumber → cache_ok (S n) c →
  ∃ entry c', table_read f (InternalKey u s kValueTypeForSeek) c = Some (entry, true, c') ∧ cache_ok n c' ∧
  let '(state, value') := match entry with Some e => SaveValue user u e value | None => (kNotFound, value) end in
  ((state = kNotFound ∧ value' = value ∧ Forall (λ e, ¬ sees u s e) (contents f)) ∨
   ∃ e, newest u s (contents f) e ∧
     (state, value') = match outcome e value with (GetOk, v) => (kFound, v) | (_, v) => (kDeleted, v) end).
Proof.
  intros Hf Hu Hs Hc. set (k := InternalKey u s kValueTypeForSeek).
  destruct (InternalKey_parts udom Hudom u s kValueTypeForSeek Hu Hs) as (Hik & Ek & _). fold k in Hik, Ek.
  destruct (HT f k n c Hf Hik Hc) as (r & c' & Er & Hc' & Hr). exists r, c'. split; [done|]. split; [done|]. clear Er. pose proof (find_at_spec k (contents f) (fw_sorted f Hf)) as Hspec.
  pose proof (fw_keys f Hf) as Hkeys. rewrite Forall_forall in Hkeys.
  assert (∀ e, find_at user k (contents f) = Some e → ExtractUserKey e.1 = u → newest u s (contents f) e) as Hnew.
  { intros e Ee Eu. rewrite Ee in Hspec. destruct Hspec as (Hin & Hge & Hall). split; [done|]. split.
    - split; [done|]. by apply (proj2 (sees_ge u s e.1 Hu Hs (Hkeys e Hin) Eu)).
    - intros e' Hin' [Eu' Hs']. apply (proj1 (sees_ge u s e'.1 Hu Hs (Hkeys e' Hin') Eu')) in Hs'.
      destruct (Hall e' Hin' Hs') as [->|Hlt]; [done|]. apply seq_mono; [by apply Hkeys..|congruence|lia]. }
  assert ((∀ e, find_at user k (contents f) = Some e → ExtractUserKey e.1 ≠ u) → Forall (λ e, ¬ sees u s e) (contents f)) as Hnone.
  { intros Hne. apply Forall_forall. intros e Hin [Eu Hse]. apply (proj1 (sees_ge u s e.1 Hu Hs (Hkeys e Hin) Eu)) in Hse. fold k in Hse.
    destruct (find_at user k (contents f)) as [e1|] eqn:Ee; [|specialize (Hspec e Hin); lia].
    destruct Hspec as (Hin1 & Hge1 & Hall). specialize (Hne e1 eq_refl). destruct (Hall e Hin Hse) as [->|Hlt]; [done|].
    pose proof (valid_ikey udom Hudom _ (Hkeys e Hin)) as Hie. pose proof (valid_ikey udom Hudom _ (Hkeys e1 Hin1)) as Hie1.
    apply Hne. apply (ucmp_antisym udom user HL); [apply Hie1|done|..].
    - rewrite <- Eu. apply (icmp_user udom user); [done..|lia].
    - rewrite <- Ek. apply (icmp_user udom user); [done..|]. by apply (icmp_ge udom user HL). }
  destruct Hr as [->|[-> Hne]].
  - destruct (find_at user k (contents f)) as [e|] eqn:Ee; [|left; split_and!; [done..|]; by apply Hnone].
    destruct (Hkeys e (proj1 Hspec)) as (u' & q & t & Hk' & Hu' & Hq). unfold SaveValue. rewrite Hk'.
    assert (ExtractUserKey e.1 = u') as Eu' by (rewrite Hk'; by apply (InternalKey_parts udom)).
    rewrite ParseInternalKey_make by done. cbn [DBFormat.user_key type].
    destruct (Z.eqb_spec (ucmp u' u) 0) as [E|E]; rewrite (cmp_eq _ _ Hu' Hu) in E.
    + subst u'. pose proof (Hnew e eq_refl E) as Hne. destruct t; (right; exists e; split; [done|]);
        unfold outcome; rewrite Hk', ParseInternalKey_make by done; done.
    + left. split_and!; [done..|]. apply Hnone. intros e2 [= <-]. congruence.
  - left. split_and!; [done..|]. apply Hnone. intros e Ee. rewrite <- Ek. by apply Hne.
Qed.

Definition hides (u : bytes) (s : Z) (f : FileMetaData) : Prop := Forall (λ e, ¬ sees u s e) (contents f).

Lemma SearchFiles_spec files level u s value stats n m c :
  Forall file_wf files → udom u → 0 ≤ s ≤ kMaxSequenceNumber → cache_ok m c → (length files + n ≤ m)%nat →
  ∃ stats' m' c', cache_ok m' c' ∧ (n ≤ m')%nat ∧
  ((∃ before f after e, files = before ++ f :: after ∧ Forall (hides u s) before ∧ newest u s (contents f) e ∧
     SearchFiles user files level (InternalKey u s kValueTypeForSeek) u value stats c =
       Some (Some (outcome e value).1, (outcome e value).2, stats', c')) ∨
  (Forall (hides u s) files ∧
     SearchFiles user files level (InternalKey u s kValueTypeForSeek) u value stats c = Some (None, value, stats', c'))).
Proof.
  intros Hwf Hu Hs. revert stats m c. induction Hwf as [|f files Hf Hwf IH]; intros stats m c Hc Hm; [exists stats, m, c; split; [done|]; split; [done|]; by right|].
  cbn [SearchFiles]. cbn [length] in Hm. destruct m as [|m]; [lia|].
  destruct (file_search f u s value m c Hf Hu Hs Hc) as (entry & c1 & -> & Hc1 & Hfs). cbn [mbind option_bind].
  destruct (match entry with Some e => _ | None => _ end) as [state value'].
  destruct Hfs as [(-> & -> & Hhide)|(e & Hnew & Hst)]; cbn [negb].
  - destruct (IH (charge f level stats) m c1 Hc1 ltac:(lia)) as (stats' & m' & c' & Hc' & Hm' & [(before & g & after & e & -> & Hb & Hn & Heq)|(Hb & Heq)]);
      exists stats', m', c'; (split; [done|]); (split; [done|]).
    + left. exists (f :: before), g, after, e. split_and!; [done|by constructor|done|done].
    + right. by split; [constructor|].
  - exists (charge f level stats), m, c1. split; [done|]. split; [lia|]. left. exists [], f, files, e. split_and!; [done|done|done|].
    destruct Hnew as (Hin & _ & _). pose proof (fw_keys f Hf) as Hk. rewrite Forall_forall in Hk.
    destruct (Hk e Hin) as (u' & q & t & Hk' & Hu' & Hq). unfold outcome in *. rewrite Hk', ParseInternalKey_make in * by done.
    destruct t; by injection Hst as -> ->.
Qed.

(** [a] holds newer entries than [b], user key by user key. *)
Definition fresher (a b : FileMetaData) : Prop :=
  ∀ e e', e ∈ contents a → e' ∈ contents b → ExtractUserKey e.1 = ExtractUserKey e'.1 → seq_of e'.1 ≤ seq_of e.1.

(** The state of the levels: each file as described, deeper levels sorted,
    newer entries in higher levels, and in level 0 in files with higher numbers. *)
Record version_wf (v : Version) : Prop := {
  vw_levels : length (files_ v) = Z.to_nat kNumLevels;
  vw_files level : Forall file_wf (level_files v level);
  vw_sorted level : 0 < level → disjoint_sorted user (level_files v level);
  vw_count level : len (level_files v level) < 2 ^ 31;
  vw_numbers f g : f ∈ level_files v 0 → g ∈ level_files v 0 → number g ≤ number f → f = g ∨ fresher f g;
  vw_age i j f g : 0 ≤ i < j → f ∈ level_files v i → g ∈ level_files v j → fresher f g
}.

Lemma file_range f : file_wf f → range_ok udom user f ∧
  ∀ e, e ∈ contents f → icmp (smallest f) e.1 ≤ 0 ∧ icmp e.1 (largest f) ≤ 0.
Proof.
  intros [Hk Hs Hsm Hla]. rewrite Forall_forall in Hk.
  destruct (contents f) as [|e0 es] eqn:E; [done|]. cbn in Hsm. injection Hsm as Hsm.
  destruct (last (e0 :: es)) as [el|] eqn:El; [|done]. cbn in Hla. injection Hla as Hla.
  assert (el ∈ e0 :: es) as Hel by by apply last_Some_elem_of.
  assert (∀ e, e ∈ e0 :: es → icmp e.1 e.1 = 0) as Hrefl.
  { intros e He. apply (icmp_eq udom); try done; by apply (valid_ikey udom Hudom), Hk. }
  assert (∀ e, e ∈ e0 :: es → icmp e0.1 e.1 ≤ 0) as Hmin.
  { intros e [->|He]%elem_of_cons; [rewrite Hrefl; [done|by left]|]. apply StronglySorted_inv in Hs as [_ Hs].
    rewrite Forall_forall in Hs. specialize (Hs e He). lia. }
  assert (∀ e, e ∈ e0 :: es → icmp e.1 el.1 ≤ 0) as Hmax.
  { intros e He. apply last_Some in El as [pre El]. rewrite El in He, Hs, Hrefl. apply elem_of_app in He as [He|He%list_elem_of_singleton].
    - pose proof (StronglySorted_app_1_elem_of _ _ _ e el Hs He ltac:(by left)). cbn in *. lia.
    - subst e. rewrite Hrefl; [done|]. apply elem_of_app. right. by left. }
  unfold range_ok. rewrite <- Hsm, <- Hla. split; [|auto].
  split_and!; [apply Hk; by left|by apply Hk|by apply Hmin].
Qed.

(** The files searched at a level miss nothing. *)
Definition searched_ok (v : Version) (level : Z) (u : bytes) (s : Z) (fs : list FileMetaData) : Prop :=
  (∀ f, f ∈ fs → f ∈ level_files v level) ∧ StronglySorted (λ f g, f = g ∨ fresher f g) fs ∧
  ∀ f e, f ∈ level_files v level → e ∈ contents f → sees u s e →
    ∃ f' e', f' ∈ fs ∧ e' ∈ contents f' ∧ sees u s e' ∧ seq_of e.1 ≤ seq_of e'.1.

Lemma StronglySorted_weaken {A} (R R' : A → A → Prop) l :
  (∀ x y, x ∈ l → y ∈ l → R x y → R' x y) → StronglySorted R l → StronglySorted R' l.
Proof.
  intros HR Hs. induction Hs as [|x l Hs IH Hx]; [constructor|]. constructor.
  - apply IH. intros y z Hy Hz. apply HR; by right.
  - apply Forall_forall. intros y Hy. rewrite Forall_forall in Hx. apply HR; [by left|by right|by apply Hx].
Qed.

Lemma searched_level0 v u s :
  version_wf v → udom u →
  searched_ok v 0 u s (merge_sort newer (filter (λ f, 0 ≤ ucmp u (ExtractUserKey (smallest f)) ∧
    ucmp u (ExtractUserKey (largest f)) ≤ 0) (level_files v 0))).
Proof.
  intros Hv Hu. set (fs := filter _ _).
  assert (∀ f, f ∈ merge_sort newer fs ↔ f ∈ fs) as Hin by (intros f; by rewrite merge_sort_Permutation).
  split; [|split].
  - intros f Hf%Hin. by apply list_elem_of_filter in Hf as [_ Hf].
  - assert (Transitive newer) by (intros a b c; unfold newer; lia). assert (Total newer) by (intros a b; unfold newer; lia).
    eapply StronglySorted_weaken; [|by apply StronglySorted_merge_sort].
    intros f g Hf%Hin Hg%Hin Hn. apply list_elem_of_filter in Hf as [_ Hf], Hg as [_ Hg]. by eapply vw_numbers.
  - intros f e Hf He Hse. exists f, e. split; [|split_and!; done]. apply Hin, list_elem_of_filter. split; [|done].
    pose proof (vw_files v Hv 0) as Hwf. rewrite Forall_forall in Hwf. specialize (Hwf f Hf).
    destruct (file_range f Hwf) as [Hr Hrange]. destruct (range_keys udom user Hudom f Hr) as (Hs1 & Hl1 & _).
    destruct (Hrange e He) as [H1 H2]. pose proof (fw_keys f Hwf) as Hk. rewrite Forall_forall in Hk.
    pose proof (valid_ikey udom Hudom _ (Hk e He)) as Hie. destruct Hse as [<- _]. split.
    + apply (ucmp_ge udom user HL); [apply Hie|apply Hs1|]. by apply (icmp_user udom user).
    + by apply (icmp_user udom user).
Qed.

Lemma searched_deep v level u s :
  version_wf v → 0 < level → udom u → 0 ≤ s ≤ kMaxSequenceNumber →
  ∃ fs, SearchedFiles user v level (InternalKey u s kValueTypeForSeek) u = Some fs ∧ searched_ok v level u s fs.
Proof.
  intros Hv Hl Hu Hs. unfold SearchedFiles. rewrite (proj2 (Z.eqb_neq level 0)) by lia.
  destruct (InternalKey_parts udom Hudom u s kValueTypeForSeek Hu Hs) as (Hik & Ek & _). set (k := InternalKey u s kValueTypeForSeek) in *.
  pose proof (vw_files v Hv level) as Hwf. pose proof Hwf as Hwf'. rewrite Forall_forall in Hwf'. set (files := level_files v level) in *.
  assert (Forall (range_ok udom user) files) as Hr by (eapply Forall_impl; [exact Hwf|]; intros f Hf; by apply file_range).
  destruct (FindFile_ok udom user HL Hudom files k Hr (vw_sorted v Hv level Hl) Hik (vw_count v Hv level)) as (i & -> & Hi & Hfirst).
  cbn [mbind option_bind].
  (** An entry that [s] sees lies in file [i] or behind it, and then file [i]
      ends in a newer entry of [u]. *)
  assert (∀ f e, f ∈ files → e ∈ contents f → sees u s e → ∃ g e', files !! i = Some g ∧ e' ∈ contents g ∧ sees u s e' ∧
    seq_of e.1 ≤ seq_of e'.1 ∧ 0 ≤ ucmp u (ExtractUserKey (smallest g))) as Hcomplete.
  { intros f e Hf He Hse. destruct (file_range f (Hwf' f Hf)) as [Hrf Hrange]. destruct (range_keys udom user Hudom f Hrf) as (Hs1 & Hl1 & _).
    pose proof (fw_keys f (Hwf' f Hf)) as Hk. rewrite Forall_forall in Hk. pose proof (valid_ikey udom Hudom _ (Hk e He)) as Hie.
    destruct (Hrange e He) as [H1 H2]. destruct Hse as [Eu Hse].
    pose proof (proj1 (sees_ge u s e.1 Hu Hs (Hk e He) Eu) Hse) as Hge. fold k in Hge.
    apply list_elem_of_lookup_1 in Hf as [j Hj].
    assert (¬ (j < i)%nat) as Hji.
    { rewrite <- (Hfirst j f Hj). apply (icmp_ge udom user HL) in Hge; [|done..].
      pose proof (icmp_le_trans udom user HL _ _ _ Hik Hie Hl1 Hge H2). apply (icmp_ge udom user HL) in H; [lia|done..]. }
    destruct (decide (j = i)) as [->|Hne].
    - exists f, e. split_and!; try done. rewrite <- Eu. apply (ucmp_ge udom user HL); [apply Hie|apply Hs1|]. by apply (icmp_user udom user).
    - destruct (lookup_lt_is_Some_2 files i) as [g Hg]; [apply lookup_lt_Some in Hj; lia|].
      assert (g ∈ files) as Hgin by by eapply list_elem_of_lookup_2.
      destruct (file_range g (Hwf' g Hgin)) as [Hrg Hrange']. destruct (range_keys udom user Hudom g Hrg) as (Hs2 & Hl2 & _).
      pose proof (fw_largest g (Hwf' g Hgin)) as Hla. destruct (last (contents g)) as [el|] eqn:El; [|done]. cbn in Hla. injection Hla as Hla.
      assert (el ∈ contents g) as Hel by by apply last_Some_elem_of.
      assert (0 ≤ icmp (largest g) k) as Hgk.
      { destruct (Z.lt_ge_cases (icmp (largest g) k) 0) as [Hlt|]; [|done]. apply (Hfirst i g Hg) in Hlt. lia. }
      assert (icmp (largest g) e.1 < 0) as Hlt.
      { eapply (icmp_lt_le_trans udom user HL _ (smallest f)); [done..| |done]. by eapply (disjoint_largest udom user files i j); [..|lia]; eauto using vw_sorted. }
      assert (ExtractUserKey (largest g) = u) as Eg.
      { apply (ucmp_antisym udom user HL); [apply Hl2|done|..].
        - rewrite <- Eu. apply (icmp_user udom user); [done..|lia].
        - rewrite <- Ek. apply (icmp_user udom user); [done..|]. by apply (icmp_ge udom user HL). }
      exists g, el. pose proof (fw_keys g (Hwf' g Hgin)) as Hkg. rewrite Forall_forall in Hkg. specialize (Hkg el Hel).
      split_and!; [done..| | |].
      + split; [congruence|]. rewrite Hla. rewrite Hla in Hkg. by apply (proj2 (sees_ge u s _ Hu Hs Hkg Eg)).
      + rewrite Hla. rewrite Hla in Hkg. apply seq_mono; [done|by apply Hk|congruence|lia].
      + rewrite <- Eg. destruct (Hrange' el Hel) as [Hsm _]. rewrite Hla in Hsm. apply (ucmp_ge udom user HL); [apply Hl2|apply Hs2|]. by apply (icmp_user udom user). }
  unfold len. destruct (Z.geb_spec (Z.of_nat i) (Z.of_nat (length files))) as [Hge|Hlt].
  { eexists. split; [done|]. split; [by intros f ?%not_elem_of_nil|]. split; [constructor|].
    intros f e Hf He Hse. destruct (Hcomplete f e Hf He Hse) as (g & _ & Hg & _). apply lookup_lt_Some in Hg. lia. }
  rewrite Nat2Z.id. destruct (lookup_lt_is_Some_2 files i) as [g Hg]; [lia|]. rewrite Hg. cbn [mbind option_bind].
  eexists. split; [done|]. destruct (Z.ltb_spec (ucmp u (ExtractUserKey (smallest g))) 0) as [Hb|Hb].
  - split; [by intros f ?%not_elem_of_nil|]. split; [constructor|]. intros f e Hf He Hse.
    destruct (Hcomplete f e Hf He Hse) as (g' & _ & Hg' & _ & _ & _ & Hge). simplify_eq. lia.
  - split; [intros f ->%list_elem_of_singleton; by eapply list_elem_of_lookup_2|]. split; [by repeat constructor|].
    intros f e Hf He Hse. destruct (Hcomplete f e Hf He Hse) as (g' & e' & Hg' & He' & Hse' & Hle & _).
    rewrite Hg in Hg'. injection Hg' as <-. exists g, e'. split; [by left|done].
Qed.

Lemma searched v level u s :
  version_wf v → 0 ≤ level → udom u → 0 ≤ s ≤ kMaxSequenceNumber →
  ∃ fs, SearchedFiles user v level (InternalKey u s kValueTypeForSeek) u = Some fs ∧ searched_ok v level u s fs.
Proof.
  intros Hv Hl Hu Hs. destruct (decide (level = 0)) as [->|]; [|by apply searched_deep; [..|lia| |]].
  eexists. split; [reflexivity|]. by apply searched_level0.
Qed.

(** All entries of a version. *)
Definition version_entry (v : Version) (e : bytes * bytes) : Prop := ∃ level f, 0 ≤ level ∧ f ∈ level_files v level ∧ e ∈ contents f.

Definition version_newest (v : Version) (u : bytes) (s : Z) (e : bytes * bytes) : Prop :=
  version_entry v e ∧ sees u s e ∧ ∀ e', version_entry v e' → sees u s e' → seq_of e'.1 ≤ seq_of e.1.

Lemma level_files_beyond v level : version_wf v → kNumLevels ≤ level → level_files v level = [].
Proof. intros Hv Hl. unfold level_files. rewrite lookup_ge_None_2; [done|]. rewrite (vw_levels v Hv). lia. Qed.

(** The hit of a level is the newest entry if the levels above have none. *)
Lemma level_hit_newest v level u s before f after e :
  version_wf v → searched_ok v level u s (before ++ f :: after) → 0 ≤ level →
  (∀ l g e', 0 ≤ l < level → g ∈ level_files v l → e' ∈ contents g → ¬ sees u s e') →
  Forall (hides u s) before → newest u s (contents f) e → version_newest v u s e.
Proof.
  intros Hv (Hsub & Hsort & Hcompl) Hl Hprev Hb (Hin & Hse & Hmax). assert (f ∈ level_files v level) as Hf.
  { apply Hsub, elem_of_app. right. by left. }
  split; [by exists level, f|]. split; [done|]. intros e' (l & g & Hl' & Hg & He') Hse'.
  destruct (decide (l < level)); [exfalso; apply (Hprev l g e'); [lia|done..]|].
  destruct (decide (l = level)) as [->|].
  - destruct (Hcompl g e' Hg He' Hse') as (g' & e2 & Hg' & He2 & Hse2 & Hle). etrans; [exact Hle|].
    apply elem_of_app in Hg' as [Hg'|[->|Hg']%elem_of_cons].
    + rewrite Forall_forall in Hb. specialize (Hb g' Hg'). unfold hides in Hb. rewrite Forall_forall in Hb. by destruct (Hb e2 He2).
    + by apply Hmax.
    + apply StronglySorted_app_1_r in Hsort. apply StronglySorted_inv in Hsort as [_ Hsort]. rewrite Forall_forall in Hsort.
      destruct (Hsort g' Hg') as [->|Hfr]; [by apply Hmax|]. apply (Hfr e e2 Hin He2). destruct Hse, Hse2. congruence.
  - apply (vw_age v Hv level l f g ltac:(lia) Hf Hg e e' Hin He'). destruct Hse, Hse'. congruence.
Qed.

(** The files of [n] levels from [level] on. *)
Fixpoint count_files (n : nat) (v : Version) (level : Z) : nat :=
  match n with O => 0 | S n' => length (level_files v level) + count_files n' v (level + 1) end.

Lemma SearchedFiles_length v level ikey u fs : SearchedFiles user v level ikey u = Some fs → (length fs ≤ length (level_files v level))%nat.
Proof.
  unfold SearchedFiles. destruct (level =? 0).
  - intros [= <-]. rewrite merge_sort_Permutation. apply length_filter.
  - destruct (FindFile user _ ikey) as [i|]; [|done]. cbn [mbind option_bind]. case_if; [intros [= <-]; cbn; lia|].
    destruct (level_files v level !! Z.to_nat i) as [f|] eqn:E; [|done]. cbn [mbind option_bind]. intros [= <-]. apply lookup_lt_Some in E.
    case_if; cbn; lia.
Qed.

Lemma Get_levels_ok n v level u s value stats k m c :
  version_wf v → udom u → 0 ≤ s ≤ kMaxSequenceNumber → cache_ok m c → (count_files n v level + k ≤ m)%nat → 0 ≤ level → level + Z.of_nat n = kNumLevels →
  (∀ l g e', 0 ≤ l < level → g ∈ level_files v l → e' ∈ contents g → ¬ sees u s e') →
  ∃ stats' m' c', cache_ok m' c' ∧ (k ≤ m')%nat ∧
  ((∃ e, version_newest v u s e ∧
     Get_levels user n v level (InternalKey u s kValueTypeForSeek) u value stats c =
       Some ((outcome e value).1, (outcome e value).2, stats', c')) ∨
  ((∀ e, version_entry v e → ¬ sees u s e) ∧
     Get_levels user n v level (InternalKey u s kValueTypeForSeek) u value stats c = Some (GetOk, value, stats', c'))).
Proof.
  intros Hv Hu Hs. revert level stats m c. induction n as [|n IH]; intros level stats m c Hc Hm Hl Hn Hprev; cbn [Get_levels].
  { exists stats, m, c. split; [done|]. split; [cbn in Hm; lia|]. right. split; [|done]. intros e (l & g & Hl' & Hg & He). destruct (decide (l < level)); [apply (Hprev l g e); [lia|done..]|].
    rewrite (level_files_beyond v l Hv) in Hg by lia. by apply not_elem_of_nil in Hg. }
  cbn [count_files] in Hm. destruct (searched v level u s Hv Hl Hu Hs) as (fs & Hfs & Hsr). pose proof (SearchedFiles_length _ _ _ _ _ Hfs) as Hlen. rewrite Hfs. cbn [mbind option_bind].
  assert (Forall file_wf fs) as Hwf.
  { apply Forall_forall. intros f Hf%Hsr. pose proof (vw_files v Hv level) as H. rewrite Forall_forall in H. by apply H. }
  destruct (SearchFiles_spec fs level u s value stats (count_files n v (level + 1) + k) m c Hwf Hu Hs Hc ltac:(lia)) as (st' & m' & c' & Hc' & Hm' & [(before & f & after & e & -> & Hb & Hne & ->)|(Hh & ->)]); cbn [mbind option_bind].
  - exists st', m', c'. split; [done|]. split; [lia|]. left. exists e. split; [|done]. by eapply level_hit_newest.
  - apply (IH _ _ m'); [done|lia..|]. intros l g e' Hll Hg He' Hse'. destruct (decide (l < level)); [apply (Hprev l g e'); [lia|done..]|].
    assert (l = level) as -> by lia. destruct Hsr as (_ & _ & Hcompl). destruct (Hcompl g e' Hg He' Hse') as (g' & e2 & Hg' & He2 & Hse2 & _).
    rewrite Forall_forall in Hh. specialize (Hh g' Hg'). unfold hides in Hh. rewrite Forall_forall in Hh. by destruct (Hh e2 He2).
Qed.

Lemma Version_Get_ok v u s value k m c :
  version_wf v → udom u → len u + 8 < 2 ^ 32 → 0 ≤ s ≤ kMaxSequenceNumber → cache_ok m c → (count_files (Z.to_nat kNumLevels) v 0 + k ≤ m)%nat →
  ∃ stats m' c', cache_ok m' c' ∧ (k ≤ m')%nat ∧
  ((∃ e, version_newest v u s e ∧
     Version_Get user v (MakeLookupKey u s) value c = Some ((outcome e value).1, (outcome e value).2, stats, c')) ∨
  ((∀ e, version_entry v e → ¬ sees u s e) ∧ Version_Get user v (MakeLookupKey u s) value c = Some (GetOk, value, stats, c'))).
Proof.
  intros Hv Hu Hlen Hs Hc Hm. unfold Version_Get. destruct (lookup_key_correct u s (Hudom u Hu) Hlen Hs) as (_ & -> & -> & _).
  apply (Get_levels_ok _ _ _ _ _ _ _ k m); try done. intros l g e Hl. lia.
Qed.

End lookup.

(** C6: a version finds the newest entry. In a well-formed version (files of a
    level above 0 are sorted and apart, and newer entries are in higher levels
    and, in level 0, in files with higher numbers), [Get] of a user key that the
    snapshot sees in some file gives the value of the newest entry the snapshot
    sees in all the files, or [NotFound] if that entry is a deletion. The reader
    of the tables is used at most once for each file of the version. *)
Theorem version_get_correct udom user contents {C} (T : TableReader C) cache_ok v u s value k m c e0 :
  ComparatorLaws udom user → (∀ u, udom u → bytes_ok u) → TableReaderLaws udom user contents C T cache_ok →
  version_wf udom user contents v → udom u → len u + 8 < 2 ^ 32 → 0 ≤ s ≤ kMaxSequenceNumber →
  cache_ok m c → (count_files (Z.to_nat kNumLevels) v 0 + k ≤ m)%nat → version_entry contents v e0 → sees u s e0 →
  ∃ stats m' c' e, cache_ok m' c' ∧ (k ≤ m')%nat ∧ version_newest contents v u s e ∧
    Version_Get user v (MakeLookupKey u s) value c = Some ((outcome e value).1, (outcome e value).2, stats, c').
Proof.
  intros HL Hud HT Hv Hu Hlen Hs Hc Hm He0 Hs0. destruct (Version_Get_ok udom user HL Hud contents cache_ok v u s value k m c Hv Hu Hlen Hs Hc Hm)
    as (stats & m' & c' & Hc' & Hk & [(e & He & Hg)|[Hn _]]); [by exists stats, m', c', e|]. by destruct (Hn e0).
Qed.

(** A key that no file has is not reported. The comment of [Version::Get] says
    that it returns a status that is not ok; it returns ok and leaves the value as
    it was. *)
Theorem version_get_missing udom user contents {C} (T : TableReader C) cache_ok v u s value k m c :
  ComparatorLaws udom user → (∀ u, udom u → bytes_ok u) → TableReaderLaws udom user contents C T cache_ok →
  version_wf udom user contents v → udom u → len u + 8 < 2 ^ 32 → 0 ≤ s ≤ kMaxSequenceNumber →
  cache_ok m c → (count_files (Z.to_nat kNumLevels) v 0 + k ≤ m)%nat → (∀ e, version_entry contents v e → ¬ sees u s e) →
  ∃ stats c', Version_Get user v (MakeLookupKey u s) value c = Some (GetOk, value, stats, c').
Proof.
  intros HL Hud HT Hv Hu Hlen Hs Hc Hm Hn. destruct (Version_Get_ok udom user HL Hud contents cache_ok v u s value k m c Hv Hu Hlen Hs Hc Hm)
    as (stats & m' & c' & _ & _ & [(e & (He & Hse & _) & _)|[_ Hg]]); [by destruct (Hn e)|]. by exists stats, c'.
Qed.

(** ** Witnesses *)

Definition entries5 : list (bytes * bytes) := [(InternalKey [98] 7 kTypeValue, [2])].
Definition entries3 : list (bytes * bytes) := [(InternalKey [97] 3 kTypeValue, [1]); (InternalKey [98] 4 kTypeDeletion, [])].
Definition entries2 : list (bytes * bytes) := [(InternalKey [97] 1 kTypeValue, [0]); (InternalKey [99] 2 kTypeValue, [9])].

Definition example_contents (f : FileMetaData) : list (bytes * bytes) :=
  if number f =? 5 then entries5 else if number f =? 3 then entries3 else if number f =? 2 then entries2 else [].

Definition file5 : FileMetaData := NewFileMeta 5 100 (InternalKey [98] 7 kTypeValue) (InternalKey [98] 7 kTypeValue).
Definition file3 : FileMetaData := NewFileMeta 3 100 (InternalKey [97] 3 kTypeValue) (InternalKey [98] 4 kTypeDeletion).
Definition file2 : FileMetaData := NewFileMeta 2 100 (InternalKey [97] 1 kTypeValue) (InternalKey [99] 2 kTypeValue).

Definition example_version : Version := {|
  files_ := [[file3; file5]; [file2]; []; []; []; []; []]; vfiles_ := []; dep_map_ := ∅ |}.

Definition example_reader : TableReader unit := λ f k _, Some (find_at Bytewise.comparator k (example_contents f), true, ()).

Lemma example_reader_laws : TableReaderLaws bytes_ok Bytewise.comparator example_contents unit example_reader (λ _ _, True).
Proof. intros f k n c _ _ _. eexists _, (). split; [done|]. split; [done|]. by left. Qed.

Lemma example_level level f :
  f ∈ level_files example_version level → (Z.to_nat level = 0%nat ∧ (f = file3 ∨ f = file5)) ∨ (Z.to_nat level = 1%nat ∧ f = file2).
Proof.
  unfold level_files. cbn [files_ example_version]. destruct (Z.to_nat level) as [|[|[|[|[|[|[|n]]]]]]]; cbn [default from_option lookup list_lookup].
  - intros [->|[->|H]%elem_of_cons]%elem_of_cons; [auto|auto|by apply not_elem_of_nil in H].
  - intros ->%list_elem_of_singleton. auto.
  - by intros ?%not_elem_of_nil.
  - by intros ?%not_elem_of_nil.
  - by intros ?%not_elem_of_nil.
  - by intros ?%not_elem_of_nil.
  - by intros ?%not_elem_of_nil.
  - by intros ?%not_elem_of_nil.
Qed.

Lemma valid_example u s t : bytes_ok u → 0 ≤ s ≤ kMaxSequenceNumber → valid_key bytes_ok (InternalKey u s t).
Proof. intros. by exists u, s, t. Qed.

Lemma example_file_wf f : f = file2 ∨ f = file3 ∨ f = file5 → file_wf bytes_ok Bytewise.comparator example_contents f.
Proof.
  assert (∀ es, Forall (λ e, valid_key bytes_ok e.1) es → StronglySorted (λ a b, InternalKeyComparator.Compare Bytewise.comparator a.1 b.1 < 0) es →
    fst <$> head es = Some (smallest f) → fst <$> last es = Some (largest f) → example_contents f = es →
    file_wf bytes_ok Bytewise.comparator example_contents f) as H by (intros es ? ? ? ? <-; by split).
  intros [->|[->| ->]]; [apply (H entries2)|apply (H entries3)|apply (H entries5)]; try reflexivity;
    repeat first [apply SSorted_cons | apply SSorted_nil | apply Forall_cons; split | apply Forall_nil];
    first [apply valid_example; [by_decide|done] | by vm_compute].
Qed.

Lemma example_files level : Forall (λ f, f = file2 ∨ f = file3 ∨ f = file5) (level_files example_version level).
Proof. apply Forall_forall. intros f Hf%example_level. naive_solver. Qed.

Lemma example_sorted level : 0 < level → disjoint_sorted Bytewise.comparator (level_files example_version level).
Proof.
  intros Hl. unfold level_files. cbn [files_ example_version].
  destruct (Z.to_nat level) as [|[|[|[|[|[|[|n]]]]]]] eqn:E; [lia|..]; cbn; repeat constructor.
Qed.

Lemma example_count level : len (level_files example_version level) < 2 ^ 31.
Proof.
  unfold level_files. cbn [files_ example_version].
  destruct (Z.to_nat level) as [|[|[|[|[|[|[|n]]]]]]]; by vm_compute.
Qed.

Definition fresher_test (f g : FileMetaData) : bool :=
  forallb (λ e, forallb (λ e', negb (bool_decide (ExtractUserKey e.1 = ExtractUserKey e'.1)) || (seq_of e'.1 <=? seq_of e.1))
    (example_contents g)) (example_contents f).

Lemma fresher_tested f g : fresher_test f g = true → fresher example_contents f g.
Proof.
  unfold fresher_test. rewrite forallb_forall. intros H e e' He He' Heq. specialize (H e (proj1 (list_elem_of_In _ _) He)).
  rewrite forallb_forall in H. specialize (H e' (proj1 (list_elem_of_In _ _) He')). rewrite bool_decide_true in H by done. cbn in H. lia.
Qed.

Lemma example_version_wf : version_wf bytes_ok Bytewise.comparator example_contents example_version.
Proof.
  split; [done| |apply example_sorted|apply example_count| |].
  - intros level. eapply Forall_impl; [apply example_files|]. apply example_file_wf.
  - intros f g Hf%example_level Hg%example_level Hn.
    destruct Hf as [(_ & [-> | ->])|[? _]], Hg as [(_ & [-> | ->])|[? _]]; try done; auto; right; apply fresher_tested; by vm_compute.
  - intros i j f g Hij Hf%example_level Hg%example_level. destruct Hf as [(Hi & Hf)|(Hi & ->)], Hg as [(Hj & Hg)|(Hj & ->)]; try lia.
    destruct Hf as [-> | ->]; apply fresher_tested; by vm_compute.
Qed.

Lemma example_ranges level : Forall (range_ok bytes_ok Bytewise.comparator) (level_files example_version level).
Proof.
  eapply Forall_impl; [apply example_files|]. intros f Hf.
  eapply (file_range bytes_ok Bytewise.comparator bytewise_laws (λ u H, H) example_contents). by apply example_file_wf.
Qed.

(** A key that no file holds: ok, and the caller's value. *)
Lemma version_get_correct_witness :
  ∃ e stats c, version_newest example_contents example_version [98] 6 e ∧
    Version_Get (T := example_reader) Bytewise.comparator example_version (MakeLookupKey [98] 6) [7] () =
      Some ((outcome e [7]).1, (outcome e [7]).2, stats, c).
Proof.
  destruct (version_get_correct bytes_ok Bytewise.comparator example_contents example_reader (λ _ _, True) example_version [98] 6 [7] 0%nat 3%nat ()
    (InternalKey [98] 4 kTypeDeletion, [])) as (stats & _ & c & e & _ & _ & He & Hg).
  - apply _.
  - done.
  - apply example_reader_laws.
  - apply example_version_wf.
  - by_decide.
  - by vm_compute.
  - done.
  - exact I.
  - vm_compute. lia.
  - exists 0, file3. split; [done|]. split; [by left|]. right. by left.
  - by vm_compute.
  - exists e, stats, c. by split.
Defined.

Lemma find_file_correct_witness :
  ∃ i, FindFile Bytewise.comparator [file3] (InternalKey [97] 1 kTypeValue) = Some (Z.of_nat i) ∧
    first_file Bytewise.comparator [file3] (InternalKey [97] 1 kTypeValue) i.
Proof.
  apply (find_file_correct bytes_ok Bytewise.comparator [file3] (InternalKey [97] 1 kTypeValue) None None bytewise_laws (λ u H, H)); try done.
  - apply Forall_singleton. eapply (file_range bytes_ok Bytewise.comparator bytewise_laws (λ u H, H) example_contents). apply example_file_wf. by right; left.
  - by repeat constructor.
  - by_decide.
Defined.

Lemma overlapping_inputs_correct_witness :
  ∃ inputs, GetOverlappingInputs Bytewise.comparator 0 [file3; file5] (Some (smallest file5)) (Some (largest file5)) = Some inputs ∧
    ∀ f g, f ∈ [file3; file5] → g ∈ inputs → user_overlap Bytewise.comparator f g → f ∈ inputs.
Proof.
  destruct (overlapping_inputs_correct bytes_ok Bytewise.comparator 0 [file3; file5] (Some (smallest file5)) (Some (largest file5)))
    as (inputs & _ & _ & H & _ & _ & _ & Hc & _).
  - apply _.
  - done.
  - apply (example_ranges 0).
  - intros k [= <-]. by_decide.
  - intros k [= <-]. by_decide.
  - by exists inputs.
Defined.

Lemma pick_level_zero_witness :
  PickLevelForMemTableOutput Bytewise.comparator 1000 example_version [100] [101] = Some 0.
Proof.
  apply (pick_level_zero bytes_ok); [apply _|done| |by_decide|by_decide].
  split; [apply example_ranges|apply example_sorted|apply example_count].
Defined.
