(* ===== verification/TableCache.v ===== *)
(** * db/table_cache.cc: open tables by number

    The table cache keeps tables open in an LRU cache whose keys are file
    numbers. [FindTable] opens the file on a miss, under its present or its
    legacy name; the tables share the block cache, in which each has an id of
    its own. The lookups discharge what the search of a version asks of its
    reader of tables. *)

From Stdlib Require Import Sorted String.
From stdpp Require Import gmap.
From S2P Require Import Prelude Coding Comparator Filename DBFormat Block Format TableBuilder Table Cache VersionEdit Version.

#[local] Open Scope Z_scope.
#[local] Open Scope list_scope.

(** A handle of the cache. *)
Abbreviation Handle := (nat * nat)%type.

Section table_cache.

Context {SN : Snappy}.

(** [dbname_] and [options_]; [paranoid_checks] is one of the options.
    [NewRandomAccessFile] is the environment's. *)
Context (dbname : bytes) (opt : Options) (paranoid_checks : bool) (NewRandomAccessFile : bytes → option (Z → Z → option bytes)).

Record TableAndFile := { tf_file : Z → Z → option bytes; tf_table : Table }.

(** [options_.block_cache] is never null: [SanitizeOptions] creates one. *)
Record TableCache := { cache_ : ShardedLRUCache TableAndFile; block_cache : ShardedLRUCache Block }.

Definition NewTableCache (entries : Z) (block_cache : ShardedLRUCache Block) : option TableCache :=
  cache ← NewShardedLRUCache entries; Some {| cache_ := cache; block_cache := block_cache |}.

Definition set_cache (c : ShardedLRUCache TableAndFile) (tc : TableCache) : TableCache := {| cache_ := c; block_cache := block_cache tc |}.

(** The file under its name, or under its legacy name. *)
Definition OpenFile (file_number : Z) : option (Z → Z → option bytes) :=
  match NewRandomAccessFile (TableFileName dbname file_number) with
  | Some file => Some file
  | None => NewRandomAccessFile (SSTTableFileName dbname file_number)
  end.

(** The status or the handle. [Table::Open] takes an id of the block cache only
    for a table that it opens. *)
Definition FindTable (file_number file_size : Z) (tc : TableCache) : option ((Error + Handle) * TableCache) :=
  let key := EncodeFixed64 file_number in
  '(handle, cache) ← S_Lookup key (cache_ tc);
  let tc := set_cache cache tc in
  match handle with
  | Some handle => Some (inr handle, tc)
  | None =>
      match OpenFile file_number with
      | None => Some (inl IOError, tc)
      | Some file =>
          let '(id, blocks) := S_NewId (block_cache tc) in
          s ← Open opt id file paranoid_checks file_size;
          match s with
          | inl e => Some (inl e, tc)
          | inr table =>
              '(handle, cache) ← S_Insert key {| tf_file := file; tf_table := table |} 1 (cache_ tc);
              Some (inr handle, {| cache_ := cache; block_cache := blocks |})
          end
      end
  end.

(** [TableCache::Get] in the modes without the learned index: what
    [handle_result] was called with, and the status. *)
Definition TC_Get (options : ReadOptions) (cachable : bool) (file_number file_size : Z) (k : bytes) (tc : TableCache)
    : option (option (bytes * bytes) * option Error * TableCache) :=
  '(s, tc) ← FindTable file_number file_size tc;
  match s with
  | inl e => Some (None, Some e, tc)
  | inr handle =>
      tf ← S_Value handle (cache_ tc);
      '(found, s, blocks) ← InternalGet (tf_table tf) options cachable (Some (block_cache tc)) k;
      blocks ← blocks;
      cache ← S_Release handle (cache_ tc);
      Some (found, s, {| cache_ := cache; block_cache := blocks |})
  end.

(** [NewIterator(...)->status()] of a new iterator, which is deleted at once:
    that of the index, or of [FindTable]. *)
Definition TC_usable (file_number file_size : Z) (tc : TableCache) : option (bool * TableCache) :=
  '(s, tc) ← FindTable file_number file_size tc;
  match s with
  | inl e => Some (false, tc)
  | inr handle =>
      tf ← S_Value handle (cache_ tc);
      let index_iter := of_block_iterator (NewIterator (comparator opt) (t_index_block (tf_table tf))) in
      cache ← S_Release handle (cache_ tc);
      Some (match iter_status index_iter with None => true | Some _ => false end, {| cache_ := cache; block_cache := block_cache tc |})
  end.

Definition Evict (file_number : Z) (tc : TableCache) : option TableCache :=
  cache ← S_Erase (EncodeFixed64 file_number) (cache_ tc); Some (set_cache cache tc).

(** The table cache as the reader of a version. *)
Definition tc_reader (options : ReadOptions) (cachable : bool) : TableReader TableCache := λ f k tc,
  '(found, s, tc) ← TC_Get options cachable (number f) (file_size f) k tc;
  Some (found, match s with None => true | Some _ => false end, tc).

End table_cache.

(** ** Lemmas: what a lookup does to the block cache *)

Section block_cache.

Context {SN : Snappy} {C : Type} {BC : BlockCache C}.

(** It looks up at most one block of the table, and may insert it. *)
Definition touched (t : Table) (c c' : C) : Prop :=
  c' = c ∨ ∃ off r c1, Table.Lookup c (cache_key t off) = (r, c1) ∧ (c' = c1 ∨ ∃ b, c' = Table.Insert c1 (cache_key t off) b).

Lemma BlockReader_touched t options cachable c v : ∃ i c', BlockReader t options cachable (Some c) v = (i, Some c') ∧ touched t c c'.
Proof.
  unfold BlockReader. destruct (BlockHandle_DecodeFrom v) as [e|[h ?]]; [by eexists _, _; split; [|left]|].
  destruct (Table.Lookup c _) as [[b|] c1] eqn:E.
  - eexists _, c1. split; [done|]. right. eexists _, _, c1. split; [exact E|]. by left.
  - destruct (ReadBlock _ _ _) as [e|x].
    + eexists _, c1. split; [done|]. right. eexists _, _, c1. split; [exact E|]. by left.
    + eexists _, _. split; [done|]. right. eexists _, _, c1. split; [exact E|]. case_if; [right; by eexists|by left].
Qed.

Lemma InternalGet_touched t options cachable c k r s oc :
  InternalGet t options cachable (Some c) k = Some (r, s, oc) → ∃ c', oc = Some c' ∧ touched t c c'.
Proof.
  unfold InternalGet. destruct (move _ _) as [iiter|]; [|done]. cbn [mbind option_bind]. destruct (Valid iiter).
  2:{ cbn. intros [= _ _ <-]. exists c. by split; [|left]. }
  destruct (match filter_policy _ with Some _ => _ | None => _ end).
  { cbn. intros [= _ _ <-]. exists c. by split; [|left]. }
  destruct (BlockReader_touched t options cachable c (current iiter).2) as (i & c' & -> & Ht).
  destruct (move _ i) as [bi|]; [|done]. cbn. intros [= _ _ <-]. by exists c'.
Qed.

End block_cache.

(** ** Lemmas: the cache serves the tables of a directory *)

Section serves.

Context {SN : Snappy} {HS : SnappyLaws SN}.
Context (dbname : bytes) (opt : Options) (paranoid_checks : bool) (NewRandomAccessFile : bytes → option (Z → Z → option bytes)).
Context (dom : bytes → Prop) (HC : ComparatorLaws dom (comparator opt)).

(** The tables of the directory, by number. *)
Context (tables : gmap Z entries).

Record stored (n : Z) (es : entries) : Prop := {
  st_number : u64_ok n;
  st_file : NewRandomAccessFile (TableFileName dbname n) = Some (mem_Read (file (build_table SN opt es)));
  st_ok : table_ok es;
  st_filters : filters_fit SN opt es;
  st_dom : Forall (λ e, dom e.1) es;
  st_sorted : keys_sorted (comparator opt) es
}.

Context (Hstored : ∀ n es, tables !! n = Some es → stored n es) (Hfew : Z.of_nat (size tables) < 2 ^ 31).

(** The id of a table and the blocks it is made of. *)
Definition table_of (id : Z) (bs : list entries) : Table := opened opt id bs.

Record blocks_of (bs : list entries) : Prop := {
  bo_nonempty : Forall (λ b, b ≠ []) bs;
  bo_ok : table_ok (concat bs);
  bo_fit : filter_fits opt bs;
  bo_dom : Forall (λ e, dom e.1) (concat bs);
  bo_sorted : keys_sorted (comparator opt) (concat bs)
}.

(** [ids] gives the blocks of the tables that were opened; what the block cache
    holds under their ids is right, and under later ids there is nothing yet.
    There is room for [n] more ids. *)
Record tc_good (n : nat) (ids : gmap Z (list entries)) (tc : TableCache) : Prop := {
  tg_cache : sinv (cache_ tc);
  tg_blocks : sinv (block_cache tc);
  tg_room : 0 ≤ last_id_ (block_cache tc) ∧ last_id_ (block_cache tc) + Z.of_nat n < 2 ^ 64;
  tg_ids id bs : ids !! id = Some bs → 0 ≤ id ≤ last_id_ (block_cache tc) ∧ blocks_of bs ∧ cached_ok opt id bs (Some (block_cache tc));
  tg_new id off b : last_id_ (block_cache tc) < id < 2 ^ 64 → ¬ sholds (block_cache tc) (EncodeFixed64 id ++ EncodeFixed64 off) b;
  tg_tables key tf : sholds (cache_ tc) key tf → ∃ num id bs, key = EncodeFixed64 num ∧ tables !! num = Some (concat bs) ∧
    ids !! id = Some bs ∧ tf_table tf = opened opt id bs
}.

Definition tc_ok (n : nat) (tc : TableCache) : Prop := ∃ ids, tc_good n ids tc.

Lemma EncodeFixed64_inj x y : u64_ok x → u64_ok y → EncodeFixed64 x = EncodeFixed64 y → x = y.
Proof. intros Hx Hy E. rewrite <- (DecodeFixed64_enc x Hx), <- (DecodeFixed64_enc y Hy). by f_equal. Qed.

Lemma touched_lru t (c c' : ShardedLRUCache Block) :
  touched t c c' → sinv c → sinv c' ∧ last_id_ c' = last_id_ c ∧ ∀ k b, sholds c' k b → sholds c k b ∨ ∃ off, k = cache_key t off.
Proof.
  intros Ht Hc. destruct Ht as [->|(off & r & c1 & Hl & Ht)]; [by eauto|]. cbn in Hl. destruct (block_lookup_ok c (cache_key t off) Hc) as (r1 & c2 & E & Hid & Hi & _ & Hk).
  rewrite E in Hl. cbn in Hl. injection Hl as <- <-. destruct Ht as [->|(b & ->)]; [by eauto|]. cbn. destruct (has_room c2 (cache_key t off)) eqn:Er; [|by eauto].
  destruct (block_insert_ok c2 (cache_key t off) b Hi Er) as (c3 & -> & Hid3 & Hi3 & Hk3). cbn. split; [done|]. split; [congruence|].
  intros k b' [[-> _]|Hh]%Hk3; [right; by eexists|left; by apply Hk].
Qed.

(** The blocks of a table survive the lookups in another one. *)
Lemma cached_other id bs id' bs' (c c' : ShardedLRUCache Block) :
  touched (opened opt id bs) c c' → sinv c → u64_ok id → u64_ok id' → id' ≠ id → cached_ok opt id' bs' (Some c) → cached_ok opt id' bs' (Some c').
Proof.
  intros Ht Hc Hid Hid' Hne Hcached ? [= <-] j b block Hj Hh. destruct (touched_lru _ _ _ Ht Hc) as (Hc' & _ & Hk).
  apply (Hcached c eq_refl j b block Hj). cbn. intros _. destruct (Hk _ _ (Hh Hc')) as [?|(off & E)]; [done|].
  unfold cache_key in E. cbn [opened t_cache_id] in E. apply app_inj_1 in E as [E _]; [|done]. by apply EncodeFixed64_inj in E.
Qed.

Lemma tc_keys n ids tc k tf : tc_good n ids tc → sholds (cache_ tc) k tf → k ∈ (λ p : Z * entries, EncodeFixed64 p.1) <$> map_to_list tables.
Proof.
  intros Hg Hh. destruct (tg_tables _ _ _ Hg k tf Hh) as (num & id & bs & -> & Hn & _). apply list_elem_of_fmap. exists (num, concat bs).
  split; [done|]. by apply elem_of_map_to_list.
Qed.

(** A table that is not in the cache is opened. *)
Lemma Open_stored num es id :
  tables !! num = Some es → ∃ bs, concat bs = es ∧ blocks_of bs ∧
    OpenFile dbname NewRandomAccessFile num = Some (mem_Read (file (build_table SN opt es))) ∧
    Open opt id (mem_Read (file (build_table SN opt es))) paranoid_checks (len (file (build_table SN opt es))) = Some (inr (opened opt id bs)).
Proof.
  intros Hn. destruct (Hstored num es Hn) as [Hnum Hfile Hok Hfit Hdom Hsort].
  destruct (build_table_blocks SN opt es (to_entries _ Hok)) as (bs & Hne & Hcat & Hfits & _ & Hf & _ & _). exists bs.
  pose proof (Hfits Hfit) as Hff. rewrite Hf in Hfile. rewrite Hf. split; [done|]. split; [by split; rewrite ?Hcat|].
  split; [unfold OpenFile; by rewrite Hfile|]. apply Open_table; [done|by rewrite Hcat|done].
Qed.

Lemma FindTable_ok n ids tc num es :
  tc_good (S n) ids tc → tables !! num = Some es →
  ∃ h tc1 tf id bs ids' cache2, FindTable dbname opt paranoid_checks NewRandomAccessFile num (len (file (build_table SN opt es))) tc = Some (inr h, tc1) ∧
    S_Value h (cache_ tc1) = Some tf ∧ S_Release h (cache_ tc1) = Some cache2 ∧ concat bs = es ∧ ids' !! id = Some bs ∧ tf_table tf = opened opt id bs ∧
    tc_good n ids' {| cache_ := cache2; block_cache := block_cache tc1 |}.
Proof.
  intros Hg Hn. pose proof Hg as [Hc Hb Hr Hids Hnew Htab]. unfold FindTable. destruct (S_Lookup_ok (cache_ tc) (EncodeFixed64 num) Hc) as ([h|] & c1 & -> & _ & H); cbn [mbind option_bind].
  - destruct H as (tf & c2 & Hv & Hrel & _ & Hi & Hh & Hk). destruct (Htab _ _ Hh) as (num' & id & bs & E & Hn' & Hid & Htf).
    assert (num' = num) as ->.
    { symmetry. apply EncodeFixed64_inj; [apply (st_number _ _ (Hstored _ _ Hn))|apply (st_number _ _ (Hstored _ _ Hn'))|done]. }
    exists h, (set_cache c1 tc), tf, id, bs, ids, c2. split_and!; try done; [congruence|]. split; cbn; try done; [lia|]. intros key tf' Hh'. by apply Htab, Hk.
  - destruct H as [Hi Hk]. destruct (Open_stored num es (u64 (last_id_ (block_cache tc) + 1)) Hn) as (bs & Hcat & Hbs & Hopen & Ht). rewrite Hopen.
    unfold S_NewId. cbn [set_cache block_cache]. set (id := u64 (last_id_ (block_cache tc) + 1)) in *. rewrite Ht. cbn [mbind option_bind].
    assert (id = last_id_ (block_cache tc) + 1) as Eid by (unfold id; apply u64_id; unfold u64_ok; lia).
    set (tf := {| tf_file := _; tf_table := opened opt id bs |}).
    assert (has_room c1 (EncodeFixed64 num) = true) as Hroom.
    { apply (has_room_ok _ _ ((λ p : Z * entries, EncodeFixed64 p.1) <$> map_to_list tables) Hi); [intros k' v Hv; by apply (tc_keys (S n) ids tc k' v Hg), Hk|].
      unfold len. by rewrite length_fmap, length_map_to_list. }
    destruct (S_Insert_ok c1 (EncodeFixed64 num) tf 1 Hi Hroom) as (h & c2 & c3 & Hins & Hv & Hrel & _ & Hi3 & Hk3). cbn [cache_ set_cache]. rewrite Hins. cbn [mbind option_bind].
    eexists h, _, tf, id, bs, (<[id := bs]> ids), c3. split; [done|]. cbn [cache_ block_cache]. split_and!; try done; [apply lookup_insert_eq|].
    assert (∀ x y, sholds {| shard_ := shard_ (block_cache tc); last_id_ := id |} x y → sholds (block_cache tc) x y) as Hsame by done.
    split; cbn [cache_ block_cache last_id_]; [done|exact Hb|lia| | |].
    + intros id' bs' [[<- <-]|[Hne Hid']]%lookup_insert_Some.
      * split; [lia|]. split; [done|]. intros ? [= <-] j b block _ Hh. exfalso. apply (Hnew id (u64 (len (file_of opt (take j bs)))) block); [lia|]. by apply Hh.
      * destruct (Hids id' bs' Hid') as (? & ? & Hcok). split; [lia|]. split; [done|]. intros ? [= <-] j b block Hj Hh. apply (Hcok _ eq_refl j b block Hj). intros _. by apply Hh.
    + intros id' off b Hlt Hh. apply (Hnew id' off b); [lia|done].
    + intros key tf' [[-> ->]|Hh]%Hk3.
      * exists num, id, bs. split_and!; [done|by rewrite Hcat|apply lookup_insert_eq|done].
      * apply Hk in Hh. destruct (Htab _ _ Hh) as (num' & id' & bs' & ? & ? & Hid' & ?). exists num', id', bs'. split_and!; try done.
        rewrite lookup_insert_ne; [done|]. intros <-. destruct (Hids _ _ Hid') as [? _]. lia.
Qed.

Lemma TC_Get_ok options cachable n tc num es k :
  tc_ok (S n) tc → tables !! num = Some es → dom k →
  ∃ r tc', TC_Get dbname opt paranoid_checks NewRandomAccessFile options cachable num (len (file (build_table SN opt es))) k tc = Some (r, None, tc') ∧
    tc_ok n tc' ∧ get_answer opt es k (r, None).
Proof.
  intros (ids & Hg) Hn Hk. unfold TC_Get. destruct (FindTable_ok n ids tc num es Hg Hn) as (h & tc1 & tf & id & bs & ids' & c2 & -> & Hv & Hrel & Hcat & Hid & Htf & Hg1).
  cbn [mbind option_bind]. rewrite Hv. cbn [mbind option_bind]. rewrite Htf. pose proof Hg1 as [Hc Hb Hr Hids Hnew Htab]. cbn [cache_ block_cache] in *.
  destruct (Hids id bs Hid) as (Hidr & [Hne Hok Hff Hdom Hsort] & Hcached).
  destruct (InternalGet_opened opt id bs Hne Hok dom Hdom Hsort options cachable (Some (block_cache tc1)) k Hk Hcached) as (r & oc & Hget & Hcached' & _).
  destruct (InternalGets_opened SN HS lru_block_cache lru_block_cache_laws opt id bs dom [(options, cachable, k)] (Some (block_cache tc1)) HC Hne Hok Hff Hdom Hsort) as (rs & Hrs & HF).
  { by apply Forall_singleton. }
  { done. }
  cbn [InternalGets] in Hrs. rewrite Hget in Hrs. cbn in Hrs. injection Hrs as <-. apply Forall2_cons in HF as [HF _]. cbn [snd] in HF. rewrite Hcat in HF.
  destruct (InternalGet_touched _ _ _ _ _ _ _ _ Hget) as (blocks & -> & Ht). rewrite Hget. cbn [mbind option_bind]. rewrite Hrel. cbn [mbind option_bind].
  eexists r, _. split; [done|]. split; [|done]. exists ids'. destruct (touched_lru _ _ _ Ht Hb) as (Hb' & Elast & Hkeys). split; cbn [cache_ block_cache]; rewrite ?Elast; try done.
  - intros id' bs' Hid'. destruct (Hids id' bs' Hid') as (Hr' & Hbs' & Hcok). split; [done|]. split; [done|]. destruct (decide (id' = id)) as [->|Hneq].
    + rewrite Hid in Hid'. by injection Hid' as <-.
    + apply (cached_other id bs id' bs' (block_cache tc1)); try done; unfold u64_ok; lia.
  - intros id' off b Hlt Hh. destruct (Hkeys _ _ Hh) as [Hh'|(off' & E)]; [by apply (Hnew id' off b)|].
    unfold cache_key in E. cbn [opened t_cache_id] in E. apply app_inj_1 in E as [E _]; [|done]. apply EncodeFixed64_inj in E; unfold u64_ok in *; lia.
Qed.

Lemma TC_usable_ok n tc num es :
  tc_ok (S n) tc → tables !! num = Some es →
  ∃ tc', TC_usable dbname opt paranoid_checks NewRandomAccessFile num (len (file (build_table SN opt es))) tc = Some (true, tc') ∧ tc_ok n tc'.
Proof.
  intros (ids & Hg) Hn. unfold TC_usable. destruct (FindTable_ok n ids tc num es Hg Hn) as (h & tc1 & tf & id & bs & ids' & c2 & -> & Hv & Hrel & Hcat & Hid & Htf & Hg1).
  cbn [mbind option_bind]. rewrite Hv. cbn [mbind option_bind]. rewrite Hrel, Htf. cbn [mbind option_bind opened t_index_block].
  destruct (tg_ids _ _ _ Hg1 id bs Hid) as (_ & [Hne Hok _ _ _] & _). destruct (index_entries_ok opt 0 bs Hne Hok) as (Hi & _ & _). destruct (index_contents_ok opt bs Hne Hok) as (_ & Hil).
  destruct (open_block (comparator opt) 1 (index_entries opt 0 bs) Hi Hil) as (R & it0 & E & _ & _ & _ & Hrep). unfold index_contents in *. rewrite E. cbn [of_block_iterator iter_status].
  pose proof (rep_block _ _ _ _ _ Hrep) as Hb. rewrite (ob_status _ _ _ _ Hb). eexists. split; [done|]. by exists ids'.
Qed.

Lemma Evict_ok n tc num : tc_ok n tc → ∃ tc', Evict num tc = Some tc' ∧ tc_ok n tc'.
Proof.
  intros (ids & [Hc Hb Hr Hids Hnew Htab]). unfold Evict. destruct (S_Erase_ok (cache_ tc) (EncodeFixed64 num) Hc) as (c1 & -> & _ & Hi & Hk). cbn [mbind option_bind].
  eexists. split; [done|]. exists ids. split; try done. cbn. intros key tf Hh. by apply Htab, Hk.
Qed.

Lemma NewTableCache_ok capacity (blocks : ShardedLRUCache Block) n :
  sinv blocks → last_id_ blocks = 0 → (∀ k b, ¬ sholds blocks k b) → Z.of_nat n < 2 ^ 64 → ∃ tc, NewTableCache capacity blocks = Some tc ∧ tc_ok n tc.
Proof.
  intros Hb Hid Hno Hn. unfold NewTableCache. destruct (new_sharded_ok (V := TableAndFile) capacity) as (c & -> & _ & Hc & Hnoc). cbn [mbind option_bind].
  eexists. split; [done|]. exists ∅. split; cbn; [done|done|lia| | |].
  - by intros id bs ?%lookup_empty_Some.
  - intros id off b _ Hh. by apply Hno in Hh.
  - intros key tf Hh. by apply Hnoc in Hh.
Qed.

End serves.

(** ** The reader of a version *)

Section reader.

Context {SN : Snappy} {HS : SnappyLaws SN}.
Context (dbname : bytes) (opt : Options) (paranoid_checks : bool) (NewRandomAccessFile : bytes → option (Z → Z → option bytes)).
Context (udom : bytes → Prop) (user : Comparator) (HL : ComparatorLaws udom user) (Hudom : ∀ u, udom u → bytes_ok u).

(** The options of a database: internal keys, and a filter of user keys. *)
Record db_options : Prop := {
  do_comparator : comparator opt = InternalKeyComparator.comparator user;
  do_filter name p : filter_policy opt = Some (name, p) → ∃ q, p = InternalFilterPolicy q ∧ FilterLaws q
}.

Context (Hopt : db_options) (tables : gmap Z entries).
Context (Hstored : ∀ n es, tables !! n = Some es → stored dbname opt NewRandomAccessFile (ikey_ok udom) n es).
Context (Hfew : Z.of_nat (size tables) < 2 ^ 31).

(** The entries of a file of a version, if its metadata tell the right size. *)
Definition contents_of (f : FileMetaData) : entries :=
  match tables !! number f with
  | Some es => if file_size f =? len (file (build_table SN opt es)) then es else []
  | None => []
  end.

Lemma list_find_head {A} (P : A → Prop) `{∀ x, Decision (P x)} (l : list A) : snd <$> list_find P l = head (filter P l).
Proof.
  induction l as [|x l IH]; [done|]. cbn [list_find]. rewrite filter_cons. case_decide; [done|]. rewrite <- IH. by destruct (list_find P l) as [[]|].
Qed.

Lemma find_entry_at k es : find_entry opt k es = find_at user k es.
Proof.
  unfold find_entry, find_at. rewrite list_find_head. f_equal. apply list_filter_iff. intros e. unfold at_or_after. by rewrite (do_comparator Hopt).
Qed.

Lemma internal_laws_opt : ComparatorLaws (ikey_ok udom) (comparator opt).
Proof. rewrite (do_comparator Hopt). by apply internal_laws. Qed.

(** A filter of user keys suppresses only answers with another user key. *)
Lemma answer_law k es r :
  get_answer opt es k (r, None) →
  r = find_at user k es ∨ r = None ∧ ∀ e, find_at user k es = Some e → ExtractUserKey e.1 ≠ ExtractUserKey k.
Proof.
  rewrite <- find_entry_at. intros (_ & Hr & Hno & Hyes). cbn [fst] in *. destruct (filter_policy opt) as [[name p]|] eqn:Ep; [|left; by apply Hno].
  destruct (do_filter Hopt name p Ep) as (q & -> & Hq). destruct Hr as [-> | ->]; [|by left]. right. split; [done|]. intros e He Eu.
  enough (None = Some e) by done. apply (Hyes name (InternalFilterPolicy q) e eq_refl _ He). intros f. cbn. by rewrite Eu.
Qed.

#[local] Instance tc_reader_laws options cachable :
  TableReaderLaws udom user contents_of TableCache (tc_reader dbname opt paranoid_checks NewRandomAccessFile options cachable) (tc_ok opt (ikey_ok udom) tables).
Proof.
  intros f k n tc Hf Hk Htc. unfold table_read, tc_reader. unfold contents_of in *. destruct (tables !! number f) as [es|] eqn:Hn.
  2:{ pose proof (fw_smallest _ _ _ _ Hf) as H. unfold contents_of in H. by rewrite Hn in H. }
  destruct (Z.eqb_spec (file_size f) (len (file (build_table SN opt es)))) as [E|E].
  2:{ pose proof (fw_smallest _ _ _ _ Hf) as H. unfold contents_of in H. rewrite Hn, (proj2 (Z.eqb_neq _ _)) in H by done. done. }
  rewrite E. destruct (TC_Get_ok dbname opt paranoid_checks NewRandomAccessFile (ikey_ok udom) internal_laws_opt tables Hstored Hfew options cachable n tc (number f) es k Htc Hn Hk)
    as (r & tc' & -> & Htc' & Ha). cbn [mbind option_bind]. exists r, tc'. split; [done|]. split; [done|]. by apply answer_law.
Qed.

End reader.

(** ** Properties *)

(** A use of the table cache. *)
Inductive TCOp := OpGet (options : ReadOptions) (cachable : bool) (num : Z) (k : bytes) | OpEvict (num : Z).

Section claims.

Context {SN : Snappy} {HS : SnappyLaws SN}.
Context (dbname : bytes) (opt : Options) (paranoid_checks : bool) (NewRandomAccessFile : bytes → option (Z → Z → option bytes)).
Context (size_of : Z → Z).

(** The results of the lookups of a sequence of uses. *)
Fixpoint TC_run (ops : list TCOp) (tc : TableCache) : option (list (option (bytes * bytes) * option Error)) :=
  match ops with
  | [] => Some []
  | OpGet options cachable num k :: ops =>
      '(r, s, tc) ← TC_Get dbname opt paranoid_checks NewRandomAccessFile options cachable num (size_of num) k tc;
      rs ← TC_run ops tc; Some ((r, s) :: rs)
  | OpEvict num :: ops => tc ← Evict num tc; TC_run ops tc
  end.

(** The keys that are asked of each table. *)
Definition asked (ops : list TCOp) : list (Z * bytes) :=
  omap (λ o, match o with OpGet _ _ num k => Some (num, k) | OpEvict _ => None end) ops.

Lemma TC_run_ok dom (tables : gmap Z entries) ops n tc :
  ComparatorLaws dom (comparator opt) → (∀ num es, tables !! num = Some es → stored dbname opt NewRandomAccessFile dom num es) →
  (∀ num es, tables !! num = Some es → size_of num = len (file (build_table SN opt es))) → Z.of_nat (size tables) < 2 ^ 31 →
  Forall (λ q, dom q.2 ∧ is_Some (tables !! q.1)) (asked ops) → tc_ok opt dom tables n tc → (length ops ≤ n)%nat →
  ∃ rs, TC_run ops tc = Some rs ∧ Forall2 (λ q r, get_answer opt (default [] (tables !! q.1)) q.2 r) (asked ops) rs.
Proof.
  intros HC Hst Hsize Hfew. revert n tc. induction ops as [|[options cachable num k|num] ops IH]; intros n tc Ha Htc Hn; cbn [TC_run asked omap list_omap].
  - exists []. split; [done|constructor].
  - cbn [asked omap list_omap] in Ha. apply Forall_cons in Ha as [[Hk [es Hes]] Ha]. cbn [fst snd] in *. destruct n as [|n]; [cbn in Hn; lia|].
    rewrite (Hsize num es Hes). destruct (TC_Get_ok dbname opt paranoid_checks NewRandomAccessFile dom HC tables Hst Hfew options cachable n tc num es k Htc Hes Hk) as (r & tc' & -> & Htc' & Hans).
    cbn [mbind option_bind]. destruct (IH n tc' Ha Htc' ltac:(cbn in Hn; lia)) as (rs & -> & HF). cbn [mbind option_bind]. exists ((r, None) :: rs). split; [done|]. constructor; [|done].
    cbn [fst snd]. by rewrite Hes.
  - destruct (Evict_ok opt dom tables n tc num Htc) as (tc' & -> & Htc'). cbn [mbind option_bind]. apply (IH n tc' Ha Htc'). cbn in Hn. lia.
Qed.

(** C32: the table cache is transparent. Over a directory of built tables, with
    any filter policy whose filter blocks are shorter than 4 GiB, from new caches
    of any capacities, any sequence of lookups and evictions (fewer than
    [2 ^ 64], so that ids of the block cache do not repeat) answers each lookup as
    its table does, with an ok status: whether the table is open, is opened again
    after an eviction, or its blocks come from the block cache that all tables
    share. *)
Theorem table_cache_transparent dom (tables : gmap Z entries) ops capacity blocks_capacity :
  ComparatorLaws dom (comparator opt) → (∀ num es, tables !! num = Some es → stored dbname opt NewRandomAccessFile dom num es) →
  (∀ num es, tables !! num = Some es → size_of num = len (file (build_table SN opt es))) → Z.of_nat (size tables) < 2 ^ 31 →
  Forall (λ q, dom q.2 ∧ is_Some (tables !! q.1)) (asked ops) → len ops < 2 ^ 64 →
  ∃ blocks tc rs, NewShardedLRUCache (V := Block) blocks_capacity = Some blocks ∧ NewTableCache capacity blocks = Some tc ∧ TC_run ops tc = Some rs ∧
    Forall2 (λ q r, get_answer opt (default [] (tables !! q.1)) q.2 r) (asked ops) rs.
Proof.
  intros HC Hst Hsize Hfew Ha Hlen. destruct (new_sharded_ok (V := Block) blocks_capacity) as (blocks & Hb & Hid & Hi & Hno).
  destruct (NewTableCache_ok opt dom tables capacity blocks (length ops) Hi Hid Hno Hlen) as (tc & Hc & Htc).
  destruct (TC_run_ok dom tables ops (length ops) tc HC Hst Hsize Hfew Ha Htc ltac:(done)) as (rs & Hrs & HF). by exists blocks, tc, rs.
Qed.

End claims.

(** ** Witnesses *)

(** A directory with one table, which is asked, evicted and asked again. *)
Definition dir_tables : gmap Z entries := {[ 7 := table_example ]}.

Definition dir_files (name : bytes) : option (Z → Z → option bytes) :=
  if bool_decide (name = TableFileName (str "/db") 7) then Some (mem_Read (file (@build_table no_snappy options_example table_example))) else None.

Definition tc_example : list TCOp := [OpGet read_options true 7 [97]; OpEvict 7; OpGet read_options true 7 [98]; OpGet read_options true 7 [99]].

Lemma dir_stored num es : dir_tables !! num = Some es → @stored no_snappy (str "/db") options_example dir_files bytes_ok num es.
Proof.
  unfold dir_tables. intros [<- <-]%lookup_singleton_Some. split.
  - split; vm_compute; [discriminate|reflexivity].
  - unfold dir_files. by rewrite bool_decide_true.
  - apply table_example_ok.
  - apply filter_example_fits.
  - by_decide.
  - unfold keys_sorted, table_example. repeat first [apply SSorted_cons | apply SSorted_nil | apply Forall_cons; split | apply Forall_nil | reflexivity].
Qed.

Lemma table_cache_transparent_witness :
  ∃ blocks tc rs, NewShardedLRUCache (V := Block) 100 = Some blocks ∧ NewTableCache 10 blocks = Some tc ∧
    @TC_run no_snappy (str "/db") options_example true dir_files (λ _, len (file (@build_table no_snappy options_example table_example))) tc_example tc = Some rs ∧
    Forall2 (λ q r, get_answer options_example (default [] (dir_tables !! q.1)) q.2 r) (asked tc_example) rs.
Proof.
  apply (@table_cache_transparent no_snappy no_snappy_laws (str "/db") options_example true dir_files (λ _, len (file (@build_table no_snappy options_example table_example)))
    bytes_ok dir_tables tc_example 10 100).
  - apply _.
  - apply dir_stored.
  - unfold dir_tables. by intros num es [<- <-]%lookup_singleton_Some.
  - unfold dir_tables. rewrite map_size_singleton. reflexivity.
  - unfold tc_example, asked. cbn [omap list_omap]. repeat (apply Forall_cons; split; [split; [by_decide|exists table_example; vm_compute; reflexivity]|]). constructor.
  - reflexivity.
Defined.
