(* ===== verification/DBRead.v ===== *)
(** * db/db_impl.cc, db/version_set.cc, table/table.cc: reading a key

    [DBImpl::Get] asks the memtable, the memtable that is being flushed, and the
    files of the current version through the table cache; and in the modes that
    keep values apart from keys it follows the address it found into a value
    log or a value table. [DBImpl::Put] makes those addresses. The mutex is
    released while the sources are read; they are pinned by references. *)

From Stdlib Require Import Sorted String.
From stdpp Require Import gmap.
From S2P Require Import Prelude Coding Comparator Filename DBFormat Block Format TableBuilder Table Cache Dependency ValueLog MemTable VersionEdit Version TableCache Bloom.

#[local] Open Scope Z_scope.
#[local] Open Scope list_scope.

Section db_read.

Context {SN : Snappy}.

(** The name of the database, its options and environment, as in the table
    cache; the mode and the switch of mod/util; the options of the reads. *)
Context (dbname : bytes) (opt : Options) (paranoid_checks : bool) (NewRandomAccessFile : bytes → option (Z → Z → option bytes)).
Context (MOD : Z) (if_decoupled_compaction : bool) (options : ReadOptions) (cachable : bool) (user : Comparator).

(** What a read uses of the database. The value tables that are open belong to
    the current version. *)
Record DB := {
  mem_ : MemTable;
  imm_ : option MemTable;
  current_version : Version;
  last_sequence : Z;
  table_cache_ : TableCache;
  vtables_ : gmap Z Table;
  vlog : VLog.t;
  grouped_vlog : Grouped.t
}.

Definition set_tables (tc : TableCache) (vt : gmap Z Table) (db : DB) : DB := {|
  mem_ := mem_ db; imm_ := imm_ db; current_version := current_version db; last_sequence := last_sequence db;
  table_cache_ := tc; vtables_ := vt; vlog := vlog db; grouped_vlog := grouped_vlog db |}.

Definition set_dep (m : gmap Z Z) (db : DB) : DB := {|
  mem_ := mem_ db; imm_ := imm_ db;
  current_version := {| files_ := files_ (current_version db); vfiles_ := vfiles_ (current_version db); dep_map_ := m |};
  last_sequence := last_sequence db; table_cache_ := table_cache_ db; vtables_ := vtables_ db; vlog := vlog db; grouped_vlog := grouped_vlog db |}.

Definition set_logs (v : VLog.t) (g : Grouped.t) (db : DB) : DB := {|
  mem_ := mem_ db; imm_ := imm_ db; current_version := current_version db; last_sequence := last_sequence db;
  table_cache_ := table_cache_ db; vtables_ := vtables_ db; vlog := v; grouped_vlog := g |}.

(** ** Value tables *)

(** [SaveValueV2]: like [SaveValue], for the keys of value tables. *)
Definition SaveValueV2 (user_key : bytes) (entry : bytes * bytes) (saver : SaverState * bytes) : SaverState * bytes :=
  match ParseInternalVKey entry.1 with
  | None => (kCorrupt, saver.2)
  | Some parsed_key =>
      if Compare user (DBFormat.user_key parsed_key) user_key =? 0 then
        match type parsed_key with kTypeValue => (kFound, entry.2) | kTypeDeletion => (kDeleted, saver.2) end
      else saver
  end.

(** The comparator that [VBlockReader] selects. *)
Definition vcmp : Comparator := if MOD =? 10 then VKey.comparator else comparator opt.

(** [for (block_iter->SeekToFirst(); block_iter->Valid(); block_iter->Next())]
    with the break at the first entry of the user key. *)
Fixpoint MergedLoop (fuel : nat) (block_iter : Table.Iterator) (user_key : bytes) (saver : SaverState * bytes)
    : option (Table.Iterator * (SaverState * bytes)) :=
  if Valid block_iter then
    match fuel with
    | O => None
    | S fuel' =>
        let saver := SaveValueV2 user_key (current block_iter) saver in
        match saver.1 with
        | kFound => Some (block_iter, saver)
        | _ => block_iter ← move Iter.Next block_iter; MergedLoop fuel' block_iter user_key saver
        end
    end
  else Some (block_iter, saver).

(** The fuel is the size of the block: every entry takes a byte. *)
Definition iter_fuel (i : Table.Iterator) : nat :=
  match i with BlockIter it => Z.to_nat (Iter.restarts_ it) | _ => 0 end.

Definition MergedVGet (t : Table) (user_key : bytes) (saver : SaverState * bytes) (block_number : Z)
    : option (option Error * (SaverState * bytes)) :=
  let iiter := of_block_iterator (NewIterator VKey.comparator (t_index_block t)) in
  iiter ← move Iter.SeekToFirst iiter;
  iiter ← NextN (Z.to_nat block_number) iiter;
  '(s, saver) ← (if Valid iiter then
                   let block_iter := VBlockReader t vcmp options (Table.current iiter).2 in
                   block_iter ← move Iter.SeekToFirst block_iter;
                   '(block_iter, saver) ← MergedLoop (iter_fuel block_iter) block_iter user_key saver;
                   Some (iter_status block_iter, saver)
                 else Some (None, saver));
  Some (match s with None => (iter_status iiter, (kFound, saver.2)) | Some _ => (s, saver) end).

(** The value table of a number: it is opened once for a version. *)
Definition FindVTable (file_number file_size : Z) (db : DB) : option ((Error + Table) * DB) :=
  match vtables_ db !! file_number with
  | Some table => Some (inr table, db)
  | None =>
      match NewRandomAccessFile (VTableFileName dbname file_number) with
      | None => Some (inl IOError, db)
      | Some file =>
          let tc := table_cache_ db in
          let '(id, blocks) := S_NewId (block_cache tc) in
          s ← Open opt id file paranoid_checks file_size;
          match s with
          | inl e => Some (inl e, db)
          | inr table =>
              Some (inr table, set_tables {| cache_ := cache_ tc; block_cache := blocks |} (<[file_number := table]> (vtables_ db)) db)
          end
      end
  end.

Definition GetFromVFile (lkey : LookupKey) (val : bytes) (file_number file_size block_number block_offset : Z) (db : DB)
    : option (option Error * bytes * DB) :=
  '(s, db) ← FindVTable file_number file_size db;
  match s with
  | inl e => Some (Some e, val, db)
  | inr table =>
      '(found, s) ← InternalVGet table vcmp options block_number block_offset;
      let saver := match found with Some e => SaveValueV2 (lookup_user_key lkey) e (kNotFound, val) | None => (kNotFound, val) end in
      Some (s, saver.2, db)
  end.

Definition GetFromMergedVFile (lkey : LookupKey) (val : bytes) (file_number file_size block_number block_offset : Z) (db : DB)
    : option (option Error * bytes * DB) :=
  '(s, db) ← FindVTable file_number file_size db;
  match s with
  | inl e => Some (Some e, val, db)
  | inr table =>
      '(s, saver) ← MergedVGet table (lookup_user_key lkey) (kNotFound, val) block_number;
      Some (s, saver.2, db)
  end.

(** [vfile_map_[file_number]->file_size]; [None] is a null pointer. *)
Definition vfile_size (v : Version) (file_number : Z) : option Z :=
  f ← last (filter (λ f, number f = file_number) (mjoin (vfiles_ v))); Some (file_size f).

Definition FindParent (child : Z) (db : DB) : option (Z * DB) :=
  let m := dep_map_ (current_version db) in
  '(p, m) ← UnionFind.FindParent (S (size m)) child m; Some (p, set_dep m db).

(** [DecodeFixed32] and [DecodeFixed64] read the bytes of a string; [None] is a
    read past its end. *)
Definition fixed32_at (off : Z) (s : bytes) : option Z := if len s <? off + 4 then None else Some (DecodeFixed32 (skip off s)).
Definition fixed64_at (off : Z) (s : bytes) : option Z := if len s <? off + 8 then None else Some (DecodeFixed64 (skip off s)).

(** ** Get *)

(** The first part of [Get]: the status, the value, and [read_from_mem]. *)
Definition Find (snapshot : option Z) (key value : bytes) (db : DB) : option (GetStatus * bytes * bool * DB) :=
  let snapshot := default (last_sequence db) snapshot in
  let lkey := MakeLookupKey key snapshot in
  in_mem ← MemTable.Get lkey (mem_ db);
  in_imm ← match in_mem, imm_ db with Missing, Some imm => MemTable.Get lkey imm | r, _ => Some r end;
  match in_imm with
  | Found v => Some (GetOk, v, true, db)
  | Deleted => Some (GetNotFound, value, true, db)
  | Missing =>
      '(s, value, _, tc) ← Version_Get (T := tc_reader dbname opt paranoid_checks NewRandomAccessFile options cachable) user (current_version db) lkey value (table_cache_ db);
      Some (s, value, false, set_tables tc (vtables_ db) db)
  end.

Definition PreGet (snapshot : option Z) (key value : bytes) (db : DB) : option (GetStatus * bytes * DB) :=
  '(s, value, _, db) ← Find snapshot key value db; Some (s, value, db).

(** The second part: the value behind an address. The status of a read from a
    value table is dropped. *)
Definition Resolve (lkey : LookupKey) (read_from_mem : bool) (value : bytes) (db : DB) : option (bytes * DB) :=
  if (MOD =? 7) || (MOD =? 8) then
    value_address ← fixed64_at 0 value;
    value_size ← fixed32_at 8 value;
    value ← VLog.ReadRecord value_address value_size (vlog db);
    Some (value, db)
  else if (MOD =? 9) && negb read_from_mem then
    file_number ← fixed32_at 0 value;
    file_size ← vfile_size (current_version db) file_number;
    block_number ← fixed32_at 4 value;
    block_offset ← fixed32_at 8 value;
    '(_, value, db) ← GetFromVFile lkey value file_number file_size block_number block_offset db;
    Some (value, db)
  else if (MOD =? 10) && negb read_from_mem then
    file_number ← fixed32_at 0 value;
    block_number ← fixed32_at 4 value;
    block_offset ← fixed32_at 8 value;
    '(parent, db) ← FindParent file_number db;
    if negb (parent =? 0) then
      '(file_number, db) ← FindParent file_number db;
      file_size ← vfile_size (current_version db) file_number;
      '(_, value, db) ← GetFromMergedVFile lkey value file_number file_size block_number block_offset db;
      Some (value, db)
    else
      file_size ← vfile_size (current_version db) file_number;
      '(_, value, db) ← GetFromVFile lkey value file_number file_size block_number block_offset db;
      Some (value, db)
  else if MOD =? 12 then
    group_index ← fixed32_at 0 value;
    value_address ← fixed64_at 4 value;
    value_size ← fixed32_at 12 value;
    value ← Grouped.ReadRecord group_index value_address value_size (grouped_vlog db);
    Some (value, db)
  else Some (value, db).

Definition DBImpl_Get (snapshot : option Z) (key value : bytes) (db : DB) : option (GetStatus * bytes * DB) :=
  '(s, value, read_from_mem, db) ← Find snapshot key value db;
  match s with
  | GetOk =>
      let lkey := MakeLookupKey key (default (last_sequence db) snapshot) in
      '(value, db) ← Resolve lkey read_from_mem value db;
      Some (GetOk, value, db)
  | _ => Some (s, value, db)
  end.

(** ** Put *)

(** The value that [Put] hands to [DB::Put], after it has logged [val]. *)
Definition SeparateValue (key val : bytes) (db : DB) : bytes * DB :=
  if (MOD <=? 6) || (MOD =? 9) || (MOD =? 10) then (val, db)
  else if MOD =? 12 then
    let '(g, (group, address)) := Grouped.AddRecord key val (grouped_vlog db) in
    (EncodeFixed32 (u32 group) ++ EncodeFixed64 address ++ EncodeFixed32 (u32 (len val)), set_logs (vlog db) g db)
  else
    let '(v, value_address) := VLog.AddRecord key val (vlog db) in
    (EncodeFixed64 value_address ++ EncodeFixed32 (u32 (len val)), set_logs v (grouped_vlog db) db).

(** ** Scan *)

(** One value of [DBImpl::Scan]; in mode 8 the size is not used. *)
Definition ScanOne (lkey : LookupKey) (value : bytes) (db : DB) : option (option bytes * DB) :=
  if MOD =? 8 then
    value_address ← fixed64_at 0 value;
    value_size ← fixed32_at 8 value;
    cur_res ← VLog.ReadRecord value_address (u32 value_address) (vlog db);
    Some (Some cur_res, db)
  else if MOD =? 9 then
    file_number ← fixed32_at 0 value;
    file_size ← vfile_size (current_version db) file_number;
    block_number ← fixed32_at 4 value;
    block_offset ← fixed32_at 8 value;
    '(_, cur_res, db) ← GetFromVFile lkey [] file_number file_size block_number block_offset db;
    Some (Some cur_res, db)
  else if MOD =? 10 then
    file_number ← fixed32_at 0 value;
    file_size ← vfile_size (current_version db) file_number;
    block_number ← fixed32_at 4 value;
    block_offset ← fixed32_at 8 value;
    '(parent, db) ← FindParent file_number db;
    if negb (parent =? 0) && if_decoupled_compaction then
      '(file_number, db) ← FindParent file_number db;
      file_size ← vfile_size (current_version db) file_number;
      '(_, cur_res, db) ← GetFromMergedVFile lkey [] file_number file_size block_number block_offset db;
      Some (Some cur_res, db)
    else
      '(_, cur_res, db) ← GetFromVFile lkey [] file_number file_size block_number block_offset db;
      Some (Some cur_res, db)
  else if MOD =? 12 then
    group_index ← fixed32_at 0 value;
    value_address ← fixed64_at 4 value;
    value_size ← fixed32_at 12 value;
    cur_res ← Grouped.ReadRecord group_index value_address value_size (grouped_vlog db);
    Some (Some cur_res, db)
  else Some (None, db).

Fixpoint Scan_loop (lkey : LookupKey) (values res : list bytes) (db : DB) : option (list bytes * DB) :=
  match values with
  | [] => Some (res, db)
  | value :: values =>
      '(cur_res, db) ← ScanOne lkey value db;
      Scan_loop lkey values (match cur_res with Some r => res ++ [r] | None => res end) db
  end.

Definition Scan (snapshot : option Z) (key : bytes) (values res : list bytes) (db : DB) : option (list bytes * DB) :=
  Scan_loop (MakeLookupKey key (default (last_sequence db) snapshot)) values res db.

End db_read.

(** ** Lemmas: addresses *)

Section addresses.

Context {SN : Snappy} (dbname : bytes) (opt : Options) (paranoid_checks : bool) (NewRandomAccessFile : bytes → option (Z → Z → option bytes)).
Context (MOD : Z) (if_decoupled_compaction : bool) (options : ReadOptions) (cachable : bool) (user : Comparator).

(** The modes whose reads are covered: those without a second step, and those
    with a value log and no learned index. *)
Definition plain_mode : bool := negb ((MOD =? 6) || (MOD =? 7) || (MOD =? 8) || (MOD =? 9) || (MOD =? 10) || (MOD =? 12)).

Definition log_address (address : Z) (real : bytes) : bytes := EncodeFixed64 address ++ EncodeFixed32 (len real).
Definition group_address (group address : Z) (real : bytes) : bytes := EncodeFixed32 group ++ EncodeFixed64 address ++ EncodeFixed32 (len real).

(** [stored], a value of the tree, stands for [real]. *)
Definition stored_as (db : DB) (stored real : bytes) : Prop :=
  if plain_mode then stored = real
  else if MOD =? 8 then ∃ a, u64_ok a ∧ len real < 2 ^ 32 ∧ stored = log_address a real ∧ ValueLog.holds (vlog db) a real ∧ len real ≤ VLog.scratch (vlog db)
  else if MOD =? 12 then
    ∃ i a, 0 ≤ i < Grouped.num_groups (grouped_vlog db) ∧ i < 2 ^ 32 ∧ u64_ok a ∧ len real < 2 ^ 32 ∧ stored = group_address i a real ∧
      ValueLog.holds (Grouped.log_at i (grouped_vlog db)) a real ∧ len real ≤ VLog.scratch (Grouped.log_at i (grouped_vlog db))
  else False.

(** The logs hold at most [n] bytes and read values of up to [m]. *)
Definition logs_ok (m n : Z) (db : DB) : Prop :=
  vlog_ok (vlog db) ∧ content (vlog db) ≤ n ∧ groups_ok m n (grouped_vlog db) ∧ Grouped.num_groups (grouped_vlog db) < 2 ^ 32 ∧ m ≤ VLog.scratch (vlog db).

Lemma fixed32_at_app pre v rest off : off = len pre → u32_ok v → fixed32_at off (pre ++ EncodeFixed32 v ++ rest) = Some v.
Proof.
  intros -> Hv. unfold fixed32_at. rewrite !len_app, len_EncodeFixed32. pose proof (len_nonneg rest). rewrite (proj2 (Z.ltb_ge _ _)) by lia.
  rewrite skip_app by done. by rewrite DecodeFixed32_app.
Qed.

Lemma fixed64_at_app pre v rest off : off = len pre → u64_ok v → fixed64_at off (pre ++ EncodeFixed64 v ++ rest) = Some v.
Proof.
  intros -> Hv. unfold fixed64_at. rewrite !len_app, len_EncodeFixed64. pose proof (len_nonneg rest). rewrite (proj2 (Z.ltb_ge _ _)) by lia.
  rewrite skip_app by done. by rewrite DecodeFixed64_app.
Qed.

Lemma fixed_last pre v off : off = len pre → u32_ok v → fixed32_at off (pre ++ EncodeFixed32 v) = Some v.
Proof. intros H Hv. rewrite <- (app_nil_r (EncodeFixed32 v)). by apply fixed32_at_app. Qed.

Lemma fixed64_at_0 v rest : u64_ok v → fixed64_at 0 (EncodeFixed64 v ++ rest) = Some v.
Proof. intros Hv. by apply (fixed64_at_app []). Qed.

Lemma fixed32_at_0 v rest : u32_ok v → fixed32_at 0 (EncodeFixed32 v ++ rest) = Some v.
Proof. intros Hv. by apply (fixed32_at_app []). Qed.

Lemma Resolve_ok m n lkey rfm stored real db :
  logs_ok m n db → stored_as db stored real →
  Resolve dbname opt paranoid_checks NewRandomAccessFile MOD options user lkey rfm stored db = Some (real, db).
Proof.
  intros (Hv & _ & Hg & Hk & _). unfold stored_as, Resolve, plain_mode. pose proof (len_nonneg real) as Hl0.
  destruct (Z.eqb_spec MOD 6), (Z.eqb_spec MOD 7), (Z.eqb_spec MOD 8), (Z.eqb_spec MOD 9), (Z.eqb_spec MOD 10), (Z.eqb_spec MOD 12); try lia; cbn [orb negb andb]; try done.
  - intros (a & Ha & Hl & -> & Hh & Hscr). unfold log_address. assert (len (EncodeFixed64 a) = 8) as H8 by apply len_EncodeFixed64.
    rewrite fixed64_at_0 by done. cbn [mbind option_bind]. rewrite (fixed_last (EncodeFixed64 a)) by (done || unfold u32_ok; lia).
    cbn [mbind option_bind]. by rewrite read_holds.
  - intros (i & a & Hi & Hi2 & Ha & Hl & -> & Hh & Hscr). unfold group_address. destruct (log_at_ok m n (grouped_vlog db) i Hg Hi) as (_ & Hlog & _).
    rewrite fixed32_at_0 by (unfold u32_ok; lia). cbn [mbind option_bind]. rewrite (fixed64_at_app (EncodeFixed32 i)) by (done || by rewrite len_EncodeFixed32).
    cbn [mbind option_bind]. rewrite app_assoc, fixed_last by (rewrite ?len_app, ?len_EncodeFixed32, ?len_EncodeFixed64; unfold u32_ok; lia). cbn [mbind option_bind].
    unfold Grouped.ReadRecord. rewrite (proj2 (Z.ltb_ge _ _)), Z.geb_leb, (proj2 (Z.leb_gt _ _)) by lia. cbn [orb]. by rewrite read_holds.
  - by intros ->.
Qed.

(** What [Put] stores stands for the value, and older addresses stay good. *)
Lemma SeparateValue_ok m n key val db st db1 :
  logs_ok m n db → n + (len key + len val + 10) < 2 ^ 62 → len val < 2 ^ 32 → len val ≤ m →
  (plain_mode = true → MOD ≤ 5) → plain_mode = true ∨ MOD = 8 ∨ MOD = 12 →
  SeparateValue MOD key val db = (st, db1) →
  logs_ok m (n + (len key + len val + 10)) db1 ∧ stored_as db1 st val ∧ (∀ st' real, stored_as db st' real → stored_as db1 st' real) ∧
  mem_ db1 = mem_ db ∧ imm_ db1 = imm_ db ∧ current_version db1 = current_version db ∧ table_cache_ db1 = table_cache_ db.
Proof.
  intros (Hv & Hc & Hg & Hk & Hsv) Hn Hval Hm Hplain Hmode. pose proof (len_nonneg key). pose proof (len_nonneg val). unfold SeparateValue, stored_as.
  destruct plain_mode eqn:Ep.
  { specialize (Hplain eq_refl). rewrite (proj2 (Z.leb_le _ _)) by lia. cbn [orb]. intros [= <- <-]. split; [|done]. split_and!; [done|lia| |done|done].
    destruct Hg as [? ? Hl]. split; try done. eapply Forall_impl; [exact Hl|]. intros x (? & ? & ?). split_and!; [done|lia|done]. }
  destruct Hmode as [?|[E8|E12]]; [done| |].
  - rewrite E8. cbn [Z.leb Z.eqb Z.compare Pos.compare Pos.compare_cont orb Pos.eqb].
    pose proof (vlog_step_ok (vlog db) (OpAdd key val) Hv ltac:(cbn [op_bytes]; lia)) as (H1 & H2 & H3).
    pose proof (add_holds (OpAdd key val) (vlog db) _ val Hv ltac:(cbn [op_bytes]; lia) eq_refl) as H4. cbn [vlog_step op_bytes] in *.
    destruct (VLog.AddRecord key val (vlog db)) as [v' a]. cbn [fst snd] in *. intros [= <- <-]. cbn [mem_ imm_ current_version table_cache_ vlog grouped_vlog set_logs]. split_and!; try done.
    + split_and!; try done; cbn [vlog grouped_vlog set_logs]; [lia| |by rewrite (ve_scratch _ _ H2)]. destruct Hg as [? ? Hl]. split; try done. eapply Forall_impl; [exact Hl|]. intros x (? & ? & ?). split_and!; [done|lia|done].
    + exists a. split_and!; try done; [|by rewrite u32_id by (unfold u32_ok; lia)|rewrite (ve_scratch _ _ H2); lia].
      destruct H4 as [(pre & post & E & Epre) _], H1 as [_ _ Hfit]. rewrite <- len_app, E, !len_app in Hfit. pose proof (len_nonneg pre). pose proof (len_nonneg post). unfold u64_ok. lia.
    + intros st' real (a' & ? & ? & ? & Hh & ?). exists a'. split_and!; try done; [by apply (ValueLog.holds_extends (vlog db))|by rewrite (ve_scratch _ _ H2)].
  - rewrite E12. cbn [Z.leb Z.eqb Z.compare Pos.compare Pos.compare_cont orb Pos.eqb]. unfold Grouped.AddRecord. set (i := Grouped.GetGroupIndex (grouped_vlog db) key).
    assert (0 ≤ i < Grouped.num_groups (grouped_vlog db)) as Hi by (by apply (group_index_range m n)). destruct (log_at_ok m n _ i Hg Hi) as (_ & Hlog & Hcl & Hsl).
    pose proof (AddRecord2_ok key val (Grouped.log_at i (grouped_vlog db)) Hlog ltac:(lia)) as Hadd. destruct (VLog.AddRecord2 key val _) as [v' a]. destruct Hadd as (H1 & H2 & H3 & H4).
    intros [= <- <-]. cbn [mem_ imm_ current_version table_cache_ vlog grouped_vlog set_logs].
    pose proof (update_ok m n (n + (len key + len val + 10)) (grouped_vlog db) i (λ _, v') Hg ltac:(lia) Hi H1 ltac:(cbv beta; lia) (ve_scratch _ _ H2)) as Hg'.
    assert (∀ j, 0 ≤ j → Grouped.log_at j (Grouped.update i (λ _, v') (grouped_vlog db)) = if j =? i then v' else Grouped.log_at j (grouped_vlog db)) as Hat.
    { intros j Hj. by rewrite (log_at_update m n _ i j). }
    split_and!; try done.
    + split_and!; try done. cbn [vlog set_logs]. lia.
    + exists i, a. rewrite Hat, Z.eqb_refl by lia. rewrite !u32_id by (unfold u32_ok; lia). split_and!; try done; cbn; try lia; [|rewrite (ve_scratch _ _ H2); lia].
      destruct H3 as [(pre & post & E & Epre) _], H1 as [_ _ Hfit]. rewrite <- len_app, E, !len_app in Hfit. pose proof (len_nonneg pre). pose proof (len_nonneg post). unfold u64_ok. lia.
    + intros st' real (j & a' & Hj & ? & ? & ? & ? & Hh & ?). exists j, a'. rewrite Hat by lia. split_and!; try done; cbn; try lia;
        (destruct (Z.eqb_spec j i) as [->|]; [|done]); [by apply (ValueLog.holds_extends (Grouped.log_at i (grouped_vlog db)))|by rewrite (ve_scratch _ _ H2)].
Qed.

End addresses.

(** ** Lemmas: finding the newest entry *)

Section find.

Context {SN : Snappy} {HS : SnappyLaws SN}.
Context (dbname : bytes) (opt : Options) (paranoid_checks : bool) (NewRandomAccessFile : bytes → option (Z → Z → option bytes)).
Context (options : ReadOptions) (cachable : bool).
Context (udom : bytes → Prop) (user : Comparator) (HL : ComparatorLaws udom user) (Hudom : ∀ u, udom u → bytes_ok u).
Context (tables : gmap Z entries).

Abbreviation contents := (contents_of opt tables).

Definition write_entry (w : write) : bytes * bytes := (write_key w, w_value w).

(** The state of the database: the writes [ws] of the memtable and [im] of the
    one that is being flushed, the files of the version, and their order in
    time. The table cache is good for [n] reads. *)
Record db_ok (n : nat) (ws im : list write) (db : DB) : Prop := {
  dk_mem : holds_writes udom user (mem_ db) ws;
  dk_imm : match imm_ db with Some m => holds_writes udom user m im | None => im = [] end;
  dk_version : version_wf udom user contents (current_version db);
  dk_cache : tc_ok opt (ikey_ok udom) tables n (table_cache_ db);
  dk_room : (count_files (Z.to_nat kNumLevels) (current_version db) 0 ≤ n)%nat;
  dk_imm_older w w' : w ∈ ws → w' ∈ im → w_key w = w_key w' → w_seq w' ≤ w_seq w;
  dk_files_older w e : w ∈ ws ++ im → version_entry contents (current_version db) e → ExtractUserKey e.1 = w_key w → seq_of e.1 ≤ w_seq w
}.

Definition db_entry (ws im : list write) (db : DB) (e : bytes * bytes) : Prop :=
  (∃ w, w ∈ ws ++ im ∧ e = write_entry w) ∨ version_entry contents (current_version db) e.

Definition db_newest (ws im : list write) (db : DB) (u : bytes) (s : Z) (e : bytes * bytes) : Prop :=
  db_entry ws im db e ∧ sees u s e ∧ ∀ e', db_entry ws im db e' → sees u s e' → seq_of e'.1 ≤ seq_of e.1.

Lemma write_entry_parts w : write_ok udom w → ExtractUserKey (write_entry w).1 = w_key w ∧ seq_of (write_entry w).1 = w_seq w.
Proof.
  intros Hw. unfold write_entry, write_key. cbn [fst]. split; [by apply (InternalKey_parts udom Hudom); [apply Hw|apply Hw]|].
  apply (valid_seq udom Hudom); [apply Hw|apply Hw].
Qed.

Lemma outcome_write w value :
  write_ok udom w → outcome (write_entry w) value = match w_type w with kTypeValue => (GetOk, w_value w) | kTypeDeletion => (GetNotFound, value) end.
Proof.
  intros Hw. unfold outcome, write_entry, write_key. cbn [fst snd]. rewrite ParseInternalKey_make by (apply Hw || apply Hudom, Hw). by destruct (w_type w).
Qed.

Lemma holds_imm n ws im db : db_ok n ws im db → Forall (write_ok udom) (ws ++ im).
Proof.
  intros Hd. apply Forall_app_2; [apply (hw_writes _ _ _ _ (dk_mem _ _ _ _ Hd))|]. pose proof (dk_imm _ _ _ _ Hd) as H. destruct (imm_ db); [apply H|]. subst. constructor.
Qed.

Context (Hopt : db_options opt user).
Context (Hstored : ∀ n es, tables !! n = Some es → stored dbname opt NewRandomAccessFile (ikey_ok udom) n es).
Context (Hfew : Z.of_nat (size tables) < 2 ^ 31).

Lemma Find_ok n ws im db snapshot u value :
  let s := default (last_sequence db) snapshot in
  db_ok n ws im db → udom u → len u + 8 < 2 ^ 32 → 0 ≤ s ≤ kMaxSequenceNumber →
  ∃ tc rfm, let db' := set_tables tc (vtables_ db) db in
  ((∃ e, db_newest ws im db u s e ∧
     Find dbname opt paranoid_checks NewRandomAccessFile options cachable user snapshot u value db = Some ((outcome e value).1, (outcome e value).2, rfm, db')) ∨
   ((∀ e, db_entry ws im db e → ¬ sees u s e) ∧
     Find dbname opt paranoid_checks NewRandomAccessFile options cachable user snapshot u value db = Some (GetOk, value, false, db'))).
Proof.
  intros s Hd Hu Hlen Hs. pose proof (holds_imm n ws im db Hd) as Hok. rewrite Forall_forall in Hok. unfold Find. fold s.
  assert (set_tables (table_cache_ db) (vtables_ db) db = db) as Hsame by (by destruct db).
  assert (∀ ws' w, (∀ w', w' ∈ ws' → w' ∈ ws ++ im) → StronglySorted (λ w w', w_seq w < w_seq w') ws' → visible u s ws' = Some w →
    (∀ w', w' ∈ ws ++ im → w_key w' = u → w_seq w' ≤ s → w' ∈ ws' ∨ w_seq w' ≤ w_seq w) → db_newest ws im db u s (write_entry w)) as Hnewest.
  { intros ws' w Hsub Hsort Hvis Hother. destruct (visible_Some u s ws' w Hsort Hvis) as (Hin & Hk & Hle & Hmax). specialize (Hsub w Hin) as Hin'.
    destruct (write_entry_parts w (Hok w Hin')) as [Eu Es]. split; [left; by exists w|]. split; [split; [congruence|lia]|].
    intros e' [(w' & Hw' & ->)|Hv] [Hu' Hs'].
    - destruct (write_entry_parts w' (Hok w' Hw')) as [Eu' Es']. rewrite Es, Es'. rewrite Es' in Hs'. rewrite Eu' in Hu'. destruct (Hother w' Hw' Hu' Hs') as [H|H]; [|done].
      destruct (Hmax w' H Hu' Hs') as [->|]; lia.
    - rewrite Es. apply (dk_files_older _ _ _ _ Hd w e'); [done|done|congruence]. }
  rewrite (Get_holds udom user HL Hudom (mem_ db) ws u s (dk_mem _ _ _ _ Hd) Hu Hlen Hs). cbn [mbind option_bind].
  pose proof (hw_seqs _ _ _ _ (dk_mem _ _ _ _ Hd)) as Hsort. destruct (visible u s ws) as [w|] eqn:Hvis; cbn [answer].
  { exists (table_cache_ db), true. left. exists (write_entry w). rewrite Hsame.
    assert (w ∈ ws ++ im) as Hw by (apply elem_of_app; left; by apply (visible_Some u s ws w)). rewrite (outcome_write w value (Hok w Hw)). split.
    - apply (Hnewest ws w); [intros w' Hw'; apply elem_of_app; by left|done|done|]. intros w' [?|Hw']%elem_of_app Hk' _; [by left|]. right.
      destruct (visible_Some u s ws w Hsort Hvis) as (Hin & Hk & _ & _). apply (dk_imm_older _ _ _ _ Hd); [done|done|congruence].
    - by destruct (w_type w). }
  pose proof (visible_None u s ws Hvis) as Hnone.
  assert (∀ w', w' ∈ ws ++ im → w_key w' = u → w_seq w' ≤ s → w' ∈ im) as Honly.
  { intros w' [Hw'|Hw']%elem_of_app Hk' Hs'; [exfalso; by apply (Hnone w' Hw' Hk')|done]. }
  assert ((∀ w', w' ∈ im → w_key w' = u → ¬ w_seq w' ≤ s) → ∃ tc, let db' := set_tables tc (vtables_ db) db in
    (∃ e, db_newest ws im db u s e ∧
      ('(s, value, _, tc) ← Version_Get (T := tc_reader dbname opt paranoid_checks NewRandomAccessFile options cachable) user (current_version db) (MakeLookupKey u s) value (table_cache_ db);
       Some (s, value, false, set_tables tc (vtables_ db) db)) = Some ((outcome e value).1, (outcome e value).2, false, db')) ∨
    ((∀ e, db_entry ws im db e → ¬ sees u s e) ∧
      ('(s, value, _, tc) ← Version_Get (T := tc_reader dbname opt paranoid_checks NewRandomAccessFile options cachable) user (current_version db) (MakeLookupKey u s) value (table_cache_ db);
       Some (s, value, false, set_tables tc (vtables_ db) db)) = Some (GetOk, value, false, db'))) as Hfiles.
  { intros Hnoimm. assert (∀ w, w ∈ ws ++ im → ¬ sees u s (write_entry w)) as Hnow.
    { intros w Hw [Hu' Hs']. destruct (write_entry_parts w (Hok w Hw)) as [Eu Es]. rewrite Eu in Hu'. rewrite Es in Hs'. apply (Hnoimm w); [by apply Honly|done|done]. }
    destruct (Version_Get_ok udom user HL Hudom contents (tc_ok opt (ikey_ok udom) tables)
      (HT := tc_reader_laws dbname opt paranoid_checks NewRandomAccessFile udom user HL Hudom Hopt tables Hstored Hfew options cachable)
      (current_version db) u s value 0 n (table_cache_ db) (dk_version _ _ _ _ Hd) Hu Hlen Hs (dk_cache _ _ _ _ Hd)) as (stats & m' & tc & _ & _ & [(e & (Hve & Hse & Hmax) & ->)|(Hno & ->)]).
    { pose proof (dk_room _ _ _ _ Hd). lia. }
    - exists tc. left. exists e. split; [|done]. split; [by right|]. split; [done|]. intros e' [(w & Hw & ->)|Hv'] Hs'; [by apply Hnow in Hs'|by apply Hmax].
    - exists tc. right. split; [|done]. intros e [(w & Hw & ->)|Hv']; [by apply Hnow|by apply Hno]. }
  pose proof (dk_imm _ _ _ _ Hd) as Himm. destruct (imm_ db) as [m|].
  - rewrite (Get_holds udom user HL Hudom m im u s Himm Hu Hlen Hs). cbn [mbind option_bind]. destruct (visible u s im) as [w|] eqn:Hvi; cbn [answer].
    + exists (table_cache_ db), true. left. exists (write_entry w). rewrite Hsame. pose proof (hw_seqs _ _ _ _ Himm) as Hsort'.
      assert (w ∈ ws ++ im) as Hw by (apply elem_of_app; right; by apply (visible_Some u s im w)). rewrite (outcome_write w value (Hok w Hw)). split.
      * apply (Hnewest im w); [intros w' Hw'; apply elem_of_app; by right|done|done|]. intros w' Hw' Hk' Hs'. left. by apply Honly.
      * by destruct (w_type w).
    + destruct (Hfiles (visible_None u s im Hvi)) as (tc & H). by exists tc, false.
  - subst im. cbn [mbind option_bind]. destruct Hfiles as (tc & H); [by intros w ?%not_elem_of_nil|]. by exists tc, false.
Qed.

End find.

(** ** Properties *)

(** C7: the database returns the newest value. Over a memtable, perhaps one
    that is being flushed, and the files of a well-formed version read through
    the table cache (with any filter policy whose filter blocks are shorter than
    4 GiB), with every value that the tree holds standing for a real
    one, [DBImpl::Get] of a user key at a snapshot, or at the last sequence
    number, if the snapshot sees an entry of the key, returns the real value of
    the newest such entry among all sources, be it stored in the tree (the modes
    with no second step) or in the value log (mode 8) or the grouped value logs
    (mode 12), where it has at most the bytes that the buffer for reads holds;
    or [NotFound] if that entry is a deletion. *)
Theorem db_get_newest {SN : Snappy} {HS : SnappyLaws SN} dbname opt paranoid_checks NewRandomAccessFile MOD options cachable udom user tables
    n m k ws im db snapshot u value :
  ComparatorLaws udom user → (∀ u, udom u → bytes_ok u) → db_options opt user →
  (∀ n es, tables !! n = Some es → stored dbname opt NewRandomAccessFile (ikey_ok udom) n es) → Z.of_nat (size tables) < 2 ^ 31 →
  plain_mode MOD = true ∨ MOD = 8 ∨ MOD = 12 → db_ok opt udom user tables n ws im db → logs_ok m k db →
  (∀ e, db_entry opt tables ws im db e → (outcome e value).1 = GetOk → ∃ real, stored_as MOD db e.2 real) →
  udom u → len u + 8 < 2 ^ 32 → 0 ≤ default (last_sequence db) snapshot ≤ kMaxSequenceNumber →
  let s := default (last_sequence db) snapshot in
  let get := DBImpl_Get dbname opt paranoid_checks NewRandomAccessFile MOD options cachable user snapshot u value db in
  (∃ e, db_entry opt tables ws im db e ∧ sees u s e) →
  ∃ tc e, let db' := set_tables tc (vtables_ db) db in
  db_newest opt tables ws im db u s e ∧
  match (outcome e value).1 with
  | GetOk => ∃ real, stored_as MOD db e.2 real ∧ get = Some (GetOk, real, db')
  | status => status = GetNotFound ∧ get = Some (GetNotFound, value, db')
  end.
Proof.
  intros HL Hud Hopt Hst Hfew Hmode Hd Hlogs Hreal Hu Hlen Hs s get Hseen. unfold get, DBImpl_Get.
  destruct (Find_ok dbname opt paranoid_checks NewRandomAccessFile options cachable udom user HL Hud tables Hopt Hst Hfew n ws im db snapshot u value Hd Hu Hlen Hs)
    as (tc & rfm & [(e & Hnew & ->)|(Hno & _)]); [|by destruct Hseen as (e & He & Hse); destruct (Hno e He)].
  exists tc, e. cbn [mbind option_bind]. split; [done|]. destruct Hnew as (He & _ & _). assert (valid_key udom e.1) as (u' & q & t & Hk & Hu' & Hq).
  { destruct He as [(w & Hw & ->)|(level & f & _ & Hf & Hin)].
    - pose proof (holds_imm opt udom user tables n ws im db Hd) as Hok. rewrite Forall_forall in Hok. destruct (Hok w Hw). by exists (w_key w), (w_seq w), (w_type w).
    - pose proof (vw_files _ _ _ _ (dk_version _ _ _ _ _ _ _ _ Hd) level) as Hwf. rewrite Forall_forall in Hwf. pose proof (fw_keys _ _ _ _ (Hwf f Hf)) as Hkeys.
      rewrite Forall_forall in Hkeys. by apply Hkeys. }
  specialize (Hreal e He). unfold outcome in *. rewrite Hk, ParseInternalKey_make in * by auto. cbn [type] in *. destruct t; cbn [fst snd] in *; [done|].
  destruct (Hreal eq_refl) as (real & Hr). exists real. split; [done|]. rewrite (Resolve_ok dbname opt paranoid_checks NewRandomAccessFile MOD options user m k _ rfm e.2 real); done.
Qed.

(** C15: values that are kept apart are found again. [Put] in the modes with a
    value log (8) or grouped value logs (12) stores bytes that [Get] turns back
    into the value it was given, if it has at most the bytes that the buffer for
    reads holds; and what earlier calls stored still stands for the values they
    were given. *)
Theorem separated_values_roundtrip {SN : Snappy} dbname opt paranoid_checks NewRandomAccessFile MOD options user m n key val db lkey read_from_mem older real :
  logs_ok m n db → n + (len key + len val + 10) < 2 ^ 62 → len val < 2 ^ 32 → len val ≤ m → MOD = 8 ∨ MOD = 12 → stored_as MOD db older real →
  let '(st, db1) := SeparateValue MOD key val db in
  let resolve := λ v, Resolve dbname opt paranoid_checks NewRandomAccessFile MOD options user lkey read_from_mem v db1 in
  resolve st = Some (val, db1) ∧ resolve older = Some (real, db1) ∧ logs_ok m (n + (len key + len val + 10)) db1.
Proof.
  intros Hlogs Hn Hval Hm Hmode Hold. destruct (SeparateValue MOD key val db) as [st db1] eqn:E.
  assert (plain_mode MOD = true → MOD ≤ 5) as Hp by (intros Hp; by destruct Hmode as [-> | ->]).
  destruct (SeparateValue_ok MOD m n key val db st db1 Hlogs Hn Hval Hm Hp (or_intror Hmode) E) as (Hlogs' & Hs & Hkeep & _).
  split_and!; [by eapply Resolve_ok|eapply Resolve_ok; [done|]; by apply Hkeep|done].
Qed.

Section defects.

Context {SN : Snappy} {HS : SnappyLaws SN}.
Context (dbname : bytes) (opt : Options) (paranoid_checks : bool) (NewRandomAccessFile : bytes → option (Z → Z → option bytes)).
Context (MOD : Z) (options : ReadOptions) (cachable : bool) (user : Comparator).

(** C38: a missing key is not reported. When no source of the database has an
    entry of the key that the snapshot sees, [Get] does not return [NotFound]:
    in the modes with no second step it returns ok and leaves [*value] as it
    was; in the modes that keep values apart, with an empty [*value], it takes
    an address from the empty string and reads past its end. *)
Theorem get_missing_not_reported udom tables n ws im db snapshot u value :
  ComparatorLaws udom user → (∀ u, udom u → bytes_ok u) → db_options opt user →
  (∀ n es, tables !! n = Some es → stored dbname opt NewRandomAccessFile (ikey_ok udom) n es) → Z.of_nat (size tables) < 2 ^ 31 →
  db_ok opt udom user tables n ws im db → udom u → len u + 8 < 2 ^ 32 → 0 ≤ default (last_sequence db) snapshot ≤ kMaxSequenceNumber →
  (∀ e, db_entry opt tables ws im db e → ¬ sees u (default (last_sequence db) snapshot) e) →
  let get := λ value, DBImpl_Get dbname opt paranoid_checks NewRandomAccessFile MOD options cachable user snapshot u value db in
  (plain_mode MOD = true → ∃ tc, get value = Some (GetOk, value, set_tables tc (vtables_ db) db)) ∧
  (MOD ∈ [7; 8; 9; 10; 12] → get [] = None).
Proof.
  intros HL Hud Hopt Hst Hfew Hd Hu Hlen Hs Hnone get.
  assert (∀ value, ∃ tc, Find dbname opt paranoid_checks NewRandomAccessFile options cachable user snapshot u value db = Some (GetOk, value, false, set_tables tc (vtables_ db) db)) as Hfind.
  { intros v. destruct (Find_ok dbname opt paranoid_checks NewRandomAccessFile options cachable udom user HL Hud tables Hopt Hst Hfew n ws im db snapshot u v Hd Hu Hlen Hs)
      as (tc & rfm & [(e & (He & Hse & _) & _)|(_ & ->)]); [by destruct (Hnone e He)|by exists tc]. }
  unfold get, DBImpl_Get. split; intros Hmode.
  - destruct (Hfind value) as (tc & ->). exists tc. cbn [mbind option_bind]. unfold Resolve. unfold plain_mode in Hmode.
    destruct (MOD =? 7), (MOD =? 8), (MOD =? 9), (MOD =? 10), (MOD =? 12); rewrite ?orb_true_r in Hmode; cbn in Hmode; by destruct (MOD =? 6).
  - destruct (Hfind []) as (tc & ->). cbn [mbind option_bind]. unfold Resolve. clear -Hmode.
    repeat (apply elem_of_cons in Hmode as [->|Hmode]; [done|]). by apply not_elem_of_nil in Hmode.
Qed.

(** In modes 11 and 13 [Put] moves the value to the value log, but [Get]
    does not follow the address: it returns the twelve bytes of the address. *)
Theorem put_get_unresolved key val db lkey read_from_mem :
  MOD = 11 ∨ MOD = 13 →
  let '(st, db1) := SeparateValue MOD key val db in
  st = EncodeFixed64 (VLog.AddRecord key val (vlog db)).2 ++ EncodeFixed32 (u32 (len val)) ∧
  Resolve dbname opt paranoid_checks NewRandomAccessFile MOD options user lkey read_from_mem st db1 = Some (st, db1).
Proof. intros [-> | ->]; unfold SeparateValue, Resolve; cbn; by destruct (VLog.AddRecord key val (vlog db)). Qed.

(** In mode 8 [Scan] passes the address for the size. *)
Theorem scan_reads_address_bytes if_decoupled lkey address real db :
  MOD = 8 → u64_ok address → len real < 2 ^ 32 →
  ScanOne dbname opt paranoid_checks NewRandomAccessFile MOD if_decoupled options user lkey (log_address address real) db =
    (cur_res ← VLog.ReadRecord address (u32 address) (vlog db); Some (Some cur_res, db)).
Proof.
  intros -> Ha Hl. unfold ScanOne, log_address. cbn [Z.eqb Pos.eqb]. rewrite fixed64_at_0 by done. cbn [mbind option_bind].
  rewrite fixed_last; [done|by rewrite len_EncodeFixed64|]. pose proof (len_nonneg real). unfold u32_ok. lia.
Qed.

End defects.

(** ** Witnesses *)

(** A database with a memtable and one file. *)
Definition file_entries : entries := [(InternalKey [97] 0 kTypeValue, [8]); (InternalKey [99] 0 kTypeValue, [9])].

Definition db_opt : Options := {|
  comparator := InternalKeyComparator.comparator Bytewise.comparator; block_size := 20; block_restart_interval := 16;
  compression := kSnappyCompression; filter_policy := Some ([98; 108; 111; 111; 109], InternalFilterPolicy (BloomFilterPolicy 10)) |}.

Definition table7 : bytes := file (@build_table no_snappy db_opt file_entries).
Definition size7 : Z := Eval vm_compute in len table7.
Definition file7 : FileMetaData := NewFileMeta 7 size7 (InternalKey [97] 0 kTypeValue) (InternalKey [99] 0 kTypeValue).

Definition db_tables : gmap Z entries := {[ 7 := file_entries ]}.
Definition db_files (name : bytes) : option (Z → Z → option bytes) :=
  if bool_decide (name = TableFileName (str "/db") 7) then Some (mem_Read table7) else None.

Definition db_version : Version := {| files_ := [[file7]; []; []; []; []; []; []]; vfiles_ := []; dep_map_ := ∅ |}.

Definition db_mem : MemTable := default (NewMemTable Bytewise.comparator) (AddAll writes_example (NewMemTable Bytewise.comparator)).

Definition empty_cache {V} : ShardedLRUCache V := {| shard_ := []; last_id_ := 0 |}.
Definition db_cache : TableCache :=
  default {| cache_ := empty_cache; block_cache := empty_cache |} (blocks ← NewShardedLRUCache 100; NewTableCache 10 blocks).

Definition db_example : DB := {|
  mem_ := db_mem; imm_ := None; current_version := db_version; last_sequence := 7; table_cache_ := db_cache; vtables_ := ∅;
  vlog := VLog.New 4; grouped_vlog := Grouped.New 2 4 |}.

Lemma db_stored n es : db_tables !! n = Some es → @stored no_snappy (str "/db") db_opt db_files (ikey_ok bytes_ok) n es.
Proof.
  unfold db_tables. intros [<- <-]%lookup_singleton_Some. split.
  - split; vm_compute; [discriminate|reflexivity].
  - unfold db_files. by rewrite bool_decide_true.
  - split; [unfold entry_ok, u32_ok|..|by vm_compute]; by_decide.
  - unfold filters_fit, filter_fits. cbn [filter_policy db_opt]. set (f := filter_contents _ _). vm_compute in f. subst f. split_and!; by_decide.
  - repeat (apply Forall_cons; split; [apply (InternalKey_parts bytes_ok (λ u H, H)); [by_decide|done]|]). constructor.
  - unfold keys_sorted, file_entries. repeat first [apply SSorted_cons | apply SSorted_nil | apply Forall_cons; split | apply Forall_nil | reflexivity].
Qed.

Lemma db_level level f : f ∈ level_files db_version level → Z.to_nat level = 0%nat ∧ f = file7.
Proof.
  unfold level_files. cbn [files_ db_version]. destruct (Z.to_nat level) as [|[|[|[|[|[|[|n]]]]]]]; cbn [default from_option lookup list_lookup];
    try (by intros ?%not_elem_of_nil). intros ->%list_elem_of_singleton. done.
Qed.

Abbreviation db_contents := (@contents_of no_snappy db_opt db_tables).

Lemma contents7 : db_contents file7 = file_entries.
Proof. vm_compute. reflexivity. Qed.

Lemma db_version_wf : version_wf bytes_ok Bytewise.comparator db_contents db_version.
Proof.
  assert (file_wf bytes_ok Bytewise.comparator db_contents file7) as H7.
  { split; rewrite contents7; [|repeat first [apply SSorted_cons | apply SSorted_nil | apply Forall_cons; split | apply Forall_nil | by vm_compute]|done|done].
    unfold file_entries. repeat (apply Forall_cons; split; [apply valid_example; [by_decide|done]|]). constructor. }
  assert (∀ level, level_files db_version level = [] ∨ level_files db_version level = [file7]) as Hl.
  { intros level. unfold level_files. cbn [files_ db_version]. destruct (Z.to_nat level) as [|[|[|[|[|[|[|n]]]]]]]; cbn; auto. }
  split; [done| | | | |].
  - intros level. destruct (Hl level) as [-> | ->]; [by apply Forall_nil|by apply Forall_singleton].
  - intros level _. destruct (Hl level) as [-> | ->]; [apply SSorted_nil|apply SSorted_cons; [apply SSorted_nil|by apply Forall_nil]].
  - intros level. destruct (Hl level) as [-> | ->]; by vm_compute.
  - intros f g [_ ->]%db_level [_ ->]%db_level _. by left.
  - intros i j f g Hij [Hi ->]%db_level [Hj ->]%db_level. lia.
Qed.

Lemma db_mem_holds : holds_writes bytes_ok Bytewise.comparator db_mem writes_example.
Proof.
  destruct writes_example_ok as [H1 H2]. destruct (AddAll_holds bytes_ok Bytewise.comparator _ (λ _ H, H) writes_example _ [] (New_holds bytes_ok Bytewise.comparator) H1 H2) as (m & E & Hm).
  unfold db_mem. by rewrite E.
Qed.

Lemma db_cache_ok : tc_ok (SN := no_snappy) db_opt (ikey_ok bytes_ok) db_tables 3 db_cache.
Proof.
  unfold db_cache. destruct (new_sharded_ok (V := Block) 100) as (blocks & -> & Hid & Hi & Hno). cbn [mbind option_bind].
  destruct (NewTableCache_ok (SN := no_snappy) db_opt (ikey_ok bytes_ok) db_tables 10 blocks 3 Hi Hid Hno ltac:(lia)) as (tc & -> & Htc). exact Htc.
Qed.

Lemma db_file_entry e : version_entry db_contents db_version e → e ∈ file_entries.
Proof. intros (level & f & _ & [_ ->]%db_level & He). by rewrite contents7 in He. Qed.

Lemma db_example_ok : db_ok (SN := no_snappy) db_opt bytes_ok Bytewise.comparator db_tables 3 writes_example [] db_example.
Proof.
  split; [apply db_mem_holds|reflexivity|apply db_version_wf|apply db_cache_ok|vm_compute; lia| |].
  - by intros w w' _ ?%not_elem_of_nil.
  - intros w e Hw He%db_file_entry _. rewrite app_nil_r in Hw. destruct writes_example_ok as [Hok _]. rewrite Forall_forall in Hok. destruct (Hok w Hw) as [[H _] _ _ _].
    etrans; [|exact H]. apply elem_of_cons in He as [->|He]; [by vm_compute|]. apply list_elem_of_singleton in He as ->. by vm_compute.
Qed.

Lemma db_example_logs : logs_ok 8 0 db_example.
Proof.
  split; [split; by vm_compute|]. split; [by vm_compute|]. split; [|split; by vm_compute]. split; [by vm_compute..|]. cbn.
  repeat (apply Forall_cons; split; [split_and!; [split; by vm_compute|by vm_compute|by vm_compute]|]). constructor.
Qed.

Lemma db_opt_ok : db_options db_opt Bytewise.comparator.
Proof. split; [reflexivity|]. intros name p [= <- <-]. eexists. split; [reflexivity|]. apply bloom_laws. lia. Qed.

(** Key 99 comes from the file, key 97 at snapshot 5 from the memtable. *)
Lemma db_get_newest_witness :
  let get s u := @DBImpl_Get no_snappy (str "/db") db_opt true db_files 0 read_options true Bytewise.comparator s u [] db_example in
  fst <$> get None [99] = Some (GetOk, [9]) ∧ fst <$> get (Some 5) [97] = Some (GetOk, [3]) ∧ fst <$> get None [97] = Some (GetNotFound, []) ∧
  ∃ tc e, db_newest (SN := no_snappy) db_opt db_tables writes_example [] db_example [99] 7 e ∧
    match (outcome e []).1 with
    | GetOk => ∃ real, stored_as 0 db_example e.2 real ∧ get None [99] = Some (GetOk, real, set_tables tc ∅ db_example)
    | status => status = GetNotFound ∧ get None [99] = Some (GetNotFound, [], set_tables tc ∅ db_example)
    end.
Proof.
  intros get. split; [vm_compute; reflexivity|]. split; [vm_compute; reflexivity|]. split; [vm_compute; reflexivity|].
  apply (@db_get_newest no_snappy no_snappy_laws (str "/db") db_opt true db_files 0 read_options true bytes_ok Bytewise.comparator db_tables
    3 8 0 writes_example [] db_example None [99] []).
  - apply _.
  - intros u H. exact H.
  - apply db_opt_ok.
  - apply db_stored.
  - unfold db_tables. rewrite map_size_singleton. reflexivity.
  - left. reflexivity.
  - apply db_example_ok.
  - apply db_example_logs.
  - intros e _ _. exists e.2. reflexivity.
  - by_decide.
  - reflexivity.
  - split; vm_compute; discriminate.
  - exists (InternalKey [99] 0 kTypeValue, [9]). split; [|split; vm_compute; [reflexivity|discriminate]].
    right. exists 0, file7. split; [lia|]. split; [apply elem_of_cons; left; reflexivity|]. rewrite contents7. apply elem_of_cons. right. apply elem_of_cons. left. reflexivity.
Defined.

Lemma separated_values_roundtrip_witness :
  let '(st, db1) := SeparateValue 8 [1] [5; 6] db_example in
  st = EncodeFixed64 3 ++ EncodeFixed32 2 ∧
  @Resolve no_snappy (str "/db") db_opt true db_files 8 read_options Bytewise.comparator (MakeLookupKey [1] 7) true st db1 = Some ([5; 6], db1).
Proof.
  pose proof (@separated_values_roundtrip no_snappy (str "/db") db_opt true db_files 8 read_options Bytewise.comparator 8 0 [1] [5; 6] db_example (MakeLookupKey [1] 7) true
    (log_address 0 []) []) as H.
  assert (logs_ok 8 0 db_example) as H1 by apply db_example_logs.
  assert (stored_as 8 db_example (log_address 0 []) []) as H2.
  { exists 0. split; [split; vm_compute; [discriminate|reflexivity]|]. split; [reflexivity|]. split; [reflexivity|]. split; [split; [exists [], []; by split|left; vm_compute; discriminate]|vm_compute; discriminate]. }
  specialize (H H1 eq_refl eq_refl ltac:(vm_compute; discriminate) (or_introl eq_refl) H2). destruct (SeparateValue 8 [1] [5; 6] db_example) as [st db1] eqn:E.
  split; [|exact (proj1 H)]. apply (f_equal fst) in E. cbn [fst] in E. rewrite <- E. vm_compute. reflexivity.
Defined.

Lemma db_file_keys e : e ∈ file_entries → ExtractUserKey e.1 = [97] ∨ ExtractUserKey e.1 = [99].
Proof. intros [->|[->|[]%not_elem_of_nil]%elem_of_cons]%elem_of_cons; [left|right]; reflexivity. Qed.

(** No source has the key 98 98. *)
Lemma get_missing_not_reported_witness :
  @DBImpl_Get no_snappy (str "/db") db_opt true db_files 8 read_options true Bytewise.comparator None [98; 98] [] db_example = None.
Proof.
  apply (@get_missing_not_reported no_snappy no_snappy_laws (str "/db") db_opt true db_files 8 read_options true Bytewise.comparator bytes_ok db_tables
    3 writes_example [] db_example None [98; 98] []).
  - apply _.
  - intros u H. exact H.
  - apply db_opt_ok.
  - apply db_stored.
  - unfold db_tables. rewrite map_size_singleton. reflexivity.
  - apply db_example_ok.
  - by_decide.
  - reflexivity.
  - split; vm_compute; discriminate.
  - intros e [(w & Hw & ->)|He%db_file_entry] [Hu _].
    + rewrite app_nil_r in Hw. revert Hu. repeat (apply elem_of_cons in Hw as [->|Hw]; [vm_compute; discriminate|]). by apply not_elem_of_nil in Hw.
    + destruct (db_file_keys e He) as [E|E]; rewrite E in Hu; discriminate.
  - apply elem_of_cons. right. apply elem_of_cons. left. reflexivity.
Defined.

(** The scan of a value of two bytes at address 3 returns three. *)
Example scan_example :
  let db1 := (SeparateValue 8 [2] [7] (SeparateValue 8 [1] [5; 6] db_example).2).2 in
  fst <$> @Scan no_snappy (str "/db") db_opt true db_files 8 false read_options Bytewise.comparator None [1] [log_address 3 [5; 6]] [] db1 = Some [[5; 6; 1]].
Proof. vm_compute. reflexivity. Qed.
