(* ===== verification/DBFiles.v ===== *)
(** * db/db_impl.cc: the files of a database

    [DeleteObsoleteFiles] removes the files that no version and no running job
    uses, [Recover] compares the directory with the files of the version it
    recovered and collects the logs to replay, and [DestroyDB] empties the
    directory. They work over any environment. *)

From Stdlib Require Import Sorted String.
From stdpp Require Import gmap sorting.
From S2P Require Import Prelude Coding Comparator Filename MemEnv VersionEdit Version.

#[local] Open Scope Z_scope.
#[local] Open Scope list_scope.

(** ** Live files *)

(** The numbers of all files of the versions that are still referenced. *)
Definition AddLiveFiles (versions : list Version) (live : gset Z) : gset Z :=
  foldl (λ live v, foldl (λ live level, foldl (λ live f, {[ number f ]} ∪ live) live (default [] (files_ v !! level))) live (seq 0 (Z.to_nat kNumLevels))) live versions.

(** [max_level]: value tables have two levels in mode 10. *)
Definition vlevels (MOD : Z) : nat := if MOD =? 10 then 2 else Z.to_nat kNumLevels.

Definition AddLiveVFiles (MOD : Z) (versions : list Version) (vlive : gset Z) : gset Z :=
  foldl (λ live v, foldl (λ live level, foldl (λ live f, {[ number f ]} ∪ live) live (default [] (vfiles_ v !! level))) live (seq 0 (vlevels MOD))) vlive versions.

Section db_files.

Context {E W R : Type} {EN : Env E W R}.

(** What [DeleteObsoleteFiles] looks at: [bg_error_], the log and manifest
    numbers, the numbers of files being written, the versions, and the files of
    which the learned index keeps statistics (what it does with them is not part
    of the model). [C] is the table cache and [Evict] its method. *)
Context (MOD : Z) (dbname_ : bytes) {C : Type} (Evict : Z → C → option C).

Record DBFiles := {
  bg_ok : bool;
  LogNumber : Z;
  PrevLogNumber : Z;
  ManifestFileNumber : Z;
  pending_outputs_ : gset Z;
  pending_voutputs_ : gset Z;
  live_versions : list Version;
  fresh_write : bool;
  file_stats : gset Z
}.

Definition live_set (s : DBFiles) : gset Z := AddLiveFiles (live_versions s) (pending_outputs_ s).
Definition vlive_set (s : DBFiles) : gset Z := AddLiveVFiles MOD (live_versions s) (pending_voutputs_ s).

(** The switch over the type of a file. *)
Definition keep (s : DBFiles) (number : Z) (type : FileType) : bool :=
  match type with
  | kLogFile => (number >=? LogNumber s) || (number =? PrevLogNumber s)
  | kDescriptorFile => number >=? ManifestFileNumber s
  | kTableFile => bool_decide (number ∈ live_set s)
  | kVTableFile => bool_decide (number ∈ vlive_set s)
  | kTempFile => bool_decide (number ∈ live_set s) || bool_decide (number ∈ vlive_set s)
  | kCurrentFile | kDBLockFile | kInfoLogFile => true
  end.

(** One name of the directory. [None] is the use of [file_stats.end()] for a
    table without statistics, or a failed assertion of the cache. The result of [DeleteFile] is not looked at. *)
Definition DeleteObsolete (s : DBFiles) (filename : bytes) (st : C * E) : option (C * E) :=
  let '(cache, e) := st in
  match ParseFileName filename with
  | Some (number, type) =>
      if negb (keep s number type) then
        cache ← (if bool_decide (type = kTableFile) then
                   cache ← Evict number cache;
                   if negb (fresh_write s) && negb (bool_decide (number ∈ file_stats s)) then None else Some cache
                 else Some cache);
        Some (cache, (MemEnv.DeleteFile (dbname_ ++ str "/" ++ filename) e).2)
      else Some (cache, e)
  | None => Some (cache, e)
  end.

Fixpoint Delete_loop (s : DBFiles) (filenames : list bytes) (st : C * E) : option (C * E) :=
  match filenames with
  | [] => Some st
  | filename :: filenames => st ← DeleteObsolete s filename st; Delete_loop s filenames st
  end.

(** An error of [GetChildren] is ignored: the names it gave are used. *)
Definition DeleteObsoleteFiles (s : DBFiles) (cache : C) (e : E) : option (C * E) :=
  if negb (bg_ok s) then Some (cache, e)
  else Delete_loop s (GetChildren dbname_ e).2 (cache, e).

(** ** Recover *)

(** The numbers that are missing, and the logs to recover, in order. *)
Definition CheckFiles (s : DBFiles) (filenames : list bytes) : gset Z * list Z :=
  let expected := AddLiveFiles (live_versions s) ∅ in
  let '(expected, logs) := foldl (λ '(expected, logs) filename,
    match ParseFileName filename with
    | Some (number, type) =>
        (expected ∖ {[ number ]},
         if bool_decide (type = kLogFile) && ((number >=? LogNumber s) || (number =? PrevLogNumber s)) then logs ++ [number] else logs)
    | None => (expected, logs)
    end) (expected, []) filenames in
  (expected, merge_sort Z.le logs).

(** ** DestroyDB *)

(** [filename.find(s) != npos]. *)
Fixpoint has_substring (s filename : bytes) : bool :=
  Slice.starts_with filename s || match filename with [] => false | _ :: filename => has_substring s filename end.

Definition destroys (filename : bytes) : bool :=
  match ParseFileName filename with
  | Some (_, type) => negb (bool_decide (type = kDBLockFile))
  | None => false
  end || has_substring (str "vlog") filename.

Fixpoint Destroy_loop (filenames : list bytes) (result : bool) (e : E) : bool * E :=
  match filenames with
  | [] => (result, e)
  | filename :: filenames =>
      let '(result, e) :=
        if destroys filename then
          let '(del, e) := MemEnv.DeleteFile (dbname_ ++ str "/" ++ filename) e in
          (if result && negb del then del else result, e)
        else (result, e) in
      Destroy_loop filenames result e
  end.

(** [locked] tells whether [LockFile] succeeds. *)
Definition DestroyDB (locked : bool) (e : E) : bool * E :=
  let '(result, filenames) := GetChildren dbname_ e in
  if negb result then (true, e)
  else if locked then
    let '(result, e) := Destroy_loop filenames true e in
    (result, (MemEnv.DeleteFile (LockFileName dbname_) e).2)
  else (false, e).

End db_files.

(** ** Lemmas *)

Lemma foldl_numbers (fs : list FileMetaData) (live : gset Z) n :
  n ∈ foldl (λ live f, {[ number f ]} ∪ live) live fs ↔ n ∈ live ∨ ∃ f, f ∈ fs ∧ number f = n.
Proof.
  revert live. induction fs as [|f fs IH]; intros live; cbn [foldl]; [|rewrite IH]; set_solver.
Qed.

Lemma foldl_union {A} (g : A → gset Z → gset Z) (l : list A) (live : gset Z) n (P : A → Prop) :
  (∀ a live, n ∈ g a live ↔ n ∈ live ∨ P a) → n ∈ foldl (λ live a, g a live) live l ↔ n ∈ live ∨ ∃ a, a ∈ l ∧ P a.
Proof.
  intros Hg. revert live. induction l as [|a l IH]; intros live; cbn [foldl]; [set_solver|]. rewrite IH, Hg. set_solver.
Qed.

(** A number is live when a version has a file of that number in its levels. *)
Lemma AddLiveFiles_ok versions live n :
  n ∈ AddLiveFiles versions live ↔ n ∈ live ∨ ∃ v, v ∈ versions ∧ ∃ level f, 0 ≤ level < kNumLevels ∧ f ∈ level_files v level ∧ number f = n.
Proof.
  unfold AddLiveFiles. apply (foldl_union (λ v live, foldl _ live (seq 0 (Z.to_nat kNumLevels)))). intros v live'.
  rewrite (foldl_union (λ level live, foldl (λ live f, {[ number f ]} ∪ live) live (default [] (files_ v !! level))) _ _ n (λ level, ∃ f, f ∈ default [] (files_ v !! level) ∧ number f = n)).
  2:{ intros. apply foldl_numbers. }
  f_equiv. split.
  - intros (level & Hl%elem_of_seq & f & Hf & Hn). exists (Z.of_nat level), f. unfold level_files. rewrite Nat2Z.id. split; [unfold kNumLevels in *; lia|done].
  - intros (level & f & Hl & Hf & Hn). exists (Z.to_nat level). split; [apply elem_of_seq; unfold kNumLevels in *; lia|]. by exists f.
Qed.

Lemma AddLiveVFiles_ok MOD versions vlive n :
  n ∈ AddLiveVFiles MOD versions vlive ↔ n ∈ vlive ∨ ∃ v, v ∈ versions ∧ ∃ level f, (level < vlevels MOD)%nat ∧ f ∈ default [] (vfiles_ v !! level) ∧ number f = n.
Proof.
  unfold AddLiveVFiles. apply (foldl_union (λ v live, foldl _ live (seq 0 _))). intros v live'.
  rewrite (foldl_union (λ level live, foldl (λ live f, {[ number f ]} ∪ live) live (default [] (vfiles_ v !! level))) _ _ n (λ level, ∃ f, f ∈ default [] (vfiles_ v !! level) ∧ number f = n)).
  2:{ intros. apply foldl_numbers. }
  f_equiv. split.
  - intros (level & Hl%elem_of_seq & f & Hf & Hn). exists level, f. split; [|done]. lia.
  - intros (level & f & Hl & Hf & Hn). exists level. split; [|by exists f]. apply elem_of_seq. lia.
Qed.

(** ** Deleting *)

(** The files that a database uses: logs from the current one on, its manifest
    and newer ones, the tables and value tables of all referenced versions and
    of running jobs, and the files with a fixed name. *)
Definition table_used (s : DBFiles) (n : Z) : Prop :=
  n ∈ pending_outputs_ s ∨ ∃ v, v ∈ live_versions s ∧ ∃ level f, 0 ≤ level < kNumLevels ∧ f ∈ level_files v level ∧ number f = n.

Definition vtable_used (MOD : Z) (s : DBFiles) (n : Z) : Prop :=
  n ∈ pending_voutputs_ s ∨ ∃ v, v ∈ live_versions s ∧ ∃ level f, (level < vlevels MOD)%nat ∧ f ∈ default [] (vfiles_ v !! level) ∧ number f = n.

Definition used (MOD : Z) (s : DBFiles) (o : OwnedFile) : Prop :=
  match o with
  | LogFile n => LogNumber s ≤ n ∨ n = PrevLogNumber s
  | DescriptorFile n => ManifestFileNumber s ≤ n
  | TableFile n | SSTTableFile n => table_used s n
  | VTableFile n => vtable_used MOD s n
  | TempFile n => table_used s n ∨ vtable_used MOD s n
  | CurrentFile | LockFile | InfoLogFile | OldInfoLogFile | DependencyGraphFile => True
  end.

Lemma keep_used MOD s o : match parsed_as o with Some (n, t) => keep MOD s n t = true | None => True end ↔ used MOD s o.
Proof.
  unfold table_used, vtable_used. destruct o; cbn [parsed_as keep used]; try done;
    unfold live_set, vlive_set, table_used, vtable_used;
    rewrite ?orb_true_iff, ?Z.geb_le, ?Z.eqb_eq, ?bool_decide_eq_true, ?AddLiveFiles_ok, ?AddLiveVFiles_ok; done.
Qed.

Section deletes.

Context {E W R : Type} {EN : Env E W R} {EL : EnvLaws E W R EN}.
Context (MOD : Z) (dbname_ : bytes) {C : Type} (Evict : Z → C → option C) (cache_inv : C → Prop).
Context (Hevict : ∀ n c, cache_inv c → ∃ c', Evict n c = Some c' ∧ cache_inv c').
Context (s : DBFiles).

(** Whether the name is recognised as a file that is not kept. *)
Definition obsolete (base : bytes) : bool :=
  match ParseFileName base with Some (n, t) => negb (keep MOD s n t) | None => false end.

(** The learned index has statistics of all tables that go. *)
Definition stats_known (bases : list bytes) : Prop :=
  fresh_write s = true ∨ ∀ base n, base ∈ bases → obsolete base = true → ParseFileName base = Some (n, kTableFile) → n ∈ file_stats s.

(** Deleting a file that exists does not fail. *)
Definition deletes : Prop := ∀ f e, env_ok e → is_Some (file_of e f) → (MemEnv.DeleteFile f e).1 = true.

(** Deleting one file, whether it succeeds or not. *)
Lemma DeleteFile_ok f e :
  env_ok e → env_ok (MemEnv.DeleteFile f e).2 ∧ (∀ g, g ≠ f → file_of (MemEnv.DeleteFile f e).2 g = file_of e g) ∧
    (∀ g, file_of e g = None → file_of (MemEnv.DeleteFile f e).2 g = None) ∧ (deletes → file_of (MemEnv.DeleteFile f e).2 f = None).
Proof.
  intros He. destruct (MemEnv.DeleteFile f e) as [b e'] eqn:Ed. cbn [snd]. destruct (DeleteFile_law _ _ _ _ He Ed) as (He' & Hother & Hthis). split_and!; try done.
  - intros g Hg. destruct (decide (g = f)) as [-> |Hne]; [rewrite Hthis; by destruct b|by rewrite Hother].
  - intros Hrel. rewrite Hthis. specialize (Hrel f e He). rewrite Ed in Hrel. cbn [fst] in Hrel. destruct (file_of e f) eqn:Ef; [rewrite Hrel by (by eexists); done|by destruct b].
Qed.

Lemma DeleteObsolete_ok base c e :
  cache_inv c → env_ok e → stats_known [base] →
  ∃ c' e', DeleteObsolete MOD dbname_ Evict s base (c, e) = Some (c', e') ∧ cache_inv c' ∧ env_ok e' ∧
    if obsolete base then e' = (MemEnv.DeleteFile (dbname_ ++ str "/" ++ base) e).2 else e' = e.
Proof.
  intros Hc He Hst. unfold DeleteObsolete, obsolete in *. destruct (ParseFileName base) as [[n t]|] eqn:Hp; [|by eauto 10].
  destruct (keep MOD s n t) eqn:Hk; cbn [negb]; [by eauto 10|].
  assert (∃ c', (if bool_decide (t = kTableFile) then c ← Evict n c; if negb (fresh_write s) && negb (bool_decide (n ∈ file_stats s)) then None else Some c
                 else Some c) = Some c' ∧ cache_inv c') as (c' & -> & Hc').
  { case_bool_decide as Ht; [|by eauto]. destruct (Hevict n c Hc) as (c' & -> & Hc'). cbn [mbind option_bind]. exists c'. split; [|done].
    destruct Hst as [-> |Hst]; [done|]. rewrite (bool_decide_true (n ∈ file_stats s)); [by rewrite andb_false_r|].
    apply (Hst base n); [by apply list_elem_of_singleton|unfold obsolete; by rewrite Hp, Hk|by rewrite Hp, Ht]. }
  cbn [mbind option_bind]. eexists c', _. split; [done|]. split; [done|]. split; [|done].
  by apply DeleteFile_ok.
Qed.

(** Only obsolete names of the list are deleted, and all of them when deletion
    does not fail. *)
Lemma Delete_loop_ok bases c e :
  cache_inv c → env_ok e → stats_known bases →
  ∃ c' e', Delete_loop MOD dbname_ Evict s bases (c, e) = Some (c', e') ∧ cache_inv c' ∧ env_ok e' ∧
    (∀ f, (∀ base, base ∈ bases → obsolete base = true → f ≠ dbname_ ++ str "/" ++ base) → file_of e' f = file_of e f) ∧
    (∀ f, file_of e f = None → file_of e' f = None) ∧
    (deletes →
      ∀ base, base ∈ bases → obsolete base = true → file_of e' (dbname_ ++ str "/" ++ base) = None).
Proof.
  revert c e. induction bases as [|base bases IH]; intros c e Hc He Hst; cbn [Delete_loop].
  { exists c, e. split_and!; try done. by intros _ ? ?%elem_of_nil. }
  destruct (DeleteObsolete_ok base c e Hc He) as (c1 & e1 & -> & Hc1 & He1 & H1).
  { destruct Hst as [?|Hst]; [by left|right]. intros b n ->%list_elem_of_singleton. apply Hst, list_elem_of_here. }
  cbn [mbind option_bind]. destruct (IH c1 e1 Hc1 He1) as (c2 & e2 & -> & Hc2 & He2 & Hsame & Hnone & Hgone).
  { destruct Hst as [?|Hst]; [by left|right]. intros b n Hb. by apply Hst, list_elem_of_further. }
  assert ((∀ f, (obsolete base = true → f ≠ dbname_ ++ str "/" ++ base) → file_of e1 f = file_of e f) ∧ (∀ f, file_of e f = None → file_of e1 f = None) ∧
    (deletes → obsolete base = true → file_of e1 (dbname_ ++ str "/" ++ base) = None)) as (Hs1 & Hn1 & Hg1).
  { destruct (obsolete base); [|subst e1; by split_and!]. subst e1. destruct (DeleteFile_ok (dbname_ ++ str "/" ++ base) e He) as (_ & Hother & Hn & Hd).
    split_and!; [intros f Hf; by apply Hother, Hf|done|intros; by apply Hd]. }
  exists c2, e2. split_and!; try done.
  - intros f Hf. rewrite Hsame by (intros b Hb; by apply Hf, list_elem_of_further). apply Hs1, Hf, list_elem_of_here.
  - intros f Hf. by apply Hnone, Hn1.
  - intros Hrel b [-> |Hb]%elem_of_cons Ho; [by apply Hnone, Hg1|by apply Hgone].
Qed.

Lemma kept_used o : number_ok o → obsolete (base_name o) = false ↔ used MOD s o.
Proof.
  intros Ho. unfold obsolete. rewrite Parse_base by done. rewrite <- (keep_used MOD s o). destruct (parsed_as o) as [[n t]|]; [|naive_solver].
  destruct (keep MOD s n t); naive_solver.
Qed.

Lemma obsolete_used o : number_ok o → obsolete (base_name o) = true ↔ ¬ used MOD s o.
Proof. intros Ho. rewrite <- (kept_used o Ho). by destruct (obsolete _). Qed.

End deletes.

(** No name of a database file has a slash. *)
Lemma base_name_no_slash o : number_ok o → 47 ∉ base_name o.
Proof.
  assert (∀ n, u64_ok n → 47 ∉ print_06llu n) as Hn.
  { intros n Hn H. destruct (print_06llu_ok n Hn) as (Hd & _). rewrite Forall_forall in Hd. apply Hd in H. unfold is_digit in H. lia. }
  intros Ho. unfold base_name. destruct o; cbn [name_of number_ok] in *. 7-11: by_decide.
  all: unfold LogFileName, TableFileName, SSTTableFileName, VTableFileName, TempFileName; rewrite ?MakeFileName_eq, ?DescriptorFileName_eq by (done || (cbn; lia)).
  5:{ rewrite app_nil_l. change (str "/MANIFEST-") with (str "/" ++ str "MANIFEST-"). rewrite <- app_assoc, skip_app by done. rewrite elem_of_app. intros [H|H]; [revert H; by_decide|by apply (Hn n)]. }
  all: rewrite app_nil_l, skip_app by done; rewrite elem_of_app; intros [H|H]; [by apply (Hn n)|revert H; by_decide].
Qed.

(** ** Recovering *)

Definition is_log (s : DBFiles) (base : bytes) : option Z :=
  match ParseFileName base with
  | Some (n, kLogFile) => if (n >=? LogNumber s) || (n =? PrevLogNumber s) then Some n else None
  | _ => None
  end.

Lemma CheckFiles_eq s bases :
  CheckFiles s bases = (AddLiveFiles (live_versions s) ∅ ∖ list_to_set (omap (λ base, fst <$> ParseFileName base) bases), merge_sort Z.le (omap (is_log s) bases)).
Proof.
  unfold CheckFiles.
  enough (∀ expected logs, foldl (λ '(expected, logs) filename,
      match ParseFileName filename with
      | Some (number, type) =>
          (expected ∖ {[ number ]},
           if bool_decide (type = kLogFile) && ((number >=? LogNumber s) || (number =? PrevLogNumber s)) then logs ++ [number] else logs)
      | None => (expected, logs)
      end) (expected, logs) bases = (expected ∖ list_to_set (omap (λ base, fst <$> ParseFileName base) bases), logs ++ omap (is_log s) bases)) as -> by done.
  induction bases as [|base bases IH]; intros expected logs; cbn [foldl omap list_omap]; [rewrite app_nil_r; f_equal; set_solver|].
  unfold is_log at 1. destruct (ParseFileName base) as [[n t]|]; [|by rewrite IH]. cbn [fmap option_fmap option_map fst list_to_set]. rewrite IH. f_equal; [set_solver|].
  case_bool_decide as Ht; [subst t; cbn [andb]; case_match; [by rewrite <- app_assoc|done]|]. by destruct t.
Qed.

(** ** Destroying *)

Section destroys.

Context {E W R : Type} {EN : Env E W R} {EL : EnvLaws E W R EN}.
Context (dbname_ : bytes).

Lemma Destroy_loop_ok bases result e :
  env_ok e → ∃ result' e', Destroy_loop dbname_ bases result e = (result', e') ∧ env_ok e' ∧
    (∀ f, (∀ base, base ∈ bases → destroys base = true → f ≠ dbname_ ++ str "/" ++ base) → file_of e' f = file_of e f) ∧
    (∀ f, file_of e f = None → file_of e' f = None) ∧
    (deletes → ∀ base, base ∈ bases → destroys base = true → file_of e' (dbname_ ++ str "/" ++ base) = None).
Proof.
  revert result e. induction bases as [|base bases IH]; intros result e He; cbn [Destroy_loop].
  { eexists _, _. split; [done|]. split_and!; try done. by intros _ ? ?%elem_of_nil. }
  destruct (destroys base) eqn:Hd.
  - destruct (DeleteFile_ok (dbname_ ++ str "/" ++ base) e He) as (He1 & Hs1 & Hn1 & Hg1). destruct (MemEnv.DeleteFile _ e) as [del e1]. cbn [snd] in *.
    destruct (IH (if result && negb del then del else result) e1 He1) as (result' & e' & -> & He' & Hs & Hn & Hg). exists result', e'. split_and!; try done.
    + intros f Hf. rewrite Hs by (intros b Hb; by apply Hf, list_elem_of_further). apply Hs1, Hf; [apply list_elem_of_here|done].
    + intros f Hf. by apply Hn, Hn1.
    + intros Hrel b [-> |Hb]%elem_of_cons Ho; [by apply Hn, Hg1|by apply Hg].
  - destruct (IH result e He) as (result' & e' & -> & He' & Hs & Hn & Hg). exists result', e'. split_and!; try done.
    + intros f Hf. apply Hs. intros b Hb. by apply Hf, list_elem_of_further.
    + intros Hrel b [-> |Hb]%elem_of_cons Ho; [congruence|by apply Hg].
Qed.

(** Every name that is recognised goes, but for the lock, which goes last. *)
Lemma destroys_base o : number_ok o → o ≠ LockFile → o ≠ DependencyGraphFile → destroys (base_name o) = true.
Proof. intros Ho Hl Hd. unfold destroys. rewrite Parse_base by done. by destruct o. Qed.

Lemma child_listed o e : number_ok o → env_ok e → (GetChildren dbname_ e).1 = true → is_Some (file_of e (name_of dbname_ o)) → base_name o ∈ (GetChildren dbname_ e).2.
Proof.
  intros Ho He Hg Hf. destruct (GetChildren dbname_ e) as [b l] eqn:E0. cbn [fst snd] in *. subst b. rewrite name_of_base in Hf by done.
  apply (GetChildren_law dbname_ e l (base_name o) He E0); [by apply base_name_no_slash|done].
Qed.

End destroys.

(** ** Properties *)

Section claims.

Context {E W R : Type} {EN : Env E W R} {EL : EnvLaws E W R EN}.
Context (MOD : Z) (dbname_ : bytes).

(** C12: removing obsolete files. In any environment, [DeleteObsoleteFiles] ends
    (if the learned index has statistics of every table it removes) and leaves
    every file that the database uses as it is: the logs from [LogNumber] on,
    the manifest, all tables and value tables of all referenced versions and of
    running jobs, and the files with fixed names, the dependency graph
    included; files it does not recognise, or of other directories, stay too,
    and after a background error nothing is removed. If the directory can be
    listed and deletion works, every other file of the database is gone. *)
Theorem obsolete_files_safe {C} (Evict : Z → C → option C) (cache_inv : C → Prop) s c e :
  (∀ n c, cache_inv c → ∃ c', Evict n c = Some c' ∧ cache_inv c') → cache_inv c → env_ok e → stats_known MOD s (GetChildren dbname_ e).2 →
  ∃ c' e', DeleteObsoleteFiles MOD dbname_ Evict s c e = Some (c', e') ∧ cache_inv c' ∧ env_ok e' ∧
    (bg_ok s = false → e' = e) ∧
    (∀ o, number_ok o → used MOD s o → file_of e' (name_of dbname_ o) = file_of e (name_of dbname_ o)) ∧
    (∀ f, (∀ base, f = dbname_ ++ str "/" ++ base → ParseFileName base = None) → file_of e' f = file_of e f) ∧
    (bg_ok s = true → (GetChildren dbname_ e).1 = true → deletes →
      ∀ o, number_ok o → ¬ used MOD s o → file_of e' (name_of dbname_ o) = None).
Proof.
  intros Hev Hc He Hst. unfold DeleteObsoleteFiles. destruct (bg_ok s); cbn [negb]; [|by eexists _, _].
  destruct (Delete_loop_ok MOD dbname_ Evict cache_inv Hev s (GetChildren dbname_ e).2 c e Hc He Hst) as (c' & e' & -> & Hc' & He' & Hs & Hn & Hg).
  exists c', e'. split_and!; try done.
  - intros o Ho Hu. apply Hs. intros base _ Hob. rewrite name_of_base by done. intros <-%app_inv_head%app_inv_head. by apply (obsolete_used MOD s o Ho).
  - intros f Hf. apply Hs. intros base _ Hob E0. unfold obsolete in Hob. by rewrite (Hf base E0) in Hob.
  - intros _ Hch Hrel o Ho Hu. destruct (file_of e (name_of dbname_ o)) eqn:Ef; [|by apply Hn].
    rewrite name_of_base by done. apply Hg; [done| |by apply obsolete_used]. by apply child_listed.
Qed.

(** What recovery makes of the directory. A table number of the recovered
    version is missing exactly when no file of any kind has it, and the logs to
    replay are those from [LogNumber] on (and [PrevLogNumber]), in order. *)
Theorem recover_files_checked s bases n :
  (n ∈ (CheckFiles s bases).1 ↔ (∃ v, v ∈ live_versions s ∧ ∃ level f, 0 ≤ level < kNumLevels ∧ f ∈ level_files v level ∧ number f = n) ∧
     ¬ ∃ base t, base ∈ bases ∧ ParseFileName base = Some (n, t)) ∧
  StronglySorted Z.le (CheckFiles s bases).2 ∧
  (n ∈ (CheckFiles s bases).2 ↔ (∃ base, base ∈ bases ∧ ParseFileName base = Some (n, kLogFile)) ∧ used MOD s (LogFile n)).
Proof.
  rewrite CheckFiles_eq. cbn [fst snd]. split; [|split].
  - rewrite elem_of_difference, AddLiveFiles_ok, elem_of_list_to_set, list_elem_of_omap, elem_of_empty, (left_id False or). apply and_iff_compat_l, not_iff_compat. split.
    + intros (base & Hb & Hp). destruct (ParseFileName base) as [[n' t]|] eqn:E0; [|done]. injection Hp as ->. by exists base, t.
    + intros (base & t & Hb & Hp). exists base. by rewrite Hp.
  - apply (StronglySorted_merge_sort Z.le).
  - rewrite (merge_sort_Permutation Z.le), list_elem_of_omap. cbn [used]. split.
    + intros (base & Hb & Hp). unfold is_log in Hp. destruct (ParseFileName base) as [[n' []]|] eqn:E0; try done. case_match eqn:El; [|done]. injection Hp as ->.
      split; [by exists base|]. by rewrite orb_true_iff, Z.geb_le, Z.eqb_eq in El.
    + intros ((base & Hb & Hp) & Hu). exists base. split; [done|]. unfold is_log. rewrite Hp. rewrite (proj2 (orb_true_iff _ _)); [done|]. by rewrite Z.geb_le, Z.eqb_eq.
Qed.

(** [DestroyDB] does not leave an empty directory. If it gets the lock, the
    directory can be listed and deletion works, all files of the database are
    gone, but the dependency graph's stays as it was. *)
Theorem destroy_leaves_dependency e :
  env_ok e → (GetChildren dbname_ e).1 = true → deletes →
  (∀ o, number_ok o → o ≠ DependencyGraphFile → file_of (DestroyDB dbname_ true e).2 (name_of dbname_ o) = None) ∧
  file_of (DestroyDB dbname_ true e).2 (DependencyGraphFileName dbname_) = file_of e (DependencyGraphFileName dbname_).
Proof.
  intros He Hch Hrel. pose proof (λ o Ho, child_listed dbname_ o e Ho He Hch) as Hl. unfold DestroyDB. destruct (GetChildren dbname_ e) as [b bases]. cbn [fst snd] in *. subst b.
  cbn [negb]. destruct (Destroy_loop_ok dbname_ bases true e He) as (result & e1 & -> & He1 & Hs & Hn & Hg). cbn [snd].
  destruct (DeleteFile_ok (LockFileName dbname_) e1 He1) as (_ & Hs2 & Hn2 & Hg2). split.
  - intros o Ho Hd. destruct (decide (name_of dbname_ o = LockFileName dbname_)) as [-> |Hne]; [by apply Hg2|]. rewrite Hs2 by done.
    destruct (file_of e (name_of dbname_ o)) eqn:Ef; [|by apply Hn]. rewrite name_of_base by done. apply Hg; [done|by apply Hl|].
    apply destroys_base; [done| |done]. by intros ->.
  - rewrite Hs2 by (intros E0%app_inv_head; discriminate E0). apply Hs. intros base _ Hb E0.
    apply app_inv_head in E0. change (str "/DEPENDENCY") with (str "/" ++ str "DEPENDENCY") in E0. apply app_inv_head in E0. subst base. discriminate Hb.
Qed.

End claims.

(** ** Witnesses *)

(** A directory after a compaction and a log switch: table 5 and log 4 are no
    longer used. *)
Definition dir_example : InMemoryEnv.t :=
  foldl (λ e f, (WriteStringToFile (EN := mem_env zero_block) (str "x") (str "/db/" ++ f) e).2) InMemoryEnv.New
    [str "CURRENT"; str "DEPENDENCY"; str "000004.log"; str "000005.ldb"; str "000006.ldb"; str "000007.log"; str "MANIFEST-000002"; str "notes.txt"].

Lemma dir_example_ok : MemProofs.mem_ok dir_example.
Proof.
  unfold dir_example. assert (MemProofs.mem_ok InMemoryEnv.New) as H by exact New_mem_ok. revert H. generalize InMemoryEnv.New.
  induction (_ : list bytes) as [|f fs IH]; intros e He; cbn [foldl]; [done|]. apply IH.
  pose proof (DoWriteStringToFile_ok (EL := mem_env_laws zero_block eq_refl) (str "x") (str "/db/" ++ f) false e _ _ He (surjective_pairing _)) as (H & _). exact H.
Qed.

Definition files_example : DBFiles := {|
  bg_ok := true; LogNumber := 7; PrevLogNumber := 0; ManifestFileNumber := 2; pending_outputs_ := ∅; pending_voutputs_ := ∅;
  live_versions := [{| files_ := [[NewFileMeta 6 1 [] []]]; vfiles_ := []; dep_map_ := ∅ |}]; fresh_write := false; file_stats := {[ 5; 6 ]} |}.

Lemma mem_deletes : deletes (EL := mem_env_laws zero_block eq_refl).
Proof.
  intros f e He [x Hx]. cbn in *. unfold InMemoryEnv.DeleteFile. destruct (InMemoryEnv.file_map_ e !! f) as [p|] eqn:Hm.
  - destruct (MemProofs.DeleteFileInternal_ok e f He) as (e' & -> & _). done.
  - unfold MemProofs.mem_file in Hx. by rewrite Hm in Hx.
Qed.

(** The contents of a file of the in-memory environment. *)
Abbreviation contents := (file_of (EnvLaws := mem_env_laws zero_block eq_refl)).

Lemma obsolete_files_safe_witness :
  ∃ e', DeleteObsoleteFiles (EN := mem_env zero_block) 0 (str "/db") (λ _ c, Some c) files_example tt dir_example = Some (tt, e') ∧
    contents e' (name_of (str "/db") (TableFile 6)) = contents dir_example (name_of (str "/db") (TableFile 6)) ∧
    contents e' (name_of (str "/db") DependencyGraphFile) = contents dir_example (name_of (str "/db") DependencyGraphFile) ∧
    contents e' (str "/db" ++ str "/" ++ str "notes.txt") = contents dir_example (str "/db" ++ str "/" ++ str "notes.txt") ∧
    contents e' (name_of (str "/db") (TableFile 5)) = None ∧ contents e' (name_of (str "/db") (LogFile 4)) = None.
Proof.
  assert (number_ok (TableFile 6)) as ok6 by (split; vm_compute; [discriminate|reflexivity]).
  assert (number_ok (TableFile 5)) as ok5 by (split; vm_compute; [discriminate|reflexivity]).
  assert (number_ok (LogFile 4)) as ok4 by (split; vm_compute; [discriminate|reflexivity]).
  destruct (@obsolete_files_safe _ _ _ (mem_env zero_block) (mem_env_laws zero_block eq_refl) 0 (str "/db") unit (λ _ c, Some c) (λ _, True) files_example tt dir_example) as ([] & e' & Hd & _ & _ & _ & Hu & Hf & Hg).
  - eauto.
  - done.
  - exact dir_example_ok.
  - right. intros base n Hb _ Hp.
    assert ((GetChildren (Env := mem_env zero_block) (str "/db") dir_example).2 =
      [str "000004.log"; str "000005.ldb"; str "000006.ldb"; str "000007.log"; str "CURRENT"; str "DEPENDENCY"; str "MANIFEST-000002"; str "notes.txt"]) as E by (vm_compute; reflexivity).
    rewrite E in Hb. repeat (apply elem_of_cons in Hb as [-> |Hb]; [vm_compute in Hp; try discriminate Hp; injection Hp as <-; by_decide|]). destruct (not_elem_of_nil _ Hb).
  - exists e'. split; [exact Hd|]. split; [|split; [|split; [|split]]].
    + apply (Hu (TableFile 6)); [exact ok6|]. apply kept_used; [exact ok6|]. vm_compute. reflexivity.
    + exact (Hu DependencyGraphFile I I).
    + apply Hf. intros base E%app_inv_head%app_inv_head. subst base. vm_compute. reflexivity.
    + apply (Hg eq_refl eq_refl mem_deletes (TableFile 5)); [exact ok5|]. apply obsolete_used; [exact ok5|]. vm_compute. reflexivity.
    + apply (Hg eq_refl eq_refl mem_deletes (LogFile 4)); [exact ok4|]. apply obsolete_used; [exact ok4|]. vm_compute. reflexivity.
Defined.

Lemma destroy_leaves_dependency_witness :
  contents (DestroyDB (EN := mem_env zero_block) (str "/db") true dir_example).2 (name_of (str "/db") CurrentFile) = None ∧
  contents (DestroyDB (EN := mem_env zero_block) (str "/db") true dir_example).2 (DependencyGraphFileName (str "/db")) = Some (str "x").
Proof.
  destruct (@destroy_leaves_dependency _ _ _ (mem_env zero_block) (mem_env_laws zero_block eq_refl) (str "/db") dir_example) as [H1 H2].
  - exact dir_example_ok.
  - vm_compute. reflexivity.
  - exact mem_deletes.
  - split; [exact (H1 CurrentFile I ltac:(discriminate))|]. etransitivity; [exact H2|]. vm_compute. reflexivity.
Defined.
