(* ===== verification/VersionSet.v ===== *)
(** * db/version_set.cc: building versions and the manifest

    Every change of the set of files is a version edit. [LogAndApply] builds the
    new version from the current one and the edit, and appends the edit to the
    manifest; [Recover] replays a manifest. *)

From Stdlib Require Import Sorted.
From S2P Require Import Prelude Coding Comparator DBFormat Log Dependency Containers VersionEdit Version.

Section version_set.

(** [NDEBUG]: the build switch that leaves assertions out; [MOD] is the mode of
    the store, [user_name] the name of the comparator. *)
Context (NDEBUG : bool) (MOD : Z) (user : Comparator) (user_name : bytes).

Abbreviation icmp := (InternalKeyComparator.Compare user).

(** ** Builder *)

(** [BySmallestKey] over a comparator; the keys of files are not empty. *)
Definition BySmallestKey (compare : bytes → bytes → Z) (f1 f2 : FileMetaData) : bool :=
  let r := compare (smallest f1) (smallest f2) in
  if negb (r =? 0) then r <? 0 else number f1 <? number f2.

Record LevelState := { deleted_files : gset Z; added_files : list FileMetaData }.
Definition NewLevelState : LevelState := {| deleted_files := ∅; added_files := [] |}.

Definition num_vlevels : nat := if MOD =? 10 then 2 else Z.to_nat kNumLevels.
Definition vcompare : bytes → bytes → Z := if MOD =? 10 then VKey.Compare else icmp.

(** With the compaction pointers of the version set, which [Apply] changes. *)
Record Builder := {
  levels_ : list LevelState;
  vlevels_ : list LevelState;
  cur_dep_ : gmap Z Z;
  b_compact_pointer_ : list bytes;
  b_compact_vpointers_ : list bytes
}.

Definition NewBuilder (pointers vpointers : list bytes) : Builder := {|
  levels_ := replicate (Z.to_nat kNumLevels) NewLevelState; vlevels_ := replicate num_vlevels NewLevelState;
  cur_dep_ := ∅; b_compact_pointer_ := pointers; b_compact_vpointers_ := vpointers |}.

(** [a[i] = x] and updates in place: [None] is out of range. *)
Definition assign {A} (l : list A) (i : Z) (x : A) : option (list A) :=
  if bool_decide (0 ≤ i < len l) then Some (<[Z.to_nat i := x]> l) else None.
Definition update {A} (l : list A) (i : Z) (g : A → A) : option (list A) :=
  x ← l !! Z.to_nat i; assign l i (g x).

Definition fold_option {A S} (step : S → A → option S) (s : option S) (l : list A) : option S :=
  foldl (λ s x, s ← s; step s x) s l.

Definition delete_file (ls : list LevelState) (p : Z * Z) : option (list LevelState) :=
  update ls p.1 (λ st, {| deleted_files := {[p.2]} ∪ deleted_files st; added_files := added_files st |}).

Definition add_file (lt : FileMetaData → FileMetaData → bool) (ls : list LevelState) (p : Z * FileMetaData) : option (list LevelState) :=
  update ls p.1 (λ st, {| deleted_files := deleted_files st ∖ {[number p.2]}; added_files := set_insert lt p.2 (added_files st) |}).

(** [f->allowed_seeks] of a file that is added. *)
Definition with_seeks (f : FileMetaData) : FileMetaData :=
  let seeks := i32 (file_size f / 16384) in {|
  number := number f; file_size := file_size f; smallest := smallest f; largest := largest f;
  allowed_seeks := if seeks <? 100 then 100 else seeks; num_keys := num_keys f; invalid_count := invalid_count f |}.

(** The second loop takes the level from [compact_pointers_]. *)
Definition ApplyPointers (edit : VersionEdit) (b : Builder) : option (list bytes * list bytes) :=
  ps ← fold_option (λ ps p, k ← Encode p.2; assign ps p.1 k) (Some (b_compact_pointer_ b)) (compact_pointers_ edit);
  vps ← fold_option (λ vps '(i, p), q ← compact_pointers_ edit !! i; k ← Encode p; assign vps q.1 k)
    (Some (b_compact_vpointers_ b)) (imap (λ i p, (i, p.2)) (compact_vpointers_ edit));
  Some (ps, vps).

(** [deps] is the edit's [dep_map_] in the order its iterator has. *)
Definition Apply (edit : VersionEdit) (deps : list (Z * Z)) (b : Builder) : option Builder :=
  '(ps, vps) ← ApplyPointers edit b;
  ls ← fold_option delete_file (Some (levels_ b)) (deleted_files_ edit);
  vls ← fold_option delete_file (Some (vlevels_ b)) (deleted_vfiles_ edit);
  ls ← fold_option (add_file (BySmallestKey icmp)) (Some ls) (map (λ p, (p.1, with_seeks p.2)) (new_files_ edit));
  vls ← fold_option (add_file (BySmallestKey vcompare)) (Some vls) (new_vfiles_ edit);
  dep ← ReplayDependencies deps (cur_dep_ b);
  Some {| levels_ := ls; vlevels_ := vls; cur_dep_ := dep; b_compact_pointer_ := ps; b_compact_vpointers_ := vps |}.

(** [MaybeAddFile]: unless the file is deleted. *)
Definition kept (st : LevelState) (f : FileMetaData) : Prop := number f ∉ deleted_files st.

(** What [MaybeAddFile] asserts of each file it adds to a level above 0, and
    [SaveTo] tests again: it starts after the end of the file before it. *)
Fixpoint apart (fs : list FileMetaData) : bool :=
  match fs with
  | f :: ((g :: _) as rest) => (icmp (largest f) (smallest g) <? 0) && apart rest
  | _ => true
  end.

Definition no_overlap (files : list (list FileMetaData)) : bool := forallb apart (tail files).

(** The loop of [SaveTo] over the added files of a level. *)
Fixpoint SaveLevel (lt : FileMetaData → FileMetaData → bool) (st : LevelState) (base added : list FileMetaData) : list FileMetaData :=
  match added with
  | [] => filter (kept st) base
  | a :: added' =>
      let '(before, base') := upper_split lt a base in
      filter (kept st) before ++ filter (kept st) [a] ++ SaveLevel lt st base' added'
  end.

Definition SaveLevels (save : LevelState → list FileMetaData → list FileMetaData) (ls : list LevelState)
    (base : list (list FileMetaData)) : list (list FileMetaData) :=
  imap (λ i st, save st (default [] (base !! i))) ls.

(** The value tables are kept in the modes 9, in the order they were added, and
    10, merged; [base_deps] and [cur_deps] are the maps in iteration order.
    [None] is also the abort for files that overlap. *)
Definition SaveTo (b : Builder) (base : Version) (base_deps cur_deps : list (Z * Z)) : option Version :=
  let files := SaveLevels (λ st fs, SaveLevel (BySmallestKey icmp) st fs (added_files st)) (levels_ b) (files_ base) in
  let vfiles :=
    if MOD =? 10 then SaveLevels (λ st fs, SaveLevel (BySmallestKey vcompare) st fs (added_files st)) (vlevels_ b) (vfiles_ base)
    else if MOD =? 9 then SaveLevels (λ st fs, filter (kept st) fs ++ filter (kept st) (added_files st)) (vlevels_ b) (vfiles_ base)
    else replicate num_vlevels [] in
  if negb (NDEBUG || no_overlap files) then None else
  dep ← (if MOD =? 10 then d ← ReplayDependencies base_deps ∅; ReplayDependencies cur_deps d else Some ∅);
  Some {| files_ := files; vfiles_ := vfiles; dep_map_ := dep |}.

(** ** The version set *)

(** [dep_iter]: an unordered map in the order of its iterator. The files as in
    the log: [FAppend], [FFlush], [FSync] tell whether they succeed. *)
Context (dep_iter : gmap Z Z → list (Z * Z)).
Context {F : Type} (FAppend : F → bytes → F * bool) (FFlush : F → F * bool) (FSync : F → F * bool).

Record VersionSet := {
  next_file_number_ : Z;
  manifest_file_number_ : Z;
  vs_last_sequence_ : Z;
  vs_log_number_ : Z;
  vs_prev_log_number_ : Z;
  descriptor_log_ : option (Log.Writer F);
  current_ : Version;
  compact_pointer_ : list bytes;
  compact_vpointers_ : list bytes
}.

Definition EmptyVersion : Version := {|
  files_ := replicate (Z.to_nat kNumLevels) []; vfiles_ := replicate num_vlevels []; dep_map_ := ∅ |}.

Definition NewVersionSet : VersionSet := {|
  next_file_number_ := 2; manifest_file_number_ := 0; vs_last_sequence_ := 0; vs_log_number_ := 0; vs_prev_log_number_ := 0;
  descriptor_log_ := None; current_ := EmptyVersion;
  compact_pointer_ := replicate (Z.to_nat kNumLevels) []; compact_vpointers_ := replicate num_vlevels [] |}.

(** ** WriteSnapshot *)

Definition add_pointers (set : Z → bytes → VersionEdit → VersionEdit) (ps : list bytes) (e : VersionEdit) : VersionEdit :=
  foldl (λ e p, match p.2 with [] => e | _ => set p.1 p.2 e end) e (imap (λ i p, (Z.of_nat i, p)) ps).

Definition add_files (add : Z → Z → Z → bytes → bytes → VersionEdit → VersionEdit) (ls : list (list FileMetaData)) (e : VersionEdit) : VersionEdit :=
  foldl (λ e l, foldl (λ e f, add l.1 (number f) (file_size f) (smallest f) (largest f) e) e l.2) e (imap (λ i fs, (Z.of_nat i, fs)) ls).

(** The dependencies of the version are not part of it. *)
Definition SnapshotEdit (vs : VersionSet) : VersionEdit :=
  let edit := SetComparatorName user_name NewVersionEdit in
  let edit := add_pointers SetCompactPointer (compact_pointer_ vs) edit in
  let edit := add_pointers SetCompactVPointer (compact_vpointers_ vs) edit in
  let edit := add_files AddFile (files_ (current_ vs)) edit in
  add_files AddVFile (vfiles_ (current_ vs)) edit.

Definition WriteSnapshot (vs : VersionSet) (log : Log.Writer F) : option (Log.Writer F * bool) :=
  let edit := SnapshotEdit vs in
  record ← EncodeTo edit (dep_iter (dep_ edit)) [];
  AddRecord FAppend FFlush log record.

(** ** LogAndApply *)

Inductive ManifestError := ManifestOpen | ManifestWrite | GraphWrite | ManifestSync | CurrentWrite.

(** The counters that [LogAndApply] fills in. *)
Definition FillCounters (edit : VersionEdit) (vs : VersionSet) : VersionEdit :=
  let edit := match log_number_ edit with Some _ => edit | None => SetLogNumber (vs_log_number_ vs) edit end in
  let edit := match prev_log_number_ edit with Some _ => edit | None => SetPrevLogNumber (vs_prev_log_number_ vs) edit end in
  SetLastSequence (vs_last_sequence_ vs) (SetNextFile (next_file_number_ vs) edit).

(** The assertions on a log number that the edit has. *)
Definition FillEdit (edit : VersionEdit) (vs : VersionSet) : option VersionEdit :=
  let ok := match log_number_ edit with Some n => (n >=? vs_log_number_ vs) && (n <? next_file_number_ vs) | None => true end in
  if NDEBUG || ok then Some (FillCounters edit vs) else None.

(** The version that the edit makes, and the compaction pointers. *)
Definition NextVersion (edit : VersionEdit) (vs : VersionSet) : option (Version * list bytes * list bytes) :=
  b ← Apply edit (dep_iter (dep_ edit)) (NewBuilder (compact_pointer_ vs) (compact_vpointers_ vs));
  v ← SaveTo b (current_ vs) (dep_iter (dep_map_ (current_ vs))) (dep_iter (cur_dep_ b));
  Some (v, b_compact_pointer_ b, b_compact_vpointers_ b).

Definition with_log (log : option (Log.Writer F)) (ps vps : list bytes) (vs : VersionSet) : VersionSet := {|
  next_file_number_ := next_file_number_ vs; manifest_file_number_ := manifest_file_number_ vs;
  vs_last_sequence_ := vs_last_sequence_ vs; vs_log_number_ := vs_log_number_ vs; vs_prev_log_number_ := vs_prev_log_number_ vs;
  descriptor_log_ := log; current_ := current_ vs; compact_pointer_ := ps; compact_vpointers_ := vps |}.

(** [new_manifest] is the file that could be created; [graph_saved] and
    [current_set] tell whether [SaveToFile] and [SetCurrentFile] succeed. *)
Definition LogAndApply (edit : VersionEdit) (new_manifest : option F) (graph_saved current_set : bool) (vs : VersionSet)
    : option (VersionSet * option ManifestError) :=
  edit ← FillEdit edit vs;
  '(v, ps, vps) ← NextVersion edit vs;
  let vs := with_log (descriptor_log_ vs) ps vps vs in
  let fresh := match descriptor_log_ vs with None => true | Some _ => false end in
  '(log, s) ← match descriptor_log_ vs, new_manifest with
              | Some log, _ => Some (Some log, None)
              | None, None => Some (None, Some ManifestOpen)
              | None, Some f =>
                  '(log, ok) ← WriteSnapshot vs (NewWriter f 0);
                  Some (Some log, if (ok : bool) then None else Some ManifestWrite)
              end;
  '(log, s) ← match log, s with
              | Some log, None =>
                  record ← EncodeTo edit (dep_iter (dep_ edit)) [];
                  '(log, ok) ← AddRecord FAppend FFlush log record;
                  Some (Some log, if (ok : bool) then None else Some ManifestWrite)
              | log, s => Some (log, s)
              end;
  let s := match s with None => if (MOD =? 10) && negb graph_saved then Some GraphWrite else None | _ => s end in
  let '(log, s) := match log, s with
                   | Some log, None =>
                       let '(f, ok) := FSync (dest_ log) in
                       (Some {| dest_ := f; block_offset_ := block_offset_ log |}, if ok then None else Some ManifestSync)
                   | log, s => (log, s)
                   end in
  let s := match s with None => if fresh && negb current_set then Some CurrentWrite else None | _ => s end in
  Some (match s with
        | None => {|
            next_file_number_ := next_file_number_ vs; manifest_file_number_ := manifest_file_number_ vs;
            vs_last_sequence_ := vs_last_sequence_ vs;
            vs_log_number_ := default 0 (log_number_ edit); vs_prev_log_number_ := default 0 (prev_log_number_ edit);
            descriptor_log_ := log; current_ := v; compact_pointer_ := ps; compact_vpointers_ := vps |}
        | Some _ => with_log (if fresh then None else log) ps vps vs
        end, s).

(** ** Recover *)

Definition MarkFileNumberUsed (number : Z) (vs : VersionSet) : VersionSet :=
  if next_file_number_ vs <=? number then {|
    next_file_number_ := u64 (number + 1); manifest_file_number_ := manifest_file_number_ vs;
    vs_last_sequence_ := vs_last_sequence_ vs; vs_log_number_ := vs_log_number_ vs; vs_prev_log_number_ := vs_prev_log_number_ vs;
    descriptor_log_ := descriptor_log_ vs; current_ := current_ vs; compact_pointer_ := compact_pointer_ vs;
    compact_vpointers_ := compact_vpointers_ vs |}
  else vs.

Inductive RecoverError :=
  | CurrentMissing | CurrentNoNewline | ManifestMissing | ManifestCorruption | EditCorruption (e : EditError)
  | WrongComparator | NoNextFile | NoLogNumber | NoLastSequence.

(** The locals of [Recover]; a [have_] flag with its value is an option. *)
Record RecoverState := {
  rs_status : option RecoverError;
  rs_builder : Builder;
  rs_log_number : option Z;
  rs_prev_log_number : option Z;
  rs_next_file : option Z;
  rs_last_sequence : option Z
}.

Definition orelse {A} (a b : option A) : option A := match a with Some _ => a | None => b end.

(** The body of the loop. *)
Definition RecoverEdit (record : bytes) (st : RecoverState) : option RecoverState :=
  '(edit, msg) ← DecodeFrom record NewVersionEdit;
  let s := match msg with
           | Some e => Some (EditCorruption e)
           | None =>
               match comparator_ edit with
               | Some name => if bool_decide (name = user_name) then None else Some WrongComparator
               | None => None
               end
           end in
  b ← match s with None => Apply edit (dep_iter (dep_ edit)) (rs_builder st) | Some _ => Some (rs_builder st) end;
  Some {| rs_status := s; rs_builder := b;
          rs_log_number := orelse (log_number_ edit) (rs_log_number st);
          rs_prev_log_number := orelse (prev_log_number_ edit) (rs_prev_log_number st);
          rs_next_file := orelse (VersionEdit.next_file_number_ edit) (rs_next_file st);
          rs_last_sequence := orelse (VersionEdit.last_sequence_ edit) (rs_last_sequence st) |}.

Fixpoint Recover_loop (n fuel : nat) (r : Reader) (st : RecoverState) : option RecoverState :=
  match n with
  | O => None
  | S n' =>
      '(found, record, r') ← ReadRecord fuel r;
      let s := match rs_status st with
               | None => if (length (reports_ r) <? length (reports_ r'))%nat then Some ManifestCorruption else None
               | s => s
               end in
      let st := {| rs_status := s; rs_builder := rs_builder st; rs_log_number := rs_log_number st;
                   rs_prev_log_number := rs_prev_log_number st; rs_next_file := rs_next_file st; rs_last_sequence := rs_last_sequence st |} in
      match found, s with
      | true, None => st ← RecoverEdit record st; Recover_loop n' fuel r' st
      | _, _ => Some st
      end
  end.

(** The tests after the loop. *)
Definition missing_field (st : RecoverState) : option RecoverError :=
  match rs_next_file st, rs_log_number st, rs_last_sequence st with
  | None, _, _ => Some NoNextFile
  | _, None, _ => Some NoLogNumber
  | _, _, None => Some NoLastSequence
  | _, _, _ => None
  end.

(** The installation of the recovered version; [reuse]: the log to append to
    and its number, if the manifest is reused. Returns [*save_manifest]. *)
Definition Install (st : RecoverState) (reuse : option (Log.Writer F * Z)) (vs : VersionSet) : option (VersionSet * bool) :=
  v ← SaveTo (rs_builder st) (current_ vs) (dep_iter (dep_map_ (current_ vs))) (dep_iter (cur_dep_ (rs_builder st)));
  let next_file := default 0 (rs_next_file st) in
  Some ({| next_file_number_ := u64 (next_file + 1);
           manifest_file_number_ := match reuse with Some (_, n) => n | None => next_file end;
           vs_last_sequence_ := default 0 (rs_last_sequence st); vs_log_number_ := default 0 (rs_log_number st);
           vs_prev_log_number_ := default 0 (rs_prev_log_number st);
           descriptor_log_ := match reuse with Some (log, _) => Some log | None => descriptor_log_ vs end;
           current_ := v; compact_pointer_ := b_compact_pointer_ (rs_builder st);
           compact_vpointers_ := b_compact_vpointers_ (rs_builder st) |},
        match reuse with Some _ => false | None => true end).

(** [current]: what CURRENT holds, [manifest]: the file that a name opens. *)
Definition Recover (n fuel : nat) (current : option bytes) (manifest : bytes → option bytes) (reuse : option (Log.Writer F * Z))
    (vs : VersionSet) : option (VersionSet * option RecoverError * bool) :=
  match current with
  | None => Some (vs, Some CurrentMissing, false)
  | Some current =>
      if negb (bool_decide (last current = Some 10)) then Some (vs, Some CurrentNoNewline, false)
      else
        match manifest (first (len current - 1) current) with
        | None => Some (vs, Some ManifestMissing, false)
        | Some file =>
            let reader := NewReader {| sf_rest := file; sf_read_error := false; sf_skip_error := false |} true true 0 in
            st ← Recover_loop n fuel reader {| rs_status := None; rs_builder := NewBuilder (compact_pointer_ vs) (compact_vpointers_ vs);
              rs_log_number := None; rs_prev_log_number := None; rs_next_file := None; rs_last_sequence := None |};
            (** [Apply] has already changed the pointers of the version set. *)
            let vs := with_log (descriptor_log_ vs) (b_compact_pointer_ (rs_builder st)) (b_compact_vpointers_ (rs_builder st)) vs in
            match rs_status st with
            | Some e => Some (vs, Some e, false)
            | None =>
                let vs := MarkFileNumberUsed (default 0 (rs_log_number st)) (MarkFileNumberUsed (default 0 (rs_prev_log_number st)) vs) in
                match missing_field st with
                | Some e => Some (vs, Some e, false)
                | None => '(vs, save) ← Install st reuse vs; Some (vs, None, save)
                end
            end
        end
  end.

End version_set.

(** ** Lemmas: the files of one level *)

Section level.

Context (c : Comparator) (dom : bytes → Prop) (HC : ComparatorLaws dom c).

(** A file number stands for one file. *)
Context (meta : Z → FileMetaData).

Abbreviation lt := (BySmallestKey (Compare c)).

Definition known (f : FileMetaData) : Prop := dom (smallest f) ∧ f = meta (number f).

Lemma known_eq f g : known f → known g → number f = number g → f = g.
Proof. intros [_ Hf] [_ Hg] E. congruence. Qed.

#[local] Instance by_smallest_strict : StrictWeak lt known.
Proof.
  assert (∀ f, known f → Compare c (smallest f) (smallest f) = 0) as Hrefl by (intros f [Hf _]; by apply cmp_eq).
  split; unfold BySmallestKey.
  - intros f Hf. rewrite Hrefl by done. cbn. by rewrite Z.ltb_irrefl.
  - intros f g h [Hf _] [Hg _] [Hh _] H1 H2.
    pose proof (cmp_trans _ _ _ Hf Hg Hh) as Ht. pose proof (cmp_eq _ _ Hf Hg) as E1. pose proof (cmp_eq _ _ Hg Hh) as E2.
    destruct (Z.eqb_spec (Compare c (smallest f) (smallest g)) 0) as [E|E]; cbn [negb] in H1.
    + apply E1 in E. rewrite E. destruct (Z.eqb_spec (Compare c (smallest g) (smallest h)) 0); cbn [negb] in *; [lia|done].
    + destruct (Z.eqb_spec (Compare c (smallest g) (smallest h)) 0) as [E'|E']; cbn [negb] in H2.
      * apply E2 in E'. rewrite <- E'. rewrite (proj2 (Z.eqb_neq _ _)) by done. done.
      * assert (Compare c (smallest f) (smallest h) < 0) by lia. rewrite (proj2 (Z.eqb_neq _ _)) by lia. cbn. lia.
  - intros f g h [Hf _] [Hg _] [Hh _] H1.
    pose proof (cmp_anti _ _ Hf Hg) as A1. pose proof (cmp_anti _ _ Hg Hh) as A2. pose proof (cmp_anti _ _ Hg Hf) as A3. pose proof (cmp_anti _ _ Hh Hg) as A4.
    pose proof (cmp_eq _ _ Hf Hg) as E1. pose proof (cmp_eq _ _ Hg Hh) as E2. pose proof (cmp_eq _ _ Hf Hh) as E3.
    pose proof (cmp_trans _ _ _ Hg Hf Hh) as T1. pose proof (cmp_trans _ _ _ Hf Hh Hg) as T2. pose proof (cmp_anti _ _ Hf Hh) as A5. pose proof (cmp_anti _ _ Hh Hf) as A6.
    destruct (Z.eqb_spec (Compare c (smallest f) (smallest g)) 0) as [E|E]; cbn [negb].
    + apply E1 in E. rewrite E in *. destruct (Z.eqb_spec (Compare c (smallest g) (smallest h)) 0); cbn [negb] in *; lia.
    + destruct (Z.eqb_spec (Compare c (smallest g) (smallest h)) 0) as [E'|E']; cbn [negb].
      * apply E2 in E'. rewrite <- E' in H1. rewrite (proj2 (Z.eqb_neq _ _)) in H1 by done. cbn in H1. by left.
      * destruct (Z.eqb_spec (Compare c (smallest f) (smallest h)) 0) as [Eh|Eh]; cbn [negb] in H1.
        -- apply E3 in Eh. rewrite Eh in *. rewrite !Z.ltb_lt. lia.
        -- rewrite !Z.ltb_lt in *. destruct (Z.lt_ge_cases (Compare c (smallest f) (smallest g)) 0); [by left|]. right.
           assert (Compare c (smallest g) (smallest f) < 0) by lia. auto.
Qed.

Lemma by_smallest_total f g : known f → known g → lt f g = false → lt g f = false → f = g.
Proof.
  intros Hf Hg. unfold BySmallestKey. pose proof (cmp_anti _ _ (proj1 Hf) (proj1 Hg)) as A1. pose proof (cmp_anti _ _ (proj1 Hg) (proj1 Hf)) as A2.
  destruct (Z.eqb_spec (Compare c (smallest f) (smallest g)) 0), (Z.eqb_spec (Compare c (smallest g) (smallest f)) 0); cbn [negb]; try lia.
  intros. apply known_eq; [done..|lia].
Qed.

(** Files as a version keeps them. *)
Definition good (fs : list FileMetaData) : Prop := Forall known fs ∧ ordered lt fs.

Lemma good_unique fs gs : good fs → good gs → (∀ f, f ∈ fs ↔ f ∈ gs) → fs = gs.
Proof. intros [? ?] [? ?]. by apply (ordered_unique lt known). Qed.

Lemma ordered_app l k :
  ordered lt l → ordered lt k → (∀ x y, x ∈ l → y ∈ k → lt x y = true) → ordered lt (l ++ k).
Proof. intros Hl Hk Hlk. apply sorting.StronglySorted_app. split_and!; [|done|done]. intros x y Hx Hy. by apply Hlk. Qed.

Lemma ordered_filter (P : FileMetaData → Prop) `{∀ x, Decision (P x)} l : ordered lt l → ordered lt (filter P l).
Proof.
  intros Ho. induction Ho as [|x l Ho IH Hx]; [constructor|]. rewrite filter_cons. case_decide; [|done]. constructor; [done|].
  apply Forall_forall. intros y [_ Hy]%list_elem_of_filter. rewrite Forall_forall in Hx. by apply Hx.
Qed.

(** Merging the files that were added into those that were there. *)
Lemma SaveLevel_ok st base added :
  good base → good added → (∀ f, f ∈ base → f ∉ added) →
  good (SaveLevel lt st base added) ∧ ∀ f, f ∈ SaveLevel lt st base added ↔ number f ∉ deleted_files st ∧ (f ∈ base ∨ f ∈ added).
Proof.
  assert (∀ base added, good base → good added → (∀ f, f ∈ base → f ∉ added) →
    ordered lt (SaveLevel lt st base added) ∧ ∀ f, f ∈ SaveLevel lt st base added ↔ number f ∉ deleted_files st ∧ (f ∈ base ∨ f ∈ added)) as H.
  { clear base added. intros base added. revert base. induction added as [|a added IH]; intros base [Hkb Hob] [Hka Hoa] Hdis; cbn [SaveLevel].
    { split; [by apply ordered_filter|]. intros f. rewrite list_elem_of_filter. unfold kept. rewrite elem_of_nil. tauto. }
    inversion_clear Hka as [|? ? Ha Hka']. inversion_clear Hoa as [|? ? Hoa' Hall]. rewrite Forall_forall in Hall.
    destruct (upper_split lt a base) as [x y] eqn:E.
    destruct (upper_split_ordered lt known by_smallest_total a base x y Ha Hkb Hob) as (-> & Hx & Hy); [|done|].
    { intros Hin. apply (Hdis a Hin). by left. }
    apply Forall_app in Hkb as [Hkx Hky]. rewrite Forall_forall in Hx, Hy. pose proof Hkx as Hkx'. pose proof Hky as Hky'. pose proof Hka' as Hka2.
    rewrite Forall_forall in Hkx', Hky', Hka2.
    assert (ordered lt x ∧ ordered lt y) as [Hox Hoy] by (split; [by eapply sorting.StronglySorted_app_1_l|by eapply sorting.StronglySorted_app_1_r]).
    destruct (IH y) as [Ho Hel]; [by split|by split| |].
    { intros f Hf Hin. apply (Hdis f); [apply elem_of_app; by right|by right]. }
    assert (∀ f, f ∈ SaveLevel lt st y added → lt a f = true ∧ known f) as Hafter.
    { intros f [_ [Hf|Hf]]%Hel; [split; [by apply Hy|by apply Hky']|split; [by apply Hall|by apply Hka2]]. }
    split.
    - apply ordered_app; [by apply ordered_filter| |].
      + apply ordered_app; [apply ordered_filter; repeat constructor|done|].
        intros f g [_ ->%list_elem_of_singleton]%list_elem_of_filter Hg. by apply Hafter.
      + intros f g [_ Hf]%list_elem_of_filter [[_ ->%list_elem_of_singleton]%list_elem_of_filter|Hg]%elem_of_app; [by apply Hx|].
        destruct (Hafter g Hg). apply (lt_trans lt f a g); auto.
    - intros f. rewrite !elem_of_app, Hel, !list_elem_of_filter, list_elem_of_singleton, elem_of_cons. unfold kept. tauto. }
  intros Hb Ha Hdis. destruct (H base added Hb Ha Hdis) as [Ho Hel]. split; [|done]. split; [|done].
  apply Forall_forall. intros f [_ Hf]%Hel. destruct Hb as [Hb _], Ha as [Ha _]. rewrite Forall_forall in Hb, Ha. destruct Hf; auto.
Qed.

(** What the deletions [dels] and additions [adds] of an edit do to level [i]. *)
Definition level_step (dels : list (Z * Z)) (adds : list (Z * FileMetaData)) (i : Z) (st st' : LevelState) : Prop :=
  (∀ n, n ∈ deleted_files st' ↔ (n ∈ deleted_files st ∨ (i, n) ∈ dels) ∧ ¬ ∃ f, (i, f) ∈ adds ∧ number f = n) ∧
  (∀ f, f ∈ added_files st' ↔ f ∈ added_files st ∨ (i, f) ∈ adds) ∧ good (added_files st').

Lemma fold_adds (adds : list (Z * FileMetaData)) st :
  Forall (λ p, known p.2) adds → good (added_files st) →
  let st' := foldl (λ st (p : Z * FileMetaData), {| deleted_files := deleted_files st ∖ {[number p.2]}; added_files := set_insert lt p.2 (added_files st) |}) st adds in
  (∀ n, n ∈ deleted_files st' ↔ n ∈ deleted_files st ∧ ¬ ∃ f, f ∈ adds.*2 ∧ number f = n) ∧
  (∀ f, f ∈ added_files st' ↔ f ∈ added_files st ∨ f ∈ adds.*2) ∧ good (added_files st').
Proof.
  intros Hk. revert st. induction Hk as [|[l g] adds Hg Hk IH]; intros st Hst; cbn [foldl].
  { split_and!; [|intros f; cbn; rewrite elem_of_nil; tauto|done]. intros n. split; [|tauto]. intros Hn. split; [done|]. intros (f & Hf & _). by apply not_elem_of_nil in Hf. }
  cbn in Hg. set (st1 := {| deleted_files := _; added_files := _ |}). destruct (IH st1) as (Hd & Ha & Hgood).
  { destruct Hst as [Hks Hos]. split; [by apply set_insert_Forall|by apply (set_insert_ordered lt known)]. }
  split_and!; [| |done].
  - intros n. rewrite Hd. cbn. rewrite elem_of_difference, elem_of_singleton. setoid_rewrite elem_of_cons. naive_solver.
  - intros f. rewrite Ha. cbn. rewrite (set_insert_iff lt known by_smallest_total) by (done || apply Hst). rewrite elem_of_cons. tauto.
Qed.

End level.

Lemma fold_deletes (dels : list (Z * Z)) st :
  let st' := foldl (λ st (p : Z * Z), {| deleted_files := {[p.2]} ∪ deleted_files st; added_files := added_files st |}) st dels in
  added_files st' = added_files st ∧ ∀ n, n ∈ deleted_files st' ↔ n ∈ deleted_files st ∨ n ∈ dels.*2.
Proof.
  revert st. induction dels as [|[l m] dels IH]; intros st; cbn [foldl].
  { split; [done|]. intros n. cbn. rewrite elem_of_nil. tauto. }
  destruct (IH {| deleted_files := {[m]} ∪ deleted_files st; added_files := added_files st |}) as [Ha Hd]. split; [done|].
  intros n. rewrite Hd. cbn. rewrite elem_of_cons. set_solver.
Qed.

(** A fold of updates in place, seen at one index. *)
Lemma fold_update {A} (g : A → LevelState → LevelState) (lvl : A → Z) items : ∀ ls,
  Forall (λ x, 0 ≤ lvl x < len ls) items →
  ∃ ls', fold_option (λ ls x, update ls (lvl x) (g x)) (Some ls) items = Some ls' ∧ length ls' = length ls ∧
    ∀ i st, ls !! i = Some st → ls' !! i = Some (foldl (λ st x, g x st) st (filter (λ x, lvl x = Z.of_nat i) items)).
Proof.
  unfold fold_option. induction items as [|x items IH]; intros ls Hlv; cbn [foldl]; [by exists ls|].
  inversion_clear Hlv as [|? ? Hx Hlv']. cbn [mbind option_bind]. unfold update at 2.
  destruct (lookup_lt_is_Some_2 ls (Z.to_nat (lvl x))) as [st0 Hst0]; [unfold len in Hx; lia|]. rewrite Hst0. cbn [mbind option_bind].
  unfold assign. rewrite bool_decide_true by done.
  destruct (IH (<[Z.to_nat (lvl x) := g x st0]> ls)) as (ls' & -> & Hlen & Hls').
  { unfold len in *. by rewrite length_insert. }
  exists ls'. split; [done|]. rewrite length_insert in Hlen. split; [done|]. intros i st Hi. rewrite filter_cons.
  destruct (decide (lvl x = Z.of_nat i)) as [E|E].
  - rewrite E, Nat2Z.id in *. simplify_eq. cbn [foldl]. apply Hls'. apply list_lookup_insert_eq. by eapply lookup_lt_Some.
  - apply Hls'. rewrite list_lookup_insert_ne; [done|]. lia.
Qed.

Lemma level_items {B} (i : nat) (items : list (Z * B)) x : x ∈ (filter (λ p, p.1 = Z.of_nat i) items).*2 ↔ (Z.of_nat i, x) ∈ items.
Proof.
  rewrite list_elem_of_fmap. split.
  - intros ([l y] & -> & [Hl Hin]%list_elem_of_filter). cbn in *. by subst l.
  - intros Hin. exists (Z.of_nat i, x). split; [done|]. by apply list_elem_of_filter.
Qed.

(** The levels of a builder after the deletions and additions of an edit. *)
Lemma apply_levels c dom (HC : ComparatorLaws dom c) meta ls dels adds :
  Forall (λ p, 0 ≤ p.1 < len ls) dels → Forall (λ p, 0 ≤ p.1 < len ls ∧ known dom meta p.2) adds →
  Forall (λ st, good c dom meta (added_files st)) ls →
  ∃ ls1 ls2, fold_option delete_file (Some ls) dels = Some ls1 ∧ fold_option (add_file (BySmallestKey (Compare c))) (Some ls1) adds = Some ls2 ∧
    length ls2 = length ls ∧ ∀ i st, ls !! i = Some st → ∃ st', ls2 !! i = Some st' ∧ level_step c dom meta dels adds (Z.of_nat i) st st'.
Proof.
  intros Hd Ha Hg. unfold delete_file, add_file.
  destruct (fold_update (λ p st, {| deleted_files := {[p.2]} ∪ deleted_files st; added_files := added_files st |}) fst dels ls Hd) as (ls1 & -> & Hl1 & H1).
  destruct (fold_update (λ p st, {| deleted_files := deleted_files st ∖ {[number p.2]}; added_files := set_insert (BySmallestKey (Compare c)) p.2 (added_files st) |})
    fst adds ls1) as (ls2 & H2eq & Hl2 & H2).
  { eapply Forall_impl; [exact Ha|]. intros p [? _]. unfold len in *. by rewrite Hl1. }
  exists ls1, ls2. split; [done|]. split; [done|]. split; [congruence|]. intros i st Hi. pose proof (H1 i st Hi) as Hi1.
  eexists. split; [by apply (H2 i _ Hi1)|].
  match type of Hi1 with _ = Some ?s => set (st1 := s) in * end.
  destruct (fold_deletes (filter (λ p, p.1 = Z.of_nat i) dels) st) as [Hadd Hdel]. fold st1 in Hadd, Hdel.
  destruct (fold_adds c dom HC meta (filter (λ p, p.1 = Z.of_nat i) adds) st1) as (Hd2 & Ha2 & Hg2).
  { apply Forall_forall. intros p [_ Hp]%list_elem_of_filter. rewrite Forall_forall in Ha. by apply Ha. }
  { rewrite Hadd. rewrite Forall_forall in Hg. apply Hg. by eapply list_elem_of_lookup_2. }
  split_and!; [| |done].
  - intros n. rewrite Hd2, Hdel, level_items. setoid_rewrite level_items. done.
  - intros f. by rewrite Ha2, Hadd, level_items.
Qed.

(** ** Lemmas: a builder that follows a version *)

Section follow.

Context (c : Comparator) (dom : bytes → Prop) (HC : ComparatorLaws dom c) (meta : Z → FileMetaData).

Abbreviation lt := (BySmallestKey (Compare c)).
Abbreviation known := (known dom meta).
Abbreviation good := (good c dom meta).

(** The level [st] of a builder over nothing stands for the files [fs]. *)
Definition tracks (st : LevelState) (fs : list FileMetaData) : Prop :=
  good (added_files st) ∧ fs = SaveLevel lt st [] (added_files st).

Lemma good_nil : good [].
Proof. split; constructor. Qed.

Lemma tracks_elem st fs : tracks st fs → good fs ∧ ∀ f, f ∈ fs ↔ number f ∉ deleted_files st ∧ f ∈ added_files st.
Proof.
  intros [Hg ->]. destruct (SaveLevel_ok c dom HC meta st [] (added_files st) good_nil Hg) as [Hgood Hel].
  { intros f Hf. by apply not_elem_of_nil in Hf. }
  split; [done|]. intros f. rewrite Hel, elem_of_nil. tauto.
Qed.

Lemma tracks_intro st fs :
  good (added_files st) → good fs → (∀ f, f ∈ fs ↔ number f ∉ deleted_files st ∧ f ∈ added_files st) → tracks st fs.
Proof.
  intros Hg Hfs Hel. split; [done|]. destruct (tracks_elem st _ (conj Hg eq_refl)) as [Hgood Hel'].
  apply (good_unique c dom HC meta); [done..|]. intros f. by rewrite Hel, Hel'.
Qed.

Lemma tracks_new : tracks NewLevelState [].
Proof. split; [apply good_nil|done]. Qed.

(** Following an edit: the version is rebuilt from its files and the edit, the
    builder goes on. *)
Lemma tracks_step st st' new fs dels adds i :
  tracks st fs → level_step c dom meta dels adds i st st' → level_step c dom meta dels adds i NewLevelState new →
  (∀ f, (i, f) ∈ adds → f ∉ fs) → tracks st' (SaveLevel lt new fs (added_files new)).
Proof.
  intros Ht (Hd' & Ha' & Hg') (Hdn & Han & Hgn) Hdis. destruct (tracks_elem _ _ Ht) as [Hfs Hel].
  destruct (SaveLevel_ok c dom HC meta new fs (added_files new) Hfs Hgn) as [Hgood Hsave].
  { intros f Hf Hin%Han. cbn in Hin. rewrite elem_of_nil in Hin. destruct Hin as [[]|Hin]. by apply (Hdis f). }
  apply tracks_intro; [done..|]. intros f. rewrite Hsave, Hd', Ha', Hdn, Han, Hel. cbn. rewrite elem_of_nil, elem_of_empty.
  assert (f ∈ added_files st → (∃ g, (i, g) ∈ adds ∧ number g = number f) → (i, f) ∈ adds) as Hsame.
  { intros Hf (g & Hg & E). rewrite (known_eq dom meta f g); [done| | |done].
    - destruct Ht as [[Hk _] _]. rewrite Forall_forall in Hk. by apply Hk.
    - destruct Hgn as [Hk _]. rewrite Forall_forall in Hk. apply Hk, Han. by right. }
  assert ((i, f) ∈ adds → ∃ g, (i, g) ∈ adds ∧ number g = number f) by (intros; by exists f).
  assert (Decision (∃ g, (i, g) ∈ adds ∧ number g = number f)) as [HP|HP].
  { destruct (decide (Exists (λ p, p.1 = i ∧ number p.2 = number f) adds)) as [HE|HE]; rewrite Exists_exists in HE; [left|right].
    - destruct HE as ([j g] & ? & <- & ?). by exists g.
    - intros (g & ? & ?). apply HE. by exists (i, g). }
  all: revert HP Hsame H; generalize (∃ g, (i, g) ∈ adds ∧ number g = number f); intros P;
  destruct (decide (number f ∈ deleted_files st)), (decide ((i, number f) ∈ dels)); tauto.
Qed.

(** The levels that an edit leaves. *)
Definition ApplyLevels (ls : list LevelState) (dels : list (Z * Z)) (adds : list (Z * FileMetaData)) : option (list LevelState) :=
  ls ← fold_option delete_file (Some ls) dels; fold_option (add_file lt) (Some ls) adds.

Lemma ApplyLevels_ok ls dels adds :
  Forall (λ p, 0 ≤ p.1 < len ls) dels → Forall (λ p, 0 ≤ p.1 < len ls ∧ known p.2) adds →
  Forall (λ st, good (added_files st)) ls →
  ∃ ls', ApplyLevels ls dels adds = Some ls' ∧ length ls' = length ls ∧
    ∀ i st, ls !! i = Some st → ∃ st', ls' !! i = Some st' ∧ level_step c dom meta dels adds (Z.of_nat i) st st'.
Proof.
  intros Hd Ha Hg. destruct (apply_levels c dom HC meta ls dels adds Hd Ha Hg) as (ls1 & ls2 & E1 & E2 & Hlen & H).
  exists ls2. unfold ApplyLevels. by rewrite E1.
Qed.

Lemma new_levels_good n : Forall (λ st, good (added_files st)) (replicate n NewLevelState).
Proof. apply Forall_replicate, good_nil. Qed.

Lemma tracks_good ls fss : Forall2 tracks ls fss → Forall (λ st, good (added_files st)) ls.
Proof. intros H. induction H as [|st fs ls fss [? _] _ IH]; by constructor. Qed.

(** All levels follow an edit. *)
Lemma follow_edit ls fss dels adds news :
  Forall2 tracks ls fss → Forall (λ p, 0 ≤ p.1 < len ls) dels →
  Forall (λ p, 0 ≤ p.1 < len ls ∧ known p.2 ∧ p.2 ∉ default [] (fss !! Z.to_nat p.1)) adds →
  ApplyLevels (replicate (length ls) NewLevelState) dels adds = Some news →
  ∃ ls', ApplyLevels ls dels adds = Some ls' ∧
    Forall2 tracks ls' (SaveLevels (λ st fs, SaveLevel lt st fs (added_files st)) news fss).
Proof.
  intros Ht Hd Ha Hnews.
  assert (Forall (λ p, 0 ≤ p.1 < len ls ∧ known p.2) adds) as Ha' by (eapply Forall_impl; [exact Ha|]; cbn; tauto).
  destruct (ApplyLevels_ok ls dels adds Hd Ha' (tracks_good _ _ Ht)) as (ls' & Hls' & Hlen & Hstep).
  assert (len (replicate (length ls) NewLevelState) = len ls) as El by (unfold len; by rewrite length_replicate).
  destruct (ApplyLevels_ok (replicate (length ls) NewLevelState) dels adds) as (news' & Hn' & Hlen' & Hstep');
    [by rewrite El..|apply new_levels_good|]. rewrite Hnews in Hn'. injection Hn' as <-. rewrite length_replicate in Hlen'.
  exists ls'. split; [done|]. unfold SaveLevels. apply Forall2_same_length_lookup_2.
  { rewrite length_imap. lia. }
  intros i st' fs' Hi Hf. rewrite list_lookup_imap in Hf. destruct (news !! i) as [new|] eqn:En; [|done]. injection Hf as <-.
  assert (i < length ls)%nat as Hlt by (apply lookup_lt_Some in Hi; lia).
  destruct (lookup_lt_is_Some_2 ls i Hlt) as [st Hst]. destruct (Forall2_lookup_l _ _ _ _ _ Ht Hst) as (fs & Hfs & Htr).
  destruct (Hstep i st Hst) as (x & Hx & Hsx). rewrite Hi in Hx. injection Hx as <-.
  destruct (Hstep' i NewLevelState) as (y & Hy & Hsy); [by apply lookup_replicate|]. rewrite En in Hy. injection Hy as <-.
  rewrite Hfs. cbn [default]. eapply tracks_step; [done..|]. intros f Hf. rewrite Forall_forall in Ha.
  destruct (Ha _ Hf) as (_ & _ & Hnot). cbn in Hnot. by rewrite Nat2Z.id, Hfs in Hnot.
Qed.

End follow.
