(* ===== verification/Manifest.v ===== *)
(** * Recovering from the manifest

    [LogAndApply] keeps the set of files in memory and a manifest of edits on
    disk. The manifest, cut at any byte, recovers to the version that the store
    had after some prefix of the calls. *)

From S2P Require Import Prelude Coding Comparator DBFormat Log Dependency Containers VersionEdit Version VersionSet.

(** ** Lemmas: the snapshot *)

(** The files of a version, as the snapshot lists them. *)
Definition stored (f : FileMetaData) : FileMetaData := NewFileMeta (number f) (file_size f) (smallest f) (largest f).
Definition listed (fss : list (list FileMetaData)) : list (Z * FileMetaData) :=
  mjoin (imap (λ i fs, pair (Z.of_nat i) <$> fs) fss).

Lemma listed_elem fss i f : (Z.of_nat i, f) ∈ listed fss ↔ f ∈ default [] (fss !! i).
Proof.
  unfold listed. rewrite list_elem_of_join. split.
  - intros (l & Hl & (j & fs & -> & Hj)%elem_of_lookup_imap). apply list_elem_of_fmap in Hl as (g & [= E ->] & Hg).
    assert (i = j) as -> by lia. by rewrite Hj.
  - destruct (fss !! i) as [fs|] eqn:E; cbn; [|by intros ?%not_elem_of_nil]. intros Hf.
    exists (pair (Z.of_nat i) <$> fs). split; [by apply list_elem_of_fmap_2|]. apply elem_of_lookup_imap. by exists i, fs.
Qed.

Lemma listed_Forall (P : Z * FileMetaData → Prop) fss :
  (∀ i fs f, fss !! i = Some fs → f ∈ fs → P (Z.of_nat i, f)) → Forall P (listed fss).
Proof.
  intros H. apply Forall_forall. unfold listed. intros p (l & Hl & (j & fs & -> & Hj)%elem_of_lookup_imap)%list_elem_of_join.
  apply list_elem_of_fmap in Hl as (g & -> & Hg). by eapply H.
Qed.

Lemma foldl_join {A B} (g : B → A → B) (ls : list (list A)) b : foldl (λ b l, foldl g b l) b ls = foldl g b (mjoin ls).
Proof. revert b. induction ls as [|l ls IH]; intros b; cbn; [done|]. by rewrite foldl_app, IH. Qed.

Lemma add_files_listed (push : Z → FileMetaData → VersionEdit → VersionEdit) fss e :
  add_files (λ l n s x y, push l (NewFileMeta n s x y)) fss e =
  foldl (λ e p, push p.1 p.2 e) e ((λ p, (p.1, stored p.2)) <$> listed fss).
Proof.
  unfold add_files, listed. rewrite foldl_fmap, <- foldl_join.
  change (imap (λ i fs, pair (Z.of_nat i) <$> fs) fss)
    with (imap (λ n, (λ l : Z * list FileMetaData, pair l.1 <$> l.2) ∘ (λ fs, (Z.of_nat n, fs))) fss).
  rewrite <- fmap_imap, foldl_fmap. revert e. induction (imap _ fss) as [|l ls IH]; intros e; cbn; [done|].
  by rewrite foldl_fmap, IH.
Qed.

(** The compaction pointers that are set. *)
Definition set_pointers (ps : list bytes) : list (Z * bytes) := filter (λ p, p.2 ≠ []) (imap (λ i p, (Z.of_nat i, p)) ps).

Lemma add_pointers_set (set : Z → bytes → VersionEdit → VersionEdit) ps e :
  add_pointers set ps e = foldl (λ e p, set p.1 p.2 e) e (set_pointers ps).
Proof.
  unfold add_pointers, set_pointers. revert e. induction (imap _ ps) as [|[i p] l IH]; intros e; cbn [foldl fst snd]; [done|].
  rewrite filter_cons. cbn. destruct p; case_decide; try done; apply IH.
Qed.

Lemma set_pointers_nil n : set_pointers (replicate n []) = [].
Proof.
  unfold set_pointers. destruct (filter _ _) as [|[i p] l] eqn:E; [done|]. exfalso.
  assert ((i, p) ∈ filter (λ p : Z * bytes, p.2 ≠ []) (imap (λ i p, (Z.of_nat i, p)) (replicate n ([] : bytes)))) as Hin by (rewrite E; by left).
  apply list_elem_of_filter in Hin as [Hp (j & y & [= -> ->] & Hy)%elem_of_lookup_imap]. apply lookup_replicate in Hy as [-> _]. done.
Qed.

(** Recovering the pointers: [assign] one after the other. *)
Definition put_all (ps : list bytes) (l : list (Z * bytes)) : list bytes := foldl (λ ps p, <[Z.to_nat p.1 := p.2]> ps) ps l.

Lemma put_all_length l ps : length (put_all ps l) = length ps.
Proof. revert ps. induction l as [|p l IH]; intros ps; cbn; [done|]. unfold put_all in IH. by rewrite IH, length_insert. Qed.

Lemma assign_all ps l : Forall (λ p : Z * bytes, 0 ≤ p.1 < len ps ∧ p.2 ≠ []) l → fold_option (λ ps p, k ← Encode p.2; assign ps p.1 k) (Some ps) l = Some (put_all ps l).
Proof.
  unfold fold_option, put_all. revert ps. induction l as [|p l IH]; intros ps Hl; cbn [foldl]; [done|]. inversion_clear Hl as [|? ? [Hp Hne] Hl'].
  cbn [mbind option_bind]. assert (Encode p.2 = Some p.2) as -> by (by destruct (p.2)). cbn [mbind option_bind]. unfold assign at 2. rewrite bool_decide_true by done. apply IH. unfold len in *. by rewrite length_insert.
Qed.

Lemma put_all_agree l (x y : list bytes) :
  length x = length y → (∀ i, i ∉ Z.to_nat <$> l.*1 → x !! i = y !! i) → put_all x l = put_all y l.
Proof.
  revert x y. induction l as [|[j p] l IH]; intros x y Hlen Hag; cbn.
  { apply list_eq. intros i. apply Hag. cbn. apply not_elem_of_nil. }
  apply IH; [by rewrite !length_insert|]. intros i Hi. destruct (decide (i = Z.to_nat j)) as [->|Hne].
  - destruct (decide (Z.to_nat j < length x)%nat).
    + by rewrite !list_lookup_insert_eq by lia.
    + rewrite !lookup_ge_None_2; [done|rewrite length_insert; lia..].
  - rewrite !list_lookup_insert_ne by done. apply Hag. cbn. rewrite not_elem_of_cons. done.
Qed.

Lemma put_all_frame l ps i : i ∉ Z.to_nat <$> l.*1 → put_all ps l !! i = ps !! i.
Proof.
  revert ps. induction l as [|[j p] l IH]; intros ps Hi; cbn; [done|]. cbn in Hi. apply not_elem_of_cons in Hi as [Hne Hi].
  unfold put_all in IH. rewrite IH by done. by apply list_lookup_insert_ne.
Qed.

(** An edit that is applied twice moves the pointers once. *)
Lemma put_all_twice l ps : put_all (put_all ps l) l = put_all ps l.
Proof. apply put_all_agree; [apply put_all_length|]. intros i Hi. by apply put_all_frame. Qed.

Lemma put_set_pointers ps : put_all (replicate (length ps) []) (set_pointers ps) = ps.
Proof.
  assert (∀ k pre, length pre = k →
    put_all (pre ++ replicate (length ps) []) (filter (λ p : Z * bytes, p.2 ≠ []) (imap (λ i p, (Z.of_nat (k + i), p)) ps)) = pre ++ ps) as H.
  { induction ps as [|p ps IH]; intros k pre Hk; cbn [length replicate imap]; [done|].
    rewrite filter_cons. cbn [snd]. assert (∀ i q, (λ i q, (Z.of_nat (k + i), q)) (S i) q = (Z.of_nat (S k + i), q : bytes)) as Hs by (intros; f_equal; lia).
    replace (imap ((λ i q, (Z.of_nat (k + i), q)) ∘ S) ps) with (imap (λ i q, (Z.of_nat (S k + i), q : bytes)) ps)
      by (apply imap_ext; intros; unfold compose; by rewrite <- Hs).
    specialize (IH (S k) (pre ++ [p])). rewrite <- !app_assoc in IH. cbn in IH. case_decide as Hp.
    - cbn. rewrite Nat.add_0_r, Nat2Z.id, insert_app_r_alt by lia. rewrite Hk, Nat.sub_diag. cbn.
      apply IH. rewrite length_app. cbn. lia.
    - subst p. apply IH. rewrite length_app. cbn. lia. }
  apply (H 0%nat [] eq_refl).
Qed.

(** ** Lemmas: edits on disk are bytes *)

Definition record_bytes (r : EditRecord) : Prop :=
  match r with
  | RComparator name => bytes_ok name
  | RPointer p | RVPointer p => bytes_ok p.2
  | RNew p | RVNew p => bytes_ok (smallest p.2) ∧ bytes_ok (largest p.2)
  | _ => True
  end.

Lemma put_slice_bytes dst s : bytes_ok dst → bytes_ok s → slice32 s → bytes_ok (PutLengthPrefixedSlice dst s).
Proof.
  unfold slice32. intros Hd Hs Hl. unfold PutLengthPrefixedSlice, PutVarint32. pose proof (len_nonneg s).
  repeat apply Forall_app_2; [done| |done]. apply EncodeVarint32_ok. apply u32_range.
Qed.

Lemma put32_bytes dst v : bytes_ok dst → u32_ok v → bytes_ok (PutVarint32 dst v).
Proof. intros. apply Forall_app_2; [done|by apply EncodeVarint32_ok]. Qed.
Lemma put64_bytes dst v : bytes_ok dst → u64_ok v → bytes_ok (PutVarint64 dst v).
Proof. intros. apply Forall_app_2; [done|by apply EncodeVarint64_ok]. Qed.
#[local] Hint Resolve put_slice_bytes put32_bytes put64_bytes u32_range : edit_bytes.

Lemma put_record_bytes dst r : bytes_ok dst → record_ok r → record_bytes r → bytes_ok (put_record dst r).
Proof.
  intros Hd Hok Hr.
  assert (u32_ok kComparator ∧ u32_ok kLogNumber ∧ u32_ok kNextFileNumber ∧ u32_ok kLastSequence ∧ u32_ok kCompactPointer ∧ u32_ok kDeletedFile ∧
    u32_ok kNewFile ∧ u32_ok kPrevLogNumber ∧ u32_ok kCompactVPointer ∧ u32_ok kDeletedVFile ∧ u32_ok kNewVFile ∧ u32_ok kDependency)
    as (?&?&?&?&?&?&?&?&?&?&?&?) by (repeat split; done).
  destruct r; cbn [put_record record_ok record_bytes] in *; unfold put_number, put_pointer, put_deleted, put_file, put_dependency in *;
    unfold pointer_ok, deleted_ok, file_ok, key32 in *; destruct_and?; eauto 8 with edit_bytes.
Qed.

Lemma EncodeFields_bytes e deps :
  edit_ok e → deps ≡ₚ map_to_list (dep_ e) → Forall record_bytes (records e []) → bytes_ok (EncodeFields e deps []).
Proof.
  intros [Hrec _ _ _ Hlk] Hdeps H. rewrite EncodeFields_records.
  assert (Forall (λ r, record_ok r ∧ record_bytes r) (records e deps)) as Hr.
  { apply Forall_and. split.
    - apply records_ok_app. split; [done|]. apply Forall_fmap. rewrite Hdeps. apply Forall_forall.
      intros [x p] Hin%elem_of_map_to_list. exact (Hlk _ _ Hin).
    - unfold records in *. rewrite !Forall_app in *. rewrite !Forall_fmap in *. intuition. by apply Forall_true. }
  assert (bytes_ok []) as Hnil by constructor. revert Hnil. generalize ([] : bytes) as dst.
  induction Hr as [|r rs [Hr Hb] _ IH]; intros dst Hd; cbn; [done|]. by apply IH, put_record_bytes.
Qed.

Lemma replay_total deps acc : DepProofs.acyclic acc → ∃ acc', ReplayDependencies deps acc = Some acc' ∧ DepProofs.acyclic acc'.
Proof.
  unfold ReplayDependencies. revert acc. induction deps as [|p deps IH]; intros acc Ha; cbn [foldl]; [by exists acc|].
  cbn [mbind option_bind]. destruct (DepProofs.dep_SetParent_total p.2 p.1 acc Ha) as (m & -> & Hm). by apply IH.
Qed.

(** ** Lemmas: a recovering builder follows the store *)

(** Rebuilding levels from the list of their files. *)
Lemma snapshot_levels c dom (HC : ComparatorLaws dom c) meta fss :
  Forall (Forall (VersionSet.known dom meta)) fss →
  ∃ ls, ApplyLevels c (replicate (length fss) NewLevelState) [] (listed fss) = Some ls ∧ length ls = length fss ∧
    Forall (λ st, good c dom meta (added_files st)) ls ∧ (Forall (good c dom meta) fss → Forall2 (tracks c dom meta) ls fss).
Proof.
  intros Hk. destruct (ApplyLevels_ok c dom HC meta (replicate (length fss) NewLevelState) [] (listed fss)) as (ls & Hls & Hlen & Hstep).
  { constructor. }
  { apply listed_Forall. intros i fs f Hi Hf. cbn. unfold len. rewrite length_replicate. split; [apply lookup_lt_Some in Hi; lia|].
    rewrite Forall_forall in Hk. specialize (Hk fs (list_elem_of_lookup_2 _ _ _ Hi)). rewrite Forall_forall in Hk. by apply Hk. }
  { apply new_levels_good. }
  rewrite length_replicate in Hlen. exists ls. split; [done|]. split; [done|].
  assert (∀ i st, ls !! i = Some st → level_step c dom meta [] (listed fss) (Z.of_nat i) NewLevelState st) as Hst.
  { intros i st Hi. destruct (Hstep i NewLevelState) as (st' & Hi' & Hs); [|congruence].
    apply lookup_replicate_2. apply lookup_lt_Some in Hi. lia. }
  split; [apply Forall_lookup; intros i st Hi; by apply Hst in Hi as (_ & _ & ?)|].
  intros Hg. apply Forall2_same_length_lookup_2; [done|]. intros i st fs Hi Hf. destruct (Hst i st Hi) as (Hd & Ha & Hga).
  apply (tracks_intro c dom HC); [done| |].
  - rewrite Forall_forall in Hg. apply Hg. by eapply list_elem_of_lookup_2.
  - intros f. rewrite Ha, listed_elem, Hf. cbn. rewrite Hd. cbn. rewrite elem_of_nil, elem_of_nil, elem_of_empty. tauto.
Qed.

Definition mem_sync (f : bytes) : bytes * bool := (f, true).

Lemma AddRecord_mem_ok w slice w' ok : AddRecord Log.mem_Append Log.mem_Flush w slice = Some (w', ok) → ok = true.
Proof.
  unfold AddRecord. generalize (length slice + 2)%nat as fuel. intros fuel. generalize true at 1 as begin. intros begin. revert w slice begin.
  induction fuel as [|fuel IH]; intros w slice begin; cbn [AddRecord_loop]; [done|]. unfold EmitPhysicalRecord. cbn [Log.mem_Append Log.mem_Flush andb].
  case_match; [apply IH|by intros [= _ <-]].
Qed.

Lemma foldl_None {A S} (step : S → A → option S) (l : list A) : foldl (λ s x, s ← s; step s x) None l = None.
Proof. by induction l. Qed.

Section follow.

Context (NDEBUG : bool) (MOD : Z) (user_name : bytes) (udom : bytes → Prop) (user : Comparator) (HL : ComparatorLaws udom user).
Context (Hud : ∀ u, udom u → bytes_ok u).
(** The tables and the value tables by their numbers. *)
Context (meta vmeta : Z → FileMetaData).
Context (dep_iter : gmap Z Z → list (Z * Z)) (Hiter : ∀ m, dep_iter m ≡ₚ map_to_list m).

Abbreviation ic := (InternalKeyComparator.comparator user).
Abbreviation idom := (ikey_ok udom).
Abbreviation nv := (num_vlevels MOD).

Definition vcomparator : Comparator := if MOD =? 10 then VKey.comparator else ic.
Definition vdom : bytes → Prop := if MOD =? 10 then vkey_ok else idom.

#[local] Instance ic_laws : ComparatorLaws idom ic.
Proof. by apply internal_laws. Qed.
#[local] Instance vc_laws : ComparatorLaws vdom vcomparator.
Proof. unfold vdom, vcomparator. destruct (MOD =? 10); apply _. Qed.

Abbreviation known := (known idom meta).
Abbreviation vknown := (VersionSet.known vdom vmeta).

(** An edit without its dependencies: what decoding keeps. *)
Definition same_lists (e e' : VersionEdit) : Prop :=
  compact_pointers_ e = compact_pointers_ e' ∧ VersionEdit.compact_vpointers_ e = VersionEdit.compact_vpointers_ e' ∧
  deleted_files_ e = deleted_files_ e' ∧ deleted_vfiles_ e = deleted_vfiles_ e' ∧
  new_files_ e = new_files_ e' ∧ new_vfiles_ e = new_vfiles_ e'.

Definition seek_files (e : VersionEdit) : list (Z * FileMetaData) := map (λ p, (p.1, with_seeks p.2)) (new_files_ e).

Lemma Apply_split edit deps b :
  Apply MOD user edit deps b =
    ('(ps, vps) ← ApplyPointers edit b;
     ls ← ApplyLevels ic (levels_ b) (deleted_files_ edit) (seek_files edit);
     vls ← ApplyLevels vcomparator (vlevels_ b) (deleted_vfiles_ edit) (new_vfiles_ edit);
     dep ← ReplayDependencies deps (cur_dep_ b);
     Some {| levels_ := ls; vlevels_ := vls; cur_dep_ := dep; b_compact_pointer_ := ps; b_compact_vpointers_ := vps |}).
Proof.
  assert (vcompare MOD user = Compare vcomparator) as Ev by (unfold vcompare, vcomparator; by destruct (MOD =? 10)).
  unfold Apply, ApplyLevels. rewrite Ev. fold (seek_files edit). destruct (ApplyPointers edit b) as [[ps vps]|]; [|done]. cbn [mbind option_bind].
  destruct (fold_option delete_file (Some (levels_ b)) (deleted_files_ edit)) as [ls|]; [|done]. cbn [mbind option_bind].
  destruct (fold_option delete_file (Some (vlevels_ b)) (deleted_vfiles_ edit)) as [vls|]; cbn [mbind option_bind].
  - by destruct (fold_option (add_file _) (Some ls) (seek_files edit)).
  - by destruct (fold_option (add_file _) (Some ls) (seek_files edit)).
Qed.

(** The builder stands for the version [v] and the pointers [ps]. *)
Record follows (b : Builder) (v : Version) (ps : list bytes) : Prop := {
  fo_levels : Forall2 (tracks ic idom meta) (levels_ b) (files_ v);
  fo_length : length (levels_ b) = Z.to_nat kNumLevels;
  fo_vgood : Forall (λ st, good vcomparator vdom vmeta (added_files st)) (vlevels_ b);
  fo_vlevels : MOD = 10 → Forall2 (tracks vcomparator vdom vmeta) (vlevels_ b) (vfiles_ v);
  fo_vlength : length (vlevels_ b) = nv;
  fo_dep : DepProofs.acyclic (cur_dep_ b);
  fo_pointers : b_compact_pointer_ b = ps;
  fo_plength : length ps = Z.to_nat kNumLevels
}.

(** An edit that the store may log in the state [vs]: its levels exist, its new
    files are new to their levels, it moves no value pointer. *)
Record edit_fits (vs : VersionSet (F := bytes)) (e : VersionEdit) : Prop := {
  ef_ok : edit_ok e;
  ef_bytes : Forall record_bytes (records e []);
  ef_counters : u64_ok (next_file_number_ vs) ∧ u64_ok (vs_last_sequence_ vs) ∧ u64_ok (vs_log_number_ vs) ∧ u64_ok (vs_prev_log_number_ vs);
  ef_name : comparator_ e = None ∨ comparator_ e = Some user_name;
  ef_vpointers : VersionEdit.compact_vpointers_ e = [];
  ef_new : Forall (λ p, known (with_seeks p.2) ∧ with_seeks p.2 ∉ default [] (files_ (current_ vs) !! Z.to_nat p.1)) (new_files_ e);
  ef_vdeleted : Forall (λ p, p.1 < Z.of_nat nv) (deleted_vfiles_ e);
  ef_vnew : Forall (λ p, p.1 < Z.of_nat nv ∧ vknown p.2 ∧ p.2 ∉ default [] (vfiles_ (current_ vs) !! Z.to_nat p.1)) (new_vfiles_ e)
}.

(** The ranges that [edit_ok] gives. *)
Lemma edit_ranges e : edit_ok e →
  Forall pointer_ok (compact_pointers_ e) ∧ Forall deleted_ok (deleted_files_ e) ∧ Forall deleted_ok (deleted_vfiles_ e) ∧
  Forall file_ok (new_files_ e) ∧ Forall file_ok (new_vfiles_ e).
Proof. intros [Hrec _ _ _ _]. unfold records in Hrec. rewrite !Forall_app, !Forall_fmap in Hrec. tauto. Qed.

Lemma ApplyPointers_ok e b :
  edit_ok e → VersionEdit.compact_vpointers_ e = [] → length (b_compact_pointer_ b) = Z.to_nat kNumLevels →
  ApplyPointers e b = Some (put_all (b_compact_pointer_ b) (compact_pointers_ e), b_compact_vpointers_ b).
Proof.
  intros He Hv Hlen. unfold ApplyPointers. rewrite assign_all.
  - cbn [mbind option_bind]. by rewrite Hv.
  - destruct (edit_ranges e He) as [Hp _]. eapply Forall_impl; [exact Hp|]. intros p [Hl [Hne _]].
    split; [|done]. unfold level_ok, kNumLevels, len in *. rewrite Hlen. cbn. lia.
Qed.

(** The levels of the tables, and of the value tables, in one step. *)
Lemma ApplyLevels_fits vs e (ls vls : list LevelState) :
  edit_fits vs e → length ls = Z.to_nat kNumLevels → length vls = nv →
  Forall (λ p, 0 ≤ p.1 < len ls) (deleted_files_ e) ∧
  Forall (λ p, 0 ≤ p.1 < len ls ∧ known p.2 ∧ p.2 ∉ default [] (files_ (current_ vs) !! Z.to_nat p.1)) (seek_files e) ∧
  Forall (λ p, 0 ≤ p.1 < len vls) (deleted_vfiles_ e) ∧
  Forall (λ p, 0 ≤ p.1 < len vls ∧ vknown p.2 ∧ p.2 ∉ default [] (vfiles_ (current_ vs) !! Z.to_nat p.1)) (new_vfiles_ e).
Proof.
  intros [He _ _ _ _ Hn Hvd Hvn] Hl Hvl. destruct (edit_ranges e He) as (_ & Hd & Hvd' & Hf & Hvf).
  unfold len. rewrite Hl, Hvl. unfold seek_files. rewrite Forall_map. rewrite !Forall_forall in *.
  unfold deleted_ok, file_ok, level_ok in *. split_and!; intros p Hp; cbn.
  - destruct (Hd p Hp). unfold kNumLevels in *. lia.
  - destruct (Hf p Hp) as [? _], (Hn p Hp). unfold kNumLevels in *. split; [lia|done].
  - destruct (Hvd' p Hp). pose proof (Hvd p Hp) as Hx. cbn in Hx. lia.
  - destruct (Hvf p Hp) as [? _], (Hvn p Hp) as (? & ? & ?). split; [lia|done].
Qed.

Lemma ApplyLevels_length c ls dels adds ls' : ApplyLevels c ls dels adds = Some ls' → length ls' = length ls.
Proof.
  assert (∀ A (step : list LevelState → A → option (list LevelState)) items l l',
    (∀ l x l', step l x = Some l' → length l' = length l) → fold_option step (Some l) items = Some l' → length l' = length l) as Hfold.
  { intros A step items. unfold fold_option. induction items as [|x items IH]; intros l l' Hs; cbn [foldl]; [by intros [= <-]|].
    cbn [mbind option_bind]. destruct (step l x) as [l1|] eqn:E; [|by rewrite foldl_None]. intros H. rewrite (IH l1 l' Hs H). by eapply Hs. }
  assert (∀ (l : list LevelState) i g l', update l i g = Some l' → length l' = length l) as Hu.
  { intros l i g l'. unfold update, assign. destruct (l !! _); [|done]. cbn [mbind option_bind]. case_bool_decide; [|done]. intros [= <-]. by rewrite length_insert. }
  unfold ApplyLevels. intros (l1 & H1 & H2)%bind_Some. apply Hfold in H1; [|intros *; apply Hu]. apply Hfold in H2; [|intros *; apply Hu]. congruence.
Qed.

Lemma SaveTo_files b base bd cd v :
  SaveTo NDEBUG MOD user b base bd cd = Some v →
  files_ v = SaveLevels (λ st fs, SaveLevel (BySmallestKey (Compare ic)) st fs (added_files st)) (levels_ b) (files_ base) ∧ NDEBUG || no_overlap user (files_ v) = true ∧
  (MOD = 10 → vfiles_ v = SaveLevels (λ st fs, SaveLevel (BySmallestKey (Compare vcomparator)) st fs (added_files st)) (vlevels_ b) (vfiles_ base)).
Proof.
  unfold SaveTo. destruct (NDEBUG || no_overlap user _) eqn:Ho; [|done]. cbn [negb]. intros (dep & _ & [= <-])%bind_Some. cbn [files_ vfiles_]. split; [done|]. split; [exact Ho|].
  intros E. unfold vcompare, vcomparator. rewrite E. cbn. done.
Qed.

(** The new version from the parts of the edit. *)
Lemma NextVersion_parts e (vs : VersionSet (F := bytes)) v ps vps :
  NextVersion NDEBUG MOD user dep_iter e vs = Some (v, ps, vps) → edit_ok e → VersionEdit.compact_vpointers_ e = [] →
  length (compact_pointer_ vs) = Z.to_nat kNumLevels →
  ∃ news vnews,
    ApplyLevels ic (replicate (Z.to_nat kNumLevels) NewLevelState) (deleted_files_ e) (seek_files e) = Some news ∧
    ApplyLevels vcomparator (replicate nv NewLevelState) (deleted_vfiles_ e) (new_vfiles_ e) = Some vnews ∧
    files_ v = SaveLevels (λ st fs, SaveLevel (BySmallestKey (Compare ic)) st fs (added_files st)) news (files_ (current_ vs)) ∧ NDEBUG || no_overlap user (files_ v) = true ∧
    (MOD = 10 → vfiles_ v = SaveLevels (λ st fs, SaveLevel (BySmallestKey (Compare vcomparator)) st fs (added_files st)) vnews (vfiles_ (current_ vs))) ∧
    ps = put_all (compact_pointer_ vs) (compact_pointers_ e) ∧ vps = compact_vpointers_ vs.
Proof.
  unfold NextVersion. rewrite Apply_split. intros H He Hv Hlen. rewrite ApplyPointers_ok in H by done. cbn [mbind option_bind NewBuilder levels_ vlevels_ cur_dep_] in H.
  destruct (ApplyLevels ic _ _ _) as [news|]; [|done]. cbn [mbind option_bind] in H.
  destruct (ApplyLevels vcomparator _ _ _) as [vnews|]; [|done]. cbn [mbind option_bind] in H.
  destruct (ReplayDependencies _ _) as [dep|]; [|done]. cbn [mbind option_bind] in H.
  destruct (SaveTo NDEBUG MOD user _ _ _ _) as [v'|] eqn:E; [|done]. injection H as -> <- <-.
  apply SaveTo_files in E as (Ef & Eo & Ev). exists news, vnews. done.
Qed.

(** The builder follows the version through an edit, whatever the dependencies. *)
Lemma Apply_follows b vs e e' deps v ps ps' vps :
  follows b (current_ vs) ps → edit_fits vs e → same_lists e' e → length (compact_pointer_ vs) = Z.to_nat kNumLevels →
  NextVersion NDEBUG MOD user dep_iter e vs = Some (v, ps', vps) → put_all ps (compact_pointers_ e) = ps' →
  ∃ b', Apply MOD user e' deps b = Some b' ∧ follows b' v ps' ∧ b_compact_vpointers_ b' = b_compact_vpointers_ b.
Proof.
  intros [Hls Hlen Hvg Hvls Hvlen Hdep Hps Hplen] Hfits (Ep & Evp & Ed & Evd & Ef & Evf) Hlen' Hnext Hput.
  destruct (NextVersion_parts _ _ _ _ _ Hnext (ef_ok _ _ Hfits) (ef_vpointers _ _ Hfits) Hlen') as (news & vnews & Hn & Hvn & Hfv & _ & Hvv & _ & _).
  destruct (ApplyLevels_fits vs e (levels_ b) (vlevels_ b) Hfits Hlen Hvlen) as (Hd & Ha & Hvd & Hva).
  rewrite Apply_split.
  assert (ApplyPointers e' b = ApplyPointers e b) as -> by (unfold ApplyPointers; by rewrite Ep, Evp).
  rewrite ApplyPointers_ok by (apply Hfits || congruence). cbn [mbind option_bind].
  unfold seek_files. rewrite Ed, Evd, Ef, Evf. fold (seek_files e).
  rewrite <- Hlen in Hn. rewrite <- Hvlen in Hvn.
  destruct (follow_edit ic idom ic_laws meta _ _ _ _ _ Hls Hd Ha Hn) as (ls' & Hls' & Htr). rewrite Hls'. cbn [mbind option_bind].
  destruct (ApplyLevels_ok vcomparator vdom vc_laws vmeta (vlevels_ b) _ (new_vfiles_ e) Hvd) as (vls' & Hvls' & Hvlen' & Hvstep).
  { eapply Forall_impl; [exact Hva|]. cbn. tauto. }
  { done. }
  rewrite Hvls'. cbn [mbind option_bind]. destruct (replay_total deps (cur_dep_ b) Hdep) as (dep & -> & Hdep'). cbn [mbind option_bind].
  assert (length ls' = length (levels_ b)) as Hlen2.
  { rewrite (Forall2_length _ _ _ Htr). unfold SaveLevels. rewrite length_imap. by apply ApplyLevels_length in Hn as ->; rewrite length_replicate. }
  eexists. split; [done|]. split; [|done]. rewrite <- Hfv in Htr. split; cbn; [done|congruence| | |congruence|done|congruence|].
  - apply Forall_lookup. intros i st' Hi. assert (i < length (vlevels_ b))%nat as Hi' by (apply lookup_lt_Some in Hi; lia).
    destruct (lookup_lt_is_Some_2 (vlevels_ b) i Hi') as [st Hst]. destruct (Hvstep i st Hst) as (x & Hx & (_ & _ & Hg)). rewrite Hi in Hx. by injection Hx as <-.
  - intros H10. rewrite (Hvv H10).
    destruct (follow_edit vcomparator vdom vc_laws vmeta _ _ _ _ _ (Hvls H10) Hvd Hva Hvn) as (x & Hx & Hvtr). rewrite Hvls' in Hx. by injection Hx as <-.
  - subst ps'. by rewrite put_all_length.
Qed.

(** ** Lemmas: the snapshot of a version set *)

Context (Hname : slice32 user_name ∧ bytes_ok user_name).

Definition file_fits (f : FileMetaData) : Prop :=
  u64_ok (number f) ∧ u64_ok (file_size f) ∧ key32 (smallest f) ∧ key32 (largest f) ∧ bytes_ok (smallest f) ∧ bytes_ok (largest f).

(** A state whose version can be written: its files are known by their
    numbers and have spent no seek. *)
Record snapshot_fits (vs : VersionSet (F := bytes)) : Prop := {
  sf_levels : length (files_ (current_ vs)) = Z.to_nat kNumLevels;
  sf_files : Forall (λ fs, good ic idom meta fs ∧ Forall (λ f, file_fits f ∧ with_seeks (stored f) = f) fs) (files_ (current_ vs));
  sf_vlevels : length (vfiles_ (current_ vs)) = nv;
  sf_vfiles : Forall (Forall (λ f, vknown f ∧ file_fits f ∧ stored f = f)) (vfiles_ (current_ vs));
  sf_vgood : MOD = 10 → Forall (good vcomparator vdom vmeta) (vfiles_ (current_ vs));
  sf_pointers : length (compact_pointer_ vs) = Z.to_nat kNumLevels ∧ Forall (λ p, slice32 p ∧ bytes_ok p) (compact_pointer_ vs);
  sf_vpointers : compact_vpointers_ vs = replicate nv []
}.

Definition stored_list (fss : list (list FileMetaData)) : list (Z * FileMetaData) := (λ p, (p.1, stored p.2)) <$> listed fss.

Lemma SnapshotEdit_eq vs : compact_vpointers_ vs = replicate nv [] →
  SnapshotEdit (F := bytes) user_name vs = with_files (set_pointers (compact_pointer_ vs)) [] [] []
    (stored_list (files_ (current_ vs))) (stored_list (vfiles_ (current_ vs))) ∅ (SetComparatorName user_name NewVersionEdit).
Proof.
  intros Hv. unfold SnapshotEdit. rewrite !add_pointers_set, Hv, set_pointers_nil. cbn [foldl].
  rewrite foldl_pointers. unfold AddFile, AddVFile.
  rewrite (add_files_listed push_new_file), foldl_files, (add_files_listed push_new_vfile), foldl_vfiles. done.
Qed.

Lemma nv_levels : (nv ≤ Z.to_nat kNumLevels)%nat.
Proof. unfold num_vlevels. destruct (MOD =? 10); unfold kNumLevels; lia. Qed.

Lemma stored_list_Forall (P : Z * FileMetaData → Prop) fss :
  (∀ i fs f, fss !! i = Some fs → f ∈ fs → P (Z.of_nat i, stored f)) → Forall P (stored_list fss).
Proof. intros H. unfold stored_list. apply Forall_fmap, listed_Forall. intros i fs f Hi Hf. cbn. by eapply H. Qed.

Lemma stored_fits i (fss : list (list FileMetaData)) fs f :
  fss !! i = Some fs → (length fss ≤ Z.to_nat kNumLevels)%nat → file_fits f →
  record_ok (RNew (Z.of_nat i, stored f)) ∧ record_bytes (RNew (Z.of_nat i, stored f)).
Proof.
  intros Hi Hlen (? & ? & ? & ? & ? & ?). apply lookup_lt_Some in Hi. unfold kNumLevels in *. cbn. unfold file_ok, level_ok, kNumLevels. cbn.
  split; [|done]. split; [lia|done].
Qed.

Lemma snapshot_edit_ok vs : snapshot_fits vs →
  edit_ok (SnapshotEdit user_name vs) ∧ Forall record_bytes (records (SnapshotEdit user_name vs) []).
Proof.
  intros [Hl Hf Hvl Hvf _ [Hpl Hp] Hvp]. rewrite SnapshotEdit_eq by done.
  assert (Forall (λ r, record_ok r ∧ record_bytes r) (records (with_files (set_pointers (compact_pointer_ vs)) [] [] []
    (stored_list (files_ (current_ vs))) (stored_list (vfiles_ (current_ vs))) ∅ (SetComparatorName user_name NewVersionEdit)) [])) as Hrec.
  { unfold records, counters. cbn [with_files SetComparatorName NewVersionEdit comparator_ log_number_ prev_log_number_ VersionEdit.next_file_number_
      last_sequence_ compact_pointers_ VersionEdit.compact_vpointers_ deleted_files_ deleted_vfiles_ new_files_ new_vfiles_ with_counters opt_records].
    rewrite !Forall_app, !Forall_fmap. split_and!; try (by repeat constructor).
    - unfold opt_records. cbn. repeat constructor; apply Hname.
    - apply Forall_forall. intros [i p] [Hne (j & q & [= -> ->] & Hj)%elem_of_lookup_imap]%list_elem_of_filter. cbn in Hne |- *. rewrite Forall_forall in Hp.
      destruct (Hp q (list_elem_of_lookup_2 _ _ _ Hj)). apply lookup_lt_Some in Hj. unfold pointer_ok, key32, level_ok, kNumLevels in *. cbn. split; [|done]. split; [lia|done].
    - apply stored_list_Forall. intros i fs f Hi Hin. apply (stored_fits _ _ _ _ Hi); [lia|].
      rewrite Forall_forall in Hf. destruct (Hf fs (list_elem_of_lookup_2 _ _ _ Hi)) as [_ Hx]. rewrite Forall_forall in Hx. by apply Hx.
    - apply stored_list_Forall. intros i fs f Hi Hin. apply (stored_fits _ _ _ _ Hi); [pose proof nv_levels; lia|].
      rewrite Forall_forall in Hvf. pose proof (Hvf fs (list_elem_of_lookup_2 _ _ _ Hi)) as Hx. rewrite Forall_forall in Hx. by apply Hx. }
  apply Forall_and in Hrec as [Hok Hb]. split; [|done]. split; [done|constructor|constructor|apply DepProofs.acyclic_empty|apply map_Forall_empty].
Qed.

Lemma listed_map (g : FileMetaData → FileMetaData) fss :
  Forall (Forall (λ f, g f = f)) fss → (λ p, (p.1, g p.2)) <$> listed fss = listed fss.
Proof.
  intros H. assert (Forall (λ p, (p.1, g p.2) = p) (listed fss)) as Hl.
  { apply listed_Forall. intros i fs f Hi Hf. cbn. rewrite Forall_forall in H. specialize (H fs (list_elem_of_lookup_2 _ _ _ Hi)).
    rewrite Forall_forall in H. by rewrite (H f Hf). }
  induction Hl as [|p l Hp _ IH]; [done|]. cbn. by rewrite Hp, IH.
Qed.

(** An empty builder that applies the snapshot stands for the version. *)
Lemma snapshot_follows vs e' deps : snapshot_fits vs → same_lists e' (SnapshotEdit user_name vs) →
  ∃ b', Apply MOD user e' deps (NewBuilder MOD (replicate (Z.to_nat kNumLevels) []) (replicate nv [])) = Some b' ∧
    follows b' (current_ vs) (compact_pointer_ vs) ∧ b_compact_vpointers_ b' = replicate nv [].
Proof.
  intros Hvs Hsame. destruct (snapshot_edit_ok vs Hvs) as [He _]. destruct Hvs as [Hl Hf Hvl Hvf Hvg [Hpl Hp] Hvp].
  rewrite SnapshotEdit_eq in Hsame, He by done. destruct Hsame as (Ep & Evp & Ed & Evd & Ef & Evf). cbn in Ep, Evp, Ed, Evd, Ef, Evf.
  rewrite Apply_split. unfold ApplyPointers. rewrite Ep, Evp. cbn [NewBuilder b_compact_pointer_ b_compact_vpointers_ levels_ vlevels_ cur_dep_].
  rewrite assign_all.
  2:{ destruct (edit_ranges _ He) as [Hr _]. cbn in Hr. eapply Forall_impl; [exact Hr|]. intros p [Hlv [Hne _]]. by split. }
  assert (put_all (replicate (Z.to_nat kNumLevels) []) (set_pointers (compact_pointer_ vs)) = compact_pointer_ vs) as -> by (rewrite <- Hpl; apply put_set_pointers).
  cbn [mbind option_bind imap fold_option foldl].
  unfold seek_files. rewrite Ed, Evd, Ef, Evf.
  assert (map (λ p : Z * FileMetaData, (p.1, with_seeks p.2)) (stored_list (files_ (current_ vs))) = listed (files_ (current_ vs))) as ->.
  { unfold stored_list. rewrite map_map. apply (listed_map (λ f, with_seeks (stored f))). eapply Forall_impl; [exact Hf|].
    intros fs [_ Hs]. eapply Forall_impl; [exact Hs|]. by intros f [_ ?]. }
  assert (stored_list (vfiles_ (current_ vs)) = listed (vfiles_ (current_ vs))) as ->.
  { apply (listed_map stored). eapply Forall_impl; [exact Hvf|]. intros fs Hs. eapply Forall_impl; [exact Hs|]. by intros f (_ & _ & ?). }
  destruct (snapshot_levels ic idom ic_laws meta (files_ (current_ vs))) as (ls & Hls & Hlen & _ & Htr).
  { eapply Forall_impl; [exact Hf|]. by intros fs [[? _] _]. }
  destruct (snapshot_levels vcomparator vdom vc_laws vmeta (vfiles_ (current_ vs))) as (vls & Hvls & Hvlen & Hvgood & Hvtr).
  { eapply Forall_impl; [exact Hvf|]. intros fs Hs. eapply Forall_impl; [exact Hs|]. by intros f (? & _). }
  rewrite Hl in Hls. rewrite Hvl in Hvls. rewrite Hls. cbn [mbind option_bind]. rewrite Hvls. cbn [mbind option_bind].
  destruct (replay_total deps ∅ DepProofs.acyclic_empty) as (dep & -> & Hdep). cbn [mbind option_bind].
  eexists. split; [done|]. split; [|done]. split; cbn; [|congruence|done| |congruence|done|done|done].
  - apply Htr. eapply Forall_impl; [exact Hf|]. by intros fs [? _].
  - intros H10. by apply Hvtr, Hvg.
Qed.

(** ** Lemmas: replaying one record *)

Abbreviation MRecoverEdit := (RecoverEdit MOD user user_name dep_iter).

Lemma RecoverEdit_ok e st (P : Builder → Prop) :
  edit_ok e → comparator_ e = None ∨ comparator_ e = Some user_name →
  (∀ e' deps, same_lists e' e → ∃ b', Apply MOD user e' deps (rs_builder st) = Some b' ∧ P b') →
  ∃ b', P b' ∧ MRecoverEdit (EncodeFields e (dep_iter (dep_ e)) []) st = Some {|
    rs_status := None; rs_builder := b'; rs_log_number := orelse (log_number_ e) (rs_log_number st);
    rs_prev_log_number := orelse (prev_log_number_ e) (rs_prev_log_number st);
    rs_next_file := orelse (VersionEdit.next_file_number_ e) (rs_next_file st);
    rs_last_sequence := orelse (VersionEdit.last_sequence_ e) (rs_last_sequence st) |}.
Proof.
  intros He Hn Happ. destruct (decode_encoded e (dep_iter (dep_ e)) NewVersionEdit He (Hiter _) eq_refl) as (d & Hdec & _).
  cbn [NewVersionEdit compact_pointers_ VersionEdit.compact_vpointers_ app] in Hdec. unfold RecoverEdit. rewrite Hdec. cbn [mbind option_bind].
  set (e' := with_files _ _ _ _ _ _ d e). destruct (Happ e' (dep_iter (dep_ e'))) as (b' & Hb & HP); [done|].
  assert (comparator_ e' = comparator_ e) as -> by done.
  assert (match comparator_ e with Some name => if bool_decide (name = user_name) then None else Some WrongComparator | None => None end = None) as ->.
  { destruct Hn as [->| ->]; [done|]. by rewrite bool_decide_true. }
  rewrite Hb. exists b'. split; [done|]. done.
Qed.

(** The recovery stands where the store stood. *)
Record in_sync (st : RecoverState) (vs : VersionSet (F := bytes)) : Prop := {
  is_status : rs_status st = None;
  is_apart : NDEBUG || no_overlap user (files_ (current_ vs)) = true;
  is_follows : follows (rs_builder st) (current_ vs) (compact_pointer_ vs);
  is_vpointers : b_compact_vpointers_ (rs_builder st) = replicate nv [];
  is_log : rs_log_number st = Some (vs_log_number_ vs);
  is_prev : rs_prev_log_number st = Some (vs_prev_log_number_ vs);
  is_next : rs_next_file st = Some (next_file_number_ vs);
  is_last : rs_last_sequence st = Some (vs_last_sequence_ vs)
}.

Lemma FillCounters_eq e (vs : VersionSet (F := bytes)) :
  FillCounters e vs = with_counters (comparator_ e) (Some (default (vs_log_number_ vs) (log_number_ e)))
    (Some (default (vs_prev_log_number_ vs) (prev_log_number_ e))) (Some (next_file_number_ vs)) (Some (vs_last_sequence_ vs)) e.
Proof. unfold FillCounters. destruct e as [? [] [] ? ? ? ? ? ? ? ? ?]; done. Qed.

Lemma FillCounters_fits vs e : edit_fits vs e → edit_fits vs (FillCounters e vs).
Proof.
  intros [[Hrec Hd Hvd' Ha Hl] Hb Hc Hn Hv Hnew Hvd Hvn]. rewrite FillCounters_eq. split; try done. split; try done.
  - unfold records, counters in *. rewrite !Forall_app in *. cbn. destruct Hc as (? & ? & ? & ?). destruct Hrec as ((? & Hlog & Hprev & _ & _) & ?).
    split; [|done]. split; [done|]. rewrite !Forall_singleton. split; [|split; [|done]].
    + destruct (log_number_ e) as [n|]; [by inversion_clear Hlog|done].
    + destruct (prev_log_number_ e) as [n|]; [by inversion_clear Hprev|done].
  - unfold records, counters in *. rewrite !Forall_app in *. cbn. destruct Hb as ((? & _) & ?). split; [|done]. split; [done|]. by rewrite !Forall_singleton.
Qed.

(** ** Lemmas: logging an edit *)

(** Synchronising a file leaves its bytes. *)
Context (FSync : bytes → bytes * bool) (Hsync : ∀ f, (FSync f).1 = f).

Abbreviation MLogAndApply := (LogAndApply NDEBUG MOD user user_name dep_iter Log.mem_Append Log.mem_Flush FSync).

Lemma LogAndApply_inv e m g c vs vs1 :
  MLogAndApply e m g c vs = Some (vs1, None) →
  ∃ v ps vps log0 log1,
    NextVersion NDEBUG MOD user dep_iter (FillCounters e vs) vs = Some (v, ps, vps) ∧
    (descriptor_log_ vs = Some log0 ∨ descriptor_log_ vs = None ∧ ∃ f, m = Some f ∧
      WriteSnapshot user_name dep_iter Log.mem_Append Log.mem_Flush (with_log None ps vps vs) (NewWriter f 0) = Some (log0, true)) ∧
    AddRecord Log.mem_Append Log.mem_Flush log0 (EncodeFields (FillCounters e vs) (dep_iter (dep_ (FillCounters e vs))) []) = Some (log1, true) ∧
    vs1 = {| next_file_number_ := next_file_number_ vs; manifest_file_number_ := manifest_file_number_ vs;
      vs_last_sequence_ := vs_last_sequence_ vs; vs_log_number_ := default 0 (log_number_ (FillCounters e vs));
      vs_prev_log_number_ := default 0 (prev_log_number_ (FillCounters e vs)); descriptor_log_ := Some log1; current_ := v;
      compact_pointer_ := ps; compact_vpointers_ := vps |}.
Proof.
  unfold LogAndApply, FillEdit. destruct (NDEBUG || _); [|done]. cbn [mbind option_bind]. set (e' := FillCounters e vs). clearbody e'.
  intros ([[v ps] vps] & Hnext & H)%bind_Some. cbn [with_log descriptor_log_] in H.
  assert (∀ log : Log.Writer bytes, {| dest_ := (FSync (dest_ log)).1; block_offset_ := block_offset_ log |} = log) as Heta.
  { intros [d o]. cbn. by rewrite Hsync. }
  destruct (descriptor_log_ vs) as [log0|] eqn:Elog; cbn [mbind option_bind] in H.
  - destruct (EncodeTo e' (dep_iter (dep_ e')) []) as [record|] eqn:Er; [|done]. apply EncodeTo_Some in Er. cbn [mbind option_bind] in H. rewrite Er in H.
    destruct (AddRecord _ _ log0 _) as [[log1 ok]|] eqn:Ea; [|done]. cbn [mbind option_bind] in H.
    destruct ok; [|done]. destruct ((MOD =? 10) && negb g); [done|]. destruct (FSync (dest_ log1)) as [f sok] eqn:Es.
    destruct sok; [|done]. cbn in H. injection H as <-. exists v, ps, vps, log0, log1. split; [done|]. split; [by left|]. split; [done|].
    pose proof (Heta log1) as Hx. rewrite Es in Hx. cbn in Hx. by rewrite Hx.
  - destruct m as [f|]; [|done]. destruct (WriteSnapshot _ _ _ _ _ _) as [[log0 ok0]|] eqn:Ew; [|done]. cbn [mbind option_bind] in H.
    destruct ok0; [|done]. destruct (EncodeTo e' (dep_iter (dep_ e')) []) as [record|] eqn:Er; [|done]. apply EncodeTo_Some in Er. cbn [mbind option_bind] in H. rewrite Er in H.
    destruct (AddRecord _ _ log0 _) as [[log1 ok]|] eqn:Ea; [|done]. cbn [mbind option_bind] in H.
    destruct ok; [|done]. destruct ((MOD =? 10) && negb g); [done|]. destruct (FSync (dest_ log1)) as [f' sok] eqn:Es.
    destruct sok; [|done]. destruct c; [|done]. cbn in H. injection H as <-. exists v, ps, vps, log0, log1. split; [done|].
    split; [right; split; [done|]; by exists f|]. split; [done|].
    pose proof (Heta log1) as Hx. rewrite Es in Hx. cbn in Hx. by rewrite Hx.
Qed.

(** A call that fails on a manifest that was there leaves the same bytes in it
    as the call that succeeds. *)
Lemma LogAndApply_failed e m g c vs vs2 err log0 :
  MLogAndApply e m g c vs = Some (vs2, Some err) → descriptor_log_ vs = Some log0 →
  (∀ record log1 ok, AddRecord Log.mem_Append Log.mem_Flush log0 record = Some (log1, ok) → ok = true) →
  ∃ vsx, LogAndApply NDEBUG MOD user user_name dep_iter Log.mem_Append Log.mem_Flush mem_sync e m true true vs = Some (vsx, None) ∧
    descriptor_log_ vs2 = descriptor_log_ vsx ∧ current_ vs2 = current_ vs.
Proof.
  intros H Elog Hadd. unfold LogAndApply in *. destruct (FillEdit NDEBUG e vs) as [e'|]; [|done]. cbn [mbind option_bind] in *.
  destruct (NextVersion NDEBUG MOD user dep_iter e' vs) as [[[v ps] vps]|]; [|done]. cbn [mbind option_bind with_log descriptor_log_] in *. rewrite Elog in *.
  cbn [mbind option_bind] in *. destruct (EncodeTo e' (dep_iter (dep_ e')) []) as [record|]; [|done]. cbn [mbind option_bind] in *.
  destruct (AddRecord _ _ log0 record) as [[log1 ok]|] eqn:Ea; [|done]. apply Hadd in Ea as ->. cbn [mbind option_bind negb andb] in *. rewrite andb_false_r.
  eexists. split; [done|]. cbn [descriptor_log_ dest_]. destruct ((MOD =? 10) && negb g).
  - injection H as <- _. by destruct log1.
  - pose proof (Hsync (dest_ log1)) as Hx. destruct (FSync (dest_ log1)) as [f sok]. cbn in Hx. subst f. destruct sok; [done|]. injection H as <- _. by destruct log1.
Qed.

(** ** Histories *)

(** Between two edits the store hands out file and sequence numbers. *)
Definition at_counters (next last : Z) (vs : VersionSet (F := bytes)) : VersionSet := {|
  next_file_number_ := next; manifest_file_number_ := manifest_file_number_ vs; vs_last_sequence_ := last;
  vs_log_number_ := vs_log_number_ vs; vs_prev_log_number_ := vs_prev_log_number_ vs; descriptor_log_ := descriptor_log_ vs;
  current_ := current_ vs; compact_pointer_ := compact_pointer_ vs; compact_vpointers_ := compact_vpointers_ vs |}.

(** The states after each successful call of [LogAndApply], from [vs0] on; a
    new manifest starts as an empty file. *)
Inductive history (vs0 : VersionSet (F := bytes)) : list (VersionSet (F := bytes)) → Prop :=
  | history_nil : history vs0 []
  | history_step l next last e graph_saved current_set vs1 :
      history vs0 l →
      let vs := at_counters next last (default vs0 (list.last l)) in
      edit_fits vs e → MLogAndApply e (Some []) graph_saved current_set vs = Some (vs1, None) →
      history vs0 (l ++ [vs1]).

Definition start_state : RecoverState := {|
  rs_status := None; rs_builder := NewBuilder MOD (replicate (Z.to_nat kNumLevels) []) (replicate nv []);
  rs_log_number := None; rs_prev_log_number := None; rs_next_file := None; rs_last_sequence := None |}.

Definition replay (st : RecoverState) (records : list bytes) : option RecoverState :=
  foldl (λ st r, st ← st; MRecoverEdit r st) (Some st) records.

Lemma replay_app st a b : replay st (a ++ b) = (st ← replay st a; replay st b).
Proof. unfold replay. rewrite foldl_app. destruct (foldl _ (Some st) a); [done|]. by rewrite foldl_None. Qed.

(** What the manifest holds after a history. *)
Record manifest_ok (l : list (VersionSet (F := bytes))) (log : Log.Writer bytes) (snapshot : bytes) (edits : list bytes) : Prop := {
  mo_bytes : Forall bytes_ok (snapshot :: edits);
  mo_log : AddRecords Log.mem_Append Log.mem_Flush (NewWriter [] 0) (snapshot :: edits) = Some (log, true);
  mo_length : length edits = length l;
  mo_start : ∃ st, replay start_state [snapshot] = Some st ∧ rs_status st = None ∧ rs_next_file st = None;
  mo_sync k vs : l !! k = Some vs → ∃ st, replay start_state (snapshot :: take (S k) edits) = Some st ∧ in_sync st vs
}.

(** Replaying the record of an edit leads to the state after it. *)
Lemma sync_step st vs e v ps0 ps vps log1 :
  follows (rs_builder st) (current_ vs) ps0 → b_compact_vpointers_ (rs_builder st) = replicate nv [] →
  edit_fits vs e → length (compact_pointer_ vs) = Z.to_nat kNumLevels →
  NextVersion NDEBUG MOD user dep_iter (FillCounters e vs) vs = Some (v, ps, vps) → put_all ps0 (compact_pointers_ (FillCounters e vs)) = ps →
  ∃ st', MRecoverEdit (EncodeFields (FillCounters e vs) (dep_iter (dep_ (FillCounters e vs))) []) st = Some st' ∧
    in_sync st' {| next_file_number_ := next_file_number_ vs; manifest_file_number_ := manifest_file_number_ vs;
      vs_last_sequence_ := vs_last_sequence_ vs; vs_log_number_ := default 0 (log_number_ (FillCounters e vs));
      vs_prev_log_number_ := default 0 (prev_log_number_ (FillCounters e vs)); descriptor_log_ := Some log1; current_ := v;
      compact_pointer_ := ps; compact_vpointers_ := vps |}.
Proof.
  intros Hst Hvp Hfits%FillCounters_fits Hlen Hnext Hput.
  destruct (RecoverEdit_ok (FillCounters e vs) st (λ b, follows b v ps ∧ b_compact_vpointers_ b = replicate nv [])) as (b & [Hb Hbv] & Hr).
  { apply Hfits. }
  { apply Hfits. }
  { intros e' deps Hsame. destruct (Apply_follows _ vs _ e' deps _ _ _ _ Hst Hfits Hsame Hlen Hnext Hput) as (b' & ? & ? & ?).
    exists b'. split; [done|]. split; [done|congruence]. }
  destruct (NextVersion_parts _ _ _ _ _ Hnext (ef_ok _ _ Hfits) (ef_vpointers _ _ Hfits) Hlen) as (_ & _ & _ & _ & _ & Ho & _).
  eexists. split; [exact Hr|]. rewrite FillCounters_eq. by split.
Qed.

Lemma with_log_fits vs ps : snapshot_fits vs → length ps = Z.to_nat kNumLevels → Forall (λ p, slice32 p ∧ bytes_ok p) ps →
  snapshot_fits (with_log None ps (compact_vpointers_ vs) vs).
Proof. intros [? ? ? ? ? ? ?] ? ?. by split. Qed.

Lemma put_all_Forall (P : bytes → Prop) ps l : Forall P ps → Forall (λ p, P p.2) l → Forall P (put_all ps l).
Proof.
  intros Hp Hl. revert ps Hp. induction Hl as [|p l Hpl _ IH]; intros ps Hp; cbn; [done|]. by apply IH, Forall_insert.
Qed.

Lemma edit_pointers_ok e : edit_ok e → Forall record_bytes (records e []) → Forall (λ p, slice32 p.2 ∧ bytes_ok p.2) (compact_pointers_ e).
Proof.
  intros He Hb. destruct (edit_ranges e He) as [Hp _]. unfold records in Hb. rewrite !Forall_app, !Forall_fmap in Hb. destruct Hb as (_ & Hb & _).
  rewrite Forall_forall in *. intros p Hin. split; [by apply Hp|by apply (Hb p)].
Qed.

(** The first edit of a manifest comes after a snapshot. *)
Lemma first_edit vs0 next last e vs1 g c :
  descriptor_log_ vs0 = None → snapshot_fits vs0 → edit_fits (at_counters next last vs0) e →
  MLogAndApply e (Some []) g c (at_counters next last vs0) = Some (vs1, None) →
  ∃ log snapshot edit, descriptor_log_ vs1 = Some log ∧ manifest_ok [vs1] log snapshot [edit].
Proof.
  intros Hnone Hsnap Hfits HL1. set (vs := at_counters next last vs0) in *. pose proof (sf_pointers _ Hsnap) as [Hplen Hps].
  destruct (LogAndApply_inv _ _ _ _ _ _ HL1) as (v & ps & vps & log0 & log1 & Hnext & Hlog & Hadd & ->).
  pose proof (FillCounters_fits vs e Hfits) as Hfill.
  destruct (NextVersion_parts _ _ _ _ _ Hnext (ef_ok _ _ Hfill) (ef_vpointers _ _ Hfill) Hplen) as (_ & _ & _ & _ & _ & _ & _ & Eps & ->).
  destruct Hlog as [Hsome|(_ & f & [= <-] & Hw)]; [cbn in Hsome; congruence|].
  set (wl := with_log None ps (compact_vpointers_ vs) vs) in *.
  assert (snapshot_fits wl) as Hwl.
  { apply (with_log_fits vs); [by destruct Hsnap; split| |]; subst ps.
    - by rewrite put_all_length.
    - apply put_all_Forall; [done|]. apply edit_pointers_ok; apply Hfill. }
  destruct (snapshot_edit_ok wl Hwl) as [Hse Hsb].
  destruct (RecoverEdit_ok (SnapshotEdit user_name wl) start_state (λ b, follows b (current_ wl) ps ∧ b_compact_vpointers_ b = replicate nv [])) as (b & [Hb Hbv] & Hr).
  { done. }
  { right. by rewrite SnapshotEdit_eq by apply Hwl. }
  { intros e' deps Hsame. destruct (snapshot_follows wl e' deps Hwl Hsame) as (b' & ? & ? & ?). by exists b'. }
  rewrite SnapshotEdit_eq in Hr by apply Hwl. cbn [start_state rs_log_number rs_prev_log_number rs_next_file rs_last_sequence] in Hr.
  match type of Hr with _ = Some ?s => set (st := s) in Hr end.
  destruct (sync_step st vs e v ps ps (compact_vpointers_ vs) log1) as (st' & Hr' & Hsync'); try done.
  { rewrite Eps. apply put_all_twice. }
  exists log1, (EncodeFields (SnapshotEdit user_name wl) (dep_iter (dep_ (SnapshotEdit user_name wl))) []), (EncodeFields (FillCounters e vs) (dep_iter (dep_ (FillCounters e vs))) []).
  split; [done|]. rewrite <- (SnapshotEdit_eq wl) in Hr by apply Hwl. split.
  - repeat constructor; apply EncodeFields_bytes; try done; apply Hfill.
  - cbn [AddRecords]. unfold WriteSnapshot in Hw. rewrite EncodeTo_ok in Hw by done. cbn [mbind option_bind] in Hw. rewrite Hw, Hadd. done.
  - done.
  - exists st. unfold replay. cbn [foldl mbind option_bind]. by rewrite Hr.
  - intros [|k] x [= <-]. exists st'. unfold replay. cbn [take foldl mbind option_bind]. rewrite Hr. cbn [mbind option_bind]. by rewrite Hr'.
Qed.

(** The edits that follow. *)
Lemma next_edit l vsp next last e vs1 g c log snapshot edits :
  list.last l = Some vsp → descriptor_log_ vsp = Some log → manifest_ok l log snapshot edits →
  edit_fits (at_counters next last vsp) e → MLogAndApply e (Some []) g c (at_counters next last vsp) = Some (vs1, None) →
  ∃ log1 edit, descriptor_log_ vs1 = Some log1 ∧ manifest_ok (l ++ [vs1]) log1 snapshot (edits ++ [edit]).
Proof.
  intros Hlast Hlogp [Hb Hlog Hlen Hstart Hsyn] Hfits HL1. set (vs := at_counters next last vsp) in *.
  rewrite last_lookup in Hlast. destruct (Hsyn _ _ Hlast) as (st & Hst & Hin).
  pose proof (fo_plength _ _ _ (is_follows _ _ Hin)) as Hplen. pose proof (fo_pointers _ _ _ (is_follows _ _ Hin)) as Hps.
  destruct (LogAndApply_inv _ _ _ _ _ _ HL1) as (v & ps & vps & log0 & log1 & Hnext & Hd & Hadd & ->).
  pose proof (FillCounters_fits vs e Hfits) as Hfill.
  destruct (NextVersion_parts _ _ _ _ _ Hnext (ef_ok _ _ Hfill) (ef_vpointers _ _ Hfill) Hplen) as (_ & _ & _ & _ & _ & _ & _ & Eps & ->).
  destruct Hd as [Hd|[Hd _]]; cbn in Hd; rewrite Hlogp in Hd; [|done]. injection Hd as <-.
  destruct (sync_step st vs e v (compact_pointer_ vsp) ps (compact_vpointers_ vs) log1) as (st' & Hr' & Hsync'); try done.
  { apply Hin. }
  { apply Hin. }
  exists log1, (EncodeFields (FillCounters e vs) (dep_iter (dep_ (FillCounters e vs))) []). split; [done|].
  assert (take (S (pred (length l))) edits = edits) as Htake by (apply take_ge; apply lookup_lt_Some in Hlast; lia). rewrite Htake in Hst. split.
  - rewrite app_comm_cons. apply Forall_app_2; [done|]. apply Forall_singleton. apply EncodeFields_bytes; try done; apply Hfill.
  - rewrite app_comm_cons, AddRecords_snoc, Hlog. done.
  - rewrite !length_app. cbn. lia.
  - done.
  - intros k x [Hk|[Hk Hx]]%lookup_app_Some.
    + apply lookup_lt_Some in Hk as Hlt. rewrite take_app_le by lia. by apply Hsyn.
    + apply list_lookup_singleton_Some in Hx as [Hz <-]. assert (k = length l) as -> by lia.
      rewrite take_ge by (rewrite length_app; cbn; lia). exists st'. split; [|done].
      rewrite app_comm_cons, replay_app, Hst. cbn [mbind option_bind]. unfold replay. cbn [foldl mbind option_bind]. exact Hr'.
Qed.

Lemma history_manifest vs0 l vs :
  descriptor_log_ vs0 = None → snapshot_fits vs0 → history vs0 l → list.last l = Some vs →
  ∃ log snapshot edits, descriptor_log_ vs = Some log ∧ manifest_ok l log snapshot edits.
Proof.
  intros Hnone Hsnap Hh. revert vs. induction Hh as [|l next last e g c vs1 Hh IH vs0' Hfits HL1]; intros vs; [done|].
  rewrite last_snoc. intros [= <-]. destruct (list.last l) as [vsp|] eqn:El; cbn [default] in *.
  - destruct (IH vsp eq_refl) as (log & snapshot & edits & Hd & Hm).
    destruct (next_edit l vsp next last e vs1 g c log snapshot edits El Hd Hm Hfits HL1) as (log1 & edit & ? & ?). by exists log1, snapshot, (edits ++ [edit]).
  - apply last_None in El as ->. destruct (first_edit vs0 next last e vs1 g c Hnone Hsnap Hfits HL1) as (log & snapshot & edit & ? & ?).
    by exists log, snapshot, [edit].
Qed.

(** The loop over a log that reads without reports replays its records. *)
Lemma Recover_loop_replay n fuel r r' records : ∀ st stf,
  ReadAll n fuel r = Some (records, r') → reports_ r' = [] → replay st records = Some stf →
  (∀ j stj, replay st (take j records) = Some stj → rs_status stj = None) →
  Recover_loop MOD user user_name dep_iter n fuel r st = Some stf.
Proof.
  revert r records. induction n as [|n IH]; intros r records st stf; cbn [ReadAll Recover_loop]; [done|]. intros Hr Hrep Hstf Hok.
  destruct (ReadRecord fuel r) as [[[found record] r1]|] eqn:Er; [|done]. cbn [mbind option_bind].
  assert (reports_ r1 = []) as Hrep1.
  { apply (prefix_nil_inv (reports_ r1)). rewrite <- Hrep. destruct found; [|by simplify_eq].
    destruct (ReadAll n fuel r1) as [[l r2]|] eqn:Ea; [|done]. simplify_eq. by apply ReadAll_reports in Ea. }
  assert (rs_status st = None) as Hs by (by apply (Hok 0%nat)).
  rewrite Hrep1. cbn [length Nat.ltb Nat.leb]. rewrite Hs.
  assert ({| rs_status := None; rs_builder := rs_builder st; rs_log_number := rs_log_number st; rs_prev_log_number := rs_prev_log_number st;
    rs_next_file := rs_next_file st; rs_last_sequence := rs_last_sequence st |} = st) as -> by (rewrite <- Hs; by destruct st).
  destruct found.
  - destruct (ReadAll n fuel r1) as [[l r2]|] eqn:Ea; [|done]. cbn in Hr. injection Hr as <- <-.
    change (record :: l) with ([record] ++ l) in Hstf. rewrite replay_app in Hstf. apply bind_Some in Hstf as (st1 & H1 & Hstf).
    assert (MRecoverEdit record st = Some st1) as -> by exact H1. cbn [mbind option_bind].
    apply (IH r1 l st1 stf Ea Hrep Hstf). intros j stj Hj. apply (Hok (S j)). cbn [take].
    change (record :: take j l) with ([record] ++ take j l). rewrite replay_app, H1. exact Hj.
  - injection Hr as <- <-. by injection Hstf as <-.
Qed.

Lemma tracks_saved c dom m ls fss n :
  Forall2 (tracks c dom m) ls fss → SaveLevels (λ st fs, SaveLevel (BySmallestKey (Compare c)) st fs (added_files st)) ls (replicate n []) = fss.
Proof.
  intros H. apply list_eq_same_length with (n := length fss); [done| |].
  { unfold SaveLevels. rewrite length_imap. by apply Forall2_length in H. }
  intros i x y _ Hx Hy. unfold SaveLevels in Hx. rewrite list_lookup_imap in Hx. destruct (ls !! i) as [st|] eqn:E; [|done]. injection Hx as <-.
  destruct (Forall2_lookup_lr _ _ _ _ _ _ H E Hy) as [_ ->]. destruct (replicate n [] !! i) as [fs|] eqn:Er; [|done].
  by apply lookup_replicate in Er as [-> _].
Qed.

(** What a recovered store has in common with the one that wrote the manifest:
    the tables, the value tables of mode 10, the pointers and the counters; a
    number is set aside for the next manifest. *)
Record recovers (vs' vs : VersionSet (F := bytes)) : Prop := {
  rv_files : files_ (current_ vs') = files_ (current_ vs);
  rv_vfiles : MOD = 10 → vfiles_ (current_ vs') = vfiles_ (current_ vs);
  rv_pointers : compact_pointer_ vs' = compact_pointer_ vs;
  rv_last : vs_last_sequence_ vs' = vs_last_sequence_ vs;
  rv_log : vs_log_number_ vs' = vs_log_number_ vs ∧ vs_prev_log_number_ vs' = vs_prev_log_number_ vs;
  rv_next : next_file_number_ vs' = u64 (next_file_number_ vs + 1)
}.

Lemma Install_ok st vs reuse (vs0 : VersionSet (F := bytes)) :
  in_sync st vs → current_ vs0 = EmptyVersion MOD →
  ∃ vs' save, Install NDEBUG MOD user dep_iter st reuse vs0 = Some (vs', save) ∧ recovers vs' vs.
Proof.
  intros [_ Ho Hf _ Hlog Hprev Hnext Hlast] Hcur. unfold Install. rewrite Hcur.
  assert (∃ v, SaveTo NDEBUG MOD user (rs_builder st) (EmptyVersion MOD) (dep_iter (dep_map_ (EmptyVersion MOD))) (dep_iter (cur_dep_ (rs_builder st))) = Some v) as (v & Hv).
  { unfold SaveTo. 
    assert (SaveLevels (λ st fs, SaveLevel (BySmallestKey (InternalKeyComparator.Compare user)) st fs (added_files st)) (levels_ (rs_builder st))
      (files_ (EmptyVersion MOD)) = files_ (current_ vs)) as -> by exact (tracks_saved _ _ _ _ _ _ (fo_levels _ _ _ Hf)). rewrite Ho. cbn [negb]. destruct (replay_total (dep_iter (dep_map_ (EmptyVersion MOD))) ∅ DepProofs.acyclic_empty) as (d & Hd & Had).
    destruct (replay_total (dep_iter (cur_dep_ (rs_builder st))) d Had) as (d' & Hd' & _).
    destruct (MOD =? 10); [|by eexists]. rewrite Hd. cbn [mbind option_bind]. rewrite Hd'. cbn [mbind option_bind]. by eexists. }
  rewrite Hv. cbn [mbind option_bind]. eexists _, _. split; [done|]. apply SaveTo_files in Hv as (Ef & _ & Ev).
  split; cbn; rewrite ?Hlog, ?Hprev, ?Hnext, ?Hlast; try done.
  - rewrite Ef. eapply tracks_saved, Hf.
  - intros H10. rewrite (Ev H10). eapply tracks_saved, Hf. done.
  - apply Hf.
Qed.

Lemma first_name name : first (len (name ++ [10]) - 1) (name ++ [10]) = name.
Proof. rewrite len_app. change (len [10]) with 1. apply first_app. lia. Qed.

(** [Recover] on a manifest whose loop ends in the state [stf]. *)
Lemma Recover_read turns fuel name file (reuse : option (Log.Writer bytes * Z)) stf :
  Recover_loop MOD user user_name dep_iter turns fuel (NewReader (open_log file) true true 0) start_state = Some stf → rs_status stf = None →
  ∃ vs1 : VersionSet (F := bytes), current_ vs1 = EmptyVersion MOD ∧
    Recover NDEBUG MOD user user_name dep_iter turns fuel (Some (name ++ [10])) (λ m, if bool_decide (m = name) then Some file else None) reuse (NewVersionSet MOD) =
    match missing_field stf with
    | Some e => Some (vs1, Some e, false)
    | None => '(vs, save) ← Install NDEBUG MOD user dep_iter stf reuse vs1; Some (vs, None, save)
    end.
Proof.
  intros Hloop Hs. unfold Recover. rewrite last_snoc, first_name, !bool_decide_true by done. cbn [negb].
  change {| sf_rest := file; sf_read_error := false; sf_skip_error := false |} with (open_log file).
  change (compact_pointer_ (NewVersionSet MOD (F := bytes))) with (replicate (Z.to_nat kNumLevels) ([] : bytes)).
  change (compact_vpointers_ (NewVersionSet MOD (F := bytes))) with (replicate nv ([] : bytes)). fold start_state. rewrite Hloop. cbn [mbind option_bind]. rewrite Hs.
  match goal with |- context [Install NDEBUG MOD user dep_iter stf reuse ?v] => exists v end. split; [|done].
  unfold MarkFileNumberUsed. repeat case_match; done.
Qed.

(** What a prefix of the records recovers to. *)
Definition prefix_state (l : list (VersionSet (F := bytes))) (k : nat) (st : RecoverState) : Prop :=
  rs_status st = None ∧ match k with S (S j) => ∃ vs, l !! j = Some vs ∧ in_sync st vs | _ => rs_next_file st = None end.

Lemma manifest_prefix l log snapshot edits k :
  manifest_ok l log snapshot edits → (k ≤ length (snapshot :: edits))%nat →
  ∃ st, replay start_state (take k (snapshot :: edits)) = Some st ∧ prefix_state l k st.
Proof.
  intros [_ _ Hlen (st0 & Hst0 & Hs0 & Hn0) Hsyn] Hk. destruct k as [|[|j]]; [by exists start_state|by exists st0|].
  cbn in Hk. destruct (lookup_lt_is_Some_2 l j) as [vs Hj]; [lia|]. destruct (Hsyn j vs Hj) as (st & Hst & Hin). exists st. split; [done|].
  split; [apply Hin|]. by exists vs.
Qed.

Lemma missing_none st vs : in_sync st vs → missing_field st = None.
Proof. intros [_ _ _ _ Hl _ Hn Hq]. unfold missing_field. by rewrite Hn, Hl, Hq. Qed.

(** Recovering from a manifest that is cut. *)
Lemma manifest_recovers l log snapshot edits name n reuse :
  manifest_ok l log snapshot edits →
  ∃ turns fuel k (vs' : VersionSet (F := bytes)) err save,
    Recover NDEBUG MOD user user_name dep_iter turns fuel (Some (name ++ [10]))
      (λ m, if bool_decide (m = name) then Some (first n (dest_ log)) else None) reuse (NewVersionSet MOD) = Some (vs', err, save) ∧
    match k with
    | O => err = Some NoNextFile
    | S j => ∃ vsj, l !! j = Some vsj ∧ err = None ∧ recovers vs' vsj
    end ∧ (len (dest_ log) ≤ n → k = length l).
Proof.
  intros Hm. destruct (cut_log_read log (snapshot :: edits) n (mo_bytes _ _ _ _ Hm) (mo_log _ _ _ _ Hm)) as (turns & fuel & k0 & r & Hr & Hrep & Hall).
  set (k := Nat.min k0 (length (snapshot :: edits))).
  assert (take k0 (snapshot :: edits) = take k (snapshot :: edits)) as Ek by (unfold k; by rewrite <- take_take, firstn_all).
  rewrite Ek in *. assert (k ≤ length (snapshot :: edits))%nat as Hk by (unfold k; lia).
  destruct (manifest_prefix l log snapshot edits k Hm Hk) as (st & Hst & Hs & Hpre).
  destruct (Recover_read turns fuel name (first n (dest_ log)) reuse st) as (vs1 & Hcur & Hrec); [|done|].
  { eapply Recover_loop_replay; [exact Hr|done|exact Hst|]. intros j stj Hj. rewrite take_take in Hj.
    destruct (manifest_prefix l log snapshot edits (Nat.min j k) Hm) as (x & Hx & Hxs & _); [lia|]. congruence. }
  pose proof (mo_length _ _ _ _ Hm) as Hlen. exists turns, fuel, (pred k). rewrite Hrec.
  assert (len (dest_ log) ≤ n → pred k = length l) as Hfull.
  { intros Hn%Hall. apply (f_equal length) in Hn. rewrite length_take in Hn. cbn in Hn, Hk. lia. }
  destruct k as [|[|j]] eqn:E; cbn [pred] in *.
  1,2: unfold missing_field; rewrite Hpre; eexists vs1, _, _; done.
  destruct Hpre as (vsj & Hj & Hin). rewrite (missing_none _ _ Hin).
  destruct (Install_ok st vsj reuse vs1 Hin Hcur) as (vs' & save & -> & Hrv).
  exists vs', None, save. split; [done|]. split; [|done]. by exists vsj.
Qed.

End follow.

(** ** Properties *)

(** What the store leaves: the manifest after its successful calls, or after one
    more that failed. [lost] is the state that the call would have given if
    nothing had failed; [LogAndApply_failed] says that there is one. A failed call
    is recorded as a background error, after which no work is scheduled. *)
Inductive ended NDEBUG MOD user_name udom user meta vmeta dep_iter FSync (vs : VersionSet (F := bytes)) : option (VersionSet (F := bytes)) → Log.Writer bytes → Prop :=
  | ended_ok log : descriptor_log_ vs = Some log → ended NDEBUG MOD user_name udom user meta vmeta dep_iter FSync vs None log
  | ended_failed next last e graph_saved current_set vs2 err lost log :
      edit_fits MOD user_name udom meta vmeta (at_counters next last vs) e →
      LogAndApply NDEBUG MOD user user_name dep_iter Log.mem_Append Log.mem_Flush FSync e (Some []) graph_saved current_set (at_counters next last vs) = Some (vs2, Some err) →
      LogAndApply NDEBUG MOD user user_name dep_iter Log.mem_Append Log.mem_Flush mem_sync e (Some []) true true (at_counters next last vs) = Some (lost, None) →
      descriptor_log_ vs2 = Some log → ended NDEBUG MOD user_name udom user meta vmeta dep_iter FSync vs (Some lost) log.

(** C10: the manifest recovers to a state that the store had, or that its last,
    failed call was to give. Take any sequence of [LogAndApply] calls on a fresh
    manifest that succeed, and possibly one more that fails because the graph
    cannot be saved or the manifest cannot be synced; the appends themselves
    succeed, and no call is aborted by an assertion, in a build that checks them.
    Cut the file at any byte: [Recover] ends; it reports that the manifest is incomplete if not even the first edit
    survived, and else it yields the tables, pointers and counters that the store
    had after one of the calls, or those of the failed call, whose record is in
    the file although it reported an error; when nothing is cut, those of the last
    call. The value tables are compared in mode 10, the dependencies are not. *)
Theorem manifest_recovery NDEBUG MOD user_name udom user meta vmeta dep_iter FSync vs0 l vs lost log name n reuse :
  ComparatorLaws udom user → (∀ u, udom u → bytes_ok u) → (∀ m, dep_iter m ≡ₚ map_to_list m) → slice32 user_name ∧ bytes_ok user_name →
  (∀ f, (FSync f).1 = f) → descriptor_log_ vs0 = None → snapshot_fits MOD udom user meta vmeta vs0 →
  history NDEBUG MOD user_name udom user meta vmeta dep_iter FSync vs0 l → list.last l = Some vs →
  ended NDEBUG MOD user_name udom user meta vmeta dep_iter FSync vs lost log →
  ∃ turns fuel k vs' err save,
    Recover NDEBUG MOD user user_name dep_iter turns fuel (Some (name ++ [10]))
      (λ m, if bool_decide (m = name) then Some (first n (dest_ log)) else None) reuse (NewVersionSet MOD) = Some (vs', err, save) ∧
    match k with
    | O => err = Some NoNextFile
    | S j => ∃ vsj, (l ++ option_list lost) !! j = Some vsj ∧ err = None ∧ recovers MOD vs' vsj
    end ∧ (len (dest_ log) ≤ n → k = length (l ++ option_list lost)).
Proof.
  intros HL Hud Hiter Hname Hsync Hnone Hsnap Hh Hlast Hend.
  destruct (history_manifest NDEBUG MOD user_name udom user HL Hud meta vmeta dep_iter Hiter Hname FSync Hsync vs0 l vs Hnone Hsnap Hh Hlast)
    as (log0 & snapshot & edits & Hd & Hm).
  assert (∃ edits', manifest_ok NDEBUG MOD user_name udom user meta vmeta dep_iter (l ++ option_list lost) log snapshot edits') as (edits' & Hm').
  { destruct Hend as [log Hlog|next last e g c vs2 err lost log Hfits Hfail Hok Hlog]; [exists edits; rewrite app_nil_r; congruence|].
    destruct (LogAndApply_failed NDEBUG MOD user_name user dep_iter FSync Hsync e (Some []) g c _ vs2 err log0 Hfail Hd) as (vsx & Hx & Edx & _).
    { intros record log1 ok Ha. eapply AddRecord_mem_ok, Ha. }
    rewrite Hok in Hx. injection Hx as <-.
    destruct (next_edit NDEBUG MOD user_name udom user HL Hud meta vmeta dep_iter Hiter mem_sync (λ _, eq_refl) l vs next last e lost true true log0 snapshot edits Hlast Hd Hm Hfits Hok)
      as (log1 & edit & Hd1 & Hm1). exists (edits ++ [edit]). assert (log = log1) as -> by congruence. exact Hm1. }
  by apply (manifest_recovers NDEBUG MOD user_name udom user meta vmeta dep_iter (l ++ option_list lost) log snapshot edits').
Qed.

(** ** A store with one edit, and a second one whose sync fails *)

Definition example_meta (n : Z) : FileMetaData := with_seeks
  (if n =? 12 then NewFileMeta n 4096 (InternalKey [97] 3 kTypeValue) (InternalKey [104] 2 kTypeValue)
   else NewFileMeta n 4096 (InternalKey [120] 9 kTypeValue) (InternalKey [121] 8 kTypeValue)).
Definition example_edit : VersionEdit :=
  SetCompactPointer 1 (InternalKey [98] 1 kTypeValue)
    (AddFile 0 12 4096 (InternalKey [97] 3 kTypeValue) (InternalKey [104] 2 kTypeValue) NewVersionEdit).
Definition second_edit : VersionEdit := AddFile 0 14 4096 (InternalKey [120] 9 kTypeValue) (InternalKey [121] 8 kTypeValue) NewVersionEdit.

(** The device is full after 90 bytes. *)
Definition full_sync (f : bytes) : bytes * bool := (f, len f <=? 90).

Abbreviation example_log FSync := (LogAndApply false 10 Bytewise.comparator [99] map_to_list Log.mem_Append Log.mem_Flush FSync).
Definition example_start : VersionSet (F := bytes) := at_counters 13 40 (NewVersionSet 10).
Definition example_store : VersionSet (F := bytes) :=
  default example_start (fst <$> example_log full_sync example_edit (Some []) true true example_start).
Definition lost_store : VersionSet (F := bytes) :=
  default example_start (fst <$> example_log mem_sync second_edit (Some []) true true (at_counters 15 41 example_store)).
Definition failed_store : VersionSet (F := bytes) :=
  default example_start (fst <$> example_log full_sync second_edit (Some []) true true (at_counters 15 41 example_store)).
Definition failed_log : Log.Writer bytes := default (NewWriter [] 0) (descriptor_log_ failed_store).

Lemma example_logged : example_log full_sync example_edit (Some []) true true example_start = Some (example_store, None).
Proof. vm_compute. reflexivity. Qed.

Lemma example_edit_ok : edit_ok example_edit.
Proof.
  apply (apply_records_ok [RNew (0, NewFileMeta 12 4096 (InternalKey [97] 3 kTypeValue) (InternalKey [104] 2 kTypeValue)); RPointer (1, InternalKey [98] 1 kTypeValue)]
    NewVersionEdit); [|apply edit_ok_new|done].
  repeat constructor; cbn; unfold key32, slice32, level_ok, u64_ok; vm_compute; done.
Qed.

Lemma example_fits vmeta : edit_fits 10 [99] bytes_ok example_meta vmeta example_start example_edit.
Proof.
  split; [apply example_edit_ok| | |by left|done| |constructor|constructor].
  - repeat constructor; cbn; by_decide.
  - repeat split; done.
  - apply Forall_singleton. split; [split; [|done]|].
    + apply (InternalKey_parts bytes_ok (λ u H, H) [97] 3 kTypeValue); [by_decide|done].
    + cbn. apply not_elem_of_nil.
Qed.

Lemma example_start_fits vmeta : snapshot_fits 10 bytes_ok Bytewise.comparator example_meta vmeta (NewVersionSet 10).
Proof.
  assert (∀ (P : list FileMetaData → Prop) n, P [] → Forall P (replicate n [])) as H by (intros; by apply Forall_replicate).
  split; try done; cbn [NewVersionSet EmptyVersion current_ files_ vfiles_ compact_pointer_].
  - apply H. split; [apply good_nil|constructor].
  - apply H. constructor.
  - intros _. apply H, good_nil.
  - split; [done|]. apply Forall_replicate. split; [done|constructor].
Qed.

(** ** Witnesses *)

Lemma second_fits : edit_fits 10 [99] bytes_ok example_meta example_meta (at_counters 15 41 example_store) second_edit.
Proof.
  split.
  - apply (apply_records_ok [RNew (0, NewFileMeta 14 4096 (InternalKey [120] 9 kTypeValue) (InternalKey [121] 8 kTypeValue))] NewVersionEdit); [|apply edit_ok_new|done].
    repeat constructor; cbn; unfold key32, slice32, level_ok, u64_ok; vm_compute; done.
  - repeat constructor; cbn; by_decide.
  - repeat split; done.
  - by left.
  - done.
  - apply Forall_singleton. split; [split; [|done]|].
    + apply (InternalKey_parts bytes_ok (λ u H, H) [120] 9 kTypeValue); [by_decide|done].
    + intros Hin%(list_elem_of_fmap_2 number). assert (14 ∉ number <$> default [] (files_ (current_ example_store) !! 0%nat)) as H by by_decide. by apply H.
  - constructor.
  - constructor.
Qed.

(** The store had table 12 only; what it left recovers to one of the two states. *)
Lemma manifest_recovery_witness :
  (number <$> mjoin (files_ (current_ failed_store))) = [12] ∧
  ∃ turns fuel k vs' err save,
    Recover false 10 Bytewise.comparator [99] map_to_list turns fuel (Some ([77] ++ [10]))
      (λ m, if bool_decide (m = [77]) then Some (first 1000 (dest_ failed_log)) else None) None (NewVersionSet 10) = Some (vs', err, save) ∧
    match k with
    | O => err = Some NoNextFile
    | S j => ∃ vsj, [example_store; lost_store] !! j = Some vsj ∧ err = None ∧ recovers 10 vs' vsj
    end ∧ (len (dest_ failed_log) ≤ 1000 → k = 2%nat).
Proof.
  split; [vm_compute; reflexivity|].
  apply (manifest_recovery false 10 [99] bytes_ok Bytewise.comparator example_meta example_meta map_to_list full_sync (NewVersionSet 10) [example_store] example_store
    (Some lost_store) failed_log [77] 1000 None bytewise_laws (λ u H, H) (λ m, Permutation_refl _)).
  - split; [done|by_decide].
  - done.
  - done.
  - apply example_start_fits.
  - apply (history_step _ _ _ _ _ _ _ _ _ (NewVersionSet 10) [] 13 40 example_edit true true); [constructor|apply example_fits|apply example_logged].
  - done.
  - apply (ended_failed _ _ _ _ _ _ _ _ _ example_store 15 41 second_edit true true failed_store ManifestSync lost_store failed_log); [apply second_fits|vm_compute; reflexivity..].
Defined.

(** ** Defects *)

(** The store in mode 10 with one dependency between value tables. *)
Definition example_deps : VersionSet (F := bytes) := {|
  next_file_number_ := 13; manifest_file_number_ := 0; vs_last_sequence_ := 40; vs_log_number_ := 11; vs_prev_log_number_ := 0;
  descriptor_log_ := None; current_ := {| files_ := replicate 7 []; vfiles_ := replicate 2 []; dep_map_ := {[ 4 := 5 ]} |};
  compact_pointer_ := replicate 7 []; compact_vpointers_ := replicate 2 [] |}.

Definition deps_store : VersionSet (F := bytes) := default example_deps (fst <$> example_log mem_sync NewVersionEdit (Some []) true true example_deps).
Definition deps_manifest : bytes := default [] (dest_ <$> descriptor_log_ deps_store).
Abbreviation deps_recover := (Recover (F := bytes) false 10 Bytewise.comparator [99] map_to_list 10 1000 (Some [77; 10]) (λ _, Some deps_manifest) None (NewVersionSet 10)).
Definition deps_recovered : VersionSet (F := bytes) := default (NewVersionSet 10) (fst ∘ fst <$> deps_recover).

(** A new manifest forgets the dependencies. The store holds that value
    table 4 depends on 5, starts a manifest and logs an edit; the version in
    memory has the link, the one recovered from the manifest has none:
    [WriteSnapshot] leaves out [dep_]. *)
Theorem snapshot_forgets_dependencies :
  example_log mem_sync NewVersionEdit (Some []) true true example_deps = Some (deps_store, None) ∧
  deps_recover = Some (deps_recovered, None, true) ∧
  dep_map_ (current_ deps_store) !! 4 = Some 5 ∧ dep_map_ (current_ deps_recovered) !! 4 = None.
Proof. split; [|split; [|split]]; vm_compute; reflexivity. Qed.

(** An edit with a value pointer and no pointer cannot be applied: the loop
    over [compact_vpointers_] takes its levels from [compact_pointers_] and
    reads past its end. *)
Theorem Apply_vpointers_out_of_range MOD user level key deps b :
  Apply MOD user (SetCompactVPointer level key NewVersionEdit) deps b = None.
Proof. done. Qed.
