(* ===== verification/Compaction.v ===== *)
(** * Compaction of tables

    db/db_impl.cc, [DoCompactionWork], and the compaction object of
    db/version_set.cc: the input tables are merged, entries that no reader can
    see are dropped, and the others are written to new tables. This is the work
    of all modes but 9, in which the code gathers the entries instead and then
    rewrites their values; that branch is not modelled. *)

From Stdlib Require Import Sorted.
From stdpp Require Import sorting.
From S2P Require Import Prelude Coding Comparator DBFormat Block Format TableBuilder VersionEdit Version.

(** ** The compaction object *)

Record Compaction := {
  level_ : Z;
  max_output_file_size_ : Z;
  input_version_ : Version;
  inputs_0 : list FileMetaData;
  inputs_1 : list FileMetaData;
  grandparents_ : list FileMetaData;
  grandparent_index_ : nat;
  seen_key_ : bool;
  overlapped_bytes_ : Z;
  level_ptrs_ : list nat
}.

Definition NewCompaction (level max_output_file_size : Z) (v : Version) (inputs0 inputs1 grandparents : list FileMetaData) : Compaction := {|
  level_ := level; max_output_file_size_ := max_output_file_size; input_version_ := v; inputs_0 := inputs0; inputs_1 := inputs1;
  grandparents_ := grandparents; grandparent_index_ := 0; seen_key_ := false; overlapped_bytes_ := 0;
  level_ptrs_ := replicate (Z.to_nat kNumLevels) 0%nat |}.

Definition set_ptrs (ptrs : list nat) (c : Compaction) : Compaction := {|
  level_ := level_ c; max_output_file_size_ := max_output_file_size_ c; input_version_ := input_version_ c; inputs_0 := inputs_0 c;
  inputs_1 := inputs_1 c; grandparents_ := grandparents_ c; grandparent_index_ := grandparent_index_ c; seen_key_ := seen_key_ c;
  overlapped_bytes_ := overlapped_bytes_ c; level_ptrs_ := ptrs |}.

Definition set_overlap (index : nat) (seen : bool) (overlapped : Z) (c : Compaction) : Compaction := {|
  level_ := level_ c; max_output_file_size_ := max_output_file_size_ c; input_version_ := input_version_ c; inputs_0 := inputs_0 c;
  inputs_1 := inputs_1 c; grandparents_ := grandparents_ c; grandparent_index_ := index; seen_key_ := seen;
  overlapped_bytes_ := overlapped; level_ptrs_ := level_ptrs_ c |}.

Definition IsTrivialMove (max_file_size : Z) (c : Compaction) : bool :=
  (length (inputs_0 c) =? 1)%nat && (length (inputs_1 c) =? 0)%nat &&
  (TotalFileSize (grandparents_ c) <=? MaxGrandParentOverlapBytes max_file_size).

Definition AddInputDeletions (c : Compaction) (edit : VersionEdit) : VersionEdit :=
  let edit := foldl (λ e f, DeleteFile (level_ c) (number f) e) edit (inputs_0 c) in
  foldl (λ e f, DeleteFile (level_ c + 1) (number f) e) edit (inputs_1 c).

Section compaction.

Context `{SN : !Snappy} (opt : Options) (user : Comparator) (MOD : Z).

Abbreviation icmp := (InternalKeyComparator.Compare user).
Abbreviation ucmp := (Compare user).

(** *** IsBaseLevelForKey *)

(** The loop over the files of a level from its pointer on: whether the key is
    in the range of a file, and the pointer after it. *)
Fixpoint BaseScan (user_key : bytes) (files : list FileMetaData) (ptr : nat) : bool * nat :=
  match files with
  | [] => (false, ptr)
  | f :: files =>
      if ucmp user_key (ExtractUserKey (largest f)) <=? 0 then (ucmp user_key (ExtractUserKey (smallest f)) >=? 0, ptr)
      else BaseScan user_key files (S ptr)
  end.

(** [n] levels from [lvl] on. *)
Fixpoint BaseLevels (n : nat) (v : Version) (user_key : bytes) (lvl : Z) (ptrs : list nat) : bool * list nat :=
  match n with
  | O => (true, ptrs)
  | S n' =>
      let ptr := default 0%nat (ptrs !! Z.to_nat lvl) in
      let '(inside, ptr) := BaseScan user_key (drop ptr (level_files v lvl)) ptr in
      let ptrs := <[Z.to_nat lvl := ptr]> ptrs in
      if (inside : bool) then (false, ptrs) else BaseLevels n' v user_key (lvl + 1) ptrs
  end.

Definition IsBaseLevelForKey (user_key : bytes) (level : Z) (v : Version) (ptrs : list nat) : bool * list nat :=
  BaseLevels (Z.to_nat (kNumLevels - (level + 2))) v user_key (level + 2) ptrs.

(** *** ShouldStopBefore *)

Fixpoint GrandparentScan (internal_key : bytes) (files : list FileMetaData) (seen : bool) (index : nat) (overlapped : Z) : nat * Z :=
  match files with
  | [] => (index, overlapped)
  | f :: files =>
      if icmp internal_key (largest f) >? 0 then
        GrandparentScan internal_key files seen (S index) (if seen then i64 (overlapped + file_size f) else overlapped)
      else (index, overlapped)
  end.

Definition ShouldStopBefore (max_file_size : Z) (internal_key : bytes) (c : Compaction) : bool * Compaction :=
  let '(index, overlapped) := GrandparentScan internal_key (drop (grandparent_index_ c) (grandparents_ c)) (seen_key_ c)
                                (grandparent_index_ c) (overlapped_bytes_ c) in
  if overlapped >? MaxGrandParentOverlapBytes max_file_size then (true, set_overlap index true 0 c)
  else (false, set_overlap index true overlapped c).

(** ** DoCompactionWork *)

(** A finished or current output. Its table is what was added to the builder. *)
Record Output := { o_number : Z; o_file_size : Z; o_smallest : bytes; o_largest : bytes; o_entries : list (bytes * bytes) }.

Inductive CompactionError := OpenFailed | FinishFailed | InputFailed | ShuttingDown.

(** The builder after some additions, on a file whose writes succeed. *)
Definition builder_of (es : list (bytes * bytes)) : Rep bytes :=
  AddAll mem_Append mem_Flush es (NewTableBuilder opt []).

Record CompactionState := {
  compaction : Compaction;
  outputs : list Output;
  building : bool;
  current_user_key : option bytes;
  last_sequence_for_key : Z;
  drop_map : gset bytes
}.

(** The environment: the number that the n-th output gets; whether its file can
    be created; whether [Finish], [Sync], [Close] and opening it succeed; the
    status of the input and the shutdown flag when so many entries are left. *)
Context (new_number : nat → Z) (open_ok finish_ok : Z → bool) (input_ok shutting_down : nat → bool).
Context (smallest_snapshot : Z) (use_dropmap : bool).

Definition with_outputs (outs : list Output) (b : bool) (st : CompactionState) : CompactionState := {|
  compaction := compaction st; outputs := outs; building := b; current_user_key := current_user_key st;
  last_sequence_for_key := last_sequence_for_key st; drop_map := drop_map st |}.

Definition with_compaction (c : Compaction) (st : CompactionState) : CompactionState := {|
  compaction := c; outputs := outputs st; building := building st; current_user_key := current_user_key st;
  last_sequence_for_key := last_sequence_for_key st; drop_map := drop_map st |}.

Definition update_last {A} (g : A → A) (l : list A) : list A :=
  match last l with Some x => take (pred (length l)) l ++ [g x] | None => l end.

Definition OpenCompactionOutputFile (st : CompactionState) : CompactionState * bool :=
  let number := new_number (length (outputs st)) in
  let outs := outputs st ++ [{| o_number := number; o_file_size := 0; o_smallest := []; o_largest := []; o_entries := [] |}] in
  (with_outputs outs (open_ok number) st, open_ok number).

Definition FinishCompactionOutputFile (input_status : bool) (st : CompactionState) : CompactionState * bool :=
  let finish o := {| o_number := o_number o;
    o_file_size := if input_status then FileSize (Finish mem_Append mem_Flush (builder_of (o_entries o))) else FileSize (builder_of (o_entries o));
    o_smallest := o_smallest o; o_largest := o_largest o; o_entries := o_entries o |} in
  let ok := match last (outputs st) with Some o => input_status && finish_ok (o_number o) | None => false end in
  (with_outputs (update_last finish (outputs st)) false st, ok).

(** Whether to drop an entry, with the locals that the decision changes. *)
Definition DropEntry (key : bytes) (level : Z) (v : Version) (current : option bytes) (last_sequence : Z) (ptrs : list nat)
    : bool * option bytes * Z * list nat :=
  match ParseInternalKey key with
  | None => (false, None, kMaxSequenceNumber, ptrs)
  | Some ikey =>
      let first := match current with Some u => negb (ucmp (user_key ikey) u =? 0) | None => true end in
      let current := if first then Some (user_key ikey) else current in
      let last_sequence := if first then kMaxSequenceNumber else last_sequence in
      let '(drop, ptrs) :=
        if last_sequence <=? smallest_snapshot then (true, ptrs)
        else match type ikey with
             | kTypeDeletion => if sequence ikey <=? smallest_snapshot then IsBaseLevelForKey (user_key ikey) level v ptrs else (false, ptrs)
             | kTypeValue => (false, ptrs)
             end in
      (drop, current, sequence ikey, ptrs)
  end.

(** [builder->Add] to the current output. *)
Definition AddToOutput (key value : bytes) (o : Output) : Output := {|
  o_number := o_number o; o_file_size := o_file_size o;
  o_smallest := match o_entries o with [] => key | _ => o_smallest o end; o_largest := key; o_entries := o_entries o ++ [(key, value)] |}.

Definition Keep (remaining : nat) (key value : bytes) (st : CompactionState) : CompactionState * option CompactionError :=
  let '(st, ok) := if building st then (st, true) else OpenCompactionOutputFile st in
  if negb ok then (st, Some OpenFailed)
  else
    let st := with_outputs (update_last (AddToOutput key value) (outputs st)) true st in
    let size := match last (outputs st) with Some o => FileSize (builder_of (o_entries o)) | None => 0 end in
    if size >=? max_output_file_size_ (compaction st) then
      let '(st, ok) := FinishCompactionOutputFile (input_ok remaining) st in
      (st, if ok then None else Some FinishFailed)
    else (st, None).

(** The body of the loop, for a mode other than 9. *)
Definition CompactEntry (remaining : nat) (key value : bytes) (st : CompactionState) : CompactionState * option CompactionError :=
  let '(stop, c) := ShouldStopBefore (max_output_file_size_ (compaction st)) key (compaction st) in
  let st := with_compaction c st in
  let '(st, ok) := if stop && building st then FinishCompactionOutputFile (input_ok remaining) st else (st, true) in
  if negb ok then (st, Some FinishFailed)
  else
    let c := compaction st in
    let '(drop, current, last_sequence, ptrs) :=
      DropEntry key (level_ c) (input_version_ c) (current_user_key st) (last_sequence_for_key st) (level_ptrs_ c) in
    let st := {| compaction := set_ptrs ptrs c; outputs := outputs st; building := building st; current_user_key := current;
                 last_sequence_for_key := last_sequence;
                 drop_map := if drop && (MOD =? 10) && use_dropmap then {[ExtractUserKey key]} ∪ drop_map st else drop_map st |} in
    if drop then (st, None) else Keep remaining key value st.

Fixpoint CompactLoop (input : list (bytes * bytes)) (st : CompactionState) : CompactionState * option CompactionError :=
  match input with
  | [] => (st, None)
  | (key, value) :: rest =>
      if shutting_down (length input) then (st, None)
      else match CompactEntry (length input) key value st with
           | (st, None) => CompactLoop rest st
           | r => r
           end
  end.

(** For a mode other than 9; in mode 9 a second phase rewrites the values. *)
Definition DoCompactionWork (input : list (bytes * bytes)) (c : Compaction) : CompactionState * option CompactionError :=
  let '(st, s) := CompactLoop input {| compaction := c; outputs := []; building := false; current_user_key := None;
                                       last_sequence_for_key := kMaxSequenceNumber; drop_map := ∅ |} in
  let s := match s with None => if shutting_down 0 then Some ShuttingDown else None | s => s end in
  let '(st, s) := match s with
                  | None => if building st then let '(st, ok) := FinishCompactionOutputFile true st in (st, if ok then None else Some FinishFailed)
                            else (st, None)
                  | s => (st, s)
                  end in
  (st, match s with None => if input_ok 0 then None else Some InputFailed | s => s end).

(** The part of [InstallCompactionResults] for tables. *)
Definition InstallEdit (st : CompactionState) (edit : VersionEdit) : VersionEdit :=
  foldl (λ e o, AddFile (level_ (compaction st) + 1) (o_number o) (o_file_size o) (o_smallest o) (o_largest o) e)
    (AddInputDeletions (compaction st) edit) (outputs st).

End compaction.

(** ** Lemmas: what the loop writes *)

Lemma update_last_snoc {A} (g : A → A) l x : update_last g (l ++ [x]) = l ++ [g x].
Proof. unfold update_last. rewrite last_snoc, length_app. cbn [length]. rewrite Nat.add_1_r. cbn [pred]. by rewrite take_app_length. Qed.

Section written.

Context `{SN : !Snappy} (opt : Options) (user : Comparator) (MOD : Z).
Context (new_number : nat → Z) (open_ok finish_ok : Z → bool) (input_ok shutting_down : nat → bool).
Context (smallest_snapshot : Z) (use_dropmap : bool).

(** The entries that are not dropped. *)
Fixpoint kept_entries (input : list (bytes * bytes)) (level : Z) (v : Version) (current : option bytes) (last_sequence : Z) (ptrs : list nat)
    : list (bytes * bytes) :=
  match input with
  | [] => []
  | e :: rest =>
      let '(drop, current, last_sequence, ptrs) := DropEntry user smallest_snapshot e.1 level v current last_sequence ptrs in
      (if drop then [] else [e]) ++ kept_entries rest level v current last_sequence ptrs
  end.

Definition written (outs : list Output) : list (bytes * bytes) := mjoin (o_entries <$> outs).

(** Outputs name the first and the last of their keys. *)
Definition output_ok (o : Output) : Prop :=
  fst <$> head (o_entries o) = Some (o_smallest o) ∧ fst <$> last (o_entries o) = Some (o_largest o).

Definition outputs_ok (st : CompactionState) : Prop := Forall output_ok (outputs st) ∧ (building st = true → outputs st ≠ []).

Lemma written_snoc outs o : written (outs ++ [o]) = written outs ++ o_entries o.
Proof. unfold written. rewrite fmap_app, join_app. cbn. by rewrite app_nil_r. Qed.

Lemma Finish_written status st :
  outputs_ok st → let st' := (FinishCompactionOutputFile opt finish_ok status st).1 in
  outputs_ok st' ∧ written (outputs st') = written (outputs st) ∧ building st' = false ∧ compaction st' = compaction st ∧
  current_user_key st' = current_user_key st ∧ last_sequence_for_key st' = last_sequence_for_key st.
Proof.
  intros [Ho Hb]. unfold outputs_ok, FinishCompactionOutputFile. cbn [fst outputs building compaction current_user_key last_sequence_for_key with_outputs].
  destruct (outputs st) as [|o outs _] using rev_ind; [by split_and!|]. rewrite update_last_snoc, !written_snoc.
  apply Forall_app in Ho as [Ho Hl]. split; [|done]. split; [|done]. apply Forall_app_2; [done|]. inversion_clear Hl. by constructor.
Qed.

Lemma AddToOutput_ok key value o : o_entries o = [] ∨ output_ok o → output_ok (AddToOutput key value o).
Proof.
  unfold output_ok. cbn. rewrite last_snoc. intros [->|[H1 H2]]; [done|]. split; [|done].
  destruct (o_entries o); [done|]. done.
Qed.

Lemma Keep_written remaining key value st st' :
  outputs_ok st → Keep opt new_number open_ok finish_ok input_ok remaining key value st = (st', None) →
  outputs_ok st' ∧ written (outputs st') = written (outputs st) ++ [(key, value)] ∧ compaction st' = compaction st ∧
  current_user_key st' = current_user_key st ∧ last_sequence_for_key st' = last_sequence_for_key st.
Proof.
  intros Hok. unfold Keep.
  destruct (if building st then (st, true) else _) as [st1 ok] eqn:E1. destruct ok; [|done]. cbn [negb].
  assert (∃ outs o, outputs st1 = outs ++ [o] ∧ written (outputs st1) = written (outputs st) ∧ Forall output_ok outs ∧ (o_entries o = [] ∨ output_ok o) ∧
    compaction st1 = compaction st ∧ current_user_key st1 = current_user_key st ∧ last_sequence_for_key st1 = last_sequence_for_key st) as
    (outs & o & Eo & Ew & Hos & Hoo & Ec & Eu & El).
  { destruct Hok as [Ho Hb]. destruct (building st).
    - injection E1 as <-. specialize (Hb eq_refl). destruct (outputs st) as [|o outs _] using rev_ind; [done|].
      apply Forall_app in Ho as [Ho Hl]. inversion_clear Hl. exists outs, o. split_and!; try done. by right.
    - unfold OpenCompactionOutputFile in E1. injection E1 as <- Eok. eexists (outputs st), _. split; [done|]. cbn [outputs with_outputs].
      rewrite written_snoc, app_nil_r. split_and!; try done. by left. }
  rewrite Eo, update_last_snoc. cbn [outputs with_outputs]. rewrite last_snoc.
  set (st2 := with_outputs (outs ++ [AddToOutput key value o]) true st1).
  assert (outputs_ok st2 ∧ written (outputs st2) = written (outputs st) ++ [(key, value)]) as [Hok2 Ew2].
  { split; [split; [|intros _ [_ ?]%app_nil; done]|].
    - cbn. apply Forall_app_2; [done|]. constructor; [by apply AddToOutput_ok|constructor].
    - cbn [outputs with_outputs st2]. rewrite written_snoc, <- Ew, Eo, written_snoc. cbn [o_entries AddToOutput]. by rewrite app_assoc. }
  destruct (_ >=? _).
  - destruct (FinishCompactionOutputFile opt finish_ok (input_ok remaining) st2) as [st3 ok3] eqn:E3. destruct ok3; [|done]. intros [= <-].
    pose proof (Finish_written (input_ok remaining) st2 Hok2) as Hf. rewrite E3 in Hf. cbn in Hf. destruct Hf as (? & Ew3 & _ & ? & ? & ?).
    rewrite Ew3. split_and!; try done; cbn in *; congruence.
  - intros [= <-]. split_and!; try done.
Qed.

Lemma ShouldStop_fields max key c c' stop :
  ShouldStopBefore user max key c = (stop, c') →
  level_ c' = level_ c ∧ input_version_ c' = input_version_ c ∧ level_ptrs_ c' = level_ptrs_ c ∧ max_output_file_size_ c' = max_output_file_size_ c.
Proof. unfold ShouldStopBefore. destruct (GrandparentScan _ _ _ _ _ _) as [i o]. case_match; by intros [= _ <-]. Qed.

Lemma CompactEntry_written remaining e st st' :
  outputs_ok st →
  CompactEntry opt user MOD new_number open_ok finish_ok input_ok smallest_snapshot use_dropmap remaining e.1 e.2 st = (st', None) →
  ∃ drop, DropEntry user smallest_snapshot e.1 (level_ (compaction st)) (input_version_ (compaction st)) (current_user_key st)
      (last_sequence_for_key st) (level_ptrs_ (compaction st)) =
    (drop, current_user_key st', last_sequence_for_key st', level_ptrs_ (compaction st')) ∧
  outputs_ok st' ∧ written (outputs st') = written (outputs st) ++ (if drop then [] else [e]) ∧
  level_ (compaction st') = level_ (compaction st) ∧ input_version_ (compaction st') = input_version_ (compaction st).
Proof.
  intros Hok. unfold CompactEntry. destruct (ShouldStopBefore user _ e.1 (compaction st)) as [stop c] eqn:Es.
  apply ShouldStop_fields in Es as (El & Ev & Ep & Em).
  destruct (if stop && building (with_compaction c st) then _ else _) as [st1 ok] eqn:E1. destruct ok; [|done]. cbn [negb].
  assert (outputs_ok st1 ∧ written (outputs st1) = written (outputs st) ∧ compaction st1 = c ∧ current_user_key st1 = current_user_key st ∧
    last_sequence_for_key st1 = last_sequence_for_key st) as (Hok1 & Ew & Ec & Eu & Es).
  { destruct (stop && _).
    - pose proof (Finish_written (input_ok remaining) (with_compaction c st) Hok) as Hf. rewrite E1 in Hf. cbn in Hf.
      destruct Hf as (? & ? & _ & ? & ? & ?). done.
    - by injection E1 as <-. }
  rewrite Ec, Eu, Es, El, Ev, Ep.
  destruct (DropEntry _ _ _ _ _ _ _ _) as [[[drop cur] lst] ptrs] eqn:Ed. intros H. exists drop. destruct drop.
  - injection H as <-. cbn. rewrite app_nil_r. done.
  - apply Keep_written in H as (Hok2 & Ew2 & Ec2 & Eu2 & Es2); [|done]. rewrite Eu2, Es2, Ec2, Ew2.
    cbn [outputs compaction level_ptrs_ level_ input_version_ set_ptrs current_user_key last_sequence_for_key]. rewrite Ew. by destruct e.
Qed.

Lemma CompactLoop_written input st st' :
  (∀ n, shutting_down n = false) → outputs_ok st →
  CompactLoop opt user MOD new_number open_ok finish_ok input_ok shutting_down smallest_snapshot use_dropmap input st = (st', None) →
  outputs_ok st' ∧ written (outputs st') = written (outputs st) ++
    kept_entries input (level_ (compaction st)) (input_version_ (compaction st)) (current_user_key st) (last_sequence_for_key st) (level_ptrs_ (compaction st)) ∧
  level_ (compaction st') = level_ (compaction st).
Proof.
  intros Hrun. revert st. induction input as [|[k v] rest IH]; intros st Hok; cbn [CompactLoop kept_entries].
  { intros [= <-]. by rewrite app_nil_r. }
  rewrite Hrun. destruct (CompactEntry _ _ _ _ _ _ _ _ _ _ k v st) as [st1 [err|]] eqn:E; [done|]. intros Hl.
  destruct (CompactEntry_written _ (k, v) st st1 Hok E) as (drop & Hd & Hok1 & Ew & El & Ev). cbn [fst] in *. rewrite Hd.
  destruct (IH st1 Hok1 Hl) as (Hok' & Ew' & El'). rewrite El, Ev in Ew'. split; [done|]. split; [|congruence].
  by rewrite Ew', Ew, app_assoc.
Qed.

Lemma DoCompactionWork_written input c st :
  (∀ n, shutting_down n = false) →
  DoCompactionWork opt user MOD new_number open_ok finish_ok input_ok shutting_down smallest_snapshot use_dropmap input c = (st, None) →
  Forall output_ok (outputs st) ∧
  written (outputs st) = kept_entries input (level_ c) (input_version_ c) None kMaxSequenceNumber (level_ptrs_ c).
Proof.
  intros Hrun. unfold DoCompactionWork. set (st0 := {| compaction := c |}).
  destruct (CompactLoop _ _ _ _ _ _ _ _ _ _ input st0) as [st1 [e|]] eqn:El; [done|]. rewrite Hrun.
  destruct (CompactLoop_written input st0 st1 Hrun) as (Hok & Ew & _); [by split|done|]. cbn in Ew.
  destruct (building st1).
  - destruct (FinishCompactionOutputFile opt finish_ok true st1) as [st2 ok] eqn:E2. destruct ok; [|done].
    pose proof (Finish_written true st1 Hok) as Hf. rewrite E2 in Hf. cbn in Hf. destruct Hf as ([? _] & Ew2 & _).
    destruct (input_ok 0); [|done]. intros [= <-]. split; [done|congruence].
  - destruct (input_ok 0); [|done]. intros [= <-]. split; [apply Hok|done].
Qed.

(** With a working environment the compaction succeeds. *)
Section working.

Context (Hopen : ∀ n, open_ok n = true) (Hfinish : ∀ n, finish_ok n = true) (Hinput : ∀ n, input_ok n = true).

Lemma Finish_total status st : status = true → outputs st ≠ [] → (FinishCompactionOutputFile opt finish_ok status st).2 = true.
Proof. intros -> Hne. cbn. destruct (outputs st) as [|o outs _] using rev_ind; [done|]. by rewrite last_snoc, Hfinish. Qed.

Lemma Keep_total remaining key value st :
  outputs_ok st → ∃ st', Keep opt new_number open_ok finish_ok input_ok remaining key value st = (st', None).
Proof.
  intros Hok. unfold Keep. assert (∃ st1, (if building st then (st, true) else OpenCompactionOutputFile new_number open_ok st) = (st1, true) ∧ outputs st1 ≠ []) as (st1 & -> & Hne).
  { destruct (building st) eqn:E; [exists st; split; [done|by apply Hok]|]. unfold OpenCompactionOutputFile. rewrite Hopen. eexists. split; [done|].
    cbn. by intros [_ ?]%app_nil. }
  cbn [negb]. destruct (_ >=? _); [|by eexists]. set (st2 := with_outputs _ true st1).
  pose proof (Finish_total (input_ok remaining) st2 (Hinput _)) as Hf. destruct (FinishCompactionOutputFile _ _ _ st2) as [st3 ok]. cbn in Hf.
  rewrite Hf; [by eexists|]. destruct (outputs st1) as [|o outs _] using rev_ind; [done|]. rewrite update_last_snoc. by intros [_ ?]%app_nil.
Qed.

Lemma CompactEntry_total remaining key value st :
  outputs_ok st → ∃ st', CompactEntry opt user MOD new_number open_ok finish_ok input_ok smallest_snapshot use_dropmap remaining key value st = (st', None).
Proof.
  intros Hok. unfold CompactEntry. destruct (ShouldStopBefore user _ key (compaction st)) as [stop c].
  assert (∃ st1, (if stop && building (with_compaction c st) then FinishCompactionOutputFile opt finish_ok (input_ok remaining) (with_compaction c st)
    else (with_compaction c st, true)) = (st1, true) ∧ outputs_ok st1) as (st1 & -> & Hok1).
  { destruct (stop && building (with_compaction c st)) eqn:E; [|by eexists]. apply andb_true_iff in E as [_ E].
    pose proof (Finish_total (input_ok remaining) (with_compaction c st) (Hinput _) (proj2 Hok E)) as Hf.
    pose proof (Finish_written (input_ok remaining) (with_compaction c st) Hok) as Hw.
    destruct (FinishCompactionOutputFile _ _ _ _) as [st1 ok]. cbn in Hf, Hw. subst ok. exists st1. split; [done|]. apply Hw. }
  cbn [negb]. destruct (DropEntry _ _ _ _ _ _ _ _) as [[[drop cur] lst] ptrs]. destruct drop; [by eexists|]. by apply Keep_total.
Qed.

Lemma DoCompactionWork_total input c :
  (∀ n, shutting_down n = false) →
  ∃ st, DoCompactionWork opt user MOD new_number open_ok finish_ok input_ok shutting_down smallest_snapshot use_dropmap input c = (st, None).
Proof.
  intros Hrun. unfold DoCompactionWork. set (st0 := {| compaction := c |}). assert (outputs_ok st0) as Hok0 by by split. clearbody st0.
  assert (∃ st1, CompactLoop opt user MOD new_number open_ok finish_ok input_ok shutting_down smallest_snapshot use_dropmap input st0 = (st1, None)) as (st1 & Hl).
  { revert st0 Hok0. induction input as [|[k v] rest IH]; intros st0 Hok0; cbn [CompactLoop]; [by eexists|]. rewrite Hrun.
    destruct (CompactEntry_total (length ((k, v) :: rest)) k v st0 Hok0) as (st1 & E). rewrite E. apply IH.
    by destruct (CompactEntry_written _ (k, v) st0 st1 Hok0 E) as (? & _ & ? & _). }
  rewrite Hl, Hrun. destruct (CompactLoop_written _ _ _ Hrun Hok0 Hl) as [Hok1 _]. destruct (building st1) eqn:Eb; [|rewrite Hinput; by eexists].
  pose proof (Finish_total true st1 eq_refl (proj2 Hok1 Eb)) as Hf. destruct (FinishCompactionOutputFile _ _ _ st1) as [st2 ok]. cbn in Hf. subst ok.
  rewrite Hinput. by eexists.
Qed.

End working.

End written.

(** ** Lemmas: the base level *)

Section drops.

Context (udom : bytes → Prop) (user : Comparator) (HL : ComparatorLaws udom user).
Context (Hudom : ∀ u, udom u → bytes_ok u).

Abbreviation icmp := (InternalKeyComparator.Compare user).
Abbreviation ucmp := (Compare user).
Abbreviation ikey := (ikey_ok udom).
Abbreviation valid_key := (valid_key udom).

(** The user key is in the range of a file. *)
Definition in_range (u : bytes) (f : FileMetaData) : Prop :=
  ucmp (ExtractUserKey (smallest f)) u ≤ 0 ∧ ucmp u (ExtractUserKey (largest f)) ≤ 0.

(** No file below the output level may hold the key. *)
Definition base_level (v : Version) (level : Z) (u : bytes) : Prop :=
  ∀ lvl f, level + 2 ≤ lvl → f ∈ level_files v lvl → ¬ in_range u f.

(** The pointers have passed only files that end before [u]. *)
Definition passed (u : bytes) (files : list FileMetaData) (ptr : nat) : Prop :=
  Forall (λ f, ucmp (ExtractUserKey (largest f)) u < 0) (take ptr files).

Lemma BaseScan_ok u files ptr :
  udom u → Forall (range_ok udom user) files → disjoint_sorted user files → passed u files ptr →
  let '(inside, ptr') := BaseScan user u (drop ptr files) ptr in
  passed u files ptr' ∧ (inside = false → ∀ f, f ∈ files → ¬ in_range u f).
Proof.
  intros Hu Hr Hs. remember (drop ptr files) as rest eqn:Er. revert ptr Er.
  induction rest as [|f rest IH]; intros ptr Er Hp; cbn [BaseScan].
  - split; [done|]. intros _ f Hf [_ Hin]. assert (take ptr files = files) as E by (rewrite <- (take_drop ptr files) at 2; rewrite <- Er; by rewrite app_nil_r).
    unfold passed in Hp. rewrite E, Forall_forall in Hp. specialize (Hp f Hf). rewrite Forall_forall in Hr.
    destruct (range_keys udom user Hudom f (Hr f Hf)) as (_ & Hl & _). pose proof (cmp_anti _ _ (proj2 (proj2 Hl)) Hu). lia.
  - assert (files !! ptr = Some f) as Hf by (rewrite <- (Nat.add_0_r ptr), <- lookup_drop, <- Er; done).
    assert (drop (S ptr) files = rest) as Er' by (erewrite drop_S in Er by done; by injection Er).
    destruct (Z.leb_spec (ucmp u (ExtractUserKey (largest f))) 0) as [Hle|Hgt].
    + split; [done|]. intros Hout g Hg [Hg1 Hg2]. rewrite Forall_forall in Hr.
      assert (∀ h, h ∈ files → udom (ExtractUserKey (smallest h)) ∧ udom (ExtractUserKey (largest h))) as Hd.
      { intros h Hh. destruct (range_keys udom user Hudom h (Hr h Hh)) as (H1 & H2 & _). split; [apply H1|apply H2]. }
      destruct (list_elem_of_lookup_1 _ _ Hg) as [j Hj]. destruct (decide (j < ptr)%nat).
      * unfold passed in Hp. rewrite Forall_lookup in Hp. specialize (Hp j g ltac:(by rewrite lookup_take_lt)).
        destruct (Hd g Hg) as [_ Hdl]. pose proof (cmp_anti _ _ Hdl Hu). lia.
      * (** The file at the pointer starts after [u], and so do the later ones. *)
        assert (f ∈ files) as Hfin by by eapply list_elem_of_lookup_2.
        destruct (Hd f Hfin) as [Hds Hdl], (Hd g Hg) as [Hgs _].
        assert (ucmp u (ExtractUserKey (smallest f)) < 0) as Hlt by lia.
        destruct (decide (j = ptr)) as [->|].
        -- rewrite Hf in Hj. injection Hj as <-. pose proof (cmp_anti _ _ Hu Hds). lia.
        -- assert (icmp (largest f) (smallest g) < 0) as Hfg by (eapply (disjoint_largest udom user files ptr j); [by apply Forall_forall|done..|lia]).
           destruct (range_keys udom user Hudom f (Hr f Hfin)) as (Hif & Hil & Hle').
           destruct (range_keys udom user Hudom g (Hr g Hg)) as (Hig & _ & _).
           assert (ucmp (ExtractUserKey (smallest f)) (ExtractUserKey (smallest g)) ≤ 0) as Hle2.
           { apply (icmp_user udom user); [done..|]. pose proof (icmp_le_lt_trans udom user HL _ _ _ Hif Hil Hig Hle' Hfg). lia. }
           assert (ucmp (ExtractUserKey (smallest f)) u ≤ 0) as Hle3 by (by apply (ucmp_le_trans udom user HL _ (ExtractUserKey (smallest g)))).
           pose proof (cmp_anti _ _ Hu Hds). lia.
    + apply IH; [done|]. unfold passed. erewrite take_S_r by done. apply Forall_app_2; [done|]. constructor; [|constructor].
      rewrite Forall_forall in Hr. destruct (range_keys udom user Hudom f (Hr f ltac:(by eapply list_elem_of_lookup_2))) as (_ & Hl & _).
      pose proof (cmp_anti _ _ (proj2 (proj2 Hl)) Hu). lia.
Qed.

(** The pointers of all levels below the output level. *)
Definition ptrs_passed (v : Version) (level : Z) (u : bytes) (ptrs : list nat) : Prop :=
  length ptrs = Z.to_nat kNumLevels ∧
  ∀ lvl, level + 2 ≤ lvl → passed u (level_files v lvl) (default 0%nat (ptrs !! Z.to_nat lvl)).

Lemma passed_mono u u' files ptr :
  udom u → udom u' → Forall (range_ok udom user) files → ucmp u u' ≤ 0 → passed u files ptr → passed u' files ptr.
Proof.
  intros Hu Hu' Hr Hle Hp. unfold passed in *. rewrite Forall_forall in *. intros f Hf. specialize (Hp f Hf). apply elem_of_take in Hf as (i & Hf & _).
  destruct (range_keys udom user Hudom f (Hr f ltac:(by eapply list_elem_of_lookup_2))) as (_ & (_ & _ & Hl) & _).
  destruct (Z.eq_dec (ucmp u u') 0) as [E|E]; [apply cmp_eq in E as <-; done|]. apply (cmp_trans _ u); done || lia.
Qed.

Lemma level_beyond v lvl : length (files_ v) = Z.to_nat kNumLevels → kNumLevels ≤ lvl → level_files v lvl = [].
Proof. intros Hl Hge. unfold level_files. by rewrite lookup_ge_None_2 by lia. Qed.

Lemma BaseLevels_ok n v u level lvl ptrs :
  levels_ok udom user v → length (files_ v) = Z.to_nat kNumLevels → udom u → 0 ≤ level →
  level + 2 ≤ lvl → lvl + Z.of_nat n = kNumLevels ∨ n = 0%nat ∧ kNumLevels ≤ lvl → ptrs_passed v level u ptrs →
  let '(base, ptrs') := BaseLevels user n v u lvl ptrs in
  ptrs_passed v level u ptrs' ∧ (base = true → ∀ l f, lvl ≤ l → f ∈ level_files v l → ¬ in_range u f).
Proof.
  intros Hv Hlen Hu Hlevel. revert lvl ptrs. induction n as [|n IH]; intros lvl ptrs Hlvl Hn Hp; cbn [BaseLevels].
  - split; [done|]. intros _ l f Hl Hf. rewrite level_beyond in Hf by (done || lia). by apply not_elem_of_nil in Hf.
  - destruct Hn as [Hn|[? _]]; [|done]. set (ptr := default 0%nat (ptrs !! Z.to_nat lvl)).
    pose proof (BaseScan_ok u (level_files v lvl) ptr Hu (lo_ranges _ _ _ Hv lvl) ltac:(apply Hv; lia) (proj2 Hp lvl Hlvl)) as Hscan.
    destruct (BaseScan user u _ ptr) as [inside ptr']. destruct Hscan as [Hp' Hout].
    assert (ptrs_passed v level u (<[Z.to_nat lvl := ptr']> ptrs)) as Hp2.
    { destruct Hp as [Hpl Hp]. split; [by rewrite length_insert|]. intros l Hl. destruct (decide (l = lvl)) as [->|Hne].
      - rewrite list_lookup_insert_eq by (rewrite Hpl; lia). done.
      - rewrite list_lookup_insert_ne by lia. by apply Hp. }
    destruct inside; [done|]. specialize (IH (lvl + 1) (<[Z.to_nat lvl := ptr']> ptrs) ltac:(lia) ltac:(left; lia) Hp2).
    destruct (BaseLevels user n v u (lvl + 1) _) as [base ptrs2]. destruct IH as [Hp3 Hb]. split; [done|].
    intros Hbase l f Hl Hf. destruct (decide (l = lvl)) as [->|]; [by apply Hout|]. apply (Hb Hbase l); [lia|done].
Qed.

Lemma IsBaseLevelForKey_ok v u level ptrs :
  levels_ok udom user v → length (files_ v) = Z.to_nat kNumLevels → udom u → 0 ≤ level → ptrs_passed v level u ptrs →
  let '(base, ptrs') := IsBaseLevelForKey user u level v ptrs in
  ptrs_passed v level u ptrs' ∧ (base = true → base_level v level u).
Proof.
  intros Hv Hlen Hu Hl Hp. unfold IsBaseLevelForKey.
  pose proof (BaseLevels_ok (Z.to_nat (kNumLevels - (level + 2))) v u level (level + 2) ptrs Hv Hlen Hu Hl ltac:(lia)) as H.
  destruct (BaseLevels user _ v u (level + 2) ptrs) as [base ptrs']. apply H; [|done].
  destruct (decide (level + 2 ≤ kNumLevels)); [left; lia|right; lia].
Qed.

(** ** Lemmas: which entries are dropped *)

Context (smallest_snapshot : Z) (Hsnap : smallest_snapshot < kMaxSequenceNumber).
Context (v : Version) (level : Z) (Hv : levels_ok udom user v) (Hvlen : length (files_ v) = Z.to_nat kNumLevels) (Hlevel : 0 ≤ level).

Abbreviation entry := (bytes * bytes)%type.
Abbreviation ukey e := (ExtractUserKey (fst e)).

Definition is_deletion (e : entry) : Prop := ∃ u s, e.1 = InternalKey u s kTypeDeletion ∧ udom u ∧ 0 ≤ s ≤ kMaxSequenceNumber.

(** The input of a compaction: valid keys in order. *)
Definition sorted_input (es : list entry) : Prop :=
  Forall (λ e, valid_key e.1) es ∧ StronglySorted (λ a b, icmp a.1 b.1 < 0) es.

(** A newer entry of the same key is visible at every snapshot. *)
Definition covered (input : list entry) (e : entry) : Prop :=
  ∃ e0, e0 ∈ input ∧ icmp e0.1 e.1 < 0 ∧ ukey e0 = ukey e ∧ seq_of e0.1 ≤ smallest_snapshot.
Definition obsolete (e : entry) : Prop := is_deletion e ∧ seq_of e.1 ≤ smallest_snapshot ∧ base_level v level (ukey e).

(** The locals of the loop after the entries [pre]. *)
Definition locals_ok (pre : list entry) (current : option bytes) (last_sequence : Z) : Prop :=
  match last pre with
  | None => current = None
  | Some e0 => current = Some (ukey e0) ∧ last_sequence = seq_of e0.1
  end.

Lemma sorted_before (pre rest : list entry) e e0 :
  sorted_input (pre ++ e :: rest) → e0 ∈ pre ++ e :: rest → icmp e0.1 e.1 < 0 ↔ e0 ∈ pre.
Proof.
  intros [Hk Hs] Hin. rewrite Forall_forall in Hk.
  assert (ikey e.1) as Hie by (apply (valid_ikey udom Hudom), Hk, elem_of_app; right; by left).
  assert (ikey e0.1) as Hi0 by (by apply (valid_ikey udom Hudom), Hk).
  split; [|intros Hp; by apply (StronglySorted_app_1_elem_of _ _ _ _ _ Hs Hp); left].
  intros Hlt. apply elem_of_app in Hin as [?|[->|Hin]%elem_of_cons]; [done|exfalso..].
  - assert (icmp e.1 e.1 = 0) by (by apply (icmp_eq udom)). lia.
  - apply StronglySorted_app_1_r, StronglySorted_inv in Hs as [_ Hs]. rewrite Forall_forall in Hs. specialize (Hs e0 Hin).
    pose proof (icmp_le_lt_trans udom user HL e.1 e0.1 e.1 Hie Hi0 Hie ltac:(lia) Hlt).
    assert (icmp e.1 e.1 = 0) by (by apply (icmp_eq udom)). lia.
Qed.

(** The last entry before [e] decides whether [e] is covered. *)
Lemma covered_last (pre rest : list entry) e e0 :
  sorted_input (pre ++ e :: rest) → last pre = Some e0 →
  (covered (pre ++ e :: rest) e ↔ ukey e0 = ukey e ∧ seq_of e0.1 ≤ smallest_snapshot).
Proof.
  intros Hs Hlast. pose proof Hs as [Hk Hsort]. rewrite Forall_forall in Hk.
  assert (e0 ∈ pre) as Hin0 by by apply last_Some_elem_of. apply last_Some in Hlast as [pre' ->].
  assert (e ∈ (pre' ++ [e0]) ++ e :: rest) as Hine by (apply elem_of_app; right; by left).
  assert (e0 ∈ (pre' ++ [e0]) ++ e :: rest) as Hin0' by (apply elem_of_app; by left).
  split.
  - intros (e1 & Hin1 & Hlt & Eu & Hseq). apply (sorted_before _ _ _ _ Hs Hin1) in Hlt as Hpre.
    assert (icmp e1.1 e0.1 ≤ 0) as Hle.
    { apply elem_of_app in Hpre as [Hp| ->%list_elem_of_singleton].
      - rewrite <- app_assoc in Hsort. pose proof (StronglySorted_app_1_elem_of _ _ _ e1 e0 Hsort Hp ltac:(by left)) as Hx. cbn in Hx. lia.
      - assert (icmp e0.1 e0.1 = 0); [|lia]. apply (icmp_eq udom); try done; by apply (valid_ikey udom Hudom), Hk. }
    assert (icmp e0.1 e.1 < 0) as Hlt0 by (by apply (sorted_before _ _ _ _ Hs Hin0')).
    pose proof (valid_ikey udom Hudom _ (Hk e1 Hin1)) as Hi1. pose proof (valid_ikey udom Hudom _ (Hk e0 Hin0')) as Hi0.
    pose proof (valid_ikey udom Hudom _ (Hk e Hine)) as Hie.
    assert (ukey e0 = ukey e) as Eu0.
    { apply (ucmp_antisym udom user HL); [apply Hi0|apply Hie|apply (icmp_user udom user); [done..|lia]|].
      rewrite <- Eu. by apply (icmp_user udom user). }
    split; [done|]. etrans; [|exact Hseq]. apply (seq_mono udom user HL Hudom); [by apply Hk..|congruence|done].
  - intros [Eu Hseq]. exists e0. split; [done|]. split; [by apply (sorted_before _ _ _ _ Hs Hin0')|done].
Qed.

Lemma covered_first (rest : list entry) e : sorted_input (e :: rest) → ¬ covered (e :: rest) e.
Proof.
  intros Hs (e0 & Hin & Hlt & _). apply (sorted_before [] rest e e0 Hs Hin) in Hlt. by apply not_elem_of_nil in Hlt.
Qed.

Lemma DropEntry_ok pre e rest current last_sequence ptrs :
  sorted_input (pre ++ e :: rest) → locals_ok pre current last_sequence → ptrs_passed v level (ukey e) ptrs →
  let '(drop, current', last', ptrs') := DropEntry user smallest_snapshot e.1 level v current last_sequence ptrs in
  locals_ok (pre ++ [e]) current' last' ∧ ptrs_passed v level (ukey e) ptrs' ∧
  (drop = true → covered (pre ++ e :: rest) e ∨ obsolete e) ∧ (drop = false → ¬ covered (pre ++ e :: rest) e).
Proof.
  intros Hs Hloc Hp. pose proof Hs as [Hk _]. rewrite Forall_forall in Hk.
  assert (valid_key e.1) as Hve by (apply Hk, elem_of_app; right; by left). pose proof Hve as (u & q & t & Ek & Hu & Hq).
  assert (ukey e = u) as Eu by (rewrite Ek; by apply (InternalKey_parts udom)).
  assert (seq_of e.1 = q) as Eq by (rewrite Ek; by apply (valid_seq udom Hudom)).
  unfold DropEntry. assert (ParseInternalKey e.1 = Some {| user_key := u; sequence := q; type := t; sort_key := None |}) as -> by (by rewrite Ek, ParseInternalKey_make).
  cbn [user_key sequence type]. rewrite Eu in Hp.
  (** Whether the entry before has the same key. *)
  set (first := match current with Some u0 => negb (ucmp u u0 =? 0) | None => true end).
  set (lst := if first then kMaxSequenceNumber else last_sequence).
  assert ((lst <=? smallest_snapshot) = true ↔ covered (pre ++ e :: rest) e) as Hcov.
  { unfold lst, first, locals_ok in *. destruct (last pre) as [e0|] eqn:El.
    - destruct Hloc as [-> ->]. rewrite (covered_last pre rest e e0 Hs El), Z.leb_le.
      assert (udom (ukey e0)) as Hu0.
      { apply last_Some_elem_of in El. apply (valid_ikey udom Hudom), Hk, elem_of_app. by left. }
      rewrite Eu. destruct (Z.eqb_spec (ucmp u (ukey e0)) 0) as [E|E]; cbn [negb]; rewrite (cmp_eq _ _ Hu Hu0) in E.
      + subst u. rewrite E. tauto.
      + split; [lia|]. intros [? _]. congruence.
    - apply last_None in El as ->. subst current. rewrite Z.leb_le. split; [lia|]. intros Hc. by apply covered_first in Hc. }
  assert (locals_ok (pre ++ [e]) (if first then Some u else current) q) as Hloc'.
  { unfold locals_ok. rewrite last_snoc, Eu, Eq. split; [|done]. unfold first, locals_ok in *. destruct current as [u0|]; [|done].
    destruct (last pre) as [e0|] eqn:El; [|done]. destruct Hloc as [[= ->] _].
    assert (udom (ukey e0)) as Hu0. { apply last_Some_elem_of in El. apply (valid_ikey udom Hudom), Hk, elem_of_app. by left. }
    destruct (Z.eqb_spec (ucmp u (ukey e0)) 0) as [E|E]; cbn [negb]; [|done]. apply (cmp_eq _ _ Hu Hu0) in E. by rewrite <- E. }
  destruct (lst <=? smallest_snapshot) eqn:El.
  { rewrite Eu. split; [done|]. split; [done|]. split; [|done]. intros _. left. by apply Hcov. }
  assert (¬ covered (pre ++ e :: rest) e) as Hnc by (intros Hc%Hcov; done).
  assert (∀ b p, ptrs_passed v level u p → (b = true → obsolete e) →
    locals_ok (pre ++ [e]) (if first then Some u else current) q ∧ ptrs_passed v level (ukey e) p ∧
    (b = true → covered (pre ++ e :: rest) e ∨ obsolete e) ∧ (b = false → ¬ covered (pre ++ e :: rest) e)) as Hdone.
  { intros b p Hp' Hb. rewrite Eu. split; [done|]. split; [done|]. split; [|done]. by right; auto. }
  destruct t; [|by apply Hdone].
  destruct (Z.leb_spec q smallest_snapshot) as [Hle|]; [|by apply Hdone].
  pose proof (IsBaseLevelForKey_ok v u level ptrs Hv Hvlen Hu Hlevel Hp) as Hb. destruct (IsBaseLevelForKey user u level v ptrs) as [base ptrs'].
  destruct Hb as [Hp' Hb]. apply Hdone; [done|]. intros Hbase. split; [by exists u, q|]. rewrite Eq, Eu. split; [done|]. by apply Hb.
Qed.

Lemma ptrs_next (e e' : entry) ptrs : valid_key e.1 → valid_key e'.1 → icmp e.1 e'.1 < 0 → ptrs_passed v level (ukey e) ptrs → ptrs_passed v level (ukey e') ptrs.
Proof.
  intros He%(valid_ikey udom Hudom) He'%(valid_ikey udom Hudom) Hlt [Hl Hp]. split; [done|]. intros lvl Hlvl.
  apply (passed_mono (ukey e)); [apply He|apply He'|apply Hv|apply (icmp_user udom user); [done..|lia]|by apply Hp].
Qed.

Lemma kept_spec rest : ∀ pre current last_sequence ptrs,
  sorted_input (pre ++ rest) → locals_ok pre current last_sequence → (∀ e, e ∈ rest → ptrs_passed v level (ukey e) ptrs) →
  let out := kept_entries user smallest_snapshot rest level v current last_sequence ptrs in
  sublist out rest ∧
  ∀ e, e ∈ rest → (e ∈ out → ¬ covered (pre ++ rest) e) ∧ (e ∉ out → covered (pre ++ rest) e ∨ obsolete e).
Proof.
  induction rest as [|e rest IH]; intros pre current last_sequence ptrs Hs Hloc Hp; cbn [kept_entries].
  { split; [constructor|]. by intros e ?%not_elem_of_nil. }
  pose proof (DropEntry_ok pre e rest current last_sequence ptrs Hs Hloc (Hp e ltac:(by left))) as Hd.
  destruct (DropEntry _ _ _ _ _ _ _ _) as [[[drop current'] last'] ptrs']. destruct Hd as (Hloc' & Hp' & Hdrop & Hkeep).
  pose proof Hs as [Hk Hsort]. rewrite Forall_forall in Hk.
  assert (sorted_input ((pre ++ [e]) ++ rest)) as Hs' by (by rewrite <- app_assoc).
  assert (∀ e', e' ∈ rest → icmp e.1 e'.1 < 0) as Hafter.
  { intros e' He'. apply StronglySorted_app_1_r, StronglySorted_inv in Hsort as [_ Hsort]. rewrite Forall_forall in Hsort. by apply Hsort. }
  destruct (IH (pre ++ [e]) current' last' ptrs' Hs' Hloc') as [Hsub Hspec].
  { intros e' He'. apply (ptrs_next e e'); [apply Hk, elem_of_app; right; by left|apply Hk, elem_of_app; right; by right|by apply Hafter|done]. }
  rewrite <- app_assoc in Hspec. cbn [app] in Hspec.
  assert (e ∉ kept_entries user smallest_snapshot rest level v current' last' ptrs') as Hnot.
  { intros He. assert (e ∈ rest) as Hin by (apply (sublist_subseteq _ _ Hsub) in He; done). specialize (Hafter e Hin).
    assert (icmp e.1 e.1 = 0); [|lia]. assert (valid_key e.1) as Hve by (apply Hk, elem_of_app; right; by left).
    apply (icmp_eq udom); try done; by apply (valid_ikey udom Hudom). }
  split.
  - destruct drop; cbn; [by apply sublist_cons|by apply sublist_skip].
  - intros e' [->|He']%elem_of_cons.
    + destruct drop; cbn; [by split; [intros ?|auto]|]. split; [by intros _; apply Hkeep|]. intros Hno. exfalso. apply Hno. by left.
    + destruct (Hspec e' He') as [H1 H2]. destruct drop; cbn; [done|]. rewrite elem_of_cons. split; [|tauto].
      intros [->|?]; [|auto]. exfalso. specialize (Hafter e He'). assert (icmp e.1 e.1 = 0); [|lia].
      assert (valid_key e.1) as Hve by (apply Hk, elem_of_app; right; by left). apply (icmp_eq udom); try done; by apply (valid_ikey udom Hudom).
Qed.

(** ** Lemmas: reads before and after *)

(** Writes of one key have different sequence numbers. *)
Definition distinct_writes (es : list entry) : Prop :=
  ∀ a b, a ∈ es → b ∈ es → ukey a = ukey b → seq_of a.1 = seq_of b.1 → a = b.

Lemma newest_exists u s (es : list entry) e : e ∈ es → sees u s e → ∃ e', newest u s es e'.
Proof.
  intros Hin Hse. assert (∀ x, Decision (sees u s x)) as Hdec by (intros x; unfold sees; apply _).
  revert e Hin Hse. induction es as [|x es IH]; intros e Hin Hse; [by apply not_elem_of_nil in Hin|].
  destruct (decide (Exists (sees u s) es)) as [Hex|Hno].
  - apply Exists_exists in Hex as (y & Hy & Hsy). destruct (IH y Hy Hsy) as (m & Hm & Hsm & Hmax).
    destruct (decide (sees u s x ∧ seq_of m.1 ≤ seq_of x.1)) as [[Hsx Hle]|Hn].
    + exists x. split; [by left|]. split; [done|]. intros e' [->|He']%elem_of_cons Hse'; [done|]. specialize (Hmax e' He' Hse'). lia.
    + exists m. split; [by right|]. split; [done|]. intros e' [->|He']%elem_of_cons Hse'; [|by apply Hmax].
      destruct (decide (seq_of m.1 ≤ seq_of x.1)); [tauto|lia].
  - rewrite Exists_exists in Hno. exists e. split; [done|]. split; [done|].
    intros e' [->|He']%elem_of_cons Hse'; [|destruct Hno; by exists e']. apply elem_of_cons in Hin as [->|Hin]; [done|]. destruct Hno. by exists e.
Qed.

Lemma kept_reads input ptrs u s :
  sorted_input input → distinct_writes input → (∀ e, e ∈ input → ptrs_passed v level (ukey e) ptrs) → smallest_snapshot ≤ s →
  let out := kept_entries user smallest_snapshot input level v None kMaxSequenceNumber ptrs in
  (∀ e, newest u s input e → newest u s out e ∨ obsolete e ∧ ∀ e', e' ∈ out → ¬ sees u s e') ∧
  (∀ e, newest u s out e → newest u s input e).
Proof.
  intros Hs Hdist Hp Hsn. destruct (kept_spec input [] None kMaxSequenceNumber ptrs Hs eq_refl Hp) as [Hsub Hspec]. cbn [app] in Hspec.
  set (out := kept_entries _ _ _ _ _ _ _ _) in *. pose proof (λ x, sublist_subseteq _ _ Hsub x) as Hincl.
  pose proof Hs as [Hk _]. rewrite Forall_forall in Hk.
  (** Of two entries of a key that a snapshot sees, the newer one comes first. *)
  assert (∀ a b, a ∈ input → b ∈ input → ukey a = ukey b → a ≠ b → seq_of b.1 ≤ seq_of a.1 → icmp a.1 b.1 < 0) as Hfirst.
  { intros a b Ha Hb Eu Hne Hle. destruct (Z.lt_ge_cases (icmp a.1 b.1) 0) as [|Hge]; [done|exfalso].
    pose proof (valid_ikey udom Hudom _ (Hk a Ha)) as Hia. pose proof (valid_ikey udom Hudom _ (Hk b Hb)) as Hib.
    apply Hne, Hdist; [done..|]. assert (icmp b.1 a.1 ≤ 0) as Hba by (by apply (icmp_ge udom user HL)).
    pose proof (seq_mono udom user HL Hudom b.1 a.1 (Hk b Hb) (Hk a Ha) ltac:(congruence) Hba). lia. }
  assert (∀ e, newest u s input e → newest u s out e ∨ obsolete e ∧ ∀ e', e' ∈ out → ¬ sees u s e') as Hfwd.
  { intros e (Hin & Hse & Hmax). destruct (decide (e ∈ out)) as [Hout|Hout].
    { left. split; [done|]. split; [done|]. intros e' He'. apply Hmax. by apply Hincl. }
    right. destruct (proj2 (Hspec e Hin) Hout) as [(e0 & Hin0 & Hlt & Eu & Hq)|Hobs].
    - exfalso. assert (sees u s e0) as Hse0 by (destruct Hse; split; [congruence|lia]). specialize (Hmax e0 Hin0 Hse0).
      pose proof (seq_mono udom user HL Hudom e0.1 e.1 (Hk e0 Hin0) (Hk e Hin) Eu ltac:(lia)).
      assert (e0 = e) as -> by (apply Hdist; [done..|lia]).
      assert (icmp e.1 e.1 = 0); [|lia]. apply (icmp_eq udom); try done; by apply (valid_ikey udom Hudom), Hk.
    - split; [done|]. intros e' He' Hse'. apply Hincl in He' as Hin'. assert (e ≠ e') as Hne by (by intros ->).
      apply (proj1 (Hspec e' Hin') He'). exists e. destruct Hobs as (_ & Hq & _). destruct Hse as [Eu1 Hs1], Hse' as [Eu2 Hs2].
      split; [done|]. split; [|split; [congruence|done]]. apply Hfirst; [done..|congruence|done|]. apply Hmax; [done|by split]. }
  split; [done|]. intros e (Hout & Hse & Hmax). apply Hincl in Hout as Hin.
  destruct (newest_exists u s input e Hin Hse) as (m & Hm). destruct (Hfwd m Hm) as [(Hmo & Hsm & _)|[_ Hno]]; [|by destruct (Hno e Hout)].
  destruct Hm as (Hmi & _ & Hmmax). split; [done|]. split; [done|]. intros e' He' Hse'.
  specialize (Hmmax e' He' Hse'). specialize (Hmax m Hmo Hsm). lia.
Qed.

End drops.

(** ** Properties *)

(** C13: a compaction loses nothing that a reader can see. In every mode but 9,
    where the code rewrites values as well, and when every file operation
    succeeds, [DoCompactionWork] ends ok; its outputs, one after the other, hold a
    subsequence of the merged input, each output naming its first and last key.
    For every snapshot that may still be read, the newest visible entry of a key
    is the same before and after, or it was a deletion, the outputs have no entry
    of the key that the snapshot sees, and no deeper level can hold the key. *)
Theorem compaction_keeps_reads `{SN : !Snappy} opt udom user MOD new_number open_ok finish_ok input_ok shutting_down smallest_snapshot use_dropmap
    level max_size v inputs0 inputs1 grandparents input :
  MOD ≠ 9 → ComparatorLaws udom user → (∀ u, udom u → bytes_ok u) →
  (∀ n, open_ok n = true) → (∀ n, finish_ok n = true) → (∀ n, input_ok n = true) → (∀ n, shutting_down n = false) →
  0 ≤ level → levels_ok udom user v → length (files_ v) = Z.to_nat kNumLevels → smallest_snapshot < kMaxSequenceNumber →
  sorted_input udom user input → distinct_writes input →
  ∃ st, DoCompactionWork opt user MOD new_number open_ok finish_ok input_ok shutting_down smallest_snapshot use_dropmap input
      (NewCompaction level max_size v inputs0 inputs1 grandparents) = (st, None) ∧
    Forall output_ok (outputs st) ∧ sublist (written (outputs st)) input ∧
    ∀ u s, smallest_snapshot ≤ s →
      (∀ e, newest u s input e → newest u s (written (outputs st)) e ∨
         obsolete udom user smallest_snapshot v level e ∧ ∀ e', e' ∈ written (outputs st) → ¬ sees u s e') ∧
      (∀ e, newest u s (written (outputs st)) e → newest u s input e).
Proof.
  intros _ HL Hud Hopen Hfinish Hinput Hrun Hlevel Hv Hlen Hsnap Hs Hdist. set (c := NewCompaction _ _ _ _ _ _).
  destruct (DoCompactionWork_total opt user MOD new_number open_ok finish_ok input_ok shutting_down smallest_snapshot use_dropmap Hopen Hfinish Hinput input c Hrun) as (st & Hst).
  exists st. split; [done|]. destruct (DoCompactionWork_written _ _ _ _ _ _ _ _ _ _ _ _ _ Hrun Hst) as [Hok Hw]. split; [done|]. rewrite Hw. cbn [c NewCompaction level_ input_version_ level_ptrs_].
  assert (∀ e, e ∈ input → ptrs_passed user v level (ExtractUserKey e.1) (replicate (Z.to_nat kNumLevels) 0%nat)) as Hp.
  { intros e _. split; [done|]. intros lvl _. destruct (replicate (Z.to_nat kNumLevels) 0%nat !! Z.to_nat lvl) as [n|] eqn:E; [|constructor].
    apply lookup_replicate in E as [-> _]. constructor. }
  split.
  - by apply (kept_spec udom user HL Hud smallest_snapshot Hsnap v level Hv Hlen Hlevel input [] None kMaxSequenceNumber).
  - intros u s Hle. by apply (kept_reads udom user HL Hud smallest_snapshot Hsnap v level Hv Hlen Hlevel).
Qed.

(** ** Witnesses *)

Definition compaction_input : list (bytes * bytes) :=
  [(InternalKey [97] 3 kTypeValue, [1]); (InternalKey [98] 7 kTypeValue, [2]); (InternalKey [98] 4 kTypeDeletion, [])].

Definition compaction_options : Options := {|
  comparator := InternalKeyComparator.comparator Bytewise.comparator; block_size := 4096; block_restart_interval := 16;
  compression := kNoCompression; filter_policy := None |}.

Abbreviation example_work := (DoCompactionWork (SN := no_snappy) compaction_options Bytewise.comparator 0 (λ n, 12 + Z.of_nat n)
  (λ _, true) (λ _, true) (λ _, true) (λ _, false) 6 false compaction_input (NewCompaction 0 2000000 example_version [file3; file5] [file2] [])).

Lemma compaction_input_sorted : sorted_input bytes_ok Bytewise.comparator compaction_input.
Proof.
  split.
  - repeat constructor; eexists _, _, _; (split; [reflexivity|]); split; [by_decide|done|by_decide|done|by_decide|done].
  - repeat constructor; by vm_compute.
Qed.

Lemma compaction_input_distinct : distinct_writes compaction_input.
Proof.
  intros a b Ha Hb. unfold compaction_input in *.
  repeat (apply elem_of_cons in Ha as [->|Ha]; [|try (by apply not_elem_of_nil in Ha)]);
  repeat (apply elem_of_cons in Hb as [->|Hb]; [|try (by apply not_elem_of_nil in Hb)]); by vm_compute.
Qed.

Lemma compaction_keeps_reads_witness :
  ∃ st, example_work = (st, None) ∧
    Forall output_ok (outputs st) ∧ sublist (written (outputs st)) compaction_input ∧
    ∀ u s, 6 ≤ s →
      (∀ e, newest u s compaction_input e → newest u s (written (outputs st)) e ∨
         obsolete bytes_ok Bytewise.comparator 6 example_version 0 e ∧ ∀ e', e' ∈ written (outputs st) → ¬ sees u s e') ∧
      (∀ e, newest u s (written (outputs st)) e → newest u s compaction_input e).
Proof.
  apply (compaction_keeps_reads (SN := no_snappy) compaction_options bytes_ok Bytewise.comparator); try done.
  - apply _.
  - split; [apply example_ranges|apply example_sorted|apply example_count].
  - apply compaction_input_sorted.
  - apply compaction_input_distinct.
Defined.
