(* ===== verification/CompactionPick.v ===== *)
(** * Choosing the inputs of a compaction

    db/version_set.cc: [PickCompaction], [CompactRange] and [SetupOtherInputs].
    The inputs of the upper level are extended to boundary files, those of the
    lower level to the files that overlap. *)

From Stdlib Require Import Sorted.
From stdpp Require Import sorting.
From S2P Require Import Prelude Coding Comparator DBFormat Block Format TableBuilder VersionEdit Version VersionSet Compaction.

Section pick.

Context (user : Comparator).

Abbreviation icmp := (InternalKeyComparator.Compare user).
Abbreviation ucmp := (Compare user).

(** [None]: the assertion that the inputs are not empty. *)
Definition GetRange (inputs : list FileMetaData) : option (bytes * bytes) :=
  match inputs with
  | [] => None
  | f :: inputs =>
      Some (foldl (λ r f, (if icmp (smallest f) r.1 <? 0 then smallest f else r.1, if icmp (largest f) r.2 >? 0 then largest f else r.2))
              (smallest f, largest f) inputs)
  end.

Definition GetRange2 (inputs1 inputs2 : list FileMetaData) : option (bytes * bytes) := GetRange (inputs1 ++ inputs2).

Definition FindLargestKey (files : list FileMetaData) : option bytes :=
  match files with
  | [] => None
  | f :: files => Some (foldl (λ k f, if icmp (largest f) k >? 0 then largest f else k) (largest f) files)
  end.

Definition FindSmallestBoundaryFile (level_files : list FileMetaData) (largest_key : bytes) : option FileMetaData :=
  foldl (λ best f,
    if (icmp (smallest f) largest_key >? 0) && (ucmp (ExtractUserKey (smallest f)) (ExtractUserKey largest_key) =? 0) then
      match best with
      | None => Some f
      | Some b => if icmp (smallest f) (smallest b) <? 0 then Some f else best
      end
    else best) None level_files.

(** The [while]: the files that are added. *)
Fixpoint Boundary_loop (fuel : nat) (level_files : list FileMetaData) (largest_key : bytes) : option (list FileMetaData) :=
  match FindSmallestBoundaryFile level_files largest_key with
  | None => Some []
  | Some f =>
      match fuel with
      | O => None
      | S fuel => added ← Boundary_loop fuel level_files (largest f); Some (f :: added)
      end
  end.

Definition AddBoundaryInputs (level_files compaction_files : list FileMetaData) : option (list FileMetaData) :=
  match FindLargestKey compaction_files with
  | None => Some compaction_files
  | Some largest_key => added ← Boundary_loop (length level_files) level_files largest_key; Some (compaction_files ++ added)
  end.

(** What [SetupOtherInputs] leaves in the compaction: both inputs, the
    grandparents, and the new compaction pointer of the level. *)
Record Setup := { su_inputs0 : list FileMetaData; su_inputs1 : list FileMetaData; su_grandparents : list FileMetaData; su_pointer : bytes }.

Definition Overlapping (v : Version) (level : Z) (smallest largest : bytes) : option (list FileMetaData) :=
  GetOverlappingInputs user level (level_files v level) (Some smallest) (Some largest).

Definition SetupOtherInputs (max_file_size : Z) (v : Version) (level : Z) (inputs0 : list FileMetaData) : option Setup :=
  inputs0 ← AddBoundaryInputs (level_files v level) inputs0;
  '(smallest, largest) ← GetRange inputs0;
  inputs1 ← Overlapping v (level + 1) smallest largest;
  '(all_start, all_limit) ← GetRange2 inputs0 inputs1;
  '(largest, all_start, all_limit, inputs0, inputs1) ←
    match inputs1 with
    | [] => Some (largest, all_start, all_limit, inputs0, inputs1)
    | _ =>
        expanded0 ← Overlapping v level all_start all_limit;
        expanded0 ← AddBoundaryInputs (level_files v level) expanded0;
        if (length inputs0 <? length expanded0)%nat &&
           (i64 (TotalFileSize inputs1 + TotalFileSize expanded0) <? ExpandedCompactionByteSizeLimit max_file_size) then
          '(new_start, new_limit) ← GetRange expanded0;
          expanded1 ← Overlapping v (level + 1) new_start new_limit;
          if (length expanded1 =? length inputs1)%nat then
            '(all_start, all_limit) ← GetRange2 expanded0 expanded1;
            Some (new_limit, all_start, all_limit, expanded0, expanded1)
          else Some (largest, all_start, all_limit, inputs0, inputs1)
        else Some (largest, all_start, all_limit, inputs0, inputs1)
    end;
  grandparents ← (if level + 2 <? kNumLevels then Overlapping v (level + 2) all_start all_limit else Some []);
  Some {| su_inputs0 := inputs0; su_inputs1 := inputs1; su_grandparents := grandparents; su_pointer := largest |}.

(** The first file after the pointer, or the first of the level. *)
Definition FirstAfter (pointer : bytes) (files : list FileMetaData) : option FileMetaData :=
  match filter (λ f, pointer = [] ∨ 0 < icmp (largest f) pointer) files with
  | f :: _ => Some f
  | [] => head files
  end.

(** [size_level] is the level whose score is at least 1, [seek] the file that
    has spent its seeks, with its level. [None] for the result: nothing to do. *)
Definition PickCompaction (max_file_size : Z) (v : Version) (compact_pointer : list bytes) (size_level : option Z) (seek : option (FileMetaData * Z))
    : option (option (Compaction * list bytes * VersionEdit)) :=
  match (match size_level with
         | Some level => Some (level, FirstAfter (default [] (compact_pointer !! Z.to_nat level)) (level_files v level))
         | None => match seek with Some (f, level) => Some (level, Some f) | None => None end
         end) with
  | None => Some None
  | Some (level, picked) =>
      f ← picked;
      inputs0 ← (if level =? 0 then '(smallest, largest) ← GetRange [f]; Overlapping v 0 smallest largest else Some [f]);
      s ← SetupOtherInputs max_file_size v level inputs0;
      Some (Some (NewCompaction level max_file_size v (su_inputs0 s) (su_inputs1 s) (su_grandparents s),
                  <[Z.to_nat level := su_pointer s]> compact_pointer, SetCompactPointer level (su_pointer s) NewVersionEdit))
  end.

(** Inputs up to the first that reaches the limit. *)
Fixpoint CutInputs (limit total : Z) (inputs : list FileMetaData) : list FileMetaData :=
  match inputs with
  | [] => []
  | f :: inputs => let total := u64 (total + file_size f) in f :: (if total >=? limit then [] else CutInputs limit total inputs)
  end.

Definition CompactRange (max_file_size : Z) (v : Version) (compact_pointer : list bytes) (level : Z) (begin end_ : option bytes)
    : option (option (Compaction * list bytes * VersionEdit)) :=
  inputs ← GetOverlappingInputs user level (level_files v level) begin end_;
  match inputs with
  | [] => Some None
  | _ =>
      let inputs := if level >? 0 then CutInputs max_file_size 0 inputs else inputs in
      s ← SetupOtherInputs max_file_size v level inputs;
      Some (Some (NewCompaction level max_file_size v (su_inputs0 s) (su_inputs1 s) (su_grandparents s),
                  <[Z.to_nat level := su_pointer s]> compact_pointer, SetCompactPointer level (su_pointer s) NewVersionEdit))
  end.

End pick.

(** ** Lemmas: boundary files *)

Section boundary.

Context (udom : bytes → Prop) (user : Comparator) (HL : ComparatorLaws udom user).
Context (Hudom : ∀ u, udom u → bytes_ok u).

Abbreviation icmp := (InternalKeyComparator.Compare user).
Abbreviation ucmp := (Compare user).
Abbreviation ikey := (ikey_ok udom).

(** [f] starts after the key, with its user key. *)
Definition boundary (key : bytes) (f : FileMetaData) : Prop :=
  0 < icmp (smallest f) key ∧ ExtractUserKey (smallest f) = ExtractUserKey key.

Lemma boundary_test key f : ikey key → range_ok udom user f →
  (icmp (smallest f) key >? 0) && (ucmp (ExtractUserKey (smallest f)) (ExtractUserKey key) =? 0) = true ↔ boundary key f.
Proof.
  intros Hk Hr. destruct (range_keys udom user Hudom f Hr) as ((_ & _ & Hs) & _ & _). unfold boundary.
  rewrite andb_true_iff, Z.gtb_lt, Z.eqb_eq. by rewrite (cmp_eq _ _ Hs (proj2 (proj2 Hk))).
Qed.

Lemma FindSmallestBoundaryFile_ok files key :
  ikey key → Forall (range_ok udom user) files →
  match FindSmallestBoundaryFile user files key with
  | Some f => f ∈ files ∧ boundary key f ∧ ∀ g, g ∈ files → boundary key g → icmp (smallest f) (smallest g) ≤ 0
  | None => ∀ f, f ∈ files → ¬ boundary key f
  end.
Proof.
  intros Hk Hr. unfold FindSmallestBoundaryFile. induction files as [|f files IH] using rev_ind; [by intros f ?%not_elem_of_nil|].
  apply Forall_app in Hr as [Hr Hf]. inversion_clear Hf as [|? ? Hrf _]. specialize (IH Hr). rewrite foldl_app. cbn [foldl].
  set (best := foldl _ None files) in *. pose proof (boundary_test key f Hk Hrf) as Ht.
  assert (icmp (smallest f) (smallest f) = 0) as Hrefl.
  { destruct (range_keys udom user Hudom f Hrf) as (? & _). by apply (icmp_eq udom). }
  destruct (_ && _) eqn:Eb.
  - assert (boundary key f) as Hbf by (by apply Ht). destruct best as [b|].
    + destruct IH as (Hb & Hbb & Hmin). rewrite Forall_forall in Hr.
      destruct (range_keys udom user Hudom f Hrf) as (Hsf & _). destruct (range_keys udom user Hudom b (Hr b Hb)) as (Hsb & _).
      destruct (Z.ltb_spec (icmp (smallest f) (smallest b)) 0) as [Hlt|Hge].
      * split; [apply elem_of_app; right; by left|]. split; [done|]. intros g [Hg| ->%list_elem_of_singleton]%elem_of_app Hbg; [|lia].
        destruct (range_keys udom user Hudom g (Hr g Hg)) as (Hsg & _). specialize (Hmin g Hg Hbg).
        pose proof (icmp_lt_le_trans udom user HL _ _ _ Hsf Hsb Hsg Hlt Hmin). lia.
      * split; [apply elem_of_app; by left|]. split; [done|]. intros g [Hg| ->%list_elem_of_singleton]%elem_of_app Hbg; [by apply Hmin|].
        by apply (icmp_ge udom user HL).
    + split; [apply elem_of_app; right; by left|]. split; [done|]. intros g [Hg| ->%list_elem_of_singleton]%elem_of_app Hbg; [by destruct (IH g Hg)|lia].
  - assert (¬ boundary key f) as Hbf by (intros ?%Ht; done). destruct best as [b|].
    + destruct IH as (Hb & Hbb & Hmin). split; [apply elem_of_app; by left|]. split; [done|].
      intros g [Hg| ->%list_elem_of_singleton]%elem_of_app Hbg; [by apply Hmin|done].
    + intros g [Hg| ->%list_elem_of_singleton]%elem_of_app; [by apply IH|done].
Qed.

(** The files that start after a key: the measure of the loop. *)
Definition after (key : bytes) (files : list FileMetaData) : list FileMetaData := filter (λ f, 0 < icmp (smallest f) key) files.

Lemma after_shrinks key f files :
  ikey key → Forall (range_ok udom user) files → f ∈ files → boundary key f → (length (after (largest f) files) < length (after key files))%nat.
Proof.
  intros Hk Hr Hf [Hb _]. rewrite Forall_forall in Hr. destruct (range_keys udom user Hudom f (Hr f Hf)) as (Hsf & Hlf & Hle).
  unfold after. apply (filter_shrinks _ _ files f); [|done|done|].
  - intros g Hg Hlt. destruct (range_keys udom user Hudom g (Hr g Hg)) as (Hsg & _).
    apply (icmp_anti udom user) in Hb, Hlt; try done. apply (icmp_anti udom user); try done.
    pose proof (icmp_le_lt_trans udom user HL _ _ _ Hsf Hlf Hsg Hle Hlt).
    apply (icmp_lt_le_trans udom user HL key (smallest f)); done || lia.
  - lia.
Qed.

Lemma Boundary_loop_ok files : ∀ fuel key,
  ikey key → Forall (range_ok udom user) files → (length (after key files) ≤ fuel)%nat →
  ∃ added, Boundary_loop user fuel files key = Some added ∧
    (∀ f, f ∈ added → f ∈ files ∧ 0 < icmp (smallest f) key) ∧
    let last_key := default key (largest <$> last added) in
    (∀ f, f ∈ added → icmp (largest f) last_key ≤ 0) ∧ icmp key last_key ≤ 0 ∧ ikey last_key ∧ ∀ f, f ∈ files → ¬ boundary last_key f.
Proof.
  induction fuel as [|fuel IH]; intros key Hk Hr Hn; cbn [Boundary_loop];
    pose proof (FindSmallestBoundaryFile_ok files key Hk Hr) as Hf; destruct (FindSmallestBoundaryFile user files key) as [f|].
  1: { destruct Hf as (Hin & Hb & _). exfalso. assert (f ∈ after key files) as Ha by (apply list_elem_of_filter; split; [apply Hb|done]).
       destruct (after key files); [by apply not_elem_of_nil in Ha|cbn in Hn; lia]. }
  1,3: exists []; split; [done|]; split; [by intros ? ?%not_elem_of_nil|]; cbn; split; [by intros ? ?%not_elem_of_nil|];
       split; [|done]; assert (icmp key key = 0) by (by apply (icmp_eq udom)); lia.
  destruct Hf as (Hin & Hb & _). pose proof Hr as Hr'. rewrite Forall_forall in Hr'. destruct (range_keys udom user Hudom f (Hr' f Hin)) as (Hsf & Hlf & Hle).
  pose proof (after_shrinks key f files Hk Hr Hin Hb) as Hsh.
  destruct (IH (largest f) Hlf Hr ltac:(lia)) as (added & -> & Hsub & Hmax & Hge & Hik & Hclosed). cbn [mbind option_bind].
  assert (icmp key (smallest f) < 0) as Hks by (apply (icmp_anti udom user); [done..|apply Hb]).
  assert (icmp key (largest f) < 0) as Hkl by (by apply (icmp_lt_le_trans udom user HL _ (smallest f))).
  exists (f :: added). split; [done|]. split.
  { intros g [->|Hg]%elem_of_cons; [split; [done|apply Hb]|]. destruct (Hsub g Hg) as [Hgin Hg']. split; [done|].
    destruct (range_keys udom user Hudom g (Hr' g Hgin)) as (Hsg & _). apply (icmp_anti udom user); [done..|]. apply (icmp_anti udom user) in Hg'; [|done..].
    apply (icmp_lt_le_trans udom user HL _ (largest f)); done || lia. }
  assert (default key (largest <$> last (f :: added)) = default (largest f) (largest <$> last added)) as -> by (destruct added as [|x added]; [done|]; rewrite last_cons_cons; destruct (last (x :: added)) eqn:E; [done|]; by apply last_None in E).
  cbn zeta. split; [|split; [|done]].
  - intros g [->|Hg]%elem_of_cons; [done|by apply Hmax].
  - pose proof (icmp_lt_le_trans udom user HL _ _ _ Hk Hlf Hik Hkl Hge). lia.
Qed.

Lemma FindLargestKey_ok files :
  Forall (range_ok udom user) files → files ≠ [] →
  ∃ key, FindLargestKey user files = Some key ∧ ikey key ∧ (∃ f, f ∈ files ∧ largest f = key) ∧ ∀ f, f ∈ files → icmp (largest f) key ≤ 0.
Proof.
  intros Hr Hne. destruct files as [|f0 files]; [done|]. clear Hne. cbn [FindLargestKey]. eexists. split; [reflexivity|].
  induction files as [|f files IH] using rev_ind.
  { cbn. inversion_clear Hr as [|? ? Hf _]. destruct (range_keys udom user Hudom f0 Hf) as (_ & Hl & _).
    split; [done|]. split; [exists f0; split; [by left|done]|]. intros f ->%list_elem_of_singleton. assert (icmp (largest f0) (largest f0) = 0) by (by apply (icmp_eq udom)). lia. }
  rewrite app_comm_cons in Hr. apply Forall_app in Hr as [Hr Hf]. inversion_clear Hf as [|? ? Hrf _]. specialize (IH Hr). rewrite foldl_app. cbn [foldl].
  set (key := foldl _ (largest f0) files) in *. destruct IH as (Hk & (f1 & Hf1 & Ef1) & Hmax).
  destruct (range_keys udom user Hudom f Hrf) as (_ & Hl & _). rewrite app_comm_cons. rewrite Forall_forall in Hr. rewrite Z.gtb_ltb.
  destruct (Z.ltb_spec 0 (icmp (largest f) key)) as [Hgt|Hle].
  - split; [done|]. split; [exists f; split; [apply elem_of_app; right; by left|done]|].
    intros g [Hg| ->%list_elem_of_singleton]%elem_of_app; [|assert (icmp (largest f) (largest f) = 0) by (by apply (icmp_eq udom)); lia].
    destruct (range_keys udom user Hudom g (Hr g Hg)) as (_ & Hlg & _). apply (icmp_anti udom user) in Hgt; [|done..].
    pose proof (icmp_le_lt_trans udom user HL _ _ _ Hlg Hk Hl (Hmax g Hg) Hgt). lia.
  - split; [done|]. split; [exists f1; split; [apply elem_of_app; by left|done]|].
    intros g [Hg| ->%list_elem_of_singleton]%elem_of_app; [by apply Hmax|done].
Qed.

End boundary.

(** ** Properties *)

(** [AddBoundaryInputs] ends and closes the inputs. The files it adds are
    of the level and start after the inputs, and no file of the level that
    starts after the largest key of the result shares that key's user key. *)
Theorem boundary_inputs_closed udom user level_files inputs :
  ComparatorLaws udom user → (∀ u, udom u → bytes_ok u) →
  Forall (range_ok udom user) level_files → Forall (range_ok udom user) inputs → inputs ≠ [] →
  ∃ added key, AddBoundaryInputs user level_files inputs = Some (inputs ++ added) ∧
    (∀ f, f ∈ added → f ∈ level_files ∧ ∀ g, g ∈ inputs → 0 < InternalKeyComparator.Compare user (smallest f) (largest g)) ∧
    (∀ f, f ∈ inputs ++ added → InternalKeyComparator.Compare user (largest f) key ≤ 0) ∧
    ∀ f, f ∈ level_files → 0 < InternalKeyComparator.Compare user (smallest f) key → ExtractUserKey (smallest f) ≠ ExtractUserKey key.
Proof.
  intros HL Hud Hlf Hin Hne. unfold AddBoundaryInputs.
  destruct (FindLargestKey_ok udom user HL Hud inputs Hin Hne) as (k0 & -> & Hk0 & _ & Hmax).
  destruct (Boundary_loop_ok udom user HL Hud level_files (length level_files) k0 Hk0 Hlf) as (added & -> & Hsub & Hadd & Hge & Hik & Hclosed).
  { apply length_filter. }
  cbn [mbind option_bind]. eexists added, _. split; [done|]. rewrite Forall_forall in Hin, Hlf. split; [|split].
  - intros f Hf. destruct (Hsub f Hf) as [Hf' Hlt]. split; [done|]. intros g Hg.
    destruct (range_keys udom user Hud f (Hlf f Hf')) as (Hsf & _). destruct (range_keys udom user Hud g (Hin g Hg)) as (_ & Hlg & _).
    apply (icmp_anti udom user); [done..|]. apply (icmp_anti udom user) in Hlt; [|done..].
    apply (icmp_le_lt_trans udom user HL _ k0); auto.
  - intros f [Hf|Hf]%elem_of_app; [|by apply Hadd]. destruct (range_keys udom user Hud f (Hin f Hf)) as (_ & Hl & _).
    apply (icmp_le_trans udom user HL _ k0); auto.
  - intros f Hf Hlt E. apply (Hclosed f Hf). by split.
Qed.

(** ** Defects *)

Definition bentries9 : list (bytes * bytes) := [(InternalKey [97] 20 kTypeValue, [1])].
Definition bentries5 : list (bytes * bytes) := [(InternalKey [97] 3 kTypeValue, [2]); (InternalKey [117] 10 kTypeDeletion, [])].
Definition bentries6 : list (bytes * bytes) := [(InternalKey [117] 5 kTypeValue, [7; 7]); (InternalKey [122] 1 kTypeValue, [3])].

Definition file_of_entries (n : Z) (es : list (bytes * bytes)) : FileMetaData :=
  with_seeks (NewFileMeta n 100 (default [] (fst <$> head es)) (default [] (fst <$> last es))).
Definition bfile9 := file_of_entries 9 bentries9.
Definition bfile5 := file_of_entries 5 bentries5.
Definition bfile6 := file_of_entries 6 bentries6.

(** A user key, 117, whose deletion ends one file of level 1 and whose older
    value starts the next. *)
Definition straddling : Version := {| files_ := [[bfile9]; [bfile5; bfile6]; []; []; []; []; []]; vfiles_ := replicate 7 []; dep_map_ := ∅ |}.

Definition straddling_store : VersionSet (F := bytes) := {|
  next_file_number_ := 12; manifest_file_number_ := 0; vs_last_sequence_ := 30; vs_log_number_ := 11; vs_prev_log_number_ := 0;
  descriptor_log_ := None; current_ := straddling; compact_pointer_ := replicate 7 []; compact_vpointers_ := replicate 7 [] |}.

Definition straddling_options : Options := {|
  comparator := InternalKeyComparator.comparator Bytewise.comparator; block_size := 4096; block_restart_interval := 16;
  compression := kNoCompression; filter_policy := None |}.

Definition straddling_setup : option Setup := SetupOtherInputs Bytewise.comparator 2000000 straddling 0 [bfile9].

(** The compaction over the inputs that were chosen, in merged order. *)
Definition straddling_work : CompactionState * option CompactionError :=
  DoCompactionWork (SN := no_snappy) straddling_options Bytewise.comparator 0 (λ n, 12 + Z.of_nat n) (λ _, true) (λ _, true) (λ _, true) (λ _, false) 30 false
    (bentries9 ++ bentries5) (NewCompaction 0 2000000 straddling [bfile9] [bfile5] []).

Definition straddling_after : Version :=
  match NextVersion false 0 Bytewise.comparator map_to_list (InstallEdit straddling_work.1 NewVersionEdit) straddling_store with
  | Some (v, _, _) => v
  | None => straddling
  end.

Definition straddling_reader : TableReader unit := λ f k _, Some
  (find_at Bytewise.comparator k
     (if number f =? 9 then bentries9 else if number f =? 5 then bentries5 else if number f =? 6 then bentries6
      else default [] (o_entries <$> head (filter (λ o, o_number o = number f) (outputs straddling_work.1)))), true, ()).

(** C39: a compaction can bring a deleted key back. [SetupOtherInputs] extends
    the inputs of the upper level to boundary files but not those of the lower
    level. Where a deletion ends one file of the lower level and the value it
    hides starts the next, only the first is compacted, the deletion is dropped
    as obsolete, and a lookup that found nothing finds the old value. *)
Theorem boundary_compaction_resurrects :
  (su_inputs0 <$> straddling_setup) = Some [bfile9] ∧ (su_inputs1 <$> straddling_setup) = Some [bfile5] ∧
  straddling_work.2 = None ∧ written (outputs straddling_work.1) = bentries9 ∧
  (λ r, r.1.1) <$> Version_Get (T := straddling_reader) Bytewise.comparator straddling (MakeLookupKey [117] 30) [] () = Some (GetNotFound, []) ∧
  (λ r, r.1.1) <$> Version_Get (T := straddling_reader) Bytewise.comparator straddling_after (MakeLookupKey [117] 30) [] () = Some (GetOk, [7; 7]).
Proof. split_and!; vm_compute; reflexivity. Qed.

(** ** Witnesses *)

(** A boundary file after a file that ends with the same user key. *)
Lemma boundary_inputs_closed_witness :
  AddBoundaryInputs Bytewise.comparator [bfile5; bfile6] [bfile5] = Some ([bfile5] ++ [bfile6]) ∧
  ∃ added key, AddBoundaryInputs Bytewise.comparator [bfile5; bfile6] [bfile5] = Some ([bfile5] ++ added) ∧
    (∀ f, f ∈ added → f ∈ [bfile5; bfile6] ∧ ∀ g, g ∈ [bfile5] → 0 < InternalKeyComparator.Compare Bytewise.comparator (smallest f) (largest g)) ∧
    (∀ f, f ∈ [bfile5] ++ added → InternalKeyComparator.Compare Bytewise.comparator (largest f) key ≤ 0) ∧
    ∀ f, f ∈ [bfile5; bfile6] → 0 < InternalKeyComparator.Compare Bytewise.comparator (smallest f) key → ExtractUserKey (smallest f) ≠ ExtractUserKey key.
Proof.
  assert (range_ok bytes_ok Bytewise.comparator bfile5 ∧ range_ok bytes_ok Bytewise.comparator bfile6) as [H5 H6].
  { split; (split; [|split; [|by vm_compute]]); eexists _, _, _; (split; [reflexivity|]); (split; [by_decide|done]). }
  split; [by vm_compute|].
  apply (boundary_inputs_closed bytes_ok Bytewise.comparator [bfile5; bfile6] [bfile5] bytewise_laws (λ u H, H)); [|by apply Forall_singleton|done].
  apply Forall_cons. split; [done|]. by apply Forall_singleton.
Defined.
