(* ===== verification/Iterator.v ===== *)
(** * Iterators: the interface and its laws

    include/leveldb/iterator.h, table/iterator.cc and table/iterator_wrapper.h.
    An iterator is lawful when it follows the abstract cursor of [Block] over a
    sorted list of entries; the merging, two-level and database iterators take
    lawful iterators and are proved lawful themselves. *)

From Stdlib Require Import Sorted.
From S2P Require Import Prelude Comparator Block.

Abbreviation entry := (bytes * bytes)%type.

(** Closed lists of entries are sorted by evaluation. *)
Ltac sorted_keys := unfold keys_sorted; repeat first [apply SSorted_cons | apply SSorted_nil | apply Forall_cons; split | apply Forall_nil | reflexivity].

(** ** The interface *)

(** [None]: an assertion fails or a loop inside runs out of fuel. *)
Class Iterator (T : Type) := {
  Valid : T → bool;
  key : T → bytes;
  value : T → bytes;
  status_ok : T → bool;
  move : Cursor.op → T → option T
}.

Abbreviation Seek target := (move (Cursor.Seek target)).
Abbreviation SeekToFirst := (move Cursor.SeekToFirst).
Abbreviation SeekToLast := (move Cursor.SeekToLast).
Abbreviation Next := (move Cursor.Next).
Abbreviation Prev := (move Cursor.Prev).

Fixpoint moves `{Iterator T} (l : list Cursor.op) (it : T) : option T :=
  match l with
  | [] => Some it
  | o :: l' => it ← move o it; moves l' it
  end.

(** What an iterator promises: [at_pos es it pos] says that it stands at
    position [pos] of the entries [es]. *)
Class IteratorLaws (T : Type) `{Iterator T} (dom : bytes → Prop) (c : Comparator) (at_pos : list entry → T → option nat → Prop) : Prop := {
  it_sorted es it pos : at_pos es it pos → keys_sorted c es;
  it_dom es it pos : at_pos es it pos → Forall (λ e, dom e.1) es;
  it_valid es it pos : at_pos es it pos → Valid it = bool_decide (is_Some pos);
  it_entry es it i : at_pos es it (Some i) → es !! i = Some (key it, value it);
  it_status es it pos : at_pos es it pos → status_ok it = true;
  it_move es it pos o pos' : at_pos es it pos → Cursor.targets_in dom [o] → Cursor.step c es pos o = Some pos' →
    ∃ it', move o it = Some it' ∧ at_pos es it' pos'
}.

Lemma it_is_valid `{Iterator T} {dom : bytes → Prop} {c at_pos} `{!IteratorLaws T dom c at_pos} es it i : at_pos es it (Some i) → Valid it = true.
Proof. apply it_valid. Qed.

Lemma it_not_valid `{Iterator T} {dom : bytes → Prop} {c at_pos} `{!IteratorLaws T dom c at_pos} es it : at_pos es it None → Valid it = false.
Proof. apply it_valid. Qed.

Lemma it_moves `{Iterator T} {dom : bytes → Prop} {c at_pos} `{!IteratorLaws T dom c at_pos} es l : ∀ it pos pos',
  at_pos es it pos → Cursor.targets_in dom l → Cursor.run c es pos l = Some pos' →
  ∃ it', moves l it = Some it' ∧ at_pos es it' pos'.
Proof.
  induction l as [|o l IH]; intros it pos pos' Hat Ht Hrun; cbn [Cursor.run moves] in *; [simplify_eq; eauto|].
  apply Forall_cons in Ht as [Ho Ht]. destruct (Cursor.step c es pos o) as [pos1|] eqn:Hs; [|done]. cbn [mbind option_bind] in Hrun.
  destruct (it_move es it pos o pos1 Hat) as (it1 & -> & Hat1); [by constructor|done|]. cbn [mbind option_bind]. by apply (IH it1 pos1).
Qed.

(** An iterator that shows what the cursor over [es] shows at [pos]. *)
Definition shows `{Iterator T} (es : list entry) (it : T) (pos : option nat) : Prop :=
  status_ok it = true ∧
  match pos with
  | Some i => Valid it = true ∧ es !! i = Some (key it, value it)
  | None => Valid it = false
  end.

Lemma it_shows `{Iterator T} {dom : bytes → Prop} {c at_pos} `{!IteratorLaws T dom c at_pos} es it pos : at_pos es it pos → shows es it pos.
Proof.
  intros Hat. split; [exact (it_status _ _ _ Hat)|]. destruct pos as [i|]; [|exact (it_not_valid _ _ Hat)].
  split; [exact (it_is_valid _ _ _ Hat)|exact (it_entry _ _ _ Hat)].
Qed.

(** ** The empty iterator *)

Inductive EmptyIterator := NewEmptyIterator (ok : bool).

Definition empty_move (o : Cursor.op) (it : EmptyIterator) : option EmptyIterator :=
  match o with Cursor.Next | Cursor.Prev => None | _ => Some it end.

#[export] Instance empty_iterator : Iterator EmptyIterator := {|
  Valid _ := false; key _ := []; value _ := []; status_ok '(NewEmptyIterator ok) := ok; move := empty_move |}.

Definition empty_at (es : list entry) (it : EmptyIterator) (pos : option nat) : Prop := es = [] ∧ it = NewEmptyIterator true ∧ pos = None.

#[export] Instance empty_laws dom c : IteratorLaws EmptyIterator dom c empty_at.
Proof.
  split.
  - intros es it pos (-> & _). constructor.
  - intros es it pos (-> & _). constructor.
  - by intros es it pos (_ & -> & ->).
  - by intros es it i (_ & _ & ?).
  - by intros es it pos (_ & -> & _).
  - intros es it pos o pos' (-> & -> & ->) _ Hs. exists (NewEmptyIterator true). destruct o; cbn in Hs; by simplify_eq.
Qed.

(** ** IteratorWrapper *)

Record IteratorWrapper (T : Type) := Wrapper { iter_ : option T; valid_ : bool; key_ : bytes }.
#[global] Arguments Wrapper {T}.
#[global] Arguments iter_ {T}.
#[global] Arguments valid_ {T}.
#[global] Arguments key_ {T}.

Section wrapper.

Context `{Iterator T}.

Definition Update (it : T) (w : IteratorWrapper T) : IteratorWrapper T :=
  Wrapper (Some it) (Valid it) (if Valid it then key it else key_ w).

Definition Set_ (it : option T) (w : IteratorWrapper T) : IteratorWrapper T :=
  match it with Some it => Update it w | None => Wrapper None false (key_ w) end.

Definition NewIteratorWrapper : IteratorWrapper T := Wrapper None false [].

Definition wrapper_value (w : IteratorWrapper T) : bytes := match iter_ w with Some it => value it | None => [] end.
Definition wrapper_status (w : IteratorWrapper T) : bool := match iter_ w with Some it => status_ok it | None => true end.

Definition wrapper_move (o : Cursor.op) (w : IteratorWrapper T) : option (IteratorWrapper T) :=
  it ← iter_ w; it ← move o it; Some (Update it w).

#[export] Instance wrapper_iterator : Iterator (IteratorWrapper T) := {|
  Valid := valid_; key := key_; value := wrapper_value; status_ok := wrapper_status; move := wrapper_move |}.

(** The wrapper's copies are those of the iterator. *)
Definition wrapper_at (at_pos : list entry → T → option nat → Prop) (es : list entry) (w : IteratorWrapper T) (pos : option nat) : Prop :=
  ∃ it, iter_ w = Some it ∧ valid_ w = Valid it ∧ (Valid it = true → key_ w = key it) ∧ at_pos es it pos.

Lemma Update_at at_pos es it w pos : at_pos es it pos → wrapper_at at_pos es (Update it w) pos.
Proof. intros Hat. exists it. unfold Update. cbn. split_and!; try done. by intros ->. Qed.

#[export] Instance wrapper_laws dom c at_pos :
  IteratorLaws T dom c at_pos → IteratorLaws (IteratorWrapper T) dom c (wrapper_at at_pos).
Proof.
  intros HI. split.
  - intros es w pos (it & _ & _ & _ & Hat). by eapply it_sorted.
  - intros es w pos (it & _ & _ & _ & Hat). by eapply it_dom.
  - intros es w pos (it & _ & Hv & _ & Hat). cbn. rewrite Hv. by eapply it_valid.
  - intros es w i (it & Hi & Hv & Hk & Hat). cbn. unfold wrapper_value. rewrite Hi, Hk; [by eapply it_entry|].
    rewrite (it_valid _ _ _ Hat). done.
  - intros es w pos (it & Hi & _ & _ & Hat). cbn. unfold wrapper_status. rewrite Hi. by eapply it_status.
  - intros es w pos o pos' (it & Hi & _ & _ & Hat) Ht Hs. destruct (it_move _ _ _ _ _ Hat Ht Hs) as (it' & Hm & Hat').
    exists (Update it' w). cbn. unfold wrapper_move. rewrite Hi. cbn. rewrite Hm. split; [done|]. by apply Update_at.
Qed.

End wrapper.

(** ** Lemmas: cuts of a sorted list *)

Section cuts.

Context (dom : bytes → Prop) (c : Comparator) {HL : ComparatorLaws dom c}.

Abbreviation cmp := (Compare c).

(** A cut of the keys: [lo] holds of the keys before it. *)
Definition is_cut (lo : bytes → bool) : Prop := ∀ a b, dom a → dom b → cmp a b < 0 → lo b = true → lo a = true.

Definition below (lo : bytes → bool) (es : list entry) : nat := length (filter (λ e, lo e.1 = true) es).

(** The positions on both sides of a cut. *)
Definition right_of (lo : bytes → bool) (es : list entry) : option nat :=
  if (below lo es <? length es)%nat then Some (below lo es) else None.
Definition left_of (lo : bytes → bool) (es : list entry) : option nat :=
  match below lo es with O => None | S n => Some n end.

Lemma below_le lo es : (below lo es ≤ length es)%nat.
Proof. apply length_filter. Qed.

Lemma cmp_trichotomy a b : dom a → dom b → cmp a b < 0 ∨ a = b ∨ cmp b a < 0.
Proof.
  intros Ha Hb. destruct (Z.lt_trichotomy (cmp a b) 0) as [?|[?|?]]; [by left|right; left; by apply cmp_eq|].
  right; right. by apply cmp_anti.
Qed.

Lemma cmp_irrefl a : dom a → ¬ cmp a a < 0.
Proof. intros Ha. assert (cmp a a = 0) by (by apply cmp_eq). lia. Qed.

Lemma cmp_asym a b : dom a → dom b → cmp a b < 0 → ¬ cmp b a < 0.
Proof. intros Ha Hb H1 H2. apply (cmp_irrefl a Ha). by apply (cmp_trans a b a). Qed.

Lemma below_spec lo es i e :
  is_cut lo → keys_sorted c es → Forall (λ e, dom e.1) es → es !! i = Some e → lo e.1 = true ↔ (i < below lo es)%nat.
Proof.
  intros Hcut Hs Hd. revert i. induction es as [|x es IH]; intros i He; [done|].
  apply StronglySorted_inv in Hs as [Hs Hx]. apply Forall_cons in Hd as [Hdx Hd]. unfold below. rewrite filter_cons. fold (below lo es).
  destruct (decide (lo x.1 = true)) as [Hlo|Hno].
  - cbn [length]. fold (below lo es). destruct i as [|i]; [simplify_eq/=; split; [lia|done]|]. rewrite (IH Hs Hd i He). lia.
  - assert (filter (λ e, lo e.1 = true) es = []) as ->.
    { destruct (filter _ es) as [|y l] eqn:E; [done|exfalso]. assert (y ∈ filter (λ e, lo e.1 = true) es) as [Hloy Hy]%list_elem_of_filter by (rewrite E; by left).
      rewrite Forall_forall in Hx, Hd. apply Hno, (Hcut x.1 y.1); [done|by apply Hd|by apply Hx|done]. }
    cbn [length]. split; [|lia]. intros Hloe. destruct i as [|i]; [by simplify_eq/=|]. cbn in He. apply list_elem_of_lookup_2 in He.
    rewrite Forall_forall in Hx, Hd. exfalso. apply Hno, (Hcut x.1 e.1); [done|by apply Hd|by apply Hx|done].
Qed.

Lemma below_unique lo es n :
  is_cut lo → keys_sorted c es → Forall (λ e, dom e.1) es → (n ≤ length es)%nat →
  (∀ i e, es !! i = Some e → lo e.1 = true ↔ (i < n)%nat) → below lo es = n.
Proof.
  intros Hcut Hs Hd Hn Hspec. pose proof (below_le lo es). destruct (decide (below lo es = n)) as [|Hne]; [done|exfalso].
  destruct (lookup_lt_is_Some_2 es (min n (below lo es)) ltac:(lia)) as [e He].
  pose proof (below_spec lo es _ e Hcut Hs Hd He). specialize (Hspec _ _ He). assert (min n (below lo es) < n ↔ min n (below lo es) < below lo es)%nat by tauto. lia.
Qed.

Lemma below_ext lo lo' es : (∀ e, e ∈ es → lo e.1 = lo' e.1) → below lo es = below lo' es.
Proof.
  intros Heq. unfold below. induction es as [|x es IH]; [done|]. rewrite !filter_cons.
  rewrite (Heq x) by (by left). specialize (IH ltac:(intros e He; apply Heq; by right)). by destruct (decide (lo' x.1 = true)); cbn; rewrite IH.
Qed.

Lemma right_ext lo lo' es : (∀ e, e ∈ es → lo e.1 = lo' e.1) → right_of lo es = right_of lo' es.
Proof. intros Heq. unfold right_of. by rewrite (below_ext lo lo'). Qed.

Lemma left_ext lo lo' es : (∀ e, e ∈ es → lo e.1 = lo' e.1) → left_of lo es = left_of lo' es.
Proof. intros Heq. unfold left_of. by rewrite (below_ext lo lo'). Qed.

(** *** The cuts before and after a key *)

Definition before (k a : bytes) : bool := cmp a k <? 0.
Definition upto (k a : bytes) : bool := cmp a k <=? 0.

Lemma before_cut k : dom k → is_cut (before k).
Proof. unfold is_cut, before. intros Hk a b Ha Hb Hab Hlo%Z.ltb_lt. apply Z.ltb_lt. by apply (cmp_trans a b k). Qed.

Lemma upto_cut k : dom k → is_cut (upto k).
Proof.
  unfold is_cut, upto. intros Hk a b Ha Hb Hab Hlo%Z.leb_le. apply Z.leb_le.
  destruct (Z.eq_dec (cmp b k) 0) as [E|E]; [apply cmp_eq in E as <-; [lia|done..]|].
  pose proof (cmp_trans a b k Ha Hb Hk Hab ltac:(lia)). lia.
Qed.

Lemma all_cut b : is_cut (λ _, b).
Proof. by intros ? ? ? ? ? ?. Qed.

Lemma upto_or k a : dom k → dom a → upto k a = true ↔ a = k ∨ before k a = true.
Proof. unfold upto, before. intros Hk Ha. rewrite Z.leb_le, Z.ltb_lt, <- (cmp_eq a k Ha Hk). lia. Qed.

Section sorted.

Context (es : list entry) (Hs : keys_sorted c es) (Hd : Forall (λ e, dom e.1) es).

Lemma entry_dom i e : es !! i = Some e → dom e.1.
Proof. intros He. exact (proj1 (Forall_lookup _ _) Hd _ _ He). Qed.

Lemma order_index i j a b : es !! i = Some a → es !! j = Some b → cmp a.1 b.1 < 0 ↔ (i < j)%nat.
Proof.
  intros Ha Hb. split; [|intros Hlt; by apply (keys_sorted_lookup c es i j)]. intros Hlt.
  destruct (Nat.lt_trichotomy i j) as [?|[->|Hji]]; [done|exfalso..].
  - rewrite Ha in Hb. injection Hb as <-. by apply (cmp_irrefl a.1 (entry_dom _ _ Ha)).
  - apply (cmp_asym a.1 b.1); [by eapply entry_dom..|done|by apply (keys_sorted_lookup c es j i)].
Qed.

Lemma same_key i j a b : es !! i = Some a → es !! j = Some b → a.1 = b.1 → i = j.
Proof.
  intros Ha Hb E. pose proof (cmp_irrefl b.1 (entry_dom _ _ Hb)) as Hirr.
  destruct (Nat.lt_trichotomy i j) as [Hlt|[->|Hlt]]; [|done|]; exfalso; apply Hirr.
  - rewrite <- E at 1. by apply (order_index i j).
  - rewrite <- E at 2. by apply (order_index j i).
Qed.

Lemma below_before i e : es !! i = Some e → below (before e.1) es = i.
Proof.
  intros He. apply below_unique; [apply before_cut; by eapply entry_dom|done..| |].
  - apply lookup_lt_Some in He. lia.
  - intros j a Ha. unfold before. rewrite Z.ltb_lt. by apply order_index.
Qed.

Lemma below_upto i e : es !! i = Some e → below (upto e.1) es = S i.
Proof.
  intros He. apply below_unique; [apply upto_cut; by eapply entry_dom|done..| |].
  - apply lookup_lt_Some in He. lia.
  - intros j a Ha. rewrite upto_or by (by eapply entry_dom). unfold before. rewrite Z.ltb_lt, (order_index j i a e) by done. split; [|intros Hj].
    + intros [E|?]; [|lia]. rewrite (same_key j i a e) by done. lia.
    + destruct (decide (j = i)) as [->|]; [left; by simplify_eq|right; lia].
Qed.

Lemma right_before i e : es !! i = Some e → right_of (before e.1) es = Some i.
Proof. intros He. unfold right_of. rewrite (below_before i e He). apply lookup_lt_Some, Nat.ltb_lt in He. by rewrite He. Qed.

Lemma left_upto i e : es !! i = Some e → left_of (upto e.1) es = Some i.
Proof. intros He. unfold left_of. by rewrite (below_upto i e He). Qed.

(** The abstract moves in terms of cuts. *)
Lemma step_Seek t pos : dom t → Cursor.step c es pos (Cursor.Seek t) = Some (right_of (before t) es).
Proof.
  intros Ht. cbn [Cursor.step]. f_equal. unfold right_of. pose proof (before_cut t Ht) as Hcut.
  destruct (list_find _ es) as [[i e]|] eqn:E; cbn [fmap option_fmap option_map fst].
  - apply list_find_Some in E as (He & Hge & Hmin). rewrite (below_unique (before t) es i) by
      (done || (apply lookup_lt_Some in He; lia) || (intros j a Ha; unfold before; rewrite Z.ltb_lt; split; intros Hj;
        [destruct (decide (j = i)) as [->|]; [simplify_eq; lia|]; destruct (decide (i < j)%nat); [|lia];
         exfalso; assert (cmp e.1 t < 0); [|lia]; apply (cmp_trans e.1 a.1 t); [by eapply entry_dom|by eapply entry_dom|done|by apply (order_index i j)|done]
        |specialize (Hmin j a Ha Hj); lia])).
    apply lookup_lt_Some, Nat.ltb_lt in He. by rewrite He.
  - apply list_find_None in E. rewrite (below_unique (before t) es (length es)); [by rewrite Nat.ltb_irrefl|done..|].
    intros i a Ha. rewrite Forall_forall in E. unfold before. rewrite Z.ltb_lt. apply lookup_lt_Some in Ha as Hlt.
    apply list_elem_of_lookup_2 in Ha. specialize (E a Ha). cbn in E. lia.
Qed.

Lemma below_none : below (λ _, false) es = 0%nat.
Proof. apply below_unique; [apply all_cut|done..|lia|]. intros i e _. split; [done|lia]. Qed.

Lemma below_every : below (λ _, true) es = length es.
Proof. apply below_unique; [apply all_cut|done..|]. intros i e He. apply lookup_lt_Some in He. split; [done|done]. Qed.

Lemma step_SeekToFirst pos : Cursor.step c es pos Cursor.SeekToFirst = Some (right_of (λ _, false) es).
Proof. cbn. unfold right_of. rewrite below_none. by destruct es. Qed.

Lemma step_SeekToLast pos : Cursor.step c es pos Cursor.SeekToLast = Some (left_of (λ _, true) es).
Proof. cbn. unfold left_of. rewrite below_every. by destruct es. Qed.

Lemma step_Next i e : es !! i = Some e → Cursor.step c es (Some i) Cursor.Next = Some (right_of (upto e.1) es).
Proof. intros He. cbn [Cursor.step]. unfold right_of. by rewrite (below_upto i e He). Qed.

Lemma step_Prev i e : es !! i = Some e → Cursor.step c es (Some i) Cursor.Prev = Some (left_of (before e.1) es).
Proof. intros He. cbn [Cursor.step]. unfold left_of. by rewrite (below_before i e He). Qed.

Lemma right_Some lo i : is_cut lo → right_of lo es = Some i → ∃ e, es !! i = Some e ∧ lo e.1 = false ∧ ∀ j a, es !! j = Some a → lo a.1 = false → (i ≤ j)%nat.
Proof.
  intros Hcut. unfold right_of. destruct (Nat.ltb_spec (below lo es) (length es)) as [Hlt|]; [|done]. intros [= <-].
  destruct (lookup_lt_is_Some_2 es _ Hlt) as [e He]. exists e. pose proof (below_spec lo es) as Hb. split; [done|]. split.
  - apply not_true_iff_false. rewrite (Hb _ e Hcut Hs Hd He). lia.
  - intros j a Ha Hlo. destruct (decide (below lo es ≤ j)%nat); [done|exfalso].
    assert (lo a.1 = true); [apply (Hb j a Hcut Hs Hd Ha); lia|congruence].
Qed.

Lemma right_None lo : is_cut lo → right_of lo es = None → ∀ i e, es !! i = Some e → lo e.1 = true.
Proof.
  intros Hcut. unfold right_of. destruct (Nat.ltb_spec (below lo es) (length es)) as [|Hge]; [done|]. intros _ i e He.
  apply (below_spec lo es i e Hcut Hs Hd He). apply lookup_lt_Some in He. lia.
Qed.

Lemma left_Some lo i : is_cut lo → left_of lo es = Some i → ∃ e, es !! i = Some e ∧ lo e.1 = true ∧ ∀ j a, es !! j = Some a → lo a.1 = true → (j ≤ i)%nat.
Proof.
  intros Hcut. unfold left_of. destruct (below lo es) as [|n] eqn:E; [done|]. intros [= <-]. pose proof (below_le lo es).
  destruct (lookup_lt_is_Some_2 es n ltac:(lia)) as [e He]. exists e. pose proof (below_spec lo es) as Hb. split; [done|]. split.
  - apply (Hb n e Hcut Hs Hd He). lia.
  - intros j a Ha Hlo. apply (Hb j a Hcut Hs Hd Ha) in Hlo. lia.
Qed.

Lemma left_None lo : is_cut lo → left_of lo es = None → ∀ i e, es !! i = Some e → lo e.1 = false.
Proof.
  intros Hcut. unfold left_of. destruct (below lo es) as [|n] eqn:E; [|done]. intros _ i e He. apply not_true_iff_false.
  rewrite (below_spec lo es i e Hcut Hs Hd He). lia.
Qed.

(** From the right side of a cut to its left. *)
Lemma right_to_left lo i : right_of lo es = Some i → Cursor.step c es (Some i) Cursor.Prev = Some (left_of lo es).
Proof. unfold right_of, left_of. destruct (Nat.ltb_spec (below lo es) (length es)); [|done]. by intros [= <-]. Qed.

Lemma right_none_left lo pos : right_of lo es = None → Cursor.step c es pos Cursor.SeekToLast = Some (left_of lo es).
Proof.
  rewrite step_SeekToLast. unfold right_of, left_of. pose proof (below_le lo es). rewrite below_every.
  destruct (Nat.ltb_spec (below lo es) (length es)); [done|]. intros _. by replace (below lo es) with (length es) by lia.
Qed.

End sorted.

End cuts.

(** ** Block iterators are lawful *)

#[export] Instance block_iterator : Iterator Iter.t := {|
  Valid := Iter.Valid; key := Iter.key_; value := Iter.value; status_ok := Iter.status_ok; move := iter_step |}.

Definition block_at (dom : bytes → Prop) (c : Comparator) (es : list entry) (it : Iter.t) (pos : option nat) : Prop :=
  ∃ R, Forall entry_ok es ∧ restarts_ok es R ∧ len R < 2 ^ 30 ∧ len (encode_entries es) < 2 ^ 32 ∧
    Forall (λ e, dom e.1) es ∧ keys_sorted c es ∧ rep c es R it pos.

#[export] Instance block_laws dom c : ComparatorLaws dom c → IteratorLaws Iter.t dom c (block_at dom c).
Proof.
  intros HL. split.
  - by intros es it pos (R & _ & _ & _ & _ & _ & Hs & _).
  - by intros es it pos (R & _ & _ & _ & _ & Hd & _).
  - intros es it pos (R & Hok & _ & _ & _ & _ & _ & Hrep). pose proof (rep_valid c es R it pos Hok Hrep) as Hv.
    cbn [Valid block_iterator]. destruct pos; apply Hv.
  - intros es it i (R & Hok & _ & _ & _ & _ & _ & Hrep). exact (proj2 (rep_valid c es R it (Some i) Hok Hrep)).
  - intros es it pos (R & _ & _ & _ & _ & _ & _ & Hrep). apply (rep_block _ _ _ _ _ Hrep).
  - intros es it pos o pos' (R & Hok & HR & Hlen & Hsz & Hd & Hs & Hrep) Ht Hstep.
    destruct (iter_step_rep dom c es R Hok HR Hlen Hsz Hd Hs o it pos pos' Ht Hrep Hstep) as (it' & Hm & Hrep').
    exists it'. split; [done|]. by exists R.
Qed.

(** The iterator of a block that was built. *)
Lemma built_block dom c I es :
  ComparatorLaws dom c → Forall entry_ok es → Forall (λ e, dom e.1) es → keys_sorted c es → len (Builder.Build I es) < 2 ^ 32 →
  ∃ it, NewIterator c (NewBlock (Builder.Build I es)) = BlockIterator it ∧ block_at dom c es it None.
Proof.
  intros HL Hok Hd Hs Hsz. destruct (open_block c I es Hok Hsz) as (R & it & Hopen & HR & HRl & HDl & Hrep).
  exists it. split; [done|]. by exists R.
Qed.
