(* ===== verification/Merger.v ===== *)
(** * The merging iterator

    table/merger.cc, [MergingIterator]: several iterators as one, in the order
    of a comparator and in both directions. It is proved to be a lawful
    iterator over the merge of its children's entries. *)

From Stdlib Require Import Sorted.
From stdpp Require Import sorting.
From S2P Require Import Prelude Comparator Block Iterator.

Inductive Direction := kForward | kReverse.

Record MergingIterator (T : Type) := Merging {
  comparator_ : Comparator; children_ : list (IteratorWrapper T); current_ : option nat; direction_ : Direction }.
#[global] Arguments Merging {T}.
#[global] Arguments comparator_ {T}.
#[global] Arguments children_ {T}.
#[global] Arguments current_ {T}.
#[global] Arguments direction_ {T}.

(** What [NewMergingIterator] returns. *)
Inductive Merged (T : Type) := MergedNone (it : EmptyIterator) | MergedOne (it : T) | MergedMany (it : MergingIterator T).
#[global] Arguments MergedNone {T}.
#[global] Arguments MergedOne {T}.
#[global] Arguments MergedMany {T}.

Section merger.

Context `{Iterator T}.

Abbreviation W := (IteratorWrapper T).

Definition NewMerging (c : Comparator) (children : list T) : MergingIterator T :=
  Merging c ((λ it, Set_ (Some it) NewIteratorWrapper) <$> children) None kForward.

Definition NewMergingIterator (c : Comparator) (children : list T) : Merged T :=
  match children with
  | [] => MergedNone (NewEmptyIterator true)
  | [it] => MergedOne it
  | _ => MergedMany (NewMerging c children)
  end.

(** The loop of [FindSmallest] from child [i] on, with the best child so far and
    its key. *)
Fixpoint FindSmallest (c : Comparator) (i : nat) (children : list W) (smallest : option (nat * bytes)) : option (nat * bytes) :=
  match children with
  | [] => smallest
  | child :: rest =>
      FindSmallest c (S i) rest
        (if Valid child then
           match smallest with
           | None => Some (i, key child)
           | Some (_, k) => if Compare c (key child) k <? 0 then Some (i, key child) else smallest
           end
         else smallest)
  end.

(** [FindLargest] goes from the last child down. *)
Fixpoint FindLargest (c : Comparator) (i : nat) (children : list W) : option (nat * bytes) :=
  match children with
  | [] => None
  | child :: rest =>
      let largest := FindLargest c (S i) rest in
      if Valid child then
        match largest with
        | None => Some (i, key child)
        | Some (_, k) => if Compare c (key child) k >? 0 then Some (i, key child) else largest
        end
      else largest
  end.

Definition SetSmallest (c : Comparator) (children : list W) : MergingIterator T := Merging c children (fst <$> FindSmallest c 0 children None) kForward.
Definition SetLargest (c : Comparator) (children : list W) : MergingIterator T := Merging c children (fst <$> FindLargest c 0 children) kReverse.

(** A function on every child but the current one. *)
Fixpoint move_others (cur : nat) (f : W → option W) (i : nat) (children : list W) : option (list W) :=
  match children with
  | [] => Some []
  | child :: rest =>
      child ← (if (i =? cur)%nat then Some child else f child);
      rest ← move_others cur f (S i) rest;
      Some (child :: rest)
  end.

(** The bodies of the loops that turn the direction: after and before key [k]. *)
Definition turn_forward (c : Comparator) (k : bytes) (child : W) : option W :=
  child ← Seek k child;
  if Valid child && (Compare c k (key child) =? 0) then Next child else Some child.
Definition turn_reverse (k : bytes) (child : W) : option W :=
  child ← Seek k child;
  if Valid child then Prev child else SeekToLast child.

Definition merging_Next (it : MergingIterator T) : option (MergingIterator T) :=
  cur ← current_ it;
  child ← children_ it !! cur;
  children ← (match direction_ it with
              | kForward => Some (children_ it)
              | kReverse => move_others cur (turn_forward (comparator_ it) (key child)) 0 (children_ it)
              end);
  child ← Next child;
  Some (SetSmallest (comparator_ it) (<[cur := child]> children)).

Definition merging_Prev (it : MergingIterator T) : option (MergingIterator T) :=
  cur ← current_ it;
  child ← children_ it !! cur;
  children ← (match direction_ it with
              | kForward => move_others cur (turn_reverse (key child)) 0 (children_ it)
              | kReverse => Some (children_ it)
              end);
  child ← Prev child;
  Some (SetLargest (comparator_ it) (<[cur := child]> children)).

Definition merging_move (o : Cursor.op) (it : MergingIterator T) : option (MergingIterator T) :=
  match o with
  | Cursor.SeekToFirst => children ← mapM (M:=option) SeekToFirst (children_ it); Some (SetSmallest (comparator_ it) children)
  | Cursor.SeekToLast => children ← mapM (M:=option) SeekToLast (children_ it); Some (SetLargest (comparator_ it) children)
  | Cursor.Seek target => children ← mapM (M:=option) (Seek target) (children_ it); Some (SetSmallest (comparator_ it) children)
  | Cursor.Next => merging_Next it
  | Cursor.Prev => merging_Prev it
  end.

Definition current_child (it : MergingIterator T) : option W := cur ← current_ it; children_ it !! cur.

#[export] Instance merging_iterator : Iterator (MergingIterator T) := {|
  Valid it := match current_ it with Some _ => true | None => false end;
  key it := match current_child it with Some child => key child | None => [] end;
  value it := match current_child it with Some child => value child | None => [] end;
  status_ok it := forallb status_ok (children_ it);
  move := merging_move |}.

#[export] Instance merged_iterator : Iterator (Merged T) := {|
  Valid m := match m with MergedNone it => Valid it | MergedOne it => Valid it | MergedMany it => Valid it end;
  key m := match m with MergedNone it => key it | MergedOne it => key it | MergedMany it => key it end;
  value m := match m with MergedNone it => value it | MergedOne it => value it | MergedMany it => value it end;
  status_ok m := match m with MergedNone it => status_ok it | MergedOne it => status_ok it | MergedMany it => status_ok it end;
  move o m := match m with
              | MergedNone it => MergedNone <$> move o it
              | MergedOne it => MergedOne <$> move o it
              | MergedMany it => MergedMany <$> move o it
              end |}.

End merger.

(** ** Lemmas: the children *)

Section children.

Context `{HI : Iterator T} (dom : bytes → Prop) (c : Comparator) {HL : ComparatorLaws dom c}.
Context (at_pos : list entry → T → option nat → Prop) {HT : IteratorLaws T dom c at_pos}.

Abbreviation W := (IteratorWrapper T).
Abbreviation cmp := (Compare c).
Abbreviation stands := (wrapper_at at_pos).

Section merge.

(** The entries of the children and their merge. *)
Context (ls : list (list entry)) (es : list entry).
Context (Hmerge : es ≡ₚ mjoin ls) (Hs : keys_sorted c es) (Hd : Forall (λ e, dom e.1) es).

(** Child [i] stands at position [f i l] of its entries [l]. *)
Definition placed (f : nat → list entry → option nat) (children : list W) : Prop :=
  length children = length ls ∧ ∀ i l child, ls !! i = Some l → children !! i = Some child → stands l child (f i l).

Lemma placed_child f children i l : placed f children → ls !! i = Some l → ∃ child, children !! i = Some child ∧ stands l child (f i l).
Proof.
  intros [Hlen Hp] Hl. destruct (lookup_lt_is_Some_2 children i) as [child Hc]; [rewrite Hlen; by eapply lookup_lt_Some|]. eauto.
Qed.

Lemma placed_list f children i child : placed f children → children !! i = Some child → ∃ l, ls !! i = Some l ∧ stands l child (f i l).
Proof.
  intros [Hlen Hp] Hc. destruct (lookup_lt_is_Some_2 ls i) as [l Hl]; [rewrite <- Hlen; by eapply lookup_lt_Some|]. eauto.
Qed.

Lemma placed_ext f g children : placed f children → (∀ i l, ls !! i = Some l → f i l = g i l) → placed g children.
Proof. intros [Hlen Hp] E. split; [done|]. intros i l child Hl Hc. rewrite <- (E i l Hl). by apply Hp. Qed.

Lemma in_merge e : e ∈ es ↔ ∃ i l, ls !! i = Some l ∧ e ∈ l.
Proof.
  rewrite Hmerge, list_elem_of_join. split.
  - intros (l & He & Hl). apply list_elem_of_lookup_1 in Hl as [i Hl]. eauto.
  - intros (i & l & Hl & He). exists l. split; [done|]. by eapply list_elem_of_lookup_2.
Qed.

Lemma elem_dom e : e ∈ es → dom e.1.
Proof. exact (proj1 (Forall_forall _ _) Hd e). Qed.

Lemma merge_NoDup : NoDup (mjoin ls).
Proof.
  rewrite <- Hmerge. clear Hmerge. induction es as [|x l IH]; [constructor|]. apply StronglySorted_inv in Hs as [Hs' Hx].
  apply Forall_cons in Hd as [Hdx Hd']. constructor; [|by apply IH]. intros Hin. rewrite Forall_forall in Hx.
  by apply (cmp_irrefl dom c x.1 Hdx), Hx.
Qed.

(** No entry is in two children. *)
Lemma one_child i j l l' e : ls !! i = Some l → ls !! j = Some l' → e ∈ l → e ∈ l' → i = j.
Proof.
  pose proof merge_NoDup as Hnd. clear Hmerge. revert i j. induction ls as [|k ks IH]; intros i j Hi Hj He He'; [done|].
  change (NoDup (k ++ mjoin ks)) in Hnd. apply NoDup_app in Hnd as (_ & Hdis & Hnd).
  assert (∀ i x y, ks !! i = Some x → y ∈ x → y ∈ mjoin ks) as Hin.
  { intros i' x y Hx Hy. apply list_elem_of_join. exists x. split; [done|]. by eapply list_elem_of_lookup_2. }
  destruct i as [|i], j as [|j]; cbn in Hi, Hj; simplify_eq.
  - done.
  - destruct (Hdis e He). by eapply Hin.
  - destruct (Hdis e He'). by eapply Hin.
  - f_equal. by eapply IH.
Qed.

Lemma child_sorted f children i l : placed f children → ls !! i = Some l → keys_sorted c l ∧ Forall (λ e, dom e.1) l.
Proof. intros Hp Hl. destruct (placed_child _ _ _ _ Hp Hl) as (child & _ & Hst). split; [exact (it_sorted _ _ _ Hst)|exact (it_dom _ _ _ Hst)]. Qed.

Lemma merge_index e : e ∈ es → ∃ p, es !! p = Some e.
Proof. apply list_elem_of_lookup_1. Qed.

Lemma entry_of_key a b : a ∈ es → b ∈ es → a.1 = b.1 → a = b.
Proof.
  intros [i Hi]%merge_index [j Hj]%merge_index E. rewrite (same_key dom c es Hs Hd i j a b Hi Hj E) in Hi. by simplify_eq.
Qed.

(** *** FindSmallest and FindLargest *)

(** [best] is a child of the first [n] with the least key. *)
Definition least (children : list W) (n : nat) (best : option (nat * bytes)) : Prop :=
  match best with
  | Some (i, k) => ∃ child, (i < n)%nat ∧ children !! i = Some child ∧ Valid child = true ∧ key child = k ∧
      ∀ j child', (j < n)%nat → children !! j = Some child' → Valid child' = true → cmp k (key child') ≤ 0
  | None => ∀ j child, (j < n)%nat → children !! j = Some child → Valid child = false
  end.

Definition keys_dom (children : list W) : Prop := ∀ child, child ∈ children → Valid child = true → dom (key child).

Lemma cmp_le_trans a b d : dom a → dom b → dom d → cmp a b ≤ 0 → cmp b d ≤ 0 → cmp a d ≤ 0.
Proof.
  intros Ha Hb Hd' H1 H2. destruct (Z.eq_dec (cmp a b) 0) as [E|E]; [apply cmp_eq in E as ->; done|].
  destruct (Z.eq_dec (cmp b d) 0) as [E'|E']; [apply cmp_eq in E' as <-; done|]. assert (cmp a d < 0) by (apply (cmp_trans a b d); done || lia). lia.
Qed.

Lemma FindSmallest_ok children : keys_dom children → ∀ rest n best,
  drop n children = rest → (n ≤ length children)%nat → least children n best → least children (length children) (FindSmallest c n rest best).
Proof.
  intros Hkd. induction rest as [|child rest IH]; intros n best Hdrop Hn Hb; cbn [FindSmallest].
  { assert (length children ≤ n)%nat as Hge by (assert (length (drop n children) = 0%nat) as E by (by rewrite Hdrop); rewrite length_drop in E; lia).
    by replace (length children) with n by lia. }
  assert (children !! n = Some child) as Hc by (rewrite <- (Nat.add_0_r n), <- lookup_drop, Hdrop; done).
  assert (Valid child = true → dom (key child)) as Hdc by (apply Hkd; by eapply list_elem_of_lookup_2).
  apply IH; [by erewrite drop_S in Hdrop by done; injection Hdrop|by apply lookup_lt_Some in Hc|]. clear IH Hdrop.
  destruct (Valid child) eqn:Hv; [specialize (Hdc eq_refl)|].
  - destruct best as [[i k]|].
    + destruct Hb as (ch & Hi & Hch & Hvch & Hk & Hmin). assert (dom k) as Hdk by (subst k; apply Hkd; [by eapply list_elem_of_lookup_2|done]).
      destruct (Z.ltb_spec (cmp (key child) k) 0) as [Hlt|Hge].
      * exists child. split_and!; try done; [lia|]. intros j child' Hj Hc' Hv'. destruct (decide (j = n)) as [->|].
        -- rewrite Hc in Hc'. injection Hc' as <-. assert (cmp (key child) (key child) = 0) by (by apply cmp_eq). lia.
        -- apply (cmp_le_trans _ k); [done..| |lia|apply (Hmin j); [lia|done..]]. apply Hkd; [by eapply list_elem_of_lookup_2|done].
      * exists ch. split_and!; try done; [lia|]. intros j child' Hj Hc' Hv'. destruct (decide (j = n)) as [->|]; [|apply (Hmin j); [lia|done..]].
        rewrite Hc in Hc'. injection Hc' as <-. destruct (Z.lt_trichotomy (cmp k (key child)) 0) as [?|[?|Hgt]]; [lia..|].
        apply cmp_anti in Hgt; [lia|done..].
    + exists child. split_and!; try done; [lia|]. intros j child' Hj Hc' Hv'. destruct (decide (j = n)) as [->|].
      * rewrite Hc in Hc'. injection Hc' as <-. assert (cmp (key child) (key child) = 0) by (by apply cmp_eq). lia.
      * rewrite (Hb j child') in Hv' by (done || lia). done.
  - destruct best as [[i k]|].
    + destruct Hb as (ch & Hi & Hch & Hvch & Hk & Hmin). exists ch. split_and!; try done; [lia|]. intros j child' Hj Hc' Hv'.
      destruct (decide (j = n)) as [->|]; [congruence|]. apply (Hmin j); [lia|done..].
    + intros j child' Hj Hc'. destruct (decide (j = n)) as [->|]; [congruence|]. apply (Hb j); [lia|done].
Qed.

(** The same for the last children and the greatest key. *)
Definition greatest (children : list W) (n : nat) (best : option (nat * bytes)) : Prop :=
  match best with
  | Some (i, k) => ∃ child, (n ≤ i)%nat ∧ children !! i = Some child ∧ Valid child = true ∧ key child = k ∧
      ∀ j child', (n ≤ j)%nat → children !! j = Some child' → Valid child' = true → cmp (key child') k ≤ 0
  | None => ∀ j child, (n ≤ j)%nat → children !! j = Some child → Valid child = false
  end.

Lemma FindLargest_ok children : keys_dom children → ∀ rest n, drop n children = rest → greatest children n (FindLargest c n rest).
Proof.
  intros Hkd. induction rest as [|child rest IH]; intros n Hdrop; cbn [FindLargest].
  { intros j ch Hj Hc. apply lookup_lt_Some in Hc. assert (length (drop n children) = 0%nat) as E by (by rewrite Hdrop). rewrite length_drop in E. lia. }
  assert (children !! n = Some child) as Hc by (rewrite <- (Nat.add_0_r n), <- lookup_drop, Hdrop; done).
  assert (Valid child = true → dom (key child)) as Hdc by (apply Hkd; by eapply list_elem_of_lookup_2).
  assert (drop (S n) children = rest) as Hdrop' by (by erewrite drop_S in Hdrop by done; injection Hdrop).
  specialize (IH (S n) Hdrop'). set (best := FindLargest c (S n) rest) in *. clearbody best.
  destruct (Valid child) eqn:Hv; [specialize (Hdc eq_refl)|].
  - destruct best as [[i k]|].
    + destruct IH as (ch & Hi & Hch & Hvch & Hk & Hmax). assert (dom k) as Hdk by (subst k; apply Hkd; [by eapply list_elem_of_lookup_2|done]).
      rewrite Z.gtb_ltb. destruct (Z.ltb_spec 0 (cmp (key child) k)) as [Hgt|Hle].
      * exists child. split_and!; try done. intros j child' Hj Hc' Hv'. destruct (decide (j = n)) as [->|].
        -- rewrite Hc in Hc'. injection Hc' as <-. assert (cmp (key child) (key child) = 0) by (by apply cmp_eq). lia.
        -- apply cmp_anti in Hgt; [|done..]. apply (cmp_le_trans _ k); [|done..|apply (Hmax j); [lia|done..]|lia].
           apply Hkd; [by eapply list_elem_of_lookup_2|done].
      * exists ch. split_and!; try done; [lia|]. intros j child' Hj Hc' Hv'. destruct (decide (j = n)) as [->|]; [|apply (Hmax j); [lia|done..]].
        rewrite Hc in Hc'. injection Hc' as <-. done.
    + exists child. split_and!; try done. intros j child' Hj Hc' Hv'. destruct (decide (j = n)) as [->|].
      * rewrite Hc in Hc'. injection Hc' as <-. assert (cmp (key child) (key child) = 0) by (by apply cmp_eq). lia.
      * rewrite (IH j child') in Hv' by (done || lia). done.
  - destruct best as [[i k]|].
    + destruct IH as (ch & Hi & Hch & Hvch & Hk & Hmax). exists ch. split_and!; try done; [lia|]. intros j child' Hj Hc' Hv'.
      destruct (decide (j = n)) as [->|]; [congruence|]. apply (Hmax j); [lia|done..].
    + intros j child' Hj Hc'. destruct (decide (j = n)) as [->|]; [congruence|]. apply (IH j); [lia|done].
Qed.

Lemma placed_keys f children : placed f children → keys_dom children.
Proof.
  intros Hp child Hin Hv. apply list_elem_of_lookup_1 in Hin as [i Hc]. destruct (placed_list _ _ _ _ Hp Hc) as (l & Hl & Hst).
  rewrite (it_valid _ _ _ Hst) in Hv. apply bool_decide_eq_true in Hv as [n Hn]. rewrite Hn in Hst.
  pose proof (it_entry _ _ _ Hst) as He. apply it_dom in Hst as Hld. exact (proj1 (Forall_lookup _ _) Hld _ _ He).
Qed.

(** The least key on the right of a cut, over all children, is the merge's. *)
Lemma smallest_of_cut lo children :
  is_cut dom c lo → placed (λ _ l, right_of lo l) children →
  match FindSmallest c 0 children None with
  | None => right_of lo es = None
  | Some (i, k) => ∃ p e l, right_of lo es = Some p ∧ es !! p = Some e ∧ e.1 = k ∧ ls !! i = Some l ∧ e ∈ l ∧
      placed (λ _ l, right_of (before c k) l) children
  end.
Proof.
  intros Hcut Hp.
  assert (least children (length children) (FindSmallest c 0 children None)) as Hleast.
  { apply FindSmallest_ok; [by eapply placed_keys|done|lia|]. intros j ch Hj. lia. }
  destruct (FindSmallest c 0 children None) as [[i k]|].
  - destruct Hleast as (child & Hi & Hc & Hv & Hk & Hmin). destruct (placed_list _ _ _ _ Hp Hc) as (l & Hl & Hst).
    rewrite (it_valid _ _ _ Hst) in Hv. apply bool_decide_eq_true in Hv as [n Hn]. cbn in Hst. rewrite Hn in Hst.
    pose proof (it_entry _ _ _ Hst) as He. rewrite Hk in He. destruct (child_sorted _ _ _ _ Hp Hl) as [Hls Hld].
    destruct (right_Some dom c l Hls Hld lo n Hcut Hn) as (e & He' & Hlo & _). rewrite He in He'. injection He' as <-. cbn [fst] in Hlo.
    assert ((k, value child) ∈ l) as Hel by (by eapply list_elem_of_lookup_2).
    assert ((k, value child) ∈ es) as Hee by (apply in_merge; eauto). pose proof (elem_dom _ Hee) as Hdk. cbn in Hdk.
    (** No entry of the merge on the right of the cut is smaller. *)
    assert (∀ x, x ∈ es → lo x.1 = false → cmp k x.1 ≤ 0) as Hall.
    { intros x Hx Hlox. apply in_merge in Hx as Hx'. destruct Hx' as (j & l' & Hl' & Hxl).
      destruct (placed_child _ _ _ _ Hp Hl') as (child' & Hc' & Hst'). destruct (child_sorted _ _ _ _ Hp Hl') as [Hls' Hld'].
      apply list_elem_of_lookup_1 in Hxl as [m Hxl]. destruct (right_of lo l') as [n'|] eqn:Hn'.
      - destruct (right_Some dom c l' Hls' Hld' lo n' Hcut Hn') as (y & Hy & Hloy & Hfirst). specialize (Hfirst m x Hxl Hlox).
        pose proof (it_entry _ _ _ Hst') as Hy'. rewrite Hy in Hy'. injection Hy' as ->.
        assert (Valid child' = true) as Hv' by (by rewrite (it_valid _ _ _ Hst')).
        specialize (Hmin j child' ltac:(by eapply lookup_lt_Some) Hc' Hv').
        apply (cmp_le_trans k (key child') x.1); [done| | |done|].
        + exact (entry_dom dom l' Hld' _ _ Hy).
        + by apply elem_dom.
        + destruct (decide (m = n')) as [->|].
          * rewrite Hy in Hxl. injection Hxl as <-. change (cmp (key child') (key child') ≤ 0). assert (cmp (key child') (key child') = 0) as ->; [|done]. apply cmp_eq; [exact (entry_dom dom l' Hld' _ _ Hy)..|done].
          * assert (cmp (key child') x.1 < 0); [|lia]. apply (order_index dom c l' Hls' Hld' n' m _ _ Hy Hxl). lia.
      - rewrite (right_None dom c l' Hls' Hld' lo Hcut Hn' m x Hxl) in Hlox. done. }
    destruct (merge_index _ Hee) as [p Hpe]. exists p, (k, value child), l. split_and!; try done.
    + destruct (right_of lo es) as [q|] eqn:Hq.
      * destruct (right_Some dom c es Hs Hd lo q Hcut Hq) as (y & Hy & Hloy & Hfirst). specialize (Hfirst p _ Hpe Hlo). f_equal.
        specialize (Hall y ltac:(by eapply list_elem_of_lookup_2) Hloy). destruct (decide (q < p)%nat) as [Hlt|]; [|lia]. exfalso.
        apply (order_index dom c es Hs Hd q p y _ Hy Hpe) in Hlt. cbn in Hlt. apply cmp_anti in Hlt; [lia| |done]. exact (entry_dom dom es Hd _ _ Hy).
      * pose proof (right_None dom c es Hs Hd lo Hcut Hq p _ Hpe) as Hlo'. cbn in Hlo'. congruence.
    + eapply placed_ext; [done|]. intros j l' Hl'. apply right_ext. intros x Hx.
      assert (x ∈ es) as Hxe by (apply in_merge; eauto). pose proof (elem_dom _ Hxe) as Hdx. unfold before.
      destruct (lo x.1) eqn:Hlox; symmetry.
      * apply Z.ltb_lt. destruct (cmp_trichotomy dom c x.1 k Hdx Hdk) as [?|[E|Hlt]]; [done|congruence|].
        rewrite (Hcut k x.1 Hdk Hdx Hlt Hlox) in Hlo. done.
      * apply Z.ltb_ge. destruct (Z.lt_ge_cases (cmp x.1 k) 0) as [Hlt|]; [|done]. apply cmp_anti in Hlt; [|done..].
        specialize (Hall x Hxe Hlox). lia.
  - destruct (right_of lo es) as [q|] eqn:Hq; [|done]. destruct (right_Some dom c es Hs Hd lo q Hcut Hq) as (y & Hy & Hloy & _).
    apply list_elem_of_lookup_2, in_merge in Hy as (j & l & Hl & Hyl). destruct (placed_child _ _ _ _ Hp Hl) as (child & Hc & Hst).
    specialize (Hleast j child ltac:(by eapply lookup_lt_Some) Hc). rewrite (it_valid _ _ _ Hst) in Hleast. apply bool_decide_eq_false in Hleast.
    destruct (child_sorted _ _ _ _ Hp Hl) as [Hls Hld]. apply list_elem_of_lookup_1 in Hyl as [m Hyl].
    rewrite (right_None dom c l Hls Hld lo Hcut ltac:(destruct (right_of lo l); [by destruct Hleast|done]) m y Hyl) in Hloy. done.
Qed.

(** The greatest key on the left of a cut. *)
Lemma largest_of_cut lo children :
  is_cut dom c lo → placed (λ _ l, left_of lo l) children →
  match FindLargest c 0 children with
  | None => left_of lo es = None
  | Some (i, k) => ∃ p e l, left_of lo es = Some p ∧ es !! p = Some e ∧ e.1 = k ∧ ls !! i = Some l ∧ e ∈ l ∧
      placed (λ _ l, left_of (upto c k) l) children
  end.
Proof.
  intros Hcut Hp.
  assert (greatest children 0 (FindLargest c 0 children)) as Hmost by (apply FindLargest_ok; [by eapply placed_keys|done]).
  destruct (FindLargest c 0 children) as [[i k]|].
  - destruct Hmost as (child & Hi & Hc & Hv & Hk & Hmax). destruct (placed_list _ _ _ _ Hp Hc) as (l & Hl & Hst).
    rewrite (it_valid _ _ _ Hst) in Hv. apply bool_decide_eq_true in Hv as [n Hn]. cbn in Hst. rewrite Hn in Hst.
    pose proof (it_entry _ _ _ Hst) as He. rewrite Hk in He. destruct (child_sorted _ _ _ _ Hp Hl) as [Hls Hld].
    destruct (left_Some dom c l Hls Hld lo n Hcut Hn) as (e & He' & Hlo & _). rewrite He in He'. injection He' as <-. cbn [fst] in Hlo.
    assert ((k, value child) ∈ l) as Hel by (by eapply list_elem_of_lookup_2).
    assert ((k, value child) ∈ es) as Hee by (apply in_merge; eauto). pose proof (elem_dom _ Hee) as Hdk. cbn in Hdk.
    (** No entry of the merge on the left of the cut is greater. *)
    assert (∀ x, x ∈ es → lo x.1 = true → cmp x.1 k ≤ 0) as Hall.
    { intros x Hx Hlox. apply in_merge in Hx as Hx'. destruct Hx' as (j & l' & Hl' & Hxl).
      destruct (placed_child _ _ _ _ Hp Hl') as (child' & Hc' & Hst'). destruct (child_sorted _ _ _ _ Hp Hl') as [Hls' Hld'].
      apply list_elem_of_lookup_1 in Hxl as [m Hxl]. destruct (left_of lo l') as [n'|] eqn:Hn'.
      - destruct (left_Some dom c l' Hls' Hld' lo n' Hcut Hn') as (y & Hy & Hloy & Hlast). specialize (Hlast m x Hxl Hlox).
        pose proof (it_entry _ _ _ Hst') as Hy'. rewrite Hy in Hy'. injection Hy' as ->.
        assert (Valid child' = true) as Hv' by (by rewrite (it_valid _ _ _ Hst')).
        specialize (Hmax j child' ltac:(lia) Hc' Hv').
        apply (cmp_le_trans x.1 (key child') k); [by apply elem_dom|exact (entry_dom dom l' Hld' _ _ Hy)|done| |done].
        destruct (decide (m = n')) as [->|].
        + rewrite Hy in Hxl. injection Hxl as <-. change (cmp (key child') (key child') ≤ 0).
          assert (cmp (key child') (key child') = 0) as ->; [|done]. apply cmp_eq; [exact (entry_dom dom l' Hld' _ _ Hy)..|done].
        + assert (cmp x.1 (key child') < 0); [|lia]. apply (order_index dom c l' Hls' Hld' m n' _ _ Hxl Hy). lia.
      - rewrite (left_None dom c l' Hls' Hld' lo Hcut Hn' m x Hxl) in Hlox. done. }
    destruct (merge_index _ Hee) as [p Hpe]. exists p, (k, value child), l. split_and!; try done.
    + destruct (left_of lo es) as [q|] eqn:Hq.
      * destruct (left_Some dom c es Hs Hd lo q Hcut Hq) as (y & Hy & Hloy & Hlast). specialize (Hlast p _ Hpe Hlo). f_equal.
        specialize (Hall y ltac:(by eapply list_elem_of_lookup_2) Hloy). destruct (decide (p < q)%nat) as [Hlt|]; [|lia]. exfalso.
        apply (order_index dom c es Hs Hd p q _ y Hpe Hy) in Hlt. cbn in Hlt. apply cmp_anti in Hlt; [lia|done|]. exact (entry_dom dom es Hd _ _ Hy).
      * pose proof (left_None dom c es Hs Hd lo Hcut Hq p _ Hpe) as Hlo'. cbn in Hlo'. congruence.
    + eapply placed_ext; [done|]. intros j l' Hl'. apply left_ext. intros x Hx.
      assert (x ∈ es) as Hxe by (apply in_merge; eauto). pose proof (elem_dom _ Hxe) as Hdx.
      destruct (lo x.1) eqn:Hlox; symmetry; [by apply Z.leb_le, Hall|]. apply not_true_iff_false. rewrite (upto_or dom c k x.1 Hdk Hdx).
      intros [E|Hlt%Z.ltb_lt]; [congruence|]. rewrite (Hcut x.1 k Hdx Hdk Hlt Hlo) in Hlox. done.
  - destruct (left_of lo es) as [q|] eqn:Hq; [|done]. destruct (left_Some dom c es Hs Hd lo q Hcut Hq) as (y & Hy & Hloy & _).
    apply list_elem_of_lookup_2, in_merge in Hy as (j & l & Hl & Hyl). destruct (placed_child _ _ _ _ Hp Hl) as (child & Hc & Hst).
    specialize (Hmost j child ltac:(lia) Hc). rewrite (it_valid _ _ _ Hst) in Hmost. apply bool_decide_eq_false in Hmost.
    destruct (child_sorted _ _ _ _ Hp Hl) as [Hls Hld]. apply list_elem_of_lookup_1 in Hyl as [m Hyl].
    rewrite (left_None dom c l Hls Hld lo Hcut ltac:(destruct (left_of lo l); [by destruct Hmost|done]) m y Hyl) in Hloy. done.
Qed.

(** *** Moving the children *)

Lemma mapM_placed f g children (move' : W → option W) :
  placed f children → (∀ i l child, ls !! i = Some l → stands l child (f i l) → ∃ child', move' child = Some child' ∧ stands l child' (g i l)) →
  ∃ children', mapM (M:=option) move' children = Some children' ∧ placed g children'.
Proof.
  intros Hp Hm.
  assert (∃ children', mapM (M:=option) move' children = Some children') as [children' Hc'].
  { apply mapM_is_Some, Forall_forall. intros child Hin. apply list_elem_of_lookup_1 in Hin as [i Hc].
    destruct (placed_list _ _ _ _ Hp Hc) as (l & Hl & Hst). destruct (Hm i l child Hl Hst) as (child' & Hch & _). by exists child'. }
  exists children'. split; [done|]. apply mapM_Some in Hc'. split; [rewrite <- (Forall2_length _ _ _ Hc'); apply Hp|].
  intros i l child' Hl Hc. destruct (Forall2_lookup_r _ _ _ _ _ Hc' Hc) as (child & Hch & Hmove).
  destruct (Hm i l child Hl (proj2 Hp i l child Hl Hch)) as (child2 & E & Hst). rewrite Hmove in E. by injection E as <-.
Qed.

Lemma others_placed cur f g children (move' : W → option W) :
  placed f children → (∀ i l child, i ≠ cur → ls !! i = Some l → stands l child (f i l) → ∃ child', move' child = Some child' ∧ stands l child' (g i l)) →
  ∃ children', move_others cur move' 0 children = Some children' ∧ placed (λ i l, if decide (i = cur) then f i l else g i l) children' ∧
    children' !! cur = children !! cur.
Proof.
  intros Hp Hm.
  assert (∀ rest n, (∀ i child, rest !! i = Some child → children !! (n + i)%nat = Some child) → ∃ rest', move_others cur move' n rest = Some rest' ∧
    length rest' = length rest ∧ ∀ i child, rest !! i = Some child → ∃ child', rest' !! i = Some child' ∧
      if decide (n + i = cur)%nat then child' = child else move' child = Some child') as Hloop.
  { induction rest as [|child rest IH]; intros n Hr; cbn [move_others]; [by exists []|].
    assert (∃ child', (if (n =? cur)%nat then Some child else move' child) = Some child') as [child' E].
    { destruct (Nat.eqb_spec n cur) as [|Hne]; [by eexists|]. specialize (Hr 0%nat child eq_refl). rewrite Nat.add_0_r in Hr.
      destruct (placed_list _ _ _ _ Hp Hr) as (l & Hl & Hst). destruct (Hm n l child Hne Hl Hst) as (child' & -> & _). by eexists. }
    rewrite E. cbn [mbind option_bind]. destruct (IH (S n)) as (rest' & -> & Hlen & Hrest').
    { intros i ch Hi. rewrite Nat.add_succ_comm. by apply Hr. }
    cbn [mbind option_bind]. exists (child' :: rest'). split; [done|]. split; [cbn; lia|]. intros [|i] ch Hi; cbn in Hi.
    - injection Hi as <-. exists child'. rewrite Nat.add_0_r. split; [done|]. destruct (Nat.eqb_spec n cur); destruct (decide (n = cur)); by simplify_eq.
    - rewrite <- Nat.add_succ_comm. by apply Hrest'. }
  destruct (Hloop children 0%nat ltac:(done)) as (children' & Hmv & Hlen & Hc). exists children'. split; [done|]. split.
  - split; [rewrite Hlen; apply Hp|]. intros i l child' Hl Hc'. destruct (placed_child _ _ _ _ Hp Hl) as (child & Hch & Hst).
    destruct (Hc i child Hch) as (child2 & E & Hcase). rewrite Hc' in E. injection E as <-. cbn in Hcase.
    destruct (decide (i = cur)) as [->|Hne]; [by subst|]. destruct (Hm i l child Hne Hl Hst) as (child3 & E & Hst'). rewrite Hcase in E. by injection E as ->.
  - destruct (children !! cur) as [child|] eqn:Hcur.
    + destruct (Hc cur child Hcur) as (child' & -> & Hcase). cbn in Hcase. rewrite decide_True in Hcase by done. by subst.
    + apply lookup_ge_None in Hcur. apply lookup_ge_None. lia.
Qed.

Lemma placed_insert f g cur child children l :
  placed f children → ls !! cur = Some l → stands l child (g cur l) → (∀ i l, i ≠ cur → ls !! i = Some l → f i l = g i l) → placed g (<[cur := child]> children).
Proof.
  intros [Hlen Hp] Hl Hst E. split; [by rewrite length_insert|]. intros i l' ch Hl' Hc. destruct (decide (i = cur)) as [->|Hne].
  - rewrite list_lookup_insert_eq in Hc by (rewrite Hlen; by eapply lookup_lt_Some). by simplify_eq.
  - rewrite list_lookup_insert_ne in Hc by done. rewrite <- E by done. by apply Hp.
Qed.

(** *** The states of the merging iterator *)

Definition merging_state (it : MergingIterator T) (pos : option nat) : Prop :=
  comparator_ it = c ∧
  match pos with
  | None => current_ it = None ∧ ∃ f, placed f (children_ it)
  | Some p => ∃ i l e, current_ it = Some i ∧ es !! p = Some e ∧ ls !! i = Some l ∧ e ∈ l ∧
      placed (λ _ l, match direction_ it with kForward => right_of (before c e.1) l | kReverse => left_of (upto c e.1) l end) (children_ it)
  end.

Lemma SetSmallest_state lo children :
  is_cut dom c lo → placed (λ _ l, right_of lo l) children → merging_state (SetSmallest c children) (right_of lo es).
Proof.
  intros Hcut Hp. pose proof (smallest_of_cut lo children Hcut Hp) as Hsm. unfold SetSmallest.
  destruct (FindSmallest c 0 children None) as [[i k]|]; [|rewrite Hsm; split; [done|]; by split; [|eexists]].
  destruct Hsm as (p & e & l & -> & Hpe & Hk & Hl & Hel & Hpl). split; [done|]. exists i, l, e. cbn. rewrite Hk. by split_and!.
Qed.

Lemma SetLargest_state lo children :
  is_cut dom c lo → placed (λ _ l, left_of lo l) children → merging_state (SetLargest c children) (left_of lo es).
Proof.
  intros Hcut Hp. pose proof (largest_of_cut lo children Hcut Hp) as Hlg. unfold SetLargest.
  destruct (FindLargest c 0 children) as [[i k]|]; [|rewrite Hlg; split; [done|]; by split; [|eexists]].
  destruct Hlg as (p & e & l & -> & Hpe & Hk & Hl & Hel & Hpl). split; [done|]. exists i, l, e. cbn. rewrite Hk. by split_and!.
Qed.

Lemma state_placed it pos : merging_state it pos → ∃ f, placed f (children_ it).
Proof. intros [_ Hst]. destruct pos; [destruct Hst as (? & ? & ? & _ & _ & _ & _ & ?); by eexists|by destruct Hst]. Qed.

(** The current child stands at the current entry. *)
Lemma state_current it p : merging_state it (Some p) →
  ∃ i l e n child, current_ it = Some i ∧ es !! p = Some e ∧ ls !! i = Some l ∧ children_ it !! i = Some child ∧
    l !! n = Some e ∧ stands l child (Some n) ∧ key child = e.1 ∧
    placed (λ _ l, match direction_ it with kForward => right_of (before c e.1) l | kReverse => left_of (upto c e.1) l end) (children_ it).
Proof.
  intros (_ & i & l & e & Hcur & Hpe & Hl & Hel & Hp). destruct (placed_child _ _ _ _ Hp Hl) as (child & Hc & Hst).
  destruct (child_sorted _ _ _ _ Hp Hl) as [Hls Hld]. apply list_elem_of_lookup_1 in Hel as [n Hn].
  assert (stands l child (Some n)) as Hst' by (destruct (direction_ it); [by rewrite (right_before dom c l Hls Hld n e Hn) in Hst|by rewrite (left_upto dom c l Hls Hld n e Hn) in Hst]).
  exists i, l, e, n, child. split_and!; try done. pose proof (it_entry _ _ _ Hst') as He. rewrite Hn in He. by injection He as ->.
Qed.

(** Another child has no entry with the key of the current one. *)
Lemma others_before i j l l' e x : ls !! i = Some l → ls !! j = Some l' → i ≠ j → e ∈ l → x ∈ l' → before c e.1 x.1 = upto c e.1 x.1.
Proof.
  intros Hl Hl' Hne He Hx. assert (e ∈ es) as Hee by (apply in_merge; eauto). assert (x ∈ es) as Hxe by (apply in_merge; eauto).
  apply eq_true_iff_eq. rewrite (upto_or dom c e.1 x.1) by (by apply elem_dom). split; [by right|]. intros [E|?]; [|done].
  exfalso. apply Hne. apply (one_child i j l l' e Hl Hl' He). by rewrite <- (entry_of_key x e Hxe Hee E).
Qed.

Lemma seek_child l child pos k : dom k → stands l child pos → ∃ child', Seek k child = Some child' ∧ stands l child' (right_of (before c k) l).
Proof.
  intros Hk Hst. apply (it_move _ _ _ _ _ Hst); [by repeat constructor|].
  apply (step_Seek dom c l); [exact (it_sorted _ _ _ Hst)|exact (it_dom _ _ _ Hst)|done].
Qed.

Lemma Next_state it p pos' : merging_state it (Some p) → Cursor.step c es (Some p) Cursor.Next = Some pos' →
  ∃ it', merging_Next it = Some it' ∧ merging_state it' pos'.
Proof.
  intros Hst Hstep. destruct (state_current _ _ Hst) as (i & l & e & n & child & Hcur & Hpe & Hl & Hc & Hn & Hch & Hk & Hp).
  assert (dom e.1) as Hde by (exact (entry_dom dom es Hd _ _ Hpe)). assert (e ∈ l) as Hel by (by eapply list_elem_of_lookup_2).
  rewrite (step_Next dom c es Hs Hd p e Hpe) in Hstep. injection Hstep as <-.
  unfold merging_Next. rewrite (proj1 Hst), Hcur. cbn [mbind option_bind]. rewrite Hc. cbn [mbind option_bind]. rewrite Hk.
  assert (∃ f children, (match direction_ it with kForward => Some (children_ it) | kReverse => move_others i (turn_forward c e.1) 0 (children_ it) end) = Some children ∧
    placed f children ∧ ∀ j l', j ≠ i → ls !! j = Some l' → f j l' = right_of (upto c e.1) l') as (f & children & -> & Hp' & Hf).
  { destruct (direction_ it).
    - eexists _, _. split; [done|]. split; [done|]. intros j l' Hne Hl'. apply right_ext. intros x Hx. by apply (others_before i j l l').
    - destruct (others_placed i _ (λ _ l, right_of (upto c e.1) l) _ (turn_forward c e.1) Hp) as (children & -> & Hp' & _).
      { intros j l' child' Hne Hl' Hst'. destruct (seek_child l' child' _ e.1 Hde Hst') as (child2 & E & Hst2). unfold turn_forward. rewrite E. cbn [mbind option_bind].
        exists child2. rewrite <- (right_ext (before c e.1) (upto c e.1) l') by (intros x Hx; by apply (others_before i j l l')). split; [|done].
        destruct (Valid child2) eqn:Hv; [|done]. destruct (Z.eqb_spec (cmp e.1 (key child2)) 0) as [E0|]; [exfalso|done].
        rewrite (it_valid _ _ _ Hst2) in Hv. apply bool_decide_eq_true in Hv as [m Hm]. rewrite Hm in Hst2. pose proof (it_entry _ _ _ Hst2) as Hx.
        assert (dom (key child2)) as Hdk by (exact (entry_dom dom l' (it_dom _ _ _ Hst2) _ _ Hx)). apply cmp_eq in E0; [|done..].
        apply list_elem_of_lookup_2 in Hx. assert (e ∈ es) as Hee by (apply in_merge; eauto). assert ((key child2, value child2) ∈ es) as Hxe by (apply in_merge; eauto).
        rewrite (entry_of_key _ e Hxe Hee (eq_sym E0)) in Hx. by apply Hne, (one_child j i l' l e). }
      eexists _, children. split; [done|]. split; [done|]. intros j l' Hne Hl'. cbn. by rewrite decide_False. }
  cbn [mbind option_bind].
  destruct (it_move _ _ _ Cursor.Next (right_of (upto c e.1) l) Hch) as (child' & -> & Hch'); [by repeat constructor|apply (step_Next dom c l (it_sorted _ _ _ Hch) (it_dom _ _ _ Hch) n e Hn)|].
  cbn [mbind option_bind]. eexists. split; [done|]. apply SetSmallest_state; [by apply upto_cut|].
  by apply (placed_insert f _ i child' children l).
Qed.

Lemma Prev_state it p pos' : merging_state it (Some p) → Cursor.step c es (Some p) Cursor.Prev = Some pos' →
  ∃ it', merging_Prev it = Some it' ∧ merging_state it' pos'.
Proof.
  intros Hst Hstep. destruct (state_current _ _ Hst) as (i & l & e & n & child & Hcur & Hpe & Hl & Hc & Hn & Hch & Hk & Hp).
  assert (dom e.1) as Hde by (exact (entry_dom dom es Hd _ _ Hpe)). assert (e ∈ l) as Hel by (by eapply list_elem_of_lookup_2).
  rewrite (step_Prev dom c es Hs Hd p e Hpe) in Hstep. injection Hstep as <-.
  unfold merging_Prev. rewrite (proj1 Hst), Hcur. cbn [mbind option_bind]. rewrite Hc. cbn [mbind option_bind]. rewrite Hk.
  assert (∃ f children, (match direction_ it with kForward => move_others i (turn_reverse e.1) 0 (children_ it) | kReverse => Some (children_ it) end) = Some children ∧
    placed f children ∧ ∀ j l', j ≠ i → ls !! j = Some l' → f j l' = left_of (before c e.1) l') as (f & children & -> & Hp' & Hf).
  { destruct (direction_ it).
    - destruct (others_placed i _ (λ _ l, left_of (before c e.1) l) _ (turn_reverse e.1) Hp) as (children & -> & Hp' & _).
      { intros j l' child' Hne Hl' Hst'. destruct (seek_child l' child' _ e.1 Hde Hst') as (child2 & E & Hst2). unfold turn_reverse. rewrite E. cbn [mbind option_bind].
        rewrite (it_valid _ _ _ Hst2). destruct (right_of (before c e.1) l') as [m|] eqn:Hm.
        - apply (it_move _ _ _ _ _ Hst2); [by repeat constructor|]. by apply right_to_left.
        - apply (it_move _ _ _ _ _ Hst2); [by repeat constructor|].
          apply (right_none_left dom c l'); [exact (it_sorted _ _ _ Hst2)|exact (it_dom _ _ _ Hst2)|done]. }
      eexists _, children. split; [done|]. split; [done|]. intros j l' Hne Hl'. cbn. by rewrite decide_False.
    - eexists _, _. split; [done|]. split; [done|]. intros j l' Hne Hl'. apply left_ext. intros x Hx. symmetry. by apply (others_before i j l l'). }
  cbn [mbind option_bind].
  destruct (it_move _ _ _ Cursor.Prev (left_of (before c e.1) l) Hch) as (child' & -> & Hch'); [by repeat constructor|apply (step_Prev dom c l (it_sorted _ _ _ Hch) (it_dom _ _ _ Hch) n e Hn)|].
  cbn [mbind option_bind]. eexists. split; [done|]. apply SetLargest_state; [by apply before_cut|].
  by apply (placed_insert f _ i child' children l).
Qed.

Lemma merging_move_state it pos o pos' : merging_state it pos → Cursor.targets_in dom [o] → Cursor.step c es pos o = Some pos' →
  ∃ it', merging_move o it = Some it' ∧ merging_state it' pos'.
Proof.
  intros Hst Ht Hstep. destruct (state_placed _ _ Hst) as [f Hp]. apply Forall_cons in Ht as [Ht _].
  pose proof (proj1 Hst) as Hcmp. destruct o as [t| | | |]; cbn [merging_move]; try rewrite Hcmp.
  - rewrite (step_Seek dom c es Hs Hd t pos Ht) in Hstep. injection Hstep as <-.
    destruct (mapM_placed f (λ _ l, right_of (before c t) l) (children_ it) (Seek t) Hp) as (children & -> & Hp').
    { intros i l child _. by apply seek_child. }
    cbn [mbind option_bind]. eexists. split; [done|]. apply SetSmallest_state; [by apply before_cut|done].
  - rewrite (step_SeekToFirst dom c es Hs Hd pos) in Hstep. injection Hstep as <-.
    destruct (mapM_placed f (λ _ l, right_of (λ _, false) l) (children_ it) SeekToFirst Hp) as (children & -> & Hp').
    { intros i l child _ Hc. apply (it_move _ _ _ _ _ Hc); [by repeat constructor|]. by apply (step_SeekToFirst dom c l (it_sorted _ _ _ Hc) (it_dom _ _ _ Hc)). }
    cbn [mbind option_bind]. eexists. split; [done|]. apply SetSmallest_state; [by apply all_cut|done].
  - rewrite (step_SeekToLast dom c es Hs Hd pos) in Hstep. injection Hstep as <-.
    destruct (mapM_placed f (λ _ l, left_of (λ _, true) l) (children_ it) SeekToLast Hp) as (children & -> & Hp').
    { intros i l child _ Hc. apply (it_move _ _ _ _ _ Hc); [by repeat constructor|]. by apply (step_SeekToLast dom c l (it_sorted _ _ _ Hc) (it_dom _ _ _ Hc)). }
    cbn [mbind option_bind]. eexists. split; [done|]. apply SetLargest_state; [by apply all_cut|done].
  - destruct pos as [p|]; [|done]. by apply (Next_state it p).
  - destruct pos as [p|]; [|done]. by apply (Prev_state it p).
Qed.

End merge.

(** ** The merging iterator is lawful *)

Definition merging_at (es : list entry) (it : MergingIterator T) (pos : option nat) : Prop :=
  ∃ ls, es ≡ₚ mjoin ls ∧ keys_sorted c es ∧ Forall (λ e, dom e.1) es ∧ merging_state ls es it pos.

#[export] Instance merging_laws : IteratorLaws (MergingIterator T) dom c merging_at.
Proof.
  split.
  - by intros es it pos (ls & _ & Hs & _).
  - by intros es it pos (ls & _ & _ & Hd & _).
  - intros es it pos (ls & _ & _ & _ & _ & Hst). cbn. destruct pos as [p|].
    + by destruct Hst as (i & l & e & -> & _).
    + by destruct Hst as [-> _].
  - intros es it p (ls & _ & _ & _ & Hst). cbn. destruct (state_current ls es it p Hst) as (i & l & e & n & child & Hcur & Hpe & Hl & Hc & Hn & Hch & Hk & _).
    unfold current_child. rewrite Hcur. cbn. rewrite Hc, Hpe, <- Hn. exact (it_entry _ _ _ Hch).
  - intros es it pos (ls & _ & _ & _ & Hst). apply forallb_forall. intros child Hin%list_elem_of_In.
    destruct (state_placed _ _ _ _ Hst) as [f Hp]. apply list_elem_of_lookup_1 in Hin as [i Hc].
    destruct (placed_list _ _ _ _ _ Hp Hc) as (l & _ & Hch). exact (it_status _ _ _ Hch).
  - intros es it pos o pos' (ls & Hm & Hs & Hd & Hst) Ht Hstep.
    destruct (merging_move_state ls es Hm Hs Hd it pos o pos' Hst Ht Hstep) as (it' & Hmove & Hst'). exists it'. split; [done|]. by exists ls.
Qed.

(** New children, standing nowhere. *)
Definition fresh (ls : list (list entry)) (children : list T) : Prop := Forall2 (λ l it, at_pos l it None) ls children.

Lemma NewMerging_at ls es children :
  es ≡ₚ mjoin ls → keys_sorted c es → Forall (λ e, dom e.1) es → fresh ls children → merging_at es (NewMerging c children) None.
Proof.
  intros Hm Hs Hd Hf. exists ls. split_and!; try done. split; [done|]. split; [done|]. exists (λ _ _, None). split; [cbn; rewrite length_fmap; symmetry; by eapply Forall2_length|].
  intros i l child Hl Hc. cbn in Hc. apply list_lookup_fmap_Some in Hc as (it & -> & Hit). apply Update_at. exact (Forall2_lookup_lr _ _ _ _ _ _ Hf Hl Hit).
Qed.

Definition merged_at (es : list entry) (m : Merged T) (pos : option nat) : Prop :=
  match m with
  | MergedNone it => empty_at es it pos
  | MergedOne it => at_pos es it pos
  | MergedMany it => merging_at es it pos
  end.

#[export] Instance merged_laws : IteratorLaws (Merged T) dom c merged_at.
Proof.
  pose proof (empty_laws dom c) as HE. pose proof merging_laws as HM. split.
  - intros es [it|it|it] pos Hat; cbn [merged_at] in Hat; [generalize (it_sorted _ _ _ Hat)..|generalize (it_sorted (IteratorLaws := HM) _ _ _ Hat)]; exact id.
  - intros es [it|it|it] pos Hat; cbn [merged_at] in Hat; [generalize (it_dom _ _ _ Hat)..|generalize (it_dom (IteratorLaws := HM) _ _ _ Hat)]; exact id.
  - intros es [it|it|it] pos Hat; cbn [merged_at] in Hat; [generalize (it_valid _ _ _ Hat)..|generalize (it_valid (IteratorLaws := HM) _ _ _ Hat)]; exact id.
  - intros es [it|it|it] p Hat; cbn [merged_at] in Hat; [by destruct Hat as (_ & _ & ?)|generalize (it_entry _ _ _ Hat)|generalize (it_entry (IteratorLaws := HM) _ _ _ Hat)]; exact id.
  - intros es [it|it|it] pos Hat; cbn [merged_at] in Hat; [generalize (it_status _ _ _ Hat)..|generalize (it_status (IteratorLaws := HM) _ _ _ Hat)]; exact id.
  - intros es [it|it|it] pos o pos' Hat Ht Hstep; cbn [merged_at] in Hat; cbn [move merged_iterator].
    + destruct (it_move _ _ _ _ _ Hat Ht Hstep) as (it' & -> & Hat'). by eexists.
    + destruct (it_move _ _ _ _ _ Hat Ht Hstep) as (it' & -> & Hat'). by eexists.
    + destruct (it_move (IteratorLaws := HM) _ _ _ _ _ Hat Ht Hstep) as (it' & Hm & Hat'). rewrite Hm. by eexists.
Qed.

Lemma merged_dom ls es children : fresh ls children → es ≡ₚ mjoin ls → Forall (λ e, dom e.1) es.
Proof.
  intros Hf Hm. apply Forall_forall. intros e He. rewrite Hm in He. apply list_elem_of_join in He as (l & He & Hl).
  apply list_elem_of_lookup_1 in Hl as [i Hl]. destruct (Forall2_lookup_l _ _ _ _ _ Hf Hl) as (it & _ & Hat).
  exact (proj1 (Forall_forall _ _) (it_dom _ _ _ Hat) e He).
Qed.

Lemma NewMergingIterator_at ls es children :
  es ≡ₚ mjoin ls → keys_sorted c es → Forall (λ e, dom e.1) es → fresh ls children → merged_at es (NewMergingIterator c children) None.
Proof.
  intros Hm Hs Hd Hf. destruct children as [|it [|it' children]]; cbn [NewMergingIterator merged_at].
  - apply Forall2_nil_inv_r in Hf as ->. split; [|done]. by apply Permutation_nil_r.
  - apply Forall2_cons_inv_r in Hf as (l & ls' & Hat & Hf' & ->). apply Forall2_nil_inv_r in Hf' as ->. cbn in Hm. rewrite app_nil_r in Hm.
    assert (l = es) as <-; [|done]. apply (StronglySorted_unique_strong (λ a b, Compare c a.1 b.1 < 0)); [|exact (it_sorted _ _ _ Hat)|done..].
    intros a b Ha Hb H1 H2. pose proof (it_dom _ _ _ Hat) as Hdl. rewrite Forall_forall in Hd, Hdl. by destruct (cmp_asym dom c a.1 b.1 (Hdl a Ha) (Hd b Hb) H1).
  - by apply (NewMerging_at ls).
Qed.

End children.

(** ** Properties *)

(** C19: the merging iterator over any lawful iterators whose keys differ refines
    the cursor over the merge of their entries. After every sequence of [Seek],
    [SeekToFirst], [SeekToLast], [Next] and [Prev] that the cursor allows, with
    changes of direction anywhere, no assertion fails, the status is ok, and
    the iterator is valid exactly when the cursor is, with its key and value. *)
Theorem merging_iterator_refines `{Iterator T} dom c at_pos ls es (children : list T) ops pos :
  ComparatorLaws dom c → IteratorLaws T dom c at_pos → fresh at_pos ls children →
  es ≡ₚ mjoin ls → keys_sorted c es → Cursor.targets_in dom ops → Cursor.run c es None ops = Some pos →
  ∃ it, moves ops (NewMergingIterator c children) = Some it ∧ shows es it pos.
Proof.
  intros HL HT Hf Hm Hs Ht Hrun. pose proof (merged_laws dom c at_pos) as HM.
  assert (Forall (λ e, dom e.1) es) as Hd by (by eapply merged_dom).
  destruct (it_moves (IteratorLaws0 := HM) es ops _ None pos (NewMergingIterator_at dom c at_pos ls es children Hm Hs Hd Hf) Ht Hrun) as (it & Hmv & Hat).
  exists it. split; [done|]. exact (it_shows _ _ _ Hat).
Qed.

(** ** Witnesses *)

Definition merge_left : list entry := [([97], [1; 1]); ([99], [3]); ([101], [5; 5; 5])].
Definition merge_right : list entry := [([98], [2; 2]); ([100], [4])].
Definition merge_both : list entry := [([97], [1; 1]); ([98], [2; 2]); ([99], [3]); ([100], [4]); ([101], [5; 5; 5])].
Definition merge_ops : list Cursor.op := [Cursor.Seek [99; 0]; Cursor.Prev; Cursor.Prev; Cursor.Next; Cursor.Next].

Definition block_of (es : list entry) : option Iter.t :=
  match NewIterator Bytewise.comparator (NewBlock (Builder.Build 2 es)) with BlockIterator it => Some it | _ => None end.

Lemma merge_block es : Forall entry_ok es → Forall (λ e, bytes_ok e.1) es → keys_sorted Bytewise.comparator es → len (Builder.Build 2 es) < 2 ^ 32 →
  ∃ it, block_of es = Some it ∧ block_at bytes_ok Bytewise.comparator es it None.
Proof.
  intros Hok Hd Hs Hsz. destruct (built_block bytes_ok Bytewise.comparator 2 es _ Hok Hd Hs Hsz) as (it & Hopen & Hat).
  exists it. unfold block_of. by rewrite Hopen.
Qed.

Lemma merge_blocks : ∃ a b, block_of merge_left = Some a ∧ block_of merge_right = Some b ∧
  fresh (block_at bytes_ok Bytewise.comparator) [merge_left; merge_right] [a; b].
Proof.
  destruct (merge_block merge_left) as (a & Ha & Hata); [unfold entry_ok, u32_ok; by_decide|by_decide|sorted_keys|by vm_compute|].
  destruct (merge_block merge_right) as (b & Hb & Hatb); [unfold entry_ok, u32_ok; by_decide|by_decide|sorted_keys|by vm_compute|].
  exists a, b. split; [done|]. split; [done|]. by repeat constructor.
Qed.

Lemma merging_iterator_refines_witness :
  ∃ a b it, block_of merge_left = Some a ∧ block_of merge_right = Some b ∧
    moves merge_ops (NewMergingIterator Bytewise.comparator [a; b]) = Some it ∧ shows merge_both it (Some 3%nat).
Proof.
  destruct merge_blocks as (a & b & Ha & Hb & Hf). exists a, b.
  destruct (merging_iterator_refines bytes_ok Bytewise.comparator (block_at bytes_ok Bytewise.comparator) [merge_left; merge_right] merge_both [a; b]
    merge_ops (Some 3%nat) _ _ Hf) as (it & Hm & Hshow).
  - apply (bool_decide_unpack _). vm_compute. exact I.
  - sorted_keys.
  - by repeat constructor.
  - reflexivity.
  - exists it. by split_and!.
Defined.
