(* ===== verification/TwoLevel.v ===== *)
(** * The two-level iterator

    table/two_level_iterator.cc: an iterator over an index whose values name
    blocks, each with an iterator of its own. It is proved to be a lawful
    iterator over the blocks' entries, one after the other. *)

From Stdlib Require Import Sorted.
From S2P Require Import Prelude Comparator Block Iterator.

(** [X] is the type of the index iterator, [Y] that of the data iterators.
    [fuel_] bounds the turns of the loops over empty blocks; the number of index
    entries is enough. *)
Record TwoLevelIterator (X Y : Type) := TwoLevel {
  fuel_ : nat;
  block_function_ : bytes → Y;
  status_ : bool;
  index_iter_ : IteratorWrapper X;
  data_iter_ : IteratorWrapper Y;
  data_block_handle_ : bytes;
  current_block_index_ : Z
}.
#[global] Arguments TwoLevel {X Y}.
#[global] Arguments fuel_ {X Y}.
#[global] Arguments block_function_ {X Y}.
#[global] Arguments status_ {X Y}.
#[global] Arguments index_iter_ {X Y}.
#[global] Arguments data_iter_ {X Y}.
#[global] Arguments data_block_handle_ {X Y}.
#[global] Arguments current_block_index_ {X Y}.

Section two_level.

Context `{HX : Iterator X} `{HY : Iterator Y}.

Abbreviation t := (TwoLevelIterator X Y).

Definition NewTwoLevelIterator (fuel : nat) (index_iter : X) (block_function : bytes → Y) : t :=
  TwoLevel fuel block_function true (Set_ (Some index_iter) NewIteratorWrapper) NewIteratorWrapper [] 0.

Definition with_index (w : IteratorWrapper X) (it : t) : t :=
  TwoLevel (fuel_ it) (block_function_ it) (status_ it) w (data_iter_ it) (data_block_handle_ it) (current_block_index_ it).
Definition with_data (w : IteratorWrapper Y) (it : t) : t :=
  TwoLevel (fuel_ it) (block_function_ it) (status_ it) (index_iter_ it) w (data_block_handle_ it) (current_block_index_ it).
Definition with_handle (h : bytes) (it : t) : t :=
  TwoLevel (fuel_ it) (block_function_ it) (status_ it) (index_iter_ it) (data_iter_ it) h (current_block_index_ it).
Definition with_block_index (n : Z) (it : t) : t :=
  TwoLevel (fuel_ it) (block_function_ it) (status_ it) (index_iter_ it) (data_iter_ it) (data_block_handle_ it) n.

Definition SaveError (ok : bool) (it : t) : t :=
  TwoLevel (fuel_ it) (block_function_ it) (status_ it && ok) (index_iter_ it) (data_iter_ it) (data_block_handle_ it) (current_block_index_ it).

Definition has_data (it : t) : bool := match iter_ (data_iter_ it) with Some _ => true | None => false end.

Definition SetDataIterator (data_iter : option Y) (it : t) : t :=
  let it := if has_data it then SaveError (status_ok (data_iter_ it)) it else it in
  with_data (Set_ data_iter (data_iter_ it)) it.

Definition InitDataBlock (it : t) : t :=
  if negb (Valid (index_iter_ it)) then SetDataIterator None it
  else
    let handle := value (index_iter_ it) in
    if has_data it && (Slice.compare handle (data_block_handle_ it) =? 0) then it
    else SetDataIterator (Some (block_function_ it handle)) (with_handle handle it).

(** [if (data_iter_.iter() != nullptr) data_iter_.move()]. *)
Definition move_data (o : Cursor.op) (it : t) : option t :=
  if has_data it then data ← move o (data_iter_ it); Some (with_data data it) else Some it.

Definition move_index (o : Cursor.op) (it : t) : option t :=
  index ← move o (index_iter_ it); Some (with_index index it).

Fixpoint SkipEmptyDataBlocksForward (fuel : nat) (it : t) : option t :=
  if has_data it && Valid (data_iter_ it) then Some it
  else if negb (Valid (index_iter_ it)) then Some (SetDataIterator None it)
  else
    match fuel with
    | O => None
    | S fuel =>
        it ← move_index Cursor.Next it;
        it ← move_data Cursor.SeekToFirst (InitDataBlock (with_block_index (u32 (current_block_index_ it + 1)) it));
        SkipEmptyDataBlocksForward fuel it
    end.

Fixpoint SkipEmptyDataBlocksBackward (fuel : nat) (it : t) : option t :=
  if has_data it && Valid (data_iter_ it) then Some it
  else if negb (Valid (index_iter_ it)) then Some (SetDataIterator None it)
  else
    match fuel with
    | O => None
    | S fuel =>
        it ← move_index Cursor.Prev it;
        let index := if current_block_index_ it >? 0 then current_block_index_ it - 1 else current_block_index_ it in
        it ← move_data Cursor.SeekToLast (InitDataBlock (with_block_index index it));
        SkipEmptyDataBlocksBackward fuel it
    end.

Definition two_level_move (o : Cursor.op) (it : t) : option t :=
  match o with
  | Cursor.Seek target =>
      it ← move_index (Cursor.Seek target) it;
      it ← move_data (Cursor.Seek target) (InitDataBlock it);
      SkipEmptyDataBlocksForward (fuel_ it) it
  | Cursor.SeekToFirst =>
      it ← move_index Cursor.SeekToFirst it;
      it ← move_data Cursor.SeekToFirst (InitDataBlock (with_block_index 0 it));
      SkipEmptyDataBlocksForward (fuel_ it) it
  | Cursor.SeekToLast =>
      it ← move_index Cursor.SeekToLast it;
      it ← move_data Cursor.SeekToLast (InitDataBlock it);
      SkipEmptyDataBlocksBackward (fuel_ it) it
  | Cursor.Next =>
      if Valid (data_iter_ it) then
        data ← Next (data_iter_ it); SkipEmptyDataBlocksForward (fuel_ it) (with_data data it)
      else None
  | Cursor.Prev =>
      if Valid (data_iter_ it) then
        data ← Prev (data_iter_ it); SkipEmptyDataBlocksBackward (fuel_ it) (with_data data it)
      else None
  end.

Definition two_level_status (it : t) : bool :=
  if negb (status_ok (index_iter_ it)) then false
  else if has_data it && negb (status_ok (data_iter_ it)) then false
  else status_ it.

#[export] Instance two_level_iterator : Iterator t := {|
  Valid it := Valid (data_iter_ it); key it := key (data_iter_ it); value it := value (data_iter_ it);
  status_ok := two_level_status; move := two_level_move |}.

Definition CurrentBlockIndex (it : t) : Z := current_block_index_ it.

End two_level.

(** ** Lemmas: the entries of all blocks *)

Section blocks.

Context `{HX : Iterator X} `{HY : Iterator Y} (dom : bytes → Prop) (c : Comparator) {HL : ComparatorLaws dom c}.
Context (xat : list entry → X → option nat → Prop) {LX : IteratorLaws X dom c xat}.
Context (yat : list entry → Y → option nat → Prop) {LY : IteratorLaws Y dom c yat}.

Abbreviation t := (TwoLevelIterator X Y).

(** The index, and the entries of the block that a handle names. *)
Context (index : list entry) (D : bytes → list entry) (block_function : bytes → Y).
Context (Hopen : ∀ k h, (k, h) ∈ index → yat (D h) (block_function h) None).

Definition blocks : list (list entry) := (λ x, D x.2) <$> index.
Definition all_entries : list entry := mjoin blocks.

(** Number of entries before block [i]. *)
Definition off (i : nat) : nat := length (mjoin (take i blocks)).

(** The key of an index entry is not before the keys of its block, and before
    those of the next blocks. *)
Definition separated : Prop :=
  (∀ i x e, index !! i = Some x → e ∈ D x.2 → Compare c e.1 x.1 ≤ 0) ∧
  (∀ i j x y e, (i < j)%nat → index !! i = Some x → index !! j = Some y → e ∈ D y.2 → Compare c x.1 e.1 < 0).

Lemma block_lookup i x : index !! i = Some x → blocks !! i = Some (D x.2).
Proof. intros Hx. unfold blocks. by rewrite list_lookup_fmap, Hx. Qed.

Lemma off_S i x : index !! i = Some x → off (S i) = (off i + length (D x.2))%nat.
Proof. intros Hx. unfold off. rewrite (take_S_r _ _ _ (block_lookup i x Hx)), join_app, length_app. cbn. by rewrite app_nil_r. Qed.

Lemma off_mono i j : (i ≤ j)%nat → (off i ≤ off j)%nat.
Proof.
  intros Hij. unfold off. replace (take i blocks) with (take i (take j blocks)) by (rewrite take_take; f_equal; lia).
  rewrite <- (take_drop i (take j blocks)) at 2. rewrite join_app, length_app. lia.
Qed.

Lemma off_all : off (length index) = length all_entries.
Proof. unfold off, all_entries. f_equal. f_equal. apply take_ge. unfold blocks. by rewrite length_fmap. Qed.

Lemma off_le i : (off i ≤ length all_entries)%nat.
Proof.
  unfold off, all_entries. rewrite <- (take_drop i blocks) at 2. rewrite join_app, length_app. lia.
Qed.

Lemma all_lookup i x n e : index !! i = Some x → D x.2 !! n = Some e → all_entries !! (off i + n)%nat = Some e.
Proof.
  intros Hx He. unfold all_entries, off. rewrite <- (take_drop_middle blocks i (D x.2)) by (by apply block_lookup).
  rewrite join_app. rewrite take_app_le by (rewrite length_take; apply block_lookup, lookup_lt_Some in Hx; lia).
  rewrite take_take, Nat.min_id. rewrite lookup_app_r by lia. replace (_ - _)%nat with n by lia. cbn. rewrite lookup_app_l; [done|]. by eapply lookup_lt_Some.
Qed.

(** ** Lemmas: the loops over empty blocks *)

Definition base (it : t) : Prop := block_function_ it = block_function ∧ status_ it = true ∧ (length index ≤ fuel_ it)%nat.

Definition no_data (it : t) : Prop := iter_ (data_iter_ it) = None ∧ valid_ (data_iter_ it) = false.

(** The data iterator, if any, is one of the block it is said to be of. *)
Definition data_ok (it : t) : Prop := no_data it ∨ ∃ q, wrapper_at yat (D (data_block_handle_ it)) (data_iter_ it) q.

(** Block [i] is open and its iterator stands at [q]. *)
Definition in_block (i : nat) (q : option nat) (it : t) : Prop :=
  base it ∧ wrapper_at xat index (index_iter_ it) (Some i) ∧
  ∃ x, index !! i = Some x ∧ data_block_handle_ it = x.2 ∧ wrapper_at yat (D x.2) (data_iter_ it) q.

Definition at_end (it : t) : Prop := base it ∧ wrapper_at xat index (index_iter_ it) None ∧ no_data it.

(** [tr]: the block index is tracked. *)
Definition tracks (tr : Prop) (i : nat) (it : t) : Prop := tr → Z.of_nat (length index) < 2 ^ 32 ∧ current_block_index_ it = Z.of_nat i.

Definition tl_state (tr : Prop) (it : t) (pos : option nat) : Prop :=
  match pos with
  | Some p => ∃ i n, in_block i (Some n) it ∧ p = (off i + n)%nat ∧ tracks tr i it
  | None => at_end it
  end.

Lemma at_has_data es (it : t) q : wrapper_at yat es (data_iter_ it) q → has_data it = true.
Proof. intros (y & Hy & _). unfold has_data. by rewrite Hy. Qed.

Lemma no_has_data (it : t) : no_data it → has_data it = false.
Proof. intros [Hn _]. unfold has_data. by rewrite Hn. Qed.

Lemma SetDataIterator_ok data it : base it → no_data it ∨ (∃ es q, wrapper_at yat es (data_iter_ it) q) →
  let it' := SetDataIterator data it in
  base it' ∧ index_iter_ it' = index_iter_ it ∧ data_block_handle_ it' = data_block_handle_ it ∧
  current_block_index_ it' = current_block_index_ it ∧ data_iter_ it' = Set_ data (data_iter_ it).
Proof.
  intros (Hf & Hs & Hfu) Hd. unfold SetDataIterator. destruct (has_data it) eqn:E; [|by split_and!].
  cbn [with_data SaveError data_iter_ index_iter_ data_block_handle_ current_block_index_]. split_and!; try done.
  destruct Hd as [Hd|(es & q & Hq)]; [by rewrite (no_has_data it Hd) in E|].
  split; [done|]. split; [|done]. cbn [with_data SaveError status_]. by rewrite Hs, (it_status _ _ _ Hq).
Qed.

Lemma InitDataBlock_in it i x : base it → data_ok it → index !! i = Some x → wrapper_at xat index (index_iter_ it) (Some i) →
  ∃ q, in_block i q (InitDataBlock it) ∧ current_block_index_ (InitDataBlock it) = current_block_index_ it.
Proof.
  intros Hb Hd Hx Hi. unfold InitDataBlock. cbn zeta. rewrite (it_is_valid _ _ _ Hi). cbn [negb].
  pose proof (it_entry _ _ _ Hi) as He. rewrite Hx in He. injection He as ->. cbn [snd].
  set (handle := value (index_iter_ it)) in *.
  destruct (has_data it && _) eqn:E.
  - apply andb_true_iff in E as [Ed Eh]. apply Z.eqb_eq in Eh. rewrite compare_lex in Eh. apply lex_eq in Eh.
    destruct Hd as [Hd|[q Hq]]; [by rewrite (no_has_data it Hd) in Ed|]. exists q. split; [|done]. split; [done|]. split; [done|].
    eexists. split; [done|]. cbn [snd]. rewrite <- Eh in Hq. done.
  - destruct (SetDataIterator_ok (Some (block_function_ it handle)) (with_handle handle it)) as (Hb' & Ei & Eh & Ec & Ed).
    { done. }
    { destruct Hd as [?|[q Hq]]; [by left|right; eauto]. }
    exists None. rewrite Ec. split; [|done]. split; [done|]. rewrite Ei, Eh, Ed. split; [done|]. eexists. split; [done|]. split; [done|].
    cbn [Set_ snd]. apply Update_at. rewrite (proj1 Hb). eapply Hopen. by eapply list_elem_of_lookup_2.
Qed.

Lemma InitDataBlock_out it : base it → data_ok it → wrapper_at xat index (index_iter_ it) None → at_end (InitDataBlock it).
Proof.
  intros Hb Hd Hi. unfold InitDataBlock. rewrite (it_not_valid _ _ Hi). cbn [negb].
  destruct (SetDataIterator_ok None it Hb) as (Hb' & Ei & _ & _ & Ed); [destruct Hd as [?|[q Hq]]; [by left|right; eauto]|].
  split; [done|]. rewrite Ei. split; [done|]. unfold no_data. by rewrite Ed.
Qed.

Lemma in_block_data i q it : in_block i q it → data_ok it.
Proof. intros (_ & _ & x & _ & Hh & Hq). right. exists q. by rewrite Hh. Qed.

(** Moving the data iterator of the open block. *)
Lemma move_in_block o i q q' x it :
  Cursor.targets_in dom [o] → in_block i q it → index !! i = Some x → Cursor.step c (D x.2) q o = Some q' →
  ∃ it', move_data o it = Some it' ∧ in_block i q' it' ∧ current_block_index_ it' = current_block_index_ it.
Proof.
  intros Ho (Hb & Hi & x' & Hx' & Hh & Hq) Hx Hs. rewrite Hx in Hx'. injection Hx' as <-. unfold move_data. rewrite (at_has_data _ _ _ Hq).
  destruct (it_move _ _ _ _ _ Hq Ho Hs) as (data & -> & Hq'). cbn [mbind option_bind]. eexists. split; [done|]. split; [|done].
  split; [done|]. split; [done|]. by exists x.
Qed.

(** A move of the index, then opening the block it is at. *)
Lemma move_index_ok o pos pos' it :
  Cursor.targets_in dom [o] → base it → data_ok it → wrapper_at xat index (index_iter_ it) pos → Cursor.step c index pos o = Some pos' →
  ∃ it', move_index o it = Some it' ∧ base it' ∧ data_ok it' ∧ current_block_index_ it' = current_block_index_ it ∧
    wrapper_at xat index (index_iter_ it') pos'.
Proof.
  intros Ho Hb Hd Hi Hs. unfold move_index. destruct (it_move _ _ _ _ _ Hi Ho Hs) as (w & -> & Hi'). cbn [mbind option_bind].
  eexists. by split_and!.
Qed.

Definition start (j : nat) : option nat := if (off j <? length all_entries)%nat then Some (off j) else None.
Definition finish (i : nat) : option nat := match off i with O => None | S m => Some m end.

Lemma end_skips it : at_end it → ∀ fuel, SkipEmptyDataBlocksForward fuel it = Some (SetDataIterator None it) ∧
  SkipEmptyDataBlocksBackward fuel it = Some (SetDataIterator None it) ∧ at_end (SetDataIterator None it).
Proof.
  intros (Hb & Hi & Hn) fuel. destruct (SetDataIterator_ok None it Hb (or_introl Hn)) as (Hb' & Ei & _ & _ & Ed).
  assert (at_end (SetDataIterator None it)) as He by (split; [done|]; rewrite Ei; split; [done|]; unfold no_data; by rewrite Ed).
  destruct fuel; cbn [SkipEmptyDataBlocksForward SkipEmptyDataBlocksBackward]; by rewrite (no_has_data it Hn), (it_not_valid _ _ Hi).
Qed.

Lemma end_move o it : at_end it → move_data o it = Some it.
Proof. intros (_ & _ & Hn). unfold move_data. by rewrite (no_has_data it Hn). Qed.

(** At the end or in block [i]: what opening a block leaves after a move of the index. *)
Lemma open_after o pos pos' it (g : t → t) :
  (∀ it, g it = with_block_index (current_block_index_ (g it)) it) →
  Cursor.targets_in dom [o] → base it → data_ok it → wrapper_at xat index (index_iter_ it) pos → Cursor.step c index pos o = Some pos' →
  ∃ it', move_index o it = Some it' ∧ current_block_index_ it' = current_block_index_ it ∧
    match pos' with
    | Some i => ∃ q, in_block i q (InitDataBlock (g it')) ∧ current_block_index_ (InitDataBlock (g it')) = current_block_index_ (g it')
    | None => at_end (InitDataBlock (g it'))
    end.
Proof.
  intros Hg Ho Hb Hd Hi Hs. destruct (move_index_ok o pos pos' it Ho Hb Hd Hi Hs) as (it' & Hm & Hb' & Hd' & Ec & Hi').
  exists it'. split; [done|]. split; [done|]. pose proof (Hg it') as Eg. set (n := current_block_index_ (g it')) in *. clearbody n. rewrite Eg.
  destruct pos' as [i|]; [|by apply InitDataBlock_out].
  pose proof (it_entry _ _ _ Hi') as Hx. by apply (InitDataBlock_in (with_block_index n it') i (key (index_iter_ it'), value (index_iter_ it'))).
Qed.

Definition forward (i : nat) (q : option nat) : option nat := match q with Some n => Some (off i + n)%nat | None => start (S i) end.
Definition backward (i : nat) (q : option nat) : option nat := match q with Some n => Some (off i + n)%nat | None => finish i end.

Lemma first_of_block i x : index !! i = Some x → forward i (if (length (D x.2) =? 0)%nat then None else Some 0%nat) = start i.
Proof.
  intros Hx. pose proof (off_S i x Hx) as Ho. pose proof (off_le (S i)) as Hle. unfold forward, start.
  destruct (Nat.eqb_spec (length (D x.2)) 0) as [E|E].
  - by replace (off (S i)) with (off i) by lia.
  - destruct (Nat.ltb_spec (off i) (length all_entries)); [f_equal|]; lia.
Qed.

Lemma last_of_block i x : index !! i = Some x →
  backward i (if (length (D x.2) =? 0)%nat then None else Some (pred (length (D x.2)))) = finish (S i).
Proof.
  intros Hx. pose proof (off_S i x Hx) as Ho. unfold backward, finish. rewrite Ho.
  destruct (Nat.eqb_spec (length (D x.2)) 0) as [E|E].
  - by rewrite E, Nat.add_0_r.
  - destruct (off i + length (D x.2))%nat eqn:E2; [lia|]. f_equal. lia.
Qed.

Lemma skip_forward tr : ∀ fuel it i q, in_block i q it → tracks tr i it → (length index - i ≤ fuel)%nat →
  ∃ it', SkipEmptyDataBlocksForward fuel it = Some it' ∧ tl_state tr it' (forward i q).
Proof.
  induction fuel as [|fuel IH]; intros it i q Hin Htr Hfuel; pose proof Hin as (Hb & Hi & x & Hx & Hh & Hq);
    pose proof (lookup_lt_Some _ _ _ Hx) as Hlt; [lia|].
  cbn [SkipEmptyDataBlocksForward]. rewrite (at_has_data _ _ _ Hq). destruct q as [n|].
  { rewrite (it_is_valid _ _ _ Hq). exists it. split; [done|]. by exists i, n. }
  rewrite (it_not_valid _ _ Hq), (it_is_valid _ _ _ Hi). cbn [andb negb forward].
  destruct (open_after Cursor.Next (Some i) _ it (λ it, with_block_index (u32 (current_block_index_ it + 1)) it) ltac:(done)
    ltac:(by repeat constructor) Hb (in_block_data _ _ _ Hin) Hi eq_refl) as (it' & Hm & Ec & Hopen'). rewrite Hm. cbn [mbind option_bind].
  destruct (Nat.ltb_spec (S i) (length index)) as [Hlt'|Hge].
  - destruct Hopen' as (q & Hin' & Ec'). destruct (lookup_lt_is_Some_2 index (S i) Hlt') as [y Hy].
    destruct (move_in_block Cursor.SeekToFirst (S i) q _ y _ ltac:(by repeat constructor) Hin' Hy eq_refl) as (it2 & Hm2 & Hin2 & Ec2). rewrite Hm2. cbn [mbind option_bind].
    destruct (IH it2 (S i) _ Hin2) as (it3 & Hsk & Hst).
    { intros Ht. destruct (Htr Ht) as [Hn Hc]. split; [done|]. rewrite Ec2, Ec'. cbn. rewrite Ec, Hc, u32_id by (unfold u32_ok; lia). lia. }
    { lia. }
    exists it3. split; [done|]. by rewrite (first_of_block (S i) y Hy) in Hst.
  - rewrite (end_move _ _ Hopen'). cbn [mbind option_bind]. destruct (end_skips _ Hopen' fuel) as (Hsk & _ & Hend). rewrite Hsk. eexists. split; [done|].
    unfold start. replace (S i) with (length index) by lia. by rewrite off_all, Nat.ltb_irrefl.
Qed.

Lemma skip_backward tr : ∀ fuel it i q, in_block i q it → tracks tr i it → (S i ≤ fuel)%nat →
  ∃ it', SkipEmptyDataBlocksBackward fuel it = Some it' ∧ tl_state tr it' (backward i q).
Proof.
  induction fuel as [|fuel IH]; intros it i q Hin Htr Hfuel; pose proof Hin as (Hb & Hi & x & Hx & Hh & Hq); [lia|].
  pose proof (lookup_lt_Some _ _ _ Hx) as Hlt. cbn [SkipEmptyDataBlocksBackward]. rewrite (at_has_data _ _ _ Hq). destruct q as [n|].
  { rewrite (it_is_valid _ _ _ Hq). exists it. split; [done|]. by exists i, n. }
  rewrite (it_not_valid _ _ Hq), (it_is_valid _ _ _ Hi). cbn [andb negb backward].
  destruct (open_after Cursor.Prev (Some i) _ it
    (λ it, with_block_index (if current_block_index_ it >? 0 then current_block_index_ it - 1 else current_block_index_ it) it) ltac:(done)
    ltac:(by repeat constructor) Hb (in_block_data _ _ _ Hin) Hi eq_refl) as (it' & Hm & Ec & Hopen'). rewrite Hm. cbn [mbind option_bind].
  destruct i as [|i].
  - rewrite (end_move _ _ Hopen').
    cbn [mbind option_bind]. destruct (end_skips _ Hopen' fuel) as (_ & Hsk & Hend). rewrite Hsk. eexists. by split.
  - destruct Hopen' as (q & Hin' & Ec'). destruct (lookup_lt_is_Some_2 index i ltac:(lia)) as [y Hy].
    destruct (move_in_block Cursor.SeekToLast i q _ y _ ltac:(by repeat constructor) Hin' Hy eq_refl) as (it2 & Hm2 & Hin2 & Ec2). rewrite Hm2. cbn [mbind option_bind].
    destruct (IH it2 i _ Hin2) as (it3 & Hsk & Hst).
    { intros Ht. destruct (Htr Ht) as [Hn Hc]. split; [done|]. rewrite Ec2, Ec'. cbn [with_block_index current_block_index_]. rewrite Ec, Hc.
      destruct (Z.gtb_spec (Z.of_nat (S i)) 0); lia. }
    { lia. }
    exists it3. split; [done|]. by rewrite (last_of_block i y Hy) in Hst.
Qed.

(** ** Lemmas: every move *)

Context (Hsep : separated) (Hs : keys_sorted c all_entries).

Lemma locate p e : all_entries !! p = Some e → ∃ j y m, index !! j = Some y ∧ D y.2 !! m = Some e ∧ p = (off j + m)%nat.
Proof.
  intros He. pose proof (lookup_lt_Some _ _ _ He) as Hlt. rewrite <- off_all in Hlt.
  assert (∀ k, (k ≤ length index)%nat → (p < off k)%nat → ∃ j y m, index !! j = Some y ∧ D y.2 !! m = Some e ∧ p = (off j + m)%nat) as Hk; [|by apply (Hk (length index))].
  induction k as [|k IH]; intros Hk Hp; [change (p < 0)%nat in Hp; lia|]. destruct (decide (p < off k)%nat) as [|Hge]; [apply IH; lia|].
  destruct (lookup_lt_is_Some_2 index k ltac:(lia)) as [y Hy]. rewrite (off_S k y Hy) in Hp.
  destruct (lookup_lt_is_Some_2 (D y.2) (p - off k) ltac:(lia)) as [e' He']. exists k, y, (p - off k)%nat.
  pose proof (all_lookup k y _ e' Hy He') as Ha. replace (off k + (p - off k))%nat with p in Ha by lia. split_and!; try done; [congruence|lia].
Qed.

Lemma block_ok i x : index !! i = Some x → keys_sorted c (D x.2) ∧ Forall (λ e, dom e.1) (D x.2).
Proof.
  intros Hx. destruct x as [k h]. pose proof (Hopen k h ltac:(by eapply list_elem_of_lookup_2)) as Hat.
  split; [exact (it_sorted _ _ _ Hat)|exact (it_dom _ _ _ Hat)].
Qed.

Lemma all_dom : Forall (λ e, dom e.1) all_entries.
Proof.
  apply Forall_lookup. intros p e He. destruct (locate p e He) as (j & y & m & Hy & Hm & _).
  exact (proj1 (Forall_lookup _ _) (proj2 (block_ok j y Hy)) _ _ Hm).
Qed.

Lemma seek_forward k i x : dom k → Forall (λ e, dom e.1) index → keys_sorted c index → right_of (before c k) index = Some i → index !! i = Some x →
  forward i (right_of (before c k) (D x.2)) = right_of (before c k) all_entries.
Proof.
  intros Hk Hid His Hri Hx. pose proof (before_cut dom c k Hk) as Hcut. destruct (block_ok i x Hx) as [Hxs Hxd].
  destruct (right_Some dom c index His Hid _ i Hcut Hri) as (x' & Hx' & Hlo & Hfirst). rewrite Hx in Hx'. injection Hx' as <-.
  apply Z.ltb_ge in Hlo. assert (dom x.1) as Hdx by (exact (entry_dom dom index Hid _ _ Hx)).
  pose proof (off_S i x Hx) as Ho. pose proof (off_le (S i)) as Hle. pose proof (below_le (before c k) (D x.2)) as Hbl.
  assert (below (before c k) all_entries = off i + below (before c k) (D x.2))%nat as Hb.
  { apply (below_unique dom c); [done|done|apply all_dom|lia|]. intros p e He. destruct (locate p e He) as (j & y & m & Hy & Hm & ->).
    assert (dom e.1) as Hde by (exact (entry_dom dom _ all_dom _ _ He)). pose proof (lookup_lt_Some _ _ _ Hm) as Hml. pose proof (off_S j y Hy) as Hoj.
    assert (dom y.1) as Hdy by (exact (entry_dom dom index Hid _ _ Hy)).
    destruct (Nat.lt_trichotomy j i) as [Hji|[->|Hij]].
    - pose proof (off_mono (S j) i ltac:(lia)). split; [lia|]. intros _. apply Z.ltb_lt.
      assert (Compare c y.1 k < 0) as Hyk by (destruct (Z.lt_ge_cases (Compare c y.1 k) 0) as [|Hge]; [done|]; apply Z.ltb_ge in Hge; specialize (Hfirst j y Hy Hge); lia).
      pose proof (proj1 Hsep j y e Hy ltac:(by eapply list_elem_of_lookup_2)) as Hey.
      destruct (Z.eq_dec (Compare c e.1 y.1) 0) as [E|E]; [apply cmp_eq in E as ->; done|]. apply (cmp_trans e.1 y.1 k); done || lia.
    - rewrite Hx in Hy. injection Hy as <-. rewrite (below_spec dom c (before c k) (D x.2) m e Hcut Hxs Hxd Hm). lia.
    - pose proof (off_mono (S i) j ltac:(lia)). split; [|lia]. intros Hek%Z.ltb_lt. exfalso.
      pose proof (proj2 Hsep i j x y e Hij Hx Hy ltac:(by eapply list_elem_of_lookup_2)) as Hxe.
      assert (Compare c x.1 k < 0); [|lia]. by apply (cmp_trans x.1 e.1 k). }
  unfold right_of at 2. rewrite Hb. unfold right_of, forward, start. rewrite Ho.
  destruct (Nat.ltb_spec (below (before c k) (D x.2)) (length (D x.2))).
  - destruct (Nat.ltb_spec (off i + below (before c k) (D x.2)) (length all_entries)); [done|lia].
  - by replace (below (before c k) (D x.2)) with (length (D x.2)) by lia.
Qed.

Lemma seek_past k : dom k → Forall (λ e, dom e.1) index → keys_sorted c index → right_of (before c k) index = None → right_of (before c k) all_entries = None.
Proof.
  intros Hk Hid His Hri. pose proof (before_cut dom c k Hk) as Hcut. unfold right_of.
  rewrite (below_unique dom c (before c k) all_entries (length all_entries)); [by rewrite Nat.ltb_irrefl|done|done|apply all_dom|done|].
  intros p e He. split; [intros _; by eapply lookup_lt_Some|]. intros _. destruct (locate p e He) as (j & y & m & Hy & Hm & ->).
  pose proof (right_None dom c index His Hid _ Hcut Hri j y Hy) as Hyk%Z.ltb_lt. apply Z.ltb_lt.
  pose proof (proj1 Hsep j y e Hy ltac:(by eapply list_elem_of_lookup_2)) as Hey. assert (dom y.1) as Hdy by (exact (entry_dom dom index Hid _ _ Hy)).
  assert (dom e.1) as Hde by (exact (entry_dom dom _ all_dom _ _ He)).
  destruct (Z.eq_dec (Compare c e.1 y.1) 0) as [E|E]; [apply cmp_eq in E as ->; done|]. apply (cmp_trans e.1 y.1 k); done || lia.
Qed.

Lemma state_parts tr it pos : tl_state tr it pos → base it ∧ data_ok it ∧ ∃ xpos, wrapper_at xat index (index_iter_ it) xpos.
Proof.
  destruct pos as [p|].
  - intros (i & n & Hin & _). pose proof Hin as (Hb & Hi & _). split; [done|]. split; [by eapply in_block_data|eauto].
  - intros (Hb & Hi & Hn). split; [done|]. split; [by left|eauto].
Qed.

(** Which moves keep the block index. *)
Definition still_tracks (tr : Prop) (o : Cursor.op) : Prop :=
  match o with Cursor.SeekToFirst => Z.of_nat (length index) < 2 ^ 32 | Cursor.Next | Cursor.Prev => tr | _ => False end.

Lemma two_level_move_state tr it pos o pos' :
  tl_state tr it pos → Cursor.targets_in dom [o] → Cursor.step c all_entries pos o = Some pos' →
  ∃ it', two_level_move o it = Some it' ∧ tl_state (still_tracks tr o) it' pos'.
Proof.
  intros Hst Ht Hstep. destruct (state_parts _ _ _ Hst) as (Hb & Hd & xpos & Hi).
  pose proof (it_sorted _ _ _ Hi) as His. pose proof (it_dom _ _ _ Hi) as Hid.
  assert (∀ n (it : t), with_block_index n it = with_block_index (current_block_index_ (with_block_index n it)) it) as Hg by done.
  assert (∀ it : t, it = with_block_index (current_block_index_ it) it) as Hg' by (by intros []).
  destruct o as [k| | | |]; cbn [two_level_move still_tracks].
  - pose proof Ht as [Hk _]%Forall_cons. rewrite (step_Seek dom c _ Hs all_dom k pos Hk) in Hstep. injection Hstep as <-.
    destruct (open_after (Cursor.Seek k) xpos _ it id Hg' Ht Hb Hd Hi (step_Seek dom c index His Hid k xpos Hk)) as (it' & -> & _ & Ho). cbn [mbind option_bind id] in *.
    destruct (right_of (before c k) index) as [i|] eqn:Hri.
    + destruct Ho as (q & Hin & _). pose proof Hin as (_ & _ & x & Hx & _). destruct (block_ok i x Hx) as [Hxs Hxd].
      destruct (move_in_block (Cursor.Seek k) i q _ x _ Ht Hin Hx (step_Seek dom c _ Hxs Hxd k q Hk)) as (it2 & -> & Hin2 & _). cbn [mbind option_bind].
      rewrite <- (seek_forward k i x Hk Hid His Hri Hx). apply skip_forward; [done|by intros []|]. destruct Hin2 as ((_ & _ & ?) & _). lia.
    + rewrite (end_move _ _ Ho). cbn [mbind option_bind]. rewrite (seek_past k Hk Hid His Hri).
      destruct (end_skips _ Ho (fuel_ (InitDataBlock it'))) as (-> & _ & He). by eexists.
  - destruct (open_after Cursor.SeekToFirst xpos _ it (with_block_index 0) (Hg 0) Ht Hb Hd Hi eq_refl) as (it' & -> & _ & Ho). cbn [mbind option_bind].
    assert (pos' = start 0) as -> by (cbn in Hstep; unfold start; cbn [off take length mjoin list_join]; injection Hstep as <-; by destruct (length all_entries)).
    destruct (Nat.eqb_spec (length index) 0) as [E|E].
    + rewrite (end_move _ _ Ho). cbn [mbind option_bind]. destruct (end_skips _ Ho (fuel_ (InitDataBlock (with_block_index 0 it')))) as (-> & _ & He). eexists. split; [done|].
      unfold start. rewrite <- off_all, E. by rewrite Nat.ltb_irrefl.
    + destruct Ho as (q & Hin & Ec). pose proof Hin as (_ & _ & x & Hx & _).
      destruct (move_in_block Cursor.SeekToFirst 0%nat q _ x _ Ht Hin Hx eq_refl) as (it2 & -> & Hin2 & Ec2). cbn [mbind option_bind].
      rewrite <- (first_of_block 0 x Hx). apply skip_forward; [done| |destruct Hin2 as ((_ & _ & ?) & _); lia].
      intros Hn. split; [done|]. by rewrite Ec2, Ec.
  - destruct (open_after Cursor.SeekToLast xpos _ it id Hg' Ht Hb Hd Hi eq_refl) as (it' & -> & _ & Ho). cbn [mbind option_bind id] in *.
    assert (pos' = finish (length index)) as -> by (cbn in Hstep; unfold finish; rewrite off_all; injection Hstep as <-; by destruct (length all_entries)).
    destruct (Nat.eqb_spec (length index) 0) as [E|E].
    + rewrite (end_move _ _ Ho). cbn [mbind option_bind]. destruct (end_skips _ Ho (fuel_ (InitDataBlock it'))) as (_ & -> & He). eexists. split; [done|].
      unfold finish. by rewrite E.
    + destruct Ho as (q & Hin & _). pose proof Hin as (_ & _ & x & Hx & _).
      destruct (move_in_block Cursor.SeekToLast _ q _ x _ Ht Hin Hx eq_refl) as (it2 & -> & Hin2 & _). cbn [mbind option_bind].
      destruct (length index) as [|m] eqn:El; [done|]. cbn [pred] in *.
      rewrite <- (last_of_block m x Hx). apply skip_backward; [done|by intros []|]. destruct Hin2 as ((_ & _ & ?) & _). lia.
  - destruct pos as [p|]; [|done]. destruct Hst as (i & n & Hin & -> & Htr). pose proof Hin as (_ & _ & x & Hx & _ & Hq).
    rewrite (it_is_valid _ _ _ Hq). destruct (move_in_block Cursor.Next i (Some n) _ x _ Ht Hin Hx eq_refl) as (it2 & Hm & Hin2 & Ec2).
    unfold move_data in Hm. rewrite (at_has_data _ _ _ Hq) in Hm. destruct (Next (data_iter_ it)) as [data|]; [|done]. injection Hm as Hm. cbn [mbind option_bind]. rewrite Hm.
    replace pos' with (forward i (if (S n <? length (D x.2))%nat then Some (S n) else None)).
    { apply skip_forward; [done| |destruct Hb as (_ & _ & ?); lia]. intros Hr. rewrite Ec2. by apply Htr. }
    cbn [Cursor.step] in Hstep. injection Hstep as <-. pose proof (off_S i x Hx). pose proof (off_le (S i)). apply it_entry in Hq. apply lookup_lt_Some in Hq.
    unfold forward, start. destruct (Nat.ltb_spec (S n) (length (D x.2))).
    + destruct (Nat.ltb_spec (S (off i + n)) (length all_entries)); [f_equal; lia|lia].
    + by replace (off (S i)) with (S (off i + n)) by lia.
  - destruct pos as [p|]; [|done]. destruct Hst as (i & n & Hin & -> & Htr). pose proof Hin as (_ & _ & x & Hx & _ & Hq).
    rewrite (it_is_valid _ _ _ Hq). destruct (move_in_block Cursor.Prev i (Some n) _ x _ Ht Hin Hx eq_refl) as (it2 & Hm & Hin2 & Ec2).
    unfold move_data in Hm. rewrite (at_has_data _ _ _ Hq) in Hm. destruct (Prev (data_iter_ it)) as [data|]; [|done]. injection Hm as Hm. cbn [mbind option_bind]. rewrite Hm.
    replace pos' with (backward i (match n with O => None | S j => Some j end)).
    { apply skip_backward; [done| |destruct Hb as (_ & _ & ?); apply lookup_lt_Some in Hx; lia]. intros Hr. rewrite Ec2. by apply Htr. }
    cbn [Cursor.step] in Hstep. injection Hstep as <-. unfold backward, finish. destruct n as [|n]; [by rewrite Nat.add_0_r|]. by rewrite Nat.add_succ_r.
Qed.

End blocks.

(** ** The two-level iterator is lawful *)

Section laws.

Context `{HX : Iterator X} `{HY : Iterator Y} (dom : bytes → Prop) (c : Comparator) {HL : ComparatorLaws dom c}.
Context (xat : list entry → X → option nat → Prop) {LX : IteratorLaws X dom c xat}.
Context (yat : list entry → Y → option nat → Prop) {LY : IteratorLaws Y dom c yat}.

(** What the parts of a two-level iterator must be: the index is separating and
    names blocks that the block function opens. *)
Record two_level_ok (index : list entry) (D : bytes → list entry) (block_function : bytes → Y) : Prop := {
  tl_open : ∀ k h, (k, h) ∈ index → yat (D h) (block_function h) None;
  tl_separated : separated c index D;
  tl_sorted : keys_sorted c (all_entries index D)
}.

Definition two_level_at (es : list entry) (it : TwoLevelIterator X Y) (pos : option nat) : Prop :=
  ∃ index D block_function, two_level_ok index D block_function ∧ es = all_entries index D ∧
    tl_state xat yat index D block_function False it pos.

#[export] Instance two_level_laws : IteratorLaws (TwoLevelIterator X Y) dom c two_level_at.
Proof.
  split.
  - intros es it pos (index & D & f & Hok & -> & _). apply Hok.
  - intros es it pos (index & D & f & Hok & -> & _). eapply all_dom, Hok. done.
  - intros es it pos (index & D & f & Hok & -> & Hst). destruct pos as [p|].
    + destruct Hst as (i & n & (_ & _ & x & _ & _ & Hq) & _). exact (it_is_valid _ _ _ Hq).
    + destruct Hst as (_ & _ & _ & Hv). exact Hv.
  - intros es it p (index & D & f & Hok & -> & i & n & (_ & _ & x & Hx & _ & Hq) & -> & _).
    apply (all_lookup index D i x n); [done|]. exact (it_entry _ _ _ Hq).
  - intros es it pos (index & D & f & Hok & -> & Hst). cbn [status_ok two_level_iterator]. unfold two_level_status.
    destruct (state_parts xat yat index D f _ _ _ Hst) as ((_ & Hs & _) & Hd & xpos & Hi). rewrite (it_status _ _ _ Hi), Hs. cbn [negb].
    destruct Hd as [Hd|[q Hq]]; [by rewrite (no_has_data it Hd)|]. by rewrite (it_status _ _ _ Hq), andb_false_r.
  - intros es it pos o pos' (index & D & f & Hok & -> & Hst) Ht Hstep.
    destruct (two_level_move_state dom c xat yat index D f (tl_open _ _ _ Hok) (tl_separated _ _ _ Hok) (tl_sorted _ _ _ Hok) False it pos o pos' Hst Ht Hstep)
      as (it' & Hm & Hst'). exists it'. split; [done|]. exists index, D, f. split; [done|]. split; [done|].
    destruct pos' as [p|]; [|done]. destruct Hst' as (i & n & Hin & Hp & _). by exists i, n.
Qed.

Lemma NewTwoLevelIterator_state index D f fuel it tr :
  two_level_ok index D f → xat index it None → (length index ≤ fuel)%nat → tl_state xat yat index D f tr (NewTwoLevelIterator fuel it f) None.
Proof. intros Hok Hi Hf. split; [done|]. split; [by apply Update_at|done]. Qed.

Lemma NewTwoLevelIterator_at index D f fuel it :
  two_level_ok index D f → xat index it None → (length index ≤ fuel)%nat → two_level_at (all_entries index D) (NewTwoLevelIterator fuel it f) None.
Proof. intros Hok Hi Hf. exists index, D, f. split; [done|]. split; [done|]. by apply NewTwoLevelIterator_state. Qed.

(** In a scan from the first entry on, the block index is that of the entry. *)
Lemma scan_tracks index D f fuel it p :
  two_level_ok index D f → xat index it None → (length index ≤ fuel)%nat → Z.of_nat (length index) < 2 ^ 32 → (p < length (all_entries index D))%nat →
  ∃ it', moves (Cursor.SeekToFirst :: replicate p Cursor.Next) (NewTwoLevelIterator fuel it f) = Some it' ∧
    tl_state xat yat index D f (Z.of_nat (length index) < 2 ^ 32) it' (Some p).
Proof.
  intros Hok Hi Hf Hn Hp. set (tr := Z.of_nat (length index) < 2 ^ 32).
  assert (∀ p it0, tl_state xat yat index D f tr it0 (Some 0%nat) → (p < length (all_entries index D))%nat →
    ∃ it', moves (replicate p Cursor.Next) it0 = Some it' ∧ tl_state xat yat index D f tr it' (Some p)) as Hmoves.
  { clear p Hp. assert (∀ p q it0, tl_state xat yat index D f tr it0 (Some q) → (q + p < length (all_entries index D))%nat →
      ∃ it', moves (replicate p Cursor.Next) it0 = Some it' ∧ tl_state xat yat index D f tr it' (Some (q + p)%nat)) as Hall; [|intros p it0; apply (Hall p 0%nat)].
    induction p as [|p IH]; intros q it0 Hst Hq; cbn [replicate moves]; [rewrite Nat.add_0_r; eauto|].
    destruct (two_level_move_state dom c xat yat index D f (tl_open _ _ _ Hok) (tl_separated _ _ _ Hok) (tl_sorted _ _ _ Hok) tr it0 (Some q) Cursor.Next (Some (S q)) Hst)
      as (it1 & Hm & Hst1); [by repeat constructor|cbn [Cursor.step]; by rewrite (proj2 (Nat.ltb_lt _ _)) by lia|].
    change (two_level_move Cursor.Next it0) with (move Cursor.Next it0) in Hm. rewrite Hm. cbn [mbind option_bind].
    destruct (IH (S q) it1 Hst1 ltac:(lia)) as (it2 & Hm2 & Hst2). exists it2. split; [done|]. by replace (q + S p)%nat with (S q + p)%nat by lia. }
  destruct (two_level_move_state dom c xat yat index D f (tl_open _ _ _ Hok) (tl_separated _ _ _ Hok) (tl_sorted _ _ _ Hok) False _ None Cursor.SeekToFirst (Some 0%nat)
    (NewTwoLevelIterator_state index D f fuel it False Hok Hi Hf)) as (it1 & Hm & Hst1); [by repeat constructor|cbn; by destruct (length (all_entries index D)); [lia|]|].
  destruct (Hmoves p it1 Hst1 Hp) as (it' & Hm' & Hst'). exists it'. split; [|done]. cbn [moves].
  change (two_level_move Cursor.SeekToFirst (NewTwoLevelIterator fuel it f)) with (move Cursor.SeekToFirst (NewTwoLevelIterator fuel it f)) in Hm. by rewrite Hm.
Qed.

End laws.
