(* ===== verification/TableIter.v ===== *)
(** * Table iterators

    table/table.cc, [NewIterator] and [NewVIterator]: two-level iterators over
    the index and the data blocks of a table. A table that was built is scanned,
    in any order of moves, as the sorted list of its entries. *)

From Stdlib Require Import Sorted.
From S2P Require Import Prelude Coding Comparator DBFormat Block Format TableBuilder Table Iterator TwoLevel.

(** ** The iterators of blocks, with the error and the empty one *)

Definition table_iter_move (o : Cursor.op) (i : Table.Iterator) : option Table.Iterator :=
  match i with
  | BlockIter it => it ← iter_step o it; Some (BlockIter it)
  | _ => match o with Cursor.Next | Cursor.Prev => None | _ => Some i end
  end.

#[export] Instance table_iterator : Iterator Table.Iterator := {|
  Valid := Table.Valid; key i := (Table.current i).1; value i := (Table.current i).2;
  status_ok i := match iter_status i with None => true | Some _ => false end; move := table_iter_move |}.

Section table_iterators.

Context `{SN : !Snappy} {C : Type} {BC : BlockCache C}.

(** The fuel for the loops over empty blocks: an entry of the index has at least
    three bytes. *)
Definition index_fuel (t : Table) : nat := length (data_ (t_index_block t)).

(** [NewIterator] of a table without a learned model, and without a block cache. *)
Definition NewIterator (t : Table) (options : ReadOptions) (cachable : bool) : TwoLevelIterator Table.Iterator Table.Iterator :=
  NewTwoLevelIterator (index_fuel t) (of_block_iterator (Block.NewIterator (comparator (t_options t)) (t_index_block t)))
    (λ handle, (BlockReader t options cachable (@None C) handle).1).

(** [cmp] is the comparator the configuration [MOD] selects. *)
Definition NewVIterator (t : Table) (cmp : Comparator) (options : ReadOptions) : TwoLevelIterator Table.Iterator Table.Iterator :=
  NewTwoLevelIterator (index_fuel t) (of_block_iterator (Block.NewIterator cmp (t_index_block t))) (VBlockReader t cmp options).

End table_iterators.

(** ** Lemmas *)

Definition table_at (dom : bytes → Prop) (c : Comparator) (es : list entry) (i : Table.Iterator) (pos : option nat) : Prop :=
  ∃ it, i = BlockIter it ∧ block_at dom c es it pos.

#[export] Instance table_iterator_laws dom c : ComparatorLaws dom c → IteratorLaws Table.Iterator dom c (table_at dom c).
Proof.
  intros HL. split.
  - intros es i pos (it & -> & Hat). exact (it_sorted _ _ _ Hat).
  - intros es i pos (it & -> & Hat). exact (it_dom _ _ _ Hat).
  - intros es i pos (it & -> & Hat). generalize (it_valid _ _ _ Hat). exact id.
  - intros es i p (it & -> & Hat). generalize (it_entry _ _ _ Hat). exact id.
  - intros es i pos (it & -> & Hat). pose proof (it_status _ _ _ Hat) as Hst. cbn in Hst |- *. by rewrite Hst.
  - intros es i pos o pos' (it & -> & Hat) Ht Hs. destruct (it_move _ _ _ _ _ Hat Ht Hs) as (it' & Hm & Hat').
    exists (BlockIter it'). cbn in Hm |- *. rewrite Hm. split; [done|]. by exists it'.
Qed.

Lemma concat_mjoin {A} (ls : list (list A)) : mjoin ls = concat ls.
Proof. induction ls as [|l ls IH]; [done|]. cbn. by rewrite <- IH. Qed.

Section scan.

Context `{SN : !Snappy} `{!SnappyLaws SN} {C : Type} {BC : BlockCache C} {BL : BlockCacheLaws C BC} (opt : Options) (cache_id : Z).
Context (dom : bytes → Prop) {HL : ComparatorLaws dom (comparator opt)}.
Context (bs : list entries) (Hne : Forall (λ b, b ≠ []) bs) (Hok : table_ok (concat bs)) (Hfit : filter_fits opt bs).
Context (Hdom : Forall (λ e, dom e.1) (concat bs)) (Hsorted : keys_sorted (comparator opt) (concat bs)).

Abbreviation c := (comparator opt).
Abbreviation index := (index_entries opt 0 bs).
Abbreviation interval := (block_restart_interval opt).
Abbreviation t := (opened opt cache_id bs).

(** The handle of block [j]. *)
Definition handle_of (j : nat) (b : entries) : bytes :=
  BlockHandle_EncodeTo [] (handle_at opt (len (file_of opt (take j bs))) (Builder.Build interval b)).

Lemma index_lookup j b : bs !! j = Some b → index !! j = Some (last_key_of b, handle_of j b).
Proof. intros Hb. destruct (read_data opt bs Hne Hok true j b Hb) as (off & Hi & -> & _). done. Qed.

Lemma index_length : length index = length bs.
Proof. generalize 0. clear. induction bs as [|b l IH]; intros off; [done|]. cbn. by rewrite IH. Qed.

Lemma index_block j x : index !! j = Some x → ∃ b, bs !! j = Some b ∧ x = (last_key_of b, handle_of j b).
Proof.
  intros Hx. destruct (lookup_lt_is_Some_2 bs j) as [b Hb]; [rewrite <- index_length; by eapply lookup_lt_Some|].
  exists b. split; [done|]. rewrite (index_lookup j b Hb) in Hx. by injection Hx.
Qed.

Lemma handle_inj i j b b' : bs !! i = Some b → bs !! j = Some b' → handle_of i b = handle_of j b' → i = j.
Proof.
  intros Hi Hj E. pose proof (block_facts opt bs Hok i b (len (file_of opt (take i bs))) Hi) as (_ & _ & Hd1).
  pose proof (block_facts opt bs Hok j b' (len (file_of opt (take j bs))) Hj) as (_ & _ & Hd2).
  unfold handle_of in E. rewrite E, Hd2 in Hd1. injection Hd1 as Ho _.
  apply (offset_inj opt bs Hne Hok); [apply Nat.lt_le_incl; by eapply lookup_lt_Some..|by symmetry].
Qed.

(** The entries of the block that a handle names. *)
Definition D (h : bytes) : list entry :=
  match list_find (λ x, x.2 = h) index with Some (j, _) => default [] (bs !! j) | None => [] end.

Lemma D_handle j b : bs !! j = Some b → D (handle_of j b) = b.
Proof.
  intros Hb. unfold D. destruct (list_find _ index) as [[i x]|] eqn:E.
  - apply list_find_Some in E as (Hx & Eh & _). destruct (index_block i x Hx) as (b' & Hb' & ->). cbn in Eh.
    rewrite (handle_inj i j b' b Hb' Hb Eh), Hb. done.
  - apply list_find_None in E. rewrite Forall_forall in E. pose proof (index_lookup j b Hb) as Hi. apply list_elem_of_lookup_2 in Hi.
    by destruct (E _ Hi).
Qed.

Lemma index_blocks : blocks index D = bs.
Proof.
  unfold blocks. apply list_eq. intros j. rewrite list_lookup_fmap. destruct (bs !! j) as [b|] eqn:Hb.
  - rewrite (index_lookup j b Hb). cbn. f_equal. by apply D_handle.
  - rewrite lookup_ge_None_2; [done|]. rewrite index_length. by apply lookup_ge_None.
Qed.

Lemma index_all : all_entries index D = concat bs.
Proof. unfold all_entries. by rewrite index_blocks, concat_mjoin. Qed.

Lemma block_part j b : bs !! j = Some b → keys_sorted c b ∧ Forall (λ e, dom e.1) b.
Proof.
  intros Hb. apply take_drop_middle in Hb. rewrite <- Hb in Hsorted, Hdom. rewrite concat_app in Hsorted, Hdom. cbn in Hsorted, Hdom.
  split; [by eapply keys_sorted_l, keys_sorted_r|]. by apply Forall_app in Hdom as [_ [? _]%Forall_app].
Qed.

Lemma index_separated : separated c index D.
Proof.
  split.
  - intros j x e Hx He. destruct (index_block j x Hx) as (b & Hb & ->). cbn [fst snd] in He |- *. rewrite (D_handle j b Hb) in He.
    destruct (block_part j b Hb) as [Hs Hd]. destruct b as [|y b _] using rev_ind; [by apply not_elem_of_nil in He|].
    unfold last_key_of. rewrite last_snoc. cbn. apply elem_of_app in He as [He|He%list_elem_of_singleton].
    + assert (Compare c e.1 y.1 < 0); [|lia]. apply (keys_sorted_app opt b [y] e y Hs He). by left.
    + subst e. assert (Compare c y.1 y.1 = 0); [|lia]. apply Forall_app in Hd as [_ [Hy _]%Forall_cons]. by apply cmp_eq.
  - intros i j x y e Hij Hx Hy He. destruct (index_block i x Hx) as (b & Hb & ->). destruct (index_block j y Hy) as (b' & Hb' & ->). cbn [fst snd] in He |- *.
    rewrite (D_handle j b' Hb') in He. pose proof (proj1 (Forall_lookup _ _) Hne i b Hb) as Hbne. destruct b as [|z b _] using rev_ind; [done|].
    unfold last_key_of. rewrite last_snoc. cbn. pose proof (take_drop_middle _ _ _ Hb) as E. rewrite <- E in Hsorted. rewrite concat_app in Hsorted. cbn in Hsorted.
    apply keys_sorted_r in Hsorted. apply (keys_sorted_app opt (b ++ [z]) (concat (drop (S i) bs)) z e); [done|apply elem_of_app; right; by left|].
    rewrite <- concat_mjoin. apply list_elem_of_join. exists b'. split; [done|]. apply (list_elem_of_lookup_2 _ (j - S i)).
    rewrite lookup_drop. by replace (S i + (j - S i))%nat with j by lia.
Qed.

Lemma built_at j b : bs !! j = Some b → table_at dom c b (of_block_iterator (Block.NewIterator c (NewBlock (Builder.Build interval b)))) None.
Proof.
  intros Hb. destruct (block_facts opt bs Hok j b 0 Hb) as (Hb1 & Hb2 & _). destruct (block_part j b Hb) as [Hs Hd].
  destruct (built_block dom c interval b HL Hb1 Hd Hs Hb2) as (it & -> & Hat). by exists it.
Qed.

Lemma table_two_level f :
  (∀ j b, bs !! j = Some b → f (handle_of j b) = of_block_iterator (Block.NewIterator c (NewBlock (Builder.Build interval b)))) →
  two_level_ok c (table_at dom c) index D f.
Proof.
  intros Hf. split; [|apply index_separated|by rewrite index_all].
  intros k h Hin. apply list_elem_of_lookup_1 in Hin as [j Hj]. destruct (index_block j _ Hj) as (b & Hb & [= -> ->]).
  rewrite (D_handle j b Hb), (Hf j b Hb). by apply (built_at j).
Qed.

Lemma index_at : table_at dom c index (of_block_iterator (Block.NewIterator c (t_index_block t))) None.
Proof.
  destruct (index_entries_ok opt 0 bs Hne Hok) as (Hi1 & _ & _). destruct (index_contents_ok opt bs Hne Hok) as (_ & Hil).
  destruct (built_block dom c 1 index HL Hi1) as (it & Ho & Hat); [by apply index_dom|by apply (index_sorted opt)|done|].
  cbn [t_index_block opened]. unfold index_contents. rewrite Ho. by exists it.
Qed.

Lemma NewBlock_data contents : data_ (NewBlock contents) = contents.
Proof. unfold NewBlock. by repeat case_match. Qed.

Lemma index_fuel_enough : (length index ≤ index_fuel t)%nat.
Proof.
  destruct (index_entries_ok opt 0 bs Hne Hok) as (Hi1 & _ & _). destruct (index_contents_ok opt bs Hne Hok) as (_ & Hil).
  destruct (Build_spec 1 index Hi1 Hil) as (R & HB & _). unfold index_fuel. cbn [t_index_block opened]. rewrite NewBlock_data. unfold index_contents.
  pose proof (offs_count index Hi1 (length index) ltac:(done)) as Hc. rewrite offs_all in Hc. rewrite HB, length_app. unfold len in Hc. lia.
Qed.

Lemma NewIterator_at options cachable : two_level_at c (table_at dom c) (table_at dom c) (concat bs) (NewIterator (C := C) t options cachable) None.
Proof.
  rewrite <- index_all. apply NewTwoLevelIterator_at; [|apply index_at|apply index_fuel_enough]. apply table_two_level. intros j b Hb.
  destruct (BlockReader_data opt cache_id bs Hne Hok options cachable None j b _ ltac:(done) Hb eq_refl) as (cache' & E & _).
  unfold handle_of. by rewrite E.
Qed.

Lemma NewVIterator_ok options : two_level_ok c (table_at dom c) index D (VBlockReader t c options).
Proof. apply table_two_level. intros j b Hb. by apply (VBlockReader_data opt cache_id bs Hne Hok c options j b). Qed.

Lemma NewVIterator_at options : two_level_at c (table_at dom c) (table_at dom c) (concat bs) (NewVIterator t c options) None.
Proof. rewrite <- index_all. apply NewTwoLevelIterator_at; [apply NewVIterator_ok|apply index_at|apply index_fuel_enough]. Qed.

End scan.

Lemma moves_snoc `{Iterator T} l o (it : T) : moves (l ++ [o]) it = it ← moves l it; move o it.
Proof. revert it. induction l as [|o' l IH]; intros it; cbn [moves app mbind option_bind]; [by destruct (move o it)|]. destruct (move o' it) as [it'|]; [|done]. apply IH. Qed.

Lemma cursor_run_nexts c (es : list entry) n p : (p + n < length es)%nat → Cursor.run c es (Some p) (replicate n Cursor.Next) = Some (Some (p + n)%nat).
Proof.
  revert p. induction n as [|n IH]; intros p Hn; cbn [replicate Cursor.run]; [by rewrite Nat.add_0_r|].
  cbn [Cursor.step]. rewrite (proj2 (Nat.ltb_lt _ _)) by lia. cbn [mbind option_bind]. rewrite IH by lia. do 2 f_equal. lia.
Qed.

Lemma run_app c (es : list entry) l1 l2 pos : Cursor.run c es pos (l1 ++ l2) = pos ← Cursor.run c es pos l1; Cursor.run c es pos l2.
Proof. revert pos. induction l1 as [|o l1 IH]; intros pos; [done|]. cbn [app Cursor.run]. destruct (Cursor.step c es pos o); [|done]. apply IH. Qed.

Lemma scan_to_end c (es : list entry) : Cursor.run c es None (Cursor.SeekToFirst :: replicate (length es) Cursor.Next) = Some None.
Proof.
  destruct es as [|e es]; [done|]. change (replicate (length (e :: es)) Cursor.Next) with (replicate (S (length es)) Cursor.Next).
  rewrite replicate_S_end. cbn [Cursor.run Cursor.step length Nat.eqb]. cbn [mbind option_bind]. rewrite run_app, cursor_run_nexts by (cbn; lia).
  cbn [mbind option_bind Cursor.run Cursor.step length]. by rewrite (proj2 (Nat.ltb_ge _ _)) by lia.
Qed.

(** A scan of a value table: every entry with the number of its block, then the
    end. *)
Lemma value_scan {SN : Snappy} {HS : SnappyLaws SN} opt cache_id dom es paranoid options :
  ComparatorLaws dom (comparator opt) → table_ok es → filters_fit SN opt es → Forall (λ e, dom e.1) es → keys_sorted (comparator opt) es →
  ∃ t, Open opt cache_id (mem_Read (file (build_table SN opt es))) paranoid (len (file (build_table SN opt es))) = Some (inr t) ∧
    (∀ l1 k v l2, es = l1 ++ (k, v) :: l2 →
      ∃ it, moves (Cursor.SeekToFirst :: replicate (length l1) Cursor.Next) (NewVIterator t (comparator opt) options) = Some it ∧
        Valid it = true ∧ key it = k ∧ value it = v ∧ CurrentBlockIndex it = BlockNumber (builder_after SN opt l1)) ∧
    ∃ it, moves (Cursor.SeekToFirst :: replicate (length es) Cursor.Next) (NewVIterator t (comparator opt) options) = Some it ∧ Valid it = false.
Proof.
  intros HL Hok Hff Hdom Hs. destruct (build_table_blocks SN opt es (to_entries _ Hok)) as (bs & Hne & Hcat & Hfits & _ & Hf & _ & Haddr). specialize (Hfits Hff). clear Hff. rewrite Hf.
  exists (opened opt cache_id bs). rewrite <- Hcat in Hok, Hdom, Hs.
  split; [apply Open_table; auto|]. split.
  2:{ destruct (it_moves _ (Cursor.SeekToFirst :: replicate (length es) Cursor.Next) _ None None
        (NewVIterator_at opt cache_id dom bs Hne Hok Hdom Hs options)) as (it & Hm & Hat).
      - apply Forall_cons. split; [done|]. by apply Forall_replicate.
      - rewrite Hcat. apply scan_to_end.
      - exists it. split; [done|]. exact (it_not_valid _ _ Hat). }
  intros l1 k v l2 Ees. destruct (Haddr l1 k v l2 Ees) as (b & j & o & Hj & Ho & -> & _).
  assert (es !! length l1 = Some (k, v)) as Hat by (rewrite Ees; by rewrite list_lookup_middle).
  assert (Z.of_nat (length bs) < 2 ^ 32) as Hbl.
  { pose proof (len_blocks bs Hne). destruct Hok as [_ _ H3]. pose proof (len_nonneg (encode_entries (concat bs))). unfold len in *. lia. }
  pose proof (index_all opt bs Hne Hok) as Hall. rewrite Hcat in Hall.
  destruct (scan_tracks dom (comparator opt) (table_at dom (comparator opt)) (table_at dom (comparator opt)) (index_entries opt 0 bs) (D opt bs)
    (VBlockReader (opened opt cache_id bs) (comparator opt) options) (index_fuel (opened opt cache_id bs)) _ (length l1)
    (NewVIterator_ok opt cache_id dom bs Hne Hok Hdom Hs options) (index_at opt cache_id dom bs Hne Hok Hdom Hs) (index_fuel_enough opt cache_id bs Hne Hok))
    as (it & Hm & Hst); [by rewrite index_length|rewrite Hall; by eapply lookup_lt_Some|].
  exists it. split; [done|].
  destruct Hst as (i & n & (_ & _ & x & Hx & _ & Hq) & Hp & Htr). pose proof (it_entry _ _ _ Hq) as He.
  pose proof (all_lookup _ _ i x n _ Hx He) as Hp'. rewrite <- Hp, Hall, Hat in Hp'. injection Hp' as Ek Ev. split; [exact (it_is_valid _ _ _ Hq)|]. split; [by rewrite Ek|]. split; [by rewrite Ev|].
  unfold CurrentBlockIndex. rewrite (proj2 (Htr ltac:(by rewrite index_length))). rewrite u32_id by (apply lookup_lt_Some in Hj; unfold u32_ok; lia). f_equal.
  (** Both block numbers are those of the same entry. *)
  pose proof (index_lookup opt bs Hne Hok j b Hj) as Hxj. rewrite <- (D_handle opt bs Hne Hok j b Hj) in Ho.
  pose proof (all_lookup _ _ j _ o _ Hxj Ho) as Hpj. rewrite Hall in Hpj. rewrite Hcat in Hs, Hdom.
  pose proof (same_key dom (comparator opt) es Hs Hdom _ _ _ _ Hat Hpj eq_refl) as E. rewrite Hp in E.
  apply lookup_lt_Some in He, Ho. cbn [snd] in Ho. pose proof (off_S _ (D opt bs) i x Hx) as O1. pose proof (off_S _ (D opt bs) j _ Hxj) as O2. cbn [snd] in O2.
  destruct (Nat.lt_trichotomy i j) as [Hlt|[|Hlt]]; [|done|]; exfalso.
  - pose proof (off_mono (index_entries opt 0 bs) (D opt bs) (S i) j ltac:(lia)). lia.
  - pose proof (off_mono (index_entries opt 0 bs) (D opt bs) (S j) i ltac:(lia)). lia.
Qed.

(** ** Properties *)

(** C18: a table is scanned as the list of its entries. Entries added in order to
    a [TableBuilder], with any filter policy whose filter block is shorter than
    4 GiB, give a file that opens, and without a block cache, after any sequence
    of moves that a cursor over the entries allows, the two-level iterators that
    [NewIterator] and [NewVIterator] return have an ok status, are valid exactly
    when the cursor is, and show the cursor's entry. *)
Theorem table_scan_correct {SN : Snappy} {HS : SnappyLaws SN} {C} {BC : BlockCache C} {BL : BlockCacheLaws C BC}
    opt cache_id dom es paranoid options cachable ops pos :
  ComparatorLaws dom (comparator opt) → table_ok es → filters_fit SN opt es → Forall (λ e, dom e.1) es → keys_sorted (comparator opt) es →
  Cursor.targets_in dom ops → Cursor.run (comparator opt) es None ops = Some pos →
  ∃ t it vit, Open opt cache_id (mem_Read (file (build_table SN opt es))) paranoid (len (file (build_table SN opt es))) = Some (inr t) ∧
    moves ops (NewIterator (C := C) t options cachable) = Some it ∧ shows es it pos ∧
    moves ops (NewVIterator t (comparator opt) options) = Some vit ∧ shows es vit pos.
Proof.
  intros HL Hok Hff Hdom Hs Ht Hrun. destruct (build_table_blocks SN opt es (to_entries _ Hok)) as (bs & Hne & Hcat & Hfits & _ & Hf & _ & _). specialize (Hfits Hff). clear Hff. subst es. rewrite Hf.
  pose proof (NewIterator_at (C := C) opt cache_id dom bs Hne Hok Hdom Hs options cachable) as Hat.
  pose proof (NewVIterator_at opt cache_id dom bs Hne Hok Hdom Hs options) as Hvat.
  destruct (it_moves _ ops _ None pos Hat Ht Hrun) as (it & Hm & Hat'). destruct (it_moves _ ops _ None pos Hvat Ht Hrun) as (vit & Hvm & Hvat').
  exists (opened opt cache_id bs), it, vit. split; [apply Open_table; auto|]. split; [done|]. split; [exact (it_shows _ _ _ Hat')|].
  split; [done|]. exact (it_shows _ _ _ Hvat').
Qed.

(** C24: the block index that a value compaction records is the block number of
    the key tables. In a scan of a value table, of any options whose filter block
    is shorter than 4 GiB, from its first entry on,
    [CurrentBlockIndex] at an entry is the number that [BlockNumber] of the
    builder gave just before the entry was added. *)
Theorem scan_block_number {SN : Snappy} {HS : SnappyLaws SN} opt cache_id dom l1 k v l2 paranoid options :
  let es := l1 ++ (k, v) :: l2 in
  ComparatorLaws dom (comparator opt) → table_ok es → filters_fit SN opt es → Forall (λ e, dom e.1) es → keys_sorted (comparator opt) es →
  ∃ t it, Open opt cache_id (mem_Read (file (build_table SN opt es))) paranoid (len (file (build_table SN opt es))) = Some (inr t) ∧
    moves (Cursor.SeekToFirst :: replicate (length l1) Cursor.Next) (NewVIterator t (comparator opt) options) = Some it ∧
    key it = k ∧ value it = v ∧ CurrentBlockIndex it = BlockNumber (builder_after SN opt l1).
Proof.
  intros es HL Hok Hff Hdom Hs. destruct (value_scan opt cache_id dom es paranoid options HL Hok Hff Hdom Hs) as (t & Ho & Hscan & _).
  destruct (Hscan l1 k v l2 eq_refl) as (it & Hm & _ & Hk & Hv & Hb). by exists t, it.
Qed.

(** ** Defects *)

Definition open_example : option Table :=
  match Open (SN := no_snappy) options_example 7 (mem_Read (file (@build_table no_snappy options_example table_example))) true
      (len (file (@build_table no_snappy options_example table_example))) with
  | Some (inr t) => Some t
  | _ => None
  end.

(** The block index is not set by a search. After [Seek] finds an entry of
    the second block, [CurrentBlockIndex] is still 0. *)
Theorem seek_keeps_block_index :
  (t ← open_example; it ← moves [Cursor.Seek [100]] (NewVIterator (SN := no_snappy) t Bytewise.comparator read_options);
   Some (key it, CurrentBlockIndex it)) = Some ([100], 0) ∧
  BlockNumber (@builder_after no_snappy options_example (take 3 table_example)) = 1.
Proof. split; vm_compute; reflexivity. Qed.

(** ** Witnesses *)

Definition scan_ops : list Cursor.op := [Cursor.Seek [99; 0]; Cursor.Prev; Cursor.Prev; Cursor.Next; Cursor.Next; Cursor.Next].

Lemma table_scan_correct_witness :
  ∃ t it vit, Open (SN := no_snappy) options_example 7 (mem_Read (file (@build_table no_snappy options_example table_example))) true
      (len (file (@build_table no_snappy options_example table_example))) = Some (inr t) ∧
    moves scan_ops (NewIterator (SN := no_snappy) (C := gmap bytes Block) t read_options true) = Some it ∧ shows table_example it (Some 4%nat) ∧
    moves scan_ops (NewVIterator (SN := no_snappy) t Bytewise.comparator read_options) = Some vit ∧ shows table_example vit (Some 4%nat).
Proof.
  apply (table_scan_correct (HS := no_snappy_laws) (BL := map_cache_laws) options_example 7 bytes_ok table_example true read_options true scan_ops (Some 4%nat)).
  - apply _.
  - apply table_example_ok.
  - apply filter_example_fits.
  - by_decide.
  - unfold table_example. sorted_keys.
  - by repeat constructor.
  - reflexivity.
Defined.

Lemma scan_block_number_witness :
  BlockNumber (@builder_after no_snappy options_example (take 3 table_example)) = 1 ∧
  ∃ t it, Open (SN := no_snappy) options_example 7 (mem_Read (file (@build_table no_snappy options_example table_example))) true
      (len (file (@build_table no_snappy options_example table_example))) = Some (inr t) ∧
    moves [Cursor.SeekToFirst; Cursor.Next; Cursor.Next; Cursor.Next] (NewVIterator (SN := no_snappy) t Bytewise.comparator read_options) = Some it ∧
    key it = [100] ∧ value it = [4] ∧ CurrentBlockIndex it = BlockNumber (@builder_after no_snappy options_example (take 3 table_example)).
Proof.
  split; [vm_compute; reflexivity|].
  apply (scan_block_number (HS := no_snappy_laws) options_example 7 bytes_ok (take 3 table_example) [100] [4] (drop 4 table_example) true read_options).
  - apply _.
  - apply table_example_ok.
  - apply filter_example_fits.
  - by_decide.
  - unfold table_example. cbn. sorted_keys.
Defined.
