(* ===== verification/DBIter.v ===== *)
(** * The database iterator

    db/db_iter.cc, [DBIter]: from the entries of all sources, in the order of
    internal keys, to the user keys and values that a snapshot sees, in both
    directions. Read sampling, and the fetching of separated values in
    [value()], are left out. *)

From Stdlib Require Import Sorted.
From S2P Require Import Prelude Coding Comparator DBFormat Block VersionEdit Version Iterator Merger.

Module DBIter.

(** [fuel_] bounds the turns of the loops; one more than the number of internal
    entries is enough. *)
Record t (T : Type) := DBIter {
  fuel_ : nat;
  user_comparator_ : Comparator;
  iter_ : T;
  sequence_ : Z;
  status_ : bool;
  saved_key_ : bytes;
  saved_value_ : bytes;
  direction_ : Direction;
  valid_ : bool
}.
#[global] Arguments DBIter {T}.
#[global] Arguments fuel_ {T}.
#[global] Arguments user_comparator_ {T}.
#[global] Arguments iter_ {T}.
#[global] Arguments sequence_ {T}.
#[global] Arguments status_ {T}.
#[global] Arguments saved_key_ {T}.
#[global] Arguments saved_value_ {T}.
#[global] Arguments direction_ {T}.
#[global] Arguments valid_ {T}.

Section db_iter.

Context `{HT : Iterator T}.

Definition NewDBIterator (fuel : nat) (user_key_comparator : Comparator) (internal_iter : T) (sequence : Z) : t T :=
  DBIter fuel user_key_comparator internal_iter sequence true [] [] kForward false.

Definition with_iter (iter : T) (it : t T) : t T :=
  DBIter (fuel_ it) (user_comparator_ it) iter (sequence_ it) (status_ it) (saved_key_ it) (saved_value_ it) (direction_ it) (valid_ it).
Definition with_status (ok : bool) (it : t T) : t T :=
  DBIter (fuel_ it) (user_comparator_ it) (iter_ it) (sequence_ it) ok (saved_key_ it) (saved_value_ it) (direction_ it) (valid_ it).
Definition with_saved_key (k : bytes) (it : t T) : t T :=
  DBIter (fuel_ it) (user_comparator_ it) (iter_ it) (sequence_ it) (status_ it) k (saved_value_ it) (direction_ it) (valid_ it).
Definition with_saved_value (v : bytes) (it : t T) : t T :=
  DBIter (fuel_ it) (user_comparator_ it) (iter_ it) (sequence_ it) (status_ it) (saved_key_ it) v (direction_ it) (valid_ it).
Definition with_direction (d : Direction) (it : t T) : t T :=
  DBIter (fuel_ it) (user_comparator_ it) (iter_ it) (sequence_ it) (status_ it) (saved_key_ it) (saved_value_ it) d (valid_ it).
Definition with_valid (b : bool) (it : t T) : t T :=
  DBIter (fuel_ it) (user_comparator_ it) (iter_ it) (sequence_ it) (status_ it) (saved_key_ it) (saved_value_ it) (direction_ it) b.

Definition ClearSavedValue (it : t T) : t T := with_saved_value [] it.

Definition db_key (it : t T) : bytes :=
  match direction_ it with kForward => ExtractUserKey (key (iter_ it)) | kReverse => saved_key_ it end.
(** The value as stored. *)
Definition db_value (it : t T) : bytes :=
  match direction_ it with kForward => value (iter_ it) | kReverse => saved_value_ it end.
Definition db_status (it : t T) : bool := if status_ it then status_ok (iter_ it) else false.

Definition ParseKey (it : t T) : option ParsedInternalKey * t T :=
  match ParseInternalKey (key (iter_ it)) with
  | None => (None, with_status false it)
  | Some ikey => (Some ikey, it)
  end.

(** [skip] points to [saved_key_] in every call. *)
Fixpoint FindNextUserEntry (fuel : nat) (skipping : bool) (it : t T) : option (t T) :=
  match fuel with
  | O => None
  | S fuel =>
      let '(ikey, it) := ParseKey it in
      let continue skipping it :=
        iter ← Next (iter_ it);
        let it := with_iter iter it in
        if Valid iter then FindNextUserEntry fuel skipping it else Some (with_valid false (with_saved_key [] it)) in
      match ikey with
      | Some ikey =>
          if sequence ikey <=? sequence_ it then
            match type ikey with
            | kTypeDeletion => continue true (with_saved_key (user_key ikey) it)
            | kTypeValue =>
                if skipping && (Compare (user_comparator_ it) (user_key ikey) (saved_key_ it) <=? 0) then continue skipping it
                else Some (with_valid true (with_saved_key [] it))
            end
          else continue skipping it
      | None => continue skipping it
      end
  end.

Definition db_Next (it : t T) : option (t T) :=
  if negb (valid_ it) then None
  else
    match direction_ it with
    | kReverse =>
        let it := with_direction kForward it in
        iter ← (if Valid (iter_ it) then Next (iter_ it) else SeekToFirst (iter_ it));
        let it := with_iter iter it in
        if negb (Valid iter) then Some (with_saved_key [] (with_valid false it))
        else
          it ← FindNextUserEntry (fuel_ it) true it;
          Some (if negb (Valid (iter_ it)) then with_valid false it else it)
    | kForward =>
        let it := with_saved_key (ExtractUserKey (key (iter_ it))) it in
        it ← FindNextUserEntry (fuel_ it) true it;
        Some (if negb (Valid (iter_ it)) then with_valid false it else it)
    end.

(** The [while (true)] of [Prev]: whether an entry with a smaller user key was
    found. *)
Fixpoint ScanBack (fuel : nat) (it : t T) : option (bool * t T) :=
  match fuel with
  | O => None
  | S fuel =>
      iter ← Prev (iter_ it);
      let it := with_iter iter it in
      if negb (Valid iter) then Some (false, ClearSavedValue (with_saved_key [] (with_valid false it)))
      else if Compare (user_comparator_ it) (ExtractUserKey (key iter)) (saved_key_ it) <? 0 then Some (true, it)
      else ScanBack fuel it
  end.

(** The [do]-[while] of [FindPrevUserEntry], with its local [value_type]. *)
Fixpoint FindPrev_loop (fuel : nat) (value_type : ValueType) (it : t T) : option (ValueType * t T) :=
  match fuel with
  | O => None
  | S fuel =>
      let '(ikey, it) := ParseKey it in
      let continue value_type it :=
        iter ← Prev (iter_ it);
        let it := with_iter iter it in
        if Valid iter then FindPrev_loop fuel value_type it else Some (value_type, it) in
      match ikey with
      | Some ikey =>
          if sequence ikey <=? sequence_ it then
            if match value_type with kTypeDeletion => false | kTypeValue => Compare (user_comparator_ it) (user_key ikey) (saved_key_ it) <? 0 end
            then Some (value_type, it)
            else
              match type ikey with
              | kTypeDeletion => continue kTypeDeletion (ClearSavedValue (with_saved_key [] it))
              | kTypeValue => continue kTypeValue (with_saved_value (value (iter_ it)) (with_saved_key (ExtractUserKey (key (iter_ it))) it))
              end
          else continue value_type it
      | None => continue value_type it
      end
  end.

Definition FindPrevUserEntry (it : t T) : option (t T) :=
  '(value_type, it) ← (if Valid (iter_ it) then FindPrev_loop (fuel_ it) kTypeDeletion it else Some (kTypeDeletion, it));
  Some (match value_type with
        | kTypeDeletion => with_direction kForward (ClearSavedValue (with_saved_key [] (with_valid false it)))
        | kTypeValue => with_valid true it
        end).

Definition db_Prev (it : t T) : option (t T) :=
  if negb (valid_ it) then None
  else
    match direction_ it with
    | kForward =>
        '(found, it) ← ScanBack (fuel_ it) (with_saved_key (ExtractUserKey (key (iter_ it))) it);
        if (found : bool) then FindPrevUserEntry (with_direction kReverse it) else Some it
    | kReverse => FindPrevUserEntry it
    end.

Definition db_Seek (target : bytes) (it : t T) : option (t T) :=
  let it := with_saved_key (InternalKey target (sequence_ it) kValueTypeForSeek) (ClearSavedValue (with_direction kForward it)) in
  iter ← Seek (saved_key_ it) (iter_ it);
  let it := with_iter iter it in
  if Valid iter then FindNextUserEntry (fuel_ it) false it else Some (with_valid false it).

Definition db_SeekToFirst (it : t T) : option (t T) :=
  let it := ClearSavedValue (with_direction kForward it) in
  iter ← SeekToFirst (iter_ it);
  let it := with_iter iter it in
  if Valid iter then FindNextUserEntry (fuel_ it) false it else Some (with_valid false it).

Definition db_SeekToLast (it : t T) : option (t T) :=
  let it := ClearSavedValue (with_direction kReverse it) in
  iter ← SeekToLast (iter_ it);
  FindPrevUserEntry (with_iter iter it).

Definition db_move (o : Cursor.op) : t T → option (t T) :=
  match o with
  | Cursor.Seek target => db_Seek target
  | Cursor.SeekToFirst => db_SeekToFirst
  | Cursor.SeekToLast => db_SeekToLast
  | Cursor.Next => db_Next
  | Cursor.Prev => db_Prev
  end.

#[export] Instance db_iterator : Iterator (t T) := {|
  Valid := valid_; key := db_key; value := db_value; status_ok := db_status; move := db_move |}.

End db_iter.

End DBIter.

Import DBIter.

(** ** What a snapshot sees *)

Abbreviation ukey e := (ExtractUserKey (fst e)).

Definition ty_of (e : entry) : ValueType := match ParseInternalKey e.1 with Some ikey => type ikey | None => kTypeDeletion end.

#[export] Instance value_type_eq_dec : EqDecision ValueType.
Proof. solve_decision. Defined.

(** The entry is a value, the snapshot [s] sees it, and no newer entry of its
    key. *)
Definition shown (s : Z) (es : list entry) (e : entry) : Prop :=
  seq_of e.1 ≤ s ∧ ty_of e = kTypeValue ∧ Forall (λ e', ukey e' = ukey e → seq_of e'.1 ≤ s → seq_of e'.1 ≤ seq_of e.1) es.

#[export] Instance shown_dec s es e : Decision (shown s es e).
Proof. unfold shown. apply _. Defined.

(** The user keys and values at a snapshot. *)
Definition view (s : Z) (es : list entry) : list entry := (λ e, (ukey e, e.2)) <$> filter (shown s es) es.

Lemma sorted_of_lookup {A} (R : A → A → Prop) (l : list A) :
  (∀ i j x y, (i < j)%nat → l !! i = Some x → l !! j = Some y → R x y) → StronglySorted R l.
Proof.
  induction l as [|x l IH]; intros H; constructor.
  - apply IH. intros i j a b Hij Ha Hb. apply (H (S i) (S j)); [lia|done..].
  - apply Forall_lookup. intros i y Hy. apply (H 0%nat (S i)); [lia|done..].
Qed.

Section view.

Context (udom : bytes → Prop) (user : Comparator) (HL : ComparatorLaws udom user).
Context (Hudom : ∀ u, udom u → bytes_ok u).
Context (es : list entry) (s : Z).

Abbreviation icmp := (InternalKeyComparator.Compare user).
Abbreviation ucmp := (Compare user).

Context (Hkeys : Forall (λ e, valid_key udom e.1) es) (Hsorted : StronglySorted (λ a b, icmp a.1 b.1 < 0) es).
Context (Hdistinct : ∀ a b, a ∈ es → b ∈ es → ukey a = ukey b → seq_of a.1 = seq_of b.1 → a = b).

Abbreviation vis e := (seq_of (fst e) ≤ s).
Abbreviation sh := (shown s es).
Abbreviation vw := (view s es).

Lemma entry_valid i e : es !! i = Some e → valid_key udom e.1.
Proof. intros He. exact (proj1 (Forall_lookup _ _) Hkeys _ _ He). Qed.

Lemma entry_udom i e : es !! i = Some e → udom (ukey e).
Proof. intros He%entry_valid%(valid_ikey udom Hudom). apply He. Qed.

Lemma entry_parse i e : es !! i = Some e →
  ParseInternalKey e.1 = Some {| user_key := ukey e; sequence := seq_of e.1; type := ty_of e; sort_key := None |}.
Proof.
  intros He. destruct (entry_valid i e He) as (u & q & t & E & Hu & Hq). unfold ty_of.
  rewrite E, ParseInternalKey_make by done. cbn [type]. rewrite (valid_seq udom Hudom u q t Hu Hq).
  by destruct (InternalKey_parts udom Hudom u q t Hu Hq) as (_ & -> & _).
Qed.

Lemma entry_order i j a b : (i < j)%nat → es !! i = Some a → es !! j = Some b →
  ucmp (ukey a) (ukey b) ≤ 0 ∧ (ukey a = ukey b → seq_of b.1 < seq_of a.1).
Proof.
  intros Hij Ha Hb. pose proof (entry_valid i a Ha) as Hva. pose proof (entry_valid j b Hb) as Hvb.
  pose proof (keys_sorted_lookup (InternalKeyComparator.comparator user) es i j a b Hsorted Hij Ha Hb) as Hlt. cbn [Compare InternalKeyComparator.comparator] in Hlt.
  pose proof (valid_ikey udom Hudom _ Hva) as Hia. pose proof (valid_ikey udom Hudom _ Hvb) as Hib.
  split; [apply (icmp_user udom user); [done..|lia]|]. intros E.
  pose proof (seq_mono udom user HL Hudom a.1 b.1 Hva Hvb E ltac:(lia)) as Hle.
  destruct (Z.eq_dec (seq_of a.1) (seq_of b.1)) as [Eq|]; [exfalso|lia].
  assert (a = b) as <- by (apply Hdistinct; [by eapply list_elem_of_lookup_2..|done|done]).
  assert (icmp a.1 a.1 = 0) by (by apply (icmp_eq udom)). lia.
Qed.

(** A shown entry is the first visible one of its key. *)
Lemma shown_first i e : es !! i = Some e →
  sh e ↔ vis e ∧ ty_of e = kTypeValue ∧ ∀ k e', (k < i)%nat → es !! k = Some e' → ukey e' = ukey e → ¬ vis e'.
Proof.
  intros He. unfold shown. rewrite Forall_forall. split; intros (Hv & Ht & Hall); (split; [done|]; split; [done|]).
  - intros k e' Hk He' E Hv'. specialize (Hall e' ltac:(by eapply list_elem_of_lookup_2) E Hv').
    pose proof (proj2 (entry_order k i e' e Hk He' He) E). lia.
  - intros e' Hin E Hv'. apply list_elem_of_lookup_1 in Hin as [k He'].
    destruct (Nat.lt_trichotomy k i) as [Hlt|[->|Hgt]].
    + by destruct (Hall k e' Hlt He' E).
    + rewrite He in He'. injection He' as <-. done.
    + pose proof (proj2 (entry_order i k e e' Hgt He He') (eq_sym E)). lia.
Qed.

(** Shown entries have different keys. *)
Lemma shown_lt i j a b : (i < j)%nat → es !! i = Some a → es !! j = Some b → sh a → sh b → ucmp (ukey a) (ukey b) < 0.
Proof.
  intros Hij Ha Hb Hsa Hsb. destruct (entry_order i j a b Hij Ha Hb) as [Hle _].
  destruct (Z.eq_dec (ucmp (ukey a) (ukey b)) 0) as [E|]; [exfalso|lia]. apply cmp_eq in E; [|by eapply entry_udom..].
  apply (shown_first j b Hb) in Hsb as (_ & _ & Hno). apply (Hno i a Hij Ha E). by apply (shown_first i a Ha) in Hsa as [? _].
Qed.

(** The number of shown entries before index [i]. *)
Definition rank (i : nat) : nat := length (filter sh (take i es)).

Lemma rank_S i e : es !! i = Some e → rank (S i) = (rank i + if decide (sh e) then 1 else 0)%nat.
Proof.
  intros He. unfold rank. rewrite (take_S_r _ _ _ He), filter_app, length_app. rewrite filter_cons, filter_nil. by destruct (decide (sh e)).
Qed.

Lemma rank_mono i j : (i ≤ j)%nat → (rank i ≤ rank j)%nat.
Proof.
  intros Hij. unfold rank. replace (take i es) with (take i (take j es)) by (rewrite take_take; f_equal; lia).
  rewrite <- (take_drop i (take j es)) at 2. rewrite filter_app, length_app. lia.
Qed.

Lemma rank_lt i j e : (i < j)%nat → es !! i = Some e → sh e → (rank i < rank j)%nat.
Proof.
  intros Hij He Hse. pose proof (rank_S i e He) as E. rewrite decide_True in E by done. pose proof (rank_mono (S i) j ltac:(lia)). lia.
Qed.

Lemma view_lookup i e : es !! i = Some e → sh e → vw !! rank i = Some (ukey e, e.2).
Proof.
  intros He Hse. unfold view. rewrite list_lookup_fmap. rewrite <- (take_drop_middle es i e He), filter_app.
  rewrite lookup_app_r; unfold rank; [|by rewrite (take_drop_middle es i e He)].
  rewrite (take_drop_middle es i e He), Nat.sub_diag, filter_cons_True by done. done.
Qed.

Lemma view_index p x : vw !! p = Some x → ∃ i e, es !! i = Some e ∧ sh e ∧ p = rank i ∧ x = (ukey e, e.2).
Proof.
  intros Hx. assert (∀ n, (n ≤ length es)%nat → (p < rank n)%nat → ∃ i e, es !! i = Some e ∧ sh e ∧ p = rank i) as Hfind.
  { induction n as [|n IH]; intros Hn Hp; [change (p < 0)%nat in Hp; lia|]. destruct (decide (p < rank n)%nat); [apply IH; lia|].
    destruct (lookup_lt_is_Some_2 es n ltac:(lia)) as [e He]. rewrite (rank_S n e He) in Hp. destruct (decide (sh e)) as [Hse|]; [|lia].
    exists n, e. split; [done|]. split; [done|lia]. }
  destruct (Hfind (length es) ltac:(done)) as (i & e & He & Hse & ->).
  { unfold rank. rewrite take_ge by done. apply lookup_lt_Some in Hx. unfold view in Hx. by rewrite length_fmap in Hx. }
  exists i, e. rewrite (view_lookup i e He Hse) in Hx. injection Hx as <-. done.
Qed.

Lemma view_sorted : keys_sorted user vw.
Proof.
  apply sorted_of_lookup. intros p q x y Hpq Hx Hy. apply view_index in Hx as (i & a & Ha & Hsa & -> & ->).
  apply view_index in Hy as (j & b & Hb & Hsb & -> & ->). cbn. apply (shown_lt i j); try done.
  destruct (decide (i < j)%nat); [done|]. pose proof (rank_mono j i ltac:(lia)). lia.
Qed.

Lemma view_dom : Forall (λ x, udom x.1) vw.
Proof. apply Forall_lookup. intros p x Hx. apply view_index in Hx as (i & e & He & _ & _ & ->). by eapply entry_udom. Qed.

(** *** Cuts of the view *)

Lemma cut_le lo a b : is_cut udom user lo → udom a → udom b → ucmp a b ≤ 0 → lo b = true → lo a = true.
Proof.
  intros Hcut Ha Hb Hle Hlo. destruct (Z.eq_dec (ucmp a b) 0) as [E|]; [apply cmp_eq in E as ->; done|]. apply (Hcut a b); done || lia.
Qed.

Lemma view_right lo r e : is_cut udom user lo → es !! r = Some e → sh e → lo (ukey e) = false →
  (∀ k e', (k < r)%nat → es !! k = Some e' → sh e' → lo (ukey e') = true) → right_of lo vw = Some (rank r).
Proof.
  intros Hcut He Hse Hlo Hbefore. pose proof (lookup_lt_Some _ _ _ (view_lookup r e He Hse)) as Hlt.
  assert (below lo vw = rank r) as Hb.
  { apply (below_unique udom user); [done|apply view_sorted|apply view_dom|lia|]. intros p x Hx. apply view_index in Hx as (i & a & Ha & Hsa & -> & ->). cbn [fst].
    destruct (decide (i < r)%nat) as [Hir|Hir]; [split; [intros _; by apply (rank_lt i r a)|intros _; by apply (Hbefore i a)]|].
    pose proof (rank_mono r i ltac:(lia)). split; [|lia]. intros Hloa. exfalso. destruct (decide (i = r)) as [->|]; [congruence|].
    rewrite (cut_le lo (ukey e) (ukey a)) in Hlo; [done|done|by eapply entry_udom..| |done]. apply (entry_order r i e a); [lia|done..]. }
  unfold right_of. rewrite Hb. by rewrite (proj2 (Nat.ltb_lt _ _)) by done.
Qed.

Lemma view_right_none lo : is_cut udom user lo → (∀ k e, es !! k = Some e → sh e → lo (ukey e) = true) → right_of lo vw = None.
Proof.
  intros Hcut Hall. unfold right_of. rewrite (below_unique udom user lo vw (length vw)); [by rewrite Nat.ltb_irrefl|done|apply view_sorted|apply view_dom|done|].
  intros p x Hx. pose proof (lookup_lt_Some _ _ _ Hx). apply view_index in Hx as (i & a & Ha & Hsa & -> & ->). split; [done|]. intros _. by apply (Hall i).
Qed.

Lemma view_left lo m e : is_cut udom user lo → es !! m = Some e → sh e → lo (ukey e) = true →
  (∀ k e', (m < k)%nat → es !! k = Some e' → sh e' → lo (ukey e') = false) → left_of lo vw = Some (rank m).
Proof.
  intros Hcut He Hse Hlo Hafter. pose proof (lookup_lt_Some _ _ _ (view_lookup m e He Hse)) as Hlt.
  unfold left_of. rewrite (below_unique udom user lo vw (S (rank m))); [done|done|apply view_sorted|apply view_dom|lia|].
  intros p x Hx. apply view_index in Hx as (i & a & Ha & Hsa & -> & ->). cbn [fst].
  destruct (Nat.lt_trichotomy i m) as [Him|[->|Him]].
  - pose proof (rank_mono i m ltac:(lia)). split; [lia|]. intros _. apply (cut_le lo _ (ukey e)); [done|by eapply entry_udom..| |done].
    by apply (entry_order i m a e).
  - rewrite He in Ha. injection Ha as <-. split; [lia|done].
  - pose proof (rank_lt m i e Him He Hse). rewrite (Hafter i a Him Ha Hsa). split; [done|lia].
Qed.

Lemma view_left_none lo : is_cut udom user lo → (∀ k e, es !! k = Some e → sh e → lo (ukey e) = false) → left_of lo vw = None.
Proof.
  intros Hcut Hall. unfold left_of. rewrite (below_unique udom user lo vw 0%nat); [done|done|apply view_sorted|apply view_dom|lia|].
  intros p x Hx. apply view_index in Hx as (i & a & Ha & Hsa & -> & ->). cbn [fst]. rewrite (Hall i a Ha Hsa). split; [done|lia].
Qed.

(** ** Lemmas: the states of the iterator *)

Context `{HT : Iterator T} (at_pos : list entry → T → option nat → Prop).
Context {LT : IteratorLaws T (ikey_ok udom) (InternalKeyComparator.comparator user) at_pos}.
Context (Hseq : 0 ≤ s ≤ kMaxSequenceNumber).

Definition base (it : t T) : Prop :=
  user_comparator_ it = user ∧ sequence_ it = s ∧ status_ it = true ∧ (length es < fuel_ it)%nat.

(** Moving backwards, the internal iterator is before the entries of the current
    key, and what it skipped is not visible. *)
Definition behind (ip : option nat) (m : nat) (e : entry) : Prop :=
  match ip with
  | None => ∀ k e', (k < m)%nat → es !! k = Some e' → ¬ vis e'
  | Some j => ∃ x, (j < m)%nat ∧ es !! j = Some x ∧ ucmp (ukey x) (ukey e) < 0 ∧ ∀ k e', (j < k < m)%nat → es !! k = Some e' → ¬ vis e'
  end.

Definition db_state (it : t T) (pos : option nat) : Prop :=
  base it ∧
  match pos with
  | None => valid_ it = false ∧ ∃ ip, at_pos es (iter_ it) ip
  | Some p => valid_ it = true ∧ ∃ r e, es !! r = Some e ∧ sh e ∧ p = rank r ∧
      match direction_ it with
      | kForward => at_pos es (iter_ it) (Some r)
      | kReverse => saved_key_ it = ukey e ∧ saved_value_ it = e.2 ∧ ∃ ip, at_pos es (iter_ it) ip ∧ behind ip r e
      end
  end.

Lemma at_key it j e : at_pos es it (Some j) → es !! j = Some e → key it = e.1 ∧ value it = e.2.
Proof. intros Hat He. pose proof (it_entry _ _ _ Hat) as E. rewrite He in E. by injection E as ->. Qed.

Lemma ParseKey_ok it j e : at_pos es (iter_ it) (Some j) → es !! j = Some e →
  ParseKey it = (Some {| user_key := ukey e; sequence := seq_of e.1; type := ty_of e; sort_key := None |}, it).
Proof. intros Hat He. unfold ParseKey. destruct (at_key _ _ _ Hat He) as [-> _]. by rewrite (entry_parse j e He). Qed.

Lemma step_next it j : at_pos es it (Some j) →
  ∃ it', Next it = Some it' ∧ at_pos es it' (if (S j <? length es)%nat then Some (S j) else None) ∧ Valid it' = (S j <? length es)%nat.
Proof.
  intros Hat. destruct (it_move _ _ _ Cursor.Next (if (S j <? length es)%nat then Some (S j) else None) Hat) as (it' & Hm & Hat'); [by repeat constructor|done|].
  exists it'. split; [done|]. split; [done|]. rewrite (it_valid _ _ _ Hat'). by destruct (S j <? length es)%nat.
Qed.

Lemma step_prev it j : at_pos es it (Some j) →
  ∃ it', Prev it = Some it' ∧ at_pos es it' (match j with O => None | S i => Some i end) ∧ Valid it' = match j with O => false | S _ => true end.
Proof.
  intros Hat. destruct (it_move _ _ _ Cursor.Prev (match j with O => None | S i => Some i end) Hat) as (it' & Hm & Hat'); [by repeat constructor|done|].
  exists it'. split; [done|]. split; [done|]. rewrite (it_valid _ _ _ Hat'). by destruct j.
Qed.

(** *** FindNextUserEntry *)

Abbreviation hidden skipping saved u := (skipping = true ∧ ucmp u saved ≤ 0).

(** What holds when the loop is at index [j]: the shown entries from [j] on that
    are past the cut are those not hidden. *)
Record searching (lo : bytes → bool) (j : nat) (skipping : bool) (saved : bytes) : Prop := {
  se_saved : skipping = true → udom saved;
  se_before : ∀ k e, (k < j)%nat → es !! k = Some e → sh e → lo (ukey e) = true;
  se_from : ∀ k e, (j ≤ k)%nat → es !! k = Some e → sh e → lo (ukey e) = false ↔ ¬ hidden skipping saved (ukey e);
  se_seen : ∀ k i e' e, (k < j ≤ i)%nat → es !! k = Some e' → es !! i = Some e → vis e' → ukey e = ukey e' → hidden skipping saved (ukey e);
  se_skip : skipping = true → ∀ k e, (j ≤ k)%nat → es !! k = Some e → vis e → ucmp saved (ukey e) ≤ 0
}.

Lemma searching_step lo j skipping saved e :
  es !! j = Some e → searching lo j skipping saved → (sh e → lo (ukey e) = true) →
  (vis e → hidden skipping saved (ukey e)) → searching lo (S j) skipping saved.
Proof.
  intros He [H1 H2 H3 H4 H5] Hsh Hhid. split; [done| | | |].
  - intros k e' Hk He' Hs'. destruct (decide (k = j)) as [->|]; [rewrite He in He'; injection He' as <-; auto|]. apply (H2 k); [lia|done..].
  - intros k e' Hk. apply H3. lia.
  - intros k i e' x Hk He' Hx Hv E. destruct (decide (k = j)) as [->|]; [|apply (H4 k i e'); [lia|done..]].
    rewrite He in He'. injection He' as <-. rewrite E. auto.
  - intros Hsk k x Hk. apply H5; [done|lia].
Qed.

Lemma searching_deletion lo j skipping saved e :
  es !! j = Some e → searching lo j skipping saved → vis e → ty_of e = kTypeDeletion → searching lo (S j) true (ukey e).
Proof.
  intros He [H1 H2 H3 H4 H5] Hv Ht. pose proof (entry_udom j e He) as Hu.
  (** A later entry has this key or a greater one. *)
  assert (∀ k x, (S j ≤ k)%nat → es !! k = Some x → ucmp (ukey e) (ukey x) ≤ 0) as Hlater by (intros k x Hk Hx; apply (entry_order j k e x); [lia|done..]).
  assert (∀ k x, (S j ≤ k)%nat → es !! k = Some x → ucmp (ukey x) (ukey e) ≤ 0 → ukey x = ukey e) as Hsame.
  { intros k x Hk Hx Hle. apply (ucmp_antisym udom user HL); [by eapply entry_udom|done|done|by eapply Hlater]. }
  assert (∀ k x, (S j ≤ k)%nat → es !! k = Some x → sh x → ukey x ≠ ukey e) as Hnot.
  { intros k x Hk Hx Hsx E. apply (shown_first k x Hx) in Hsx as (_ & _ & Hno). by apply (Hno j e ltac:(lia) He (eq_sym E)). }
  split; [done| | | |].
  - intros k e' Hk He' Hs'. destruct (decide (k = j)) as [->|]; [|apply (H2 k); [lia|done..]].
    rewrite He in He'. injection He' as <-. apply (shown_first j e He) in Hs' as (_ & E & _). congruence.
  - intros k x Hk Hx Hsx. pose proof (Hnot k x Hk Hx Hsx) as Hne. rewrite (H3 k x ltac:(lia) Hx Hsx). split; intros _ [Hsk Hle]; apply Hne; apply (Hsame k x Hk Hx); [done|].
    specialize (H1 Hsk). specialize (H5 Hsk j e ltac:(lia) He Hv). apply (ucmp_le_trans udom user HL _ saved); [by eapply entry_udom|done..].
  - intros k i e' x Hk He' Hx Hv' E. split; [done|]. destruct (decide (k = j)) as [->|].
    + rewrite He in He'. injection He' as <-. rewrite E. assert (ucmp (ukey e) (ukey e) = 0) by (by apply cmp_eq). lia.
    + rewrite E. apply (entry_order k j e' e); [lia|done..].
  - intros _ k x Hk Hx _. by apply (Hlater k).
Qed.

Lemma find_next lo : is_cut udom user lo → ∀ fuel it j skipping,
  base it → direction_ it = kForward → at_pos es (iter_ it) (Some j) → (length es - j ≤ fuel)%nat → searching lo j skipping (saved_key_ it) →
  ∃ it', FindNextUserEntry fuel skipping it = Some it' ∧ db_state it' (right_of lo vw) ∧ direction_ it' = kForward ∧
    (valid_ it' = true → Valid (iter_ it') = true).
Proof.
  intros Hcut. induction fuel as [|fuel IH]; intros it j skipping Hb Hdir Hat Hfuel Hse.
  { pose proof (it_entry _ _ _ Hat) as He. apply lookup_lt_Some in He. lia. }
  destruct (es !! j) as [e|] eqn:He; [|pose proof (it_entry _ _ _ Hat); congruence].
  cbn [FindNextUserEntry]. rewrite (ParseKey_ok it j e Hat He). cbn [user_key sequence type].
  pose proof Hb as (Hu & Hs & Hst & Hf). rewrite Hs.
  (** Going on with the next entry. *)
  assert (∀ skipping' saved, searching lo (S j) skipping' saved →
    ∃ it', (iter ← Next (iter_ (with_saved_key saved it));
      if Valid iter then FindNextUserEntry fuel skipping' (with_iter iter (with_saved_key saved it))
      else Some (with_valid false (with_saved_key [] (with_iter iter (with_saved_key saved it))))) = Some it' ∧
      db_state it' (right_of lo vw) ∧ direction_ it' = kForward ∧ (valid_ it' = true → Valid (iter_ it') = true)) as Hgo.
  { intros skipping' saved Hse'. cbn [iter_ with_saved_key]. destruct (step_next _ _ Hat) as (iter & -> & Hat' & Hv). cbn [mbind option_bind]. rewrite Hv.
    destruct (Nat.ltb_spec (S j) (length es)) as [Hlt|Hge].
    - by apply (IH _ (S j) skipping'); [..|lia|].
    - eexists. split; [done|]. split; [|done]. split; [done|]. rewrite (view_right_none lo Hcut); [by split; [|eexists]|].
      intros k x Hx Hsx. apply (se_before _ _ _ _ Hse' k); [apply lookup_lt_Some in Hx; lia|done..]. }
  pose proof (Hgo skipping (saved_key_ it)) as Hgo'. assert (with_saved_key (saved_key_ it) it = it) as Esk by (by destruct it). rewrite Esk in Hgo'.
  destruct (Z.leb_spec (seq_of e.1) s) as [Hvis|Hinv].
  - destruct (ty_of e) eqn:Ht.
    + by apply Hgo, (searching_deletion lo j skipping (saved_key_ it)).
    + rewrite Hu. destruct (skipping && (ucmp (ukey e) (saved_key_ it) <=? 0)) eqn:Eh.
      * apply andb_true_iff in Eh as [Hsk Hle%Z.leb_le]. apply Hgo', (searching_step lo j skipping (saved_key_ it) e); [done|done| |done].
        intros Hse'. apply not_false_iff_true. intros Hlo. by apply (proj1 (se_from _ _ _ _ Hse j e ltac:(lia) He Hse') Hlo).
      * assert (¬ hidden skipping (saved_key_ it) (ukey e)) as Hnh by (intros [-> Hle%Z.leb_le]; rewrite Hle in Eh; done).
        assert (sh e) as Hshow.
        { apply (shown_first j e He). split; [done|]. split; [done|]. intros k e' Hk He' E Hv'.
          apply Hnh. by apply (se_seen _ _ _ _ Hse k j e' e ltac:(lia) He' He Hv'). }
        eexists. split; [done|]. split; [|split; [done|intros _; exact (it_is_valid _ _ _ Hat)]]. split; [done|].
        rewrite (view_right lo j e Hcut He Hshow); [|by apply (se_from _ _ _ _ Hse j)|intros k e'; apply (se_before _ _ _ _ Hse)].
        split; [done|]. exists j, e. cbn [direction_ with_valid with_saved_key iter_]. rewrite Hdir. done.
  - apply Hgo', (searching_step lo j skipping (saved_key_ it) e); [done|done| |lia].
    intros Hse'. apply (shown_first j e He) in Hse' as [? _]. lia.
Qed.

(** *** FindPrevUserEntry *)

(** The saved key and value are those of entry [m]. *)
Definition saves (it : t T) (m : nat) (e : entry) : Prop :=
  es !! m = Some e ∧ vis e ∧ ty_of e = kTypeValue ∧ saved_key_ it = ukey e ∧ saved_value_ it = e.2.

Definition none_shown (lo hi : nat) : Prop := ∀ k e, (lo ≤ k ≤ hi)%nat → es !! k = Some e → ¬ sh e.
Definition none_visible (lo hi : nat) : Prop := ∀ k e, (lo ≤ k < hi)%nat → es !! k = Some e → ¬ vis e.

(** What the loop knows after the entries from [low] to [i0]. *)
Definition collected (i0 low : nat) (value_type : ValueType) (it : t T) : Prop :=
  match value_type with
  | kTypeDeletion => none_shown low i0
  | kTypeValue => ∃ m e, (low ≤ m ≤ i0)%nat ∧ saves it m e ∧ none_shown (S m) i0 ∧ none_visible low m
  end.

(** What it knows at its end. *)
Definition found (i0 : nat) (value_type : ValueType) (it : t T) : Prop :=
  base it ∧ ∃ ip, at_pos es (iter_ it) ip ∧
  match value_type with
  | kTypeDeletion => none_shown 0 i0
  | kTypeValue => ∃ m e, (m ≤ i0)%nat ∧ saves it m e ∧ sh e ∧ none_shown (S m) i0 ∧ behind ip m e
  end.

Lemma collected_skip i0 j vt it e : es !! j = Some e → ¬ vis e → collected i0 (S j) vt it → collected i0 j vt it.
Proof.
  intros He Hv. assert (¬ sh e) as Hns by (intros Hse%(shown_first j e He); tauto). destruct vt; cbn [collected].
  - intros Hn k x Hk Hx. destruct (decide (k = j)) as [->|]; [rewrite He in Hx; by injection Hx as <-|]. apply (Hn k x); [lia|done].
  - intros (m & x & Hm & Hsv & Hn & Hnv). exists m, x. split; [lia|]. split_and!; try done.
    intros k y Hk Hy. destruct (decide (k = j)) as [->|]; [rewrite He in Hy; by injection Hy as <-|]. apply (Hnv k y); [lia|done].
Qed.

(** A visible entry of the saved key, or the first visible one. *)
Lemma collected_visible i0 j vt it e :
  es !! j = Some e → vis e → collected i0 (S j) vt it → (vt = kTypeValue → 0 ≤ ucmp (ukey e) (saved_key_ it)) → none_shown (S j) i0.
Proof.
  intros He Hv Hc Hge. destruct vt; [done|]. specialize (Hge eq_refl). destruct Hc as (m & x & Hm & (Hx & Hvx & _ & Hk & _) & Hn & Hnv).
  intros k y Hky Hy Hsy. destruct (Nat.lt_trichotomy k m) as [Hlt|[->|Hgt]].
  - apply (Hnv k y); [lia|done|]. by apply (shown_first k y Hy) in Hsy as [? _].
  - rewrite Hx in Hy. injection Hy as <-. apply (shown_first m x Hx) in Hsy as (_ & _ & Hno). apply (Hno j e ltac:(lia) He); [|done].
    rewrite Hk in Hge. destruct (entry_order j m e x ltac:(lia) He Hx) as [Hle _]. apply (cmp_eq (ukey e) (ukey x)); [by eapply entry_udom..|lia].
  - by apply (Hn k y ltac:(lia) Hy).
Qed.

Lemma find_prev i0 : ∀ fuel it j vt,
  base it → at_pos es (iter_ it) (Some j) → (j < fuel)%nat → (j ≤ i0)%nat → collected i0 (S j) vt it →
  ∃ vt' it', FindPrev_loop fuel vt it = Some (vt', it') ∧ found i0 vt' it' ∧ direction_ it' = direction_ it.
Proof.
  induction fuel as [|fuel IH]; intros it j vt Hb Hat Hfuel Hji Hc; [lia|].
  destruct (es !! j) as [e|] eqn:He; [|pose proof (it_entry _ _ _ Hat); congruence].
  cbn [FindPrev_loop]. rewrite (ParseKey_ok it j e Hat He). cbn [user_key sequence type].
  pose proof Hb as (Hu & Hs & Hst & Hf). rewrite Hs.
  assert (∀ vt' it', base it' → iter_ it' = iter_ it → direction_ it' = direction_ it → collected i0 j vt' it' →
    ∃ vt2 it2, (iter ← Prev (iter_ it'); if Valid iter then FindPrev_loop fuel vt' (with_iter iter it') else Some (vt', with_iter iter it')) = Some (vt2, it2) ∧
      found i0 vt2 it2 ∧ direction_ it2 = direction_ it) as Hgo.
  { intros vt' it' Hb' Ei Ed Hc'. rewrite Ei. destruct (step_prev _ _ Hat) as (iter & -> & Hat' & Hv). cbn [mbind option_bind]. rewrite Hv. destruct j as [|j].
    - eexists vt', _. split; [done|]. split; [|done]. split; [done|]. exists None. split; [done|]. destruct vt'; [done|].
      destruct Hc' as (m & x & Hm & Hsv & Hn & Hnv). exists m, x. split; [lia|]. split; [done|].
      assert (behind None m x) as Hbe by (intros k y Hk; apply Hnv; lia). split_and!; try done.
      destruct Hsv as (Hx & Hvx & Htx & _). apply (shown_first m x Hx). split_and!; try done. intros k y Hk Hy _. by apply (Hbe k y).
    - destruct (IH (with_iter iter it') j vt') as (vt2 & it2 & ? & ? & Ed2); [done|done|lia|lia|done|]. exists vt2, it2. split_and!; try done. by rewrite Ed2. }
  destruct (Z.leb_spec (seq_of e.1) s) as [Hvis|Hinv]; [|apply Hgo; try done; by apply (collected_skip i0 j vt it e); [|lia|]].
  rewrite Hu. destruct (match vt with kTypeDeletion => false | kTypeValue => ucmp (ukey e) (saved_key_ it) <? 0 end) eqn:Ebr.
  - (** The entries of the previous keys begin. *)
    destruct vt; [done|]. apply Z.ltb_lt in Ebr. eexists _, _. split; [done|]. split; [|done]. split; [done|]. exists (Some j). split; [done|].
    destruct Hc as (m & x & Hm & Hsv & Hn & Hnv). pose proof Hsv as (Hx & Hvx & Htx & Hk & _). rewrite Hk in Ebr.
    exists m, x. split; [lia|]. split; [done|]. split_and!; try done.
    + apply (shown_first m x Hx). split_and!; try done. intros k y Hkm Hy E Hvy. destruct (decide (k ≤ j)%nat) as [Hkj|]; [|apply (Hnv k y); [lia|done..]].
      assert (ucmp (ukey y) (ukey e) ≤ 0) as Hle.
      { destruct (decide (k = j)) as [->|]; [|apply (entry_order k j y e); [lia|done..]].
        rewrite He in Hy. injection Hy as <-. assert (ucmp (ukey e) (ukey e) = 0); [|lia]. apply cmp_eq; [by eapply entry_udom..|done]. }
      rewrite E in Hle. apply (ucmp_ge udom user HL) in Hle; [lia|by eapply entry_udom..].
    + exists e. split; [lia|]. split; [done|]. split; [done|]. intros k y Hk'. apply Hnv. lia.
  - assert (none_shown (S j) i0) as Hns by (eapply (collected_visible i0 j vt it e); try done; intros ->; by apply Z.ltb_ge).
    destruct (at_key _ _ _ Hat He) as [Ek Ev]. destruct (ty_of e) eqn:Ht.
    + apply Hgo; try done. intros k x Hk Hx Hsx. destruct (decide (k = j)) as [->|]; [|by apply (Hns k x ltac:(lia) Hx)].
      rewrite He in Hx. injection Hx as <-. apply (shown_first j e He) in Hsx as (_ & E & _). congruence.
    + apply Hgo; try done. exists j, e. split; [lia|]. split; [|split; [done|intros k x Hk; lia]].
      unfold saves. cbn [with_saved_value with_saved_key saved_key_ saved_value_]. by rewrite Ek, Ev.
Qed.

(** The loop and what follows it, from entry [i0] or from nowhere. *)
Lemma FindPrevUserEntry_ok lo it ip : is_cut udom user lo → base it → direction_ it = kReverse → at_pos es (iter_ it) ip →
  (∀ k e, es !! k = Some e → sh e → lo (ukey e) = true ↔ match ip with Some i => (k ≤ i)%nat | None => False end) →
  ∃ it', FindPrevUserEntry it = Some it' ∧ db_state it' (left_of lo vw).
Proof.
  intros Hcut Hb Hdir Hat Hscope. unfold FindPrevUserEntry. destruct ip as [i|].
  - rewrite (it_is_valid _ _ _ Hat). pose proof (it_entry _ _ _ Hat) as He. apply lookup_lt_Some in He. pose proof Hb as (_ & _ & _ & Hf).
    destruct (find_prev i (fuel_ it) it i kTypeDeletion Hb Hat ltac:(lia) ltac:(done)) as (vt & it' & Hloop & (Hb' & ip & Hat' & Hfound) & Ed).
    { intros k e Hk. lia. }
    rewrite Hloop. cbn [mbind option_bind]. eexists. split; [done|]. destruct vt.
    + rewrite (view_left_none lo Hcut); [by split; [|split; [|eexists]]|].
      intros k e Hek Hse. apply not_true_iff_false. rewrite (Hscope k e Hek Hse). intros Hki. by apply (Hfound k e ltac:(lia) Hek).
    + destruct Hfound as (m & e & Hm & (Hem & Hve & Hte & Hk & Hv) & Hse & Hn & Hbe).
      rewrite (view_left lo m e Hcut Hem Hse); [|by apply (Hscope m e Hem Hse)|].
      * split; [done|]. split; [done|]. exists m, e. cbn [direction_ with_valid]. rewrite Ed, Hdir. split_and!; try done. by exists ip.
      * intros k x Hk' Hx Hsx. apply not_true_iff_false. rewrite (Hscope k x Hx Hsx). intros Hki. by apply (Hn k x ltac:(lia) Hx).
  - rewrite (it_not_valid _ _ Hat). cbn [mbind option_bind]. eexists. split; [done|].
    rewrite (view_left_none lo Hcut); [by split; [|split; [|eexists]]|]. intros k e He Hse. apply not_true_iff_false. rewrite (Hscope k e He Hse). by intros [].
Qed.

(** *** The moves *)

Lemma scan_back u : udom u → ∀ fuel it j, base it → at_pos es (iter_ it) (Some j) → (j < fuel)%nat → saved_key_ it = u →
  (∀ k e, (j ≤ k)%nat → es !! k = Some e → 0 ≤ ucmp (ukey e) u) →
  ∃ b it', ScanBack fuel it = Some (b, it') ∧ base it' ∧ direction_ it' = direction_ it ∧
    if (b : bool) then ∃ i, at_pos es (iter_ it') (Some i) ∧ ∀ k e, es !! k = Some e → ucmp (ukey e) u < 0 ↔ (k ≤ i)%nat
    else valid_ it' = false ∧ (∃ ip, at_pos es (iter_ it') ip) ∧ ∀ k e, es !! k = Some e → 0 ≤ ucmp (ukey e) u.
Proof.
  intros Hu. induction fuel as [|fuel IH]; intros it j Hb Hat Hfuel Hsk Hge; [lia|]. cbn [ScanBack].
  destruct (step_prev _ _ Hat) as (iter & -> & Hat' & Hv). cbn [mbind option_bind]. rewrite Hv. destruct j as [|j]; cbn [negb].
  - eexists false, _. split; [done|]. split; [done|]. split; [done|]. split; [done|]. split; [by eexists|]. intros k e. apply Hge. lia.
  - destruct (es !! j) as [e|] eqn:He; [|pose proof (it_entry _ _ _ Hat'); congruence].
    destruct (at_key _ _ _ Hat' He) as [Ek _]. cbn [user_comparator_ with_iter saved_key_]. rewrite (proj1 Hb), Hsk, Ek.
    destruct (Z.ltb_spec (ucmp (ukey e) u) 0) as [Hlt|Hnlt].
    + eexists true, _. split; [done|]. split; [done|]. split; [done|]. exists j. split; [done|]. intros k x Hx. split.
      * intros Hxu. destruct (decide (k ≤ j)%nat); [done|]. specialize (Hge k x ltac:(lia) Hx). lia.
      * intros Hkj. destruct (decide (k = j)) as [->|]; [rewrite He in Hx; by injection Hx as <-|].
        destruct (entry_order k j x e ltac:(lia) Hx He) as [Hle _].
        destruct (Z.eq_dec (ucmp (ukey x) (ukey e)) 0) as [E|]; [apply cmp_eq in E as ->; [done|by eapply entry_udom..]|].
        apply (cmp_trans (ukey x) (ukey e) u); [by eapply entry_udom..|done|lia|done].
    + destruct (IH (with_iter iter it) j) as (b & it' & ? & ? & ? & ?); [done|done|lia|done| |by exists b, it'].
      intros k x Hk Hx. destruct (decide (k = j)) as [->|]; [rewrite He in Hx; by injection Hx as <-|]. apply (Hge k x); [lia|done].
Qed.

Lemma fuel_bound it j : base it → at_pos es (iter_ it) (Some j) → (length es - j ≤ fuel_ it)%nat ∧ (j < fuel_ it)%nat.
Proof. intros (_ & _ & _ & Hf) Hat. pose proof (it_entry _ _ _ Hat) as He. apply lookup_lt_Some in He. lia. Qed.

Lemma move_iter o ip ip' it : Cursor.targets_in (ikey_ok udom) [o] → at_pos es it ip → Cursor.step (InternalKeyComparator.comparator user) es ip o = Some ip' →
  ∃ it', move o it = Some it' ∧ at_pos es it' ip'.
Proof. intros Ho Hat Hs. by apply (it_move _ _ _ _ _ Hat). Qed.

(** After [FindNextUserEntry], the line that [Next] has in addition changes nothing. *)
Lemma valid_kept (it' : t T) : (valid_ it' = true → Valid (iter_ it') = true) → (if negb (Valid (iter_ it')) then with_valid false it' else it') = it'.
Proof. intros H. destruct (Valid (iter_ it')); [done|]. destruct (valid_ it') eqn:Ev; [by specialize (H eq_refl)|]. destruct it'. cbn in *. by subst. Qed.

Lemma refl_le a : udom a → ucmp a a ≤ 0.
Proof. intros Ha. assert (ucmp a a = 0) by (by apply cmp_eq). lia. Qed.

(** Skipping the entries up to the key of the shown entry [r], from index [j]. *)
Lemma searching_after r e j : es !! r = Some e → sh e → (j ≤ r)%nat → none_visible j r → searching (upto user (ukey e)) j true (ukey e).
Proof.
  intros He Hse Hjr Hnv. pose proof (entry_udom r e He) as Hu. apply (shown_first r e He) in Hse as Hfirst. destruct Hfirst as (Hve & _ & Hno).
  split; [done| | | |].
  - intros k x Hk Hx Hsx. apply Z.leb_le. destruct (decide (k = r)) as [->|]; [rewrite He in Hx; injection Hx as <-; by apply refl_le|]. apply (entry_order k r x e); [lia|done..].
  - intros k x Hk Hx _. unfold upto. rewrite Z.leb_gt. split; [intros ? [_ ?]; lia|]. intros Hnot. destruct (Z.lt_ge_cases 0 (ucmp (ukey x) (ukey e))); [done|]. exfalso. by apply Hnot.
  - intros k i x y Hki Hx Hy Hvx E. split; [done|]. rewrite E. destruct (decide (k ≤ r)%nat).
    + destruct (decide (k = r)) as [->|]; [rewrite He in Hx; injection Hx as <-; by apply refl_le|]. apply (entry_order k r x e); [lia|done..].
    + lia.
  - intros _ k x Hk Hx Hvx. destruct (Nat.lt_trichotomy k r) as [Hlt|[->|Hgt]].
    + by destruct (Hnv k x ltac:(lia) Hx).
    + rewrite He in Hx. injection Hx as <-. by apply refl_le.
    + apply (entry_order r k e x); [lia|done..].
Qed.

Lemma db_Next_state it p pos' : db_state it (Some p) → Cursor.step user vw (Some p) Cursor.Next = Some pos' →
  ∃ it', db_Next it = Some it' ∧ db_state it' pos'.
Proof.
  intros (Hb & Hv & r & e & He & Hse & -> & Hdir) Hstep. pose proof (entry_udom r e He) as Hu.
  rewrite (step_Next udom user vw view_sorted view_dom _ _ (view_lookup r e He Hse)) in Hstep. injection Hstep as <-. cbn [fst].
  unfold db_Next. rewrite Hv. cbn [negb].
  assert (∀ it j, base it → direction_ it = kForward → at_pos es (iter_ it) (Some j) → saved_key_ it = ukey e → (j ≤ r)%nat → none_visible j r →
    ∃ it', (it ← FindNextUserEntry (fuel_ it) true it; Some (if negb (Valid (iter_ it)) then with_valid false it else it)) = Some it' ∧
      db_state it' (right_of (upto user (ukey e)) vw)) as Hfind.
  { intros it1 j Hb1 Hd1 Hat1 Hsk1 Hjr Hnv. destruct (find_next (upto user (ukey e)) (upto_cut udom user (ukey e) Hu) (fuel_ it1) it1 j true Hb1 Hd1 Hat1)
      as (it2 & Hf & Hst & _ & Hval); [by apply (fuel_bound it1 j)|rewrite Hsk1; by apply (searching_after r e j)|].
    rewrite Hf. cbn [mbind option_bind]. rewrite (valid_kept it2 Hval). by eexists. }
  destruct (direction_ it) eqn:Ed.
  - apply (Hfind _ r); try done; [cbn; by rewrite (proj1 (at_key _ _ _ Hdir He))|]. intros k x Hk. lia.
  - destruct Hdir as (Hk & Hval & ip & Hat & Hbe). cbn [iter_ with_direction].
    (** The entry just after those that were skipped backwards. *)
    assert (∃ iter j, (if Valid (iter_ it) then Next (iter_ it) else SeekToFirst (iter_ it)) = Some iter ∧ at_pos es iter (Some j) ∧ (j ≤ r)%nat ∧ none_visible j r)
      as (iter & j & -> & Hat' & Hjr & Hnv).
    { apply lookup_lt_Some in He as Hlt. destruct ip as [j|].
      - rewrite (it_is_valid _ _ _ Hat). destruct Hbe as (x & Hj & Hx & _ & Hnv). destruct (step_next _ _ Hat) as (iter & Hm & Hat' & _).
        rewrite (proj2 (Nat.ltb_lt _ _)) in Hat' by lia. exists iter, (S j). by split_and!.
      - rewrite (it_not_valid _ _ Hat). destruct (move_iter Cursor.SeekToFirst None (Some 0%nat) (iter_ it)) as (iter & Hm & Hat');
          [by repeat constructor|done|cbn; destruct (length es); [lia|done]|]. exists iter, 0%nat. split_and!; try done; [lia|]. intros k y Hky. apply Hbe. lia. }
    cbn [mbind option_bind]. rewrite (it_is_valid _ _ _ Hat'). cbn [negb]. by apply (Hfind _ j).
Qed.

Lemma before_scope u i : udom u → (∀ k e, es !! k = Some e → ucmp (ukey e) u < 0 ↔ (k ≤ i)%nat) →
  ∀ k e, es !! k = Some e → sh e → before user u (ukey e) = true ↔ (k ≤ i)%nat.
Proof. intros Hu H k e He _. unfold before. rewrite Z.ltb_lt. by apply H. Qed.

Lemma db_Prev_state it p pos' : db_state it (Some p) → Cursor.step user vw (Some p) Cursor.Prev = Some pos' →
  ∃ it', db_Prev it = Some it' ∧ db_state it' pos'.
Proof.
  intros (Hb & Hv & r & e & He & Hse & -> & Hdir) Hstep. pose proof (entry_udom r e He) as Hu.
  rewrite (step_Prev udom user vw view_sorted view_dom _ _ (view_lookup r e He Hse)) in Hstep. injection Hstep as <-. cbn [fst].
  unfold db_Prev. rewrite Hv. cbn [negb]. pose proof (before_cut udom user (ukey e) Hu) as Hcut.
  destruct (direction_ it) eqn:Ed.
  - destruct (fuel_bound it r Hb Hdir) as [_ Hf]. destruct (at_key _ _ _ Hdir He) as [Ek _].
    destruct (scan_back (ukey e) Hu (fuel_ it) (with_saved_key (ExtractUserKey (key (iter_ it))) it) r) as (b & it1 & Hsc & Hb1 & _ & Hres); try done.
    { cbn. by rewrite Ek. }
    { intros k x Hk Hx. destruct (decide (k = r)) as [->|].
      - rewrite He in Hx. injection Hx as <-. assert (ucmp (ukey e) (ukey e) = 0); [|lia]. by apply cmp_eq.
      - apply (ucmp_ge udom user HL); [by eapply entry_udom|done|]. apply (entry_order r k e x); [lia|done..]. }
    rewrite Hsc. cbn [mbind option_bind]. destruct b.
    + destruct Hres as (i & Hat1 & Hi). apply (FindPrevUserEntry_ok _ (with_direction kReverse it1) (Some i) Hcut); [done..|]. by apply before_scope.
    + destruct Hres as (Hv1 & [ip Hat1] & Hno). exists it1. split; [done|]. rewrite (view_left_none _ Hcut); [by split; [|split; [|eexists]]|].
      intros k x Hx _. apply Z.ltb_ge. by apply (Hno k x).
  - destruct Hdir as (Hk & Hval & ip & Hat & Hbe). apply (FindPrevUserEntry_ok _ it ip Hcut); [done..|].
    intros k x Hx Hsx. unfold before. rewrite Z.ltb_lt. apply (shown_first k x Hx) in Hsx as Hfx. destruct Hfx as (Hvx & _).
    assert (ucmp (ukey x) (ukey e) < 0 → (k < r)%nat) as Hlt.
    { intros Hxe. destruct (decide (k < r)%nat) as [|Hge]; [done|exfalso]. destruct (decide (k = r)) as [->|].
      - rewrite He in Hx. injection Hx as <-. assert (ucmp (ukey e) (ukey e) = 0) by (by apply cmp_eq). lia.
      - destruct (entry_order r k e x ltac:(lia) He Hx) as [Hle _]. apply (ucmp_ge udom user HL) in Hle; [lia|by eapply entry_udom|done]. }
    destruct ip as [j|].
    + destruct Hbe as (y & Hj & Hy & Hye & Hnv). split.
      * intros Hxe. specialize (Hlt Hxe). destruct (decide (k ≤ j)%nat); [done|]. by destruct (Hnv k x ltac:(lia) Hx).
      * intros Hkj. destruct (decide (k = j)) as [->|]; [rewrite Hy in Hx; by injection Hx as <-|].
        destruct (entry_order k j x y ltac:(lia) Hx Hy) as [Hle _].
        destruct (Z.eq_dec (ucmp (ukey x) (ukey y)) 0) as [E|]; [apply cmp_eq in E as ->; [done|by eapply entry_udom..]|].
        apply (cmp_trans (ukey x) (ukey y) (ukey e)); [by eapply entry_udom..|lia|done].
    + split; [|done]. intros Hxe. by apply (Hbe k x (Hlt Hxe) Hx).
Qed.

Lemma searching_first : searching (λ _, false) 0 false [].
Proof. split; try done; [intros; lia| |intros; lia]. intros k e _ _ _. split; [by intros _ [? _]|done]. Qed.

Lemma searching_saved lo j saved saved' : searching lo j false saved → searching lo j false saved'.
Proof. intros [_ H2 H3 H4 _]. split; try done; [|intros k i e' e Hk He' He Hv E; by destruct (H4 k i e' e Hk He' He Hv E)]. intros k e Hk He Hse. rewrite (H3 k e Hk He Hse). by split; intros _ [? _]. Qed.

(** A search for [u] at the snapshot: entries before and from the internal key. *)
Lemma target_before u k e : udom u → es !! k = Some e → icmp e.1 (InternalKey u s kValueTypeForSeek) < 0 → vis e → ucmp (ukey e) u < 0.
Proof.
  intros Hu He Hlt Hv. destruct (InternalKey_parts udom Hudom u s kValueTypeForSeek Hu Hseq) as (Hi & Eu & _).
  pose proof (entry_valid k e He) as Hve. pose proof (icmp_user udom user e.1 _ (valid_ikey udom Hudom _ Hve) Hi ltac:(lia)) as Hle. rewrite Eu in Hle.
  destruct (Z.eq_dec (ucmp (ukey e) u) 0) as [E|]; [exfalso|lia]. apply cmp_eq in E; [|by eapply entry_udom|done].
  apply (sees_ge udom user HL Hudom u s e.1 Hu Hseq Hve E) in Hv. lia.
Qed.

Lemma target_from u k e : udom u → es !! k = Some e → 0 ≤ icmp e.1 (InternalKey u s kValueTypeForSeek) → 0 ≤ ucmp (ukey e) u.
Proof.
  intros Hu He Hge. destruct (InternalKey_parts udom Hudom u s kValueTypeForSeek Hu Hseq) as (Hi & Eu & _).
  pose proof (valid_ikey udom Hudom _ (entry_valid k e He)) as Hie. apply (icmp_ge udom user HL) in Hge; [|done..].
  apply (icmp_user udom user) in Hge; [|done..]. rewrite Eu in Hge. apply (ucmp_ge udom user HL); [by eapply entry_udom|done..].
Qed.

Abbreviation icomp := (InternalKeyComparator.comparator user).

Lemma searching_target u i : udom u → ikey_ok udom (InternalKey u s kValueTypeForSeek) → Forall (λ e, ikey_ok udom e.1) es →
  right_of (before icomp (InternalKey u s kValueTypeForSeek)) es = Some i → searching (before user u) i false [].
Proof.
  intros Hu HK Hid Hri. pose proof (internal_laws udom user Hudom) as HIL.
  pose proof (before_cut (ikey_ok udom) icomp _ HK) as Hcut.
  assert (i = below (before icomp (InternalKey u s kValueTypeForSeek)) es) as Hi by (unfold right_of in Hri; by destruct (_ <? _)%nat; simplify_eq).
  assert (∀ k e, es !! k = Some e → icmp e.1 (InternalKey u s kValueTypeForSeek) < 0 ↔ (k < i)%nat) as Hspec.
  { intros k e He. rewrite Hi. rewrite <- (below_spec (ikey_ok udom) icomp _ es k e Hcut Hsorted Hid He). unfold before. by rewrite Z.ltb_lt. }
  split; try done.
  - intros k e Hk He Hse. apply Z.ltb_lt. apply (target_before u k); [done|done|by apply (Hspec k)|]. by apply (shown_first k e He) in Hse as [? _].
  - intros k e Hk He Hse. split; [by intros _ [? _]|]. intros _. apply Z.ltb_ge. apply (target_from u k); [done|done|]. pose proof (Hspec k e He). lia.
  - intros k j e' e Hk He' He Hv E. exfalso. pose proof (target_before u k e' Hu He' (proj2 (Hspec k e' He') ltac:(lia)) Hv) as H1.
    pose proof (target_from u j e Hu He ltac:(pose proof (Hspec j e He); lia)) as H2. rewrite E in H2. lia.
Qed.

Lemma db_move_state it pos o pos' : db_state it pos → Cursor.targets_in udom [o] → Cursor.step user vw pos o = Some pos' →
  ∃ it', db_move o it = Some it' ∧ db_state it' pos'.
Proof.
  intros Hst Ht Hstep. apply Forall_cons in Ht as [Ht _].
  assert (base it ∧ ∃ ip, at_pos es (iter_ it) ip) as (Hb & ip & Hat).
  { destruct Hst as [Hb Hst]. split; [done|]. destruct pos as [p|]; [|by destruct Hst]. destruct Hst as (_ & r & e & _ & _ & _ & Hd).
    destruct (direction_ it); [by eexists|]. destruct Hd as (_ & _ & ip & ? & _). by exists ip. }
  pose proof (it_sorted _ _ _ Hat) as His. pose proof (it_dom _ _ _ Hat) as Hid. pose proof (internal_laws udom user Hudom) as HIL.
  pose proof Hb as (_ & Hs & _ & _).
  destruct o as [u| | | |]; cbn [db_move].
  - rewrite (step_Seek udom user vw view_sorted view_dom u pos Ht) in Hstep. injection Hstep as <-.
    destruct (InternalKey_parts udom Hudom u s kValueTypeForSeek Ht Hseq) as (HK & _ & _). unfold db_Seek. cbn [saved_key_ with_saved_key iter_ ClearSavedValue with_saved_value with_direction]. rewrite Hs.
    destruct (move_iter (Cursor.Seek (InternalKey u s kValueTypeForSeek)) ip _ (iter_ it) ltac:(constructor; [exact HK|constructor]) Hat (step_Seek (ikey_ok udom) icomp es His Hid _ ip HK))
      as (iter & -> & Hat'). cbn [mbind option_bind]. rewrite (it_valid _ _ _ Hat').
    pose proof (before_cut udom user u Ht) as Hcut.
    destruct (right_of (before icomp (InternalKey u s kValueTypeForSeek)) es) as [i|] eqn:Hri.
    + set (it1 := with_iter iter _). destruct (find_next (before user u) Hcut (fuel_ it1) it1 i false) as (it' & Hf & Hst' & _); [done|done|done|by apply fuel_bound| |by exists it'].
      apply (searching_saved _ _ []). by apply (searching_target u i).
    + eexists. split; [done|]. split; [done|]. rewrite (view_right_none _ Hcut); [by split; [|eexists]|].
      intros k e He Hse. apply Z.ltb_lt. apply (target_before u k); [done|done| |by apply (shown_first k e He) in Hse as [? _]].
      pose proof (right_None (ikey_ok udom) icomp es His Hid _ (before_cut (ikey_ok udom) icomp _ HK) Hri k e He) as Hlt. by apply Z.ltb_lt in Hlt.
  - rewrite (step_SeekToFirst udom user vw view_sorted view_dom pos) in Hstep. injection Hstep as <-. unfold db_SeekToFirst. cbn [iter_ ClearSavedValue with_saved_value with_direction].
    destruct (move_iter Cursor.SeekToFirst ip _ (iter_ it) ltac:(by repeat constructor) Hat eq_refl) as (iter & -> & Hat'). cbn [mbind option_bind]. rewrite (it_valid _ _ _ Hat').
    pose proof (all_cut udom user false) as Hcut. destruct (length es =? 0)%nat eqn:El.
    + eexists. split; [done|]. split; [done|]. rewrite (view_right_none _ Hcut); [by split; [|eexists]|].
      intros k e He. apply lookup_lt_Some in He. apply Nat.eqb_eq in El. lia.
    + set (it1 := with_iter iter _). destruct (find_next (λ _, false) Hcut (fuel_ it1) it1 0%nat false) as (it' & Hf & Hst' & _); [done|done|done|by apply fuel_bound| |by exists it'].
      apply (searching_saved _ _ []). apply searching_first.
  - rewrite (step_SeekToLast udom user vw view_sorted view_dom pos) in Hstep. injection Hstep as <-. unfold db_SeekToLast. cbn [iter_ ClearSavedValue with_saved_value with_direction].
    destruct (move_iter Cursor.SeekToLast ip _ (iter_ it) ltac:(by repeat constructor) Hat eq_refl) as (iter & -> & Hat'). cbn [mbind option_bind].
    eapply (FindPrevUserEntry_ok _ _ (if (length es =? 0)%nat then None else Some (pred (length es))) (all_cut udom user true)); [done|done|exact Hat'|].
    intros k e He _. split; [intros _|done]. apply lookup_lt_Some in He. destruct (Nat.eqb_spec (length es) 0); [lia|]. lia.
  - destruct pos as [p|]; [|done]. by apply (db_Next_state it p).
  - destruct pos as [p|]; [|done]. by apply (db_Prev_state it p).
Qed.

End view.

(** ** The database iterator is lawful *)

(** The entries under a database iterator: valid internal keys, and at most one
    write for a key and sequence number. *)
Record internal_ok (udom : bytes → Prop) (es : list entry) : Prop := {
  io_valid : Forall (λ e, valid_key udom e.1) es;
  io_distinct : ∀ a b, a ∈ es → b ∈ es → ukey a = ukey b → seq_of a.1 = seq_of b.1 → a = b
}.

Section laws.

Context (udom : bytes → Prop) (user : Comparator) (HL : ComparatorLaws udom user) (Hudom : ∀ u, udom u → bytes_ok u).
Context `{HT : Iterator T} (at_pos : list entry → T → option nat → Prop).
Context {LT : IteratorLaws T (ikey_ok udom) (InternalKeyComparator.comparator user) at_pos}.

Definition db_at (s : Z) (xs : list entry) (it : t T) (pos : option nat) : Prop :=
  ∃ es, internal_ok udom es ∧ keys_sorted (InternalKeyComparator.comparator user) es ∧ xs = view s es ∧ db_state user es s at_pos it pos.

#[export] Instance db_laws s : 0 ≤ s ≤ kMaxSequenceNumber → IteratorLaws (t T) udom user (db_at s).
Proof.
  intros Hseq. split.
  - intros xs it pos (es & [Hv Hd] & Hs & -> & _). by apply (view_sorted udom user HL Hudom).
  - intros xs it pos (es & [Hv Hd] & Hs & -> & _). by apply (view_dom udom Hudom).
  - intros xs it pos (es & _ & _ & _ & _ & Hst). cbn [Valid db_iterator]. destruct pos as [p|]; by destruct Hst as [-> _].
  - intros xs it p (es & Hok & Hs & -> & _ & _ & r & e & He & Hse & -> & Hdir). rewrite (view_lookup es s r e He Hse). f_equal.
    cbn. unfold db_key, db_value. destruct (direction_ it).
    + pose proof (it_entry _ _ _ Hdir) as E. rewrite He in E. by injection E as ->.
    + by destruct Hdir as (-> & -> & _).
  - intros xs it pos (es & _ & _ & _ & (_ & _ & Hst & _) & Hpos). cbn. unfold db_status. rewrite Hst. destruct pos as [p|].
    + destruct Hpos as (_ & r & e & _ & _ & _ & Hdir). destruct (direction_ it); [exact (it_status _ _ _ Hdir)|].
      destruct Hdir as (_ & _ & ip & Hat & _). exact (it_status _ _ _ Hat).
    + destruct Hpos as (_ & ip & Hat). exact (it_status _ _ _ Hat).
  - intros xs it pos o pos' (es & Hok & Hs & -> & Hst) Ht Hstep.
    destruct (db_move_state udom user HL Hudom es s (io_valid _ _ Hok) Hs (io_distinct _ _ Hok) at_pos Hseq it pos o pos' Hst Ht Hstep) as (it' & Hm & Hst').
    exists it'. split; [done|]. by exists es.
Qed.

Lemma NewDBIterator_at s es fuel it :
  internal_ok udom es → keys_sorted (InternalKeyComparator.comparator user) es → (length es < fuel)%nat → at_pos es it None →
  db_at s (view s es) (NewDBIterator fuel user it s) None.
Proof. intros Hok Hs Hf Hat. exists es. split; [done|]. split; [done|]. split; [done|]. split; [done|]. split; [done|]. by exists None. Qed.

End laws.

(** The view holds, for each key, the value of the newest entry that the snapshot
    sees, unless it is a deletion. *)
Lemma view_elem s es u v : (u, v) ∈ view s es ↔ ∃ e, newest u s es e ∧ ty_of e = kTypeValue ∧ e.2 = v.
Proof.
  unfold view. rewrite list_elem_of_fmap. split.
  - intros (e & [= -> ->] & [(Hv & Ht & Hall) Hin]%list_elem_of_filter). rewrite Forall_forall in Hall. exists e. split; [|done].
    split; [done|]. split; [done|]. intros e' Hin' [E Hv']. by apply Hall.
  - intros (e & (Hin & [<- Hv] & Hmax) & Ht & <-). exists e. split; [done|]. apply list_elem_of_filter. split; [|done].
    split; [done|]. split; [done|]. apply Forall_forall. intros e' Hin' E Hv'. by apply Hmax.
Qed.

(** ** Properties *)

(** C9: the database is scanned as a map. The database iterator, over the merge
    of any lawful sources, refines a cursor over the sorted list that holds,
    for each user key, the value of the newest entry the snapshot sees, deleted
    keys left out. After any sequence of moves, with changes of direction
    anywhere, no assertion fails, the loops end, the status is ok, and the key
    and value are those of the cursor. *)
Theorem db_scan_correct `{Iterator T} udom user at_pos ls es (children : list T) s fuel ops pos :
  ComparatorLaws udom user → (∀ u, udom u → bytes_ok u) → IteratorLaws T (ikey_ok udom) (InternalKeyComparator.comparator user) at_pos →
  fresh at_pos ls children → es ≡ₚ mjoin ls → keys_sorted (InternalKeyComparator.comparator user) es → internal_ok udom es →
  0 ≤ s ≤ kMaxSequenceNumber → (length es < fuel)%nat → Cursor.targets_in udom ops → Cursor.run user (view s es) None ops = Some pos →
  keys_sorted user (view s es) ∧
  (∀ u v, (u, v) ∈ view s es ↔ ∃ e, newest u s es e ∧ ty_of e = kTypeValue ∧ e.2 = v) ∧
  ∃ it, moves ops (NewDBIterator fuel user (NewMergingIterator (InternalKeyComparator.comparator user) children) s) = Some it ∧ shows (view s es) it pos.
Proof.
  intros HL Hud HT Hf Hm Hs Hok Hseq Hfuel Ht Hrun. pose proof (internal_laws udom user Hud) as HIL.
  assert (Forall (λ e, ikey_ok udom e.1) es) as Hd by (by eapply (merged_dom (ikey_ok udom) (InternalKeyComparator.comparator user) at_pos)).
  split; [by apply (view_sorted udom user HL Hud); [apply Hok|..|apply Hok]|]. split; [intros u v; apply view_elem|].
  pose proof (NewMergingIterator_at (ikey_ok udom) (InternalKeyComparator.comparator user) at_pos ls es children Hm Hs Hd Hf) as Hat.
  pose proof (NewDBIterator_at udom user _ s es fuel _ Hok Hs Hfuel Hat) as Hdb.
  pose proof (db_laws udom user HL Hud (merged_at (ikey_ok udom) (InternalKeyComparator.comparator user) at_pos) s Hseq) as HD.
  destruct (it_moves _ ops _ None pos Hdb Ht Hrun) as (it & Hmv & Hat'). exists it. split; [done|]. exact (it_shows _ _ _ Hat').
Qed.

(** ** Witnesses *)

Definition source_new : list entry := [(InternalKey [97] 8 kTypeValue, [8]); (InternalKey [98] 4 kTypeDeletion, []); (InternalKey [100] 5 kTypeValue, [5])].
Definition source_old : list entry := [(InternalKey [97] 3 kTypeValue, [3]); (InternalKey [98] 2 kTypeValue, [2]); (InternalKey [99] 1 kTypeValue, [1])].
Definition source_all : list entry :=
  [(InternalKey [97] 8 kTypeValue, [8]); (InternalKey [97] 3 kTypeValue, [3]); (InternalKey [98] 4 kTypeDeletion, []); (InternalKey [98] 2 kTypeValue, [2]);
   (InternalKey [99] 1 kTypeValue, [1]); (InternalKey [100] 5 kTypeValue, [5])].
Definition db_ops : list Cursor.op := [Cursor.SeekToLast; Cursor.Prev; Cursor.Prev; Cursor.Next; Cursor.Next; Cursor.Prev].

Definition internal_block (es : list entry) : option Iter.t :=
  match NewIterator (InternalKeyComparator.comparator Bytewise.comparator) (NewBlock (Builder.Build 2 es)) with BlockIterator it => Some it | _ => None end.

Abbreviation bat := (block_at (ikey_ok bytes_ok) (InternalKeyComparator.comparator Bytewise.comparator)).

Lemma source_block es : Forall entry_ok es → Forall (λ e, ikey_ok bytes_ok e.1) es → keys_sorted (InternalKeyComparator.comparator Bytewise.comparator) es →
  len (Builder.Build 2 es) < 2 ^ 32 → ∃ it, internal_block es = Some it ∧ bat es it None.
Proof.
  intros Hok Hd Hs Hsz. destruct (built_block (ikey_ok bytes_ok) (InternalKeyComparator.comparator Bytewise.comparator) 2 es _ Hok Hd Hs Hsz) as (it & Hopen & Hat).
  exists it. unfold internal_block. by rewrite Hopen.
Qed.

Lemma source_blocks : ∃ a b, internal_block source_new = Some a ∧ internal_block source_old = Some b ∧ fresh bat [source_new; source_old] [a; b].
Proof.
  destruct (source_block source_new) as (a & Ha & Hata); [unfold entry_ok, u32_ok; by_decide|unfold ikey_ok; by_decide|sorted_keys|by vm_compute|].
  destruct (source_block source_old) as (b & Hb & Hatb); [unfold entry_ok, u32_ok; by_decide|unfold ikey_ok; by_decide|sorted_keys|by vm_compute|].
  exists a, b. split; [done|]. split; [done|]. by repeat constructor.
Qed.

Lemma source_ok : internal_ok bytes_ok source_all.
Proof.
  split.
  - repeat constructor; eexists _, _, _; (split; [reflexivity|]); (split; [by_decide|done]).
  - intros a b Ha Hb. unfold source_all in *.
    repeat (apply elem_of_cons in Ha as [->|Ha]; [|try (by apply not_elem_of_nil in Ha)]);
    repeat (apply elem_of_cons in Hb as [->|Hb]; [|try (by apply not_elem_of_nil in Hb)]); by vm_compute.
Qed.

Lemma db_scan_correct_witness :
  view 6 source_all = [([97], [3]); ([99], [1]); ([100], [5])] ∧
  ∃ a b it, internal_block source_new = Some a ∧ internal_block source_old = Some b ∧
    moves db_ops (NewDBIterator 10 Bytewise.comparator (NewMergingIterator (InternalKeyComparator.comparator Bytewise.comparator) [a; b]) 6) = Some it ∧
    shows (view 6 source_all) it (Some 1%nat).
Proof.
  split; [by vm_compute|]. destruct source_blocks as (a & b & Ha & Hb & Hf). exists a, b.
  destruct (db_scan_correct bytes_ok Bytewise.comparator bat [source_new; source_old] source_all [a; b] 6 10 db_ops (Some 1%nat) _ (λ u H, H) _ Hf)
    as (_ & _ & it & Hm & Hsh).
  - apply (bool_decide_unpack _). vm_compute. exact I.
  - sorted_keys.
  - apply source_ok.
  - done.
  - cbn. lia.
  - by repeat constructor.
  - by vm_compute.
  - exists it. by split_and!.
Defined.
