(* ===== verification/VCompaction.v ===== *)
(** * Compaction of value tables

    db/db_impl.cc, [DoVCompactionWork], with the parts of
    [InstallCompactionResults] and db/version_set.cc that deal with value
    tables: the input tables are scanned, the newest entry of every user key is
    kept, and what is kept is sorted into one new table. The blocks that moved
    are recorded in the dependency graph. *)

From Stdlib Require Import Sorted.
From stdpp Require Import sorting.
From S2P Require Import Prelude Coding Comparator DBFormat Block Format TableBuilder Table Dependency Containers VersionEdit Version Compaction Iterator TwoLevel TableIter.

(** ** PickVCompaction *)

Record VCompaction := { vinputs_0 : list FileMetaData; vinputs_1 : list FileMetaData }.

(** The globals of [adgMod] that the choice depends on. *)
Record VConfig := { max_merged_size : Z; small_file_allowed : Z; entry_size : Z; invalid_limit : Z }.

Definition kL0VFileCompactionTrigger : nat := 128.

(** The range of all files of level 0; the level is not empty. *)
Definition VRange (f0 : FileMetaData) (files : list FileMetaData) : bytes * bytes :=
  foldl (λ r f, (if VKey.Compare (smallest f) r.1 <? 0 then smallest f else r.1, if VKey.Compare (largest f) r.2 >? 0 then largest f else r.2))
    (smallest f0, largest f0) files.

Definition VOverlaps (range : bytes * bytes) (f : FileMetaData) : bool :=
  let start := if VKey.Compare (smallest f) range.1 >? 0 then smallest f else range.1 in
  let end_ := if VKey.Compare (largest f) range.2 <? 0 then largest f else range.2 in
  VKey.Compare start end_ <=? 0.

Definition SmallFiles (cfg : VConfig) (files : list FileMetaData) : list FileMetaData := filter (λ f, file_size f < max_merged_size cfg) files.

(** The test of the last branch; [None] is a division by zero. *)
Definition MostlyInvalid (cfg : VConfig) (f : FileMetaData) : option bool :=
  let entries := file_size f / entry_size cfg in
  if entries =? 0 then None
  else Some ((u64 (i32 (100 * invalid_count f)) / entries >? invalid_limit cfg) && (file_size f <? max_merged_size cfg)).

Fixpoint InvalidFiles (cfg : VConfig) (files : list FileMetaData) : option (list FileMetaData) :=
  match files with
  | [] => Some []
  | f :: files => b ← MostlyInvalid cfg f; fs ← InvalidFiles cfg files; Some (if (b : bool) then f :: fs else fs)
  end.

(** The inner [None]: there is nothing to compact. *)
Definition PickVCompaction (cfg : VConfig) (vfiles0 vfiles1 : list FileMetaData) : option (option VCompaction) :=
  if (kL0VFileCompactionTrigger <=? length vfiles0)%nat then
    match vfiles0 with
    | [] => None
    | f0 :: _ =>
        let range := VRange f0 vfiles0 in
        Some (Some {| vinputs_0 := SmallFiles cfg vfiles0; vinputs_1 := filter (λ f, VOverlaps range f = true) vfiles1 |})
    end
  else if small_file_allowed cfg <=? Z.of_nat (length (SmallFiles cfg vfiles0)) then
    Some (Some {| vinputs_0 := SmallFiles cfg vfiles0; vinputs_1 := [] |})
  else
    files_to_compact ← InvalidFiles cfg vfiles0;
    Some (if (1 <? length files_to_compact)%nat then Some {| vinputs_0 := files_to_compact; vinputs_1 := [] |} else None).

(** ** Scanning the inputs *)

(** What a turn of the loop over an input table sees. *)
Record Scanned := { s_vkey : bytes; s_value : bytes; s_file : Z; s_block : Z }.

Section work.

Context `{SN : !Snappy} (MOD : Z).

(** The comparator of the iterators of a value table. *)
Definition vcmp (t : Table) : Comparator := if MOD =? 10 then VKey.comparator else comparator (t_options t).

Fixpoint ScanLoop (fuel : nat) (source_file_number : Z) (it : TwoLevelIterator Table.Iterator Table.Iterator) : option (list Scanned) :=
  if negb (Valid it) then Some []
  else match fuel with
       | O => None
       | S fuel =>
           let x := {| s_vkey := key it; s_value := value it; s_file := source_file_number; s_block := CurrentBlockIndex it |} in
           it ← Next it;
           rest ← ScanLoop fuel source_file_number it;
           Some (x :: rest)
       end.

(** [fuel] bounds the number of entries. *)
Definition ScanFile (fuel : nat) (options : ReadOptions) (f : FileMetaData) (t : Table) : option (list Scanned) :=
  it ← SeekToFirst (NewVIterator t (vcmp t) options);
  ScanLoop fuel (number f) it.

(** The two loops over the inputs. [vtable] finds the open table or opens it;
    [None] is a failure to open, after which an uninitialised iterator is
    deleted. *)
Fixpoint ScanFiles (fuel : nat) (vtable : FileMetaData → option Table) (options : ReadOptions) (files : list FileMetaData) : option (list Scanned) :=
  match files with
  | [] => Some []
  | f :: files => t ← vtable f; xs ← ScanFile fuel options f t; rest ← ScanFiles fuel vtable options files; Some (xs ++ rest)
  end.

(** ** The newest entry of every key *)

(** [arena] holds the bytes that [ikey.user_key] points into. *)
Record KeySourceInfo := { ikey : ParsedInternalKey; arena : bytes; info_value : bytes; source_file : Z; source_block : Z }.

(** The body of the loop. [None]: the key does not parse, and fields of [ikey]
    are not initialised. *)
Definition GatherSource (m : gmap bytes KeySourceInfo) (x : Scanned) : option (gmap bytes KeySourceInfo) :=
  k ← ParseInternalVKey (s_vkey x);
  let info := {| ikey := k; arena := s_vkey x; info_value := s_value x; source_file := s_file x; source_block := s_block x |} in
  Some match m !! user_key k with
       | None => <[user_key k := info]> m
       | Some old => if sequence k >? sequence (ikey old) then <[user_key k := info]> m else m
       end.

(** In modes other than 10 the value of a key that is known is not replaced. *)
Definition GatherKey (m : gmap bytes (ParsedInternalKey * bytes * bytes)) (x : Scanned) : option (gmap bytes (ParsedInternalKey * bytes * bytes)) :=
  k ← ParseInternalVKey (s_vkey x);
  Some match m !! user_key k with
       | None => <[user_key k := (k, s_vkey x, s_value x)]> m
       | Some (old, _, v) => if sequence k >? sequence old then <[user_key k := (k, s_vkey x, v)]> m else m
       end.

(** [fold_option] of the loop bodies. *)
Definition GatherAll {M} (gather : M → Scanned → option M) (m : M) (xs : list Scanned) : option M :=
  foldl (λ m x, m ← m; gather m x) (Some m) xs.

(** [Slice(user_key.data(), user_key.size() + 16)]. *)
Definition vkey_of (k : ParsedInternalKey) (arena : bytes) : bytes := first (len (user_key k) + 16) arena.

Definition Live (k : ParsedInternalKey) : bool := match type k with kTypeDeletion => false | kTypeValue => true end.

(** The order in which the loops over a hash map visit it. *)
Context (visit : ∀ V, gmap bytes V → list (bytes * V)).

Definition SourceKvs (m : gmap bytes KeySourceInfo) : list (bytes * bytes) :=
  (λ p, (vkey_of (ikey p.2) (arena p.2), info_value p.2)) <$> filter (λ p, Live (ikey p.2) = true) (visit _ m).

Definition KeyKvs (m : gmap bytes (ParsedInternalKey * bytes * bytes)) : list (bytes * bytes) :=
  (λ p, (vkey_of p.2.1.1 p.2.1.2, p.2.2)) <$> filter (λ p, Live p.2.1.1 = true) (visit _ m).

Definition vkey_le (a b : bytes * bytes) : Prop := VKey.Compare a.1 b.1 ≤ 0.
#[export] Instance vkey_le_dec a b : Decision (vkey_le a b) := decide (VKey.Compare a.1 b.1 ≤ 0).

(** [std::sort]. *)
Definition SortKvs (kvs : list (bytes * bytes)) : list (bytes * bytes) :=
  if (MOD =? 10) || (MOD =? 13) then merge_sort vkey_le kvs else kvs.

(** ** Writing the output *)

Definition vkey_to_source (m : gmap bytes KeySourceInfo) : gmap bytes KeySourceInfo :=
  foldl (λ r p, <[vkey_of (ikey p.2) (arena p.2) := p.2]> r) ∅ (visit _ m).

(** Of each input block, the ordered set of the output blocks. *)
Abbreviation BlockMappings := (gmap BlockLocation (list Z)).

(** The loop over [kvs]: the block that the builder is at, then [Add], then the
    mapping. *)
Fixpoint WriteLoop (sources : gmap bytes KeySourceInfo) (kvs : list (bytes * bytes)) (r : Rep bytes) (bm : BlockMappings) : Rep bytes * BlockMappings :=
  match kvs with
  | [] => (r, bm)
  | (k, v) :: kvs =>
      let output_block := BlockNumber r in
      let r := Add mem_Append mem_Flush k v r in
      let bm := if MOD =? 10 then
                  match sources !! k with
                  | Some s => partial_alter (λ o, Some (set_insert Z.ltb output_block (default [] o))) (source_file s, source_block s) bm
                  | None => bm
                  end
                else bm in
      WriteLoop sources kvs r bm
  end.

(** One turn of the loop that records the mappings: the first and the last of
    the output blocks. *)
Definition RecordMapping (NDEBUG : bool) (output_file_number : Z) (g : Mappings) (p : BlockLocation * list Z) : option Mappings :=
  match head p.2, last p.2 with
  | Some min_output_block, Some max_output_block =>
      AddMapping NDEBUG p.1.1 {| start_block := p.1.2; end_block := p.1.2 |} output_file_number
        {| start_block := min_output_block; end_block := max_output_block |} g
  | _, _ => Some g
  end.

(** Every turn sets an entry of its own, so that the order of the map does not
    matter. *)
Definition RecordMappings (NDEBUG : bool) (output_file_number : Z) (bm : BlockMappings) (g : Mappings) : option Mappings :=
  foldl (λ g p, g ← g; RecordMapping NDEBUG output_file_number g p) (Some g) (map_to_list bm).

(** ** InstallCompactionResults *)

Definition AddVInputDeletions (level : Z) (vc : VCompaction) (edit : VersionEdit) : VersionEdit :=
  let cur_level := if MOD =? 10 then 0 else level in
  let edit := foldl (λ e f, DeleteVFile cur_level (number f) e) edit (vinputs_0 vc) in
  foldl (λ e f, DeleteVFile (cur_level + 1) (number f) e) edit (vinputs_1 vc).

(** [next_level]. *)
Definition VOutputLevel (level : Z) (vc : VCompaction) : Z :=
  if MOD =? 10 then
    if (0 <? length (vinputs_1 vc))%nat then 1
    else if (8 <=? length (vinputs_0 vc))%nat then 1
    else 0
  else if MOD =? 13 then Z.of_nat (length (vinputs_1 vc))
  else level + 1.

Definition InstallVOutputs (level : Z) (vc : VCompaction) (voutputs : list Output) (edit : VersionEdit) : VersionEdit :=
  if (MOD =? 9) || (MOD =? 10) || (MOD =? 13) then
    foldl (λ e o, if o_file_size o >? 0 then AddVFile (VOutputLevel level vc) (o_number o) (o_file_size o) (o_smallest o) (o_largest o) e else e) edit voutputs
  else edit.

(** [None]: no current output, or a cycle in the forest. *)
Definition InstallDependencies (vc : VCompaction) (voutputs : list Output) (edit : VersionEdit) : option VersionEdit :=
  if (MOD =? 10) && (length (vinputs_1 vc) =? 0)%nat then
    foldl (λ e f, e ← e; out ← last voutputs; AddDependency (o_number out) (number f) e) (Some edit) (vinputs_0 vc)
  else Some edit.

(** The edit that is applied. *)
Definition InstallCompactionResults (c : Compaction) (outputs : list Output) (vc : VCompaction) (voutputs : list Output) (edit : VersionEdit)
    : option VersionEdit :=
  let edit := AddInputDeletions c edit in
  let edit := if (MOD =? 10) || (MOD =? 13) then AddVInputDeletions (level_ c) vc edit else edit in
  let edit := foldl (λ e o, AddFile (level_ c + 1) (o_number o) (o_file_size o) (o_smallest o) (o_largest o) e) edit outputs in
  InstallDependencies vc voutputs (InstallVOutputs (level_ c) vc voutputs edit).

(** ** DoVCompactionWork *)

(** Without the compactions of the key tables that mode 10 may start at the end. *)

Inductive VCompactionError := VOpenFailed | VFinishFailed | ApplyFailed.
#[export] Instance VCompactionError_eq_dec : EqDecision VCompactionError.
Proof. solve_decision. Defined.

Record VWork := {
  w_edit : VersionEdit;
  w_applied : bool;                     (** [LogAndApply] was called *)
  w_graph : Mappings;
  w_voutputs : list Output;
  w_vfile : option bytes;               (** the contents of the new file *)
  w_mutex_held : bool;                  (** on return *)
  w_status : option VCompactionError
}.

(** The options of the output table. *)
Definition vopts (options : Options) : Options := {|
  comparator := if (MOD =? 10) || (MOD =? 13) then VKey.comparator else comparator options; block_size := block_size options;
  block_restart_interval := block_restart_interval options; compression := compression options; filter_policy := filter_policy options |}.

(** The environment: the open tables, the number of the new file; whether it is
    created; whether [Finish], and whether [Sync] and [Close] succeed; the
    status of [LogAndApply]. [NDEBUG]: whether assertions are left out. *)
Context (NDEBUG : bool) (options : Options) (vtable : FileMetaData → option Table) (file_number : Z) (open_ok finish_ok sync_ok apply_ok : bool).

Definition Kvs (xs : list Scanned) : option (gmap bytes KeySourceInfo * list (bytes * bytes)) :=
  if MOD =? 10 then m ← GatherAll GatherSource ∅ xs; Some (m, SourceKvs m)
  else m ← GatherAll GatherKey ∅ xs; Some (∅, KeyKvs m).

Definition apply_status : option VCompactionError := if apply_ok then None else Some ApplyFailed.

Definition DoVCompactionWork (fuel : nat) (read_options : ReadOptions) (c : Compaction) (vc : VCompaction) (edit : VersionEdit) (g : Mappings) : option VWork :=
  xs ← ScanFiles fuel vtable read_options (vinputs_0 vc ++ vinputs_1 vc);
  '(m, kvs) ← Kvs xs;
  match kvs with
  | [] =>
      Some {| w_edit := AddVInputDeletions (level_ c) vc edit; w_applied := true; w_graph := g; w_voutputs := []; w_vfile := None;
              w_mutex_held := true; w_status := apply_status |}
  | _ =>
      if negb open_ok then
        Some {| w_edit := edit; w_applied := false; w_graph := g;
                w_voutputs := [{| o_number := file_number; o_file_size := 0; o_smallest := []; o_largest := []; o_entries := [] |}];
                w_vfile := None; w_mutex_held := false; w_status := Some VOpenFailed |}
      else
        let kvs := SortKvs kvs in
        let '(r, bm) := WriteLoop (vkey_to_source m) kvs (NewTableBuilder (vopts options) []) ∅ in
        let r := Finish mem_Append mem_Flush r in
        let out := {| o_number := file_number; o_file_size := if finish_ok then FileSize r else 0;
                      o_smallest := default [] (fst <$> head kvs); o_largest := default [] (fst <$> last kvs); o_entries := kvs |} in
        if negb (finish_ok && sync_ok) then
          Some {| w_edit := edit; w_applied := false; w_graph := g; w_voutputs := [out]; w_vfile := Some (file r);
                  w_mutex_held := true; w_status := Some VFinishFailed |}
        else
          g ← (if MOD =? 10 then RecordMappings NDEBUG file_number bm g else Some g);
          edit ← InstallCompactionResults c [] vc [out] edit;
          Some {| w_edit := edit; w_applied := true; w_graph := g; w_voutputs := [out]; w_vfile := Some (file r);
                  w_mutex_held := true; w_status := apply_status |}
  end.

End work.

(** ** Lemmas: the scan of the inputs *)

Abbreviation ParsedKey x := (ParseInternalVKey (s_vkey x)).

(** The entries of a value table with their block numbers. *)
Definition scanned_of `{SN : !Snappy} (opt : Options) (n : Z) (es : entries) : list Scanned :=
  imap (λ i e, {| s_vkey := e.1; s_value := e.2; s_file := n; s_block := BlockNumber (builder_after SN opt (take i es)) |}) es.

(** Only the comparator of the iterators matters to a scan. *)
Lemma Open_NewVIterator `{SN : !Snappy} opt opt' cache_id Read paranoid size t c options :
  filter_policy opt = filter_policy opt' → Open opt cache_id Read paranoid size = Some (inr t) →
  ∃ t', Open opt' cache_id Read paranoid size = Some (inr t') ∧ t_options t' = opt' ∧ NewVIterator t' c options = NewVIterator t c options.
Proof.
  intros Hp. assert (∀ R p f, ReadMeta opt' R p f = ReadMeta opt R p f) as Hm by (intros; unfold ReadMeta; by rewrite Hp).
  unfold Open. destruct (size <? kEncodedLength); [done|]. destruct (Read _ _); [|done]. destruct (Footer_DecodeFrom _) as [|[footer rest]]; [done|].
  destruct (ReadBlock _ _ _) as [|contents]; [done|]. rewrite Hm. destruct (ReadMeta opt Read paranoid footer) as [filter|]; [|done]. cbn [mbind option_bind].
  intros [= <-]. eexists. by split_and!.
Qed.

Section scans.

Context `{SN : !Snappy} `{!SnappyLaws SN} (opt : Options) (Hcmp : comparator opt = VKey.comparator).

(** The loop, from an iterator that has made some moves. *)
Lemma ScanLoop_from it0 n es fuel :
  (∀ l1 k v l2, es = l1 ++ (k, v) :: l2 →
    ∃ it, moves (Cursor.SeekToFirst :: replicate (length l1) Cursor.Next) it0 = Some it ∧
      Valid it = true ∧ key it = k ∧ value it = v ∧ CurrentBlockIndex it = BlockNumber (builder_after SN opt l1)) →
  (∃ it, moves (Cursor.SeekToFirst :: replicate (length es) Cursor.Next) it0 = Some it ∧ Valid it = false) →
  ∀ l2 l1, es = l1 ++ l2 → (length l2 ≤ fuel)%nat →
  ∃ it, moves (Cursor.SeekToFirst :: replicate (length l1) Cursor.Next) it0 = Some it ∧ ScanLoop fuel n it = Some (drop (length l1) (scanned_of opt n es)).
Proof.
  intros Hat Hend. revert fuel.
  assert (∀ (l1 : entries) it, moves (Cursor.SeekToFirst :: replicate (length l1) Cursor.Next) it0 = Some it → moves (Cursor.SeekToFirst :: replicate (S (length l1)) Cursor.Next) it0 = Next it) as Hnext.
  { intros l1 it Hm. rewrite replicate_S_end, app_comm_cons, moves_snoc, Hm. done. }
  induction fuel as [|fuel IH]; intros l2 l1 Ees Hf; (destruct l2 as [|[k v] l2]; [rewrite app_nil_r in Ees; subst l1|]).
  - destruct Hend as (it & Hm & Hv). exists it. split; [done|]. cbn [ScanLoop]. rewrite Hv. rewrite drop_ge; [done|]. unfold scanned_of. by rewrite length_imap.
  - cbn in Hf. lia.
  - destruct Hend as (it & Hm & Hv). exists it. split; [done|]. cbn [ScanLoop]. rewrite Hv. rewrite drop_ge; [done|]. unfold scanned_of. by rewrite length_imap.
  - destruct (Hat l1 k v l2 Ees) as (it & Hm & Hv & Hk & Hvv & Hb). exists it. split; [done|]. cbn [ScanLoop]. rewrite Hv. cbn [negb].
    destruct (IH l2 (l1 ++ [(k, v)])) as (it' & Hm' & Hs); [by rewrite <- app_assoc|cbn in Hf; lia|].
    rewrite length_app, Nat.add_1_r in Hm', Hs. rewrite (Hnext l1 it Hm) in Hm'. rewrite Hm'. cbn [mbind option_bind]. rewrite Hs. cbn [mbind option_bind]. f_equal.
    rewrite Hk, Hvv, Hb. symmetry. apply drop_S. unfold scanned_of. rewrite list_lookup_imap, Ees, list_lookup_middle by done. cbn. by rewrite take_app_length.
Qed.

(** The scan of a value table gives its entries with their blocks. *)
Lemma ScanFile_built MOD opt' cache_id es paranoid options fuel f t :
  MOD = 10 → table_ok es → filters_fit SN opt es → Forall (λ e, vkey_ok e.1) es → keys_sorted VKey.comparator es →
  filter_policy opt' = filter_policy opt →
  Open opt' cache_id (mem_Read (file (build_table SN opt es))) paranoid (len (file (build_table SN opt es))) = Some (inr t) →
  (length es ≤ fuel)%nat → ScanFile MOD fuel options f t = Some (scanned_of opt (number f) es).
Proof.
  intros -> Hok Hff Hdom Hs Hp Ho Hf. rewrite <- Hcmp in Hs. pose proof vkey_laws as HL. rewrite <- Hcmp in HL.
  destruct (value_scan opt cache_id vkey_ok es paranoid options HL Hok Hff Hdom Hs) as (t0 & Ho0 & Hat & Hend).
  destruct (Open_NewVIterator opt opt' _ _ _ _ t0 VKey.comparator options (eq_sym Hp) Ho0) as (t' & Ho' & _ & E). rewrite Ho in Ho'. injection Ho' as <-.
  rewrite Hcmp, <- E in Hat, Hend. unfold ScanFile, vcmp. cbn [Z.eqb].
  destruct (ScanLoop_from _ (number f) es fuel Hat Hend es [] eq_refl Hf) as (it & Hm & Hl). cbn [length replicate moves] in Hm. change (10 =? 10) with true. cbn iota.
  destruct (SeekToFirst _) as [it'|]; [|done]. cbn [mbind option_bind] in *. injection Hm as ->. by rewrite Hl.
Qed.

End scans.

(** ** Lemmas: the newest entry of every key *)

Definition ukey_of (x : Scanned) : bytes := default [] (user_key <$> ParsedKey x).
Definition vseq_of (x : Scanned) : Z := default 0 (sequence <$> ParsedKey x).
Definition live (x : Scanned) : bool := match ParsedKey x with Some k => Live k | None => false end.

Definition scanned_ok (x : Scanned) : Prop := vkey_ok (s_vkey x) ∧ is_Some (ParsedKey x).

(** The first of the entries of [u] with the greatest sequence number. *)
Definition pick_newest (u : bytes) (o : option Scanned) (x : Scanned) : option Scanned :=
  if decide (ukey_of x = u) then match o with None => Some x | Some y => if vseq_of x >? vseq_of y then Some x else o end else o.
Definition newest_of (u : bytes) (xs : list Scanned) : option Scanned := foldl (pick_newest u) None xs.

Definition info_of (x : Scanned) (k : ParsedInternalKey) : KeySourceInfo :=
  {| ikey := k; arena := s_vkey x; info_value := s_value x; source_file := s_file x; source_block := s_block x |}.

Definition infos (o : option Scanned) : option KeySourceInfo := x ← o; k ← ParsedKey x; Some (info_of x k).

Lemma newest_of_snoc u xs x : newest_of u (xs ++ [x]) = pick_newest u (newest_of u xs) x.
Proof. unfold newest_of. by rewrite foldl_app. Qed.

Lemma newest_of_None u xs : newest_of u xs = None → ∀ y, y ∈ xs → ukey_of y ≠ u.
Proof.
  induction xs as [|z xs IH] using rev_ind; intros E y; [by intros ?%not_elem_of_nil|]. rewrite newest_of_snoc in E. unfold pick_newest in E.
  destruct (decide (ukey_of z = u)) as [Hz|Hz]; [destruct (newest_of u xs); repeat case_match; done|].
  intros [Hy|Hy%list_elem_of_singleton]%elem_of_app; [by apply IH|by subst].
Qed.

Lemma newest_of_spec u xs x :
  newest_of u xs = Some x → x ∈ xs ∧ ukey_of x = u ∧ ∀ y, y ∈ xs → ukey_of y = u → vseq_of y ≤ vseq_of x.
Proof.
  revert x. induction xs as [|z xs IH] using rev_ind; intros x; [done|]. rewrite newest_of_snoc. unfold pick_newest.
  destruct (decide (ukey_of z = u)) as [Hz|Hz]; [destruct (newest_of u xs) as [y|] eqn:E; [destruct (Z.gtb_spec (vseq_of z) (vseq_of y))|]|];
    [intros [= <-]|intros [= <-]|intros [= <-]|intros Hn].
  - destruct (IH y eq_refl) as (_ & _ & Hm). split_and!; [apply elem_of_app; right; by left|done|].
    intros w [Hw|Hw%list_elem_of_singleton]%elem_of_app Hu; [specialize (Hm w Hw Hu); lia|by subst].
  - destruct (IH y eq_refl) as (Hin & Hu & Hm). split_and!; [apply elem_of_app; by left|done|].
    intros w [Hw|Hw%list_elem_of_singleton]%elem_of_app Hw'; [by apply Hm|by subst; lia].
  - split_and!; [apply elem_of_app; right; by left|done|]. intros w [Hw|Hw%list_elem_of_singleton]%elem_of_app Hw'; [|by subst].
    exfalso. by apply (newest_of_None u xs E w).
  - destruct (IH x Hn) as (Hin & Hu & Hm). split_and!; [apply elem_of_app; by left|done|].
    intros w [Hw|Hw%list_elem_of_singleton]%elem_of_app Hw'; [by apply Hm|by subst].
Qed.

Lemma newest_of_newest u xs x :
  (∀ y, y ∈ xs → ukey_of y = u → vseq_of y = vseq_of x → y = x) →
  x ∈ xs → ukey_of x = u → (∀ y, y ∈ xs → ukey_of y = u → vseq_of y ≤ vseq_of x) → newest_of u xs = Some x.
Proof.
  intros Huniq Hin Hu Hmax. destruct (newest_of u xs) as [y|] eqn:E.
  - apply newest_of_spec in E as (Hy & Hyu & Hym). f_equal. apply Huniq; [done..|]. specialize (Hym x Hin Hu). specialize (Hmax y Hy Hyu). lia.
  - by destruct (newest_of_None u xs E x Hin).
Qed.

Lemma infos_lookup u xs info :
  infos (newest_of u xs) = Some info → ∃ x k, newest_of u xs = Some x ∧ ParsedKey x = Some k ∧ info = info_of x k.
Proof.
  unfold infos. destruct (newest_of u xs) as [x|]; [|done]. cbn. destruct (ParsedKey x) as [k|] eqn:E; [|done]. intros [= <-]. eauto.
Qed.

(** The map of the newest entries. *)
Lemma Gather_newest xs : Forall scanned_ok xs → ∃ m, GatherAll GatherSource ∅ xs = Some m ∧ ∀ u, m !! u = infos (newest_of u xs).
Proof.
  induction xs as [|x xs IH] using rev_ind; intros Hok; [exists ∅; split; [done|]; intros u; apply lookup_empty|].
  apply Forall_app in Hok as [Hxs [Hx _]%Forall_cons]. destruct (IH Hxs) as (m & Hm & Hl). destruct Hx as [_ [k Hk]].
  unfold GatherAll in *. rewrite foldl_app, Hm. cbn [foldl mbind option_bind]. unfold GatherSource. rewrite Hk. cbn [mbind option_bind]. eexists. split; [done|].
  intros u. rewrite newest_of_snoc. unfold pick_newest. assert (ukey_of x = user_key k) as -> by (unfold ukey_of; by rewrite Hk).
  fold (info_of x k). assert (infos (Some x) = Some (info_of x k)) as Hinfo by (unfold infos; cbn [mbind option_bind]; by rewrite Hk).
  rewrite (Hl (user_key k)). destruct (decide (user_key k = u)) as [<-|Hne].
  - destruct (newest_of (user_key k) xs) as [y|] eqn:E; [|change (infos None) with (@None KeySourceInfo); cbn iota; rewrite lookup_insert_eq; by rewrite <- Hinfo].
    pose proof (newest_of_spec _ _ _ E) as (Hin & _). rewrite Forall_forall in Hxs. destruct (Hxs y Hin) as [_ [k' Hk']].
    assert (infos (Some y) = Some (info_of y k')) as Hinfo' by (unfold infos; cbn [mbind option_bind]; by rewrite Hk').
    rewrite Hinfo'. assert (vseq_of x = sequence k) as -> by (unfold vseq_of; by rewrite Hk). assert (vseq_of y = sequence k') as -> by (unfold vseq_of; by rewrite Hk'). cbn [ikey info_of].
    destruct (sequence k >? sequence k'); [rewrite lookup_insert_eq; by rewrite <- Hinfo|]. by rewrite Hl, E.
  - repeat case_match; rewrite ?lookup_insert_ne by done; apply Hl.
Qed.

(** The bytes behind a parsed key are the key that was scanned. *)
Lemma vkey_of_parsed x k : ParsedKey x = Some k → vkey_of k (s_vkey x) = s_vkey x.
Proof.
  unfold ParseInternalVKey. destruct (Z.ltb_spec (len (s_vkey x)) 16); [done|]. destruct (ValueType_of _); [|done]. intros [= <-]. unfold vkey_of. cbn [user_key].
  rewrite len_first by lia. apply first_all. lia.
Qed.

Lemma vkey_user x y : scanned_ok x → scanned_ok y → s_vkey x = s_vkey y → ukey_of x = ukey_of y.
Proof. intros _ _ E. unfold ukey_of. by rewrite E. Qed.

Section kvs.

Context (visit : ∀ V, gmap bytes V → list (bytes * V)) (Hvisit : ∀ V (m : gmap bytes V), visit V m ≡ₚ map_to_list m).
Context (xs : list Scanned) (Hxs : Forall scanned_ok xs) (m : gmap bytes KeySourceInfo) (Hm : ∀ u, m !! u = infos (newest_of u xs)).

(** The entries that are kept. *)
Definition survives (x : Scanned) : Prop := newest_of (ukey_of x) xs = Some x ∧ live x = true.

Lemma visited u info : (u, info) ∈ visit _ m ↔ ∃ x k, newest_of u xs = Some x ∧ ukey_of x = u ∧ ParsedKey x = Some k ∧ info = info_of x k.
Proof.
  rewrite Hvisit, elem_of_map_to_list, Hm. split.
  - intros (x & k & E & Hk & ->)%infos_lookup. exists x, k. split_and!; try done. by apply newest_of_spec in E as (_ & ? & _).
  - intros (x & k & E & Hu & Hk & ->). unfold infos. rewrite E. cbn. by rewrite Hk.
Qed.

Lemma SourceKvs_elem k v : (k, v) ∈ SourceKvs visit m ↔ ∃ x, survives x ∧ s_vkey x = k ∧ s_value x = v.
Proof.
  unfold SourceKvs. rewrite list_elem_of_fmap. split.
  - intros ([u info] & [= -> ->] & [Hl (x & k' & E & Hu & Hk & ->)%visited]%list_elem_of_filter). exists x. cbn. unfold survives, live. rewrite Hu, Hk.
    by rewrite (vkey_of_parsed x k' Hk).
  - intros (x & [E Hl] & <- & <-). unfold live in Hl. destruct (ParsedKey x) as [k'|] eqn:Hk; [|done].
    exists (ukey_of x, info_of x k'). cbn. rewrite (vkey_of_parsed x k' Hk). split; [done|]. apply list_elem_of_filter. split; [done|].
    apply visited. by exists x, k'.
Qed.

Lemma survives_ok x : survives x → x ∈ xs ∧ scanned_ok x.
Proof. intros [(Hin & _)%newest_of_spec _]. split; [done|]. rewrite Forall_forall in Hxs. by apply Hxs. Qed.

(** Different entries that are kept have different keys. *)
Lemma survives_inj x y : survives x → survives y → s_vkey x = s_vkey y → x = y.
Proof.
  intros Hx Hy E. destruct (survives_ok x Hx) as [_ Hox]. destruct (survives_ok y Hy) as [_ Hoy].
  destruct Hx as [Hx _], Hy as [Hy _]. rewrite (vkey_user x y Hox Hoy E), Hy in Hx. by injection Hx.
Qed.

Lemma SourceKvs_NoDup : NoDup (SourceKvs visit m).*1.
Proof.
  unfold SourceKvs. rewrite <- list_fmap_compose. apply NoDup_fmap_2_strong.
  - intros [u1 i1] [u2 i2] [_ (x & k & E & Hu & Hk & ->)%visited]%list_elem_of_filter [_ (y & k' & E' & Hu' & Hk' & ->)%visited]%list_elem_of_filter.
    cbn. rewrite (vkey_of_parsed x k Hk), (vkey_of_parsed y k' Hk'). intros Ev.
    assert (u1 = u2) as -> by (subst; unfold ukey_of; by rewrite Ev). rewrite E in E'. injection E' as <-. congruence.
  - apply NoDup_filter. rewrite Hvisit. apply NoDup_map_to_list.
Qed.

(** The table of sources has the source of every key that is written. *)
Lemma vkey_to_source_lookup x k : newest_of (ukey_of x) xs = Some x → ParsedKey x = Some k → vkey_to_source visit m !! s_vkey x = Some (info_of x k).
Proof.
  intros Hx Hk. unfold vkey_to_source.
  assert (∀ l (r : gmap bytes KeySourceInfo), (∀ p, p ∈ l → p ∈ visit _ m) → (ukey_of x, info_of x k) ∈ l ∨ r !! s_vkey x = Some (info_of x k) →
    foldl (λ r p, <[vkey_of (ikey p.2) (arena p.2) := p.2]> r) r l !! s_vkey x = Some (info_of x k)) as H.
  2:{ apply H; [done|]. left. apply visited. by exists x, k. }
  induction l as [|p l IH]; intros r Hl Hr; cbn [foldl]; [destruct Hr as [?%not_elem_of_nil|]; done|]. apply IH; [intros q Hq; apply Hl; by right|].
  destruct Hr as [[<-|Hr]%elem_of_cons|Hr]; [|by left|].
  - right. cbn [snd ikey arena info_of]. rewrite (vkey_of_parsed x k Hk). by rewrite lookup_insert_eq.
  - right. destruct p as [u info]. assert ((u, info) ∈ visit _ m) as (y & k' & E & Hu & Hk' & ->)%visited by (apply Hl; by left).
    cbn [snd ikey arena info_of]. rewrite (vkey_of_parsed y k' Hk'). destruct (decide (s_vkey y = s_vkey x)) as [Ev|?]; [|by rewrite lookup_insert_ne].
    assert (u = ukey_of x) as Eu by (subst; unfold ukey_of; by rewrite Ev). rewrite Eu, Hx in E. injection E as <-. rewrite Hk in Hk'. injection Hk' as <-.
    by rewrite lookup_insert_eq.
Qed.

End kvs.

(** ** Lemmas: sorting *)

#[local] Instance vkey_le_total : Total vkey_le.
Proof.
  intros [a va] [b vb]. unfold vkey_le. cbn. rewrite !VKey_Compare_unfold. rewrite (lex_opp (first _ a)). three_way; lia.
Qed.

(** How three comparisons of a transitive order depend on each other. *)
Definition transits (x y z : Z) : Prop := x ≤ 0 → y ≤ 0 → z ≤ 0 ∧ (z = 0 → x = 0 ∧ y = 0).

Lemma transits_zcmp a b d : transits (zcmp a b) (zcmp b d) (zcmp a d).
Proof. unfold transits. three_way; lia. Qed.

Lemma transits_andThen x y z x' y' z' : transits x y z → transits x' y' z' → transits (andThen x x') (andThen y y') (andThen z z').
Proof. unfold transits. three_way; lia. Qed.

#[local] Instance vkey_le_trans : Transitive vkey_le.
Proof.
  intros [a va] [b vb] [d vd]. unfold vkey_le. cbn. rewrite !VKey_Compare_unfold. intros H1 H2.
  refine (proj1 (transits_andThen _ _ _ _ _ _ _ _ H1 H2)); [apply transits_zcmp|].
  apply transits_andThen; [|apply transits_zcmp]. unfold transits. apply lex_trans.
Qed.

Lemma strictly_sorted (kvs : list (bytes * bytes)) :
  Forall (λ e, vkey_ok e.1) kvs → NoDup kvs.*1 → StronglySorted vkey_le kvs → keys_sorted VKey.comparator kvs.
Proof.
  intros Hok Hnd Hs. induction Hs as [|e l Hs IH Hle]; [constructor|]. apply Forall_cons in Hok as [He Hok]. cbn in Hnd. apply NoDup_cons in Hnd as [Hne Hnd].
  constructor; [by apply IH|]. rewrite Forall_forall in Hle, Hok |- *. intros y Hy. specialize (Hle y Hy). unfold vkey_le in Hle. cbn.
  destruct (decide (VKey.Compare e.1 y.1 = 0)) as [E|]; [|lia]. apply (cmp_eq (c := VKey.comparator)) in E; [|done|by apply Hok].
  destruct Hne. rewrite E. by apply list_elem_of_fmap_2.
Qed.

Lemma SortKvs_sorted kvs : Forall (λ e, vkey_ok e.1) kvs → NoDup kvs.*1 → keys_sorted VKey.comparator (SortKvs 10 kvs) ∧ SortKvs 10 kvs ≡ₚ kvs.
Proof.
  intros Hok Hnd. change (SortKvs 10 kvs) with (merge_sort vkey_le kvs). assert (merge_sort vkey_le kvs ≡ₚ kvs) as Hp by apply merge_sort_Permutation.
  split; [|done]. apply strictly_sorted; [by rewrite Hp|by rewrite (fmap_Permutation fst _ _ Hp)|apply StronglySorted_merge_sort; apply _].
Qed.

(** ** Lemmas: the choice of the inputs *)

Definition vfile_ok (f : FileMetaData) : Prop := vkey_ok (smallest f) ∧ vkey_ok (largest f) ∧ VKey.Compare (smallest f) (largest f) ≤ 0.

Definition voverlap (f h : FileMetaData) : Prop := VKey.Compare (smallest f) (largest h) ≤ 0 ∧ VKey.Compare (smallest h) (largest f) ≤ 0.

Lemma vkey_le_lt a b : vkey_ok a → vkey_ok b → VKey.Compare a b > 0 → VKey.Compare b a ≤ 0.
Proof. intros Ha Hb. pose proof (cmp_anti (c := VKey.comparator) b a Hb Ha). cbn in *. lia. Qed.

Lemma vkey_trans a b d : VKey.Compare a b ≤ 0 → VKey.Compare b d ≤ 0 → VKey.Compare a d ≤ 0.
Proof. apply (vkey_le_trans (a, []) (b, []) (d, [])). Qed.

Lemma vkey_refl a : VKey.Compare a a ≤ 0.
Proof. destruct (vkey_le_total (a, []) (a, [])); done. Qed.

(** The range takes in every file. *)
Lemma VRange_bounds f0 files :
  Forall vfile_ok (f0 :: files) →
  let r := VRange f0 files in vkey_ok r.1 ∧ vkey_ok r.2 ∧
  ∀ f, f ∈ f0 :: files → VKey.Compare r.1 (smallest f) ≤ 0 ∧ VKey.Compare (largest f) r.2 ≤ 0.
Proof.
  unfold VRange. induction files as [|h files IH] using rev_ind; intros Hok.
  { apply Forall_cons in Hok as [(H1 & H2 & _) _]. cbn. split_and!; [done..|]. intros f ->%list_elem_of_singleton. split; apply vkey_refl. }
  apply Forall_cons in Hok as [H0 [Hfs [Hh _]%Forall_cons]%Forall_app]. destruct IH as (Hr1 & Hr2 & Hr); [by constructor|]. rewrite foldl_app. cbn [foldl].
  set (r := foldl _ _ files) in *. destruct Hh as (Hs & Hl & Hsl). cbn [fst snd].
  assert (∀ a b, vkey_ok a → vkey_ok b → let m := if VKey.Compare a b <? 0 then a else b in VKey.Compare m a ≤ 0 ∧ VKey.Compare m b ≤ 0 ∧ vkey_ok m) as Hmin.
  { intros a b Ha Hb. destruct (Z.ltb_spec (VKey.Compare a b) 0); split_and!; try done; try apply vkey_refl; try lia.
    destruct (decide (VKey.Compare a b = 0)) as [E|]; [|apply vkey_le_lt; auto; lia]. apply (proj1 (cmp_eq (c := VKey.comparator) a b Ha Hb)) in E as ->. apply vkey_refl. }
  assert (∀ a b, vkey_ok a → vkey_ok b → let m := if VKey.Compare a b >? 0 then a else b in VKey.Compare a m ≤ 0 ∧ VKey.Compare b m ≤ 0 ∧ vkey_ok m) as Hmax.
  { intros a b Ha Hb. rewrite Z.gtb_ltb. destruct (Z.ltb_spec 0 (VKey.Compare a b)); split_and!; try done; try apply vkey_refl; try lia.
    apply vkey_le_lt; auto; lia. }
  destruct (Hmin (smallest h) r.1 Hs Hr1) as (A1 & A2 & A3), (Hmax (largest h) r.2 Hl Hr2) as (B1 & B2 & B3). split_and!; [done..|].
  intros f Hf. rewrite app_comm_cons in Hf. apply elem_of_app in Hf as [Hf| ->%list_elem_of_singleton]; [|done].
  destruct (Hr f Hf) as [C1 C2]. split; [exact (vkey_trans _ _ _ A2 C1)|exact (vkey_trans _ _ _ C2 B2)].
Qed.

Lemma VOverlaps_complete r f h :
  vkey_ok r.1 → vkey_ok r.2 → vfile_ok f → vfile_ok h → VKey.Compare r.1 (smallest f) ≤ 0 → VKey.Compare (largest f) r.2 ≤ 0 → voverlap f h → VOverlaps r h = true.
Proof.
  intros Hr1 Hr2 (Hf1 & Hf2 & Hf) (Hh1 & Hh2 & Hh) H1 H2 [H3 H4]. unfold VOverlaps. apply Z.leb_le.
  pose proof (vkey_trans _ _ _ (vkey_trans _ _ _ H1 Hf) H2). pose proof (vkey_trans _ _ _ H4 H2). pose proof (vkey_trans _ _ _ H1 H3).
  by repeat case_match.
Qed.

(** ** Lemmas: the mappings of the blocks *)

#[local] Instance ltb_strict : StrictWeak Z.ltb (λ _, True).
Proof. split; intros *; rewrite ?Z.ltb_lt, ?Z.ltb_ge; lia. Qed.

Lemma ltb_insert x s y : y ∈ set_insert Z.ltb x s ↔ y = x ∨ y ∈ s.
Proof.
  apply (set_insert_iff Z.ltb (λ _, True)); [|done|by apply Forall_true]. intros a b _ _. rewrite !Z.ltb_ge. lia.
Qed.

Lemma ltb_ordered x s : ordered Z.ltb s → ordered Z.ltb (set_insert Z.ltb x s).
Proof. intros Ho. apply (set_insert_ordered Z.ltb (λ _, True)); [done|by apply Forall_true|done]. Qed.

Definition location (s : KeySourceInfo) : BlockLocation := (source_file s, source_block s).

Section mappings.

Context `{SN : !Snappy} (opt : Options) (sources : gmap bytes KeySourceInfo).

(** The blocks to which entries of the block [loc] go when [kvs] is written. *)
Definition goes_to (l0 kvs : entries) (loc : BlockLocation) (o : Z) : Prop :=
  ∃ l1 k v l2 s, kvs = l1 ++ (k, v) :: l2 ∧ sources !! k = Some s ∧ location s = loc ∧ o = BlockNumber (builder_after SN opt (l0 ++ l1)).

Definition blocks_ok (bm : gmap BlockLocation (list Z)) : Prop := map_Forall (λ _ os, ordered Z.ltb os ∧ os ≠ []) bm.

Lemma builder_after_snoc l k v : builder_after SN opt (l ++ [(k, v)]) = Add mem_Append mem_Flush k v (builder_after SN opt l).
Proof. unfold builder_after, AddAll. by rewrite foldl_app. Qed.

Lemma goes_to_cons l0 k v kvs loc o :
  goes_to l0 ((k, v) :: kvs) loc o ↔
  (∃ s, sources !! k = Some s ∧ location s = loc ∧ o = BlockNumber (builder_after SN opt l0)) ∨ goes_to (l0 ++ [(k, v)]) kvs loc o.
Proof.
  split.
  - intros (l1 & k' & v' & l2 & s & E & Hs & Hl & ->). destruct l1 as [|e l1]; cbn [app] in E; [injection E as <- <- <-|injection E as <- ->].
    + left. exists s. by rewrite app_nil_r.
    + right. exists l1, k', v', l2, s. split_and!; try done. by rewrite <- app_assoc.
  - intros [(s & Hs & Hl & ->)|(l1 & k' & v' & l2 & s & -> & Hs & Hl & ->)].
    + exists [], k, v, kvs, s. by rewrite app_nil_r.
    + exists ((k, v) :: l1), k', v', l2, s. split_and!; try done. by rewrite <- app_assoc.
Qed.

Lemma WriteLoop_ok kvs : ∀ l0 bm, blocks_ok bm →
  ∃ bm', WriteLoop 10 sources kvs (builder_after SN opt l0) bm = (builder_after SN opt (l0 ++ kvs), bm') ∧ blocks_ok bm' ∧
    ∀ loc o, o ∈ default [] (bm' !! loc) ↔ o ∈ default [] (bm !! loc) ∨ goes_to l0 kvs loc o.
Proof.
  induction kvs as [|[k v] kvs IH]; intros l0 bm Hbm; cbn [WriteLoop].
  { exists bm. rewrite app_nil_r. split_and!; try done. intros loc o. split; [by left|]. intros [?|(l1 & k & v & l2 & s & E & _)]; [done|]. by destruct l1. }
  change (10 =? 10) with true. cbn iota. rewrite <- builder_after_snoc.
  set (bm1 := match sources !! k with Some s => _ | None => _ end).
  assert (blocks_ok bm1 ∧ ∀ loc o, o ∈ default [] (bm1 !! loc) ↔ o ∈ default [] (bm !! loc) ∨
    ∃ s, sources !! k = Some s ∧ location s = loc ∧ o = BlockNumber (builder_after SN opt l0)) as [Hok1 Hin1].
  { unfold bm1. destruct (sources !! k) as [s|]; [|split; [done|]; intros loc o; naive_solver]. change (source_file s, source_block s) with (location s). split.
    - intros loc os. destruct (decide (location s = loc)) as [<-|Hne]; [|rewrite lookup_partial_alter_ne by done; apply Hbm].
      rewrite lookup_partial_alter_eq. intros [= <-]. split; [apply ltb_ordered; destruct (bm !! location s) eqn:E; [by apply (Hbm _ _ E)|constructor]|].
      intros E. assert (BlockNumber (builder_after SN opt l0) ∈ set_insert Z.ltb (BlockNumber (builder_after SN opt l0)) (default [] (bm !! location s))) as Hi
        by (apply ltb_insert; by left). rewrite E in Hi. by apply not_elem_of_nil in Hi.
    - intros loc o. destruct (decide (location s = loc)) as [<-|Hne].
      + rewrite lookup_partial_alter_eq. cbn [default from_option]. unfold id. rewrite ltb_insert. naive_solver.
      + rewrite lookup_partial_alter_ne by done. naive_solver. }
  destruct (IH (l0 ++ [(k, v)]) bm1 Hok1) as (bm' & E & Hok' & Hin'). exists bm'. rewrite E, <- app_assoc. split_and!; try done.
  intros loc o. rewrite Hin', Hin1, goes_to_cons. tauto.
Qed.

End mappings.

Lemma AddMapping_single o b nf r m :
  u32_ok b → u32_ok (start_block r) →
  AddMapping true o {| start_block := b; end_block := b |} nf r m = Some $
  <[(o, b) := {| new_file_number := nf; new_block_range := {| start_block := start_block r; end_block := start_block r |}; ref_count := 1 |}]> m.
Proof.
  intros Hb Hr. unfold AddMapping, SetMappings, Size. cbn [orb start_block end_block]. replace (b - b + 1) with 1 by lia. change (Z.to_nat (u32 1)) with 1%nat.
  cbn [AddMapping_loop]. by rewrite !Z.add_0_r, !u32_id.
Qed.

(** The graph after the mappings are recorded. *)
Lemma RecordMappings_lookup nf bm g :
  (∀ loc os, bm !! loc = Some os → u32_ok loc.2 ∧ os ≠ [] ∧ Forall u32_ok os) →
  ∃ g', RecordMappings true nf bm g = Some g' ∧ ∀ loc, g' !! loc =
  match bm !! loc with
  | Some os => Some {| new_file_number := nf; new_block_range := {| start_block := default 0 (head os); end_block := default 0 (head os) |}; ref_count := 1 |}
  | None => g !! loc
  end.
Proof.
  intros Hbm. unfold RecordMappings.
  assert (∀ l g, NoDup l.*1 → (∀ p, p ∈ l → bm !! p.1 = Some p.2) →
    ∃ g', foldl (λ g p, g ← g; RecordMapping true nf g p) (Some g) l = Some g' ∧ ∀ loc, g' !! loc = match (list_to_map l : gmap BlockLocation (list Z)) !! loc with
      | Some os => Some {| new_file_number := nf; new_block_range := {| start_block := default 0 (head os); end_block := default 0 (head os) |}; ref_count := 1 |}
      | None => g !! loc end) as H.
  2:{ destruct (H (map_to_list bm) g) as (g' & E & Hg'); [apply NoDup_fst_map_to_list|intros [k os] Hin; by apply elem_of_map_to_list in Hin|].
      exists g'. split; [done|]. intros loc. by rewrite Hg', list_to_map_to_list. }
  induction l as [|[k os] l IH]; intros g' Hnd Hl; cbn [foldl].
  { exists g'. split; [done|]. intros loc. by rewrite list_to_map_nil, lookup_empty. }
  cbn in Hnd. apply NoDup_cons in Hnd as [Hk Hnd]. destruct (Hbm k os) as (Hu & Hne & Hos); [apply (Hl (k, os)); by left|].
  cbn [mbind option_bind]. unfold RecordMapping at 2. cbn [fst snd]. destruct os as [|o os]; [done|]. cbn [head].
  destruct (last (o :: os)) as [mx|] eqn:E; [|by apply last_None in E]. rewrite AddMapping_single; [|done|by inversion Hos]. rewrite <- (surjective_pairing k). cbn [start_block].
  match goal with |- context [foldl _ (Some ?gg) l] => destruct (IH gg Hnd) as (g2 & -> & Hg2); [intros p Hp; apply Hl; by right|] end.
  exists g2. split; [done|]. intros loc. rewrite Hg2, list_to_map_cons. destruct (decide (k = loc)) as [<-|Hne'].
  - rewrite not_elem_of_list_to_map_1 by done. by rewrite !lookup_insert_eq.
  - by rewrite !lookup_insert_ne.
Qed.

Lemma RecordMapping_unchecked nf g p : ∃ g', RecordMapping true nf g p = Some g'.
Proof. unfold RecordMapping. destruct (head p.2), (last p.2); by eexists. Qed.

(** The assertion of [AddMapping] only stops the loop. *)
Lemma RecordMappings_checked nf bm g :
  ∃ g', RecordMappings true nf bm g = Some g' ∧ (RecordMappings false nf bm g = Some g' ∨ RecordMappings false nf bm g = None).
Proof.
  unfold RecordMappings. revert g. induction (map_to_list bm) as [|p l IH]; intros g; [exists g; cbn; auto|]. cbn [foldl mbind option_bind].
  destruct (RecordMapping_unchecked nf g p) as (g1 & E). rewrite E. destruct (IH g1) as (g' & H & H'). exists g'. split; [done|].
  assert (RecordMapping false nf g p = Some g1 ∨ RecordMapping false nf g p = None) as [-> | ->].
  - revert E. unfold RecordMapping, AddMapping. destruct (head p.2), (last p.2); auto. cbn [orb]. case_match; auto.
  - done.
  - right. clear. by induction l.
Qed.

(** It holds when no block has entries in two output blocks, and only then. *)
Lemma RecordMappings_single nf bm g :
  (∀ loc os, bm !! loc = Some os → ∃ o, os = [o]) → is_Some (RecordMappings false nf bm g).
Proof.
  intros Hbm. assert (∀ p, p ∈ map_to_list bm → ∃ o, p.2 = [o]) as Hl by (intros [loc os] H%elem_of_map_to_list; by apply (Hbm loc)).
  unfold RecordMappings. clear Hbm. revert g. induction (map_to_list bm) as [|p l IH]; intros g; [by eexists|]. cbn [foldl mbind option_bind].
  unfold RecordMapping at 2. destruct (Hl p) as [o ->]; [by left|]. cbn [head last]. unfold AddMapping, Size. cbn [orb start_block end_block].
  rewrite !Z.sub_diag. apply IH. intros q Hq. apply Hl. by right.
Qed.

Lemma RecordMappings_spread nf bm g loc os o o' :
  bm !! loc = Some os → ordered Z.ltb os → Forall u32_ok os → o ∈ os → o' ∈ os → o ≠ o' → RecordMappings false nf bm g = None.
Proof.
  intros Hbm Ho Hu Hin Hin' Hne. assert (∀ g, RecordMapping false nf g (loc, os) = None) as Hnone.
  { intros g'. unfold RecordMapping. cbn [fst snd]. destruct os as [|a os]; [by apply not_elem_of_nil in Hin|]. cbn [head].
    destruct (last (a :: os)) as [z|] eqn:El; [|by apply last_None in El]. apply last_Some in El as [l El].
    assert (a < z) as Haz.
    { inversion_clear Ho as [|? ? _ Hall]. rewrite Forall_forall in Hall. destruct l as [|b l]; cbn [app] in El.
      - injection El as -> ->. apply list_elem_of_singleton in Hin, Hin'. congruence.
      - injection El as -> ->. apply Z.ltb_lt, Hall, elem_of_app. right. by left. }
    assert (u32_ok a ∧ u32_ok z) as [Ha Hz].
    { rewrite El in Hu. split; [|apply Forall_app in Hu as [_ Hu]; by inversion Hu]. destruct l; cbn [app] in El; injection El as -> _; by inversion Hu. }
    unfold AddMapping, Size. cbn [orb start_block end_block]. rewrite Z.sub_diag, u32_id by (unfold u32_ok; lia). unfold u32_ok in *.
    destruct (Z.eqb_spec (0 + 1) (u32 (z - a + 1))) as [E|E]; [|done]. exfalso. unfold u32 in E.
    destruct (decide (z - a + 1 = 2 ^ 32)) as [E'|E']; [rewrite E', Z_mod_same_full in E; lia|]. rewrite Z.mod_small in E; lia. }
  assert ((loc, os) ∈ map_to_list bm) as (l1 & l2 & E)%list_elem_of_split by by apply elem_of_map_to_list.
  unfold RecordMappings. rewrite E, foldl_app. cbn [foldl].
  assert (∀ l, foldl (λ g p, g ← g; RecordMapping false nf g p) None l = None) as Hn by (intros l; by induction l).
  destruct (foldl _ (Some g) l1) as [g1|]; cbn [mbind option_bind]; [rewrite Hnone|]; apply Hn.
Qed.

(** ** Lemmas: the edit *)

Lemma pair_insert x s y : y ∈ set_insert pair_lt x s ↔ y = x ∨ y ∈ s.
Proof.
  apply (set_insert_iff pair_lt (λ _, True)); [|done|by apply Forall_true]. intros [a1 a2] [b1 b2] _ _ H1 H2.
  apply not_true_iff_false in H1, H2. rewrite pair_lt_spec in H1, H2. cbn in *. f_equal; lia.
Qed.

Lemma DeleteVFiles level fs : ∀ e, let e' := foldl (λ e f, DeleteVFile level (number f) e) e fs in
  (∀ p, p ∈ deleted_vfiles_ e' ↔ p ∈ deleted_vfiles_ e ∨ ∃ f, f ∈ fs ∧ p = (level, number f)) ∧
  dep_ e' = dep_ e ∧ new_vfiles_ e' = new_vfiles_ e.
Proof.
  induction fs as [|f fs IH]; intros e; cbn [foldl].
  { split_and!; try done. intros p. split; [by left|]. intros [?|(f & Hf & _)]; [done|]. by apply not_elem_of_nil in Hf. }
  destruct (IH (DeleteVFile level (number f) e)) as (Hd & -> & ->). split_and!; try done. intros p. rewrite Hd. cbn [DeleteVFile deleted_vfiles_ with_files].
  rewrite pair_insert. split.
  - intros [[->|?]|(g & Hg & ->)]; [right; exists f; split; [by left|done]|by left|right; exists g; split; [by right|done]].
  - intros [?|(g & [->|Hg]%elem_of_cons & ->)]; [left; by right|left; by left|right; by exists g].
Qed.

Lemma AddDependencies n fs : ∀ e, DepProofs.acyclic (dep_ e) → DepProofs.rep (dep_ e) n n →
  ∃ e', foldl (λ e f, e ← e; AddDependency n (number f) e) (Some e) fs = Some e' ∧ deleted_vfiles_ e' = deleted_vfiles_ e ∧ new_vfiles_ e' = new_vfiles_ e ∧
    ∀ y, DepProofs.rep (dep_ e) y n ∨ (∃ f, f ∈ fs ∧ y = number f) → DepProofs.rep (dep_ e') y n.
Proof.
  induction fs as [|f fs IH]; intros e Ha Hn; cbn [foldl].
  { exists e. split_and!; try done. intros y [?|(f & Hf & _)]; [done|]. by apply not_elem_of_nil in Hf. }
  destruct (Ha (number f)) as (d & r & Hr). destruct (DepProofs.dep_SetParent_rep n (number f) (dep_ e) n r Ha Hn) as (m & Hm & Ham & Hrep); [by exists d|].
  cbn [mbind option_bind]. unfold AddDependency at 2. rewrite Hm. cbn [mbind option_bind].
  assert (∀ y, DepProofs.rep (dep_ e) y n → DepProofs.rep m y n) as Hkeep by (intros y Hy; specialize (Hrep y n Hy); by destruct (n =? r)).
  destruct (IH (with_files (compact_pointers_ e) (compact_vpointers_ e) (deleted_files_ e) (deleted_vfiles_ e) (new_files_ e) (new_vfiles_ e) m e))
    as (e' & -> & Hd & Hv & Hy); [done|by apply Hkeep|]. exists e'. split_and!; [done|by rewrite Hd|by rewrite Hv|].
  intros y [H|(g & [->|Hg]%elem_of_cons & ->)]; apply Hy; [left; by apply Hkeep| |right; by exists g].
  left. cbn. specialize (Hrep (number f) r). rewrite Z.eqb_refl in Hrep. apply Hrep. by exists d.
Qed.

Lemma DeleteFiles level fs : ∀ e, let e' := foldl (λ e f, DeleteFile level (number f) e) e fs in
  deleted_vfiles_ e' = deleted_vfiles_ e ∧ dep_ e' = dep_ e ∧ new_vfiles_ e' = new_vfiles_ e.
Proof. induction fs as [|f fs IH]; intros e; cbn [foldl]; [done|]. apply (IH (DeleteFile level (number f) e)). Qed.

(** What [InstallCompactionResults] records of a compaction of value tables. *)
Record installs (vc : VCompaction) (out : Output) (edit edit' : VersionEdit) : Prop := {
  in_deleted p : p ∈ deleted_vfiles_ edit' ↔
    p ∈ deleted_vfiles_ edit ∨ (∃ f, f ∈ vinputs_0 vc ∧ p = (0, number f)) ∨ (∃ f, f ∈ vinputs_1 vc ∧ p = (1, number f));
  in_added : new_vfiles_ edit' = new_vfiles_ edit ++
    (if o_file_size out >? 0 then [(VOutputLevel 10 0 vc, NewFileMeta (o_number out) (o_file_size out) (o_smallest out) (o_largest out))] else []);
  in_parent f : vinputs_1 vc = [] → f ∈ vinputs_0 vc → DepProofs.rep (dep_ edit') (number f) (o_number out)
}.

Lemma InstallV_ok c vc out edit :
  dep_ edit = ∅ → ∃ edit', InstallCompactionResults 10 c [] vc [out] edit = Some edit' ∧ installs vc out edit edit'.
Proof.
  intros He. unfold InstallCompactionResults. cbn [foldl Z.eqb orb Pos.eqb].
  set (e1 := AddInputDeletions c edit). assert (deleted_vfiles_ e1 = deleted_vfiles_ edit ∧ dep_ e1 = ∅ ∧ new_vfiles_ e1 = new_vfiles_ edit) as (Hd1 & Hp1 & Hn1).
  { unfold e1, AddInputDeletions. destruct (DeleteFiles (level_ c) (inputs_0 c) edit) as (<- & Hp & <-). rewrite He in Hp. rewrite <- Hp.
    apply DeleteFiles. }
  set (e2 := AddVInputDeletions 10 (level_ c) vc e1). set (e3 := InstallVOutputs 10 (level_ c) vc [out] e2).
  assert ((∀ p, p ∈ deleted_vfiles_ e2 ↔ p ∈ deleted_vfiles_ edit ∨ (∃ f, f ∈ vinputs_0 vc ∧ p = (0, number f)) ∨ (∃ f, f ∈ vinputs_1 vc ∧ p = (1, number f))) ∧
    dep_ e2 = ∅ ∧ new_vfiles_ e2 = new_vfiles_ edit) as (Hd2 & Hp2 & Hn2).
  { unfold e2, AddVInputDeletions. change (if 10 =? 10 then 0 else level_ c) with 0.
    destruct (DeleteVFiles 0 (vinputs_0 vc) e1) as (Hda & Hpa & Hna). set (ea := foldl _ e1 _) in *.
    destruct (DeleteVFiles (0 + 1) (vinputs_1 vc) ea) as (Hdb & Hpb & Hnb).
    split_and!; [|by rewrite Hpb, Hpa|by rewrite Hnb, Hna]. intros p. rewrite Hdb, Hda, Hd1. tauto. }
  assert (deleted_vfiles_ e3 = deleted_vfiles_ e2 ∧ dep_ e3 = ∅ ∧ new_vfiles_ e3 = new_vfiles_ edit ++
    (if o_file_size out >? 0 then [(VOutputLevel 10 0 vc, NewFileMeta (o_number out) (o_file_size out) (o_smallest out) (o_largest out))] else []))
    as (Hd3 & Hp3 & Hn3).
  { unfold e3, InstallVOutputs. cbn [foldl Z.eqb orb Pos.eqb]. destruct (o_file_size out >? 0); cbn [AddVFile push_new_vfile with_files deleted_vfiles_ dep_ new_vfiles_].
    - by rewrite Hn2.
    - by rewrite app_nil_r. }
  unfold InstallDependencies. cbn [Z.eqb Pos.eqb andb]. destruct (Nat.eqb_spec (length (vinputs_1 vc)) 0) as [E|E].
  - cbn [last]. destruct (AddDependencies (o_number out) (vinputs_0 vc) e3) as (e4 & He4 & Hd4 & Hn4 & Hr4).
    + rewrite Hp3. apply DepProofs.acyclic_empty.
    + rewrite Hp3. exists 0%nat. by apply UnionFindProofs.roots_none.
    + exists e4. split; [exact He4|]. split; [by rewrite Hd4, Hd3|by rewrite Hn4|]. intros f _ Hf. apply Hr4. right. by exists f.
  - exists e3. split; [done|]. split; [by rewrite Hd3|done|]. intros f H. by rewrite H in E.
Qed.

(** ** Lemmas: the whole compaction *)

Section vwork.

Context `{SN : !Snappy} `{!SnappyLaws SN} (visit : ∀ V, gmap bytes V → list (bytes * V)) (Hvisit : ∀ V (m : gmap bytes V), visit V m ≡ₚ map_to_list m).
Context (options : Options) (vtable : FileMetaData → option Table).

Abbreviation vopt := (vopts 10 options).

(** An input: a file whose table was built from the entries. *)
Record input_ok (p : FileMetaData * entries) : Prop := {
  io_table : table_ok p.2;
  io_filters : filters_fit SN vopt p.2;
  io_keys : Forall (λ e, vkey_ok e.1 ∧ is_Some (ParseInternalVKey e.1)) p.2;
  io_sorted : keys_sorted VKey.comparator p.2;
  io_open : ∃ cache_id paranoid t, vtable p.1 = Some t ∧
    Open options cache_id (mem_Read (file (build_table SN vopt p.2))) paranoid (len (file (build_table SN vopt p.2))) = Some (inr t)
}.

(** Everything that is scanned. *)
Definition scanned_all (inputs : list (FileMetaData * entries)) : list Scanned := mjoin ((λ p, scanned_of vopt (number p.1) p.2) <$> inputs).

Lemma scanned_of_ok n es : Forall (λ e, vkey_ok e.1 ∧ is_Some (ParseInternalVKey e.1)) es → Forall scanned_ok (scanned_of vopt n es).
Proof.
  intros H. apply Forall_lookup. intros i x. unfold scanned_of. rewrite list_lookup_imap. destruct (es !! i) as [e|] eqn:E; [|done].
  intros [= <-]. by apply (Forall_lookup_1 _ _ _ _ H E).
Qed.

Lemma ScanFiles_built fuel read_options inputs :
  Forall input_ok inputs → Forall (λ p, (length p.2 ≤ fuel)%nat) inputs →
  ScanFiles 10 fuel vtable read_options inputs.*1 = Some (scanned_all inputs) ∧ Forall scanned_ok (scanned_all inputs).
Proof.
  intros Hin Hf. unfold scanned_all. induction Hin as [|[f es] inputs Hp Hin IH]; [done|]. apply Forall_cons in Hf as [Hf Hfs]. destruct (IH Hfs) as [IH1 IH2].
  cbn [fmap list_fmap ScanFiles fst snd]. destruct Hp as [H1 H2 H3 H4 (cid & par & t & Ht & Ho)]. cbn [fst snd] in *. rewrite Ht. cbn [mbind option_bind].
  assert (Forall (λ e, vkey_ok e.1) es) as H3' by (eapply Forall_impl; [exact H3|]; by intros e [? _]).
  rewrite (ScanFile_built vopt eq_refl 10 options cid es par read_options fuel f t eq_refl H1 H2 H3' H4 eq_refl Ho Hf). cbn [mbind option_bind]. rewrite IH1.
  split; [done|]. cbn [mjoin list_join]. apply Forall_app_2; [|done]. by apply scanned_of_ok.
Qed.

(** The blocks that entries of an input come from fit 32 bits. *)
Lemma BlockNumber_ok opt es : Forall entry_ok es → u32_ok (BlockNumber (builder_after SN opt es)).
Proof. intros H. destruct (builder_after_built SN opt es H) as [Hb _]. unfold BlockNumber. rewrite (bu_number _ _ _ _ Hb). apply u32_range. Qed.

(** The entries that are kept, and what the work leaves: [w] without assertions,
    [checked] with them. *)
Record vworked (vc : VCompaction) (file_number : Z) (xs : list Scanned) (edit : VersionEdit) (g : Mappings) (w : VWork) (checked : option VWork) (es : entries) : Prop := {
  vw_sorted : keys_sorted VKey.comparator es;
  vw_elem k v : (k, v) ∈ es ↔ ∃ x, survives xs x ∧ s_vkey x = k ∧ s_value x = v;
  vw_empty : es = [] → w_voutputs w = [] ∧ w_graph w = g ∧ checked = Some w;
  vw_output : es ≠ [] → ∃ out, w_voutputs w = [out] ∧ o_entries out = es ∧ o_number out = file_number ∧ installs vc out edit (w_edit w) ∧
    fst <$> head es = Some (o_smallest out) ∧ fst <$> last es = Some (o_largest out) ∧
    w_vfile w = Some (file (build_table SN vopt es)) ∧ o_file_size out = FileSize (build_table SN vopt es);
  vw_graph : es ≠ [] → ∃ sources bm, (∀ x k, survives xs x → ParsedKey x = Some k → sources !! s_vkey x = Some (info_of x k)) ∧
    blocks_ok bm ∧ (∀ loc o, o ∈ default [] (bm !! loc) ↔ goes_to vopt sources [] es loc o) ∧ RecordMappings true file_number bm g = Some (w_graph w) ∧
    checked = (_ ← RecordMappings false file_number bm g; Some w);
  vw_mutex : w_mutex_held w = true
}.

Lemma DoVCompactionWork_ok file_number apply_ok fuel read_options c vc edit g inputs :
  Forall input_ok inputs → Forall (λ p, (length p.2 ≤ fuel)%nat) inputs → vinputs_0 vc ++ vinputs_1 vc = inputs.*1 → dep_ edit = ∅ →
  ∃ w es, DoVCompactionWork 10 visit true options vtable file_number true true true apply_ok fuel read_options c vc edit g = Some w ∧
    vworked vc file_number (scanned_all inputs) edit g w
      (DoVCompactionWork 10 visit false options vtable file_number true true true apply_ok fuel read_options c vc edit g) es.
Proof.
  intros Hin Hf Hvc He. destruct (ScanFiles_built fuel read_options inputs Hin Hf) as [Hscan Hok]. set (xs := scanned_all inputs) in *.
  destruct (Gather_newest xs Hok) as (m & Hm & Hl). unfold DoVCompactionWork. rewrite Hvc, Hscan. cbn [mbind option_bind]. unfold Kvs.
  change (10 =? 10) with true. cbn iota. rewrite Hm. cbn [mbind option_bind].
  pose proof (SourceKvs_elem visit Hvisit xs m Hl) as Hel. pose proof (SourceKvs_NoDup visit Hvisit xs m Hl) as Hnd.
  assert (Forall (λ e, vkey_ok e.1) (SourceKvs visit m)) as Hvk.
  { apply Forall_forall. intros [k v] (x & Hx & <- & _)%Hel. by apply (survives_ok xs Hok) in Hx as (_ & ? & _). }
  destruct (SortKvs_sorted _ Hvk Hnd) as [Hs Hp]. set (es := SortKvs 10 (SourceKvs visit m)) in *.
  assert (∀ k v, (k, v) ∈ es ↔ ∃ x, survives xs x ∧ s_vkey x = k ∧ s_value x = v) as Hes by (intros k v; rewrite Hp; apply Hel).
  destruct (SourceKvs visit m) as [|kv kvs] eqn:Ek.
  - eexists _, es. split; [done|]. symmetry in Hp. apply Permutation_nil_l in Hp. split; try done.
  - cbn [negb andb]. destruct (WriteLoop_ok vopt (vkey_to_source visit m) es [] ∅) as (bm & Hw & Hbm & Hgo); [apply map_Forall_empty|].
    change (builder_after SN vopt []) with (NewTableBuilder vopt ([] : bytes)) in Hw. rewrite Hw. cbn [app].
    match goal with |- context [InstallCompactionResults 10 c [] vc [?o] edit] => set (out := o) end. destruct (InstallV_ok c vc out edit He) as (edit' & Hi & Hinst).
    destruct (RecordMappings_checked file_number bm g) as (g' & Hg & Hg'). rewrite Hg, Hi. cbn [mbind option_bind]. eexists _, es. split; [done|]. assert (es ≠ []) as Hne by (intros E; rewrite E in Hp; by apply Permutation_nil_l in Hp).
    split; try done; cbn [w_voutputs w_edit w_vfile w_graph].
    + intros _. exists out. split_and!; try done; cbn [out o_smallest o_largest].
      * by destruct es.
      * destruct (last es) as [e|] eqn:E; [done|]. by apply last_None in E.
    + intros _. exists (vkey_to_source visit m), bm. split_and!; try done.
      * intros x k [Hx _] Hk. by apply (vkey_to_source_lookup visit Hvisit xs m Hl).
      * intros loc o. rewrite Hgo, lookup_empty. cbn. split; [intros [?%not_elem_of_nil|]; done|by right].
      * by destruct Hg' as [-> | ->].
Qed.

End vwork.

Section results.

Context `{SN : !Snappy} (visit : ∀ V, gmap bytes V → list (bytes * V)) (options : Options) (vtable : FileMetaData → option Table).
Context (inputs : list (FileMetaData * entries)) (Hin : Forall (input_ok options vtable) inputs).
Context (vc : VCompaction) (file_number : Z) (edit : VersionEdit) (g : Mappings) (w : VWork) (checked : option VWork) (es : entries).
Context (Hw : vworked options vc file_number (scanned_all options inputs) edit g w checked es).

Abbreviation xs := (scanned_all options inputs).
Abbreviation vopt := (vopts 10 options).

Lemma scanned_entry x : x ∈ xs → entry_ok (s_vkey x, s_value x) ∧ u32_ok (s_block x) ∧ scanned_ok x.
Proof.
  unfold scanned_all. intros (l & Hx & Hl)%list_elem_of_join. apply list_elem_of_fmap in Hl as ([f es'] & -> & Hp).
  rewrite Forall_forall in Hin. destruct (Hin _ Hp) as [Ht _ Hk _ _]. cbn [fst snd] in *. pose proof (scanned_of_ok options (number f) es' Hk) as Hok.
  rewrite Forall_forall in Hok. specialize (Hok x Hx). apply list_elem_of_lookup_1 in Hx as [i Hx]. unfold scanned_of in Hx. rewrite list_lookup_imap in Hx.
  destruct (es' !! i) as [e|] eqn:E; [|done]. injection Hx as <-. split_and!; [|cbn [s_block]|done].
  - cbn. rewrite <- surjective_pairing. by apply (Forall_lookup_1 _ _ _ _ (to_entries _ Ht) E).
  - apply BlockNumber_ok. apply Forall_take. apply Ht.
Qed.

Lemma kept_entries_ok : Forall entry_ok es.
Proof. apply Forall_forall. intros [k v] (x & [(Hx & _)%newest_of_spec _] & <- & <-)%(vw_elem _ _ _ _ _ _ _ _ _ Hw). by apply scanned_entry. Qed.

(** The output blocks of an input block. *)
Lemma goes_to_survivor sources loc o :
  (∀ x k, survives xs x → ParsedKey x = Some k → sources !! s_vkey x = Some (info_of x k)) →
  goes_to vopt sources [] es loc o ↔
  ∃ x l1 l2, survives xs x ∧ (s_file x, s_block x) = loc ∧ es = l1 ++ (s_vkey x, s_value x) :: l2 ∧ o = BlockNumber (builder_after SN vopt l1).
Proof.
  intros Hs. split.
  - intros (l1 & k & v & l2 & s & E & Hk & Hl & ->). assert ((k, v) ∈ es) as (x & Hx & <- & <-)%(vw_elem _ _ _ _ _ _ _ _ _ Hw) by (rewrite E; apply elem_of_app; right; by left).
    pose proof Hx as [(Hxin & _)%newest_of_spec _]. apply scanned_entry in Hxin as (_ & _ & _ & kk & Hkk). rewrite (Hs x kk Hx Hkk) in Hk. injection Hk as <-.
    exists x, l1, l2. by split_and!.
  - intros (x & l1 & l2 & Hx & Hl & E & ->). pose proof Hx as [(Hxin & _)%newest_of_spec _]. apply scanned_entry in Hxin as (_ & _ & _ & kk & Hkk).
    exists l1, (s_vkey x), (s_value x), l2, (info_of x kk). split_and!; try done. by apply Hs.
Qed.

Definition leads_to (loc : BlockLocation) (o : Z) : Prop :=
  ∃ x l1 l2, survives xs x ∧ (s_file x, s_block x) = loc ∧ es = l1 ++ (s_vkey x, s_value x) :: l2 ∧ o = BlockNumber (builder_after SN vopt l1).

(** The recorded blocks. *)
Lemma recorded_blocks : es ≠ [] → ∃ bm, blocks_ok bm ∧ (∀ loc o, o ∈ default [] (bm !! loc) ↔ leads_to loc o) ∧
  (∀ loc os, bm !! loc = Some os → u32_ok loc.2 ∧ os ≠ [] ∧ Forall u32_ok os) ∧
  RecordMappings true file_number bm g = Some (w_graph w) ∧ checked = (_ ← RecordMappings false file_number bm g; Some w).
Proof.
  intros E. destruct (vw_graph _ _ _ _ _ _ _ _ _ Hw E) as (sources & bm & Hs & Hbm & Hgo & Hg & Hch). exists bm.
  assert (∀ loc o, o ∈ default [] (bm !! loc) ↔ leads_to loc o) as Hlead by (intros l o; rewrite Hgo; by apply goes_to_survivor).
  split_and!; try done. intros loc os El. destruct (Hbm _ _ El) as [_ Hne]. assert (Forall (leads_to loc) os) as Hall.
  { apply Forall_forall. intros o Ho. apply Hlead. by rewrite El. }
  split_and!; [|done|].
  - destruct os as [|o os]; [done|]. apply Forall_cons in Hall as [(x & l1 & l2 & [(Hx & _)%newest_of_spec _] & <- & _) _]. by apply scanned_entry.
  - eapply Forall_impl; [exact Hall|]. intros o (x & l1 & l2 & _ & _ & Ees & ->). apply BlockNumber_ok. pose proof kept_entries_ok as Hk. rewrite Ees in Hk.
    by apply Forall_app in Hk as [? _].
Qed.

Lemma nothing_leads : es = [] → ∀ loc o, ¬ leads_to loc o.
Proof. intros E loc o (x & l1 & l2 & _ & _ & E' & _). rewrite E in E'. by destruct l1. Qed.

Lemma graph_of_work loc :
  (∃ first, w_graph w !! loc = Some {| new_file_number := file_number; new_block_range := {| start_block := first; end_block := first |}; ref_count := 1 |} ∧
     leads_to loc first ∧ ∀ o, leads_to loc o → first ≤ o) ∨
  ((∀ o, ¬ leads_to loc o) ∧ w_graph w !! loc = g !! loc).
Proof.
  destruct (decide (es = [])) as [E|E].
  { right. split; [by apply nothing_leads|]. by destruct (vw_empty _ _ _ _ _ _ _ _ _ Hw E) as (_ & -> & _). }
  destruct (recorded_blocks E) as (bm & Hbm & Hlead & Hu & Hg & _). destruct (RecordMappings_lookup file_number bm g Hu) as (g' & Hg' & Hl).
  rewrite Hg in Hg'. injection Hg' as <-. rewrite Hl. destruct (bm !! loc) as [os|] eqn:El.
  - left. destruct (Hbm _ _ El) as [Ho Hne]. destruct os as [|o os]; [done|]. exists o. cbn [head default from_option]. unfold id. split; [done|].
    split; [apply Hlead; rewrite El; by left|]. intros o' Ho'. apply Hlead in Ho'. rewrite El in Ho'. cbn in Ho'. apply elem_of_cons in Ho' as [->|Ho']; [lia|].
    inversion_clear Ho as [|? ? _ Hall]. rewrite Forall_forall in Hall. specialize (Hall o' Ho'). cbn in Hall. apply Z.ltb_lt in Hall. lia.
  - right. split; [|done]. intros o Ho. apply Hlead in Ho. rewrite El in Ho. by apply not_elem_of_nil in Ho.
Qed.

(** With assertions: the same work, or none. *)
Lemma checked_of_work :
  ((∀ loc o o', leads_to loc o → leads_to loc o' → o = o') → checked = Some w) ∧
  (∀ loc o o', leads_to loc o → leads_to loc o' → o ≠ o' → checked = None).
Proof.
  destruct (decide (es = [])) as [E|E].
  { split; [intros _; by destruct (vw_empty _ _ _ _ _ _ _ _ _ Hw E) as (_ & _ & ->)|]. intros loc o o' H. by apply nothing_leads in H. }
  destruct (recorded_blocks E) as (bm & Hbm & Hlead & Hu & _ & ->). split.
  - intros H. destruct (RecordMappings_single file_number bm g) as [g' ->]; [|done]. intros loc os El. destruct (Hu _ _ El) as (_ & Hne & _).
    assert (∀ o, o ∈ os → leads_to loc o) as Hl by (intros o Ho; apply Hlead; by rewrite El).
    destruct os as [|o [|o' os]]; [done|by exists o|]. destruct (Hbm _ _ El) as [Ho _]. inversion_clear Ho as [|? ? _ Hall]. inversion_clear Hall as [|? ? Hlt _].
    cbn in Hlt. apply Z.ltb_lt in Hlt. assert (o = o') by (apply (H loc); apply Hl; [by left|right; by left]). lia.
  - intros loc o o' H H' Hne. apply Hlead in H, H'. destruct (bm !! loc) as [os|] eqn:El; [|by apply not_elem_of_nil in H]. cbn in H, H'.
    rewrite (RecordMappings_spread file_number bm g loc os o o'); try done; [by apply (Hbm _ _ El)|by apply (Hu _ _ El)].
Qed.

End results.

(** ** Properties *)

(** C14: a compaction of value tables keeps the newest entry of every key and
    nothing else. In mode 10, in a build without assertions (what they add is
    said in C25), when every file operation succeeds, the edit has no
    dependencies yet, the input tables were built from sorted entries (with a
    filter block, if any, below 4 GiB), no two entries have the same user key and
    sequence number and the fuel is enough for the scans, the work completes; the
    new file is the table of the entries that are values and whose sequence
    number is the greatest of all scanned entries of their user key, in the order
    of the value keys. It is added under its first and last key, the inputs are
    deleted, and when they are all of level 0 the new file becomes their parent.
    When nothing is kept there is no new file. *)
Theorem vcompaction_keeps_newest {SN : Snappy} {HS : SnappyLaws SN} visit options vtable file_number apply_ok fuel read_options c vc edit g inputs :
  (∀ V (m : gmap bytes V), visit V m ≡ₚ map_to_list m) → Forall (input_ok options vtable) inputs → Forall (λ p, (length p.2 ≤ fuel)%nat) inputs →
  vinputs_0 vc ++ vinputs_1 vc = inputs.*1 → dep_ edit = ∅ →
  let xs := scanned_all options inputs in
  (∀ x y, x ∈ xs → y ∈ xs → ukey_of x = ukey_of y → vseq_of x = vseq_of y → x = y) →
  ∃ w es, DoVCompactionWork 10 visit true options vtable file_number true true true apply_ok fuel read_options c vc edit g = Some w ∧ w_mutex_held w = true ∧
    keys_sorted VKey.comparator es ∧
    (∀ k v, (k, v) ∈ es ↔ ∃ x, x ∈ xs ∧ s_vkey x = k ∧ s_value x = v ∧ live x = true ∧ ∀ y, y ∈ xs → ukey_of y = ukey_of x → vseq_of y ≤ vseq_of x) ∧
    (es = [] → w_voutputs w = []) ∧
    (es ≠ [] → ∃ out, w_voutputs w = [out] ∧ o_entries out = es ∧ o_number out = file_number ∧ installs vc out edit (w_edit w) ∧
      fst <$> head es = Some (o_smallest out) ∧ fst <$> last es = Some (o_largest out) ∧ w_vfile w = Some (file (build_table SN (vopts 10 options) es))).
Proof.
  intros Hv Hin Hf Hvc He xs Huniq. destruct (DoVCompactionWork_ok visit Hv options vtable file_number apply_ok fuel read_options c vc edit g inputs Hin Hf Hvc He)
    as (w & es & Hw & H). exists w, es. split; [done|]. destruct H as [Hs Hel He0 Ho _ Hmu]. split; [done|]. split; [done|]. split.
  - intros k v. rewrite Hel. split; intros (x & Hx); exists x.
    + destruct Hx as ([(Hi & _ & Hmax)%newest_of_spec Hl] & <- & <-). by split_and!.
    + destruct Hx as (Hi & <- & <- & Hl & Hmax). split; [|done]. split; [|done]. apply newest_of_newest; auto.
  - split; [intros E; by apply He0|]. intros E. destruct (Ho E) as (out & ?). exists out. tauto.
Qed.

(** C25: where the dependency graph sends a reader after a compaction of value
    tables, under the hypotheses of C14 on the inputs, the edit and the file
    operations (the entries need not be unique). In a build without assertions
    the work completes: an input block with entries that were kept leads to the
    first of the blocks of the new file that these entries went to, and no other
    entry of the graph changes. With assertions the work is the same when the
    kept entries of every input block went to one block, and it is aborted, by
    the assertion of [AddMapping] on the sizes of the ranges, as soon as those of
    one input block went to two. *)
Theorem vcompaction_mappings {SN : Snappy} {HS : SnappyLaws SN} visit options vtable file_number apply_ok fuel read_options c vc edit g inputs :
  (∀ V (m : gmap bytes V), visit V m ≡ₚ map_to_list m) → Forall (input_ok options vtable) inputs → Forall (λ p, (length p.2 ≤ fuel)%nat) inputs →
  vinputs_0 vc ++ vinputs_1 vc = inputs.*1 → dep_ edit = ∅ →
  let work NDEBUG := DoVCompactionWork 10 visit NDEBUG options vtable file_number true true true apply_ok fuel read_options c vc edit g in
  ∃ w es, work true = Some w ∧ mjoin (o_entries <$> w_voutputs w) = es ∧
    (∀ loc,
      (∃ first, w_graph w !! loc = Some {| new_file_number := file_number; new_block_range := {| start_block := first; end_block := first |}; ref_count := 1 |} ∧
         leads_to options inputs es loc first ∧ ∀ o, leads_to options inputs es loc o → first ≤ o) ∨
      ((∀ o, ¬ leads_to options inputs es loc o) ∧ w_graph w !! loc = g !! loc)) ∧
    ((∀ loc o o', leads_to options inputs es loc o → leads_to options inputs es loc o' → o = o') → work false = Some w) ∧
    (∀ loc o o', leads_to options inputs es loc o → leads_to options inputs es loc o' → o ≠ o' → work false = None).
Proof.
  intros Hv Hin Hf Hvc He work. destruct (DoVCompactionWork_ok visit Hv options vtable file_number apply_ok fuel read_options c vc edit g inputs Hin Hf Hvc He)
    as (w & es & Hw & H). exists w, es. split; [done|]. split; [|split].
  - destruct (decide (es = [])) as [E|E]; [by rewrite (proj1 (vw_empty _ _ _ _ _ _ _ _ _ H E)), E|].
    destruct (vw_output _ _ _ _ _ _ _ _ _ H E) as (out & -> & <- & _). cbn. by rewrite app_nil_r.
  - by apply (graph_of_work options vtable inputs Hin vc file_number edit g w _ es H).
  - by apply (checked_of_work options vtable inputs Hin vc file_number edit g w _ es H).
Qed.

(** A compaction of many files takes in every file of level 1 that shares
    keys with one of its inputs of level 0, and the inputs of level 0 are the
    files below the size limit. *)
Theorem vpick_covers cfg vfiles0 vfiles1 :
  (kL0VFileCompactionTrigger ≤ length vfiles0)%nat → Forall vfile_ok vfiles0 → Forall vfile_ok vfiles1 →
  ∃ vc, PickVCompaction cfg vfiles0 vfiles1 = Some (Some vc) ∧
    (∀ f, f ∈ vinputs_0 vc ↔ f ∈ vfiles0 ∧ file_size f < max_merged_size cfg) ∧
    (∀ h, h ∈ vinputs_1 vc → h ∈ vfiles1) ∧
    (∀ f h, f ∈ vinputs_0 vc → h ∈ vfiles1 → voverlap f h → h ∈ vinputs_1 vc).
Proof.
  intros Hn H0 H1. unfold PickVCompaction. rewrite (proj2 (Nat.leb_le _ _) Hn). destruct vfiles0 as [|f0 vfiles0]; [cbn in Hn; unfold kL0VFileCompactionTrigger in Hn; lia|].
  eexists. split; [done|]. cbn [vinputs_0 vinputs_1]. unfold SmallFiles. split_and!.
  - intros f. rewrite list_elem_of_filter. tauto.
  - by intros h [_ ?]%list_elem_of_filter.
  - intros f h [_ Hf]%list_elem_of_filter Hh Ho. apply list_elem_of_filter. split; [|done].
    destruct (VRange_bounds f0 (f0 :: vfiles0)) as (Hr1 & Hr2 & Hr); [apply Forall_cons; split; [by inversion H0|done]|].
    destruct (Hr f) as [Ha Hb]; [by right|]. rewrite Forall_forall in H0, H1. apply (VOverlaps_complete _ f h); auto.
Qed.

(** ** Defects *)

(** Outside of mode 10 a key is paired with a value that is not its own.
    Of two entries of a user key, the newer one scanned last, the newer key is
    kept with the value of the older. *)
Theorem key_map_mixes_values visit x y :
  (∀ V (m : gmap bytes V), visit V m ≡ₚ map_to_list m) → scanned_ok x → scanned_ok y → ukey_of x = ukey_of y → vseq_of x < vseq_of y → live y = true →
  ∃ m, GatherAll GatherKey ∅ [x; y] = Some m ∧ KeyKvs visit m = [(s_vkey y, s_value x)].
Proof.
  intros Hv [_ [k Hk]] [_ [k' Hk']]. unfold ukey_of, vseq_of, live, GatherAll. cbn [foldl mbind option_bind]. unfold GatherKey at 1 2. rewrite Hk, Hk'. cbn.
  intros Hu Hs Hl. rewrite lookup_empty. eexists. split; [done|]. rewrite Hu, lookup_insert_eq. rewrite (proj2 (Z.gtb_lt _ _)) by done. rewrite insert_insert_eq.
  unfold KeyKvs. assert (visit _ (<[user_key k' := (k', s_vkey y, s_value x)]> ∅) = [(user_key k', (k', s_vkey y, s_value x))]) as ->.
  { apply Permutation_singleton_r. by rewrite Hv, map_to_list_insert, map_to_list_empty by done. }
  cbn. rewrite Hl. case_decide; [|done]. cbn. by rewrite (vkey_of_parsed y k' Hk').
Qed.

(** When the new file cannot be created the mutex stays released, although
    the caller holds it again on every other path. *)
Theorem failed_open_returns_unlocked {SN : Snappy} MOD visit NDEBUG options vtable file_number finish_ok sync_ok apply_ok fuel read_options c vc edit g w :
  DoVCompactionWork MOD visit NDEBUG options vtable file_number false finish_ok sync_ok apply_ok fuel read_options c vc edit g = Some w →
  w_mutex_held w = negb (bool_decide (w_status w = Some VOpenFailed)) ∧ (w_voutputs w ≠ [] → w_status w = Some VOpenFailed).
Proof.
  unfold DoVCompactionWork. destruct (ScanFiles _ _ _ _ _) as [xs|]; [|done]. cbn [mbind option_bind]. destruct (Kvs _ _ _) as [[m kvs]|]; [|done]. cbn.
  destruct kvs; intros [= <-]; cbn; [|done]. unfold apply_status. by destruct apply_ok.
Qed.

(** ** Witnesses *)

Definition vkey_example (u s : Z) (t : ValueType) (sort_key : Z) : bytes := MakeVKey [u] (PackSequenceAndType s t) sort_key.

(** Two files: key 97 is written and deleted, key 98 is overwritten, key 99 is
    written once. *)
Definition ventries7 : entries := [(vkey_example 97 1 kTypeValue 10, [1]); (vkey_example 98 2 kTypeValue 20, [2])].
Definition ventries8 : entries := [(vkey_example 99 6 kTypeValue 5, [6]); (vkey_example 97 5 kTypeDeletion 15, []); (vkey_example 98 4 kTypeValue 30, [4])].

Definition vfile (n : Z) (es : entries) : FileMetaData := NewFileMeta n 100 (default [] (fst <$> head es)) (default [] (fst <$> last es)).

Definition inputs_example : list (FileMetaData * entries) := [(vfile 7 ventries7, ventries7); (vfile 8 ventries8, ventries8)].

Definition open_vtable (es : entries) : option Table :=
  let f := file (@build_table no_snappy (vopts 10 options_example) es) in
  match Open (SN := no_snappy) options_example 1 (mem_Read f) true (len f) with
  | Some (inr t) => Some t
  | _ => None
  end.

Definition vtable_example (f : FileMetaData) : option Table := open_vtable (if number f =? 7 then ventries7 else ventries8).

Definition visit_example V (m : gmap bytes V) : list (bytes * V) := map_to_list m.

Definition vc_example : VCompaction := {| vinputs_0 := [vfile 7 ventries7; vfile 8 ventries8]; vinputs_1 := [] |}.

Definition lsm_example : Compaction := NewCompaction 0 1000 example_version [] [] [].

Lemma vtable_built es : table_ok es → filters_fit no_snappy (vopts 10 options_example) es → Forall (λ e, vkey_ok e.1) es → keys_sorted VKey.comparator es →
  ∃ cache_id paranoid t, open_vtable es = Some t ∧
    Open (SN := no_snappy) options_example cache_id (mem_Read (file (@build_table no_snappy (vopts 10 options_example) es))) paranoid
      (len (file (@build_table no_snappy (vopts 10 options_example) es))) = Some (inr t).
Proof.
  intros Hok Hff Hd Hs. destruct (value_scan (HS := no_snappy_laws) (vopts 10 options_example) 1 vkey_ok es true read_options vkey_laws Hok Hff Hd Hs)
    as (t & Ho & _). destruct (Open_NewVIterator (vopts 10 options_example) options_example _ _ _ _ t VKey.comparator read_options eq_refl Ho) as (t' & Ho' & _).
  exists 1, true, t'. split; [|done]. unfold open_vtable. by rewrite Ho'.
Qed.

Lemma ventries_ok es : es = ventries7 ∨ es = ventries8 → table_ok es ∧ Forall (λ e, vkey_ok e.1 ∧ is_Some (ParseInternalVKey e.1)) es ∧ keys_sorted VKey.comparator es.
Proof.
  assert (∀ e, e ∈ ventries7 ++ ventries8 → vkey_ok e.1 ∧ is_Some (ParseInternalVKey e.1)) as Hk.
  { apply Forall_forall. unfold vkey_ok. repeat (apply Forall_cons; split; [split; [by_decide|by eexists]|]). constructor. }
  intros [-> | ->]; (split; [split; [unfold entry_ok, u32_ok|..|by vm_compute]; by_decide|]);
    (split; [apply Forall_forall; intros e He; apply Hk, elem_of_app; auto|]); unfold ventries7, ventries8; sorted_keys.
Qed.

Lemma ventries_fit es : es = ventries7 ∨ es = ventries8 → filters_fit no_snappy (vopts 10 options_example) es.
Proof.
  intros [-> | ->]; unfold filters_fit, filter_fits; cbn [vopts filter_policy options_example]; set (f := filter_contents _ _); vm_compute in f; subst f; split_and!; by_decide.
Qed.

Lemma inputs_example_ok : Forall (input_ok (SN := no_snappy) options_example vtable_example) inputs_example.
Proof.
  repeat (apply Forall_cons; split; [|]); [| |constructor]; (match goal with |- input_ok _ _ (_, ?es) =>
    destruct (ventries_ok es ltac:(auto)) as (Hok & Hk & Hs) end; split; [done|try apply ventries_fit; auto|done|done|]; apply vtable_built; [done|try apply ventries_fit; auto| |done];
    eapply Forall_impl; [exact Hk|]; by intros e [? _]).
Qed.

Lemma inputs_example_unique x y :
  x ∈ scanned_all (SN := no_snappy) options_example inputs_example → y ∈ scanned_all (SN := no_snappy) options_example inputs_example →
  ukey_of x = ukey_of y → vseq_of x = vseq_of y → x = y.
Proof.
  assert (∀ i j x y, scanned_all (SN := no_snappy) options_example inputs_example !! i = Some x → scanned_all (SN := no_snappy) options_example inputs_example !! j = Some y →
    vseq_of x = vseq_of y → x = y) as H.
  2:{ intros [i Hx]%list_elem_of_lookup_1 [j Hy]%list_elem_of_lookup_1 _ E. by apply (H i j). }
  intros i j x0 y0 Hx Hy E. 
  assert (NoDup (vseq_of <$> scanned_all (SN := no_snappy) options_example inputs_example)) as Hnd by by_decide.
  assert (i = j) as -> by (eapply NoDup_lookup; [exact Hnd|rewrite list_lookup_fmap, Hx; reflexivity|rewrite list_lookup_fmap, Hy; cbn; by rewrite E]). congruence.
Qed.

Definition vwork_example : option VWork :=
  DoVCompactionWork (SN := no_snappy) 10 visit_example true options_example vtable_example 9 true true true true 5 read_options lsm_example vc_example NewVersionEdit ∅.

(** Key 98 moves from block 2 of file 8 to block 1 of file 9. *)
Lemma vcompaction_keeps_newest_witness :
  (w ← vwork_example; Some (o_entries <$> w_voutputs w, start_block ∘ new_block_range <$> w_graph w !! (8, 2))) =
    Some ([[(vkey_example 99 6 kTypeValue 5, [6]); (vkey_example 98 4 kTypeValue 30, [4])]], Some 1) ∧
  ∃ w es, vwork_example = Some w ∧ w_mutex_held w = true ∧ keys_sorted VKey.comparator es.
Proof.
  split; [vm_compute; reflexivity|].
  destruct (vcompaction_keeps_newest (HS := no_snappy_laws) visit_example options_example vtable_example 9 true 5 read_options lsm_example vc_example NewVersionEdit ∅
    inputs_example) as (w & es & Hw & Hmu & Hs & _).
  - intros V m. reflexivity.
  - apply inputs_example_ok.
  - repeat constructor.
  - reflexivity.
  - reflexivity.
  - apply inputs_example_unique.
  - exists w, es. split; [exact Hw|]. split; [exact Hmu|exact Hs].
Defined.

Lemma vwork_example_moved w : vwork_example = Some w → start_block ∘ new_block_range <$> w_graph w !! (8, 2) = Some 1.
Proof.
  intros E. assert ((w ← vwork_example; Some (start_block ∘ new_block_range <$> w_graph w !! (8, 2))) = Some (Some 1)) as H by (vm_compute; reflexivity).
  rewrite E in H. by injection H.
Qed.

(** Nothing sent a reader from block 2 of file 8 before. *)
Lemma vcompaction_mappings_witness :
  ∃ w es first, vwork_example = Some w ∧ mjoin (o_entries <$> w_voutputs w) = es ∧ leads_to (SN := no_snappy) options_example inputs_example es (8, 2) first ∧
    new_file_number <$> w_graph w !! (8, 2) = Some 9 ∧ first = 1.
Proof.
  destruct (vcompaction_mappings (HS := no_snappy_laws) visit_example options_example vtable_example 9 true 5 read_options lsm_example vc_example NewVersionEdit ∅
    inputs_example) as (w & es & Hw & Hes & Hg & _).
  - intros V m. reflexivity.
  - apply inputs_example_ok.
  - repeat constructor.
  - reflexivity.
  - reflexivity.
  - pose proof (vwork_example_moved w Hw) as H1. destruct (Hg (8, 2)) as [(first & Hl & Hf & _)|[_ Hl]]; rewrite Hl in H1; [|discriminate].
    exists w, es, first. split; [exact Hw|]. split; [exact Hes|]. split; [exact Hf|]. split; [by rewrite Hl|by injection H1].
Defined.

Definition scanned_example (seq : Z) (v : bytes) : Scanned := {| s_vkey := vkey_example 97 seq kTypeValue seq; s_value := v; s_file := 7; s_block := 0 |}.

Lemma key_map_mixes_values_witness :
  ∃ m, GatherAll GatherKey ∅ [scanned_example 1 [1]; scanned_example 2 [2]] = Some m ∧ KeyKvs visit_example m = [(vkey_example 97 2 kTypeValue 2, [1])].
Proof.
  apply (key_map_mixes_values visit_example (scanned_example 1 [1]) (scanned_example 2 [2])).
  - intros V m. reflexivity.
  - split; [unfold vkey_ok; by_decide|by eexists].
  - split; [unfold vkey_ok; by_decide|by eexists].
  - reflexivity.
  - reflexivity.
  - reflexivity.
Defined.

Definition vconfig_example : VConfig := {| max_merged_size := 1000; small_file_allowed := 128; entry_size := 48; invalid_limit := 10 |}.

Lemma vpick_covers_witness :
  ∃ vc, PickVCompaction vconfig_example (replicate 128 (vfile 7 ventries7)) [vfile 8 ventries8] = Some (Some vc) ∧ vfile 8 ventries8 ∈ vinputs_1 vc.
Proof.
  assert (∀ n es, es = ventries7 ∨ es = ventries8 → vfile_ok (vfile n es)) as Hok.
  { intros n es [-> | ->]; (split; [unfold vkey_ok; by_decide|]); (split; [unfold vkey_ok; by_decide|]); by vm_compute. }
  destruct (vpick_covers vconfig_example (replicate 128 (vfile 7 ventries7)) [vfile 8 ventries8]) as (vc & Hvc & H0 & _ & H1).
  - vm_compute. lia.
  - apply Forall_replicate. apply Hok. by left.
  - apply Forall_cons. split; [apply Hok; by right|constructor].
  - exists vc. split; [exact Hvc|]. apply (H1 (vfile 7 ventries7)); [|by left|by vm_compute].
    apply H0. split; [apply elem_of_replicate; by split|by vm_compute].
Defined.

(** ** The assertion of AddMapping *)

(** Block 0 of file 7 has two entries; the entry of file 8 comes between them. *)
Definition split_options : Options := {|
  comparator := Bytewise.comparator; block_size := 60; block_restart_interval := 16; compression := kSnappyCompression; filter_policy := None |}.
Definition split7 : entries := [(vkey_example 97 1 kTypeValue 10, []); (vkey_example 98 2 kTypeValue 30, [])].
Definition split8 : entries := [(vkey_example 99 3 kTypeValue 20, replicate 60 7)].

Definition split_table (f : FileMetaData) : option Table :=
  let f := file (@build_table no_snappy (vopts 10 split_options) (if number f =? 7 then split7 else split8)) in
  match Open (SN := no_snappy) split_options 1 (mem_Read f) true (len f) with
  | Some (inr t) => Some t
  | _ => None
  end.

Definition split_work (NDEBUG : bool) : option VWork :=
  DoVCompactionWork (SN := no_snappy) 10 visit_example NDEBUG split_options split_table 9 true true true true 5 read_options lsm_example
    {| vinputs_0 := [vfile 7 split7; vfile 8 split8]; vinputs_1 := [] |} NewVersionEdit ∅.

(** The entries of an input block may be parted by the compaction. The default
    build stops at the assertion of [AddMapping]; without assertions the reader
    of either entry is sent to block 0 of the new file, although the second
    entry went to block 1. *)
Theorem split_block_aborts :
  split_work false = None ∧
  (w ← split_work true; Some (mjoin (o_entries <$> w_voutputs w), start_block ∘ new_block_range <$> w_graph w !! (7, 0))) =
    Some (take 1 split7 ++ split8 ++ drop 1 split7, Some 0) ∧
  BlockNumber (@builder_after no_snappy (vopts 10 split_options) (take 1 split7 ++ split8)) = 1.
Proof. split_and!; vm_compute; reflexivity. Qed.
