(* ===== verification/BuildTable.v ===== *)
(** * db/builder.cc: from a memtable to tables

    [BuildTable] writes the entries of an iterator to a table.
    [BuildDuTable] writes two: the values go to a value table, sorted by sort
    key in mode 10, and the key table holds their addresses. Both work over any
    environment and any iterator. *)

From Stdlib Require Import Sorted String.
From stdpp Require Import sorting.
From S2P Require Import Prelude Coding Comparator Filename DBFormat FilterBlock Block Format TableBuilder Table VersionEdit Iterator VCompaction DBIter MemEnv DBFiles.

#[local] Open Scope Z_scope.
#[local] Open Scope list_scope.

Section build.

Context `{SN : !Snappy} {E W R : Type} {EN : Env E W R} {C T : Type} {IT : Iterator T}.

(** [table_cache->NewIterator(ReadOptions(), number, size)->status()], with the
    cache and the environment. *)
Context (usable : Z → Z → C → E → option (bool * C)).

Context (MOD : Z) (dbname : bytes) (options : Options).

(** The file of a table builder. *)
Definition env_Append (f : W * E) (data : bytes) : W * E * bool := let '(ok, e) := WAppend f.1 data f.2 in (f.1, e, ok).
Definition env_Flush (f : W * E) : W * E * bool := let '(ok, e) := WFlush f.1 f.2 in (f.1, e, ok).

Definition set_file_size (size : Z) (m : FileMetaData) : FileMetaData := {|
  number := number m; file_size := size; smallest := smallest m; largest := largest m;
  allowed_seeks := allowed_seeks m; num_keys := num_keys m; invalid_count := invalid_count m |}.

Definition set_keys (s l : bytes) (m : FileMetaData) : FileMetaData := {|
  number := number m; file_size := file_size m; smallest := s; largest := l;
  allowed_seeks := allowed_seeks m; num_keys := num_keys m; invalid_count := invalid_count m |}.

Definition set_built (size keys : Z) (m : FileMetaData) : FileMetaData := {|
  number := number m; file_size := size; smallest := smallest m; largest := largest m;
  allowed_seeks := allowed_seeks m; num_keys := keys; invalid_count := invalid_count m |}.

(** [Finish] of the builder, [Sync] and [Close] of the file. *)
Definition CloseTable (meta : FileMetaData) (r : Rep (W * E)) : bool * FileMetaData * E :=
  let r := Finish env_Append env_Flush r in
  let s := status r in
  let meta := if s then set_built (FileSize r) (NumEntries r) meta else meta in
  let '(file, e) := TableBuilder.file r in
  let '(s, e) := if s then WSync file e else (s, e) in
  let '(s, e) := if s then WClose file e else (s, e) in
  (s, meta, DeleteW file e).

Definition KeepTable (s : bool) (size : Z) (fname : bytes) (e : E) : E :=
  if s && (size >? 0) then e else (MemEnv.DeleteFile fname e).2.

(** ** BuildTable *)

(** The builder and the last key. *)
Fixpoint Build_loop (fuel : nat) (iter : T) (r : Rep (W * E)) (largest : bytes) : option (T * Rep (W * E) * bytes) :=
  if Valid iter then
    match fuel with
    | O => None
    | S fuel' =>
        let k := key iter in
        let r := Add env_Append env_Flush k (value iter) r in
        iter ← Next iter;
        Build_loop fuel' iter r k
    end
  else Some (iter, r, largest).

(** [fuel] bounds the number of entries. *)
Definition BuildTable (fuel : nat) (iter : T) (meta : FileMetaData) (cache : C) (e : E) : option (bool * FileMetaData * C * E) :=
  let meta := set_file_size 0 meta in
  iter ← SeekToFirst iter;
  let fname := TableFileName dbname (number meta) in
  if Valid iter then
    match NewWritableFile fname e with
    | (None, e) => Some (false, meta, cache, e)
    | (Some file, e) =>
        let first_key := key iter in
        '(iter, r, last_key) ← Build_loop fuel iter (NewTableBuilder options (file, e)) (largest meta);
        let '(s, meta, e) := CloseTable (set_keys first_key last_key meta) r in
        '(s, cache) ← (if s then usable (number meta) (file_size meta) cache e else Some (s, cache));
        let s := s && status_ok iter in
        Some (s, meta, cache, KeepTable s (file_size meta) fname e)
    end
  else
    let s := status_ok iter in
    Some (s, meta, cache, KeepTable s (file_size meta) fname e).

(** ** BuildDuTable *)

(** A pair of the key and a [VInfo]. *)
Record VEntry := { ve_key : bytes; ve_value : bytes; ve_file : Z; ve_block : Z; ve_offset : Z }.

(** The entries; [None] also where [ConstructVKey] reads past the value. The
    address is filled in later. *)
Fixpoint Gather_loop (fuel : nat) (iter : T) (kvs : list VEntry) : option (T * list VEntry) :=
  if Valid iter then
    match fuel with
    | O => None
    | S fuel' =>
        tmpKey ← (if MOD =? 10 then if len (value iter) <? 8 then None else Some (ConstructVKey (key iter) (value iter)) else Some (key iter));
        let kvs := kvs ++ [{| ve_key := tmpKey; ve_value := value iter; ve_file := 0; ve_block := 0; ve_offset := 0 |}] in
        iter ← Next iter;
        Gather_loop fuel' iter kvs
    end
  else Some (iter, kvs).

(** The orders of the two calls of [std::sort]. *)
Definition v_le (a b : VEntry) : Prop := VKey.Compare (ve_key a) (ve_key b) ≤ 0.
Definition k_le (a b : VEntry) : Prop := KCompare (ve_key b) (ve_key a) = false.
#[export] Instance v_le_dec : RelDecision v_le.
Proof. unfold v_le. intros a b. apply _. Defined.
#[export] Instance k_le_dec : RelDecision k_le.
Proof. unfold k_le. intros a b. apply _. Defined.

Definition sorted_mode : bool := (MOD =? 10) || (MOD =? 13).

(** The first and the last key, or the least and the greatest one; [None] is
    [kvs[0]] of an empty vector. *)
Definition KeyRange (kvs : list VEntry) : option (bytes * bytes) :=
  if sorted_mode then a ← head kvs; b ← last kvs; Some (ve_key a, ve_key b)
  else if MOD =? 9 then
    a ← head kvs;
    Some (foldl (λ r kv, (if Slice.compare (ve_key kv) r.1 <? 0 then ve_key kv else r.1, if Slice.compare (ve_key kv) r.2 >? 0 then ve_key kv else r.2))
      (ve_key a, ve_key a) kvs)
  else Some ([], []).

(** Every entry gets its address before it is added. *)
Fixpoint AddValues (vnumber : Z) (kvs : list VEntry) (r : Rep (W * E)) : list VEntry * Rep (W * E) :=
  match kvs with
  | [] => ([], r)
  | kv :: kvs =>
      let kv := {| ve_key := ve_key kv; ve_value := ve_value kv; ve_file := u32 vnumber; ve_block := BlockNumber r; ve_offset := BlockOffset r |} in
      let r := Add env_Append env_Flush (ve_key kv) (ve_value kv) r in
      let '(kvs, r) := AddValues vnumber kvs r in
      (kv :: kvs, r)
  end.

(** The value table. *)
Definition BuildValues (vmeta : FileMetaData) (kvs : list VEntry) (vfile : W) (e : E) : option (bool * list VEntry * FileMetaData * E) :=
  let kvs := if sorted_mode then merge_sort v_le kvs else kvs in
  '(min_key, max_key) ← KeyRange kvs;
  let vmeta := set_keys min_key max_key vmeta in
  let '(kvs, vbuilder) := AddValues (number vmeta) kvs (NewTableBuilder (vopts MOD options) (vfile, e)) in
  let '(s, vmeta, e) := CloseTable vmeta vbuilder in
  Some (s, kvs, vmeta, e).

(** [remove_suffix(8)]: in mode 10 the sort key, in modes 9 and 13 the sequence
    number and the type. *)
Definition strip (key : bytes) : bytes :=
  if (MOD =? 9) || (MOD =? 10) || (MOD =? 13) then first (len key - 8) key else key.

Definition EncodeAddress (kv : VEntry) : bytes := EncodeFixed32 (ve_file kv) ++ EncodeFixed32 (ve_block kv) ++ EncodeFixed32 (ve_offset kv).

Definition AddAddresses (kvs : list VEntry) (r : Rep (W * E)) : Rep (W * E) :=
  foldl (λ r kv, Add env_Append env_Flush (strip (ve_key kv)) (EncodeAddress kv) r) r kvs.

(** The key table. *)
Definition BuildKeys (meta : FileMetaData) (kvs : list VEntry) (cache : C) (e : E) : option (bool * FileMetaData * C * E) :=
  let fname := TableFileName dbname (number meta) in
  match NewWritableFile fname e with
  | (None, e) => Some (false, meta, cache, e)
  | (Some file, e) =>
      let kvs := if sorted_mode then merge_sort k_le kvs else kvs in
      '(min_key, max_key) ← KeyRange kvs;
      let meta := set_keys (strip min_key) (strip max_key) meta in
      let builder := AddAddresses kvs (NewTableBuilder options (file, e)) in
      let '(s, meta, e) := CloseTable meta builder in
      '(s, cache) ← (if s then usable (number meta) (file_size meta) cache e else Some (s, cache));
      Some (s, meta, cache, KeepTable s (file_size meta) fname e)
  end.

(** The first status is that of [NewWritableFile], the second the one that the
    key table overwrites. *)
Definition BuildDuTable (fuel : nat) (iter : T) (meta vmeta : FileMetaData) (cache : C) (e : E)
    : option (bool * FileMetaData * FileMetaData * C * E) :=
  iter ← SeekToFirst iter;
  let meta := set_file_size 0 meta in
  let vmeta := set_file_size 0 vmeta in
  let vfname := VTableFileName dbname (number vmeta) in
  if Valid iter then
    match NewWritableFile vfname e with
    | (None, e) => Some (false, meta, vmeta, cache, e)
    | (Some vfile, e) =>
        '(iter, kvs) ← Gather_loop fuel iter [];
        '(s, kvs, vmeta, e) ← BuildValues vmeta kvs vfile e;
        let s := s && status_ok iter in
        let e := KeepTable s (file_size vmeta) vfname e in
        '(s, meta, cache, e) ← BuildKeys meta kvs cache e;
        Some (s, meta, vmeta, cache, e)
    end
  else
    let e := KeepTable (status_ok iter) (file_size vmeta) vfname e in
    '(s, meta, cache, e) ← BuildKeys meta [] cache e;
    Some (s, meta, vmeta, cache, e).

End build.

(** ** Lemmas: a builder over a file that may fail *)

Section any_file.

Context `{SN : !Snappy} {F : Type} (Append : F → bytes → F * bool) (FileFlush : F → F * bool).

(** [inv] always holds of the file; [holds f c]: its contents are [c];
    [reliable]: nothing fails. *)
Record FileLaws (inv : F → Prop) (holds : F → bytes → Prop) (reliable : Prop) : Prop := {
  fl_append f d : inv f → inv (Append f d).1;
  fl_appended f d c : inv f → (Append f d).2 = true → holds f c → holds (Append f d).1 (c ++ d);
  fl_append_works f d : reliable → inv f → (Append f d).2 = true;
  fl_flush f : inv f → inv (FileFlush f).1;
  fl_flushed f c : inv f → holds f c → holds (FileFlush f).1 c;
  fl_flush_works f : reliable → inv f → (FileFlush f).2 = true
}.

Context (inv : F → Prop) (holds : F → bytes → Prop) (reliable : Prop) (HL : FileLaws inv holds reliable).

(** The builder with a file in memory instead. *)
Definition retype (r : Rep F) (f : bytes) : Rep bytes := {|
  TableBuilder.options := TableBuilder.options r; file := f; offset := offset r; status := status r; data_block := data_block r;
  index_block := index_block r; block_number := block_number r; last_key := last_key r; num_entries := num_entries r; closed := closed r;
  filter_block := filter_block r; pending_index_entry := pending_index_entry r; pending_handle := pending_handle r |}.

(** As long as its status is ok, the builder has done what [m] did in memory. *)
Definition follows (r : Rep F) (m : Rep bytes) : Prop :=
  inv (file r) ∧ (status r = true → ∃ f, m = retype r f ∧ holds (file r) f) ∧ (reliable → status r = true).

Lemma retype_filter g r f : with_filter g (retype r f) = retype (with_filter g r) f.
Proof. unfold with_filter. cbn. destruct (filter_policy (TableBuilder.options r)) as [[? ?]|]; [|done]. by destruct (filter_block r). Qed.

Lemma file_with_filter g (r : Rep F) : file (with_filter g r) = file r ∧ status (with_filter g r) = status r ∧ offset (with_filter g r) = offset r.
Proof. unfold with_filter. destruct (filter_policy (TableBuilder.options r)) as [[? ?]|]; [|done]. by destruct (filter_block r). Qed.

Lemma retype_emit r f : EmitPendingIndex (retype r f) = retype (EmitPendingIndex r) f.
Proof. unfold EmitPendingIndex. cbn. by destruct (pending_index_entry r). Qed.

Lemma file_emit (r : Rep F) : file (EmitPendingIndex r) = file r ∧ status (EmitPendingIndex r) = status r.
Proof. unfold EmitPendingIndex. by destruct (pending_index_entry r). Qed.

(** The builder is as it was but for the file, the offset and the status. *)
Lemma WriteRawBlock_follows c t r f :
  inv (file r) → status r = true → holds (file r) f →
  let '(r', h) := WriteRawBlock Append c t r in
  inv (file r') ∧ (∃ f' off ok, r' = set_written f' off ok r) ∧
  (status r' = true → ∃ f', WriteRawBlock mem_Append c t (retype r f) = (retype r' f', h) ∧ holds (file r') f') ∧ (reliable → status r' = true).
Proof.
  intros Hi Hs Hf. unfold WriteRawBlock. cbn [retype file offset]. pose proof (fl_append _ _ _ HL (file r) c Hi) as Hi1. pose proof (fl_appended _ _ _ HL (file r) c f Hi) as H1.
  pose proof (λ H, fl_append_works _ _ _ HL (file r) c H Hi) as Hw1. destruct (Append (file r) c) as [f1 [|]]; cbn [fst snd] in *; [|by split_and!; [|eexists _, _, _|..]].
  pose proof (fl_append _ _ _ HL f1 (BlockTrailer c t) Hi1) as Hi2. pose proof (fl_appended _ _ _ HL f1 (BlockTrailer c t) (f ++ c) Hi1) as H2.
  pose proof (λ H, fl_append_works _ _ _ HL f1 (BlockTrailer c t) H Hi1) as Hw2. destruct (Append f1 (BlockTrailer c t)) as [f2 ok]; cbn [fst snd] in *.
  split; [done|]. split; [by eexists _, _, _|]. cbn [set_written status]. split; [|done]. intros ->. eexists. split; [done|]. apply H2, H1; done.
Qed.

Lemma WriteBlock_follows b r f :
  inv (file r) → status r = true → holds (file r) f →
  let '(r', h, b') := WriteBlock Append b r in
  inv (file r') ∧ (∃ f' off ok, r' = set_written f' off ok r) ∧
  (status r' = true → ∃ f', WriteBlock mem_Append b (retype r f) = (retype r' f', h, b') ∧ holds (file r') f') ∧ (reliable → status r' = true).
Proof.
  intros Hi Hs Hf. unfold WriteBlock. cbn [retype TableBuilder.options]. destruct (Builder.Finish b) as [b1 raw]. destruct (CompressBlock _ raw) as [c t].
  pose proof (WriteRawBlock_follows c t r f Hi Hs Hf) as H. destruct (WriteRawBlock Append c t r) as [r' h]. destruct H as (Hi' & Hr' & H & Hw). split; [done|]. split; [done|].
  split; [|done]. intros Hs'. destruct (H Hs') as (f' & -> & Hf'). by exists f'.
Qed.

Lemma Flush_follows r m : follows r m → follows (TableBuilder.Flush Append FileFlush r) (TableBuilder.Flush mem_Append mem_Flush m).
Proof.
  intros (Hi & Hm & Hw). unfold TableBuilder.Flush. destruct (status r) eqn:Hs; cbn [negb]; [|split_and!; [done|congruence|by rewrite Hs]]. destruct (Hm eq_refl) as (f & -> & Hf).
  change (status (retype r f)) with (status r). change (data_block (retype r f)) with (data_block r). rewrite Hs. cbn [negb].
  destruct (Builder.empty (data_block r)); [split_and!; [done|intros _; by exists f|done]|].
  pose proof (WriteBlock_follows (data_block r) r f Hi Hs Hf) as H.
  destruct (WriteBlock Append (data_block r) r) as [[r1 h] b] eqn:Ew. destruct H as (Hi1 & (f0 & off & ok & Er) & H & Hw1). subst r1. cbn [file status set_written] in *.
  destruct ok.
  - destruct (H eq_refl) as (f1 & -> & Hf1).
    cbn [set_data_block set_index set_written retype status file index_block pending_index_entry pending_handle set_block_number offset block_number].
    pose proof (fl_flush _ _ _ HL f0 Hi1) as Hi2. pose proof (fl_flushed _ _ _ HL f0 f1 Hi1) as H2. pose proof (λ H, fl_flush_works _ _ _ HL f0 H Hi1) as Hw2. destruct (FileFlush f0) as [f2 ok2] eqn:Ef. cbn [fst snd] in *. unfold mem_Flush.
    split; [by rewrite (proj1 (file_with_filter _ _))|]. rewrite (proj1 (proj2 (file_with_filter _ _))). cbn [status set_written]. split; [|done]. intros ->. exists f1. split.
    + rewrite <- retype_filter. done.
    + rewrite (proj1 (file_with_filter _ _)). cbn. by apply H2.
  - cbn [set_data_block set_index set_written status]. split; [rewrite (proj1 (file_with_filter _ _)); done|]. rewrite (proj1 (proj2 (file_with_filter _ _))). done.
Qed.

Lemma Add_follows k v r m : follows r m → follows (Add Append FileFlush k v r) (Add mem_Append mem_Flush k v m).
Proof.
  intros (Hi & Hm & Hw). unfold Add. destruct (status r) eqn:Hs; cbn [negb]; [|split_and!; [done|congruence|by rewrite Hs]]. destruct (Hm eq_refl) as (f & -> & Hf).
  change (status (retype r f)) with (status r). rewrite Hs. cbn [negb]. rewrite retype_emit, retype_filter.
  set (r1 := with_filter (λ _, AddKey k) (EmitPendingIndex r)).
  assert (file r1 = file r ∧ status r1 = status r) as [E1 E2].
  { unfold r1. destruct (file_with_filter (λ _, AddKey k) (EmitPendingIndex r)) as (-> & -> & _). apply file_emit. }
  clearbody r1. set (r2 := set_data_block _ (set_last k (num_entries r1 + 1) r1)).
  change (set_data_block _ (set_last k (num_entries (retype r1 f) + 1) (retype r1 f))) with (retype r2 f).
  assert (follows r2 (retype r2 f)) as H2 by (unfold r2; split_and!; cbn; rewrite ?E1, ?E2; [done|intros _; by exists f|done]).
  change (data_block (retype r2 f)) with (data_block r2). change (TableBuilder.options (retype r2 f)) with (TableBuilder.options r2).
  case_match; [by apply Flush_follows|done].
Qed.

Lemma AddAll_follows es r m : follows r m → follows (foldl (λ r e, Add Append FileFlush e.1 e.2 r) r es) (AddAll mem_Append mem_Flush es m).
Proof. revert r m. induction es as [|e es IH]; intros r m H; [done|]. cbn [foldl AddAll]. apply IH. by apply Add_follows. Qed.

(** A block and its handle, as [Finish] writes them. *)
Definition stage (p : Rep F * BlockHandle) (q : Rep bytes * BlockHandle) : Prop :=
  inv (file p.1) ∧ (status p.1 = true → ∃ f, q.1 = retype p.1 f ∧ holds (file p.1) f ∧ q.2 = p.2) ∧ (reliable → status p.1 = true).

Lemma Finish_follows r m : follows r m → follows (Finish Append FileFlush r) (Finish mem_Append mem_Flush m).
Proof.
  intros H. apply Flush_follows in H. unfold Finish. revert H. generalize (TableBuilder.Flush Append FileFlush r) as r1, (TableBuilder.Flush mem_Append mem_Flush m) as m1.
  clear r m. intros r1 m1 (Hi & Hm & Hw). assert (follows (set_closed r1) (set_closed m1)) as (Hi1 & Hm1 & Hw1).
  { split; [done|]. split; [|done]. cbn. intros Hs. destruct (Hm Hs) as (f & -> & Hf). by exists f. }
  revert Hi1 Hm1 Hw1. generalize (set_closed r1) as r, (set_closed m1) as m. clear r1 m1 Hi Hm Hw. intros r m Hi Hm Hw.
  (* the filter block *)
  match goal with |- follows (let '(_, _) := ?p in _) (let '(_, _) := ?q in _) => assert (stage p q) as H1 end.
  { destruct (status r) eqn:Hs.
    - destruct (Hm eq_refl) as (f & -> & Hf). cbn [retype TableBuilder.options filter_block]. change (status _) with (status r). rewrite Hs.
      assert (stage (r, BlockHandle_init) (retype r f, BlockHandle_init)) as Hsame by (split_and!; [done|intros _; by exists f|done]).
      destruct (filter_policy (TableBuilder.options r)) as [[name p]|]; [|done]. destruct (filter_block r) as [fb|]; [|done].
      pose proof (WriteRawBlock_follows (FilterBlock.Finish p fb) kNoCompression r f Hi Hs Hf) as H. destruct (WriteRawBlock Append _ _ r) as [r' h]. destruct H as (Hi' & _ & H & Hw').
      split; [done|]. cbn [fst snd]. split; [|done]. intros Hs'. destruct (H Hs') as (f' & E & Hf'). change {| TableBuilder.options := _ |} with (retype r f). rewrite E. by exists f'.
    - destruct (filter_policy (TableBuilder.options r)) as [[name p]|]; [destruct (filter_block r)|]; (split_and!; [done|cbn; congruence|cbn; by rewrite Hs]). }
  match goal with |- follows (let '(_, _) := ?p in _) (let '(_, _) := ?q in _) => destruct p as [r2 h2], q as [m2 h2'] end. clear r m Hi Hm Hw. destruct H1 as (Hi & Hm & Hw). cbn [fst snd] in *.
  (* the metaindex block *)
  match goal with |- follows (let '(_, _) := ?p in _) (let '(_, _) := ?q in _) => assert (stage p q ∧ (status r2 = true → h2' = h2)) as [H1 Eh] end.
  { destruct (status r2) eqn:Hs; [|split; [split_and!; [done|cbn; congruence|cbn; by rewrite Hs]|done]]. destruct (Hm eq_refl) as (f & -> & Hf & ->). split; [|done]. change (status (retype r2 f)) with (status r2). rewrite Hs.
    change (TableBuilder.options (retype r2 f)) with (TableBuilder.options r2). change (filter_block (retype r2 f)) with (filter_block r2).
    match goal with |- context [WriteBlock Append ?b r2] => pose proof (WriteBlock_follows b r2 f Hi Hs Hf) as H end.
    destruct (WriteBlock Append _ r2) as [[r' h] b']. destruct H as (Hi' & _ & H & Hw'). split; [done|]. cbn [fst snd]. split; [|done]. intros Hs'. destruct (H Hs') as (f' & -> & Hf'). by exists f'. }
  match goal with |- follows (let '(_, _) := ?p in _) (let '(_, _) := ?q in _) => destruct p as [r3 h3], q as [m3 h3'] end. clear r2 m2 Hi Hm Hw h2 h2' Eh. destruct H1 as (Hi & Hm & Hw). cbn [fst snd] in *.
  (* the index block *)
  match goal with |- follows (let '(_, _) := ?p in _) (let '(_, _) := ?q in _) => assert (stage p q ∧ (status p.1 = true → h3' = h3)) as [H1 Eh] end.
  { destruct (status r3) eqn:Hs; [|split; [split_and!; [done|cbn; congruence|cbn; by rewrite Hs]|cbn; congruence]]. destruct (Hm eq_refl) as (f & -> & Hf & ->). split; [|done]. change (status (retype r3 f)) with (status r3). rewrite Hs.
    rewrite retype_emit. change (index_block (retype ?r ?f)) with (index_block r). destruct (file_emit r3) as [Ef Es]. rewrite <- Ef in Hi, Hf. rewrite <- Es in Hs.
    pose proof (WriteBlock_follows (index_block (EmitPendingIndex r3)) _ f Hi Hs Hf) as H.
    destruct (WriteBlock Append _ (EmitPendingIndex r3)) as [[r' h] b']. destruct H as (Hi' & _ & H & Hw'). split; [done|]. cbn [fst snd]. split; [|done]. intros Hs'. destruct (H Hs') as (f' & -> & Hf'). by exists f'. }
  match goal with |- follows (let '(_, _) := ?p in _) (let '(_, _) := ?q in _) => destruct p as [r4 h4], q as [m4 h4'] end. clear r3 m3 Hi Hm Hw. destruct H1 as (Hi & Hm & Hw). cbn [fst snd] in *.
  (* the footer *)
  destruct (status r4) eqn:Hs; [|split_and!; [done|congruence|by rewrite Hs]]. destruct (Hm eq_refl) as (f & -> & Hf & ->). rewrite (Eh eq_refl). change (status (retype r4 f)) with (status r4). rewrite Hs.
  change (file (retype r4 f)) with f. match goal with |- context [Append (file r4) ?d] =>
    pose proof (fl_append _ _ _ HL (file r4) d Hi) as Hi'; pose proof (fl_appended _ _ _ HL (file r4) d f Hi) as H; pose proof (λ H, fl_append_works _ _ _ HL (file r4) d H Hi) as Hw';
    destruct (Append (file r4) d) as [f' ok] end.
  cbn [fst snd] in *. split; [done|]. cbn [set_written status]. split; [|done]. intros ->. eexists. split; [done|]. by apply H.
Qed.

End any_file.

(** ** Lemmas: a builder over an environment *)

Section env_file.

Context `{SN : !Snappy} {E W R : Type} {EN : Env E W R} {EL : EnvLaws E W R EN}.

(** Nothing fails with the file [f]. *)
Record env_works (f : bytes) : Prop := {
  ew_new e : env_ok e → is_Some (NewWritableFile f e).1;
  ew_append w d e : env_ok e → writes e w f → (WAppend w d e).1 = true;
  ew_flush w e : env_ok e → writes e w f → (WFlush w e).1 = true;
  ew_sync w e : env_ok e → writes e w f → (WSync w e).1 = true;
  ew_close w e : env_ok e → writes e w f → (WClose w e).1 = true
}.

(** The file [fname] is open, and the others are as in [e0]. *)
Definition opened_file (fname : bytes) (e0 : E) (f : W * E) : Prop :=
  env_ok f.2 ∧ writes f.2 f.1 fname ∧ ∀ g, g ≠ fname → file_of f.2 g = file_of e0 g.

Definition contains (fname : bytes) (f : W * E) (c : bytes) : Prop := file_of f.2 fname = Some c.

Lemma env_file_laws fname e0 : FileLaws env_Append env_Flush (opened_file fname e0) (contains fname) (env_works fname).
Proof.
  unfold env_Append, env_Flush, opened_file, contains. split.
  - intros [w e] d (He & Hw & Hg). cbn [fst snd] in *. destruct (WAppend w d e) as [ok e'] eqn:Ea. destruct (WAppend_law _ _ _ _ _ _ He Hw Ea) as (He' & Hw' & Hg' & _).
    split_and!; try done. cbn. intros g Hne. by rewrite Hg', Hg.
  - intros [w e] d c (He & Hw & Hg). cbn [fst snd] in *. destruct (WAppend w d e) as [ok e'] eqn:Ea. destruct (WAppend_law _ _ _ _ _ _ He Hw Ea) as (_ & _ & _ & Hc). by cbn; auto.
  - intros [w e] d Hrel (He & Hw & Hg). cbn [fst snd] in *. pose proof (ew_append fname Hrel w d e He Hw). by destruct (WAppend w d e).
  - intros [w e] (He & Hw & Hg). cbn [fst snd] in *. destruct (WFlush w e) as [ok e'] eqn:Ea. destruct (WFlush_law _ _ _ _ _ He Hw Ea) as (He' & Hw' & Hg').
    split_and!; try done. cbn. intros g Hne. by rewrite Hg', Hg.
  - intros [w e] c (He & Hw & Hg). cbn [fst snd] in *. destruct (WFlush w e) as [ok e'] eqn:Ea. destruct (WFlush_law _ _ _ _ _ He Hw Ea) as (_ & _ & Hg'). cbn. by rewrite Hg'.
  - intros [w e] Hrel (He & Hw & Hg). cbn [fst snd] in *. pose proof (ew_flush fname Hrel w e He Hw). by destruct (WFlush w e).
Qed.

Abbreviation env_follows fname e0 := (follows (opened_file fname e0) (contains fname) (env_works fname)).

Lemma new_follows fname e w e1 opt :
  env_ok e → NewWritableFile fname e = (Some w, e1) → env_follows fname e (NewTableBuilder opt (w, e1)) (NewTableBuilder opt []).
Proof.
  intros He En. destruct (NewWritableFile_law _ _ _ _ He En) as (He1 & Hg & Hw). destruct (Hw w eq_refl) as [Hw1 Hc].
  assert (∀ (F : Type) (f : F), status (NewTableBuilder opt f) = true ∧ file (NewTableBuilder opt f) = f) as Hnew.
  { intros F f. unfold NewTableBuilder, with_filter. cbn. by destruct (filter_policy opt) as [[]|]. }
  destruct (Hnew _ (w, e1)) as [Hs Hf]. split_and!; [rewrite Hf; by split_and!| |done]. rewrite Hf. intros _. exists []. split; [|done].
  unfold NewTableBuilder. rewrite <- retype_filter. done.
Qed.

(** An error stays. *)
Lemma Finish_status (r : Rep (W * E)) : status r = false → status (Finish env_Append env_Flush r) = false.
Proof.
  intros Hs. unfold Finish, TableBuilder.Flush. rewrite Hs. cbn [negb]. assert (status (set_closed r) = false) as Hc by done. revert Hc. generalize (set_closed r). clear r Hs. intros r Hs.
  rewrite Hs. assert (∀ (X : Type) (a : X), match filter_policy (TableBuilder.options r), filter_block r with Some (_, _), Some _ => a | _, _ => a end = a) as Hm.
  { intros. by destruct (filter_policy (TableBuilder.options r)) as [[]|], (filter_block r). }
  rewrite Hm. by rewrite !Hs.
Qed.

(** Closing a table: its file is what the builder in memory makes. *)
Lemma CloseTable_ok fname e0 meta r m s meta' e' :
  env_follows fname e0 r m → CloseTable meta r = (s, meta', e') →
  env_ok e' ∧ (∀ g, g ≠ fname → file_of e' g = file_of e0 g) ∧
  (s = true → let b := Finish mem_Append mem_Flush m in
    file_of e' fname = Some (file b) ∧ meta' = set_built (FileSize b) (NumEntries b) meta ∧ status r = true) ∧ (env_works fname → s = true) ∧
  ((∀ w e, env_ok e → writes e w fname → (WSync w e).1 = false) → s = false).
Proof.
  intros H. pose proof (Finish_status r) as Hfs. apply (Finish_follows env_Append env_Flush _ _ _ (env_file_laws fname e0)) in H. unfold CloseTable. revert H Hfs.
  generalize (Finish env_Append env_Flush r) as r1, (Finish mem_Append mem_Flush m) as m1. intros r1 m1 (Hi & Hm & Hw) Hfs. destruct (file r1) as [w e] eqn:Ef. destruct Hi as (He & Hwr & Hg).
  cbn [fst snd] in *. set (meta1 := if status r1 then set_built _ _ _ else _).
  destruct (if status r1 then WSync w e else (status r1, e)) as [s1 e1] eqn:E1.
  assert (env_ok e1 ∧ writes e1 w fname ∧ (∀ g, file_of e1 g = file_of e g) ∧ (s1 = true → status r1 = true) ∧ (env_works fname → s1 = true) ∧
    ((∀ w e, env_ok e → writes e w fname → (WSync w e).1 = false) → s1 = false)) as (He1 & Hw1 & Hg1 & Hs1 & Hr1 & Hb1).
  { destruct (status r1) eqn:Es; [|injection E1 as <- <-; by split_and!]. destruct (WSync_law _ _ _ _ _ He Hwr E1) as (? & ? & ?). split_and!; try done.
    - intros Hrel. pose proof (ew_sync fname Hrel w e He Hwr) as Hx. by rewrite E1 in Hx.
    - intros Hf. pose proof (Hf w e He Hwr) as Hx. by rewrite E1 in Hx. }
  destruct (if s1 then WClose w e1 else (s1, e1)) as [s2 e2] eqn:E2.
  assert (env_ok e2 ∧ writes e2 w fname ∧ (∀ g, file_of e2 g = file_of e1 g) ∧ (s2 = true → s1 = true) ∧ (env_works fname → s2 = true)) as (He2 & Hw2 & Hg2 & Hs2 & Hr2).
  { destruct s1; [|injection E2 as <- <-; by split_and!]. destruct (WClose_law _ _ _ _ _ He1 Hw1 E2) as (? & ? & ?). split_and!; try done.
    intros Hrel. pose proof (ew_close fname Hrel w e1 He1 Hw1) as Hx. by rewrite E2 in Hx. }
  intros [= <- <- <-]. destruct (DeleteW_law w fname e2 He2 Hw2) as [He3 Hg3]. split; [done|]. split; [intros g Hne; by rewrite Hg3, Hg2, Hg1, Hg|].
  split; [|split; [done|intros Hf; destruct s2; [by specialize (Hb1 Hf); rewrite (Hs2 eq_refl) in Hb1|done]]].
  intros ->. destruct (Hm (Hs1 (Hs2 eq_refl))) as (f & -> & Hc). unfold contains in Hc. cbn [snd] in Hc. split; [by rewrite Hg3, Hg2, Hg1|]. unfold meta1. rewrite (Hs1 (Hs2 eq_refl)) in Hfs |- *. split; [done|].
  destruct (status r); [done|by discriminate Hfs].
Qed.

(** Keeping or deleting it. *)
Lemma KeepTable_ok fname s size e :
  env_ok e → env_ok (KeepTable s size fname e) ∧ (∀ g, g ≠ fname → file_of (KeepTable s size fname e) g = file_of e g) ∧
    (s = true → 0 < size → file_of (KeepTable s size fname e) fname = file_of e fname) ∧ (s = false → deletes → file_of (KeepTable s size fname e) fname = None).
Proof.
  intros He. destruct (DeleteFile_ok fname e He) as (He' & Hg & _ & Hd). unfold KeepTable. destruct s; cbn [andb].
  - destruct (Z.gtb_spec size 0); split_and!; try done; intros; lia.
  - by split_and!.
Qed.

End env_file.

(** ** Lemmas: the loops *)

Section loops.

Context `{SN : !Snappy} {E W R : Type} {EN : Env E W R} {EL : EnvLaws E W R EN}.
Context {T : Type} {IT : Iterator T} {idom : bytes → Prop} {c : Comparator} {at_pos : list entry → T → option nat → Prop} {HI : IteratorLaws T idom c at_pos}.

(** From the first entry to the end of a lawful iterator. *)
Lemma first_at es it pos :
  at_pos es it pos → ∃ it', SeekToFirst it = Some it' ∧ at_pos es it' (match es with [] => None | _ => Some 0%nat end).
Proof. intros Ha. apply (it_move es it pos Cursor.SeekToFirst _ Ha); [by constructor|]. by destruct es. Qed.

Lemma next_at es it i e es2 :
  at_pos es it (Some i) → drop i es = e :: es2 → Valid it = true ∧ e = (key it, value it) ∧
  ∃ it', Next it = Some it' ∧ at_pos es it' (match es2 with [] => None | _ => Some (S i) end) ∧ drop (S i) es = es2.
Proof.
  intros Ha Hd. assert (es !! i = Some e) as Hi by (rewrite <- (Nat.add_0_r i), <- lookup_drop, Hd; done).
  split; [by apply (it_is_valid es it i)|]. split; [pose proof (it_entry _ _ _ Ha); congruence|].
  assert (drop (S i) es = es2) as Hd2 by (replace (S i) with (i + 1)%nat by lia; rewrite <- drop_drop, Hd; done).
  destruct (it_move es it (Some i) Cursor.Next (match es2 with [] => None | _ => Some (S i) end) Ha) as (it' & Hm & Ha'); [by constructor| |by exists it'].
  cbn [Cursor.step]. apply (f_equal length) in Hd. rewrite length_drop in Hd. cbn in Hd. f_equal.
  destruct es2; cbn in Hd; [rewrite (proj2 (Nat.ltb_ge _ _)) by lia|rewrite (proj2 (Nat.ltb_lt _ _)) by lia]; done.
Qed.

Abbreviation env_follows fname e0 := (follows (opened_file fname e0) (contains fname) (env_works fname)).

Lemma Build_loop_ok es fname e0 rest : ∀ fuel it i r m l,
  at_pos es it (match rest with [] => None | _ => Some i end) → drop i es = rest → (length rest ≤ fuel)%nat → env_follows fname e0 r m →
  ∃ it' r', Build_loop fuel it r l = Some (it', r', default l (fst <$> last rest)) ∧ at_pos es it' None ∧ env_follows fname e0 r' (AddAll mem_Append mem_Flush rest m).
Proof.
  induction rest as [|e rest IH]; intros fuel it i r m l Ha Hd Hf Hr.
  - exists it, r. split; [|done]. destruct fuel; cbn [Build_loop]; by rewrite (it_not_valid es it Ha).
  - destruct fuel as [|fuel]; [cbn in Hf; lia|]. destruct (next_at es it i e rest Ha Hd) as (Hv & -> & it1 & Hn & Ha1 & Hd1). cbn [Build_loop]. rewrite Hv, Hn. cbn [mbind option_bind].
    destruct (IH fuel it1 (S i) (Add env_Append env_Flush (key it) (value it) r) (Add mem_Append mem_Flush (key it) (value it) m) (key it) Ha1 Hd1) as (it' & r' & -> & Ha' & Hr').
    { cbn in Hf. lia. }
    { by apply (Add_follows env_Append env_Flush _ _ _ (env_file_laws fname e0)). }
    exists it', r'. split; [|done]. do 2 f_equal. destruct rest as [|y rest]; [done|]. change (last (?x :: y :: rest)) with (last (y :: rest)).
    destruct (last (y :: rest)) eqn:El; [done|]. by apply last_None in El.
Qed.

(** What the loop of [BuildDuTable] gathers in mode 10. *)
Definition gathered (e : entry) : VEntry := {| ve_key := ConstructVKey e.1 e.2; ve_value := e.2; ve_file := 0; ve_block := 0; ve_offset := 0 |}.

Lemma Gather_loop_ok es rest : ∀ fuel it i kvs,
  at_pos es it (match rest with [] => None | _ => Some i end) → drop i es = rest → (length rest ≤ fuel)%nat → Forall (λ e, 8 ≤ len e.2) rest →
  ∃ it', Gather_loop 10 fuel it kvs = Some (it', kvs ++ (gathered <$> rest)) ∧ at_pos es it' None.
Proof.
  induction rest as [|e rest IH]; intros fuel it i kvs Ha Hd Hf Hlen.
  - exists it. split; [|done]. cbn. rewrite app_nil_r. destruct fuel; cbn [Gather_loop]; by rewrite (it_not_valid es it Ha).
  - destruct fuel as [|fuel]; [cbn in Hf; lia|]. apply Forall_cons in Hlen as [Hl Hlen]. destruct (next_at es it i e rest Ha Hd) as (Hv & -> & it1 & Hn & Ha1 & Hd1). cbn [Gather_loop fst snd] in *.
    rewrite Hv, Hn, (proj2 (Z.ltb_ge _ _)) by done. cbn [mbind option_bind].
    destruct (IH fuel it1 (S i) (kvs ++ [gathered (key it, value it)]) Ha1 Hd1) as (it' & E0 & Ha'); [cbn in Hf; lia|done|].
    exists it'. split; [|done]. etransitivity; [exact E0|]. by rewrite <- app_assoc.
Qed.

(** A value too short for a sort key. *)
Lemma Gather_loop_short es it i rest fuel kvs :
  at_pos es it (match rest with [] => None | _ => Some i end) → drop i es = rest → Exists (λ e, len e.2 < 8) rest → Gather_loop 10 fuel it kvs = None.
Proof.
  revert it i fuel kvs. induction rest as [|e rest IH]; intros it i fuel kvs Ha Hd Hx; [by apply Exists_nil in Hx|].
  destruct (next_at es it i e rest Ha Hd) as (Hv & -> & it1 & Hn & Ha1 & Hd1). destruct fuel as [|fuel]; cbn [Gather_loop]; rewrite Hv; [done|].
  change (Z.eqb 10 10) with true. cbn [snd fst] in *. destruct (Z.ltb_spec (len (value it)) 8) as [Hs|Hs]; [done|]. cbn [mbind option_bind]. rewrite Hn. cbn [mbind option_bind].
  apply (IH it1 (S i)); [done|done|]. apply Exists_cons in Hx as [Hx|Hx]; [cbn in Hx; lia|done].
Qed.

(** The key and the value of an entry. *)
Definition kv (x : VEntry) : entry := (ve_key x, ve_value x).

(** An address read off the builder before the entry was added. *)
Definition addressed (opt : Options) (vnumber : Z) (ves : entries) (x : VEntry) : Prop :=
  ∃ l1 l2, ves = l1 ++ kv x :: l2 ∧ ve_file x = u32 vnumber ∧ ve_block x = BlockNumber (builder_after SN opt l1) ∧ ve_offset x = BlockOffset (builder_after SN opt l1).

Lemma AddValues_status vnumber kvs (r : Rep (W * E)) : status r = false → status (AddValues vnumber kvs r).2 = false.
Proof.
  revert r. induction kvs as [|x kvs IH]; intros r Hs; [done|]. cbn [AddValues]. unfold Add. rewrite Hs. cbn [negb].
  pose proof (IH r Hs). by destruct (AddValues vnumber kvs r).
Qed.

Lemma AddValues_ok fname e0 opt vnumber kvs : ∀ r l1,
  env_follows fname e0 r (builder_after SN opt l1) →
  let '(kvs', r') := AddValues vnumber kvs r in
  env_follows fname e0 r' (builder_after SN opt (l1 ++ (kv <$> kvs))) ∧ kv <$> kvs' = kv <$> kvs ∧
  (status r' = true → Forall (addressed opt vnumber (l1 ++ (kv <$> kvs))) kvs').
Proof.
  induction kvs as [|x kvs IH]; intros r l1 Hr; cbn [AddValues fmap list_fmap]; [rewrite app_nil_r; by split_and!|].
  assert (env_follows fname e0 (Add env_Append env_Flush (ve_key x) (ve_value x) r) (builder_after SN opt (l1 ++ [kv x]))) as Hr1.
  { unfold builder_after, AddAll. rewrite foldl_app. cbn [foldl]. by apply (Add_follows env_Append env_Flush _ _ _ (env_file_laws fname e0)). }
  cbn [ve_key ve_value]. pose proof (IH _ _ Hr1) as H. pose proof (AddValues_status vnumber kvs (Add env_Append env_Flush (ve_key x) (ve_value x) r)) as Hst.
  destruct (AddValues vnumber kvs _) as [kvs' r']. rewrite <- app_assoc in H. destruct H as (H1 & H2 & H3). split; [done|]. cbn [fmap list_fmap]. split; [by f_equal|].
  intros Hs. constructor; [|by apply H3]. exists l1, (kv <$> kvs). split; [done|]. cbn. split; [done|].
  assert (status r = true) as Hs0.
  { destruct (status r) eqn:E0; [done|]. assert (status r' = false) as Hx; [|congruence]. apply Hst. unfold Add. by rewrite E0. }
  destruct Hr as (_ & Hm & _). destruct (Hm Hs0) as (f & -> & _). done.
Qed.

Lemma AddAddresses_ok fname e0 kvs (r : Rep (W * E)) m :
  env_follows fname e0 r m → env_follows fname e0 (AddAddresses 10 kvs r) (AddAll mem_Append mem_Flush ((λ x, (strip 10 (ve_key x), EncodeAddress x)) <$> kvs) m).
Proof.
  revert r m. induction kvs as [|x kvs IH]; intros r m H; [done|]. cbn [AddAddresses foldl fmap list_fmap AddAll]. apply IH.
  by apply (Add_follows env_Append env_Flush _ _ _ (env_file_laws fname e0)).
Qed.

End loops.

(** ** Lemmas: the orders of the two tables *)

Lemma KCompare_unfold a b :
  KCompare a b = (andThen (lex (first (len a - 16) a) (first (len b - 16) b)) (zcmp (DecodeFixed64 (skip (len b - 16) b)) (DecodeFixed64 (skip (len a - 16) a))) <? 0).
Proof.
  unfold KCompare. rewrite compare_lex. unfold andThen, zcmp. rewrite !Z.gtb_ltb. destruct (Z.eqb_spec (lex (first (len a - 16) a) (first (len b - 16) b)) 0) as [-> |]; [|done].
  destruct (Z.ltb_spec (DecodeFixed64 (skip (len b - 16) b)) (DecodeFixed64 (skip (len a - 16) a))), (Z.ltb_spec (DecodeFixed64 (skip (len a - 16) a)) (DecodeFixed64 (skip (len b - 16) b))); lia || done.
Qed.

Lemma k_le_unfold a b :
  k_le a b ↔ andThen (lex (first (len (ve_key a) - 16) (ve_key a)) (first (len (ve_key b) - 16) (ve_key b)))
    (zcmp (DecodeFixed64 (skip (len (ve_key b) - 16) (ve_key b))) (DecodeFixed64 (skip (len (ve_key a) - 16) (ve_key a)))) ≤ 0.
Proof. unfold k_le. rewrite KCompare_unfold, Z.ltb_ge. rewrite (lex_opp (first _ (ve_key a))). three_way; lia. Qed.

#[local] Instance k_le_total : Total k_le.
Proof. intros a b. rewrite !k_le_unfold. rewrite (lex_opp (first _ (ve_key a))). three_way; lia. Qed.

#[local] Instance k_le_trans : Transitive k_le.
Proof.
  intros a b d. rewrite !k_le_unfold. intros H1 H2. refine (proj1 (transits_andThen _ _ _ _ _ _ _ _ H1 H2)); [unfold transits; apply lex_trans|].
  unfold transits. three_way; lia.
Qed.

#[local] Instance v_le_total : Total v_le.
Proof. intros a b. apply (vkey_le_total (kv a) (kv b)). Qed.

#[local] Instance v_le_trans : Transitive v_le.
Proof. intros a b d. apply (vkey_le_trans (kv a) (kv b) (kv d)). Qed.

Lemma sorted_kv (R : entry → entry → Prop) (S : VEntry → VEntry → Prop) l :
  (∀ a b, S a b → R (kv a) (kv b)) → StronglySorted S l → StronglySorted R (kv <$> l).
Proof. intros HR. induction 1 as [|x l H IH Hx]; [constructor|]. constructor; [done|]. apply Forall_fmap. eapply Forall_impl; [exact Hx|]. intros y. apply HR. Qed.

(** The value table's entry of an entry of the memtable. *)
Definition ventry (e : entry) : entry := (ConstructVKey e.1 e.2, e.2).

(** What mode 10 asks of the entries of a memtable. *)
Definition du_entry (e : entry) : Prop := ikey_ok bytes_ok e.1 ∧ bytes_ok e.2 ∧ 8 ≤ len e.2.

Lemma strip_ventry e : du_entry e → strip 10 (ventry e).1 = e.1.
Proof.
  intros (_ & _ & Hl). cbn [ventry fst]. unfold strip, ConstructVKey. cbn [Z.eqb orb]. apply first_app. rewrite len_app, len_first by lia. lia.
Qed.

Lemma ventry_ok e : du_entry e → vkey_ok (ventry e).1.
Proof.
  intros ((Hb & Hk & _) & Hv & Hl). split; cbn [ventry fst]; unfold ConstructVKey; [apply Forall_app_2; [done|by apply bytes_ok_first]|]. rewrite len_app, len_first by lia. lia.
Qed.

Lemma KCompare_ventry a b : du_entry a → du_entry b →
  KCompare (ventry a).1 (ventry b).1 = (InternalKeyComparator.Compare Bytewise.comparator a.1 b.1 <? 0).
Proof. intros Ha Hb. rewrite KCompare_is_internal_order by (by apply ventry_ok). f_equal. f_equal; [apply (strip_ventry a Ha)|apply (strip_ventry b Hb)]. Qed.

Abbreviation icmp := (InternalKeyComparator.comparator Bytewise.comparator).

(** Sorted back, the entries are in the order of the memtable. *)
Lemma key_order es L :
  keys_sorted icmp es → Forall du_entry es → kv <$> L ≡ₚ ventry <$> es → kv <$> merge_sort k_le L = ventry <$> es.
Proof.
  intros Hs Hd Hp. rewrite Forall_forall in Hd.
  apply (StronglySorted_unique_strong (λ a b, KCompare b.1 a.1 = false)).
  - intros x y Hx Hy H1 H2. rewrite merge_sort_Permutation, Hp in Hx. apply list_elem_of_fmap in Hx as (a & -> & Ha). apply list_elem_of_fmap in Hy as (b & -> & Hb).
    f_equal. rewrite KCompare_ventry in H1, H2 by auto. apply Z.ltb_ge in H1, H2.
    apply list_elem_of_lookup in Ha as [i Hi], Hb as [j Hj]. destruct (lt_eq_lt_dec i j) as [[Hlt|E]|Hlt]; [|congruence|].
    + pose proof (keys_sorted_lookup _ _ _ _ _ _ Hs Hlt Hi Hj). cbn in *. lia.
    + pose proof (keys_sorted_lookup _ _ _ _ _ _ Hs Hlt Hj Hi). cbn in *. lia.
  - apply (sorted_kv _ k_le); [done|]. apply (StronglySorted_merge_sort k_le).
  - clear Hp. induction Hs as [|a es Hs IH Ha]; [constructor|]. cbn [fmap list_fmap]. constructor; [apply IH; intros x Hx; apply Hd; by right|]. apply Forall_fmap.
    rewrite Forall_forall in Ha |- *. intros b Hb. change (KCompare (ventry b).1 (ventry a).1 = false). rewrite KCompare_ventry by (apply Hd; (by left) || by right). apply Z.ltb_ge. specialize (Ha b Hb). cbn in Ha.
    pose proof (cmp_anti (c := icmp) a.1 b.1 (proj1 (Hd a ltac:(by left))) (proj1 (Hd b ltac:(by right)))). cbn in *. lia.
  - by rewrite merge_sort_Permutation.
Qed.

(** The value table is in the order of the value keys. *)
Lemma value_order es L :
  keys_sorted icmp es → Forall du_entry es → kv <$> L = ventry <$> es →
  kv <$> merge_sort v_le L ≡ₚ ventry <$> es ∧ keys_sorted VKey.comparator (kv <$> merge_sort v_le L).
Proof.
  intros Hs Hd HL. assert (kv <$> merge_sort v_le L ≡ₚ ventry <$> es) as Hp by (by rewrite merge_sort_Permutation, HL). split; [done|]. apply strictly_sorted.
  - rewrite Hp. apply Forall_fmap. eapply Forall_impl; [exact Hd|]. intros e. apply ventry_ok.
  - rewrite (fmap_Permutation fst _ _ Hp). apply NoDup_alt. intros i j k Hi Hj. rewrite !list_lookup_fmap in Hi, Hj.
    destruct (es !! i) as [a|] eqn:Ha, (es !! j) as [b|] eqn:Hb; try done.
    assert ((ventry a).1 = (ventry b).1) as Ev by (cbn in Hi, Hj |- *; congruence).
    rewrite Forall_forall in Hd. assert (a.1 = b.1) as Eab.
    { rewrite <- (strip_ventry a), <- (strip_ventry b) by (apply Hd; by eapply list_elem_of_lookup_2). by rewrite Ev. }
    assert (Compare icmp a.1 b.1 = 0 ∧ Compare icmp b.1 a.1 = 0) as [E1 E2].
    { assert (ikey_ok bytes_ok a.1) by (apply Hd; by eapply list_elem_of_lookup_2). rewrite <- Eab. split; by apply (cmp_eq (c := icmp)). }
    destruct (lt_eq_lt_dec i j) as [[Hlt|E]|Hlt]; [|done|].
    + pose proof (keys_sorted_lookup _ _ _ _ _ _ Hs Hlt Ha Hb). lia.
    + pose proof (keys_sorted_lookup _ _ _ _ _ _ Hs Hlt Hb Ha). lia.
  - apply (sorted_kv _ v_le); [done|]. apply (StronglySorted_merge_sort v_le).
Qed.

(** ** Lemmas: the tables *)

(** The entries of the value table. *)
Definition value_entries (es : entries) : entries := kv <$> merge_sort v_le (gathered <$> es).

(** The address that mode 10 stores for an entry: the builder's position before
    the entry of that value key was added. *)
Definition address_in `{SN : !Snappy} (opt : Options) (vnumber : Z) (ves : entries) (e : entry) : bytes :=
  let b := builder_after SN opt (take (default 0%nat (fst <$> list_find (λ x, x.1 = (ventry e).1) ves)) ves) in
  EncodeFixed32 (u32 vnumber) ++ EncodeFixed32 (BlockNumber b) ++ EncodeFixed32 (BlockOffset b).

(** The entries of the key table. *)
Definition key_entries `{SN : !Snappy} (opt : Options) (vnumber : Z) (es : entries) : entries :=
  (λ e, (e.1, address_in opt vnumber (value_entries es) e)) <$> es.

Lemma kv_gathered (es : entries) : kv <$> (gathered <$> es) = ventry <$> es.
Proof. rewrite <- list_fmap_compose. done. Qed.

Lemma merge_sort_nonempty {A} (R : relation A) `{!RelDecision R} (l : list A) : l ≠ [] → merge_sort R l ≠ [].
Proof. intros Hl E. apply Hl, Permutation_nil_r. by rewrite <- E, merge_sort_Permutation. Qed.

Lemma head_last {A} (l : list A) : l ≠ [] → ∃ a b, head l = Some a ∧ last l = Some b.
Proof. destruct l as [|a l]; [done|]. intros _. destruct (last (a :: l)) as [b|] eqn:E; [by exists a, b|]. by apply last_None in E. Qed.

Lemma head_map {A B} (f : A → B) (l : list A) : head (f <$> l) = f <$> head l.
Proof. by destruct l. Qed.

(** The place of a key in a sorted list. *)
Lemma find_key l1 k v l2 :
  Forall (λ e, vkey_ok e.1) (l1 ++ (k, v) :: l2) → keys_sorted VKey.comparator (l1 ++ (k, v) :: l2) →
  fst <$> list_find (λ x : entry, x.1 = k) (l1 ++ (k, v) :: l2) = Some (length l1).
Proof.
  intros Hok Hs. assert (list_find (λ x : entry, x.1 = k) (l1 ++ (k, v) :: l2) = Some (length l1, (k, v))) as ->; [|done].
  apply list_find_Some. split; [by apply list_lookup_middle|]. split; [done|]. intros j y Hj Hlt.
  rewrite lookup_app_l in Hj by done. intros <-. apply list_elem_of_lookup_2 in Hj.
  pose proof (StronglySorted_app_1_elem_of _ _ _ y (y.1, v) Hs Hj ltac:(by left)) as Hc. cbn in Hc.
  apply Forall_app in Hok as [Hok _]. rewrite Forall_forall in Hok. specialize (Hok y Hj).
  pose proof (proj2 (cmp_eq (c := VKey.comparator) y.1 y.1 Hok Hok) eq_refl) as Hr. cbn in Hr. lia.
Qed.

Section tables.

Context `{SN : !Snappy} {E W R : Type} {EN : Env E W R} {EL : EnvLaws E W R EN} {C : Type}.
Context (usable : Z → Z → C → E → option (bool * C)) (Hus : ∀ n size c e, is_Some (usable n size c e)).
Context (dbname : bytes) (opt : Options).

(** Nothing fails with the file, and the new table is usable. *)
Definition works (fname : bytes) : Prop := env_works fname ∧ ∀ n size c e, fst <$> usable n size c e = Some true.

Abbreviation vopt := (vopts 10 opt).

Lemma BuildValues_ok vmeta kvs vfname e w e1 :
  env_ok e → NewWritableFile vfname e = (Some w, e1) → kvs ≠ [] →
  let ves := kv <$> merge_sort v_le kvs in
  ∃ s kvs' vmeta' e2, BuildValues 10 opt vmeta kvs w e1 = Some (s, kvs', vmeta', e2) ∧ env_ok e2 ∧ (∀ g, g ≠ vfname → file_of e2 g = file_of e g) ∧ kv <$> kvs' = ves ∧
    (s = true → file_of e2 vfname = Some (file (build_table SN vopt ves)) ∧ file_size vmeta' = FileSize (build_table SN vopt ves) ∧ Forall (addressed vopt (number vmeta) ves) kvs') ∧
    (env_works vfname → s = true) ∧ ((∀ w e, env_ok e → writes e w vfname → (WSync w e).1 = false) → s = false).
Proof.
  intros He Hnew Hne. unfold BuildValues. change (sorted_mode 10) with true. cbn match. set (L := merge_sort v_le kvs).
  assert (L ≠ []) as HL by (by apply merge_sort_nonempty).
  unfold KeyRange. change (sorted_mode 10) with true. cbn match. destruct (head_last L HL) as (x & y & Ex & Ey). rewrite Ex, Ey. cbn [mbind option_bind]. set (vm := set_keys _ _ vmeta).
  pose proof (AddValues_ok vfname e vopt (number vm) L _ [] (new_follows vfname e w e1 vopt He Hnew)) as H. destruct (AddValues (number vm) L _) as [kvs' vb]. destruct H as (Hf & Hkv & Hadr).
  destruct (CloseTable vm vb) as [[s vmeta'] e2] eqn:Ec. destruct (CloseTable_ok vfname e vm vb _ s vmeta' e2 Hf Ec) as (He2 & Hg & Hs & Hw & Hbad). cbn [app] in *.
  exists s, kvs', vmeta', e2. split_and!; try done. intros ->. destruct (Hs eq_refl) as (Hc & -> & Hst). split; [exact Hc|]. split; [done|]. by apply Hadr.
Qed.

(** The check of the new table. *)
Lemma usable_step s n size c e fname :
  (env_works fname → s = true) →
  ∃ s' c', (if s then usable n size c e else Some (s, c)) = Some (s', c') ∧ (s' = true → s = true) ∧ (works fname → s' = true).
Proof.
  intros Hw. destruct s; [|eexists _, _; split; [done|]; split; [done|]; intros [Hx _]; by apply Hw]. destruct (Hus n size c e) as [[b c'] Hb]. exists b, c'. split; [done|]. split; [done|].
  intros [_ Hx]. specialize (Hx n size c e). rewrite Hb in Hx. by injection Hx.
Qed.

Lemma BuildKeys_ok meta kvs c e :
  env_ok e → kvs ≠ [] → let fname := TableFileName dbname (number meta) in
  let kes := (λ x, (strip 10 (ve_key x), EncodeAddress x)) <$> merge_sort k_le kvs in
  ∃ s meta' c' e', BuildKeys usable 10 dbname opt meta kvs c e = Some (s, meta', c', e') ∧ env_ok e' ∧ (∀ g, g ≠ fname → file_of e' g = file_of e g) ∧
    (s = true → 0 < FileSize (build_table SN opt kes) → file_of e' fname = Some (file (build_table SN opt kes)) ∧ file_size meta' = FileSize (build_table SN opt kes) ∧
       Some (smallest meta') = fst <$> head kes ∧ Some (largest meta') = fst <$> last kes) ∧
    (works fname → s = true).
Proof.
  intros He Hne fname kes. unfold BuildKeys. destruct (NewWritableFile (TableFileName dbname (number meta)) e) as [[w|] e1] eqn:Hnew.
  2:{ destruct (NewWritableFile_law _ _ _ _ He Hnew) as (He1 & Hg & _). eexists _, _, _, _. split; [done|]. split_and!; try done.
      intros [Hw _]. pose proof (ew_new fname Hw e He) as Hx. unfold fname in Hx. rewrite Hnew in Hx. by destruct Hx. }
  change (sorted_mode 10) with true. cbn match. subst kes. set (L := merge_sort k_le kvs).
  assert (L ≠ []) as HL by (by apply merge_sort_nonempty).
  unfold KeyRange. change (sorted_mode 10) with true. cbn match. destruct (head_last L HL) as (x & y & Ex & Ey). rewrite Ex, Ey. cbn [mbind option_bind]. set (m1 := set_keys _ _ meta).
  pose proof (AddAddresses_ok fname e L _ _ (new_follows fname e w e1 opt He Hnew)) as Hf. set (kes := _ <$> L) in *.
  destruct (CloseTable m1 _) as [[s m2] e2] eqn:Ec. destruct (CloseTable_ok fname e m1 _ _ s m2 e2 Hf Ec) as (He2 & Hg & Hs & Hw & _).
  destruct (usable_step s (number m2) (file_size m2) c e2 fname Hw) as (s' & c' & -> & Hs' & Hw').
  cbn [mbind option_bind]. destruct (KeepTable_ok fname s' (file_size m2) e2 He2) as (He3 & Hg3 & Hk3 & _). eexists _, _, _, _. split; [done|]. split; [done|].
  split; [intros g Hgn; by rewrite Hg3, Hg|]. split; [|done]. intros Hst Hsize. destruct (Hs (Hs' Hst)) as (Hc & -> & _). split; [etransitivity; [exact (Hk3 Hst Hsize)|exact Hc]|]. split; [done|].
  unfold kes. rewrite fmap_last, Ey. rewrite head_map, Ex. by split.
Qed.

End tables.

Lemma build_size `{SN : !Snappy} opt es :
  Forall entry_ok es → len (file (build_table SN opt es)) < 2 ^ 64 → FileSize (build_table SN opt es) = len (file (build_table SN opt es)) ∧ 0 < len (file (build_table SN opt es)).
Proof.
  intros Hok Hl. destruct (build_table_blocks SN opt es Hok) as (bs & _ & _ & _ & _ & Ef & -> & _). rewrite Ef in *.
  assert (0 < len (table_file opt bs)) as Hp.
  { unfold table_file. rewrite !len_app, (len_stored opt (index_contents opt bs)). pose proof (len_nonneg (TableBuilder.file_of opt bs)). pose proof (len_nonneg (filter_part opt bs)).
    pose proof (len_nonneg (stored opt (meta_block opt bs))). pose proof (len_nonneg (CompressBlock (compression opt) (index_contents opt bs)).1). pose proof (len_nonneg (Footer_EncodeTo [] (footer_of opt bs))). lia. }
  split; [|done]. apply u64_id. unfold u64_ok. lia.
Qed.

Section keys.

Context `{SN : !Snappy} (opt : Options) (vnumber : Z).

Lemma EncodeAddress_ok ves x e :
  Forall (λ e, vkey_ok e.1) ves → keys_sorted VKey.comparator ves → kv x = ventry e → addressed opt vnumber ves x → EncodeAddress x = address_in opt vnumber ves e.
Proof.
  intros Hok Hs Hx (l1 & l2 & -> & Hf & Hb & Ho). unfold EncodeAddress, address_in. rewrite Hf, Hb, Ho, <- Hx. clear Hx. unfold kv in Hok, Hs |- *. cbn [fst]. rewrite find_key by done. cbn [from_option id]. by rewrite take_app_length.
Qed.

(** What the key table holds. *)
Lemma key_entries_ok es kvs :
  keys_sorted icmp es → Forall du_entry es → kv <$> kvs = value_entries es → Forall (addressed opt vnumber (value_entries es)) kvs →
  (λ x, (strip 10 (ve_key x), EncodeAddress x)) <$> merge_sort k_le kvs = key_entries opt vnumber es.
Proof.
  intros Hs Hd Hkv Hadr. destruct (value_order es (gathered <$> es) Hs Hd (kv_gathered es)) as [Hp Hvs]. fold (value_entries es) in Hp, Hvs.
  assert (Forall (λ e, vkey_ok e.1) (value_entries es)) as Hok by (rewrite Hp; apply Forall_fmap; eapply Forall_impl; [exact Hd|]; intros e; apply ventry_ok).
  assert (kv <$> merge_sort k_le kvs = ventry <$> es) as Hks by (apply key_order; [done|done|by rewrite Hkv]).
  rewrite <- (merge_sort_Permutation k_le kvs) in Hadr. revert Hks Hadr. generalize (merge_sort k_le kvs) as l. unfold key_entries. clear Hkv Hs Hp.
  generalize (value_entries es) as ves, Hvs, Hok. clear Hvs Hok. intros ves Hvs Hok l. revert l. induction Hd as [|e es He Hd IH]; intros [|x l] Hks Hadr; try done.
  cbn [fmap list_fmap] in *. injection Hks as Hk Hv Hks. apply Forall_cons in Hadr as [Hx Hadr]. f_equal; [|by apply IH].
  f_equal; [rewrite Hk; exact (strip_ventry e He)|]. apply EncodeAddress_ok; try done. unfold kv, ventry. congruence.
Qed.

(** The address of an entry leads to its value in the value table. *)
Lemma key_entries_addresses es e :
  keys_sorted icmp es → Forall du_entry es → e ∈ es →
  ∃ l1 l2, value_entries es = l1 ++ ventry e :: l2 ∧
    address_in opt vnumber (value_entries es) e = EncodeFixed32 (u32 vnumber) ++ EncodeFixed32 (BlockNumber (builder_after SN opt l1)) ++ EncodeFixed32 (BlockOffset (builder_after SN opt l1)).
Proof.
  intros Hs Hd Hin. destruct (value_order es (gathered <$> es) Hs Hd (kv_gathered es)) as [Hp Hvs]. fold (value_entries es) in Hp, Hvs.
  assert (Forall (λ e, vkey_ok e.1) (value_entries es)) as Hok by (rewrite Hp; apply Forall_fmap; eapply Forall_impl; [exact Hd|]; intros x; apply ventry_ok).
  assert (ventry e ∈ value_entries es) as Hx by (rewrite Hp; by apply list_elem_of_fmap_2). apply list_elem_of_split in Hx as (l1 & l2 & E). exists l1, l2. split; [done|].
  unfold address_in. rewrite E in Hok, Hvs |- *. unfold ventry in Hok, Hvs |- *. cbn [fst]. rewrite find_key by done. cbn [from_option id]. by rewrite take_app_length.
Qed.

End keys.

Lemma du_names dbname n m : u64_ok n → u64_ok m → TableFileName dbname n ≠ VTableFileName dbname m.
Proof.
  intros Hn Hm E. assert (TableFile n = VTableFile m); [|done]. apply base_name_inj; [done|done|]. apply (app_inv_head (dbname ++ str "/")). rewrite <- !app_assoc.
  by rewrite <- !name_of_base.
Qed.

(** ** Properties *)

Section claims.

Context `{SN : !Snappy} {E W R : Type} {EN : Env E W R} {EL : EnvLaws E W R EN} {C T : Type} {IT : Iterator T} {at_pos : list entry → T → option nat → Prop}.
Context {HI : IteratorLaws T (ikey_ok bytes_ok) icmp at_pos}.
Context (usable : Z → Z → C → E → option (bool * C)) (dbname : bytes) (opt : Options).

(** The table is no longer than its size field can tell. *)
Definition table_fits (o : Options) (es : entries) : Prop := Forall entry_ok es ∧ len (file (build_table SN o es)) < 2 ^ 64.

(** The two tables of the entries [es], and what their metadata say. *)
Definition du_files (es : entries) (fname vfname : bytes) (meta vmeta meta' vmeta' : FileMetaData) (e' : E) : Prop :=
  let vtable := file (build_table SN (vopts 10 opt) (value_entries es)) in
  let table := file (build_table SN opt (key_entries (vopts 10 opt) (number vmeta) es)) in
  file_of e' vfname = Some vtable ∧ file_of e' fname = Some table ∧ file_size vmeta' = len vtable ∧ file_size meta' = len table ∧
  Some (smallest meta') = fst <$> head es ∧ Some (largest meta') = fst <$> last es.

(** C8: a memtable becomes two tables. In mode 10 and over any environment and
    any lawful iterator, [BuildDuTable] ends, for one or more entries whose values
    hold a sort key and that fit a table; it touches no file but its two. If
    nothing fails, it is ok, the value table holds every value under its value
    key, in the order of value keys, and the key table holds, in the order of the
    memtable, the address of each value: the file, and the block and the offset at
    which the builder stood before it added the value. If it is ok although calls
    failed, and the deletion of files works, the two tables are these, or there is
    no value table. *)
Theorem du_table_correct fuel it pos es meta vmeta c e :
  (∀ n size c e, is_Some (usable n size c e)) → env_ok e → at_pos es it pos → es ≠ [] → (length es ≤ fuel)%nat → Forall du_entry es →
  u64_ok (number meta) → u64_ok (number vmeta) →
  let vopt := vopts 10 opt in
  let ves := value_entries es in
  let kes := key_entries vopt (number vmeta) es in
  let fname := TableFileName dbname (number meta) in
  let vfname := VTableFileName dbname (number vmeta) in
  table_fits vopt ves → table_fits opt kes →
  ves ≡ₚ ventry <$> es ∧ keys_sorted VKey.comparator ves ∧
  (∀ k v, (k, v) ∈ es → ∃ l1 l2 b, ves = l1 ++ (ConstructVKey k v, v) :: l2 ∧ b = builder_after SN vopt l1 ∧
     (k, EncodeFixed32 (u32 (number vmeta)) ++ EncodeFixed32 (BlockNumber b) ++ EncodeFixed32 (BlockOffset b)) ∈ kes) ∧
  ∃ s meta' vmeta' c' e', BuildDuTable usable 10 dbname opt fuel it meta vmeta c e = Some (s, meta', vmeta', c', e') ∧ env_ok e' ∧
    (∀ g, g ≠ fname → g ≠ vfname → file_of e' g = file_of e g) ∧
    (s = true → deletes → du_files es fname vfname meta vmeta meta' vmeta' e' ∨ file_of e' vfname = None) ∧
    (works usable fname → env_works vfname → s = true ∧ du_files es fname vfname meta vmeta meta' vmeta' e').
Proof.
  intros Hus He Hat Hne Hfuel Hd Hn Hvn vopt ves kes fname vfname [Hvok Hvl] [Hkok Hkl]. pose proof (it_sorted _ _ _ Hat) as Hs.
  destruct (value_order es (gathered <$> es) Hs Hd (kv_gathered es)) as [Hp Hvs]. split; [exact Hp|]. split; [exact Hvs|]. split.
  { intros k v Hin. destruct (key_entries_addresses vopt (number vmeta) es (k, v) Hs Hd Hin) as (l1 & l2 & El & Ea). exists l1, l2, (builder_after SN vopt l1).
    split; [done|]. split; [done|]. rewrite <- Ea. unfold kes, key_entries. apply (list_elem_of_fmap_2 (λ e, (e.1, _)) es (k, v) Hin). }
  assert (fname ≠ vfname) as Hnames by (by apply du_names).
  destruct (build_size vopt ves Hvok Hvl) as [Evs Hvp]. destruct (build_size opt kes Hkok Hkl) as [Eks Hkp].
  destruct (first_at es it pos Hat) as (it1 & Hfst & Hat1). unfold BuildDuTable. rewrite Hfst. cbn [mbind option_bind]. assert (at_pos es it1 (Some 0%nat)) as Hat0 by (by destruct es).
  rewrite (it_is_valid _ _ _ Hat0). cbn [set_file_size number]. destruct (NewWritableFile (VTableFileName dbname (number vmeta)) e) as [[w|] ea] eqn:Hnew.
  2:{ destruct (NewWritableFile_law _ _ _ _ He Hnew) as (He1 & Hg & _). eexists _, _, _, _, _. split; [done|]. split_and!; try done; [intros g _ Hg'; by apply Hg|].
      intros _ Hw. pose proof (ew_new vfname Hw e He) as Hx. unfold vfname in Hx. rewrite Hnew in Hx. by destruct Hx. }
  destruct (Gather_loop_ok es es fuel it1 0 []) as (it2 & -> & Hat2); [exact Hat1|done|done|eapply Forall_impl; [exact Hd|]; by intros ? (_ & _ & ?)|].
  cbn [app mbind option_bind]. assert (gathered <$> es ≠ []) as Hgn by (by destruct es).
  destruct (BuildValues_ok opt (set_file_size 0 vmeta) (gathered <$> es) vfname e w ea He Hnew Hgn) as (s1 & kvs & vm & eb & -> & Heb & Hgb & Hkv & Hvals & Hw1 & _).
  cbn [mbind option_bind]. rewrite (it_status _ _ _ Hat2), andb_true_r. fold (value_entries es) in Hkv, Hvals.
  destruct (KeepTable_ok vfname s1 (file_size vm) eb Heb) as (Hec & Hgc & Hkc & Hdc). set (ec := KeepTable s1 (file_size vm) _ eb) in *.
  assert (kvs ≠ []) as Hkn by (intros ->; cbn in Hkv; symmetry in Hkv; apply fmap_nil_inv in Hkv; by apply merge_sort_nonempty in Hkv).
  destruct (BuildKeys_ok usable Hus dbname opt (set_file_size 0 meta) kvs c ec Hec Hkn) as (s & meta' & c' & e' & -> & He' & Hg' & Hkeys & Hw2).
  cbn [mbind option_bind]. exists s, meta', vm, c', e'. split; [done|]. split; [done|]. split; [intros g G1 G2; by rewrite Hg', Hgc, Hgb|]. 
  assert (s = true → s1 = true → du_files es fname vfname meta vmeta meta' vm e') as Hgood.
  { intros -> ->. destruct (Hvals eq_refl) as (Hvf & Hvsz & Hadr). rewrite (key_entries_ok vopt (number vmeta) es kvs Hs Hd Hkv Hadr) in Hkeys. fold kes in Hkeys. cbn [set_file_size number] in Hkeys.
    destruct (Hkeys eq_refl) as (Hkf & Hksz & Hsm & Hla); [exact (eq_ind_r (λ x, 0 < x) Hkp Eks)|]. fold ves in Hvsz. fold vopt in Hvsz. rewrite Evs in Hvsz. unfold du_files. split_and!; [|exact Hkf|exact Hvsz|by etransitivity; [exact Hksz|exact Eks]|..].
    - rewrite Hg' by (intros E0; by apply Hnames). rewrite Hkc; [exact Hvf|done|]. rewrite Hvsz. exact Hvp.
    - rewrite Hsm. unfold kes, key_entries. rewrite head_map. by destruct (head es).
    - rewrite Hla. unfold kes, key_entries. rewrite fmap_last. by destruct (last es). }
  split.
  - intros Hs0 Hdel. destruct s1; [left; by apply Hgood|right]. rewrite Hg' by (intros E0; by apply Hnames). by apply Hdc.
  - intros Hw Hvw. assert (s = true) as Hst by (by apply Hw2). split; [done|]. apply Hgood; [done|]. by apply Hw1.
Qed.

(** C37: the status of the value table is lost. If the value table cannot be
    synced, for whatever entries, but the key table can be written,
    [BuildDuTable] is ok, although the value table, to which all addresses of
    the key table lead, has been deleted. *)
Theorem value_table_failure_ignored fuel it pos es meta vmeta c e :
  let fname := TableFileName dbname (number meta) in
  let vfname := VTableFileName dbname (number vmeta) in
  (∀ n size c e, is_Some (usable n size c e)) → env_ok e → at_pos es it pos → es ≠ [] → (length es ≤ fuel)%nat → Forall du_entry es →
  u64_ok (number meta) → u64_ok (number vmeta) → works usable fname → deletes → is_Some (NewWritableFile vfname e).1 →
  (∀ w e, env_ok e → writes e w vfname → (WSync w e).1 = false) →
  ∃ meta' vmeta' c' e', BuildDuTable usable 10 dbname opt fuel it meta vmeta c e = Some (true, meta', vmeta', c', e') ∧ file_of e' vfname = None.
Proof.
  intros fname vfname Hus He Hat Hne Hfuel Hd Hn Hvn Hworks Hdel [w Hw] Hbad.
  assert (fname ≠ vfname) as Hnames by (by apply du_names).
  destruct (first_at es it pos Hat) as (it1 & Hfst & Hat1). unfold BuildDuTable. rewrite Hfst. cbn [mbind option_bind]. assert (at_pos es it1 (Some 0%nat)) as Hat0 by (by destruct es).
  rewrite (it_is_valid _ _ _ Hat0). cbn [set_file_size number]. unfold vfname in Hw. destruct (NewWritableFile (VTableFileName dbname (number vmeta)) e) as [r ea] eqn:Hnew. cbn [fst] in Hw. subst r.
  destruct (Gather_loop_ok es es fuel it1 0 []) as (it2 & -> & Hat2); [exact Hat1|done|done|eapply Forall_impl; [exact Hd|]; by intros ? (_ & _ & ?)|].
  cbn [app mbind option_bind]. assert (gathered <$> es ≠ []) as Hgn by (by destruct es).
  destruct (BuildValues_ok opt (set_file_size 0 vmeta) (gathered <$> es) vfname e w ea He Hnew Hgn) as (s1 & kvs & vm & eb & -> & Heb & _ & Hkv & _ & _ & Hs1).
  cbn [mbind option_bind]. rewrite (Hs1 Hbad). cbn [andb]. destruct (KeepTable_ok vfname false (file_size vm) eb Heb) as (Hec & _ & _ & Hdc).
  assert (kvs ≠ []) as Hkn by (intros ->; cbn in Hkv; symmetry in Hkv; apply fmap_nil_inv in Hkv; by apply merge_sort_nonempty in Hkv).
  destruct (BuildKeys_ok usable Hus dbname opt (set_file_size 0 meta) kvs c _ Hec Hkn) as (s & meta' & c' & e' & E0 & _ & Hg' & _ & Hw2).
  unfold vfname in E0. rewrite E0. cbn [mbind option_bind]. assert (s = true) as -> by (by apply Hw2). eexists _, _, _, _. split; [done|].
  rewrite Hg' by (intros E1; by apply Hnames). by apply Hdc.
Qed.

(** A memtable becomes a table. Over any environment and any lawful iterator
    over some entries, [BuildTable] ends and touches no other file. If it is ok
    the file is the table of the entries, with its size and its first and last
    key; if nothing fails it is ok; and if it is not, no file is left. *)
Theorem flush_table_correct fuel it pos es meta c e :
  (∀ n size c e, is_Some (usable n size c e)) → env_ok e → at_pos es it pos → es ≠ [] → (length es ≤ fuel)%nat → table_fits opt es →
  let fname := TableFileName dbname (number meta) in
  ∃ s meta' c' e', BuildTable usable dbname opt fuel it meta c e = Some (s, meta', c', e') ∧ env_ok e' ∧ (∀ g, g ≠ fname → file_of e' g = file_of e g) ∧
    (s = true → file_of e' fname = Some (file (build_table SN opt es)) ∧ file_size meta' = len (file (build_table SN opt es)) ∧
       Some (smallest meta') = fst <$> head es ∧ Some (largest meta') = fst <$> last es) ∧
    (works usable fname → s = true) ∧ (s = false → is_Some (NewWritableFile fname e).1 → deletes → file_of e' fname = None).
Proof.
  intros Hus He Hat Hne Hfuel [Hok Hlen] fname. destruct (build_size opt es Hok Hlen) as [Esz Hpos]. destruct (first_at es it pos Hat) as (it1 & Hfst & Hat1).
  unfold BuildTable. rewrite Hfst. cbn [mbind option_bind]. assert (at_pos es it1 (Some 0%nat)) as Hat0 by (by destruct es). rewrite (it_is_valid _ _ _ Hat0). cbn [set_file_size number].
  fold fname. destruct (NewWritableFile fname e) as [[w|] ea] eqn:Hnew.
  2:{ destruct (NewWritableFile_law _ _ _ _ He Hnew) as (He1 & Hg & _). eexists _, _, _, _. split; [done|]. split_and!; try done; [|by intros _ [? ?]].
      intros [Hw _]. pose proof (ew_new fname Hw e He) as Hx. rewrite Hnew in Hx. by destruct Hx. }
  destruct (Build_loop_ok es fname e es fuel it1 0 _ _ (largest meta) Hat1 eq_refl Hfuel (new_follows fname e w ea opt He Hnew)) as (it2 & r & Hb & Hat2 & Hf).
  cbn [set_file_size largest]. rewrite Hb. cbn [mbind option_bind].
  set (m1 := set_keys _ _ _). destruct (CloseTable m1 r) as [[s m2] eb] eqn:Ec. destruct (CloseTable_ok fname e m1 r _ s m2 eb Hf Ec) as (Heb & Hg & Hs & Hw & _).
  destruct (usable_step usable Hus s (number m2) (file_size m2) c eb fname Hw) as (s' & c' & -> & Hs' & Hw').
  cbn [mbind option_bind]. rewrite (it_status _ _ _ Hat2), andb_true_r. destruct (KeepTable_ok fname s' (file_size m2) eb Heb) as (He3 & Hg3 & Hk3 & Hd3).
  eexists _, _, _, _. split; [done|]. split; [done|]. split; [intros g Hgn; by rewrite Hg3, Hg|]. split; [|split; [done|intros; by apply Hd3]].
  intros Hst. destruct (Hs (Hs' Hst)) as (Hc & -> & _). assert (0 < FileSize (build_table SN opt es)) as Hsz by (by rewrite Esz).
  split; [etransitivity; [exact (Hk3 Hst Hsz)|exact Hc]|]. split; [exact Esz|]. cbn. pose proof (it_entry _ _ _ Hat0) as H0.
  destruct (head_last es Hne) as (x & y & Ex & Ey). rewrite Ex, Ey. split; [|done]. destruct es; [done|]. cbn in H0, Ex. injection Ex as <-. injection H0 as ->. done.
Qed.

(** Sort keys are read past the end of values. If some value, such as that of a
    deletion, is shorter than a sort key, [ConstructVKey] copies bytes that are
    not part of it. *)
Theorem du_reads_past_value fuel it pos es meta vmeta c e :
  at_pos es it pos → Exists (λ e, len e.2 < 8) es → is_Some (NewWritableFile (VTableFileName dbname (number vmeta)) e).1 →
  BuildDuTable usable 10 dbname opt fuel it meta vmeta c e = None.
Proof.
  intros Hat Hx [w Hw]. destruct (first_at es it pos Hat) as (it1 & Hfst & Hat1). unfold BuildDuTable. rewrite Hfst. cbn [mbind option_bind].
  assert (at_pos es it1 (Some 0%nat)) as Hat0 by (destruct es; [by apply Exists_nil in Hx|done]). rewrite (it_is_valid _ _ _ Hat0). cbn [set_file_size number].
  destruct (NewWritableFile (VTableFileName dbname (number vmeta)) e) as [r ea]. cbn [fst] in Hw. subst r. by rewrite (Gather_loop_short es it1 0 es fuel []).
Qed.

End claims.

(** ** Witnesses *)

(** The in-memory environment, with a file that cannot be synced. *)
Definition sync_fails (bad : bytes) : Env InMemoryEnv.t InMemoryEnv.ptr InMemoryEnv.SequentialFileImpl :=
  let m := mem_env zero_block in {|
  NewWritableFile := @NewWritableFile _ _ _ m; WAppend := @WAppend _ _ _ m; WFlush := @WFlush _ _ _ m;
  WSync w e := (negb (bool_decide (InMemoryEnv.file_map_ e !! bad = Some w)), e);
  WClose := @WClose _ _ _ m; DeleteW := @DeleteW _ _ _ m; NewSequentialFile := @NewSequentialFile _ _ _ m; SRead := @SRead _ _ _ m; DeleteS := @DeleteS _ _ _ m;
  MemEnv.DeleteFile := @MemEnv.DeleteFile _ _ _ m; RenameFile := @RenameFile _ _ _ m; GetChildren := @GetChildren _ _ _ m |}.

Definition sync_fails_laws (bad : bytes) : EnvLaws InMemoryEnv.t (option nat) InMemoryEnv.SequentialFileImpl (sync_fails bad).
Proof.
  pose (L := mem_env_laws zero_block eq_refl). apply (Build_EnvLaws _ _ _ (sync_fails bad) MemProofs.mem_ok MemProofs.mem_file mem_writes mem_reads).
  - exact (@NewWritableFile_law _ _ _ _ L).
  - exact (@WAppend_law _ _ _ _ L).
  - exact (@WFlush_law _ _ _ _ L).
  - cbn. by intros w f e b e' He Hw [= _ <-].
  - exact (@WClose_law _ _ _ _ L).
  - exact (@DeleteW_law _ _ _ _ L).
  - exact (@NewSequentialFile_law _ _ _ _ L).
  - exact (@SRead_law _ _ _ _ L).
  - exact (@DeleteS_law _ _ _ _ L).
  - exact (@DeleteFile_law _ _ _ _ L).
  - exact (@RenameFile_law _ _ _ _ L).
  - exact (@GetChildren_law _ _ _ _ L).
Defined.

Lemma sync_fails_works bad f : f ≠ bad → env_works (EL := sync_fails_laws bad) f.
Proof.
  intros Hne. split.
  - intros e He. change (is_Some (match InMemoryEnv.NewWritableFile f e with Some (w, e) => (Some w, e) | None => (None, e) end).1). destruct (MemProofs.NewWritableFile_ok e f He) as (p & e' & -> & _). by eexists.
  - intros w d e He Hw. change ((match InMemoryEnv.WritableAppend zero_block w d e with Some e => (true, e) | None => (false, e) end).1 = true). destruct (MemProofs.WritableAppend_ok zero_block e f w d eq_refl He Hw) as (e' & c & -> & _). done.
  - done.
  - intros w e He (id & st & -> & Hm & _). cbn [WSync sync_fails fst]. rewrite bool_decide_false; [done|]. intros Hb. by apply Hne, (MemProofs.mo_inj e He f bad id).
  - done.
Qed.

Lemma sync_fails_bad bad w e : mem_writes e w bad → (WSync (Env := sync_fails bad) w e).1 = false.
Proof. intros (id & st & -> & Hm & _). cbn [WSync sync_fails fst]. by rewrite bool_decide_true. Qed.

Lemma sync_fails_deletes bad : deletes (EL := sync_fails_laws bad).
Proof. exact mem_deletes. Qed.

(** Two keys, one of them overwritten; the sort keys are 2, 1 and 3. *)
Definition flush_entries : entries :=
  [(InternalKey [97] 8 kTypeValue, [2; 0; 0; 0; 0; 0; 0; 0; 65]); (InternalKey [97] 3 kTypeValue, [1; 0; 0; 0; 0; 0; 0; 0; 66]);
   (InternalKey [98] 4 kTypeValue, [3; 0; 0; 0; 0; 0; 0; 0; 67])].

Definition flush_options : Options := {| comparator := icmp; block_size := 32; block_restart_interval := 2; compression := kNoCompression; filter_policy := None |}.

Lemma flush_iter : ∃ it, internal_block flush_entries = Some it ∧ block_at (ikey_ok bytes_ok) icmp flush_entries it None.
Proof. apply source_block; [unfold entry_ok, u32_ok; by_decide|unfold ikey_ok; by_decide|sorted_keys|by vm_compute]. Qed.

Lemma flush_du : Forall du_entry flush_entries.
Proof. unfold du_entry, ikey_ok. by_decide. Qed.

Definition always_usable (_ _ : Z) (c : unit) (_ : InMemoryEnv.t) : option (bool * unit) := Some (true, c).

Abbreviation meta5 := (NewFileMeta 5 0 [] []).
Abbreviation meta6 := (NewFileMeta 6 0 [] []).

Lemma works_example bad f : f ≠ bad → works (EL := sync_fails_laws bad) always_usable f.
Proof. intros H. split; [by apply sync_fails_works|done]. Qed.

Lemma du_table_correct_witness :
  ∃ it meta' vmeta' e', internal_block flush_entries = Some it ∧
    BuildDuTable (SN := no_snappy) (EN := sync_fails []) always_usable 10 (str "/db") flush_options 3 it meta5 meta6 tt InMemoryEnv.New = Some (true, meta', vmeta', tt, e') ∧
    du_files (SN := no_snappy) (EL := sync_fails_laws []) flush_options flush_entries (TableFileName (str "/db") 5) (VTableFileName (str "/db") 6) meta5 meta6 meta' vmeta' e' ∧
    value_entries flush_entries = [ventry (flush_entries !!! 1%nat); ventry (flush_entries !!! 0%nat); ventry (flush_entries !!! 2%nat)].
Proof.
  destruct flush_iter as (it & Hit & Hat).
  destruct (@du_table_correct no_snappy _ _ _ (sync_fails []) (sync_fails_laws []) unit _ _ _ _ always_usable (str "/db") flush_options 3 it None flush_entries meta5 meta6 tt InMemoryEnv.New)
    as (_ & _ & _ & s & meta' & vmeta' & [] & e' & Hrun & _ & _ & _ & Hworks).
  - by eexists.
  - exact New_mem_ok.
  - exact Hat.
  - discriminate.
  - cbn. lia.
  - exact flush_du.
  - split; vm_compute; [discriminate|reflexivity].
  - split; vm_compute; [discriminate|reflexivity].
  - split; [unfold entry_ok, u32_ok; by_decide|by vm_compute].
  - split; [unfold entry_ok, u32_ok; by_decide|by vm_compute].
  - destruct Hworks as [-> Hfiles].
    + apply works_example. vm_compute. discriminate.
    + apply sync_fails_works. vm_compute. discriminate.
    + exists it, meta', vmeta', e'. split; [exact Hit|]. split; [exact Hrun|]. split; [exact Hfiles|]. vm_compute. reflexivity.
Defined.

Lemma value_table_failure_ignored_witness :
  ∃ it meta' vmeta' e', internal_block flush_entries = Some it ∧
    BuildDuTable (SN := no_snappy) (EN := sync_fails (VTableFileName (str "/db") 6)) always_usable 10 (str "/db") flush_options 3 it meta5 meta6 tt InMemoryEnv.New
      = Some (true, meta', vmeta', tt, e') ∧ MemProofs.mem_file e' (VTableFileName (str "/db") 6) = None.
Proof.
  destruct flush_iter as (it & Hit & Hat).
  destruct (@value_table_failure_ignored no_snappy _ _ _ (sync_fails (VTableFileName (str "/db") 6)) (sync_fails_laws _) unit _ _ _ _ always_usable (str "/db") flush_options 3 it None flush_entries
    meta5 meta6 tt InMemoryEnv.New) as (meta' & vmeta' & [] & e' & Hrun & Hno).
  - by eexists.
  - exact New_mem_ok.
  - exact Hat.
  - discriminate.
  - cbn. lia.
  - exact flush_du.
  - split; vm_compute; [discriminate|reflexivity].
  - split; vm_compute; [discriminate|reflexivity].
  - apply works_example. apply du_names; split; vm_compute; first [discriminate | reflexivity].
  - exact (sync_fails_deletes _).
  - by eexists.
  - intros w e _ Hw. exact (sync_fails_bad _ w e Hw).
  - exists it, meta', vmeta', e'. split; [exact Hit|]. split; [exact Hrun|exact Hno].
Defined.
