(* ===== verification/ZOrder.v ===== *)
(** * impl/zorder: Morton codes and boxes

    A Morton code interleaves the bits of two 32-bit coordinates. Queries over
    two attributes are boxes: [AABB::ToIntervals] turns a box into the intervals
    of Morton codes that lie in it, by splitting it at the highest bit in which
    its corners differ until the parts are aligned cells. *)

From Stdlib Require Import ZArith Sorted.
From stdpp Require Import sorting.
From S2P Require Import Prelude.

#[local] Open Scope Z_scope.

(** ** util.h *)

(** The builtins; [None] is their undefined case. *)
Definition clzll (x : Z) : option Z := if x =? 0 then None else Some (63 - Z.log2 x).

Fixpoint pos_ctz (p : positive) : Z := match p with xO p => 1 + pos_ctz p | _ => 0 end.
Definition ctzll (x : Z) : option Z := match x with Zpos p => Some (pos_ctz p) | _ => None end.

Fixpoint pos_popcount (p : positive) : Z :=
  match p with xO p => pos_popcount p | xI p => 1 + pos_popcount p | xH => 1 end.
Definition popcountll (x : Z) : Z := match x with Zpos p => pos_popcount p | _ => 0 end.

(** [None] is a failed assertion. *)
Definition FastLog2 (x : Z) : option Z := c ← clzll x; Some (64 - 1 - c).

(** [Dimension] is 2 and [BitsPerDimension] is 32. *)
Definition GetMaxAlignLevel (code : Z) : option Z := if code =? 0 then Some 32 else z ← ctzll code; Some (z / 2).

(** [None] is a shift by 64. *)
Definition GetMortonCode (level : Z) : option Z := if level * 2 <? 64 then Some (Z.shiftl 1 (level * 2) - 1) else None.

Definition GetUnifyingLevel (min max : Z) : option Z :=
  if max <? min then None
  else if max =? min then Some 0
  else l ← FastLog2 (Z.lxor max min); Some (l / 2 + 1).

Definition GetParentMortonAligned (code level : Z) : option Z :=
  if 2 * level <? 64 then Some (u64 (Z.shiftl (Z.shiftr code (2 * level)) (2 * level))) else None.

Definition GetAlignMax (min max : Z) : option Z :=
  if max <? min then None
  else if max =? min then Some min
  else
    align_max ← (if negb (min =? 0) then level ← GetMaxAlignLevel min; m ← GetMortonCode level; Some (u64 (min + m)) else Some (2 ^ 64 - 1));
    l ← FastLog2 (u64 (max + 1 - min));
    m ← GetMortonCode (l / 2);
    Some (Z.min align_max (u64 (min + m))).

Definition morton_2_x_mask : Z := 0x5555555555555555.

(** The portable routines. *)
Definition expand_bits_2 (x : Z) : Z :=
  let x := Z.land (Z.lxor x (u64 (Z.shiftl x 16))) 0x0000ffff0000ffff in
  let x := Z.land (Z.lxor x (u64 (Z.shiftl x 8))) 0x00ff00ff00ff00ff in
  let x := Z.land (Z.lxor x (u64 (Z.shiftl x 4))) 0x0f0f0f0f0f0f0f0f in
  let x := Z.land (Z.lxor x (u64 (Z.shiftl x 2))) 0x3333333333333333 in
  Z.land (Z.lxor x (u64 (Z.shiftl x 1))) 0x5555555555555555.

Definition compact_bits_2 (x : Z) : Z :=
  let x := Z.land x 0x5555555555555555 in
  let x := Z.land (Z.lxor x (Z.shiftr x 1)) 0x3333333333333333 in
  let x := Z.land (Z.lxor x (Z.shiftr x 2)) 0x0f0f0f0f0f0f0f0f in
  let x := Z.land (Z.lxor x (Z.shiftr x 4)) 0x00ff00ff00ff00ff in
  let x := Z.land (Z.lxor x (Z.shiftr x 8)) 0x0000ffff0000ffff in
  Z.land (Z.lxor x (Z.shiftr x 16)) 0x00000000ffffffff.

(** ** encoding.h *)

Definition Encode (x y : Z) : Z := Z.lor (expand_bits_2 x) (u64 (Z.shiftl (expand_bits_2 y) 1)).

Definition Decode (code : Z) : Z * Z := (u32 (compact_bits_2 code), u32 (compact_bits_2 (Z.shiftr code 1))).

Definition lnot64 (x : Z) : Z := u64 (Z.lnot x).

(** ** interval.h *)

(** Without data ([std::monostate]). *)
Record Interval := { start_ : Z; end_ : Z }.

Definition Contains (i : Interval) (c : Z) : bool := (c >=? start_ i) && (c <=? end_ i).

Fixpoint Cells_loop (fuel : nat) (s end_ : Z) (v : list Interval) : option (list Interval) :=
  if s <=? end_ then
    match fuel with
    | O => None
    | S fuel' => amax ← GetAlignMax s end_; Cells_loop fuel' (u64 (amax + 1)) end_ (v ++ [{| start_ := s; end_ := amax |}])
    end
  else Some v.

Definition Interval_ToCells (fuel : nat) (i : Interval) : option (list Interval) := Cells_loop fuel (start_ i) (end_ i) [].

(** ** aabb.h *)

Record AABB := { min_ : Z; max_ : Z }.

(** [None]: a failed assertion, or the whole space, of which the size wraps to
    zero. *)
Definition IsMortonAligned (a : AABB) : option bool :=
  if max_ a <? min_ a then None
  else
    let align_max := default (2 ^ 64 - 1) (ctzll (min_ a)) in
    let diff := u64 (max_ a - min_ a + 1) in
    align ← ctzll diff;
    Some ((align / 2 <=? align_max / 2) && (popcountll diff =? 1) && (align `mod` 2 =? 0)).

Definition ToCell (a : AABB) : Interval := {| start_ := min_ a; end_ := max_ a |}.

(** [litmax] and [bigmin]. *)
Definition MortonGetNextAddress (a : AABB) : option (Z * Z) :=
  clz ← clzll (Z.lxor (min_ a) (max_ a));
  let index := 65 - clz in
  let mask := lnot64 (Z.shiftl 1 (index / 2) - 1) in
  let inc := Z.shiftl 1 (index / 2 - 1) in
  let index := index `mod` 2 in
  let part := u32 (Z.land (compact_bits_2 (Z.shiftr (min_ a) index)) mask + inc) in
  let keep := lnot64 (u64 (Z.shiftl morton_2_x_mask index)) in
  let bigmin := Z.lor (Z.land (min_ a) keep) (u64 (Z.shiftl (expand_bits_2 part) index)) in
  let part := u32 (part - 1) in
  let litmax := Z.lor (Z.land (max_ a) keep) (u64 (Z.shiftl (expand_bits_2 part) index)) in
  Some (litmax, bigmin).

(** The two parts, with the assertions. *)
Definition Split (aabb : AABB) : option (AABB * AABB) :=
  '(litmax, bigmin) ← MortonGetNextAddress aabb;
  if (litmax >=? min_ aabb) && (max_ aabb >=? bigmin)
  then Some ({| min_ := min_ aabb; max_ := litmax |}, {| min_ := bigmin; max_ := max_ aabb |})
  else None.

(** The loops of [ToCells] and [ToIntervals]; the back of the vector [inputs]
    is the head of the list. *)
Fixpoint ToCells_loop (fuel : nat) (inputs : list AABB) (outputs : list Interval) : option (list Interval) :=
  match inputs with
  | [] => Some outputs
  | aabb :: inputs =>
      match fuel with
      | O => None
      | S fuel' =>
          aligned ← IsMortonAligned aabb;
          if (aligned : bool) then ToCells_loop fuel' inputs (outputs ++ [ToCell aabb])
          else '(first, second) ← Split aabb; ToCells_loop fuel' (first :: second :: inputs) outputs
      end
  end.

(** A cell that connects to the previous one is merged with it. *)
Definition push_cell (outputs : list Interval) (aabb : AABB) : list Interval :=
  match last outputs with
  | Some back => if u64 (end_ back + 1) =? min_ aabb then removelast outputs ++ [{| start_ := start_ back; end_ := max_ aabb |}] else outputs ++ [ToCell aabb]
  | None => outputs ++ [ToCell aabb]
  end.

Fixpoint ToIntervals_loop (fuel : nat) (inputs : list AABB) (outputs : list Interval) : option (list Interval) :=
  match inputs with
  | [] => Some outputs
  | aabb :: inputs =>
      match fuel with
      | O => None
      | S fuel' =>
          aligned ← IsMortonAligned aabb;
          if (aligned : bool) then ToIntervals_loop fuel' inputs (push_cell outputs aabb)
          else '(first, second) ← Split aabb; ToIntervals_loop fuel' (first :: second :: inputs) outputs
      end
  end.

Definition ToCells (fuel : nat) (a : AABB) : option (list Interval) := if max_ a <? min_ a then None else ToCells_loop fuel [a] [].
Definition ToIntervals (fuel : nat) (a : AABB) : option (list Interval) := if max_ a <? min_ a then None else ToIntervals_loop fuel [a] [].

(** ** aabb.h: IteratorIntervals *)

Record IteratorIntervals := { it_index : Z; it_value : Interval; it_curr : Interval; it_inputs : list AABB; is_finished_ : bool }.

Definition no_interval : Interval := {| start_ := 0; end_ := 0 |}.

Fixpoint Progress (fuel : nat) (it : IteratorIntervals) : option IteratorIntervals :=
  match it_inputs it with
  | [] => Some {| it_index := it_index it; it_value := it_curr it; it_curr := it_curr it; it_inputs := []; is_finished_ := true |}
  | aabb :: inputs =>
      match fuel with
      | O => None
      | S fuel' =>
          aligned ← IsMortonAligned aabb;
          if (aligned : bool) then
            if (start_ (it_curr it) =? 0) && (end_ (it_curr it) =? 0) then
              Progress fuel' {| it_index := it_index it; it_value := it_value it; it_curr := ToCell aabb; it_inputs := inputs; is_finished_ := is_finished_ it |}
            else if u64 (end_ (it_curr it) + 1) =? min_ aabb then
              Progress fuel' {| it_index := it_index it; it_value := it_value it; it_curr := {| start_ := start_ (it_curr it); end_ := max_ aabb |};
                                it_inputs := inputs; is_finished_ := is_finished_ it |}
            else Some {| it_index := it_index it + 1; it_value := it_curr it; it_curr := ToCell aabb; it_inputs := inputs; is_finished_ := is_finished_ it |}
          else
            '(first, second) ← Split aabb;
            Progress fuel' {| it_index := it_index it; it_value := it_value it; it_curr := it_curr it; it_inputs := first :: second :: inputs; is_finished_ := is_finished_ it |}
      end
  end.

Definition Begin (fuel : nat) (a : AABB) : option IteratorIntervals :=
  Progress fuel {| it_index := 0; it_value := no_interval; it_curr := no_interval; it_inputs := [a]; is_finished_ := false |}.

(** [for (it = Begin(); it != End(); ++it)] over the same box: the iterators are
    equal when both are finished, and [End()] is. *)
Fixpoint For_loop (turns fuel : nat) (it : IteratorIntervals) (seen : list Interval) : option (list Interval) :=
  if is_finished_ it then Some seen
  else match turns with
       | O => None
       | S turns' => it' ← Progress fuel it; For_loop turns' fuel it' (seen ++ [it_value it])
       end.

Definition ForEach (turns fuel : nat) (a : AABB) : option (list Interval) := it ← Begin fuel a; For_loop turns fuel it [].

(** ** Lemmas: bits *)

Lemma u64_bits x k : 0 ≤ k → Z.testbit (u64 x) k = (k <? 64) && Z.testbit x k.
Proof.
  intros Hk. unfold u64. destruct (Z.ltb_spec k 64); [by rewrite Z.mod_pow2_bits_low|]. rewrite Z.mod_pow2_bits_high by lia. done.
Qed.

Lemma high_bits n x k : 0 ≤ x < 2 ^ n → n ≤ k → Z.testbit x k = false.
Proof.
  intros Hx Hk. destruct (decide (x = 0)) as [-> |]; [apply Z.bits_0|]. apply Z.bits_above_log2; [lia|].
  assert (Z.log2 x < n) by (apply Z.log2_lt_pow2; lia). lia.
Qed.

Lemma bounded_bits n x : 0 ≤ n → 0 ≤ x → (∀ k, n ≤ k → Z.testbit x k = false) → x < 2 ^ n.
Proof.
  intros Hn Hx Hb. destruct (decide (x = 0)) as [-> |]; [lia|]. destruct (Z.lt_ge_cases x (2 ^ n)); [done|].
  assert (n ≤ Z.log2 x) by (apply Z.log2_le_pow2; lia). pose proof (Hb (Z.log2 x) ltac:(done)) as Hf. rewrite Z.bit_log2 in Hf by lia. done.
Qed.

(** A property of numbers of [n] bits that holds of powers of two and is closed
    under exclusive or. *)
Lemma bits_ind (P : Z → Prop) (n : nat) :
  P 0 → (∀ i, (i < n)%nat → P (2 ^ Z.of_nat i)) → (∀ a b, P a → P b → P (Z.lxor a b)) → ∀ x, 0 ≤ x < 2 ^ Z.of_nat n → P x.
Proof.
  intros H0 Hp Hx. induction n as [|n IH]; intros x Hn; [replace x with 0 by (cbn in Hn; lia); done|].
  assert (x = Z.lxor (x `mod` 2 ^ Z.of_nat n) (if Z.testbit x (Z.of_nat n) then 2 ^ Z.of_nat n else 0)) as ->.
  { apply Z.bits_inj'. intros k Hk. rewrite Z.lxor_spec. assert (Z.testbit (if Z.testbit x (Z.of_nat n) then 2 ^ Z.of_nat n else 0) k = (k =? Z.of_nat n) && Z.testbit x (Z.of_nat n)) as ->.
    { destruct (Z.testbit x (Z.of_nat n)); [|by rewrite Z.bits_0, andb_false_r]. rewrite Z.pow2_bits_eqb, andb_true_r by lia. apply Z.eqb_sym. }
    destruct (Z.lt_trichotomy k (Z.of_nat n)) as [Hlt|[-> |Hgt]].
    - rewrite Z.mod_pow2_bits_low, (proj2 (Z.eqb_neq _ _)), xorb_false_r by lia. done.
    - rewrite Z.mod_pow2_bits_high, Z.eqb_refl by lia. done.
    - rewrite Z.mod_pow2_bits_high, (proj2 (Z.eqb_neq _ _)) by lia. apply (high_bits (Z.of_nat (S n))); [done|lia]. }
  apply Hx; [apply IH; [intros i Hi; apply Hp; lia|apply Z.mod_pos_bound; lia]|]. destruct (Z.testbit x (Z.of_nat n)); [apply Hp; lia|done].
Qed.

Lemma u64_lxor a b : u64 (Z.lxor a b) = Z.lxor (u64 a) (u64 b).
Proof. apply Z.bits_inj'. intros k Hk. rewrite Z.lxor_spec, !u64_bits, Z.lxor_spec by done. by destruct (k <? 64). Qed.

Lemma land_lxor a b m : Z.land (Z.lxor a b) m = Z.lxor (Z.land a m) (Z.land b m).
Proof. apply Z.bits_inj'. intros k Hk. rewrite Z.lxor_spec, !Z.land_spec, Z.lxor_spec. by destruct (Z.testbit a k), (Z.testbit b k), (Z.testbit m k). Qed.

Lemma spread_step a b m n :
  Z.land (Z.lxor (Z.lxor a b) (u64 (Z.shiftl (Z.lxor a b) n))) m = Z.lxor (Z.land (Z.lxor a (u64 (Z.shiftl a n))) m) (Z.land (Z.lxor b (u64 (Z.shiftl b n))) m).
Proof. rewrite Z.shiftl_lxor, u64_lxor, <- land_lxor. f_equal. rewrite !Z.lxor_assoc. f_equal. rewrite <- !Z.lxor_assoc. f_equal. apply Z.lxor_comm. Qed.

Lemma gather_step a b m n :
  Z.land (Z.lxor (Z.lxor a b) (Z.shiftr (Z.lxor a b) n)) m = Z.lxor (Z.land (Z.lxor a (Z.shiftr a n)) m) (Z.land (Z.lxor b (Z.shiftr b n)) m).
Proof. rewrite Z.shiftr_lxor, <- land_lxor. f_equal. rewrite !Z.lxor_assoc. f_equal. rewrite <- !Z.lxor_assoc. f_equal. apply Z.lxor_comm. Qed.

Lemma expand_lxor a b : expand_bits_2 (Z.lxor a b) = Z.lxor (expand_bits_2 a) (expand_bits_2 b).
Proof. unfold expand_bits_2. by rewrite !spread_step. Qed.

Lemma compact_lxor a b : compact_bits_2 (Z.lxor a b) = Z.lxor (compact_bits_2 a) (compact_bits_2 b).
Proof. unfold compact_bits_2. by rewrite (land_lxor a b), !gather_step. Qed.

(** Bit [k] of a coordinate is bit [2 k] of its expansion. *)
Lemma expand_bits x k : 0 ≤ x < 2 ^ 32 → 0 ≤ k → Z.testbit (expand_bits_2 x) k = Z.even k && Z.testbit x (k / 2).
Proof.
  intros Hx. revert k. change (2 ^ 32) with (2 ^ Z.of_nat 32) in Hx. revert x Hx. apply (bits_ind (λ x, ∀ k, 0 ≤ k → Z.testbit (expand_bits_2 x) k = Z.even k && Z.testbit x (k / 2))).
  - intros k _. change (expand_bits_2 0) with 0. by rewrite !Z.bits_0, andb_false_r.
  - intros i Hi k Hk. assert (expand_bits_2 (2 ^ Z.of_nat i) = 2 ^ (2 * Z.of_nat i)) as ->.
    { assert (∀ i, (i < 32)%nat → expand_bits_2 (2 ^ Z.of_nat i) = 2 ^ (2 * Z.of_nat i)) as H; [|by apply H]. clear. intros i Hi.
      do 32 (destruct i as [|i]; [vm_compute; reflexivity|]). lia. }
    rewrite !Z.pow2_bits_eqb by lia. destruct (Z.even k) eqn:Ek.
    + apply Z.even_spec in Ek as [j ->]. rewrite (Z.mul_comm 2 j), Z.div_mul by lia. cbn [andb]. destruct (Z.eqb_spec (2 * Z.of_nat i) (j * 2)), (Z.eqb_spec (Z.of_nat i) j); lia || done.
    + apply Z.eqb_neq. intros E. rewrite <- E, Z.even_mul in Ek. done.
  - intros a b Ha Hb k Hk. rewrite expand_lxor, !Z.lxor_spec, Ha, Hb by done. by destruct (Z.even k).
Qed.

Lemma compact_bits x k : 0 ≤ x < 2 ^ 64 → 0 ≤ k → Z.testbit (compact_bits_2 x) k = Z.testbit x (2 * k).
Proof.
  intros Hx. revert k. change (2 ^ 64) with (2 ^ Z.of_nat 64) in Hx. revert x Hx. apply (bits_ind (λ x, ∀ k, 0 ≤ k → Z.testbit (compact_bits_2 x) k = Z.testbit x (2 * k))).
  - intros k _. change (compact_bits_2 0) with 0. by rewrite !Z.bits_0.
  - intros i Hi k Hk. assert (compact_bits_2 (2 ^ Z.of_nat i) = if Nat.even i then 2 ^ Z.of_nat (Nat.div2 i) else 0) as ->.
    { clear k Hk. do 64 (destruct i as [|i]; [vm_compute; reflexivity|]). lia. }
    rewrite Z.pow2_bits_eqb by lia. destruct (Nat.even i) eqn:Ei.
    + apply Nat.even_spec in Ei as [j ->]. rewrite Nat.div2_double, Z.pow2_bits_eqb by lia. destruct (Z.eqb_spec (Z.of_nat j) k), (Z.eqb_spec (Z.of_nat (2 * j)) (2 * k)); lia || done.
    + rewrite Z.bits_0. symmetry. apply Z.eqb_neq. intros E. assert (i = 2 * Z.to_nat k)%nat as -> by lia. rewrite Nat.even_mul in Ei. done.
  - intros a b Ha Hb k Hk. by rewrite compact_lxor, !Z.lxor_spec, Ha, Hb.
Qed.

(** ** Lemmas: coordinates *)

(** Coordinate 0 or 1 of a code. *)
Definition coord (d c : Z) : Z := compact_bits_2 (Z.shiftr c d).

Lemma shiftr_range d c : 0 ≤ d → u64_ok c → u64_ok (Z.shiftr c d).
Proof. unfold u64_ok. intros Hd Hc. rewrite Z.shiftr_div_pow2 by done. split; [apply Z.div_pos; lia|]. apply Z.le_lt_trans with c; [|lia]. apply Z.div_le_upper_bound; nia. Qed.

Lemma coord_bits d c k : 0 ≤ d → u64_ok c → 0 ≤ k → Z.testbit (coord d c) k = Z.testbit c (2 * k + d).
Proof. intros Hd Hc Hk. unfold coord. rewrite compact_bits by (done || by apply shiftr_range). by rewrite Z.shiftr_spec by lia. Qed.

Lemma compact_nonneg x : 0 ≤ compact_bits_2 x.
Proof. unfold compact_bits_2. apply Z.land_nonneg. right. done. Qed.

Lemma coord_range d c : 0 ≤ d → u64_ok c → u32_ok (coord d c).
Proof.
  intros Hd Hc. split; [apply compact_nonneg|]. apply bounded_bits; [done|apply compact_nonneg|]. intros k Hk. rewrite coord_bits by (done || lia). apply (high_bits 64); [done|lia].
Qed.

Lemma Decode_coord c : u64_ok c → Decode c = (coord 0 c, coord 1 c).
Proof.
  intros Hc. unfold Decode. rewrite (u32_id (compact_bits_2 (Z.shiftr c 1))) by (by apply (coord_range 1)). rewrite <- (Z.shiftr_0_r c) at 1.
  by rewrite u32_id by (by apply (coord_range 0)).
Qed.

(** Bit [2 j + d] of a code is bit [j] of coordinate [d]. *)
Lemma code_bit c k : u64_ok c → 0 ≤ k → Z.testbit c k = Z.testbit (coord (k `mod` 2) c) (k / 2).
Proof.
  intros Hc Hk. pose proof (Z.mod_pos_bound k 2 ltac:(lia)). rewrite coord_bits by (done || lia || (apply Z.div_pos; lia)). f_equal. apply Z.div_mod. lia.
Qed.

Lemma code_inj a b : u64_ok a → u64_ok b → coord 0 a = coord 0 b → coord 1 a = coord 1 b → a = b.
Proof.
  intros Ha Hb H0 H1. apply Z.bits_inj'. intros k Hk. rewrite (code_bit a), (code_bit b) by done. pose proof (Z.mod_pos_bound k 2 ltac:(lia)).
  assert (k `mod` 2 = 0 ∨ k `mod` 2 = 1) as [-> | ->] by lia; [by rewrite H0|by rewrite H1].
Qed.

(** [x] put into dimension [d]. *)
Lemma spread_bits x d k : u32_ok x → d = 0 ∨ d = 1 → 0 ≤ k → Z.testbit (u64 (Z.shiftl (expand_bits_2 x) d)) k = (k `mod` 2 =? d) && Z.testbit x (k / 2).
Proof.
  intros Hx Hd Hk. rewrite u64_bits, Z.shiftl_spec by done. pose proof (Z.div_mod k 2 ltac:(lia)) as Edm. pose proof (Z.mod_pos_bound k 2 ltac:(lia)) as Hm. assert (0 ≤ k / 2) by (apply Z.div_pos; lia).
  destruct (Z.lt_ge_cases k d) as [Hlt|Hge].
  { rewrite (Z.testbit_neg_r _ (k - d)), andb_false_r by lia. destruct (Z.eqb_spec (k `mod` 2) d); [lia|done]. }
  rewrite expand_bits by (done || lia). assert (Z.even (k - d) = (k `mod` 2 =? d)) as ->.
  { rewrite Edm at 1. replace (2 * (k / 2) + k `mod` 2 - d) with (k `mod` 2 - d + 2 * (k / 2)) by lia. rewrite Z.even_add_mul_2.
    destruct Hd as [-> | ->]; assert (k `mod` 2 = 0 ∨ k `mod` 2 = 1) as [-> | ->] by lia; done. }
  destruct (Z.eqb_spec (k `mod` 2) d) as [E|E]; [|by rewrite andb_false_r]. replace ((k - d) / 2) with (k / 2) by (apply Z.div_unique with 0; lia). cbn [andb].
  destruct (Z.ltb_spec k 64); [done|]. symmetry. apply (high_bits 32); [done|]. apply Z.div_le_lower_bound; lia.
Qed.

Lemma u64_of_bits x : 0 ≤ x → (∀ k, 64 ≤ k → Z.testbit x k = false) → u64_ok x.
Proof. intros Hx Hb. split; [done|]. by apply bounded_bits. Qed.

Lemma div2_double k d : 0 ≤ d < 2 → (2 * k + d) / 2 = k ∧ (2 * k + d) `mod` 2 = d.
Proof. intros Hd. rewrite Z.mul_comm, Z.add_comm, Z.div_add, Z.mod_add by lia. rewrite Z.div_small, Z.mod_small by lia. lia. Qed.

(** A code with coordinate [d] replaced by [x]. *)
Definition set_coord (d x c : Z) : Z := Z.lor (Z.land c (lnot64 (u64 (Z.shiftl morton_2_x_mask d)))) (u64 (Z.shiftl (expand_bits_2 x) d)).

Lemma set_coord_bits d x c k :
  u32_ok x → u64_ok c → d = 0 ∨ d = 1 → 0 ≤ k → Z.testbit (set_coord d x c) k = if k `mod` 2 =? d then Z.testbit x (k / 2) else Z.testbit c k.
Proof.
  intros Hx Hc Hd Hk. unfold set_coord, lnot64. rewrite Z.lor_spec, Z.land_spec, spread_bits by done. rewrite u64_bits, Z.lnot_spec by done.
  change morton_2_x_mask with (expand_bits_2 (2 ^ 32 - 1)). rewrite spread_bits by (done || (split; done)).
  assert (0 ≤ k / 2) by (apply Z.div_pos; lia). destruct (Z.ltb_spec k 64) as [Hlt|Hge].
  - assert (Z.testbit (2 ^ 32 - 1) (k / 2) = true) as ->. { change (2 ^ 32 - 1) with (Z.ones 32). apply Z.ones_spec_low. split; [done|]. apply Z.div_lt_upper_bound; lia. }
    destruct (k `mod` 2 =? d); cbn; [by rewrite andb_false_r|by rewrite andb_true_r, orb_false_r].
  - rewrite (high_bits 64 c) by (done || lia). cbn. destruct (k `mod` 2 =? d); done.
Qed.

Lemma set_coord_ok d x c : u32_ok x → u64_ok c → d = 0 ∨ d = 1 → u64_ok (set_coord d x c) ∧ coord d (set_coord d x c) = x ∧ coord (1 - d) (set_coord d x c) = coord (1 - d) c.
Proof.
  intros Hx Hc Hd.
  assert (u64_ok (set_coord d x c)) as Hok.
  { apply u64_of_bits.
    - unfold set_coord. apply Z.lor_nonneg. split; [apply Z.land_nonneg; left; apply Hc|apply u64_range].
    - intros k Hk. rewrite set_coord_bits by (done || lia). rewrite (high_bits 64 c k) by done. destruct (k `mod` 2 =? d); [|done].
      apply (high_bits 32); [done|]. apply Z.div_le_lower_bound; lia. }
  split; [done|]. split; apply Z.bits_inj'; intros k Hk.
  - rewrite coord_bits, set_coord_bits by (done || lia). destruct (div2_double k d ltac:(lia)) as [-> ->]. by rewrite Z.eqb_refl.
  - rewrite !coord_bits, set_coord_bits by (done || lia). destruct (div2_double k (1 - d) ltac:(lia)) as [_ ->]. by rewrite (proj2 (Z.eqb_neq _ _)) by lia.
Qed.

Lemma Encode_ok x y : u32_ok x → u32_ok y → u64_ok (Encode x y) ∧ coord 0 (Encode x y) = x ∧ coord 1 (Encode x y) = y.
Proof.
  intros Hx Hy. assert (Encode x y = set_coord 1 y (set_coord 0 x 0)) as ->.
  { apply Z.bits_inj'. intros k Hk. assert (u64_ok 0) as H0 by done. destruct (set_coord_ok 0 x 0 Hx H0 ltac:(lia)) as (Hc & _).
    rewrite !set_coord_bits by (done || lia). unfold Encode. rewrite Z.lor_spec, spread_bits, expand_bits by (done || lia). rewrite Z.bits_0.
    rewrite Zeven_mod. pose proof (Z.mod_pos_bound k 2 ltac:(lia)).
    assert (k `mod` 2 = 0 ∨ k `mod` 2 = 1) as [-> | ->] by lia; cbn; [by rewrite orb_false_r|done]. }
  destruct (set_coord_ok 0 x 0 Hx ltac:(done) ltac:(lia)) as (Hc & H0 & _). destruct (set_coord_ok 1 y _ Hy Hc ltac:(lia)) as (Hc1 & H1 & H2). split; [done|]. split; [|done].
  exact (eq_trans H2 H0).
Qed.

(** ** Lemmas: order *)

Lemma same_above n x y k : 0 ≤ n ≤ k → x / 2 ^ n = y / 2 ^ n → Z.testbit x k = Z.testbit y k.
Proof.
  intros Hk E. rewrite <- (Z.shiftr_div_pow2 x), <- (Z.shiftr_div_pow2 y) in E by lia. replace k with (k - n + n) by lia.
  by rewrite <- !Z.shiftr_spec, E by lia.
Qed.

Lemma above_div n x y : 0 ≤ n → (∀ k, n ≤ k → Z.testbit x k = Z.testbit y k) → x / 2 ^ n = y / 2 ^ n.
Proof. intros Hn H. rewrite <- !Z.shiftr_div_pow2 by done. apply Z.bits_inj'. intros k Hk. rewrite !Z.shiftr_spec by done. apply H. lia. Qed.

(** The highest bit in which two numbers differ decides their order. *)
Lemma top_div a b h :
  0 ≤ h → (∀ k, h < k → Z.testbit a k = Z.testbit b k) → Z.testbit a h = false → Z.testbit b h = true → b / 2 ^ h = a / 2 ^ h + 1 ∧ (a / 2 ^ h) `mod` 2 = 0.
Proof.
  intros Hh Habove Ha Hb. assert (a / 2 ^ (h + 1) = b / 2 ^ (h + 1)) as E by (apply above_div; [lia|]; intros k Hk; apply Habove; lia).
  rewrite Z.pow_add_r, Z.pow_1_r, <- !Z.div_div in E by lia. apply Z.testbit_false in Ha; [|done]. apply Z.testbit_true in Hb; [|done].
  split; [|done]. rewrite (Z.div_mod (b / 2 ^ h) 2), (Z.div_mod (a / 2 ^ h) 2) by lia. lia.
Qed.

Lemma top_bit a b h :
  0 ≤ h → (∀ k, h < k → Z.testbit a k = Z.testbit b k) → Z.testbit a h = false → Z.testbit b h = true → a < b.
Proof.
  intros Hh Habove Ha Hb. destruct (top_div a b h) as [E _]; try done. assert (0 < 2 ^ h) by lia.
  pose proof (Z.mul_succ_div_gt a (2 ^ h) ltac:(done)). pose proof (Z.mul_div_le b (2 ^ h) ltac:(done)). rewrite E in *. nia.
Qed.

Lemma differ a b (h := Z.log2 (Z.lxor a b)) :
  0 ≤ a → a < b → 0 ≤ h ∧ (∀ k, h < k → Z.testbit a k = Z.testbit b k) ∧ Z.testbit a h = false ∧ Z.testbit b h = true.
Proof.
  intros Ha Hab. assert (Z.lxor a b ≠ 0) as Hx by (rewrite Z.lxor_eq_0_iff; lia). assert (0 ≤ Z.lxor a b) by (apply Z.lxor_nonneg; lia).
  assert (0 ≤ h) as Hh by apply Z.log2_nonneg.
  assert (∀ k, h < k → Z.testbit a k = Z.testbit b k) as Habove.
  { intros k Hk. apply xorb_eq. rewrite <- Z.lxor_spec. apply Z.bits_above_log2; [done|apply Hk]. }
  split; [done|]. split; [done|]. pose proof (Z.bit_log2 (Z.lxor a b) ltac:(lia)) as Hbit. fold h in Hbit. rewrite Z.lxor_spec in Hbit.
  destruct (Z.testbit a h) eqn:Ea, (Z.testbit b h) eqn:Eb; try done. exfalso. assert (b < a) by (apply (top_bit b a h); [done| |done|done]; intros k Hk; symmetry; by apply Habove). lia.
Qed.

(** The order of codes extends the order of points. *)
Lemma code_mono a b : u64_ok a → u64_ok b → coord 0 a ≤ coord 0 b → coord 1 a ≤ coord 1 b → a ≤ b.
Proof.
  intros Ha Hb H0 H1. destruct (Z.lt_ge_cases b a) as [Hlt|]; [|done]. exfalso.
  destruct (differ b a ltac:(apply Hb) Hlt) as (Hh & Habove & Hbit & Hbit'). set (h := Z.log2 (Z.lxor b a)) in *.
  rewrite (code_bit b) in Hbit by done. rewrite (code_bit a) in Hbit' by done. pose proof (Z.mod_pos_bound h 2 ltac:(lia)).
  assert (coord (h `mod` 2) b < coord (h `mod` 2) a).
  { apply (top_bit _ _ (h / 2)); [apply Z.div_pos; lia| |done|done]. intros k Hk. assert (0 ≤ h / 2) by (apply Z.div_pos; lia). rewrite !coord_bits by (done || lia). apply Habove.
    pose proof (Z.div_mod h 2 ltac:(lia)). lia. }
  assert (h `mod` 2 = 0 ∨ h `mod` 2 = 1) as [E|E] by lia; rewrite E in *; lia.
Qed.

Lemma subset_le a b : 0 ≤ b → (∀ k, 0 ≤ k → Z.testbit a k = true → Z.testbit b k = true) → a ≤ b.
Proof.
  intros Hb H. apply Z.ldiff_le; [done|]. apply Z.bits_inj'. intros k Hk. rewrite Z.ldiff_spec, Z.bits_0. specialize (H k Hk).
  destruct (Z.testbit a k); [by rewrite H|done].
Qed.

(** ** Lemmas: boxes *)

Definition in_box (a : AABB) (c : Z) : Prop := (coord 0 (min_ a) ≤ coord 0 c ≤ coord 0 (max_ a)) ∧ (coord 1 (min_ a) ≤ coord 1 c ≤ coord 1 (max_ a)).

(** A box whose corners are ordered. *)
Record box_wf (a : AABB) : Prop := {
  wf_min : u64_ok (min_ a);
  wf_max : u64_ok (max_ a);
  wf_x : coord 0 (min_ a) ≤ coord 0 (max_ a);
  wf_y : coord 1 (min_ a) ≤ coord 1 (max_ a) }.

Lemma wf_le a : box_wf a → min_ a ≤ max_ a.
Proof. intros []. by apply code_mono. Qed.

Lemma in_box_range a c : box_wf a → u64_ok c → in_box a c → min_ a ≤ c ≤ max_ a.
Proof. intros [] Hc [[] []]. split; by apply code_mono. Qed.

Lemma wf_coord a d : box_wf a → d = 0 ∨ d = 1 → coord d (min_ a) ≤ coord d (max_ a).
Proof. by intros [] [-> | ->]. Qed.

Lemma in_box_coords a c d : d = 0 ∨ d = 1 →
  in_box a c ↔ (coord d (min_ a) ≤ coord d c ≤ coord d (max_ a)) ∧ (coord (1 - d) (min_ a) ≤ coord (1 - d) c ≤ coord (1 - d) (max_ a)).
Proof. intros [-> | ->]; unfold in_box; cbn; tauto. Qed.

Lemma wf_coords a d : d = 0 ∨ d = 1 → u64_ok (min_ a) → u64_ok (max_ a) →
  coord d (min_ a) ≤ coord d (max_ a) → coord (1 - d) (min_ a) ≤ coord (1 - d) (max_ a) → box_wf a.
Proof. by intros [-> | ->]. Qed.

Lemma land_clear m n : u64_ok m → 0 ≤ n → Z.land m (lnot64 (Z.shiftl 1 n - 1)) = m / 2 ^ n * 2 ^ n.
Proof.
  intros Hm Hn. rewrite <- Z.shiftr_div_pow2, <- Z.shiftl_mul_pow2, <- Z.ldiff_ones_r by done. apply Z.bits_inj'. intros k Hk.
  rewrite Z.land_spec, Z.ldiff_spec. unfold lnot64. rewrite u64_bits, Z.lnot_spec by done. rewrite Z.ones_equiv, Z.shiftl_1_l, Z.sub_1_r.
  destruct (Z.ltb_spec k 64); [done|]. by rewrite (high_bits 64 m).
Qed.

(** The coordinate at which a box is split: it has the bits of both corners
    above bit [j], in which they differ, and is the first value with that bit
    set. *)
Lemma part_bounds m M j (part := m / 2 ^ (j + 1) * 2 ^ (j + 1) + 2 ^ j) :
  0 ≤ j → 0 ≤ m → (∀ k, j < k → Z.testbit m k = Z.testbit M k) → Z.testbit m j = false → Z.testbit M j = true →
  m < part ≤ M ∧ (part - 1) / 2 ^ j + 1 = part / 2 ^ j ∧ Z.testbit (part - 1) j = false ∧ Z.testbit part j = true ∧ part / 2 ^ (j + 1) = m / 2 ^ (j + 1) ∧ (part - 1) / 2 ^ (j + 1) = m / 2 ^ (j + 1).
Proof.
  intros Hj Hm0 Habove Hm HM. destruct (top_div m M j) as [E E2]; try done. assert (0 < 2 ^ j) as Hp by lia. assert (2 ^ (j + 1) = 2 * 2 ^ j) as Ep by (rewrite Z.pow_add_r by lia; lia).
  assert (m / 2 ^ (j + 1) = m / 2 ^ j / 2) as Eq by (rewrite Z.div_div by lia; f_equal; lia).
  assert (part = (m / 2 ^ j + 1) * 2 ^ j) as Epart. { unfold part. rewrite Eq, Ep. pose proof (Z.div_mod (m / 2 ^ j) 2 ltac:(lia)) as Hd. rewrite E2 in Hd. nia. }
  assert (part / 2 ^ j = m / 2 ^ j + 1) as Hhi by (rewrite Epart; apply Z.div_mul; lia).
  assert ((part - 1) / 2 ^ j = m / 2 ^ j) as Hlo by (symmetry; apply Z.div_unique with (2 ^ j - 1); [lia|rewrite Epart; lia]).
  pose proof (Z.mul_succ_div_gt m (2 ^ j) Hp). pose proof (Z.mul_div_le M (2 ^ j) Hp). rewrite E in *.
  split_and!; [nia|nia|lia| | | |].
  - apply Z.testbit_false; [done|]. by rewrite Hlo.
  - apply Z.testbit_true; [done|]. rewrite Hhi. rewrite Z.add_mod, E2 by lia. done.
  - rewrite Ep, Z.mul_comm, <- !Z.div_div, Hhi by lia. symmetry. apply Z.div_unique with 1; [lia|]. pose proof (Z.div_mod (m / 2 ^ j) 2 ltac:(lia)). lia.
  - rewrite Ep, Z.mul_comm, <- !Z.div_div, Hlo by lia. done.
Qed.

(** A box of more than one code is split at [part] in the dimension [d] of the
    highest bit in which its corners differ. *)
Lemma split_point a (h := Z.log2 (Z.lxor (min_ a) (max_ a))) (d := h `mod` 2)
    (part := coord d (min_ a) / 2 ^ (h / 2 + 1) * 2 ^ (h / 2 + 1) + 2 ^ (h / 2)) :
  box_wf a → min_ a < max_ a →
  MortonGetNextAddress a = Some (set_coord d (part - 1) (max_ a), set_coord d part (min_ a)) ∧
  coord d (min_ a) < part ≤ coord d (max_ a) ∧ set_coord d (part - 1) (max_ a) < set_coord d part (min_ a).
Proof.
  intros Hwf Hlt. destruct Hwf as [Hmin Hmax _ _]. destruct (differ (min_ a) (max_ a) ltac:(apply Hmin) Hlt) as (Hh & Habove & Hb0 & Hb1). fold h in Hh, Habove, Hb0, Hb1.
  pose proof (Z.mod_pos_bound h 2 ltac:(lia)) as Hd. fold d in Hd. pose proof (Z.div_mod h 2 ltac:(lia)) as Edm. fold d in Edm. set (j := h / 2) in *. assert (0 ≤ j) as Hj by (apply Z.div_pos; lia).
  pose proof (coord_range d (min_ a) ltac:(lia) Hmin) as [Hm0 Hm1]. pose proof (coord_range d (max_ a) ltac:(lia) Hmax) as [HM0 HM1].
  destruct (part_bounds (coord d (min_ a)) (coord d (max_ a)) j Hj Hm0) as (Hpart & _ & Hlo & Hhi & Ehi & Elo).
  { intros k Hk. rewrite !coord_bits by (done || lia). apply Habove. lia. }
  { rewrite coord_bits, <- Edm by (done || lia). done. }
  { rewrite coord_bits, <- Edm by (done || lia). done. }
  fold part in Hpart, Hlo, Hhi, Ehi, Elo. assert (u32_ok part ∧ u32_ok (part - 1)) as [Hpok Hpok'] by (unfold u32_ok; lia). assert (d = 0 ∨ d = 1) as Hd' by lia.
  split; [|split; [done|]].
  - unfold MortonGetNextAddress, clzll. rewrite (proj2 (Z.eqb_neq _ _)) by (rewrite Z.lxor_eq_0_iff; lia). cbn [mbind option_bind]. fold h.
    replace (65 - (63 - h)) with ((j + 1) * 2 + d) by lia. rewrite (Z.div_add_l (j + 1) 2 d), (Z.div_small d 2), Z.add_0_r by lia.
    rewrite (Z.add_comm ((j + 1) * 2) d), Z.mod_add, (Z.mod_small d 2) by lia. fold (coord d (min_ a)). rewrite land_clear by (unfold u64_ok; lia).
    replace (j + 1 - 1) with j by lia. rewrite Z.shiftl_1_l. fold part. rewrite (u32_id part), (u32_id (part - 1)) by done. done.
  - apply (top_bit _ _ h); [done| | |].
    + intros k Hk. rewrite !set_coord_bits by (done || lia). rewrite (Habove k Hk). destruct (Z.eqb_spec (k `mod` 2) d) as [Ek|]; [|done].
      pose proof (Z.div_mod k 2 ltac:(lia)). apply (same_above (j + 1)); [lia|]. by rewrite Ehi.
    + rewrite set_coord_bits by (done || lia). fold d j. by rewrite Z.eqb_refl.
    + rewrite set_coord_bits by (done || lia). fold d j. by rewrite Z.eqb_refl.
Qed.

(** Both parts are boxes, apart in the order of codes, and the box is their
    union. *)
Lemma Split_ok a :
  box_wf a → min_ a < max_ a →
  ∃ first second, Split a = Some (first, second) ∧ box_wf first ∧ box_wf second ∧
    min_ first = min_ a ∧ max_ second = max_ a ∧ max_ first < min_ second ∧ (∀ c, in_box a c ↔ in_box first c ∨ in_box second c).
Proof.
  intros Hwf Hlt. destruct (split_point a Hwf Hlt) as (Hnext & Hpart & Hord). set (h := Z.log2 (Z.lxor (min_ a) (max_ a))) in *. set (d := h `mod` 2) in *.
  set (part := coord d (min_ a) / 2 ^ (h / 2 + 1) * 2 ^ (h / 2 + 1) + 2 ^ (h / 2)) in *. pose proof (Z.mod_pos_bound h 2 ltac:(lia)) as Hd. fold d in Hd. assert (d = 0 ∨ d = 1) as Hd' by lia. assert (1 - d = 0 ∨ 1 - d = 1) as Hd1 by lia.
  pose proof (wf_coord a (1 - d) Hwf Hd1) as Hother. destruct Hwf as [Hmin Hmax _ _].
  pose proof (coord_range d (min_ a) ltac:(lia) Hmin) as [Hm0 Hm1]. pose proof (coord_range d (max_ a) ltac:(lia) Hmax) as [HM0 HM1].
  destruct (set_coord_ok d (part - 1) (max_ a)) as (Hl & Hld & Hlo); [unfold u32_ok; lia|done|done|]. destruct (set_coord_ok d part (min_ a)) as (Hb & Hbd & Hbo); [unfold u32_ok; lia|done|done|].
  set (litmax := set_coord d (part - 1) (max_ a)) in *. set (bigmin := set_coord d part (min_ a)) in *.
  assert (box_wf {| min_ := min_ a; max_ := litmax |}) as Hw1 by (apply (wf_coords _ d); cbn; (done || lia)).
  assert (box_wf {| min_ := bigmin; max_ := max_ a |}) as Hw2 by (apply (wf_coords _ d); cbn; (done || lia)).
  exists {| min_ := min_ a; max_ := litmax |}, {| min_ := bigmin; max_ := max_ a |}. split.
  { unfold Split. rewrite Hnext. cbn [mbind option_bind]. pose proof (wf_le _ Hw1) as H1. pose proof (wf_le _ Hw2) as H2. cbn in H1, H2.
    rewrite (proj2 (Z.geb_le _ _) H1), (proj2 (Z.geb_le _ _) H2). done. }
  split_and!; try done. intros c. rewrite !(in_box_coords _ c d Hd'). cbn. rewrite Hld, Hlo, Hbd, Hbo. lia.
Qed.

(** ** Lemmas: aligned cells *)

Lemma pos_ctz_nonneg p : 0 ≤ pos_ctz p.
Proof. induction p; cbn [pos_ctz]; lia. Qed.

Lemma pos_ctz_divide p : (2 ^ pos_ctz p | Z.pos p).
Proof.
  induction p as [p _|p [q Hq]|]; cbn [pos_ctz]; [apply Z.divide_1_l| |apply Z.divide_1_l]. exists q. pose proof (pos_ctz_nonneg p).
  rewrite Z.pow_add_r, Z.pow_1_r by lia. lia.
Qed.

Lemma pos_popcount_pos p : 1 ≤ pos_popcount p.
Proof. induction p; cbn [pos_popcount]; lia. Qed.

Lemma pos_popcount_one p : pos_popcount p = 1 → Z.pos p = 2 ^ pos_ctz p.
Proof.
  induction p as [p _|p IH|]; cbn [pos_popcount pos_ctz]; intros H; [pose proof (pos_popcount_pos p); lia| |done].
  specialize (IH H). pose proof (pos_ctz_nonneg p). rewrite Z.pow_add_r, Z.pow_1_r by lia. lia.
Qed.

(** What [IsMortonAligned] decides on a box other than the whole space. *)
Lemma IsMortonAligned_ok a :
  box_wf a → max_ a - min_ a + 1 < 2 ^ 64 →
  ∃ b, IsMortonAligned a = Some b ∧
    if b then ∃ l, 0 ≤ l ∧ max_ a = min_ a + 2 ^ (2 * l) - 1 ∧ (2 ^ (2 * l) | min_ a) else min_ a < max_ a.
Proof.
  intros Hwf Hsmall. pose proof (wf_le a Hwf) as Hle. destruct Hwf as [[Hmin _] [_ Hmax] _ _]. unfold IsMortonAligned. rewrite (proj2 (Z.ltb_ge _ _)) by lia.
  rewrite u64_id by (unfold u64_ok; lia). destruct (max_ a - min_ a + 1) as [|p|p] eqn:Ep; [lia| |lia]. cbn [ctzll popcountll mbind option_bind].
  set (A := default (2 ^ 64 - 1) (ctzll (min_ a))). eexists; split; [reflexivity|].
  destruct (Z.leb_spec (pos_ctz p / 2) (A / 2)) as [Hal|Hal]; cbn [andb].
  2: { destruct (Z.eq_dec (min_ a) (max_ a)); [|lia]. assert (p = 1%positive) as -> by lia. exfalso. change (pos_ctz 1 / 2) with 0 in Hal. assert (0 ≤ A / 2); [|lia]. apply Z.div_pos; [|lia].
       unfold A. destruct (min_ a) as [|q|q]; cbn; [lia|apply pos_ctz_nonneg|lia]. }
  destruct (Z.eqb_spec (pos_popcount p) 1) as [Hpop|Hpop]; cbn [andb].
  2: { destruct (Z.eq_dec (min_ a) (max_ a)); [|lia]. assert (p = 1%positive) as -> by lia. done. }
  destruct (Z.eqb_spec (pos_ctz p `mod` 2) 0) as [Hev|Hev].
  2: { destruct (Z.eq_dec (min_ a) (max_ a)); [|lia]. assert (p = 1%positive) as -> by lia. done. }
  pose proof (pos_ctz_nonneg p). pose proof (Z.div_mod (pos_ctz p) 2 ltac:(lia)) as Edm. exists (pos_ctz p / 2). replace (2 * (pos_ctz p / 2)) with (pos_ctz p) by lia.
  rewrite <- pos_popcount_one by done. split_and!; [apply Z.div_pos; lia|lia|].
  rewrite pos_popcount_one by done. destruct (min_ a) as [|q|q] eqn:Eq; [apply Z.divide_0_r| |lia]. unfold A in Hal. cbn in Hal.
  apply Z.divide_trans with (2 ^ pos_ctz q); [|apply pos_ctz_divide]. pose proof (Z.div_mod (pos_ctz q) 2 ltac:(lia)). pose proof (Z.mod_pos_bound (pos_ctz q) 2 ltac:(lia)).
  exists (2 ^ (pos_ctz q - pos_ctz p)). rewrite <- Z.pow_add_r by lia. f_equal. lia.
Qed.

(** The codes of an aligned cell are those of its box. *)
Lemma aligned_box a l :
  box_wf a → 0 ≤ l → max_ a = min_ a + 2 ^ (2 * l) - 1 → (2 ^ (2 * l) | min_ a) → ∀ c, u64_ok c → in_box a c ↔ min_ a ≤ c ≤ max_ a.
Proof.
  intros Hwf Hl Hmax [q Hq] c Hc. split; [by apply in_box_range|]. intros Hr. destruct Hwf as [Hmn Hmx _ _]. assert (0 < 2 ^ (2 * l)) as Hp by lia.
  assert (∀ x, min_ a ≤ x ≤ max_ a → x / 2 ^ (2 * l) = q) as Hdiv by (intros x Hx; symmetry; apply Z.div_unique with (x - min_ a); lia).
  assert (∀ k, 0 ≤ k < 2 * l → Z.testbit (min_ a) k = false) as Hlow0. { intros k Hk. rewrite Hq. apply Z.mul_pow2_bits_low. lia. }
  assert (∀ k, 0 ≤ k < 2 * l → Z.testbit (max_ a) k = true) as Hlow1.
  { intros k Hk. rewrite <- (Z.mod_pow2_bits_low (max_ a) (2 * l)) by lia. replace (max_ a `mod` 2 ^ (2 * l)) with (Z.ones (2 * l)); [apply Z.ones_spec_low; lia|].
    rewrite Z.ones_equiv. apply Z.mod_unique with q; lia. }
  assert (∀ d, 0 ≤ d < 2 → coord d (min_ a) ≤ coord d c ≤ coord d (max_ a)) as H; [|split; apply H; lia].
  intros d Hd. split; (apply subset_le; [apply compact_nonneg|]); intros k Hk; rewrite !coord_bits by (done || lia); destruct (Z.lt_ge_cases (2 * k + d) (2 * l)) as [Hlt|Hge].
  - by rewrite Hlow0 by lia.
  - by rewrite (same_above (2 * l) (min_ a) c) by (lia || by rewrite !Hdiv by lia).
  - intros _. apply Hlow1. lia.
  - by rewrite (same_above (2 * l) c (max_ a)) by (lia || by rewrite !Hdiv by lia).
Qed.

(** ** Lemmas: the loops *)

(** Intervals in order, with codes between any two. *)
Definition gap (i j : Interval) : Prop := end_ i + 1 < start_ j.

Definition covered (out : list Interval) (c : Z) : Prop := ∃ i, i ∈ out ∧ Contains i c = true.

Record out_ok (out : list Interval) (lim : Z) : Prop := {
  out_sorted : StronglySorted gap out;
  out_ends : Forall (λ i, 0 ≤ start_ i ≤ end_ i ∧ end_ i < lim) out }.

(** The pending boxes in order, from code [lo]. *)
Fixpoint chain (lo : Z) (inputs : list AABB) : Prop :=
  match inputs with
  | [] => True
  | a :: rest => box_wf a ∧ max_ a - min_ a + 1 < 2 ^ 64 ∧ lo ≤ min_ a ∧ chain (max_ a + 1) rest
  end.

(** Turns of the loop that suffice. *)
Fixpoint cost (inputs : list AABB) : Z :=
  match inputs with [] => 0 | a :: rest => 2 * (max_ a - min_ a + 1) - 1 + cost rest end.

Lemma Contains_spec i c : Contains i c = true ↔ start_ i ≤ c ≤ end_ i.
Proof. unfold Contains. rewrite andb_true_iff, Z.geb_le, Z.leb_le. done. Qed.

Lemma covered_app out out' c : covered (out ++ out') c ↔ covered out c ∨ covered out' c.
Proof. unfold covered. set_solver. Qed.

Lemma covered_one i c : covered [i] c ↔ start_ i ≤ c ≤ end_ i.
Proof. rewrite <- Contains_spec. unfold covered. set_solver. Qed.

Lemma covered_nil c : ¬ covered [] c.
Proof. unfold covered. set_solver. Qed.

Lemma chain_cost inputs lo : chain lo inputs → 0 ≤ cost inputs.
Proof. revert lo. induction inputs as [|a rest IH]; intros lo; [done|]. intros (Hwf & _ & _ & Hc). cbn. pose proof (wf_le a Hwf). specialize (IH _ Hc). lia. Qed.

Lemma out_ok_mono out lim lim' : out_ok out lim → lim ≤ lim' → out_ok out lim'.
Proof. intros [Hs He] Hl. split; [done|]. eapply Forall_impl; [done|]. cbn. lia. Qed.

Lemma out_ok_snoc out i lim :
  out_ok out lim → 0 ≤ start_ i ≤ end_ i → (∀ j, j ∈ out → gap j i) → out_ok (out ++ [i]) (Z.max lim (end_ i + 1)).
Proof.
  intros [Hs He] Hi Hg. split.
  - apply StronglySorted_app. split_and!; [|done|repeat constructor]. intros j i' Hj Hi'. apply list_elem_of_singleton in Hi' as ->. by apply Hg.
  - rewrite Forall_app, Forall_singleton. cbn. split; [|lia]. eapply Forall_impl; [done|]. cbn. lia.
Qed.

(** A cell after every interval keeps them sorted and apart, and adds its codes. *)
Lemma push_cell_ok out a :
  out_ok out (min_ a) → u64_ok (min_ a) → min_ a ≤ max_ a →
  out_ok (push_cell out a) (max_ a + 1) ∧ ∀ c, covered (push_cell out a) c ↔ covered out c ∨ min_ a ≤ c ≤ max_ a.
Proof.
  intros Hok Hmin Hle. unfold push_cell. destruct out as [|back o _] using rev_ind.
  { cbn [last]. split; [|intros c; by rewrite covered_app, covered_one]. eapply out_ok_mono; [apply (out_ok_snoc [] (ToCell a) 0); [split; constructor|cbn; destruct Hmin; lia|set_solver]|cbn]. destruct Hmin. lia. }
  rewrite last_snoc, removelast_last. destruct Hok as [Hs He]. apply StronglySorted_app in Hs as (Hg & Hs & _). rewrite Forall_app, Forall_singleton in He. destruct He as [He [Hb1 Hb2]].
  assert (out_ok o (min_ a)) as Ho by done.
  assert (∀ j, j ∈ o → gap j back) as Hgap by (intros j Hj; apply Hg; set_solver).
  destruct (Z.eqb_spec (u64 (end_ back + 1)) (min_ a)) as [E|E].
  - assert (end_ back + 1 = min_ a) as E'.
    { rewrite <- E. symmetry. apply u64_id. unfold u64_ok in *. lia. }
    split; [|intros c; rewrite !covered_app, !covered_one; cbn; assert (start_ back ≤ c ≤ max_ a ↔ start_ back ≤ c ≤ end_ back ∨ min_ a ≤ c ≤ max_ a) by lia; tauto].
    eapply out_ok_mono; [apply (out_ok_snoc o _ (min_ a) Ho); cbn; [lia|done]|cbn; lia].
  - split; [|intros c; rewrite covered_app, covered_one; done].
    assert (end_ back + 1 ≠ min_ a). { intros E'. apply E. rewrite E'. by apply u64_id. }
    eapply out_ok_mono; [apply (out_ok_snoc _ (ToCell a) (min_ a)); [split|cbn; lia|]|cbn; lia].
    + apply StronglySorted_app. split_and!; [done|done|repeat constructor].
    + rewrite Forall_app, Forall_singleton. done.
    + intros j Hj. unfold gap; cbn. apply elem_of_app in Hj as [Hj|Hj]; [|apply list_elem_of_singleton in Hj as ->; lia].
      specialize (Hgap j Hj). unfold gap in Hgap. lia.
Qed.

(** An aligned cell. *)
Definition cell (i : Interval) : Prop := ∃ l, 0 ≤ l ∧ end_ i = start_ i + 2 ^ (2 * l) - 1 ∧ (2 ^ (2 * l) | start_ i).

(** One turn on the box at the back of the vector: an aligned cell, or two
    boxes that take its place. *)
Lemma turn_ok a rest lo :
  chain lo (a :: rest) →
  (IsMortonAligned a = Some true ∧ cell (ToCell a) ∧ ∀ c, u64_ok c → in_box a c ↔ min_ a ≤ c ≤ max_ a) ∨
  ∃ first second, IsMortonAligned a = Some false ∧ Split a = Some (first, second) ∧ chain lo (first :: second :: rest) ∧
    cost (first :: second :: rest) < cost (a :: rest) ∧ (∀ c, in_box a c ↔ in_box first c ∨ in_box second c).
Proof.
  intros (Hwf & Hs & Hlo & Hc). destruct (IsMortonAligned_ok a Hwf Hs) as ([|] & Hal & Hb); [left|right].
  - destruct Hb as (l & Hl & Hmax & Hdiv). split_and!; [done|by exists l|]. by eapply aligned_box.
  - destruct (Split_ok a Hwf Hb) as (first & second & Hsp & Hw1 & Hw2 & E1 & E2 & Hord & Hin). exists first, second. pose proof (wf_le _ Hw1). pose proof (wf_le _ Hw2). cbn [chain cost]. rewrite E2.
    split_and!; try done; lia.
Qed.

Lemma ToIntervals_loop_ok fuel inputs out lo :
  chain lo inputs → out_ok out lo → cost inputs ≤ Z.of_nat fuel →
  ∃ out' lim, ToIntervals_loop fuel inputs out = Some out' ∧ out_ok out' lim ∧
    ∀ c, u64_ok c → covered out' c ↔ covered out c ∨ Exists (λ a, in_box a c) inputs.
Proof.
  revert inputs out lo. induction fuel as [|fuel IH]; intros [|a rest] out lo Hch Hok Hfuel.
  1, 3: exists out, lo; split_and!; [done|done|]; intros c _; split; [by left|]; intros [?|[]%Exists_nil]; done.
  - exfalso. destruct Hch as (Hwf & _ & _ & Hc). cbn in Hfuel. pose proof (wf_le a Hwf). pose proof (chain_cost _ _ Hc). lia.
  - pose proof Hch as (Hwf & _ & Hlo & Hrest). pose proof (wf_le a Hwf) as Hle. cbn [ToIntervals_loop].
    destruct (turn_ok a rest lo Hch) as [(-> & _ & Hcell)|(first & second & -> & Hsp & Hch' & Hcost & Hin)]; cbn [mbind option_bind].
    + destruct (push_cell_ok out a) as [Hok' Hcov]; [by eapply out_ok_mono|apply Hwf|done|]. cbn [cost] in Hfuel.
      destruct (IH rest (push_cell out a) (max_ a + 1)) as (out' & lim & Hrun & Hout & Hall); [done|done|lia|].
      exists out', lim. split_and!; [done|done|]. intros c Hc. rewrite Hall, Hcov, <- Hcell, Exists_cons by done. tauto.
    + rewrite Hsp. cbn [mbind option_bind]. destruct (IH (first :: second :: rest) out lo) as (out' & lim & Hrun & Hout & Hall); [done|done|lia|].
      exists out', lim. split_and!; [done|done|]. intros c Hc. rewrite Hall, !Exists_cons, Hin by done. tauto.
Qed.

Lemma Encode_box x0 y0 x1 y1 :
  u32_ok x0 → u32_ok y0 → u32_ok x1 → u32_ok y1 → x0 ≤ x1 → y0 ≤ y1 → box_wf {| min_ := Encode x0 y0; max_ := Encode x1 y1 |}.
Proof.
  intros Hx0 Hy0 Hx1 Hy1 Hx Hy. destruct (Encode_ok x0 y0) as (H0 & E0 & F0); [done|done|]. destruct (Encode_ok x1 y1) as (H1 & E1 & F1); [done|done|].
  split; cbn; try done; lia.
Qed.

Lemma Encode_in_box x0 y0 x1 y1 x y :
  u32_ok x0 → u32_ok y0 → u32_ok x1 → u32_ok y1 → u32_ok x → u32_ok y →
  in_box {| min_ := Encode x0 y0; max_ := Encode x1 y1 |} (Encode x y) ↔ x0 ≤ x ≤ x1 ∧ y0 ≤ y ≤ y1.
Proof.
  intros. destruct (Encode_ok x0 y0) as (_ & E0 & F0); [done|done|]. destruct (Encode_ok x1 y1) as (_ & E1 & F1); [done|done|]. destruct (Encode_ok x y) as (_ & E & F); [done|done|].
  unfold in_box; cbn. rewrite E0, F0, E1, F1, E, F. done.
Qed.

(** ** Claims *)

(** Decoding is the inverse of encoding: the portable bit routines interleave
    and gather the bits of two 32-bit coordinates. *)
Theorem morton_roundtrip x y c :
  (u32_ok x → u32_ok y → Decode (Encode x y) = (x, y)) ∧ (u64_ok c → Encode (Decode c).1 (Decode c).2 = c).
Proof.
  split; [intros Hx Hy|intros Hc].
  - destruct (Encode_ok x y Hx Hy) as (Hc & H0 & H1). by rewrite Decode_coord, H0, H1.
  - rewrite Decode_coord by done. cbn. pose proof (coord_range 0 c ltac:(done) Hc) as H0. pose proof (coord_range 1 c ltac:(done) Hc) as H1.
    destruct (Encode_ok _ _ H0 H1) as (He & E0 & E1). by apply code_inj.
Qed.

(** C29: [AABB::ToIntervals] on a box of points other than the whole space ends,
    no assertion fails, and the intervals it returns are sorted, have codes
    between them, and contain exactly the codes of the points of the box. *)
Theorem to_intervals_exact x0 y0 x1 y1 (a := {| min_ := Encode x0 y0; max_ := Encode x1 y1 |}) fuel :
  u32_ok x0 → u32_ok y0 → u32_ok x1 → u32_ok y1 → x0 ≤ x1 → y0 ≤ y1 → max_ a - min_ a < 2 ^ 64 - 1 →
  2 * (max_ a - min_ a + 1) ≤ Z.of_nat fuel →
  ∃ out, ToIntervals fuel a = Some out ∧ StronglySorted (λ i j, end_ i + 1 < start_ j) out ∧
    ∀ x y, u32_ok x → u32_ok y → (∃ i, i ∈ out ∧ Contains i (Encode x y) = true) ↔ x0 ≤ x ≤ x1 ∧ y0 ≤ y ≤ y1.
Proof.
  intros Hx0 Hy0 Hx1 Hy1 Hx Hy Hwhole Hfuel. pose proof (Encode_box x0 y0 x1 y1 Hx0 Hy0 Hx1 Hy1 Hx Hy) as Hwf. fold a in Hwf. pose proof (wf_le a Hwf) as Hle.
  unfold ToIntervals. rewrite (proj2 (Z.ltb_ge _ _)) by done.
  destruct (ToIntervals_loop_ok fuel [a] [] (min_ a)) as (out & lim & Hrun & [Hs _] & Hall); [|split; constructor|cbn [cost]; lia|].
  { split_and!; [done|lia|done|done]. }
  exists out. split_and!; [done|done|]. intros x y Hxo Hyo. rewrite <- (Encode_in_box x0 y0 x1 y1) by done. fold a. destruct (Encode_ok x y Hxo Hyo) as (Hc & _).
  specialize (Hall _ Hc). unfold covered in Hall. rewrite Hall, Exists_cons, Exists_nil. pose proof (covered_nil (Encode x y)). unfold covered in *. tauto.
Qed.

Lemma to_intervals_exact_witness :
  ∃ out, ToIntervals 80 {| min_ := Encode 1 0; max_ := Encode 3 5 |} = Some out ∧ StronglySorted (λ i j, end_ i + 1 < start_ j) out ∧
    ∀ x y, u32_ok x → u32_ok y → (∃ i, i ∈ out ∧ Contains i (Encode x y) = true) ↔ 1 ≤ x ≤ 3 ∧ 0 ≤ y ≤ 5.
Proof. apply (to_intervals_exact 1 0 3 5 80); try split; vm_compute; (discriminate || reflexivity). Defined.

(** Intervals that follow each other without a gap from [s] to [e]. *)
Fixpoint tiles (s e : Z) (v : list Interval) : Prop :=
  match v with
  | [] => s = e + 1
  | i :: v => start_ i = s ∧ cell i ∧ tiles (end_ i + 1) e v
  end.

Lemma FastLog2_ok x : 0 < x → FastLog2 x = Some (Z.log2 x).
Proof. intros Hx. unfold FastLog2, clzll. rewrite (proj2 (Z.eqb_neq _ _)) by lia. cbn. f_equal. lia. Qed.

Lemma GetMortonCode_ok l : 0 ≤ l < 32 → GetMortonCode l = Some (2 ^ (2 * l) - 1).
Proof. intros Hl. unfold GetMortonCode. rewrite (proj2 (Z.ltb_lt _ _)), Z.shiftl_1_l, (Z.mul_comm l) by lia. done. Qed.

Lemma log2_range x n : 0 < x < 2 ^ n → 0 ≤ Z.log2 x < n ∧ 2 ^ Z.log2 x ≤ x.
Proof. intros Hx. split; [split; [apply Z.log2_nonneg|apply Z.log2_lt_pow2; lia]|]. apply Z.log2_spec. lia. Qed.

Lemma even_pow_le n : 0 ≤ n → 2 ^ (2 * (n / 2)) ≤ 2 ^ n.
Proof. intros Hn. apply Z.pow_le_mono_r; [done|]. pose proof (Z.mul_div_le n 2 ltac:(lia)). lia. Qed.

(** The largest aligned cell that starts at [s] and does not pass [e]. *)
Lemma GetAlignMax_ok s e : u64_ok s → s ≤ e → e < 2 ^ 64 - 1 → ∃ m, GetAlignMax s e = Some m ∧ s ≤ m ≤ e ∧ cell {| start_ := s; end_ := m |}.
Proof.
  intros [Hs _] Hle He. unfold GetAlignMax. rewrite (proj2 (Z.ltb_ge _ _)) by done. destruct (Z.eqb_spec e s) as [-> |Hne].
  { exists s. split_and!; [done|lia|lia|]. exists 0. split_and!; [lia|cbn; lia|apply Z.divide_1_l]. }
  rewrite (u64_id (e + 1 - s)), FastLog2_ok by (unfold u64_ok; lia). destruct (log2_range (e + 1 - s) 64 ltac:(lia)) as [Hlog Hpow]. set (n := Z.log2 (e + 1 - s)) in *. pose proof (even_pow_le n ltac:(lia)) as Heven.
  assert (0 ≤ n / 2 < 32) as Hn by (split; [apply Z.div_pos; lia|apply Z.div_lt_upper_bound; lia]). assert (0 < 2 ^ (2 * (n / 2))) by lia.
  destruct s as [|p|p]; [| |lia].
  - cbn [Z.eqb negb mbind option_bind]. rewrite GetMortonCode_ok by done. cbn [mbind option_bind]. rewrite u64_id by (unfold u64_ok; lia). eexists; split; [reflexivity|].
    rewrite Z.min_r by lia. split; [lia|]. exists (n / 2). cbn. split_and!; [lia|lia|apply Z.divide_0_r].
  - pose proof (pos_ctz_divide p) as Hdiv. pose proof (pos_ctz_nonneg p) as Hctz. pose proof (Z.divide_pos_le (2 ^ pos_ctz p) (Z.pos p) ltac:(lia) Hdiv) as Hcle. cbn [Z.eqb negb mbind option_bind GetMaxAlignLevel ctzll].
    assert (pos_ctz p < 64) as Hc64. { apply (Z.pow_lt_mono_r_iff 2); lia. } set (r := pos_ctz p) in *. pose proof (even_pow_le r Hctz) as Hreven.
    assert (0 ≤ r / 2 < 32) as Hr by (split; [apply Z.div_pos; lia|apply Z.div_lt_upper_bound; lia]). assert (0 < 2 ^ (2 * (r / 2))) by lia.
    rewrite !GetMortonCode_ok by done. cbn [mbind option_bind]. rewrite (u64_id (Z.pos p + (2 ^ (2 * (n / 2)) - 1))) by (unfold u64_ok; lia).
    assert (2 ^ 64 = 2 ^ r * 2 ^ (64 - r)) as E64 by (rewrite <- Z.pow_add_r by lia; f_equal; lia).
    assert (Z.pos p + 2 ^ r ≤ 2 ^ 64) as Hfit. { destruct Hdiv as [q Hq]. rewrite Hq, E64 in *. assert (q < 2 ^ (64 - r)) by nia. nia. }
    rewrite u64_id by (unfold u64_ok; lia). eexists; split; [reflexivity|]. split; [lia|]. exists (Z.min (r / 2) (n / 2)). cbn [start_ end_]. split; [lia|].
    assert (2 ^ (2 * Z.min (r / 2) (n / 2)) = Z.min (2 ^ (2 * (r / 2))) (2 ^ (2 * (n / 2)))) as Emin.
    { destruct (Z.le_ge_cases (r / 2) (n / 2)) as [Hrn|Hrn].
      - rewrite Z.min_l by done. rewrite Z.min_l; [done|]. apply Z.pow_le_mono_r; lia.
      - rewrite Z.min_r by done. rewrite Z.min_r; [done|]. apply Z.pow_le_mono_r; lia. }
    rewrite Emin. split; [lia|]. rewrite <- Emin. apply Z.divide_trans with (2 ^ r); [|done]. pose proof (Z.mul_div_le r 2 ltac:(lia)). set (w := 2 * Z.min (r / 2) (n / 2)). assert (0 ≤ w ≤ r) by lia.
    exists (2 ^ (r - w)). rewrite <- Z.pow_add_r by lia. f_equal. lia.
Qed.

Lemma tiles_app s e e' v v' : tiles s e v → tiles (e + 1) e' v' → tiles s e' (v ++ v').
Proof. revert s. induction v as [|i v IH]; intros s; cbn; [by intros ->|]. intros (? & ? & ?) ?. split_and!; auto. Qed.

Lemma Cells_loop_ok fuel s0 s e v :
  u64_ok s → s ≤ e + 1 → e < 2 ^ 64 - 1 → tiles s0 (s - 1) v → e + 1 - s ≤ Z.of_nat fuel → ∃ v', Cells_loop fuel s e v = Some v' ∧ tiles s0 e v'.
Proof.
  revert s v. induction fuel as [|fuel IH]; intros s v Hs Hle He Hv Hfuel; cbn [Cells_loop]; destruct (Z.leb_spec s e) as [Hse|Hse].
  - lia.
  - exists v. split; [done|]. by replace e with (s - 1) by lia.
  - destruct (GetAlignMax_ok s e Hs Hse He) as (m & -> & Hm & Hcell). cbn [mbind option_bind]. destruct Hs as [Hs0 Hs1]. rewrite u64_id by (unfold u64_ok; lia).
    apply IH; [unfold u64_ok; lia|lia|done| |lia]. apply (tiles_app _ (s - 1)); [done|]. cbn. split_and!; [lia|done|lia].
  - exists v. split; [done|]. by replace e with (s - 1) by lia.
Qed.

(** The cells of a box are in order from [lo]. *)
Lemma ToCells_loop_ok fuel inputs out lo :
  chain lo inputs → cost inputs ≤ Z.of_nat fuel →
  ∃ cells, ToCells_loop fuel inputs out = Some (out ++ cells) ∧ Forall (λ i, lo ≤ start_ i ∧ cell i) cells ∧ StronglySorted (λ i j, end_ i < start_ j) cells ∧
    ∀ c, u64_ok c → covered cells c ↔ Exists (λ a, in_box a c) inputs.
Proof.
  revert inputs out lo. induction fuel as [|fuel IH]; intros [|a rest] out lo Hch Hfuel.
  1, 3: exists []; rewrite app_nil_r; split_and!; [done|constructor|constructor|]; intros c _; rewrite Exists_nil; pose proof (covered_nil c); tauto.
  - exfalso. destruct Hch as (Hwf & _ & _ & Hc). cbn in Hfuel. pose proof (wf_le a Hwf). pose proof (chain_cost _ _ Hc). lia.
  - pose proof Hch as (Hwf & _ & Hlo & Hrest). pose proof (wf_le a Hwf) as Hle. cbn [ToCells_loop].
    destruct (turn_ok a rest lo Hch) as [(-> & Hal & Hcell)|(first & second & -> & Hsp & Hch' & Hcost & Hin)]; cbn [mbind option_bind].
    + cbn [cost] in Hfuel. destruct (IH rest (out ++ [ToCell a]) (max_ a + 1)) as (cells & Hrun & Hall & Hs & Hcov); [done|lia|].
      exists (ToCell a :: cells). rewrite Hrun, <- app_assoc. split_and!; [done| | |].
      * constructor; [done|]. eapply Forall_impl; [done|]. cbn. intros i [? ?]. split; [lia|done].
      * constructor; [done|]. eapply Forall_impl; [done|]. cbn. lia.
      * intros c Hc. change (ToCell a :: cells) with ([ToCell a] ++ cells). rewrite covered_app, covered_one, Hcov, Exists_cons, (Hcell c) by done. done.
    + rewrite Hsp. cbn [mbind option_bind]. destruct (IH (first :: second :: rest) out lo) as (cells & Hrun & Hall & Hs & Hcov); [done|lia|].
      exists cells. split_and!; try done. intros c Hc. rewrite Hcov, !Exists_cons, Hin by done. tauto.
Qed.

(** [AABB::ToCells] returns the aligned cells, in order, that make up a box. *)
Theorem to_cells_exact a fuel :
  box_wf a → max_ a - min_ a + 1 < 2 ^ 64 → 2 * (max_ a - min_ a + 1) ≤ Z.of_nat fuel →
  ∃ cells, ToCells fuel a = Some cells ∧ Forall cell cells ∧ StronglySorted (λ i j, end_ i < start_ j) cells ∧ ∀ c, u64_ok c → covered cells c ↔ in_box a c.
Proof.
  intros Hwf Hs Hfuel. pose proof (wf_le a Hwf). destruct (ToCells_loop_ok fuel [a] [] (min_ a)) as (cells & Hrun & Hall & Hsort & Hcov); [split_and!; try done; lia|cbn [cost]; lia|].
  exists cells. unfold ToCells. rewrite (proj2 (Z.ltb_ge _ _)) by done. split_and!; [done|by eapply Forall_impl; [done|]; intros ? []|done|].
  intros c Hc. rewrite Hcov, Exists_cons, Exists_nil by done. tauto.
Qed.

(** [Interval::ToCells] cuts an interval that does not end at the last code into
    aligned cells that follow each other. *)
Theorem interval_cells_exact i fuel :
  u64_ok (start_ i) → start_ i ≤ end_ i → end_ i < 2 ^ 64 - 1 → end_ i + 1 - start_ i ≤ Z.of_nat fuel → ∃ v, Interval_ToCells fuel i = Some v ∧ tiles (start_ i) (end_ i) v.
Proof. intros Hs Hle He Hfuel. apply Cells_loop_ok; [done|lia|done|cbn; lia|done]. Qed.

(** The cell of [GetUnifyingLevel] and [GetParentMortonAligned] holds both codes;
    when they differ in the first coordinate bits there is none: the shift is by
    64. *)
Theorem unifying_cell min max :
  u64_ok min → u64_ok max → min ≤ max →
  ∃ l, GetUnifyingLevel min max = Some l ∧ 0 ≤ l ≤ 32 ∧
    match GetParentMortonAligned min l with
    | Some p => (2 ^ (2 * l) | p) ∧ p ≤ min ∧ max < p + 2 ^ (2 * l)
    | None => l = 32
    end.
Proof.
  intros Hmin Hmax Hle. pose proof Hmin as [Hm0 Hm1]. pose proof Hmax as [HM0 HM1]. unfold GetUnifyingLevel. rewrite (proj2 (Z.ltb_ge _ _)) by done.
  assert (∀ l, 0 ≤ l ≤ 32 → min / 2 ^ (2 * l) = max / 2 ^ (2 * l) → match GetParentMortonAligned min l with Some p => (2 ^ (2 * l) | p) ∧ p ≤ min ∧ max < p + 2 ^ (2 * l) | None => l = 32 end) as Hcell.
  { intros l Hl E. unfold GetParentMortonAligned. destruct (Z.ltb_spec (2 * l) 64); [|lia]. rewrite Z.shiftr_div_pow2, Z.shiftl_mul_pow2 by lia. assert (0 < 2 ^ (2 * l)) as Hp by lia.
    pose proof (Z.mul_div_le min (2 ^ (2 * l)) Hp). pose proof (Z.mul_succ_div_gt max (2 ^ (2 * l)) Hp). assert (0 ≤ min / 2 ^ (2 * l)) by (apply Z.div_pos; lia).
    rewrite u64_id by (unfold u64_ok; nia). split_and!; [apply Z.divide_factor_r|lia|nia]. }
  destruct (Z.eqb_spec max min) as [-> |Hne].
  { exists 0. split_and!; [done|done|done|]. apply (Hcell 0); [done|reflexivity]. }
  destruct (differ min max Hm0 ltac:(lia)) as (Hh & Habove & Hb0 & Hb1). rewrite Z.lxor_comm. set (h := Z.log2 (Z.lxor min max)) in *.
  assert (0 < Z.lxor min max). { assert (0 ≤ Z.lxor min max) by (apply Z.lxor_nonneg; lia). assert (Z.lxor min max ≠ 0) by (rewrite Z.lxor_eq_0_iff; lia). lia. }
  rewrite FastLog2_ok by done. cbn [mbind option_bind]. fold h. assert (h < 64) as H64. { destruct (Z.lt_ge_cases h 64); [done|]. rewrite (high_bits 64 max) in Hb1; done. }
  pose proof (Z.div_mod h 2 ltac:(lia)). pose proof (Z.mod_pos_bound h 2 ltac:(lia)). assert (0 ≤ h / 2 + 1 ≤ 32) by lia. exists (h / 2 + 1). split_and!; try lia; [done|].
  apply Hcell; [lia|]. apply above_div; [lia|]. intros k Hk. apply Habove. lia.
Qed.

(** ** Defects *)

(** The iterator over intervals finishes when it stores the last one, so a loop
    from [Begin()] to [End()] does not see it. *)
Theorem iterator_misses_last :
  ToIntervals 80 {| min_ := Encode 1 0; max_ := Encode 3 5 |} = Some [{| start_ := 1; end_ := 1 |}; {| start_ := 3; end_ := 7 |}; {| start_ := 9; end_ := 9 |}; {| start_ := 11; end_ := 15 |};
      {| start_ := 33; end_ := 33 |}; {| start_ := 35; end_ := 39 |}] ∧
  ForEach 10 80 {| min_ := Encode 1 0; max_ := Encode 3 5 |} = Some [{| start_ := 1; end_ := 1 |}; {| start_ := 3; end_ := 7 |}; {| start_ := 9; end_ := 9 |}; {| start_ := 11; end_ := 15 |};
      {| start_ := 33; end_ := 33 |}].
Proof. vm_compute. done. Qed.

(** A first cell [{0, 0}] is taken for the initial value and overwritten. *)
Theorem iterator_loses_origin :
  ToIntervals 80 {| min_ := Encode 0 0; max_ := Encode 2 0 |} = Some [{| start_ := 0; end_ := 1 |}; {| start_ := 4; end_ := 4 |}] ∧
  ForEach 10 80 {| min_ := Encode 0 0; max_ := Encode 2 0 |} = Some [{| start_ := 1; end_ := 1 |}].
Proof. vm_compute. done. Qed.

(** An interval that ends at the last code wraps to code 0 and fails an
    assertion, whatever the fuel. *)
Theorem cells_of_last_code fuel : Interval_ToCells fuel {| start_ := 2 ^ 64 - 4; end_ := 2 ^ 64 - 1 |} = None.
Proof. destruct fuel as [|[|fuel]]; vm_compute; reflexivity. Qed.
