(* ===== verification/Snapshot.v ===== *)
(** * db/snapshot.h: the list of snapshots

    Snapshots are nodes of a circular doubly linked list in the order of their
    sequence numbers, so that the oldest one, which bounds what a compaction may
    drop, is the first. The nodes live in a store of addresses; [head_] has
    address 0. *)

From Stdlib Require Import ZArith Sorted.
From stdpp Require Import sorting.
From S2P Require Import Prelude.

#[local] Open Scope Z_scope.

Record SnapshotImpl := { sequence_number_ : Z; prev_ : Z; next_ : Z }.

(** The nodes, the head among them; [None] below is the use of an address that
    holds no node, or a failed assertion. *)
Notation SnapshotList := (gmap Z SnapshotImpl).

Definition head_ : Z := 0.

Definition NewSnapshotList : SnapshotList := {[ head_ := {| sequence_number_ := 0; prev_ := head_; next_ := head_ |} ]}.

Definition next (h : SnapshotList) (p : Z) : option Z := n ← h !! p; Some (next_ n).
Definition prev (h : SnapshotList) (p : Z) : option Z := n ← h !! p; Some (prev_ n).

Definition set_next (h : SnapshotList) (p q : Z) : option SnapshotList :=
  n ← h !! p; Some (<[p := {| sequence_number_ := sequence_number_ n; prev_ := prev_ n; next_ := q |}]> h).
Definition set_prev (h : SnapshotList) (p q : Z) : option SnapshotList :=
  n ← h !! p; Some (<[p := {| sequence_number_ := sequence_number_ n; prev_ := q; next_ := next_ n |}]> h).

Definition sequence_number (h : SnapshotList) (p : Z) : option Z := n ← h !! p; Some (sequence_number_ n).

Definition empty (h : SnapshotList) : option bool := n ← next h head_; Some (n =? head_).

Definition oldest (h : SnapshotList) : option Z := e ← empty h; if (e : bool) then None else next h head_.
Definition newest (h : SnapshotList) : option Z := e ← empty h; if (e : bool) then None else prev h head_.

(** [snapshot] is the address of the new node. *)
Definition New (h : SnapshotList) (snapshot sequence_number_ : Z) : option SnapshotList :=
  e ← empty h;
  ok ← (if (e : bool) then Some true else p ← newest h; s ← sequence_number h p; Some (s <=? sequence_number_));
  if (ok : bool) then
    head_prev ← prev h head_;
    let h := <[snapshot := {| sequence_number_ := sequence_number_; prev_ := head_prev; next_ := head_ |}]> h in
    p ← prev h snapshot;
    h ← set_next h p snapshot;
    n ← next h snapshot;
    set_prev h n snapshot
  else None.

Definition Delete (h : SnapshotList) (snapshot : Z) : option SnapshotList :=
  p ← prev h snapshot;
  n ← next h snapshot;
  h ← set_next h p n;
  n ← next h snapshot;
  p ← prev h snapshot;
  h ← set_prev h n p;
  Some (delete snapshot h).

(** ** db_impl.cc *)

Definition GetSnapshot (h : SnapshotList) (snapshot LastSequence : Z) : option SnapshotList := New h snapshot LastSequence.

Definition ReleaseSnapshot (h : SnapshotList) (snapshot : Z) : option SnapshotList := Delete h snapshot.

(** The bound below which a compaction may drop shadowed entries. *)
Definition smallest_snapshot (h : SnapshotList) (LastSequence : Z) : option Z :=
  e ← empty h; if (e : bool) then Some LastSequence else p ← oldest h; sequence_number h p.

(** ** Lemmas *)

(** The nodes [l] lead from [a] to [b], in both directions. *)
Fixpoint seg (h : SnapshotList) (a : Z) (l : list Z) (b : Z) : Prop :=
  match l with
  | [] => next h a = Some b ∧ prev h b = Some a
  | x :: l => next h a = Some x ∧ prev h x = Some a ∧ seg h x l b
  end.

(** The store holds the snapshots [l], addresses with their numbers. *)
Record list_ok (h : SnapshotList) (l : list (Z * Z)) : Prop := {
  ok_nodup : NoDup (head_ :: l.*1);
  ok_seg : seg h head_ l.*1 head_;
  ok_numbers : ∀ p s, (p, s) ∈ l → sequence_number h p = Some s;
  ok_ordered : StronglySorted Z.le l.*2 }.

Lemma seg_app h a l x l' b : seg h a (l ++ x :: l') b ↔ seg h a l x ∧ seg h x l' b.
Proof. revert a. induction l as [|y l IH]; intros a; cbn; [tauto|]. rewrite IH. tauto. Qed.

Lemma seg_frame h h' a l b :
  (∀ p, p ∈ a :: l → next h' p = next h p) → (∀ p, p ∈ l ++ [b] → prev h' p = prev h p) → seg h a l b → seg h' a l b.
Proof.
  revert a. induction l as [|y l IH]; intros a Hn Hp; cbn.
  - intros [H1 H2]. rewrite Hn, Hp by set_solver. done.
  - intros (H1 & H2 & H3). rewrite Hn, Hp by set_solver. split_and!; [done|done|]. apply IH; [|intros; apply Hp|done]; set_solver.
Qed.

Lemma seg_last h a l b : seg h a l b → ∃ p, p ∈ a :: l ∧ prev h b = Some p ∧ next h p = Some b.
Proof. revert a. induction l as [|y l IH]; intros a; cbn; [intros [H1 H2]; exists a; set_solver|]. intros (_ & _ & H). destruct (IH y H) as (p & Hp & ?). exists p. set_solver. Qed.

Lemma seg_first h a l b : seg h a l b → ∃ n, n ∈ l ++ [b] ∧ next h a = Some n ∧ prev h n = Some a.
Proof. destruct l as [|y l]; cbn; [intros []; exists b; set_solver|]. intros (H1 & H2 & _). exists y. set_solver. Qed.

(** A node between the last one and [b]. *)
Lemma seg_snoc h h' a l b p x :
  seg h a l b → prev h b = Some p → NoDup (a :: l) → b ∉ l → x ∉ a :: l → x ≠ b →
  next h' p = Some x → prev h' x = Some p → next h' x = Some b → prev h' b = Some x →
  (∀ q, q ≠ p → q ≠ x → next h' q = next h q) → (∀ q, q ≠ x → q ≠ b → prev h' q = prev h q) →
  seg h' a (l ++ [x]) b.
Proof.
  intros Hseg Hp Hnd Hb Hx Hxb Hn1 Hp1 Hn2 Hp2 Hnf Hpf. revert a Hseg Hnd Hx. induction l as [|y l IH]; intros a Hseg Hnd Hx.
  - cbn in Hseg. destruct Hseg as [_ E]. rewrite Hp in E. injection E as ->. by cbn.
  - destruct (seg_last h a (y :: l) b Hseg) as (p' & _ & E & _). rewrite Hp in E. injection E as <-.
    destruct Hseg as (H1 & H2 & H3). destruct (seg_last h y l b H3) as (p' & Hp' & E & _). rewrite Hp in E. injection E as <-.
    apply NoDup_cons in Hnd as [Ha Hnd]. cbn [app seg]. rewrite Hnf, Hpf by set_solver. split_and!; [done|done|]. apply IH; [set_solver|done|done|set_solver].
Qed.

(** The node [x] is unlinked. *)
Lemma seg_unlink h h' a l1 x l2 b p n :
  seg h a l1 x → seg h x l2 b → prev h x = Some p → next h x = Some n → NoDup (a :: l1 ++ x :: l2) → b ∉ l1 ++ x :: l2 →
  next h' p = Some n → prev h' n = Some p → (∀ q, q ≠ p → q ≠ x → next h' q = next h q) → (∀ q, q ≠ n → q ≠ x → prev h' q = prev h q) →
  seg h' a (l1 ++ l2) b.
Proof.
  intros Hs1 Hs2 Hp Hn Hnd Hb Hn1 Hp1 Hnf Hpf. revert a Hs1 Hnd. induction l1 as [|y l1 IH]; intros a Hs1 Hnd.
  - cbn in Hs1. destruct Hs1 as [_ E]. rewrite Hp in E. injection E as ->. cbn [app] in *. apply NoDup_cons in Hnd as [Ha Hnd]. apply NoDup_cons in Hnd as [Hx Hnd].
    destruct l2 as [|z l2]; cbn in Hs2 |- *; [destruct Hs2 as [E _]; rewrite Hn in E; injection E as ->; done|].
    destruct Hs2 as (E & _ & H3). rewrite Hn in E. injection E as ->. split_and!; [done|done|]. apply NoDup_cons in Hnd as [Hz Hnd]. apply (seg_frame h); [|  |done]; intros q Hq; [apply Hnf|apply Hpf]; set_solver.
  - destruct Hs1 as (H1 & H2 & H3). destruct (seg_last h y l1 x H3) as (p' & Hp' & E & _). rewrite Hp in E. injection E as <-. destruct (seg_first h x l2 b Hs2) as (n' & Hn' & E & _). rewrite Hn in E. injection E as <-.
    cbn [app] in Hnd |- *. apply NoDup_cons in Hnd as [Ha Hnd]. pose proof Hnd as Hnd'. apply NoDup_cons in Hnd' as [Hy _]. cbn [seg]. rewrite Hnf, Hpf by set_solver. split_and!; [done|done|]. apply IH; [set_solver|done|done].
Qed.

Lemma set_next_ok h p q :
  is_Some (next h p) → ∃ h', set_next h p q = Some h' ∧ next h' p = Some q ∧ (∀ r, r ≠ p → next h' r = next h r) ∧
    (∀ r, prev h' r = prev h r) ∧ (∀ r, sequence_number h' r = sequence_number h r).
Proof.
  unfold next, set_next, prev, sequence_number. destruct (h !! p) as [n|] eqn:En; [|by intros []]. intros _. eexists; split; [reflexivity|]. cbn [mbind option_bind].
  split; [by rewrite lookup_insert_eq|]. split_and!; intros r; [intros Hr; by rewrite lookup_insert_ne by congruence| |]; (destruct (decide (r = p)) as [-> |]; [by rewrite lookup_insert_eq, En|by rewrite lookup_insert_ne by congruence]).
Qed.

Lemma set_prev_ok h p q :
  is_Some (prev h p) → ∃ h', set_prev h p q = Some h' ∧ prev h' p = Some q ∧ (∀ r, r ≠ p → prev h' r = prev h r) ∧
    (∀ r, next h' r = next h r) ∧ (∀ r, sequence_number h' r = sequence_number h r).
Proof.
  unfold next, set_prev, prev, sequence_number. destruct (h !! p) as [n|] eqn:En; [|by intros []]. intros _. eexists; split; [reflexivity|]. cbn [mbind option_bind].
  split; [by rewrite lookup_insert_eq|]. split_and!; intros r; [intros Hr; by rewrite lookup_insert_ne by congruence| |]; (destruct (decide (r = p)) as [-> |]; [by rewrite lookup_insert_eq, En|by rewrite lookup_insert_ne by congruence]).
Qed.

Lemma empty_ok h l : list_ok h l → empty h = Some (match l with [] => true | _ => false end).
Proof.
  intros [Hnd Hseg _ _]. unfold empty. destruct l as [|[p s] l]; cbn in Hseg; destruct Hseg as [Hn _]; rewrite Hn; cbn [mbind option_bind]; f_equal.
  apply Z.eqb_neq. cbn in Hnd. apply NoDup_cons in Hnd as [Hh _]. set_solver.
Qed.

(** The first and the last node. *)
Lemma ends_ok h l : list_ok h l → oldest h = fst <$> head l ∧ newest h = fst <$> last l.
Proof.
  intros Hok. unfold oldest, newest. rewrite (empty_ok h l Hok). destruct Hok as [Hnd Hseg _ _]. destruct l as [|[p s] l]; [done|]. cbn [mbind option_bind]. split; [apply Hseg|].
  assert (∀ a l x, seg h a (l ++ [x]) head_ → prev h head_ = Some x) as Hlast by (intros a l' x H; apply seg_app in H as [_ [_ ?]]; done).
  destruct (exists_last (l := (p, s) :: l)) as (l' & [q t] & E); [done|]. rewrite E in *. rewrite last_snoc. cbn. rewrite fmap_app in Hseg. by eapply Hlast.
Qed.

Lemma list_ok_lookup h l p : list_ok h l → p ∈ l.*1 → is_Some (h !! p).
Proof.
  intros Hok ([q s] & -> & Hin)%list_elem_of_fmap. pose proof (ok_numbers _ _ Hok _ _ Hin) as Hs. unfold sequence_number in Hs. cbn. destruct (h !! q); [by eexists|done].
Qed.

Lemma snapshot_New_ok h l x seq :
  list_ok h l → h !! x = None → Forall (λ s, s ≤ seq) l.*2 → ∃ h', New h x seq = Some h' ∧ list_ok h' (l ++ [(x, seq)]).
Proof.
  intros Hok Hx Hle. pose proof (empty_ok h l Hok) as He. destruct (ends_ok h l Hok) as [_ Hlast].
  assert (x ∉ l.*1) as Hxl by (intros Hin; destruct (list_ok_lookup h l x Hok Hin); congruence).
  destruct (seg_last _ _ _ _ (ok_seg _ _ Hok)) as (p & Hp & Hpv & Hnx).
  assert (x ≠ head_) as Hx0. { intros ->. unfold prev in Hpv. by rewrite Hx in Hpv. }
  assert (p ≠ x) as Hpx. { intros ->. unfold next in Hnx. by rewrite Hx in Hnx. }
  set (h1 := <[x := {| sequence_number_ := seq; prev_ := p; next_ := head_ |}]> h).
  assert (∀ r, r ≠ x → h1 !! r = h !! r) as Hframe by (intros r Hr; unfold h1; by rewrite lookup_insert_ne by congruence).
  destruct (set_next_ok h1 p x) as (h2 & Hset2 & Hn2 & Hnf2 & Hpf2 & Hs2); [unfold next in *; rewrite Hframe by done; by eexists|].
  destruct (set_prev_ok h2 head_ x) as (h3 & Hset3 & Hp3 & Hpf3 & Hnf3 & Hs3); [rewrite Hpf2; unfold prev in *; rewrite Hframe by done; by eexists|].
  assert (next h2 x = Some head_) as Hnx2 by (rewrite Hnf2 by done; unfold next, h1; by rewrite lookup_insert_eq).
  assert (prev h1 x = Some p) as Hpv1 by (unfold prev, h1; by rewrite lookup_insert_eq).
  assert (New h x seq = Some h3) as Hnew.
  { unfold New. rewrite He. cbn [mbind option_bind]. assert ((if match l with [] => true | _ => false end then Some true else p ← newest h; s ← sequence_number h p; Some (s <=? seq)) = Some true) as ->.
    { destruct l as [|e l]; [done|]. rewrite Hlast. destruct (exists_last (l := e :: l)) as (l' & [q t] & E); [done|]. rewrite E in *. rewrite last_snoc. cbn [fmap option_fmap option_map fst mbind option_bind].
      rewrite (ok_numbers _ _ Hok q t) by set_solver. cbn [mbind option_bind]. f_equal. apply Z.leb_le. rewrite Forall_forall in Hle. apply Hle. rewrite fmap_app. set_solver. }
    rewrite Hpv. cbn [mbind option_bind]. fold h1. rewrite Hpv1. cbn [mbind option_bind]. rewrite Hset2. cbn [mbind option_bind]. rewrite Hnx2. exact Hset3. }
  exists h3. split; [done|]. destruct Hok as [Hnd Hseg Hnum Hord]. pose proof Hnd as [Hh0 Hnd']%NoDup_cons. split.
  - rewrite fmap_app. change (NoDup ((head_ :: l.*1) ++ [x])). apply NoDup_app. split_and!; [done|set_solver|apply NoDup_singleton].
  - rewrite fmap_app. change ([(x, seq)].*1) with [x]. apply (seg_snoc h h3 head_ l.*1 head_ p x); try done.
    + set_solver.
    + by rewrite Hnf3.
    + by rewrite Hpf3, Hpf2.
    + by rewrite Hnf3.
    + intros q Hqp Hqx. rewrite Hnf3, Hnf2 by done. unfold next. by rewrite Hframe.
    + intros q Hqx Hq0. rewrite Hpf3, Hpf2 by done. unfold prev. by rewrite Hframe.
  - intros q s Hin. rewrite Hs3, Hs2. apply elem_of_app in Hin as [Hin|Hin%list_elem_of_singleton].
    + unfold sequence_number. rewrite Hframe; [by apply Hnum|]. intros ->. apply Hxl. apply list_elem_of_fmap. by exists (x, s).
    + injection Hin as -> ->. unfold sequence_number, h1. by rewrite lookup_insert_eq.
  - rewrite fmap_app. apply StronglySorted_app. split_and!; [|done|repeat constructor]. intros s s' Hs ->%list_elem_of_singleton. rewrite Forall_forall in Hle. by apply Hle.
Qed.

Lemma snapshot_Delete_ok h l1 x s l2 : list_ok h (l1 ++ (x, s) :: l2) → ∃ h', Delete h x = Some h' ∧ list_ok h' (l1 ++ l2).
Proof.
  intros [Hnd Hseg Hnum Hord]. rewrite fmap_app, fmap_cons in *. cbn [fst snd] in *. apply seg_app in Hseg as [Hs1 Hs2]. pose proof Hnd as [Hh0 Hnd']%NoDup_cons.
  apply NoDup_app in Hnd' as Hnd''. destruct Hnd'' as (Hnd1 & Hdis & [Hx2 Hnd2]%NoDup_cons).
  destruct (seg_last _ _ _ _ Hs1) as (p & Hp & Hpv & Hnp). destruct (seg_first _ _ _ _ Hs2) as (n & Hn & Hnx & Hpn).
  assert (p ≠ x) as Hpx by set_solver. assert (n ≠ x) as Hnx' by set_solver.
  destruct (set_next_ok h p n) as (h1 & Hset1 & Hn1 & Hnf1 & Hpf1 & Hsq1); [by eexists|]. destruct (set_prev_ok h1 n p) as (h2 & Hset2 & Hp2 & Hpf2 & Hnf2 & Hsq2); [rewrite Hpf1; by eexists|].
  exists (delete x h2). assert (∀ r, r ≠ x → delete x h2 !! r = h2 !! r) as Hdel by (intros r Hr; by rewrite lookup_delete_ne by congruence). split.
  { unfold Delete. rewrite Hpv, Hnx. cbn [mbind option_bind]. rewrite Hset1. cbn [mbind option_bind]. rewrite Hnf1, Hnx, Hpf1, Hpv by done. cbn [mbind option_bind]. rewrite Hset2. done. }
  split.
  - rewrite fmap_app. apply NoDup_cons. split; [set_solver|]. apply NoDup_app. split_and!; [done|set_solver|done].
  - rewrite fmap_app. apply (seg_unlink h _ head_ l1.*1 x l2.*1 head_ p n); try done.
    + unfold next. rewrite Hdel by done. fold (next h2 p). by rewrite Hnf2.
    + unfold prev. rewrite Hdel by done. done.
    + intros q Hqp Hqx. unfold next at 1. rewrite Hdel by done. fold (next h2 q). by rewrite Hnf2, Hnf1.
    + intros q Hqn Hqx. unfold prev at 1. rewrite Hdel by done. fold (prev h2 q). by rewrite Hpf2, Hpf1.
  - intros q t Hin. unfold sequence_number. assert (q ≠ x). { intros ->. assert (x ∈ l1.*1 ∨ x ∈ l2.*1) as [?|?]; [|set_solver|set_solver]. rewrite !list_elem_of_fmap. apply elem_of_app in Hin as [?|?]; [left|right]; by exists (x, t). }
    rewrite Hdel by done. fold (sequence_number h2 q). rewrite Hsq2, Hsq1. apply Hnum. set_solver.
  - rewrite fmap_app. apply StronglySorted_app in Hord as (Hlt & Ho1 & [Ho2 _]%StronglySorted_inv). apply StronglySorted_app. split_and!; [|done|done]. intros a b Ha Hb. apply Hlt; [done|]. by right.
Qed.

Lemma NewSnapshotList_ok : list_ok NewSnapshotList [].
Proof. split; [apply NoDup_singleton|done|set_solver|constructor]. Qed.

(** The snapshots in use and the last sequence number, after calls of
    [GetSnapshot], [ReleaseSnapshot] and writes. *)
Inductive reachable : SnapshotList → list (Z * Z) → Z → Prop :=
  | reach_init : reachable NewSnapshotList [] 0
  | reach_write h l last last' : reachable h l last → last ≤ last' → reachable h l last'
  | reach_get h l last x h' : reachable h l last → h !! x = None → GetSnapshot h x last = Some h' → reachable h' (l ++ [(x, last)]) last
  | reach_release h l1 x s l2 last h' : reachable h (l1 ++ (x, s) :: l2) last → ReleaseSnapshot h x = Some h' → reachable h' (l1 ++ l2) last.

Lemma reachable_ok h l last : reachable h l last → list_ok h l ∧ Forall (λ s, s ≤ last) l.*2.
Proof.
  induction 1 as [|h l last last' _ [IH IHf] Hle|h l last x h' _ [IH IHf] Hx Hget|h l1 x s l2 last h' _ [IH IHf] Hrel].
  - split; [apply NewSnapshotList_ok|constructor].
  - split; [done|]. eapply Forall_impl; [done|]. cbn. lia.
  - destruct (snapshot_New_ok h l x last IH Hx IHf) as (h1 & E & Hok). unfold GetSnapshot in Hget. rewrite E in Hget. injection Hget as <-. split; [done|]. rewrite fmap_app, Forall_app. split; [done|]. constructor; [cbn; lia|constructor].
  - destruct (snapshot_Delete_ok h l1 x s l2 IH) as (h1 & E & Hok). unfold ReleaseSnapshot in Hrel. rewrite E in Hrel. injection Hrel as <-. split; [done|]. rewrite fmap_app in *. rewrite Forall_app in *. destruct IHf as [H1 H2]. split; [done|]. by apply Forall_cons in H2 as [_ H2].
Qed.

(** In every reachable state a snapshot can be taken and any one in use released,
    no assertion fails, and the bound a compaction takes is at most every
    snapshot in use. *)
Theorem snapshot_list_correct h l last :
  reachable h l last →
  (∀ x, h !! x = None → ∃ h', GetSnapshot h x last = Some h') ∧
  (∀ x s, (x, s) ∈ l → ∃ h', ReleaseSnapshot h x = Some h') ∧
  ∃ s, smallest_snapshot h last = Some s ∧ s ≤ last ∧ Forall (λ t, s ≤ t) l.*2 ∧ (s ∈ l.*2 ∨ l = []).
Proof.
  intros [Hok Hle]%reachable_ok. split_and!.
  - intros x Hx. destruct (snapshot_New_ok h l x last Hok Hx Hle) as (h' & ? & _). by exists h'.
  - intros x s (l1 & l2 & ->)%list_elem_of_split. destruct (snapshot_Delete_ok h l1 x s l2 Hok) as (h' & ? & _). by exists h'.
  - unfold smallest_snapshot. rewrite (empty_ok h l Hok). destruct (ends_ok h l Hok) as [Ho _]. destruct l as [|[p s] l]; [exists last; split_and!; [done|lia|constructor|by right]|]. cbn [mbind option_bind]. rewrite Ho. cbn [head fmap option_fmap option_map fst mbind option_bind].
    exists s. pose proof (ok_ordered _ _ Hok) as Hs. cbn in Hs, Hle. apply StronglySorted_inv in Hs as [_ Hs]. apply Forall_cons in Hle as [? _]. split_and!; [apply (ok_numbers _ _ Hok); by left|done|by constructor|left; by left].
Qed.
