(* ===== verification/Arena.v ===== *)
(** * util/arena: the allocator of a memtable

    An arena hands out pieces of blocks of 4096 bytes, and gives large requests
    a block of their own. The blocks come from [new char[]], a parameter with
    the class of its laws. *)

From Stdlib Require Import ZArith.
From S2P Require Import Prelude.

#[local] Open Scope Z_scope.

(** ** new char[] *)

Class Allocator := {
  Heap : Type;
  (** [None] is an exception. *)
  new_array : Heap → Z → option (Z * Heap);
  (** The live blocks: address and size. *)
  owned : Heap → list (Z * Z) }.

(** Two ranges of addresses without a common byte. *)
Definition apart (r s : Z * Z) : Prop := r.1 + r.2 ≤ s.1 ∨ s.1 + s.2 ≤ r.1.

Class AllocatorLaws (A : Allocator) := {
  new_array_ok h n p h' : 0 < n → new_array h n = Some (p, h') →
    owned h' = (p, n) :: owned h ∧ Forall (apart (p, n)) (owned h) ∧ p `mod` 16 = 0 ∧ 0 < p ∧ p + n < 2 ^ 64 }.

(** ** arena.h, arena.cc *)

Definition kBlockSize : Z := 4096.

Section arena.
Context `{A : Allocator}.

Record Arena := { alloc_ptr_ : Z; alloc_bytes_remaining_ : Z; blocks_ : list Z; memory_usage_ : Z }.

Definition NewArena : Arena := {| alloc_ptr_ := 0; alloc_bytes_remaining_ := 0; blocks_ := []; memory_usage_ := 0 |}.

Definition MemoryUsage (a : Arena) : Z := memory_usage_ a.

Definition AllocateNewBlock (a : Arena) (h : Heap) (block_bytes : Z) : option (Z * Arena * Heap) :=
  '(result, h) ← new_array h block_bytes;
  Some (result, {| alloc_ptr_ := alloc_ptr_ a; alloc_bytes_remaining_ := alloc_bytes_remaining_ a; blocks_ := blocks_ a ++ [result];
                   memory_usage_ := u64 (memory_usage_ a + (block_bytes + 8)) |}, h).

Definition AllocateFallback (a : Arena) (h : Heap) (bytes : Z) : option (Z * Arena * Heap) :=
  if bytes >? kBlockSize / 4 then AllocateNewBlock a h bytes
  else
    '(ptr, a, h) ← AllocateNewBlock a h kBlockSize;
    Some (ptr, {| alloc_ptr_ := ptr + bytes; alloc_bytes_remaining_ := kBlockSize - bytes; blocks_ := blocks_ a; memory_usage_ := memory_usage_ a |}, h).

(** [None] also for the assertion [bytes > 0]. *)
Definition Allocate (a : Arena) (h : Heap) (bytes : Z) : option (Z * Arena * Heap) :=
  if bytes >? 0 then
    if bytes <=? alloc_bytes_remaining_ a then
      Some (alloc_ptr_ a, {| alloc_ptr_ := alloc_ptr_ a + bytes; alloc_bytes_remaining_ := alloc_bytes_remaining_ a - bytes; blocks_ := blocks_ a; memory_usage_ := memory_usage_ a |}, h)
    else AllocateFallback a h bytes
  else None.

(** [align] is 8; [None] also for the assertion that the result is aligned. *)
Definition AllocateAligned (a : Arena) (h : Heap) (bytes : Z) : option (Z * Arena * Heap) :=
  let current_mod := Z.land (alloc_ptr_ a) (8 - 1) in
  let slop := if current_mod =? 0 then 0 else 8 - current_mod in
  let needed := u64 (bytes + slop) in
  '(result, a, h) ← (if needed <=? alloc_bytes_remaining_ a then
      Some (alloc_ptr_ a + slop, {| alloc_ptr_ := alloc_ptr_ a + needed; alloc_bytes_remaining_ := alloc_bytes_remaining_ a - needed; blocks_ := blocks_ a; memory_usage_ := memory_usage_ a |}, h)
    else AllocateFallback a h bytes);
  if Z.land result (8 - 1) =? 0 then Some (result, a, h) else None.

(** A sequence of requests ([true]: aligned), with the ranges handed out. *)
Fixpoint Requests (a : Arena) (h : Heap) (reqs : list (bool * Z)) : option (list (Z * Z) * Arena * Heap) :=
  match reqs with
  | [] => Some ([], a, h)
  | (aligned, n) :: reqs =>
      '(p, a, h) ← (if (aligned : bool) then AllocateAligned a h n else Allocate a h n);
      '(rs, a, h) ← Requests a h reqs;
      Some ((p, n) :: rs, a, h)
  end.

(** ** Lemmas *)

(** The first range lies in the second. *)
Definition within (r s : Z * Z) : Prop := s.1 ≤ r.1 ∧ r.1 + r.2 ≤ s.1 + s.2.

Definition free_range (a : Arena) : Z * Z := (alloc_ptr_ a, alloc_bytes_remaining_ a).

(** The state after the ranges [used] were handed out: [bs] are the blocks with
    their sizes, in the order of the heap. *)
Record arena_ok (a : Arena) (h : Heap) (bs used : list (Z * Z)) : Prop := {
  ok_blocks : blocks_ a = reverse bs.*1;
  ok_owned : ∀ b, b ∈ bs → b ∈ owned h;
  ok_usage : memory_usage_ a = u64 (foldr (λ b s, b.2 + 8 + s) 0 bs);
  ok_used : Forall (λ r, 0 < r.2 ∧ Exists (within r) bs) used;
  ok_apart : ∀ i j r s, i ≠ j → used !! i = Some r → used !! j = Some s → apart r s;
  ok_free : 0 ≤ alloc_bytes_remaining_ a ∧ 0 ≤ alloc_ptr_ a ∧ alloc_ptr_ a + alloc_bytes_remaining_ a < 2 ^ 64;
  ok_free_in : 0 < alloc_bytes_remaining_ a → Exists (within (free_range a)) bs;
  ok_free_apart : 0 < alloc_bytes_remaining_ a → Forall (apart (free_range a)) used }.

Lemma apart_sym r s : apart r s → apart s r.
Proof. unfold apart. tauto. Qed.

Lemma within_apart r s t : within r s → apart s t → apart r t.
Proof. unfold within, apart. lia. Qed.

Lemma within_trans r s t : within r s → within s t → within r t.
Proof. unfold within. lia. Qed.

Lemma apart_cons r used :
  Forall (apart r) used → (∀ i j x y, i ≠ j → used !! i = Some x → used !! j = Some y → apart x y) →
  ∀ i j x y, i ≠ j → (r :: used) !! i = Some x → (r :: used) !! j = Some y → apart x y.
Proof.
  intros Hr Hall [|i] [|j] x y Hij Hi Hj; cbn in Hi, Hj; simplify_eq.
  - by eapply Forall_lookup_1.
  - apply apart_sym. by eapply Forall_lookup_1.
  - eapply (Hall i j); [congruence|done|done].
Qed.

Lemma used_apart_new h a bs used p n :
  arena_ok a h bs used → Forall (apart (p, n)) (owned h) → Forall (apart (p, n)) used.
Proof.
  intros Hok Hnew. rewrite Forall_forall in *. intros r Hr. pose proof (ok_used _ _ _ _ Hok) as Hu. rewrite Forall_forall in Hu. destruct (Hu r Hr) as [_ Hin].
  apply Exists_exists in Hin as (b & Hb & Hw). apply apart_sym, (within_apart r b); [done|]. apply apart_sym, Hnew. by apply (ok_owned _ _ _ _ Hok).
Qed.

(** A piece of the free range. *)
Lemma take_ok a h bs used slop n a' :
  arena_ok a h bs used → 0 ≤ slop → 0 < n → slop + n ≤ alloc_bytes_remaining_ a →
  a' = {| alloc_ptr_ := alloc_ptr_ a + (n + slop); alloc_bytes_remaining_ := alloc_bytes_remaining_ a - (n + slop); blocks_ := blocks_ a; memory_usage_ := memory_usage_ a |} →
  arena_ok a' h bs ((alloc_ptr_ a + slop, n) :: used).
Proof.
  intros Hok Hs Hn Hfit ->. destruct Hok. specialize (ok_free_in0 ltac:(lia)). specialize (ok_free_apart0 ltac:(lia)). assert (within (alloc_ptr_ a + slop, n) (free_range a)) as Hw by (unfold within, free_range; cbn; lia).
  assert (∀ x, within x (free_range a) → Forall (apart x) used) as Hap by (intros x Hx; eapply Forall_impl; [done|]; intros r; by apply within_apart).
  assert (∀ x, within x (free_range a) → Exists (within x) bs) as Hin by (intros x Hx; eapply Exists_impl; [done|]; intros b; by apply within_trans).
  split; cbn; try done.
  - constructor; [cbn; split; [done|by apply Hin]|done].
  - apply apart_cons; [by apply Hap|done].
  - lia.
  - intros Hpos. apply Hin. unfold within, free_range; cbn. lia.
  - intros _. constructor; [unfold apart, free_range; cbn; lia|]. apply Hap. unfold within, free_range; cbn. lia.
Qed.

Context `{!AllocatorLaws A}.

(** A new block, the first [n] bytes of which are handed out. *)
Lemma fresh_ok a h bs used n size p h' :
  arena_ok a h bs used → 0 < n ≤ size → new_array h size = Some (p, h') →
  ∀ a', blocks_ a' = blocks_ a ++ [p] → memory_usage_ a' = u64 (memory_usage_ a + (size + 8)) →
  (alloc_ptr_ a' = alloc_ptr_ a ∧ alloc_bytes_remaining_ a' = alloc_bytes_remaining_ a) ∨ (alloc_ptr_ a' = p + n ∧ alloc_bytes_remaining_ a' = size - n) →
  arena_ok a' h' ((p, size) :: bs) ((p, n) :: used).
Proof.
  intros Hok Hn Hnew a' Hb Hm Hfree. destruct (new_array_ok h size p h' ltac:(lia) Hnew) as (Hown & Hap & _ & Hp & Hfit).
  pose proof (used_apart_new h a bs used p size Hok Hap) as Hused.
  assert (∀ x, within x (p, size) → Forall (apart x) used) as Hin by (intros x Hx; eapply Forall_impl; [done|]; intros r; by apply within_apart).
  assert (Forall (λ r, 0 < r.2 ∧ Exists (within r) ((p, size) :: bs)) ((p, n) :: used)) as Hu.
  { constructor; [cbn; split; [lia|]; left; unfold within; cbn; lia|]. eapply Forall_impl; [apply (ok_used _ _ _ _ Hok)|]. intros r [? ?]. split; [done|by right]. }
  assert (∀ b, b ∈ (p, size) :: bs → b ∈ owned h') as Hb'.
  { intros b Hb'. rewrite Hown. apply elem_of_cons in Hb' as [-> | Hb']; [left|right]. by apply (ok_owned _ _ _ _ Hok). }
  assert (u64 (memory_usage_ a + (size + 8)) = u64 (foldr (λ b s, b.2 + 8 + s) 0 ((p, size) :: bs))) as Em.
  { rewrite (ok_usage _ _ _ _ Hok). unfold u64. cbn. rewrite Zplus_mod_idemp_l. f_equal. lia. }
  destruct Hok. split; try done.
  - by rewrite Hb, ok_blocks0, fmap_cons, reverse_cons.
  - by rewrite Hm.
  - apply apart_cons; [apply Hin; unfold within; cbn; lia|done].
  - destruct Hfree as [[-> ->]|[-> ->]]; lia.
  - unfold free_range. destruct Hfree as [[-> ->]|[-> ->]]; intros Hpos; [right; by apply ok_free_in0|left; unfold within; cbn; lia].
  - unfold free_range. destruct Hfree as [[-> ->]|[-> ->]]; intros Hpos.
    + constructor; [|by apply ok_free_apart0]. specialize (ok_free_in0 Hpos). apply Exists_exists in ok_free_in0 as (b & Hbin & Hw). apply (within_apart _ b); [done|]. apply apart_sym.
      rewrite Forall_forall in Hap. apply (within_apart _ (p, size)); [unfold within; cbn; lia|]. apply Hap. by apply ok_owned0.
    + constructor; [unfold apart; cbn; lia|]. apply Hin. unfold within; cbn. lia.
Qed.

Lemma AllocateFallback_ok a h bs used n p a' h' :
  arena_ok a h bs used → 0 < n → AllocateFallback a h n = Some (p, a', h') → (∃ bs', arena_ok a' h' bs' ((p, n) :: used)) ∧ p `mod` 16 = 0.
Proof.
  intros Hok Hn. unfold AllocateFallback, AllocateNewBlock. destruct (Z.gtb_spec n (kBlockSize / 4)) as [Hbig|Hsmall].
  - destruct (new_array h n) as [[q h1]|] eqn:Hnew; [|done]. intros [= <- <- <-]. split; [|by apply (new_array_ok h n q h1)].
    eexists. eapply fresh_ok; [done| |done|done|done|by left]. lia.
  - destruct (new_array h kBlockSize) as [[q h1]|] eqn:Hnew; [|done]. intros [= <- <- <-]. split; [|by apply (new_array_ok h kBlockSize q h1)].
    eexists. eapply fresh_ok; [done| |done|done|done|by right]. change (kBlockSize / 4) with 1024 in Hsmall. unfold kBlockSize. lia.
Qed.

Lemma Allocate_ok a h bs used n p a' h' :
  arena_ok a h bs used → Allocate a h n = Some (p, a', h') → ∃ bs', arena_ok a' h' bs' ((p, n) :: used).
Proof.
  intros Hok. unfold Allocate. destruct (Z.gtb_spec n 0) as [Hn|]; [|done]. destruct (Z.leb_spec n (alloc_bytes_remaining_ a)) as [Hfit|].
  - intros [= <- <- <-]. exists bs. rewrite <- (Z.add_0_r (alloc_ptr_ a)) at 2. eapply take_ok; [done|done|done|lia|]. by rewrite Z.add_0_r.
  - intros Hf. by eapply AllocateFallback_ok.
Qed.

(** The bytes skipped before an aligned piece. *)
Lemma slop_ok ptr (m := Z.land ptr (8 - 1)) (slop := if m =? 0 then 0 else 8 - m) : 0 ≤ slop < 8 ∧ (ptr + slop) `mod` 8 = 0.
Proof.
  assert (m = ptr `mod` 8) as Em by exact (Z.land_ones ptr 3 ltac:(done)). pose proof (Z.mod_pos_bound ptr 8 ltac:(lia)) as Hm. unfold slop. destruct (Z.eqb_spec m 0) as [E|E].
  - split; [lia|]. rewrite Z.add_0_r. lia.
  - split; [lia|]. rewrite Em, (Z.div_mod ptr 8) at 1 by lia. replace (8 * (ptr / 8) + ptr `mod` 8 + (8 - ptr `mod` 8)) with ((ptr / 8 + 1) * 8) by lia. apply Z.mod_mul. lia.
Qed.

Lemma AllocateAligned_ok a h bs used n p a' h' :
  arena_ok a h bs used → 0 < n < 2 ^ 63 → AllocateAligned a h n = Some (p, a', h') → (∃ bs', arena_ok a' h' bs' ((p, n) :: used)) ∧ p `mod` 8 = 0.
Proof.
  intros Hok Hn. unfold AllocateAligned. pose proof (slop_ok (alloc_ptr_ a)) as [Hs Hal]. set (slop := if Z.land (alloc_ptr_ a) (8 - 1) =? 0 then 0 else _) in *. rewrite u64_id by (unfold u64_ok; lia).
  destruct (Z.leb_spec (n + slop) (alloc_bytes_remaining_ a)) as [Hfit|]; cbn [mbind option_bind].
  - destruct (Z.land (alloc_ptr_ a + slop) (8 - 1) =? 0); [|done]. intros [= <- <- <-]. split; [|done]. exists bs. eapply take_ok; [done|lia|lia|lia|done].
  - destruct (AllocateFallback a h n) as [[[q a1] h1]|] eqn:Hf; [|done]. cbn [mbind option_bind]. destruct (Z.land q _ =? 0) eqn:Eq; [|done]. intros [= -> -> ->].
    split; [apply (AllocateFallback_ok a h bs used n p a' h'); [done|lia|done]|]. apply Z.eqb_eq in Eq. rewrite <- Eq. symmetry. exact (Z.land_ones p 3 ltac:(done)).
Qed.

(** The assertion at the end of [AllocateAligned] holds: it fails only when
    [new] does. *)
Theorem aligned_never_asserts a h bs used n :
  arena_ok a h bs used → 0 < n < 2 ^ 63 → AllocateAligned a h n = None → AllocateFallback a h n = None.
Proof.
  intros Hok Hn. unfold AllocateAligned. pose proof (slop_ok (alloc_ptr_ a)) as [Hs Hal]. set (slop := if Z.land (alloc_ptr_ a) (8 - 1) =? 0 then 0 else _) in *.
  assert (∀ q, q `mod` 8 = 0 → Z.land q (8 - 1) =? 0 = true) as Hland by (intros q Hq; apply Z.eqb_eq; rewrite <- Hq; exact (Z.land_ones q 3 ltac:(done))).
  destruct (_ <=? _); cbn [mbind option_bind]; [rewrite Hland; done|]. destruct (AllocateFallback a h n) as [[[q a1] h1]|] eqn:Hf; [|done]. cbn [mbind option_bind].
  apply (AllocateFallback_ok a h bs used n) in Hf as [_ Hq]; [|done|lia]. rewrite Hland; [done|]. rewrite (Z.div_mod q 16), Hq by lia. replace (16 * (q / 16) + 0) with (2 * (q / 16) * 8) by lia. apply Z.mod_mul. lia.
Qed.

Lemma Requests_ok reqs a h bs used rs a' h' :
  arena_ok a h bs used → Forall (λ r, 0 < r.2 < 2 ^ 63) reqs → Requests a h reqs = Some (rs, a', h') →
  (∃ bs', arena_ok a' h' bs' (reverse rs ++ used)) ∧ Forall2 (λ r q, q.2 = r.2 ∧ (r.1 = true → q.1 `mod` 8 = 0)) reqs rs.
Proof.
  revert a h bs used rs a' h'. induction reqs as [|[al n] reqs IH]; intros a h bs used rs a' h' Hok Hr; cbn [Requests].
  { intros [= <- <- <-]. split; [by exists bs|constructor]. }
  apply Forall_cons in Hr as [Hn Hr]. cbn in Hn. destruct (if al then _ else _) as [[[p a1] h1]|] eqn:Ha; [|done]. cbn [mbind option_bind].
  assert ((∃ bs1, arena_ok a1 h1 bs1 ((p, n) :: used)) ∧ (al = true → p `mod` 8 = 0)) as [[bs1 Hok1] Hal].
  { destruct al; [apply (AllocateAligned_ok a h bs used) in Ha as [? ?]; [by split|done|done]|]. split; [by eapply Allocate_ok|done]. }
  destruct (Requests a1 h1 reqs) as [[[rs1 a2] h2]|] eqn:Hreq; [|done]. intros [= <- <- <-].
  destruct (IH _ _ _ _ _ _ _ Hok1 Hr Hreq) as [[bs' Hok'] Hall]. split; [|by constructor]. exists bs'. rewrite reverse_cons, <- app_assoc. done.
Qed.

(** Only [new] fails. *)
Definition new_fails : Prop := ∃ h n, 0 < n ∧ new_array h n = None.

Lemma AllocateFallback_fails a h n : 0 < n → AllocateFallback a h n = None → new_fails.
Proof.
  intros Hn. unfold AllocateFallback, AllocateNewBlock. destruct (_ >? _).
  - destruct (new_array h n) as [[q h1]|] eqn:Hnew; [done|]. intros _. by exists h, n.
  - destruct (new_array h kBlockSize) as [[q h1]|] eqn:Hnew; [done|]. intros _. by exists h, kBlockSize.
Qed.

Lemma Requests_fails reqs a h bs used :
  arena_ok a h bs used → Forall (λ r, 0 < r.2 < 2 ^ 63) reqs → Requests a h reqs = None → new_fails.
Proof.
  revert a h bs used. induction reqs as [|[al n] reqs IH]; intros a h bs used Hok Hr; cbn [Requests]; [done|]. apply Forall_cons in Hr as [Hn Hr]. cbn in Hn.
  destruct (if al then _ else _) as [[[p a1] h1]|] eqn:Ha; cbn [mbind option_bind].
  - destruct (Requests a1 h1 reqs) as [[[rs1 a2] h2]|] eqn:Hreq; [done|]. intros _.
    destruct al; [apply (AllocateAligned_ok a h bs used) in Ha as [[bs1 Hok1] _]; [|done|done]|apply (Allocate_ok a h bs used) in Ha as [bs1 Hok1]; [|done]]; by eapply IH.
  - intros _. destruct al; [apply (aligned_never_asserts a h bs used) in Ha; [|done|done]; apply (AllocateFallback_fails a h n); [lia|done]|].
    unfold Allocate in Ha. destruct (Z.gtb_spec n 0); [|lia]. destruct (n <=? _); [done|]. apply (AllocateFallback_fails a h n); [lia|done].
Qed.

Lemma NewArena_ok h : arena_ok NewArena h [] [].
Proof. split; cbn; try done; try lia; intros; constructor || set_solver. Qed.

(** Whatever is requested, and however [new] places its blocks: the pieces an
    arena hands out have the sizes asked for, share no byte, lie in its blocks,
    and are aligned where asked; its memory usage is that of the blocks. The
    requests fail only when [new] does. *)
Theorem arena_pieces_apart reqs h :
  Forall (λ r, 0 < r.2 < 2 ^ 63) reqs →
  match Requests NewArena h reqs with
  | Some (rs, a, h') =>
      Forall2 (λ r q, q.2 = r.2 ∧ (r.1 = true → q.1 `mod` 8 = 0)) reqs rs ∧
      (∀ i j r s, i ≠ j → rs !! i = Some r → rs !! j = Some s → apart r s) ∧
      ∃ bs, blocks_ a = reverse bs.*1 ∧ MemoryUsage a = u64 (foldr (λ b s, b.2 + 8 + s) 0 bs) ∧ Forall (λ r, Exists (within r) bs) rs ∧ ∀ b, b ∈ bs → b ∈ owned h'
  | None => ∃ h0 n, 0 < n ∧ new_array h0 n = None
  end.
Proof.
  intros Hr. destruct (Requests NewArena h reqs) as [[[rs a] h']|] eqn:Hreq; [|by apply (Requests_fails reqs NewArena h [] [] (NewArena_ok h) Hr)].
  destruct (Requests_ok reqs NewArena h [] [] rs a h' (NewArena_ok h) Hr Hreq) as [[bs Hok] Hall]. rewrite app_nil_r in Hok. split; [done|]. split.
  - intros i j r s Hij Hi Hj. apply lookup_lt_Some in Hi as Hil. apply lookup_lt_Some in Hj as Hjl.
    apply (ok_apart _ _ _ _ Hok (length rs - S i) (length rs - S j)); [lia|rewrite reverse_lookup by lia; by replace (length rs - S (length rs - S i))%nat with i by lia|].
    rewrite reverse_lookup by lia. by replace (length rs - S (length rs - S j))%nat with j by lia.
  - exists bs. destruct Hok as [H1 H2 H3 H4 _ _ _ _]. split_and!; [done|done| |done]. rewrite Forall_reverse in H4. eapply Forall_impl; [exact H4|]. by intros r [].
Qed.

End arena.

(** ** A bump allocator satisfies the laws *)

Definition bump_new (h : list (Z * Z)) (n : Z) : option (Z * list (Z * Z)) :=
  let p := match h with [] => 16 | (q, m) :: _ => (q + m + 15) / 16 * 16 end in
  if forallb (λ b, b.1 + b.2 <=? p) h && (0 <? p) && (p + n <? 2 ^ 64) then Some (p, (p, n) :: h) else None.

#[export] Instance bump : Allocator := {| Heap := list (Z * Z); new_array := bump_new; owned := id |}.

#[export] Instance bump_laws : AllocatorLaws bump.
Proof.
  split. intros h n p h' Hn. cbn. unfold bump_new. set (q := match h with [] => _ | _ => _ end). destruct (forallb _ h) eqn:Hall; [|done]. destruct (Z.ltb_spec 0 q); [|done]. destruct (Z.ltb_spec (q + n) (2 ^ 64)); [|done].
  cbn. intros [= <- <-]. split_and!; try done.
  - apply Forall_forall. intros b Hb. right. cbn. rewrite forallb_forall in Hall. apply Z.leb_le, Hall. by apply list_elem_of_In.
  - unfold q. destruct h as [|[r m] h]; [done|]. apply Z.mod_divide; [lia|]. apply Z.divide_factor_r.
Qed.

Lemma arena_pieces_apart_witness :
  ∃ a h', Requests (A := bump) NewArena [] [(false, 5); (true, 24); (false, 3000); (false, 2000); (true, 8)] = Some ([(16, 5); (24, 24); (48, 3000); (4112, 2000); (3048, 8)], a, h') ∧
    ∀ i j r s, i ≠ j → [(16, 5); (24, 24); (48, 3000); (4112, 2000); (3048, 8)] !! i = Some r → [(16, 5); (24, 24); (48, 3000); (4112, 2000); (3048, 8)] !! j = Some s → apart r s.
Proof.
  pose proof (arena_pieces_apart (A := bump) [(false, 5); (true, 24); (false, 3000); (false, 2000); (true, 8)] [] ltac:(repeat constructor; cbn; lia)) as H.
  eexists _, _. split; [vm_compute; reflexivity|]. exact (proj1 (proj2 H)).
Defined.
